(* ===== verification/_CoqProject ===== *)
-Q . S2P
Prelude.v
Monad.v
Wide128.v
Types.v
Diag.v
Lexer.v
LexerPos.v
LexRound.v
PPCond.v
PPCondThms.v
PPScan.v
Preproc.v
PreprocInv.v
PreprocFuel.v
PreprocText.v
PreprocFaults.v
OnStack.v
Timers.v
RunQueue.v
RunQueueThms.v
RunQueueOrder.v
Sync.v
SyncThms.v
Heap.v
Controlled.v
ControlledThms.v
Area.v
AreaThms.v
Mem.v
RtString.v
Ast.v
ConstFold.v
Constants.v
Typing.v
ExprParser.v
ExprTotal.v
ExprRound.v
Facts.v
Peephole.v
RtStringThms.v
EffectFile.v
Picture.v
PictureFold.v
Stmts.v
ParserBase.v
DeclParser.v
DeclTotal.v
StmtParser.v
StmtTotal.v
BlockParser.v
BlockTotal.v
ParserThms.v
Hir.v
HirLower.v
HirLowerThms.v
CallGraph.v
Scopes.v
ScopesThms.v
StaticLinks.v
OnCapture.v
Overlay.v
Unset.v
UnsetThms.v
SemaFaults.v
Effects.v
EffectsSound.v
EffectsRecursion.v
EffectsWalk.v
EffectsSpec.v
EffectsThms.v
