(* ===== verification/Prelude.v ===== *)
(** * A verification development for the pli-llvm compiler

    pli-llvm compiles PL/I to LLVM IR.  The source text is preprocessed,
    lexed, parsed to a tree, analysed and typed, lowered to a high-level IR
    and then to LLVM IR that calls a C runtime.  This library models the parts
    of the compiler that decide what a program means, and the parts of the
    runtime that keep its state, as executable Gallina functions that follow the
    C++ and C line by line, and proves what those parts promise.  File names
    below are relative to [src/].

    ** The parts and their files

    - Prelude: this file; machine integers ([uwrap], [swrap]), text as lists of
      characters, the tactics and hint database of the library.  Monad: the
      state monad of the preprocessor and the effect analysis, with its rules.
    - Wide128: [runtime/pli_wide128.h], the two-word 128-bit integers that the
      compiler and the runtime share, operation by operation.
    - Types: [src/types.h], the attribute record [Type] ([Ty] here), equality,
      constructors, queries, storage widths and base conversion.
    - Diag: [src/diag.h], [src/diag.cpp], the diagnostic sink with its counters
      and mute depth (used for speculative parsing) and the source echo.
    - PPCond, PPScan, Preproc: [src/preprocessor.h], [src/preprocessor.cpp], the
      whole preprocessor: the expression evaluator, the raw scanners, and the
      class with its state ([pp]), one definition per handler, and the mutual
      recursion of [scan] and [processDirective].  PPCondThms, PreprocInv,
      PreprocFuel, PreprocText, PreprocFaults: its theorems.
    - Lexer, LexerPos, LexRound: [src/token.h], [src/lexer.h], [src/lexer.cpp].
      The lexer is a state passed explicitly; [run] is the whole of it.
    - Ast: [src/ast.h], the expression node with all its fields.
    - ConstFold: [src/constfold.cpp], in-place folding of constants.
    - Constants: the constant conversions of [src/parser.cpp].
    - ExprParser, ExprTotal, ExprRound: the expression part of
      [src/parser.cpp] and [src/parser.h], a state monad over the token index,
      the nesting depth and the diagnostic sink.
    - Stmts: the declarations, statements, procedures and program of [src/ast.h].
    - ParserBase, DeclParser, DeclTotal, StmtParser, StmtTotal, BlockParser,
      BlockTotal, ParserThms: the rest of [src/parser.cpp] and [src/parser.h].
      [ParserBase] has the token tests, the loops and the calculus of total,
      consuming and strict parsers, over any state with a position (the class
      [Positioned]); [DeclParser] DECLARE; [StmtParser] the statements that hold no
      statement; [BlockParser] the parser object with bodies, procedures, packages
      and the speculative parse; [ParserThms] the lexer and the parser composed as
      [src/main.cpp] composes them.
    - Typing: the result types of [src/sema.cpp] ([arithResultType] and its
      siblings, and the operator cases of [Sema::typeExpr]).
    - Facts, Peephole, EffectFile, Picture, PictureFold, Hir, Effects,
      EffectsSound, EffectsRecursion, EffectsWalk, EffectsSpec, EffectsThms:
      [src/irgen_decisions.cpp], the decision layer, which touches no LLVM, with
      the high-level IR it reads ([src/hir.h], part of [src/sema.h]) and the
      runtime's picture formatter ([runtime/rt_edit.c]) it must agree with.
    - HirLower, HirLowerThms: the lowering of [src/hir.cpp] from the typed tree to
      the high-level IR of [Hir].
    - CallGraph, Scopes, ScopesThms, StaticLinks, OnCapture, Overlay, Unset, UnsetThms,
      SemaFaults: the passes of [src/sema.cpp] and [src/sema.h] over whole programs.  [Scopes]
      is the state of the analysis with its symbols and scopes, as indices into tables,
      and the operations that declare and find names; [CallGraph] rule 5; [StaticLinks]
      which outer variables a procedure is handed, with [appendStaticLinks] of
      [src/irgen.cpp] that hands them; [OnCapture] the check of ON-unit bodies; [Overlay]
      DEFINED items with the addresses [src/irgen.cpp] makes for them; [Unset] the walk behind
      [--warn-unset]; [SemaFaults] programs on which these passes go wrong.
    - OnStack: [runtime/rt_cond.c], a task's stack of ON units.
    - Timers, RunQueue, RunQueueThms, RunQueueOrder: [runtime/rt_sched.c], the
      array of DELAY timers and the lock-free run queues, the latter as programs of
      atomic accesses interleaved by a step relation.
    - Sync, SyncThms: [runtime/rt_sync.c] and the events of [runtime/rt_task.c], fibers
      that interleave between the critical sections of the lock.
    - Heap, Controlled, ControlledThms, Area, AreaThms: [runtime/rt_storage.c],
      the CONTROLLED generation stacks and the areas, over an allocator given as a
      parameter; [Heap] holds the monad, the ownership predicate and its rules.
    - Mem, RtString, RtStringThms: [runtime/rt_string.c] and the memory helpers of
      [runtime/pli_rt_state.h], on a byte memory.

    The parts call each other as in the code: the lexer reads the flat text of
    [Preproc.run] and the sink maps its lines back; the parser reads the tokens of
    [Lexer.run] and reports to the sink of [Diag]; [Typing.typeExpr] calls
    [ConstFold.foldConstExpr] on the trees of the parser; [HirLower] turns the
    statements of [Stmts] into the IR whose effects [Effects] analyses; the passes of the
    semantic analysis read the statements of [Stmts] and the symbols of [Hir], and
    [StaticLinks] starts from the procedure table that [Scopes] builds; the parser and the
    folder use the 128-bit arithmetic of [Wide128] through its wrapped-integer specification; areas raise
    their condition through the stack of [OnStack]; and [RtStringThms] and
    [PictureFold] compare the compile-time decisions with the run-time routines
    they replace.

    ** How the code is rendered

    A fixed-width integer is a [Z] kept in range by explicit wrapping.  A
    string is a list of ASCII characters ([text]).  A [unique_ptr] child is the
    child itself, [None] for null.  A pointer used as an identity (a [Symbol*],
    an [HProc*]) is an index into a table.  A mutated object is returned as a
    new value by the function that mutates it; an early return is a branch.  In
    the runtime, addresses are integers: [Area] and [Mem] keep the pointers and
    make an access to a dead or unmapped address [Wrong]; a program-ending error
    is [Stopped].

    ** Fuel

    The lexer's, the parser's and the preprocessor's recursion takes a fuel.
    [LexerPos] proves that the fuel [run] gives is enough on every source (one
    unit per byte and one more), [ExprTotal] that eight units per token left and
    five are enough for an expression, and [BlockTotal] that one unit per token left
    is enough for every loop and every level of nesting of the parser, because each
    consumes a token; the preprocessor's expressions get nine units
    per character and nine more.  A preprocessor program may loop by design:
    [PreprocFuel] proves that a run that ends is the same under any larger fuel,
    and [PreprocText] gives a bound for text without directives.  The effect
    analysis takes the code's own bound of rounds as its fuel, so running out of
    it is a behaviour of the code.  A lookup walks at most all scopes, a fresh name is
    found after at most all names in use, the search of rule 5 takes a unit per edge, and the
    static links one per level of nesting: the theorems show that none runs out.  Only the chain of
    BASED and DEFINED bases has no bound in the code ([SemaFaults]).  The walks of an area's list and the loop of
    TALLY take a fuel whose exhaustion is [Wrong], and their theorems exclude
    [Wrong].

    ** What the theorems show

    - round trips: lexing, parsing, decoding of constants, the published
      effects file;
    - soundness: constant folding, the picture fold and the string folds against
      the runtime, the effect promises against the call graph;
    - totality and progress of the lexer, the whole parser and the typing; what a
      speculative parse leaves behind;
    - the lowering: same structure and expressions, no conversion left implicit;
    - the analysis: names resolve to the nearest declaration; recursion is reported exactly
      where the text has it; static links and ON-unit captures are exactly what is needed;
      DEFINED items stay inside their base; the warnings of unset variables are those of
      some run, for structured bodies;
    - scheduling: tasks conserved under every interleaving, workers that finish,
      timers neither lost nor early, and how the queues order the tasks; events:
      mutual exclusion, no lost wakeup, termination, and one outcome whatever the schedule;
    - types: equality, storage bounds, result types of the operators;
    - refinement: the 128-bit helpers against wrapped integers; the ON-unit stack
      against one unit per condition and block; CONTROLLED storage against
      generation stacks; areas against regions with a budget;
    - exactness and bounds of the run-time strings, overlap included;
    - invariants: the preprocessor's stacks and line map, the diagnostic sink
      under probes, the fact store, the ownership of heap blocks.

    Where the code does something other than what it states, a theorem proves
    the behaviour at a concrete input.

    ** Not modelled

    - The driver ([src/main.cpp]) apart from its front end, code generation
      ([src/irgen.cpp], [src/codegen.cpp] and the files that emit objects): they
      build LLVM objects through the LLVM API, which is not part of the repository.
    - In [src/sema.cpp] the walk over the DECLARE statements of bodies with INITIAL lists
      and structures, the typing of references and built-in functions, and the checks of the single
      statements; the listing printer of [src/hir.cpp]: not reached.
    - In the preprocessor, a replacement or procedure that redefines itself while
      the code scans it by reference: the code has no defined outcome there.
    - The runtime's input and output, fiber switching, clock and mathematics:
      operating-system effects and floating point; its numeric conversions and stream
      state are not reached.
    - Floating point: [strtod] and the conversion to [double] are parameters of
      the parser. *)
From Stdlib Require Export ZArith Lia Bool Ascii.
From stdpp Require Export base tactics list numbers gmap strings.

#[global] Set Default Proof Using "Type".

Declare Scope pli_scope.
Delimit Scope pli_scope with pli.
Open Scope pli_scope.
Open Scope Z_scope.

Create HintDb pli.

(** ** Machine integers

    An unsigned [w]-bit C++ integer is a [Z] in [0, 2^w); a signed one is a
    [Z] in [-2^(w-1), 2^(w-1)).  The wrap functions give the two's-complement
    reading of a result that left its width. *)
Definition uwrap (w z : Z) : Z := z mod 2 ^ w.
Definition swrap (w z : Z) : Z := (z + 2 ^ (w - 1)) mod 2 ^ w - 2 ^ (w - 1).

Definition urange (w z : Z) : Prop := 0 <= z < 2 ^ w.
Definition srange (w z : Z) : Prop := - 2 ^ (w - 1) <= z < 2 ^ (w - 1).

#[global] Instance urange_dec w z : Decision (urange w z).
Proof. unfold urange. apply _. Defined.
#[global] Instance srange_dec w z : Decision (srange w z).
Proof. unfold srange. apply _. Defined.

Abbreviation u64 := (uwrap 64).
Abbreviation u32 := (uwrap 32).
Abbreviation i32 := (swrap 32).
Abbreviation i64 := (swrap 64).
Abbreviation i128 := (swrap 128).

Lemma uwrap_range w z : 0 <= w -> urange w (uwrap w z).
Proof. intros ?. apply Z.mod_pos_bound. lia. Qed.

Lemma uwrap_small w z : urange w z -> uwrap w z = z.
Proof. intros ?. apply Z.mod_small. done. Qed.

Lemma pow2_double w : 0 < w -> 2 ^ w = 2 * 2 ^ (w - 1).
Proof. intros ?. rewrite <- Z.pow_succ_r by lia. f_equal. lia. Qed.

Lemma swrap_range w z : 0 < w -> srange w (swrap w z).
Proof.
  intros Hw. unfold srange, swrap. pose proof (pow2_double w Hw) as E.
  assert (0 < 2 ^ (w - 1)) by lia.
  pose proof (Z.mod_pos_bound (z + 2 ^ (w - 1)) (2 ^ w)). lia.
Qed.

Lemma swrap_small w z : 0 < w -> srange w z -> swrap w z = z.
Proof.
  intros Hw Hz. unfold srange, swrap in *. pose proof (pow2_double w Hw).
  rewrite Z.mod_small; lia.
Qed.

(** The wrapped value differs from the exact one by a multiple of [2^w]. *)
Lemma swrap_congr w z : 0 < w -> exists k, swrap w z = z + k * 2 ^ w.
Proof.
  intros Hw. unfold swrap. exists (- ((z + 2 ^ (w - 1)) / 2 ^ w)).
  pose proof (Z.div_mod (z + 2 ^ (w - 1)) (2 ^ w)). lia.
Qed.

Lemma uwrap_congr w z : 0 <= w -> exists k, uwrap w z = z + k * 2 ^ w.
Proof.
  intros Hw. unfold uwrap. exists (- (z / 2 ^ w)).
  pose proof (Z.div_mod z (2 ^ w)). lia.
Qed.

(** Two values in the signed range that agree modulo [2^w] are equal. *)
Lemma swrap_unique w z x k : 0 < w -> srange w x -> x = z + k * 2 ^ w -> swrap w z = x.
Proof.
  intros Hw Hx ->. rewrite <- (swrap_small w (z + k * 2 ^ w)) by done.
  unfold swrap. f_equal.
  replace (z + k * 2 ^ w + 2 ^ (w - 1)) with (z + 2 ^ (w - 1) + k * 2 ^ w) by lia.
  by rewrite Z.mod_add by lia.
Qed.

Lemma uwrap_unique w z x k : 0 <= w -> urange w x -> x = z + k * 2 ^ w -> uwrap w z = x.
Proof.
  intros Hw Hx ->. rewrite <- (uwrap_small w (z + k * 2 ^ w)) by done.
  unfold uwrap. by rewrite Z.mod_add by lia.
Qed.

#[export] Hint Resolve uwrap_range swrap_range : pli.

(** ** Characters and strings

    A [std::string] is a list of bytes ([ascii]); [txt] reads a literal. *)
Abbreviation char := ascii (only parsing).
Abbreviation text := (list ascii).

Definition txt (s : string) : text := String.list_ascii_of_string s.
#[global] Arguments txt _ : simpl never.

(** The unsigned code of a character, C++'s [(unsigned char)c]. *)
Definition code (c : char) : Z := Z.of_N (N_of_ascii c).
Definition char_of (z : Z) : char := ascii_of_N (Z.to_N (z mod 256)).

Definition NUL : char := Ascii.zero.
Definition newline : char := "010"%char.
Definition squote : char := "'"%char.
Definition dquote : char := "034"%char.

Definition is_empty {A} (l : list A) : bool := match l with [] => true | _ => false end.
Definition b2z (b : bool) : Z := if b then 1 else 0.
Definition text_eqb (a b : text) : bool := bool_decide (a = b).
Definition ceqb (a b : char) : bool := bool_decide (a = b).

(** The <cctype> predicates, in the "C" locale. *)
Definition is_digit (c : char) : bool := (48 <=? code c) && (code c <=? 57).
Definition is_upper (c : char) : bool := (65 <=? code c) && (code c <=? 90).
Definition is_lower (c : char) : bool := (97 <=? code c) && (code c <=? 122).
Definition is_alpha (c : char) : bool := is_upper c || is_lower c.
Definition is_alnum (c : char) : bool := is_alpha c || is_digit c.
Definition is_space (c : char) : bool :=
  (code c =? 32) || ((9 <=? code c) && (code c <=? 13)).
Definition to_upper (c : char) : char := if is_lower c then char_of (code c - 32) else c.

Lemma code_range c : 0 <= code c < 256.
Proof.
  unfold code. pose proof (N_ascii_bounded c). lia.
Qed.

Lemma char_of_code c : char_of (code c) = c.
Proof.
  unfold char_of. rewrite Z.mod_small by apply code_range.
  unfold code. rewrite N2Z.id. apply ascii_N_embedding.
Qed.

Lemma code_char_of z : 0 <= z < 256 -> code (char_of z) = z.
Proof.
  intros Hz. unfold code, char_of. rewrite Z.mod_small by done.
  rewrite N_ascii_embedding; lia.
Qed.

Lemma code_inj c d : code c = code d -> c = d.
Proof. intros E. by rewrite <- (char_of_code c), <- (char_of_code d), E. Qed.

Lemma ceqb_code a b : ceqb a b = (code a =? code b).
Proof.
  unfold ceqb. case_bool_decide as H; [subst; lia|].
  symmetry. apply Z.eqb_neq. intros E. by apply H, code_inj.
Qed.

Lemma ceqb_refl a : ceqb a a = true.
Proof. by apply bool_decide_eq_true. Qed.
Lemma ceqb_true a b : ceqb a b = true <-> a = b.
Proof. apply bool_decide_eq_true. Qed.
Lemma ceqb_false a b : ceqb a b = false <-> a <> b.
Proof. apply bool_decide_eq_false. Qed.

(** Character tests as arithmetic on codes: [char_codes] rewrites every test of
    the goal and the hypotheses, so that [lia] decides them. *)
Ltac eval_codes :=
  repeat match goal with
  | |- context [code (Ascii ?a ?b ?c ?d ?e ?f ?g ?h)] =>
      let t := constr:(code (Ascii a b c d e f g h)) in
      let v := eval vm_compute in t in change t with v in *
  | H : context [code (Ascii ?a ?b ?c ?d ?e ?f ?g ?h)] |- _ =>
      let t := constr:(code (Ascii a b c d e f g h)) in
      let v := eval vm_compute in t in change t with v in *
  end.
Ltac char_codes :=
  rewrite ?ceqb_code in *; unfold is_digit, is_alnum, is_alpha, is_upper, is_lower, is_space in *;
  unfold NUL, newline, squote, dquote, Ascii.zero in *; eval_codes.

(** ** Positions in a string

    [s !! i] is [s[i]]; [at_] reads past the end as NUL, the way the lexer's
    [cur] and [peek] do. *)
Definition at_ (s : text) (i : nat) : char := default NUL (s !! i).

Definition substr (s : text) (pos n : nat) : text := take n (drop pos s).
Definition substr_from (s : text) (pos : nat) : text := drop pos s.

(** [while (i < s.size() && P(s[i])) ++i;] *)
Fixpoint prefix_len (P : char -> bool) (s : text) : nat :=
  match s with
  | [] => 0
  | c :: s' => if P c then S (prefix_len P s') else 0
  end.
Definition skip_while (P : char -> bool) (s : text) (i : nat) : nat :=
  (i + prefix_len P (drop i s))%nat.

Lemma prefix_len_le P s : (prefix_len P s <= length s)%nat.
Proof. induction s as [|c s IH]; simpl; [done|]. destruct (P c); simpl; lia. Qed.

Lemma skip_while_ge P s i : (i <= skip_while P s i)%nat.
Proof. unfold skip_while. lia. Qed.

Lemma skip_while_le P s i : (i <= length s)%nat -> (skip_while P s i <= length s)%nat.
Proof.
  intros ?. unfold skip_while. pose proof (prefix_len_le P (drop i s)).
  rewrite length_drop in *. lia.
Qed.

(** The loop equation of [skip_while]: one test, one increment. *)
Lemma skip_while_unfold P s i :
  skip_while P s i =
  match s !! i with
  | Some c => if P c then skip_while P s (S i) else i
  | None => i
  end.
Proof.
  unfold skip_while. destruct (s !! i) as [c|] eqn:E.
  - rewrite (drop_S _ _ _ E). simpl. destruct (P c); lia.
  - apply lookup_ge_None in E. rewrite drop_ge by done. simpl. lia.
Qed.

(** ** Decimal rendering: [std::to_string] *)
Definition digit_char (d : Z) : char := char_of (48 + d).

Fixpoint dec_digits (fuel : nat) (z : Z) (acc : text) : text :=
  match fuel with
  | O => acc
  | S f =>
      let acc' := digit_char (z mod 10) :: acc in
      if z / 10 =? 0 then acc' else dec_digits f (z / 10) acc'
  end.
Definition dec_fuel (z : Z) : nat := S (Z.to_nat (Z.log2 z)).
Definition to_string (z : Z) : text :=
  if z <? 0 then "-"%char :: dec_digits (dec_fuel (- z)) (- z) []
  else dec_digits (dec_fuel z) z [].

(** The value of a decimal digit string, most significant digit first. *)
Definition dec_value_from (v : Z) (s : text) : Z :=
  fold_left (fun v c => v * 10 + (code c - 48)) s v.
Abbreviation dec_value := (dec_value_from 0).

Lemma dec_value_from_app v s1 s2 :
  dec_value_from v (s1 ++ s2) = dec_value_from (dec_value_from v s1) s2.
Proof. apply fold_left_app. Qed.

Lemma code_digit_char d : 0 <= d < 10 -> code (digit_char d) = 48 + d.
Proof. intros ?. apply code_char_of. lia. Qed.

Lemma is_digit_digit_char d : 0 <= d < 10 -> is_digit (digit_char d) = true.
Proof. intros ?. unfold is_digit. rewrite code_digit_char by done. lia. Qed.

(** [to_string] renders decimal digits whose value is the number. *)
Lemma dec_digits_spec fuel z acc :
  0 <= z < 2 ^ Z.of_nat fuel -> (0 < fuel)%nat ->
  exists s, dec_digits fuel z acc = s ++ acc /\ s <> [] /\
    forallb is_digit s = true /\ dec_value s = z.
Proof.
  revert z acc. induction fuel as [|f IH]; intros z acc Hz Hf; [lia|].
  pose proof (Z.div_mod z 10 ltac:(lia)) as Ediv.
  pose proof (Z.mod_pos_bound z 10 ltac:(lia)) as Hmod.
  assert (dec_value [digit_char (z mod 10)] = z mod 10) as Hd.
  { cbn [dec_value_from fold_left]. rewrite code_digit_char by done. lia. }
  cbn [dec_digits]. destruct (Z.eqb_spec (z / 10) 0) as [E|E].
  - exists [digit_char (z mod 10)]. repeat split; [done| |].
    + cbn. by rewrite is_digit_digit_char.
    + rewrite Hd. lia.
  - rewrite Nat2Z.inj_succ, Z.pow_succ_r in Hz by lia.
    assert (0 < f)%nat. { destruct f; [cbn in Hz; lia | lia]. }
    destruct (IH (z / 10) (digit_char (z mod 10) :: acc)) as (s & -> & Hne & Hdig & Hv); [lia..|].
    exists (s ++ [digit_char (z mod 10)]). rewrite <- app_assoc. repeat split.
    + intros [? ?]%app_eq_nil. done.
    + rewrite forallb_app, Hdig. cbn. by rewrite is_digit_digit_char.
    + rewrite dec_value_from_app, Hv. unfold dec_value_from. cbn [fold_left].
      rewrite code_digit_char by done. lia.
Qed.

Lemma dec_fuel_enough z : 0 <= z -> z < 2 ^ Z.of_nat (dec_fuel z).
Proof.
  intros Hz. unfold dec_fuel. pose proof (Z.log2_nonneg z).
  rewrite Nat2Z.inj_succ, Z2Nat.id by done.
  destruct (Z.eq_dec z 0) as [->|]; [done|]. apply Z.log2_spec. lia.
Qed.

Lemma to_string_nonneg z :
  0 <= z -> to_string z <> [] /\ forallb is_digit (to_string z) = true /\ dec_value (to_string z) = z.
Proof.
  intros Hz. unfold to_string. destruct (Z.ltb_spec z 0); [lia|].
  destruct (dec_digits_spec (dec_fuel z) z []) as (s & -> & ?).
  - split; [done|]. by apply dec_fuel_enough.
  - unfold dec_fuel. lia.
  - by rewrite app_nil_r.
Qed.

(** ** Bit operations as arithmetic *)
Lemma testbit_small b n i : 0 <= b < 2 ^ n -> n <= i -> Z.testbit b i = false.
Proof.
  intros Hb Hi. destruct (Z.eq_dec b 0) as [->|]; [apply Z.bits_0|].
  apply Z.bits_above_log2; [lia|]. apply Z.log2_lt_pow2; [lia|].
  eapply Z.lt_le_trans; [apply Hb|]. apply Z.pow_le_mono_r; lia.
Qed.

Lemma land_shift_disjoint a b n : 0 <= n -> 0 <= b < 2 ^ n -> Z.land (a * 2 ^ n) b = 0.
Proof.
  intros Hn Hb. rewrite <- Z.shiftl_mul_pow2 by done.
  apply Z.bits_inj'. intros i Hi. rewrite Z.land_spec, Z.bits_0.
  destruct (Z.ltb_spec i n).
  - by rewrite Z.shiftl_spec_low.
  - by rewrite (testbit_small b n i), andb_false_r.
Qed.

Lemma lor_add_disjoint a b n : 0 <= n -> 0 <= b < 2 ^ n -> Z.lor (a * 2 ^ n) b = a * 2 ^ n + b.
Proof.
  intros Hn Hb. pose proof (land_shift_disjoint a b n Hn Hb) as Hl.
  by rewrite Z.add_nocarry_lxor, Z.lxor_lor.
Qed.

(** ** Wrapping composes *)
Lemma uwrap_eq w x y k : 0 <= w -> x = y + k * 2 ^ w -> uwrap w x = uwrap w y.
Proof. intros Hw ->. unfold uwrap. by rewrite Z.mod_add by lia. Qed.

Lemma swrap_eq w x y k : 0 < w -> x = y + k * 2 ^ w -> swrap w x = swrap w y.
Proof.
  intros Hw ->. destruct (swrap_congr w y Hw) as [m Em].
  eapply swrap_unique with (k := m - k); [done|by apply swrap_range|lia].
Qed.

Lemma swrap_uwrap w z : 0 < w -> swrap w (uwrap w z) = swrap w z.
Proof.
  intros Hw. destruct (uwrap_congr w z ltac:(lia)) as [k E].
  by apply swrap_eq with (k := k).
Qed.

Lemma dec_digits_acc f z acc : dec_digits f z acc = dec_digits f z [] ++ acc.
Proof.
  revert z acc. induction f as [|f IH]; intros z acc; [done|]. cbn [dec_digits].
  destruct (z / 10 =? 0); [done|].
  rewrite IH, (IH _ [_]), <- app_assoc. done.
Qed.

Lemma dec_digits_fuel f g z acc : 0 <= z -> z < 2 ^ Z.of_nat f -> z < 2 ^ Z.of_nat g ->
  (0 < f)%nat -> (0 < g)%nat -> dec_digits f z acc = dec_digits g z acc.
Proof.
  revert g z acc. induction f as [|f IH]; intros g z acc Hz Hf Hg ??; [lia|].
  destruct g as [|g]; [lia|]. cbn [dec_digits].
  pose proof (Z.div_mod z 10 ltac:(lia)). pose proof (Z.mod_pos_bound z 10 ltac:(lia)).
  rewrite Nat2Z.inj_succ, Z.pow_succ_r in Hf, Hg by lia.
  destruct (Z.eqb_spec (z / 10) 0); [done|].
  apply IH; try lia; [destruct f|destruct g]; cbn in Hf, Hg; lia.
Qed.

(** ** Tactics

    [by_dec] closes a closed decidable goal by evaluation. *)
Ltac by_dec := apply (bool_decide_eq_true_1 _); vm_compute; reflexivity.
