(* ===== verification/Monad.v ===== *)
(** * The state monad of the recursive-descent code

    Code that threads an object's members through recursive calls is a function
    of the state.  The outer [None] means that the fuel of the recursion ran
    out; totality theorems exclude it.  [wp] is the weakest precondition that
    the proofs about such code are written in. *)
From S2P Require Import Prelude.

Definition ST (S A : Type) : Type := S -> option (A * S).
Definition ret {S A} (x : A) : ST S A := fun st => Some (x, st).
Definition bind {S A B} (m : ST S A) (f : A -> ST S B) : ST S B :=
  fun st => match m st with Some (x, st') => f x st' | None => None end.
Definition out_of_fuel {S A} : ST S A := fun _ => None.
Definition get {S A} (f : S -> A) : ST S A := fun st => Some (f st, st).
Definition modify {S} (f : S -> S) : ST S unit := fun st => Some (tt, f st).

Notation "'let*' x := m 'in' k" := (bind m (fun x => k))
  (at level 10, x pattern, m at level 100, k at level 200) : pli_scope.
Notation "m ;; k" := (bind m (fun _ => k))
  (at level 100, k at level 200, right associativity) : pli_scope.

Definition wp {S A} (m : ST S A) (st : S) (Q : A -> S -> Prop) : Prop :=
  match m st with Some (x, st') => Q x st' | None => False end.

Section Rules.
Context {S : Type}.

Lemma wp_ret {A} (x : A) (st : S) (Q : A -> S -> Prop) : Q x st -> wp (ret x) st Q.
Proof. done. Qed.
Lemma wp_bind {A B} (m : ST S A) (f : A -> ST S B) st (Q : B -> S -> Prop) :
  wp m st (fun x st' => wp (f x) st' Q) -> wp (bind m f) st Q.
Proof. unfold wp, bind. destruct (m st) as [[x st']|]; done. Qed.
Lemma wp_mono {A} (m : ST S A) st (Q Q' : A -> S -> Prop) :
  wp m st Q -> (forall x st', Q x st' -> Q' x st') -> wp m st Q'.
Proof. unfold wp. destruct (m st) as [[x st']|]; auto. Qed.
Lemma wp_get {A} (f : S -> A) st (Q : A -> S -> Prop) : Q (f st) st -> wp (get f) st Q.
Proof. done. Qed.
Lemma wp_modify (f : S -> S) st (Q : unit -> S -> Prop) : Q tt (f st) -> wp (modify f) st Q.
Proof. done. Qed.
Lemma wp_elim {A} (m : ST S A) st (Q : A -> S -> Prop) : wp m st Q ->
  exists x st', m st = Some (x, st') /\ Q x st'.
Proof. unfold wp. destruct (m st) as [[x st']|]; [eauto|done]. Qed.
End Rules.
