(* ===== verification/Wide128.v ===== *)
(** * Portable 128-bit integers ([runtime/pli_wide128.h])

    The portable branch of every helper ([PLI_WIDE128_PORTABLE]): a 128-bit
    value is a pair of 64-bit halves.  The theorems state that each helper
    computes what the native [__int128] branch computes. *)
From S2P Require Import Prelude.

(** ** Representation *)
Record PliU128 := mkU128 { lo : Z; hi : Z }.
Record PliI128 := mkI128 { slo : Z; shi : Z }.

Definition U128_ok (a : PliU128) : Prop := urange 64 (lo a) /\ urange 64 (hi a).
Definition I128_ok (a : PliI128) : Prop := urange 64 (slo a) /\ srange 64 (shi a).

#[global] Instance U128_ok_dec a : Decision (U128_ok a).
Proof. unfold U128_ok. apply _. Defined.
#[global] Instance I128_ok_dec a : Decision (I128_ok a).
Proof. unfold I128_ok. apply _. Defined.

(** The native value a pair stands for. *)
Definition u_val (a : PliU128) : Z := lo a + 2 ^ 64 * hi a.
Definition s_val (a : PliI128) : Z := slo a + 2 ^ 64 * shi a.

(** ** Construction, predicates, casts *)
Definition pli_u128 (l h : Z) : PliU128 := mkU128 l h.
Definition pli_from_i64 (v : Z) : PliI128 := mkI128 (u64 v) (if v <? 0 then -1 else 0).
Definition pli_iszero_u (v : PliU128) : bool := (lo v =? 0) && (hi v =? 0).
Definition pli_iszero_s (v : PliI128) : bool := (slo v =? 0) && (shi v =? 0).
Definition pli_isneg_s (v : PliI128) : bool := shi v <? 0.
Definition pli_to_u (v : PliI128) : PliU128 := mkU128 (slo v) (u64 (shi v)).
Definition pli_to_s (v : PliU128) : PliI128 := mkI128 (lo v) (i64 (hi v)).

(** ** Unsigned core *)

Definition pli_add_u (a b : PliU128) : PliU128 :=
  let rlo := u64 (lo a + lo b) in
  mkU128 rlo (u64 (u64 (hi a + hi b) + b2z (rlo <? lo a))).

Definition pli_sub_u (a b : PliU128) : PliU128 :=
  mkU128 (u64 (lo a - lo b)) (u64 (u64 (hi a - hi b) - b2z (lo a <? lo b))).

Definition pli_neg_u (v : PliU128) : PliU128 :=
  mkU128 (u64 (0 - lo v)) (u64 (u64 (0 - hi v) - b2z (negb (lo v =? 0)))).

Definition pli_cmp_u (a b : PliU128) : Z :=
  if negb (hi a =? hi b) then (if hi a <? hi b then -1 else 1)
  else if negb (lo a =? lo b) then (if lo a <? lo b then -1 else 1)
  else 0.

(** One inner iteration of the schoolbook multiply: the limb [r[i+j]], the
    partial product and the incoming carry give the new limb and carry. *)
Definition mul_step (xi yj rij carry : Z) : Z * Z :=
  let p := u64 (xi * yj) in
  let t := u64 (u64 (rij + Z.land p 0xFFFFFFFF) + carry) in
  (u32 t, u64 (Z.shiftr t 32 + Z.shiftr p 32)).

(** [for (j = 0; j + i < 4; j++)]: [todo] iterations starting at [j]. *)
Fixpoint mul_inner (x y : list Z) (i j todo : nat) (r : list Z) (carry : Z) : list Z :=
  match todo with
  | O => r
  | S n =>
      let '(limb, carry') := mul_step (nth i x 0) (nth j y 0) (nth (i + j) r 0) carry in
      mul_inner x y i (S j) n (<[(i + j)%nat := limb]> r) carry'
  end.

(** [for (i = 0; i < 4; i++) { carry = 0; ... }] *)
Fixpoint mul_outer (x y : list Z) (i todo : nat) (r : list Z) : list Z :=
  match todo with
  | O => r
  | S n => mul_outer x y (S i) n (mul_inner x y i 0 (4 - i) r 0)
  end.

Definition limbs (a : PliU128) : list Z :=
  [u32 (lo a); u32 (Z.shiftr (lo a) 32); u32 (hi a); u32 (Z.shiftr (hi a) 32)].

Definition pli_mul_u (a b : PliU128) : PliU128 :=
  let r := mul_outer (limbs a) (limbs b) 0 4 [0; 0; 0; 0] in
  mkU128 (Z.lor (u64 (Z.shiftl (nth 1 r 0) 32)) (nth 0 r 0))
         (Z.lor (u64 (Z.shiftl (nth 3 r 0) 32)) (nth 2 r 0)).

(** One iteration of the restoring shift-subtract division, bit [i]. *)
Record divst := mkDiv { qlo : Z; qhi : Z; rlo : Z; rhi : Z }.

(** (The update of [carry] after the subtraction is a dead store.) *)
Definition div_step (n d : PliU128) (i : Z) (s : divst) : divst :=
  let bit := Z.land (if 64 <=? i then Z.shiftr (hi n) (i - 64) else Z.shiftr (lo n) i) 1 in
  let carry := Z.shiftr (rhi s) 63 in
  let rhi' := Z.lor (u64 (Z.shiftl (rhi s) 1)) (Z.shiftr (rlo s) 63) in
  let rlo' := Z.lor (u64 (Z.shiftl (rlo s) 1)) bit in
  if negb (carry =? 0) || (0 <=? pli_cmp_u (pli_u128 rlo' rhi') d) then
    let blo := u64 (rlo' - lo d) in
    let b0 := b2z (rlo' <? lo d) in
    let bhi := u64 (u64 (rhi' - hi d) - b0) in
    if 64 <=? i
    then mkDiv (qlo s) (Z.lor (qhi s) (u64 (Z.shiftl 1 (i - 64)))) blo bhi
    else mkDiv (Z.lor (qlo s) (u64 (Z.shiftl 1 i))) (qhi s) blo bhi
  else mkDiv (qlo s) (qhi s) rlo' rhi'.

(** [for (i = 127; i >= 0; --i)]: [todo] iterations, the next bit is [todo-1]. *)
Fixpoint div_loop (n d : PliU128) (todo : nat) (s : divst) : divst :=
  match todo with
  | O => s
  | S k => div_loop n d k (div_step n d (Z.of_nat k) s)
  end.

Definition pli_divmod_u (n d : PliU128) : PliU128 * PliU128 :=
  let s := div_loop n d 128 (mkDiv 0 0 0 0) in
  (pli_u128 (qlo s) (qhi s), pli_u128 (rlo s) (rhi s)).

(** [pli_divmod10]: the quotient replaces the argument, the remainder is returned. *)
Definition pli_divmod10 (v : PliU128) : PliU128 * Z :=
  let '(q, r) := pli_divmod_u v (pli_u128 10 0) in (q, u32 (lo r)).

(** ** Signed operations *)
Definition pli_neg_s (v : PliI128) : PliI128 := pli_to_s (pli_neg_u (pli_to_u v)).
Definition pli_mag_s (v : PliI128) : PliU128 :=
  if pli_isneg_s v then pli_neg_u (pli_to_u v) else pli_to_u v.

Definition pli_sdiv (a b : PliI128) : PliI128 :=
  if pli_iszero_u (pli_to_u b) then pli_to_s (pli_u128 0 0)
  else
    let neg := xorb (pli_isneg_s a) (pli_isneg_s b) in
    let '(q, _) := pli_divmod_u (pli_mag_s a) (pli_mag_s b) in
    if neg then pli_neg_s (pli_to_s q) else pli_to_s q.

Definition pli_slo64 (v : PliI128) : Z := slo v.
Definition pli_shi64 (v : PliI128) : Z := u64 (shi v).
Definition pli_to_i64 (v : PliI128) : Z := i64 (slo v).

(** The digit loop of [pli_to_dec_string]; 39 digits hold every magnitude. *)
Fixpoint dec_loop (fuel : nat) (u : PliU128) (s : text) : text :=
  match fuel with
  | O => s
  | S f =>
      if pli_iszero_u u then s
      else let '(q, r) := pli_divmod10 u in dec_loop f q (s ++ [digit_char r])
  end.
Definition pli_to_dec_string (v : PliI128) : text :=
  if pli_iszero_s v then txt "0"
  else
    let s := dec_loop 40 (pli_mag_s v) [] in
    let s := if pli_isneg_s v then s ++ ["-"%char] else s in
    rev s.

(** The operator sugar of the portable build. *)
Definition op_add (a b : PliI128) : PliI128 := pli_to_s (pli_add_u (pli_to_u a) (pli_to_u b)).
Definition op_sub (a b : PliI128) : PliI128 := pli_to_s (pli_sub_u (pli_to_u a) (pli_to_u b)).
Definition op_neg (a : PliI128) : PliI128 := pli_neg_s a.
Definition op_mul (a b : PliI128) : PliI128 := pli_to_s (pli_mul_u (pli_to_u a) (pli_to_u b)).
Definition op_div (a b : PliI128) : PliI128 := pli_sdiv a b.
Definition op_eq (a b : PliI128) : bool := (slo a =? slo b) && (shi a =? shi b).
Definition op_lt (a b : PliI128) : bool :=
  let an := pli_isneg_s a in let bn := pli_isneg_s b in
  if negb (Bool.eqb an bn) then an
  else pli_cmp_u (pli_to_u a) (pli_to_u b) <? 0.

(** ** Each helper against the native value *)
#[local] Ltac Zify.zify_post_hook ::= Z.to_euclidean_division_equations.
#[local] Ltac w128 := unfold U128_ok, I128_ok, u_val, s_val, urange, srange, uwrap, swrap, b2z in *; cbn [lo hi slo shi] in *.

Lemma add_spec a b : U128_ok a -> U128_ok b ->
  U128_ok (pli_add_u a b) /\ u_val (pli_add_u a b) = uwrap 128 (u_val a + u_val b).
Proof.
  destruct a as [al ah], b as [bl bh]. unfold pli_add_u. w128. intros.
  destruct (Z.ltb_spec ((al + bl) mod 2 ^ 64) al); lia.
Qed.
Lemma sub_spec a b : U128_ok a -> U128_ok b ->
  U128_ok (pli_sub_u a b) /\ u_val (pli_sub_u a b) = uwrap 128 (u_val a - u_val b).
Proof.
  destruct a as [al ah], b as [bl bh]. unfold pli_sub_u. w128. intros.
  destruct (Z.ltb_spec al bl); lia.
Qed.
Lemma neg_spec a : U128_ok a ->
  U128_ok (pli_neg_u a) /\ u_val (pli_neg_u a) = uwrap 128 (- u_val a).
Proof.
  destruct a as [al ah]. unfold pli_neg_u. w128. intros.
  destruct (Z.eqb_spec al 0); cbn [negb]; lia.
Qed.
Lemma cmp_spec a b : U128_ok a -> U128_ok b ->
  pli_cmp_u a b = match u_val a ?= u_val b with Lt => -1 | Eq => 0 | Gt => 1 end.
Proof.
  destruct a as [al ah], b as [bl bh]. unfold pli_cmp_u. w128. intros.
  destruct (Z.compare_spec (al + 2 ^ 64 * ah) (bl + 2 ^ 64 * bh)),
    (Z.eqb_spec ah bh), (Z.ltb_spec ah bh), (Z.eqb_spec al bl), (Z.ltb_spec al bl); cbn; lia.
Qed.
Lemma to_u_spec a : I128_ok a -> U128_ok (pli_to_u a) /\ u_val (pli_to_u a) = uwrap 128 (s_val a).
Proof. destruct a as [al ah]. unfold pli_to_u. w128. lia. Qed.
Lemma to_s_spec a : U128_ok a -> I128_ok (pli_to_s a) /\ s_val (pli_to_s a) = swrap 128 (u_val a).
Proof. destruct a as [al ah]. unfold pli_to_s. w128. lia. Qed.
Lemma isneg_spec a : I128_ok a -> pli_isneg_s a = (s_val a <? 0).
Proof. destruct a as [al ah]. unfold pli_isneg_s. w128. lia. Qed.
Lemma mag_spec a : I128_ok a -> U128_ok (pli_mag_s a) /\ u_val (pli_mag_s a) = Z.abs (s_val a).
Proof.
  intros H. unfold pli_mag_s. rewrite isneg_spec by done.
  destruct (to_u_spec a H) as [Hu Ev]. destruct (neg_spec _ Hu) as [Hn En].
  assert (srange 128 (s_val a)) by (destruct a; w128; lia).
  destruct (Z.ltb_spec (s_val a) 0); split; try done.
  - rewrite En, Ev. w128. lia. 
  - rewrite Ev. w128. lia.
Qed.
Lemma mul_step_spec x y r c :
  urange 32 x -> urange 32 y -> urange 32 r -> 0 <= c < 2 ^ 33 ->
  let '(r', c') := mul_step x y r c in
  urange 32 r' /\ 0 <= c' < 2 ^ 33 /\ r' + 2 ^ 32 * c' = r + x * y + c.
Proof.
  intros Hx Hy Hr Hc. unfold mul_step.
  change 0xFFFFFFFF with (Z.ones 32). rewrite Z.land_ones, !Z.shiftr_div_pow2 by lia.
  unfold urange in *.
  assert (0 <= x * y <= (2 ^ 32 - 1) * (2 ^ 32 - 1)) by nia.
  generalize dependent (x * y). intros p Hp. w128. lia.
Qed.

Lemma join_limbs h l : urange 32 h -> urange 32 l -> Z.lor (u64 (Z.shiftl h 32)) l = h * 2 ^ 32 + l.
Proof.
  intros Hh Hl. rewrite Z.shiftl_mul_pow2, uwrap_small by (unfold urange in *; lia).
  apply lor_add_disjoint; [lia|]. apply Hl.
Qed.
Lemma limbs_spec a : U128_ok a ->
  exists x0 x1 x2 x3, limbs a = [x0; x1; x2; x3] /\
    (urange 32 x0 /\ urange 32 x1 /\ urange 32 x2 /\ urange 32 x3) /\
    u_val a = x0 + 2 ^ 32 * x1 + 2 ^ 64 * x2 + 2 ^ 96 * x3.
Proof.
  destruct a as [al ah]. intros Ha. eexists _, _, _, _. split; [reflexivity|].
  rewrite !Z.shiftr_div_pow2 by lia. w128. lia.
Qed.
#[local] Ltac one_step r' c' :=
  match goal with
  | |- context [mul_step (nth ?i ?xs 0) (nth ?j ?ys 0) (nth ?k ?rs 0) ?c] =>
    let x := eval cbn in (nth i xs 0) in
    let y := eval cbn in (nth j ys 0) in
    let r := eval cbn in (nth k rs 0) in
    change (mul_step (nth i xs 0) (nth j ys 0) (nth k rs 0) c) with (mul_step x y r c);
    let Hs := fresh "Hs" in
    pose proof (mul_step_spec x y r c ltac:(assumption) ltac:(assumption) ltac:(assumption) ltac:(assumption)) as Hs;
    destruct (mul_step x y r c) as [r' c']; destruct Hs as (? & ? & ?);
    cbn [insert list_insert]
  end.
Lemma mul_spec a b : U128_ok a -> U128_ok b ->
  U128_ok (pli_mul_u a b) /\ u_val (pli_mul_u a b) = uwrap 128 (u_val a * u_val b).
Proof.
  intros Ha Hb.
  destruct (limbs_spec a Ha) as (x0 & x1 & x2 & x3 & Ex & (? & ? & ? & ?) & ->).
  destruct (limbs_spec b Hb) as (y0 & y1 & y2 & y3 & Ey & (? & ? & ? & ?) & ->).
  unfold pli_mul_u. rewrite Ex, Ey. clear Ex Ey Ha Hb.
  cbn [mul_outer mul_inner Nat.sub Nat.add].
  assert (urange 32 0) by (unfold urange; lia). assert (0 <= 0 < 2 ^ 33) by lia.
  one_step r00 c00. one_step r01 c01. one_step r10 c10. one_step r02 c02. one_step r11 c11.
  one_step r20 c20. one_step r03 c03. one_step r12 c12. one_step r21 c21. one_step r30 c30.
  cbn [nth]. rewrite !join_limbs by done.
  assert (U128_ok (mkU128 (r10 * 2 ^ 32 + r00) (r30 * 2 ^ 32 + r20))) as Hok by (w128; lia).
  split; [done|]. symmetry. unfold u_val. cbn [lo hi].
  apply uwrap_unique with (k := - (c03 + c12 + c21 + c30 + x1 * y3 + x2 * y2 + x3 * y1
     + 2 ^ 32 * (x2 * y3 + x3 * y2) + 2 ^ 64 * (x3 * y3))); [lia| |].
  - w128. lia.
  - clear Hok. unfold urange in *. lia.
Qed.

(** ** The shift-subtract division *)

Definition q_val (s : divst) : Z := qlo s + 2 ^ 64 * qhi s.
Definition r_val (s : divst) : Z := rlo s + 2 ^ 64 * rhi s.
Definition div_inv (N D : Z) (k : Z) (s : divst) : Prop :=
  (urange 64 (qlo s) /\ urange 64 (qhi s)) /\ (urange 64 (rlo s) /\ urange 64 (rhi s)) /\
  q_val s = N / 2 ^ k / D * 2 ^ k /\ r_val s = (N / 2 ^ k) mod D.

Lemma div_bit n i : U128_ok n -> 0 <= i < 128 ->
  Z.land (if 64 <=? i then Z.shiftr (hi n) (i - 64) else Z.shiftr (lo n) i) 1 = (u_val n / 2 ^ i) mod 2.
Proof.
  intros [Hl Hh] Hi. change 1 with (Z.ones 1). rewrite Z.land_ones by lia. change (2 ^ 1) with 2.
  unfold u_val, urange in *. destruct (Z.leb_spec 64 i).
  - rewrite Z.shiftr_div_pow2 by lia. f_equal.
    replace (2 ^ i) with (2 ^ 64 * 2 ^ (i - 64)) by (rewrite <- Z.pow_add_r by lia; f_equal; lia).
    rewrite <- Z.div_div by lia. f_equal. lia.
  - rewrite Z.shiftr_div_pow2 by lia.
    replace (2 ^ 64) with (2 * 2 ^ (63 - i) * 2 ^ i)
      by (rewrite <- Z.pow_succ_r, <- Z.pow_add_r by lia; f_equal; lia).
    replace (lo n + 2 * 2 ^ (63 - i) * 2 ^ i * hi n) with (lo n + 2 * (2 ^ (63 - i) * hi n) * 2 ^ i) by lia.
    rewrite Z.div_add by lia. rewrite Z.mul_comm, Z.mod_add by lia. done.
Qed.

(** The shift-in of one bit keeps the 129-bit value [carry:r]. *)
Lemma div_shift rl rh bit : urange 64 rl -> urange 64 rh -> 0 <= bit < 2 ->
  let carry := Z.shiftr rh 63 in
  let rh' := Z.lor (u64 (Z.shiftl rh 1)) (Z.shiftr rl 63) in
  let rl' := Z.lor (u64 (Z.shiftl rl 1)) bit in
  urange 64 rl' /\ urange 64 rh' /\ 0 <= carry < 2 /\
  rl' + 2 ^ 64 * rh' + 2 ^ 128 * carry = 2 * (rl + 2 ^ 64 * rh) + bit.
Proof.
  intros Hl Hh Hb. cbn zeta. rewrite !Z.shiftr_div_pow2, !Z.shiftl_mul_pow2 by lia.
  assert (forall x, urange 64 x -> u64 (x * 2 ^ 1) = (x mod 2 ^ 63) * 2 ^ 1) as E
    by (intros; w128; lia).
  rewrite !E by done. unfold urange in *.
  rewrite !(lor_add_disjoint _ _ 1) by lia. lia.
Qed.

Lemma mul_lt_succ_le Q A B : 0 < B -> Q * B < A * B -> (Q + 1) * B <= A * B.
Proof. intros HB H. apply Z.mul_le_mono_nonneg_r; [lia|]. apply Z.mul_lt_mono_pos_r in H; lia. Qed.

(** Setting bit [k] of a quotient whose low [k+1] bits are clear adds [2^k]. *)
Lemma div_set_bit ql qh Q k : urange 64 ql -> urange 64 qh -> 0 <= k < 128 -> 0 <= Q ->
  ql + 2 ^ 64 * qh = Q * 2 ^ (k + 1) ->
  let '(ql', qh') := if 64 <=? k then (ql, Z.lor qh (u64 (Z.shiftl 1 (k - 64))))
                     else (Z.lor ql (u64 (Z.shiftl 1 k)), qh) in
  urange 64 ql' /\ urange 64 qh' /\ ql' + 2 ^ 64 * qh' = Q * 2 ^ (k + 1) + 2 ^ k.
Proof.
  intros Hl Hh Hk HQ E. destruct (Z.leb_spec 64 k) as [H64|H64].
  - rewrite Z.shiftl_mul_pow2, Z.mul_1_l by lia.
    assert (2 ^ (k + 1) = 2 ^ 64 * 2 ^ (k - 63)) as P1
      by (rewrite <- Z.pow_add_r by lia; f_equal; lia).
    assert (2 ^ (k - 63) = 2 * 2 ^ (k - 64)) as P2
      by (rewrite <- Z.pow_succ_r by lia; f_equal; lia).
    assert (2 ^ k = 2 ^ 64 * 2 ^ (k - 64)) as P3
      by (rewrite <- Z.pow_add_r by lia; f_equal; lia).
    assert (0 < 2 ^ (k - 64) <= 2 ^ 63) as P4 by (split; [lia | apply Z.pow_le_mono_r; lia]).
    assert (2 ^ 64 = 2 ^ (127 - k) * 2 ^ (k - 63)) as P5
      by (rewrite <- Z.pow_add_r by lia; f_equal; lia).
    assert (0 < 2 ^ (127 - k)) as P6 by lia.
    rewrite uwrap_small by (unfold urange; lia).
    assert (ql = 0 /\ qh = Q * 2 ^ (k - 63)) as [-> Eh].
    { unfold urange in *. rewrite P1 in E. lia. }
    rewrite Eh. rewrite lor_add_disjoint by lia. rewrite <- Eh. unfold urange in *.
    assert ((Q + 1) * 2 ^ (k - 63) <= 2 ^ 64); [|lia].
    rewrite P5. apply mul_lt_succ_le; lia.
  - rewrite Z.shiftl_mul_pow2, Z.mul_1_l by lia.
    assert (2 ^ 64 = 2 ^ (63 - k) * 2 ^ (k + 1)) as P5
      by (rewrite <- Z.pow_add_r by lia; f_equal; lia).
    assert (2 ^ (k + 1) = 2 * 2 ^ k) as P2 by (rewrite <- Z.pow_succ_r by lia; f_equal; lia).
    assert (0 < 2 ^ k < 2 ^ 64) as P4 by (split; [lia | apply Z.pow_lt_mono_r; lia]).
    rewrite uwrap_small by (unfold urange; lia).
    set (m := Q - 2 ^ (63 - k) * qh).
    assert (ql = m * 2 ^ (k + 1)) as Eq.
    { unfold m. rewrite Z.mul_sub_distr_r, <- E, (Z.mul_comm (2 ^ (63 - k))), <- Z.mul_assoc, <- P5. lia. }
    rewrite Eq in *. rewrite lor_add_disjoint by lia. unfold urange in *.
    assert (0 <= m * 2 ^ (k + 1)) as Hm by (unfold urange in *; lia).
    assert ((m + 1) * 2 ^ (k + 1) <= 2 ^ 64); [|lia].
    rewrite P5. apply mul_lt_succ_le; lia.
Qed.

Lemma div_step_inv n d k s : U128_ok n -> U128_ok d -> 0 < u_val d -> 0 <= k < 128 ->
  div_inv (u_val n) (u_val d) (k + 1) s -> div_inv (u_val n) (u_val d) k (div_step n d k s).
Proof.
  intros Hn Hd HD Hk (Hq & Hr & Eq & Er).
  assert (0 <= u_val n) as HN by (destruct n; w128; lia).
  assert (u_val d < 2 ^ 128) as HD2 by (destruct d; w128; lia).
  unfold div_step. rewrite div_bit by done.
  set (bit := (u_val n / 2 ^ k) mod 2).
  assert (0 <= bit < 2) as Hb by (apply Z.mod_pos_bound; lia).
  pose proof (div_shift (rlo s) (rhi s) bit (proj1 Hr) (proj2 Hr) Hb) as Hs. cbn zeta in Hs.
  set (carry := Z.shiftr (rhi s) 63) in *.
  set (rh := Z.lor (u64 (Z.shiftl (rhi s) 1)) (Z.shiftr (rlo s) 63)) in *.
  set (rl := Z.lor (u64 (Z.shiftl (rlo s) 1)) bit) in *. clearbody carry rh rl.
  destruct Hs as (Hl & Hh & Hc & ET). fold (r_val s) in ET. rewrite Er in ET.
  set (P := u_val n / 2 ^ (k + 1)) in *.
  assert (u_val n / 2 ^ k = 2 * P + bit) as EP.
  { unfold P, bit. rewrite Z.pow_add_r, <- Z.div_div by lia. change (2 ^ 1) with 2. lia. }
  assert (0 <= P) as HP by (apply Z.div_pos; lia).
  pose proof (Z.div_mod P (u_val d) ltac:(lia)) as EPd.
  pose proof (Z.mod_pos_bound P (u_val d) HD) as HPm.
  assert (0 <= P / u_val d) as HQ0 by (apply Z.div_pos; lia).
  set (Q := P / u_val d) in *. set (R := P mod u_val d) in *.
  set (D := u_val d) in *.
  assert (U128_ok (pli_u128 rl rh)) as Hrl by done.
  rewrite (cmp_spec _ d Hrl Hd). fold D.
  change (u_val (pli_u128 rl rh)) with (rl + 2 ^ 64 * rh).
  assert (forall q r, 2 * P + bit = D * q + r -> 0 <= r < D ->
    (2 * P + bit) / D = q /\ (2 * P + bit) mod D = r) as Hdm.
  { intros q r E0 Hr0. split; symmetry.
    - eapply Z.div_unique_pos; [exact Hr0|]. lia.
    - eapply Z.mod_unique_pos; [exact Hr0|]. exact E0. }
  assert (2 ^ (k + 1) = 2 * 2 ^ k) as P2 by (rewrite <- Z.pow_succ_r by lia; f_equal; lia).
  unfold div_inv. rewrite EP.
  destruct (negb (carry =? 0) || _) eqn:Ec.
  - assert (D <= 2 * R + bit) as Hge.
    { apply orb_true_iff in Ec. destruct Ec as [Ec|Ec].
      - assert (carry = 1) by lia. subst carry. unfold urange in *. lia.
      - destruct (Z.compare_spec (rl + 2 ^ 64 * rh) D); [lia|done|unfold urange in *; lia]. }
    destruct (Hdm (2 * Q + 1) (2 * R + bit - D) ltac:(lia) ltac:(lia)) as [-> ->].
    pose proof (div_set_bit (qlo s) (qhi s) Q k (proj1 Hq) (proj2 Hq) Hk HQ0 Eq) as Hset.
    assert (U128_ok (pli_sub_u (pli_u128 rl rh) d) /\
            u_val (pli_sub_u (pli_u128 rl rh) d) = 2 * R + bit - D) as [Hok Ev].
    { destruct (sub_spec (pli_u128 rl rh) d Hrl Hd) as [Hok Ev]. split; [done|]. rewrite Ev.
      apply uwrap_unique with (k := carry); [lia|unfold urange; lia|].
      fold D. change (u_val (pli_u128 rl rh)) with (rl + 2 ^ 64 * rh). lia. }
    destruct (64 <=? k); destruct Hset as (? & ? & ?); cbn [qlo qhi rlo rhi];
      unfold q_val, r_val; cbn [qlo qhi rlo rhi];
      (split; [done|]); (split; [exact Hok|]); (split; [lia|exact Ev]).
  - assert (2 * R + bit < D) as Hlt.
    { apply orb_false_iff in Ec. destruct Ec as [Ec1 Ec2].
      assert (carry = 0) by (destruct (Z.eqb_spec carry 0); [done|discriminate]). subst carry.
      destruct (Z.compare_spec (rl + 2 ^ 64 * rh) D); [done|lia|done]. }
    assert (carry = 0) by (unfold urange in *; lia). subst carry.
    destruct (Hdm (2 * Q) (2 * R + bit) ltac:(lia) ltac:(lia)) as [-> ->].
    unfold q_val, r_val in *. cbn [qlo qhi rlo rhi].
    split; [done|]. split; [done|]. split; lia.
Qed.

Lemma div_loop_inv n d k s : U128_ok n -> U128_ok d -> 0 < u_val d -> (k <= 128)%nat ->
  div_inv (u_val n) (u_val d) (Z.of_nat k) s -> div_inv (u_val n) (u_val d) 0 (div_loop n d k s).
Proof.
  intros Hn Hd HD. revert s. induction k as [|k IH]; intros s Hk Hs; [done|].
  cbn [div_loop]. apply IH; [lia|]. apply div_step_inv; [done..|lia|].
  by replace (Z.of_nat k + 1) with (Z.of_nat (S k)) by lia.
Qed.

Lemma divmod_spec n d : U128_ok n -> U128_ok d -> 0 < u_val d ->
  let '(q, r) := pli_divmod_u n d in
  (U128_ok q /\ u_val q = u_val n / u_val d) /\ (U128_ok r /\ u_val r = u_val n mod u_val d).
Proof.
  intros Hn Hd HD. unfold pli_divmod_u. cbn zeta.
  assert (div_inv (u_val n) (u_val d) (Z.of_nat 128) (mkDiv 0 0 0 0)) as H0.
  { assert (u_val n / 2 ^ 128 = 0) as E0.
    { apply Z.div_small. destruct n; w128; lia. }
    change (Z.of_nat 128) with 128. unfold div_inv, q_val, r_val; cbn [qlo qhi rlo rhi].
    rewrite E0, Z.div_0_l, Z.mod_0_l by lia. unfold urange. lia. }
  pose proof (div_loop_inv n d 128 _ Hn Hd HD (le_n _) H0) as Hinv. clear H0.
  generalize dependent (div_loop n d 128 (mkDiv 0 0 0 0)). intros s (Hq & Hr & Eq & Er).
  rewrite Z.pow_0_r, Z.div_1_r in Er. rewrite Z.pow_0_r, Z.mul_1_r, Z.div_1_r in Eq.
  split; split; assumption.
Qed.

(** ** The operators *)
(** Two's complement arithmetic through the unsigned representation. *)
Lemma to_s_of_u128 u z : U128_ok u -> u_val u = uwrap 128 z ->
  I128_ok (pli_to_s u) /\ s_val (pli_to_s u) = i128 z.
Proof. intros Hu E. destruct (to_s_spec u Hu) as [Hok ->]. by rewrite E, swrap_uwrap by lia. Qed.

Lemma s_val_range a : I128_ok a -> srange 128 (s_val a).
Proof. destruct a. w128. lia. Qed.

Lemma u_val_to_u_congr a : I128_ok a -> exists k, u_val (pli_to_u a) = s_val a + k * 2 ^ 128.
Proof. intros Ha. destruct (to_u_spec a Ha) as [_ ->]. apply uwrap_congr. lia. Qed.

Lemma arith_spec a b : I128_ok a -> I128_ok b ->
  (I128_ok (op_add a b) /\ s_val (op_add a b) = i128 (s_val a + s_val b)) /\
  (I128_ok (op_sub a b) /\ s_val (op_sub a b) = i128 (s_val a - s_val b)) /\
  (I128_ok (op_mul a b) /\ s_val (op_mul a b) = i128 (s_val a * s_val b)) /\
  (I128_ok (op_neg a) /\ s_val (op_neg a) = i128 (- s_val a)).
Proof.
  intros Ha Hb.
  destruct (to_u_spec a Ha) as [Hua _], (to_u_spec b Hb) as [Hub _].
  destruct (u_val_to_u_congr a Ha) as [ka Ea], (u_val_to_u_congr b Hb) as [kb Eb].
  destruct (add_spec _ _ Hua Hub) as [Hadd Vadd], (sub_spec _ _ Hua Hub) as [Hsub Vsub].
  destruct (mul_spec _ _ Hua Hub) as [Hmul Vmul], (neg_spec _ Hua) as [Hneg Vneg].
  split; [|split; [|split]]; apply to_s_of_u128; try done;
    [rewrite Vadd|rewrite Vsub|rewrite Vmul|rewrite Vneg]; rewrite ?Ea, ?Eb.
  - apply uwrap_eq with (k := ka + kb); lia.
  - apply uwrap_eq with (k := ka - kb); lia.
  - apply uwrap_eq with (k := ka * s_val b + kb * s_val a + ka * kb * 2 ^ 128); lia.
  - apply uwrap_eq with (k := - ka); lia.
Qed.

Lemma compare_spec a b : I128_ok a -> I128_ok b ->
  op_lt a b = (s_val a <? s_val b) /\ op_eq a b = (s_val a =? s_val b) /\
  pli_isneg_s a = (s_val a <? 0) /\ pli_iszero_s a = (s_val a =? 0).
Proof.
  intros Ha Hb. repeat split.
  - unfold op_lt. rewrite !isneg_spec by done.
    destruct (to_u_spec a Ha) as [Hua Ea], (to_u_spec b Hb) as [Hub Eb].
    rewrite (cmp_spec _ _ Hua Hub), Ea, Eb.
    pose proof (s_val_range a Ha). pose proof (s_val_range b Hb).
    destruct (Z.ltb_spec (s_val a) 0), (Z.ltb_spec (s_val b) 0); cbn [negb Bool.eqb]; try lia;
      destruct (Z.compare_spec (uwrap 128 (s_val a)) (uwrap 128 (s_val b))); cbn; w128; lia.
  - destruct a, b. unfold op_eq. w128. lia.
  - by apply isneg_spec.
  - destruct a. unfold pli_iszero_s. w128. lia.
Qed.

Lemma sdiv_spec a b : I128_ok a -> I128_ok b ->
  I128_ok (op_div a b) /\ s_val (op_div a b) = i128 (Z.quot (s_val a) (s_val b)).
Proof.
  intros Ha Hb. unfold op_div, pli_sdiv.
  destruct (to_u_spec b Hb) as [Hub Eb].
  pose proof (s_val_range a Ha) as Ra. pose proof (s_val_range b Hb) as Rb.
  assert (pli_iszero_u (pli_to_u b) = (s_val b =? 0)) as ->.
  { destruct b. unfold pli_iszero_u, pli_to_u. w128. lia. }
  destruct (Z.eqb_spec (s_val b) 0) as [E0|E0].
  { rewrite E0, Z.quot_0_r_ext by done. apply to_s_of_u128; [|done].
    unfold U128_ok, urange; cbn [lo hi pli_u128]. lia. }
  destruct (mag_spec a Ha) as [Hma Va], (mag_spec b Hb) as [Hmb Vb].
  pose proof (divmod_spec _ _ Hma Hmb ltac:(lia)) as Hd.
  destruct (pli_divmod_u (pli_mag_s a) (pli_mag_s b)) as [q r].
  destruct Hd as [[Hq Eq] _]. rewrite Va, Vb in Eq.
  rewrite !isneg_spec by done.
  assert (I128_ok (pli_to_s q) /\ s_val (pli_to_s q) = i128 (u_val q)) as [Hsq Esq] by by apply to_s_spec.
  assert (Z.quot (s_val a) (s_val b) =
          if xorb (s_val a <? 0) (s_val b <? 0) then - u_val q else u_val q) as ->.
  { rewrite Eq, <- Z.quot_div_nonneg by lia.
    destruct (Z.ltb_spec (s_val a) 0), (Z.ltb_spec (s_val b) 0); cbn [xorb].
    - rewrite <- (Z.quot_opp_opp (s_val a)) by lia. f_equal; lia.
    - rewrite <- Z.quot_opp_l by lia. f_equal; lia.
    - rewrite <- Z.quot_opp_r by lia. f_equal; lia.
    - f_equal; lia. }
  destruct (xorb _ _); [|done].
  destruct (arith_spec _ (mkI128 0 0) Hsq) as (_ & _ & _ & Hn & Vn).
  { unfold I128_ok, urange, srange; cbn [slo shi]. lia. }
  split; [exact Hn|]. unfold op_neg in Vn. rewrite Vn, Esq.
  destruct (swrap_congr 128 (u_val q) ltac:(lia)) as [k ->].
  destruct (swrap_congr 128 (- u_val q) ltac:(lia)) as [m Em].
  apply swrap_unique with (k := m + k); [lia|by apply swrap_range; lia|lia].
Qed.

Lemma divmod10_spec u : U128_ok u ->
  let '(q, r) := pli_divmod10 u in
  U128_ok q /\ u_val q = u_val u / 10 /\ r = u_val u mod 10.
Proof.
  intros Hu. unfold pli_divmod10.
  assert (U128_ok (pli_u128 10 0)) as H10 by (unfold U128_ok, urange; cbn [lo hi pli_u128]; lia).
  pose proof (divmod_spec u _ Hu H10 ltac:(done)) as Hd.
  destruct (pli_divmod_u u (pli_u128 10 0)) as [q r]. destruct Hd as [[Hq Eq] [Hr Er]].
  change (u_val (pli_u128 10 0)) with 10 in *. split; [done|]. split; [done|].
  destruct r as [rl rh]. w128. lia.
Qed.

Lemma dec_loop_spec f u s : U128_ok u -> 0 < u_val u < 10 ^ Z.of_nat f ->
  dec_loop f u s = s ++ rev (dec_digits (dec_fuel (u_val u)) (u_val u) []).
Proof.
  revert u s. induction f as [|f IH]; intros u s Hu Hv; [cbn in Hv; lia|]. cbn [dec_loop].
  assert (pli_iszero_u u = false) as ->.
  { destruct u. unfold pli_iszero_u. w128. lia. }
  pose proof (divmod10_spec u Hu) as Hd. destruct (pli_divmod10 u) as [q r].
  destruct Hd as (Hq & Eq & ->).
  rewrite Nat2Z.inj_succ, Z.pow_succ_r in Hv by lia.
  pose proof (dec_fuel_enough (u_val u) ltac:(lia)) as Hfu.
  unfold dec_fuel at 1. cbn [dec_digits]. rewrite <- Eq.
  destruct (Z.eqb_spec (u_val q) 0) as [E0|E0].
  - destruct f as [|f]; [done|]. cbn [dec_loop].
    assert (pli_iszero_u q = true) as ->; [|done].
    destruct q. unfold pli_iszero_u. w128. lia.
  - rewrite IH by (done || lia). rewrite (dec_digits_acc _ _ [_]), rev_app_distr. cbn [rev app].
    rewrite <- app_assoc. cbn [app]. do 3 f_equal.
    unfold dec_fuel in Hfu. rewrite Nat2Z.inj_succ, Z.pow_succ_r in Hfu by lia.
    apply dec_digits_fuel; [lia|apply dec_fuel_enough; lia|lia|unfold dec_fuel; lia|].
    destruct (Z.to_nat (Z.log2 (u_val u))); [cbn in Hfu; lia|lia].
Qed.

Lemma dec_string_spec v : I128_ok v -> pli_to_dec_string v = to_string (s_val v).
Proof.
  intros Hv. unfold pli_to_dec_string.
  destruct (compare_spec v v Hv Hv) as (_ & _ & -> & ->).
  destruct (mag_spec v Hv) as [Hm Vm]. pose proof (s_val_range v Hv) as Rv.
  destruct (Z.eqb_spec (s_val v) 0) as [->|E0]; [done|].
  rewrite dec_loop_spec by (try done; rewrite Vm; unfold srange in Rv; cbn; lia).
  rewrite Vm. unfold to_string. destruct (Z.ltb_spec (s_val v) 0); cbn [app].
  - rewrite rev_app_distr, rev_involutive. replace (Z.abs (s_val v)) with (- s_val v) by lia. done.
  - rewrite rev_involutive. by replace (Z.abs (s_val v)) with (s_val v) by lia.
Qed.

(** C32: the portable 128-bit helpers compute what the native [__int128] branch
    computes.  For every pair of well-formed values, addition, subtraction,
    multiplication and negation are the exact results wrapped to 128 bits (and
    well-formed again); division truncates toward zero and is total, a zero
    divisor giving zero; the comparisons are those of the values; and the
    decimal rendering is that of the value. *)
Theorem portable_is_native a b : I128_ok a -> I128_ok b ->
  ((I128_ok (op_add a b) /\ s_val (op_add a b) = i128 (s_val a + s_val b)) /\
   (I128_ok (op_sub a b) /\ s_val (op_sub a b) = i128 (s_val a - s_val b)) /\
   (I128_ok (op_mul a b) /\ s_val (op_mul a b) = i128 (s_val a * s_val b)) /\
   (I128_ok (op_neg a) /\ s_val (op_neg a) = i128 (- s_val a))) /\
  (I128_ok (op_div a b) /\ s_val (op_div a b) = i128 (Z.quot (s_val a) (s_val b))) /\
  (op_lt a b = (s_val a <? s_val b) /\ op_eq a b = (s_val a =? s_val b) /\
   pli_isneg_s a = (s_val a <? 0) /\ pli_iszero_s a = (s_val a =? 0)) /\
  pli_to_dec_string a = to_string (s_val a).
Proof.
  intros Ha Hb. split; [by apply arith_spec|]. split; [by apply sdiv_spec|].
  split; [by apply compare_spec|]. by apply dec_string_spec.
Qed.

Lemma portable_is_native_witness :
  let a := pli_to_s (pli_u128 (2 ^ 64 - 7) (2 ^ 64 - 1)) in let b := pli_to_s (pli_u128 0 1) in
  I128_ok a /\ I128_ok b /\ s_val a = -7 /\
  s_val (op_mul a b) = i128 (s_val a * s_val b) /\ pli_to_dec_string a = to_string (s_val a).
Proof.
  cbv zeta. assert (I128_ok (pli_to_s (pli_u128 (2 ^ 64 - 7) (2 ^ 64 - 1)))) as Ha by by_dec.
  assert (I128_ok (pli_to_s (pli_u128 0 1))) as Hb by by_dec.
  pose proof (portable_is_native _ _ Ha Hb) as ((_ & _ & (_ & Hm) & _) & _ & _ & Hs).
  split; [exact Ha|]. split; [exact Hb|]. split; [vm_compute; reflexivity|]. split; [exact Hm|exact Hs].
Defined.
