(* ===== verification/Types.v ===== *)
(** * Types ([src/types.h])

    The PL/I data attributes as the compiler's [Type]: the factories, the
    base-conversion tables, storage widths, diagnostics text, and the type
    equivalence [operator==], which ignores some attributes by design. *)
From S2P Require Import Prelude.

(** ** Base conversion (IBM factor 3.32 = 83/25) *)
Definition ceilMulDiv (n mul div : Z) : Z := Z.quot (n * mul + div - 1) div.
Definition decToBinDigits (p : Z) : Z := Z.min 63 (1 + ceilMulDiv p 83 25).
Definition decToBinScale (q : Z) : Z :=
  if q =? 0 then 0
  else let s := ceilMulDiv (if q <? 0 then - q else q) 83 25 in if 0 <? q then s else - s.
Definition binToDecDigits (p : Z) : Z := Z.min 31 (1 + ceilMulDiv p 25 83).
Definition binToDecScale (q : Z) : Z :=
  if q =? 0 then 0
  else let s := ceilMulDiv (if q <? 0 then - q else q) 25 83 in if 0 <? q then s else - s.

(** ** Data *)
Inductive TK :=
  | FixedBin | FixedDec | Float | Char | Bit | Struct | Pointer | Entry | Area | Offset
  | Complex | Task | Event | Label | Void.
#[global] Instance TK_eq_dec : EqDecision TK.
Proof. solve_decision. Defined.

(** One array axis. *)
Record Dim := mkDim { lb : Z; ub : Z; dyn : bool; lbDyn : bool; adj : bool }.
#[global] Instance Dim_eq_dec : EqDecision Dim.
Proof. solve_decision. Defined.
Definition Dim_eqb (a b : Dim) : bool :=
  (lb a =? lb b) && (ub a =? ub b) && Bool.eqb (dyn a) (dyn b) &&
  Bool.eqb (lbDyn a) (lbDyn b) && Bool.eqb (adj a) (adj b).

(** [struct Type] and [struct Member]; [std::unique_ptr<Member>] is the member
    itself, since a type owns its members and copies them deeply. *)
Inductive Ty : Type := mkTy {
  k : TK; prec : Z; scale : Z; len : Z; wideDec : bool; varying : bool; varyingz : bool;
  starLen : bool; controlled : bool; unaligned : bool; imaginary : bool; isUnion : bool;
  picture : text; dims : list Dim; members : list Member }
with Member : Type := mkMember { name : text; ty : Ty }.

(** The default member initialisers. *)
Definition Ty_default : Ty :=
  mkTy FixedBin 15 0 1 false false false false false false false false [] [] [].

Definition set_k (v : TK) (t : Ty) : Ty :=
  mkTy v (prec t) (scale t) (len t) (wideDec t) (varying t) (varyingz t) (starLen t)
    (controlled t) (unaligned t) (imaginary t) (isUnion t) (picture t) (dims t) (members t).
Definition set_prec (v : Z) (t : Ty) : Ty :=
  mkTy (k t) v (scale t) (len t) (wideDec t) (varying t) (varyingz t) (starLen t)
    (controlled t) (unaligned t) (imaginary t) (isUnion t) (picture t) (dims t) (members t).
Definition set_scale (v : Z) (t : Ty) : Ty :=
  mkTy (k t) (prec t) v (len t) (wideDec t) (varying t) (varyingz t) (starLen t)
    (controlled t) (unaligned t) (imaginary t) (isUnion t) (picture t) (dims t) (members t).
Definition set_len (v : Z) (t : Ty) : Ty :=
  mkTy (k t) (prec t) (scale t) v (wideDec t) (varying t) (varyingz t) (starLen t)
    (controlled t) (unaligned t) (imaginary t) (isUnion t) (picture t) (dims t) (members t).
Definition set_wideDec (v : bool) (t : Ty) : Ty :=
  mkTy (k t) (prec t) (scale t) (len t) v (varying t) (varyingz t) (starLen t)
    (controlled t) (unaligned t) (imaginary t) (isUnion t) (picture t) (dims t) (members t).
Definition set_varying (v : bool) (t : Ty) : Ty :=
  mkTy (k t) (prec t) (scale t) (len t) (wideDec t) v (varyingz t) (starLen t)
    (controlled t) (unaligned t) (imaginary t) (isUnion t) (picture t) (dims t) (members t).
Definition set_dims (v : list Dim) (t : Ty) : Ty :=
  mkTy (k t) (prec t) (scale t) (len t) (wideDec t) (varying t) (varyingz t) (starLen t)
    (controlled t) (unaligned t) (imaginary t) (isUnion t) (picture t) v (members t).
Definition set_members (v : list Member) (t : Ty) : Ty :=
  mkTy (k t) (prec t) (scale t) (len t) (wideDec t) (varying t) (varyingz t) (starLen t)
    (controlled t) (unaligned t) (imaginary t) (isUnion t) (picture t) (dims t) v.

(** ** Queries *)
Definition isArray (t : Ty) : bool := negb (bool_decide (dims t = [])).
Definition isStruct (t : Ty) : bool := bool_decide (k t = Struct).
Definition isDynamic (t : Ty) : bool := existsb (fun d => dyn d || lbDyn d) (dims t).
Definition elementType (t : Ty) : Ty := set_dims [] t.
Definition isFixed (t : Ty) : bool := bool_decide (k t = FixedBin) || bool_decide (k t = FixedDec).
Definition isNumeric (t : Ty) : bool := isFixed t || bool_decide (k t = Float).
Definition isChar (t : Ty) : bool := bool_decide (k t = Char).
Definition isBit (t : Ty) : bool := bool_decide (k t = Bit).
Definition isPointer (t : Ty) : bool := bool_decide (k t = Pointer).
Definition isEntry (t : Ty) : bool := bool_decide (k t = Entry).
Definition isArea (t : Ty) : bool := bool_decide (k t = Area).
Definition isOffset (t : Ty) : bool := bool_decide (k t = Offset).
Definition isLocator (t : Ty) : bool :=
  bool_decide (k t = Pointer) || bool_decide (k t = Offset) || bool_decide (k t = Area).
Definition isVoid (t : Ty) : bool := bool_decide (k t = Void).
Definition isComplex (t : Ty) : bool := bool_decide (k t = Complex).
Definition isImaginary (t : Ty) : bool := bool_decide (k t = Complex) && imaginary t.
Definition isTask (t : Ty) : bool := bool_decide (k t = Task).
Definition isEvent (t : Ty) : bool := bool_decide (k t = Event).
Definition isLabel (t : Ty) : bool := bool_decide (k t = Label).

(** ** Factories *)
Definition fixedBin (p q : Z) : Ty := set_scale q (set_prec p (set_k FixedBin Ty_default)).
Definition fixedDec (p q : Z) : Ty :=
  set_wideDec (18 <? p) (set_scale q (set_prec p (set_k FixedDec Ty_default))).
Definition flt (p : Z) : Ty := set_prec p (set_k Float Ty_default).
Definition chr (n : Z) (vary : bool) : Ty := set_varying vary (set_len n (set_k Char Ty_default)).
Definition bit (n : Z) : Ty := set_len n (set_k Bit Ty_default).
Definition voidTy : Ty := set_k Void Ty_default.
Definition ptr : Ty := set_k Pointer Ty_default.
Definition entryTy : Ty := set_k Entry Ty_default.
Definition complexTy : Ty := set_prec 6 (set_k Complex Ty_default).
Definition areaTy : Ty := set_k Area Ty_default.
Definition offsetTy : Ty := set_k Offset Ty_default.
Definition taskTy : Ty := set_k Task Ty_default.
Definition eventTy : Ty := set_k Event Ty_default.
Definition labelTy : Ty := set_k Label Ty_default.
Definition structTy (m : list Member) : Ty := set_members m (set_k Struct Ty_default).

(** Integer width chosen for FIXED values. *)
Definition intBits (t : Ty) : Z :=
  match k t with
  | FixedBin => if prec t <=? 31 then 32 else 64
  | FixedDec => if wideDec t then 128 else if prec t <=? 9 then 32 else 64
  | _ => 32
  end.

(** Human readable attribute list. *)
Definition desc (t : Ty) : text :=
  match k t with
  | FixedBin => txt "FIXED BINARY(" ++ to_string (prec t) ++ txt "," ++ to_string (scale t) ++ txt ")"
  | FixedDec => txt "FIXED DECIMAL(" ++ to_string (prec t) ++ txt "," ++ to_string (scale t) ++ txt ")"
  | Float => txt "FLOAT DECIMAL(" ++ to_string (prec t) ++ txt ")"
  | Char =>
      if negb (bool_decide (picture t = [])) then txt "PICTURE('" ++ picture t ++ txt "')"
      else txt "CHARACTER(" ++ to_string (len t) ++ txt ")" ++
           (if varyingz t then txt " VARYINGZ" else if varying t then txt " VARYING" else [])
  | Bit => txt "BIT(" ++ to_string (len t) ++ txt ")"
  | Struct => txt "STRUCT"
  | Pointer => txt "POINTER"
  | Entry => txt "ENTRY"
  | Area => txt "AREA"
  | Offset => txt "OFFSET"
  | Complex => txt "COMPLEX"
  | Task => txt "TASK"
  | Event => txt "EVENT"
  | Label => txt "LABEL"
  | Void => txt "VOID"
  end.

(** ** Copy and equivalence *)

(** [Type::operator=(const Type&)]: field by field, members copied deeply.  The
    left-hand operand contributes nothing. *)
Fixpoint Ty_copy (o : Ty) : Ty :=
  mkTy (k o) (prec o) (scale o) (len o) (wideDec o) (varying o) (varyingz o) (starLen o)
    (controlled o) (unaligned o) (imaginary o) (isUnion o) (picture o) (dims o)
    (List.map (fun m => mkMember (name m) (Ty_copy (ty m))) (members o)).

Definition dims_eqb (a b : list Dim) : bool :=
  (length a =? length b)%nat && forallb (fun p => Dim_eqb (fst p) (snd p)) (zip a b).

(** [Type::operator==]: the attributes it does not mention ([varyingz],
    [controlled], [imaginary], [picture]) do not take part. *)
Fixpoint Ty_eqb (t o : Ty) : bool :=
  bool_decide (k t = k o) && (prec t =? prec o) && (scale t =? scale o) && (len t =? len o) &&
  Bool.eqb (varying t) (varying o) && Bool.eqb (starLen t) (starLen o) &&
  Bool.eqb (unaligned t) (unaligned o) && Bool.eqb (isUnion t) (isUnion o) &&
  Bool.eqb (wideDec t) (wideDec o) && dims_eqb (dims t) (dims o) &&
  (length (members t) =? length (members o))%nat &&
  (fix go (ms os : list Member) : bool :=
     match ms, os with
     | m :: ms', n :: os' => text_eqb (name m) (name n) && Ty_eqb (ty m) (ty n) && go ms' os'
     | _, _ => true
     end) (members t) (members o).

(** ** Structural induction through the members *)
Section Ty_induction.
Variable P : Ty -> Prop.
Hypothesis step : forall t, Forall (fun m => P (ty m)) (members t) -> P t.

Fixpoint Ty_nested_ind (t : Ty) : P t :=
  step t
    ((fix go (ms : list Member) : Forall (fun m => P (ty m)) ms :=
        match ms with
        | [] => List.Forall_nil _
        | m :: ms' => List.Forall_cons _ m ms' (Ty_nested_ind (ty m)) (go ms')
        end) (members t)).
End Ty_induction.

(** The attributes type equivalence looks at: the others are reset, in the type
    and in every member. *)
Fixpoint relevant (t : Ty) : Ty :=
  mkTy (k t) (prec t) (scale t) (len t) (wideDec t) (varying t) false (starLen t)
    false (unaligned t) false (isUnion t) [] (dims t)
    (List.map (fun m => mkMember (name m) (relevant (ty m))) (members t)).

Lemma text_eqb_eq a b : text_eqb a b = true <-> a = b.
Proof. apply bool_decide_eq_true. Qed.

Lemma Dim_eqb_eq a b : Dim_eqb a b = true <-> a = b.
Proof.
  destruct a, b. unfold Dim_eqb. cbn [lb ub dyn lbDyn adj].
  rewrite !andb_true_iff, !Z.eqb_eq, !Bool.eqb_true_iff. split; [by intros ((((-> & ->) & ->) & ->) & ->)|].
  intros [= -> -> -> -> ->]. done.
Qed.

Lemma dims_eqb_eq a b : dims_eqb a b = true <-> a = b.
Proof.
  unfold dims_eqb. revert b. induction a as [|d a IH]; intros [|e b]; cbn; try done.
  specialize (IH b). rewrite andb_true_iff in IH. rewrite !andb_true_iff, Dim_eqb_eq.
  split; [intros (? & -> & ?); f_equal; by apply IH|].
  intros [= -> ->]. destruct (proj2 IH eq_refl). done.
Qed.

Lemma Ty_eqb_unfold t o : Ty_eqb t o =
  bool_decide (k t = k o) && (prec t =? prec o) && (scale t =? scale o) && (len t =? len o) &&
  Bool.eqb (varying t) (varying o) && Bool.eqb (starLen t) (starLen o) &&
  Bool.eqb (unaligned t) (unaligned o) && Bool.eqb (isUnion t) (isUnion o) &&
  Bool.eqb (wideDec t) (wideDec o) && dims_eqb (dims t) (dims o) &&
  (length (members t) =? length (members o))%nat &&
  forallb (fun p => text_eqb (name (fst p)) (name (snd p)) && Ty_eqb (ty (fst p)) (ty (snd p)))
    (zip (members t) (members o)).
Proof.
  destruct t as [? ? ? ? ? ? ? ? ? ? ? ? ? ? ms], o as [? ? ? ? ? ? ? ? ? ? ? ? ? ? os].
  cbn [Ty_eqb members]. f_equal. clear. revert os.
  induction ms as [|m ms IH]; intros [|n os]; cbn; try done.
  f_equal. apply IH.
Qed.

(** Equivalence is equality of the relevant attributes. *)
Lemma Ty_eqb_relevant t o : Ty_eqb t o = true <-> relevant t = relevant o.
Proof.
  revert o. induction t as [t IH] using Ty_nested_ind. intros o.
  rewrite Ty_eqb_unfold, !andb_true_iff, !Z.eqb_eq, !Bool.eqb_true_iff, dims_eqb_eq,
    bool_decide_eq_true, Nat.eqb_eq.
  assert (length (members t) = length (members o) ->
    (forallb (fun p => text_eqb (name (fst p)) (name (snd p)) && Ty_eqb (ty (fst p)) (ty (snd p)))
       (zip (members t) (members o)) = true <->
     List.map (fun m => mkMember (name m) (relevant (ty m))) (members t) =
     List.map (fun m => mkMember (name m) (relevant (ty m))) (members o))) as Hm.
  { generalize (members o). induction IH as [|m ms Hm _ IHms]; intros [|n os] Hl; try done.
    cbn. rewrite !andb_true_iff, text_eqb_eq, Hm, IHms by (cbn in Hl; lia).
    split; [intros [[-> ->] ->]; done|intros [= -> -> ->]; done]. }
  split.
  - intros H. destruct_and! H. destruct t, o; cbn in *; subst. f_equal. by apply Hm.
  - intros H. assert (length (members t) = length (members o)) as Hl.
    { apply (f_equal (fun t => length (members t))) in H.
      destruct t, o; cbn in *. by rewrite !List.length_map in H. }
    destruct t, o; cbn in *; injection H as ???????????. subst.
    repeat split; try done. by apply Hm.
Qed.

(** Type equivalence as a setoid; the storage queries respect it. *)
#[export] Instance ty_equiv : Equiv Ty := fun t o => Ty_eqb t o = true.
#[export] Instance ty_equivalence : Equivalence (≡@{Ty}).
Proof.
  split; unfold equiv, ty_equiv.
  - intros t. by apply Ty_eqb_relevant.
  - intros t o. rewrite !Ty_eqb_relevant. done.
  - intros t o u. rewrite !Ty_eqb_relevant. congruence.
Qed.

Lemma relevant_proj t o : t ≡ o ->
  k t = k o /\ prec t = prec o /\ scale t = scale o /\ len t = len o /\ wideDec t = wideDec o /\
  varying t = varying o /\ starLen t = starLen o /\ unaligned t = unaligned o /\
  isUnion t = isUnion o /\ dims t = dims o /\ length (members t) = length (members o).
Proof.
  unfold equiv, ty_equiv. rewrite Ty_eqb_unfold, !andb_true_iff, !Z.eqb_eq, !Bool.eqb_true_iff,
    dims_eqb_eq, bool_decide_eq_true, Nat.eqb_eq. tauto.
Qed.

#[export] Instance intBits_proper : Proper ((≡@{Ty}) ==> eq) intBits.
Proof. intros t o (Ek & Ep & _ & _ & Ew & _)%relevant_proj. unfold intBits. by rewrite Ek, Ep, Ew. Qed.
#[export] Instance isFixed_proper : Proper ((≡@{Ty}) ==> eq) isFixed.
Proof. intros t o (Ek & _)%relevant_proj. unfold isFixed. by rewrite Ek. Qed.
#[export] Instance isArray_proper : Proper ((≡@{Ty}) ==> eq) isArray.
Proof. intros t o (_ & _ & _ & _ & _ & _ & _ & _ & _ & Ed & _)%relevant_proj. unfold isArray. by rewrite Ed. Qed.
#[export] Instance isDynamic_proper : Proper ((≡@{Ty}) ==> eq) isDynamic.
Proof. intros t o (_ & _ & _ & _ & _ & _ & _ & _ & _ & Ed & _)%relevant_proj. unfold isDynamic. by rewrite Ed. Qed.
#[export] Instance elementType_proper : Proper ((≡@{Ty}) ==> (≡)) elementType.
Proof.
  intros t o. unfold equiv, ty_equiv. rewrite !Ty_eqb_relevant. unfold elementType.
  assert (forall u, relevant (set_dims [] u) = set_dims [] (relevant u)) as E by by intros [].
  rewrite !E. by intros ->.
Qed.

Lemma Ty_copy_id t : Ty_copy t = t.
Proof.
  induction t as [t IH] using Ty_nested_ind. destruct t; cbn in *. f_equal.
  induction IH as [|[n t] ms Hm _ IHms]; cbn in *; [done|]. by rewrite Hm, IHms.
Qed.


(** ** Base conversion *)
Lemma ceilMulDiv_ceil n mul div : 0 < div -> 0 <= n * mul ->
  n * mul <= ceilMulDiv n mul div * div < n * mul + div.
Proof.
  intros Hd Hn. unfold ceilMulDiv. rewrite Z.quot_div_nonneg by lia.
  pose proof (Z.div_mod (n * mul + div - 1) div ltac:(lia)).
  pose proof (Z.mod_pos_bound (n * mul + div - 1) div Hd). lia.
Qed.

(** Decide a bounded statement on [Z] by evaluation. *)
Lemma Z_range_check (P : Z -> Prop) `{!forall p, Decision (P p)} a n :
  forallb (fun i => bool_decide (P (a + Z.of_nat i))) (seq 0 n) = true ->
  forall p, a <= p < a + Z.of_nat n -> P p.
Proof.
  intros Hall p Hp. rewrite forallb_forall in Hall.
  specialize (Hall (Z.to_nat (p - a))). rewrite bool_decide_eq_true in Hall.
  replace (a + Z.of_nat (Z.to_nat (p - a))) with p in Hall by lia.
  apply Hall, in_seq. lia.
Qed.

Lemma decToBin_bounds p : 1 <= p <= 18 -> 10 ^ p <= 2 ^ decToBinDigits p.
Proof.
  intros Hp. apply (Z_range_check (fun p => 10 ^ p <= 2 ^ decToBinDigits p) 1 18); [|lia].
  vm_compute. done.
Qed.
Lemma binToDec_bounds p : 1 <= p <= 63 -> 2 ^ p <= 10 ^ binToDecDigits p.
Proof.
  intros Hp. apply (Z_range_check (fun p => 2 ^ p <= 10 ^ binToDecDigits p) 1 63); [|lia].
  vm_compute. done.
Qed.

(** changing base loses no integer digit: a FIXED DECIMAL of up to 18 digits
    fits the FIXED BINARY precision the conversion table gives it, and a FIXED
    BINARY of up to 63 bits fits its FIXED DECIMAL precision.  A scale is converted
    away from zero by the ceiling of the same factor, keeping its sign. *)
Theorem base_conversion_bounds p q :
  (1 <= p <= 18 -> forall v, Z.abs v < 10 ^ p -> Z.abs v < 2 ^ decToBinDigits p) /\
  (1 <= p <= 63 -> forall v, Z.abs v < 2 ^ p -> Z.abs v < 10 ^ binToDecDigits p) /\
  (83 * Z.abs q <= 25 * Z.abs (decToBinScale q) < 83 * Z.abs q + 25 /\
   Z.sgn (decToBinScale q) = Z.sgn q) /\
  (25 * Z.abs q <= 83 * Z.abs (binToDecScale q) < 25 * Z.abs q + 83 /\
   Z.sgn (binToDecScale q) = Z.sgn q).
Proof.
  split; [|split; [|split]].
  - intros Hp v Hv. pose proof (decToBin_bounds p Hp). lia.
  - intros Hp v Hv. pose proof (binToDec_bounds p Hp). lia.
  - unfold decToBinScale. destruct (Z.eqb_spec q 0) as [->|]; [lia|].
    pose proof (ceilMulDiv_ceil (Z.abs q) 83 25 ltac:(lia) ltac:(lia)) as H.
    replace (if q <? 0 then - q else q) with (Z.abs q) by (destruct (Z.ltb_spec q 0); lia).
    generalize dependent (ceilMulDiv (Z.abs q) 83 25). intros c Hc.
    destruct (Z.ltb_spec 0 q); lia.
  - unfold binToDecScale. destruct (Z.eqb_spec q 0) as [->|]; [lia|].
    pose proof (ceilMulDiv_ceil (Z.abs q) 25 83 ltac:(lia) ltac:(lia)) as H.
    replace (if q <? 0 then - q else q) with (Z.abs q) by (destruct (Z.ltb_spec q 0); lia).
    generalize dependent (ceilMulDiv (Z.abs q) 25 83). intros c Hc.
    destruct (Z.ltb_spec 0 q); lia.
Qed.

(** the storage width chosen for a declared FIXED item holds every value of
    its precision: a FIXED DECIMAL(p,q) with up to 38 digits and a FIXED
    BINARY(p,q) with up to 63 bits fit the signed integer of [intBits] bits. *)
Theorem storage_holds_precision p q v :
  (1 <= p <= 38 -> Z.abs v < 10 ^ p -> srange (intBits (fixedDec p q)) v) /\
  (1 <= p <= 63 -> - 2 ^ p <= v < 2 ^ p -> srange (intBits (fixedBin p q)) v).
Proof.
  split; intros Hp Hv; unfold srange, intBits; cbn.
  - assert (10 ^ p <= 10 ^ 38) by (apply Z.pow_le_mono_r; lia).
    destruct (Z.ltb_spec 18 p); [lia|].
    destruct (Z.leb_spec p 9).
    + assert (10 ^ p <= 10 ^ 9) by (apply Z.pow_le_mono_r; lia). lia.
    + assert (10 ^ p <= 10 ^ 18) by (apply Z.pow_le_mono_r; lia). lia.
  - destruct (Z.leb_spec p 31).
    + assert (2 ^ p <= 2 ^ 31) by (apply Z.pow_le_mono_r; lia). lia.
    + assert (2 ^ p <= 2 ^ 63) by (apply Z.pow_le_mono_r; lia). lia.
Qed.

Lemma base_conversion_bounds_witness :
  decToBinDigits 5 = 18 /\ Z.abs 99999 < 2 ^ decToBinDigits 5 /\ Z.sgn (decToBinScale (-2)) = -1.
Proof.
  split; [vm_compute; reflexivity|].
  destruct (base_conversion_bounds 5 (-2)) as (H & _ & (_ & Hs) & _).
  split; [apply H; lia|exact Hs].
Defined.

Lemma storage_holds_precision_witness :
  srange (intBits (fixedDec 9 2)) 999999999 /\ srange (intBits (fixedBin 31 0)) (-2147483648).
Proof.
  split.
  - apply (proj1 (storage_holds_precision 9 2 999999999)); lia.
  - apply (proj2 (storage_holds_precision 31 0 (-2147483648))); lia.
Defined.

