(* ===== verification/Diag.v ===== *)
(** * Diagnostics ([src/diag.h], [src/diag.cpp])

    The diagnostics sink: counters, the mute nesting used by speculative
    parsing, the translation of flattened locations back to files, and the
    rendering of a message with its source line and caret.  Standard error is
    the text accumulated in [stderr_]. *)
From S2P Require Import Prelude.

Record SourceLoc := mkLoc { line : Z; col : Z }.
Record FileLoc := mkFileLoc { path : text; fline : Z }.
#[global] Instance SourceLoc_eq_dec : EqDecision SourceLoc.
Proof. solve_decision. Defined.
#[global] Instance FileLoc_eq_dec : EqDecision FileLoc.
Proof. solve_decision. Defined.

Record Diags := mkDiags {
  file_ : text; src_ : option text; lineMap_ : option (list FileLoc);
  fileSrc_ : option (gmap text text); rootCanon_ : text;
  nerr_ : Z; nwarn_ : Z; mute_ : Z; mnerr_ : Z;
  stderr_ : text }.

(** [explicit Diags(std::string filename)] *)
Definition Diags_new (filename : text) : Diags :=
  mkDiags filename None None None [] 0 0 0 0 [].

Definition setSource (s : option text) (d : Diags) : Diags :=
  mkDiags (file_ d) s (lineMap_ d) (fileSrc_ d) (rootCanon_ d)
    (nerr_ d) (nwarn_ d) (mute_ d) (mnerr_ d) (stderr_ d).
Definition setLineMap (m : option (list FileLoc)) (d : Diags) : Diags :=
  mkDiags (file_ d) (src_ d) m (fileSrc_ d) (rootCanon_ d)
    (nerr_ d) (nwarn_ d) (mute_ d) (mnerr_ d) (stderr_ d).
Definition setFileSources (m : option (gmap text text)) (d : Diags) : Diags :=
  mkDiags (file_ d) (src_ d) (lineMap_ d) m (rootCanon_ d)
    (nerr_ d) (nwarn_ d) (mute_ d) (mnerr_ d) (stderr_ d).
Definition setRootPath (p : text) (d : Diags) : Diags :=
  mkDiags (file_ d) (src_ d) (lineMap_ d) (fileSrc_ d) p
    (nerr_ d) (nwarn_ d) (mute_ d) (mnerr_ d) (stderr_ d).
(** The mutable part: counters, mute depth, muted tally, output. *)
Definition upd (d : Diags) (ne nw mu mn : Z) (out : text) : Diags :=
  mkDiags (file_ d) (src_ d) (lineMap_ d) (fileSrc_ d) (rootCanon_ d) ne nw mu mn out.

Definition errorCount (d : Diags) : Z := nerr_ d.
Definition warnCount (d : Diags) : Z := nwarn_ d.
Definition ok (d : Diags) : bool := nerr_ d =? 0.

Definition mute (d : Diags) : Diags :=
  upd d (nerr_ d) (nwarn_ d) (mute_ d + 1) (mnerr_ d) (stderr_ d).
Definition unmute (d : Diags) : Diags :=
  if 0 <? mute_ d then upd d (nerr_ d) (nwarn_ d) (mute_ d - 1) (mnerr_ d) (stderr_ d) else d.
Definition muted (d : Diags) : bool := 0 <? mute_ d.
Definition mutedErrors (d : Diags) : Z := mnerr_ d.
Definition rewindMutedErrors (to : Z) (d : Diags) : Diags :=
  upd d (nerr_ d) (nwarn_ d) (mute_ d) to (stderr_ d).

(** ** Rendering *)

Definition resolveFileLoc (d : Diags) (loc : SourceLoc) : option FileLoc :=
  match lineMap_ d with
  | None => None
  | Some m =>
      if line loc <=? 0 then None
      else if Z.of_nat (length m) <? line loc then None
      else m !! Z.to_nat (line loc - 1)
  end.

(** [%s] of [s.c_str()]: the string up to its first NUL. *)
Definition c_str (s : text) : text := take (prefix_len (fun c => negb (ceqb c NUL)) s) s.

(** [for (int i = 0; i < n && std::getline(is, ln); ++i) {}]: the stream is the
    text not read yet, [None] once the end-of-file flag is set. *)
Fixpoint getlines (n : nat) (rest : option text) (ln : text) : text :=
  match n with
  | O => ln
  | S n' =>
      match rest with
      | None => ln
      | Some [] => []
      | Some s =>
          let k := prefix_len (fun c => negb (ceqb c newline)) s in
          getlines n' (if bool_decide (k < length s)%nat then Some (drop (S k) s) else None) (take k s)
      end
  end.

Definition is_C2 (c : char) : bool := code c =? 0xC2.
Definition is_AC (c : char) : bool := code c =? 0xAC.

(** The display columns before byte [target]: a UTF-8 not sign is two bytes and
    one column. *)
Fixpoint caret_col (ln : text) (j target : Z) : Z :=
  match ln with
  | [] => 0
  | b :: ln' =>
      if j <? target then
        match ln' with
        | b2 :: ln'' =>
            if is_C2 b && is_AC b2 then 1 + caret_col ln'' (j + 2) target
            else 1 + caret_col ln' (j + 1) target
        | [] => 1
        end
      else 0
  end.

(** The line rendered ASCII-safe: the not sign reads as ['^'], any other byte
    above 0x7F as ['?']. *)
Fixpoint show_line (ln : text) : text :=
  match ln with
  | [] => []
  | b :: ln' =>
      match ln' with
      | b2 :: ln'' =>
          if is_C2 b && is_AC b2 then "^"%char :: show_line ln''
          else (if 0x80 <=? code b then "?"%char else b) :: show_line ln'
      | [] => [if 0x80 <=? code b then "?"%char else b]
      end
  end.

Definition nl : text := [newline].
Definition blanks (n : Z) : text := replicate (Z.to_nat n) " "%char.

Definition echo_line (ln : text) (col : Z) (replace : text) : text :=
  let target := if 0 <? col then col - 1 else 0 in
  let d := caret_col ln 0 target in
  txt "  " ++ c_str (show_line ln) ++ nl ++
  txt "  " ++ blanks d ++ txt "^" ++ nl ++
  (if bool_decide (replace = []) then [] else txt "  " ++ blanks d ++ c_str replace ++ nl).

Definition emit (level : text) (loc : SourceLoc) (msg rule replace : text) (d : Diags) : text :=
  let suffix := if bool_decide (rule = []) then [] else txt "  [TR 25.084 rule " ++ rule ++ txt "]" in
  let fl := resolveFileLoc d loc in
  let source :=
    match fl, fileSrc_ d with
    | Some f, Some m => match m !! path f with Some s => Some s | None => src_ d end
    | _, _ => src_ d
    end in
  let fname := match fl with
               | Some f => if text_eqb (path f) (rootCanon_ d) then file_ d else path f
               | None => file_ d
               end in
  let lineNum := match fl with Some f => fline f | None => line loc end in
  (if 0 <? lineNum
   then c_str fname ++ txt ":" ++ to_string lineNum ++ txt ":" ++ to_string (col loc) ++ txt ": " ++
        level ++ txt ": " ++ c_str msg ++ c_str suffix ++ nl
   else c_str fname ++ txt ": " ++ level ++ txt ": " ++ c_str msg ++ c_str suffix ++ nl) ++
  match source with
  | Some s =>
      if 0 <? lineNum then echo_line (getlines (Z.to_nat lineNum) (Some s) []) (col loc) replace
      else []
  | None => []
  end.

(** ** Operations *)
Definition error (loc : SourceLoc) (msg rule replace : text) (d : Diags) : Diags :=
  if muted d then upd d (nerr_ d) (nwarn_ d) (mute_ d) (mnerr_ d + 1) (stderr_ d)
  else upd d (nerr_ d + 1) (nwarn_ d) (mute_ d) (mnerr_ d)
         (stderr_ d ++ emit (txt "error") loc msg rule replace d).
Definition warn (loc : SourceLoc) (msg rule replace : text) (d : Diags) : Diags :=
  if muted d then d
  else upd d (nerr_ d) (nwarn_ d + 1) (mute_ d) (mnerr_ d)
         (stderr_ d ++ emit (txt "warning") loc msg rule replace d).
Definition remark (loc : SourceLoc) (msg rule : text) (d : Diags) : Diags :=
  if muted d then d
  else upd d (nerr_ d) (nwarn_ d) (mute_ d) (mnerr_ d)
         (stderr_ d ++ emit (txt "remark") loc msg rule [] d).
Definition note (loc : SourceLoc) (msg : text) (d : Diags) : Diags :=
  if muted d then d
  else upd d (nerr_ d) (nwarn_ d) (mute_ d) (mnerr_ d)
         (stderr_ d ++ emit (txt "note") loc msg [] [] d).

(** ** The caret *)
(** Errors counted so far, muted or not. *)
Definition reported (d : Diags) : Z := nerr_ d + mnerr_ d.
Lemma reported_error loc msg rule replace d : reported (error loc msg rule replace d) = reported d + 1.
Proof. unfold reported, error. destruct (muted d); cbn; lia. Qed.
Lemma reported_warn loc msg rule replace d : reported (warn loc msg rule replace d) = reported d.
Proof. unfold reported, warn. by destruct (muted d). Qed.

(** What a run of the parser may do to the diagnostics: it adds to the counters, leaves the
    mute depth as it was, and while muted changes the muted error counter only. *)
Definition grows (d d' : Diags) : Prop :=
  mute_ d' = mute_ d /\ nerr_ d <= nerr_ d' /\ mnerr_ d <= mnerr_ d' /\
  (muted d = true -> d' = rewindMutedErrors (mnerr_ d') d).
Lemma diags_grows_refl d : grows d d.
Proof. repeat split; try lia. by destruct d. Qed.
Lemma diags_grows_trans a b c : grows a b -> grows b c -> grows a c.
Proof.
  intros (E1 & N1 & M1 & H1) (E2 & N2 & M2 & H2). repeat split; try lia. intros Hm.
  rewrite H2 by (unfold muted in *; by rewrite E1). by rewrite H1.
Qed.
Lemma grows_error loc msg rule replace d : grows d (error loc msg rule replace d).
Proof. unfold grows, error. destruct (muted d) eqn:E; cbn; repeat split; try lia; try done. Qed.
Lemma grows_warn loc msg rule replace d : grows d (warn loc msg rule replace d).
Proof. unfold warn. destruct (muted d) eqn:E; [apply diags_grows_refl|]. unfold grows. rewrite E. cbn. repeat split; done || lia. Qed.
Lemma reported_grows d d' : grows d d' -> reported d <= reported d'.
Proof. unfold reported. intros (_ & ? & ? & _). lia. Qed.
(** What is done muted is undone by [unmute] and [rewindMutedErrors]. *)
Lemma muted_undone d d' : 0 <= mute_ d -> grows (mute d) d' -> rewindMutedErrors (mnerr_ d) (unmute d') = d.
Proof.
  intros H0 (E & _ & _ & ->); [|unfold muted; cbn; destruct (Z.ltb_spec 0 (mute_ d + 1)); [done|lia]].
  unfold unmute, mute, rewindMutedErrors, upd. cbn. destruct (Z.ltb_spec 0 (mute_ d + 1)); [|lia].
  replace (mute_ d + 1 - 1) with (mute_ d) by lia. by destruct d.
Qed.

Lemma caret_col_cons2 b b2 ln j target :
  caret_col (b :: b2 :: ln) j target =
  if j <? target
  then 1 + (if is_C2 b && is_AC b2 then caret_col ln (j + 2) target
            else caret_col (b2 :: ln) (j + 1) target)
  else 0.
Proof. cbn. by destruct (j <? target), (is_C2 b && is_AC b2). Qed.

Lemma show_line_cons2 b b2 ln :
  show_line (b :: b2 :: ln) =
  if is_C2 b && is_AC b2 then "^"%char :: show_line ln
  else (if 0x80 <=? code b then "?"%char else b) :: show_line (b2 :: ln).
Proof. done. Qed.

Lemma show_line_length_take ln j target : 0 <= j <= target ->
  caret_col ln j target = Z.of_nat (length (show_line (take (Z.to_nat (target - j)) ln))).
Proof.
  revert ln j. assert (forall n ln j, (length ln <= n)%nat -> 0 <= j <= target ->
    caret_col ln j target = Z.of_nat (length (show_line (take (Z.to_nat (target - j)) ln)))) as H;
    [|intros ln j; by apply (H (length ln))].
  induction n as [|n IH]; intros ln j Hl Hj; (destruct ln as [|b [|b2 ln]]; cbn in Hl; [by rewrite take_nil| |]; try lia).
  - cbn [caret_col]. destruct (Z.ltb_spec j target).
    + by replace (Z.to_nat (target - j)) with (S (Z.to_nat (target - j - 1))) by lia; rewrite firstn_cons, take_nil.
    + by replace (Z.to_nat (target - j)) with 0%nat by lia.
  - rewrite caret_col_cons2. destruct (Z.ltb_spec j target) as [Hlt|Hge];
      [|by replace (Z.to_nat (target - j)) with 0%nat by lia].
    replace (Z.to_nat (target - j)) with (S (Z.to_nat (target - (j + 1)))) by lia.
    rewrite firstn_cons. destruct (is_C2 b && is_AC b2) eqn:Eb.
    + destruct (Z.eq_dec target (j + 1)) as [->|].
      * rewrite Z.sub_diag. cbn [Z.to_nat take show_line length].
        destruct ln as [|c ln]; cbn [caret_col]; [done|].
        destruct (Z.ltb_spec (j + 2) (j + 1)); [lia|done].
      * replace (Z.to_nat (target - (j + 1))) with (S (Z.to_nat (target - (j + 2)))) by lia.
        rewrite !firstn_cons, show_line_cons2, Eb, IH by lia. cbn [length]. lia.
    + rewrite IH by (cbn [length] in *; lia).
      destruct (Z.to_nat (target - (j + 1))) as [|m]; [cbn; lia|].
      rewrite !firstn_cons, show_line_cons2, Eb. cbn [length]. lia.
Qed.

(** the caret of a diagnostic stands under the reported column: the blanks
    before it are as many as the display columns of the rendered source line before
    that byte, the two-byte not sign taking one column, whatever the line holds. *)
Theorem caret_aligned ln c replace :
  let target := if 0 <? c then c - 1 else 0 in
  let d := length (show_line (take (Z.to_nat target) ln)) in
  echo_line ln c replace =
    txt "  " ++ c_str (show_line ln) ++ nl ++
    txt "  " ++ List.repeat " "%char d ++ txt "^" ++ nl ++
    (if bool_decide (replace = []) then []
     else txt "  " ++ List.repeat " "%char d ++ c_str replace ++ nl).
Proof.
  cbn zeta. unfold echo_line, blanks. set (target := if 0 <? c then c - 1 else 0).
  assert (0 <= target) by (unfold target; destruct (Z.ltb_spec 0 c); lia).
  rewrite show_line_length_take, Z.sub_0_r, Nat2Z.id by lia.
  assert (forall n, replicate n " "%char = List.repeat " "%char n) as ->; [|done].
  induction n; cbn; congruence.
Qed.

(** ** Sequences of operations *)
Inductive dop :=
  | DError (loc : SourceLoc) (msg rule replace : text)
  | DWarn (loc : SourceLoc) (msg rule replace : text)
  | DRemark (loc : SourceLoc) (msg rule : text)
  | DNote (loc : SourceLoc) (msg : text)
  | DMute | DUnmute.

Definition run_dop (o : dop) (d : Diags) : Diags :=
  match o with
  | DError l m r p => error l m r p d
  | DWarn l m r p => warn l m r p d
  | DRemark l m r => remark l m r d
  | DNote l m => note l m d
  | DMute => mute d
  | DUnmute => unmute d
  end.
Definition run_dops (os : list dop) (d : Diags) : Diags := fold_left (fun d o => run_dop o d) os d.

(** A probe's operations: the mute nesting, [n] deep on entry, never goes below
    its entry level and comes back to it. *)
Fixpoint balanced (n : nat) (os : list dop) : bool :=
  match os with
  | [] => (n =? 0)%nat
  | DMute :: os' => balanced (S n) os'
  | DUnmute :: os' => match n with O => false | S m => balanced m os' end
  | _ :: os' => balanced n os'
  end.

Definition count_errors (os : list dop) : Z :=
  fold_left (fun n o => match o with DError _ _ _ _ => n + 1 | _ => n end) os 0.

Lemma upd_upd d a b c e f a' b' c' e' f' :
  upd (upd d a b c e f) a' b' c' e' f' = upd d a' b' c' e' f'.
Proof. done. Qed.

Lemma count_errors_from os n :
  fold_left (fun n o => match o with DError _ _ _ _ => n + 1 | _ => n end) os n = n + count_errors os.
Proof.
  unfold count_errors. revert n. induction os as [|o os IH]; intros n; cbn; [lia|].
  destruct o; rewrite IH, ?(IH 1), ?(IH (0 + 1)); lia.
Qed.

Lemma run_muted os d n : 0 < mute_ d -> balanced n os = true ->
  run_dops os d = upd d (nerr_ d) (nwarn_ d) (mute_ d - Z.of_nat n) (mnerr_ d + count_errors os) (stderr_ d)
  \/ mute_ d <= Z.of_nat n.
Proof.
  revert d n. induction os as [|o os IH]; intros d n Hm Hb.
  - cbn in *. destruct n; [|done]. left. destruct d. cbn. unfold upd. cbn. f_equal; unfold count_errors; cbn; lia.
  - destruct (Z.leb_spec (mute_ d) (Z.of_nat n)) as [|Hn]; [by right|left].
    assert (muted d = true) as Hmu by (unfold muted; lia).
    assert (forall d', 0 < mute_ d' -> mute_ d' > Z.of_nat n -> balanced n os = true ->
      run_dops os d' = upd d' (nerr_ d') (nwarn_ d') (mute_ d' - Z.of_nat n) (mnerr_ d' + count_errors os) (stderr_ d')) as IH'.
    { intros d' ? ? Hb'. destruct (IH d' n) as [|]; [done..|lia]. }
    unfold run_dops. cbn [fold_left]. unfold count_errors. cbn [fold_left]. rewrite count_errors_from.
    destruct o; cbn [balanced run_dop] in *; fold (run_dops os).
    + change (fold_left _ os ?x) with (run_dops os x). unfold error. rewrite Hmu.
      rewrite IH' by (cbn; lia || done). rewrite upd_upd. cbn. f_equal. lia.
    + change (fold_left _ os ?x) with (run_dops os x). unfold warn. rewrite Hmu. rewrite IH' by (done || lia). done.
    + change (fold_left _ os ?x) with (run_dops os x). unfold remark. rewrite Hmu. rewrite IH' by (done || lia). done.
    + change (fold_left _ os ?x) with (run_dops os x). unfold note. rewrite Hmu. rewrite IH' by (done || lia). done.
    + change (fold_left _ os ?x) with (run_dops os x).
      destruct (IH (mute d) (S n)) as [->|]; [cbn; lia|done| |cbn in *; lia].
      unfold mute. rewrite upd_upd. cbn. f_equal; lia.
    + destruct n as [|n]; [done|]. change (fold_left _ os ?x) with (run_dops os x).
      unfold unmute. unfold muted in Hmu. rewrite Hmu.
      destruct (IH (upd d (nerr_ d) (nwarn_ d) (mute_ d - 1) (mnerr_ d) (stderr_ d)) n) as [->|];
        [cbn; lia|done| |cbn in *; lia].
      rewrite upd_upd. cbn. f_equal; lia.
Qed.

(** a speculative parse leaves no trace: whatever a probe reports between
    [mute] and the matching [unmute] (nested probes included), after the muted tally
    is rewound the sink is the one the probe started from, with nothing printed and
    nothing counted; and the muted tally has grown by the errors the probe made. *)
Theorem probe_transparent os d : 0 <= mute_ d -> balanced 0 os = true ->
  rewindMutedErrors (mnerr_ d) (unmute (run_dops os (mute d))) = d /\
  mutedErrors (run_dops os (mute d)) = mnerr_ d + count_errors os.
Proof.
  intros Hm Hb. assert (mute_ (mute d) = mute_ d + 1) as Em by done.
  destruct (run_muted os (mute d) 0) as [->|]; [lia|done| |lia].
  split; [|done]. unfold unmute, mute, rewindMutedErrors, upd. cbn [mute_ nerr_ nwarn_ mnerr_
    stderr_ file_ src_ lineMap_ fileSrc_ rootCanon_].
  destruct (Z.ltb_spec 0 (mute_ d + 1 - Z.of_nat 0)); [|lia].
  replace (mute_ d + 1 - Z.of_nat 0 - 1) with (mute_ d) by lia. by destruct d.
Qed.

Lemma probe_transparent_witness :
  let d := Diags_new (txt "a.pli") in
  let os := [DError (mkLoc 1 1) (txt "m") (txt "") []; DMute; DWarn (mkLoc 1 2) (txt "w") [] []; DUnmute] in
  0 <= mute_ d /\ balanced 0 os = true /\
  mutedErrors (run_dops os (mute d)) = mnerr_ d + count_errors os.
Proof.
  cbv zeta. split; [vm_compute; discriminate|]. split; [vm_compute; reflexivity|].
  apply probe_transparent; [vm_compute; discriminate|vm_compute; reflexivity].
Defined.
