(* ===== verification/Lexer.v ===== *)
(** * Lexical analysis ([src/token.h], [src/lexer.h], [src/lexer.cpp])

    The token model and the lexer as a state machine over the source text: the
    position [p_], its line and column, and the diagnostics sink.  [cur] and
    [peek] read past the end as NUL, so a NUL byte ends the source, as in the
    code.  Loops carry fuel; [run] is shown to return whatever the source is. *)
From S2P Require Import Prelude Diag.

Module Tok.
Inductive t :=
  | Eof | Word | Number | Isub | CharLit | BitLit | HexLit
  | Semi | Colon | Comma | LParen | RParen | Dot
  | Eq | Plus | Minus | Star | Slash | Power | Concat | Amp | Bar | Not
  | Lt | Le | Gt | Ge | Ne | Ngt | Nlt | Arrow | Percent.
#[global] Instance t_eq_dec : EqDecision t.
Proof. solve_decision. Defined.
End Tok.

Module Token.
Record t := mk {
  kind : Tok.t; text_ : text; sval : text; loc : SourceLoc;
  binaryRadix : bool; imaginary : bool; sterling : bool; isFloat : bool; hasExp : bool }.
#[global] Instance t_eq_dec : EqDecision t.
Proof. solve_decision. Defined.
Definition default : t := mk Tok.Eof [] [] (mkLoc 0 0) false false false false false.
(** A token of kind [k] at [l], everything else default. *)
Definition at_loc (k : Tok.t) (l : SourceLoc) : t := mk k [] [] l false false false false false.
Definition isWord (t : t) (w : text) : bool := bool_decide (kind t = Tok.Word) && text_eqb (text_ t) w.
End Token.

Definition tokName (t : Tok.t) : text :=
  match t with
  | Tok.Eof => txt "end of file" | Tok.Word => txt "identifier"
  | Tok.Number => txt "numeric constant" | Tok.Isub => txt "iSUB"
  | Tok.CharLit => txt "character constant" | Tok.BitLit => txt "bit constant"
  | Tok.HexLit => txt "hex constant" | Tok.Semi => txt "';'" | Tok.Colon => txt "':'"
  | Tok.Comma => txt "','" | Tok.LParen => txt "'('" | Tok.RParen => txt "')'"
  | Tok.Dot => txt "'.'" | Tok.Eq => txt "'='" | Tok.Plus => txt "'+'"
  | Tok.Minus => txt "'-'" | Tok.Star => txt "'*'" | Tok.Slash => txt "'/'"
  | Tok.Power => txt "'**'" | Tok.Concat => txt "'||'" | Tok.Amp => txt "'&'"
  | Tok.Bar => txt "'|'" | Tok.Not => txt "'not'" | Tok.Lt => txt "'<'"
  | Tok.Le => txt "'<='" | Tok.Gt => txt "'>'" | Tok.Ge => txt "'>='"
  | Tok.Ne => txt "'not='" | Tok.Ngt => txt "'not>'" | Tok.Nlt => txt "'not<'"
  | Tok.Arrow => txt "'->'" | Tok.Percent => txt "'%'"
  end.

Definition pliIsLetter (c : char) : bool :=
  is_upper c || is_lower c || ceqb c "$" || ceqb c "#" || ceqb c "@".
Definition pliIsAlphameric (c : char) : bool := pliIsLetter c || is_digit c || ceqb c "_".

(** The not sign and the pound sign in UTF-8. *)
Definition b_C2 : char := char_of 0xC2.
Definition b_AC : char := char_of 0xAC.
Definition b_A3 : char := char_of 0xA3.
Definition b_C3 : char := char_of 0xC3.
Definition b_82 : char := char_of 0x82.

Record lex := mkLex { p_ : nat; line_ : Z; col_ : Z; d_ : Diags }.

(** A diagnostic whose text is fixed; the lexer passes no fix-it. *)
Definition lex_error (loc : SourceLoc) (msg rule : text) (st : lex) : lex :=
  mkLex (p_ st) (line_ st) (col_ st) (error loc msg rule [] (d_ st)).

Definition set_kind (k : Tok.t) (t : Token.t) : Token.t :=
  Token.mk k (Token.text_ t) (Token.sval t) (Token.loc t) (Token.binaryRadix t)
    (Token.imaginary t) (Token.sterling t) (Token.isFloat t) (Token.hasExp t).
Definition set_text (x : text) (t : Token.t) : Token.t :=
  Token.mk (Token.kind t) x (Token.sval t) (Token.loc t) (Token.binaryRadix t)
    (Token.imaginary t) (Token.sterling t) (Token.isFloat t) (Token.hasExp t).
Definition set_sval (x : text) (t : Token.t) : Token.t :=
  Token.mk (Token.kind t) (Token.text_ t) x (Token.loc t) (Token.binaryRadix t)
    (Token.imaginary t) (Token.sterling t) (Token.isFloat t) (Token.hasExp t).
Definition set_flags (br im st fl ex : bool) (t : Token.t) : Token.t :=
  Token.mk (Token.kind t) (Token.text_ t) (Token.sval t) (Token.loc t) br im st fl ex.

Section Lexer.
Variable s_ : text.

Definition cur (st : lex) : char := at_ s_ (p_ st).
Definition peek (n : nat) (st : lex) : char := at_ s_ (p_ st + n).
Definition here (st : lex) : SourceLoc := mkLoc (line_ st) (col_ st).

Definition bump (st : lex) : lex :=
  if bool_decide (p_ st < length s_)%nat then
    if ceqb (cur st) newline
    then mkLex (S (p_ st)) (line_ st + 1) 1 (d_ st)
    else mkLex (S (p_ st)) (line_ st) (col_ st + 1) (d_ st)
  else st.

(** Enough fuel for any loop that bumps on every turn. *)
Definition fuel_of (st : lex) : nat := S (length s_ - p_ st).

(** [while (P(cur())) bump();] *)
Fixpoint bump_while (fuel : nat) (P : char -> bool) (st : lex) : lex :=
  match fuel with
  | O => st
  | S f => if P (cur st) then bump_while f P (bump st) else st
  end.

(** [while (P(cur())) { acc.push_back(f(cur())); bump(); }] *)
Fixpoint eat_while (fuel : nat) (P : char -> bool) (f : char -> char) (acc : text) (st : lex)
  : text * lex :=
  match fuel with
  | O => (acc, st)
  | S n => if P (cur st) then eat_while n P f (acc ++ [f (cur st)]) (bump st) else (acc, st)
  end.

Definition eatNot (st : lex) : bool * lex :=
  if ceqb (cur st) "^" || ceqb (cur st) "~" then (true, bump st)
  else if ceqb (cur st) b_C2 && ceqb (peek 1 st) b_AC then (true, bump (bump st))
  else (false, st).

(** The body of a comment, after its [/*]: the flag tells whether it was
    terminated. *)
Fixpoint skip_comment (fuel : nat) (start : SourceLoc) (st : lex) : bool * lex :=
  match fuel with
  | O => (false, st)
  | S f =>
      if ceqb (cur st) NUL
      then (false, lex_error start (txt "unterminated comment") (txt "(150)") st)
      else if ceqb (cur st) "*" && ceqb (peek 1 st) "/" then (true, bump (bump st))
      else skip_comment f start (bump st)
  end.

Definition blank (c : char) : bool := negb (ceqb c NUL) && (code c <=? 32).

Fixpoint skipSpaceAndComments (fuel : nat) (st : lex) : lex :=
  match fuel with
  | O => st
  | S f =>
      let st := bump_while (fuel_of st) blank st in
      if ceqb (cur st) "/" && ceqb (peek 1 st) "*" then
        let '(closed, st) := skip_comment (fuel_of st) (here st) (bump (bump st)) in
        if closed then skipSpaceAndComments f st else st
      else if ceqb (cur st) "/" && ceqb (peek 1 st) "/" then
        skipSpaceAndComments f
          (bump_while (fuel_of st) (fun c => negb (ceqb c NUL) && negb (ceqb c newline)) st)
      else st
  end.

Definition lexWord (st : lex) : Token.t * lex :=
  let '(w, st') := eat_while (fuel_of st) pliIsAlphameric to_upper [] st in
  (set_text w (Token.at_loc Tok.Word (here st)), st').

Definition eat_digits (acc : text) (st : lex) : text * lex :=
  eat_while (fuel_of st) is_digit id acc st.

(** [cur() == '.' && isdigit(peek())] *)
Definition at_fraction (st : lex) : bool := ceqb (cur st) "." && is_digit (peek 1 st).

(** The pence fields of a sterling constant (rule 145): a second dot, and
    perhaps a third, then the pound sign. *)
Definition lexSterling (t : Token.t) (st : lex) : Token.t * lex :=
  let '(x, st) := eat_digits (Token.text_ t ++ txt ".") (bump st) in
  let '(x, st) := if at_fraction st then eat_digits (x ++ txt ".") (bump st) else (x, st) in
  let t := set_text x t in
  if ceqb (cur st) b_C2 && ceqb (peek 1 st) b_A3
  then (set_flags (Token.binaryRadix t) (Token.imaginary t) true false (Token.hasExp t) t,
        bump (bump st))
  else (t, lex_error (Token.loc t)
             (txt "a sterling constant must end with '" ++ [b_C2; b_A3] ++ txt "'") (txt "(145)") st).

(** An exponent is taken only when a digit follows its optional sign;
    otherwise the position is restored. *)
Definition lexExponent (t : Token.t) (st : lex) : Token.t * lex :=
  if ceqb (cur st) "E" || ceqb (cur st) "e" then
    let st1 := bump st in
    let '(e, st2) := if ceqb (cur st1) "+" || ceqb (cur st1) "-"
                     then (txt "E" ++ [cur st1], bump st1) else (txt "E", st1) in
    if is_digit (cur st2) then
      let '(e, st3) := eat_digits e st2 in
      (set_flags (Token.binaryRadix t) (Token.imaginary t) (Token.sterling t) true true
         (set_text (Token.text_ t ++ e) t), st3)
    else (t, mkLex (p_ st) (line_ st) (col_ st) (d_ st2))
  else (t, st).

Definition lexRadix (t : Token.t) (st : lex) : Token.t * lex :=
  if ceqb (cur st) "B" || ceqb (cur st) "b"
  then (set_flags true (Token.imaginary t) (Token.sterling t) (Token.isFloat t) (Token.hasExp t) t,
        bump st)
  else if ceqb (cur st) "I" || ceqb (cur st) "i"
  then (set_flags (Token.binaryRadix t) true (Token.sterling t) (Token.isFloat t) (Token.hasExp t) t,
        bump st)
  else (t, st).

Definition lexNumber (st : lex) : Token.t * lex :=
  let t := Token.at_loc Tok.Number (here st) in
  let '(x, st) := eat_digits [] st in
  let t := set_text x t in
  if (ceqb (cur st) "S" || ceqb (cur st) "s") && (ceqb (peek 1 st) "U" || ceqb (peek 1 st) "u") &&
     (ceqb (peek 2 st) "B" || ceqb (peek 2 st) "b")
  then (set_kind Tok.Isub t, bump (bump (bump st)))
  else if at_fraction st then
    let '(x, st) := eat_digits (Token.text_ t ++ txt ".") (bump st) in
    let t := set_flags false false false true false (set_text x t) in
    if at_fraction st then lexSterling t st
    else let '(t, st) := lexExponent t st in lexRadix t st
  else let '(t, st) := lexExponent t st in lexRadix t st.

(** The characters between the quotes; [''] is a contained quote. *)
Fixpoint string_body (fuel : nat) (l : SourceLoc) (v : text) (st : lex) : text * lex :=
  match fuel with
  | O => (v, st)
  | S f =>
      if ceqb (cur st) NUL || ceqb (cur st) newline
      then (v, lex_error l (txt "unterminated string constant") (txt "(143)") st)
      else if ceqb (cur st) squote then
        if ceqb (peek 1 st) squote then string_body f l (v ++ [squote]) (bump (bump st))
        else (v, bump st)
      else string_body f l (v ++ [cur st]) (bump st)
  end.

Definition lexString (st : lex) : Token.t * lex :=
  let l := here st in
  let st1 := bump st in
  let '(v, st) := string_body (fuel_of st1) l [] st1 in
  let '(k, st) :=
    if ceqb (cur st) "B" || ceqb (cur st) "b" then (Tok.BitLit, bump st)
    else if ceqb (cur st) "X" || ceqb (cur st) "x" then (Tok.HexLit, bump st)
    else (Tok.CharLit, st) in
  (set_sval v (Token.at_loc k l), st).

Definition hex_digit (v : Z) : char := if v <? 10 then char_of (48 + v) else char_of (87 + v).

(** A two-character operator: [k2] when the next character is [c2]. *)
Definition two (c2 : char) (k2 k1 : Tok.t) (st : lex) : option Tok.t * lex :=
  let st := bump st in
  if ceqb (cur st) c2 then (Some k2, bump st) else (Some k1, st).

(** The not sign and what may follow it, or the diagnosis of a character that
    starts no token ([None]: the character is dropped). *)
Definition lexNotOrInvalid (c : char) (l : SourceLoc) (st : lex) : option Tok.t * lex :=
  let '(isnot, st') := eatNot st in
  if isnot then
    if ceqb (cur st') "=" then (Some Tok.Ne, bump st')
    else if ceqb (cur st') ">" then (Some Tok.Ngt, bump st')
    else if ceqb (cur st') "<" then (Some Tok.Nlt, bump st')
    else (Some Tok.Not, st')
  else if ceqb (cur st) b_C3 && ceqb (peek 1 st) b_82 && ceqb (peek 2 st) b_C2 &&
          ceqb (peek 3 st) b_AC then
    (None, bump (bump (bump (bump (lex_error l
       (txt "not sign is doubly encoded (0xc3 0x82 0xc2 0xac); write it as '^'") [] st)))))
  else if 0x80 <=? code (cur st) then
    (None, bump (lex_error l
       (txt "invalid character (0x" ++ [hex_digit (code (cur st) / 16); hex_digit (code (cur st) mod 16)]
        ++ txt ") in source") [] st))
  else
    (None, bump (lex_error l (txt "invalid character '" ++ [c] ++ txt "' in source") [] st)).

(** The switch of [lexAll]. *)
Definition lexOp (st : lex) : option Tok.t * lex :=
  let c := cur st in
  let l := here st in
  if ceqb c ";" then (Some Tok.Semi, bump st)
  else if ceqb c ":" then (Some Tok.Colon, bump st)
  else if ceqb c "," then two "." Tok.Semi Tok.Comma st
  else if ceqb c "(" then (Some Tok.LParen, bump st)
  else if ceqb c ")" then (Some Tok.RParen, bump st)
  else if ceqb c "." then two "." Tok.Colon Tok.Dot st
  else if ceqb c "+" then (Some Tok.Plus, bump st)
  else if ceqb c "&" then (Some Tok.Amp, bump st)
  else if ceqb c "=" then (Some Tok.Eq, bump st)
  else if ceqb c "*" then two "*" Tok.Power Tok.Star st
  else if ceqb c "/" then (Some Tok.Slash, bump st)
  else if ceqb c "%" then (Some Tok.Percent, bump st)
  else if ceqb c "|" then two "|" Tok.Concat Tok.Bar st
  else if ceqb c "!" then
    let st := bump st in
    if ceqb (cur st) "!" then (Some Tok.Concat, bump st)
    else (None, lex_error l (txt "invalid character '!' in source") [] st)
  else if ceqb c "-" then two ">" Tok.Arrow Tok.Minus st
  else if ceqb c "<" then two "=" Tok.Le Tok.Lt st
  else if ceqb c ">" then two "=" Tok.Ge Tok.Gt st
  else lexNotOrInvalid c l st.

(** One turn of the [lexAll] loop after the blanks: a token, or nothing when a
    bad character was dropped. *)
Definition lexOne (st : lex) : option Token.t * lex :=
  let c := cur st in
  if pliIsLetter c then let '(t, st) := lexWord st in (Some t, st)
  else if is_digit c || (ceqb c "." && is_digit (peek 1 st))
  then let '(t, st) := lexNumber st in (Some t, st)
  else if ceqb c squote then let '(t, st) := lexString st in (Some t, st)
  else let '(k, st') := lexOp st in
       ((fun k => Token.at_loc k (here st)) <$> k, st').

Fixpoint lexLoop (fuel : nat) (out : list Token.t) (st : lex) : option (list Token.t * lex) :=
  match fuel with
  | O => None
  | S f =>
      let st := skipSpaceAndComments (fuel_of st) st in
      if ceqb (cur st) NUL then Some (out ++ [Token.at_loc Tok.Eof (here st)], st)
      else
        let '(t, st) := lexOne st in
        lexLoop f (match t with Some t => out ++ [t] | None => out end) st
  end.

Definition lexAll (st : lex) : option (list Token.t * lex) := lexLoop (fuel_of st) [] st.
End Lexer.
#[global] Arguments fuel_of _ _ : simpl never.

(** [Lexer(src, d).run()] *)
Definition run (src : text) (d : Diags) : option (list Token.t * lex) :=
  lexAll src (mkLex 0 1 1 d).
