(* ===== verification/LexerPos.v ===== *)
(** * The lexer's state machine: positions and totality

    Every operation of the lexer moves the state forward by [bump]s only, so the
    line and column it keeps are those of its offset, and each turn of the main
    loop consumes at least one byte. *)
From Stdlib Require Import Sorting.Sorted.
From S2P Require Import Prelude Diag Lexer.
Create HintDb lexer.

(** ** Positions

    The line and column of a byte offset, from the text before it. *)
Definition loc_step (l : SourceLoc) (c : char) : SourceLoc :=
  if ceqb c newline then mkLoc (line l + 1) 1 else mkLoc (line l) (col l + 1).
Definition loc_of (prefix : text) : SourceLoc := fold_left loc_step prefix (mkLoc 1 1).

Section Positions.
Variable s : text.
Implicit Types st : lex.

Definition core st : nat * Z * Z := (p_ st, line_ st, col_ st).

(** [st'] is [st] moved forward; of the diagnostics only the mute depth is as it was. *)
Definition adv st st' : Prop :=
  (exists n, core st' = core (Nat.iter n (bump s) st)) /\ mute_ (d_ st') = mute_ (d_ st).

Lemma core_bump st st' : core st = core st' -> core (bump s st) = core (bump s st').
Proof.
  destruct st as [p l c d], st' as [p' l' c' d']. unfold core. cbn. intros [= -> -> ->].
  unfold bump, cur. cbn [p_ line_ col_]. destruct (bool_decide _); [|done]. by destruct (ceqb _ newline).
Qed.
Lemma core_iter n st st' : core st = core st' ->
  core (Nat.iter n (bump s) st) = core (Nat.iter n (bump s) st').
Proof. intros E. induction n; cbn; [done|]. by apply core_bump. Qed.

Lemma mute_bump st : mute_ (d_ (bump s st)) = mute_ (d_ st).
Proof. unfold bump. case_bool_decide; [|done]. by destruct (ceqb _ _). Qed.
Lemma mute_error l m r st : mute_ (d_ (lex_error l m r st)) = mute_ (d_ st).
Proof. unfold lex_error, error. cbn. by destruct (muted _). Qed.
Lemma adv_refl st : adv st st.
Proof. split; [by exists 0%nat|done]. Qed.
Lemma adv_core st st' st'' : adv st st' -> core st' = core st'' -> mute_ (d_ st'') = mute_ (d_ st') -> adv st st''.
Proof. intros [[n E] M] E' M'. split; [exists n|]; congruence. Qed.
Lemma adv_trans st1 st2 st3 : adv st1 st2 -> adv st2 st3 -> adv st1 st3.
Proof.
  intros [[n1 E1] M1] [[n2 E2] M2]. split; [|congruence]. exists (n2 + n1)%nat. rewrite E2, Nat.iter_add. by apply core_iter.
Qed.
Lemma adv_bump st : adv st (bump s st).
Proof. split; [by exists 1%nat|]. apply mute_bump. Qed.
Lemma adv_error st st' l m r : adv st st' -> adv st (lex_error l m r st').
Proof. intros H. eapply adv_core; [done..|]. by rewrite mute_error. Qed.
Lemma adv_bump_r st st' : adv st st' -> adv st (bump s st').
Proof. intros H. eapply adv_trans; [done|apply adv_bump]. Qed.

Hint Resolve adv_refl adv_bump_r adv_error : lexer.

Lemma adv_bump_while f P st : adv st (bump_while s f P st).
Proof.
  revert st. induction f as [|f IH]; intros st; cbn; [auto with lexer|].
  destruct (P _); [|auto with lexer]. eapply adv_trans; [apply adv_bump|apply IH].
Qed.
Lemma adv_eat_while f P g acc st : adv st (eat_while s f P g acc st).2.
Proof.
  revert acc st. induction f as [|f IH]; intros acc st; cbn; [auto with lexer|].
  destruct (P _); [|apply adv_refl]. eapply adv_trans; [apply adv_bump|apply IH].
Qed.
Lemma adv_eat_digits acc st : adv st (eat_digits s acc st).2.
Proof. apply adv_eat_while. Qed.
Lemma adv_skip_comment f l st : adv st (skip_comment s f l st).2.
Proof.
  revert st. induction f as [|f IH]; intros st; cbn; [auto with lexer|].
  destruct (ceqb _ NUL); [cbn; auto with lexer|].
  destruct (_ && _); [cbn; auto with lexer|]. eapply adv_trans; [apply adv_bump|apply IH].
Qed.
Lemma adv_skip f st : adv st (skipSpaceAndComments s f st).
Proof.
  revert st. induction f as [|f IH]; intros st; cbn; [apply adv_refl|].
  assert (adv st (bump_while s (fuel_of s st) blank st)) as H by apply adv_bump_while.
  set (st1 := bump_while s (fuel_of s st) blank st) in *. clearbody st1.
  destruct (_ && _).
  - pose proof (adv_skip_comment (fuel_of s st1) (here st1) (bump s (bump s st1))) as H2.
    destruct (skip_comment _ _ _ _) as [closed st2]; cbn in H2.
    assert (adv st st2) as H3.
    { eapply adv_trans; [exact H|]. eapply adv_trans; [|exact H2]. auto with lexer. }
    destruct closed; [|done]. eapply adv_trans; [exact H3|apply IH].
  - destruct (_ && _); [|done].
    eapply adv_trans; [exact H|]. eapply adv_trans; [apply adv_bump_while|apply IH].
Qed.

Ltac adv_step := first [apply adv_refl | apply adv_bump_r | apply adv_error].

Lemma adv_two c2 k2 k1 st : adv (bump s st) (two s c2 k2 k1 st).2.
Proof. unfold two. destruct (ceqb _ _); cbn; auto with lexer. Qed.
Lemma adv_eatNot st : adv st (eatNot s st).2.
Proof. unfold eatNot. destruct (_ || _); [|destruct (_ && _)]; cbn; auto with lexer. Qed.
Lemma adv_eatNot_true st : (eatNot s st).1 = true -> adv (bump s st) (eatNot s st).2.
Proof. unfold eatNot. destruct (_ || _); [|destruct (_ && _)]; cbn; intros; auto with lexer; done. Qed.

Lemma adv_lexRadix t st : adv st (lexRadix s t st).2.
Proof. unfold lexRadix. destruct (_ || _); [|destruct (_ || _)]; cbn; auto with lexer. Qed.
Lemma adv_lexExponent t st : adv st (lexExponent s t st).2.
Proof.
  unfold lexExponent. destruct (_ || _); [|cbn; auto with lexer].
  set (st1 := bump s st).
  assert (adv st st1) as H1 by apply adv_bump. clearbody st1.
  assert (forall x : text * lex, x = (if ceqb (cur s st1) "+" || ceqb (cur s st1) "-"
    then (txt "E" ++ [cur s st1], bump s st1) else (txt "E", st1)) -> adv st x.2) as H2.
  { intros x ->. destruct (_ || _); cbn; auto with lexer. }
  destruct (if ceqb (cur s st1) "+" || _ then _ else _) as [e st2]; specialize (H2 _ eq_refl); cbn in H2.
  destruct (is_digit _).
  - pose proof (adv_eat_digits e st2) as H3. destruct (eat_digits s e st2) as [e' st3].
    cbn in *. by eapply adv_trans.
  - cbn. eapply adv_core; [apply adv_refl|done|]. cbn. apply H2.
Qed.
Lemma adv_lexSterling t st : adv st (lexSterling s t st).2.
Proof.
  unfold lexSterling.
  pose proof (adv_eat_digits (Token.text_ t ++ txt ".") (bump s st)) as H1.
  destruct (eat_digits _ _ _) as [x st1]; cbn in H1.
  assert (adv st st1) as H2 by (eapply adv_trans; [apply adv_bump|exact H1]). clear H1.
  destruct (at_fraction s st1).
  - pose proof (adv_eat_digits (x ++ txt ".") (bump s st1)) as H3.
    destruct (eat_digits _ _ _) as [y st2]; cbn in H3.
    assert (adv st st2) by (eapply adv_trans; [exact H2|eapply adv_trans; [apply adv_bump|exact H3]]).
    destruct (_ && _); cbn; auto with lexer.
  - destruct (_ && _); cbn; auto with lexer.
Qed.
Lemma adv_exp_radix st0 t st : adv st0 st ->
  adv st0 (let '(t, st) := lexExponent s t st in lexRadix s t st).2.
Proof.
  intros H. pose proof (adv_lexExponent t st) as H1.
  destruct (lexExponent s t st) as [t' st']; cbn in H1.
  eapply adv_trans; [exact H|]. eapply adv_trans; [exact H1|]. apply adv_lexRadix.
Qed.
Lemma adv_eat_while_pos f P g acc st : P (cur s st) = true ->
  adv (bump s st) (eat_while s (S f) P g acc st).2.
Proof. intros E. cbn. rewrite E. apply adv_eat_while. Qed.

Lemma adv_lexWord st : pliIsAlphameric (cur s st) = true -> adv (bump s st) (lexWord s st).2.
Proof.
  intros E. unfold lexWord.
  pose proof (adv_eat_while_pos (length s - p_ st) _ to_upper [] st E) as H.
  unfold fuel_of. by destruct (eat_while _ _ _ _ _ _).
Qed.

Lemma adv_lexNumber st :
  is_digit (cur s st) || (ceqb (cur s st) "." && is_digit (peek s 1 st)) = true ->
  adv (bump s st) (lexNumber s st).2.
Proof.
  intros E. unfold lexNumber.
  assert (forall x, x = eat_digits s [] st -> is_digit (cur s st) = true /\ adv (bump s st) x.2 \/ x = ([], st)
    /\ at_fraction s st = true) as H.
  { intros x ->. destruct (is_digit (cur s st)) eqn:Ed.
    - left. split; [done|]. by apply adv_eat_while_pos.
    - right. unfold eat_digits, fuel_of. cbn. rewrite Ed. done. }
  destruct (eat_digits s [] st) as [x st1]. specialize (H _ eq_refl).
  set (t := set_text x (Token.at_loc Tok.Number (here st))).
  destruct (_ && _ && _) eqn:Es.
  { destruct H as [[_ H]|[[= -> ->] H]]; cbn; [auto 6 with lexer|].
    unfold at_fraction in H. exfalso. unfold ceqb in *.
    destruct (bool_decide_reflect (cur s st = "."%char)) as [Ec|]; [|done].
    rewrite Ec in Es. done. }
  destruct (at_fraction s st1) eqn:Ef.
  - assert (adv (bump s st) (bump s st1)) as H1.
    { destruct H as [[_ H]|[[= -> ->] _]]; cbn in *; auto with lexer. }
    pose proof (adv_eat_digits (Token.text_ t ++ txt ".") (bump s st1)) as H2.
    destruct (eat_digits s _ (bump s st1)) as [y st2]; cbn in H2.
    assert (adv (bump s st) st2) as H3 by by eapply adv_trans.
    destruct (at_fraction s st2).
    + eapply adv_trans; [exact H3|]. apply adv_lexSterling.
    + by apply adv_exp_radix.
  - destruct H as [[_ H]|[[= -> ->] H]]; [|congruence]. by apply adv_exp_radix.
Qed.

Lemma adv_string_body f l v st : adv st (string_body s f l v st).2.
Proof.
  revert v st. induction f as [|f IH]; intros v st; cbn; [auto with lexer|].
  destruct (_ || _); [cbn; auto with lexer|].
  destruct (ceqb _ squote); [destruct (ceqb _ squote)|]; cbn; auto with lexer.
  - eapply adv_trans; [|apply IH]. auto with lexer.
  - eapply adv_trans; [|apply IH]. auto with lexer.
Qed.
Lemma adv_lexString st : adv (bump s st) (lexString s st).2.
Proof.
  unfold lexString.
  pose proof (adv_string_body (fuel_of s (bump s st)) (here st) [] (bump s st)) as H.
  destruct (string_body _ _ _ _ _) as [v st1]; cbn in H.
  destruct (_ || _); [|destruct (_ || _)]; cbn; auto with lexer.
Qed.

Lemma adv_lexNotOrInvalid c l st : adv (bump s st) (lexNotOrInvalid s c l st).2.
Proof.
  unfold lexNotOrInvalid. pose proof (adv_eatNot_true st) as H.
  destruct (eatNot s st) as [[] st']; cbn in H.
  - specialize (H eq_refl). repeat (destruct (ceqb _ _); [cbn; auto with lexer|]). done.
  - assert (forall m, adv (bump s st) (bump s (lex_error l m [] st))) as He.
    { intros m. eapply adv_core; [apply adv_refl|by apply core_bump|]. by rewrite !mute_bump, mute_error. }
    destruct (_ && _); [cbn; auto 8 with lexer|]. destruct (_ <=? _); cbn; auto.
Qed.

Lemma adv_lexOp st : adv (bump s st) (lexOp s st).2.
Proof.
  unfold lexOp. cbn zeta.
  repeat (match goal with |- context [if ceqb ?a ?b then _ else _] => destruct (ceqb a b) end;
          [cbn; auto using adv_two with lexer|]).
  all: first [apply adv_lexNotOrInvalid | cbn; auto with lexer].
Qed.

Lemma adv_lexOne st : adv (bump s st) (lexOne s st).2.
Proof.
  unfold lexOne. cbn zeta. destruct (pliIsLetter _) eqn:E1.
  { pose proof (adv_lexWord st) as H. destruct (lexWord s st); cbn in *. apply H.
    unfold pliIsAlphameric. by rewrite E1. }
  destruct (_ || _) eqn:E2.
  { pose proof (adv_lexNumber st E2) as H. destruct (lexNumber s st). exact H. }
  destruct (ceqb _ squote).
  { pose proof (adv_lexString st) as H. destruct (lexString s st). exact H. }
  pose proof (adv_lexOp st) as H. destruct (lexOp s st). exact H.
Qed.
End Positions.

Section Totality.
Variable s : text.
Implicit Types st : lex.

Definition in_src st : Prop := (p_ st <= length s)%nat.

Lemma p_bump st : in_src st -> p_ (bump s st) = (if bool_decide (p_ st < length s)%nat then S (p_ st) else p_ st).
Proof. intros _. unfold bump. case_bool_decide; [|done]. by destruct (ceqb _ _). Qed.

Lemma p_adv st st' : adv s st st' -> in_src st -> in_src st' /\ (p_ st <= p_ st')%nat.
Proof.
  unfold in_src. intros [[n E] _] Hp. assert (p_ st' = p_ (Nat.iter n (bump s) st)) as ->.
  { unfold core in E. congruence. }
  clear E st'. induction n as [|n IH]; [cbn; lia|]. rewrite Nat.iter_succ.
  rewrite p_bump by (unfold in_src; lia). case_bool_decide; lia.
Qed.

Lemma cur_in_src st : cur s st <> NUL -> (p_ st < length s)%nat.
Proof.
  unfold cur, at_. intros H. destruct (decide (p_ st < length s)%nat); [done|].
  rewrite lookup_ge_None_2 in H by lia. done.
Qed.

Lemma p_adv_bump st st' : adv s (bump s st) st' -> in_src st -> cur s st <> NUL ->
  in_src st' /\ (p_ st < p_ st')%nat.
Proof.
  intros H Hp Hc. apply cur_in_src in Hc.
  assert (p_ (bump s st) = S (p_ st)) as E by (rewrite p_bump, bool_decide_eq_true_2; done).
  destruct (p_adv _ _ H); [unfold in_src; lia|]. split; [done|lia].
Qed.

(** The main loop returns, whatever the source. *)
Lemma lexLoop_total fuel out st : in_src st -> (length s - p_ st < fuel)%nat ->
  exists ts st', lexLoop s fuel out st = Some (ts, st').
Proof.
  revert out st. induction fuel as [|f IH]; intros out st Hp Hf; [lia|]. cbn [lexLoop].
  destruct (p_adv _ _ (adv_skip s (fuel_of s st) st) Hp) as [Hp1 Hle].
  set (st1 := skipSpaceAndComments s (fuel_of s st) st) in *. clearbody st1.
  destruct (ceqb (cur s st1) NUL) eqn:E; [eauto|].
  assert (cur s st1 <> NUL) as Hc by (unfold ceqb in E; by case_bool_decide).
  pose proof (p_adv_bump _ _ (adv_lexOne s st1) Hp1 Hc) as [Hp2 Hlt].
  pose proof (cur_in_src _ Hc).
  destruct (lexOne s st1) as [t st2]. cbn in *. apply IH; [done|]. unfold in_src in *. lia.
Qed.

(** The line and column kept by the state are those of its offset. *)
Definition loc_inv st : Prop := in_src st /\ here st = loc_of (take (p_ st) s).

Lemma loc_inv_core st st' : core st = core st' -> loc_inv st -> loc_inv st'.
Proof. unfold loc_inv, in_src, here, core. intros [= -> -> ->]. done. Qed.

Lemma loc_inv_bump st : loc_inv st -> loc_inv (bump s st).
Proof.
  intros [Hp Hl]. unfold bump. case_bool_decide as Hlt; [|done].
  destruct (lookup_lt_is_Some_2 s (p_ st) Hlt) as [c Hc].
  assert (loc_of (take (S (p_ st)) s) = loc_step (here st) c) as E.
  { rewrite (take_S_r _ _ _ Hc). unfold loc_of. rewrite fold_left_app. cbn. by rewrite Hl. }
  unfold cur, at_. rewrite Hc. change (default NUL (Some c)) with c. unfold loc_step in E. unfold loc_inv, in_src, here in *.
  destruct (ceqb c newline); cbn [p_ line_ col_]; (split; [lia|by rewrite E]).
Qed.

Lemma loc_inv_adv st st' : adv s st st' -> loc_inv st -> loc_inv st'.
Proof.
  intros [[n E] _] H. eapply loc_inv_core; [symmetry; exact E|]. clear E.
  induction n; cbn; [done|]. by apply loc_inv_bump.
Qed.

Lemma loc_lexRadix t st : Token.loc (lexRadix s t st).1 = Token.loc t.
Proof. unfold lexRadix. by repeat destruct (_ || _). Qed.
Lemma loc_lexExponent t st : Token.loc (lexExponent s t st).1 = Token.loc t.
Proof.
  unfold lexExponent. destruct (_ || _); [|done]. cbn zeta.
  destruct (if _ || _ then _ else _) as [e st2].
  destruct (is_digit _); [|done]. by destruct (eat_digits _ _ _).
Qed.
Lemma loc_lexSterling t st : Token.loc (lexSterling s t st).1 = Token.loc t.
Proof.
  unfold lexSterling. destruct (eat_digits _ _ _) as [x st1].
  destruct (if at_fraction s st1 then _ else _) as [y st2]. by destruct (_ && _).
Qed.
Lemma loc_exp_radix t st :
  Token.loc (let '(t, st) := lexExponent s t st in lexRadix s t st).1 = Token.loc t.
Proof.
  pose proof (loc_lexExponent t st) as H. destruct (lexExponent s t st) as [t' st'].
  cbn in H. by rewrite loc_lexRadix.
Qed.
Lemma loc_lexNumber st : Token.loc (lexNumber s st).1 = here st.
Proof.
  unfold lexNumber. destruct (eat_digits s [] st) as [x st1].
  destruct (_ && _ && _); [done|]. destruct (at_fraction s st1).
  - destruct (eat_digits _ _ _) as [y st2]. destruct (at_fraction s st2).
    + by rewrite loc_lexSterling.
    + by rewrite loc_exp_radix.
  - by rewrite loc_exp_radix.
Qed.
Lemma loc_lexOne st t st' : lexOne s st = (Some t, st') -> Token.loc t = here st.
Proof.
  unfold lexOne. cbn zeta. destruct (pliIsLetter _).
  { unfold lexWord. destruct (eat_while _ _ _ _ _ _). by intros [= <- _]. }
  destruct (_ || _).
  { pose proof (loc_lexNumber st) as H. destruct (lexNumber s st). by intros [= <- _]. }
  destruct (ceqb _ squote).
  { unfold lexString. destruct (string_body _ _ _ _ _) as [v st1].
    destruct (if _ || _ then _ else _) as [k st2]. by intros [= <- _]. }
  destruct (lexOp s st) as [[k|] st1]; cbn; intros [=]. by subst.
Qed.

(** Token [t] starts at offset [o]. *)
Definition starts_at (t : Token.t) (o : nat) : Prop :=
  (o <= length s)%nat /\ Token.loc t = loc_of (take o s).

Lemma lexLoop_positions fuel out st ts st' : loc_inv st -> lexLoop s fuel out st = Some (ts, st') ->
  exists new eof offs, ts = out ++ new ++ [eof] /\ Token.kind eof = Tok.Eof /\
    Forall2 starts_at (new ++ [eof]) offs /\ StronglySorted lt offs /\
    Forall (fun o => p_ st <= o)%nat offs /\ mute_ (d_ st') = mute_ (d_ st).
Proof.
  revert out st. induction fuel as [|f IH]; intros out st Hinv; [done|]. cbn [lexLoop].
  pose proof (adv_skip s (fuel_of s st) st) as Hadv.
  pose proof (loc_inv_adv _ _ Hadv Hinv) as H1. destruct (p_adv _ _ Hadv (proj1 Hinv)) as [Hp1 Hle].
  set (st1 := skipSpaceAndComments s (fuel_of s st) st) in *. clearbody st1.
  destruct (ceqb (cur s st1) NUL) eqn:E.
  - intros [= <- <-]. exists [], (Token.at_loc Tok.Eof (here st1)), [p_ st1].
    split; [done|]. split; [done|]. split; [repeat constructor; apply H1|]. split; [repeat constructor|]. split; [repeat constructor; done|].
    apply Hadv.
  - assert (cur s st1 <> NUL) as Hc by (unfold ceqb in E; by case_bool_decide).
    pose proof (adv_lexOne s st1) as Hadv2.
    pose proof (p_adv_bump _ _ Hadv2 Hp1 Hc) as [Hp2 Hlt].
    assert (loc_inv (lexOne s st1).2) as H2 by (eapply loc_inv_adv; [exact Hadv2|by apply loc_inv_bump]).
    destruct (lexOne s st1) as [[t|] st2] eqn:E1; cbn in Hlt, H2; intros Hl.
    + destruct (IH _ _ H2 Hl) as (new & eof & offs & -> & Hk & HF & HS & HA & Hm).
      assert (mute_ (d_ st') = mute_ (d_ st)) as Hmute by (rewrite Hm; etrans; [apply Hadv2|]; rewrite mute_bump; apply Hadv).
      exists (t :: new), eof, (p_ st1 :: offs). rewrite <- app_assoc. split; [done|]. split; [done|].
      split; [|split; [|split]]; [constructor; [|done] | constructor; [done|] | constructor; [done|] |done].
      * split; [apply H1|]. rewrite (loc_lexOne _ _ _ E1). apply H1.
      * eapply Forall_impl; [exact HA|]. cbn; lia.
      * eapply Forall_impl; [exact HA|]. cbn; lia.
    + destruct (IH _ _ H2 Hl) as (new & eof & offs & -> & Hk & HF & HS & HA & Hm).
      assert (mute_ (d_ st') = mute_ (d_ st)) as Hmute by (rewrite Hm; etrans; [apply Hadv2|]; rewrite mute_bump; apply Hadv).
      exists new, eof, offs. split; [done|]. split; [done|]. split; [done|]. split; [done|]. split; [|done].
      eapply Forall_impl; [exact HA|]. cbn; lia.
Qed.
End Totality.

(** The lexer returns, the list ends in end-of-file, and the mute depth is kept. *)
Lemma lexer_runs src d :
  exists ts st, run src d = Some (ts, st) /\
    exists new eof offs, ts = new ++ [eof] /\ Token.kind eof = Tok.Eof /\
      Forall2 (starts_at src) ts offs /\ StronglySorted lt offs /\ mute_ (d_ st) = mute_ d.
Proof.
  assert (loc_inv src (mkLex 0 1 1 d)) as Hinv by (split; [unfold in_src; cbn; lia|done]).
  destruct (lexLoop_total src (fuel_of src (mkLex 0 1 1 d)) [] (mkLex 0 1 1 d)) as (ts & st & E).
  { apply Hinv. } { unfold fuel_of; cbn; lia. }
  exists ts, st. split; [exact E|].
  destruct (lexLoop_positions _ _ _ _ _ _ Hinv E) as (new & eof & offs & -> & ? & ? & ? & _ & ?).
  exists new, eof, offs. done.
Qed.

