(* ===== verification/LexRound.v ===== *)
(** * Printing and lexing are inverse

    A concrete syntax of lexemes and separators, its printer, and the theorem
    that [run] reads printed text back as the tokens it was printed from. *)
From S2P Require Import Prelude Diag Lexer LexerPos.

(** ** A concrete syntax of lexemes *)
Inductive sep_item :=
  | SBlank (c : char)
  | SComment (body : text)
  | SLineComment (body : text).

Inductive lexeme :=
  | LWord (w : text)
  | LNum (ip : text) (fp : option text) (ex : option (text * text)) (suffix : text)
  | LIsub (n : text)
  | LStr (body suffix : text)
  | LOp (k : Tok.t).

Definition op_text (k : Tok.t) : text :=
  match k with
  | Tok.Semi => txt ";" | Tok.Colon => txt ":" | Tok.Comma => txt "," | Tok.LParen => txt "("
  | Tok.RParen => txt ")" | Tok.Dot => txt "." | Tok.Eq => txt "=" | Tok.Plus => txt "+"
  | Tok.Minus => txt "-" | Tok.Star => txt "*" | Tok.Slash => txt "/" | Tok.Power => txt "**"
  | Tok.Concat => txt "||" | Tok.Amp => txt "&" | Tok.Bar => txt "|" | Tok.Not => [b_C2; b_AC]
  | Tok.Lt => txt "<" | Tok.Le => txt "<=" | Tok.Gt => txt ">" | Tok.Ge => txt ">="
  | Tok.Ne => txt "^=" | Tok.Ngt => txt "~>" | Tok.Nlt => [b_C2; b_AC] ++ txt "<"
  | Tok.Arrow => txt "->" | Tok.Percent => txt "%" | _ => []
  end.
Definition is_op (k : Tok.t) : bool := negb (bool_decide (op_text k = [])).

Fixpoint quote (body : text) : text :=
  match body with
  | [] => []
  | c :: b => if ceqb c squote then squote :: squote :: quote b else c :: quote b
  end.

Definition frac_text (fp : option text) : text := match fp with Some f => "."%char :: f | None => [] end.
Definition exp_text (ex : option (text * text)) : text :=
  match ex with Some (sg, e) => "E"%char :: sg ++ e | None => [] end.

Definition render (l : lexeme) : text :=
  match l with
  | LWord w => w
  | LNum ip fp ex suf => ip ++ frac_text fp ++ exp_text ex ++ suf
  | LIsub n => n ++ txt "SUB"
  | LStr body suf => squote :: quote body ++ squote :: suf
  | LOp k => op_text k
  end.
Definition render_sep (i : sep_item) : text :=
  match i with
  | SBlank c => [c]
  | SComment b => txt "/*" ++ b ++ txt "*/"
  | SLineComment b => txt "//" ++ b ++ [newline]
  end.
Definition render_seps (is_ : list sep_item) : text := concat (map render_sep is_).

Definition digits_ok (s : text) : bool := negb (bool_decide (s = [])) && forallb is_digit s.
Definition one_of (s : text) (l : list text) : bool := existsb (text_eqb s) l.

(** No [*/] inside a comment. *)
Fixpoint no_close (b : text) : bool :=
  match b with
  | c :: b' => negb (ceqb c "*" && match b' with c2 :: _ => ceqb c2 "/" | [] => false end) && no_close b'
  | [] => true
  end.
Definition sep_ok (i : sep_item) : bool :=
  match i with
  | SBlank c => blank c
  | SComment b => no_close b && forallb (fun c => negb (ceqb c NUL)) b
  | SLineComment b => forallb (fun c => negb (ceqb c NUL) && negb (ceqb c newline)) b
  end.
Definition lexeme_ok (l : lexeme) : bool :=
  match l with
  | LWord w => match w with c :: _ => pliIsLetter c | [] => false end && forallb pliIsAlphameric w
  | LNum ip fp ex suf =>
      forallb is_digit ip && (negb (bool_decide (ip = [])) || negb (bool_decide (fp = None))) &&
      match fp with Some f => digits_ok f | None => true end &&
      match ex with Some (sg, e) => one_of sg [[]; txt "+"; txt "-"] && digits_ok e | None => true end &&
      one_of suf [[]; txt "B"; txt "b"; txt "I"; txt "i"]
  | LIsub n => digits_ok n
  | LStr body suf =>
      forallb (fun c => negb (ceqb c NUL) && negb (ceqb c newline)) body &&
      one_of suf [[]; txt "B"; txt "b"; txt "X"; txt "x"]
  | LOp k => is_op k
  end.

(** The token a lexeme denotes, without its location. *)
Definition token_of (l : lexeme) : Token.t :=
  let z := mkLoc 0 0 in
  match l with
  | LWord w => set_text (map to_upper w) (Token.at_loc Tok.Word z)
  | LNum ip fp ex suf =>
      Token.mk Tok.Number (ip ++ frac_text fp ++ exp_text ex) [] z
        (one_of suf [txt "B"; txt "b"]) (one_of suf [txt "I"; txt "i"]) false
        (negb (bool_decide (fp = None)) || negb (bool_decide (ex = None)))
        (negb (bool_decide (ex = None)))
  | LIsub n => set_text n (Token.at_loc Tok.Isub z)
  | LStr body suf =>
      set_sval body (Token.at_loc
        (if one_of suf [txt "B"; txt "b"] then Tok.BitLit
         else if one_of suf [txt "X"; txt "x"] then Tok.HexLit else Tok.CharLit) z)
  | LOp k => Token.at_loc k z
  end.
Definition set_loc (l : SourceLoc) (t : Token.t) : Token.t :=
  Token.mk (Token.kind t) (Token.text_ t) (Token.sval t) l (Token.binaryRadix t)
    (Token.imaginary t) (Token.sterling t) (Token.isFloat t) (Token.hasExp t).
Definition erase_loc (t : Token.t) : Token.t := set_loc (mkLoc 0 0) t.

Section Roundtrip.
Variable s : text.
Implicit Types st : lex.

Definition rest st : text := drop (p_ st) s.
(** [st'] has consumed up to [post] without a diagnostic. *)
Definition at_rest st post st' : Prop := rest st' = post /\ d_ st' = d_ st.

Lemma rest_cons st c r : rest st = c :: r ->
  cur s st = c /\ rest (bump s st) = r /\ d_ (bump s st) = d_ st.
Proof.
  unfold rest. intros E.
  assert (s !! p_ st = Some c) as Hc by by rewrite <- (Nat.add_0_r (p_ st)), <- lookup_drop, E.
  assert (p_ st < length s)%nat by (by eapply lookup_lt_Some).
  rewrite (drop_S _ _ _ Hc) in E. injection E as E.
  unfold bump. rewrite bool_decide_eq_true_2 by done.
  split; [unfold cur, at_; by rewrite Hc|]. destruct (ceqb _ newline); cbn [p_ d_]; by rewrite E.
Qed.
Lemma rest_nil st : rest st = [] -> cur s st = NUL.
Proof.
  unfold rest, cur, at_. intros E. rewrite lookup_ge_None_2; [done|].
  apply (f_equal length) in E. rewrite length_drop in E. cbn in E. lia.
Qed.
Lemma cur_rest st : cur s st = hd NUL (rest st).
Proof.
  destruct (rest st) as [|c r] eqn:E; [by apply rest_nil|]. by apply rest_cons in E as [-> _].
Qed.
Lemma peek_rest n st : peek s n st = nth n (rest st) NUL.
Proof.
  unfold peek, rest, at_. rewrite <- lookup_drop. generalize (drop (p_ st) s).
  induction n as [|n IH]; intros [|c l]; try done. apply IH.
Qed.
Lemma fuel_rest st : (length (rest st) < fuel_of s st)%nat.
Proof. unfold fuel_of, rest. rewrite length_drop. lia. Qed.

Lemma at_rest_refl st : at_rest st (rest st) st.
Proof. done. Qed.
Lemma at_rest_trans st p1 st1 p2 st2 : at_rest st p1 st1 -> at_rest st1 p2 st2 -> at_rest st p2 st2.
Proof. unfold at_rest. intros [_ E1] [? E2]. split; [done|]. congruence. Qed.
Lemma at_rest_bump st c r : rest st = c :: r -> at_rest st r (bump s st).
Proof. intros (_ & ? & ?)%rest_cons. done. Qed.

Lemma eat_while_rest f P g acc st w post :
  rest st = w ++ post -> forallb P w = true -> P (hd NUL post) = false -> (length w < f)%nat ->
  exists st', eat_while s f P g acc st = (acc ++ map g w, st') /\ at_rest st post st'.
Proof.
  revert acc st w. induction f as [|f IH]; intros acc st w E Hw Hp Hf; [lia|]. cbn [eat_while].
  destruct w as [|c w]; cbn in E, Hw.
  - rewrite cur_rest, E, Hp. exists st. rewrite app_nil_r. done.
  - apply andb_true_iff in Hw as [Hc Hw]. destruct (rest_cons _ _ _ E) as (-> & E1 & Ed).
    rewrite Hc. destruct (IH (acc ++ [g c]) (bump s st) w E1 Hw Hp) as (st' & -> & H); [cbn in Hf; lia|].
    exists st'. rewrite <- app_assoc. split; [done|]. eapply at_rest_trans; [|exact H].
    by eapply at_rest_bump.
Qed.
Lemma bump_while_rest f P st w post :
  rest st = w ++ post -> forallb P w = true -> P (hd NUL post) = false -> (length w < f)%nat ->
  at_rest st post (bump_while s f P st).
Proof.
  revert st w. induction f as [|f IH]; intros st w E Hw Hp Hf; [lia|]. cbn [bump_while].
  destruct w as [|c w]; cbn in E, Hw.
  - rewrite cur_rest, E, Hp. done.
  - apply andb_true_iff in Hw as [Hc Hw]. destruct (rest_cons _ _ _ E) as (-> & E1 & Ed).
    rewrite Hc. eapply at_rest_trans; [by eapply at_rest_bump|].
    eapply IH; try done. cbn in Hf; lia.
Qed.

Lemma at_rest_rest st post st' : at_rest st post st' -> rest st' = post.
Proof. by intros [? _]. Qed.

(** A lexeme is followed by a blank or by the end of the text. *)
Definition ends (post : text) : Prop := code (hd NUL post) <= 32.
Lemma ends_ceqb post x : ends post -> 32 < code x -> ceqb (hd NUL post) x = false.
Proof. unfold ends. rewrite ceqb_code. lia. Qed.
Lemma ends_digit post : ends post -> is_digit (hd NUL post) = false.
Proof. unfold ends, is_digit. lia. Qed.
Lemma ends_alphameric post : ends post -> pliIsAlphameric (hd NUL post) = false.
Proof.
  unfold ends, pliIsAlphameric, pliIsLetter. intros H. char_codes. lia.
Qed.

Lemma eat_digits_rest acc st w post :
  rest st = w ++ post -> forallb is_digit w = true -> is_digit (hd NUL post) = false ->
  exists st', eat_digits s acc st = (acc ++ w, st') /\ at_rest st post st'.
Proof.
  intros E Hw Hp. pose proof (fuel_rest st) as Hf. rewrite E, length_app in Hf.
  destruct (eat_while_rest (fuel_of s st) is_digit id acc st w post E Hw Hp) as (st' & H & ?); [lia|].
  rewrite map_id in H. by exists st'.
Qed.

Lemma lexWord_rest st w post : rest st = w ++ post -> forallb pliIsAlphameric w = true -> ends post ->
  exists st', lexWord s st = (set_text (map to_upper w) (Token.at_loc Tok.Word (here st)), st') /\
    at_rest st post st'.
Proof.
  intros E Hw Hp. pose proof (fuel_rest st) as Hf. rewrite E, length_app in Hf.
  destruct (eat_while_rest (fuel_of s st) pliIsAlphameric to_upper [] st w post E Hw) as (st' & H & ?);
    [by apply ends_alphameric|lia|].
  exists st'. unfold lexWord. rewrite H. done.
Qed.

Lemma string_body_rest f l v st b post :
  rest st = quote b ++ squote :: post -> ceqb (hd NUL post) squote = false ->
  forallb (fun c => negb (ceqb c NUL) && negb (ceqb c newline)) b = true -> (length (quote b) < f)%nat ->
  exists st', string_body s f l v st = (v ++ b, st') /\ at_rest st post st'.
Proof.
  revert v st b. induction f as [|f IH]; intros v st b E Hp Hb Hf; [lia|]. cbn [string_body].
  rewrite peek_rest, cur_rest, E. destruct b as [|c b]; cbn [quote app hd nth] in *.
  - change (ceqb squote NUL || ceqb squote newline) with false. change (ceqb squote squote) with true.
    cbn iota. destruct post as [|c post]; cbn [hd nth] in *; rewrite ?Hp;
    exists (bump s st); rewrite app_nil_r; (split; [done|]; by eapply at_rest_bump).
  - cbn [forallb] in Hb. apply andb_true_iff in Hb as [[H1%negb_true_iff H2%negb_true_iff]%andb_true_iff Hb].
    destruct (ceqb c squote) eqn:Ec; cbn [app hd nth] in *.
    + apply ceqb_true in Ec as ->. change (ceqb squote NUL || ceqb squote newline) with false.
      change (ceqb squote squote) with true. cbn iota.
      pose proof (at_rest_bump _ _ _ E) as R1. pose proof (at_rest_bump _ _ _ (at_rest_rest _ _ _ R1)) as R2.
      destruct (IH (v ++ [squote]) (bump s (bump s st)) b (at_rest_rest _ _ _ R2)) as (st' & -> & R3); [done..|cbn in Hf; lia|].
      exists st'. rewrite <- app_assoc. split; [done|].
      eapply at_rest_trans; [exact R1|]. eapply at_rest_trans; [exact R2|exact R3].
    + rewrite H1, H2. cbn [orb].
      pose proof (at_rest_bump _ _ _ E) as R1.
      rewrite ?Ec. destruct (IH (v ++ [c]) (bump s st) b (at_rest_rest _ _ _ R1)) as (st' & -> & R3); [done..|cbn in Hf; lia|].
      exists st'. rewrite <- app_assoc. split; [done|].
      eapply at_rest_trans; [exact R1|exact R3].
Qed.

(** What follows the digits of a numeric constant. *)
Definition num_suffixes : list text := [[]; txt "B"; txt "b"; txt "I"; txt "i"].
Lemma one_of_cons x y l : one_of x (y :: l) = text_eqb x y || one_of x l.
Proof. done. Qed.
Lemma one_of_elim x l : one_of x l = true -> In x l.
Proof.
  unfold one_of. rewrite existsb_exists. intros (y & ? & E).
  unfold text_eqb in E. apply bool_decide_eq_true in E as ->. done.
Qed.

Ltac suffix_cases H :=
  apply one_of_elim in H; cbn in H;
  repeat (destruct H as [<-|H]; [|]); [..|done].

Lemma num_suffix_hd suf post x : one_of suf num_suffixes = true -> ends post -> 32 < code x ->
  one_of [x] num_suffixes = false -> ceqb (hd NUL (suf ++ post)) x = false.
Proof.
  intros Hs Hp Hx Ho.
  suffix_cases Hs; [by apply ends_ceqb|..]; cbn [app hd txt String.list_ascii_of_string];
    apply ceqb_false; intros <-; vm_compute in Ho; done.
Qed.
Lemma num_suffix_digit suf post : one_of suf num_suffixes = true -> ends post ->
  is_digit (hd NUL (suf ++ post)) = false.
Proof. intros Hs Hp. suffix_cases Hs; [by apply ends_digit|done..]. Qed.

Lemma lexRadix_rest t st suf post :
  rest st = suf ++ post -> one_of suf num_suffixes = true -> ends post ->
  Token.binaryRadix t = false -> Token.imaginary t = false ->
  exists st', lexRadix s t st =
    (set_flags (one_of suf [txt "B"; txt "b"]) (one_of suf [txt "I"; txt "i"]) (Token.sterling t)
       (Token.isFloat t) (Token.hasExp t) t, st') /\ at_rest st post st'.
Proof.
  intros E Hs Hp Hb Hi. unfold lexRadix. rewrite cur_rest, E. destruct t. cbn in Hb, Hi. subst.
  suffix_cases Hs; cbn [app hd] in *.
  - rewrite !(ends_ceqb _ _ Hp) by reflexivity. exists st. done.
  - exists (bump s st). split; [done|exact (at_rest_bump _ _ _ E)].
  - exists (bump s st). split; [done|exact (at_rest_bump _ _ _ E)].
  - exists (bump s st). split; [done|exact (at_rest_bump _ _ _ E)].
  - exists (bump s st). split; [done|exact (at_rest_bump _ _ _ E)].
Qed.

Definition ex_ok (ex : option (text * text)) : bool :=
  match ex with Some (sg, e) => one_of sg [[]; txt "+"; txt "-"] && digits_ok e | None => true end.

Lemma digits_ok_cons e : digits_ok e = true -> exists c r, e = c :: r /\ is_digit c = true.
Proof. destruct e as [|c r]; [done|]. cbn. intros [? ?]%andb_true_iff. by exists c, r. Qed.
Lemma digits_ok_all e : digits_ok e = true -> forallb is_digit e = true.
Proof. unfold digits_ok. by intros [_ ?]%andb_true_iff. Qed.

Lemma digit_ceqb c x : is_digit c = true -> is_digit x = false -> ceqb c x = false.
Proof. intros H1 H2. apply ceqb_false. intros ->. congruence. Qed.

Lemma lexExponent_rest t st ex suf post :
  rest st = exp_text ex ++ suf ++ post -> ex_ok ex = true ->
  one_of suf num_suffixes = true -> ends post -> Token.hasExp t = false ->
  exists st', lexExponent s t st =
    (set_flags (Token.binaryRadix t) (Token.imaginary t) (Token.sterling t)
       (Token.isFloat t || negb (bool_decide (ex = None))) (negb (bool_decide (ex = None)))
       (set_text (Token.text_ t ++ exp_text ex) t), st') /\ at_rest st (suf ++ post) st'.
Proof.
  intros E He Hs Hp Hx. unfold lexExponent. rewrite (cur_rest st), E.
  destruct ex as [[sg e]|]; cbn [exp_text app] in *.
  2:{ rewrite !num_suffix_hd by (reflexivity || done). exists st. destruct t; cbn in *. subst.
      rewrite app_nil_r, orb_false_r. done. }
  cbn [hd]. change (ceqb "E" "E" || ceqb "E" "e") with true. cbn iota.
  unfold ex_ok in He. apply andb_true_iff in He as [Hsg He].
  pose proof (at_rest_bump _ _ _ E) as R1. set (st1 := bump s st) in *. clearbody st1.
  pose proof (at_rest_rest _ _ _ R1) as E1.
  assert (exists st2, (if ceqb (cur s st1) "+" || ceqb (cur s st1) "-"
     then (txt "E" ++ [cur s st1], bump s st1) else (txt "E", st1)) = ("E"%char :: sg, st2) /\
     at_rest st1 (e ++ suf ++ post) st2) as (st2 & -> & R2).
  { rewrite cur_rest, E1. destruct (digits_ok_cons _ He) as (c & r & -> & Hc).
    rewrite <- app_assoc in E1. suffix_cases Hsg; cbn [app hd] in *.
    - rewrite !(digit_ceqb c) by (reflexivity || done). exists st1. done.
    - exists (bump s st1). split; [done|exact (at_rest_bump _ _ _ E1)].
    - exists (bump s st1). split; [done|exact (at_rest_bump _ _ _ E1)]. }
  pose proof (at_rest_rest _ _ _ R2) as E2.
  assert (is_digit (cur s st2) = true) as ->.
  { rewrite cur_rest, E2. destruct (digits_ok_cons _ He) as (c & r & -> & Hc). done. }
  destruct (eat_digits_rest ("E"%char :: sg) st2 e (suf ++ post) E2) as (st3 & -> & R3);
    [by apply digits_ok_all|by apply num_suffix_digit|].
  exists st3. rewrite bool_decide_eq_false_2 by done. rewrite orb_true_r. cbn [app].
  split; [done|]. eapply at_rest_trans; [exact R1|]. by eapply at_rest_trans.
Qed.

(** A lexeme is read back as its token, when nothing can extend it. *)
Definition reads (l : lexeme) : Prop := forall st post,
  rest st = render l ++ post -> ends post ->
  exists t st', lexOne s st = (Some t, st') /\ erase_loc t = token_of l /\ at_rest st post st'.

Lemma letter_hd st c r : rest st = c :: r -> cur s st = c.
Proof. by intros (? & _)%rest_cons. Qed.

Lemma digit_not_letter c : is_digit c = true -> pliIsLetter c = false.
Proof. unfold pliIsLetter. intros H. char_codes. lia. Qed.

Lemma reads_word w : lexeme_ok (LWord w) = true -> reads (LWord w).
Proof.
  cbn [lexeme_ok]. intros [Hc Hw]%andb_true_iff st post E Hp. cbn [render] in E.
  destruct (lexWord_rest st w post E Hw Hp) as (st' & Ew & R).
  eexists _, st'. unfold lexOne. rewrite Ew. rewrite cur_rest, E.
  destruct w as [|c w]; [done|]. cbn [hd app]. by rewrite Hc.
Qed.

Lemma string_suffix st suf post : rest st = suf ++ post ->
  one_of suf [[]; txt "B"; txt "b"; txt "X"; txt "x"] = true -> ends post ->
  exists st', (if ceqb (cur s st) "B" || ceqb (cur s st) "b" then (Tok.BitLit, bump s st)
    else if ceqb (cur s st) "X" || ceqb (cur s st) "x" then (Tok.HexLit, bump s st)
    else (Tok.CharLit, st)) =
    (if one_of suf [txt "B"; txt "b"] then Tok.BitLit
     else if one_of suf [txt "X"; txt "x"] then Tok.HexLit else Tok.CharLit, st') /\ at_rest st post st'.
Proof.
  intros E Hs Hp. rewrite cur_rest, E. suffix_cases Hs; cbn [app hd] in *.
  - rewrite !(ends_ceqb _ _ Hp) by reflexivity. exists st. done.
  - exists (bump s st). split; [done|exact (at_rest_bump _ _ _ E)].
  - exists (bump s st). split; [done|exact (at_rest_bump _ _ _ E)].
  - exists (bump s st). split; [done|exact (at_rest_bump _ _ _ E)].
  - exists (bump s st). split; [done|exact (at_rest_bump _ _ _ E)].
Qed.

Lemma reads_str b suf : lexeme_ok (LStr b suf) = true -> reads (LStr b suf).
Proof.
  cbn [lexeme_ok]. intros [Hb Hs]%andb_true_iff st post E Hp. cbn [render] in E.
  rewrite <- app_comm_cons, <- app_assoc, <- app_comm_cons in E.
  pose proof (at_rest_bump _ _ _ E) as R1. set (st1 := bump s st) in *.
  assert (ceqb (hd NUL (suf ++ post)) squote = false) as Hq.
  { clear -Hs Hp. suffix_cases Hs; [by apply ends_ceqb|done..]. }
  pose proof (fuel_rest st1) as Hf. rewrite (at_rest_rest _ _ _ R1), length_app in Hf.
  destruct (string_body_rest (fuel_of s st1) (here st) [] st1 b (suf ++ post) (at_rest_rest _ _ _ R1) Hq Hb)
    as (st2 & Eb & R2); [lia|].
  destruct (string_suffix st2 suf post (at_rest_rest _ _ _ R2) Hs Hp) as (st3 & Es & R3).
  unfold lexOne, lexString. fold st1. rewrite Eb, Es, (letter_hd _ _ _ E).
  eexists _, st3. split; [reflexivity|]. split; [done|].
  eapply at_rest_trans; [exact R1|]. by eapply at_rest_trans.
Qed.

Lemma frac_hd_not_S fp ex suf post x : one_of suf num_suffixes = true -> ends post ->
  one_of [x] [txt "S"; txt "s"] = true -> ceqb (hd NUL (frac_text fp ++ exp_text ex ++ suf ++ post)) x = false.
Proof.
  intros Hs Hp Hx. destruct fp; [|destruct ex as [[]|]]; cbn [frac_text exp_text app hd].
  3: apply num_suffix_hd; [done..| |].
  all: apply one_of_elim in Hx as [[= <-]|[[= <-]|[]]]; done.
Qed.
Lemma exp_hd_digit ex suf post : one_of suf num_suffixes = true -> ends post ->
  is_digit (hd NUL (exp_text ex ++ suf ++ post)) = false.
Proof. intros. destruct ex as [[]|]; cbn [exp_text app hd]; [done|]. by apply num_suffix_digit. Qed.
Lemma exp_hd_dot ex suf post : one_of suf num_suffixes = true -> ends post ->
  ceqb (hd NUL (exp_text ex ++ suf ++ post)) "." = false.
Proof. intros. destruct ex as [[]|]; cbn [exp_text app hd]; [done|]. apply num_suffix_hd; done || reflexivity. Qed.

(** The exponent and the radix letter, after the digits. *)
Lemma exp_radix_rest t st ex suf post :
  rest st = exp_text ex ++ suf ++ post -> ex_ok ex = true ->
  one_of suf num_suffixes = true -> ends post ->
  Token.hasExp t = false -> Token.binaryRadix t = false -> Token.imaginary t = false ->
  exists st', (let '(t, st) := lexExponent s t st in lexRadix s t st) =
    (set_flags (one_of suf [txt "B"; txt "b"]) (one_of suf [txt "I"; txt "i"]) (Token.sterling t)
       (Token.isFloat t || negb (bool_decide (ex = None))) (negb (bool_decide (ex = None)))
       (set_text (Token.text_ t ++ exp_text ex) t), st') /\ at_rest st post st'.
Proof.
  intros E He Hs Hp Hx Hb Hi.
  destruct (lexExponent_rest t st ex suf post E He Hs Hp Hx) as (st1 & -> & R1).
  match goal with |- context [lexRadix s ?t st1] => set (t1 := t) end.
  destruct (lexRadix_rest t1 st1 suf post (at_rest_rest _ _ _ R1) Hs Hp) as (st2 & -> & R2); [done..|].
  exists st2. split; [|by eapply at_rest_trans]. by destruct t.
Qed.

Lemma reads_num ip fp ex suf : lexeme_ok (LNum ip fp ex suf) = true -> reads (LNum ip fp ex suf).
Proof.
  cbn [lexeme_ok]. intros [[[[Hip Hne]%andb_true_iff Hfp]%andb_true_iff Hex]%andb_true_iff Hs]%andb_true_iff st post E Hp.
  change (ex_ok ex = true) in Hex. cbn [render] in E. rewrite <- !app_assoc in E.
  assert (is_digit (hd NUL (frac_text fp ++ exp_text ex ++ suf ++ post)) = false) as Hd1.
  { destruct fp; [done|]. by apply exp_hd_digit. }
  destruct (eat_digits_rest [] st ip _ E Hip Hd1) as (st1 & E1 & R1).
  pose proof (at_rest_rest _ _ _ R1) as Er1.
  assert (at_fraction s st1 = match fp with Some _ => true | None => false end) as Hf.
  { unfold at_fraction. rewrite cur_rest, peek_rest, Er1. destruct fp as [f|]; cbn [frac_text app].
    - destruct (digits_ok_cons _ Hfp) as (c & r & -> & Hc). cbn. by rewrite Hc.
    - by rewrite exp_hd_dot. }
  assert (exists t st', lexNumber s st = (t, st') /\
    erase_loc t = token_of (LNum ip fp ex suf) /\ at_rest st post st') as (t & st' & En & Ht & R).
  { unfold lexNumber. rewrite E1. rewrite (cur_rest st1), Er1, !frac_hd_not_S by done. cbn [orb andb].
    rewrite Hf. destruct fp as [f|]; cbn [frac_text app] in *.
    - pose proof (at_rest_bump _ _ _ Er1) as R2. pose proof (at_rest_rest _ _ _ R2) as Er2.
      match goal with |- context [eat_digits s ?a (bump s st1)] =>
        destruct (eat_digits_rest a (bump s st1) f _ Er2) as (st2 & -> & R3);
          [by apply digits_ok_all|by apply exp_hd_digit|] end.
      assert (at_fraction s st2 = false) as ->.
      { unfold at_fraction. rewrite cur_rest, (at_rest_rest _ _ _ R3), exp_hd_dot by done. done. }
      match goal with |- context [lexExponent s ?t st2] => set (t2 := t) end.
      destruct (exp_radix_rest t2 st2 ex suf post (at_rest_rest _ _ _ R3) Hex Hs Hp) as (st3 & -> & R4); [done..|].
      eexists _, st3. split; [reflexivity|]. split.
      + unfold t2. cbn [token_of frac_text]. rewrite (bool_decide_eq_false_2 (Some f = None)) by done. cbn. by rewrite <- !app_assoc.
      + eapply at_rest_trans; [exact R1|]. eapply at_rest_trans; [exact R2|]. by eapply at_rest_trans.
    - match goal with |- context [lexExponent s ?t st1] => set (t2 := t) end.
      destruct (exp_radix_rest t2 st1 ex suf post Er1 Hex Hs Hp) as (st3 & -> & R4); [done..|].
      eexists _, st3. split; [reflexivity|]. split; [done|]. by eapply at_rest_trans. }
  eexists _, st'. unfold lexOne. rewrite En. split; [|done]. rewrite (cur_rest st), peek_rest, E.
  destruct ip as [|c ip]; cbn [app hd nth].
  - destruct fp as [f|]; [|done]. destruct (digits_ok_cons _ Hfp) as (c & r & -> & Hc). cbn. by rewrite Hc.
  - cbn in Hip. apply andb_true_iff in Hip as [Hc _]. by rewrite digit_not_letter, Hc by done.
Qed.

Lemma reads_isub n : lexeme_ok (LIsub n) = true -> reads (LIsub n).
Proof.
  cbn [lexeme_ok]. intros Hn st post E Hp. cbn [render] in E. rewrite <- app_assoc in E.
  destruct (eat_digits_rest [] st n _ E (digits_ok_all _ Hn)) as (st1 & E1 & R1); [done|].
  pose proof (at_rest_rest _ _ _ R1) as Er1.
  pose proof (at_rest_bump _ _ _ Er1) as R2. pose proof (at_rest_bump _ _ _ (at_rest_rest _ _ _ R2)) as R3.
  pose proof (at_rest_bump _ _ _ (at_rest_rest _ _ _ R3)) as R4.
  eexists _, (bump s (bump s (bump s st1))). unfold lexOne, lexNumber.
  rewrite E1, (cur_rest st1), !peek_rest, Er1, cur_rest, E.
  destruct (digits_ok_cons _ Hn) as (c & r & -> & Hc). cbn [app hd nth].
  rewrite digit_not_letter, Hc by done. split; [reflexivity|]. split; [done|].
  eapply at_rest_trans; [exact R1|]. eapply at_rest_trans; [exact R2|].
  eapply at_rest_trans; [exact R3|done].
Qed.

(** Evaluate the tests of a character against a literal, and read the next
    characters off the remaining text. *)
Ltac lx_tests Hp :=
  repeat match goal with
  | |- context [ceqb (Ascii ?a ?b ?c ?d ?e ?f ?g ?h) ?y] =>
      let t := constr:(ceqb (Ascii a b c d e f g h) y) in
      let v := eval vm_compute in t in
      match v with true => change t with true | false => change t with false end
  | |- context [ceqb (hd NUL _) ?y] => rewrite (ends_ceqb _ y Hp) by reflexivity
  end; cbn [andb orb negb]; cbn iota.

Lemma nth_0_hd (l : text) : nth 0 l NUL = hd NUL l.
Proof. by destruct l. Qed.

Lemma reads_op k : lexeme_ok (LOp k) = true -> reads (LOp k).
Proof.
  intros Hk st post E Hp. destruct k; try discriminate Hk; cbn [render op_text] in E.
  all: let e := fresh in
    match type of E with rest _ = ?l ++ _ => let l' := eval vm_compute in l in change l with l' in E end;
    cbn [app] in E;
    pose proof (at_rest_bump _ _ _ E) as R1; pose proof (at_rest_rest _ _ _ R1) as E1;
    try (pose proof (at_rest_bump _ _ _ E1) as R2; pose proof (at_rest_rest _ _ _ R2) as E2);
    try (pose proof (at_rest_bump _ _ _ E2) as R3; pose proof (at_rest_rest _ _ _ R3) as E3);
    unfold lexOne, lexOp, two, lexNotOrInvalid, eatNot;
    rewrite ?peek_rest, ?(cur_rest st), ?(cur_rest (bump s st)), ?(cur_rest (bump s (bump s st))), ?E, ?E1;
    try rewrite E2; cbn [hd nth].
  all: repeat match goal with
    | |- context [pliIsLetter ?c] => change (pliIsLetter c) with false
    | |- context [is_digit (Ascii ?a ?b ?c ?d ?e ?f ?g ?h)] => change (is_digit (Ascii a b c d e f g h)) with false
    end; rewrite ?nth_0_hd; rewrite ?(ends_digit post Hp);
    cbn [andb orb negb]; lx_tests Hp.
  all: rewrite ?(cur_rest (bump s st)), ?(cur_rest (bump s (bump s st))), ?E1; try rewrite E2; cbn [hd]; lx_tests Hp.
  all: eexists _, _; (split; [reflexivity|split; [reflexivity|]]);
    first [exact R1 | eapply at_rest_trans; [exact R1|]; first [exact R2 | eapply at_rest_trans; [exact R2|exact R3]]].
Qed.

Lemma lexemes_read l : lexeme_ok l = true -> reads l.
Proof.
  destruct l; [apply reads_word|apply reads_num|apply reads_isub|apply reads_str|apply reads_op].
Qed.

(** *** Separators *)
Lemma skip_comment_rest f l st b post :
  rest st = b ++ txt "*/" ++ post -> no_close b = true ->
  forallb (fun c => negb (ceqb c NUL)) b = true -> (length b < f)%nat ->
  exists st', skip_comment s f l st = (true, st') /\ at_rest st post st'.
Proof.
  revert st b. induction f as [|f IH]; intros st b E Hb Hz Hf; [lia|]. cbn [skip_comment].
  rewrite peek_rest, cur_rest, E. destruct b as [|c b].
  - pose proof (at_rest_bump _ _ _ E) as R1. pose proof (at_rest_bump _ _ _ (at_rest_rest _ _ _ R1)) as R2.
    exists (bump s (bump s st)). split; [done|]. by eapply at_rest_trans.
  - cbn [forallb no_close] in *. apply andb_true_iff in Hz as [Hc%negb_true_iff Hz].
    apply andb_true_iff in Hb as [Hcl%negb_true_iff Hb]. cbn [app hd nth] in *. rewrite Hc.
    assert (ceqb c "*" && ceqb (nth 0 (b ++ txt "*/" ++ post) NUL) "/" = false) as ->.
    { destruct b as [|c2 b]; [apply andb_false_r|done]. }
    pose proof (at_rest_bump _ _ _ E) as R1.
    destruct (IH (bump s st) b (at_rest_rest _ _ _ R1) Hb Hz) as (st' & -> & R2); [cbn in Hf; lia|].
    exists st'. split; [done|]. by eapply at_rest_trans.
Qed.

Definition is_blank_sep (i : sep_item) : bool := match i with SBlank _ => true | _ => false end.

(** Separators are blanks, then either nothing or a comment first. *)
Lemma blanks_first seps : forallb sep_ok seps = true ->
  exists bl more, render_seps seps = bl ++ render_seps more /\ forallb blank bl = true /\
    forallb sep_ok more = true /\ match more with i :: _ => is_blank_sep i = false | [] => True end.
Proof.
  induction seps as [|i seps IH]; [by exists [], []|]. cbn [forallb]. intros [Hi Hs]%andb_true_iff.
  destruct (IH Hs) as (bl & more & E & Hb & Hm & Hh).
  destruct i as [c|b|b].
  - exists (c :: bl), more. cbn in Hi. unfold render_seps in *. cbn. rewrite E, Hi, Hb. done.
  - exists [], (SComment b :: seps). cbn [forallb]. by rewrite Hi, Hs.
  - exists [], (SLineComment b :: seps). cbn [forallb]. by rewrite Hi, Hs.
Qed.

(** A lexeme does not start like a separator. *)
Definition no_sep (post : text) : Prop :=
  blank (hd NUL post) = false /\
  (ceqb (hd NUL post) "/" = true -> ceqb (nth 1 post NUL) "*" = false /\ ceqb (nth 1 post NUL) "/" = false).

Lemma skip_rest f st seps post :
  rest st = render_seps seps ++ post -> forallb sep_ok seps = true -> no_sep post ->
  (length (render_seps seps) < f)%nat -> at_rest st post (skipSpaceAndComments s f st).
Proof.
  revert st seps. induction f as [|f IH]; intros st seps E Hs Hn Hf; [lia|].
  destruct (blanks_first seps Hs) as (bl & more & Eb & Hbl & Hm & Hh).
  rewrite Eb, <- app_assoc in E. rewrite Eb, length_app in Hf. clear Hs Eb seps. cbn [skipSpaceAndComments].
  assert (blank (hd NUL (render_seps more ++ post)) = false) as Hnb.
  { destruct more as [|[]]; [apply Hn|done..]. }
  pose proof (fuel_rest st) as Hfu. rewrite E, length_app in Hfu.
  pose proof (bump_while_rest (fuel_of s st) blank st bl _ E Hbl Hnb ltac:(lia)) as R1.
  set (st1 := bump_while s (fuel_of s st) blank st) in *. clearbody st1.
  pose proof (at_rest_rest _ _ _ R1) as E1. rewrite !(cur_rest st1), !peek_rest, E1.
  destruct more as [|[c|b|b] more]; cbn [is_blank_sep] in Hh; try done.
  - change (render_seps [] ++ post) with post in *. destruct Hn as [_ Hn].
    destruct (ceqb (hd NUL post) "/"); [|done]. destruct (Hn eq_refl) as [-> ->]. done.
  - cbn [forallb sep_ok] in Hm. apply andb_true_iff in Hm as [[Hcl Hz]%andb_true_iff Hm].
    assert (render_seps (SComment b :: more) = "/"%char :: "*"%char :: b ++ txt "*/" ++ render_seps more) as Er.
    { unfold render_seps. cbn. by rewrite <- ?app_assoc. }
    rewrite Er in *. clear Er. cbn [app] in E1.
    cbn [app hd nth]. change (ceqb "/" "/" && ceqb "*" "*") with true. cbn iota.
    pose proof (at_rest_bump _ _ _ E1) as R2. pose proof (at_rest_bump _ _ _ (at_rest_rest _ _ _ R2)) as R3.
    pose proof (at_rest_rest _ _ _ R3) as E3. rewrite <- app_assoc in E3.
    destruct (skip_comment_rest (fuel_of s st1) (here st1) (bump s (bump s st1)) b (render_seps more ++ post) E3 Hcl Hz)
      as (st4 & -> & R4).
    { pose proof (fuel_rest st1) as Hf1. rewrite E1 in Hf1. cbn in Hf1. rewrite !length_app in Hf1. lia. }
    cbn iota. eapply at_rest_trans; [exact R1|]. eapply at_rest_trans; [exact R2|].
    eapply at_rest_trans; [exact R3|]. eapply at_rest_trans; [exact R4|].
    apply (IH st4 more); [by eapply at_rest_rest|done..|]. cbn in Hf. rewrite !length_app in Hf. lia.
  - cbn [forallb sep_ok] in Hm. apply andb_true_iff in Hm as [Hb Hm].
    assert (render_seps (SLineComment b :: more) = "/"%char :: "/"%char :: b ++ newline :: render_seps more) as Er.
    { unfold render_seps. cbn. by rewrite <- ?app_assoc. }
    rewrite Er in *. clear Er. cbn [app] in E1.
    cbn [app hd nth]. change (ceqb "/" "/" && ceqb "/" "*") with false. change (ceqb "/" "/" && ceqb "/" "/") with true. cbn iota.
    eapply at_rest_trans; [exact R1|].
    assert (rest st1 = ("/"%char :: "/"%char :: b) ++ newline :: render_seps more ++ post) as E2.
    { rewrite E1. cbn. by rewrite <- app_assoc. }
    assert (forall P, P = (fun c => negb (ceqb c NUL) && negb (ceqb c newline)) ->
      at_rest st1 (newline :: render_seps more ++ post) (bump_while s (fuel_of s st1) P st1)) as R2.
    { intros P ->. eapply bump_while_rest; [exact E2|done|done|].
      pose proof (fuel_rest st1) as Hf1. rewrite E2, length_app in Hf1. lia. }
    eapply at_rest_trans; [exact (R2 _ eq_refl)|]. apply (IH _ (SBlank newline :: more)).
    + rewrite (at_rest_rest _ _ _ (R2 _ eq_refl)). done.
    + done.
    + done.
    + cbn in Hf. rewrite length_app in Hf. unfold render_seps in *. cbn in *. lia.
Qed.

Lemma render_no_sep l post : lexeme_ok l = true -> ends post ->
  no_sep (render l ++ post) /\ ceqb (hd NUL (render l ++ post)) NUL = false.
Proof.
  intros Hl Hp. unfold no_sep.
  assert (forall c r, 32 < code c -> ceqb c "/" = false ->
    (blank (hd NUL (c :: r)) = false /\ (ceqb (hd NUL (c :: r)) "/" = true ->
      ceqb (nth 1 (c :: r) NUL) "*" = false /\ ceqb (nth 1 (c :: r) NUL) "/" = false)) /\
    ceqb (hd NUL (c :: r)) NUL = false) as plain.
  { intros c r H1 H2. cbn [hd nth]. rewrite H2. unfold blank. repeat split; try done.
    - char_codes. lia.
    - char_codes. lia. }
  assert (forall c, is_digit c = true -> 32 < code c /\ ceqb c "/" = false) as dig.
  { intros c H. char_codes. lia. }
  destruct l as [w|ip fp ex suf|n|b suf|k]; cbn [lexeme_ok render] in *.
  - destruct w as [|c w]; [done|]. apply andb_true_iff in Hl as [Hc _].
    apply plain; unfold pliIsLetter in Hc; char_codes; lia.
  - destruct ip as [|c ip].
    + destruct fp as [f|]; [|by rewrite !andb_false_r in Hl]. apply plain; done || reflexivity.
    + assert (is_digit c = true) as [? ?]%dig by (cbn in Hl; by destruct (is_digit c)). by apply plain.
  - destruct (digits_ok_cons _ Hl) as (c & r & -> & [? ?]%dig). by apply plain.
  - apply plain; done || reflexivity.
  - destruct k; try discriminate Hl; try (apply plain; done || reflexivity).
    split; [split; [done|]|done]. intros _. change (nth 1 (op_text Tok.Slash ++ post) NUL) with (nth 0 post NUL).
    rewrite nth_0_hd. split; apply ends_ceqb; done || reflexivity.
Qed.
End Roundtrip.

(** A lexeme with the separators after it. *)
Abbreviation piece := (lexeme * list sep_item)%type (only parsing).
Definition render_piece (p : piece) : text := render p.1 ++ render_seps p.2.
(** Two lexemes are separated: the separators after each start with a blank
    (those after the last may be missing). *)
Definition piece_ok (p : piece) : bool :=
  lexeme_ok p.1 && forallb sep_ok p.2 &&
  match p.2 with i :: _ => is_blank_sep i | [] => false end.

Section Loop.
Variable s : text.

Lemma piece_ends p post : piece_ok p = true -> ends (render_seps p.2 ++ post).
Proof.
  intros [[_ H]%andb_true_iff Hb]%andb_true_iff. destruct p as [l [|[c| |] seps]]; try done.
  cbn in H. apply andb_true_iff in H as [H _]. unfold ends, blank in *. cbn.
  apply andb_true_iff in H as [_ H]. lia.
Qed.

Lemma lexLoop_rest fuel out st seps ps :
  rest s st = render_seps seps ++ concat (map render_piece ps) ->
  forallb sep_ok seps = true -> forallb piece_ok ps = true -> (length ps < fuel)%nat ->
  exists ts st', lexLoop s fuel out st = Some (out ++ ts, st') /\ d_ st' = d_ st /\
    map erase_loc ts = map token_of (map fst ps) ++ [Token.at_loc Tok.Eof (mkLoc 0 0)].
Proof.
  revert out st seps ps. induction fuel as [|f IH]; intros out st seps ps E Hs Hps Hf; [lia|].
  cbn [lexLoop].
  assert (no_sep (concat (map render_piece ps)) /\
    ceqb (hd NUL (concat (map render_piece ps))) NUL = bool_decide (ps = [])) as [Hn Hz].
  { destruct ps as [|[l sp] ps]; [done|]. cbn [map concat]. unfold render_piece at 1 3. cbn [fst snd].
    cbn [forallb] in Hps. apply andb_true_iff in Hps as [Hp _]. rewrite <- !app_assoc.
    pose proof (piece_ends _ (concat (map render_piece ps)) Hp) as He. cbn [snd] in He.
    unfold piece_ok in Hp. cbn [fst snd] in Hp.
    apply render_no_sep; [by destruct (lexeme_ok l)|exact He]. }
  pose proof (fuel_rest s st) as Hfu. rewrite E, length_app in Hfu.
  pose proof (skip_rest s (fuel_of s st) st seps _ E Hs Hn ltac:(lia)) as R1.
  set (st1 := skipSpaceAndComments s (fuel_of s st) st) in *. clearbody st1.
  pose proof (at_rest_rest _ _ _ _ R1) as E1. rewrite cur_rest, E1, Hz.
  destruct ps as [|[l sp] ps].
  - rewrite bool_decide_eq_true_2 by done. exists [Token.at_loc Tok.Eof (here st1)], st1.
    split; [done|]. split; [apply R1|done].
  - rewrite bool_decide_eq_false_2 by done. cbn [map concat] in E1. unfold render_piece at 1 in E1.
    cbn [fst snd] in E1. rewrite <- app_assoc in E1. cbn [forallb] in Hps.
    apply andb_true_iff in Hps as [Hp Hps].
    pose proof (piece_ends _ (concat (map render_piece ps)) Hp) as He. cbn [snd] in He.
    assert (lexeme_ok l = true /\ forallb sep_ok sp = true) as [Hl Hsp].
    { unfold piece_ok in Hp. cbn [fst snd] in Hp. by destruct (lexeme_ok l), (forallb sep_ok sp). }
    destruct (lexemes_read s l Hl st1 _ E1 He) as (t & st2 & -> & Ht & R2).
    destruct (IH (out ++ [t]) st2 sp ps (at_rest_rest _ _ _ _ R2) Hsp Hps) as (ts & st3 & -> & Hd & Hts);
      [cbn in Hf; lia|].
    exists (t :: ts), st3. rewrite <- app_assoc. split; [done|]. split.
    + rewrite Hd. destruct R2 as [_ ->]. apply R1.
    + cbn [map fst]. by rewrite Ht, Hts.
Qed.
End Loop.

(** Each lexeme takes at least one byte, so the fuel covers the pieces. *)
Lemma pieces_fuel seps0 ps d : forallb piece_ok ps = true ->
  (length ps < fuel_of (render_seps seps0 ++ concat (map render_piece ps)) (mkLex 0 1 1 d))%nat.
Proof.
  intros Hps. unfold fuel_of. cbn [p_]. rewrite length_app, Nat.sub_0_r.
  enough (length ps <= length (concat (map render_piece ps)))%nat by lia.
  clear -Hps. induction ps as [|[l sp] ps IH]; [done|]. cbn [forallb] in Hps.
  apply andb_true_iff in Hps as [Hp Hps]. cbn [map concat length]. rewrite length_app.
  specialize (IH Hps). enough (1 <= length (render_piece (l, sp)))%nat by lia.
  unfold render_piece. cbn [fst snd]. rewrite length_app. unfold piece_ok in Hp. cbn [fst snd] in Hp.
  destruct sp as [|[c|b|b] sp]; cbn in Hp |- *; rewrite ?andb_false_r in Hp; try done; lia.
Qed.

(** C3: lexing is the inverse of printing.  A list of lexemes (words, numbers with
    fraction, exponent and radix letters, iSUBs, character/bit/hex strings with
    quotes doubled, every operator) printed with any blanks, [/* */] and [//]
    comments between them is read back as exactly their tokens, words upper-cased
    and quotes undoubled, followed by end-of-file, and no diagnostic is issued. *)
Theorem lex_roundtrip d seps0 ps :
  forallb sep_ok seps0 = true -> forallb piece_ok ps = true ->
  exists ts st, run (render_seps seps0 ++ concat (map render_piece ps)) d = Some (ts, st) /\
    d_ st = d /\
    map erase_loc ts = map token_of (map fst ps) ++ [Token.at_loc Tok.Eof (mkLoc 0 0)].
Proof.
  intros Hs Hps. unfold run, lexAll.
  destruct (lexLoop_rest (render_seps seps0 ++ concat (map render_piece ps))
    (fuel_of (render_seps seps0 ++ concat (map render_piece ps)) (mkLex 0 1 1 d)) [] (mkLex 0 1 1 d) seps0 ps)
    as (ts & st & E & Hd & Hts); [done..|by apply pieces_fuel|].
  exists ts, st. split; [exact E|]. done.
Qed.

(** [ DO I=1.5E+3B; ] with a comment, a string and a not sign. *)
Lemma lex_roundtrip_witness :
  let ps := [(LWord (txt "do"), [SBlank newline; SComment (txt "x*'")]);
             (LNum (txt "1") (Some (txt "5")) (Some (txt "+", txt "3")) (txt "B"), [SBlank " "%char]);
             (LStr (txt "it's") (txt "x"), [SBlank " "%char; SLineComment (txt " /*")]);
             (LOp Tok.Ngt, [SBlank " "%char]); (LIsub (txt "2"), [SBlank " "%char])] in
  exists ts st, run (render_seps [] ++ concat (map render_piece ps)) (Diags_new []) = Some (ts, st) /\
    d_ st = Diags_new [] /\
    map erase_loc ts = map token_of (map fst ps) ++ [Token.at_loc Tok.Eof (mkLoc 0 0)].
Proof. apply lex_roundtrip; vm_compute; reflexivity. Defined.
