(* ===== verification/PPCond.v ===== *)
(** * Preprocessor expressions ([src/preprocessor.cpp])

    [PPCondParser]: the integer expressions of [%IF], [%DO], [%RETURN], macro
    arguments and assignments, evaluated while they are parsed.  The position
    is the text that is left; [error] is empty while there is none, and a later
    error replaces an earlier one.  A [long long] wraps (overflow is undefined
    in C++).  The recursion carries fuel, which [PPCondThms] shows is enough. *)
From S2P Require Import Prelude Monad Lexer.

(** ** Text helpers (an anonymous namespace of the file) *)
Definition upper (s : text) : text := to_upper <$> s.

Definition is_blank (c : char) : bool :=
  ceqb c " " || ceqb c "009" || ceqb c "013" || ceqb c "010" || ceqb c "012".
Definition drop_while (P : char -> bool) (s : text) : text := drop (prefix_len P s) s.
Definition trim (s : text) : text := rev (drop_while is_blank (rev (drop_while is_blank s))).

Definition isWordChar (c : char) : bool :=
  is_alnum c || ceqb c "_" || ceqb c "$" || ceqb c "#" || ceqb c "@".
Definition isWordStart (c : char) : bool := is_alpha c || ceqb c "$" || ceqb c "#" || ceqb c "@".

(** ** The parser *)
Record cst := mkC { rest : text; error_ : text; depth : Z }.
Definition kMaxDepth : Z := 128.

Definition to (r : text) (st : cst) : cst := mkC r (error_ st) (depth st).
Definition fail_with (msg : text) : ST cst Z := fun st => Some (0, mkC (rest st) msg (depth st)).

Definition skipWs (st : cst) : cst := to (drop_while is_blank (rest st)) st.
Definition atEnd (st : cst) : bool := match rest (skipWs st) with [] => true | _ => false end.

(** The text after a not sign, [None] when there is none. *)
Definition matchNot (s : text) : option text :=
  match s with
  | c :: s' =>
      if ceqb c "^" || ceqb c "~" then Some s'
      else match s' with
           | d :: s'' => if ceqb c b_C2 && ceqb d b_AC then Some s'' else if ceqb c b_AC then Some s' else None
           | [] => if ceqb c b_AC then Some s' else None
           end
  | [] => None
  end.

(** The text after the character [d], white space before it skipped. *)
Definition at_char (d : char) (s : text) : option text :=
  match s with c :: s' => if ceqb c d then Some s' else None | [] => None end.

(** [<], [<=], [>] or [>=] at the head of the text. *)
Definition relation (s : text) : option ((Z -> Z -> bool) * text) :=
  match s with
  | c :: s' =>
      if ceqb c "<" || ceqb c ">" then
        let less := ceqb c "<" in
        match at_char "=" s' with
        | Some s'' => Some (if less then Z.leb else Z.geb, s'')
        | None => Some (if less then Z.ltb else Z.gtb, s')
        end
      else None
  | [] => None
  end.

Definition is_num_start (s : text) : bool := match s with c :: _ => is_digit c | [] => false end.
(** A word of the parser may also start with an underscore. *)
Definition is_var_start (s : text) : bool :=
  match s with c :: _ => isWordStart c || ceqb c "_" | [] => false end.
Definition number_value (digits : text) : Z :=
  fold_left (fun v c => i64 (i64 (v * 10) + (code c - 48))) digits 0.

Section Cond.
Context (vars : gmap text Z).

Definition variable (name : text) : ST cst Z :=
  match vars !! name with
  | Some v => ret v
  | None => fail_with (txt "unknown preprocessor variable '%" ++ name ++ txt "'")
  end.

Fixpoint parseOr (n : nat) : ST cst Z :=
  match n with O => out_of_fuel | S n => let* v := parseAnd n in orLoop n v end
with orLoop (n : nat) (v : Z) : ST cst Z :=
  match n with
  | O => out_of_fuel
  | S n =>
      modify skipWs;;
      let* s := get rest in
      match at_char "|" s with
      | Some s' => modify (to s');; let* rhs := parseAnd n in orLoop n (b2z (negb (v =? 0) || negb (rhs =? 0)))
      | None => ret v
      end
  end
with parseAnd (n : nat) : ST cst Z :=
  match n with O => out_of_fuel | S n => let* v := parseNot n in andLoop n v end
with andLoop (n : nat) (v : Z) : ST cst Z :=
  match n with
  | O => out_of_fuel
  | S n =>
      modify skipWs;;
      let* s := get rest in
      match at_char "&" s with
      | Some s' => modify (to s');; let* rhs := parseNot n in andLoop n (b2z (negb (v =? 0) && negb (rhs =? 0)))
      | None => ret v
      end
  end
with parseNot (n : nat) : ST cst Z :=
  match n with
  | O => out_of_fuel
  | S n =>
      modify skipWs;;
      let* s := get rest in
      match matchNot s with
      | Some s' =>
          match at_char "=" (drop_while is_blank s') with
          | Some _ => parseCmp n
          | None => modify (fun st => skipWs (to s' st));; let* v := parseNot n in ret (b2z (v =? 0))
          end
      | None => parseCmp n
      end
  end
with parseCmp (n : nat) : ST cst Z :=
  match n with O => out_of_fuel | S n => let* v := parseAdd n in cmpLoop n v end
with cmpLoop (n : nat) (v : Z) : ST cst Z :=
  match n with
  | O => out_of_fuel
  | S n =>
      modify skipWs;;
      let* s := get rest in
      match at_char "=" s with
      | Some s' => modify (to s');; let* rhs := parseAdd n in cmpLoop n (b2z (v =? rhs))
      | None =>
          match relation s with
          | Some (op, s') => modify (to s');; let* rhs := parseAdd n in cmpLoop n (b2z (op v rhs))
          | None =>
              match matchNot s ≫= (fun s' => at_char "=" (drop_while is_blank s')) with
              | Some s' => modify (to s');; let* rhs := parseAdd n in cmpLoop n (b2z (negb (v =? rhs)))
              | None => ret v
              end
          end
      end
  end
with parseAdd (n : nat) : ST cst Z :=
  match n with O => out_of_fuel | S n => let* v := parseMul n in addLoop n v end
with addLoop (n : nat) (v : Z) : ST cst Z :=
  match n with
  | O => out_of_fuel
  | S n =>
      modify skipWs;;
      let* s := get rest in
      match at_char "+" s with
      | Some s' => modify (to s');; let* rhs := parseMul n in addLoop n (i64 (v + rhs))
      | None =>
          match at_char "-" s with
          | Some s' => modify (to s');; let* rhs := parseMul n in addLoop n (i64 (v - rhs))
          | None => ret v
          end
      end
  end
with parseMul (n : nat) : ST cst Z :=
  match n with O => out_of_fuel | S n => let* v := parseUnary n in mulLoop n v end
with mulLoop (n : nat) (v : Z) : ST cst Z :=
  match n with
  | O => out_of_fuel
  | S n =>
      modify skipWs;;
      let* s := get rest in
      match at_char "*" s with
      | Some s' => modify (to s');; let* rhs := parseUnary n in mulLoop n (i64 (v * rhs))
      | None =>
          match at_char "/" s with
          | Some s' =>
              modify (to s');;
              let* rhs := parseUnary n in
              if rhs =? 0 then fail_with (txt "division by zero in preprocessor expression")
              else mulLoop n (i64 (Z.quot v rhs))
          | None => ret v
          end
      end
  end
with parseUnary (n : nat) : ST cst Z :=
  match n with
  | O => out_of_fuel
  | S n =>
      modify skipWs;;
      let* s := get rest in
      match at_char "-" s with
      | Some s' => modify (to s');; let* v := parseUnary n in ret (i64 (- v))
      | None => parsePrimary n
      end
  end
with parsePrimary (n : nat) : ST cst Z :=
  match n with
  | O => out_of_fuel
  | S n =>
      modify skipWs;;
      let* s := get rest in
      let* d := get depth in
      match at_char "(" s with
      | Some s' =>
          if kMaxDepth <=? d then fail_with (txt "preprocessor expression nesting is too deep")
          else
            modify (fun st => mkC s' (error_ st) (depth st + 1));;
            let* v := parseOr n in
            modify skipWs;;
            let* s := get rest in
            match at_char ")" s with
            | Some s' => modify (fun st => mkC s' (error_ st) (depth st - 1));; ret v
            | None =>
                modify (fun st => mkC (rest st) (error_ st) (depth st - 1));;
                fail_with (txt "expected ')' in preprocessor expression")
            end
      | None =>
          if is_num_start s then
            modify (to (drop_while is_digit s));;
            ret (number_value (take (prefix_len is_digit s) s))
          else if is_var_start s then
            modify (to (drop_while isWordChar s));;
            variable (upper (take (prefix_len isWordChar s) s))
          else fail_with (txt "expected a number, variable, or '(' in preprocessor expression")
      end
  end.

(** The fuel of a parse of [s]. *)
Definition cond_fuel (s : text) : nat := 9 * length s + 9.

(** [evalCondExpr], up to the report: the value, or the message of the error. *)
Definition cond_value (s : text) : option (Z + text) :=
  let s := trim s in
  match parseOr (cond_fuel s) (mkC s [] 0) with
  | None => None
  | Some (v, st) =>
      if negb (is_empty (error_ st)) then Some (inr (error_ st))
      else if atEnd st then Some (inl v)
      else Some (inr (txt "unexpected text in preprocessor expression"))
  end.
End Cond.
