(* ===== verification/PPCondThms.v ===== *)
(** * Preprocessor expressions: totality and value

    The evaluator of PPCond.v returns on every text, and on the text of an
    expression it returns the value of the expression. *)
From S2P Require Import Prelude Monad Lexer PPCond.

#[local] Set Default Proof Using "Type".

#[local] Arguments drop_while : simpl never.

(** ** Blanks *)
Lemma drop_while_le P s : (length (drop_while P s) <= length s)%nat.
Proof. unfold drop_while. rewrite length_drop. lia. Qed.
Lemma drop_while_cons P c s :
  drop_while P (c :: s) = if P c then drop_while P s else c :: s.
Proof. unfold drop_while. cbn. by destruct (P c). Qed.
Lemma drop_while_idem P s : drop_while P (drop_while P s) = drop_while P s.
Proof.
  induction s as [|c s IH]; [done|]. rewrite drop_while_cons. destruct (P c) eqn:E; [done|].
  by rewrite drop_while_cons, E.
Qed.

(** Two texts with the same first significant character on. *)
Definition same (a b : text) : Prop := drop_while is_blank a = drop_while is_blank b.
#[global] Instance same_equiv : Equivalence same.
Proof. split; unfold same; repeat intro; congruence. Qed.
Lemma same_skip s : same (drop_while is_blank s) s.
Proof. apply drop_while_idem. Qed.

Lemma at_char_some d s s' : at_char d s = Some s' -> s = d :: s'.
Proof. destruct s as [|c s]; cbn; [done|]. destruct (ceqb c d) eqn:E; [|done]. intros [= ->]. by apply ceqb_true in E as ->. Qed.
Lemma relation_shrinks s op s' : relation s = Some (op, s') -> (length s' < length s)%nat.
Proof.
  destruct s as [|c s]; cbn; [done|]. destruct (ceqb c "<" || ceqb c ">"); [|done].
  destruct (at_char "=" s) eqn:E; intros [= <- <-]; [|lia]. apply at_char_some in E as ->. cbn. lia.
Qed.
Lemma matchNot_shrinks s s' : matchNot s = Some s' -> (length s' < length s)%nat.
Proof.
  destruct s as [|c s]; cbn; [done|]. destruct (ceqb c "^" || ceqb c "~"); [intros [= ->]; lia|].
  destruct s as [|d s]; [by destruct (ceqb c b_AC); [intros [= <-]; cbn; lia|]|].
  destruct (ceqb c b_C2 && ceqb d b_AC); [intros [= <-]; cbn; lia|].
  destruct (ceqb c b_AC); [intros [= <-]; cbn; lia|done].
Qed.

Section Total.
Context (vars : gmap text Z).

(** What any part of the parser does: it gives nothing back, restores the
    nesting depth and forgets no error. *)
Definition follows (st st' : cst) : Prop :=
  (length (rest st') <= length (rest st))%nat /\ depth st' = depth st /\
  (error_ st <> [] -> error_ st' <> []).

Lemma cond_follows_refl st : follows st st.
Proof. by split. Qed.
Lemma cond_follows_trans a b c : follows a b -> follows b c -> follows a c.
Proof. intros (?&?&?) (?&?&?). split; [lia|]. split; [congruence|auto]. Qed.
Lemma follows_skip st : follows st (skipWs st).
Proof. split; [apply drop_while_le|done]. Qed.
Lemma follows_to st s : (length s <= length (rest st))%nat -> follows st (to s st).
Proof. done. Qed.
Lemma follows_fail st msg : msg <> [] -> wp (fail_with msg) st (fun _ => follows st).
Proof. intros H. by split. Qed.

Definition enough (p : nat) (st : cst) (n : nat) : Prop := (9 * length (rest st) + 9 - p <= n)%nat.
Definition total (p : nat) (m : nat -> ST cst Z) (n : nat) : Prop :=
  forall st, enough p st n -> wp (m n) st (fun _ => follows st).

Definition all_total (n : nat) : Prop :=
  total 1 (parseOr vars) n /\ total 2 (parseAnd vars) n /\ total 3 (parseNot vars) n /\
  total 4 (parseCmp vars) n /\ total 5 (parseAdd vars) n /\ total 6 (parseMul vars) n /\
  total 7 (parseUnary vars) n /\ total 8 (parsePrimary vars) n /\
  (forall v, total 8 (fun n => orLoop vars n v) n) /\ (forall v, total 8 (fun n => andLoop vars n v) n) /\
  (forall v, total 8 (fun n => cmpLoop vars n v) n) /\ (forall v, total 8 (fun n => addLoop vars n v) n) /\
  (forall v, total 8 (fun n => mulLoop vars n v) n).

(** A part that runs a tighter part and then a loop. *)
Lemma cond_total_bind p q (f : nat -> ST cst Z) (g : nat -> Z -> ST cst Z) n st :
  (p < q <= 8)%nat -> total q f n -> (forall v, total 8 (fun n => g n v) n) -> enough p st (S n) ->
  wp (bind (f n) (g n)) st (fun _ => follows st).
Proof.
  intros Hp Hf Hg Hn. apply wp_bind. eapply wp_mono; [apply Hf; unfold enough in *; lia|].
  intros v st' H. eapply wp_mono; [apply Hg; destruct H; unfold enough in *; lia|].
  intros v' st''. by apply cond_follows_trans.
Qed.

(** After a skip and one more character, the rest of a loop has its fuel. *)
Lemma total_step p (f : nat -> ST cst Z) (g : Z -> ST cst Z) n st st0 s' :
  follows st0 st -> enough 8 st0 (S n) -> (length s' < length (rest st))%nat -> (1 <= p)%nat -> total p f n ->
  (forall v st', follows st st' -> enough 8 st' n -> wp (g v) st' (fun _ => follows st')) ->
  wp (bind (f n) g) (to s' st) (fun _ => follows st0).
Proof.
  intros H0 Hn Hs Hp Hf Hg. apply wp_bind. destruct H0 as (Hl & Hd & He).
  eapply wp_mono; [apply Hf; unfold enough in *; cbn; lia|].
  intros v st' H. assert (follows st st') as H1.
  { eapply cond_follows_trans; [|exact H]. apply follows_to. lia. }
  eapply wp_mono; [apply Hg; [done|destruct H1, H; cbn in *; unfold enough in *; lia]|].
  intros v' st'' H2. eapply cond_follows_trans; [|exact H2]. eapply cond_follows_trans; [by split|done].
Qed.

Ltac loop_head := intros v st Hn; cbn; apply wp_bind, wp_modify, wp_bind, wp_get.
Ltac shrinks := match goal with
  | H : at_char _ _ = Some _ |- _ => apply at_char_some in H; rewrite H; cbn; lia
  | H : relation _ = Some _ |- _ => by eapply relation_shrinks
  end.
Ltac loop_step IHf IHloop :=
  apply wp_bind, wp_modify;
  eapply total_step; [apply follows_skip|done|shrinks| |apply IHf|intros; by apply IHloop]; lia.

Lemma all_total_holds n : all_total n.
Proof.
  induction n as [|n (I1 & I2 & I3 & I4 & I5 & I6 & I7 & I8 & L1 & L2 & L4 & L5 & L6)].
  { repeat split; intros; unfold total, enough; intros; lia. }
  unfold all_total. repeat match goal with |- _ /\ _ => split end.
  - intros st Hn. cbn. by eapply (cond_total_bind 1 2); [lia|..].
  - intros st Hn. cbn. by eapply (cond_total_bind 2 3); [lia|..].
  - intros st Hn. cbn. apply wp_bind, wp_modify, wp_bind, wp_get.
    pose proof (follows_skip st) as Hsk.
    assert (forall st0, follows st st0 -> wp (parseCmp vars n) st0 (fun _ => follows st)) as Hcmp.
    { intros st0 H. eapply wp_mono; [apply I4; destruct H; unfold enough in *; lia|].
      intros v st'. by apply cond_follows_trans. }
    destruct (matchNot _) as [s'|] eqn:E; [|by apply Hcmp].
    destruct (at_char "=" _) eqn:E'; [by apply Hcmp|].
    apply wp_bind, wp_modify, wp_bind. apply matchNot_shrinks in E.
    assert (follows st (skipWs (to s' (skipWs st)))) as Hs.
    { eapply cond_follows_trans; [exact Hsk|]. eapply cond_follows_trans; [|apply follows_skip]. apply follows_to. lia. }
    eapply wp_mono; [apply I3|].
    + pose proof (drop_while_le is_blank s'). pose proof (drop_while_le is_blank (rest st)).
      unfold enough in *. cbn in *. lia.
    + intros v st' H. apply wp_ret. by eapply cond_follows_trans.
  - intros st Hn. cbn. by eapply (cond_total_bind 4 5); [lia|..].
  - intros st Hn. cbn. by eapply (cond_total_bind 5 6); [lia|..].
  - intros st Hn. cbn. by eapply (cond_total_bind 6 7); [lia|..].
  - intros st Hn. cbn. apply wp_bind, wp_modify, wp_bind, wp_get. destruct (at_char "-" _) as [s'|] eqn:E.
    + apply wp_bind, wp_modify, wp_bind. apply at_char_some in E.
      pose proof (drop_while_le is_blank (rest st)) as Hd. assert (follows st (to s' (skipWs st))) as Hs.
      { split; [cbn; cbn in E; rewrite E in Hd; cbn in Hd; lia|done]. }
      eapply wp_mono; [apply I7|].
      * cbn in E, Hd. rewrite E in Hd. unfold enough in *. cbn in *. lia.
      * intros v st' H. apply wp_ret. by eapply cond_follows_trans.
    + eapply wp_mono; [apply I8; pose proof (drop_while_le is_blank (rest st)); unfold enough in *; cbn; lia|].
      intros v st'. apply cond_follows_trans, follows_skip.
  - intros st Hn. cbn. apply wp_bind, wp_modify, wp_bind, wp_get, wp_bind, wp_get.
    pose proof (follows_skip st) as Hsk. destruct (at_char "(" _) as [s'|] eqn:E.
    + case_match; [eapply wp_mono; [by apply follows_fail|]; intros v st'; by apply cond_follows_trans|].
      apply wp_bind, wp_modify, wp_bind. apply at_char_some in E.
      pose proof (drop_while_le is_blank (rest st)) as Hd. cbn in E, Hd. rewrite E in Hd. cbn in Hd.
      eapply wp_mono; [apply I1; unfold enough in *; cbn; lia|]. intros v st1 (Hl & Hdep & He).
      cbn in Hl, Hdep, He. apply wp_bind, wp_modify, wp_bind, wp_get.
      pose proof (drop_while_le is_blank (rest st1)) as Hd1.
      destruct (at_char ")" _) as [s2|] eqn:E2.
      * apply wp_bind, wp_modify, wp_ret. apply at_char_some in E2. cbn in E2. rewrite E2 in Hd1.
        cbn in Hd1. split; cbn; [lia|]. split; [lia|done].
      * apply wp_bind, wp_modify. split; cbn; [lia|]. split; [lia|done].
    + destruct (is_num_start _).
      { apply wp_bind, wp_modify, wp_ret. eapply cond_follows_trans; [exact Hsk|]. apply follows_to, drop_while_le. }
      destruct (is_var_start _).
      * apply wp_bind, wp_modify. unfold variable.
        eapply wp_mono with (Q := fun _ => follows (to (drop_while isWordChar (rest (skipWs st))) (skipWs st))).
        { destruct (vars !! _); [apply wp_ret, cond_follows_refl|by apply follows_fail]. }
        intros v st' H. eapply cond_follows_trans; [exact Hsk|]. eapply cond_follows_trans; [|exact H].
        apply follows_to, drop_while_le.
      * eapply wp_mono; [by apply follows_fail|]. intros v st'. by apply cond_follows_trans.
  - loop_head. destruct (at_char _ _) eqn:E; [loop_step I2 L1|apply wp_ret, follows_skip].
  - loop_head. destruct (at_char _ _) eqn:E; [loop_step I3 L2|apply wp_ret, follows_skip].
  - loop_head. destruct (at_char _ _) eqn:E; [loop_step I5 L4|].
    destruct (relation _) as [[op s']|] eqn:E1; [loop_step I5 L4|].
    destruct (matchNot _) as [s'|] eqn:E2; cbn; [|apply wp_ret, follows_skip].
    destruct (at_char "=" (drop_while is_blank s')) eqn:E3; [|apply wp_ret, follows_skip].
    apply wp_bind, wp_modify. eapply (total_step 5); [apply follows_skip|done| |lia|apply I5|intros; by apply L4].
    apply matchNot_shrinks in E2. apply at_char_some in E3. pose proof (drop_while_le is_blank s') as H.
    rewrite E3 in H. cbn in H. lia.
  - loop_head. destruct (at_char "+" _) eqn:E; [loop_step I6 L5|].
    destruct (at_char "-" _) eqn:E1; [loop_step I6 L5|apply wp_ret, follows_skip].
  - loop_head. destruct (at_char "*" _) eqn:E; [loop_step I7 L6|].
    destruct (at_char "/" _) eqn:E1; [|apply wp_ret, follows_skip].
    apply wp_bind, wp_modify.
    eapply (total_step 7); [apply follows_skip|done|shrinks|lia|apply I7|].
    intros v' st' _ He. case_match; [by apply follows_fail|by apply L6].
Qed.
End Total.

(** ** Expressions and their text *)
Inductive cop := COr | CAnd | CEq | CNe | CLt | CLe | CGt | CGe | CAdd | CSub | CMul | CDiv.
Inductive cx :=
  | XNum (digits : text) | XVar (name : text) | XParen (x : cx) | XNeg (x : cx) | XNot (x : cx)
  | XBin (o : cop) (x y : cx).

Definition level_op (o : cop) : nat :=
  match o with
  | COr => 1 | CAnd => 2
  | CEq | CNe | CLt | CLe | CGt | CGe => 4
  | CAdd | CSub => 5 | CMul | CDiv => 6
  end.
Definition level (x : cx) : nat :=
  match x with XNum _ | XVar _ | XParen _ => 8 | XNeg _ => 7 | XNot _ => 3 | XBin o _ _ => level_op o end.

Definition apply_op (o : cop) (a b : Z) : option Z :=
  match o with
  | COr => Some (b2z (negb (a =? 0) || negb (b =? 0)))
  | CAnd => Some (b2z (negb (a =? 0) && negb (b =? 0)))
  | CEq => Some (b2z (a =? b)) | CNe => Some (b2z (negb (a =? b)))
  | CLt => Some (b2z (a <? b)) | CLe => Some (b2z (a <=? b))
  | CGt => Some (b2z (a >? b)) | CGe => Some (b2z (a >=? b))
  | CAdd => Some (i64 (a + b)) | CSub => Some (i64 (a - b)) | CMul => Some (i64 (a * b))
  | CDiv => if b =? 0 then None else Some (i64 (Z.quot a b))
  end.

Fixpoint ceval (vars : gmap text Z) (x : cx) : option Z :=
  match x with
  | XNum d => Some (number_value d)
  | XVar nm => vars !! upper nm
  | XParen x => ceval vars x
  | XNeg x => (fun v => i64 (- v)) <$> ceval vars x
  | XNot x => (fun v => b2z (v =? 0)) <$> ceval vars x
  | XBin o x y =>
      match ceval vars x, ceval vars y with Some a, Some b => apply_op o a b | _, _ => None end
  end.

(** Numbers are digits, names are words. *)
Fixpoint cx_ok (x : cx) : bool :=
  match x with
  | XNum d => negb (is_empty d) && forallb is_digit d
  | XVar nm => is_var_start nm && forallb isWordChar nm
  | XParen x | XNeg x | XNot x => cx_ok x
  | XBin _ x y => cx_ok x && cx_ok y
  end.

(** The accepted spellings of the not sign. *)
Definition not_signs : list text := [[("^")%char]; [("~")%char]; [b_C2; b_AC]; [b_AC]].

Section Print.
(** White space before every token, and the not sign. *)
Context (ws ns : text).

Definition op_text (o : cop) : text :=
  match o with
  | COr => txt "|" | CAnd => txt "&" | CEq => txt "=" | CNe => ns ++ ws ++ txt "="
  | CLt => txt "<" | CLe => txt "<=" | CGt => txt ">" | CGe => txt ">="
  | CAdd => txt "+" | CSub => txt "-" | CMul => txt "*" | CDiv => txt "/"
  end.

Definition parens (s : text) : text := ws ++ txt "(" ++ s ++ ws ++ txt ")".

(** The text of [x] where a level of at least [p] is expected. *)
Fixpoint print (p : nat) (x : cx) : text :=
  let body :=
    match x with
    | XNum d => ws ++ d
    | XVar nm => ws ++ nm
    | XParen x => parens (print 1 x)
    | XNeg x => ws ++ txt "-" ++ print 7 x
    | XNot x => ws ++ ns ++ print 3 x
    | XBin o x y => print (level_op o) x ++ ws ++ op_text o ++ print (S (level_op o)) y
    end in
  if (level x <? p)%nat then parens body else body.

(** The nesting of parentheses of [print p x]. *)
Fixpoint nest (p : nat) (x : cx) : Z :=
  let body :=
    match x with
    | XNum _ | XVar _ => 0
    | XParen x => 1 + nest 1 x
    | XNeg x => nest 7 x
    | XNot x => nest 3 x
    | XBin o x y => Z.max (nest (level_op o) x) (nest (S (level_op o)) y)
    end in
  if (level x <? p)%nat then 1 + body else body.
End Print.

(** What may follow a text read at level [p]. *)
Definition stops (p : nat) (post : text) : Prop :=
  let s := drop_while is_blank post in
  ((p <= 1)%nat -> at_char "|" s = None) /\ ((p <= 2)%nat -> at_char "&" s = None) /\
  ((p <= 4)%nat -> at_char "=" s = None /\ relation s = None /\
     matchNot s ≫= (fun s' => at_char "=" (drop_while is_blank s')) = None) /\
  ((p <= 5)%nat -> at_char "+" s = None /\ at_char "-" s = None) /\
  ((p <= 6)%nat -> at_char "*" s = None /\ at_char "/" s = None).
Definition no_word (post : text) : Prop :=
  match post with c :: _ => isWordChar c = false | [] => True end.

Lemma cond_stops_mono p q post : (p <= q)%nat -> stops p post -> stops q post.
Proof. unfold stops. intros H (?&?&?&?&?). repeat split; intros; naive_solver (solve [lia]). Qed.
Lemma stops_same p a b : same a b -> stops p a -> stops p b.
Proof. unfold stops, same. by intros ->. Qed.

(** ** Characters *)
(** A character that starts an operand. *)
Definition operand_char (c : char) : Prop := matchNot [c] = None /\ c <> b_C2.

Lemma operand_char_matchNot c s : operand_char c -> matchNot (c :: s) = None.
Proof.
  intros [H1 H2]. cbn in *. destruct (ceqb c "^" || ceqb c "~"); [done|].
  destruct (ceqb c b_AC) eqn:E; [done|]. destruct s as [|d s]; [done|].
  assert (ceqb c b_C2 = false) as -> by by apply ceqb_false. done.
Qed.

Lemma word_not_blank c : isWordChar c = true -> is_blank c = false.
Proof.
  unfold isWordChar, is_blank. intros H. rewrite !ceqb_code in *.
  unfold is_alnum, is_alpha, is_upper, is_lower, is_digit in H. eval_codes.
  rewrite !orb_true_iff, !andb_true_iff, !Z.leb_le, !Z.eqb_eq in H. rewrite !orb_false_iff, !Z.eqb_neq.
  repeat split; lia.
Qed.
Lemma digit_word c : is_digit c = true -> isWordChar c = true.
Proof. unfold isWordChar, is_alnum. intros ->. by rewrite orb_true_r. Qed.
Lemma start_word c : isWordStart c || ceqb c "_" = true -> isWordChar c = true.
Proof.
  unfold isWordStart, isWordChar, is_alnum. rewrite !orb_true_iff. tauto.
Qed.
Lemma word_code c : isWordChar c = true ->
  48 <= code c <= 57 \/ 65 <= code c <= 90 \/ 97 <= code c <= 122 \/ code c = 95 \/ code c = 36 \/
  code c = 35 \/ code c = 64.
Proof.
  unfold isWordChar. rewrite !ceqb_code. unfold is_alnum, is_alpha, is_upper, is_lower, is_digit.
  eval_codes. rewrite !orb_true_iff, !andb_true_iff, !Z.leb_le, !Z.eqb_eq. lia.
Qed.
Lemma word_not c d : isWordChar c = true -> isWordChar d = false -> ceqb c d = false.
Proof. intros H1 H2. apply ceqb_false. intros ->. congruence. Qed.
Lemma word_operand c : isWordChar c = true -> operand_char c /\ c <> "-"%char /\ c <> "("%char.
Proof.
  intros H. unfold operand_char, matchNot.
  rewrite !(word_not c) by done. split; [split; [done|]|split]; intros ->; by vm_compute in H.
Qed.

Lemma prefix_len_post P s post : forallb P s = true -> match post with c :: _ => P c = false | [] => True end ->
  prefix_len P (s ++ post) = length s.
Proof.
  induction s as [|c s IH]; cbn; intros Hs Hp.
  - destruct post as [|c post]; [done|]. cbn. by rewrite Hp.
  - apply andb_true_iff in Hs as [-> Hs]. by rewrite IH.
Qed.

Lemma blanks_no_word w c s : forallb is_blank w = true -> isWordChar c = false -> no_word (w ++ c :: s).
Proof.
  destruct w as [|d w]; cbn; [done|]. intros [Hd _]%andb_true_iff Hc.
  apply not_true_iff_false. intros H%word_not_blank. congruence.
Qed.

(** ** Reading a text *)
#[local] Set Default Proof Using "All".

Section Reads.
Context (vars : gmap text Z) (ws ns : text).
Hypothesis ws_blank : forallb is_blank ws = true.
Hypothesis ns_sign : ns ∈ not_signs.

Definition par (p n : nat) : ST cst Z :=
  match p with
  | 1 => parseOr vars n | 2 => parseAnd vars n | 3 => parseNot vars n | 4 => parseCmp vars n
  | 5 => parseAdd vars n | 6 => parseMul vars n | 7 => parseUnary vars n | _ => parsePrimary vars n
  end%nat.
Definition loop (p n : nat) (v : Z) : ST cst Z :=
  match p with
  | 1 => orLoop vars n v | 2 => andLoop vars n v | 4 => cmpLoop vars n v
  | 5 => addLoop vars n v | _ => mulLoop vars n v
  end%nat.
Definition loops (p : nat) : bool := match p with 1 | 2 | 4 | 5 | 6 => true | _ => false end%nat.

(** [T], whose parentheses nest to depth [N], is read at level [p] as [z]. *)
Definition reads_t (p : nat) (T : text) (N z : Z) : Prop := forall n st post,
  same (rest st) (T ++ post) -> no_word post -> stops p post -> error_ st = [] ->
  depth st + N <= kMaxDepth -> enough p st n ->
  wp (par p n) st (fun v st' => v = z /\ same (rest st') post /\ error_ st' = [] /\
     depth st' = depth st /\ (length (rest st') <= length (rest st))%nat).

(** The same, the loop of the level going on. *)
Definition spine_t (l : nat) (T : text) (N z : Z) : Prop := forall n st post (Q : Z -> cst -> Prop),
  same (rest st) (T ++ post) -> no_word post -> stops (S l) post -> error_ st = [] ->
  depth st + N <= kMaxDepth -> enough l st n ->
  (forall st' n', same (rest st') post -> error_ st' = [] -> depth st' = depth st ->
     (length (rest st') <= length (rest st))%nat -> enough 8 st' n' -> wp (loop l n' z) st' Q) ->
  wp (par l n) st Q.

Lemma same_ws s : same (ws ++ s) s.
Proof.
  unfold same. induction ws as [|c w IH]; [done|].
  cbn in ws_blank. apply andb_true_iff in ws_blank as [Hc Hw]. cbn [app]. rewrite drop_while_cons, Hc. auto.
Qed.

Lemma skip_same a c s : same a (c :: s) -> is_blank c = false -> drop_while is_blank a = c :: s.
Proof. unfold same. intros -> Hc. by rewrite drop_while_cons, Hc. Qed.

(** A loop level is the next level and the loop. *)
Lemma par_loop l n : loops l = true -> par l (S n) = bind (par (S l) n) (loop l n).
Proof. destruct l as [|[|[|[|[|[|[|l]]]]]]]; done. Qed.

(** The loop stops where the level does. *)
Lemma loop_stops l n v st post : loops l = true -> same (rest st) post -> stops l post ->
  enough 8 st n -> wp (loop l n v) st (fun v' st' => v' = v /\ st' = skipWs st).
Proof.
  intros Hl Hs Hp Hn. destruct n as [|n]; [unfold enough in Hn; lia|].
  apply (stops_same l post (rest st)) in Hp; [|by symmetry].
  destruct Hp as (H1 & H2 & H4 & H5 & H6).
  destruct l as [|[|[|[|[|[|[|l]]]]]]]; try done; cbn; apply wp_bind, wp_modify, wp_bind, wp_get; cbn.
  - by rewrite H1 by lia.
  - by rewrite H2 by lia.
  - destruct H4 as (E1 & E2 & E3); [lia|]. rewrite E1, E2.
    revert E3. destruct (matchNot _) as [s'|]; cbn; [by intros ->|done].
  - destruct H5 as (E1 & E2); [lia|]. by rewrite E1, E2.
  - destruct H6 as (E1 & E2); [lia|]. by rewrite E1, E2.
Qed.

Lemma spine_down l T N z : loops l = true -> reads_t (S l) T N z -> spine_t l T N z.
Proof.
  intros Hl H n st post Q Hs Hw Hp He Hd Hn Hk. destruct n as [|n].
  { unfold enough in Hn. destruct l as [|[|[|[|[|[|[|l]]]]]]]; try done; lia. }
  rewrite par_loop by done. apply wp_bind. eapply wp_mono.
  - apply (H n st post); try done. unfold enough in *. lia.
  - intros v st' (-> & Hs' & He' & Hd' & Hl'). apply Hk; try done.
    unfold enough in *. destruct l as [|[|[|[|[|[|[|l]]]]]]]; try done; lia.
Qed.

Lemma spine_reads l T N z : loops l = true -> spine_t l T N z -> reads_t l T N z.
Proof.
  intros Hl H n st post Hs Hw Hp He Hd Hn. apply (H n st post); try done.
  { eapply cond_stops_mono, Hp. lia. }
  intros st' n' Hs' He' Hd' Hl' Hn'. eapply wp_mono; [by eapply loop_stops|].
  intros v st'' [-> ->]. split; [done|]. cbn. split; [by etransitivity; [apply same_skip|]|].
  split; [done|]. split; [done|]. pose proof (drop_while_le is_blank (rest st')). lia.
Qed.

(** A text starts with a character. *)
Definition starts (T : text) (c : char) : Prop :=
  forall post, exists s, drop_while is_blank (T ++ post) = c :: s.
(** One level down. *)
Lemma reads_down p T N z c : (1 <= p <= 7)%nat -> starts T c -> (p = 3%nat -> operand_char c) ->
  (p = 7%nat -> c <> "-"%char) -> reads_t (S p) T N z -> reads_t p T N z.
Proof.
  intros Hp Hc H3 H7 H. destruct (loops p) eqn:Hl; [by apply spine_reads, spine_down|].
  intros n st post Hs Hw Hst He Hd Hn. destruct (Hc post) as [s Hcs].
  assert (drop_while is_blank (rest st) = c :: s) as Hr by by rewrite Hs.
  destruct n as [|n]; [unfold enough in Hn; lia|].
  assert (p = 3 \/ p = 7)%nat as [-> | ->] by (destruct p as [|[|[|[|[|[|[|[|p]]]]]]]]; try done; lia).
  - cbn. apply wp_bind, wp_modify, wp_bind, wp_get. cbn. rewrite Hr.
    rewrite operand_char_matchNot by auto.
    eapply wp_mono; [apply (H n (skipWs st) post); try done|].
    + cbn. by rewrite Hr, <- Hcs, same_skip.
    + eapply cond_stops_mono, Hst. lia.
    + pose proof (drop_while_le is_blank (rest st)). unfold enough in *. cbn. lia.
    + cbn. intros v st' (? & ? & ? & ? & ?). pose proof (drop_while_le is_blank (rest st)).
      repeat split; try done. lia.
  - cbn. apply wp_bind, wp_modify, wp_bind, wp_get. cbn. rewrite Hr. cbn.
    assert (ceqb c "-" = false) as -> by (apply ceqb_false; auto).
    eapply wp_mono; [apply (H n (skipWs st) post); try done|].
    + cbn. by rewrite Hr, <- Hcs, same_skip.
    + eapply cond_stops_mono, Hst. lia.
    + pose proof (drop_while_le is_blank (rest st)). unfold enough in *. cbn. lia.
    + cbn. intros v st' (? & ? & ? & ? & ?). pose proof (drop_while_le is_blank (rest st)).
      repeat split; try done. lia.
Qed.

(** ** The forms *)
(** A primary that is one lexeme. *)
Lemma reads_lexeme (P : char -> bool) d z c d' :
  d = c :: d' -> isWordChar c = true -> forallb P d = true -> (forall c, isWordChar c = false -> P c = false) ->
  (forall s st n, ceqb c "(" = false -> rest st = d ++ s -> prefix_len P (d ++ s) = length d -> drop_while is_blank (d ++ s) = d ++ s ->
     wp (parsePrimary vars (S n)) st (fun v st' => v = z /\ st' = to s st)) ->
  reads_t 8 (ws ++ d) 0 z.
Proof.
  intros Hd Hc HP Hsub H n st post Hs Hw Hst He Hdep Hn.
  destruct n as [|n]; [unfold enough in Hn; lia|].
  assert (drop_while is_blank (rest st) = d ++ post) as Hr.
  { subst d. apply skip_same; [|by apply word_not_blank]. rewrite Hs, <- app_assoc. apply same_ws. }
  assert (drop_while is_blank (d ++ post) = d ++ post) as Hr2 by (rewrite <- Hr; apply drop_while_idem).
  assert (prefix_len P (d ++ post) = length d) as Hp.
  { apply prefix_len_post; [done|]. destruct post; cbn in *; auto. }
  destruct (word_operand c Hc) as (_ & _ & Hpar%ceqb_false).
  specialize (H post (skipWs st) n Hpar). cbn [rest skipWs to] in H.
  specialize (H Hr Hp Hr2). cbn [par].
  assert (parsePrimary vars (S n) st = parsePrimary vars (S n) (skipWs st)) as E.
  { cbn. unfold bind, modify, skipWs. cbn. by rewrite drop_while_idem. }
  unfold wp in *. rewrite E. destruct (parsePrimary vars (S n) (skipWs st)) as [[v st']|]; [|done].
  destruct H as [-> ->]. cbn. repeat split; try done.
  pose proof (drop_while_le is_blank (rest st)) as Hle. rewrite Hr, length_app in Hle. lia.
Qed.

Lemma cond_reads_num d : is_empty d = false -> forallb is_digit d = true ->
  reads_t 8 (ws ++ d) 0 (number_value d).
Proof.
  intros Hne Hd. destruct d as [|c d]; [done|].
  pose proof Hd as [Hc _]%andb_true_iff.
  apply (reads_lexeme is_digit (c :: d) _ c d); try done.
  - by apply digit_word.
  - intros x Hx. apply not_true_iff_false. intros H%digit_word. congruence.
  - intros s st n Hpar Hr Hp Hb. cbn [parsePrimary]. apply wp_bind, wp_modify, wp_bind, wp_get, wp_bind, wp_get.
    cbn [rest skipWs to]. rewrite Hr, Hb. cbn [app at_char]. rewrite Hpar. cbn [is_num_start]. rewrite Hc.
    apply wp_bind, wp_modify, wp_ret. change (c :: d ++ s) with ((c :: d) ++ s).
    rewrite Hp, take_app_length. split; [done|]. unfold to, skipWs, drop_while at 1. cbn [error_ depth].
    by rewrite Hp, drop_app_length.
Qed.

Lemma reads_var nm z : is_var_start nm = true -> forallb isWordChar nm = true ->
  vars !! upper nm = Some z -> reads_t 8 (ws ++ nm) 0 z.
Proof.
  intros Hst Hnm Hz. destruct nm as [|c d]; [done|].
  pose proof Hnm as [Hc _]%andb_true_iff. cbn in Hst.
  apply (reads_lexeme isWordChar (c :: d) _ c d); try done.
  intros s st n Hpar Hr Hp Hb. cbn [parsePrimary]. apply wp_bind, wp_modify, wp_bind, wp_get, wp_bind, wp_get.
  cbn [rest skipWs to]. rewrite Hr, Hb. cbn [app at_char]. rewrite Hpar. cbn [is_num_start is_var_start].
  assert (is_digit c = false) as ->.
  { apply not_true_iff_false. intros Hd. revert Hst. unfold isWordStart.
    rewrite !ceqb_code in *. unfold is_alpha, is_upper, is_lower, is_digit in *. eval_codes.
    rewrite !orb_true_iff, !andb_true_iff, !Z.leb_le, !Z.eqb_eq in *. lia. }
  rewrite Hst. apply wp_bind, wp_modify. change (c :: d ++ s) with ((c :: d) ++ s).
  rewrite Hp, take_app_length. unfold variable. rewrite Hz. apply wp_ret. split; [done|].
  unfold to, skipWs, drop_while at 1. cbn [error_ depth]. by rewrite Hp, drop_app_length.
Qed.

(** A text after a token [c]. *)
Lemma after_token c T post st : same (rest st) ((ws ++ c :: T) ++ post) -> is_blank c = false ->
  drop_while is_blank (rest st) = c :: T ++ post.
Proof.
  intros Hs Hc. apply skip_same; [|done]. rewrite Hs, <- app_assoc. apply same_ws.
Qed.

Lemma reads_neg T N z : reads_t 7 T N z -> reads_t 7 (ws ++ txt "-" ++ T) N (i64 (- z)).
Proof.
  intros H n st post Hs Hw Hst He Hd Hn. destruct n as [|n]; [unfold enough in Hn; lia|].
  apply after_token in Hs; [|done]. cbn. apply wp_bind, wp_modify, wp_bind, wp_get. cbn. rewrite Hs. cbn.
  pose proof (drop_while_le is_blank (rest st)) as Hl. rewrite Hs in Hl. cbn in Hl.
  apply wp_bind, wp_modify, wp_bind. eapply wp_mono.
  - apply (H n _ post); try done. unfold enough in *. cbn. lia.
  - cbn. intros v st' (-> & ? & ? & ? & ?). apply wp_ret. repeat split; try done. lia.
Qed.

Lemma ns_cases s : exists c s', ns ++ s = c :: s' /\ is_blank c = false /\ matchNot (ns ++ s) = Some s.
Proof.
  unfold not_signs in ns_sign. rewrite !elem_of_cons in ns_sign.
  destruct ns_sign as [-> |[-> |[-> |[-> |H]]]]; [..|by apply elem_of_nil in H];
    (eexists _, _; split; [reflexivity|]); split; try by vm_compute.
  cbn. destruct s as [|d s]; done.
Qed.

Lemma reads_not T N z : (exists c, starts T c /\ c <> "="%char) -> reads_t 3 T N z ->
  reads_t 3 (ws ++ ns ++ T) N (b2z (z =? 0)).
Proof.
  intros (c & Hc & Hne) H n st post Hs Hw Hst He Hd Hn. destruct n as [|n]; [unfold enough in Hn; lia|].
  destruct (ns_cases (T ++ post)) as (c' & s' & E & Hb & Hm).
  assert (drop_while is_blank (rest st) = ns ++ T ++ post) as Hr.
  { rewrite E. apply skip_same; [|done]. rewrite Hs, <- !app_assoc, E. apply same_ws. }
  destruct (Hc post) as [s Hcs].
  cbn. apply wp_bind, wp_modify, wp_bind, wp_get. cbn. rewrite Hr, Hm, Hcs. cbn.
  apply ceqb_false in Hne. rewrite Hne. apply wp_bind, wp_modify, wp_bind.
  pose proof (drop_while_le is_blank (rest st)) as Hl. rewrite Hr, length_app in Hl.
  assert (1 <= length ns)%nat as Hns.
  { unfold not_signs in ns_sign. rewrite !elem_of_cons in ns_sign.
    destruct ns_sign as [-> |[-> |[-> |[-> |H']]]]; [cbn; lia..|by apply elem_of_nil in H']. }
  pose proof (drop_while_le is_blank (T ++ post)) as Hl2.
  eapply wp_mono.
  - apply (H n _ post); try done; cbn; [apply same_skip|]. unfold enough in *. cbn. lia.
  - cbn. intros v st' (-> & ? & ? & ? & ?). apply wp_ret. repeat split; try done. lia.
Qed.

Lemma reads_parens T N z : 0 <= N -> reads_t 1 T N z -> reads_t 8 (parens ws T) (1 + N) z.
Proof.
  intros HN H n st post Hs Hw Hst He Hd Hn. destruct n as [|n]; [unfold enough in Hn; lia|].
  unfold parens in Hs.
  assert (drop_while is_blank (rest st) = ("("%char) :: T ++ ws ++ (")"%char) :: post) as Hr.
  { apply skip_same; [|done]. etransitivity; [exact Hs|]. rewrite <- app_assoc.
    etransitivity; [apply same_ws|]. cbn. by rewrite <- !app_assoc. }
  cbn. apply wp_bind, wp_modify, wp_bind, wp_get, wp_bind, wp_get. cbn. rewrite Hr. cbn.
  unfold kMaxDepth in *.
  rewrite (proj2 (Z.leb_gt _ _)) by lia.
  apply wp_bind, wp_modify, wp_bind.
  pose proof (drop_while_le is_blank (rest st)) as Hl. rewrite Hr in Hl. cbn in Hl.
  set (post1 := ws ++ (")"%char) :: post) in *.
  assert (drop_while is_blank post1 = (")"%char) :: post) as Hp1
    by (etransitivity; [apply same_ws|by rewrite drop_while_cons]).
  eapply wp_mono.
  - apply (H n _ post1).
    + cbn. done.
    + by apply blanks_no_word.
    + unfold stops. rewrite Hp1. by destruct post; repeat split.
    + done.
    + cbn. unfold kMaxDepth. lia.
    + unfold enough in *. cbn. lia.
  - cbn. intros v st' (-> & Hs' & He' & Hd' & Hl'). apply wp_bind, wp_modify, wp_bind, wp_get. cbn.
    rewrite Hs', Hp1. cbn. apply wp_bind, wp_modify, wp_ret. cbn.
    pose proof (drop_while_le is_blank (rest st')) as Hl2. rewrite Hs', Hp1 in Hl2. cbn in Hl2.
    repeat split; try done; lia.
Qed.

(** ** Operators *)
Lemma op_first o s : exists c s', op_text ws ns o ++ s = c :: s' /\ is_blank c = false /\
  isWordChar c = false /\ c <> ")"%char.
Proof.
  destruct o; try (eexists _, _; split; [reflexivity|]; by vm_compute).
  unfold op_text. rewrite <- app_assoc. unfold not_signs in ns_sign. rewrite !elem_of_cons in ns_sign.
  destruct ns_sign as [-> |[-> |[-> |[-> |H]]]]; [..|by apply elem_of_nil in H];
    eexists _, _; (split; [reflexivity|]); by vm_compute.
Qed.

Lemma ns_not_op s : at_char "=" (ns ++ s) = None /\ relation (ns ++ s) = None /\
  at_char "|" (ns ++ s) = None /\ at_char "&" (ns ++ s) = None /\ at_char "+" (ns ++ s) = None /\
  at_char "-" (ns ++ s) = None /\ at_char "*" (ns ++ s) = None /\ at_char "/" (ns ++ s) = None.
Proof.
  unfold not_signs in ns_sign. rewrite !elem_of_cons in ns_sign.
  destruct ns_sign as [-> |[-> |[-> |[-> |H]]]]; [..|by apply elem_of_nil in H]; by vm_compute.
Qed.

(** The operator after white space. *)
Lemma skip_op o s : drop_while is_blank (ws ++ op_text ws ns o ++ s) = op_text ws ns o ++ s.
Proof.
  destruct (op_first o s) as (c & s' & E & Hb & _). rewrite E. etransitivity; [apply same_ws|].
  by rewrite drop_while_cons, Hb.
Qed.

Lemma ne_matches s : matchNot (op_text ws ns CNe ++ s) ≫= (fun s' => at_char "=" (drop_while is_blank s')) = Some s.
Proof.
  unfold op_text. rewrite <- !app_assoc. destruct (ns_cases (ws ++ txt "=" ++ s)) as (_ & _ & _ & _ & ->).
  cbn [mbind option_bind]. assert (drop_while is_blank (ws ++ txt "=" ++ s) = ("="%char) :: s) as ->; [|done].
  etransitivity; [apply same_ws|]. apply (drop_while_cons is_blank).
Qed.

Lemma op_stops o s : stops (S (level_op o)) (ws ++ op_text ws ns o ++ s).
Proof.
  unfold stops. rewrite skip_op. destruct o; cbn [level_op];
    try (destruct s; repeat split; intros; try lia; by vm_compute).
  destruct (ns_not_op (ws ++ txt "=" ++ s)) as (?&?&?&?&?&?&?&?).
  unfold op_text. rewrite <- !app_assoc. repeat split; intros; try lia; done.
Qed.

Lemma relation_strict c s : at_char "=" s = None -> ceqb c "<" || ceqb c ">" = true ->
  relation (c :: s) = Some (if ceqb c "<" then Z.ltb else Z.gtb, s).
Proof. intros Hs Hc. unfold relation. by rewrite Hs, Hc. Qed.

(** One turn of a loop. *)
Lemma loop_op o n a st s Q : drop_while is_blank (rest st) = op_text ws ns o ++ s -> at_char "=" s = None ->
  wp (bind (par (S (level_op o)) n) (fun b =>
        match apply_op o a b with
        | Some z => loop (level_op o) n z
        | None => fail_with (txt "division by zero in preprocessor expression")
        end)) (to s (skipWs st)) Q ->
  wp (loop (level_op o) (S n) a) st Q.
Proof.
  intros Hr Hs HQ. pose proof (ne_matches s) as Hne. destruct (ns_not_op (ws ++ txt "=" ++ s)) as (Heq & Hrel & _).
  destruct o; cbn -[at_char relation matchNot par]; apply wp_bind, wp_modify, wp_bind, wp_get; cbn -[at_char relation matchNot par op_text];
    rewrite Hr; try exact HQ.
  - assert (op_text ws ns CNe ++ s = ns ++ ws ++ txt "=" ++ s) as Eo by (cbn; by rewrite <- !app_assoc).
    rewrite <- Eo in Heq, Hrel. rewrite Heq, Hrel, Hne. exact HQ.
  - assert (relation (op_text ws ns CLt ++ s) = Some (Z.ltb, s)) as Hlt by (by apply (relation_strict "<")).
    rewrite Hlt. exact HQ.
  - assert (relation (op_text ws ns CGt ++ s) = Some (Z.gtb, s)) as Hgt by (by apply (relation_strict ">")).
    rewrite Hgt. exact HQ.
  - cbn -[par]. apply wp_bind, wp_modify. unfold wp, bind in *. cbn [par level_op] in *.
    destruct (parseUnary vars n _) as [[b st']|]; [|done]. cbn in HQ. by destruct (b =? 0).
Qed.

Lemma no_eq_start T c post : starts T c -> c <> "="%char -> at_char "=" (T ++ post) = None.
Proof.
  intros H Hc. destruct (H post) as [s Hs]. destruct (T ++ post) as [|d r]; [done|]. cbn.
  destruct (ceqb d "=") eqn:E; [|done]. apply ceqb_true in E as ->.
  rewrite drop_while_cons in Hs. change (is_blank "=") with false in Hs. cbn in Hs. by simplify_eq.
Qed.

Lemma cond_spine_bin o Tx Ty Nx Ny a b z c : spine_t (level_op o) Tx Nx a -> reads_t (S (level_op o)) Ty Ny b ->
  starts Ty c -> c <> "="%char -> apply_op o a b = Some z ->
  spine_t (level_op o) (Tx ++ ws ++ op_text ws ns o ++ Ty) (Z.max Nx Ny) z.
Proof.
  intros Hx Hy Hc Hne Hz n st post Q Hs Hw Hp He Hd Hn Hk.
  destruct (op_first o (Ty ++ post)) as (d & s' & E & Hb & Hword & _).
  apply (Hx n st (ws ++ op_text ws ns o ++ Ty ++ post)); try done.
  - etransitivity; [exact Hs|]. by rewrite <- !app_assoc.
  - rewrite E. by apply blanks_no_word.
  - apply op_stops.
  - lia.
  - intros st' n' Hs' He' Hd' Hl' Hn'. destruct n' as [|n']; [unfold enough in Hn'; lia|].
    apply (loop_op o n' a st' (Ty ++ post)).
    + rewrite Hs'. apply skip_op.
    + by eapply no_eq_start.
    + pose proof (drop_while_le is_blank (rest st')) as Hle. rewrite Hs', skip_op, E in Hle.
      assert (length (Ty ++ post) <= length s')%nat as Hlen.
      { apply (f_equal length) in E. rewrite length_app in E. cbn in E.
        assert (1 <= length (op_text ws ns o))%nat by (destruct (op_first o []) as (?&?&E0&_); rewrite app_nil_r in E0; rewrite E0; cbn; lia).
        rewrite length_app in *. lia. }
      cbn in Hle. apply wp_bind. eapply wp_mono.
      * apply (Hy n' _ post); try done; [cbn; rewrite Hd'; lia|].
        unfold enough in *. cbn. destruct o; cbn; lia.
      * cbn. intros v st'' (-> & Hs2 & He2 & Hd2 & Hl2). rewrite Hz. apply Hk; try done; [congruence|lia|].
        unfold enough in *. lia.
Qed.

(** ** Levels *)
Lemma reads_downs p q T N z c : (1 <= p <= q)%nat -> (q <= 8)%nat -> starts T c ->
  (4 <= q -> operand_char c)%nat -> (q = 8%nat -> c <> "-"%char) ->
  reads_t q T N z -> reads_t p T N z.
Proof.
  intros Hpq Hq Hc H4 H8 H. replace q with (p + (q - p))%nat in H by lia.
  assert (q - p <= 8)%nat as Hk by lia. remember (q - p)%nat as k eqn:E. clear Hk.
  revert p E Hpq H. induction k as [|k IH]; intros p E Hpq H; [by rewrite Nat.add_0_r in H|].
  eapply reads_down; [lia|exact Hc|intros ->; apply H4; lia|intros ->; apply H8; lia|].
  apply IH; [lia|lia|]. by rewrite Nat.add_succ_comm.
Qed.

Lemma starts_ws c T : is_blank c = false -> starts (ws ++ c :: T) c.
Proof.
  intros Hc post. eexists. rewrite <- app_assoc. etransitivity; [apply same_ws|].
  cbn. by rewrite drop_while_cons, Hc.
Qed.
Lemma starts_parens T : starts (parens ws T) "(".
Proof. by apply (starts_ws "(" (T ++ ws ++ txt ")")). Qed.

Lemma reads_every lv T N z c : (1 <= lv <= 8)%nat -> 0 <= N -> starts T c ->
  (4 <= lv -> operand_char c)%nat -> (lv = 8%nat -> c <> "-"%char) ->
  reads_t lv T N z -> (loops lv = true -> spine_t lv T N z) ->
  forall p, (1 <= p <= 8)%nat ->
    let T' := if (lv <? p)%nat then parens ws T else T in
    let N' := if (lv <? p)%nat then 1 + N else N in
    reads_t p T' N' z /\ (loops p = true -> spine_t p T' N' z).
Proof.
  intros Hlv HN Hc H4 H8 H Hsp p Hp.
  assert (forall q, (1 <= q <= lv)%nat -> reads_t q T N z) as Hlow.
  { intros q Hq. eapply (reads_downs q lv); try done; lia. }
  destruct (Nat.ltb_spec lv p) as [Hlt|Hge].
  - assert (forall q, (1 <= q <= 8)%nat -> reads_t q (parens ws T) (1 + N) z) as Hhigh.
    { intros q Hq. eapply (reads_downs q 8); [lia|lia|apply starts_parens|done|done|].
      apply reads_parens; [done|]. apply Hlow. lia. }
    split; [by apply Hhigh|]. intros Hl. apply spine_down; [done|]. apply Hhigh.
    destruct p as [|[|[|[|[|[|[|p]]]]]]]; try done; lia.
  - split; [apply Hlow; lia|]. intros Hl. destruct (decide (p = lv)) as [->|]; [by apply Hsp|].
    apply spine_down; [done|]. apply Hlow. lia.
Qed.

Lemma starts_app T U c : starts T c -> starts (T ++ U) c.
Proof. intros H post. rewrite <- app_assoc. apply H. Qed.

Lemma level_range x : (1 <= level x <= 8)%nat.
Proof. destruct x as [| | | | |[]]; cbn; lia. Qed.
Lemma nest_nonneg p x : 0 <= nest p x.
Proof.
  revert p. induction x as [| |x IH|x IH|x IH|o x IHx y IHy]; intros q; cbn [nest];
    [| |pose proof (IH 1%nat)|pose proof (IH 7%nat)|pose proof (IH 3%nat)|
     pose proof (IHx (level_op o)); pose proof (IHy (S (level_op o)))]; destruct (_ <? _)%nat; lia.
Qed.

Lemma word_not_eq c : isWordChar c = true -> c <> "="%char.
Proof. by intros H ->. Qed.

Lemma print_starts x : cx_ok x = true -> forall p, exists c, starts (print ws ns p x) c /\ c <> "="%char /\
  ((4 <= p \/ 4 <= level x)%nat -> operand_char c) /\ ((8 <= p \/ level x = 8)%nat -> c <> "-"%char).
Proof.
  assert (forall T, starts (parens ws T) "(" /\ "("%char <> "="%char /\
    operand_char "(" /\ "("%char <> "-"%char) as Hpar by (split; [apply starts_parens|done]).
  induction x as [d|nm|x IH|x IH|x IH|o x IHx y IHy]; cbn [cx_ok]; intros Hok p; cbn [print level];
    (case_match eqn:Hlt; [exists "("%char; split; [apply Hpar|]; split; [done|]; split; intros _; [apply (Hpar [])|done]|]).
  - apply andb_true_iff in Hok as [Hne Hd]. destruct d as [|c d]; [done|].
    apply andb_true_iff in Hd as [Hc%digit_word _]. exists c. destruct (word_operand c Hc) as (?&?&?).
    split; [by apply starts_ws, word_not_blank|]. split; [by apply word_not_eq|done].
  - apply andb_true_iff in Hok as [Hne Hd]. destruct nm as [|c d]; [done|].
    apply andb_true_iff in Hd as [Hc _]. exists c. destruct (word_operand c Hc) as (?&?&?).
    split; [by apply starts_ws, word_not_blank|]. split; [by apply word_not_eq|done].
  - exists "("%char. split; [apply starts_parens|done].
  - exists "-"%char. split; [by apply (starts_ws "-" (print ws ns 7 x))|]. split; [done|].
    split; [done|]. apply Nat.ltb_ge in Hlt. lia.
  - destruct (ns_cases (print ws ns 3 x)) as (c & s' & E & Hb & Hm). exists c. rewrite E.
    split; [by apply starts_ws|]. apply Nat.ltb_ge in Hlt. split; [|split; lia].
    intros ->. by rewrite E, operand_char_matchNot in Hm by done.
  - apply andb_true_iff in Hok as [Hx Hy]. destruct (IHx Hx (level_op o)) as (c & Hc & Hne & H4 & H8).
    exists c. split; [by apply starts_app|]. split; [done|]. apply Nat.ltb_ge in Hlt.
    split; [intros Hor; apply H4; lia|]. destruct o; cbn in *; lia.
Qed.

(** An expression is read at every level as its value. *)
Lemma print_reads x : forall z, cx_ok x = true -> ceval vars x = Some z -> forall p, (1 <= p <= 8)%nat ->
  reads_t p (print ws ns p x) (nest p x) z /\
  (loops p = true -> spine_t p (print ws ns p x) (nest p x) z).
Proof.
  induction x as [d|nm|x IH|x IH|x IH|o x IHx y IHy]; intros z Hok Hz p Hp;
    destruct (print_starts _ Hok 0) as (c & Hc & _ & H4 & H8); cbn [print level cx_ok ceval nest] in *;
    cbn [Nat.ltb Nat.leb] in Hc.
  - apply andb_true_iff in Hok as [Hne Hd]. simplify_eq.
    apply (reads_every 8 _ 0 _ c); try done; [lia|naive_solver lia|naive_solver|].
    apply cond_reads_num; [|done]. by destruct d.
  - apply andb_true_iff in Hok as [Hne Hd].
    apply (reads_every 8 _ 0 _ c); try done; [lia|naive_solver lia|naive_solver|]. by apply reads_var.
  - apply (reads_every 8 _ (1 + nest 1 x) _ c); try done; [lia| |naive_solver lia|naive_solver|].
    { pose proof (nest_nonneg 1 x). lia. }
    apply reads_parens; [apply nest_nonneg|]. apply (IH z); [done|done|lia].
  - destruct (ceval vars x) as [v|] eqn:Ev; [|done]. cbn in Hz. simplify_eq.
    apply (reads_every 7 _ (nest 7 x) _ c); try done; [lia|apply nest_nonneg|naive_solver lia|].
    apply reads_neg. apply (IH v); [done|done|lia].
  - destruct (ceval vars x) as [v|] eqn:Ev; [|done]. cbn in Hz. simplify_eq.
    apply (reads_every 3 _ (nest 3 x) _ c); try done; [lia|apply nest_nonneg|lia|].
    apply reads_not; [|by apply (IH v); [..|lia]].
    destruct (print_starts x Hok 3) as (c' & Hc' & Hne & _). by exists c'.
  - apply andb_true_iff in Hok as [Hx Hy].
    destruct (ceval vars x) as [a|] eqn:Ea; [|done]. destruct (ceval vars y) as [b|] eqn:Eb; [|done].
    assert (1 <= level_op o <= 6)%nat as Hlv by (destruct o; cbn; lia).
    assert (loops (level_op o) = true) as Hl by by destruct o.
    assert (spine_t (level_op o) (print ws ns (level_op o) x ++ ws ++ op_text ws ns o ++ print ws ns (S (level_op o)) y)
      (Z.max (nest (level_op o) x) (nest (S (level_op o)) y)) z) as Hspine.
    { destruct (print_starts y Hy (S (level_op o))) as (c' & Hc' & Hne & _).
      eapply cond_spine_bin; [apply (IHx a); [done|done|lia|done]|apply (IHy b); [done|done|lia]|exact Hc'|done|done]. }
    apply (reads_every (level_op o) _ (Z.max (nest (level_op o) x) (nest (S (level_op o)) y)) _ c); try done.
    + lia.
    + pose proof (nest_nonneg (level_op o) x). lia.
    + naive_solver.
    + lia.
    + by apply spine_reads.
Qed.
End Reads.

(** ** The whole expression *)
Lemma cond_value_total vars s : is_Some (cond_value vars s).
Proof.
  unfold cond_value. destruct (all_total_holds vars (cond_fuel (trim s))) as [H _].
  destruct (wp_elim _ _ _ (H (mkC (trim s) [] 0) ltac:(unfold enough, cond_fuel; cbn; lia)))
    as (v & st & -> & _). by repeat case_match.
Qed.

Lemma trim_ends s c : is_blank c = false -> trim (s ++ [c]) = drop_while is_blank (s ++ [c]).
Proof.
  intros Hc. unfold trim.
  assert (exists s', drop_while is_blank (s ++ [c]) = s' ++ [c]) as [s' ->].
  { induction s as [|d s [s' IH]]; cbn [app]; rewrite drop_while_cons.
    - rewrite Hc. by exists [].
    - rewrite IH. destruct (is_blank d); [by exists s'|by exists (d :: s)]. }
  rewrite rev_app_distr. cbn [rev app]. rewrite drop_while_cons, Hc. cbn [rev]. by rewrite rev_involutive.
Qed.

Lemma last_char (P : char -> bool) s : is_empty s = false -> forallb P s = true ->
  exists s' c, s = s' ++ [c] /\ P c = true.
Proof.
  intros Hne H. destruct s as [|d s] using rev_ind; [done|]. exists s, d. split; [done|].
  rewrite forallb_app in H. apply andb_true_iff in H as [_ H]. cbn in H. by rewrite andb_true_r in H.
Qed.

Lemma print_ends ws ns x : cx_ok x = true -> forall p, exists s c,
  print ws ns p x = s ++ [c] /\ is_blank c = false.
Proof.
  assert (forall T, exists s c, parens ws T = s ++ [c] /\ is_blank c = false) as Hpar.
  { intros T. exists (ws ++ txt "(" ++ T ++ ws), (")"%char). unfold parens. by rewrite <- !app_assoc. }
  assert (forall u v, (exists s c, v = s ++ [c] /\ is_blank c = false) ->
    exists s c, u ++ v = s ++ [c] /\ is_blank c = false) as Happ.
  { intros u v (s & c & -> & H). exists (u ++ s), c. by rewrite app_assoc. }
  induction x as [d|nm|x IH|x IH|x IH|o x IHx y IHy]; cbn [cx_ok]; intros Hok p; cbn [print];
    destruct (_ <? p)%nat; try apply Hpar; repeat apply Happ; auto.
  - apply andb_true_iff in Hok as [Hne Hd].
    destruct (last_char _ d (proj1 (negb_true_iff _) Hne) Hd) as (s & c & -> & Hc%digit_word%word_not_blank).
    by exists s, c.
  - apply andb_true_iff in Hok as [Hne Hd]. assert (is_empty nm = false) as He by by destruct nm.
    destruct (last_char _ nm He Hd) as (s & c & -> & Hc%word_not_blank). by exists s, c.
  - apply andb_true_iff in Hok as [_ Hy]. apply (IHy Hy).
Qed.


