(* ===== verification/PPScan.v ===== *)
(** * Raw text scanning of the preprocessor ([src/preprocessor.cpp])

    The loops that look for the end of a piece of source text: a directive, its
    matching [%END], the [%THEN] of an [%IF], a statement arm, an argument list;
    and the splitting of operand lists.  A position is an offset in the source;
    a loop that starts at offset [i] recurs on the text from [i] on, and counts. *)
From S2P Require Import Prelude PPCond.

(** Space, tab and form feed: what may separate [%] from its word. *)
Definition is_hblank (c : char) : bool := ceqb c " " || ceqb c "009" || ceqb c "012".

(** [source.substr(a, b - a)] *)
Definition range (s : text) (a b : nat) : text := substr s a (b - a).
(** Does the text begin with [c], with [c d]? *)
Definition head_is (c : char) (s : text) : bool := match s with x :: _ => ceqb x c | [] => false end.
Definition head2 (c d : char) (s : text) : bool :=
  match s with x :: y :: _ => ceqb x c && ceqb y d | _ => false end.
Definition not_newline (c : char) : bool := negb (ceqb c newline).

(** The word that starts at or after [i], blanks of the class [P] skipped: the
    offsets of its first character and past its last. *)
Definition word_at (P : char -> bool) (s : text) (i : nat) : nat * nat :=
  let ws := skip_while P s i in (ws, skip_while isWordChar s ws).
Definition word_of (s : text) (w : nat * nat) : text := upper (range s (fst w) (snd w)).

(** The state of the scanners over PL/I text. *)
Inductive mode := Code | Str | Cmt | LineCmt.
#[global] Instance mode_eq_dec : EqDecision mode.
Proof. solve_decision. Defined.

(** ** Ends *)

(** [findDirectiveEnd]: the offset of the [;] that ends a directive. *)
Fixpoint directive_end (quoted : bool) (s : text) (i : nat) : option nat :=
  match s with
  | [] => None
  | c :: s' =>
      if ceqb c squote && quoted && head_is squote s' then
        match s' with _ :: s'' => directive_end quoted s'' (2 + i) | [] => None end
      else if ceqb c squote then directive_end (negb quoted) s' (S i)
      else if ceqb c ";" && negb quoted then Some i
      else directive_end quoted s' (S i)
  end.
Definition findDirectiveEnd (source : text) (start : nat) : option nat :=
  directive_end false (drop start source) start.

(** One step of a scanner that tracks strings and comments: the characters it
    passes over and the state after them, or [None] where the scanner's own code
    takes over (a [%] or an ordinary character outside strings and comments). *)
Definition inert_step (m : mode) (s : text) : option (nat * mode) :=
  match m, s with
  | LineCmt, c :: _ => Some (1%nat, if ceqb c newline then Code else LineCmt)
  | Cmt, _ => if head2 "*" "/" s then Some (2%nat, Code) else Some (1%nat, Cmt)
  | Str, c :: _ =>
      if head2 squote squote s then Some (2%nat, Str)
      else Some (1%nat, if ceqb c squote then Code else Str)
  | Code, c :: _ =>
      if head2 "/" "*" s then Some (2%nat, Cmt)
      else if head2 "/" "/" s then Some (prefix_len not_newline s, Code)
      else if ceqb c squote then Some (1%nat, Str)
      else None
  | _, [] => None
  end.

(** [findMatchingEnd]: the offsets of the matching [%END] and of its [;], or the
    message.  [skip] characters are passed over before the next step. *)
Fixpoint matching_end (skip depth : nat) (m : mode) (s : text) (i : nat) : (nat * nat) + text :=
  match s with
  | [] => inr (txt "unterminated %DO (C28-6571-3 Ch.9)")
  | c :: s' =>
      match skip with
      | S k => matching_end k depth m s' (S i)
      | O =>
          match inert_step m s with
          | Some (n, m') => matching_end (pred n) depth m' s' (S i)
          | None =>
              if ceqb c "%" then
                let w := word_at is_hblank s 1 in
                let name := word_of s w in
                let past := findDirectiveEnd s (snd w) in
                if text_eqb name (txt "DO") then
                  match past with
                  | Some e => matching_end e (S depth) m s' (S i)
                  | None => inr (txt "unterminated %DO (C28-6571-3 Ch.9)")
                  end
                else if text_eqb name (txt "END") then
                  match past with
                  | Some e => if (depth =? 1)%nat then inl (i, i + e)%nat
                              else matching_end e (pred depth) m s' (S i)
                  | None => inr (txt "unterminated %END (C28-6571-3 Ch.9)")
                  end
                else
                  match past with
                  | Some e => matching_end e depth m s' (S i)
                  | None => inr (txt "unterminated preprocessor directive")
                  end
              else matching_end 0 depth m s' (S i)
          end
      end
  end.

(** [collectLabels]: the labels of a text, in order, each with its target. *)
Fixpoint labels_from (skip : nat) (m : mode) (s : text) (i : nat) : list (text * nat) :=
  match s with
  | [] => []
  | c :: s' =>
      match skip with
      | S k => labels_from k m s' (S i)
      | O =>
          match inert_step m s with
          | Some (n, m') => labels_from (pred n) m' s' (S i)
          | None =>
              if ceqb c "%" then
                let w := word_at is_hblank s 1 in
                let chk := skip_while is_hblank s (snd w) in
                if head_is ":" (drop chk s) then
                  let target := skip_while is_blank s (S chk) in
                  (word_of s w, i + target)%nat :: labels_from (pred target) m s' (S i)
                else labels_from (pred (snd w)) m s' (S i)
              else labels_from 0 m s' (S i)
          end
      end
  end.

(** A step of [processIf]'s and [processDirective]'s loops over a statement arm
    and an argument list; there a line comment ends past its newline. *)
Definition arm_step (m : mode) (s : text) : option (nat * mode) :=
  match m with
  | Code => if head2 "/" "/" s then Some (2%nat, LineCmt) else inert_step Code s
  | _ => inert_step m s
  end.

(** The characters of a statement arm, its [;] included. *)
Fixpoint arm_len (skip : nat) (m : mode) (s : text) : nat :=
  match s with
  | [] => 0
  | c :: s' =>
      match skip with
      | S k => S (arm_len k m s')
      | O =>
          match arm_step m s with
          | Some (n, m') => S (arm_len (pred n) m' s')
          | None => if ceqb c ";" then 1 else S (arm_len 0 m s')
          end
      end
  end.

(** The characters of an argument list up to and with the closing parenthesis,
    [None] when it is not closed. *)
Fixpoint args_len (skip depth : nat) (m : mode) (s : text) : option nat :=
  match s with
  | [] => None
  | c :: s' =>
      S <$>
      match skip with
      | S k => args_len k depth m s'
      | O =>
          match arm_step m s with
          | Some (n, m') => args_len (pred n) depth m' s'
          | None =>
              if ceqb c "(" then args_len 0 (S depth) m s'
              else if ceqb c ")" then
                if (depth =? 1)%nat then Some 0%nat else args_len 0 (pred depth) m s'
              else args_len 0 depth m s'
          end
      end
  end.

(** ** The [%THEN] of an [%IF] *)

(** A comment from past its [/*] on. *)
Fixpoint comment_len (s : text) : nat :=
  match s with
  | c :: ((_ :: _) as s') => if head2 "*" "/" s then 2 else S (comment_len s')
  | _ => 2
  end.
(** A string from past its quote on. *)
Fixpoint string_len (s : text) : nat :=
  match s with
  | [] => 1
  | c :: s' =>
      if ceqb c squote then
        match s' with
        | d :: s'' => if ceqb d squote then 2 + string_len s'' else 1
        | [] => 1
        end
      else S (string_len s')
  end.
(** The arguments of an invocation inside the expression.  A quote that is not
    doubled enters the inner loop; the quote that ends the inner loop is read
    again by the outer one, which enters the inner loop again. *)
Fixpoint paren_len (inner : bool) (depth : nat) (s : text) : nat :=
  match s with
  | [] => 0
  | c :: s' =>
      if ceqb c squote then
        match s' with
        | d :: s'' => if ceqb d squote then 2 + paren_len inner depth s'' else S (paren_len true depth s')
        | [] => 1
        end
      else if inner then S (paren_len true depth s')
      else if ceqb c "(" then S (paren_len false (S depth) s')
      else if ceqb c ")" then if (depth =? 1)%nat then 1 else S (paren_len false (pred depth) s')
      else S (paren_len false depth s')
  end.

(** The offset of the [%] of [%THEN]. *)
Fixpoint find_then (skip : nat) (s : text) (i : nat) : option nat :=
  match s with
  | [] => None
  | c :: s' =>
      match skip with
      | S k => find_then k s' (S i)
      | O =>
          if head2 "/" "*" s then find_then (S (comment_len (drop 2 s))) s' (S i)
          else if head2 "/" "/" s then find_then (pred (prefix_len not_newline s)) s' (S i)
          else if ceqb c squote then find_then (string_len s') s' (S i)
          else if ceqb c "%" then
            let w := word_at is_hblank s 1 in
            if text_eqb (word_of s w) (txt "THEN") then Some i
            else
              let after := skip_while is_hblank s (snd w) in
              if head_is "(" (drop after s) then
                find_then (after + paren_len false 1 (drop (S after) s)) s' (S i)
              else None
          else if ceqb c ";" then None
          else find_then 0 s' (S i)
      end
  end.

(** ** Splitting *)

(** [std::getline(ss, item, ',')] until it fails: no item after a final comma. *)
Fixpoint split_on (d : char) (cur s : text) : list text :=
  match s with
  | [] => [cur]
  | c :: s' => if ceqb c d then cur :: split_on d [] s' else split_on d (cur ++ [c]) s'
  end.
Fixpoint drop_last_empty (l : list text) : list text :=
  match l with
  | [] => []
  | [x] => if is_empty x then [] else [x]
  | x :: l' => x :: drop_last_empty l'
  end.
Definition getline_items (s : text) : list text := drop_last_empty (split_on "," [] s).

(** The items of an [%XINCLUDE]: commas outside quotes and parentheses. *)
Fixpoint xinclude_items (quoted : bool) (depth : nat) (cur s : text) : list text :=
  match s with
  | [] => [cur]
  | c :: s' =>
      if ceqb c squote then
        match s' with
        | d :: s'' =>
            if quoted && ceqb d squote then xinclude_items quoted depth (cur ++ [squote; squote]) s''
            else xinclude_items (negb quoted) depth (cur ++ [c]) s'
        | [] => [cur ++ [c]]
        end
      else if quoted then xinclude_items quoted depth (cur ++ [c]) s'
      else if ceqb c "(" then xinclude_items quoted (S depth) (cur ++ [c]) s'
      else if ceqb c ")" && (0 <? depth)%nat then xinclude_items quoted (pred depth) (cur ++ [c]) s'
      else if ceqb c "," && (depth =? 0)%nat then cur :: xinclude_items quoted depth [] s'
      else xinclude_items quoted depth (cur ++ [c]) s'
  end.

(** The arguments of an invocation: commas outside strings and parentheses.  The
    depth is an [int] and may go below zero. *)
Fixpoint split_args (instr : bool) (depth : Z) (cur s : text) : list text :=
  match s with
  | [] => [cur]
  | c :: s' =>
      let next := cur ++ [c] in
      if instr then
        if ceqb c squote then
          match s' with
          | d :: s'' => if ceqb d squote then split_args instr depth (next ++ [d]) s'' else split_args false depth next s'
          | [] => [next]
          end
        else split_args instr depth next s'
      else if ceqb c squote then split_args true depth next s'
      else if ceqb c "(" then split_args instr (depth + 1) next s'
      else if ceqb c ")" then split_args instr (depth - 1) next s'
      else if ceqb c "," && (depth =? 0) then cur :: split_args instr depth [] s'
      else split_args instr depth next s'
  end.

(** The non-empty names of a parameter list, in upper case. *)
Definition param_names (s : text) : list text :=
  filter (fun p => is_empty p = false) ((fun p => upper (trim p)) <$> split_on "," [] s).

(** ** Searching for words *)
Definition starts_with (w s : text) : bool := text_eqb (take (length w) s) w.
(** The first offset at which [w] stands as a whole word ([ok] judges the
    characters around it). *)
Fixpoint whole_word (lok rok : char -> bool) (w : text) (prev : option char) (s : text) : option nat :=
  if starts_with w s && match prev with Some c => lok c | None => true end
     && match drop (length w) s with c :: _ => rok c | [] => true end then Some 0%nat
  else match s with [] => None | c :: s' => S <$> whole_word lok rok w (Some c) s' end.
Definition find_word (w s : text) : option nat :=
  whole_word (fun c => negb (isWordChar c)) (fun c => negb (isWordChar c)) w None s.
(** [VALUE] in a [%DECLARE] item. *)
Definition find_value (s : text) : option nat :=
  whole_word (fun c => ceqb c " " || ceqb c "009")
    (fun c => ceqb c " " || ceqb c "009" || ceqb c "(") (txt "VALUE") None s.
(** [s.find(w)] *)
Definition find_text (w s : text) : option nat := whole_word (fun _ => true) (fun _ => true) w None s.

(** The end of a parenthesised group from past its [(] on: the offset of the
    matching [)], the length when there is none. *)
Fixpoint group_len (depth : nat) (s : text) : nat :=
  match s with
  | [] => 0
  | c :: s' =>
      if ceqb c "(" then S (group_len (S depth) s')
      else if ceqb c ")" then if (depth =? 1)%nat then 0 else S (group_len (pred depth) s')
      else S (group_len depth s')
  end.

(** ** Paths ([std::filesystem], POSIX, lexical) *)
Definition slash : char := "/"%char.
(** Past the last character of [s] that fails [P]. *)
Definition last_part (P : char -> bool) (s : text) : text := rev (take (prefix_len P (rev s)) (rev s)).
Definition filename (p : text) : text := last_part (fun c => negb (ceqb c slash)) p.
Definition all_slashes (s : text) : bool := forallb (fun c => ceqb c slash) s.
(** [p.parent_path()] *)
Definition parent_path (p : text) : text :=
  let dir := take (length p - length (filename p)) p in
  if all_slashes dir then if is_empty (filename p) then p else take 1 dir
  else rev (drop (prefix_len (fun c => ceqb c slash) (rev dir)) (rev dir)).
(** [p / q] *)
Definition join (p q : text) : text :=
  if head_is slash q then q
  else if is_empty (filename p) then p ++ q else p ++ [slash] ++ q.
(** [p.extension().empty()] *)
Definition no_extension (p : text) : bool :=
  let f := filename p in
  if text_eqb f (txt ".") || text_eqb f (txt "..") then true
  else match f with
       | [] => true
       | _ :: f' => forallb (fun c => negb (ceqb c ".")) f'
       end.
