(* ===== verification/Preproc.v ===== *)
(** * The preprocessor ([src/preprocessor.cpp], [src/preprocessor.h])

    The class [Preprocessor]: inclusion, preprocessor variables, [%IF], [%DO],
    [%GOTO], [%REPLACE] and compile-time procedures, and the line map that ties
    the flat output back to its files.  An operation is a function of the state;
    the inner [None] is the [false] or [npos] it returns after diagnosing.  The
    outer [None] means that the fuel ran out ([%GOTO] and macros can loop) or
    that C++ gives the execution no meaning.

    What the files hold and how paths are made canonical comes from the file
    system and is a parameter ([Host]).  The output, line and column that the
    code passes by reference are a cursor that is passed and returned. *)
From S2P Require Import Prelude Monad Diag PPCond PPScan.

(** ** The state *)
Record PPProc := mkProc { name : text; params : list text; returns : text; body : text }.

(** [calling_] is not in the code: the procedures whose body is being scanned,
    which scan it by reference. *)
Record pp := mkPP {
  active_ : list text;
  included_ : gset text;
  ppVars_ : gmap text Z;
  ppActive_ : gset text;
  replacements_ : gmap text text;
  replacing_ : gset text;
  labels_ : gmap text nat;
  gotoTarget_ : nat;
  scanDepth_ : Z;
  procTable_ : gmap text PPProc;
  calling_ : gset text;
  procResult_ : Z;
  procReturning_ : bool;
  lineMap_ : list FileLoc;
  fileSrc_ : gmap text text;
  cerr_ : text }.

Definition set_active_ (x : list text) (st : pp) : pp := mkPP x (included_ st) (ppVars_ st) (ppActive_ st)
  (replacements_ st) (replacing_ st) (labels_ st) (gotoTarget_ st) (scanDepth_ st) (procTable_ st) (calling_
  st) (procResult_ st) (procReturning_ st) (lineMap_ st) (fileSrc_ st) (cerr_ st).
Definition set_included_ (x : gset text) (st : pp) : pp := mkPP (active_ st) x (ppVars_ st) (ppActive_ st)
  (replacements_ st) (replacing_ st) (labels_ st) (gotoTarget_ st) (scanDepth_ st) (procTable_ st) (calling_
  st) (procResult_ st) (procReturning_ st) (lineMap_ st) (fileSrc_ st) (cerr_ st).
Definition set_ppVars_ (x : gmap text Z) (st : pp) : pp := mkPP (active_ st) (included_ st) x (ppActive_ st)
  (replacements_ st) (replacing_ st) (labels_ st) (gotoTarget_ st) (scanDepth_ st) (procTable_ st) (calling_
  st) (procResult_ st) (procReturning_ st) (lineMap_ st) (fileSrc_ st) (cerr_ st).
Definition set_ppActive_ (x : gset text) (st : pp) : pp := mkPP (active_ st) (included_ st) (ppVars_ st) x
  (replacements_ st) (replacing_ st) (labels_ st) (gotoTarget_ st) (scanDepth_ st) (procTable_ st) (calling_
  st) (procResult_ st) (procReturning_ st) (lineMap_ st) (fileSrc_ st) (cerr_ st).
Definition set_replacements_ (x : gmap text text) (st : pp) : pp := mkPP (active_ st) (included_ st)
  (ppVars_ st) (ppActive_ st) x (replacing_ st) (labels_ st) (gotoTarget_ st) (scanDepth_ st) (procTable_
  st) (calling_ st) (procResult_ st) (procReturning_ st) (lineMap_ st) (fileSrc_ st) (cerr_ st).
Definition set_replacing_ (x : gset text) (st : pp) : pp := mkPP (active_ st) (included_ st) (ppVars_ st)
  (ppActive_ st) (replacements_ st) x (labels_ st) (gotoTarget_ st) (scanDepth_ st) (procTable_ st)
  (calling_ st) (procResult_ st) (procReturning_ st) (lineMap_ st) (fileSrc_ st) (cerr_ st).
Definition set_labels_ (x : gmap text nat) (st : pp) : pp := mkPP (active_ st) (included_ st) (ppVars_ st)
  (ppActive_ st) (replacements_ st) (replacing_ st) x (gotoTarget_ st) (scanDepth_ st) (procTable_ st)
  (calling_ st) (procResult_ st) (procReturning_ st) (lineMap_ st) (fileSrc_ st) (cerr_ st).
Definition set_gotoTarget_ (x : nat) (st : pp) : pp := mkPP (active_ st) (included_ st) (ppVars_ st)
  (ppActive_ st) (replacements_ st) (replacing_ st) (labels_ st) x (scanDepth_ st) (procTable_ st) (calling_
  st) (procResult_ st) (procReturning_ st) (lineMap_ st) (fileSrc_ st) (cerr_ st).
Definition set_scanDepth_ (x : Z) (st : pp) : pp := mkPP (active_ st) (included_ st) (ppVars_ st) (ppActive_
  st) (replacements_ st) (replacing_ st) (labels_ st) (gotoTarget_ st) x (procTable_ st) (calling_ st)
  (procResult_ st) (procReturning_ st) (lineMap_ st) (fileSrc_ st) (cerr_ st).
Definition set_procTable_ (x : gmap text PPProc) (st : pp) : pp := mkPP (active_ st) (included_ st) (ppVars_
  st) (ppActive_ st) (replacements_ st) (replacing_ st) (labels_ st) (gotoTarget_ st) (scanDepth_ st) x
  (calling_ st) (procResult_ st) (procReturning_ st) (lineMap_ st) (fileSrc_ st) (cerr_ st).
Definition set_calling_ (x : gset text) (st : pp) : pp := mkPP (active_ st) (included_ st) (ppVars_ st)
  (ppActive_ st) (replacements_ st) (replacing_ st) (labels_ st) (gotoTarget_ st) (scanDepth_ st)
  (procTable_ st) x (procResult_ st) (procReturning_ st) (lineMap_ st) (fileSrc_ st) (cerr_ st).
Definition set_procResult_ (x : Z) (st : pp) : pp := mkPP (active_ st) (included_ st) (ppVars_ st)
  (ppActive_ st) (replacements_ st) (replacing_ st) (labels_ st) (gotoTarget_ st) (scanDepth_ st)
  (procTable_ st) (calling_ st) x (procReturning_ st) (lineMap_ st) (fileSrc_ st) (cerr_ st).
Definition set_procReturning_ (x : bool) (st : pp) : pp := mkPP (active_ st) (included_ st) (ppVars_ st)
  (ppActive_ st) (replacements_ st) (replacing_ st) (labels_ st) (gotoTarget_ st) (scanDepth_ st)
  (procTable_ st) (calling_ st) (procResult_ st) x (lineMap_ st) (fileSrc_ st) (cerr_ st).
Definition set_lineMap_ (x : list FileLoc) (st : pp) : pp := mkPP (active_ st) (included_ st) (ppVars_ st)
  (ppActive_ st) (replacements_ st) (replacing_ st) (labels_ st) (gotoTarget_ st) (scanDepth_ st)
  (procTable_ st) (calling_ st) (procResult_ st) (procReturning_ st) x (fileSrc_ st) (cerr_ st).
Definition set_fileSrc_ (x : gmap text text) (st : pp) : pp := mkPP (active_ st) (included_ st) (ppVars_ st)
  (ppActive_ st) (replacements_ st) (replacing_ st) (labels_ st) (gotoTarget_ st) (scanDepth_ st)
  (procTable_ st) (calling_ st) (procResult_ st) (procReturning_ st) (lineMap_ st) x (cerr_ st).
Definition set_cerr_ (x : text) (st : pp) : pp := mkPP (active_ st) (included_ st) (ppVars_ st) (ppActive_
  st) (replacements_ st) (replacing_ st) (labels_ st) (gotoTarget_ st) (scanDepth_ st) (procTable_ st)
  (calling_ st) (procResult_ st) (procReturning_ st) (lineMap_ st) (fileSrc_ st) x.

Definition initial : pp := mkPP [] ∅ ∅ ∅ ∅ ∅ ∅ 0 0 ∅ ∅ 0 false [] ∅ [].

(** The cursor: [output], [line] and [col]. *)
Record cursor := mkCur { output : text; cline : Z; ccol : Z }.

Definition P (A : Type) : Type := ST pp (option A).
Definition ok {A} (x : A) : P A := ret (Some x).
Definition undefined {A} : P A := out_of_fuel.
Definition bindP {A B} (m : P A) (f : A -> P B) : P B :=
  bind m (fun o => match o with Some x => f x | None => ret None end).
Notation "'do*' x := m 'in' k" := (bindP m (fun x => k))
  (at level 10, x pattern, m at level 100, k at level 200) : pli_scope.

(** A skipped directive has no effect. *)
Definition if_active {A} (active : bool) (m : P A) (skipped : A) : P A := if active then m else ok skipped.

(** ** Diagnostics and output *)
Definition error {A} (input : text) (line col : Z) (message : text) : P A := fun st =>
  Some (None, set_cerr_ (cerr_ st ++ input
    ++ (if 0 <? line then txt ":" ++ to_string line ++ txt ":" ++ to_string col else [])
    ++ txt ": error: " ++ message ++ txt "  [C28-6571-3 Chapter 9]" ++ [newline]) st).

(** Walk over a text: every newline gets its entry of the line map; the
    characters that [keep] admits reach the output. *)
Fixpoint walk (keep : char -> bool) (path s : text) (cur : cursor) : ST pp cursor :=
  match s with
  | [] => ret cur
  | c :: s' =>
      let out := if keep c then output cur ++ [c] else output cur in
      if ceqb c newline then
        modify (fun st => set_lineMap_ (lineMap_ st ++ [mkFileLoc path (cline cur)]) st);;
        walk keep path s' (mkCur out (cline cur + 1) 1)
      else walk keep path s' (mkCur out (cline cur) (ccol cur + 1))
  end.
Definition emit (path s : text) (cur : cursor) : ST pp cursor := walk (fun _ => true) path s cur.
(** The loops that keep only the newlines of a directive's own text. *)
Definition keep_newlines (path s : text) (cur : cursor) : ST pp cursor :=
  walk (fun c => ceqb c newline) path s cur.

Definition add_out (s : text) (cur : cursor) : cursor := mkCur (output cur ++ s) (cline cur) (ccol cur).

(** ** Operations that scan no source *)
Definition evalCondExpr (s path : text) (line col : Z) : P Z :=
  let* vars := get ppVars_ in
  match cond_value vars s with
  | None => undefined
  | Some (inl v) => ok v
  | Some (inr msg) => error path line col msg
  end.

(** One item of a [%DECLARE]: its name and the value it starts with. *)
Definition declare_value (input item : text) (line col : Z) : P (text * Z) :=
  match find_value item with
  | None => ok (item, 0)
  | Some valuePos =>
      let before := trim (take valuePos item) in
      let after := trim (drop (valuePos + 5) item) in
      if is_empty before then error input line col (txt "expected a name before VALUE in %DECLARE")
      else
        match after with
        | c :: r =>
            if ceqb c "(" then
              let k := group_len 1 r in
              if (k <? length r)%nat then
                do* v := evalCondExpr (take k r) input line col in ok (upper before, v)
              else error input line col (txt "unterminated VALUE expression in %DECLARE")
            else error input line col (txt "expected '(' after VALUE in %DECLARE")
        | [] => error input line col (txt "expected '(' after VALUE in %DECLARE")
        end
  end.

Definition declare_item (input item : text) (line col : Z) : P unit :=
  do* d := declare_value input (upper (trim item)) line col in
  let '(name, v) := d in
  if is_empty name then error input line col (txt "expected a name in %DECLARE")
  else if text_eqb name (txt "CHARACTER") then
    error input line col (txt "CHARACTER preprocessor variables are not implemented")
  else if negb (forallb isWordChar name) then error input line col (txt "expected a name in %DECLARE")
  else
    modify (fun st => match ppVars_ st !! name with
                      | Some _ => st
                      | None => set_ppVars_ (<[name := v]> (ppVars_ st)) st
                      end);;
    ok tt.

(** Run [f] on every item, stopping at the first failure. *)
Fixpoint each {A} (f : A -> P unit) (l : list A) : P unit :=
  match l with [] => ok tt | x :: l' => do* _ := f x in each f l' end.

Definition handleDeclare (input operand : text) (line col : Z) : P unit :=
  match getline_items operand with
  | [] => error input line col (txt "expected a name in %DECLARE")
  | items => each (fun item => declare_item input item line col) items
  end.

Definition handleAssignment (input name operand : text) (line col : Z) : P unit :=
  let rest := trim operand in
  if negb (head_is "=" rest) then
    error input line col (txt "expected = after %" ++ name ++ txt " (only assignment is implemented)")
  else
    let* vars := get ppVars_ in
    match vars !! name with
    | None => error input line col (txt "%" ++ name ++ txt " is not a declared preprocessor variable")
    | Some _ =>
        do* value := evalCondExpr (drop 1 rest) input line col in
        modify (fun st => set_ppVars_ (<[name := value]> (ppVars_ st)) st);; ok tt
    end.

Definition activate_item (input name item : text) (line col : Z) : P unit :=
  let var := upper (trim item) in
  if is_empty var then error input line col (txt "expected a name in %" ++ name)
  else
    let* vars := get ppVars_ in
    match vars !! var with
    | None => error input line col (txt "%" ++ var ++ txt " is not a declared preprocessor variable")
    | Some _ =>
        modify (fun st => if text_eqb name (txt "ACTIVATE") then set_ppActive_ ({[var]} ∪ ppActive_ st) st
                          else set_ppActive_ (ppActive_ st ∖ {[var]}) st);;
        ok tt
    end.
Definition handleActivation (input name operand : text) (line col : Z) : P unit :=
  match getline_items operand with
  | [] => error input line col (txt "expected a name in %" ++ name)
  | items => each (fun item => activate_item input name item line col) items
  end.

(** The line and column past a text. *)
Fixpoint advance (s : text) (line col : Z) : Z * Z :=
  match s with
  | [] => (line, col)
  | c :: s' => if ceqb c newline then advance s' (line + 1) 1 else advance s' line (col + 1)
  end.

(** A quoted operand from past its quote on: the body and the text after it. *)
Fixpoint quoted_body (acc s : text) : option (text * text) :=
  match s with
  | [] => None
  | c :: s' =>
      if ceqb c dquote then
        match s' with
        | d :: s'' => if ceqb d dquote then quoted_body (acc ++ [dquote]) s'' else Some (acc, s')
        | [] => Some (acc, [])
        end
      else quoted_body (acc ++ [c]) s'
  end.
Definition rstrip (s : text) : text := rev (drop_while is_space (rev s)).

(** A replacement that is being expanded is scanned by reference: the code has
    no defined behaviour when it is redefined meanwhile. *)
Definition set_replacement (name body : text) : P unit :=
  let* busy := get replacing_ in
  if decide (name ∈ busy) then undefined
  else modify (fun st => set_replacements_ (<[name := body]> (replacements_ st)) st);; ok tt.

Definition handleReplace (path source : text) (i wordEnd end_ : nat) (dline dcol : Z) : P unit :=
  let s := take end_ source in
  let nameStart := skip_while is_blank s wordEnd in
  if negb match s !! nameStart with Some c => isWordStart c | None => false end then
    error path dline dcol (txt "expected an identifier after %REPLACE (ADR-077)")
  else
    let p := skip_while isWordChar s nameStart in
    let name := upper (range s nameStart p) in
    let '(nline, ncol) := advance (range source i nameStart) dline dcol in
    let by_ := word_at is_blank s p in
    if negb (text_eqb (word_of s by_) (txt "BY")) then
      error path nline ncol (txt "expected BY after the %REPLACE identifier (ADR-077)")
    else
      let body := rstrip (drop (skip_while is_blank s (snd by_)) s) in
      match body with
      | [] => error path nline ncol (txt "empty replacement text in %REPLACE (ADR-077)")
      | c :: r =>
          if ceqb c dquote then
            match quoted_body [] r with
            | None => error path nline ncol (txt "unterminated double-quoted string")
            | Some (inner, after) =>
                if negb (forallb is_space after) then
                  error path nline ncol
                    (txt "a quoted %REPLACE operand must be the whole replacement text (ADR-082)")
                else if is_empty (trim inner) then
                  error path nline ncol (txt "empty replacement text in %REPLACE (ADR-077)")
                else set_replacement name (trim inner)
            end
          else if existsb (fun c => ceqb c dquote) body then
            error path nline ncol
              (txt "a quoted %REPLACE operand must be the whole replacement text (ADR-082)")
          else set_replacement name body
      end.

Definition substituteRef (input name : text) (line col : Z) (cur : cursor) : P cursor :=
  let* vars := get ppVars_ in
  match vars !! name with
  | None => error input line col (txt "%" ++ name ++ txt " is not a declared preprocessor variable")
  | Some v =>
      let* act := get ppActive_ in
      if decide (name ∈ act) then ok (add_out (to_string v) cur)
      else error input line col (txt "%" ++ name ++ txt " is not an active preprocessor variable")
  end.

Definition handleGoto (path name operand : text) (line col : Z) : P nat :=
  let label := upper (trim operand) in
  if is_empty label then error path line col (txt "%" ++ name ++ txt " requires a label name")
  else
    let* labels := get labels_ in
    match labels !! label with
    | None => error path line col (txt "undefined label in %" ++ name ++ txt ": '" ++ trim operand ++ txt "'")
    | Some target => modify (set_gotoTarget_ target);; ok target
    end.

(** The parenthesised group at [pos], if there is one, and the offset past it. *)
Definition group_at (s : text) (pos : nat) : text * nat :=
  if head_is "(" (drop pos s) then
    let k := group_len 1 (drop (S pos) s) in (substr s (S pos) k, pos + k + 2)%nat
  else ([], pos).

(** A procedure's header: its parameters and what it returns. *)
Definition parse_header (decl : text) : list text * text :=
  let up := upper (trim decl) in
  let pos := skip_while is_blank up (skip_while isWordChar up 0) in
  let '(paramsStr, pos) := group_at up pos in
  let pos := skip_while is_blank up pos in
  let returnsStr :=
    match find_text (txt "RETURNS") (drop pos up) with
    | Some k => fst (group_at up (skip_while is_blank up (pos + k + 7)))
    | None => []
    end in
  (param_names (trim paramsStr), upper (trim returnsStr)).

Definition handleDefinition (path labelName decl body : text) (dline dcol : Z) : P unit :=
  let '(ps, rets) := parse_header decl in
  let procName := upper labelName in
  let* vars := get ppVars_ in
  match vars !! procName with
  | Some _ => error path dline dcol (txt "%" ++ procName ++ txt " conflicts with a preprocessor variable")
  | None =>
      let* busy := get calling_ in
      if decide (procName ∈ busy) then undefined
      else
        modify (fun st => set_procTable_ (<[procName := mkProc procName ps rets body]> (procTable_ st)) st);;
        ok tt
  end.

(** [collectLabels]: later definitions win. *)
Definition collectLabels (source : text) (st : pp) : pp :=
  set_labels_ (fold_left (fun m l => <[fst l := snd l]> m) (labels_from 0 Code source 0) (labels_ st)) st.

(** ** The file system *)
Record Host := mkHost {
  normalized : text -> text;       (* the canonical spelling of a path *)
  exists_ : text -> bool;
  contents : text -> option text }.

(** What the mutual recursion calls: a scan of [source] from [start] to [end], and
    one directive. *)
Definition scan_t : Type := text -> nat -> nat -> text -> bool -> cursor -> P cursor.
Definition directive_t : Type := text -> text -> nat -> bool -> cursor -> P (cursor * nat * nat).

Section Preprocessor.
Context (host : Host) (includeDirs_ : list text).

(** ** The handlers, given the scan and the directives they call back *)
Section Handlers.
Context (scan : scan_t) (processDirective : directive_t).

(** Scan a text of its own, from the position of a directive; its output. *)
Definition rescan (s path : text) (line col : Z) : P text :=
  do* cur := scan s 0%nat (length s) path true (mkCur [] line col) in ok (output cur).

Definition expand (input : text) (out : text) : P text :=
  let path := normalized host input in
  let* act := get active_ in
  if decide (path ∈ act) then error input 0 0 (txt "recursive %INCLUDE of '" ++ path ++ txt "'")
  else
    match contents host path with
    | None => error input 0 0 (txt "cannot open included source '" ++ path ++ txt "'")
    | Some source =>
        let* savedLabels := get labels_ in
        modify (fun st => set_active_ (active_ st ++ [path]) st);;
        modify (fun st => set_fileSrc_ (<[path := source]> (fileSrc_ st)) st);;
        modify (fun st => collectLabels source (set_labels_ ∅ st));;
        modify (set_gotoTarget_ 0);;
        let* result := scan source 0%nat (length source) path true (mkCur out 1 1) in
        modify (set_labels_ savedLabels);;
        modify (fun st => set_active_ (removelast (active_ st)) st);;
        ret (output <$> result)
    end.

(** The name inside the parentheses or quotes of an operand. *)
Definition include_name (rawName : text) : text :=
  let name := trim rawName in
  let unwrap l r strip s :=
    if head_is l s && head_is r (rev s) && (2 <=? length s)%nat
    then strip (substr s 1 (length s - 2)) else s in
  unwrap squote squote (fun s => s) (unwrap "("%char ")"%char trim name).
Definition with_inc (p : text) : text :=
  if negb (exists_ host p) && no_extension p then p ++ txt ".inc" else p.
Definition find_include (input name : text) : text :=
  let first := with_inc (join (parent_path input) name) in
  if exists_ host first then first
  else default first (list_find (fun p => exists_ host p = true)
                        ((fun dir => with_inc (join dir name)) <$> includeDirs_) ≫= (fun r => Some (snd r))).

Definition expandOneInclude (input rawName : text) (line col : Z) (once : bool) (out : text) : P text :=
  let name := include_name rawName in
  if is_empty name || existsb (fun c => existsb (ceqb c) [" "; "009"; "013"; "010"; ","; "("; ")"]%char) name then
    error input line col (if once then txt "%XINCLUDE requires file or member names"
                          else txt "%INCLUDE requires one file or member name")
  else
    let include := find_include input name in
    if exists_ host include then
      let canon := normalized host include in
      let* act := get active_ in
      let* inc := get included_ in
      if once && (bool_decide (canon ∈ inc) || bool_decide (canon ∈ act)) then ok out
      else modify (fun st => set_included_ ({[canon]} ∪ included_ st) st);; expand include out
    else expand include out.

Definition handleInclude (input operand : text) (line col : Z) (out : text) : P text :=
  let name := trim operand in
  if is_empty name then error input line col (txt "%INCLUDE requires one file or member name")
  else expandOneInclude input name line col false out.

Fixpoint include_items (input : text) (items : list text) (line col : Z) (out : text) : P text :=
  match items with
  | [] => ok out
  | item :: items => do* out := expandOneInclude input item line col true out in include_items input items line col out
  end.
Definition handleXInclude (input operand : text) (line col : Z) (out : text) : P text :=
  let items := xinclude_items false 0 [] operand in
  if existsb (fun item => is_empty (trim item)) items then
    error input line col (txt "%XINCLUDE requires file or member names")
  else include_items input items line col out.

(** The iterations of a [%DO], from [iter] on. *)
Fixpoint doLoop (n : nat) (path source : text) (bodyStart endPos : nat) (active : bool)
    (var : text) (iter e2 e3 : Z) (cur : cursor) : P cursor :=
  match n with
  | O => out_of_fuel
  | S n =>
      if (if 0 <? e3 then iter <=? e2 else e2 <=? iter) then
        modify (fun st => set_ppVars_ (<[var := iter]> (ppVars_ st)) st);;
        do* it := scan source bodyStart endPos path active (mkCur [] (cline cur) (ccol cur)) in
        let* cur := emit path (output it) cur in
        doLoop n path source bodyStart endPos active var (i64 (iter + e3)) e2 e3
          (mkCur (output cur) (cline it) (ccol it))
      else ok cur
  end.

(** The texts of [var = start TO end BY step]. *)
Definition do_spec (spec : text) : text + (text * text * text * text) :=
  let up := upper spec in
  match find_text (txt "=") up with
  | None => inl (txt "expected 'var=start TO end [BY step]' in %DO, or bare %DO with no iteration")
  | Some eq =>
      let rest := trim (drop (S eq) up) in
      match find_word (txt "TO") rest with
      | None => inl (txt "expected TO in %DO iteration spec")
      | Some toPos =>
          let afterTo := trim (drop (toPos + 2) rest) in
          let '(endExpr, stepExpr) :=
            match find_word (txt "BY") afterTo with
            | Some byPos => (trim (take byPos afterTo), trim (drop (byPos + 2) afterTo))
            | None => (afterTo, txt "1")
            end in
          inr (upper (trim (take eq up)), take toPos rest, endExpr, stepExpr)
      end
  end.

Definition handleDo (n : nat) (path source : text) (bodyStart endPos endSemi : nat) (active : bool)
    (spec : text) (dline dcol : Z) (cur : cursor) : P (cursor * nat) :=
  let spec := trim spec in
  if is_empty spec then do* cur := scan source bodyStart endPos path active cur in ok (cur, S endSemi)
  else
    match do_spec spec with
    | inl msg => error path dline dcol msg
    | inr (var, startExpr, endExpr, stepExpr) =>
        do* e1 := evalCondExpr startExpr path dline dcol in
        do* e2 := evalCondExpr endExpr path dline dcol in
        do* e3 := evalCondExpr stepExpr path dline dcol in
        if e3 =? 0 then error path dline dcol (txt "BY step is zero in %DO loop")
        else do* cur := doLoop n path source bodyStart endPos active var e1 e2 e3 cur in ok (cur, S endSemi)
    end.

(** Evaluate the arguments in the caller's context. *)
Fixpoint eval_args (args : list text) (path : text) (line col : Z) : P (list Z) :=
  match args with
  | [] => ok []
  | a :: args =>
      do* v := evalCondExpr a path line col in
      do* vs := eval_args args path line col in ok (v :: vs)
  end.

(** The bindings put back after a call: the parameters' old values and nothing else. *)
Definition saved_vars (ps : list text) (vars : gmap text Z) : gmap text Z :=
  fold_left (fun m p => <[p := default 0 (vars !! p)]> m) ps ∅.
Definition bind_params (ps : list text) (vs : list Z) (vars : gmap text Z) : gmap text Z :=
  fold_left (fun m pv => <[fst pv := snd pv]> m) (zip ps vs) vars.

(** Scan a procedure's body with its parameters bound; the value returned. *)
Definition call_body (path : text) (p : PPProc) (vs : list Z) (line col : Z) : P (option Z) :=
  let* vars := get ppVars_ in
  let* savedReturning := get procReturning_ in
  let* savedResult := get procResult_ in
  let* savedCalling := get calling_ in
  modify (fun st => set_ppVars_ (bind_params (params p) vs vars) st);;
  modify (fun st => set_ppActive_ (list_to_set (params p) ∪ ppActive_ st) st);;
  modify (set_procReturning_ false);;
  modify (set_procResult_ 0);;
  modify (fun st => set_calling_ ({[name p]} ∪ calling_ st) st);;
  let* done := rescan (body p) path line col in
  modify (set_ppActive_ (list_to_set (params p)));;
  modify (set_ppVars_ (saved_vars (params p) vars));;
  modify (set_calling_ savedCalling);;
  let* returning := get procReturning_ in
  let* result := get procResult_ in
  modify (set_procReturning_ savedReturning);;
  match done with
  | None => modify (set_procResult_ savedResult);; ret None
  | Some _ =>
      if returning then ok (Some result) else modify (set_procResult_ savedResult);; ok None
  end.

Definition handleInvocation (path fname args : text) (line col : Z) (cur : cursor) : P cursor :=
  let upperName := upper fname in
  let* table := get procTable_ in
  match table !! upperName with
  | None => error path line col (txt "%" ++ upperName ++ txt " is not a defined preprocessor procedure")
  | Some p =>
      let argList := if is_empty (trim args) then [] else split_args false 0 [] args in
      if negb (length argList =? length (params p))%nat then
        error path line col (txt "%" ++ upperName ++ txt " expects " ++ to_string (Z.of_nat (length (params p)))
          ++ txt " argument(s), got " ++ to_string (Z.of_nat (length argList)))
      else
        do* vs := eval_args argList path line col in
        do* result := call_body path p vs line col in
        match result with
        | None => error path line col (txt "%" ++ upperName ++ txt " did not return a value")
        | Some v =>
            let emitted := if text_eqb (returns p) (txt "CHARACTER")
                           then [squote] ++ to_string v ++ [squote] else to_string v in
            do* out := rescan emitted path line col in
            ok (add_out out cur)
        end
  end.

Definition handleReturn (path source : text) (wordEnd end_ : nat) (cur : cursor) : P nat :=
  let expr := trim (range source wordEnd end_) in
  let expr :=
    if head_is "(" expr then
      let expr := trim (drop 1 expr) in
      if head_is ")" (rev expr) then removelast expr else expr
    else expr in
  do* rescanned := rescan expr path (cline cur) (ccol cur) in
  do* value := evalCondExpr rescanned path (cline cur) (ccol cur) in
  modify (set_procResult_ value);;
  modify (set_procReturning_ true);;
  ok (S end_).

(** One arm of an [%IF], a directive or a statement: the offset past it. *)
Definition run_arm (path source : text) (arm : nat) (active : bool) (cur : cursor) : P (cursor * nat) :=
  if head_is "%" (drop arm source) then
    do* r := processDirective path source arm active cur in
    let '(cur, next, _) := r in ok (cur, next)
  else
    let stmtEnd := (arm + arm_len 0 Code (drop arm source))%nat in
    if active then let* cur := emit path (range source arm stmtEnd) cur in ok (cur, stmtEnd)
    else ok (cur, stmtEnd).

(** The [%ELSE] arm after [next], if there is one. *)
Definition else_arm (path source : text) (next : nat) (active : bool) (dline dcol : Z)
    (cur : cursor) : P (cursor * nat) :=
  let e := skip_while is_blank source next in
  let w := word_at is_hblank source (S e) in
  if head_is "%" (drop e source) && text_eqb (word_of source w) (txt "ELSE") then
    let arm := skip_while is_blank source (snd w) in
    if (length source <=? arm)%nat then
      error path dline dcol (txt "expected a directive or statement after %ELSE")
    else run_arm path source arm active cur
  else ok (cur, next).

Definition processIf (path source : text) (wordEnd : nat) (active : bool) (cur : cursor) :
    P (cursor * nat * nat) :=
  let dline := cline cur in let dcol := ccol cur in
  match find_then 0 (drop wordEnd source) wordEnd with
  | None => error path dline dcol (txt "expected %THEN in %IF directive")
  | Some thenAt =>
      do* cond := if_active active
                    (do* rescanned := rescan (range source wordEnd thenAt) path dline dcol in
                     evalCondExpr rescanned path dline dcol) 0 in
      let arm := skip_while is_blank source (snd (word_at is_hblank source (S thenAt))) in
      if (length source <=? arm)%nat then
        error path dline dcol (txt "expected a directive or statement after %THEN")
      else
        do* r := run_arm path source arm (active && negb (cond =? 0)) cur in
        let '(cur, next) := r in
        do* r := else_arm path source next (active && (cond =? 0)) dline dcol cur in
        ok (fst r, snd r, pred arm)
  end.

(** [%label:], in front of a procedure, a directive or a statement. *)
Definition label_directive (path source labelName : text) (wordEnd : nat) (active : bool)
    (cur : cursor) : P (cursor * nat * nat) :=
  let target := skip_while is_blank source (S wordEnd) in
  let w := word_at is_blank source target in
  let word := word_of source w in
  if text_eqb word (txt "PROCEDURE") || text_eqb word (txt "PROC") then
    match findDirectiveEnd source (snd w) with
    | None => error path (cline cur) (ccol cur) (txt "unterminated preprocessor directive")
    | Some procEnd =>
        match matching_end 0 1 Code (drop (S procEnd) source) (S procEnd) with
        | inr msg => error path (cline cur) (ccol cur) msg
        | inl (matchingEnd, endSemi) =>
            do* _ := if_active active
                       (handleDefinition path labelName (range source target procEnd)
                         (range source (S procEnd) matchingEnd) (cline cur) (ccol cur)) tt in
            ok (cur, S endSemi, endSemi)
        end
    end
  else if head_is "%" (drop target source) then ok (cur, target, pred target)
  else
    match findDirectiveEnd source target with
    | Some semi => ok (cur, S semi, pred target)
    | None => ok (cur, target, pred target)
    end.

Definition do_directive (n : nat) (path source : text) (wordEnd : nat) (active : bool)
    (cur : cursor) : P (cursor * nat * nat) :=
  match findDirectiveEnd source wordEnd with
  | None => error path (cline cur) (ccol cur) (txt "unterminated %DO (C28-6571-3 Ch.9)")
  | Some doEnd =>
      match matching_end 0 1 Code (drop (S doEnd) source) (S doEnd) with
      | inr msg => error path (cline cur) (ccol cur) msg
      | inl (matchingEnd, endSemi) =>
          if active then
            do* r := handleDo n path source (S doEnd) matchingEnd endSemi active
                       (range source wordEnd doEnd) (cline cur) (ccol cur) cur in
            ok (fst r, snd r, doEnd)
          else
            let* cur := keep_newlines path (range source matchingEnd (S endSemi)) cur in
            ok (cur, S endSemi, doEnd)
      end
  end.

Definition goto_directive (path source word : text) (wordEnd : nat) (active : bool)
    (cur : cursor) : P (cursor * nat * nat) :=
  match findDirectiveEnd source wordEnd with
  | None => error path (cline cur) (ccol cur) (txt "unterminated %GOTO (C28-6571-3 Ch.9)")
  | Some end_ =>
      let operand := trim (range source wordEnd end_) in
      let label :=
        if text_eqb word (txt "GO") then
          match find_word (txt "TO") (upper operand) with
          | Some toPos => trim (drop (toPos + 2) operand)
          | None => operand
          end
        else operand in
      if active then
        do* target := handleGoto path word label (cline cur) (ccol cur) in ok (cur, target, end_)
      else ok (cur, S end_, end_)
  end.

Definition return_directive (path source : text) (wordEnd : nat) (active : bool) (cur : cursor) :
    P (cursor * nat * nat) :=
  match findDirectiveEnd source wordEnd with
  | None => error path (cline cur) (ccol cur) (txt "unterminated %RETURN (C28-6571-3 Ch.9)")
  | Some end_ =>
      let* returning := get procReturning_ in
      if active && negb returning then
        do* next := handleReturn path source wordEnd end_ cur in ok (cur, next, end_)
      else ok (cur, S end_, end_)
  end.

(** [%name (args)], the parenthesis at [rs]. *)
Definition invocation (path source word : text) (rs : nat) (active : bool) (cur : cursor) :
    P (cursor * nat * nat) :=
  match args_len 0 1 Code (drop (S rs) source) with
  | None => error path (cline cur) (ccol cur) (txt "unterminated argument list in %" ++ word)
  | Some k =>
      let argEnd := (S rs + k)%nat in
      do* cur := if_active active
                   (handleInvocation path word (substr source (S rs) (pred k)) (cline cur) (ccol cur) cur) cur in
      match findDirectiveEnd source argEnd with
      | Some semi => ok (cur, S semi, semi)
      | None => ok (cur, argEnd, pred argEnd)
      end
  end.

(** The directives that end at their [;]: the offset to go on from, unless it is past the [;]. *)
Definition simple_directive (path source word : text) (i wordEnd end_ : nat) (active : bool)
    (cur : cursor) : P (cursor * option nat) :=
  let operand := range source wordEnd end_ in
  let line := cline cur in let col := ccol cur in
  let into (m : text -> P text) : P (cursor * option nat) :=
    do* out := if_active active (m (output cur)) (output cur) in ok (mkCur out line col, None) in
  let just (m : P unit) : P (cursor * option nat) := do* _ := if_active active m tt in ok (cur, None) in
  if text_eqb word (txt "INCLUDE") then into (handleInclude path operand line col)
  else if text_eqb word (txt "XINCLUDE") then into (handleXInclude path operand line col)
  else if text_eqb word (txt "DECLARE") || text_eqb word (txt "DCL") then
    just (handleDeclare path operand line col)
  else if text_eqb word (txt "ACTIVATE") || text_eqb word (txt "DEACTIVATE") then
    just (handleActivation path word operand line col)
  else if text_eqb word (txt "REPLACE") then just (handleReplace path source i wordEnd end_ line col)
  else
    let rs := drop (skip_while is_hblank source wordEnd) source in
    if head_is "(" rs then ret None
    else if negb (head_is "=" rs) then
      do* cur := if_active active (substituteRef path word line col cur) cur in ok (cur, Some wordEnd)
    else just (handleAssignment path word operand line col).

(** The words whose operand may be in parentheses. *)
Definition operand_words : list text :=
  txt <$> ["INCLUDE"; "XINCLUDE"; "DECLARE"; "DCL"; "ACTIVATE"; "DEACTIVATE"; "REPLACE"]%string.

(** One directive, its [%] at [i]: the cursor, the offset past it, and the last
    offset of its own text. *)
Definition run_directive (n : nat) (path source : text) (i : nat) (active : bool) (cur : cursor) :
    P (cursor * nat * nat) :=
  let w := word_at is_hblank source (S i) in
  let wordEnd := snd w in
  let word := word_of source w in
  let named s := text_eqb word (txt s) in
  if (wordEnd =? fst w)%nat then
    error path (cline cur) (ccol cur) (txt "expected a preprocessor directive")
  else if named "IF" then processIf path source wordEnd active cur
  else if named "THEN" || named "ELSE" then
    error path (cline cur) (ccol cur) (txt "%" ++ word ++ txt " without %IF")
  else if head_is ":" (drop wordEnd source) then label_directive path source word wordEnd active cur
  else if named "DO" then do_directive n path source wordEnd active cur
  else if named "END" then
    match findDirectiveEnd source wordEnd with
    | None => error path (cline cur) (ccol cur) (txt "unterminated %END directive")
    | Some end_ => ok (cur, S end_, end_)
    end
  else if named "GO" || named "GOTO" then goto_directive path source word wordEnd active cur
  else if named "RETURN" then return_directive path source wordEnd active cur
  else
    let rs := skip_while is_blank source wordEnd in
    if negb (bool_decide (word ∈ operand_words)) && head_is "(" (drop rs source) then
      invocation path source word rs active cur
    else
      match findDirectiveEnd source wordEnd with
      | None => error path (cline cur) (ccol cur) (txt "unterminated preprocessor directive")
      | Some end_ =>
          do* r := simple_directive path source word i wordEnd end_ active cur in
          ok (fst r, default (S end_) (snd r), end_)
      end.

(** ** The scan *)

(** An identifier at [i]: expanded when it has a replacement that is not being
    expanded already. *)
Definition scan_word (source : text) (i end_ : nat) (path : text) (active : bool) (cur : cursor) :
    P (cursor * nat) :=
  let j := skip_while isWordChar (take end_ source) (S i) in
  let word := range source i j in
  let key := upper word in
  let* reps := get replacements_ in
  let* busy := get replacing_ in
  match reps !! key with
  | Some rep =>
      if decide (key ∈ busy) then let* cur := emit path word cur in ok (cur, j)
      else
        modify (fun st => set_replacing_ ({[key]} ∪ replacing_ st) st);;
        let* expanded := scan rep 0%nat (length rep) path active cur in
        modify (fun st => set_replacing_ (replacing_ st ∖ {[key]}) st);;
        ret ((fun cur => (cur, j)) <$> expanded)
  | None => let* cur := emit path word cur in ok (cur, j)
  end.

(** [source[i]] is inside the scanned range and is [d]. *)
Definition next_is (d : char) (source : text) (i end_ : nat) : bool :=
  (i <? end_)%nat && ceqb (at_ source i) d.

(** The characters in and around strings and comments that are copied: how many,
    and the state after them; [None] for a [%], an identifier, a double quote or
    any other character of code. *)
Definition copy_step (m : mode) (source : text) (i end_ : nat) : option (nat * mode) :=
  let c := at_ source i in
  match m with
  | LineCmt => Some (1%nat, if ceqb c newline then Code else LineCmt)
  | Cmt => if ceqb c "*" && next_is "/" source (S i) end_ then Some (2%nat, Code) else Some (1%nat, Cmt)
  | Str =>
      if ceqb c squote then
        if next_is squote source (S i) end_ then Some (2%nat, Str) else Some (1%nat, Code)
      else Some (1%nat, Str)
  | Code =>
      if ceqb c "/" && next_is "*" source (S i) end_ then Some (2%nat, Cmt)
      else if ceqb c "/" && next_is "/" source (S i) end_ then Some (2%nat, LineCmt)
      else if ceqb c squote then Some (1%nat, Str)
      else None
  end.

Fixpoint scanLoop (n : nat) (source : text) (start end_ : nat) (path : text) (active : bool)
    (m : mode) (i : nat) (cur : cursor) : P cursor :=
  match n with
  | O => out_of_fuel
  | S n =>
      if (end_ <=? i)%nat then ok cur
      else
        let c := at_ source i in
        match copy_step m source i end_ with
        | Some (k, m') =>
            let* cur := emit path (substr source i k) cur in
            scanLoop n source start end_ path active m' (i + k) cur
        | None =>
            if ceqb c "%" then
              do* r := processDirective path source i active cur in
              let '(cur, next, semPos) := r in
              let* cur := keep_newlines path (range source i (S semPos)) cur in
              let* returning := get procReturning_ in
              if returning then ok cur
              else if (next <? start)%nat || (end_ <? next)%nat then ok cur
              else scanLoop n source start end_ path active m next cur
            else if isWordStart c then
              do* r := scan_word source i end_ path active cur in
              let '(cur, j) := r in scanLoop n source start end_ path active m j cur
            else if ceqb c dquote then
              error path (cline cur) (ccol cur)
                (txt "double-quoted strings are only valid as a %REPLACE operand (ADR-082)")
            else
              let* cur := emit path [c] cur in
              scanLoop n source start end_ path active m (S i) cur
        end
  end.
End Handlers.

Definition kMaxScanDepth : Z := 256.

Fixpoint scan (n : nat) (source : text) (start end_ : nat) (path : text) (active : bool)
    (cur : cursor) : P cursor :=
  match n with
  | O => out_of_fuel
  | S n =>
      modify (fun st => set_scanDepth_ (scanDepth_ st + 1) st);;
      let* depth := get scanDepth_ in
      if kMaxScanDepth <? depth then
        modify (fun st => set_scanDepth_ (scanDepth_ st - 1) st);;
        error path (cline cur) (ccol cur)
          (txt "preprocessor control-flow nesting is too deep (C28-6571-3 Ch.9)")
      else
        let* r := scanLoop (scan n) (processDirective n) n source start end_ path active Code start cur in
        modify (fun st => set_scanDepth_ (scanDepth_ st - 1) st);;
        ret r
  end
with processDirective (n : nat) (path source : text) (i : nat) (active : bool) (cur : cursor) :
    P (cursor * nat * nat) :=
  match n with
  | O => out_of_fuel
  | S n => run_directive (scan n) (processDirective n) n path source i active cur
  end.

(** [run]: the members that it does not clear (the procedures and the state of a
    return) are kept from the last run. *)
Definition run (n : nat) (input : text) : P text := fun st =>
  expand (scan n) input []
    (mkPP [] ∅ ∅ ∅ ∅ ∅ ∅ 0 0 (procTable_ st) ∅ (procResult_ st) (procReturning_ st) [] ∅ (cerr_ st)).
End Preprocessor.

Lemma scan_S host dirs n source start end_ path active cur :
  scan host dirs (S n) source start end_ path active cur =
  (modify (fun st => set_scanDepth_ (scanDepth_ st + 1) st);;
   let* depth := get scanDepth_ in
   if kMaxScanDepth <? depth then
     modify (fun st => set_scanDepth_ (scanDepth_ st - 1) st);;
     error path (cline cur) (ccol cur)
       (txt "preprocessor control-flow nesting is too deep (C28-6571-3 Ch.9)")
   else
     let* r := scanLoop (scan host dirs n) (processDirective host dirs n) n source start end_ path active Code start cur in
     modify (fun st => set_scanDepth_ (scanDepth_ st - 1) st);;
     ret r).
Proof. done. Qed.
