(* ===== verification/PreprocInv.v ===== *)
(** * The preprocessor's invariant

    Every operation of Preproc.v, on every path through it, keeps the state well
    formed, undoes what it pushes, only appends to the output and the line map,
    and fails exactly when it has written a diagnostic. *)
From S2P Require Import Prelude Monad Diag PPCond PPScan Preproc.

#[local] Set Default Proof Using "All".

(** ** The invariant *)
Definition nl (s : text) : nat := length (filter (fun c => ceqb c newline = true) s).

(** An entry of the line map names a line of a file whose text was kept. *)
Definition entry_ok (files : gset text) (e : FileLoc) : Prop := path e ∈ files /\ 1 <= fline e.

Record wf (st : pp) : Prop := {
  wf_active : ppActive_ st ⊆ dom (ppVars_ st);
  wf_lines : Forall (entry_ok (dom (fileSrc_ st))) (lineMap_ st) }.

(** From [st] to [st'] the line map gained [l] and the stacks are as they were. *)
Record grew (l : list FileLoc) (st st' : pp) : Prop := {
  g_lines : lineMap_ st' = lineMap_ st ++ l;
  g_active : active_ st' = active_ st;
  g_replacing : replacing_ st' = replacing_ st;
  g_depth : scanDepth_ st' = scanDepth_ st;
  g_labels : labels_ st' = labels_ st;
  g_calling : calling_ st' = calling_ st;
  g_included : included_ st ⊆ included_ st';
  g_files : dom (fileSrc_ st) ⊆ dom (fileSrc_ st') }.

Definition diagnosed (st st' : pp) : Prop := exists msg, msg <> [] /\ cerr_ st' = cerr_ st ++ msg.

(** The contract of an operation run while the files [ps] are known: [R] relates
    its result to the number of line-map entries it added. *)
Definition sound {A : Type} (ps : gset text) (R : nat -> A -> Prop) (m : P A) : Prop := forall st r st',
  wf st -> ps ⊆ dom (fileSrc_ st) -> m st = Some (r, st') ->
  wf st' /\ exists l, grew l st st' /\
    match r with
    | None => diagnosed st st'
    | Some x => cerr_ st' = cerr_ st /\ R (length l) x
    end.

(** The output grew by text whose newlines have entries. *)
Definition grows (o : text) (d : nat) (o' : text) : Prop := o `prefix_of` o' /\ (nl o' <= nl o + d)%nat.
Definition moved (cur : cursor) (d : nat) (cur' : cursor) : Prop :=
  1 <= cline cur' /\ grows (output cur) d (output cur').
Definition any {A : Type} : nat -> A -> Prop := fun _ _ => True.

Lemma nl_app a b : nl (a ++ b) = (nl a + nl b)%nat.
Proof. unfold nl. by rewrite filter_app, length_app. Qed.
Lemma grows_refl o : grows o 0 o.
Proof. split; [done|lia]. Qed.
Lemma grows_trans a b c d e : grows a d b -> grows b e c -> grows a (d + e) c.
Proof. intros [? ?] [? ?]. split; [by etrans|lia]. Qed.
Lemma moved_trans a b c d e : moved a d b -> moved b e c -> moved a (d + e) c.
Proof. intros [? ?] [? ?]. split; [done|by eapply grows_trans]. Qed.

Lemma grew_refl st : grew [] st st.
Proof. split; try done. by rewrite app_nil_r. Qed.
Lemma grew_trans l l' a b c : grew l a b -> grew l' b c -> grew (l ++ l') a c.
Proof.
  intros [] []. split; try congruence; [|by etrans..]. rewrite app_assoc. congruence.
Qed.
Lemma known_grew (ps : gset text) l st st' : grew l st st' -> ps ⊆ dom (fileSrc_ st) -> ps ⊆ dom (fileSrc_ st').
Proof. intros [] ?. by etrans. Qed.

(** ** Rules *)
Section Rules.
Context {A : Type}.
Implicit Types (ps : gset text) (R : nat -> A -> Prop) (m : P A).

Lemma sound_mono ps ps' R R' m : sound ps R m -> ps ⊆ ps' -> (forall d x, R d x -> R' d x) -> sound ps' R' m.
Proof.
  intros H Hps HR st r st' Hwf Hd E. destruct (H st r st' Hwf ltac:(by etrans) E) as (? & l & ? & ?).
  split; [done|]. exists l. split; [done|]. destruct r; [|done]. split; [|apply HR]; intuition.
Qed.
Lemma sound_ok ps R x : R 0%nat x -> sound ps R (ok x).
Proof. intros H st r st' Hwf _ [= <- <-]. split; [done|]. exists []. split; [apply grew_refl|done]. Qed.
Lemma sound_undefined ps R : sound ps R undefined.
Proof. by intros ?????. Qed.
Lemma sound_error ps R input line col msg : sound ps R (error input line col msg).
Proof.
  intros st r st' [] _ [= <- <-]. split; [by split|]. exists []. split; [split; cbn; try done; by rewrite app_nil_r|].
  eexists. split; [|done]. destruct input; [|done]. by destruct (0 <? line).
Qed.
Lemma sound_bind {B : Type} ps (Q : nat -> B -> Prop) R (m : P B) (f : B -> P A) :
  sound ps Q m -> (forall d x, Q d x -> sound ps (fun e => R (d + e)%nat) (f x)) -> sound ps R (bindP m f).
Proof.
  intros Hm Hf st r st' Hwf Hd E. unfold bindP, bind in E. destruct (m st) as [[o st1]|] eqn:Em; [|done].
  destruct (Hm st o st1 Hwf Hd Em) as (Hwf1 & l & Hg & Ho). destruct o as [x|].
  - destruct Ho as [Hc HQ]. destruct (Hf _ _ HQ st1 r st' Hwf1 ltac:(by eapply known_grew) E)
      as (Hwf' & l' & Hg' & Hr). split; [done|]. exists (l ++ l'). split; [by eapply grew_trans|].
    destruct r; [rewrite length_app|]; [intuition congruence|].
    destruct Hr as (msg & Hne & He). exists msg. split; [done|]. congruence.
  - injection E as <- <-. split; [done|]. by exists l.
Qed.
(** A read of the state. *)
Lemma sound_get {B : Type} ps R (g : pp -> B) (f : B -> P A) : (forall v, sound ps R (f v)) -> sound ps R (bind (get g) f).
Proof. intros H st r st' Hwf Hd E. exact (H (g st) st r st' Hwf Hd E). Qed.
(** A write that touches no stack and keeps the state well formed. *)
Definition harmless (g : pp -> pp) : Prop := forall st, wf st -> wf (g st) /\ grew [] st (g st) /\ cerr_ (g st) = cerr_ st.
Lemma sound_modify ps R g (m : P A) : harmless g -> sound ps R m -> sound ps R (modify g;; m).
Proof.
  intros Hg H st r st' Hwf Hd E. destruct (Hg st Hwf) as (Hwf1 & Hg1 & Hc).
  destruct (H _ r st' Hwf1 ltac:(by eapply known_grew) E) as (? & l & Hg2 & Hr).
  split; [done|]. exists l. split; [exact (grew_trans _ _ _ _ _ Hg1 Hg2)|].
  destruct r; [intuition congruence|]. destruct Hr as (msg & ? & ?). exists msg. split; [done|congruence].
Qed.
End Rules.

Lemma sound_if_active {A : Type} ps (R : nat -> A -> Prop) b m x : R 0%nat x -> sound ps R m -> sound ps R (if_active b m x).
Proof. destruct b; [done|]. intros ??. by apply sound_ok. Qed.
Lemma sound_any {A : Type} ps (R : nat -> A -> Prop) m : sound ps R m -> sound ps any m.
Proof. intros H. by eapply sound_mono. Qed.

Ltac harmless_at Hwf :=
  destruct Hwf as [Hact Hlin]; (split; [split; cbn; try done; set_solver|]); (split; [split; cbn; first [done | by rewrite app_nil_r | set_solver]|done]).
Ltac harmless_tac := let Hwf := fresh "Hwf" in intros st Hwf; harmless_at Hwf.

(** [sound_step] takes one step through an operation. *)
Ltac sound_step :=
  match goal with
  | |- sound _ _ (error _ _ _ _) => apply sound_error
  | |- sound _ _ undefined => apply sound_undefined
  | |- sound _ _ (bind (get _) _) => apply sound_get; intros
  | |- sound _ _ (bind (modify _) _) => apply sound_modify; [try solve [harmless_tac]|]
  | |- sound _ _ (if ?b then _ else _) => destruct b
  | |- sound _ _ (match ?b with _ => _ end) => destruct b
  | |- sound _ _ (ok _) => apply sound_ok; try done
  end.

(** ** Operations that scan nothing *)
Lemma evalCondExpr_sound ps s path line col : sound ps any (evalCondExpr s path line col).
Proof. unfold evalCondExpr. by repeat sound_step. Qed.
Lemma each_sound {A : Type} ps (f : A -> P unit) l : (forall x, sound ps any (f x)) -> sound ps any (each f l).
Proof.
  intros H. induction l as [|x l IH]; cbn; [by repeat sound_step|].
  eapply sound_bind; [apply H|]. intros. exact IH.
Qed.

Lemma declare_item_sound ps input item line col : sound ps any (declare_item input item line col).
Proof.
  unfold declare_item, declare_value. eapply sound_bind with (Q := any).
  - repeat sound_step. eapply sound_bind; [apply evalCondExpr_sound|]. intros. by apply sound_ok.
  - intros d [name v] _. repeat sound_step.
    intros st Hwf. destruct (ppVars_ st !! name); [|harmless_at Hwf].
    split; [done|]. split; [apply grew_refl|done].
Qed.
Lemma handleDeclare_sound ps input operand line col : sound ps any (handleDeclare input operand line col).
Proof. unfold handleDeclare. sound_step; [sound_step|]. apply each_sound. intros. apply declare_item_sound. Qed.

Lemma handleAssignment_sound ps input name operand line col : sound ps any (handleAssignment input name operand line col).
Proof.
  unfold handleAssignment. repeat sound_step. eapply sound_bind; [apply evalCondExpr_sound|].
  intros. by repeat sound_step.
Qed.

Lemma handleActivation_sound ps input name operand line col : sound ps any (handleActivation input name operand line col).
Proof.
  unfold handleActivation. sound_step; [sound_step|]. apply each_sound. intros item. unfold activate_item.
  sound_step; [sound_step|]. intros st r st' Hwf Hd E. unfold bind, get in E.
  destruct (ppVars_ st !! upper (trim item)) as [v|] eqn:Ev; [|by eapply sound_error].
  injection E as <- <-. destruct Hwf as [Hact Hlin]. apply elem_of_dom_2 in Ev.
  destruct (text_eqb _ _); (split; [split; cbn; set_solver|]);
    (exists []; split; [split; cbn; try done; by rewrite app_nil_r|done]).
Qed.

Lemma set_replacement_sound ps name body : sound ps any (set_replacement name body).
Proof. unfold set_replacement. by repeat sound_step. Qed.
Lemma handleReplace_sound ps path source i wordEnd end_ line col :
  sound ps any (handleReplace path source i wordEnd end_ line col).
Proof. unfold handleReplace. repeat sound_step; apply set_replacement_sound. Qed.
Lemma handleGoto_sound ps path name operand line col : sound ps any (handleGoto path name operand line col).
Proof. unfold handleGoto. by repeat sound_step. Qed.
Lemma handleDefinition_sound ps path labelName decl body line col :
  sound ps any (handleDefinition path labelName decl body line col).
Proof. unfold handleDefinition. by repeat sound_step. Qed.

Lemma to_string_nl z : nl (to_string z) = 0%nat.
Proof.
  assert (forall f y acc, nl acc = 0%nat -> nl (dec_digits f y acc) = 0%nat) as H.
  { induction f as [|f IH]; intros y acc Ha; [done|]. cbn [dec_digits].
    assert (nl (digit_char (y mod 10) :: acc) = 0%nat) as H0.
    { change (nl ([digit_char (y mod 10)] ++ acc) = 0%nat). rewrite nl_app, Ha.
      pose proof (Z.mod_pos_bound y 10 ltac:(lia)) as Hd. unfold nl. rewrite filter_cons.
      rewrite decide_False; [done|]. rewrite ceqb_true. intros E%(f_equal code).
      rewrite code_digit_char in E by done. change (code newline) with 10 in E. lia. }
    by destruct (_ =? _); [|apply IH]. }
  unfold to_string. destruct (z <? 0); [|by apply H]. change (nl (txt "-" ++ dec_digits (dec_fuel (- z)) (- z) []) = 0%nat).
  rewrite nl_app, H; done.
Qed.

Lemma moved_add_out s cur d : 1 <= cline cur -> (nl s <= d)%nat -> moved cur d (add_out s cur).
Proof.
  intros. split; [done|]. split; [by apply prefix_app_r|]. unfold add_out. cbn [output]. rewrite nl_app. lia.
Qed.
Lemma substituteRef_sound ps input name line col cur : 1 <= cline cur ->
  sound ps (moved cur) (substituteRef input name line col cur).
Proof. intros. unfold substituteRef. repeat sound_step. apply moved_add_out; [done|]. by rewrite to_string_nl. Qed.

(** ** Output *)
Lemma keep_grows (b : bool) c o : grows o (if ceqb c newline then 1 else 0) (if b then o ++ [c] else o).
Proof.
  destruct b; [|by split; [done|destruct (ceqb c newline); lia]].
  split; [by apply prefix_app_r|]. rewrite nl_app. unfold nl. rewrite (filter_cons _ c).
  by destruct (ceqb c newline).
Qed.

Lemma walk_sound {A : Type} (keep : char -> bool) p s cur (R : nat -> A -> Prop) f :
  1 <= cline cur ->
  (forall d cur', moved cur d cur' -> sound {[p]} (fun e => R (d + e)%nat) (f cur')) ->
  sound {[p]} R (bind (walk keep p s cur) f).
Proof.
  revert cur R. induction s as [|c s IH]; intros cur R Hl Hf.
  - intros st r st' Hwf Hd E. apply (Hf 0%nat cur); try done. split; [done|]. apply grows_refl.
  - cbn [walk]. pose proof (keep_grows (keep c) c (output cur)) as Hk.
    set (o := if keep c then output cur ++ [c] else output cur) in *. destruct (ceqb c newline).
    + assert (sound {[p]} (fun e => R (S e)) (bind (walk keep p s (mkCur o (cline cur + 1) 1)) f)) as H.
      { apply IH; [cbn; lia|]. intros d cur' [H1 Hg]. apply (Hf (S d) cur'). split; [done|].
        exact (grows_trans _ _ _ _ _ Hk Hg). }
      intros st r st' Hwf Hd E. specialize (H (set_lineMap_ (lineMap_ st ++ [mkFileLoc p (cline cur)]) st) r st').
      destruct H as (Hwf' & l & [Hgl] & Hr); [|done|exact E|].
      * destruct Hwf as [Ha Hlines]. split; [done|]. cbn. apply Forall_app. split; [done|].
        apply Forall_singleton. split; cbn; [set_solver|done].
      * split; [done|]. exists (mkFileLoc p (cline cur) :: l). split; [split; try done|exact Hr].
        rewrite Hgl. cbn. by rewrite <- app_assoc.
    + apply (IH (mkCur o (cline cur) (ccol cur + 1)) R); [done|].
      intros d cur' [H1 Hg]. apply Hf. split; [done|]. exact (grows_trans _ _ _ _ _ Hk Hg).
Qed.

Lemma moved_rescan cur d cur' : moved (mkCur [] (cline cur) (ccol cur)) d cur' -> (nl (output cur') <= d)%nat.
Proof. intros [_ [_ H]]. exact H. Qed.

Lemma moved_refl cur : 1 <= cline cur -> moved cur 0 cur.
Proof. intros. split; [done|apply grows_refl]. Qed.
Lemma sound_ok_moved {A : Type} ps (f : A -> cursor) cur x : 1 <= cline cur -> f x = cur ->
  sound ps (fun d r => moved cur d (f r)) (ok x).
Proof. intros H <-. by apply sound_ok, moved_refl. Qed.
(** After a step from [cur] to [cur'], the rest may be judged from [cur']. *)
Lemma sound_from {A : Type} ps (f : A -> cursor) cur d cur' m : moved cur d cur' ->
  sound ps (fun e r => moved cur' e (f r)) m -> sound ps (fun e r => moved cur (d + e) (f r)) m.
Proof. intros Hm H. eapply sound_mono; [exact H|done|]. intros e r He. by eapply moved_trans. Qed.

Lemma dom_fold_insert {B : Type} (k : B -> text) (v : B -> Z) (l : list B) (m : gmap text Z) :
  dom (fold_left (fun m x => <[k x := v x]> m) l m) = list_to_set (k <$> l) ∪ dom m.
Proof.
  revert m. induction l as [|x l IH]; intros m; cbn; [set_solver|]. rewrite IH, dom_insert_L. set_solver.
Qed.

Lemma skip_further (P Q : char -> bool) s i c : (forall c, P c = true -> Q c = true) ->
  drop (skip_while P s i) s = c :: drop (S (skip_while P s i)) s -> Q c = false -> skip_while Q s i = skip_while P s i.
Proof.
  unfold skip_while. intros HPQ. rewrite <- drop_drop. generalize (drop i s). intros t.
  generalize (drop (S (i + prefix_len P t)) s). intros u. revert u. induction t as [|d t IH]; intros u; cbn; [done|].
  destruct (P d) eqn:E; cbn.
  - rewrite (HPQ _ E). intros H HQ. rewrite !Nat.add_succ_r. f_equal. by eapply IH.
  - intros [= ->] ->. done.
Qed.
Lemma paren_seen s w : head_is "(" (drop (skip_while is_hblank s w) s) = true ->
  head_is "(" (drop (skip_while is_blank s w) s) = true.
Proof.
  intros H. destruct (drop (skip_while is_hblank s w) s) as [|c t] eqn:E; [done|]. cbn in H.
  apply ceqb_true in H as ->. erewrite (skip_further is_hblank is_blank).
  - by rewrite E.
  - unfold is_hblank, is_blank. intros d. destruct (ceqb d " "), (ceqb d "009"), (ceqb d "012"); cbn; try done.
    intros _. by destruct (ceqb d "013"), (ceqb d "010").
  - rewrite E. f_equal. change (S (skip_while is_hblank s w)) with (1 + skip_while is_hblank s w)%nat.
    rewrite Nat.add_comm, <- drop_drop, E. done.
  - done.
Qed.

(** ** The handlers *)
Section Handlers.
Context (host : Host) (dirs : list text) (scan : scan_t) (directive : directive_t).
Hypothesis scan_sound : forall s a b p act cur, 1 <= cline cur -> sound {[p]} (moved cur) (scan s a b p act cur).
Hypothesis directive_sound : forall p s i act cur, 1 <= cline cur ->
  sound {[p]} (fun d r => moved cur d (fst (fst r))) (directive p s i act cur).

Lemma rescan_sound s p line col : 1 <= line -> sound {[p]} (fun d o => (nl o <= d)%nat) (rescan scan s p line col).
Proof.
  intros. unfold rescan. eapply sound_bind; [by apply scan_sound|]. intros d cur Hm. apply sound_ok.
  rewrite Nat.add_0_r. exact (moved_rescan (mkCur [] line col) d cur Hm).
Qed.

Lemma collect_labels_keeps source st : exists m, collectLabels source st = set_labels_ m st.
Proof. by eexists. Qed.

Lemma expand_sound ps input out : sound ps (grows out) (expand host scan input out).
Proof.
  intros st r st' Hwf Hd E. unfold expand, bind, get, modify, ret in E.
  set (p := normalized host input) in *. case_decide; [by eapply (sound_error ps) in E|].
  destruct (contents host p) as [source|]; [|by eapply (sound_error ps) in E].
  match type of E with context [scan ?a ?b ?c ?d ?e ?f ?st1] =>
    destruct (scan a b c d e f st1) as [[o st2]|] eqn:Es; [|done];
    destruct (scan_sound a b c d e f ltac:(done) st1 o st2) as (Hwf2 & l & [] & Ho) end; [| |exact Es|].
  - destruct Hwf as [Ha Hl]. split; [done|]. cbn. rewrite dom_insert_L. eapply Forall_impl; [exact Hl|].
    intros e [He Hz]. split; [set_solver|done].
  - cbn. rewrite dom_insert_L. set_solver.
  - injection E as <- <-. destruct Hwf2 as [Ha2 Hl2]. split; [by split|].
    cbn in *. rewrite dom_insert_L in *. exists l. split.
    + split; try done; [cbn; by rewrite g_active0, removelast_last|]. cbn. set_solver.
    + destruct o as [cur|]; [|done]. cbn. destruct Ho as [? [_ ?]]. done.
Qed.

Lemma expandOneInclude_sound ps input rawName line col once out :
  sound ps (grows out) (expandOneInclude host dirs scan input rawName line col once out).
Proof.
  unfold expandOneInclude. repeat sound_step; try apply grows_refl; apply expand_sound.
Qed.
Lemma handleInclude_sound ps input operand line col out :
  sound ps (grows out) (handleInclude host dirs scan input operand line col out).
Proof. unfold handleInclude. sound_step; [sound_step|]. apply expandOneInclude_sound. Qed.
Lemma handleXInclude_sound ps input operand line col out :
  sound ps (grows out) (handleXInclude host dirs scan input operand line col out).
Proof.
  unfold handleXInclude. sound_step; [sound_step|]. generalize (xinclude_items false 0 [] operand). intros l.
  revert out. induction l as [|x l IH]; intros out; cbn; [apply sound_ok, grows_refl|].
  eapply sound_bind; [apply expandOneInclude_sound|]. intros d o Ho. eapply sound_mono; [apply IH|done|].
  intros e o'. by apply grows_trans.
Qed.

Lemma doLoop_sound n p source a b act var iter e2 e3 cur : 1 <= cline cur ->
  sound {[p]} (moved cur) (doLoop scan n p source a b act var iter e2 e3 cur).
Proof.
  revert iter cur. induction n as [|n IH]; intros iter cur Hl; [apply sound_undefined|]. cbn [doLoop].
  destruct (if 0 <? e3 then iter <=? e2 else e2 <=? iter); [|by apply sound_ok, moved_refl].
  sound_step. eapply sound_bind; [by apply scan_sound|]. intros d it [Hit _].
  apply walk_sound; [done|]. intros d' cur' Hm.
  eapply sound_mono; [apply IH; exact Hit|done|]. intros e r [Hr Hg]. split; [done|].
  destruct Hm as [_ Hm]. cbn in *. pose proof (grows_trans _ _ _ _ _ Hm Hg) as [Hp Hn]. split; [done|lia].
Qed.
Lemma handleDo_sound n p source a b e act spec line col cur : 1 <= cline cur ->
  sound {[p]} (fun d r => moved cur d (fst r)) (handleDo scan n p source a b e act spec line col cur).
Proof.
  intros Hl. unfold handleDo. sound_step.
  - eapply sound_bind; [by apply scan_sound|]. intros d cur' Hm. apply sound_ok. by rewrite Nat.add_0_r.
  - repeat (sound_step || (eapply sound_bind; [apply evalCondExpr_sound|intros])).
    eapply sound_bind; [by apply doLoop_sound|]. intros d' cur' [? [? ?]]. apply sound_ok.
    split; [done|]. split; [done|]. cbn. lia.
Qed.

Lemma eval_args_sound ps args p line col :
  sound ps (fun _ vs => length vs = length args) (eval_args args p line col).
Proof.
  induction args as [|a args IH]; cbn; [by apply sound_ok|].
  eapply sound_bind; [apply evalCondExpr_sound|]. intros d v _. eapply sound_bind; [exact IH|].
  intros d' vs Hvs. apply sound_ok. cbn. by rewrite Hvs.
Qed.

Lemma call_body_sound p pr vs line col : 1 <= line -> length vs = length (params pr) ->
  sound {[p]} any (call_body scan p pr vs line col).
Proof.
  intros Hl Hvs st r st' [Ha Hli] Hd E. unfold call_body, bind, get, modify, ret, ok in E. cbn in E.
  assert (list_to_set (params pr) ∪ dom (ppVars_ st) ⊆ dom (bind_params (params pr) vs (ppVars_ st))) as Hb.
  { unfold bind_params. rewrite (dom_fold_insert fst snd), fst_zip by lia. done. }
  assert (list_to_set (params pr) ⊆ dom (saved_vars (params pr) (ppVars_ st))) as Hs.
  { unfold saved_vars. rewrite (dom_fold_insert (fun x => x) (fun x => default 0 (ppVars_ st !! x))).
    rewrite list_fmap_id. set_solver. }
  match type of E with context [rescan scan ?a ?b ?c ?d ?st1] =>
    destruct (rescan scan a b c d st1) as [[o st2]|] eqn:Es; [|done];
    destruct (rescan_sound a b c d Hl st1 o st2) as (Hwf2 & l & [] & Ho) end; [| |exact Es|].
  - split; [cbn; set_solver|done].
  - done.
  - cbn in *. destruct Hwf2 as [Ha2 Hl2].
    assert (exists st3, st' = st3 /\ wf st3 /\ grew l st st3 /\ cerr_ st3 = cerr_ st2 /\ (is_Some o <-> is_Some r)) as
      (st3 & -> & Hwf3 & Hg3 & Hc3 & Hr).
    { eexists. split; [done|]. destruct o as [o|], (procReturning_ st2); injection E as <- <-;
        (split; [split; cbn; [exact Hs|exact Hl2]|]); (split; [split; cbn; done|]); (split; [done|]);
        split; intros [? ?]; try done; by eexists. }
    split; [done|]. exists l. split; [done|]. destruct r as [r|].
    + destruct o as [o|]; [|destruct Hr as [_ Hr]; destruct Hr; [by eexists|done]]. destruct Ho as [Ho _].
      split; [congruence|done].
    + destruct o as [o|]; [destruct Hr as [Hr _]; destruct Hr; [by eexists|done]|].
      destruct Ho as (msg & ? & Ho). exists msg. split; [done|]. by rewrite Hc3, Ho.
Qed.

Lemma handleInvocation_sound p fname args line col cur : 1 <= line -> 1 <= cline cur ->
  sound {[p]} (moved cur) (handleInvocation scan p fname args line col cur).
Proof.
  intros Hl Hc. unfold handleInvocation. apply sound_get. intros table.
  destruct (table !! upper fname) as [pr|]; [|apply sound_error].
  set (args' := if is_empty (trim args) then [] else split_args false 0 [] args).
  destruct (Nat.eqb_spec (length args') (length (params pr))) as [El|]; [|apply sound_error]. cbn.
  eapply sound_bind; [apply eval_args_sound|]. intros d vs Hvs.
  eapply sound_bind; [apply call_body_sound; [done|congruence]|]. intros d' [v|] _; [|apply sound_error].
  eapply sound_bind; [by apply rescan_sound|]. intros d'' o Ho. apply sound_ok.
  apply moved_add_out; [done|]. cbn in Ho. lia.
Qed.

Lemma handleReturn_sound p source a b cur : 1 <= cline cur ->
  sound {[p]} any (handleReturn scan p source a b cur).
Proof.
  intros Hl. unfold handleReturn. eapply sound_bind; [by apply rescan_sound|]. intros d o _.
  eapply sound_bind; [apply evalCondExpr_sound|]. intros. by repeat sound_step.
Qed.

Lemma run_arm_sound p source arm act cur : 1 <= cline cur ->
  sound {[p]} (fun d r => moved cur d (fst r)) (run_arm directive p source arm act cur).
Proof.
  intros Hl. unfold run_arm. sound_step.
  - eapply sound_bind; [by apply directive_sound|]. intros d [[cur' next] sp] Hm. apply sound_ok.
    by rewrite Nat.add_0_r.
  - destruct act; [|by apply sound_ok_moved]. apply walk_sound; [done|]. intros d cur' Hm. apply sound_ok.
    by rewrite Nat.add_0_r.
Qed.
Lemma else_arm_sound p source next act line col cur : 1 <= cline cur ->
  sound {[p]} (fun d r => moved cur d (fst r)) (else_arm directive p source next act line col cur).
Proof.
  intros Hl. unfold else_arm. sound_step; [|by apply sound_ok_moved]. sound_step; [sound_step|]. by apply run_arm_sound.
Qed.

(** The cursor of a directive's result. *)
Abbreviation by_directive cur := (fun d r => moved cur d (fst (fst r))).

Lemma processIf_sound p source wordEnd act cur : 1 <= cline cur ->
  sound {[p]} (by_directive cur) (processIf scan directive p source wordEnd act cur).
Proof.
  intros Hl. unfold processIf. sound_step; [|sound_step]. eapply sound_bind with (Q := any).
  { apply sound_if_active; [done|]. eapply sound_bind; [by apply rescan_sound|]. intros d o _. apply evalCondExpr_sound. }
  intros d cond _. sound_step; [sound_step|]. eapply sound_bind; [by apply run_arm_sound|].
  intros d1 [cur1 next] Hm1. eapply sound_bind; [by apply else_arm_sound; destruct Hm1|].
  intros d2 [cur2 next2] Hm2. apply sound_ok. pose proof (moved_trans _ _ _ _ _ Hm1 Hm2) as [? [? ?]].
  split; [done|]. split; [done|]. cbn in *. lia.
Qed.

Lemma label_directive_sound p source labelName wordEnd act cur : 1 <= cline cur ->
  sound {[p]} (by_directive cur) (label_directive p source labelName wordEnd act cur).
Proof.
  intros Hl. unfold label_directive. repeat sound_step; try by apply moved_refl.
  eapply sound_bind with (Q := any).
  - apply sound_if_active; [done|]. apply handleDefinition_sound.
  - intros d x _. apply sound_ok. split; [done|]. split; [done|]. cbn. lia.
Qed.

Lemma do_directive_sound n p source wordEnd act cur : 1 <= cline cur ->
  sound {[p]} (by_directive cur) (do_directive scan n p source wordEnd act cur).
Proof.
  intros Hl. unfold do_directive. sound_step; [|sound_step]. sound_step; [|sound_step]. sound_step. sound_step.
  - eapply sound_bind; [by apply handleDo_sound|]. intros d r Hm. apply sound_ok. by rewrite Nat.add_0_r.
  - apply walk_sound; [done|]. intros d cur' Hm. apply sound_ok. by rewrite Nat.add_0_r.
Qed.

Lemma goto_directive_sound p source word wordEnd act cur : 1 <= cline cur ->
  sound {[p]} (by_directive cur) (goto_directive p source word wordEnd act cur).
Proof.
  intros Hl. unfold goto_directive. sound_step; [|sound_step]. destruct act; [|by apply sound_ok, moved_refl].
  eapply sound_bind; [apply handleGoto_sound|]. intros d t _. apply sound_ok. split; [done|]. split; [done|]. cbn. lia.
Qed.

Lemma return_directive_sound p source wordEnd act cur : 1 <= cline cur ->
  sound {[p]} (by_directive cur) (return_directive scan p source wordEnd act cur).
Proof.
  intros Hl. unfold return_directive. sound_step; [|sound_step]. sound_step. sound_step; [|by apply sound_ok, moved_refl].
  eapply sound_bind; [by apply handleReturn_sound|]. intros d t _. apply sound_ok. split; [done|]. split; [done|]. cbn. lia.
Qed.

Lemma invocation_sound p source word rs act cur : 1 <= cline cur ->
  sound {[p]} (by_directive cur) (invocation scan p source word rs act cur).
Proof.
  intros Hl. unfold invocation. sound_step; [|sound_step]. eapply sound_bind with (Q := moved cur).
  - apply sound_if_active; [by apply moved_refl|]. by apply handleInvocation_sound.
  - intros d cur' Hm. sound_step; apply sound_ok; by rewrite Nat.add_0_r.
Qed.

(** A directive that has no cursor of its own to report. *)
Lemma just_sound p (m : P unit) act cur : 1 <= cline cur -> sound {[p]} any m ->
  sound {[p]} (fun d r => moved cur d (fst r)) (do* _ := if_active act m tt in ok (cur, @None nat)).
Proof.
  intros Hl Hm. eapply sound_bind with (Q := any); [by apply sound_if_active|].
  intros d x _. apply sound_ok. split; [done|]. split; [done|]. cbn. lia.
Qed.
Lemma into_sound p (m : text -> P text) act cur : 1 <= cline cur -> (forall out, sound {[p]} (grows out) (m out)) ->
  sound {[p]} (fun d r => moved cur d (fst r))
    (do* out := if_active act (m (output cur)) (output cur) in ok (mkCur out (cline cur) (ccol cur), @None nat)).
Proof.
  intros Hl Hm. eapply sound_bind with (Q := grows (output cur)); [apply sound_if_active; [apply grows_refl|done]|].
  intros d out Hg. apply sound_ok. split; [done|]. by rewrite Nat.add_0_r.
Qed.

Lemma simple_directive_sound p source word i wordEnd end_ act cur : 1 <= cline cur ->
  (word ∈ operand_words \/ head_is "(" (drop (skip_while is_hblank source wordEnd) source) = false) ->
  sound {[p]} (fun d r => moved cur d (fst r)) (simple_directive host dirs scan p source word i wordEnd end_ act cur).
Proof.
  intros Hl Hw. unfold simple_directive.
  repeat match goal with |- sound _ _ (if ?b then _ else _) => destruct b eqn:?; [first
    [ apply into_sound; [done|]; intros; (apply handleInclude_sound || apply handleXInclude_sound)
    | apply just_sound; [done|];
      (apply handleDeclare_sound || apply handleActivation_sound || apply handleReplace_sound) | idtac]|] end.
  - exfalso. destruct Hw as [Hw|]; [|congruence]. unfold text_eqb in *.
    repeat match goal with H : bool_decide _ || bool_decide _ = false |- _ => apply orb_false_iff in H as [? ?] end.
    repeat match goal with H : bool_decide _ = false |- _ => apply bool_decide_eq_false in H end.
    unfold operand_words in Hw. cbn in Hw. set_solver.
  - eapply sound_bind with (Q := moved cur).
    + apply sound_if_active; [by apply moved_refl|]. by apply substituteRef_sound.
    + intros d cur' Hm. apply sound_ok. by rewrite Nat.add_0_r.
  - apply just_sound; [done|]. apply handleAssignment_sound.
Qed.

Lemma run_directive_sound n p source i act cur : 1 <= cline cur ->
  sound {[p]} (by_directive cur) (run_directive host dirs scan directive n p source i act cur).
Proof.
  intros Hl. unfold run_directive. set (w := word_at is_hblank source (S i)).
  repeat match goal with |- sound _ _ (if ?b then _ else _) => destruct b eqn:?; [first
    [ apply sound_error | by apply processIf_sound | by apply label_directive_sound | by apply do_directive_sound
    | by apply goto_directive_sound | by apply return_directive_sound | by apply invocation_sound | idtac]|] end.
  - sound_step; [by apply sound_ok, moved_refl|sound_step].
  - sound_step; [|sound_step]. eapply sound_bind; [apply simple_directive_sound; [done|]|].
    + destruct (head_is "(" (drop (skip_while is_hblank source (snd w)) source)) eqn:Eh; [left|by right].
      apply paren_seen in Eh. rewrite Eh, andb_true_r in *.
      match goal with H : negb (bool_decide _) = false |- _ => by apply negb_false_iff, bool_decide_eq_true in H end.
    + intros d r Hm. apply sound_ok. by rewrite Nat.add_0_r.
Qed.

(** ** The scan *)
Lemma scan_word_sound source i end_ p act cur : 1 <= cline cur ->
  sound {[p]} (fun d r => moved cur d (fst r)) (scan_word scan source i end_ p act cur).
Proof.
  intros Hl. unfold scan_word. apply sound_get. intros reps.
  set (word := range source i _). set (j := skip_while _ _ _).
  assert (sound {[p]} (fun d r => moved cur d (fst r)) (let* cur := emit p word cur in ok (cur, j))) as Hemit.
  { apply walk_sound; [done|]. intros d cur' Hm. apply sound_ok. by rewrite Nat.add_0_r. }
  destruct (reps !! upper word) as [rep|]; [|apply sound_get; intros _; exact Hemit].
  intros st r st' Hwf Hd E. unfold bind at 1, get at 1 in E.
  destruct (decide (upper word ∈ replacing_ st)) as [|Hk]; [by apply Hemit|].
  unfold bind, modify, ret in E.
  match type of E with context [scan ?a ?b ?c ?d ?e ?f ?st1] =>
    destruct (scan a b c d e f st1) as [[o st2]|] eqn:Es; [|done];
    destruct (scan_sound a b c d e f Hl st1 o st2) as (Hwf2 & l & [] & Ho) end; [| |exact Es|].
  - destruct Hwf as [Ha Hli]. by split.
  - done.
  - injection E as <- <-. destruct Hwf2 as [Ha2 Hl2]. split; [by split|]. cbn in *. exists l. split.
    + split; try done. cbn. rewrite g_replacing0. set_solver.
    + by destruct o.
Qed.

Lemma scanLoop_sound n source start end_ p act m i cur : 1 <= cline cur ->
  sound {[p]} (moved cur) (scanLoop scan directive n source start end_ p act m i cur).
Proof.
  revert m i cur. induction n as [|n IH]; intros m i cur Hl; [apply sound_undefined|]. cbn [scanLoop].
  assert (forall d cur' m i, moved cur d cur' ->
    sound {[p]} (fun e => moved cur (d + e)) (scanLoop scan directive n source start end_ p act m i cur')) as IH'.
  { intros d cur' m' i' Hm. destruct (Hm) as [Hc _]. apply (sound_from _ (fun c => c) cur d cur'); [done|]. by apply IH. }
  sound_step; [by apply sound_ok, moved_refl|]. destruct (copy_step m source i end_) as [[k m']|].
  { apply walk_sound; [done|]. intros d cur' Hm. by apply IH'. }
  sound_step; [|sound_step; [|sound_step; [sound_step|]]].
  - eapply sound_bind; [by apply directive_sound|]. intros d [[cur1 next] sp] Hm. cbn in Hm. destruct (Hm) as [H1 _].
    apply walk_sound; [done|]. intros d' cur2 Hm'. pose proof (moved_trans _ _ _ _ _ Hm Hm') as H.
    apply sound_get. intros ret.
    assert (sound {[p]} (fun e => moved cur (d + (d' + e))) (ok cur2)) as Hok.
    { apply sound_ok. rewrite Nat.add_0_r. exact H. }
    destruct ret; [exact Hok|]. sound_step; [exact Hok|].
    eapply sound_mono; [by apply (IH' (d + d')%nat)|done|]. intros e x. by rewrite Nat.add_assoc.
  - eapply sound_bind; [by apply scan_word_sound|]. intros d [cur1 j] Hm. by apply IH'.
  - apply walk_sound; [done|]. intros d cur' Hm. by apply IH'.
Qed.
End Handlers.

Section Whole.
Context (host : Host) (dirs : list text).

Lemma scan_directive_sound n :
  (forall s a b p act cur, 1 <= cline cur -> sound {[p]} (moved cur) (scan host dirs n s a b p act cur)) /\
  (forall p s i act cur, 1 <= cline cur ->
    sound {[p]} (fun d r => moved cur d (fst (fst r))) (processDirective host dirs n p s i act cur)).
Proof.
  induction n as [|n [IHs IHd]]; [split; intros; apply sound_undefined|]. split.
  - intros s a b p act cur Hl st r st' [Ha Hli] Hd E. rewrite scan_S in E. unfold bind, modify, get in E.
    set (st1 := set_scanDepth_ (scanDepth_ st + 1) st) in *.
    assert (wf st1) as Hwf1 by by split.
    destruct (kMaxScanDepth <? scanDepth_ st1).
    + eapply (sound_error {[p]} (moved cur)) in E as (Hwf' & l & [] & Hr); [|split; [exact Ha|exact Hli]|exact Hd].
      split; [done|]. exists l. split; [split; try done; cbn in *; lia|done].
    + destruct (scanLoop _ _ _ _ _ _ _ _ _ _ _ st1) as [[o st2]|] eqn:Es; [|done].
      destruct (scanLoop_sound host dirs _ _ IHs IHd n s a b p act Code a cur Hl _ _ _ Hwf1 Hd Es)
        as (Hwf2 & l & [] & Ho).
      injection E as <- <-. destruct Hwf2. split; [by split|]. exists l. split; [|by destruct o].
      split; try done. cbn in *. lia.
  - intros p s i act cur Hl. by apply run_directive_sound.
Qed.
End Whole.


