(* ===== verification/PreprocFuel.v ===== *)
(** * The preprocessor's fuel

    More fuel changes no result, so what [run] returns is the program's own
    behaviour and not the fuel's. *)
From S2P Require Import Prelude Monad Diag PPCond PPScan Preproc.

(** [m'] returns whatever [m] returns. *)
Definition less {S A : Type} (m m' : ST S A) : Prop := forall st x, m st = Some x -> m' st = Some x.
#[local] Infix "<<=" := less (at level 70, no associativity).

Section Rules.
Context {S A B : Type}.
Implicit Types (m : ST S A).

Lemma less_refl m : m <<= m.
Proof. by intros ??. Qed.
Lemma less_out_of_fuel m : out_of_fuel <<= m.
Proof. by intros ??. Qed.
Lemma less_bind m m' (f f' : A -> ST S B) : m <<= m' -> (forall x, f x <<= f' x) -> bind m f <<= bind m' f'.
Proof.
  intros Hm Hf st y. unfold bind. destruct (m st) as [[x st']|] eqn:E; [|done]. rewrite (Hm _ _ E). apply Hf.
Qed.
End Rules.
Lemma less_bindP {A B : Type} (m m' : P A) (f f' : A -> P B) :
  m <<= m' -> (forall x, f x <<= f' x) -> bindP m f <<= bindP m' f'.
Proof. intros Hm Hf. apply less_bind; [done|]. intros [x|]; [apply Hf|apply less_refl]. Qed.

Ltac less_tac :=
  repeat match goal with
  | H : _ |- _ => solve [apply H]
  | |- ?m <<= ?m => apply less_refl
  | |- bindP _ _ <<= _ => apply less_bindP; [|intros ?]
  | |- bind _ _ <<= _ => apply less_bind; [|intros ?]
  | |- if_active ?b _ _ <<= _ => destruct b; unfold if_active
  | |- (match ?b with _ => _ end) <<= _ => destruct b
  end.

Section Handlers.
Context (host : Host) (dirs : list text) (scan scan' : scan_t) (directive directive' : directive_t).
Context (Hs : forall s a b p act cur, scan s a b p act cur <<= scan' s a b p act cur)
        (Hd : forall p s i act cur, directive p s i act cur <<= directive' p s i act cur).

Lemma rescan_less s p line col : rescan scan s p line col <<= rescan scan' s p line col.
Proof using Hs. unfold rescan. less_tac. Qed.
Lemma expand_less input out : expand host scan input out <<= expand host scan' input out.
Proof using Hs. unfold expand. less_tac. Qed.
Lemma expandOneInclude_less input name line col once out :
  expandOneInclude host dirs scan input name line col once out <<=
  expandOneInclude host dirs scan' input name line col once out.
Proof using Hs. pose proof expand_less. unfold expandOneInclude. less_tac. Qed.
Lemma handleInclude_less input operand line col out :
  handleInclude host dirs scan input operand line col out <<= handleInclude host dirs scan' input operand line col out.
Proof using Hs. pose proof expandOneInclude_less. unfold handleInclude. less_tac. Qed.
Lemma handleXInclude_less input operand line col out :
  handleXInclude host dirs scan input operand line col out <<= handleXInclude host dirs scan' input operand line col out.
Proof using Hs.
  unfold handleXInclude. generalize (xinclude_items false 0 [] operand). intros l.
  destruct (existsb _ l); [apply less_refl|]. revert out. induction l as [|x l IH]; intros out; cbn [include_items].
  - apply less_refl.
  - apply less_bindP; [apply expandOneInclude_less|done].
Qed.

Lemma doLoop_less n n' p source a b act var iter e2 e3 cur : (n <= n')%nat ->
  doLoop scan n p source a b act var iter e2 e3 cur <<= doLoop scan' n' p source a b act var iter e2 e3 cur.
Proof using Hs.
  revert n' iter cur. induction n as [|n IH]; intros [|n'] iter cur Hn; try apply less_out_of_fuel; [lia|].
  cbn [doLoop]. less_tac. apply IH. lia.
Qed.
Lemma handleDo_less n n' p source a b e act spec line col cur : (n <= n')%nat ->
  handleDo scan n p source a b e act spec line col cur <<= handleDo scan' n' p source a b e act spec line col cur.
Proof using Hs. intros Hn. unfold handleDo. less_tac. by apply doLoop_less. Qed.

Lemma call_body_less p pr vs line col : call_body scan p pr vs line col <<= call_body scan' p pr vs line col.
Proof using Hs. pose proof rescan_less. unfold call_body. less_tac. Qed.
Lemma handleInvocation_less p fname args line col cur :
  handleInvocation scan p fname args line col cur <<= handleInvocation scan' p fname args line col cur.
Proof using Hs. pose proof rescan_less. pose proof call_body_less. unfold handleInvocation. less_tac. Qed.
Lemma handleReturn_less p source a b cur : handleReturn scan p source a b cur <<= handleReturn scan' p source a b cur.
Proof using Hs. pose proof rescan_less. unfold handleReturn. less_tac. Qed.

Lemma run_arm_less p source arm act cur : run_arm directive p source arm act cur <<= run_arm directive' p source arm act cur.
Proof using Hd. unfold run_arm. less_tac. Qed.
Lemma else_arm_less p source next act line col cur :
  else_arm directive p source next act line col cur <<= else_arm directive' p source next act line col cur.
Proof using Hd. pose proof run_arm_less. unfold else_arm. less_tac. Qed.
Lemma processIf_less p source wordEnd act cur :
  processIf scan directive p source wordEnd act cur <<= processIf scan' directive' p source wordEnd act cur.
Proof using Hs Hd. pose proof rescan_less. pose proof run_arm_less. pose proof else_arm_less. unfold processIf. less_tac. Qed.

Lemma run_directive_less n n' p source i act cur : (n <= n')%nat ->
  run_directive host dirs scan directive n p source i act cur <<=
  run_directive host dirs scan' directive' n' p source i act cur.
Proof using Hs Hd.
  intros Hn. pose proof processIf_less. pose proof handleReturn_less. pose proof handleInvocation_less.
  pose proof handleInclude_less. pose proof handleXInclude_less.
  assert (forall p source a b e act spec line col cur,
    handleDo scan n p source a b e act spec line col cur <<= handleDo scan' n' p source a b e act spec line col cur)
    by (intros; by apply handleDo_less).
  unfold run_directive, do_directive, return_directive, invocation, simple_directive. less_tac.
Qed.

Lemma scan_word_less source i end_ p act cur :
  scan_word scan source i end_ p act cur <<= scan_word scan' source i end_ p act cur.
Proof using Hs. unfold scan_word. less_tac. Qed.
Lemma scanLoop_less n n' source a b p act m i cur : (n <= n')%nat ->
  scanLoop scan directive n source a b p act m i cur <<= scanLoop scan' directive' n' source a b p act m i cur.
Proof using Hs Hd.
  pose proof scan_word_less. revert n' m i cur. induction n as [|n IH]; intros [|n'] m i cur Hn; try apply less_out_of_fuel; [lia|].
  assert (forall m i cur, scanLoop scan directive n source a b p act m i cur <<=
    scanLoop scan' directive' n' source a b p act m i cur) by (intros; apply IH; lia).
  cbn [scanLoop]. less_tac.
Qed.
End Handlers.

Lemma scan_directive_less host dirs n n' : (n <= n')%nat ->
  (forall s a b p act cur, scan host dirs n s a b p act cur <<= scan host dirs n' s a b p act cur) /\
  (forall p s i act cur, processDirective host dirs n p s i act cur <<= processDirective host dirs n' p s i act cur).
Proof.
  revert n'. induction n as [|n IH]; intros [|n'] Hn; [by split; intros; apply less_out_of_fuel..|lia|].
  destruct (IH n' ltac:(lia)) as [IHs IHd]. split; intros.
  - assert (forall m i cur, scanLoop (scan host dirs n) (processDirective host dirs n) n s a b p act m i cur <<=
      scanLoop (scan host dirs n') (processDirective host dirs n') n' s a b p act m i cur).
    { intros. apply scanLoop_less; [done..|lia]. }
    rewrite !scan_S. less_tac.
  - apply run_directive_less; [done..|lia].
Qed.

(** The result of a run with enough fuel is the result with any more. *)
Lemma run_fuel host dirs n n' input st x : (n <= n')%nat ->
  run host dirs n input st = Some x -> run host dirs n' input st = Some x.
Proof. intros Hn. unfold run. destruct (scan_directive_less host dirs n n' Hn) as [H _]. by apply expand_less. Qed.
