(* ===== verification/PreprocText.v ===== *)
(** * Text without directives

    A reference definition of replacement: [expansion] says what a text becomes,
    with no state, cursor or fuel.  The scan of a text without [%] is this
    expansion, it ends, and text in which nothing is to be replaced passes
    through unchanged with every line mapped to itself. *)
From S2P Require Import Prelude Monad Diag PPCond PPScan Preproc PreprocInv PreprocFuel.

#[local] Set Default Proof Using "All".

(** ** Reference definitions *)

(** No [%] and no double quote outside strings and comments. *)
Fixpoint quiet (skip : nat) (m : mode) (s : text) : bool :=
  match s with
  | [] => true
  | c :: s' =>
      match skip with
      | S k => quiet k m s'
      | O =>
          match arm_step m s with
          | Some (n, m') => quiet (pred n) m' s'
          | None => negb (ceqb c "%") && negb (ceqb c dquote) && quiet 0 m s'
          end
      end
  end.

(** What a text becomes: outside strings and comments a word with a replacement
    becomes the expansion of its replacement, in which the word itself and those
    being expanded ([busy]) stand for themselves.  At most [k] replacements nest. *)
Fixpoint expansion (reps : gmap text text) (k : nat) (busy : gset text) {struct k} : nat -> mode -> text -> text :=
  fix go (skip : nat) (m : mode) (s : text) {struct s} : text :=
    match s with
    | [] => []
    | c :: s' =>
        match skip with
        | S j => go j m s'
        | O =>
            match arm_step m s with
            | Some (n, m') => take n s ++ go (pred n) m' s'
            | None =>
                if isWordStart c then
                  let w := take (S (prefix_len isWordChar s')) s in
                  match k, reps !! upper w with
                  | S k, Some rep =>
                      if decide (upper w ∈ busy) then w else expansion reps k ({[upper w]} ∪ busy) 0%nat Code rep
                  | _, _ => w
                  end ++ go (prefix_len isWordChar s') m s'
                else c :: go 0%nat m s'
            end
        end
    end.

(** The entries of the line map for the newlines of a text that starts on [line]. *)
Fixpoint entries (p s : text) (line : Z) : list FileLoc :=
  match s with
  | [] => []
  | c :: s' => if ceqb c newline then mkFileLoc p line :: entries p s' (line + 1) else entries p s' line
  end.
Definition moved_over (s : text) (cur : cursor) : cursor :=
  let '(line, col) := advance s (cline cur) (ccol cur) in mkCur (output cur ++ s) line col.
Definition add_lines (p s : text) (line : Z) (st : pp) : pp := set_lineMap_ (lineMap_ st ++ entries p s line) st.

(** ** Emission in closed form *)
Lemma emit_closed p s cur st : emit p s cur st = Some (moved_over s cur, add_lines p s (cline cur) st).
Proof.
  unfold emit, moved_over, add_lines. revert cur st. induction s as [|c s IH]; intros cur st; cbn.
  - rewrite app_nil_r. destruct cur, st. cbn. by rewrite !app_nil_r.
  - destruct (ceqb c newline); cbn; unfold bind, modify; rewrite IH; cbn; rewrite <- !app_assoc; [|done].
    by destruct (advance s _ _).
Qed.

Lemma advance_app a b line col : advance (a ++ b) line col = let '(l, c) := advance a line col in advance b l c.
Proof. revert line col. induction a as [|c a IH]; intros line col; cbn; [done|]. by destruct (ceqb c newline). Qed.
Lemma moved_over_app a b cur : moved_over (a ++ b) cur = moved_over b (moved_over a cur).
Proof.
  unfold moved_over. rewrite advance_app. destruct (advance a (cline cur) (ccol cur)) as [l c] eqn:E. cbn.
  destruct (advance b l c). by rewrite app_assoc.
Qed.
Lemma entries_app p a b line col : entries p (a ++ b) line = entries p a line ++ entries p b (fst (advance a line col)).
Proof.
  revert line col. induction a as [|c a IH]; intros line col; cbn; [done|].
  destruct (ceqb c newline); cbn; [f_equal|]; apply IH.
Qed.
Lemma add_lines_app p a b cur st :
  add_lines p (a ++ b) (cline cur) st = add_lines p b (cline (moved_over a cur)) (add_lines p a (cline cur) st).
Proof.
  unfold add_lines. rewrite (entries_app p a b _ (ccol cur)), app_assoc. unfold moved_over.
  by destruct (advance a (cline cur) (ccol cur)).
Qed.

(** ** The steps of the scan on the text that is left *)
Lemma at_drop (s : text) i : at_ s i = match drop i s with c :: _ => c | [] => NUL end.
Proof.
  unfold at_. destruct (s !! i) as [c|] eqn:E; [by rewrite (drop_S _ _ _ E)|].
  apply lookup_ge_None in E. by rewrite drop_ge.
Qed.
Lemma drop_next {s : text} {i c t} : drop i s = c :: t -> drop (S i) s = t.
Proof. intros E. change (S i) with (1 + i)%nat. by rewrite Nat.add_comm, <- drop_drop, E. Qed.
Lemma drop_inside {s : text} {i c t} : drop i s = c :: t -> (i < length s)%nat.
Proof. intros E. apply (f_equal length) in E. rewrite length_drop in E. cbn in E. lia. Qed.

Lemma next_is_drop d (s : text) i : next_is d s i (length s) = head_is d (drop i s).
Proof.
  unfold next_is, head_is. rewrite at_drop. destruct (drop i s) as [|c t] eqn:E.
  - destruct (Nat.ltb_spec i (length s)) as [H|]; [|done].
    apply (f_equal length) in E. rewrite length_drop in E. cbn in E. lia.
  - pose proof (drop_inside E). by destruct (Nat.ltb_spec i (length s)); [|lia].
Qed.
Lemma copy_step_drop m (s : text) i c t : drop i s = c :: t -> copy_step m s i (length s) = arm_step m (c :: t).
Proof.
  intros E. unfold copy_step. rewrite !next_is_drop, (drop_next E), at_drop, E. unfold arm_step, inert_step.
  assert (forall x y, head2 x y (c :: t) = ceqb c x && head_is y t) as H2 by (intros; destruct t; [by rewrite andb_false_r|done]).
  rewrite !H2. destruct m; [|by destruct (ceqb c squote), (head_is squote t)|done..].
  destruct (ceqb c "/"); [|done]. destruct t as [|d t]; [done|]. cbn.
  destruct (ceqb d "*") eqn:Ed; [|by destruct (ceqb d "/")]. by apply ceqb_true in Ed as ->.
Qed.
Lemma arm_step_length m s n m' : arm_step m s = Some (n, m') -> (1 <= n)%nat.
Proof.
  unfold arm_step, inert_step. destruct m, s as [|c s]; repeat case_match; intros; simplify_eq; try lia.
Qed.

Lemma moved_over_output s cur : output (moved_over s cur) = output cur ++ s.
Proof. unfold moved_over. by destruct (advance s (cline cur) (ccol cur)). Qed.

(** ** The reference definitions, a step at a time *)
Lemma expansion_cons reps k busy c s m : expansion reps k busy 0 m (c :: s) =
  match arm_step m (c :: s) with
  | Some (n, m') => take n (c :: s) ++ expansion reps k busy (pred n) m' s
  | None =>
      if isWordStart c then
        let w := take (S (prefix_len isWordChar s)) (c :: s) in
        match k, reps !! upper w with
        | S k, Some rep =>
            if decide (upper w ∈ busy) then w else expansion reps k ({[upper w]} ∪ busy) 0 Code rep
        | _, _ => w
        end ++ expansion reps k busy (prefix_len isWordChar s) m s
      else c :: expansion reps k busy 0 m s
  end.
Proof. by destruct k. Qed.
Lemma expansion_nil reps k busy n m : expansion reps k busy n m [] = [].
Proof. by destruct k. Qed.
Lemma expansion_skip reps k busy n m s : expansion reps k busy n m s = expansion reps k busy 0 m (drop n s).
Proof.
  revert n. induction s as [|c s IH]; intros [|n]; rewrite ?drop_nil, ?expansion_nil; try done.
  cbn [drop]. rewrite <- IH. by destruct k.
Qed.
Lemma quiet_skip n m s : quiet n m s = quiet 0 m (drop n s).
Proof. revert n. induction s as [|c s IH]; intros [|n]; try done. cbn [drop]. rewrite <- IH. done. Qed.
Lemma quiet_word s : quiet 0 Code s = true -> quiet 0 Code (drop (prefix_len isWordChar s) s) = true.
Proof.
  induction s as [|c s IH]; [done|]. cbn [prefix_len]. destruct (isWordChar c) eqn:Ec; [|done].
  intros H. apply IH. revert H. cbn [quiet].
  assert (arm_step Code (c :: s) = None) as ->; [|by intros [_ ?]%andb_true_iff].
  unfold isWordChar in Ec. unfold arm_step, inert_step, head2.
  assert (ceqb c "/" = false /\ ceqb c squote = false) as [E1 E2].
  { split; apply ceqb_false; intros ->; by vm_compute in Ec. }
  rewrite E1, E2. by destruct s.
Qed.
Lemma arm_step_code m s : arm_step m s = None -> s <> [] -> m = Code.
Proof. unfold arm_step, inert_step. destruct m, s; repeat case_match; done. Qed.

Lemma moved_over_nil cur : moved_over [] cur = cur.
Proof. unfold moved_over. cbn. rewrite app_nil_r. by destruct cur. Qed.
Lemma add_lines_nil p line st : add_lines p [] line st = st.
Proof. unfold add_lines. cbn. rewrite app_nil_r. by destruct st. Qed.

(** ** The scan is the expansion *)
Lemma add_remove (x : text) (X : gset text) : x ∉ X -> ({[x]} ∪ X) ∖ {[x]} = X.
Proof.
  intros Hx. apply set_eq. intros y. rewrite elem_of_difference, elem_of_union, !elem_of_singleton.
  split; [tauto|]. intros Hy. split; [by right|by intros ->].
Qed.

Section Scan.
Context (scan : scan_t) (directive : directive_t) (p : text) (act : bool).
Context (reps : gmap text text) (K : nat) (busy : gset text) (d : Z).
Definition at_rest (b : gset text) (st : pp) : Prop :=
  replacements_ st = reps /\ replacing_ st = b /\ scanDepth_ st = d.
(** A name that may be replaced has a nested scan that is its expansion. *)
Context (nested : forall key rep, reps !! key = Some rep -> key ∉ busy -> exists k, K = S k /\
  let out := expansion reps k ({[key]} ∪ busy) 0 Code rep in
  forall cur st, at_rest ({[key]} ∪ busy) st ->
    scan rep 0%nat (length rep) p act cur st = Some (Some (moved_over out cur), add_lines p out (cline cur) st)).

Lemma scan_word_quiet (s : text) i c t cur st : drop i s = c :: t -> at_rest busy st ->
  let w := take (S (prefix_len isWordChar t)) (c :: t) in
  let out := match K, reps !! upper w with
             | S k, Some rep => if decide (upper w ∈ busy) then w else expansion reps k ({[upper w]} ∪ busy) 0 Code rep
             | _, _ => w
             end in
  scan_word scan s i (length s) p act cur st =
  Some (Some (moved_over out cur, (S i + prefix_len isWordChar t)%nat), add_lines p out (cline cur) st).
Proof.
  intros E (Hr & Hb & Hd) w out. unfold scan_word. rewrite take_ge by lia. unfold skip_while. rewrite (drop_next E).
  replace (range s i (S i + prefix_len isWordChar t)) with w.
  2: { unfold range, substr. rewrite E. unfold w. f_equal. lia. }
  unfold bind at 1 2, get. rewrite Hr, Hb.
  assert ((let* cur := emit p w cur in ok (cur, (S i + prefix_len isWordChar t)%nat)) st =
    Some (Some (moved_over w cur, (S i + prefix_len isWordChar t)%nat), add_lines p w (cline cur) st)) as Hw.
  { unfold bind. by rewrite emit_closed. }
  destruct (reps !! upper w) as [rep|] eqn:Erep.
  - destruct (decide (upper w ∈ busy)) as [Hin|Hin].
    + assert (out = w) as ->; [|exact Hw]. unfold out. by destruct K.
    + destruct (nested _ _ Erep Hin) as (k & Hk & Hn). unfold out. rewrite Hk.
      unfold bind, modify, ret. rewrite Hn by (split; [done|]; split; [cbn; by rewrite Hb|done]). cbn. do 2 f_equal.
      unfold add_lines. cbn. rewrite Hb, add_remove by done. destruct st. cbn in *. by subst.
  - assert (out = w) as ->; [|exact Hw]. unfold out. by destruct K.
Qed.

Lemma scanLoop_quiet n (s : text) m i cur st t : drop i s = t -> quiet 0 m t = true -> (length t < n)%nat -> at_rest busy st ->
  let out := expansion reps K busy 0 m t in
  scanLoop scan directive n s 0 (length s) p act m i cur st =
  Some (Some (moved_over out cur), add_lines p out (cline cur) st).
Proof.
  revert m i cur st t. induction n as [|n IH]; intros m i cur st t E Hq Hn Hst out; [lia|]. cbn [scanLoop].
  destruct t as [|c t].
  { destruct (Nat.leb_spec (length s) i) as [_|H]; [|apply (f_equal length) in E; rewrite length_drop in E; cbn in E; lia].
    unfold out. by rewrite expansion_nil, moved_over_nil, add_lines_nil. }
  pose proof (drop_inside E) as Hi. destruct (Nat.leb_spec (length s) i) as [|_]; [lia|].
  rewrite (copy_step_drop m s i c t E), at_drop, E.
  assert (forall a m' j, quiet 0 m' (drop j s) = true -> (length (drop j s) < n)%nat ->
    out = a ++ expansion reps K busy 0 m' (drop j s) ->
    scanLoop scan directive n s 0 (length s) p act m' j (moved_over a cur) (add_lines p a (cline cur) st) =
    Some (Some (moved_over out cur), add_lines p out (cline cur) st)) as Hnext.
  { intros a m' j Hq' Hlen ->. rewrite (IH m' j _ _ (drop j s)); try done.
    by rewrite moved_over_app, add_lines_app. }
  assert (forall j, drop (S i + j) s = drop j t) as Hdrop.
  { intros j. by rewrite <- drop_drop, (drop_next E). }
  unfold out in *. rewrite expansion_cons in *. cbn [quiet] in Hq. cbn [length] in Hn.
  destruct (arm_step m (c :: t)) as [[k m']|] eqn:Ea.
  - pose proof (arm_step_length _ _ _ _ Ea). unfold bind. rewrite emit_closed. unfold substr. rewrite E.
    replace (i + k)%nat with (S i + pred k)%nat by lia.
    apply Hnext; rewrite Hdrop, <- ?quiet_skip, <- ?expansion_skip; [done| |done].
    rewrite length_drop. lia.
  - pose proof (arm_step_code _ _ Ea ltac:(done)) as ->.
    apply andb_true_iff in Hq as [[H1 H2]%andb_true_iff Hq]. apply negb_true_iff in H1, H2. rewrite H1, H2.
    destruct (isWordStart c).
    + unfold bindP, bind. rewrite (scan_word_quiet s i c t cur st E Hst).
      apply Hnext; rewrite Hdrop, <- ?expansion_skip; [by apply quiet_word| |done]. rewrite length_drop. lia.
    + unfold bind. rewrite emit_closed. change (S i) with (S i) at 1. rewrite <- (Nat.add_0_r (S i)).
      apply (Hnext [c] Code (S i + 0)%nat); rewrite Hdrop, drop_0; [done|lia|done].
Qed.
End Scan.

Lemma scan_quiet host dirs reps L : map_Forall (fun _ rep => quiet 0 Code rep = true /\ (length rep <= L)%nat) reps ->
  forall K n s p act cur st, quiet 0 Code s = true -> (length s <= L)%nat -> replacements_ st = reps ->
  (size (dom reps ∖ replacing_ st) <= K)%nat -> scanDepth_ st + Z.of_nat K < kMaxScanDepth -> (K + L + 2 <= n)%nat ->
  let out := expansion reps K (replacing_ st) 0 Code s in
  scan host dirs n s 0 (length s) p act cur st = Some (Some (moved_over out cur), add_lines p out (cline cur) st).
Proof.
  intros Hreps K. induction K as [K IH] using lt_wf_ind. intros n s p act cur st Hq HL Hr HK Hd Hn out.
  destruct n as [|n]; [lia|]. rewrite scan_S. unfold bind, modify, get. cbn [scanDepth_ set_scanDepth_].
  destruct (Z.ltb_spec kMaxScanDepth (scanDepth_ st + 1)) as [|_]; [lia|].
  rewrite (scanLoop_quiet (scan host dirs n) (processDirective host dirs n) p act reps K (replacing_ st) (scanDepth_ st + 1))
    with (t := s); [| |done|done|lia|done].
  - unfold ret, add_lines. cbn. do 2 f_equal. destruct st. unfold set_lineMap_, set_scanDepth_. cbn. f_equal. lia.
  - intros key rep Hk Hb. destruct (Hreps _ _ Hk) as [Hrq Hrl].
    assert (size (dom reps ∖ ({[key]} ∪ replacing_ st)) < size (dom reps ∖ replacing_ st))%nat as Hlt.
    { apply subset_size. apply elem_of_dom_2 in Hk. split; [intros y; rewrite !elem_of_difference, elem_of_union; tauto|].
      intros H. specialize (H key). rewrite !elem_of_difference, elem_of_union, elem_of_singleton in H. tauto. }
    destruct K as [|K]; [lia|]. exists K. split; [done|]. intros out' cur' st' (Hr' & Hb' & Hd').
    rewrite (IH K ltac:(lia) n rep p act cur' st'); try done; [by rewrite Hb'|rewrite Hb'; lia|lia|lia].
Qed.

(** C30: replacement ends and is the textual expansion.  Whatever replacements are
    in force, self-referring and mutually recursive ones included, as long as
    neither the source nor a replacement has a directive or a double quote
    outside strings and comments, and the names not yet being expanded are fewer
    than the nesting limit: the scan returns, what it appends is the reference
    expansion, and the rest of the state changes only by the line-map entries of
    the appended text.  In particular a name stands for itself inside its own
    expansion, and words in strings and comments are left alone. *)
Theorem replacement_expands host dirs n L s p act cur st :
  let reps := replacements_ st in
  let K := size (dom reps ∖ replacing_ st) in
  map_Forall (fun _ rep => quiet 0 Code rep = true /\ (length rep <= L)%nat) reps ->
  quiet 0 Code s = true -> (length s <= L)%nat -> scanDepth_ st + Z.of_nat K < kMaxScanDepth -> (K + L + 2 <= n)%nat ->
  let out := expansion reps K (replacing_ st) 0 Code s in
  scan host dirs n s 0 (length s) p act cur st = Some (Some (moved_over out cur), add_lines p out (cline cur) st).
Proof. intros reps K Hreps Hq HL Hd Hn out. by apply (scan_quiet host dirs reps L Hreps K). Qed.

Lemma replacement_expands_witness :
  let reps : gmap text text := {[ txt "A" := txt "B + 1" ; txt "B" := txt "(A, 'A')" ]} in
  let st := set_replacements_ reps initial in
  scan (mkHost id (fun _ => false) (fun _ => None)) [] 20 (txt "x = a; /* A */") 0 14 (txt "f") true (mkCur [] 1 1) st =
  Some (Some (mkCur (txt "x = (A, 'A') + 1; /* A */") 1 26), st).
Proof.
  intros reps st. etransitivity; [refine (replacement_expands _ [] 20 14 (txt "x = a; /* A */") (txt "f") true (mkCur [] 1 1) st _ _ _ _ _)|];
    [|vm_compute; reflexivity|vm_compute; lia|vm_compute; reflexivity|vm_compute; lia|vm_compute; reflexivity].
  intros key rep. change (replacements_ st) with reps. unfold reps. intros Hk.
  apply lookup_insert_Some in Hk as [[_ <-]|[_ Hk]]; [split; [reflexivity|vm_compute; lia]|].
  apply lookup_singleton_Some in Hk as [_ <-]. split; [reflexivity|vm_compute; lia].
Defined.

(** ** Text in which nothing is replaced *)
Lemma expansion_none k busy n m s : expansion ∅ k busy n m s = drop n s.
Proof.
  rewrite expansion_skip. generalize (drop n s). clear n s. intros s. remember (length s) as l eqn:E.
  revert m s E. induction l as [l IH] using lt_wf_ind. intros m [|c s] ->; [apply expansion_nil|].
  rewrite expansion_cons. cbn [length] in IH.
  assert (forall j m', expansion ∅ k busy j m' s = drop j s) as IH'.
  { intros j m'. rewrite expansion_skip. eapply IH; [|done]. rewrite length_drop. lia. }
  rewrite !IH'. destruct (arm_step m (c :: s)) as [[j m']|] eqn:Ea.
  - rewrite IH'. pose proof (arm_step_length _ _ _ _ Ea). destruct j as [|j]; [lia|]. cbn. f_equal. apply take_drop.
  - destruct (isWordStart c); [|done].
    destruct k; cbv zeta; rewrite ?lookup_empty; cbn; f_equal; apply take_drop.
Qed.

Lemma entries_lines p s line : entries p s line = (fun i => mkFileLoc p (line + Z.of_nat i)) <$> seq 0 (nl s).
Proof.
  revert line. induction s as [|c s IH]; intros line; [done|]. cbn [entries]. unfold nl in *. rewrite filter_cons.
  destruct (ceqb c newline); [|done]. rewrite decide_True by done. cbn. f_equal; [f_equal; lia|].
  rewrite IH, <- (fmap_S_seq 0), <- list_fmap_compose. apply list_fmap_ext. intros ? i _. cbn. f_equal. lia.
Qed.

(** text without directives passes through.  A file with no [%] and no double
    quote outside strings and comments comes out byte for byte, with nothing
    reported, and flat line [k] is line [k] of that file: a diagnostic about it
    resolves to exactly that line. *)
Theorem plain_text_unchanged host dirs n input st source :
  contents host (normalized host input) = Some source -> quiet 0 Code source = true -> (length source + 2 <= n)%nat ->
  exists st', run host dirs n input st = Some (Some source, st') /\ cerr_ st' = cerr_ st /\
    fileSrc_ st' = {[normalized host input := source]} /\
    forall d k c, 1 <= k <= Z.of_nat (nl source) ->
      resolveFileLoc (setLineMap (Some (lineMap_ st')) d) (mkLoc k c) = Some (mkFileLoc (normalized host input) k).
Proof.
  intros Hc Hq Hn. set (p := normalized host input) in *. unfold run, expand, bind, get, modify, ret.
  fold p. destruct (decide _) as [H|_]; [by apply elem_of_nil in H|]. rewrite Hc.
  match goal with |- context [scan host dirs n source 0 (length source) p true ?cur ?st1] =>
    pose proof (scan_quiet host dirs ∅ (length source) (map_Forall_empty _) 0 n source p true cur st1 Hq ltac:(lia) eq_refl
      ltac:(done) ltac:(done) ltac:(lia)) as Hs end.
  cbn zeta in Hs. rewrite Hs, expansion_none. cbn [fmap option_fmap option_map drop]. rewrite moved_over_output.
  eexists. split; [reflexivity|].
  split; [done|]. split; [done|]. intros d k c Hk. cbn. rewrite drop_0, entries_lines. unfold resolveFileLoc. cbn.
  rewrite length_fmap, length_seq. destruct (Z.leb_spec k 0) as [|_]; [lia|].
  destruct (Z.ltb_spec (Z.of_nat (nl source)) k) as [|_]; [lia|].
  rewrite list_lookup_fmap. rewrite lookup_seq_lt by lia. cbn. do 2 f_equal. lia.
Qed.

Lemma plain_text_unchanged_witness :
  let src := txt "a: proc; /* 10% */" ++ [newline] ++ txt "put('%');" ++ [newline] in
  let host := mkHost id (fun _ => false) (fun _ => Some src) in
  exists st', run host [] 40 (txt "a") initial = Some (Some src, st') /\
    resolveFileLoc (setLineMap (Some (lineMap_ st')) (Diags_new [])) (mkLoc 2 1) = Some (mkFileLoc (txt "a") 2).
Proof.
  intros src host.
  destruct (plain_text_unchanged host [] 40 (txt "a") initial src) as (st' & ? & _ & _ & H); [done|done|vm_compute; lia|].
  exists st'. split; [done|]. apply H. vm_compute. split; discriminate.
Defined.
