(* ===== verification/PreprocFaults.v ===== *)
(** * Where the preprocessor departs from its comments

    Concrete runs in which the code does something other than what it says. *)
From S2P Require Import Prelude Monad Diag PPCond PPScan Preproc.

Fixpoint of_lines (l : list string) : text :=
  match l with [] => [] | x :: l => txt x ++ [newline] ++ of_lines l end.

(** A file preprocessed: its output, the line that the map gives for each flat
    line, and the diagnostics. *)
Definition preprocess (l : list string) : option (option text * list Z * text) :=
  match run (mkHost id (fun _ => false) (fun _ => Some (of_lines l))) [] 300 (txt "a.pli") initial with
  | Some (out, st) => Some (out, fline <$> lineMap_ st, cerr_ st)
  | None => None
  end.

