(* ===== verification/OnStack.v ===== *)
(** * The stack of ON units ([runtime/rt_cond.c], [runtime/rt_fiber.h])

    A task's ON-unit state, and the operations compiled code and the rest of the
    runtime call on it.  The frames in use ([on_sp] of them) are a list, the
    oldest first; the allocated capacity is a number.  A null pointer is 0.
    Whether the platform grants an allocation of [n] frames is a parameter;
    [None] is the abort when it does not. *)
From S2P Require Import Prelude.

Record pli_on_frame := mkFrame { key : Z; src : Z; id : Z; fn : Z; ctx : Z }.
#[global] Instance pli_on_frame_eq_dec : EqDecision pli_on_frame.
Proof. solve_decision. Defined.

Record pli_task_local := mkLocal {
  on_stack : list pli_on_frame; on_cap : Z; oncode : Z; on_source : Z; finish_fn : Z }.
Definition fresh_local : pli_task_local := mkLocal [] 0 0 0 0.

Definition on_sp (st : pli_task_local) : Z := Z.of_nat (length (on_stack st)).
Definition with_stack (s : list pli_on_frame) (cap : Z) (st : pli_task_local) : pli_task_local :=
  mkLocal s cap (oncode st) (on_source st) (finish_fn st).

Definition PLI_ON_INIT : Z := 16.
Definition RT_FINISH_KEY : Z := -6.

Section Alloc.
Context (realloc_ok : Z -> bool).

Definition on_shrink (st : pli_task_local) : pli_task_local :=
  if (PLI_ON_INIT <? on_cap st) && (on_sp st <=? on_cap st / 4) then
    let cap := on_cap st / 2 in
    if realloc_ok cap then with_stack (on_stack st) cap st else st
  else st.

Definition rt_pli_on_push (k i f c : Z) (st : pli_task_local) : option pli_task_local :=
  let frame := mkFrame k 0 i f c in
  if on_sp st =? on_cap st then
    let cap := if on_cap st =? 0 then PLI_ON_INIT else on_cap st * 2 in
    if realloc_ok cap then Some (with_stack (on_stack st ++ [frame]) cap st) else None
  else Some (with_stack (on_stack st ++ [frame]) (on_cap st) st).

(** [for (int i = n - 1; i >= base; --i) if (on_stack[i].key == k)] *)
Fixpoint top_index (k base : Z) (s : list pli_on_frame) (n : nat) : option nat :=
  match n with
  | O => None
  | S i =>
      if Z.of_nat i <? base then None
      else match s !! i with
           | Some f => if key f =? k then Some i else top_index k base s i
           | None => top_index k base s i
           end
  end.
Definition top (k : Z) (st : pli_task_local) : option pli_on_frame :=
  top_index k 0 (on_stack st) (length (on_stack st)) ≫= (fun i => on_stack st !! i).

Definition rt_pli_on_top (k : Z) (st : pli_task_local) : Z := default 0 (id <$> top k st).
Definition rt_pli_on_top_fn (k : Z) (st : pli_task_local) : Z := default 0 (fn <$> top k st).
Definition rt_pli_on_top_ctx (k : Z) (st : pli_task_local) : Z := default 0 (ctx <$> top k st).
Definition pli_on_top_pair (k : Z) (st : pli_task_local) : Z * Z :=
  match top k st with Some f => (id f, ctx f) | None => (0, 0) end.
Definition pli_on_top_fn_pair (k : Z) (st : pli_task_local) : Z * Z :=
  match top k st with Some f => (fn f, ctx f) | None => (0, 0) end.

(** [for (int j = i; j < on_sp - 1; ++j) on_stack[j] = on_stack[j + 1];] *)
Fixpoint shift (n j : nat) (s : list pli_on_frame) : list pli_on_frame :=
  match n with
  | O => s
  | S n => match s !! S j with Some f => shift n (S j) (<[j := f]> s) | None => s end
  end.
Definition drop_frame (i : nat) (st : pli_task_local) : pli_task_local :=
  let s := shift (pred (length (on_stack st)) - i) i (on_stack st) in
  with_stack (take (pred (length s)) s) (on_cap st) st.

Definition pli_on_establish (k i f c base : Z) (st : pli_task_local) : option pli_task_local :=
  let base := if base <? 0 then 0 else base in
  rt_pli_on_push k i f c
    match top_index k base (on_stack st) (length (on_stack st)) with
    | Some j => drop_frame j st
    | None => st
    end.

Definition pli_on_revert (k base : Z) (st : pli_task_local) : pli_task_local :=
  if (base <? 0) || (on_sp st <? base) then st
  else match top_index k base (on_stack st) (length (on_stack st)) with
       | Some j => on_shrink (drop_frame j st)
       | None => st
       end.

Definition rt_pli_on_pop (k : Z) (st : pli_task_local) : pli_task_local :=
  match top_index k 0 (on_stack st) (length (on_stack st)) with
  | Some j => on_shrink (drop_frame j st)
  | None => st
  end.

Definition pli_on_depth_error (st : pli_task_local) : Z := on_sp st.
Definition pli_on_reset_error (d : Z) (st : pli_task_local) : pli_task_local :=
  if (0 <=? d) && (d <=? on_sp st) then
    on_shrink (with_stack (take (Z.to_nat d) (on_stack st)) (on_cap st) st)
  else st.

(** The unit to call, with its context, when a task's procedure returns. *)
Definition pli_task_finish_target (f : Z) (st : pli_task_local) : pli_task_local :=
  mkLocal (on_stack st) (on_cap st) (oncode st) (on_source st) f.
Definition pli_signal_finish (f : Z) (st : pli_task_local) : option (Z * Z) :=
  if (f =? 0) || negb (finish_fn st =? f) then None
  else let '(h, c) := pli_on_top_fn_pair RT_FINISH_KEY st in if h =? 0 then None else Some (h, c).

(** [pli_on_inherit]: what [dst] holds after the attacher's units are copied. *)
Definition pli_on_inherit (attacher dst : pli_task_local) : option pli_task_local :=
  let s := filter (fun f => key f <> RT_FINISH_KEY) (on_stack attacher) in
  let n := Z.of_nat (length s) in
  if n =? 0 then Some (with_stack [] 0 dst)
  else if realloc_ok n then Some (with_stack s n dst) else None.
End Alloc.

Definition pli_oncode (st : pli_task_local) : Z := oncode st.
Definition pli_set_oncode (c : Z) (st : pli_task_local) : pli_task_local :=
  mkLocal (on_stack st) (on_cap st) c (on_source st) (finish_fn st).
Definition pli_onkey (st : pli_task_local) : Z := if 0 <? on_sp st then 1 else 0.
Definition pli_on_source (st : pli_task_local) : Z :=
  match last (on_stack st) with Some f => i32 (src f) | None => on_source st end.
Definition pli_set_on_source (k : Z) (st : pli_task_local) : pli_task_local :=
  match last (on_stack st) with
  | Some f => with_stack (removelast (on_stack st) ++ [mkFrame (key f) k (id f) (fn f) (ctx f)]) (on_cap st) st
  | None => mkLocal (on_stack st) (on_cap st) (oncode st) k (finish_fn st)
  end.

(** ** The language rule: one unit per condition and activation

    What ON, REVERT and the return from a block do to the units that are
    established: each activation has at most one unit per condition, a signal
    finds the innermost one. *)
Record unit_ := mkUnit { u_id : Z; u_fn : Z; u_ctx : Z }.
#[global] Instance unit_eq_dec : EqDecision unit_.
Proof. solve_decision. Defined.

Inductive op := Enter | On (k i f c : Z) | Revert (k : Z) | Leave.

(** The innermost activation first; a program does not leave the outermost. *)
Definition spec_step (o : op) (env : list (gmap Z unit_)) : option (list (gmap Z unit_)) :=
  match o, env with
  | Enter, _ => Some (∅ :: env)
  | On k i f c, m :: env => Some (<[k := mkUnit i f c]> m :: env)
  | Revert k, m :: env => Some (delete k m :: env)
  | Leave, _ :: (_ :: _) as env => Some env
  | _, _ => None
  end.
Fixpoint established (k : Z) (env : list (gmap Z unit_)) : option unit_ :=
  match env with
  | [] => None
  | m :: env => match m !! k with Some u => Some u | None => established k env end
  end.

(** Compiled code saves the depth at the entry of an activation, passes it as the
    base of its operations, and resets the stack to it at the exit. *)
Definition code_step (realloc_ok : Z -> bool) (o : op) (st : pli_task_local) (bases : list Z) :
    option (pli_task_local * list Z) :=
  match o, bases with
  | Enter, _ => Some (st, pli_on_depth_error st :: bases)
  | On k i f c, b :: _ => (fun st => (st, bases)) <$> pli_on_establish realloc_ok k i f c b st
  | Revert k, b :: _ => Some (pli_on_revert realloc_ok k b st, bases)
  | Leave, b :: bases => Some (pli_on_reset_error realloc_ok b st, bases)
  | _, [] => Some (st, [])
  end.

(** ** The loops *)
Lemma shift_spec n j s : (j + n < length s)%nat ->
  shift n j s = take j s ++ take n (drop (S j) s) ++ drop (j + n) s.
Proof.
  revert j s. induction n as [|n IH]; intros j s Hl; [by rewrite Nat.add_0_r, take_0, app_nil_l, take_drop|]. cbn [shift].
  destruct (s !! S j) as [f|] eqn:E; [|apply lookup_ge_None in E; lia].
  rewrite IH by (rewrite length_insert; lia).
  assert (j < length s)%nat as Hj by lia. rewrite (take_S_r _ j f) by by rewrite list_lookup_insert_eq.
  rewrite take_insert_ge, !drop_insert_lt, (drop_S s f (S j)) by (done || lia). cbn [take]. rewrite <- !app_assoc.
  by replace (S j + n)%nat with (j + S n)%nat by lia.
Qed.

Lemma drop_frame_spec st pre f post : on_stack st = pre ++ f :: post ->
  drop_frame (length pre) st = with_stack (pre ++ post) (on_cap st) st.
Proof.
  intros E. unfold drop_frame. f_equal. rewrite E. set (s := pre ++ f :: post).
  assert (length s = length pre + S (length post))%nat as Hl by (unfold s; by rewrite length_app).
  assert (shift (pred (length s) - length pre) (length pre) s = pre ++ post ++ drop (length pre + length post) s) as ->.
  { assert (drop (S (length pre)) s = post) as Hd.
    { unfold s. rewrite cons_middle, app_assoc. apply drop_app_length'. rewrite length_app. cbn. lia. }
    rewrite shift_spec, Hd by lia. unfold s at 1. rewrite take_app_length, take_ge by lia. do 3 f_equal. lia. }
  rewrite !length_app, length_drop, Hl, app_assoc.
  rewrite take_app_le by (rewrite length_app; lia). apply take_ge. rewrite length_app. lia.
Qed.

(** The frame that a scan from the top stops at splits the stack. *)
Lemma top_index_found k b s i : top_index k b s (length s) = Some i ->
  exists pre f post, s = pre ++ f :: post /\ length pre = i /\ b <= Z.of_nat i /\ key f = k /\ Forall (fun g => key g <> k) post.
Proof.
  assert (forall n t, n = length s -> top_index k b (s ++ t) n = Some i ->
    exists pre f post, s = pre ++ f :: post /\ length pre = i /\ b <= Z.of_nat i /\ key f = k /\ Forall (fun g => key g <> k) post) as H.
  { induction s as [|f s IH] using rev_ind; intros n t ->; cbn; [done|]. rewrite length_app, Nat.add_1_r. cbn.
    destruct (Z.ltb_spec (Z.of_nat (length s)) b); [done|]. rewrite <- app_assoc; cbn [app]; rewrite list_lookup_middle by done.
    destruct (Z.eqb_spec (key f) k) as [Hk|Hk].
    - intros [= <-]. by exists s, f, [].
    - intros (pre & g & post & -> & ? & ? & ? & ?)%IH; [|done]. exists pre, g, (post ++ [f]).
      rewrite <- app_assoc. split; [done|]. rewrite Forall_app, Forall_singleton. done. }
  intros E. apply (H (length s) []); [done|by rewrite app_nil_r].
Qed.
Lemma top_index_none k b s : top_index k b s (length s) = None -> Forall (fun g => key g <> k) (drop (Z.to_nat b) s).
Proof.
  assert (forall n t, n = length s -> top_index k b (s ++ t) n = None -> Forall (fun g => key g <> k) (drop (Z.to_nat b) s)) as H.
  { induction s as [|f s IH] using rev_ind; intros n t ->; cbn; [by rewrite drop_nil|].
    rewrite length_app, Nat.add_1_r. cbn. destruct (Z.ltb_spec (Z.of_nat (length s)) b) as [Hb|Hb].
    - intros _. rewrite drop_ge; [constructor|]. rewrite length_app. cbn. lia.
    - rewrite <- app_assoc; cbn [app]; rewrite list_lookup_middle by done. destruct (Z.eqb_spec (key f) k) as [Hk|Hk]; [done|].
      intros E. rewrite drop_app_le by lia. apply Forall_app. split; [by eapply IH|by apply Forall_singleton]. }
  intros E. apply (H (length s) []); [done|by rewrite app_nil_r].
Qed.

(** ** The stack represents the established units *)
Definition unit_of (f : pli_on_frame) : unit_ := mkUnit (id f) (fn f) (ctx f).
Definition of_key (k : Z) (s : list pli_on_frame) : list pli_on_frame := filter (fun f => key f = k) s.

Definition seg_rep (s : list pli_on_frame) (m : gmap Z unit_) : Prop :=
  NoDup (key <$> s) /\ forall k, m !! k = unit_of <$> last (of_key k s).
Fixpoint rep (s : list pli_on_frame) (bases : list Z) (env : list (gmap Z unit_)) : Prop :=
  match bases, env with
  | [], [] => s = []
  | b :: bases, m :: env =>
      0 <= b <= Z.of_nat (length s) /\ seg_rep (drop (Z.to_nat b) s) m /\ rep (take (Z.to_nat b) s) bases env
  | _, _ => False
  end.

Lemma of_key_app k s t : of_key k (s ++ t) = of_key k s ++ of_key k t.
Proof. apply filter_app. Qed.
Lemma of_key_none k s : Forall (fun g => key g <> k) s -> of_key k s = [].
Proof. intros H. unfold of_key. induction H as [|f s Hf _ IH]; [done|]. by rewrite filter_cons, decide_False. Qed.
Lemma of_key_keys k s : k ∉ key <$> s -> of_key k s = [].
Proof. intros H. apply of_key_none, Forall_forall. intros f Hf Hk. apply H, list_elem_of_fmap. by exists f. Qed.

Lemma top_last k st : top k st = last (of_key k (on_stack st)).
Proof.
  unfold top. destruct (top_index k 0 (on_stack st) (length (on_stack st))) as [i|] eqn:E; cbn.
  - apply top_index_found in E as (pre & f & post & -> & <- & _ & Hk & Hp).
    rewrite list_lookup_middle by done. unfold of_key. rewrite filter_app, filter_cons, decide_True by done.
    change (filter (fun f0 => key f0 = k) post) with (of_key k post). rewrite of_key_none by done. by rewrite last_snoc.
  - apply top_index_none in E. rewrite drop_0 in E. by rewrite of_key_none.
Qed.

Lemma rep_established s bases env k : rep s bases env -> established k env = unit_of <$> last (of_key k s).
Proof.
  revert s bases. induction env as [|m env IH]; intros s [|b bases] H; cbn in H; try done.
  - by subst.
  - destruct H as (Hb & [_ Hm] & Hr). cbn. rewrite Hm, (IH _ _ Hr).
    assert (of_key k s = of_key k (take (Z.to_nat b) s) ++ of_key k (drop (Z.to_nat b) s)) as ->
      by by rewrite <- of_key_app, take_drop.
    destruct (of_key k (drop (Z.to_nat b) s)) as [|f r] eqn:E using rev_ind; [by rewrite app_nil_r|].
    by rewrite app_assoc, !last_snoc.
Qed.

Lemma seg_delete s m k pre f post : seg_rep s m -> s = pre ++ f :: post -> key f = k -> seg_rep (pre ++ post) (delete k m).
Proof.
  intros [Hn Hm] -> Hk. rewrite fmap_app, fmap_cons in Hn.
  assert (NoDup (key <$> pre ++ post) /\ k ∉ key <$> pre ++ post) as [Hn' Hk'].
  { rewrite fmap_app. apply NoDup_app in Hn as (Hpre & Hd & [Hf Hpost]%NoDup_cons). rewrite Hk in *. split.
    - apply NoDup_app. split; [done|]. split; [|done]. intros x Hx Hx'. apply (Hd x Hx). by right.
    - intros [Hx|Hx]%elem_of_app; [|done]. apply (Hd k Hx). by left. }
  split; [done|]. intros k'. destruct (decide (k = k')) as [<-|Hne].
  - rewrite lookup_delete_eq, of_key_keys; done.
  - rewrite lookup_delete_ne, Hm by done. do 2 f_equal. rewrite !of_key_app. f_equal. unfold of_key.
    rewrite filter_cons, decide_False; congruence.
Qed.
Lemma seg_absent s m k : seg_rep s m -> Forall (fun g => key g <> k) s -> delete k m = m.
Proof. intros [_ Hm] H. apply delete_id. by rewrite Hm, of_key_none. Qed.
Lemma seg_push s m k i f c : seg_rep s m -> m !! k = None -> seg_rep (s ++ [mkFrame k 0 i f c]) (<[k := mkUnit i f c]> m).
Proof.
  intros [Hn Hm] Hk. split.
  - rewrite fmap_app. apply NoDup_app. split; [done|]. split; [|apply NoDup_singleton].
    intros x Hx Hx'. apply list_elem_of_singleton in Hx' as ->. apply list_elem_of_fmap in Hx as (g & Hkg & Hg).
    cbn in Hkg. subst k.
    rewrite Hm in Hk. assert (g ∈ of_key (key g) s) as Hin by (by apply list_elem_of_filter).
    destruct (of_key (key g) s) as [|y l] using rev_ind; [by apply elem_of_nil in Hin|]. by rewrite last_snoc in Hk.
  - intros k'. rewrite of_key_app. destruct (decide (k = k')) as [<-|Hne].
    + rewrite lookup_insert_eq. assert (of_key k [mkFrame k 0 i f c] = [mkFrame k 0 i f c]) as ->
        by (unfold of_key; by rewrite filter_cons_True). by rewrite last_snoc.
    + rewrite lookup_insert_ne, Hm, (of_key_none k' [_]), app_nil_r by (done || by apply Forall_singleton). done.
Qed.

(** ** Capacity *)
Definition fits (st : pli_task_local) : Prop := on_sp st <= on_cap st.

Lemma on_sp_with s cap st : on_sp (with_stack s cap st) = Z.of_nat (length s).
Proof. done. Qed.
Section Steps.
Context (realloc_ok : Z -> bool).

Lemma on_shrink_keeps st : fits st ->
  on_stack (on_shrink realloc_ok st) = on_stack st /\ fits (on_shrink realloc_ok st).
Proof.
  intros H. unfold on_shrink. destruct (_ && _) eqn:E; [|done]. destruct (realloc_ok _); [|done].
  split; [done|]. apply andb_true_iff in E as [E1 E2]. unfold fits, on_sp in *. cbn. unfold PLI_ON_INIT in *.
  apply Z.leb_le in E2. apply Z.ltb_lt in E1. etransitivity; [exact E2|]. apply Z.div_le_compat_l; lia.
Qed.

Lemma push_spec k i f c st : fits st ->
  match rt_pli_on_push realloc_ok k i f c st with
  | Some st' => on_stack st' = on_stack st ++ [mkFrame k 0 i f c] /\ fits st'
  | None => exists n, realloc_ok n = false
  end.
Proof.
  intros H. unfold rt_pli_on_push, fits, on_sp in *. destruct (Z.eqb_spec (Z.of_nat (length (on_stack st))) (on_cap st)) as [E|E].
  - destruct (realloc_ok _) eqn:Ea; [|by eexists]. cbn. rewrite length_app. cbn. split; [done|].
    destruct (Z.eqb_spec (on_cap st) 0); unfold PLI_ON_INIT; lia.
  - cbn. rewrite length_app. cbn. split; [done|]. lia.
Qed.

Lemma drop_frame_keeps st pre f post : fits st -> on_stack st = pre ++ f :: post ->
  on_stack (drop_frame (length pre) st) = pre ++ post /\ fits (drop_frame (length pre) st).
Proof.
  intros H E. rewrite (drop_frame_spec _ _ _ _ E). split; [done|]. unfold fits, on_sp in *. cbn. rewrite E, length_app in H.
  cbn in H. rewrite length_app. lia.
Qed.

(** What ON and REVERT remove: the frame for the condition in the activation that
    starts at [b], if it has one. *)
Lemma remove_spec k b st m : fits st -> 0 <= b <= on_sp st -> seg_rep (drop (Z.to_nat b) (on_stack st)) m ->
  exists seg, seg_rep seg (delete k m) /\
  match top_index k b (on_stack st) (length (on_stack st)) with
  | Some j => on_stack (drop_frame j st) = take (Z.to_nat b) (on_stack st) ++ seg /\ fits (drop_frame j st)
  | None => on_stack st = take (Z.to_nat b) (on_stack st) ++ seg
  end.
Proof.
  intros Hf Hb Hm. destruct (top_index k b (on_stack st) (length (on_stack st))) as [j|] eqn:E.
  - apply top_index_found in E as (pre & f & post & Es & <- & Hbj & Hk & _).
    pose proof (drop_frame_keeps st pre f post Hf Es) as [-> ?].
    assert (take (Z.to_nat b) (on_stack st) = take (Z.to_nat b) pre) as -> by (rewrite Es, take_app_le by lia; done).
    exists (drop (Z.to_nat b) pre ++ post). split; [|split; [by rewrite app_assoc, take_drop|done]].
    apply (seg_delete _ _ _ _ f _ Hm); [|done]. by rewrite Es, drop_app_le by lia.
  - apply top_index_none in E. exists (drop (Z.to_nat b) (on_stack st)). rewrite take_drop. split; [|done].
    by rewrite (seg_absent _ _ _ Hm E).
Qed.

Lemma rep_prefix b s seg bases m env : 0 <= b <= Z.of_nat (length s) -> rep (take (Z.to_nat b) s) bases env ->
  seg_rep seg m -> rep (take (Z.to_nat b) s ++ seg) (b :: bases) (m :: env).
Proof.
  intros Hb Hr Hs. assert (length (take (Z.to_nat b) s) = Z.to_nat b) as El by (rewrite length_take; lia).
  cbn. rewrite length_app, El. split; [lia|].
  rewrite drop_app_length', take_app_length' by done. done.
Qed.

Lemma step_refines o st bases env env' : fits st -> rep (on_stack st) bases env -> spec_step o env = Some env' ->
  match code_step realloc_ok o st bases with
  | Some (st', bases') => fits st' /\ rep (on_stack st') bases' env'
  | None => exists n, realloc_ok n = false
  end.
Proof.
  intros Hf Hr Hs. destruct o as [|k i f c|k|], env as [|m env], bases as [|b bases]; cbn in Hs, Hr; simplify_eq; try done.
  - cbn. split; [done|]. unfold pli_on_depth_error, on_sp. rewrite Hr. split; [cbn; lia|].
    split; [|done]. split; [apply NoDup_nil_2|done].
  - cbn. split; [done|]. unfold pli_on_depth_error, on_sp. split; [lia|]. rewrite Nat2Z.id, drop_all, take_ge by lia.
    split; [|done]. split; [apply NoDup_nil_2|done].
  - destruct Hr as (Hb & Hm & Hr). cbn [code_step]. unfold pli_on_establish.
    destruct (Z.ltb_spec b 0); [lia|]. destruct (remove_spec k b st m Hf Hb Hm) as (seg & Hseg & Hst).
    assert (forall st1, fits st1 -> on_stack st1 = take (Z.to_nat b) (on_stack st) ++ seg ->
      match (fun st => (st, b :: bases)) <$> rt_pli_on_push realloc_ok k i f c st1 with
      | Some (st', bases') => fits st' /\ rep (on_stack st') bases' (<[k := mkUnit i f c]> m :: env)
      | None => exists n, realloc_ok n = false
      end) as Hpush.
    { intros st1 Hf1 E1. pose proof (push_spec k i f c st1 Hf1) as Hps. destruct (rt_pli_on_push _ _ _ _ _ _); [|done].
      destruct Hps as [E Hf2]. cbn [fmap option_fmap option_map]. split; [done|].
      rewrite E, E1, <- app_assoc. rewrite <- (insert_delete_eq m). apply rep_prefix; [done|done|].
      apply seg_push; [done|]. apply lookup_delete_eq. }
    destruct (top_index _ _ _ _); [|by apply Hpush]. destruct Hst. by apply Hpush.
  - destruct Hr as (Hb & Hm & Hr). cbn [code_step]. unfold pli_on_revert.
    destruct (Z.ltb_spec b 0); [lia|]. destruct (Z.ltb_spec (on_sp st) b); [unfold on_sp in *; lia|]. cbn [orb].
    destruct (remove_spec k b st m Hf Hb Hm) as (seg & Hseg & Hst). destruct (top_index _ _ _ _) as [j|].
    + destruct Hst as [E Hf1]. destruct (on_shrink_keeps _ Hf1) as [Es ?]. split; [done|]. rewrite Es, E. by apply rep_prefix.
    + split; [done|]. rewrite Hst. by apply rep_prefix.
  - destruct Hr as (Hb & _ & Hr). destruct env as [|m' env]; [done|]. simplify_eq. cbn [code_step]. unfold pli_on_reset_error.
    destruct (Z.leb_spec 0 b); [|lia]. destruct (Z.leb_spec b (on_sp st)); [|unfold on_sp in *; lia]. cbn [andb].
    edestruct (on_shrink_keeps (with_stack (take (Z.to_nat b) (on_stack st)) (on_cap st) st)) as [Es ?].
    { unfold fits, on_sp in *. cbn. rewrite length_take. lia. }
    split; [done|]. by rewrite Es.
Qed.
End Steps.

(** A program's operations, from the outermost activation on. *)
Fixpoint spec_run (os : list op) (env : list (gmap Z unit_)) : option (list (gmap Z unit_)) :=
  match os with [] => Some env | o :: os => spec_step o env ≫= spec_run os end.
Fixpoint code_run (realloc_ok : Z -> bool) (os : list op) (st : pli_task_local) (bases : list Z) :
    option (pli_task_local * list Z) :=
  match os with
  | [] => Some (st, bases)
  | o :: os => match code_step realloc_ok o st bases with
               | Some (st, bases) => code_run realloc_ok os st bases
               | None => None
               end
  end.

(** C23: ON units obey the language rule.  Run any sequence of block entries,
    ON, REVERT and block exits, nested as a program nests them, through the flat
    stack with the saved depths as bases.  It aborts only if an allocation is
    refused; otherwise, for every condition, the scans find exactly the unit that
    the rule says is in force (the innermost activation's, at most one per
    activation, an enclosing block's units untouched by ON and REVERT and back in
    force after the exit), and the frames in use stay within the capacity. *)
Theorem on_units_refine realloc_ok os env : spec_run os [∅] = Some env ->
  match code_run realloc_ok os fresh_local [0] with
  | Some (st, bases) =>
      length bases = length env /\ on_sp st <= on_cap st /\
      forall k, let u := default (mkUnit 0 0 0) (established k env) in
        rt_pli_on_top k st = u_id u /\ pli_on_top_fn_pair k st = (u_fn u, u_ctx u) /\ pli_on_top_pair k st = (u_id u, u_ctx u)
  | None => exists n, realloc_ok n = false
  end.
Proof.
  assert (forall st bases env0, fits st -> rep (on_stack st) bases env0 -> spec_run os env0 = Some env ->
    match code_run realloc_ok os st bases with
    | Some (st', bases') => fits st' /\ rep (on_stack st') bases' env
    | None => exists n, realloc_ok n = false
    end) as H.
  { induction os as [|o os IH]; intros st bases env0 Hf Hr Hs; cbn in Hs; [by simplify_eq|].
    destruct (spec_step o env0) as [env1|] eqn:E; [|done]. cbn in Hs.
    pose proof (step_refines realloc_ok o st bases env0 env1 Hf Hr E) as Hst. cbn [code_run].
    destruct (code_step realloc_ok o st bases) as [[st1 bases1]|]; [|done]. destruct Hst. by eapply IH. }
  intros Hs. specialize (H fresh_local [0] [∅] ltac:(done) ltac:(repeat split; [done|done|apply NoDup_nil_2]) Hs).
  destruct (code_run _ _ _ _) as [[st bases]|]; [|done]. destruct H as [Hf Hr]. split; [|split; [done|]].
  - clear -Hr. revert Hr. generalize (on_stack st). revert env. induction bases as [|b bases IH]; intros [|m env] s Hr; try done.
    cbn. f_equal. by eapply IH, Hr.
  - intros k u. unfold u. rewrite (rep_established _ _ _ k Hr).
    unfold rt_pli_on_top, pli_on_top_fn_pair, pli_on_top_pair. rewrite top_last. by destruct (last _).
Qed.

Lemma on_units_refine_witness :
  let os := [On 0 1 100 0; Enter; On 0 2 200 7; On 5 3 300 0; On 0 4 400 8; Revert 5; Enter; Revert 0; Leave] in
  exists st bases, code_run (fun _ => true) os fresh_local [0] = Some (st, bases) /\
    pli_on_top_fn_pair 0 st = (400, 8) /\ pli_on_top_fn_pair 5 st = (0, 0) /\ on_sp st = 2.
Proof.
  intros os. set (env := [<[0 := mkUnit 4 400 8]> (∅ : gmap Z unit_); <[0 := mkUnit 1 100 0]> (∅ : gmap Z unit_)]).
  pose proof (on_units_refine (fun _ => true) os env
    ltac:(vm_compute; reflexivity)) as H.
  destruct (code_run (fun _ => true) os fresh_local [0]) as [[st bases]|] eqn:E; [|vm_compute in E; discriminate].
  exists st, bases. destruct H as (_ & _ & H). split; [done|]. split; [apply (H 0)|]. split; [apply (H 5)|].
  vm_compute in E. injection E as <- _. reflexivity.
Defined.

(** A subtask starts with its attacher's units except FINISH. *)
Lemma inherit_keeps realloc_ok a dst st k : pli_on_inherit realloc_ok a dst = Some st ->
  fits st /\ top k st = if decide (k = RT_FINISH_KEY) then None else top k a.
Proof.
  unfold pli_on_inherit. set (s := filter (fun f => key f <> RT_FINISH_KEY) (on_stack a)). intros H.
  assert (on_stack st = s /\ fits st) as [Es Hf].
  { destruct (Z.eqb_spec (Z.of_nat (length s)) 0) as [E|]; [|destruct (realloc_ok _)]; simplify_eq.
    - split; [|unfold fits; cbn; done]. by destruct s.
    - split; [done|]. unfold fits, on_sp. cbn. lia. }
  split; [done|]. rewrite !top_last, Es. unfold s, of_key. case_decide as Hk.
  - change (last (of_key k s) = None). rewrite of_key_none; [done|].
    apply Forall_forall. intros f [Hf' _]%list_elem_of_filter. congruence.
  - f_equal. rewrite list_filter_filter. apply list_filter_iff. intros f. naive_solver congruence.
Qed.

(** [ONKEY()], documented as 1 while a signal is being handled, is 1 as soon as
    any unit is established. *)
Lemma onkey_without_signal : (pli_onkey <$> rt_pli_on_push (fun _ => true) 0 1 100 0 fresh_local) = Some 1.
Proof. reflexivity. Qed.
