(* ===== verification/Timers.v ===== *)
(** * The DELAY timers ([runtime/rt_sched.c])

    The fibers parked until a deadline, in an array meant to be a binary heap:
    [rt_timer_push], [rt_timer_next_deadline] and the part of
    [rt_take_expired_timer] under the scheduler's lock.  The array holds the
    [rt_timer_count] entries in use, the capacity is a number, and whether it can grow
    is a parameter.  No timer is lost or released early; but the sift-down does not
    choose the smaller child, so the root need not be the earliest deadline. *)
From S2P Require Import Prelude.

(** A fiber is named by a number; what the heap reads of it is its deadline. *)
Record timer := mkTimer { fiber : Z; deadline : Z }.
Record timers := mkTimers { heap : list timer; cap : Z }.
Definition no_timer : timer := mkTimer 0 0.
Definition at_ (h : list timer) (i : nat) : timer := default no_timer (h !! i).

(** [while (i > 0)]; [i] bounds the steps. *)
Fixpoint sift_up (n : nat) (h : list timer) (i : nat) (f : timer) : list timer :=
  match n with
  | O => <[i := f]> h
  | S n =>
      if (i =? 0)%nat then <[i := f]> h
      else
        let parent := ((i - 1) / 2)%nat in
        if deadline (at_ h parent) <=? deadline f then <[i := f]> h
        else sift_up n (<[i := at_ h parent]> h) parent f
  end.

Definition rt_timer_push (grow_ok : Z -> bool) (f : timer) (t : timers) : option timers :=
  let count := length (heap t) in
  let grown := if Z.of_nat count =? cap t then (if cap t =? 0 then 16 else cap t * 2) else cap t in
  if (Z.of_nat count =? cap t) && negb (grow_ok grown) then None
  else Some (mkTimers (sift_up count (heap t ++ [f]) count f) grown).

Definition rt_timer_next_deadline (t : timers) : Z :=
  match heap t with [] => -1 | f :: _ => deadline f end.

(** What [best] is at the end of an iteration. *)
Definition best_child (last : nat) (h : list timer) (moved : timer) (i : nat) : nat :=
  let l := (2 * i + 1)%nat in
  let r := (l + 1)%nat in
  let best := if (l <? last)%nat && (deadline (at_ h l) <? deadline moved) then l else i in
  if (r <? last)%nat && (deadline (at_ h r) <? deadline moved) then r else best.

(** [for (;;)], [last] entries in use; the fuel bounds the depth. *)
Fixpoint sift_down (n : nat) (last : nat) (h : list timer) (moved : timer) (i : nat) : list timer * nat :=
  match n with
  | O => (h, i)
  | S n =>
      let best := best_child last h moved i in
      if (best =? i)%nat then (h, i)
      else sift_down n last (<[best := at_ h i]> (<[i := at_ h best]> h)) moved best
  end.

(** The matured timer, which goes to the ready list of its fiber's owner. *)
Definition rt_take_expired_timer (now : Z) (t : timers) : option timer * timers :=
  match heap t with
  | [] => (None, t)
  | f :: _ =>
      if deadline f <=? now then
        let last := pred (length (heap t)) in
        let moved := at_ (heap t) last in
        let h :=
          if (0 <? last)%nat then
            let '(h, i) := sift_down (S last) last (heap t) moved 0 in <[i := moved]> h
          else heap t in
        (Some f, mkTimers (take last h) (cap t))
      else (None, t)
  end.

(** A run of the scheduler on its timers: what is pushed, what each look takes. *)
Inductive step := Push (f : timer) | Take (now : Z).
Fixpoint run (grow_ok : Z -> bool) (steps : list step) (t : timers) : option (list (option timer) * timers) :=
  match steps with
  | [] => Some ([], t)
  | Push f :: ss => rt_timer_push grow_ok f t ≫= run grow_ok ss
  | Take now :: ss =>
      let '(o, t) := rt_take_expired_timer now t in
      match run grow_ok ss t with Some (os, t) => Some (o :: os, t) | None => None end
  end.
Definition pushed (steps : list step) : list timer := flat_map (fun s => match s with Push f => [f] | _ => [] end) steps.
Definition taken (os : list (option timer)) : list timer := flat_map (fun o => match o with Some f => [f] | None => [] end) os.
Definition empty_timers : timers := mkTimers [] 0.

(** ** Swapping two entries *)
Lemma swap_perm {A} (l : list A) i j x y : l !! i = Some x -> l !! j = Some y ->
  <[i := y]> (<[j := x]> l) ≡ₚ l.
Proof.
  revert i j x y. assert (forall (l : list A) i j x y, (i < j)%nat -> l !! i = Some x -> l !! j = Some y -> <[i:=y]> (<[j:=x]> l) ≡ₚ l) as H.
  { clear l. intros l i j x y Hij Hi Hj. rewrite <- (take_drop_middle l j y Hj) at 2.
    rewrite <- (take_drop_middle (take j l) i x) by (by rewrite lookup_take_lt).
    assert (<[i:=y]> (<[j:=x]> l) = (take i (take j l) ++ y :: drop (S i) (take j l)) ++ x :: drop (S j) l) as ->; [|solve_Permutation].
    apply list_eq. intros k. pose proof (lookup_lt_Some _ _ _ Hi). pose proof (lookup_lt_Some _ _ _ Hj).
    assert (length (take i (take j l)) = i) as Hl1 by (rewrite !length_take; lia).
    assert (length (take i (take j l) ++ y :: drop (S i) (take j l)) = j) as Hl2.
    { rewrite length_app, Hl1. simpl. rewrite length_drop, length_take. lia. }
    destruct (decide (k = i)) as [->|Hki].
    { rewrite list_lookup_insert_eq by (rewrite length_insert; lia). rewrite lookup_app_l by lia.
      by rewrite (list_lookup_middle _ _ _ i). }
    rewrite list_lookup_insert_ne by done. destruct (decide (k = j)) as [->|Hkj].
    { rewrite list_lookup_insert_eq by lia. by rewrite (list_lookup_middle _ _ _ j). }
    rewrite list_lookup_insert_ne by done. destruct (decide (k < j)%nat) as [Hk|Hk].
    - rewrite lookup_app_l by lia. destruct (decide (k < i)%nat).
      + rewrite lookup_app_l by lia. by rewrite lookup_take_lt, lookup_take_lt by lia.
      + rewrite lookup_app_r by lia. rewrite Hl1. destruct (k - i)%nat as [|d] eqn:E; [lia|]. simpl.
        rewrite lookup_drop, lookup_take_lt by lia. f_equal. lia.
    - rewrite lookup_app_r by lia. rewrite Hl2. destruct (k - j)%nat as [|d] eqn:E; [lia|]. simpl.
      rewrite lookup_drop. f_equal. lia. }
  intros i j x y Hi Hj. destruct (lt_eq_lt_dec i j) as [[Hlt| ->]|Hgt].
  - by apply H.
  - rewrite list_insert_insert_eq. simplify_eq. by rewrite list_insert_id.
  - rewrite list_insert_insert_ne by lia. by apply H.
Qed.
Lemma at_lookup h i : (i < length h)%nat -> h !! i = Some (at_ h i).
Proof. intros Hi. unfold at_. destruct (lookup_lt_is_Some_2 h i Hi) as [x ->]. done. Qed.

(** ** Pushing *)
Lemma sift_up_perm n : forall h i f, (i < length h)%nat -> sift_up n h i f ≡ₚ <[i := f]> h.
Proof.
  induction n as [|n IH]; intros h i f Hi; [done|]. cbn [sift_up].
  destruct (Nat.eqb_spec i 0) as [->|H0]; [done|]. set (p := ((i - 1) / 2)%nat).
  assert (p < i)%nat as Hp by (apply Nat.Div0.div_lt_upper_bound; lia).
  destruct (_ <=? _); [done|]. rewrite IH by (rewrite length_insert; lia).
  rewrite <- (swap_perm (<[i := f]> h) p i (at_ h p) f).
  - by rewrite list_insert_insert_eq.
  - rewrite list_lookup_insert_ne by lia. apply at_lookup. lia.
  - by rewrite list_lookup_insert_eq.
Qed.
Lemma rt_timer_push_perm grow_ok f t t' : rt_timer_push grow_ok f t = Some t' -> heap t' ≡ₚ f :: heap t.
Proof.
  unfold rt_timer_push. destruct (_ && _); [done|]. intros [= <-]. cbn.
  rewrite sift_up_perm by (rewrite length_app; cbn; lia).
  rewrite insert_app_r_alt by done. rewrite Nat.sub_diag. cbn. by rewrite Permutation_app_comm.
Qed.

(** The order a heap keeps: no entry is earlier than its parent.  With a hole at [i]
    for [f], what the entries around it must satisfy. *)
Definition heap_ordered (h : list timer) : Prop :=
  forall k, (0 < k < length h)%nat -> deadline (at_ h ((k - 1) / 2)) <= deadline (at_ h k).
Definition ordered_but (h : list timer) (i : nat) (f : timer) : Prop :=
  (forall k, (0 < k < length h)%nat -> k <> i -> ((k - 1) / 2)%nat <> i ->
     deadline (at_ h ((k - 1) / 2)) <= deadline (at_ h k)) /\
  (forall k, (0 < k < length h)%nat -> ((k - 1) / 2)%nat = i ->
     deadline f <= deadline (at_ h k) /\
     ((0 < i)%nat -> deadline (at_ h ((i - 1) / 2)) <= deadline (at_ h k))).

Lemma at_insert h i f k : (i < length h)%nat -> at_ (<[i := f]> h) k = if decide (k = i) then f else at_ h k.
Proof.
  intros Hi. unfold at_. destruct (decide (k = i)) as [->|Hk].
  - by rewrite list_lookup_insert_eq.
  - by rewrite list_lookup_insert_ne.
Qed.
Lemma parent_lt k : (0 < k)%nat -> ((k - 1) / 2 < k)%nat.
Proof. intros Hk. apply Nat.Div0.div_lt_upper_bound. lia. Qed.

Lemma plug_ordered h i f : (i < length h)%nat -> ordered_but h i f ->
  ((0 < i)%nat -> deadline (at_ h ((i - 1) / 2)) <= deadline f) -> heap_ordered (<[i := f]> h).
Proof.
  intros Hi [Ho Hc] Hp k Hk. rewrite length_insert in Hk. pose proof (parent_lt k ltac:(lia)).
  rewrite !at_insert by done. destruct (decide (k = i)) as [->|Hki].
  - rewrite decide_False by lia. apply Hp. lia.
  - destruct (decide _) as [E|E]; [by apply Hc|by apply Ho].
Qed.
Lemma sift_up_ordered n : forall h i f, (i < length h)%nat -> (i <= n)%nat -> ordered_but h i f ->
  heap_ordered (sift_up n h i f).
Proof.
  induction n as [|n IH]; intros h i f Hi Hn Ho; cbn [sift_up].
  { apply plug_ordered; [done..|lia]. }
  destruct (Nat.eqb_spec i 0) as [->|H0]; [by apply plug_ordered; [done..|lia]|].
  pose proof (parent_lt i ltac:(lia)) as Hp. set (p := ((i - 1) / 2)%nat) in *.
  destruct (Z.leb_spec (deadline (at_ h p)) (deadline f)) as [Hle|Hgt].
  { by apply plug_ordered. }
  apply IH; [rewrite length_insert; lia|lia|]. destruct Ho as [Ho Hc]. split; intros k Hk.
  - rewrite length_insert in Hk. intros Hkp Hpp. rewrite !at_insert by done.
    destruct (decide (k = i)) as [->|Hki]; [done|].
    destruct (decide _) as [E|E]; [by apply Hc; [..|lia]|]. by apply Ho.
  - rewrite length_insert in Hk. intros Hpp. rewrite !at_insert by done.
    assert (p > 0 -> ((p - 1) / 2 <> i)%nat)%nat as Hpi.
    { intros Hp0. pose proof (parent_lt p Hp0). lia. }
    assert (deadline (at_ h p) <= deadline (if decide (k = i) then at_ h p else at_ h k)) as Hle.
    { destruct (decide (k = i)); [lia|]. rewrite <- Hpp. apply Ho; [done..|]. rewrite Hpp. lia. }
    split; [lia|]. intros Hp0. rewrite decide_False by (apply Hpi; lia).
    transitivity (deadline (at_ h p)); [|done]. apply Ho; [lia..|]. pose proof (parent_lt p Hp0). lia.
Qed.
Lemma rt_timer_push_ordered grow_ok f t t' : rt_timer_push grow_ok f t = Some t' ->
  heap_ordered (heap t) -> heap_ordered (heap t').
Proof.
  unfold rt_timer_push. destruct (_ && _); [done|]. intros [= <-] Ho. cbn.
  apply sift_up_ordered; [rewrite length_app; cbn; lia|done|]. split; intros k; rewrite length_app; cbn [length]; intros Hk.
  - intros Hk1 _. pose proof (parent_lt k ltac:(lia)). unfold at_. rewrite !lookup_app_l by lia. apply Ho. lia.
  - intros Hp. pose proof (parent_lt k ltac:(lia)). lia.
Qed.

(** The root of an ordered heap is its earliest entry. *)
Lemma heap_ordered_root h : heap_ordered h -> forall k, (k < length h)%nat ->
  deadline (at_ h 0) <= deadline (at_ h k).
Proof.
  intros Ho k. induction (lt_wf k) as [k _ IH]. intros Hk. destruct (decide (k = 0)%nat) as [->|H0]; [lia|].
  pose proof (parent_lt k ltac:(lia)). transitivity (deadline (at_ h ((k - 1) / 2))); [apply IH; lia|]. apply Ho. lia.
Qed.

(** ** Taking *)
Lemma best_child_range last h moved i : (i < last)%nat ->
  (best_child last h moved i < last)%nat /\ (i <= best_child last h moved i)%nat.
Proof. intros Hi. unfold best_child. destruct (Nat.ltb_spec (2 * i + 1) last), (Nat.ltb_spec (2 * i + 1 + 1) last); cbn [andb]; repeat case_match; lia. Qed.
Lemma sift_down_keeps n last : forall h moved i h' i', (i < last)%nat -> (last < length h)%nat ->
  sift_down n last h moved i = (h', i') ->
  h' ≡ₚ h /\ (i' < last)%nat /\ h' !! i' = h !! i /\ h' !! last = h !! last.
Proof.
  induction n as [|n IH]; intros h moved i h' i' Hi Hl E; cbn [sift_down] in E; [by simplify_eq|].
  pose proof (best_child_range last h moved i Hi) as [Hb _]. set (best := best_child last h moved i) in *.
  destruct (Nat.eqb_spec best i) as [_|Hbi]; [by simplify_eq|].
  apply IH in E as (Hp & Hi' & Hr & Hlast); [|lia|rewrite !length_insert; lia]. split_and!; [|done|..].
  - rewrite Hp. rewrite list_insert_insert_ne by done. apply swap_perm; apply at_lookup; lia.
  - rewrite Hr, list_lookup_insert_eq by (rewrite length_insert; lia). symmetry. apply at_lookup. lia.
  - rewrite Hlast. by rewrite !list_lookup_insert_ne by lia.
Qed.
Lemma take_split {A} (h : list A) n x : length h = S n -> h !! n = Some x -> h = take n h ++ [x].
Proof. intros Hl Hx. rewrite <- (take_S_r h n x Hx). by rewrite take_ge by lia. Qed.

#[local] Arguments sift_down : simpl never.
Lemma rt_take_expired_timer_perm now t o t' : rt_take_expired_timer now t = (o, t') ->
  match o with
  | Some f => head (heap t) = Some f /\ deadline f <= now /\ heap t ≡ₚ f :: heap t'
  | None => t' = t /\ (forall f, head (heap t) = Some f -> now < deadline f)
  end /\ cap t' = cap t.
Proof.
  unfold rt_take_expired_timer. destruct (heap t) as [|f h] eqn:Eh; [by intros [= <- <-]|].
  destruct (Z.leb_spec (deadline f) now) as [Hle|Hgt].
  2: { intros [= <- <-]. split; [|done]. split; [done|]. intros ? [= <-]. lia. }
  set (last := pred (length (f :: h))). assert (length (f :: h) = S last) as Hlen by done. clearbody last.
  intros [= <- <-]. split; [|done]. split; [done|]. split; [done|]. cbn [heap].
  destruct (Nat.ltb_spec 0 last) as [Hl|Hl].
  - destruct (sift_down _ _ _ _ _) as [h' i] eqn:E.
    apply sift_down_keeps in E as (Hp & Hi & Hr & Hlast); [|lia|lia].
    set (moved := at_ (f :: h) last) in *. assert (h' !! last = Some moved) as Hm.
    { rewrite Hlast. apply at_lookup. lia. }
    assert (length h' = S last) as Hl' by (by rewrite Hp).
    assert (take last (<[i := moved]> h') ++ [f] ≡ₚ h') as Hperm.
    { etrans; [|apply (swap_perm h' i last f moved Hr Hm)].
      rewrite (take_split (<[i:=moved]> (<[last:=f]> h')) last f); [|by rewrite !length_insert|].
      2: { rewrite list_lookup_insert_ne by lia. by rewrite list_lookup_insert_eq by lia. }
      rewrite list_insert_insert_ne by lia. by rewrite (take_insert_ge _ _ last). }
    etrans; [symmetry; exact Hp|]. etrans; [symmetry; exact Hperm|]. apply Permutation_app_comm.
  - assert (last = 0%nat) as Hl0 by lia. rewrite Hl0. destruct h; [done|]. cbn in Hlen. lia.
Qed.

(** ** Runs *)
Lemma run_perm grow_ok ss : forall t os t', run grow_ok ss t = Some (os, t') ->
  heap t ++ pushed ss ≡ₚ taken os ++ heap t'.
Proof.
  induction ss as [|[f|now] ss IH]; intros t os t'; cbn [run].
  - intros [= <- <-]. cbn. by rewrite app_nil_r.
  - intros (t1 & Hp & Hr)%bind_Some. apply IH in Hr. rewrite <- Hr, (rt_timer_push_perm _ _ _ _ Hp).
    cbn. solve_Permutation.
  - destruct (rt_take_expired_timer now t) as [o t1] eqn:E. destruct (run _ _ _) as [[os1 t2]|] eqn:Er; [|done].
    intros [= <- <-]. apply IH in Er. apply rt_take_expired_timer_perm in E as [E _].
    change (pushed (Take now :: ss)) with (pushed ss). destruct o as [f|].
    + destruct E as (_ & _ & E). rewrite E. cbn. by rewrite Er.
    + destruct E as [-> _]. done.
Qed.
(** The moments of the looks, in order, beside what they took. *)
Definition looks (ss : list step) : list Z := flat_map (fun s => match s with Take now => [now] | _ => [] end) ss.
Definition grown_cap (c : Z) : Prop := c = 0 \/ exists k : nat, c = 16 * 2 ^ Z.of_nat k.
Definition sized (t : timers) : Prop := Z.of_nat (length (heap t)) <= cap t /\ grown_cap (cap t).
Lemma push_sized grow_ok f t t' : rt_timer_push grow_ok f t = Some t' -> sized t -> sized t'.
Proof.
  intros Hp [Hc Hg]. pose proof (Permutation_length (rt_timer_push_perm _ _ _ _ Hp)) as Hl. cbn [length] in Hl.
  unfold rt_timer_push in Hp. destruct (_ && _); [done|]. injection Hp as <-. unfold sized. cbn [heap cap] in *.
  destruct (Z.eqb_spec (Z.of_nat (length (heap t))) (cap t)) as [E|E]; [|split; [lia|done]].
  destruct Hg as [Hg|[k Hg]].
  - rewrite Hg in *. cbn. split; [lia|]. right. by exists 0%nat.
  - destruct (Z.eqb_spec (cap t) 0) as [|Hn]; [split; [lia|]; right; by exists 0%nat|].
    split; [|right; exists (S k); rewrite Hg; rewrite Nat2Z.inj_succ, Z.pow_succ_r by lia; ring].
    assert (0 < cap t) by (rewrite Hg; apply Z.mul_pos_pos; [lia|apply Z.pow_pos_nonneg; lia]). lia.
Qed.
Lemma run_facts grow_ok ss : forall t os t', run grow_ok ss t = Some (os, t') ->
  Forall2 (fun o now => match o with Some f => deadline f <= now | None => True end) os (looks ss) /\
  (sized t -> sized t').
Proof.
  induction ss as [|[f|now] ss IH]; intros t os t'; cbn [run].
  - intros [= <- <-]. by split; [constructor|].
  - intros (t1 & Hp & Hr)%bind_Some. apply IH in Hr as [Hf Hs]. split; [done|]. intros Ht. eapply Hs, push_sized; done.
  - destruct (rt_take_expired_timer now t) as [o t1] eqn:E. destruct (run _ _ _) as [[os1 t2]|] eqn:Er; [|done].
    intros [= <- <-]. apply IH in Er as [Hf Hs]. pose proof E as Hlen. apply rt_take_expired_timer_perm in E as [E Hc].
    split.
    + cbn. constructor; [|done]. by destruct o as [f|]; [apply E|].
    + intros [Hl Hg]. apply Hs. split; [|by rewrite Hc]. rewrite Hc. destruct o as [f|].
      * destruct E as (_ & _ & E). apply Permutation_length in E. cbn in E. lia.
      * by destruct E as [-> _].
Qed.

Lemma run_total ss : forall t, run (fun _ => true) ss t <> None.
Proof.
  induction ss as [|[f|now] ss IH]; intros t; cbn [run]; [done|..].
  - unfold rt_timer_push. rewrite andb_false_r. cbn. apply IH.
  - destruct (rt_take_expired_timer now t) as [o t1]. specialize (IH t1). by destruct (run _ _ _) as [[??]|].
Qed.

(** C28: whatever is pushed and whenever the workers look, no timer is lost, released twice
    or released early: those pushed are those taken and those still in the array, each
    taken one had matured at the moment of its look, and the array never outgrows its
    capacity, which is 0 or 16 doubled.  A run stops short only where growing failed. *)
Theorem timers_lose_nothing (grow_ok : Z -> bool) (ss : list step) :
  match run grow_ok ss empty_timers with
  | Some (os, t) =>
      pushed ss ≡ₚ taken os ++ heap t /\
      Forall2 (fun o now => match o with Some f => deadline f <= now | None => True end) os (looks ss) /\
      sized t
  | None => grow_ok <> (fun _ => true)
  end.
Proof.
  destruct (run _ _ _) as [[os t]|] eqn:E.
  - pose proof (run_facts _ _ _ _ _ E) as [Hf Hs]. split; [exact (run_perm _ _ _ _ _ E)|]. split; [done|].
    apply Hs. split; [done|by left].
  - intros ->. by eapply run_total.
Qed.

(** Once every timer has matured, as many looks as there are timers release them all,
    each look one, and leave the array empty. *)
Theorem timers_drain (grow_ok : Z -> bool) (now : Z) (t : timers) :
  Forall (fun f => deadline f <= now) (heap t) ->
  exists fs, run grow_ok (repeat (Take now) (length (heap t))) t = Some (map Some fs, mkTimers [] (cap t)) /\
    fs ≡ₚ heap t.
Proof.
  remember (length (heap t)) as n eqn:En. revert t En. induction n as [|n IH]; intros [h c] En Hf; cbn in *.
  - destruct h; [|done]. by exists [].
  - destruct (rt_take_expired_timer now (mkTimers h c)) as [o t1] eqn:E.
    apply rt_take_expired_timer_perm in E as [E Hc]. cbn in E, Hc. destruct o as [f|].
    + destruct E as (_ & _ & E). rewrite E in Hf. inversion Hf; subst. pose proof (Permutation_length E) as El. cbn in El.
      destruct (IH t1) as (fs & -> & Hfs); [lia|done|]. exists (f :: fs). cbn. split; [done|].
      by rewrite E, Hfs.
    + destruct E as [-> E]. destruct h as [|f h]; [done|]. specialize (E f eq_refl). inversion Hf. lia.
Qed.
Lemma timers_drain_witness :
  exists fs, run (fun _ => true) (repeat (Take 9) 2) (mkTimers [mkTimer 1 3; mkTimer 2 9] 16) =
    Some (map Some fs, mkTimers [] 16) /\ fs ≡ₚ [mkTimer 1 3; mkTimer 2 9].
Proof.
  apply (timers_drain (fun _ => true) 9 (mkTimers [mkTimer 1 3; mkTimer 2 9] 16)).
  repeat (constructor; [cbn; lia|]). constructor.
Defined.

(** while timers are only pushed the array is a heap: the next deadline the workers
    sleep until is the earliest pushed, and the next look releases that timer or, if it
    has not matured, none has. *)
Theorem timers_earliest (grow_ok : Z -> bool) (fs : list timer) (os : list (option timer)) (t : timers) (now : Z) :
  run grow_ok (map Push fs) empty_timers = Some (os, t) -> fs <> [] ->
  heap_ordered (heap t) /\
  (exists f, f ∈ fs /\ deadline f = rt_timer_next_deadline t) /\
  Forall (fun f => rt_timer_next_deadline t <= deadline f) fs /\
  match fst (rt_take_expired_timer now t) with
  | Some f => f ∈ fs /\ deadline f = rt_timer_next_deadline t
  | None => Forall (fun f => now < deadline f) fs
  end.
Proof.
  intros Hr Hne. pose proof (run_perm _ _ _ _ _ Hr) as Hp. cbn [heap empty_timers app] in Hp.
  assert (os = [] /\ heap_ordered (heap t)) as [-> Ho].
  { clear Hne Hp. assert (heap_ordered (heap empty_timers)) as H0 by (intros k; cbn; lia). revert H0 Hr. generalize empty_timers.
    induction fs as [|f fs IH]; intros t0 H0; cbn [map run]; [by intros [= <- <-]|].
    intros (t1 & H1 & H2)%bind_Some. by eapply IH, H2; eapply rt_timer_push_ordered. }
  assert (pushed (map Push fs) = fs) as Hpush.
  { clear. induction fs as [|f fs IH]; [done|]. cbn. by f_equal. }
  rewrite Hpush in Hp. cbn in Hp.
  assert (Forall (fun f => rt_timer_next_deadline t <= deadline f) fs) as Hmin.
  { apply Forall_forall. intros f Hf. rewrite Hp in Hf. apply list_elem_of_lookup in Hf as [k Hk].
    pose proof (heap_ordered_root _ Ho k (lookup_lt_Some _ _ _ Hk)) as Hle. unfold rt_timer_next_deadline.
    unfold at_ at 2 in Hle. rewrite Hk in Hle. by destruct (heap t). }
  assert (exists f h, heap t = f :: h /\ deadline f = rt_timer_next_deadline t) as (f & h & Hh & Hd).
  { unfold rt_timer_next_deadline. destruct (heap t) as [|f h]; [|by eauto]. by apply Permutation_nil_r in Hp. }
  assert (f ∈ fs) as Hin by (rewrite Hp, Hh; by left). split_and!; [done|by eauto|done|].
  destruct (rt_take_expired_timer now t) as [o t1] eqn:E. apply rt_take_expired_timer_perm in E as [E _]. cbn.
  rewrite Hh in E. cbn in E. destruct o as [g|].
  - destruct E as ([= <-] & _). done.
  - destruct E as [_ E]. specialize (E f eq_refl). eapply Forall_impl; [exact Hmin|]. cbn. intros. lia.
Qed.
Definition some_timers : list timer := [mkTimer 1 30; mkTimer 2 10; mkTimer 3 20].
Lemma timers_earliest_witness :
  exists t, run (fun _ => true) (map Push some_timers) empty_timers = Some ([], t) /\
    rt_timer_next_deadline t = 10 /\ Forall (fun f => rt_timer_next_deadline t <= deadline f) some_timers.
Proof.
  eexists. split; [vm_compute; reflexivity|]. split; [reflexivity|].
  refine (proj1 (proj2 (proj2 (timers_earliest (fun _ => true) some_timers [] _ 5 _ _)))); [vm_compute; reflexivity|discriminate].
Defined.

(** After a release the array need not be a heap: the sift-down takes the right child
    whenever it is earlier than the entry moved, even where the left child is earlier
    still.  Of the timers for 1, 2, 3 and 10, once the first is released the next
    deadline is 3 while 2 is pending, and a look at 2 releases nothing. *)
Theorem timer_overslept :
  exists t, run (fun _ => true) (map Push [mkTimer 1 1; mkTimer 2 2; mkTimer 3 3; mkTimer 4 10] ++ [Take 1]) empty_timers =
      Some ([Some (mkTimer 1 1)], t) /\
    mkTimer 2 2 ∈ heap t /\ rt_timer_next_deadline t = 3 /\ rt_take_expired_timer 2 t = (None, t) /\
    ~ heap_ordered (heap t).
Proof.
  eexists. split; [vm_compute; reflexivity|]. split; [right; left|]. do 2 (split; [reflexivity|]).
  intros Ho. specialize (Ho 1%nat). vm_compute in Ho. destruct Ho; [lia|done].
Qed.
