(* ===== verification/RunQueue.v ===== *)
(** * The run queues of the task scheduler ([runtime/rt_sched.c])

    The lock-free lists of runnable fibers: [rt_queue_push], [rt_queue_pop],
    [rt_queue_push_list], [rt_queue_steal], [rt_queue_pop_best], [rt_next_runnable], the
    drain of the ready list in [rt_worker_loop], the queue part of [rt_sched_spawn_ex]
    and of [rt_sched_unpark].  A routine is a program tree with one node for each access
    to shared memory, and any number of agents run interleaved node by node, in
    sequentially consistent order; a weak compare-and-swap may fail at will.  The sleeping
    and waking of workers and the context switch are not here.

    [wp] is a small logic of ownership for these programs, [inv_step] its soundness. *)
From S2P Require Import Prelude.
#[local] Set Default Proof Using "Type*".

Definition fiber := positive.

(** Where a push and a pop are between two tries. *)
Inductive push_at := PushLoad | PushLink (h : option fiber) | PushCas (h : option fiber).
Inductive pop_at := PopLoad | PopNext (h : fiber) | PopCas (h : fiber) (next : option fiber).

(** A program: [Ret] is done, [Stuck] has followed a null or an endless link. *)
Inductive prog (A : Type) :=
| Ret (a : A)
| Stuck
| Exchange (q : nat) (k : option fiber -> prog A)
| ReadNext (f : fiber) (k : option fiber -> prog A)
| WriteNext (f : fiber) (v : option fiber) (k : prog A)
| ReadPriority (f : fiber) (k : Z -> prog A)
| SetPriority (f : fiber) (v : Z) (k : prog A)
| PushLoop (q : nat) (list tail : fiber) (at_ : push_at) (k : prog A)
| PopLoop (q : nat) (at_ : pop_at) (k : option fiber -> prog A).
Arguments Ret {A}. Arguments Stuck {A}. Arguments Exchange {A}. Arguments ReadNext {A}.
Arguments WriteNext {A}. Arguments ReadPriority {A}. Arguments SetPriority {A}.
Arguments PushLoop {A}. Arguments PopLoop {A}.

Fixpoint bind {A B} (m : prog A) (f : A -> prog B) : prog B :=
  match m with
  | Ret a => f a
  | Stuck => Stuck
  | Exchange q k => Exchange q (fun h => bind (k h) f)
  | ReadNext x k => ReadNext x (fun v => bind (k v) f)
  | WriteNext x v k => WriteNext x v (bind k f)
  | ReadPriority x k => ReadPriority x (fun v => bind (k v) f)
  | SetPriority x v k => SetPriority x v (bind k f)
  | PushLoop q l t a k => PushLoop q l t a (bind k f)
  | PopLoop q a k => PopLoop q a (fun h => bind (k h) f)
  end.
Notation "'do' x <- m ; k" := (bind m (fun x => k)) (at level 10, x name, m at level 100, k at level 200).

(** ** The queue operations *)
Section queues.
(** No list is longer than the number of fibers, which bounds every walk. *)
Context (fibers : nat).

Definition rt_queue_push (q : nat) (f : fiber) : prog unit := PushLoop q f f PushLoad (Ret tt).
Definition rt_queue_pop (q : nat) : prog (option fiber) := PopLoop q PopLoad Ret.

Fixpoint list_tail (n : nat) (p : fiber) : prog fiber :=
  match n with
  | O => Stuck
  | S n => ReadNext p (fun v => match v with None => Ret p | Some p' => list_tail n p' end)
  end.
Definition rt_list_tail (p : fiber) : prog fiber := list_tail fibers p.
Definition rt_queue_push_list (q : nat) (list : fiber) : prog unit :=
  do tail <- rt_list_tail list; PushLoop q list tail PushLoad (Ret tt).

(** [for (p = list; p; p = p->next) ++n]. *)
Fixpoint count (n : nat) (p : option fiber) (acc : nat) : prog nat :=
  match p, n with
  | None, _ => Ret acc
  | Some _, O => Stuck
  | Some p, S n => ReadNext p (fun v => count n v (S acc))
  end.
(** [for (i = 1; i < half; ++i) split = split->next]. *)
Fixpoint forward (steps : nat) (p : fiber) : prog fiber :=
  match steps with
  | O => Ret p
  | S k => ReadNext p (fun v => match v with None => Stuck | Some p' => forward k p' end)
  end.
Definition rt_queue_steal (q : nat) : prog (option fiber) :=
  Exchange q (fun list =>
    match list with
    | None => Ret None
    | Some l =>
        do n <- count fibers (Some l) 0;
        if (n <? 2)%nat then Ret (Some l)
        else
          do split <- forward (n / 2 - 1) l;
          ReadNext split (fun rest =>
            WriteNext split None
              match rest with
              | None => Stuck
              | Some r => do tail <- rt_list_tail r; PushLoop q r tail PushLoad (Ret (Some l))
              end)
    end).

(** The scan of [rt_queue_pop_best]: [best], the fiber before it, and the walk. *)
Fixpoint scan_best (n : nat) (best : fiber) (best_prev : option fiber) (prev : fiber) (cur : option fiber)
    : prog (fiber * option fiber) :=
  match cur, n with
  | None, _ => Ret (best, best_prev)
  | Some _, O => Stuck
  | Some c, S n =>
      ReadPriority c (fun pc => ReadPriority best (fun pb =>
        let '(best, best_prev) := if pb <? pc then (c, Some prev) else (best, best_prev) in
        ReadNext c (fun v => scan_best n best best_prev c v)))
  end.
Definition rt_queue_pop_best (prio_used : bool) (q : nat) : prog (option fiber) :=
  if negb prio_used then rt_queue_pop q
  else
    Exchange q (fun list =>
      match list with
      | None => Ret None
      | Some l =>
          ReadNext l (fun cur =>
            do b <- scan_best fibers l None l cur;
            let '(best, best_prev) := b in
            ReadNext best (fun after =>
              do list <- match best_prev with
                         | Some bp => WriteNext bp after (Ret (Some l))
                         | None => Ret after
                         end;
              WriteNext best None
                match list with
                | Some l => do _ <- rt_queue_push_list q l; Ret (Some best)
                | None => Ret (Some best)
                end))
      end).
End queues.

(** ** The worker's part *)
(** The queues by number: the global one, then each worker's [local] and [ready]. *)
Definition global_q : nat := 0.
Definition local_q (w : nat) : nat := 1 + 2 * w.
Definition ready_q (w : nat) : nat := 2 + 2 * w.

Section worker.
Context (fibers workers : nat) (prio_used : bool).

(** [for (int i = 1; i < rt_worker_count; ++i)]: the peers in turn. *)
Fixpoint steal_from (n i w : nat) : prog (option fiber) :=
  match n with
  | O => Ret None
  | S n =>
      do stolen <- rt_queue_steal fibers (local_q ((w + i) mod workers));
      match stolen with
      | Some s => do _ <- rt_queue_push_list fibers (local_q w) s; rt_queue_pop_best fibers prio_used (local_q w)
      | None => steal_from n (S i) w
      end
  end.
Definition rt_take_global : prog (option fiber) := rt_queue_pop global_q.
(** Without the timers, which release no fiber to the caller. *)
Definition rt_next_runnable (w : nat) (runnext : option fiber) : prog (option fiber) :=
  let look :=
    do f <- rt_queue_pop_best fibers prio_used (local_q w);
    match f with
    | Some f => Ret (Some f)
    | None =>
        do f <- rt_take_global;
        match f with
        | Some f => Ret (Some f)
        | None => steal_from (workers - 1) 1 w
        end
    end in
  match runnext with
  | None => look
  | Some f => if negb prio_used then Ret (Some f) else do _ <- rt_queue_push (local_q w) f; look
  end.

(** The fibers unparked while they slept on this worker. *)
Fixpoint drain (n w : nat) (ready : option fiber) : prog unit :=
  match ready, n with
  | None, _ => Ret tt
  | Some _, O => Stuck
  | Some f, S n => ReadNext f (fun v => do _ <- rt_queue_push (local_q w) f; drain n w v)
  end.
Definition drain_ready (w : nat) : prog unit := Exchange (ready_q w) (drain fibers w).

Definition rt_sched_unpark (home : option nat) (f : fiber) : prog unit :=
  match home with
  | Some h => rt_queue_push (ready_q h) f
  | None => rt_queue_push global_q f
  end.
(** [old = w->runnext; w->runnext = f; if (old) rt_queue_push(&w->local, old)]. *)
Definition spawned (w : nat) (f : fiber) (runnext : option fiber) : prog (option fiber) :=
  match runnext with
  | Some old => do _ <- rt_queue_push (local_q w) old; Ret (Some f)
  | None => Ret (Some f)
  end.

(** What a worker does in its life: look for a task (and then hold it), start a task it
    holds, unpark a task it holds for its home worker, change a priority.  [k] counts
    in the tasks held. *)
Inductive call := Look | Spawn (k : nat) | Unpark (k : nat) (home : option nat) | Reprioritize (f : fiber) (v : Z).
Fixpoint life (w : nat) (calls : list call) (runnext : option fiber) (held : list fiber)
    : prog (option fiber * list fiber) :=
  match calls with
  | [] => Ret (runnext, held)
  | Look :: cs =>
      do _ <- drain_ready w;
      do f <- rt_next_runnable w runnext;
      life w cs None (option_list f ++ held)
  | Spawn k :: cs =>
      match held !! k with
      | None => life w cs runnext held
      | Some f => do r <- spawned w f runnext; life w cs r (delete k held)
      end
  | Unpark k home :: cs =>
      match held !! k with
      | None => life w cs runnext held
      | Some f => do _ <- rt_sched_unpark home f; life w cs runnext (delete k held)
      end
  | Reprioritize f v :: cs => SetPriority f v (life w cs runnext held)
  end.
End worker.

(** ** Interleaving *)
Record sys (A : Type) := mkSys {
  heads : list (option fiber);
  next : fiber -> option fiber;
  priority : fiber -> Z;
  agents : list (prog A) }.
Arguments mkSys {A}. Arguments heads {A}. Arguments next {A}. Arguments priority {A}. Arguments agents {A}.
Definition upd {B} (f : fiber) (v : B) (m : fiber -> B) : fiber -> B := fun g => if decide (g = f) then v else m g.

(** One access of a program: the memory after it and what is left.  [fails] is the weak
    compare-and-swap failing on equal values. *)
Definition access {A} (fails : bool) (p : prog A) (hs : list (option fiber)) (nx : fiber -> option fiber)
    (pr : fiber -> Z) : list (option fiber) * (fiber -> option fiber) * (fiber -> Z) * prog A :=
  match p with
  | Ret _ | Stuck => (hs, nx, pr, p)
  | Exchange q k => match hs !! q with Some h => (<[q := None]> hs, nx, pr, k h) | None => (hs, nx, pr, Stuck) end
  | ReadNext f k => (hs, nx, pr, k (nx f))
  | WriteNext f v k => (hs, upd f v nx, pr, k)
  | ReadPriority f k => (hs, nx, pr, k (pr f))
  | SetPriority f v k => (hs, nx, upd f v pr, k)
  | PushLoop q l t a k =>
      match hs !! q with
      | None => (hs, nx, pr, Stuck)
      | Some cur =>
          match a with
          | PushLoad => (hs, nx, pr, PushLoop q l t (PushLink cur) k)
          | PushLink h => (hs, upd t h nx, pr, PushLoop q l t (PushCas h) k)
          | PushCas h =>
              if negb fails && bool_decide (cur = h) then (<[q := Some l]> hs, nx, pr, k)
              else (hs, nx, pr, PushLoop q l t PushLoad k)
          end
      end
  | PopLoop q a k =>
      match hs !! q with
      | None => (hs, nx, pr, Stuck)
      | Some cur =>
          match a with
          | PopLoad => (hs, nx, pr, match cur with None => k None | Some h => PopLoop q (PopNext h) k end)
          | PopNext h => (hs, nx, pr, PopLoop q (PopCas h (nx h)) k)
          | PopCas h v =>
              if negb fails && bool_decide (cur = Some h) then (<[q := v]> hs, nx, pr, WriteNext h None (k (Some h)))
              else (hs, nx, pr, PopLoop q PopLoad k)
          end
      end
  end.
Definition step {A} (i : nat) (fails : bool) (s : sys A) : sys A :=
  match agents s !! i with
  | None => s
  | Some p =>
      let '(hs, nx, pr, p) := access fails p (heads s) (next s) (priority s) in
      mkSys hs nx pr (<[i := p]> (agents s))
  end.
(** A schedule: which agent moves, and whether its compare-and-swap fails. *)
Definition run {A} (schedule : list (nat * bool)) (s : sys A) : sys A :=
  fold_left (fun s c => step (fst c) (snd c) s) schedule s.

(** ** Lists in memory *)
Fixpoint chain (nx : fiber -> option fiber) (h : option fiber) (l : list fiber) : Prop :=
  match l with
  | [] => h = None
  | f :: l => h = Some f /\ chain nx (nx f) l
  end.
(** A block: from [b] through [l] to its last fiber [t], whose link is not looked at. *)
Fixpoint links (nx : fiber -> option fiber) (b : fiber) (l : list fiber) (t : fiber) : Prop :=
  match l with
  | [] => False
  | f :: l =>
      b = f /\ match l with [] => t = f | _ => exists c, nx f = Some c /\ links nx c l t end
  end.
Definition agree (o : list fiber) (nx nx' : fiber -> option fiber) : Prop := forall f, f ∈ o -> nx' f = nx f.

Lemma agree_sub o o' nx nx' : agree o nx nx' -> o' ⊆ o -> agree o' nx nx'.
Proof. intros H Hs f Hf. apply H. by apply Hs. Qed.
Lemma agree_upd o f v nx : f ∉ o -> agree o nx (upd f v nx).
Proof. intros Hf g Hg. unfold upd. destruct (decide (g = f)) as [->|]; done. Qed.
Lemma chain_agree nx nx' l : forall h, agree l nx nx' -> chain nx h l -> chain nx' h l.
Proof.
  induction l as [|f l IH]; intros h H; [done|]. intros [-> Hc]. split; [done|]. rewrite (H f) by (by left).
  apply IH; [|done]. intros g Hg. apply H. by right.
Qed.
Lemma links_agree nx nx' l t : forall b, agree l nx nx' -> links nx b l t -> links nx' b l t.
Proof.
  induction l as [|f l IH]; intros b H; [done|]. intros [-> Hc]. split; [done|]. destruct l as [|g l]; [done|].
  destruct Hc as (c & E & Hc). exists c. split; [by rewrite (H f) by (by left)|]. apply IH; [|done].
  intros x Hx. apply H. by right.
Qed.
Lemma links_in nx l t : forall b, links nx b l t -> b ∈ l /\ t ∈ l.
Proof.
  induction l as [|f l IH]; intros b; [done|]. intros [-> Hc]. destruct l as [|g l].
  - subst. split; by left.
  - destruct Hc as (c & _ & Hc). apply IH in Hc as [_ Ht]. split; [by left|by right].
Qed.
Lemma chain_links nx l2 : forall l1 b, l1 <> [] ->
  chain nx (Some b) (l1 ++ l2) <-> exists t, links nx b l1 t /\ chain nx (nx t) l2.
Proof.
  intros l1. induction l1 as [|f [|g l1] IH]; intros b Hne; [done|..].
  - cbn. split; [|by intros (t & [-> ->] & ?)]. intros [[= ->] H]. by exists f.
  - change (chain nx (Some b) ((f :: g :: l1) ++ l2)) with (Some b = Some f /\ chain nx (nx f) ((g :: l1) ++ l2)).
    split.
    + intros [[= ->] H]. destruct (nx f) as [c|] eqn:E; [|by destruct H]. apply IH in H as (t & Ht & Hc); [|done].
      exists t. split; [|done]. split; [done|]. by exists c.
    + intros (t & (-> & c & E & Ht) & Hc). split; [done|]. rewrite E. apply IH; [done|]. by exists t.
Qed.
(** A list is a block whose last link is null. *)
Lemma chain_block nx b l : l <> [] -> chain nx (Some b) l -> exists t, links nx b l t /\ nx t = None.
Proof. intros Hne Hc. rewrite <- (app_nil_r l) in Hc. by apply (chain_links nx [] l b Hne) in Hc. Qed.
(** Relinking the tail puts a block in front of a list. *)
Lemma links_upd_tail nx l t v : forall b, NoDup l -> links nx b l t -> links (upd t v nx) b l t.
Proof.
  induction l as [|f l IH]; intros b Hd; [done|]. intros [-> Hc]. split; [done|]. destruct l as [|g l]; [done|].
  destruct Hc as (c & E & Hc). inversion Hd as [|? ? Hf Hd']; subst. exists c. split; [|by apply IH].
  unfold upd. rewrite decide_False; [done|]. intros ->. apply Hf. by apply links_in in Hc as [_ ?].
Qed.

(** ** Ownership *)
(** How a queue may be used: any agent may push and exchange; or all may push and only
    one agent pops; or nobody pushes. *)
Inductive mode := Exchanged | Popped (i : nat) | Unused.

Section logic.
Context {A : Type} (bound : nat) (modes : list mode) (i : nat).
Implicit Types (p : prog A) (o : list fiber) (nx : fiber -> option fiber).

Definition may_push (q : nat) : Prop := modes !! q = Some Exchanged \/ exists j, modes !! q = Some (Popped j).
Definition may_pop (q : nat) : Prop := modes !! q = Some (Popped i) \/ modes !! q = Some Unused.

(** Agent [i] may run [p] when it owns the fibers [o]: it touches only links it owns,
    never gets stuck, and ends with [Q]. *)
Fixpoint wp (Q : A -> list fiber -> (fiber -> option fiber) -> Prop) p o nx : Prop :=
  match p with
  | Ret a => Q a o nx
  | Stuck => False
  | Exchange q k =>
      modes !! q = Some Exchanged /\
      forall nx' h l, agree o nx nx' -> chain nx' h l -> NoDup (l ++ o) -> (length (l ++ o) <= bound)%nat ->
        wp Q (k h) (l ++ o) nx'
  | ReadNext f k => f ∈ o /\ wp Q (k (nx f)) o nx
  | WriteNext f v k => f ∈ o /\ wp Q k o (upd f v nx)
  | ReadPriority f k => forall v, wp Q (k v) o nx
  | SetPriority f v k => wp Q k o nx
  | PushLoop q b t a k =>
      may_push q /\
      exists l rest, o ≡ₚ l ++ rest /\ links nx b l t /\ (forall h, a = PushCas h -> nx t = h) /\
        forall nx', agree rest nx nx' -> wp Q k rest nx'
  | PopLoop q a k =>
      a = PopLoad /\ may_pop q /\
      forall nx', agree o nx nx' ->
        wp Q (k None) o nx' /\ forall f, f ∉ o -> wp Q (k (Some f)) (f :: o) (upd f None nx')
  end.

(** What a postcondition may say of the memory: only the links owned. *)
Definition stable (Q : A -> list fiber -> (fiber -> option fiber) -> Prop) : Prop :=
  forall a o o' nx nx', o ≡ₚ o' -> agree o nx nx' -> Q a o nx -> Q a o' nx'.

Lemma agree_refl o nx : agree o nx nx.
Proof. done. Qed.
Lemma agree_trans o nx1 nx2 nx3 : agree o nx1 nx2 -> agree o nx2 nx3 -> agree o nx1 nx3.
Proof. intros H1 H2 f Hf. rewrite H2, H1; done. Qed.
Lemma agree_perm o o' nx nx' : o ≡ₚ o' -> agree o nx nx' -> agree o' nx nx'.
Proof. intros Hp H f Hf. apply H. by rewrite Hp. Qed.
Lemma agree_sym o nx nx' : agree o nx nx' -> agree o nx' nx.
Proof. intros H f Hf. symmetry. by apply H. Qed.
Lemma agree_upd_both o f v nx nx' : agree o nx nx' -> agree (f :: o) (upd f v nx) (upd f v nx').
Proof.
  intros H g Hg. unfold upd. destruct (decide (g = f)); [done|]. apply H. set_solver.
Qed.

Lemma wp_stable Q : stable Q -> forall p o o' nx nx', o ≡ₚ o' -> agree o nx nx' -> wp Q p o nx -> wp Q p o' nx'.
Proof.
  intros HQ p. induction p as [a| |q k IH|f k IH|f v k IH|f k IH|f v k IH|q b t a k IH|q a k IH];
    intros o o' nx nx' Hp Ha; cbn [wp].
  - by apply HQ.
  - done.
  - intros [Hm H]. split; [done|]. intros nx2 h l Ha2 Hc Hd Hl. rewrite <- Hp in Hd, Hl.
    eapply IH; [by rewrite <- Hp|apply agree_refl|]. apply H; [|done..]. eapply agree_trans; [done|].
    by eapply agree_perm.
  - intros [Hf H]. rewrite (Ha f Hf). split; [by rewrite <- Hp|]. by eapply IH.
  - intros [Hf H]. split; [by rewrite <- Hp|]. eapply IH; [done| |exact H].
    eapply agree_sub; [by apply agree_upd_both|]. set_solver.
  - intros H v. by eapply IH.
  - intros H. by eapply IH.
  - intros (Hm & l & rest & Ho & Hl & Hh & H). split; [done|]. exists l, rest.
    assert (agree l nx nx') as Hal by (eapply agree_sub; [exact Ha|]; rewrite Ho; set_solver).
    split_and!; [by rewrite <- Hp|by eapply links_agree| |].
    + intros h E. rewrite (Hal t); [by apply Hh|]. by apply links_in in Hl as [_ ?].
    + intros nx2 H2. apply H. eapply agree_trans; [|exact H2]. eapply agree_sub; [exact Ha|]. rewrite Ho. set_solver.
  - intros (-> & Hm & H). do 2 (split; [done|]). intros nx2 H2.
    destruct (H nx2) as [H1 H3]; [eapply agree_trans; [exact Ha|]; by eapply agree_perm|]. split.
    + eapply IH; [done|apply agree_refl|done].
    + intros f Hf. eapply IH; [by rewrite <- Hp|apply agree_refl|]. apply H3. by rewrite Hp.
Qed.
End logic.

Lemma own_bind {A B} bound modes i (Q : B -> list fiber -> (fiber -> option fiber) -> Prop) (f : A -> prog B) m : forall o nx,
  wp bound modes i (fun a o nx => wp bound modes i Q (f a) o nx) m o nx -> wp bound modes i Q (bind m f) o nx.
Proof.
  induction m as [a| |q k IH|g k IH|g v k IH|g k IH|g v k IH|q b t a k IH|q a k IH]; intros o nx; cbn [wp bind];
    try done.
  - intros [Hm H]. split; [done|]. intros. apply IH. by apply H.
  - intros [Hf H]. split; [done|]. by apply IH.
  - intros [Hf H]. split; [done|]. by apply IH.
  - intros H v. by apply IH.
  - by apply IH.
  - intros (Hm & l & rest & Ho & Hl & Hh & H). split; [done|]. exists l, rest. split_and!; [done..|].
    intros nx' Ha. apply IH. by apply H.
  - intros (Ha & Hm & H). do 2 (split; [done|]). intros nx' Hag. destruct (H nx' Hag) as [H1 H2].
    split; [by apply IH|]. intros x Hx. apply IH. by apply H2.
Qed.
(** ** Soundness *)
(** What a pop between its tries remembers is still in its queue, with the same link. *)
Definition pop_seen {A} (ls : list (list fiber)) (p : prog A) : Prop :=
  match p with
  | PopLoop q PopLoad _ => True
  | PopLoop q (PopNext h) _ => exists pre post, ls !! q = Some (pre ++ h :: post)
  | PopLoop q (PopCas h v) _ => exists pre post, ls !! q = Some (pre ++ h :: post) /\ List.hd_error post = v
  | _ => True
  end.
Definition rewound {A} (p : prog A) : prog A :=
  match p with PopLoop q _ k => PopLoop q PopLoad k | _ => p end.

Lemma concat_split {B} (ls : list (list B)) i x : ls !! i = Some x -> concat ls ≡ₚ x ++ concat (<[i := []]> ls).
Proof.
  revert i. induction ls as [|l ls IH]; intros [|i]; [done..| |].
  - by intros [= ->].
  - intros H. cbn. rewrite (IH i H). rewrite !app_assoc. by rewrite (Permutation_app_comm l x).
Qed.
Lemma concat_set {B} (ls : list (list B)) i y : (i < length ls)%nat ->
  concat (<[i := y]> ls) ≡ₚ y ++ concat (<[i := []]> ls).
Proof.
  intros Hi. rewrite (concat_split (<[i := y]> ls) i y) by (by apply list_lookup_insert_eq).
  by rewrite list_insert_insert_eq.
Qed.

Section soundness.
Context {A : Type} (modes : list mode) (all : list fiber) (Hall : NoDup all).
Context (Q : nat -> A -> list fiber -> (fiber -> option fiber) -> Prop) (HQ : forall i, stable (Q i)).
Notation bound := (length all).
Implicit Types (s : sys A) (ls os : list (list fiber)).

Record inv s ls os : Prop := {
  inv_chains : Forall2 (chain (next s)) (heads s) ls;
  inv_modes : length modes = length (heads s);
  inv_unused : forall q, modes !! q = Some Unused -> ls !! q = Some [];
  inv_all : concat ls ++ concat os ≡ₚ all;
  inv_owners : length os = length (agents s);
  inv_agents : forall i p o, agents s !! i = Some p -> os !! i = Some o ->
    wp bound modes i (Q i) (rewound p) o (next s) /\ pop_seen ls p }.

Lemma inv_queue s ls os q : inv s ls os -> forall l, ls !! q = Some l ->
  exists h, heads s !! q = Some h /\ chain (next s) h l.
Proof.
  intros H l Hl. destruct (Forall2_lookup_r _ _ _ _ _ (inv_chains _ _ _ H) Hl) as (h & ? & ?). by exists h.
Qed.
Lemma inv_mode s ls os q m : inv s ls os -> modes !! q = Some m -> exists h l,
  heads s !! q = Some h /\ ls !! q = Some l /\ chain (next s) h l.
Proof.
  intros H Hm. assert (is_Some (heads s !! q)) as [h Hh].
  { apply lookup_lt_is_Some. rewrite <- (inv_modes _ _ _ H). by eapply lookup_lt_Some. }
  destruct (Forall2_lookup_l _ _ _ _ _ (inv_chains _ _ _ H) Hh) as (l & ? & ?). by exists h, l.
Qed.

(** A step that changes only links the agent owns. *)
Lemma step_owned s ls os i p o p' nx' pr' : inv s ls os -> agents s !! i = Some p -> os !! i = Some o ->
  (forall f, f ∉ o -> nx' f = next s f) ->
  wp bound modes i (Q i) (rewound p') o nx' /\ pop_seen ls p' ->
  inv (mkSys (heads s) nx' pr' (<[i := p']> (agents s))) ls os.
Proof.
  intros H Hp Ho Hnx Hp'. pose proof Hall as Hd. rewrite <- (inv_all _ _ _ H) in Hd.
  rewrite (concat_split os i o Ho) in Hd. split; cbn.
  - apply Forall2_same_length_lookup_2; [by eapply Forall2_length, H|]. intros q h l Hh Hl.
    eapply chain_agree; [|exact (Forall2_lookup_lr _ _ _ _ _ _ (inv_chains _ _ _ H) Hh Hl)]. intros f Hf. apply Hnx. intros Hfo.
    apply NoDup_app in Hd as (_ & Hd & _). apply (Hd f); [|set_solver].
    apply list_elem_of_In, in_concat. exists l. split; [|by apply list_elem_of_In].
    apply list_elem_of_In. by eapply list_elem_of_lookup_2.
  - apply H.
  - apply H.
  - apply H.
  - rewrite length_insert. apply H.
  - intros j pj oj Hj Hoj. destruct (decide (j = i)) as [->|Hji].
    + rewrite list_lookup_insert_eq in Hj by (by eapply lookup_lt_Some). by simplify_eq.
    + rewrite list_lookup_insert_ne in Hj by done. destruct (inv_agents _ _ _ H j pj oj Hj Hoj) as [Hw Hs].
      split; [|done]. eapply (wp_stable _ _ _ _ (HQ j)); [done| |exact Hw]. intros f Hf. apply Hnx. intros Hfo.
      apply NoDup_app in Hd as (_ & _ & Hd). apply NoDup_app in Hd as (_ & Hd & _). apply (Hd f); [done|].
      apply list_elem_of_In, in_concat. exists oj. split; [|by apply list_elem_of_In].
      apply list_elem_of_In, list_elem_of_lookup. exists j. by rewrite list_lookup_insert_ne.
Qed.
(** A step that moves fibers between the agent and a queue. *)
Lemma step_queue s ls os i p o p' q l h' l' o' : inv s ls os -> agents s !! i = Some p -> os !! i = Some o ->
  ls !! q = Some l -> chain (next s) h' l' -> l' ++ o' ≡ₚ l ++ o -> modes !! q <> Some Unused ->
  (modes !! q = Some Exchanged \/ modes !! q = Some (Popped i) \/ exists b, l' = b ++ l) ->
  wp bound modes i (Q i) (rewound p') o' (next s) /\ pop_seen (<[q := l']> ls) p' ->
  inv (mkSys (<[q := h']> (heads s)) (next s) (priority s) (<[i := p']> (agents s))) (<[q := l']> ls) (<[i := o']> os).
Proof.
  intros H Hp Ho Hl Hc Hperm Hu Hkeep Hp'. split; cbn.
  - by apply Forall2_insert; [apply H|].
  - rewrite length_insert. apply H.
  - intros q' Hq'. rewrite list_lookup_insert_ne by congruence. by apply H.
  - rewrite concat_set by (by eapply lookup_lt_Some). rewrite (concat_set os) by (by eapply lookup_lt_Some).
    rewrite <- (inv_all _ _ _ H). rewrite (concat_split ls q l Hl), (concat_split os i o Ho).
    transitivity ((l' ++ o') ++ concat (<[q:=[]]> ls) ++ concat (<[i:=[]]> os)); [solve_Permutation|].
    rewrite Hperm. solve_Permutation.
  - rewrite !length_insert. apply H.
  - intros j pj oj Hj Hoj. destruct (decide (j = i)) as [->|Hji].
    + rewrite list_lookup_insert_eq in Hj by (by eapply lookup_lt_Some).
      rewrite list_lookup_insert_eq in Hoj by (by eapply lookup_lt_Some). by simplify_eq.
    + rewrite list_lookup_insert_ne in Hj by done. rewrite list_lookup_insert_ne in Hoj by done.
      destruct (inv_agents _ _ _ H j pj oj Hj Hoj) as [Hw Hs]. split; [done|].
      destruct pj as [| | | | | | | |q' a k]; try done. destruct (decide (q' = q)) as [->|Hq].
      * destruct a as [|h|h v]; [done|..]; cbn in Hw; destruct Hw as (_ & Hm & _).
        all: destruct Hm as [Hm|Hm]; [|congruence]; destruct Hkeep as [?|[?|[b ->]]]; [congruence|congruence|].
        -- destruct Hs as (pre & post & E). simplify_eq. exists (b ++ pre), post. rewrite <- app_assoc.
           apply list_lookup_insert_eq. by eapply lookup_lt_Some.
        -- destruct Hs as (pre & post & E & Ev). simplify_eq. exists (b ++ pre), post. rewrite <- app_assoc.
           split; [|done]. apply list_lookup_insert_eq. by eapply lookup_lt_Some.
      * destruct a as [|h|h v]; [done|..]; cbn [pop_seen] in Hs |- *; by rewrite list_lookup_insert_ne.
Qed.

Lemma wp_start i p o nx ls : wp bound modes i (Q i) p o nx ->
  wp bound modes i (Q i) (rewound p) o nx /\ pop_seen ls p.
Proof. destruct p; cbn; try done. intros (-> & H). done. Qed.
Lemma inv_owned s ls os q l i o : inv s ls os -> ls !! q = Some l -> os !! i = Some o ->
  NoDup (l ++ o) /\ (length (l ++ o) <= bound)%nat.
Proof.
  intros H Hl Ho. pose proof (inv_all _ _ _ H) as Hp. rewrite (concat_split ls q l Hl), (concat_split os i o Ho) in Hp.
  assert ((l ++ o) ++ concat (<[q:=[]]> ls) ++ concat (<[i:=[]]> os) ≡ₚ all) as Hp'.
  { rewrite <- Hp. solve_Permutation. }
  split; [|rewrite <- (Permutation_length Hp'), !length_app; lia]. pose proof Hall as Hd. rewrite <- Hp' in Hd. by apply NoDup_app in Hd as [? _].
Qed.
Lemma chain_at nx h pre f post : chain nx h (pre ++ f :: post) -> chain nx (nx f) post /\ nx f = List.hd_error post.
Proof.
  revert h. induction pre as [|g pre IH]; intros h [-> Hc]; [|by eapply IH].
  split; [done|]. destruct post; [done|]. by destruct Hc.
Qed.

Lemma step_exchange s ls os i q k o : inv s ls os -> agents s !! i = Some (Exchange q k) -> os !! i = Some o ->
  forall h, heads s !! q = Some h ->
  exists ls' os', inv (mkSys (<[q := None]> (heads s)) (next s) (priority s) (<[i := k h]> (agents s))) ls' os'.
Proof.
  intros H Hp Ho h Hh. destruct (inv_agents _ _ _ H i _ o Hp Ho) as [[Hm Hw] _].
  destruct (inv_mode _ _ _ _ _ H Hm) as (h' & l & Hh' & Hl & Hc). simplify_eq.
  destruct (inv_owned _ _ _ _ _ _ _ H Hl Ho) as [Hd Hb]. exists (<[q := []]> ls), (<[i := l ++ o]> os).
  eapply step_queue; [done..|by rewrite Hm|by left|]. apply wp_start. by apply Hw.
Qed.
Lemma step_push s ls os i q b t a k o fails : inv s ls os -> agents s !! i = Some (PushLoop q b t a k) ->
  os !! i = Some o -> exists ls' os', inv (step i fails s) ls' os'.
Proof.
  intros H Hp Ho. destruct (inv_agents _ _ _ H i _ o Hp Ho) as [(Hm & l & rest & Hol & Hl & Ha & Hk) _].
  assert (exists m, modes !! q = Some m /\ m <> Unused) as (m & Hqm & Hmu)
    by (destruct Hm as [?|[j ?]]; [by exists Exchanged|by exists (Popped j)]).
  destruct (inv_mode _ _ _ _ _ H Hqm) as (h & lq & Hh & Hlq & Hc).
  destruct (inv_owned _ _ _ _ _ _ _ H Hlq Ho) as [Hd _]. rewrite Hol in Hd.
  pose proof (links_in _ _ _ _ Hl) as [_ Ht]. apply NoDup_app in Hd as (_ & _ & Hd).
  assert (wp bound modes i (Q i) (PushLoop q b t PushLoad k) o (next s)) as Hload.
  { split; [done|]. exists l, rest. by split_and!. }
  unfold step. rewrite Hp. cbn [access]. rewrite Hh. destruct a as [|h0|h0].
  - exists ls, os. eapply step_owned; [done..|]. split; [|done]. cbn. split; [done|]. exists l, rest. by split_and!.
  - exists ls, os. eapply step_owned; [done..|intros f Hf; unfold upd; rewrite decide_False; [done|]; intros ->; apply Hf; rewrite Hol; set_solver|].
    split; [|done]. cbn. split; [done|]. exists l, rest. split_and!; [done| | |].
    + apply links_upd_tail; [|done]. by apply NoDup_app in Hd as [? _].
    + intros ? [= ->]. unfold upd. by rewrite decide_True.
    + intros nx' Hag. apply Hk. eapply agree_trans; [|exact Hag]. apply agree_upd. intros Htr.
      apply NoDup_app in Hd as (_ & Hd & _). by apply (Hd t).
  - destruct (negb fails && bool_decide (h = h0)) eqn:E.
    + apply andb_true_iff in E as [_ ->%bool_decide_eq_true]. exists (<[q := l ++ lq]> ls), (<[i := rest]> os).
      eapply step_queue; [done..| | | | |].
      * apply chain_links; [by intros ->|]. exists t. split; [done|]. by rewrite (Ha h0 eq_refl).
      * rewrite Hol. solve_Permutation.
      * congruence.
      * right. right. by exists l.
      * apply wp_start. by apply Hk.
    + exists ls, os. by eapply step_owned.
Qed.
Lemma step_pop s ls os i q a k o fails : inv s ls os -> agents s !! i = Some (PopLoop q a k) ->
  os !! i = Some o -> exists ls' os', inv (step i fails s) ls' os'.
Proof.
  intros H Hp Ho. destruct (inv_agents _ _ _ H i _ o Hp Ho) as [(_ & Hm & Hk) Hs].
  assert (exists m, modes !! q = Some m) as (m & Hqm) by (destruct Hm; eauto).
  destruct (inv_mode _ _ _ _ _ H Hqm) as (h & lq & Hh & Hlq & Hc).
  destruct (inv_owned _ _ _ _ _ _ _ H Hlq Ho) as [Hd _]. destruct (Hk (next s)) as [Hk1 Hk2]; [done|].
  unfold step. rewrite Hp. cbn [access]. rewrite Hh. destruct a as [|f|f v].
  - exists ls, os. eapply step_owned; [done..|]. destruct h as [f|]; [|by apply wp_start]. split; [done|].
    destruct lq as [|g lq]; [done|]. destruct Hc as [[= ->] Hc]. exists [], lq. done.
  - exists ls, os. eapply step_owned; [done..|]. split; [done|]. destruct Hs as (pre & post & E). simplify_eq.
    exists pre, post. split; [done|]. by apply chain_at in Hc as [_ ->].
  - destruct Hs as (pre & post & E & Hv). simplify_eq. destruct (negb fails && bool_decide (h = Some f)) eqn:Ef.
    2: { exists ls, os. by eapply step_owned. }
    apply andb_true_iff in Ef as [_ ->%bool_decide_eq_true]. assert (pre = []) as ->.
    { destruct pre as [|g pre]; [done|]. destruct Hc as [[= ->] _]. apply NoDup_app in Hd as (Hd & _). cbn in Hd.
      inversion Hd as [|? ? Hg _]; subst. exfalso. apply Hg. set_solver. }
    apply chain_at in Hc as [Hc Hv]. rewrite Hv in Hc. exists (<[q := post]> ls), (<[i := f :: o]> os).
    eapply step_queue; [done..| | | |].
    + cbn. solve_Permutation.
    + intros Hu. pose proof (inv_unused _ _ _ H q Hu). by simplify_eq/=.
    + destruct Hm as [Hm|Hm]; [by right; left|]. pose proof (inv_unused _ _ _ H q Hm). by simplify_eq/=.
    + cbn. split; [|done]. split; [by left|]. apply Hk2. intros Hfo. apply NoDup_app in Hd as (_ & Hd & _).
      apply (Hd f); [by left|done].
Qed.

Theorem inv_step s ls os i fails : inv s ls os -> exists ls' os', inv (step i fails s) ls' os'.
Proof.
  intros H. destruct (agents s !! i) as [p|] eqn:Hp; [|unfold step; rewrite Hp; by exists ls, os].
  assert (is_Some (os !! i)) as [o Ho].
  { apply lookup_lt_is_Some. rewrite (inv_owners _ _ _ H). by eapply lookup_lt_Some. }
  destruct (inv_agents _ _ _ H i p o Hp Ho) as [Hw Hs].
  destruct p as [a| |q k|f k|f v k|f k|f v k|q b t a k|q a k].
  - unfold step. rewrite Hp. cbn. exists ls, os. by eapply step_owned.
  - done.
  - destruct Hw as [Hm Hw]. destruct (inv_mode _ _ _ _ _ H Hm) as (h & l & Hh & _).
    unfold step. rewrite Hp. cbn. rewrite Hh. by eapply step_exchange.
  - unfold step. rewrite Hp. cbn in Hw |- *. destruct Hw as [_ Hw]. exists ls, os. eapply step_owned; [done..|]. by apply wp_start.
  - unfold step. rewrite Hp. cbn in Hw |- *. destruct Hw as [Hf Hw]. exists ls, os. eapply step_owned; [done..| |].
    { intros g Hg. unfold upd. rewrite decide_False; [done|]. by intros ->. }
    apply wp_start. exact Hw.
  - unfold step. rewrite Hp. cbn in Hw |- *. exists ls, os. eapply step_owned; [done..|]. by apply wp_start.
  - unfold step. rewrite Hp. cbn in Hw |- *. exists ls, os. eapply step_owned; [done..|]. by apply wp_start.
  - by eapply step_push.
  - by eapply step_pop.
Qed.
Theorem inv_run schedule : forall s ls os, inv s ls os -> exists ls' os', inv (run schedule s) ls' os'.
Proof.
  induction schedule as [|c cs IH]; intros s ls os H; [by exists ls, os|]. cbn.
  destruct (inv_step _ _ _ (fst c) (snd c) H) as (ls1 & os1 & H1). by eapply IH.
Qed.
End soundness.
