(* ===== verification/RunQueueThms.v ===== *)
(** * No task is lost, duplicated or starved by the run queues

    What each routine of [RunQueue] does to the fibers it owns, from one access to the
    next; the life of a worker; conservation of the tasks under every interleaving, and
    the interleaving that breaks it; the routines run alone. *)
From S2P Require Import Prelude RunQueue.
#[local] Set Default Proof Using "Type*".

(** ** Lists cut and bypassed *)
Lemma chain_cut nx f l2 : forall l1 h, NoDup (l1 ++ f :: l2) -> chain nx h (l1 ++ f :: l2) ->
  chain (upd f None nx) h (l1 ++ [f]) /\ chain (upd f None nx) (nx f) l2.
Proof.
  induction l1 as [|g l1 IH]; intros h Hd [-> Hc]; inversion Hd as [|? ? Hg Hd']; subst.
  - split; [split; [done|]; cbn; unfold upd; by rewrite decide_True|].
    eapply chain_agree; [|exact Hc]. by apply agree_upd.
  - apply IH in Hc as [H1 H2]; [|done]. split; [|done]. split; [done|]. unfold upd at 2.
    rewrite decide_False; [done|]. intros ->. apply Hg. set_solver.
Qed.
Lemma chain_bypass nx x f l2 : forall l1 h, NoDup (l1 ++ x :: f :: l2) -> chain nx h (l1 ++ x :: f :: l2) ->
  chain (upd x (nx f) nx) h (l1 ++ x :: l2).
Proof.
  induction l1 as [|g l1 IH]; intros h Hd [-> Hc]; inversion Hd as [|? ? Hg Hd']; subst.
  - destruct Hc as [Hx Hc]. split; [done|]. unfold upd at 2. rewrite decide_True by done.
    eapply chain_agree; [|exact Hc]. apply agree_upd. set_solver.
  - split; [done|]. unfold upd at 2. rewrite decide_False; [by apply IH|]. intros ->. apply Hg. set_solver.
Qed.

Section specs.
Context (bound : nat) (modes : list mode) (i : nat).
Notation wp := (wp bound modes i).

Lemma list_tail_spec (Q : fiber -> list fiber -> (fiber -> option fiber) -> Prop) l : forall n p o nx,
  chain nx (Some p) l -> l ⊆ o -> (length l <= n)%nat ->
  (forall t, links nx p l t -> nx t = None -> Q t o nx) -> wp Q (list_tail n p) o nx.
Proof.
  induction l as [|f l IH]; intros n p o nx; [done|]. intros [[= ->] Hc] Hs Hn HQ. destruct n as [|n]; [cbn in Hn; lia|].
  cbn. split; [apply Hs; by left|]. destruct l as [|g l].
  - rewrite Hc. by apply HQ.
  - destruct (nx f) as [c|] eqn:E; [|by destruct Hc]. apply IH; [done|set_solver|cbn in *; lia|].
    intros t Ht Hnt. apply HQ; [|done]. split; [done|]. by exists c.
Qed.
Lemma queue_push_spec (Q : unit -> list fiber -> (fiber -> option fiber) -> Prop) q f o rest nx :
  may_push modes q -> o ≡ₚ f :: rest -> (forall nx', agree rest nx nx' -> Q tt rest nx') ->
  wp Q (rt_queue_push q f) o nx.
Proof. intros Hm Ho HQ. split; [done|]. exists [f], rest. by split_and!. Qed.
Lemma push_list_spec (Q : unit -> list fiber -> (fiber -> option fiber) -> Prop) q p l o rest nx :
  may_push modes q -> chain nx (Some p) l -> o ≡ₚ l ++ rest -> (length l <= bound)%nat ->
  (forall nx', agree rest nx nx' -> Q tt rest nx') -> wp Q (rt_queue_push_list bound q p) o nx.
Proof.
  intros Hm Hc Ho Hl HQ. apply own_bind. eapply list_tail_spec; [done|rewrite Ho; set_solver|done|].
  intros t Ht Hn. split; [done|]. exists l, rest. by split_and!.
Qed.
Lemma count_spec (Q : nat -> list fiber -> (fiber -> option fiber) -> Prop) l : forall n h acc o nx,
  chain nx h l -> l ⊆ o -> (length l <= n)%nat -> Q (acc + length l)%nat o nx -> wp Q (count n h acc) o nx.
Proof.
  induction l as [|f l IH]; intros n h acc o nx.
  - intros -> _ _ HQ. rewrite Nat.add_0_r in HQ. by destruct n.
  - intros [-> Hc] Hs Hn HQ. destruct n as [|n]; [cbn in Hn; lia|]. cbn. split; [apply Hs; by left|].
    apply IH; [done|set_solver|cbn in Hn; lia|]. by rewrite Nat.add_succ_comm.
Qed.
Lemma forward_spec (Q : fiber -> list fiber -> (fiber -> option fiber) -> Prop) l1 f l2 : forall p o nx,
  chain nx (Some p) (l1 ++ f :: l2) -> l1 ⊆ o -> Q f o nx -> wp Q (forward (length l1) p) o nx.
Proof.
  induction l1 as [|g l1 IH]; intros p o nx [[= ->] Hc] Hs HQ; [done|]. cbn. split; [apply Hs; by left|].
  destruct (nx g) as [c|]; [|by destruct l1, Hc]. apply IH; [done|set_solver|done].
Qed.

Lemma steal_spec (Q : option fiber -> list fiber -> (fiber -> option fiber) -> Prop) q o nx :
  modes !! q = Some Exchanged -> (forall nx', agree o nx nx' -> Q None o nx') ->
  (forall nx' p l, agree o nx nx' -> chain nx' (Some p) l -> NoDup (l ++ o) -> (length (l ++ o) <= bound)%nat ->
     Q (Some p) (l ++ o) nx') ->
  wp Q (rt_queue_steal bound q) o nx.
Proof.
  intros Hm HN HS. split; [done|]. intros nx' h l Ha Hc Hd Hb. destruct h as [p|]; [|by destruct l; [apply HN|by destruct Hc]].
  assert (length l <= bound)%nat as Hlb by (rewrite length_app in Hb; lia).
  apply own_bind. eapply count_spec; [done|set_solver|done|]. cbn [Nat.add].
  destruct (Nat.ltb_spec (length l) 2) as [H2|H2]; [by apply HS|].
  set (k := (length l / 2 - 1)%nat). assert (k + 1 < length l)%nat as Hk.
  { subst k. pose proof (Nat.Div0.mul_div_le (length l) 2). assert (length l / 2 < length l)%nat; [apply Nat.div_lt; lia|lia]. }
  destruct (lookup_lt_is_Some_2 l k ltac:(lia)) as [f Hf]. pose proof (take_drop_middle l k f Hf) as Hsplit.
  assert (length (take k l) = k) as Htk by (rewrite length_take; lia).
  set (l1 := take k l) in *. set (l2 := drop (S k) l) in *. assert (length l2 = length l - S k)%nat as Hl2 by apply length_drop.
  rewrite <- Hsplit in Hc, Hd, Hb |- *. clearbody k l1 l2. rewrite <- Htk. apply own_bind.
  eapply forward_spec; [exact Hc|set_solver|]. cbn. split; [set_solver|]. split; [set_solver|].
  assert (NoDup (l1 ++ f :: l2)) as Hd1 by (by apply NoDup_app in Hd as [? _]).
  destruct (chain_cut _ _ _ _ _ Hd1 Hc) as [Hc1 Hc2]. destruct (nx' f) as [r|]; [|by destruct l2; [cbn in Hl2; lia|destruct Hc2]].
  apply own_bind. assert (length (l1 ++ f :: l2) = length l) as Hlen by (by rewrite Hsplit).
  eapply list_tail_spec; [exact Hc2|set_solver|lia|]. intros t Ht Hn.
  assert ((l1 ++ f :: l2) ++ o ≡ₚ l2 ++ ((l1 ++ [f]) ++ o)) as Hp by solve_Permutation.
  rewrite Hp in Hd. split; [by left|]. exists l2, ((l1 ++ [f]) ++ o). split_and!; [done..|].
  assert (f ∉ o) as Hfo. { apply NoDup_app in Hd as (_ & _ & Hd). apply NoDup_app in Hd as (_ & Hd & _). apply Hd. set_solver. }
  intros nx2 Ha2. apply HS.
  - eapply agree_trans; [exact Ha|]. eapply agree_trans; [by apply agree_upd|]. eapply agree_sub; [exact Ha2|set_solver].
  - eapply chain_agree; [|exact Hc1]. eapply agree_sub; [exact Ha2|set_solver].
  - by apply NoDup_app in Hd as (_ & _ & ?).
  - etrans; [|exact Hb]. rewrite Hp, (length_app l2). lia.
Qed.

(** The scan ends on some fiber of the list and the one before it. *)
Definition found (l : list fiber) (best : fiber) (best_prev : option fiber) : Prop :=
  exists a b, l = a ++ best :: b /\ best_prev = last a.
Lemma scan_best_spec (Q : fiber * option fiber -> list fiber -> (fiber -> option fiber) -> Prop) l l2 :
  forall n best bp prev cur l1 o nx, l = l1 ++ l2 -> last l1 = Some prev -> chain nx cur l2 -> l2 ⊆ o ->
  (length l2 <= n)%nat -> found l best bp -> (forall b bp, found l b bp -> Q (b, bp) o nx) ->
  wp Q (scan_best n best bp prev cur) o nx.
Proof.
  induction l2 as [|c l2 IH]; intros n best bp prev cur l1 o nx El Hl Hc Hs Hn Hf HQ.
  - rewrite Hc. destruct n; by apply HQ.
  - destruct Hc as [-> Hc]. destruct n as [|n]; [cbn in Hn; lia|]. cbn. intros pc pb.
    destruct (if pb <? pc then _ else _) as [best' bp'] eqn:Eb. cbn. split; [apply Hs; by left|].
    apply (IH _ _ _ _ _ (l1 ++ [c])); [by rewrite <- app_assoc|by rewrite last_snoc|done|set_solver|cbn in Hn; lia| |done].
    destruct (pb <? pc); injection Eb as <- <-; [|done]. exists l1, l2. done.
Qed.
Definition may_take (prio_used : bool) (q : nat) : Prop :=
  if prio_used then modes !! q = Some Exchanged else may_pop modes i q.

Lemma unlink_spec (Q : option fiber -> list fiber -> (fiber -> option fiber) -> Prop) q o nx h l best bp :
  may_push modes q -> chain nx (Some h) l -> NoDup (l ++ o) -> (length l <= bound)%nat -> found l best bp ->
  (forall nx', agree o nx nx' -> Q (Some best) (best :: o) nx') ->
  wp Q (ReadNext best (fun after =>
          do list <- match bp with Some bp => WriteNext bp after (Ret (Some h)) | None => Ret after end;
          WriteNext best None
            match list with
            | Some l => do _ <- rt_queue_push_list bound q l; Ret (Some best)
            | None => Ret (Some best)
            end)) (l ++ o) nx.
Proof.
  intros Hm Hc Hd Hb (a & b & -> & ->) HQ. cbn. split; [set_solver|]. apply own_bind.
  assert (NoDup (a ++ best :: b)) as Hd1 by (by apply NoDup_app in Hd as [? _]).
  assert ((a ++ best :: b) ++ o ≡ₚ (a ++ b) ++ best :: o) as Hp by solve_Permutation.
  assert (best ∉ a ++ b) as Hbest.
  { intros Hin. rewrite Hp in Hd. apply NoDup_app in Hd as (_ & Hd & _). apply (Hd best Hin). by left. }
  assert (forall x, x ∈ a ++ best :: b -> x ∉ o) as Hdo by (by apply NoDup_app in Hd as (_ & ? & _)).
  (* what is left is a list from its head, or nothing *)
  assert (forall nx2 list, agree o nx nx2 -> chain nx2 list (a ++ b) ->
    wp Q (WriteNext best None match list with
            | Some l => do _ <- rt_queue_push_list bound q l; Ret (Some best) | None => Ret (Some best) end)
       ((a ++ best :: b) ++ o) nx2) as Hrest.
  { intros nx2 list Ha Hc2. cbn. split; [set_solver|].
    assert (agree o nx (upd best None nx2)) as Ha2.
    { eapply agree_trans; [exact Ha|]. apply agree_upd. apply Hdo. set_solver. }
    destruct list as [p|].
    - apply own_bind. eapply push_list_spec; [done| |exact Hp|rewrite !length_app in *; cbn in Hb; lia|].
      + eapply chain_agree; [|exact Hc2]. by apply agree_upd.
      + intros nx3 Ha3. cbn. apply HQ. eapply agree_trans; [exact Ha2|]. eapply agree_sub; [exact Ha3|set_solver].
    - destruct a; [|by destruct Hc2]. destruct b; [|by destruct Hc2]. by apply HQ. }
  destruct (list.last a) as [x|] eqn:El.
  - cbn. apply last_Some in El as [a' ->]. split; [set_solver|]. rewrite <- !app_assoc in *. cbn [app] in *.
    apply (Hrest _ (Some h)); [apply agree_upd; apply Hdo; set_solver|]. by apply chain_bypass.
  - apply last_None in El as ->. destruct Hc as [[= ->] Hc]. by apply (Hrest _ (nx best)).
Qed.
Lemma pop_best_spec (Q : option fiber -> list fiber -> (fiber -> option fiber) -> Prop) prio_used q o nx :
  may_take prio_used q -> (forall nx', agree o nx nx' -> Q None o nx') ->
  (forall nx' f, agree o nx nx' -> Q (Some f) (f :: o) nx') -> wp Q (rt_queue_pop_best bound prio_used q) o nx.
Proof.
  intros Hm HN HS. unfold rt_queue_pop_best, may_take in *. destruct prio_used; cbn [negb].
  - split; [done|]. intros nx' h l Ha Hc Hd Hb. destruct h as [p|]; [|by destruct l; [apply HN|by destruct Hc]].
    assert (length l <= bound)%nat as Hlb by (rewrite length_app in Hb; lia).
    destruct l as [|f l]; [done|]. destruct Hc as [[= ->] Hc]. cbn. split; [by left|]. apply own_bind.
    apply (scan_best_spec _ (f :: l) l _ _ _ _ _ [f]); [done|done|done|set_solver|cbn in Hlb; lia|by exists [], l|].
    intros b bp Hf. apply (unlink_spec _ _ _ _ _ (f :: l)); [by left|done..|]. intros nx2 Ha2.
    apply HS. by eapply agree_trans.
  - split; [done|]. split; [done|]. intros nx' Ha. split; [by apply HN|]. intros f Hf. apply HS.
    eapply agree_trans; [exact Ha|]. by apply agree_upd.
Qed.
End specs.

(** ** The worker *)
(** Nobody uses the global queue; the ready lists are emptied by exchange; the local
    queues too once priorities are in use, and otherwise by their worker's pop. *)
Definition local_mode (prio_used : bool) (w : nat) : mode := if prio_used then Exchanged else Popped w.
Definition modes_of (prio_used : bool) (workers : nat) : list mode :=
  Unused :: flat_map (fun w => [local_mode prio_used w; Exchanged]) (seq 0 workers).
Lemma modes_lookup prio_used n w : forall k, (w < n)%nat ->
  flat_map (fun w => [local_mode prio_used w; Exchanged]) (seq k n) !! (2 * w)%nat = Some (local_mode prio_used (k + w)) /\
  flat_map (fun w => [local_mode prio_used w; Exchanged]) (seq k n) !! (S (2 * w)) = Some Exchanged.
Proof.
  revert w. induction n as [|n IH]; intros w k Hw; [lia|]. destruct w as [|w]; cbn [seq flat_map app].
  - by rewrite Nat.add_0_r.
  - replace (2 * S w)%nat with (S (S (2 * w))) by lia. destruct (IH w (S k) ltac:(lia)) as [H1 H2].
    rewrite Nat.add_succ_r. by rewrite Nat.add_succ_l in H1.
Qed.
Lemma local_is p n w : (w < n)%nat -> modes_of p n !! local_q w = Some (local_mode p w).
Proof. intros Hw. by destruct (modes_lookup p n w 0 Hw) as [H _]. Qed.
Lemma ready_is p n w : (w < n)%nat -> modes_of p n !! ready_q w = Some Exchanged.
Proof. intros Hw. by destruct (modes_lookup p n w 0 Hw) as [_ H]. Qed.
Lemma local_pushed p n w : (w < n)%nat -> may_push (modes_of p n) (local_q w).
Proof. intros Hw. unfold may_push. rewrite local_is by done. destruct p; [by left|right; by exists w]. Qed.

Section worker.
Context (bound workers : nat) (prio_used : bool) (Hprio : prio_used = true \/ workers = 1%nat).
Notation modes := (modes_of prio_used workers).
Notation wp w := (wp bound modes w).

Lemma local_taken w : (w < workers)%nat -> may_take modes w prio_used (local_q w).
Proof. intros Hw. unfold may_take, may_pop. rewrite local_is by done. destruct prio_used; [done|by left]. Qed.

Lemma steal_from_spec (Q : option fiber -> list fiber -> (fiber -> option fiber) -> Prop) w o n : forall j nx,
  (w < workers)%nat -> (n = 0%nat \/ prio_used = true) ->
  (forall nx', agree o nx nx' -> Q None o nx') ->
  (forall nx' f, agree o nx nx' -> Q (Some f) (f :: o) nx') -> wp w Q (steal_from bound workers prio_used n j w) o nx.
Proof.
  induction n as [|n IH]; intros j nx Hw Hp HN HS; [by apply HN|]. destruct Hp as [?|Hp]; [done|].
  cbn [steal_from]. apply own_bind. apply steal_spec.
  - rewrite local_is by (apply Nat.mod_upper_bound; lia). by rewrite Hp.
  - intros nx1 Ha1. apply IH; [done|by right|intros; apply HN; by eapply agree_trans|intros; apply HS; by eapply agree_trans].
  - intros nx1 p l Ha1 Hc Hd Hb. apply own_bind. rewrite length_app in Hb.
    eapply push_list_spec; [by apply local_pushed|exact Hc|done|lia|]. intros nx2 Ha2. cbn.
    apply pop_best_spec; [by apply local_taken|intros; apply HN|intros; apply HS];
      (eapply agree_trans; [exact Ha1|]; by eapply agree_trans).
Qed.
Lemma take_global_spec (Q : option fiber -> list fiber -> (fiber -> option fiber) -> Prop) w o nx :
  (forall nx', agree o nx nx' -> Q None o nx') -> (forall nx' f, agree o nx nx' -> Q (Some f) (f :: o) nx') ->
  wp w Q rt_take_global o nx.
Proof.
  intros HN HS. split; [done|]. split; [by right|]. intros nx' Ha. split; [by apply HN|]. intros f Hf. apply HS.
  eapply agree_trans; [exact Ha|]. by apply agree_upd.
Qed.
Lemma next_runnable_spec (Q : option fiber -> list fiber -> (fiber -> option fiber) -> Prop) w r o rest nx :
  (w < workers)%nat -> o ≡ₚ option_list r ++ rest -> stable Q ->
  (forall nx', agree rest nx nx' -> Q None rest nx') ->
  (forall nx' f, agree rest nx nx' -> Q (Some f) (f :: rest) nx') ->
  wp w Q (rt_next_runnable bound workers prio_used w r) o nx.
Proof.
  intros Hw Ho HQ HN HS.
  assert (forall nx0, agree rest nx nx0 -> wp w Q (rt_next_runnable bound workers prio_used w None) rest nx0) as Hlook.
  { intros nx0 Ha0. cbn [rt_next_runnable]. apply own_bind. apply pop_best_spec; [by apply local_taken| |].
    2: { intros. cbn. apply HS. by eapply agree_trans. }
    intros nx1 Ha1. apply own_bind. apply take_global_spec.
    2: { intros. cbn. apply HS. eapply agree_trans; [exact Ha0|]. by eapply agree_trans. }
    intros nx2 Ha2. assert (agree rest nx nx2) by (eapply agree_trans; [exact Ha0|]; by eapply agree_trans).
    apply steal_from_spec; [done|destruct Hprio; [by right|left; lia]|intros; apply HN|intros; apply HS]; by eapply agree_trans. }
  destruct r as [f|].
  - cbn [rt_next_runnable]. destruct prio_used eqn:Ep; cbn [negb].
    + apply own_bind. eapply queue_push_spec; [rewrite <- Ep at 1; rewrite Ep; by apply local_pushed|exact Ho|]. apply Hlook.
    + eapply HQ; [symmetry; exact Ho|apply agree_refl|]. by apply HS.
  - eapply wp_stable; [done|symmetry; exact Ho|apply agree_refl|]. by apply Hlook.
Qed.

Lemma drain_spec (Q : unit -> list fiber -> (fiber -> option fiber) -> Prop) w rest l : (w < workers)%nat ->
  forall n h o nx, chain nx h l -> o ≡ₚ l ++ rest -> (length l <= n)%nat -> stable Q ->
  (forall nx', agree rest nx nx' -> Q tt rest nx') -> wp w Q (drain n w h) o nx.
Proof.
  intros Hw. induction l as [|f l IH]; intros n h o nx.
  - intros -> Ho _ HQ H. destruct n; (eapply HQ; [symmetry; exact Ho|apply agree_refl|]); by apply H.
  - intros [-> Hc] Ho Hn HQ H. destruct n as [|n]; [cbn in Hn; lia|]. cbn [drain wp]. split; [rewrite Ho; by left|].
    apply own_bind. eapply queue_push_spec; [by apply local_pushed|exact Ho|]. intros nx1 Ha1.
    apply IH; [|done|cbn in Hn; lia|done|].
    + eapply chain_agree; [|exact Hc]. eapply agree_sub; [exact Ha1|set_solver].
    + intros nx2 Ha2. apply H. eapply agree_trans; [|exact Ha2]. eapply agree_sub; [exact Ha1|set_solver].
Qed.
Lemma drain_ready_spec (Q : unit -> list fiber -> (fiber -> option fiber) -> Prop) w o nx : (w < workers)%nat -> stable Q ->
  (forall nx', agree o nx nx' -> Q tt o nx') -> wp w Q (drain_ready bound w) o nx.
Proof.
  intros Hw HQ H. split; [by apply ready_is|]. intros nx1 h l Ha Hc Hd Hb. rewrite length_app in Hb.
  eapply drain_spec; [done|exact Hc|done|lia|done|]. intros nx2 Ha2. apply H. by eapply agree_trans.
Qed.

(** What a worker holds in the end: its [runnext] and the tasks it took. *)
Definition kept (x : option fiber * list fiber) (o : list fiber) (_ : fiber -> option fiber) : Prop :=
  o ≡ₚ option_list (fst x) ++ snd x.
Lemma kept_stable : stable kept.
Proof. intros x o o' nx nx' Hp _ H. unfold kept. by rewrite <- Hp. Qed.

(** A task is unparked to the worker that parked it. *)
Definition call_ok (c : call) : Prop :=
  match c with Unpark _ home => exists h, home = Some h /\ (h < workers)%nat | _ => True end.

Lemma life_spec w cs : (w < workers)%nat -> Forall call_ok cs -> forall r held o nx,
  o ≡ₚ option_list r ++ held -> wp w kept (life bound workers prio_used w cs r held) o nx.
Proof.
  intros Hw. pose proof kept_stable as HK. induction 1 as [|c cs Hc _ IH]; intros r held o nx Ho; [done|].
  destruct c as [|k|k home|f v]; cbn [life].
  - assert (stable (fun f => wp w kept (life bound workers prio_used w cs None (option_list f ++ held)))) as HS.
    { intros f. by apply wp_stable. }
    apply own_bind, drain_ready_spec; [done| |].
    { intros _ o1 o2 nx1 nx2. by apply wp_stable. }
    intros nx1 _. apply own_bind. apply (next_runnable_spec _ w r o held); [done..| |]; intros; by apply IH.
  - destruct (held !! k) as [f|] eqn:Ef; [|by apply IH]. apply delete_Permutation in Ef.
    set (held' := delete k held) in *. clearbody held'. apply own_bind.
    destruct r as [old|]; cbn [spawned].
    + apply own_bind. eapply queue_push_spec; [by apply local_pushed|exact Ho|]. intros nx1 _. apply IH. by rewrite Ef.
    + cbn. apply IH. by rewrite Ho, Ef.
  - destruct Hc as (h & -> & Hh). destruct (held !! k) as [f|] eqn:Ef; [|by apply IH]. apply delete_Permutation in Ef.
    set (held' := delete k held) in *. clearbody held'. apply own_bind. cbn [rt_sched_unpark]. eapply (queue_push_spec _ _ _ _ _ _ _ (option_list r ++ held')).
    + left. by apply ready_is.
    + rewrite Ho, Ef. solve_Permutation.
    + intros nx1 _. by apply IH.
  - cbn. by apply IH.
Qed.
End worker.

(** ** A program of workers *)
(** What worker [i] does and the tasks it holds at the start, all queues empty. *)
Definition tasks (ws : list (list call * list fiber)) : list fiber := concat (map snd ws).
Definition start (prio_used : bool) (nx : fiber -> option fiber) (pr : fiber -> Z) (ws : list (list call * list fiber))
    : sys (option fiber * list fiber) :=
  mkSys (replicate (1 + 2 * length ws) None) nx pr
    (imap (fun i w => life (length (tasks ws)) (length ws) prio_used i (fst w) None (snd w)) ws).

(** What the queues hold, and what the workers that are done hold. *)
Fixpoint walk (n : nat) (nx : fiber -> option fiber) (h : option fiber) : list fiber :=
  match n, h with S n, Some f => f :: walk n nx (nx f) | _, _ => [] end.
Definition queued {A} (n : nat) (s : sys A) : list fiber := flat_map (walk n (next s)) (heads s).
Definition in_hand (ends : list (option fiber * list fiber)) : list fiber :=
  flat_map (fun e => option_list (fst e) ++ snd e) ends.

Lemma walk_chain nx l : forall n h, chain nx h l -> (length l <= n)%nat -> walk n nx h = l.
Proof.
  induction l as [|f l IH]; intros n h; [intros -> _; by destruct n|]. intros [-> Hc] Hn.
  destruct n as [|n]; [cbn in Hn; lia|]. cbn. f_equal. apply IH; [done|cbn in Hn; lia].
Qed.
Lemma queued_chains {A} n (s : sys A) ls : Forall2 (chain (next s)) (heads s) ls ->
  (length (concat ls) <= n)%nat -> queued n s = concat ls.
Proof.
  unfold queued. induction 1 as [|h l hs ls Hc _ IH]; [done|]. cbn. rewrite length_app. intros Hn.
  f_equal; [|apply IH; lia]. apply walk_chain; [done|lia].
Qed.
Lemma modes_length p n : length (modes_of p n) = (1 + 2 * n)%nat.
Proof.
  unfold modes_of. cbn [length]. rewrite (flat_map_constant_length (c := 2%nat)); [rewrite length_seq; lia|done].
Qed.

Section program.
Context (prio_used : bool) (nx : fiber -> option fiber) (pr : fiber -> Z) (ws : list (list call * list fiber)).
Context (Hprio : prio_used = true \/ length ws = 1%nat).
Context (Hcalls : Forall (fun w => Forall (call_ok (length ws)) (fst w)) ws) (Htasks : NoDup (tasks ws)).
Notation start := (start prio_used nx pr ws).
Notation inv := (inv (modes_of prio_used (length ws)) (tasks ws) (fun _ => kept)).

Lemma start_inv : inv start (replicate (1 + 2 * length ws) []) (map snd ws).
Proof.
  split; unfold RunQueueThms.start; cbn [heads next priority agents].
  - generalize (1 + 2 * length ws)%nat. intros n. by apply Forall2_replicate.
  - by rewrite modes_length, length_replicate.
  - intros q Hq. apply lookup_replicate_2. rewrite <- (modes_length prio_used). by eapply lookup_lt_Some.
  - assert (forall n, concat (replicate n (@nil fiber)) = []) as -> by (by induction n). done.
  - by rewrite length_map, length_imap.
  - intros i p o Hp Ho. rewrite list_lookup_imap in Hp. apply fmap_Some in Hp as ([cs held] & Hw & ->).
    change (map snd ws) with (snd <$> ws) in Ho. rewrite list_lookup_fmap, Hw in Ho. injection Ho as <-. cbn.
    apply (wp_start _ _ Htasks (fun _ => kept) (fun _ => kept_stable)), life_spec; [done|by eapply lookup_lt_Some| |done].
    by eapply Forall_lookup_1 in Hcalls; [|exact Hw].
Qed.
Lemma reached schedule : exists ls os, inv (run schedule start) ls os.
Proof. eapply inv_run; [done|intros; apply kept_stable|apply start_inv]. Qed.
Lemma ends_kept s ls os ends : inv s ls os -> agents s = map Ret ends -> concat os ≡ₚ in_hand ends.
Proof.
  intros H He. assert (Forall2 (fun e o => kept e o (next s)) ends os) as HF.
  { apply Forall2_same_length_lookup_2.
    - rewrite (inv_owners _ _ _ _ _ _ H), He. by rewrite length_map.
    - intros i e o Hi Ho. refine (proj1 (inv_agents _ _ _ _ _ _ H i (Ret e) o _ Ho)). rewrite He.
      change (map Ret ends) with (@Ret (option fiber * list fiber) <$> ends). by rewrite list_lookup_fmap, Hi. }
  clear H He. induction HF as [|e o es os He _ IH]; [done|]. cbn. by rewrite IH, He.
Qed.
End program.

(** ** An agent left alone *)
Definition alone (i n : nat) : list (nat * bool) := replicate n (i, false).
Lemma run_alone_add {A} i n m (s : sys A) : run (alone i (n + m)) s = run (alone i m) (run (alone i n) s).
Proof. unfold alone, run. by rewrite replicate_add, fold_left_app. Qed.
Lemma step_eq {A} i fails (s : sys A) p : agents s !! i = Some p ->
  step i fails s = let '(hs, nx, pr, p) := access fails p (heads s) (next s) (priority s) in mkSys hs nx pr (<[i := p]> (agents s)).
Proof. intros Hp. unfold step. by rewrite Hp. Qed.
Lemma step_set {A} i fails hs nx pr p (ps : list (prog A)) : (i < length ps)%nat ->
  step i fails (mkSys hs nx pr (<[i := p]> ps)) =
  let '(hs, nx, pr, p) := access fails p hs nx pr in mkSys hs nx pr (<[i := p]> ps).
Proof.
  intros Hi. rewrite (step_eq _ _ _ p) by (by apply list_lookup_insert_eq). cbn.
  destruct (access _ _ _ _ _) as [[[? ?] ?] ?]. by rewrite list_insert_insert_eq.
Qed.

(** Undisturbed, a push is over in three accesses and a pop in one or four. *)
Lemma push_alone {A} (s : sys A) i q b t k h : agents s !! i = Some (PushLoop q b t PushLoad k) -> heads s !! q = Some h ->
  run (alone i 3) s = mkSys (<[q := Some b]> (heads s)) (upd t h (next s)) (priority s) (<[i := k]> (agents s)).
Proof.
  intros Hp Hh. pose proof (lookup_lt_Some _ _ _ Hp). cbn [alone replicate run fold_left fst snd].
  rewrite (step_eq _ _ s _ Hp). cbn [access]. rewrite Hh. rewrite step_set by done. cbn [access]. rewrite Hh.
  rewrite step_set by done. cbn [access]. by rewrite Hh, bool_decide_true by done.
Qed.
Lemma pop_alone {A} (s : sys A) i q k h : agents s !! i = Some (PopLoop q PopLoad k) -> heads s !! q = Some h ->
  exists n, run (alone i n) s =
    match h with
    | None => mkSys (heads s) (next s) (priority s) (<[i := k None]> (agents s))
    | Some f => mkSys (<[q := next s f]> (heads s)) (upd f None (next s)) (priority s) (<[i := k (Some f)]> (agents s))
    end.
Proof.
  intros Hp Hh. pose proof (lookup_lt_Some _ _ _ Hp). exists (match h with None => 1%nat | Some _ => 4%nat end).
  destruct h as [f|]; cbn [alone replicate run fold_left fst snd]; rewrite (step_eq _ _ s _ Hp); cbn [access]; rewrite Hh; [|done].
  rewrite step_set by done. cbn [access]. rewrite Hh. rewrite step_set by done. cbn [access].
  rewrite Hh, bool_decide_true by done. cbn [negb andb]. by rewrite step_set.
Qed.

Section alone.
Context {A : Type} (i : nat).
Implicit Types (s : sys A) (p : prog A).

(** Alone, agent [i] gets from [s] to the program [p]; nothing else runs. *)
Definition gets s p : Prop := exists n, agents (run (alone i n) s) = <[i := p]> (agents s).
Lemma gets_trans s n p p' : agents (run (alone i n) s) = <[i := p]> (agents s) -> gets (run (alone i n) s) p' -> gets s p'.
Proof. intros Hn [m Hm]. exists (n + m)%nat. rewrite run_alone_add, Hm, Hn. apply list_insert_insert_eq. Qed.
Lemma gets_step s p0 p : agents s !! i = Some p0 -> gets (step i false s) p -> gets s p.
Proof.
  intros Hp. apply (gets_trans s 1 (snd (access false p0 (heads s) (next s) (priority s)))).
  cbn. rewrite (step_eq _ _ _ _ Hp). by destruct (access _ _ _ _ _) as [[[? ?] ?] ?].
Qed.
Lemma gets_now s p : agents s !! i = Some p -> gets s p.
Proof. intros Hp. exists 0%nat. cbn. by rewrite list_insert_id. Qed.
Lemma gets_one s p0 p : agents s !! i = Some p0 -> snd (access false p0 (heads s) (next s) (priority s)) = p -> gets s p.
Proof.
  intros Hp <-. exists 1%nat. cbn. rewrite (step_eq _ _ _ _ Hp). by destruct (access _ _ _ _ _) as [[[? ?] ?] ?].
Qed.

(** Wherever a loop is, alone it is over or back at its first load. *)
Lemma push_settles s q b t a k : agents s !! i = Some (PushLoop q b t a k) -> is_Some (heads s !! q) ->
  gets s k \/ gets s (PushLoop q b t PushLoad k).
Proof.
  intros Hp [h Hh].
  assert (forall s c, agents s !! i = Some (PushLoop q b t (PushCas c) k) -> heads s !! q = Some h ->
    gets s k \/ gets s (PushLoop q b t PushLoad k)) as Hcas.
  { clear. intros s c Hp Hh. destruct (decide (h = c)) as [->|Hne]; [left|right]; (eapply gets_one; [exact Hp|]);
      cbn [access]; rewrite Hh; [by rewrite bool_decide_true|by rewrite bool_decide_false]. }
  destruct a as [|c|c]; [right; by apply gets_now| |by eapply Hcas].
  destruct (Hcas (step i false s) c); [..|left; by eapply gets_step|right; by eapply gets_step].
  - rewrite (step_eq _ _ _ _ Hp). cbn [access]. rewrite Hh. cbn. by apply list_lookup_insert_eq, (lookup_lt_Some _ _ _ Hp).
  - rewrite (step_eq _ _ _ _ Hp). cbn [access]. by rewrite Hh.
Qed.
Lemma pop_settles s q a k : agents s !! i = Some (PopLoop q a k) -> is_Some (heads s !! q) ->
  (exists f, gets s (WriteNext f None (k (Some f)))) \/ gets s (PopLoop q PopLoad k).
Proof.
  intros Hp [h Hh].
  assert (forall s f c, agents s !! i = Some (PopLoop q (PopCas f c) k) -> heads s !! q = Some h ->
    (exists f, gets s (WriteNext f None (k (Some f)))) \/ gets s (PopLoop q PopLoad k)) as Hcas.
  { clear. intros s f c Hp Hh. destruct (decide (h = Some f)) as [->|Hne]; [left; exists f|right]; (eapply gets_one; [exact Hp|]);
      cbn [access]; rewrite Hh; [by rewrite bool_decide_true|by rewrite bool_decide_false]. }
  destruct a as [|f|f c]; [right; by apply gets_now| |by eapply Hcas].
  destruct (Hcas (step i false s) f (next s f)) as [[g Hg]|Hg]; [..|left; exists g; by eapply gets_step|right; by eapply gets_step].
  - rewrite (step_eq _ _ _ _ Hp). cbn [access]. rewrite Hh. cbn. by apply list_lookup_insert_eq, (lookup_lt_Some _ _ _ Hp).
  - rewrite (step_eq _ _ _ _ Hp). cbn [access]. by rewrite Hh.
Qed.
End alone.

Section finishes.
Context {A : Type} (modes : list mode) (all : list fiber) (Hall : NoDup all).
Context (Q : nat -> A -> list fiber -> (fiber -> option fiber) -> Prop) (HQ : forall i, stable (Q i)).
Context (i : nat).
Implicit Types (s : sys A).
Definition good s : Prop := exists ls os, inv modes all Q s ls os.
Lemma good_run s sched : good s -> good (run sched s).
Proof. intros (ls & os & H). by eapply inv_run. Qed.
(** What is ahead of a program whose accesses are all answered. *)
Lemma good_agent s p : good s -> agents s !! i = Some p ->
  match p with
  | Stuck => False
  | Exchange q _ | PushLoop q _ _ _ _ | PopLoop q _ _ => is_Some (heads s !! q)
  | _ => True
  end.
Proof.
  intros (ls & os & H) Hp. assert (is_Some (os !! i)) as [o Ho].
  { apply lookup_lt_is_Some. rewrite (inv_owners _ _ _ _ _ _ H). by eapply lookup_lt_Some. }
  assert (forall q m, modes !! q = Some m -> is_Some (heads s !! q)) as Hq.
  { intros q m Hm. eapply (inv_mode _ _ Hall _ HQ) in Hm as (h & _ & Hh & _); [by exists h|exact H]. }
  destruct (inv_agents _ _ _ _ _ _ H i p o Hp Ho) as [Hw _]. destruct p; cbn in Hw; try done.
  - destruct Hw as [Hm _]. by eapply Hq.
  - destruct Hw as [[Hm|[j Hm]] _]; by eapply Hq.
  - destruct Hw as (_ & [Hm|Hm] & _); by eapply Hq.
Qed.

Definition at_loop (p p' : prog A) : Prop :=
  match p with
  | PushLoop q b t _ k => exists a, p' = PushLoop q b t a k
  | PopLoop q _ k => exists a, p' = PopLoop q a k
  | _ => p' = p
  end.
Lemma at_loop_refl p : at_loop p p.
Proof. destruct p; cbn; eauto. Qed.
Lemma finishes p : forall s p', good s -> agents s !! i = Some p' -> at_loop p p' -> exists a, gets i s (Ret a).
Proof.
  assert (forall s n p, good s -> agents (run (alone i n) s) = <[i := p]> (agents s) -> is_Some (agents s !! i) ->
    (forall s p', good s -> agents s !! i = Some p' -> at_loop p p' -> exists a, gets i s (Ret a)) ->
    exists a, gets i s (Ret a)) as Hvia.
  { intros s n p0 Hg Hn [p1 Hp] IH. destruct (IH (run (alone i n) s) p0) as [a Ha].
    - by apply good_run.
    - rewrite Hn. apply list_lookup_insert_eq. by eapply lookup_lt_Some.
    - apply at_loop_refl.
    - exists a. by eapply gets_trans. }
  assert (forall s p0 p1, good s -> agents s !! i = Some p0 -> snd (access false p0 (heads s) (next s) (priority s)) = p1 ->
    (forall s p', good s -> agents s !! i = Some p' -> at_loop p1 p' -> exists a, gets i s (Ret a)) ->
    exists a, gets i s (Ret a)) as Hone.
  { intros s p0 p1 Hg Hp Ha IH. destruct (gets_one i s p0 p1 Hp Ha) as [n Hn]. by eapply Hvia. }
  induction p as [a| |q k IH|f k IH|f v k IH|f k IH|f v k IH|q b t a k IH|q a k IH]; intros s p' Hg Hp Hl;
    pose proof (good_agent s p' Hg Hp) as Hga; try (cbn in Hl; subst p'; cbn in Hga).
  - exists a. by apply gets_now.
  - done.
  - destruct Hga as [h Hh]. eapply Hone; [done|exact Hp|cbn; by rewrite Hh|]. apply IH.
  - eapply Hone; [done|exact Hp|done|]. apply IH.
  - eapply Hone; [done|exact Hp|done|]. apply IH.
  - eapply Hone; [done|exact Hp|done|]. apply IH.
  - eapply Hone; [done|exact Hp|done|]. apply IH.
  - destruct Hl as [a' ->]. assert (gets i s k) as [n Hn]; [|by eapply Hvia].
    destruct (push_settles _ _ _ _ _ _ _ Hp Hga) as [Hk|[n Hn]]; [done|].
    eapply gets_trans; [exact Hn|]. exists 3%nat. assert (agents (run (alone i n) s) !! i = Some (PushLoop q b t PushLoad k)) as Hp1.
    { rewrite Hn. apply list_lookup_insert_eq. by eapply lookup_lt_Some. }
    destruct (good_agent _ _ (good_run _ (alone i n) Hg) Hp1) as [h Hh]. by rewrite (push_alone _ _ _ _ _ _ _ Hp1 Hh).
  - destruct Hl as [a' ->]. assert (exists h, gets i s (k h)) as (h & n & Hn); [|eapply (Hvia s n (k h)); [done|exact Hn|by eexists|apply IH]].
    destruct (pop_settles _ _ _ _ _ Hp Hga) as [(f & n & Hn)|[n Hn]].
    + exists (Some f). eapply gets_trans; [exact Hn|]. eapply (gets_one i _ (WriteNext f None (k (Some f)))); [|done].
      rewrite Hn. apply list_lookup_insert_eq. by eapply lookup_lt_Some.
    + assert (agents (run (alone i n) s) !! i = Some (PopLoop q PopLoad k)) as Hp1.
      { rewrite Hn. apply list_lookup_insert_eq. by eapply lookup_lt_Some. }
      destruct (good_agent _ _ (good_run _ (alone i n) Hg) Hp1) as [h Hh]. exists h.
      destruct (pop_alone _ _ _ _ _ Hp1 Hh) as [m Hm]. eapply gets_trans; [exact Hn|]. exists m. rewrite Hm. by destruct h.
Qed.
Lemma finishes_now s p : good s -> agents s !! i = Some p -> exists a n, agents (run (alone i n) s) = <[i := Ret a]> (agents s).
Proof. intros Hg Hp. destruct (finishes p s p Hg Hp (at_loop_refl p)) as (a & n & H). by exists a, n. Qed.
End finishes.

(** One agent after another, all finish. *)
Lemma all_finish {A} modes all (Hall : NoDup all) (Q : nat -> A -> list fiber -> (fiber -> option fiber) -> Prop)
    (HQ : forall i, stable (Q i)) (s : sys A) : good modes all Q s ->
  exists schedule ends, agents (run schedule s) = map Ret ends.
Proof.
  intros Hg. assert (forall n, (n <= length (agents s))%nat -> exists schedule ends rest,
    agents (run schedule s) = map Ret ends ++ rest /\ length ends = n /\ (n + length rest = length (agents s))%nat) as H.
  { induction n as [|n IH]; intros Hn; [by exists [], [], (agents s)|].
    destruct IH as (sc & ends & rest & Hs & Hl & Hr); [lia|]. destruct rest as [|p rest]; [cbn in Hr; lia|].
    assert (agents (run sc s) !! n = Some p) as Hp. { rewrite Hs. apply list_lookup_middle. by rewrite length_map. }
    destruct (finishes_now modes all Hall Q HQ n (run sc s) p) as (a & m & Hm); [by apply good_run|done|].
    exists (sc ++ alone n m), (ends ++ [a]), rest. unfold run. rewrite fold_left_app. fold (run sc s) (run (alone n m) (run sc s)).
    rewrite Hm, Hs. rewrite insert_app_r_alt by (by rewrite length_map, Hl). rewrite length_map, Hl, Nat.sub_diag.
    rewrite map_app, <- app_assoc. rewrite length_app. cbn in *. split_and!; [done|lia|lia]. }
  destruct (H (length (agents s))) as (sc & ends & rest & Hs & _ & Hr); [done|]. destruct rest; [|cbn in Hr; lia].
  exists sc, ends. by rewrite Hs, app_nil_r.
Qed.

Lemma agents_run {A} schedule : forall s : sys A, length (agents (run schedule s)) = length (agents s).
Proof.
  induction schedule as [|c cs IH]; intros s; [done|]. change (run (c :: cs) s) with (run cs (step (fst c) (snd c) s)).
  rewrite IH. unfold step. destruct (agents s !! fst c); [|done]. destruct (access _ _ _ _ _) as [[[? ?] ?] ?]. apply length_insert.
Qed.

(** ** Conservation *)
Lemma ends_conserved prio_used nx pr ws schedule ends :
  prio_used = true \/ length ws = 1%nat -> Forall (fun w => Forall (call_ok (length ws)) (fst w)) ws -> NoDup (tasks ws) ->
  let s := run schedule (start prio_used nx pr ws) in
  agents s = map Ret ends -> queued (length (tasks ws)) s ++ in_hand ends ≡ₚ tasks ws.
Proof.
  intros Hp Hc Hd s He. destruct (reached prio_used nx pr ws Hp Hc Hd schedule) as (ls & os & H). fold s in H.
  pose proof (inv_all _ _ _ _ _ _ H) as Hall. rewrite (queued_chains _ _ ls).
  - rewrite <- Hall. f_equiv. symmetry. by eapply ends_kept.
  - apply H.
  - rewrite <- (Permutation_length Hall), length_app. lia.
Qed.
(** C24: for any program of workers, under every interleaving of their accesses and with
    compare-and-swaps failing at will, each queue is at every moment a list of its own
    and each task is in exactly one queue or with exactly one worker; no worker follows a
    null link; and when all are done the queues and the workers hold exactly the tasks
    there were.  Provided the priorities are in use, or there is a single worker. *)
Theorem tasks_conserved prio_used nx pr ws schedule :
  prio_used = true \/ length ws = 1%nat -> Forall (fun w => Forall (call_ok (length ws)) (fst w)) ws -> NoDup (tasks ws) ->
  let s := run schedule (start prio_used nx pr ws) in
  (exists ls os, Forall2 (chain (next s)) (heads s) ls /\ length os = length ws /\ concat ls ++ concat os ≡ₚ tasks ws) /\
  (forall i, agents s !! i <> Some Stuck) /\
  (forall ends, agents s = map Ret ends -> queued (length (tasks ws)) s ++ in_hand ends ≡ₚ tasks ws).
Proof.
  intros Hp Hc Hd s. destruct (reached prio_used nx pr ws Hp Hc Hd schedule) as (ls & os & H). fold s in H.
  pose proof (inv_all _ _ _ _ _ _ H) as Hall. split_and!.
  - exists ls, os. split; [apply H|]. split; [|done]. rewrite (inv_owners _ _ _ _ _ _ H).
    subst s. rewrite agents_run. cbn. by rewrite length_imap.
  - intros i Hi. by refine (good_agent _ _ Hd _ (fun _ => kept_stable) i s Stuck _ Hi); exists ls, os.
  - intros ends. by apply ends_conserved.
Qed.
Definition two_workers : list (list call * list fiber) :=
  [([Spawn 0; Spawn 0; Spawn 0; Look], [1; 2; 3]%positive); ([Look; Unpark 0 (Some 0%nat)], [])].
Lemma two_workers_ok : Forall (fun w => Forall (call_ok 2) (fst w)) two_workers /\ NoDup (tasks two_workers).
Proof. split; [repeat constructor; cbn; eauto with lia|by vm_compute; repeat constructor; set_solver]. Qed.
Lemma tasks_conserved_witness :
  exists ends, let s := run (alone 0 7 ++ alone 1 60 ++ alone 0 60) (start true (fun _ => None) (fun _ => 0) two_workers) in
    agents s = map Ret ends /\ queued 3 s ++ in_hand ends ≡ₚ [1; 2; 3]%positive.
Proof.
  exists [(None, [3%positive]); (None, [])]. cbv zeta. split; [vm_compute; reflexivity|].
  destruct two_workers_ok as [Hc Hd].
  refine (proj2 (proj2 (tasks_conserved true (fun _ => None) (fun _ => 0) two_workers
    (alone 0 7 ++ alone 1 60 ++ alone 0 60) (or_introl eq_refl) Hc Hd)) _ _). vm_compute. reflexivity.
Defined.


(** ** Four workers and no priorities *)
(** Worker 0 starts six tasks and takes two back while its three peers steal. *)
Definition four_workers : list (list call * list fiber) :=
  [(replicate 6 (Spawn 0) ++ [Look; Look], [1; 2; 3; 4; 5; 6]%positive); ([Look], []); ([Look], []); ([Look], [])].
Definition race : list (nat * bool) :=
  alone 0 6 ++ alone 1 11 ++ alone 0 6 ++ alone 3 9 ++ alone 0 7 ++ alone 1 3 ++ alone 2 10 ++ alone 3 3 ++ alone 2 3 ++
  alone 0 5 ++ alone 1 20 ++ alone 2 20 ++ alone 3 20.

(** With four workers and no priority in use the queues lose a task.  The owner's pop
    has read the head, task 5, and its null link; one thief puts back task 1 in front of
    it, another steals both and will put back 5, a third puts back 3; then 5 is the head
    again, now with 3 behind it, and the owner's compare-and-swap succeeds.  All four
    workers finish, every queue is empty, and nobody has task 3. *)
Theorem task_lost :
  let s := run race (start false (fun _ => None) (fun _ => 0) four_workers) in
  exists ends, agents s = map Ret ends /\ in_hand ends ≡ₚ [1; 2; 4; 5; 6]%positive /\ queued 6 s = [] /\
    3%positive ∈ tasks four_workers.
Proof.
  cbv zeta. exists [(None, [5; 6]); (None, [2]); (None, [1]); (None, [4])]%positive. split_and!; [by vm_compute| |by vm_compute|].
  - cbn. solve_Permutation.
  - cbn. set_solver.
Qed.
