(* ===== verification/RunQueueOrder.v ===== *)
(** * Which task a worker takes

    A routine of the run queues that nothing disturbs, as a function of the memory
    ([exec], realised by the steps of [RunQueue]); which fiber [rt_queue_pop_best] takes
    and what [rt_queue_steal] leaves. *)
From S2P Require Import Prelude RunQueue RunQueueThms.

Definition memory : Type := list (option fiber) * (fiber -> option fiber) * (fiber -> Z).
Fixpoint exec {A} (p : prog A) (m : memory) : option (A * memory) :=
  let '(hs, nx, pr) := m in
  match p with
  | Ret a => Some (a, m)
  | Stuck => None
  | Exchange q k => h ← hs !! q; exec (k h) (<[q := None]> hs, nx, pr)
  | ReadNext f k => exec (k (nx f)) m
  | WriteNext f v k => exec k (hs, upd f v nx, pr)
  | ReadPriority f k => exec (k (pr f)) m
  | SetPriority f v k => exec k (hs, nx, upd f v pr)
  | PushLoop q b t PushLoad k => h ← hs !! q; exec k (<[q := Some b]> hs, upd t h nx, pr)
  | PopLoop q PopLoad k =>
      h ← hs !! q;
      match h with
      | None => exec (k None) m
      | Some f => exec (k (Some f)) (<[q := nx f]> hs, upd f None nx, pr)
      end
  | PushLoop _ _ _ _ _ | PopLoop _ _ _ => None
  end.
Definition memory_of {A} (s : sys A) : memory := (heads s, next s, priority s).

Lemma exec_run {A} i (p : prog A) : forall (s : sys A) a hs nx pr, agents s !! i = Some p ->
  exec p (memory_of s) = Some (a, (hs, nx, pr)) -> exists n, run (alone i n) s = mkSys hs nx pr (<[i := Ret a]> (agents s)).
Proof.
  assert (forall (s : sys A) n p' a hs nx pr, agents (run (alone i n) s) = <[i := p']> (agents s) ->
    (exists m, run (alone i m) (run (alone i n) s) = mkSys hs nx pr (<[i := Ret a]> (agents (run (alone i n) s)))) ->
    exists m, run (alone i m) s = mkSys hs nx pr (<[i := Ret a]> (agents s))) as Hgo.
  { intros s n p' a hs nx pr Hn [m Hm]. exists (n + m)%nat. by rewrite run_alone_add, Hm, Hn, list_insert_insert_eq. }
  assert (forall (s : sys A) p p' hs nx pr, agents s !! i = Some p -> access false p (heads s) (next s) (priority s) = (hs, nx, pr, p') ->
    run (alone i 1) s = mkSys hs nx pr (<[i := p']> (agents s)) /\ <[i := p']> (agents s) !! i = Some p') as Hone.
  { intros s p0 p' hs nx pr Hp Ha. cbn. rewrite (step_eq _ _ _ _ Hp), Ha. split; [done|].
    apply list_lookup_insert_eq. by eapply lookup_lt_Some. }
  induction p as [a| |q k IH|f k IH|f v k IH|f k IH|f v k IH|q b t a k IH|q a k IH]; intros s x hs nx pr Hp He; cbn [exec memory_of] in He.
  - injection He as <- <- <- <-. exists 0%nat. cbn. rewrite list_insert_id by done. by destruct s.
  - done.
  - apply bind_Some in He as (h & Hh & He). edestruct (Hone s) as [H1 H2]; [exact Hp|cbn; by rewrite Hh|].
    apply (Hgo s 1%nat (k h)); [by rewrite H1|]. rewrite H1. by eapply IH.
  - edestruct (Hone s) as [H1 H2]; [exact Hp|done|]. apply (Hgo s 1%nat (k (next s f))); [by rewrite H1|]. rewrite H1. by eapply IH.
  - edestruct (Hone s) as [H1 H2]; [exact Hp|done|]. apply (Hgo s 1%nat k); [by rewrite H1|]. rewrite H1. by eapply IH.
  - edestruct (Hone s) as [H1 H2]; [exact Hp|done|]. apply (Hgo s 1%nat (k (priority s f))); [by rewrite H1|]. rewrite H1. by eapply IH.
  - edestruct (Hone s) as [H1 H2]; [exact Hp|done|]. apply (Hgo s 1%nat k); [by rewrite H1|]. rewrite H1. by eapply IH.
  - destruct a; try done. apply bind_Some in He as (h & Hh & He). pose proof (push_alone _ _ _ _ _ _ _ Hp Hh) as H3.
    apply (Hgo s 3%nat k); [by rewrite H3|]. rewrite H3. eapply IH; [by eapply list_lookup_insert_eq, lookup_lt_Some|done].
  - destruct a; try done. apply bind_Some in He as (h & Hh & He). destruct (pop_alone _ _ _ _ _ Hp Hh) as [n Hn].
    apply (Hgo s n (k h)); [rewrite Hn; by destruct h|]. rewrite Hn.
    destruct h as [f|]; (eapply IH; [by eapply list_lookup_insert_eq, lookup_lt_Some|done]).
Qed.

Lemma exec_bind {A B} (m : prog A) (f : A -> prog B) : forall mem,
  exec (bind m f) mem = '(a, mem) ← exec m mem; exec (f a) mem.
Proof.
  induction m as [a| |q k IH|g k IH|g v k IH|g k IH|g v k IH|q b t a k IH|q a k IH]; intros [[hs nx] pr]; cbn [bind exec]; try done.
  - destruct (hs !! q); [apply IH|done].
  - destruct a; [|done..]. destruct (hs !! q); [apply IH|done].
  - destruct a; [|done..]. destruct (hs !! q) as [[h|]|]; [apply IH|apply IH|done].
Qed.

Lemma exec_list_tail hs nx pr l : forall n p, chain nx (Some p) l -> (length l <= n)%nat ->
  exists t, exec (list_tail n p) (hs, nx, pr) = Some (t, (hs, nx, pr)) /\ links nx p l t.
Proof.
  induction l as [|f l IH]; intros n p; [done|]. intros [[= ->] Hc] Hn. destruct n as [|n]; [cbn in Hn; lia|]. cbn [list_tail exec].
  destruct l as [|g l]; [rewrite Hc; by exists f|]. destruct (nx f) as [c|] eqn:E; [|by destruct Hc].
  destruct (IH n c Hc) as (t & Ht & Hl); [cbn in *; lia|]. exists t. split; [done|]. split; [done|]. by exists c.
Qed.
(** A block pushed onto a list is in front of it. *)
Lemma exec_push_block {A} hs nx pr q b l t l2 h (k : prog A) : links nx b l t -> hs !! q = Some h -> chain nx h l2 -> NoDup (l ++ l2) ->
  exec (PushLoop q b t PushLoad k) (hs, nx, pr) = exec k (<[q := Some b]> hs, upd t h nx, pr) /\
  chain (upd t h nx) (Some b) (l ++ l2) /\ (forall f, f ∉ l -> upd t h nx f = nx f).
Proof.
  intros Hl Hq Hc Hd. pose proof (links_in _ _ _ _ Hl) as [_ Ht]. cbn [exec]. rewrite Hq. split; [done|]. split.
  - apply chain_links; [by intros ->|]. exists t. split; [apply links_upd_tail; [|done]; by apply NoDup_app in Hd as [? _]|].
    unfold upd at 2. rewrite decide_True by done. eapply chain_agree; [|exact Hc]. apply agree_upd.
    apply NoDup_app in Hd as (_ & Hd & _). by apply Hd.
  - intros f Hf. unfold upd. rewrite decide_False; [done|]. by intros ->.
Qed.

(** [f] is the first fiber of greatest priority of [l], [prev] the one before it. *)
Definition first_best (pr : fiber -> Z) (l : list fiber) (f : fiber) (prev : option fiber) : Prop :=
  exists a c, l = a ++ f :: c /\ prev = last a /\ Forall (fun x => pr x < pr f) a /\ Forall (fun x => pr x <= pr f) c.
Lemma exec_scan_best hs nx pr l2 : forall n best bp prev cur l1, last l1 = Some prev -> chain nx cur l2 -> (length l2 <= n)%nat ->
  first_best pr l1 best bp -> exists b bp', exec (scan_best n best bp prev cur) (hs, nx, pr) = Some ((b, bp'), (hs, nx, pr)) /\
    first_best pr (l1 ++ l2) b bp'.
Proof.
  induction l2 as [|c l2 IH]; intros n best bp prev cur l1 Hl Hc Hn Hf.
  - rewrite Hc, app_nil_r. exists best, bp. by destruct n.
  - destruct Hc as [-> Hc]. destruct n as [|n]; [cbn in Hn; lia|]. cbn [scan_best exec]. rewrite cons_middle, app_assoc.
    destruct (Z.ltb_spec (pr best) (pr c)) as [Hlt|Hge]; (apply IH; [by rewrite last_snoc|done|cbn in Hn; lia|]);
      destruct Hf as (a & d & -> & -> & Ha & Hd).
    + exists (a ++ best :: d), []. split_and!; [done|done| |done]. apply Forall_app. split; [|constructor; [done|]].
      * eapply Forall_impl; [exact Ha|]. cbn. lia.
      * eapply Forall_impl; [exact Hd|]. cbn. lia.
    + exists a, (d ++ [c]). split_and!; [by rewrite <- app_assoc|done|done|]. apply Forall_app. split; [done|]. by repeat constructor.
Qed.

(** What [rt_queue_pop_best] does with the rest of the list. *)
Lemma exec_give_back n hs nx pr q b list l : hs !! q = Some None -> chain nx list l -> NoDup l -> b ∉ l -> (length l <= n)%nat ->
  exists h' nx', exec (match list with Some l => do _ <- rt_queue_push_list n q l; Ret (Some b) | None => Ret (Some b) end)
      (hs, upd b None nx, pr)
      = Some (Some b, (<[q := h']> hs, nx', pr)) /\ chain nx' h' l /\ forall x, x ∉ b :: l -> nx' x = nx x.
Proof.
  intros Hq Hc Hd Hb Hn. assert (forall x, x ∉ b :: l -> upd b None nx x = nx x) as Hfr.
  { intros x Hx. unfold upd. rewrite decide_False; [done|]. intros ->. apply Hx. by left. }
  assert (chain (upd b None nx) list l) as H3 by (eapply chain_agree; [by apply agree_upd|done]).
  destruct list as [p|]; [|exists None, (upd b None nx); by rewrite list_insert_id].
  unfold rt_queue_push_list, rt_list_tail. rewrite exec_bind, exec_bind.
  destruct (exec_list_tail hs (upd b None nx) pr _ n p H3 Hn) as (t & -> & Ht). cbn [mbind option_bind].
  destruct (exec_push_block hs (upd b None nx) pr q p l t [] None (Ret tt)) as (-> & Hch & Hsame); [done|done|done|by rewrite app_nil_r|].
  cbn [exec mbind option_bind]. rewrite app_nil_r in *. do 2 eexists. split; [done|]. split; [exact Hch|].
  intros x Hx. rewrite Hsame by set_solver. by apply Hfr.
Qed.
Lemma exec_pop_best n hs nx pr q h l : hs !! q = Some (Some h) -> chain nx (Some h) l -> NoDup l -> (length l <= n)%nat ->
  exists b a c h' nx', exec (rt_queue_pop_best n true q) (hs, nx, pr) = Some (Some b, (<[q := h']> hs, nx', pr)) /\
    l = a ++ b :: c /\ Forall (fun x => pr x < pr b) a /\ Forall (fun x => pr x <= pr b) c /\
    chain nx' h' (a ++ c) /\ (forall f, f ∉ l -> nx' f = nx f).
Proof.
  intros Hq Hc Hd Hn. unfold rt_queue_pop_best. cbn [negb exec]. rewrite Hq. cbn [mbind option_bind exec].
  destruct l as [|f l0]; [done|]. pose proof Hc as Hc0. destruct Hc0 as [[= ->] Hc0]. rewrite exec_bind.
  destruct (exec_scan_best (<[q := None]> hs) nx pr l0 n f None f (nx f) [f]) as (b & bp & -> & a & c & E & Hbp & Ha & Hcs);
    [done|done|cbn in Hn; lia|by exists [], []|]. cbn [app] in E. rewrite E in *. clear E Hc0 l0.
  exists b, a, c. cbn [mbind option_bind exec]. rewrite exec_bind.
  assert (b ∉ a ++ c) as Hb.
  { apply NoDup_app in Hd as (_ & H1 & H2). inversion H2; subst. intros [?|?]%elem_of_app; [|done]. eapply H1; [done|by left]. }
  assert (NoDup (a ++ c)) as Hac.
  { rewrite <- Permutation_middle in Hd. by inversion Hd. }
  pose proof (fun list nx2 => exec_give_back n (<[q:=None]> hs) nx2 pr q b list (a ++ c)) as Hrest.
  assert (<[q:=None]> hs !! q = Some None) as Hq0 by (by eapply list_lookup_insert_eq, lookup_lt_Some).
  assert (length (a ++ c) <= n)%nat as Hn2 by (rewrite length_app in Hn |- *; cbn in Hn; lia).
  destruct bp as [x|].
  - symmetry in Hbp. apply last_Some in Hbp as [a' ->]. cbn [exec mbind option_bind]. rewrite <- !app_assoc in *. cbn [app] in *.
    destruct (Hrest (Some f) (upd x (nx b) nx)) as (h' & nx' & -> & H1 & H2); [done|by apply chain_bypass|done..|].
    exists h', nx'. rewrite list_insert_insert_eq. split_and!; try done. intros y Hy. rewrite H2 by set_solver.
    unfold upd. rewrite decide_False; [done|]. intros ->. apply Hy. set_solver.
  - symmetry in Hbp. apply last_None in Hbp as ->. destruct Hc as [[= ->] Hc]. cbn [exec mbind option_bind].
    destruct (Hrest (nx b) nx) as (h' & nx' & -> & H1 & H2); [done..|]. exists h', nx'. rewrite list_insert_insert_eq.
    by split_and!.
Qed.

Lemma exec_count hs nx pr l : forall n h acc, chain nx h l -> (length l <= n)%nat ->
  exec (count n h acc) (hs, nx, pr) = Some ((acc + length l)%nat, (hs, nx, pr)).
Proof.
  induction l as [|f l IH]; intros n h acc; [intros -> _; rewrite Nat.add_0_r; by destruct n|]. intros [-> Hc] Hn.
  destruct n as [|n]; [cbn in Hn; lia|]. cbn [count exec]. rewrite IH by (done || cbn in Hn; lia). by rewrite Nat.add_succ_comm.
Qed.
Lemma exec_forward hs nx pr l1 f l2 : forall p, chain nx (Some p) (l1 ++ f :: l2) ->
  exec (forward (length l1) p) (hs, nx, pr) = Some (f, (hs, nx, pr)).
Proof.
  induction l1 as [|g l1 IH]; intros p [[= ->] Hc]; [done|]. cbn [length forward exec].
  destruct (nx g) as [c|]; [|by destruct l1, Hc]. by apply IH.
Qed.
(** How many of [n] queued tasks a thief takes. *)
Definition stolen (n : nat) : nat := if (n <? 2)%nat then n else (n / 2)%nat.
Lemma exec_steal n hs nx pr q h l : hs !! q = Some (Some h) -> chain nx (Some h) l -> NoDup l -> (length l <= n)%nat ->
  exists h' nx', exec (rt_queue_steal n q) (hs, nx, pr) = Some (Some h, (<[q := h']> hs, nx', pr)) /\
    chain nx' (Some h) (take (stolen (length l)) l) /\ chain nx' h' (drop (stolen (length l)) l).
Proof.
  intros Hq Hc Hd Hn. unfold rt_queue_steal, stolen. cbn [exec]. rewrite Hq. cbn [mbind option_bind exec].
  rewrite exec_bind, (exec_count _ _ _ l) by done. cbn [mbind option_bind Nat.add].
  destruct (Nat.ltb_spec (length l) 2) as [H2|H2]; [exists None, nx; rewrite firstn_all, skipn_all; by split_and!|].
  set (k := (length l / 2 - 1)%nat). assert (S k = length l / 2)%nat as Ek.
  { subst k. assert (1 <= length l / 2)%nat; [apply Nat.div_le_lower_bound; lia|lia]. }
  assert (S k < length l)%nat as Hk by (rewrite Ek; apply Nat.div_lt; lia).
  destruct (lookup_lt_is_Some_2 l k ltac:(lia)) as [f Hf]. rewrite <- Ek, (take_S_r l k f Hf). clearbody k.
  assert (length (take k l) = k) as Htk by (rewrite length_take; lia).
  pose proof (take_drop_middle l k f Hf) as Hsplit. set (l1 := take k l) in *. set (l2 := drop (S k) l) in *.
  assert (length l2 = length l - S k)%nat as Hl2 by apply length_drop. rewrite <- Hsplit in Hc, Hd.
  rewrite <- Htk, exec_bind, (exec_forward _ _ _ l1 f l2) by done. cbn [mbind option_bind exec].
  destruct (chain_cut _ _ _ _ _ Hd Hc) as [Hc1 Hc2]. destruct (nx f) as [r|]; [|by destruct l2; [cbn in Hl2; lia|destruct Hc2]].
  unfold rt_list_tail. rewrite exec_bind. destruct (exec_list_tail (<[q:=None]> hs) (upd f None nx) pr l2 n r Hc2) as (t & -> & Ht); [lia|].
  cbn [mbind option_bind]. assert (NoDup (l1 ++ [f]) /\ (forall x, x ∈ l1 ++ [f] -> x ∉ l2) /\ NoDup l2) as (_ & Hdis & Hd2).
  { apply NoDup_app. by rewrite <- app_assoc. }
  destruct (exec_push_block (<[q:=None]> hs) (upd f None nx) pr q r l2 t [] None (Ret (Some h))) as (-> & Hch & Hsame);
    [done|by eapply list_lookup_insert_eq, lookup_lt_Some|done|by rewrite app_nil_r|].
  rewrite app_nil_r in Hch. do 2 eexists. cbn [exec]. rewrite list_insert_insert_eq. split; [done|]. split; [|exact Hch].
  eapply chain_agree; [|exact Hc1]. intros x Hx. apply Hsame. by apply Hdis.
Qed.

(** Undisturbed, a worker with priorities in use takes from its queue the first fiber
    of greatest priority (the newest among equals) and leaves the others in their order;
    a thief takes the newer half, rounded down but never none, and leaves the older. *)
Theorem scheduling_order (n i q : nat) (s : sys (option fiber)) (h : fiber) (l : list fiber) :
  heads s !! q = Some (Some h) -> chain (next s) (Some h) l -> NoDup l -> (length l <= n)%nat ->
  (agents s !! i = Some (rt_queue_pop_best n true q) -> exists steps b a c h' nx',
     run (alone i steps) s = mkSys (<[q := h']> (heads s)) nx' (priority s) (<[i := Ret (Some b)]> (agents s)) /\
     l = a ++ b :: c /\ Forall (fun x => priority s x < priority s b) a /\ Forall (fun x => priority s x <= priority s b) c /\
     chain nx' h' (a ++ c)) /\
  (agents s !! i = Some (rt_queue_steal n q) -> exists steps h' nx',
     run (alone i steps) s = mkSys (<[q := h']> (heads s)) nx' (priority s) (<[i := Ret (Some h)]> (agents s)) /\
     chain nx' (Some h) (take (stolen (length l)) l) /\ chain nx' h' (drop (stolen (length l)) l)).
Proof.
  intros Hq Hc Hd Hn. split; intros Hp.
  - destruct (exec_pop_best n (heads s) (next s) (priority s) q h l Hq Hc Hd Hn) as (b & a & c & h' & nx' & He & El & Ha & Hcs & Hch & _).
    destruct (exec_run i _ s _ _ _ _ Hp He) as [steps Hr]. exists steps, b, a, c, h', nx'. by split_and!.
  - destruct (exec_steal n (heads s) (next s) (priority s) q h l Hq Hc Hd Hn) as (h' & nx' & He & H1 & H2).
    destruct (exec_run i _ s _ _ _ _ Hp He) as [steps Hr]. exists steps, h', nx'. by split_and!.
Qed.
Definition three_queued (p : prog (option fiber)) : sys (option fiber) :=
  mkSys [Some 3%positive] (fun f => if (2 <=? Z.pos f) then Some (Pos.pred f) else None) (fun f => if Pos.eqb f 3 then 0 else 5) [p].
Lemma scheduling_order_witness : exists steps b a c h' nx',
  run (alone 0 steps) (three_queued (rt_queue_pop_best 3 true 0)) =
    mkSys [h'] nx' (fun f => if Pos.eqb f 3 then 0 else 5) [Ret (Some b)] /\ [3; 2; 1]%positive = a ++ b :: c /\ chain nx' h' (a ++ c).
Proof.
  destruct (proj1 (scheduling_order 3 0 0 (three_queued (rt_queue_pop_best 3 true 0)) 3%positive [3; 2; 1]%positive
    eq_refl ltac:(by vm_compute) ltac:(repeat constructor; set_solver) ltac:(cbn; lia)) eq_refl)
    as (steps & b & a & c & h' & nx' & H1 & H2 & _ & _ & H3).
  exists steps, b, a, c, h', nx'. auto.
Defined.
