(* ===== verification/Sync.v ===== *)
(** * Events of tasks ([runtime/rt_sync.c], [runtime/rt_task.c])

    The fiber mode of the lock layer and the event operations on it.  A lock is an owner, a
    depth and a list of parked fibers, guarded by a spin lock that is held for one step; a
    condition is a list of parked fibers, each with the key it waits for, guarded by the lock;
    both lists go through the one link [wait_next] of a fiber.  A step of a fiber is a
    critical section of the spin lock, an access to an event word, one round of the walk of a
    signal, or a parking or waking of a fiber; fibers interleave step by step, in
    sequentially consistent order.  A parked fiber goes on when it has been unparked and the
    scheduler picks it; which, and when, is left open. *)
From S2P Require Import Prelude.

(** ** Memory *)
(** The event lock and the event condition; [wait_next] and [wait_key] of the fibers, absent
    for [NULL]; the event words, absent for 0; the fibers unparked and not yet resumed. *)
Record shared := mkShared {
  lock_owner : option nat; lock_depth : Z; lock_waiters : option nat; cond_waiters : option nat;
  wait_next : gmap nat nat; wait_key : gmap nat nat; table : gmap nat Z; ready : list nat }.

Definition set_lock (o : option nat) (n : Z) (s : shared) : shared :=
  mkShared o n (lock_waiters s) (cond_waiters s) (wait_next s) (wait_key s) (table s) (ready s).
Definition set_lock_waiters (w : option nat) (s : shared) : shared :=
  mkShared (lock_owner s) (lock_depth s) w (cond_waiters s) (wait_next s) (wait_key s) (table s) (ready s).
Definition set_cond_waiters (w : option nat) (s : shared) : shared :=
  mkShared (lock_owner s) (lock_depth s) (lock_waiters s) w (wait_next s) (wait_key s) (table s) (ready s).
Definition set_next (f : nat) (v : option nat) (s : shared) : shared :=
  mkShared (lock_owner s) (lock_depth s) (lock_waiters s) (cond_waiters s) (partial_alter (fun _ => v) f (wait_next s)) (wait_key s) (table s) (ready s).
Definition set_key (f : nat) (v : option nat) (s : shared) : shared :=
  mkShared (lock_owner s) (lock_depth s) (lock_waiters s) (cond_waiters s) (wait_next s) (partial_alter (fun _ => v) f (wait_key s)) (table s) (ready s).
Definition set_ready (l : list nat) (s : shared) : shared :=
  mkShared (lock_owner s) (lock_depth s) (lock_waiters s) (cond_waiters s) (wait_next s) (wait_key s) (table s) l.
(** [pli_plat_store_i32_release]. *)
Definition store (e : nat) (v : Z) (s : shared) : shared :=
  mkShared (lock_owner s) (lock_depth s) (lock_waiters s) (cond_waiters s) (wait_next s) (wait_key s) (<[e := v]> (table s)) (ready s).

(** ** The scheduler's side *)
Definition rt_sched_unpark (w : nat) (s : shared) : shared := set_ready (w :: ready s) s.
(** Resuming in [rt_sched_park]: not before the fiber is unparked. *)
Definition rt_sched_park (f : nat) (s : shared) : option shared :=
  if decide (f ∈ ready s) then Some (set_ready (filter (fun x => x <> f) (ready s)) s) else None.

(** ** The lock *)
(** [rt_lock_acquire] up to the park: whether the fiber [f] has the lock. *)
Definition rt_lock_acquire (f : nat) (s : shared) : bool * shared :=
  match lock_owner s with
  | None => (true, set_lock (Some f) 1 s)
  | Some o =>
      if (o =? f)%nat then (true, set_lock (Some f) (lock_depth s + 1) s)
      else (false, set_lock_waiters (Some f) (set_next f (lock_waiters s) s))
  end.
(** [rt_lock_release] up to the unpark: the fiber to unpark. *)
Definition rt_lock_release (s : shared) : option nat * shared :=
  if 1 <? lock_depth s then (None, set_lock (lock_owner s) (lock_depth s - 1) s)
  else
    match lock_waiters s with
    | Some w => (Some w, set_lock (Some w) 1 (set_next w None (set_lock_waiters (wait_next s !! w) s)))
    | None => (None, set_lock None 0 s)
    end.

(** ** The condition *)
(** [rt_cond_wait_key] up to the release. *)
Definition enlist (f : nat) (key : option nat) (s : shared) : shared :=
  set_cond_waiters (Some f) (set_next f (cond_waiters s) (set_key f key s)).
(** One round of the loop of [rt_cond_signal_key], for the waiter [w]: the new [keep] and
    [keep_tail]. *)
Definition signal_one (key w : nat) (keep keep_tail : option nat) (s : shared) : option nat * option nat * shared :=
  let s := set_next w None s in
  match wait_key s !! w with
  | None => (keep, keep_tail, rt_sched_unpark w s)
  | Some k =>
      if (k =? key)%nat then (keep, keep_tail, rt_sched_unpark w s)
      else
        match keep_tail with
        | Some t => (keep, Some w, set_next t (Some w) s)
        | None => (Some w, Some w, s)
        end
  end.

(** ** The event operations *)
(** [pli_event_reset], [pli_event_complete], [pli_event_wait] and [pli_wait_n], with the
    address of the event, [None] for null; a null array is an empty one. *)
Inductive op := Reset (e : option nat) | Complete (e : option nat) | Wait (e : option nat) | WaitN (evs : list (option nat)) (need : Z).

(** Where a fiber is: between two operations; in the loop before the lock of [pli_wait_n], at
    an index and with a count; about to take the lock; parked for it; behind it; in the
    loop under the lock; in the walk of a signal, with the waiter, [keep] and [keep_tail]; about to enlist
    on the condition; about to release the lock there; parked there; about to release the lock at the
    end; and about to unpark the fiber it has handed the lock to, which it then parks after or not. *)
Inductive place := Idle | Look (i : nat) (n : Z) | Take | Queued | Body | Scan (i : nat) (n : Z)
  | Walk (w keep keep_tail : option nat) | Enlist | Leave | Asleep | Finish | Wake (w : nat) (then_park : bool).
Record task := mkTask { pc : place; ops : list op }.

Definition is_set (v : option Z) : bool := negb (default 0 v =? 0).
(** [addrs[i] && rt_ev_done(addrs[i])]. *)
Definition rt_ev_done (T : gmap nat Z) (e : option nat) : bool := match e with Some e => is_set (T !! e) | None => false end.
Definition needed (evs : list (option nat)) (need : Z) : Z := Z.min need (Z.of_nat (length evs)).
Definition key_of (o : op) : option nat := match o with Wait e => e | _ => None end.

(** The start of an operation, before the lock: [None] when it returns at once. *)
Definition enter (T : gmap nat Z) (o : op) : option place :=
  match o with
  | Reset None | Complete None | Wait None => None
  | Reset _ | Complete _ => Some Take
  | Wait e => if rt_ev_done T e then None else Some Take
  | WaitN evs need => if (length evs =? 0)%nat || (need <=? 0) then None else Some (Look 0 0)
  end.
(** A round of the loops of [pli_wait_n]: [None] when the count is reached. *)
Definition count_one (T : gmap nat Z) (evs : list (option nat)) (need : Z) (i : nat) (n : Z) (again : nat -> Z -> place) (last : place) : option place :=
  match evs !! i with
  | Some e => if rt_ev_done T e then if needed evs need <=? n + 1 then None else Some (again (S i) (n + 1)) else Some (again (S i) n)
  | None => Some last
  end.
(** The operation behind the lock. *)
Definition body (o : op) (s : shared) : option (place * shared) :=
  match o with
  | Reset (Some e) => Some (Finish, store e 0 s)
  | Complete (Some e) => Some (Walk (cond_waiters s) None None, store e 1 s)
  | Wait (Some e) => Some (if rt_ev_done (table s) (Some e) then Finish else Enlist, s)
  | WaitN _ _ => Some (Scan 0 0, s)
  | _ => None
  end.

(** A step of the fiber [f], [None] when it is parked or has done all its operations. *)
Definition run (f : nat) (t : task) (s : shared) : option (task * shared) :=
  match pc t with
  | Wake w b => Some (mkTask (if b then Asleep else Idle) (ops t), rt_sched_unpark w s)
  | p =>
      match ops t with
      | [] => None
      | o :: rest =>
          let goto p s := Some (mkTask p (ops t), s) in
          match p with
          | Idle => match enter (table s) o with Some p => goto p s | None => Some (mkTask Idle rest, s) end
          | Look i n =>
              match o with
              | WaitN evs need => match count_one (table s) evs need i n Look Take with Some p => goto p s | None => Some (mkTask Idle rest, s) end
              | _ => None
              end
          | Take => let '(got, s) := rt_lock_acquire f s in goto (if got then Body else Queued) s
          | Queued => match rt_sched_park f s with Some s => goto Body s | None => None end
          | Body => match body o s with Some (p, s) => goto p s | None => None end
          | Scan i n =>
              match o with
              | WaitN evs need => goto (default Finish (count_one (table s) evs need i n Scan Enlist)) s
              | _ => None
              end
          | Walk (Some w) keep keep_tail =>
              match o with
              | Complete (Some e) => let '(keep', tail', s') := signal_one e w keep keep_tail s in goto (Walk (wait_next s !! w) keep' tail') s'
              | _ => None
              end
          | Walk None keep _ => goto Finish (set_cond_waiters keep s)
          | Enlist => goto Leave (enlist f (key_of o) s)
          | Leave => let '(w, s) := rt_lock_release s in goto (match w with Some w => Wake w true | None => Asleep end) s
          | Asleep => match rt_sched_park f s with Some s => goto Take s | None => None end
          | Finish => let '(w, s) := rt_lock_release s in Some (mkTask (match w with Some w => Wake w false | None => Idle end) rest, s)
          | Wake _ _ => None
          end
      end
  end.

(** ** The system *)
Record system := mkSystem { tasks : list task; mem : shared }.
Definition move (f : nat) (c : system) : option system :=
  match tasks c !! f with
  | Some t => match run f t (mem c) with Some (t', s') => Some (mkSystem (<[f := t']> (tasks c)) s') | None => None end
  | None => None
  end.
Definition step (c c' : system) : Prop := exists f, move f c = Some c'.
(** Fibers with the operations they are to do, and the event words at the start. *)
Definition start (ps : list (list op)) (T : gmap nat Z) : system :=
  mkSystem (map (mkTask Idle) ps) (mkShared None 0 None None ∅ ∅ T []).

(** A run under a schedule; a fiber that cannot move is passed over. *)
Definition schedule (l : list nat) (c : system) : system := fold_left (fun c f => default c (move f c)) l c.
