(* ===== verification/SyncThms.v ===== *)
(** * What the events of tasks promise ([runtime/rt_sync.c], [runtime/rt_task.c])

    The invariant of the lock and of the condition under every interleaving, and what
    follows: no fiber sleeps on with its events complete, every run ends, and without
    resets all runs end alike. *)
From S2P Require Import Prelude Sync.
#[local] Set Default Proof Using "Type*".
#[local] Arguments rt_ev_done : simpl never.

(** ** Requirements *)
Fixpoint done_in (T : gmap nat Z) (evs : list (option nat)) : Z :=
  match evs with [] => 0 | e :: l => (if rt_ev_done T e then 1 else 0) + done_in T l end.
(** An operation that goes through the lock, one that may sleep, and when it need not. *)
Definition lockable (o : op) : Prop :=
  match o with Reset e | Complete e | Wait e => e <> None | WaitN evs need => evs <> [] /\ 0 < need end.
Definition waits (o : op) : Prop := match o with Wait _ | WaitN _ _ => lockable o | _ => False end.
Definition met (T : gmap nat Z) (o : op) : bool :=
  match o with
  | Wait (Some e) => rt_ev_done T (Some e)
  | WaitN evs need => (length evs =? 0)%nat || (need <=? 0) || (needed evs need <=? done_in T evs)
  | _ => true
  end.

Lemma done_in_range T evs : 0 <= done_in T evs <= Z.of_nat (length evs).
Proof. induction evs as [|e evs IH]; cbn; [lia|]. destruct (rt_ev_done T e); lia. Qed.
Lemma done_in_snoc T evs i e : evs !! i = Some e -> done_in T (take (S i) evs) = done_in T (take i evs) + (if rt_ev_done T e then 1 else 0).
Proof.
  revert i. induction evs as [|x evs IH]; intros [|i] H; try done.
  - injection H as ->. rewrite firstn_cons, !firstn_O. cbn [done_in]. lia.
  - cbn in H. rewrite !firstn_cons. cbn [done_in]. rewrite (IH i H). lia.
Qed.
Lemma done_in_take T evs i : done_in T (take i evs) <= done_in T evs.
Proof.
  revert i. induction evs as [|e evs IH]; intros [|i]; cbn; try lia.
  - pose proof (done_in_range T evs). destruct (rt_ev_done T e); lia.
  - specialize (IH i). lia.
Qed.
Lemma met_waitN T evs need : evs <> [] -> 0 < need -> met T (WaitN evs need) = (needed evs need <=? done_in T evs).
Proof.
  intros He Hn. cbn. destruct evs as [|e evs]; [done|]. cbn [length Nat.eqb]. destruct (Z.leb_spec need 0); [lia|]. done.
Qed.
Lemma needed_pos evs need : evs <> [] -> 0 < need -> 0 < needed evs need.
Proof. intros He Hn. unfold needed. destruct evs; [done|]. cbn. lia. Qed.

(** Clearing an event meets no requirement, and setting one only those that name it. *)
Lemma ev_done_clear T e x : rt_ev_done (<[e := 0]> T) x = true -> rt_ev_done T x = true.
Proof.
  destruct x as [x|]; [|done]. unfold rt_ev_done. destruct (decide (e = x)) as [->|Hne].
  - by rewrite lookup_insert_eq.
  - by rewrite lookup_insert_ne.
Qed.
Lemma done_in_mono T T' evs : (forall x, rt_ev_done T x = true -> rt_ev_done T' x = true) -> done_in T evs <= done_in T' evs.
Proof.
  intros H. induction evs as [|e evs IH]; cbn; [lia|]. specialize (H e).
  destruct (rt_ev_done T e); [rewrite H by done; lia|]. destruct (rt_ev_done T' e); lia.
Qed.
Lemma met_mono T T' o : (forall x, rt_ev_done T x = true -> rt_ev_done T' x = true) -> met T o = true -> met T' o = true.
Proof.
  intros H. destruct o as [e|e|[e|]|evs need]; cbn; try done; [apply H|].
  pose proof (done_in_mono T T' evs H). destruct ((length evs =? 0)%nat || (need <=? 0)); [done|]. cbn. rewrite !Z.leb_le. lia.
Qed.
Lemma met_clear T e o : met T o = false -> met (<[e := 0]> T) o = false.
Proof.
  intros H. destruct (met (<[e := 0]> T) o) eqn:E; [|done]. rewrite <- H. symmetry.
  eapply met_mono; [|exact E]. intros x. apply ev_done_clear.
Qed.
Lemma met_other T e v o : waits o -> key_of o <> None -> key_of o <> Some e -> met (<[e := v]> T) o = met T o.
Proof.
  destruct o as [|[]|[x|]|]; cbn; try done. intros _ _ Hne. unfold rt_ev_done. rewrite lookup_insert_ne; [done|]. congruence.
Qed.

(** ** Linked lists *)
Fixpoint seg (m : gmap nat nat) (h : option nat) (l : list nat) : Prop :=
  match l with [] => h = None | x :: l => h = Some x /\ seg m (m !! x) l end.
Lemma seg_frame m m' h l : seg m h l -> (forall x, x ∈ l -> m' !! x = m !! x) -> seg m' h l.
Proof.
  revert h. induction l as [|x l IH]; intros h; cbn; [done|]. intros [-> H] Hf. split; [done|].
  rewrite (Hf x) by apply list_elem_of_here. apply IH; [done|]. intros y Hy. apply Hf. by apply list_elem_of_further.
Qed.
Lemma seg_snoc m h l w : seg m h l -> NoDup l -> w ∉ l -> m !! w = None ->
  match last l with
  | Some t => seg (partial_alter (fun _ => Some w) t m) h (l ++ [w])
  | None => seg m (Some w) (l ++ [w])
  end.
Proof.
  revert h. induction l as [|x l IH]; intros h; [by cbn; intros -> _ _ ->|].
  intros [-> H] [Hx Hn]%NoDup_cons Hw Hmw. apply not_elem_of_cons in Hw as [Hwx Hw].
  destruct l as [|y l].
  - cbn in *. rewrite lookup_partial_alter_eq. rewrite lookup_partial_alter_ne by done. by rewrite Hmw.
  - specialize (IH _ H Hn Hw Hmw). change (last (x :: y :: l)) with (last (y :: l)).
    destruct (last (y :: l)) as [t|] eqn:E; [|by apply last_None in E].
    change ((x :: y :: l) ++ [w]) with (x :: (y :: l) ++ [w]). split; [done|].
    rewrite lookup_partial_alter_ne; [exact IH|]. intros ->. apply Hx. apply last_Some_elem_of in E. done.
Qed.

(** ** The invariant *)
(** Where the record of each fiber is, and the three lists: the waiters of the lock, those of
    the condition that a walk has kept, and those it has before it (all of them outside
    a walk). *)
Inductive spot := Nowhere | InLock | InCond | InReady | Handed.
Record ghost := mkGhost { at_ : nat -> spot; LQ : list nat; KQ : list nat; RQ : list nat }.
Definition put (f : nat) (v : spot) (p : nat -> spot) : nat -> spot := fun x => if decide (x = f) then v else p x.
Definition is_walk (p : place) : bool := match p with Walk _ _ _ => true | _ => false end.

Definition fiber_ok (s : shared) (g : ghost) (f : nat) (t : task) : Prop :=
  let mine := lock_owner s = Some f in
  match pc t with
  | Wake w b => lock_owner s = Some w /\ w <> f /\ at_ g w = Handed /\
                (if b then (at_ g f = InCond \/ at_ g f = InReady) /\ exists o r, ops t = o :: r /\ waits o else at_ g f = Nowhere)
  | p =>
      match ops t with
      | [] => p = Idle /\ at_ g f = Nowhere /\ ~ mine
      | o :: _ =>
          match p with
          | Idle => at_ g f = Nowhere /\ ~ mine
          | Look i n => at_ g f = Nowhere /\ ~ mine /\ lockable o /\ exists evs need, o = WaitN evs need /\ (i <= length evs)%nat
          | Take => at_ g f = Nowhere /\ ~ mine /\ lockable o
          | Queued => lockable o /\ ((at_ g f = InLock /\ ~ mine) \/ ((at_ g f = Handed \/ at_ g f = InReady) /\ mine))
          | Body => at_ g f = Nowhere /\ mine /\ lockable o
          | Scan i n => at_ g f = Nowhere /\ mine /\ lockable o /\
              exists evs need, o = WaitN evs need /\ (i <= length evs)%nat /\ n = done_in (table s) (take i evs) /\ n < needed evs need
          | Walk w k tl => at_ g f = Nowhere /\ mine /\ (exists e, o = Complete (Some e)) /\
              seg (wait_next s) w (RQ g) /\ seg (wait_next s) k (KQ g) /\ tl = last (KQ g)
          | Enlist => at_ g f = Nowhere /\ mine /\ waits o /\ met (table s) o = false
          | Leave => at_ g f = InCond /\ mine /\ waits o
          | Asleep => (at_ g f = InCond \/ at_ g f = InReady) /\ ~ mine /\ waits o
          | Finish => at_ g f = Nowhere /\ mine
          | Wake _ _ => False
          end
      end
  end.
(** A waiter of the condition: its requirement is not met, or the walk that is under way will wake it. *)
Definition waiter_ok (c : system) (g : ghost) (f : nat) : Prop :=
  exists t o r, tasks c !! f = Some t /\ ops t = o :: r /\ waits o /\ wait_key (mem c) !! f = key_of o /\
    (met (table (mem c)) o = false \/
     (f ∈ RQ g /\ exists h u e r', tasks c !! h = Some u /\ is_walk (pc u) = true /\ ops u = Complete (Some e) :: r' /\ (key_of o = None \/ key_of o = Some e))).
Record inv (c : system) (g : ghost) : Prop := {
  i_fib : forall f t, tasks c !! f = Some t -> fiber_ok (mem c) g f t;
  i_task : forall f, at_ g f <> Nowhere -> is_Some (tasks c !! f);
  i_lock : seg (wait_next (mem c)) (lock_waiters (mem c)) (LQ g);
  i_lock_nodup : NoDup (LQ g);
  i_lock_at : forall f, f ∈ LQ g <-> at_ g f = InLock;
  i_cond : (forall f t, tasks c !! f = Some t -> is_walk (pc t) = false) -> KQ g = [] /\ seg (wait_next (mem c)) (cond_waiters (mem c)) (RQ g);
  i_cond_nodup : NoDup (KQ g ++ RQ g);
  i_cond_at : forall f, f ∈ KQ g ++ RQ g <-> at_ g f = InCond;
  i_ready_at : forall f, f ∈ ready (mem c) <-> at_ g f = InReady;
  i_waits : forall f, at_ g f = InCond -> waiter_ok c g f;
  i_owner : match lock_owner (mem c) with
            | Some o => lock_depth (mem c) = 1 /\ is_Some (tasks c !! o)
            | None => LQ g = []
            end;
  i_handed : forall f, at_ g f = Handed -> exists h t b, tasks c !! h = Some t /\ pc t = Wake f b;
  i_waker : forall f h t u w b v d, tasks c !! f = Some t -> tasks c !! h = Some u -> pc t = Wake w b -> pc u = Wake v d -> f = h }.

(** ** The measure *)
Section measure.
(** No list of events is longer than [B] less 20, and there are [N] fibers. *)
Variables B N : nat.
Definition evs_len (o : op) : nat := match o with WaitN evs _ => length evs | _ => 0%nat end.
Definition body_rank (o : op) : nat := (match o with Complete _ => 4 + (B + 1) * N | _ => 8 + evs_len o end)%nat.
Definition weight (o : op) : nat := (body_rank o + 4 + evs_len o)%nat.
Definition charge (g : ghost) (f : nat) : nat := match at_ g f with InReady => B | _ => 0%nat end.
Definition rank (g : ghost) (f : nat) (p : place) (o : op) : nat :=
  (match p with
   | Look i _ => body_rank o + 3 + (evs_len o - i)
   | Take => body_rank o + 2
   | Queued => body_rank o + 1
   | Body => body_rank o
   | Scan i _ => 7 + (evs_len o - i)
   | Enlist => 6
   | Leave => 5
   | Wake _ _ => 4 + charge g f
   | Asleep => 3 + charge g f
   | Walk _ _ _ => 3 + (B + 1) * length (RQ g)
   | Finish => 2
   | Idle => weight o
   end)%nat.
(** What a fiber still has to do. *)
Definition mu (g : ghost) (f : nat) (t : task) : nat :=
  match pc t with
  | Wake _ false => (1 + sum_list_with weight (ops t))%nat
  | p => match ops t with [] => 0%nat | o :: r => (rank g f p o + sum_list_with weight r)%nat end
  end.
Definition mu_of (c : system) (g : ghost) (f : nat) : nat := match tasks c !! f with Some t => mu g f t | None => 0%nat end.
Definition total (c : system) (g : ghost) : nat := sum_list_with (mu_of c g) (seq 0 (length (tasks c))).
Definition fits (c : system) : Prop := length (tasks c) = N /\ forall f t o, tasks c !! f = Some t -> o ∈ ops t -> (evs_len o + 20 <= B)%nat.

(** One goes down by more than [d] and one other up by at most [d], the rest not up. *)
Lemma sum_change (m m' : nat -> nat) l f w d : NoDup l -> f <> w -> (m' f + d < m f)%nat -> (m' w <= m w + d)%nat ->
  (forall h, h <> f -> h <> w -> (m' h <= m h)%nat) ->
  (sum_list_with m' l + (if decide (f ∈ l) then d + 1 else 0) <= sum_list_with m l + (if decide (w ∈ l) then d else 0))%nat.
Proof.
  intros Hl Hne Hf Hw Hh. induction Hl as [|x l Hx Hl IH]; cbn [sum_list_with].
  { destruct (decide (f ∈ [])) as [H%elem_of_nil|_]; [done|]. destruct (decide (w ∈ [])) as [H%elem_of_nil|_]; [done|]. lia. }
  destruct (decide (x = f)) as [Exf|Exf]; destruct (decide (x = w)) as [Exw|Exw]; [congruence|subst x..|pose proof (Hh x Exf Exw)];
    repeat match goal with |- context [decide (?a ∈ ?b :: l)] => let E := fresh in destruct (decide (a ∈ b :: l)) as [E|E]; rewrite elem_of_cons in E end;
    destruct (decide (f ∈ l)), (decide (w ∈ l)); try (exfalso; intuition congruence); lia.
Qed.
Lemma total_change c g g' f t t' s' w d : tasks c !! f = Some t -> w <> f -> (mu g' f t' + d < mu g f t)%nat ->
  (forall u, tasks c !! w = Some u -> (mu g' w u <= mu g w u + d)%nat) ->
  (forall h u, h <> f -> h <> w -> tasks c !! h = Some u -> (mu g' h u <= mu g h u)%nat) ->
  (total (mkSystem (<[f := t']> (tasks c)) s') g' < total c g)%nat.
Proof.
  intros Hf Hwf Hlt Hw Hh. unfold total. cbn [tasks]. rewrite length_insert.
  pose proof (lookup_lt_Some _ _ _ Hf) as Hfl.
  pose proof (sum_change (mu_of c g) (mu_of (mkSystem (<[f := t']> (tasks c)) s') g') (seq 0 (length (tasks c))) f w d (NoDup_seq _ _) ltac:(congruence)) as H.
  unfold mu_of in H at 1 2 3 4 5 6. cbn [tasks] in H. rewrite list_lookup_insert_eq, Hf in H by done. rewrite list_lookup_insert_ne in H by done.
  specialize (H Hlt). destruct (decide (f ∈ seq 0 (length (tasks c)))) as [_|E]; [|rewrite elem_of_seq in E; lia].
  assert (forall h, h <> f -> h <> w -> (mu_of (mkSystem (<[f := t']> (tasks c)) s') g' h <= mu_of c g h)%nat) as H'.
  { intros h H1 H2. unfold mu_of. cbn [tasks]. rewrite list_lookup_insert_ne by done. destruct (tasks c !! h) as [u|] eqn:E; [eauto|lia]. }
  destruct (tasks c !! w) as [u|] eqn:Ew; [specialize (H (Hw u eq_refl) H')|specialize (H ltac:(lia) H')]; destruct (decide (w ∈ seq 0 (length (tasks c)))); lia.
Qed.
End measure.

(** ** Frames *)
Lemma put_eq f v p : put f v p f = v.
Proof. unfold put. by rewrite decide_True. Qed.
Lemma put_ne f v p h : h <> f -> put f v p h = p h.
Proof. intros H. unfold put. by rewrite decide_False. Qed.

Lemma fiber_frame s s' g g' h u : fiber_ok s g h u -> at_ g' h = at_ g h -> (lock_owner s' = Some h <-> lock_owner s = Some h) ->
  (forall w b, pc u = Wake w b -> lock_owner s = Some w -> at_ g w = Handed -> lock_owner s' = Some w /\ at_ g' w = Handed) ->
  (lock_owner s = Some h -> at_ g h = Nowhere -> table s' = table s /\ RQ g' = RQ g /\ KQ g' = KQ g /\
     forall x, x ∈ KQ g ++ RQ g -> wait_next s' !! x = wait_next s !! x) ->
  fiber_ok s' g' h u.
Proof.
  unfold fiber_ok. intros H Ha Ho Hw Hm. destruct (pc u) as [|i n| | | |i n|w k tl| | | | |w b]; destruct (ops u) as [|o r]; try (rewrite Ha, ?Ho; exact H);
    try (rewrite Ha, Ho; tauto).
  - destruct H as (E & Hm' & H). destruct (Hm Hm' E) as (-> & _). rewrite Ha, Ho. auto.
  - destruct H as (E & Hm' & He & Hs & Hk & Ht). destruct (Hm Hm' E) as (_ & -> & -> & Hn). rewrite Ha, Ho. repeat split; try done.
    + eapply seg_frame; [exact Hs|]. intros x Hx. apply Hn. apply elem_of_app. by right.
    + eapply seg_frame; [exact Hk|]. intros x Hx. apply Hn. apply elem_of_app. by left.
  - destruct H as (E & Hm' & H). destruct (Hm Hm' E) as (-> & _). rewrite Ha, Ho. auto.
  - destruct H as (E & Hne & Hp & H). destruct (Hw w b eq_refl E Hp) as [-> ->]. by rewrite Ha.
  - destruct H as (E & Hne & Hp & H). destruct (Hw w b eq_refl E Hp) as [-> ->]. by rewrite Ha.
Qed.

Lemma insert_inv {A} (l : list A) f t h u : <[f := t]> l !! h = Some u -> (h = f /\ u = t) \/ (h <> f /\ l !! h = Some u).
Proof. intros [(-> & -> & _)|[H ?]]%list_lookup_insert_Some; [by left|right; split; congruence]. Qed.

Section facts.
Context (c : system) (g : ghost) (I : inv c g).

Lemma walker_owns f t : tasks c !! f = Some t -> is_walk (pc t) = true -> lock_owner (mem c) = Some f /\ at_ g f = Nowhere.
Proof.
  intros Ht Hw. pose proof (i_fib c g I f t Ht) as H. unfold fiber_ok in H. destruct (pc t); try done. destruct (ops t); tauto || by destruct H.
Qed.
Lemma no_walker f t : tasks c !! f = Some t -> lock_owner (mem c) <> Some f \/ is_walk (pc t) = false -> lock_owner (mem c) = Some f ->
  forall h u, tasks c !! h = Some u -> is_walk (pc u) = false.
Proof.
  intros Ht [Hn|Hn] Ho h u Hu; [done|]. destruct (is_walk (pc u)) eqn:E; [|done]. destruct (walker_owns h u Hu E) as [Hh _].
  assert (h = f) as -> by congruence. congruence.
Qed.
Definition holds (p : place) : bool := match p with Body | Scan _ _ | Walk _ _ _ | Enlist | Leave | Finish => true | _ => false end.
Lemma holds_owner f t : tasks c !! f = Some t -> holds (pc t) = true -> lock_owner (mem c) = Some f.
Proof.
  intros Ht Hh. pose proof (i_fib c g I f t Ht) as H. unfold fiber_ok in H. destruct (pc t); try done; destruct (ops t); tauto || by destruct H.
Qed.
(** With no walk under way no requirement of a waiter is met. *)
Lemma waiter_unmet : (forall h u, tasks c !! h = Some u -> is_walk (pc u) = false) -> forall x, at_ g x = InCond ->
  exists t o r, tasks c !! x = Some t /\ ops t = o :: r /\ waits o /\ wait_key (mem c) !! x = key_of o /\ met (table (mem c)) o = false.
Proof.
  intros Hn x Hx. destruct (i_waits c g I x Hx) as (t & o & r & H1 & H2 & H3 & H4 & [H5|(_ & h & u & e & r' & Hu & Hw & _)]); [eauto 10|].
  rewrite (Hn h u Hu) in Hw. done.
Qed.
Lemma waiter_frame f t t' c' g' x : tasks c !! f = Some t -> tasks c' = <[f := t']> (tasks c) -> at_ g x = InCond -> (x = f -> ops t' = ops t) ->
  wait_key (mem c') !! x = wait_key (mem c) !! x -> table (mem c') = table (mem c) -> (x ∈ RQ g -> x ∈ RQ g') ->
  (is_walk (pc t) = true -> is_walk (pc t') = true /\ ops t' = ops t) -> waiter_ok c' g' x.
Proof.
  intros Hf Ec Hx Ho Hk HT HR Hw. destruct (i_waits c g I x Hx) as (u & o & r & H1 & H2 & H3 & H4 & H5).
  assert (f < length (tasks c))%nat as Hfl by by apply lookup_lt_Some in Hf.
  assert (exists u', tasks c' !! x = Some u' /\ ops u' = o :: r) as (u' & Hu' & Eu').
  { rewrite Ec. destruct (decide (x = f)) as [->|Hne].
    - exists t'. rewrite list_lookup_insert_eq by done. split; [done|]. rewrite Ho by done. congruence.
    - exists u. by rewrite list_lookup_insert_ne. }
  exists u', o, r. rewrite Hk, HT. repeat split; try done. destruct H5 as [H5|(HxR & h & v & e & r' & Hv & Hwv & Ev & He)]; [by left|].
  right. split; [auto|]. destruct (decide (h = f)) as [->|Hne].
  - assert (v = t) as -> by congruence. destruct (Hw Hwv) as [Hw' Eo]. exists f, t', e, r'. rewrite Ec, list_lookup_insert_eq by done. by rewrite Eo.
  - exists h, v, e, r'. rewrite Ec, list_lookup_insert_ne by done. done.
Qed.
End facts.

(** ** Each step keeps the invariant and goes down *)
Section steps.
Context (B N : nat) (c : system) (g : ghost) (I : inv c g) (Hfits : fits B N c) (f : nat) (t : task) (Ht : tasks c !! f = Some t).
Abbreviation mu := (mu B N).
Abbreviation s := (mem c).
Definition next_of (t' : task) (s' : shared) : system := mkSystem (<[f := t']> (tasks c)) s'.
Definition goes_down (t' : task) (s' : shared) : Prop :=
  exists g', inv (next_of t' s') g' /\ (total B N (next_of t' s') g' < total B N c g)%nat.
Definition plain (p : place) : Prop := is_walk p = false /\ forall w b, p <> Wake w b.

Lemma here_ok : fiber_ok s g f t.
Proof. exact (i_fib c g I f t Ht). Qed.
Lemma in_range : (f < length (tasks c))%nat.
Proof. by apply lookup_lt_Some in Ht. Qed.
Lemma still h : is_Some (tasks c !! h) -> forall t', is_Some (<[f := t']> (tasks c) !! h).
Proof. intros H t'. destruct (decide (h = f)) as [->|Hne]; [rewrite list_lookup_insert_eq by exact in_range; eauto|by rewrite list_lookup_insert_ne]. Qed.
Lemma mu_same g' h u : at_ g' h = at_ g h -> is_walk (pc u) = false \/ RQ g' = RQ g -> mu g' h u = mu g h u.
Proof.
  intros Ha Hw. unfold SyncThms.mu, rank, charge. rewrite Ha. destruct (pc u); try done. destruct (ops u); [done|]. destruct Hw as [Hw | ->]; done.
Qed.
(** The walkers and wakers of the next state. *)
Lemma next_waker t' : (forall w b, pc t' <> Wake w b) ->
  forall h i u v w b x d, <[f := t']> (tasks c) !! h = Some u -> <[f := t']> (tasks c) !! i = Some v -> pc u = Wake w b -> pc v = Wake x d -> h = i.
Proof.
  intros Hp h i u v w b x d [(-> & ->)|(_ & Hu)]%insert_inv [(-> & ->)|(_ & Hv)]%insert_inv E1 E2; try done; try (exfalso; by eapply Hp).
  exact (i_waker c g I h i u v w b x d Hu Hv E1 E2).
Qed.
Lemma next_handed t' : (forall w b, pc t <> Wake w b) -> forall x, at_ g x = Handed -> exists h u b, <[f := t']> (tasks c) !! h = Some u /\ pc u = Wake x b.
Proof.
  intros Hp x Hx. destruct (i_handed c g I x Hx) as (h & u & b & Hu & E). exists h, u, b. split; [|done].
  rewrite list_lookup_insert_ne; [done|]. intros ->. assert (u = t) as -> by congruence. by eapply Hp.
Qed.

Lemma i_owner_still t' : match lock_owner s with Some o => lock_depth s = 1 /\ is_Some (<[f := t']> (tasks c) !! o) | None => LQ g = [] end.
Proof. pose proof (i_owner c g I) as H. destruct (lock_owner s); [|exact H]. split; [apply H|]. apply still, H. Qed.

Lemma quiet_step t' s' : plain (pc t) -> plain (pc t') -> at_ g f = Nowhere \/ at_ g f = InReady ->
  lock_waiters s' = lock_waiters s -> cond_waiters s' = cond_waiters s -> wait_next s' = wait_next s -> wait_key s' = wait_key s ->
  (forall x, x ∈ ready s' <-> x ∈ ready s /\ x <> f) ->
  (lock_owner s' = lock_owner s /\ lock_depth s' = lock_depth s) \/ (lock_owner s = None /\ lock_owner s' = Some f /\ lock_depth s' = 1) ->
  table s' = table s \/ (lock_owner s = Some f /\ forall o, met (table s) o = false -> met (table s') o = false) ->
  fiber_ok s' (mkGhost (put f Nowhere (at_ g)) (LQ g) (KQ g) (RQ g)) f t' ->
  (mu (mkGhost (put f Nowhere (at_ g)) (LQ g) (KQ g) (RQ g)) f t' < mu g f t)%nat -> goes_down t' s'.
Proof.
  intros Hp Hp' Ha E1 E2 E3 E4 Hr Ho HT Hok Hmu. set (g' := mkGhost _ _ _ _) in *. exists g'.
  assert (forall x v, at_ g' x = v -> v <> Nowhere -> at_ g x = v) as Hback.
  { intros x v. subst g'. unfold put. cbn. destruct (decide (x = f)); [congruence|done]. }
  assert (forall x v, at_ g x = v -> v <> Nowhere -> v <> InReady -> at_ g' x = v /\ x <> f) as Hforth.
  { intros x v Hx Hv Hv'. subst g'. unfold put. cbn. destruct (decide (x = f)) as [->|]; [destruct Ha; congruence|done]. }
  split.
  - constructor; cbn [tasks mem next_of].
    + intros h u [(-> & ->)|(Hne & Hu)]%insert_inv; [exact Hok|]. eapply fiber_frame; [exact (i_fib c g I h u Hu)|by apply put_ne| | |].
      * destruct Ho as [[-> _]|(-> & -> & _)]; [done|]. split; congruence.
      * intros w b Hw How Hat. destruct (Hforth w Handed Hat ltac:(done) ltac:(done)) as [-> _]. destruct Ho as [[-> _]|(Ho & _)]; [done|congruence].
      * intros Hoh _. rewrite E3. destruct HT as [HT|[HT _]]; [done|congruence].
    + intros x Hx. apply still, (i_task c g I). intros E. apply Hx. subst g'. unfold put. cbn. by destruct (decide _).
    + rewrite E1, E3. exact (i_lock c g I).
    + exact (i_lock_nodup c g I).
    + intros x. change (LQ g') with (LQ g). rewrite (i_lock_at c g I). split; [intros H; by apply Hforth|intros H; by apply Hback].
    + intros Hn. rewrite E2, E3. apply (i_cond c g I). intros h u Hu. destruct (decide (h = f)) as [->|Hne].
      * assert (u = t) as -> by congruence. apply Hp.
      * apply (Hn h). by rewrite list_lookup_insert_ne.
    + exact (i_cond_nodup c g I).
    + intros x. change (KQ g' ++ RQ g') with (KQ g ++ RQ g). rewrite (i_cond_at c g I). split; [intros H; by apply Hforth|intros H; by apply Hback].
    + intros x. rewrite Hr, (i_ready_at c g I). split; [intros [H Hne]; subst g'; cbn; by rewrite put_ne|].
      intros H. split; [by apply Hback|]. intros ->. subst g'. cbn in H. by rewrite put_eq in H.
    + intros x Hx. pose proof (Hback x InCond Hx ltac:(done)) as Hx'. destruct (Hforth x InCond Hx' ltac:(done) ltac:(done)) as [_ Hne].
      destruct HT as [HT|[HoT HT]].
      * eapply (waiter_frame c g I f t t'); [exact Ht|done|exact Hx'|done|cbn; by rewrite E4|done|done|by rewrite (proj1 Hp)].
      * destruct (waiter_unmet c g I) with (x := x) as (u & o & r & H1 & H2 & H3 & H4 & H5); [|done|].
        { apply (no_walker c g I f t Ht); [right; apply Hp|done]. }
        exists u, o, r. cbn. rewrite list_lookup_insert_ne, E4 by done. repeat split; auto.
    + destruct Ho as [[-> ->]|(Ho & -> & ->)].
      * pose proof (i_owner c g I) as H. destruct (lock_owner s); [|exact H]. split; [apply H|]. apply still, H.
      * split; [done|]. by apply still.
    + intros x Hx. apply next_handed; [apply Hp|]. by apply Hback.
    + by apply next_waker, Hp'.
  - eapply (total_change B N c g g' f t t' s' (S f) 0 Ht); [lia|lia| |]; [intros u _|intros h u Hne _ _]; rewrite Nat.add_0_r || idtac;
      (rewrite mu_same; [lia| |by right]); subst g'; cbn; rewrite put_ne; (done || lia).
Qed.

(** Bookkeeping of the ghost after one fiber has changed its spot. *)
Ltac spots := cbn [at_ LQ KQ RQ]; unfold put; repeat case_decide; subst; try done; try congruence; try (intuition congruence).
Lemma seg_put m h l x v : seg m h l -> x ∉ l -> seg (partial_alter (fun _ => v) x m) h l.
Proof. intros H Hx. eapply seg_frame; [exact H|]. intros y Hy. rewrite lookup_partial_alter_ne; [done|]. by intros ->. Qed.
Lemma not_queued x : at_ g x = Nowhere \/ at_ g x = Handed \/ at_ g x = InReady -> x ∉ LQ g /\ x ∉ KQ g ++ RQ g.
Proof. intros H. split; [rewrite (i_lock_at c g I)|rewrite (i_cond_at c g I)]; intros E; destruct H as [H|[H|H]]; congruence. Qed.

Lemma block_step : pc t = Take -> (exists o, lock_owner s = Some o /\ o <> f) -> ops t <> [] ->
  goes_down (mkTask Queued (ops t)) (set_lock_waiters (Some f) (set_next f (lock_waiters s) s)).
Proof.
  intros Ep (o & Eo & Hof) Hops. pose proof here_ok as H. unfold fiber_ok in H. rewrite Ep in H. destruct (ops t) as [|op r] eqn:Eops; [done|]. destruct H as (Ha & Hm & Hl).
  destruct (not_queued f ltac:(by left)) as [HL HC].
  exists (mkGhost (put f InLock (at_ g)) (f :: LQ g) (KQ g) (RQ g)). split.
  - constructor; cbn [tasks mem next_of].
    + intros h u [(-> & ->)|(Hne & Hu)]%insert_inv.
      * unfold fiber_ok. cbn. rewrite put_eq, Eo. split; [done|]. left. split; [done|congruence].
      * eapply fiber_frame; [exact (i_fib c g I h u Hu)|by apply put_ne|done| |].
        -- intros w b _ Hw Hh. split; [done|]. cbn. rewrite put_ne; [done|]. intros ->. congruence.
        -- intros _ _. cbn. split; [done|]. split; [done|]. split; [done|]. intros x Hx. rewrite lookup_partial_alter_ne; [done|]. by intros ->.
    + intros x Hx. apply still. destruct (decide (x = f)) as [->|Hne]; [eauto|]. apply (i_task c g I). cbn in Hx. by rewrite put_ne in Hx.
    + cbn. split; [done|]. rewrite lookup_partial_alter_eq. apply seg_put; [exact (i_lock c g I)|done].
    + constructor; [done|exact (i_lock_nodup c g I)].
    + intros x. cbn [LQ]. rewrite elem_of_cons, (i_lock_at c g I). spots; intuition congruence.
    + intros Hn. destruct (i_cond c g I) as [EK Hs].
      { intros h u Hu. destruct (decide (h = f)) as [->|Hne]; [by assert (u = t) as -> by congruence; rewrite Ep|]. apply (Hn h). by rewrite list_lookup_insert_ne. }
      split; [exact EK|]. apply seg_put; [exact Hs|]. intros Hx. apply HC, elem_of_app. by right.
    + exact (i_cond_nodup c g I).
    + intros x. cbn [KQ RQ]. rewrite (i_cond_at c g I). spots.
    + intros x. cbn [ready set_lock_waiters set_next]. rewrite (i_ready_at c g I). spots.
    + intros x Hx. assert (at_ g x = InCond) as Hx' by (revert Hx; spots).
      eapply (waiter_frame c g I f t); [exact Ht|done|exact Hx'|done|done|done|done|by rewrite Ep].
    + cbn [lock_owner set_lock_waiters set_next]. rewrite Eo. pose proof (i_owner c g I) as Ho. rewrite Eo in Ho. split; [apply Ho|]. apply still, Ho.
    + intros x Hx. apply next_handed; [by rewrite Ep|]. revert Hx; spots.
    + by apply next_waker.
  - eapply (total_change B N c g _ f t _ _ (S f) 0 Ht); [lia|unfold SyncThms.mu; rewrite Ep; cbn; rewrite Eops; cbn; lia| |].
    + intros u _. rewrite Nat.add_0_r, mu_same; [done| |by right]. cbn. rewrite put_ne; [done|lia].
    + intros h u Hne _ _. rewrite mu_same; [done| |by right]. cbn. by rewrite put_ne.
Qed.

Lemma enlist_step o r : pc t = Enlist -> ops t = o :: r -> goes_down (mkTask Leave (ops t)) (enlist f (key_of o) s).
Proof.
  intros Ep Eops. pose proof here_ok as H. unfold fiber_ok in H. rewrite Ep, Eops in H. destruct H as (Ha & Hm & Hl & Hu0).
  destruct (not_queued f ltac:(by left)) as [HL HC].
  assert (forall h u, tasks c !! h = Some u -> is_walk (pc u) = false) as Hnw by (apply (no_walker c g I f t Ht); [right; by rewrite Ep|done]).
  destruct (i_cond c g I Hnw) as [EK Hs].
  exists (mkGhost (put f InCond (at_ g)) (LQ g) (KQ g) (f :: RQ g)). split.
  - constructor; cbn [tasks mem next_of].
    + intros h u [(-> & ->)|(Hne & Hu)]%insert_inv.
      * unfold fiber_ok. cbn. rewrite Eops, put_eq. done.
      * eapply fiber_frame; [exact (i_fib c g I h u Hu)|by apply put_ne|done| |].
        -- intros w b _ Hw Hh. split; [done|]. cbn. rewrite put_ne; [done|]. intros ->. congruence.
        -- intros Hh _. congruence.
    + intros x Hx. apply still. destruct (decide (x = f)) as [->|Hne]; [eauto|]. apply (i_task c g I). cbn in Hx. by rewrite put_ne in Hx.
    + cbn. apply seg_put; [exact (i_lock c g I)|done].
    + exact (i_lock_nodup c g I).
    + intros x. cbn [LQ]. rewrite (i_lock_at c g I). spots.
    + intros _. cbn. split; [exact EK|]. split; [done|]. rewrite lookup_partial_alter_eq. apply seg_put; [exact Hs|]. intros Hx. apply HC, elem_of_app. by right.
    + cbn [KQ RQ]. pose proof (i_cond_nodup c g I) as Hn. rewrite EK in *. constructor; [|exact Hn]. done.
    + intros x. cbn [KQ RQ]. rewrite EK. cbn. rewrite elem_of_cons. pose proof (i_cond_at c g I x) as Hx. rewrite EK in Hx. cbn in Hx. rewrite Hx. spots; intuition congruence.
    + intros x. cbn [ready enlist set_cond_waiters set_next set_key]. rewrite (i_ready_at c g I). spots.
    + intros x Hx. destruct (decide (x = f)) as [->|Hne].
      * exists (mkTask Leave (ops t)), o, r. cbn. rewrite list_lookup_insert_eq by exact in_range. rewrite lookup_partial_alter_eq. repeat split; auto.
      * assert (at_ g x = InCond) as Hx' by (revert Hx; spots).
        eapply (waiter_frame c g I f t); [exact Ht|done|exact Hx'|done| |done| |by rewrite Ep].
        -- cbn. by rewrite lookup_partial_alter_ne.
        -- intros Hr. by apply list_elem_of_further.
    + cbn [lock_owner enlist set_cond_waiters set_next set_key]. rewrite Hm. pose proof (i_owner c g I) as Ho. rewrite Hm in Ho. split; [apply Ho|]. apply still, Ho.
    + intros x Hx. apply next_handed; [by rewrite Ep|]. revert Hx; spots.
    + by apply next_waker.
  - eapply (total_change B N c g _ f t _ _ (S f) 0 Ht); [lia|unfold SyncThms.mu; rewrite Ep; cbn; rewrite Eops; cbn; lia| |].
    + intros u Hu. rewrite Nat.add_0_r, mu_same; [done| |left; by eapply Hnw]. cbn. rewrite put_ne; [done|lia].
    + intros h u Hne _ Hu. rewrite mu_same; [done| |left; by eapply Hnw]. cbn. by rewrite put_ne.
Qed.

(** The end of a walk, the start of one, and its rounds. *)
Lemma walk_end keep tl : pc t = Walk None keep tl -> goes_down (mkTask Finish (ops t)) (set_cond_waiters keep s).
Proof.
  intros Ep. pose proof here_ok as H. unfold fiber_ok in H. rewrite Ep in H. destruct (ops t) as [|o r] eqn:Eops; [by destruct H|].
  destruct H as (Ha & Hm & He & Hs & Hk & Htl). assert (RQ g = []) as ER by (destruct (RQ g); [done|by destruct Hs]).
  exists (mkGhost (at_ g) (LQ g) [] (KQ g)). split.
  - constructor; cbn [tasks mem next_of].
    + intros h u [(-> & ->)|(Hne & Hu)]%insert_inv; [unfold fiber_ok; cbn; done|].
      eapply fiber_frame; [exact (i_fib c g I h u Hu)|done|done|done|]. intros Hh _. congruence.
    + intros x Hx. by apply still, (i_task c g I).
    + exact (i_lock c g I).
    + exact (i_lock_nodup c g I).
    + exact (i_lock_at c g I).
    + intros _. done.
    + pose proof (i_cond_nodup c g I) as Hn. rewrite ER, app_nil_r in Hn. exact Hn.
    + intros x. cbn [KQ RQ app]. pose proof (i_cond_at c g I x) as Hx. rewrite ER, app_nil_r in Hx. exact Hx.
    + exact (i_ready_at c g I).
    + intros x Hx. destruct (i_waits c g I x Hx) as (u & o' & r' & H1 & H2 & H3 & H4 & [H5|(HR & _)]); [|rewrite ER in HR; by apply elem_of_nil in HR].
      assert (x <> f) as Hne by (intros ->; cbn in Hx; congruence). exists u, o', r'. cbn. rewrite list_lookup_insert_ne by done. repeat split; auto.
    + exact (i_owner_still _).
    + intros x Hx. apply next_handed; [by rewrite Ep|done].
    + intros h i u v w b x d [(-> & ->)|(_ & Hu)]%insert_inv [(-> & ->)|(_ & Hv)]%insert_inv E1 E2; try done. exact (i_waker c g I h i u v w b x d Hu Hv E1 E2).
  - eapply (total_change B N c g _ f t _ _ (S f) 0 Ht); [lia|unfold SyncThms.mu; rewrite Ep; cbn; rewrite Eops; cbn; lia| |].
    + intros u Hu. rewrite Nat.add_0_r, mu_same; [done|done|]. left. destruct (is_walk (pc u)) eqn:E; [|done]. destruct (walker_owns c g I _ u Hu E). congruence || (exfalso; assert (S f = f) by congruence; lia).
    + intros h u Hne _ Hu. rewrite mu_same; [done|done|]. left. destruct (is_walk (pc u)) eqn:E; [|done]. destruct (walker_owns c g I _ u Hu E). congruence.
Qed.

Lemma queue_bound : (length (RQ g) <= N)%nat.
Proof.
  destruct Hfits as [<- _]. trans (length (seq 0 (length (tasks c)))); [|by rewrite length_seq]. apply submseteq_length, NoDup_submseteq.
  - pose proof (i_cond_nodup c g I) as H. by apply NoDup_app in H as (_ & _ & H).
  - intros x Hx. apply elem_of_seq. destruct (i_task c g I x) as [u Hu]; [|apply lookup_lt_Some in Hu; lia].
    assert (at_ g x = InCond) as -> by (apply (i_cond_at c g I), elem_of_app; by right). done.
Qed.
Lemma walk_start e r : pc t = Body -> ops t = Complete (Some e) :: r ->
  goes_down (mkTask (Walk (cond_waiters s) None None) (ops t)) (store e 1 s).
Proof.
  intros Ep Eops. pose proof here_ok as H. unfold fiber_ok in H. rewrite Ep, Eops in H. destruct H as (Ha & Hm & Hl).
  assert (forall h u, tasks c !! h = Some u -> is_walk (pc u) = false) as Hnw by (apply (no_walker c g I f t Ht); [right; by rewrite Ep|done]).
  destruct (i_cond c g I Hnw) as [EK Hs]. exists g. split.
  - constructor; cbn [tasks mem next_of]; try apply I.
    + intros h u [(-> & ->)|(Hne & Hu)]%insert_inv.
      * unfold fiber_ok. cbn. rewrite Eops, EK. repeat split; eauto.
      * eapply fiber_frame; [exact (i_fib c g I h u Hu)|done|done|done|]. intros Hh _. congruence.
    + intros x Hx. by apply still, (i_task c g I).
    + intros Hn. specialize (Hn f _ (list_lookup_insert_eq _ _ _ in_range)). done.
    + intros x Hx. destruct (waiter_unmet c g I Hnw x Hx) as (u & o & r' & H1 & H2 & H3 & H4 & H5).
      assert (x <> f) as Hne by (intros ->; congruence). exists u, o, r'. cbn. rewrite list_lookup_insert_ne by done. repeat split; try done.
      destruct (decide (key_of o = None \/ key_of o = Some e)) as [Hk|Hk].
      * right. split; [apply (i_cond_at c g I) in Hx; by rewrite EK in Hx|].
        exists f, (mkTask (Walk (cond_waiters s) None None) (ops t)), e, r. rewrite list_lookup_insert_eq by exact in_range. by rewrite Eops.
      * left. rewrite <- H5. apply met_other; tauto.
    + exact (i_owner_still _).
    + intros x Hx. apply next_handed; [by rewrite Ep|done].
    + by apply next_waker.
  - eapply (total_change B N c g _ f t _ _ (S f) 0 Ht); [lia| | |].
    + unfold SyncThms.mu. rewrite Ep, Eops. cbn. pose proof queue_bound. nia.
    + intros u Hu. lia.
    + intros h u Hne _ Hu. lia.
Qed.

Lemma walk_head w R : RQ g = w :: R -> at_ g f = Nowhere -> at_ g w = InCond /\ w <> f /\ w ∉ KQ g /\ w ∉ R /\ w ∉ LQ g.
Proof.
  intros ER Ha. assert (at_ g w = InCond) as Hw by (apply (i_cond_at c g I); rewrite ER, elem_of_app, elem_of_cons; tauto).
  pose proof (i_cond_nodup c g I) as H. rewrite ER in H. apply NoDup_app in H as (_ & H2 & H3). apply NoDup_cons in H3 as [H3 _].
  split; [done|]. split; [congruence|]. split; [|split; [done|rewrite (i_lock_at c g I); congruence]].
  intros HK. apply (H2 w HK). by left.
Qed.
Lemma other_still h u : h <> f -> tasks c !! h = Some u -> lock_owner s = Some f -> is_walk (pc u) = false.
Proof. intros Hne Hu Hm. destruct (is_walk (pc u)) eqn:E; [|done]. destruct (walker_owns c g I h u Hu E). congruence. Qed.
(** A round of the walk: the waiter is woken, or kept. *)
Lemma walk_wake e r w R k tl : pc t = Walk (Some w) k tl -> ops t = Complete (Some e) :: r -> RQ g = w :: R -> wait_key s !! w = None \/ wait_key s !! w = Some e ->
  goes_down (mkTask (Walk (wait_next s !! w) k tl) (ops t)) (rt_sched_unpark w (set_next w None s)).
Proof.
  intros Ep Eops ER Hkey. pose proof here_ok as H. unfold fiber_ok in H. rewrite Ep, Eops in H. destruct H as (Ha & Hm & He & Hs & Hk & Htl).
  rewrite ER in Hs. destruct Hs as [_ Hs]. destruct (walk_head w R ER Ha) as (Hw & Hwf & HwK & HwR & HwL).
  assert (forall u, tasks c !! w = Some u -> pc u = Asleep) as Hpw.
  { intros u Hu. pose proof (i_fib c g I w u Hu) as H. unfold fiber_ok in H. rewrite Hw, Hm in H.
    destruct (pc u) as [| | | | | | | | | | |v []]; destruct (ops u); intuition (try congruence). }
  exists (mkGhost (put w InReady (at_ g)) (LQ g) (KQ g) R). split.
  - constructor; cbn [tasks mem next_of].
    + intros h u [(-> & ->)|(Hne & Hu)]%insert_inv.
      * unfold fiber_ok. cbn. rewrite Eops, put_ne by done. repeat split; eauto; apply seg_put; done.
      * destruct (decide (h = w)) as [->|Hhw].
        -- pose proof (i_fib c g I w u Hu) as H. unfold fiber_ok in *. rewrite (Hpw u Hu) in *. destruct (ops u); [by destruct H|]. cbn. rewrite put_eq. destruct H as (_ & H). auto.
        -- eapply fiber_frame; [exact (i_fib c g I h u Hu)|by apply put_ne|done| |].
           ++ intros v b _ Hv Hh. split; [done|]. cbn. rewrite put_ne; [done|]. congruence.
           ++ intros Hh _. cbn in Hh. congruence.
    + intros x Hx. apply still. destruct (decide (x = w)) as [->|Hne]; [apply (i_task c g I); congruence|]. apply (i_task c g I). cbn in Hx. by rewrite put_ne in Hx.
    + apply seg_put; [exact (i_lock c g I)|done].
    + exact (i_lock_nodup c g I).
    + intros x. cbn [LQ]. rewrite (i_lock_at c g I). spots.
    + intros Hn. specialize (Hn f _ (list_lookup_insert_eq _ _ _ in_range)). done.
    + cbn [KQ RQ]. pose proof (i_cond_nodup c g I) as H. rewrite ER in H. apply NoDup_app in H as (H1 & H2 & H3). apply NoDup_cons in H3 as [_ H3].
      apply NoDup_app. repeat split; try done. intros x Hx HxR. by apply (H2 x Hx), list_elem_of_further.
    + intros x. cbn [KQ RQ]. pose proof (i_cond_at c g I x) as H. rewrite ER in H. rewrite elem_of_app in *. rewrite elem_of_cons in H.
      cbn [at_]. unfold put. destruct (decide (x = w)) as [->|Hne]; [split; [tauto|done]|]. rewrite <- H. tauto.
    + intros x. cbn [ready rt_sched_unpark set_ready set_next]. rewrite elem_of_cons, (i_ready_at c g I). spots.
    + intros x Hx. assert (at_ g x = InCond /\ x <> w) as [Hx' Hxw] by (revert Hx; spots).
      eapply (waiter_frame c g I f t); [exact Ht|done|exact Hx'|done|done|done| |done].
      rewrite ER, elem_of_cons. cbn. tauto.
    + exact (i_owner_still _).
    + intros x Hx. apply next_handed; [by rewrite Ep|]. revert Hx; spots.
    + by apply next_waker.
  - eapply (total_change B N c g _ f t _ _ w B Ht); [done| | |].
    + unfold SyncThms.mu. rewrite Ep, Eops. cbn. rewrite ER. cbn. lia.
    + intros u Hu. unfold SyncThms.mu. rewrite (Hpw u Hu). destruct (ops u); [lia|]. unfold rank, charge. cbn. rewrite put_eq. lia.
    + intros h u Hne Hnw Hu. rewrite mu_same; [done|cbn; by rewrite put_ne|]. left. by apply (other_still h u).
Qed.
Lemma walk_keep e r w R k tl x : pc t = Walk (Some w) k tl -> ops t = Complete (Some e) :: r -> RQ g = w :: R -> wait_key s !! w = Some x -> x <> e ->
  goes_down (mkTask (Walk (wait_next s !! w) (match tl with Some _ => k | None => Some w end) (Some w)) (ops t))
    (match tl with Some y => set_next y (Some w) (set_next w None s) | None => set_next w None s end).
Proof.
  intros Ep Eops ER Hkey Hxe. pose proof here_ok as H. unfold fiber_ok in H. rewrite Ep, Eops in H. destruct H as (Ha & Hm & He & Hs & Hk & Htl).
  rewrite ER in Hs. destruct Hs as [_ Hs]. destruct (walk_head w R ER Ha) as (Hw & Hwf & HwK & HwR & HwL).
  set (s' := match tl with Some y => set_next y (Some w) (set_next w None s) | None => set_next w None s end).
  pose proof (i_cond_nodup c g I) as Hnd. rewrite ER in Hnd. pose proof Hnd as HndKR. apply NoDup_app in Hnd as (HndK & HndX & HndR).
  assert (lock_owner s' = lock_owner s /\ lock_depth s' = lock_depth s /\ lock_waiters s' = lock_waiters s /\ wait_key s' = wait_key s /\ table s' = table s /\ ready s' = ready s)
    as (E1 & E1' & E2 & E3 & E4 & E5) by (subst s'; destruct tl; done).
  assert (forall l h, seg (wait_next s) h l -> w ∉ l -> (forall y, tl = Some y -> y ∉ l) -> seg (wait_next s') h l) as Hseg.
  { intros l h Hl H1 H2. subst s'. destruct tl as [y|]; cbn; [apply seg_put; [|by apply H2]|]; by apply seg_put. }
  assert (forall y, tl = Some y -> y ∈ KQ g) as Hy by (intros y ->; by apply last_Some_elem_of).
  exists (mkGhost (at_ g) (LQ g) (KQ g ++ [w]) R). split.
  - constructor; cbn [tasks mem next_of].
    + intros h u [(-> & ->)|(Hne & Hu)]%insert_inv.
      * unfold fiber_ok. cbn. rewrite Eops, E1. repeat split; eauto.
        -- apply Hseg; [done..|]. intros y ->. intros Hyr. apply (HndX y); [by apply Hy|by apply list_elem_of_further].
        -- pose proof (seg_snoc (partial_alter (fun _ => None) w (wait_next s)) k (KQ g) w) as Hsn.
           specialize (Hsn ltac:(by apply seg_put) HndK HwK ltac:(by rewrite lookup_partial_alter_eq)). rewrite <- Htl in Hsn. subst s'. by destruct tl.
        -- by rewrite last_snoc.
      * eapply fiber_frame; [exact (i_fib c g I h u Hu)|done|by rewrite E1| |].
        -- intros v b _ Hv Hh. by rewrite E1.
        -- intros Hh _. congruence.
    + intros y Hyt. by apply still, (i_task c g I).
    + rewrite E2. apply Hseg; [exact (i_lock c g I)|done|]. intros y Hyt Hyl. apply Hy in Hyt. apply (i_lock_at c g I) in Hyl.
      assert (at_ g y = InCond) by (apply (i_cond_at c g I), elem_of_app; by left). congruence.
    + exact (i_lock_nodup c g I).
    + exact (i_lock_at c g I).
    + intros Hn. specialize (Hn f _ (list_lookup_insert_eq _ _ _ in_range)). done.
    + cbn [KQ RQ]. by rewrite <- app_assoc.
    + intros y. cbn [KQ RQ at_]. rewrite <- app_assoc. pose proof (i_cond_at c g I y) as H. by rewrite ER in H.
    + rewrite E5. exact (i_ready_at c g I).
    + intros y Hyt. cbn in Hyt. destruct (decide (y = w)) as [->|Hyw].
      * destruct (i_waits c g I w Hyt) as (u & o & r' & H1 & H2 & H3 & H4 & H5). exists u, o, r'. cbn. rewrite list_lookup_insert_ne, E3, E4 by done. repeat split; try done.
        left. destruct H5 as [H5|(_ & h & v & e' & r'' & Hv & Hwv & Ev & Hke)]; [done|]. exfalso.
        destruct (walker_owns c g I h v Hv Hwv) as [Hh _]. assert (h = f) as -> by congruence. assert (v = t) as -> by congruence. rewrite Eops in Ev. injection Ev as <- <-.
        rewrite <- H4, Hkey in Hke. destruct Hke; congruence.
      * eapply (waiter_frame c g I f t); [exact Ht|done|exact Hyt|done|cbn; by rewrite E3|done| |done]. rewrite ER, elem_of_cons. cbn. tauto.
    + rewrite E1, E1'. exact (i_owner_still _).
    + intros y Hyt. apply next_handed; [by rewrite Ep|done].
    + by apply next_waker.
  - eapply (total_change B N c g _ f t _ _ (S f) 0 Ht); [lia|unfold SyncThms.mu; rewrite Ep; cbn; rewrite Eops, ER; cbn; lia| |].
    + intros u Hu. rewrite Nat.add_0_r, mu_same; [done|done|]. left. apply (other_still (S f) u); [lia|done..].
    + intros h u Hne _ Hu. rewrite mu_same; [done|done|]. left. by apply (other_still h u).
Qed.

Lemma queued_mu h u g' : tasks c !! h = Some u -> at_ g h = InLock \/ at_ g h = Handed -> mu g' h u = mu g h u.
Proof.
  intros Hu Ha. pose proof (i_fib c g I h u Hu) as H. unfold fiber_ok in H. unfold SyncThms.mu, rank.
  destruct (pc u) as [| | | | | | | | | | |v []]; destruct (ops u); try done; exfalso; intuition congruence.
Qed.
(** The release of the lock at [Leave] and at [Finish]: handed on, or given up; and the wake that follows a hand-over. *)
Definition leaving (t' : task) (b : bool) : Prop :=
  if b then pc t = Leave /\ ops t' = ops t /\ at_ g f = InCond /\ exists o r, ops t = o :: r /\ waits o
  else pc t = Finish /\ at_ g f = Nowhere /\ exists o, ops t = o :: ops t'.
Lemma leaving_facts t' b : leaving t' b -> lock_owner s = Some f -> plain (pc t) /\ lock_depth s = 1 /\ (forall h u, tasks c !! h = Some u -> is_walk (pc u) = false) /\
  (forall x, at_ g x = InCond -> x = f -> ops t' = ops t) /\ (forall h u w b, tasks c !! h = Some u -> pc u <> Wake w b).
Proof.
  intros Hl Hm. assert (plain (pc t)) as Hp by (destruct b; destruct Hl as [-> _]; done). split; [done|].
  pose proof (i_owner c g I) as Ho. rewrite Hm in Ho. split; [apply Ho|].
  split; [apply (no_walker c g I f t Ht); [right; apply Hp|done]|]. split.
  - intros x Hx ->. destruct b; [apply Hl|]. destruct Hl as (_ & Ha & _). congruence.
  - intros h u w d Hu E. pose proof (i_fib c g I h u Hu) as H. unfold fiber_ok in H. rewrite E in H. destruct H as (Ew & _ & Hh & _).
    assert (w = f) as -> by congruence. destruct b; destruct Hl as (_ & Hl); intuition congruence.
Qed.
Lemma leaving_mu t' b g' : leaving t' b -> at_ g' f = at_ g f -> pc t' = (if b then Asleep else Idle) \/ (exists w, pc t' = Wake w b) -> (mu g' f t' < mu g f t)%nat.
Proof.
  intros Hl Ha Hp. unfold SyncThms.mu. destruct b.
  - destruct Hl as (E & Eo & Hc & o & r & Eops & _). rewrite Eo, Eops, E. unfold rank, charge. rewrite Ha, Hc. destruct Hp as [-> |[w ->]]; lia.
  - destruct Hl as (E & _ & o & Eo). rewrite Eo, E. cbn. destruct Hp as [-> |[w ->]]; [destruct (ops t'); cbn; lia|lia].
Qed.
Lemma release_handed t' b w : lock_owner s = Some f -> leaving t' b -> pc t' = Wake w b -> lock_waiters s = Some w ->
  goes_down t' (set_lock (Some w) 1 (set_next w None (set_lock_waiters (wait_next s !! w) s))).
Proof.
  intros Hm Hl Ep' Ew. destruct (leaving_facts t' b Hl Hm) as (Hp & Hd & Hnw & Hops & Hnk).
  pose proof (i_lock c g I) as Hs. rewrite Ew in Hs. destruct (LQ g) as [|w' L] eqn:EL; [done|]. destruct Hs as [E Hs]. injection E as <-.
  assert (at_ g w = InLock) as Hw by (apply (i_lock_at c g I); rewrite EL; by left).
  assert (w <> f) as Hwf by (intros ->; destruct b; destruct Hl as (_ & Hl); intuition congruence).
  pose proof (i_lock_nodup c g I) as Hnd. rewrite EL in Hnd. apply NoDup_cons in Hnd as [HwL HndL].
  exists (mkGhost (put w Handed (at_ g)) L (KQ g) (RQ g)). split.
  - constructor; cbn [tasks mem next_of].
    + intros h u [(-> & ->)|(Hne & Hu)]%insert_inv.
      * unfold fiber_ok. rewrite Ep'. cbn. rewrite put_eq, put_ne by done. split; [done|]. split; [done|]. split; [done|].
        destruct b; [|apply Hl]. destruct Hl as (_ & -> & -> & Hl). auto.
      * destruct (decide (h = w)) as [->|Hhw].
        -- pose proof (i_fib c g I w u Hu) as H. unfold fiber_ok in *. destruct (pc u) as [| | | | | | | | | | |v d] eqn:Eu; [..|by destruct (Hnk w u v d Hu)];
             destruct (ops u); cbn; rewrite ?put_eq; try (intuition congruence).
        -- eapply fiber_frame; [exact (i_fib c g I h u Hu)|by apply put_ne|cbn; split; congruence| |].
           ++ intros v d Ev. by destruct (Hnk h u v d Hu).
           ++ intros Hh _. congruence.
    + intros x Hx. apply still. destruct (decide (x = w)) as [->|Hne]; [apply (i_task c g I); congruence|]. apply (i_task c g I). cbn in Hx. by rewrite put_ne in Hx.
    + cbn. by apply seg_put.
    + exact HndL.
    + intros x. cbn [LQ at_]. pose proof (i_lock_at c g I x) as H. rewrite EL, elem_of_cons in H. unfold put.
      destruct (decide (x = w)) as [->|Hne]; [split; [done|done]|]. rewrite <- H. tauto.
    + intros _. destruct (i_cond c g I Hnw) as [EK Hc]. split; [exact EK|]. apply seg_put; [exact Hc|].
      intros HR. assert (at_ g w = InCond) by (apply (i_cond_at c g I), elem_of_app; by right). congruence.
    + exact (i_cond_nodup c g I).
    + intros x. cbn [KQ RQ]. rewrite (i_cond_at c g I). spots.
    + intros x. cbn [ready set_lock set_lock_waiters set_next]. rewrite (i_ready_at c g I). spots.
    + intros x Hx. assert (at_ g x = InCond) as Hx' by (revert Hx; spots).
      eapply (waiter_frame c g I f t); [exact Ht|done|exact Hx'|by apply Hops|done|done|done|by rewrite (proj1 Hp)].
    + cbn [lock_owner set_lock]. split; [done|]. apply still, (i_task c g I). congruence.
    + intros x Hx. destruct (decide (x = w)) as [->|Hne].
      * exists f, t', b. by rewrite list_lookup_insert_eq by exact in_range.
      * apply next_handed; [apply Hp|]. revert Hx; spots.
    + intros h i u v x d y e [(-> & ->)|(Hhf & Hu)]%insert_inv [(-> & ->)|(Hif & Hv)]%insert_inv E1 E2; [done|by destruct (Hnk i v y e Hv)|by destruct (Hnk h u x d Hu)..].
  - eapply (total_change B N c g _ f t t' _ (S f) 0 Ht); [lia| | |].
    + rewrite Nat.add_0_r. apply (leaving_mu t' b); [done|cbn; by rewrite put_ne|eauto].
    + intros u Hu. rewrite Nat.add_0_r. destruct (decide (S f = w)) as [E|E]; [|rewrite mu_same; [done|cbn; by rewrite put_ne|by right]].
      eapply Nat.eq_le_incl, queued_mu; [exact Hu|]. left. by rewrite E.
    + intros h u Hne _ Hu. destruct (decide (h = w)) as [->|E]; [|rewrite mu_same; [done|cbn; by rewrite put_ne|by right]].
      eapply Nat.eq_le_incl, queued_mu; [exact Hu|by left].
Qed.

Lemma release_free t' b : lock_owner s = Some f -> leaving t' b -> pc t' = (if b then Asleep else Idle) -> lock_waiters s = None -> goes_down t' (set_lock None 0 s).
Proof.
  intros Hm Hl Ep' Ew. destruct (leaving_facts t' b Hl Hm) as (Hp & Hd & Hnw & Hops & Hnk).
  pose proof (i_lock c g I) as Hs. rewrite Ew in Hs. assert (LQ g = []) as EL by (destruct (LQ g); [done|by destruct Hs]).
  assert (plain (pc t')) as Hp' by (rewrite Ep'; by destruct b).
  exists g. split.
  - constructor; cbn [tasks mem next_of]; try apply I.
    + intros h u [(-> & ->)|(Hne & Hu)]%insert_inv.
      * unfold fiber_ok. rewrite Ep'. cbn. destruct b.
        -- destruct Hl as (_ & Eo & Ha & o & r & Eops & Hw). rewrite Eo, Eops. cbn. repeat split; auto.
        -- destruct Hl as (_ & Ha & o & Eo). destruct (ops t'); done.
      * eapply fiber_frame; [exact (i_fib c g I h u Hu)|done|cbn; split; congruence| |].
        -- intros v d Ev. by destruct (Hnk h u v d Hu).
        -- intros Hh _. congruence.
    + intros x Hx. by apply still, (i_task c g I).
    + intros _. exact (i_cond c g I Hnw).
    + intros x Hx. eapply (waiter_frame c g I f t); [exact Ht|done|exact Hx|by apply Hops|done|done|done|by rewrite (proj1 Hp)].
    + exact EL.
    + intros x Hx. apply next_handed; [apply Hp|done].
    + by apply next_waker, Hp'.
  - eapply (total_change B N c g _ f t t' _ (S f) 0 Ht); [lia| | |].
    + rewrite Nat.add_0_r. apply (leaving_mu t' b); [done|done|by left].
    + intros u Hu. lia.
    + intros h u Hne _ Hu. lia.
Qed.

Lemma wake_step w b : pc t = Wake w b -> goes_down (mkTask (if b then Asleep else Idle) (ops t)) (rt_sched_unpark w s).
Proof.
  intros Ep. pose proof here_ok as H. unfold fiber_ok in H. rewrite Ep in H.
  assert (lock_owner s = Some w /\ w <> f /\ at_ g w = Handed /\ (if b then (at_ g f = InCond \/ at_ g f = InReady) /\ exists o r, ops t = o :: r /\ waits o else at_ g f = Nowhere))
    as (Hm & Hwf & Hw & Ha) by (destruct (ops t); exact H).
  assert (forall h u v d, h <> f -> tasks c !! h = Some u -> pc u <> Wake v d) as Hnk.
  { intros h u v d Hne Hu E. apply Hne. exact (i_waker c g I h f u t v d w b Hu Ht E Ep). }
  set (t' := mkTask _ _). assert (plain (pc t')) as Hp' by (subst t'; by destruct b).
  exists (mkGhost (put w InReady (at_ g)) (LQ g) (KQ g) (RQ g)). split.
  - constructor; cbn [tasks mem next_of]; try apply I.
    + intros h u [(-> & ->)|(Hne & Hu)]%insert_inv.
      * unfold fiber_ok. subst t'. destruct b; cbn.
        -- destruct Ha as (Ha & o & r & -> & Hwt). rewrite put_ne by done. repeat split; [done|congruence|done].
        -- rewrite put_ne by done. destruct (ops t); (split; [done|]) || idtac; repeat split; try done; congruence.
      * destruct (decide (h = w)) as [->|Hhw].
        -- pose proof (i_fib c g I w u Hu) as H'. unfold fiber_ok in *. destruct (pc u) as [| | | | | | | | | | |v d] eqn:Eu; [..|by destruct (Hnk w u v d Hne Hu)];
             destruct (ops u); cbn; rewrite ?put_eq; try (intuition congruence).
        -- eapply fiber_frame; [exact (i_fib c g I h u Hu)|by apply put_ne|done| |].
           ++ intros v d Ev. by destruct (Hnk h u v d Hne Hu).
           ++ intros Hh _. congruence.
    + intros x Hx. apply still. destruct (decide (x = w)) as [->|Hne]; [apply (i_task c g I); congruence|]. apply (i_task c g I). cbn in Hx. by rewrite put_ne in Hx.
    + intros x. cbn [LQ]. rewrite (i_lock_at c g I). spots.
    + intros Hn. apply (i_cond c g I). intros h u Hu. destruct (decide (h = f)) as [->|Hne]; [assert (u = t) as -> by congruence; by rewrite Ep|].
      apply (Hn h). by rewrite list_lookup_insert_ne.
    + intros x. cbn [KQ RQ]. rewrite (i_cond_at c g I). spots.
    + intros x. cbn [ready rt_sched_unpark set_ready]. rewrite elem_of_cons, (i_ready_at c g I). spots.
    + intros x Hx. assert (at_ g x = InCond) as Hx' by (revert Hx; spots).
      eapply (waiter_frame c g I f t); [exact Ht|done|exact Hx'|done|done|done|done|by rewrite Ep].
    + cbn [lock_owner lock_depth rt_sched_unpark set_ready]. exact (i_owner_still _).
    + intros x Hx. assert (at_ g x = Handed /\ x <> w) as [Hx' Hxw] by (revert Hx; spots).
      destruct (i_handed c g I x Hx') as (h & u & d & Hu & E). exfalso. destruct (decide (h = f)) as [->|Hne]; [|by eapply Hnk]. assert (u = t) as -> by congruence. congruence.
    + by apply next_waker, Hp'.
  - eapply (total_change B N c g _ f t t' _ (S f) 0 Ht); [lia| | |].
    + unfold SyncThms.mu. subst t'. rewrite Ep. destruct b; cbn.
      * destruct Ha as (_ & o & r & -> & _). unfold charge. cbn. rewrite put_ne by done. lia.
      * destruct (ops t) as [|o r]; cbn; lia.
    + intros u Hu. rewrite Nat.add_0_r. destruct (decide (S f = w)) as [E|E]; [|rewrite mu_same; [done|cbn; by rewrite put_ne|by right]].
      eapply Nat.eq_le_incl, queued_mu; [exact Hu|]. right. by rewrite E.
    + intros h u Hne _ Hu. destruct (decide (h = w)) as [->|E]; [|rewrite mu_same; [done|cbn; by rewrite put_ne|by right]].
      eapply Nat.eq_le_incl, queued_mu; [exact Hu|by right].
Qed.

Abbreviation unspot := (mkGhost (put f Nowhere (at_ g)) (LQ g) (KQ g) (RQ g)).
Lemma unspot_ok t' s' : at_ g f = Nowhere -> plain (pc t') -> fiber_ok s' g f t' -> fiber_ok s' unspot f t'.
Proof.
  intros Ha [_ Hp] H. eapply fiber_frame; [exact H|cbn; by rewrite put_eq|done| |done]. intros w b E. by destruct (Hp w b).
Qed.
Lemma unspot_mu t' : at_ g f = Nowhere -> mu unspot f t' = mu g f t'.
Proof. intros Ha. apply mu_same; [cbn; by rewrite put_eq|by right]. Qed.
Lemma not_ready : at_ g f = Nowhere -> forall x, x ∈ ready s <-> x ∈ ready s /\ x <> f.
Proof. intros Ha x. split; [|tauto]. intros Hx. split; [done|]. intros ->. apply (i_ready_at c g I) in Hx. congruence. Qed.
Lemma local_step t' : plain (pc t) -> plain (pc t') -> at_ g f = Nowhere -> fiber_ok s g f t' -> (mu g f t' < mu g f t)%nat -> goes_down t' s.
Proof.
  intros Hp Hp' Ha Hok Hmu. apply quiet_step; auto using not_ready, unspot_ok. by rewrite unspot_mu.
Qed.
Lemma resume_step t' : plain (pc t) -> plain (pc t') -> at_ g f = InReady -> fiber_ok s unspot f t' -> (mu unspot f t' < mu g f t)%nat ->
  goes_down t' (set_ready (filter (fun x => x <> f) (ready s)) s).
Proof.
  intros Hp Hp' Ha Hok Hmu. apply quiet_step; auto. intros x. cbn. rewrite list_elem_of_filter. tauto.
Qed.
Lemma op_bound o : o ∈ ops t -> (evs_len o + 20 <= B)%nat.
Proof. destruct Hfits as [_ H]. intros Ho. by apply (H f t). Qed.

Ltac open_here H Ep Eops := pose proof here_ok as H; unfold fiber_ok in H; rewrite Ep, Eops in H.
Ltac measured Ep Eops := unfold SyncThms.mu; rewrite Ep, ?Eops; cbn [pc ops]; rewrite ?Eops; cbn [rank sum_list_with].

Lemma idle_step o r : pc t = Idle -> ops t = o :: r ->
  goes_down (match enter (table s) o with Some p => mkTask p (ops t) | None => mkTask Idle r end) s.
Proof.
  intros Ep Eops. open_here H Ep Eops. destruct H as (Ha & Hm).
  assert (goes_down (mkTask Idle r) s) as Hret.
  { apply local_step; [by rewrite Ep|done|done|unfold fiber_ok; cbn; by destruct r|]. measured Ep Eops. unfold weight. destruct r; cbn; lia. }
  assert (lockable o -> goes_down (mkTask Take (ops t)) s) as Htake.
  { intros Hl. apply local_step; [by rewrite Ep|done|done|unfold fiber_ok; cbn; by rewrite Eops|]. measured Ep Eops. unfold weight. lia. }
  destruct o as [[e|]|[e|]|[e|]|evs need]; cbn [enter]; try done; try by apply Htake.
  - destruct (rt_ev_done _ _); [done|by apply Htake].
  - destruct ((length evs =? 0)%nat || (need <=? 0)) eqn:E; [done|]. apply orb_false_iff in E as [E1%Nat.eqb_neq E2%Z.leb_gt].
    apply local_step; [by rewrite Ep|done|done| |measured Ep Eops; unfold weight; lia].
    unfold fiber_ok. cbn. rewrite Eops. split; [done|]. split; [done|]. split; [split; [by destruct evs|lia]|]. eexists _, _. split; [done|lia].
Qed.
Lemma look_step i n o r : pc t = Look i n -> ops t = o :: r -> exists evs need, o = WaitN evs need /\
  goes_down (match count_one (table s) evs need i n Look Take with Some p => mkTask p (ops t) | None => mkTask Idle r end) s.
Proof.
  intros Ep Eops. open_here H Ep Eops. destruct H as (Ha & Hm & Hl & evs & need & -> & Hi). exists evs, need. split; [done|].
  assert (goes_down (mkTask Idle r) s) as Hret.
  { apply local_step; [by rewrite Ep|done|done|unfold fiber_ok; cbn; by destruct r|]. measured Ep Eops. destruct r; cbn; lia. }
  assert (forall m, (i < length evs)%nat -> goes_down (mkTask (Look (S i) m) (ops t)) s) as Hgo.
  { intros m Hlt. apply local_step; [by rewrite Ep|done|done| |measured Ep Eops; cbn; lia].
    unfold fiber_ok. cbn. rewrite Eops. repeat split; try done; try apply Hl. eexists _, _. split; [done|lia]. }
  unfold count_one. destruct (evs !! i) as [e|] eqn:Ee.
  - apply lookup_lt_Some in Ee. destruct (rt_ev_done _ _); [|by apply Hgo]. destruct (_ <=? _); [done|by apply Hgo].
  - apply local_step; [by rewrite Ep|done|done|unfold fiber_ok; cbn; by rewrite Eops|measured Ep Eops; cbn; lia].
Qed.
Lemma scan_step i n o r : pc t = Scan i n -> ops t = o :: r -> exists evs need, o = WaitN evs need /\
  goes_down (mkTask (default Finish (count_one (table s) evs need i n Scan Enlist)) (ops t)) s.
Proof.
  intros Ep Eops. open_here H Ep Eops. destruct H as (Ha & Hm & Hl & evs & need & -> & Hi & Hn & Hlt). exists evs, need. split; [done|].
  unfold count_one. destruct (evs !! i) as [e|] eqn:Ee.
  - pose proof (done_in_snoc (table s) evs i e Ee) as Hsn. apply lookup_lt_Some in Ee.
    assert (forall m, m = done_in (table s) (take (S i) evs) -> m < needed evs need -> goes_down (mkTask (Scan (S i) m) (ops t)) s) as Hgo.
    { intros m Em Hml. apply local_step; [by rewrite Ep|done|done| |measured Ep Eops; cbn; lia].
      unfold fiber_ok. cbn -[take needed]. rewrite Eops. repeat split; try done; try apply Hl. eexists _, _. split; [done|]. split; [lia|done]. }
    destruct (rt_ev_done _ _); [|apply Hgo; lia]. destruct (Z.leb_spec (needed evs need) (n + 1)); [|apply Hgo; lia].
    cbn [default id from_option]. apply local_step; [by rewrite Ep|done|done|unfold fiber_ok; cbn; by rewrite Eops|measured Ep Eops; lia].
  - cbn [default id from_option]. apply local_step; [by rewrite Ep|done|done| |measured Ep Eops; lia].
    unfold fiber_ok. cbn -[met]. rewrite Eops. repeat split; try done; try apply Hl. apply lookup_ge_None in Ee. rewrite take_ge in Hn by done.
    rewrite met_waitN by apply Hl. apply Z.leb_gt. lia.
Qed.
Lemma body_step o r p s' : pc t = Body -> ops t = o :: r -> body o s = Some (p, s') -> goes_down (mkTask p (ops t)) s'.
Proof.
  intros Ep Eops Eb. open_here H Ep Eops. destruct H as (Ha & Hm & Hl). destruct o as [[e|]|[e|]|[e|]|evs need]; cbn [body] in Eb; try discriminate Eb; injection Eb as <- <-.
  - apply quiet_step; [by rewrite Ep|done|by left|done|done|done|done|exact (not_ready Ha)|by left|right; split; [done|intros o; apply met_clear]| |].
    + apply unspot_ok; [done|done|]. unfold fiber_ok. cbn. by rewrite Eops.
    + rewrite unspot_mu by done. measured Ep Eops. cbn. lia.
  - by eapply walk_start.
  - destruct (rt_ev_done (table s) (Some e)) eqn:Ed; (apply local_step; [by rewrite Ep|done|done|unfold fiber_ok; cbn; by rewrite Eops|measured Ep Eops; cbn; lia]).
  - apply local_step; [by rewrite Ep|done|done| |measured Ep Eops; cbn; lia]. unfold fiber_ok. cbn -[needed]. rewrite Eops. repeat split; try done; try apply Hl.
    eexists _, _. split; [done|]. split; [lia|]. split; [done|]. by apply needed_pos; apply Hl.
Qed.
Lemma take_step o r : pc t = Take -> ops t = o :: r -> let '(got, s') := rt_lock_acquire f s in goes_down (mkTask (if got then Body else Queued) (ops t)) s'.
Proof.
  intros Ep Eops. pose proof Ep as Ep'. open_here H Ep Eops. destruct H as (Ha & Hm & Hl). unfold rt_lock_acquire. destruct (lock_owner s) as [o'|] eqn:Eo.
  - destruct (Nat.eqb_spec o' f) as [->|Hne]; [congruence|]. apply block_step; [done|by exists o'|by rewrite Eops].
  - apply quiet_step; [by rewrite Ep'|done|by left|done|done|done|done|exact (not_ready Ha)|by right|by left| |].
    + apply unspot_ok; [done|done|]. unfold fiber_ok. cbn. by rewrite Eops.
    + rewrite unspot_mu by done. measured Ep' Eops. lia.
Qed.
Lemma park_step o r s' : pc t = Queued \/ pc t = Asleep -> ops t = o :: r -> rt_sched_park f s = Some s' ->
  goes_down (mkTask (match pc t with Queued => Body | _ => Take end) (ops t)) s'.
Proof.
  intros Ep Eops Es. unfold rt_sched_park in Es. destruct (decide (f ∈ ready s)) as [Hr|]; [|done]. injection Es as <-. apply (i_ready_at c g I) in Hr.
  pose proof (op_bound o ltac:(rewrite Eops; by left)) as Hb. pose proof here_ok as H. unfold fiber_ok in H. rewrite Eops in H. destruct Ep as [Ep|Ep]; rewrite Ep in *.
  - destruct H as (Hl & H). assert (lock_owner s = Some f) by intuition congruence. apply resume_step; [by rewrite Ep|done|done| |].
    + unfold fiber_ok. cbn. rewrite Eops, put_eq. done.
    + measured Ep Eops. lia.
  - destruct H as (H & Hm & Hw). apply resume_step; [by rewrite Ep|done|done| |].
    + unfold fiber_ok. cbn. rewrite Eops, put_eq. repeat split; try done. by destruct o.
    + measured Ep Eops. unfold charge. rewrite Hr. destruct o; cbn in *; try done; lia.
Qed.
End steps.

(** ** Every step goes down *)
Lemma rt_lock_release_once s : lock_depth s = 1 ->
  rt_lock_release s = match lock_waiters s with
                      | Some w => (Some w, set_lock (Some w) 1 (set_next w None (set_lock_waiters (wait_next s !! w) s)))
                      | None => (None, set_lock None 0 s)
                      end.
Proof. intros H. unfold rt_lock_release. by rewrite H. Qed.
Lemma run_down B N c g f t t' s' : inv c g -> fits B N c -> tasks c !! f = Some t -> run f t (mem c) = Some (t', s') -> goes_down B N c g f t' s'.
Proof.
  intros I Hfits Ht Hr. unfold run in Hr. pose proof (i_fib c g I f t Ht) as Hok. unfold fiber_ok in Hok. pose proof (i_owner c g I) as Ho.
  destruct (pc t) as [|i n| | | |i n|w k tl| | | | |w b] eqn:Ep; destruct (ops t) as [|o r] eqn:Eops; try done; try (destruct Hok; done).
  - pose proof (idle_step B N c g I Hfits f t Ht o r Ep Eops) as H. rewrite Eops in H. by destruct (enter _ _); injection Hr as <- <-.
  - destruct (look_step B N c g I Hfits f t Ht i n o r Ep Eops) as (evs & need & -> & H). rewrite Eops in H. by destruct (count_one _ _ _ _ _ _ _); injection Hr as <- <-.
  - pose proof (take_step B N c g I Hfits f t Ht o r Ep Eops) as H. rewrite Eops in H. by destruct (rt_lock_acquire _ _); injection Hr as <- <-.
  - destruct (rt_sched_park f (mem c)) as [s1|] eqn:Es; [|done]. injection Hr as <- <-.
    pose proof (park_step B N c g I Hfits f t Ht o r s1 (or_introl Ep) Eops Es) as H. by rewrite Ep, Eops in H.
  - destruct (body o (mem c)) as [[p s1]|] eqn:Eb; [|done]. injection Hr as <- <-.
    pose proof (body_step B N c g I Hfits f t Ht o r p s1 Ep Eops Eb) as H. by rewrite Eops in H.
  - destruct (scan_step B N c g I Hfits f t Ht i n o r Ep Eops) as (evs & need & -> & H). rewrite Eops in H. by injection Hr as <- <-.
  - destruct Hok as (Ha & Hm & (e & ->) & Hs & Hk & Htl). destruct w as [w|].
    + destruct (RQ g) as [|w' R] eqn:ER; [done|]. destruct Hs as [E _]. injection E as <-. unfold signal_one in Hr. cbn [wait_key set_next] in Hr.
      destruct (wait_key (mem c) !! w) as [x|] eqn:Ek.
      * destruct (Nat.eqb_spec x e) as [->|Hne].
        -- injection Hr as <- <-. pose proof (walk_wake B N c g I Hfits f t Ht e r w R k tl Ep Eops ER ltac:(by right)) as H. by rewrite Eops in H.
        -- pose proof (walk_keep B N c g I Hfits f t Ht e r w R k tl x Ep Eops ER Ek Hne) as H. rewrite Eops in H. by destruct tl; injection Hr as <- <-.
      * injection Hr as <- <-. pose proof (walk_wake B N c g I Hfits f t Ht e r w R k tl Ep Eops ER ltac:(by left)) as H. by rewrite Eops in H.
    + injection Hr as <- <-. pose proof (walk_end B N c g I Hfits f t Ht k tl Ep) as H. by rewrite Eops in H.
  - injection Hr as <- <-. pose proof (enlist_step B N c g I Hfits f t Ht o r Ep Eops) as H. by rewrite Eops in H.
  - destruct Hok as (Ha & Hm & Hw). rewrite Hm in Ho. rewrite (rt_lock_release_once _ (proj1 Ho)) in Hr.
    assert (forall p, leaving g f t (mkTask p (o :: r)) true) as Hl by (intros p; repeat split; eauto).
    destruct (lock_waiters (mem c)) as [w|] eqn:Ew; injection Hr as <- <-; [by eapply release_handed|by eapply release_free].
  - destruct (rt_sched_park f (mem c)) as [s1|] eqn:Es; [|done]. injection Hr as <- <-.
    pose proof (park_step B N c g I Hfits f t Ht o r s1 (or_intror Ep) Eops Es) as H. by rewrite Ep, Eops in H.
  - destruct Hok as (Ha & Hm). rewrite Hm in Ho. rewrite (rt_lock_release_once _ (proj1 Ho)) in Hr.
    assert (forall p, leaving g f t (mkTask p r) false) as Hl by (intros p; repeat split; eauto).
    destruct (lock_waiters (mem c)) as [w|] eqn:Ew; injection Hr as <- <-; [by eapply release_handed|by eapply release_free].
  - injection Hr as <- <-. pose proof (wake_step B N c g I Hfits f t Ht w b Ep) as H. by rewrite Eops in H.
  - injection Hr as <- <-. pose proof (wake_step B N c g I Hfits f t Ht w b Ep) as H. by rewrite Eops in H.
Qed.

Lemma run_ops f t s t' s' : run f t s = Some (t', s') -> ops t' = ops t \/ exists o, ops t = o :: ops t'.
Proof.
  unfold run. destruct (pc t) as [|i n| | | |i n|[w|] k tl| | | | |w b]; destruct (ops t) as [|o r]; try done; intros H; simplify_option_eq;
    repeat (case_match; simplify_eq); cbn; eauto.
Qed.
Lemma move_fits B N f c c' : fits B N c -> move f c = Some c' -> fits B N c'.
Proof.
  intros [Hn Hf] H. unfold move in H. destruct (tasks c !! f) as [t|] eqn:Ht; [|done]. destruct (run f t (mem c)) as [[t' s']|] eqn:Hr; [|done]. injection H as <-.
  split; [cbn; by rewrite length_insert|]. intros h u o [(-> & ->)|(_ & Hu)]%insert_inv Ho; [|by eapply Hf].
  apply (Hf f t o Ht). destruct (run_ops _ _ _ _ _ Hr) as [E|[o' E]]; rewrite E in *; [done|by right].
Qed.
Lemma move_down B N f c g c' : inv c g -> fits B N c -> move f c = Some c' -> exists g', inv c' g' /\ (total B N c' g' < total B N c g)%nat.
Proof.
  intros I Hf H. unfold move in H. destruct (tasks c !! f) as [t|] eqn:Ht; [|done]. destruct (run f t (mem c)) as [[t' s']|] eqn:Hr; [|done]. injection H as <-.
  exact (run_down B N c g f t t' s' I Hf Ht Hr).
Qed.

(** ** The start, and where no fiber can move *)
Lemma start_task ps T f t : tasks (start ps T) !! f = Some t -> exists l, ps !! f = Some l /\ t = mkTask Idle l.
Proof. cbn. rewrite list_lookup_fmap. destruct (ps !! f) as [l|]; [|done]. intros [= <-]. eauto. Qed.
Lemma start_good ps T : inv (start ps T) (mkGhost (fun _ => Nowhere) [] [] []).
Proof.
  assert (forall x, x ∈ @nil nat <-> Nowhere = InLock) as Hn1 by (intros x; split; intros H; [by apply elem_of_nil in H|done]).
  constructor; cbn [KQ RQ LQ app at_ start mem ready].
  - intros f t Ht. destruct (start_task _ _ _ _ Ht) as (l & _ & ->). unfold fiber_ok. cbn. by destruct l.
  - done.
  - done.
  - constructor.
  - exact Hn1.
  - done.
  - constructor.
  - intros x. rewrite Hn1. done.
  - intros x. rewrite Hn1. done.
  - done.
  - done.
  - done.
  - intros f h t u w b v d Ht _ Ep. destruct (start_task _ _ _ _ Ht) as (l & _ & ->). done.
Qed.
Lemma start_fits ps T : exists B, fits B (length ps) (start ps T).
Proof.
  exists (20 + max_list (map (fun l => max_list (map evs_len l)) ps))%nat. split; [cbn; by rewrite length_map|].
  intros f t o Ht Ho. destruct (start_task _ _ _ _ Ht) as (l & Hl & ->). cbn in Ho.
  pose proof (max_list_elem_of_le (evs_len o) (map evs_len l) ltac:(by apply list_elem_of_fmap_2)).
  pose proof (max_list_elem_of_le (max_list (map evs_len l)) (map (fun l => max_list (map evs_len l)) ps)) as H2.
  specialize (H2 ltac:(apply list_elem_of_fmap; exists l; split; [done|by eapply list_elem_of_lookup_2])). lia.
Qed.
Lemma keep_good B N c c' : rtc step c c' -> (exists g, inv c g /\ fits B N c) -> exists g, inv c' g /\ fits B N c'.
Proof.
  induction 1 as [|c1 c2 c3 [f Hs] _ IH]; [done|]. intros (g & I & Hf). apply IH.
  destruct (move_down _ _ _ _ _ _ I Hf Hs) as (g' & I' & _). eauto using move_fits.
Qed.
Lemma reach_good ps T c : rtc step (start ps T) c -> exists g B, inv c g /\ fits B (length ps) c.
Proof.
  intros H. destruct (start_fits ps T) as [B HB]. destruct (keep_good B (length ps) _ _ H) as (g & ? & ?); eauto using start_good.
Qed.
Lemma good_sn B N c g : inv c g -> fits B N c -> sn step c.
Proof.
  remember (total B N c g) as n eqn:En. revert c g En. induction n as [n IH] using lt_wf_ind. intros c g -> I Hf. constructor. intros c' [f Hs].
  destruct (move_down _ _ _ _ _ _ I Hf Hs) as (g' & I' & Hlt). by eapply IH; eauto using move_fits.
Qed.

(** Where a fiber cannot move. *)
Lemma run_none s g f t : fiber_ok s g f t -> run f t s = None -> (pc t = Idle /\ ops t = []) \/ ((pc t = Queued \/ pc t = Asleep) /\ f ∉ ready s).
Proof.
  unfold fiber_ok, run. destruct (pc t) as [|i n| | | |i n|[w|] k tl| | | | |w b]; destruct (ops t) as [|o r]; try (by intros [? _]); intros Hok H; try done.
  - by left.
  - by destruct (enter _ _).
  - destruct Hok as (_ & _ & _ & evs & need & -> & _). by destruct (count_one _ _ _ _ _ _ _).
  - by destruct (rt_lock_acquire _ _).
  - right. unfold rt_sched_park in H. destruct (decide _); [done|]. auto.
  - destruct Hok as (_ & _ & Hl). destruct o as [[|]|[|]|[|]|]; done.
  - by destruct Hok as (_ & _ & _ & evs & need & -> & _).
  - destruct Hok as (_ & _ & (e & ->) & _). by destruct (signal_one _ _ _ _ _) as [[? ?] ?].
  - by destruct (rt_lock_release _).
  - right. unfold rt_sched_park in H. destruct (decide _); [done|]. auto.
  - by destruct (rt_lock_release _).
Qed.
Definition stuck (c : system) : Prop := forall f, move f c = None.
Lemma stuck_nf c : nf step c <-> stuck c.
Proof.
  split.
  - intros H f. destruct (move f c) as [c'|] eqn:E; [|done]. exfalso. apply H. exists c', f. exact E.
  - intros H [c' [f E]]. by rewrite H in E.
Qed.
Lemma stuck_fiber c g : inv c g -> stuck c -> lock_owner (mem c) = None /\
  forall f t, tasks c !! f = Some t -> (pc t = Idle /\ ops t = []) \/ (pc t = Asleep /\ exists o r, ops t = o :: r /\ waits o /\ met (table (mem c)) o = false).
Proof.
  intros I Hst. assert (forall f t, tasks c !! f = Some t -> (pc t = Idle /\ ops t = []) \/ ((pc t = Queued \/ pc t = Asleep) /\ f ∉ ready (mem c))) as Hn.
  { intros f t Ht. apply (run_none (mem c) g); [exact (i_fib c g I f t Ht)|]. specialize (Hst f). unfold move in Hst. rewrite Ht in Hst.
    by destruct (run f t (mem c)) as [[? ?]|]. }
  assert (lock_owner (mem c) = None) as Hfree.
  { pose proof (i_owner c g I) as Ho. destruct (lock_owner (mem c)) as [o|] eqn:Eo; [|done]. exfalso. destruct Ho as [_ [u Hu]].
    pose proof (i_fib c g I o u Hu) as Hok. unfold fiber_ok in Hok. rewrite Eo in Hok.
    destruct (Hn o u Hu) as [[E1 E2]|[[E1|E1] E2]]; rewrite E1 in Hok; [rewrite E2 in Hok; tauto| |destruct (ops u); intuition congruence].
    destruct (ops u) as [|op r]; [intuition congruence|]. destruct Hok as (_ & [[_ H]|[[H|H] _]]); [done| |by apply E2, (i_ready_at c g I)].
    destruct (i_handed c g I o H) as (h & v & b & Hv & Ev). destruct (Hn h v Hv) as [[E _]|[[E|E] _]]; congruence. }
  split; [done|]. intros f t Ht. destruct (Hn f t Ht) as [H|[[E|E] Hr]]; [by left| |]; pose proof (i_fib c g I f t Ht) as Hok; unfold fiber_ok in Hok; rewrite E, Hfree in Hok.
  - exfalso. destruct (ops t) as [|o r]; [by destruct Hok|]. destruct Hok as (_ & [[H _]|[_ H]]); [|done].
    pose proof (i_owner c g I) as Ho. rewrite Hfree in Ho. apply (i_lock_at c g I) in H. rewrite Ho in H. by apply elem_of_nil in H.
  - right. split; [done|]. destruct (ops t) as [|o r] eqn:Eops; [by destruct Hok|]. destruct Hok as ([H|H] & _); [|by apply (i_ready_at c g I) in H].
    destruct (waiter_unmet c g I) with (x := f) as (u & o' & r' & H1 & H2 & H3 & _ & H5); [|done|].
    + intros h v Hv. destruct (Hn h v Hv) as [[Ev _]|[[Ev|Ev] _]]; by rewrite Ev.
    + assert (u = t) as -> by congruence. exists o', r'. by rewrite <- Eops.
Qed.

(** ** The events as a language of waits *)
(** What the operations mean, whatever the lock: each fiber does its operations in order, a
    wait when its requirement is met.  No event is reset. *)
Definition is_reset (o : op) : bool := match o with Reset _ => true | _ => false end.
Definition effect (o : op) (T : gmap nat Z) : gmap nat Z := match o with Complete (Some e) => <[e := 1]> T | _ => T end.
Definition doing : Type := list (list op) * gmap nat Z.
Definition does (a b : doing) : Prop :=
  exists f o r, a.1 !! f = Some (o :: r) /\ is_reset o = false /\ met a.2 o = true /\ b = (<[f := r]> a.1, effect o a.2).

Lemma effect_mono o T x : rt_ev_done T x = true -> rt_ev_done (effect o T) x = true.
Proof.
  destruct o as [|[e|]| |]; cbn; try done. destruct x as [x|]; [|done]. unfold rt_ev_done. destruct (decide (e = x)) as [->|Hne].
  - by rewrite lookup_insert_eq.
  - by rewrite lookup_insert_ne.
Qed.
Lemma effect_comm o o' T : effect o (effect o' T) = effect o' (effect o T).
Proof.
  destruct o as [|[e|]| |], o' as [|[e'|]| |]; try done. cbn. destruct (decide (e = e')) as [->|Hne]; [done|]. by rewrite insert_insert_ne.
Qed.
Lemma does_sn a : sn does a.
Proof.
  remember (sum_list_with length a.1) as n eqn:En. revert a En. induction n as [n IH] using lt_wf_ind. intros a ->. constructor.
  intros b (f & o & r & Hf & _ & _ & ->). eapply IH; [|reflexivity]. cbn [fst]. clear IH. destruct a as [P T]. cbn [fst] in *. revert f Hf.
  induction P as [|l P IH]; intros f Hf; [done|]. destruct f as [|f].
  - injection Hf as ->. change (<[0%nat := r]> ((o :: r) :: P)) with (r :: P). cbn. lia.
  - specialize (IH f Hf). change (<[S f := r]> (l :: P)) with (l :: <[f := r]> P). cbn. lia.
Qed.
Lemma does_confluent : confluent does.
Proof.
  apply locally_confluent_confluent; [exact does_sn|]. intros a b b' (f & o & r & Hf & Hr & Hm & ->) (f' & o' & r' & Hf' & Hr' & Hm' & ->).
  destruct (decide (f = f')) as [<-|Hne].
  { rewrite Hf in Hf'. injection Hf' as <- <-. eexists. split; reflexivity. }
  exists (<[f := r]> (<[f' := r']> a.1), effect o (effect o' a.2)). split; apply rtc_once.
  - exists f', o', r'. cbn. rewrite list_lookup_insert_ne by done. repeat split; [done..| |].
    + eapply met_mono; [|exact Hm']. intros x. apply effect_mono.
    + by rewrite effect_comm, list_insert_insert_ne by done.
  - exists f, o, r. cbn. rewrite list_lookup_insert_ne by done. repeat split; [done..|]. eapply met_mono; [|exact Hm]. intros x. apply effect_mono.
Qed.

(** The operations a fiber has still to do: one counts as done from its effect on. *)
Definition left_to_do (t : task) : list op := match pc t with Walk _ _ _ | Finish => tail (ops t) | _ => ops t end.
Definition doing_of (c : system) : doing := (map left_to_do (tasks c), table (mem c)).
(** Without resets a count taken before the lock stays a lower bound. *)
Definition counted (T : gmap nat Z) (t : task) : Prop :=
  (forall o, o ∈ ops t -> is_reset o = false) /\
  forall i n, pc t = Look i n -> match ops t with WaitN evs need :: _ => n <= done_in T (take i evs) /\ n < needed evs need | _ => False end.
Lemma counted_mono T T' t : (forall x, rt_ev_done T x = true -> rt_ev_done T' x = true) -> counted T t -> counted T' t.
Proof.
  intros H [H1 H2]. split; [done|]. intros i n E. specialize (H2 i n E). destruct (ops t) as [|[] ?]; try done.
  pose proof (done_in_mono T T' (take i evs) H). lia.
Qed.
Lemma counted_not_look T t : (forall o, o ∈ ops t -> is_reset o = false) -> (forall i n, pc t <> Look i n) -> counted T t.
Proof. intros H1 H2. split; [done|]. intros i n E. by destruct (H2 i n). Qed.

(** A step is nothing, or one operation of its fiber. *)
Definition acts (t t' : task) (s s' : shared) : Prop :=
  (left_to_do t' = left_to_do t /\ table s' = table s) \/
  (exists o, left_to_do t = o :: left_to_do t' /\ is_reset o = false /\ met (table s) o = true /\ table s' = effect o (table s)).
Lemma run_acts s g f t t' s' : fiber_ok s g f t -> counted (table s) t -> run f t s = Some (t', s') -> acts t t' s s' /\ counted (table s') t'.
Proof.
  unfold fiber_ok, run. intros Hok [Hnr Hc] Hr.
  assert (forall p l, (forall i n, p <> Look i n) -> l = ops t \/ (exists o, ops t = o :: l) -> forall T, counted T (mkTask p l)) as Hcnt.
  { intros p l Hp Hl T. apply counted_not_look; [|exact Hp]. cbn. intros o Ho. apply Hnr. destruct Hl as [-> |[o' ->]]; [done|by right]. }
  assert (forall l, left_to_do t = left_to_do (mkTask Idle l) -> acts t (mkTask Idle l) s s) as Hsame by (intros l E; left; by split).
  destruct (pc t) as [|i n| | | |i n|w k tl| | | | |w b] eqn:Ep; destruct (ops t) as [|o r] eqn:Eops; try done; try (destruct Hok; done);
    assert (forall p l, left_to_do (mkTask p l) = left_to_do t -> forall s1, table s1 = table s -> acts t (mkTask p l) s s1) as Hkeep by (intros p l E s1 E1; by left);
    unfold left_to_do in Hkeep; rewrite Ep, ?Eops in Hkeep; cbn [pc ops tail] in Hkeep.
  - (* Idle *)
    specialize (Hnr o ltac:(by left)). destruct (enter (table s) o) as [p|] eqn:Ee; injection Hr as <- <-.
    + destruct o as [[e|]|[e|]|[e|]|evs need]; cbn in Ee; simplify_option_eq; try (split; [by apply Hkeep|apply Hcnt; [done|by left]]).
      * destruct (rt_ev_done _ _); [done|]. injection Ee as <-. split; [by apply Hkeep|apply Hcnt; [done|by left]].
      * destruct (_ || _) eqn:E; [done|]. injection Ee as <-. split; [by apply Hkeep|]. apply orb_false_iff in E as [E1%Nat.eqb_neq E2%Z.leb_gt].
        split; [cbn; intros o Ho; destruct (Hcnt Take (WaitN evs need :: r) ltac:(done) ltac:(by left) (table s)) as [H _]; by apply H|].
        intros i n [= <- <-]. cbn [ops]. rewrite firstn_O. cbn [done_in]. split; [lia|]. apply needed_pos; [by destruct evs|lia].
    + split; [|apply Hcnt; [done|right; by exists o]]. right. exists o. unfold left_to_do. rewrite Ep, Eops. repeat split; [done| |by destruct o as [|[]| |]].
      destruct o as [[e|]|[e|]|[e|]|evs need]; cbn in Ee; try done.
      * by destruct (rt_ev_done (table s) (Some e)) eqn:E; cbn.
      * cbn. by destruct ((length evs =? 0)%nat || (need <=? 0)).
  - (* Look *)
    destruct Hok as (Ha & Hm & Hl & evs & need & -> & Hi). specialize (Hc i n eq_refl). cbn in Hc. destruct Hc as [Hn Hlt]. specialize (Hnr _ ltac:(by left)).
    assert (forall m, m <= done_in (table s) (take (S i) evs) -> m < needed evs need -> acts t (mkTask (Look (S i) m) (WaitN evs need :: r)) s s /\ counted (table s) (mkTask (Look (S i) m) (WaitN evs need :: r))) as Hgo.
    { intros m H1 H2. split; [by apply Hkeep|]. split; [destruct (Hcnt Take (WaitN evs need :: r) ltac:(done) ltac:(by left) (table s)) as [H _]; exact H|].
      intros j k [= <- <-]. by split. }
    unfold count_one in Hr. destruct (evs !! i) as [e|] eqn:Ee.
    + pose proof (done_in_snoc (table s) evs i e Ee) as Hsn. destruct (rt_ev_done (table s) e); [|injection Hr as <- <-; apply Hgo; lia].
      destruct (Z.leb_spec (needed evs need) (n + 1)); injection Hr as <- <-; [|apply Hgo; lia].
      split; [|apply Hcnt; [done|right; eauto]]. right. exists (WaitN evs need). unfold left_to_do. rewrite Ep, Eops. repeat split; try done.
      rewrite met_waitN by apply Hl. apply Z.leb_le. pose proof (done_in_take (table s) evs (S i)). lia.
    + injection Hr as <- <-. split; [by apply Hkeep|apply Hcnt; [done|by left]].
  - (* Take *)
    assert (table (snd (rt_lock_acquire f s)) = table s) as E by (unfold rt_lock_acquire; by repeat case_match).
    destruct (rt_lock_acquire f s) as [got s1]. injection Hr as <- <-. cbn in E. split; [by destruct got; apply Hkeep|rewrite E; destruct got; (apply Hcnt; [done|by left])].
  - (* Queued *)
    unfold rt_sched_park in Hr. destruct (decide _); [|done]. injection Hr as <- <-. split; [by apply Hkeep|apply Hcnt; [done|by left]].
  - (* Body *)
    destruct Hok as (Ha & Hm & Hl). destruct o as [[e|]|[e|]|[e|]|evs need]; cbn in Hr; try done; simplify_eq.
    + specialize (Hnr _ ltac:(by left)). done.
    + split; [|apply Hcnt; [done|by left]]. right. exists (Complete (Some e)). unfold left_to_do. rewrite Ep, Eops. done.
    + split; [|destruct (rt_ev_done _ _); (apply Hcnt; [done|by left])]. destruct (rt_ev_done (table s') (Some e)) eqn:E; [|by apply Hkeep].
      right. exists (Wait (Some e)). unfold left_to_do. rewrite Ep, Eops. cbn. done.
    + split; [by apply Hkeep|apply Hcnt; [done|by left]].
  - (* Scan *)
    destruct Hok as (Ha & Hm & Hl & evs & need & -> & Hi & Hn & Hlt). injection Hr as <- <-. unfold count_one. destruct (evs !! i) as [e|] eqn:Ee.
    + pose proof (done_in_snoc (table s) evs i e Ee) as Hsn. destruct (rt_ev_done (table s) e); cbn [default id from_option]; [|split; [by apply Hkeep|apply Hcnt; [done|by left]]].
      destruct (Z.leb_spec (needed evs need) (n + 1)); cbn [default id from_option]; [|split; [by apply Hkeep|apply Hcnt; [done|by left]]].
      split; [|apply Hcnt; [done|by left]]. right. exists (WaitN evs need). unfold left_to_do. rewrite Ep, Eops. repeat split; try done.
      rewrite met_waitN by apply Hl. apply Z.leb_le. pose proof (done_in_take (table s) evs (S i)). lia.
    + cbn. split; [by apply Hkeep|apply Hcnt; [done|by left]].
  - (* Walk *)
    destruct Hok as (_ & _ & (e & ->) & _). destruct w as [w|].
    + assert (table (snd (signal_one e w k tl s)) = table s) as E by (unfold signal_one; by repeat case_match).
      destruct (signal_one e w k tl s) as [[k' tl'] s1]. injection Hr as <- <-. cbn in E. split; [by apply Hkeep|apply Hcnt; [done|by left]].
    + injection Hr as <- <-. split; [by apply Hkeep|apply Hcnt; [done|by left]].
  - injection Hr as <- <-. split; [by apply Hkeep|apply Hcnt; [done|by left]].
  - assert (table (snd (rt_lock_release s)) = table s) as E by (unfold rt_lock_release; by repeat case_match).
    destruct (rt_lock_release s) as [[w|] s1]; injection Hr as <- <-; (split; [by apply Hkeep|apply Hcnt; [done|by left]]).
  - unfold rt_sched_park in Hr. destruct (decide _); [|done]. injection Hr as <- <-. split; [by apply Hkeep|apply Hcnt; [done|by left]].
  - assert (table (snd (rt_lock_release s)) = table s) as E by (unfold rt_lock_release; by repeat case_match).
    destruct (rt_lock_release s) as [[w|] s1]; injection Hr as <- <-; (split; [by apply Hkeep|apply Hcnt; [done|right; eauto]]).
  - injection Hr as <- <-. destruct b; (split; [by apply Hkeep|apply Hcnt; [done|by left]]).
  - injection Hr as <- <-. destruct b; (split; [by apply Hkeep|apply Hcnt; [done|by left]]).
Qed.

Definition all_counted (c : system) : Prop := forall f t, tasks c !! f = Some t -> counted (table (mem c)) t.
Lemma start_counted ps T : (forall f l o, ps !! f = Some l -> o ∈ l -> is_reset o = false) -> all_counted (start ps T).
Proof. intros H f t Ht. destruct (start_task _ _ _ _ Ht) as (l & Hl & ->). apply counted_not_look; [cbn; eauto|done]. Qed.
Lemma move_does c g f c' : inv c g -> all_counted c -> move f c = Some c' -> (doing_of c' = doing_of c \/ does (doing_of c) (doing_of c')) /\ all_counted c'.
Proof.
  intros I Hc H. unfold move in H. destruct (tasks c !! f) as [t|] eqn:Ht; [|done]. destruct (run f t (mem c)) as [[t' s']|] eqn:Hr; [|done]. injection H as <-.
  destruct (run_acts _ g f t t' s' (i_fib c g I f t Ht) (Hc f t Ht) Hr) as [Ha Hc'].
  assert (map left_to_do (tasks c) !! f = Some (left_to_do t)) as Hf by (rewrite list_lookup_fmap, Ht; done).
  assert (forall x, rt_ev_done (table (mem c)) x = true -> rt_ev_done (table s') x = true) as Hm.
  { intros x Hx. destruct Ha as [[_ ->]|(o & _ & _ & _ & ->)]; [done|by apply effect_mono]. }
  split.
  - unfold doing_of. cbn [tasks mem]. assert (map left_to_do (<[f := t']> (tasks c)) = <[f := left_to_do t']> (map left_to_do (tasks c))) as -> by apply list_fmap_insert.
    destruct Ha as [[E ->]|(o & E & Ho & Hmet & ->)].
    + left. rewrite E, list_insert_id by done. done.
    + right. exists f, o, (left_to_do t'). cbn. rewrite Hf, E. done.
  - intros h u [(-> & ->)|(_ & Hu)]%insert_inv; [done|]. cbn. eapply counted_mono; [exact Hm|by eapply Hc].
Qed.
Lemma reach_does c c' : rtc step c c' -> (exists g B N, inv c g /\ fits B N c) -> all_counted c -> rtc does (doing_of c) (doing_of c').
Proof.
  induction 1 as [|c1 c2 c3 [f Hs] _ IH]; [done|]. intros (g & B & N & I & Hf) Hc. destruct (move_does _ _ _ _ I Hc Hs) as [Hd Hc'].
  destruct (move_down _ _ _ _ _ _ I Hf Hs) as (g' & I' & _). specialize (IH ltac:(eauto 10 using move_fits) Hc').
  destruct Hd as [<- |Hd]; [exact IH|by eapply rtc_l].
Qed.
Lemma stuck_done c g : inv c g -> stuck c -> nf does (doing_of c) /\ doing_of c = (map ops (tasks c), table (mem c)).
Proof.
  intros I Hst. destruct (stuck_fiber c g I Hst) as [_ H]. assert (doing_of c = (map ops (tasks c), table (mem c))) as E.
  { unfold doing_of. f_equal. apply map_ext_in. intros t Hin. apply list_elem_of_In, list_elem_of_lookup in Hin as [f Hf]. unfold left_to_do. destruct (H f t Hf) as [[-> _]|[-> _]]; done. }
  split; [|done]. rewrite E. intros (b & f & o & r & Hf & _ & Hm & _). cbn in Hf, Hm. rewrite list_lookup_fmap in Hf. destruct (tasks c !! f) as [t|] eqn:Ht; [|done].
  injection Hf as Eo. destruct (H f t Ht) as [[_ E']|[_ (o' & r' & E' & _ & Hm')]]; congruence.
Qed.

(** ** Properties *)
(** C26: no event is waited for in vain, and no run goes on for ever.  Whatever the operations
    of the fibers, resets included, and however their steps interleave: at most one fiber is
    behind the lock; every run ends; and where no fiber can move, the lock is
    free with nobody waiting for it, and each fiber has done all its operations or
    sleeps on the condition in a wait whose requirement is not met at that moment, so no wakeup was
    lost. *)
Theorem events_quiesce (ps : list (list op)) (T : gmap nat Z) :
  sn step (start ps T) /\
  forall c, rtc step (start ps T) c ->
    (forall f h t u, tasks c !! f = Some t -> tasks c !! h = Some u -> holds (pc t) = true -> holds (pc u) = true -> f = h) /\
    (nf step c -> lock_owner (mem c) = None /\ lock_waiters (mem c) = None /\
       forall f t, tasks c !! f = Some t -> (pc t = Idle /\ ops t = []) \/ (pc t = Asleep /\ exists o r, ops t = o :: r /\ waits o /\ met (table (mem c)) o = false)).
Proof.
  split.
  - destruct (start_fits ps T) as [B HB]. exact (good_sn B _ _ _ (start_good ps T) HB).
  - intros c Hr. destruct (reach_good ps T c Hr) as (g & B & I & _). split.
    + intros f h t u Ht Hu Hf Hh. pose proof (holds_owner c g I f t Ht Hf). pose proof (holds_owner c g I h u Hu Hh). congruence.
    + intros Hn%stuck_nf. destruct (stuck_fiber c g I Hn) as [Ho H]. split; [done|]. split; [|done].
      pose proof (i_owner c g I) as Hl. rewrite Ho in Hl. pose proof (i_lock c g I) as Hs. by rewrite Hl in Hs.
Qed.

(** C27: without resets all runs end alike.  The events then refine the language of waits, in which a fiber
    does its operations in order and a wait when its requirement is met: what was done at
    any moment of any run was done by that language, where no fiber can move the
    language cannot either, and two such ends agree on the event words and on the operations that each
    fiber has left, whatever the schedules. *)
Theorem events_deterministic (ps : list (list op)) (T : gmap nat Z) :
  (forall f l o, ps !! f = Some l -> o ∈ l -> is_reset o = false) ->
  (forall c, rtc step (start ps T) c -> rtc does (ps, T) (doing_of c)) /\
  (forall c, rtc step (start ps T) c -> nf step c -> rtc does (ps, T) (map ops (tasks c), table (mem c)) /\ nf does (map ops (tasks c), table (mem c))) /\
  (forall c c', rtc step (start ps T) c -> nf step c -> rtc step (start ps T) c' -> nf step c' ->
     map ops (tasks c) = map ops (tasks c') /\ table (mem c) = table (mem c')).
Proof.
  intros Hnr. assert (doing_of (start ps T) = (ps, T)) as E0.
  { unfold doing_of. cbn. f_equal. rewrite map_map. cbn. apply map_id. }
  assert (forall c, rtc step (start ps T) c -> rtc does (ps, T) (doing_of c)) as H1.
  { intros c Hc. rewrite <- E0. destruct (start_fits ps T) as [B HB]. apply reach_does; eauto 10 using start_good, start_counted. }
  assert (forall c, rtc step (start ps T) c -> nf step c -> rtc does (ps, T) (map ops (tasks c), table (mem c)) /\ nf does (map ops (tasks c), table (mem c))) as H2.
  { intros c Hc Hn%stuck_nf. destruct (reach_good ps T c Hc) as (g & B & I & _). destruct (stuck_done c g I Hn) as [Hnf <-]. split; [by apply H1|done]. }
  split; [done|]. split; [done|]. intros c c' Hc Hn Hc' Hn'. destruct (H2 c Hc Hn) as [R1 N1], (H2 c' Hc' Hn') as [R2 N2].
  destruct (does_confluent (ps, T) _ _ R1 R2) as (z & Z1 & Z2). apply rtc_nf in Z1, Z2; [|done..]. split; congruence.
Qed.

Lemma schedule_reach l : forall c, rtc step c (schedule l c).
Proof.
  induction l as [|f l IH]; intros c; cbn; [done|]. destruct (move f c) as [c'|] eqn:E; cbn; [|apply IH]. eapply rtc_l; [by exists f|apply IH].
Qed.
Definition stuckb (c : system) : bool := forallb (fun f => match move f c with Some _ => false | None => true end) (seq 0 (length (tasks c))).
Lemma stuckb_ok c : stuckb c = true -> nf step c.
Proof.
  intros H. apply stuck_nf. intros f. unfold stuckb in H. rewrite forallb_forall in H. destruct (decide (f < length (tasks c))%nat) as [Hf|Hf].
  - specialize (H f ltac:(apply in_seq; lia)). by destruct (move f c).
  - unfold move. rewrite lookup_ge_None_2 by lia. done.
Qed.

(** Three fibers: two that wait, one of them for an event that the other completes, and one that completes what both wait for. *)
Definition three : list (list op) := [[Wait (Some 1); Complete (Some 2)]; [WaitN [Some 1; Some 2; None] 2]; [Complete (Some 1); Wait (Some 3)]]%nat.
Definition in_turn : system := schedule (concat (replicate 60 [0; 1; 2]%nat)) (start three ∅).
Definition backwards : system := schedule (concat (replicate 60 [2; 2; 2; 1; 0]%nat)) (start three ∅).
Lemma events_quiesce_witness : sn step (start three ∅) /\ lock_owner (mem in_turn) = None /\ map pc (tasks in_turn) = [Idle; Idle; Asleep].
Proof.
  destruct (events_quiesce three ∅) as [Hs H]. split; [exact Hs|]. split; [|by vm_compute].
  exact (proj1 (proj2 (H in_turn (schedule_reach _ _)) (stuckb_ok in_turn eq_refl))).
Defined.
Lemma events_deterministic_witness : map ops (tasks in_turn) = [[]; []; [Wait (Some 3)]]%nat /\ map ops (tasks in_turn) = map ops (tasks backwards) /\ table (mem in_turn) = table (mem backwards).
Proof.
  split; [by vm_compute|].
  apply (proj2 (proj2 (events_deterministic three ∅ ltac:(intros [|[|[|f]]] l o [= <-] Ho; repeat (apply elem_of_cons in Ho as [-> |Ho]; [done|]); by apply elem_of_nil in Ho))));
    [apply schedule_reach|by apply stuckb_ok; vm_compute|apply schedule_reach|by apply stuckb_ok; vm_compute].
Defined.

(** The lock is handed to the waiter that came last: of two fibers that queue behind a third,
    the second gets it. *)
Lemma handed_to_the_newest :
  let c := schedule [0; 0; 1; 1; 2; 2]%nat (start [[Complete (Some 1)]; [Complete (Some 2)]; [Complete (Some 3)]]%nat ∅) in
  map pc (tasks c) = [Body; Queued; Queued] /\ lock_owner (mem (schedule [0; 0; 0]%nat c)) = Some 2%nat.
Proof. by vm_compute. Qed.
