(* ===== verification/Heap.v ===== *)
(** * The C heap under the runtime's storage services

    What [rt_storage.c] relies on of [malloc], [calloc], [realloc] and [free]: the
    addresses of the live blocks.  The allocator itself is a parameter; freeing an
    address that is not live has no defined behaviour.  A computation ends
    normally, stops the program with a message, or is undefined.  [holds] is the ownership the
    services' invariants are stated with. *)
From S2P Require Import Prelude.

Inductive res (S A : Type) :=
| Done (x : A) (st : S)
| Stopped (msg : text)
| Wrong.
Arguments Done {S A}.
Arguments Stopped {S A}.
Arguments Wrong {S A}.

Definition R (S A : Type) : Type := S -> res S A.
Definition retR {S A} (x : A) : R S A := fun st => Done x st.
Definition stop {S A} (msg : text) : R S A := fun _ => Stopped msg.
Definition wrong {S A} : R S A := fun _ => Wrong.
Definition bindR {S A B} (m : R S A) (f : A -> R S B) : R S B := fun st =>
  match m st with Done x st' => f x st' | Stopped msg => Stopped msg | Wrong => Wrong end.
Definition getR {S A} (f : S -> A) : R S A := fun st => Done (f st) st.
Definition modifyR {S} (f : S -> S) : R S unit := fun st => Done tt (f st).

Notation "'let!' x := m 'in' k" := (bindR m (fun x => k))
  (at level 10, x pattern, m at level 100, k at level 200) : pli_scope.
Notation "m ;! k" := (bindR m (fun _ => k))
  (at level 100, k at level 200, right associativity) : pli_scope.

(** [safe E m st Q]: the computation is defined, [Q] holds if it ends, and [E] if it
    stops the program. *)
Definition safe {S A} (E : Prop) (m : R S A) (st : S) (Q : A -> S -> Prop) : Prop :=
  match m st with Done x st' => Q x st' | Stopped _ => E | Wrong => False end.

Section Rules.
Context {S : Type} {E : Prop}.

Lemma safe_ret {A} (x : A) (st : S) (Q : A -> S -> Prop) : Q x st -> safe E (retR x) st Q.
Proof. done. Qed.
Lemma safe_stop {A} msg (st : S) (Q : A -> S -> Prop) : E -> safe E (stop msg) st Q.
Proof. done. Qed.
Lemma safe_bind {A B} (m : R S A) (f : A -> R S B) st (Q : B -> S -> Prop) :
  safe E m st (fun x st' => safe E (f x) st' Q) -> safe E (bindR m f) st Q.
Proof. unfold safe, bindR. by destruct (m st). Qed.
Lemma safe_bind_inv {A B} (m : R S A) (f : A -> R S B) st (Q : B -> S -> Prop) :
  safe E (bindR m f) st Q -> safe E m st (fun x st' => safe E (f x) st' Q).
Proof. unfold safe, bindR. by destruct (m st). Qed.
Lemma safe_mono {A} (m : R S A) st (Q Q' : A -> S -> Prop) :
  safe E m st Q -> (forall x st', Q x st' -> Q' x st') -> safe E m st Q'.
Proof. unfold safe. destruct (m st); auto. Qed.
Lemma safe_get {A B} (g : S -> A) (f : A -> R S B) st (Q : B -> S -> Prop) :
  safe E (f (g st)) st Q -> safe E (bindR (getR g) f) st Q.
Proof. done. Qed.
Lemma safe_modify {B} (g : S -> S) (f : unit -> R S B) st (Q : B -> S -> Prop) :
  safe E (f tt) (g st) Q -> safe E (bindR (modifyR g) f) st Q.
Proof. done. Qed.
End Rules.

(** A state with a heap: the addresses of its live blocks. *)
Class HasHeap (S : Type) := { live : S -> gset Z; set_live : gset Z -> S -> S }.

(** An allocator gives the address of a new block of [n] bytes, if it can. *)
Definition allocator : Type := gset Z -> Z -> option Z.
(** What C says of [malloc]: the new block is none of the live ones, and not null (addresses
    are positive). *)
Definition allocates_fresh (malloc : allocator) : Prop :=
  forall l n p, malloc l n = Some p -> 0 < p /\ p ∉ l.

Section Heap.
Context {S : Type} `{HasHeap S} (malloc : allocator).

(** The address, 0 when the allocation is refused. *)
Definition plat_malloc (n : Z) : R S Z := fun st =>
  match malloc (live st) n with
  | Some p => Done p (set_live ({[p]} ∪ live st) st)
  | None => Done 0 st
  end.
Definition plat_free (p : Z) : R S unit := fun st =>
  if p =? 0 then Done tt st
  else if decide (p ∈ live st) then Done tt (set_live (live st ∖ {[p]}) st) else Wrong.
(** The block may move; a refused request leaves it as it is.  A null pointer is no block. *)
Definition without (p : Z) (l : gset Z) : gset Z := if p =? 0 then l else l ∖ {[p]}.
Definition plat_realloc (p n : Z) : R S Z := fun st =>
  if (p =? 0) || bool_decide (p ∈ live st) then
    match malloc (without p (live st)) n with
    | Some q => Done q (set_live ({[q]} ∪ without p (live st)) st)
    | None => Done 0 st
    end
  else Wrong.

(** [pli_alloc] *)
Definition pli_alloc (n : Z) : R S Z :=
  let! p := plat_malloc (if n <? 0 then 0 else n) in
  if p =? 0 then stop (txt "ALLOCATION: out of memory") else retR p.

(** A use of the block at an address, which has to be live. *)
Definition deref (p : Z) : R S unit := fun st => if decide (p ∈ live st) then Done tt st else Wrong.

Context (fresh : allocates_fresh malloc) {E : Prop}.

Lemma malloc_pos_spec n st (Q : Z -> S -> Prop) : (malloc (live st) n = None -> Q 0 st) ->
  (forall p, 0 < p -> p ∉ live st -> Q p (set_live ({[p]} ∪ live st) st)) -> safe E (plat_malloc n) st Q.
Proof using fresh.
  intros H0 H1. unfold safe, plat_malloc. destruct (malloc (live st) n) as [p|] eqn:Em; [|auto].
  destruct (fresh _ _ _ Em). by apply H1.
Qed.
Lemma malloc_spec n st (Q : Z -> S -> Prop) : (malloc (live st) n = None -> Q 0 st) ->
  (forall p, p <> 0 -> p ∉ live st -> Q p (set_live ({[p]} ∪ live st) st)) -> safe E (plat_malloc n) st Q.
Proof using fresh. intros H0 H1. apply malloc_pos_spec; [done|]. intros p Hp. apply H1. lia. Qed.
Lemma alloc_spec n st (Q : Z -> S -> Prop) : (forall n, malloc (live st) n = None -> E) ->
  (forall p, p <> 0 -> p ∉ live st -> Q p (set_live ({[p]} ∪ live st) st)) -> safe E (pli_alloc n) st Q.
Proof using fresh.
  intros HE H1. apply safe_bind, malloc_spec; [intros Hm; exact (HE _ Hm)|]. intros p Hp Hl. destruct (Z.eqb_spec p 0); [done|]. by apply H1.
Qed.
Lemma realloc_spec p n st (Q : Z -> S -> Prop) : p = 0 \/ p ∈ live st ->
  (malloc (without p (live st)) n = None -> Q 0 st) ->
  (forall q, q <> 0 -> q ∉ without p (live st) -> Q q (set_live ({[q]} ∪ without p (live st)) st)) ->
  safe E (plat_realloc p n) st Q.
Proof using fresh.
  intros Hp H0 H1. unfold safe, plat_realloc.
  assert ((p =? 0) || bool_decide (p ∈ live st) = true) as ->.
  { apply orb_true_iff. destruct Hp as [->|Hp]; [by left|right]. by apply bool_decide_eq_true. }
  destruct (malloc _ n) as [q|] eqn:Em; [|auto]. destruct (fresh _ _ _ Em). apply H1; [lia|done].
Qed.
Lemma free_spec p st (Q : unit -> S -> Prop) : p <> 0 -> p ∈ live st ->
  Q tt (set_live (live st ∖ {[p]}) st) -> safe E (plat_free p) st Q.
Proof. intros Hp Hl HQ. unfold safe, plat_free. destruct (Z.eqb_spec p 0); [done|]. by rewrite decide_True. Qed.
Lemma deref_spec p st (Q : unit -> S -> Prop) : p ∈ live st -> Q tt st -> safe E (deref p) st Q.
Proof. intros Hl HQ. unfold safe, deref. by rewrite decide_True. Qed.
End Heap.

(** The live blocks are those of a frame [F] the code knows nothing of, and the ones it
    owns, each once. *)
Definition holds (F l : gset Z) (owned : list Z) : Prop :=
  NoDup owned /\ (forall p, p ∈ owned -> p <> 0 /\ p ∉ F) /\ l = F ∪ list_to_set owned.

#[export] Instance holds_perm F l : Proper ((≡ₚ) ==> iff) (holds F l).
Proof.
  intros o o' Ho. unfold holds.
  assert ((list_to_set o : gset Z) = list_to_set o') as -> by (apply leibniz_equiv; by rewrite Ho).
  rewrite Ho. setoid_rewrite Ho. done.
Qed.
Lemma holds_alloc F l o p : holds F l o -> p <> 0 -> p ∉ l -> holds F ({[p]} ∪ l) (p :: o).
Proof.
  intros (Hn & Ho & ->) Hp Hl. unfold holds. rewrite not_elem_of_union, not_elem_of_list_to_set in Hl.
  split_and!.
  - apply NoDup_cons. tauto.
  - intros q [->|Hq]%elem_of_cons; [tauto|by apply Ho].
  - set_solver.
Qed.
Lemma holds_free F l o p : holds F l (p :: o) -> p <> 0 /\ p ∈ l /\ holds F (l ∖ {[p]}) o.
Proof.
  intros ([Hp Hn]%NoDup_cons & Ho & ->). destruct (Ho p) as [Hp0 HpF]; [set_solver|].
  split_and!; [done|set_solver|]. split_and!; [done|intros q Hq; apply Ho; set_solver|set_solver].
Qed.
Lemma holds_live F l o p : holds F l o -> p ∈ o -> p ∈ l.
Proof. intros (_ & _ & ->). set_solver. Qed.
Definition block (p : Z) : list Z := if p =? 0 then [] else [p].
Lemma holds_without F l o p : holds F l (block p ++ o) -> (p = 0 \/ p ∈ l) /\ holds F (without p l) o.
Proof.
  unfold block, without. destruct (Z.eqb_spec p 0); simpl; [auto|].
  intros (_ & Hl & Hh)%holds_free. auto.
Qed.
Lemma flat_map_perm {A} (f : A -> list Z) l l' : l ≡ₚ l' -> flat_map f l ≡ₚ flat_map f l'.
Proof. induction 1; simpl; [done|by f_equiv|by rewrite !(assoc_L (++)), (comm (++) (f y))|by etrans]. Qed.

(** An allocator for the witnesses: above all the live blocks. *)
Definition bump : allocator := fun l _ => Some (1 + set_fold Z.max 0 l).
Lemma bump_fresh : allocates_fresh bump.
Proof.
  intros l n p [= <-]. assert (0 <= set_fold Z.max 0 l /\ forall q, q ∈ l -> q <= set_fold Z.max 0 l) as [H0 H].
  { apply (set_fold_ind_L (fun m (l : gset Z) => 0 <= m /\ forall q, q ∈ l -> q <= m)); [by split; [|set_solver]|].
    intros x X m Hx [Hm HX]. split; [lia|]. intros q [->%elem_of_singleton|Hq]%elem_of_union; [lia|]. specialize (HX q Hq). lia. }
  split; [lia|]. intros Hp%H. lia.
Qed.
