(* ===== verification/Controlled.v ===== *)
(** * CONTROLLED storage ([runtime/rt_storage.c])

    A task's generation stacks: a table of variables, each with its stack of
    generations, a one-entry lookup cache, and a one-slot freelist that lets a
    FREE and ALLOCATE of the same size reuse one buffer.  The parallel arrays of
    a variable are a list of records, the oldest generation first ([depth] is its
    length); the table's own arrays are never freed, and whether they can grow is
    a parameter.  A null pointer is 0. *)
From S2P Require Import Prelude Heap.

Record gen := mkGen { g_addr : Z; g_len : Z; g_rank : Z; g_dims_at : Z; g_dims : list Z }.
Record CtlVar := mkVar { v_key : Z; v_gens : list gen; v_cap : Z }.

Record ctl := mkCtl {
  ctl_live : gset Z;
  ctl_vars : list CtlVar; ctl_last : option nat;
  ctl_cache_key : Z; ctl_cache_bytes : Z; ctl_cache_len : Z }.
Definition set_vars (vs : list CtlVar) (st : ctl) : ctl :=
  mkCtl (ctl_live st) vs (ctl_last st) (ctl_cache_key st) (ctl_cache_bytes st) (ctl_cache_len st).
Definition set_last (l : option nat) (st : ctl) : ctl :=
  mkCtl (ctl_live st) (ctl_vars st) l (ctl_cache_key st) (ctl_cache_bytes st) (ctl_cache_len st).
Definition set_cache (k p n : Z) (st : ctl) : ctl := mkCtl (ctl_live st) (ctl_vars st) (ctl_last st) k p n.
#[global] Instance ctl_heap : HasHeap ctl :=
  {| live := ctl_live;
     set_live l st := mkCtl l (ctl_vars st) (ctl_last st) (ctl_cache_key st) (ctl_cache_bytes st) (ctl_cache_len st) |}.

Definition no_memory : text := txt "CONTROLLED generation stack out of memory".

Section Controlled.
Context (malloc : allocator) (grow_ok : Z -> bool).

(** The index of the variable with the key, the first from [i] on. *)
Fixpoint find_key (k : Z) (vs : list CtlVar) (i : nat) : option nat :=
  match vs with
  | [] => None
  | v :: vs => if v_key v =? k then Some i else find_key k vs (S i)
  end.

(** The table walk of [ctlFind], after the one-entry cache has missed. *)
Definition find_walk (k : Z) (create : bool) : R ctl (option nat) :=
  let! vs := getR ctl_vars in
  match find_key k vs 0 with
  | Some i => modifyR (set_last (Some i)) ;! retR (Some i)
  | None =>
      if negb create then retR None
      else if negb (grow_ok (Z.of_nat (length vs) + 1)) then stop (txt "CONTROLLED table out of memory")
      else
        modifyR (set_vars (vs ++ [mkVar k [] 0])) ;!
        modifyR (set_last (Some (length vs))) ;! retR (Some (length vs))
  end.
Definition ctlFind (k : Z) (create : bool) : R ctl (option nat) :=
  let! last := getR ctl_last in
  let! vs := getR ctl_vars in
  match last ≫= (fun i => vs !! i) with
  | Some v => if v_key v =? k then retR last else find_walk k create
  | None => find_walk k create
  end.

(** [v], which the table must hold. *)
Definition var_at (i : nat) : R ctl CtlVar :=
  let! vs := getR ctl_vars in match vs !! i with Some v => retR v | None => wrong end.
Definition set_gens (i : nat) (gs : list gen) : R ctl unit :=
  let! v := var_at i in
  modifyR (fun st => set_vars (<[i := mkVar (v_key v) gs (v_cap v)]> (ctl_vars st)) st).

Definition ctlGrow (i : nat) : R ctl unit :=
  let! v := var_at i in
  if Z.of_nat (length (v_gens v)) <? v_cap v then retR tt
  else
    let ncap := if v_cap v =? 0 then 4 else v_cap v * 2 in
    if grow_ok ncap then
      modifyR (fun st => set_vars (<[i := mkVar (v_key v) (v_gens v) ncap]> (ctl_vars st)) st)
    else stop no_memory.

(** The stack of the variable that [ctlFind] creates when it must. *)
Definition slot (k : Z) : R ctl nat :=
  let! i := ctlFind k true in match i with Some i => retR i | None => wrong end.
(** The store at [depth], which the arrays must have room for. *)
Definition push (i : nat) (g : gen) : R ctl Z :=
  let! v := var_at i in
  if Z.of_nat (length (v_gens v)) <? v_cap v then set_gens i (v_gens v ++ [g]) ;! retR (g_addr g) else wrong.

Definition pli_ctl_alloc (k n : Z) : R ctl Z :=
  let! i := slot k in
  ctlGrow i ;!
  let! st := getR (fun st => st) in
  let! p :=
    if negb (ctl_cache_bytes st =? 0) && (ctl_cache_key st =? k) && (ctl_cache_len st =? n) then
      modifyR (fun st => set_cache (ctl_cache_key st) 0 (ctl_cache_len st) st) ;! retR (ctl_cache_bytes st)
    else pli_alloc malloc n in
  push i (mkGen p n 0 0 []).

Definition pli_ctl_alloc_dims (k n rank : Z) : R ctl Z :=
  let! i := slot k in
  let rank := if rank <? 0 then 0 else rank in
  ctlGrow i ;!
  let! p := pli_alloc malloc n in
  if rank =? 0 then push i (mkGen p n 0 0 [])
  else
    let! d := plat_malloc malloc (rank * 8) in
    if d =? 0 then stop no_memory else push i (mkGen p n rank d (repeat 0 (Z.to_nat rank))).

(** The latest generation of a variable, with the older ones below it. *)
Definition top_gen (k : Z) : R ctl (option (nat * list gen * gen)) :=
  let! i := ctlFind k false in
  match i with
  | None => retR None
  | Some i =>
      let! v := var_at i in
      retR (match last (v_gens v) with Some g => Some (i, removelast (v_gens v), g) | None => None end)
  end.

Definition pli_ctl_set_dim (k axis extent : Z) : R ctl unit :=
  let! t := top_gen k in
  match t with
  | None => retR tt
  | Some (i, below, g) =>
      if axis <? 0 then retR tt
      else
        let! g :=
          if g_rank g <=? axis then
            let! d := plat_realloc malloc (g_dims_at g) ((axis + 1) * 8) in
            if d =? 0 then stop no_memory
            else retR (mkGen (g_addr g) (g_len g) (axis + 1) d
                         (g_dims g ++ repeat 0 (Z.to_nat (axis + 1 - g_rank g))))
          else retR g in
        deref (g_dims_at g) ;!
        if Nat.ltb (Z.to_nat axis) (length (g_dims g)) then
          set_gens i (below ++ [mkGen (g_addr g) (g_len g) (g_rank g) (g_dims_at g) (<[Z.to_nat axis := extent]> (g_dims g))])
        else wrong
  end.

Definition of_top (k : Z) (f : gen -> Z) : R ctl Z :=
  let! t := top_gen k in retR (match t with Some (_, _, g) => f g | None => 0 end).
Definition pli_ctl_rank (k : Z) : R ctl Z := of_top k g_rank.
Definition pli_ctl_extent (k axis : Z) : R ctl Z :=
  let! t := top_gen k in
  match t with
  | None => retR 0
  | Some (_, _, g) =>
      if (axis <? 0) || (g_rank g <=? axis) then retR 0
      else deref (g_dims_at g) ;! match g_dims g !! Z.to_nat axis with Some e => retR e | None => wrong end
  end.
Definition pli_ctl_addr (k : Z) : R ctl Z := of_top k g_addr.
Definition pli_ctl_len (k : Z) : R ctl Z := of_top k g_len.
Definition pli_ctl_depth (k : Z) : R ctl Z :=
  let! i := ctlFind k false in
  match i with None => retR 0 | Some i => let! v := var_at i in retR (Z.of_nat (length (v_gens v))) end.

Definition addr_of (g : option gen) : Z := match g with Some g => g_addr g | None => 0 end.

Definition pli_ctl_free_addr (k : Z) : R ctl Z :=
  let! t := top_gen k in
  match t with
  | None => stop (txt "FREE of empty CONTROLLED stack")
  | Some (i, below, g) =>
      plat_free (g_dims_at g) ;!
      set_gens i below ;!
      let! st := getR (fun st => st) in
      (if g_rank g =? 0 then
         if negb (ctl_cache_bytes st =? 0) then
           if (ctl_cache_key st =? k) && (ctl_cache_len st =? g_len g) then plat_free (g_addr g)
           else plat_free (ctl_cache_bytes st) ;! modifyR (set_cache k (g_addr g) (g_len g))
         else modifyR (set_cache k (g_addr g) (g_len g))
       else plat_free (g_addr g)) ;!
      retR (addr_of (last below))
  end.
Definition pli_ctl_free (k : Z) : R ctl unit := pli_ctl_free_addr k ;! retR tt.

Definition pli_ctl_ensure (k n : Z) : R ctl unit :=
  let! t := top_gen k in
  match t with None => pli_ctl_alloc k n ;! retR tt | Some _ => retR tt end.

(** A program's calls, with what they return. *)
Inductive call :=
| CAlloc (k n : Z) | CAllocDims (k n rank : Z) | CSetDim (k axis extent : Z) | CFree (k : Z) | CEnsure (k n : Z)
| CAddr (k : Z) | CLen (k : Z) | CDepth (k : Z) | CRank (k : Z) | CExtent (k axis : Z).
Definition run_call (c : call) : R ctl Z :=
  match c with
  | CAlloc k n => pli_ctl_alloc k n
  | CAllocDims k n rank => pli_ctl_alloc_dims k n rank
  | CSetDim k axis e => pli_ctl_set_dim k axis e ;! retR 0
  | CFree k => pli_ctl_free_addr k
  | CEnsure k n => pli_ctl_ensure k n ;! retR 0
  | CAddr k => pli_ctl_addr k
  | CLen k => pli_ctl_len k
  | CDepth k => pli_ctl_depth k
  | CRank k => pli_ctl_rank k
  | CExtent k axis => pli_ctl_extent k axis
  end.
Fixpoint run_calls (cs : list call) : R ctl (list Z) :=
  match cs with
  | [] => retR []
  | c :: cs => let! r := run_call c in let! rs := run_calls cs in retR (r :: rs)
  end.
End Controlled.
