(* ===== verification/ControlledThms.v ===== *)
(** * CONTROLLED storage, against generation stacks

    The specification: a stack of generations per variable, each at an address no
    other live generation has.  The invariant says which blocks of the heap the
    table owns, each once: so a popped generation is released or kept in the
    cache, never both, never twice and never lost. *)
From S2P Require Import Prelude Heap Controlled.

(** ** The specification *)
Record sgen := mkSgen { s_addr : Z; s_len : Z; s_dims : list Z }.
Definition stacks : Type := Z -> list sgen.
Definition at_key (s s' : stacks) (k : Z) (l : list sgen) : Prop :=
  forall k', s' k' = if k' =? k then l else s k'.

Definition used (s : stacks) (a : Z) : Prop := exists k g, g ∈ s k /\ s_addr g = a.
Definition top_of (s : stacks) (k : Z) (f : sgen -> Z) : Z := match last (s k) with Some g => f g | None => 0 end.
(** The axis is within the descriptor, which grows with zeros to hold it. *)
Definition with_dim (axis : nat) (extent : Z) (g : sgen) : sgen :=
  mkSgen (s_addr g) (s_len g) (<[axis := extent]> (s_dims g ++ repeat 0 (S axis - length (s_dims g)))).

Definition same (s s' : stacks) : Prop := forall k, s' k = s k.
Inductive new_gen (s : stacks) (k n : Z) (dims : list Z) (s' : stacks) : Z -> Prop :=
| new_gen_at a : a <> 0 -> ~ used s a -> at_key s s' k (s k ++ [mkSgen a n dims]) -> new_gen s k n dims s' a.

Inductive spec_step (s : stacks) : call -> Z -> stacks -> Prop :=
| s_alloc k n a s' : new_gen s k n [] s' a -> spec_step s (CAlloc k n) a s'
| s_alloc_dims k n rank a s' : new_gen s k n (repeat 0 (Z.to_nat rank)) s' a -> spec_step s (CAllocDims k n rank) a s'
| s_set_dim k axis e s' :
    at_key s s' k (match last (s k) with
                   | Some g => removelast (s k) ++ [if axis <? 0 then g else with_dim (Z.to_nat axis) e g]
                   | None => [] end) -> spec_step s (CSetDim k axis e) 0 s'
| s_free k s' : s k <> [] -> at_key s s' k (removelast (s k)) ->
    spec_step s (CFree k) (match last (removelast (s k)) with Some g => s_addr g | None => 0 end) s'
| s_ensure_some k n s' : s k <> [] -> same s s' -> spec_step s (CEnsure k n) 0 s'
| s_ensure_none k n a s' : s k = [] -> new_gen s k n [] s' a -> spec_step s (CEnsure k n) 0 s'
| s_addr_of k s' : same s s' -> spec_step s (CAddr k) (top_of s k s_addr) s'
| s_len_of k s' : same s s' -> spec_step s (CLen k) (top_of s k s_len) s'
| s_rank_of k s' : same s s' -> spec_step s (CRank k) (top_of s k (fun g => Z.of_nat (length (s_dims g)))) s'
| s_depth_of k s' : same s s' -> spec_step s (CDepth k) (Z.of_nat (length (s k))) s'
| s_extent_of k axis s' : same s s' ->
    spec_step s (CExtent k axis)
      (top_of s k (fun g => if axis <? 0 then 0 else default 0 (s_dims g !! Z.to_nat axis))) s'.

Inductive spec_run : stacks -> list call -> list Z -> stacks -> Prop :=
| run_nil s : spec_run s [] [] s
| run_cons s c r s1 cs rs s2 : spec_step s c r s1 -> spec_run s1 cs rs s2 -> spec_run s (c :: cs) (r :: rs) s2.
(** The program frees a variable that has no generation. *)
Inductive frees_empty : stacks -> list call -> Prop :=
| frees_here s k cs : s k = [] -> frees_empty s (CFree k :: cs)
| frees_later s c r s1 cs : spec_step s c r s1 -> frees_empty s1 cs -> frees_empty s (c :: cs).

(** ** What the table stands for, and its invariant *)
Definition abs_gen (g : gen) : sgen := mkSgen (g_addr g) (g_len g) (g_dims g).
Definition stacks_of (vs : list CtlVar) : stacks := fun k =>
  match find_key k vs 0 ≫= (fun i => vs !! i) with Some v => map abs_gen (v_gens v) | None => [] end.
Definition stack (st : ctl) : stacks := stacks_of (ctl_vars st).

Definition gen_blocks (g : gen) : list Z := g_addr g :: block (g_dims_at g).
Definition var_blocks (v : CtlVar) : list Z := flat_map gen_blocks (v_gens v).
Definition table_blocks (st : ctl) : list Z := flat_map var_blocks (ctl_vars st) ++ block (ctl_cache_bytes st).

Definition gen_ok (g : gen) : Prop :=
  Z.of_nat (length (g_dims g)) = g_rank g /\ (g_dims_at g = 0 <-> g_rank g = 0).
Definition var_ok (v : CtlVar) : Prop :=
  Forall gen_ok (v_gens v) /\ Z.of_nat (length (v_gens v)) <= v_cap v.
(** [x] are blocks in the hands of the operation that runs. *)
Record inv (F : gset Z) (x : list Z) (st : ctl) : Prop := {
  inv_keys : NoDup (map v_key (ctl_vars st));
  inv_last : forall i, ctl_last st = Some i -> (i < length (ctl_vars st))%nat;
  inv_vars : Forall var_ok (ctl_vars st);
  inv_heap : holds F (ctl_live st) (x ++ table_blocks st) }.

(** ** The table *)
Lemma find_key_spec k vs j : match find_key k vs j with
  | Some i => exists v, (j <= i)%nat /\ vs !! (i - j)%nat = Some v /\ v_key v = k
  | None => k ∉ map v_key vs
  end.
Proof.
  revert j. induction vs as [|v vs IH]; intros j; simpl; [set_solver|].
  destruct (Z.eqb_spec (v_key v) k) as [E|E].
  - exists v. rewrite Nat.sub_diag. auto.
  - specialize (IH (S j)). destruct (find_key k vs (S j)) as [i|].
    + destruct IH as (w & Hi & Hw & Hk). exists w. replace (i - j)%nat with (S (i - S j)) by lia. auto with lia.
    + set_solver.
Qed.

Lemma find_key_at vs i v : NoDup (map v_key vs) -> vs !! i = Some v -> find_key (v_key v) vs 0 = Some i.
Proof.
  intros Hn Hi. pose proof (find_key_spec (v_key v) vs 0) as H. destruct (find_key _ _ _) as [j|].
  - destruct H as (w & _ & Hw & Hk). rewrite Nat.sub_0_r in Hw. f_equal.
    eapply (NoDup_lookup _ j i (v_key v)); [exact Hn| |]; rewrite list_lookup_fmap; [by rewrite Hw, <- Hk|by rewrite Hi].
  - destruct H. apply (list_elem_of_fmap_2 v_key). by eapply list_elem_of_lookup_2.
Qed.

Lemma stack_at st i v : NoDup (map v_key (ctl_vars st)) -> ctl_vars st !! i = Some v ->
  stack st (v_key v) = map abs_gen (v_gens v).
Proof. intros Hn Hi. unfold stack, stacks_of. rewrite (find_key_at _ _ _ Hn Hi). simpl. by rewrite Hi. Qed.

Lemma find_key_app k vs w : k ∉ map v_key vs -> find_key k (vs ++ [w]) 0 = if v_key w =? k then Some (length vs) else None.
Proof.
  intros Hk. assert (forall j, find_key k (vs ++ [w]) j = if v_key w =? k then Some (j + length vs)%nat else None) as H; [|by apply H].
  induction vs as [|v vs IH]; intros j; simpl.
  - by rewrite Nat.add_0_r.
  - rewrite map_cons, not_elem_of_cons in Hk. destruct (Z.eqb_spec (v_key v) k) as [E|E]; [by destruct Hk|].
    rewrite IH by tauto. by rewrite Nat.add_succ_comm.
Qed.
Lemma find_key_app_l k vs w j i : find_key k vs j = Some i -> find_key k (vs ++ [w]) j = Some i.
Proof. revert j. induction vs as [|v vs IH]; intros j; simpl; [done|]. destruct (v_key v =? k); auto. Qed.

(** A new variable's stack is empty, as a missing one's is. *)
Lemma stacks_new vs k : k ∉ map v_key vs -> same (stacks_of vs) (stacks_of (vs ++ [mkVar k [] 0])).
Proof.
  intros Hk k'. unfold stacks_of. pose proof (find_key_spec k' vs 0) as H. destruct (find_key k' vs 0) as [i|] eqn:E.
  - rewrite (find_key_app_l _ _ _ _ _ E). simpl. rewrite lookup_app_l; [done|].
    destruct H as (v & _ & Hv & _). rewrite Nat.sub_0_r in Hv. by eapply lookup_lt_Some.
  - rewrite find_key_app by done. simpl. destruct (k =? k'); [|done]. simpl. by rewrite list_lookup_middle.
Qed.

Lemma keys_insert vs i v w : vs !! i = Some v -> v_key w = v_key v -> map v_key (<[i:=w]> vs) = map v_key vs.
Proof.
  intros Hi Hk. etrans; [apply (list_fmap_insert v_key)|]. apply list_insert_id.
  rewrite Hk, list_lookup_fmap. by rewrite Hi.
Qed.

Lemma find_key_insert k vs i v w j : vs !! i = Some v -> v_key w = v_key v -> find_key k (<[i:=w]> vs) j = find_key k vs j.
Proof.
  intros Hi Hk. revert i j Hi. induction vs as [|u vs IH]; intros [|i] j Hi; simplify_eq/=; [by rewrite Hk|].
  destruct (v_key u =? k); [done|]. by apply IH.
Qed.

Lemma stacks_insert vs i v w : NoDup (map v_key vs) -> vs !! i = Some v -> v_key w = v_key v ->
  at_key (stacks_of vs) (stacks_of (<[i:=w]> vs)) (v_key v) (map abs_gen (v_gens w)).
Proof.
  intros Hn Hi Hk k. unfold stacks_of. rewrite (find_key_insert k vs i v w) by done.
  destruct (Z.eqb_spec k (v_key v)) as [->|E].
  - rewrite (find_key_at _ _ _ Hn Hi). simpl. rewrite list_lookup_insert_eq; [done|by eapply lookup_lt_Some].
  - pose proof (find_key_spec k vs 0) as H. destruct (find_key k vs 0) as [j|]; [|done]. simpl.
    destruct H as (u & _ & Hu & <-). rewrite Nat.sub_0_r in Hu. rewrite list_lookup_insert_ne; [done|].
    intros ->. naive_solver.
Qed.

(** The blocks of one variable, and the others. *)
Definition other_blocks (i : nat) (st : ctl) : list Z :=
  flat_map var_blocks (delete i (ctl_vars st)) ++ block (ctl_cache_bytes st).
Lemma delete_insert_here {A} (l : list A) i x : delete i (<[i:=x]> l) = delete i l.
Proof. revert i. induction l as [|y l IH]; intros [|i]; simpl; [done..|]. by rewrite IH. Qed.
Lemma table_blocks_at st i v : ctl_vars st !! i = Some v ->
  table_blocks st ≡ₚ var_blocks v ++ other_blocks i st.
Proof.
  intros Hi. unfold table_blocks, other_blocks. rewrite (assoc_L (++)). f_equiv.
  apply (flat_map_perm var_blocks _ _ (delete_Permutation _ _ _ Hi)).
Qed.

Lemma inv_update F x x' st l i v w : inv F x st -> ctl_vars st !! i = Some v -> v_key w = v_key v -> var_ok w ->
  holds F l (x' ++ var_blocks w ++ other_blocks i st) -> inv F x' (set_vars (<[i:=w]> (ctl_vars st)) (set_live l st)).
Proof.
  intros [Hk Hl Hv _] Hi E Hw Hh. split; simpl.
  - by rewrite (keys_insert _ _ _ _ Hi E).
  - intros j Hj. rewrite length_insert. by apply Hl.
  - by apply Forall_insert.
  - eapply holds_perm; [|exact Hh]. rewrite (table_blocks_at _ i w).
    2: { simpl. apply list_lookup_insert_eq. by eapply lookup_lt_Some. }
    unfold other_blocks. simpl. by rewrite delete_insert_here.
Qed.
Lemma set_live_id st : set_live (live st) st = st.
Proof. by destruct st. Qed.
Lemma stack_update st i v w : NoDup (map v_key (ctl_vars st)) -> ctl_vars st !! i = Some v -> v_key w = v_key v ->
  at_key (stack st) (stack (set_vars (<[i:=w]> (ctl_vars st)) st)) (v_key v) (map abs_gen (v_gens w)).
Proof. apply stacks_insert. Qed.

Lemma inv_take F x st : inv F x st -> holds F (ctl_live st) (x ++ table_blocks st).
Proof. by intros []. Qed.
Lemma inv_take_at F x st i v : inv F x st -> ctl_vars st !! i = Some v ->
  holds F (live st) (x ++ var_blocks v ++ other_blocks i st).
Proof. intros Hi Hv. eapply holds_perm; [|by apply inv_take]. by rewrite (table_blocks_at _ _ _ Hv). Qed.
Lemma inv_live F x x' st l : inv F x st -> holds F l (x' ++ table_blocks st) -> inv F x' (set_live l st).
Proof. by intros [Hk Hl Hv _]. Qed.
(** A new block joins those in hand; a block in hand can be freed. *)
Lemma inv_alloc F x st p : inv F x st -> p <> 0 -> p ∉ live st -> inv F (p :: x) (set_live ({[p]} ∪ live st) st).
Proof. intros Hi Hp Hl. apply (inv_live F x); [done|]. 
  apply (holds_alloc F (ctl_live st) (x ++ table_blocks st)); [by apply inv_take|done|done].
Qed.
Lemma inv_free F x st p : inv F (p :: x) st -> p <> 0 /\ p ∈ live st /\ inv F x (set_live (live st ∖ {[p]}) st).
Proof.
  intros Hi. destruct (holds_free F _ _ p (inv_take _ _ _ Hi)) as (Hp & Hl & Hh). split_and!; [done|done|].
  by apply (inv_live F (p :: x)).
Qed.

(** No generation is at an address that is being handed out. *)
Lemma inv_unused F x st p : inv F (p :: x) st -> ~ used (stack st) p.
Proof.
  intros Hi (k & g & Hg & Ha). destruct (inv_take _ _ _ Hi) as (Hn & _ & _).
  simpl in Hn. apply NoDup_cons in Hn as [Hp _]. apply Hp. apply elem_of_app; right. apply elem_of_app; left.
  unfold stack, stacks_of in Hg. pose proof (find_key_spec k (ctl_vars st) 0) as H.
  destruct (find_key k (ctl_vars st) 0) as [i|]; simpl in Hg; [|set_solver].
  destruct H as (v & _ & Hv & _). rewrite Nat.sub_0_r in Hv. rewrite Hv in Hg.
  apply list_elem_of_In, in_flat_map. exists v. rewrite <- !list_elem_of_In. split; [by eapply list_elem_of_lookup_2|].
  apply list_elem_of_fmap in Hg as (g' & -> & Hg'). simpl in Ha. subst p.
  apply list_elem_of_In, in_flat_map. exists g'. rewrite <- !list_elem_of_In. split; [done|set_solver].
Qed.

Lemma same_refl s : same s s.
Proof. done. Qed.
Lemma same_trans s1 s2 s3 : same s1 s2 -> same s2 s3 -> same s1 s3.
Proof. intros H1 H2 k. by rewrite H2, H1. Qed.
Lemma at_key_same s1 s2 s3 k l : same s1 s2 -> at_key s2 s3 k l -> at_key s1 s3 k l.
Proof. intros H1 H2 k'. by rewrite H2, H1. Qed.
#[export] Hint Resolve same_refl : pli.

(** ** The operations keep the invariant and follow the specification *)
Definition refused (malloc : allocator) (grow_ok : Z -> bool) : Prop :=
  (exists l n, malloc l n = None) \/ (exists n, grow_ok n = false).

Section Ops.
Context (malloc : allocator) (grow_ok : Z -> bool) (fresh : allocates_fresh malloc) (F : gset Z).
Context (E : Prop) (HE : refused malloc grow_ok -> E).
Implicit Types (x : list Z) (st : ctl).

Lemma alloc_stops l : forall n, malloc l n = None -> E.
Proof using fresh HE. intros n Hn. apply HE. left. eauto. Qed.
Lemma grow_stops n : grow_ok n = false -> E.
Proof using fresh HE. intros Hn. apply HE. right. eauto. Qed.

(** The operation [ctlFind] looks up leaves the stacks as they are. *)
Definition reaches x k (create : bool) st (o : option nat) st' : Prop :=
  inv F x st' /\ same (stack st) (stack st') /\
  match o with Some i => exists v, ctl_vars st' !! i = Some v /\ v_key v = k | None => create = false /\ stack st' k = [] end.

Lemma walk_spec x k create st : inv F x st -> safe E (find_walk grow_ok k create) st (reaches x k create st).
Proof using fresh HE.
  intros Hi. apply safe_get. pose proof (find_key_spec k (ctl_vars st) 0) as Hk.
  destruct (find_key k (ctl_vars st) 0) as [i|] eqn:Ef.
  - destruct Hk as (v & _ & Hv & <-). rewrite Nat.sub_0_r in Hv. apply safe_modify, safe_ret.
    split_and!; [|done|by exists v]. destruct Hi. split; try done. simpl. intros j [= <-]. by eapply lookup_lt_Some.
  - destruct create; simpl.
    + destruct (grow_ok _) eqn:Eg; simpl; [|by eapply grow_stops]. apply safe_modify, safe_modify, safe_ret. simpl.
      split_and!.
      * destruct Hi as [Hn Hl Hv Hh]. split; simpl.
        -- rewrite map_app. apply NoDup_app. split_and!; [done|set_solver|apply NoDup_singleton].
        -- intros j [= <-]. rewrite length_app. simpl. lia.
        -- apply Forall_app. split; [done|]. apply Forall_singleton. split; [constructor|done].
        -- unfold table_blocks in *. simpl. rewrite flat_map_app. simpl. by rewrite app_nil_r.
      * by apply stacks_new.
      * exists (mkVar k [] 0). split; [by apply list_lookup_middle|done].
    + apply safe_ret. split_and!; [done|done|done|]. unfold stack, stacks_of. by rewrite Ef.
Qed.

Lemma find_spec x k create st : inv F x st -> safe E (ctlFind grow_ok k create) st (reaches x k create st).
Proof using fresh HE.
  intros Hi. apply safe_get, safe_get. destruct (ctl_last st) as [i|] eqn:El; simpl; [|by apply walk_spec].
  destruct (ctl_vars st !! i) as [v|] eqn:Ev; [|by apply walk_spec].
  destruct (Z.eqb_spec (v_key v) k) as [Ek|]; [|by apply walk_spec]. apply safe_ret. split_and!; eauto with pli.
Qed.

(** The latest generation. *)
Definition reads_top x k st (t : option (nat * list gen * gen)) st' : Prop :=
  inv F x st' /\ same (stack st) (stack st') /\
  match t with
  | Some (i, below, g) => exists v, ctl_vars st' !! i = Some v /\ v_key v = k /\ v_gens v = below ++ [g] /\
      var_ok v /\ stack st' k = map abs_gen below ++ [abs_gen g]
  | None => stack st' k = []
  end.
Lemma var_at_spec {B} i v (f : CtlVar -> R ctl B) st Q :
  ctl_vars st !! i = Some v -> safe E (f v) st Q -> safe E (let! v := var_at i in f v) st Q.
Proof. intros Hv HQ. apply safe_bind. unfold var_at. apply safe_get. by rewrite Hv. Qed.

Lemma top_spec x k st : inv F x st -> safe E (top_gen grow_ok k) st (reads_top x k st).
Proof using fresh HE.
  intros Hi. apply safe_bind. eapply safe_mono; [by apply find_spec|]. intros [i|] st' (Hi' & Hs & Ho).
  - destruct Ho as (v & Hv & Hk). eapply var_at_spec; [done|]. apply safe_ret. split_and!; [done|done|].
    pose proof (stack_at st' i v (inv_keys _ _ _ Hi') Hv) as Hst. rewrite Hk in Hst.
    destruct (last (v_gens v)) as [g|] eqn:El.
    + apply last_Some in El as (below & E'). exists v.
      assert (var_ok v) by (eapply Forall_lookup_1; [by eapply inv_vars|done]).
      rewrite Hst, E', removelast_last, map_app. split_and!; done.
    + apply last_None in El. by rewrite Hst, El.
  - apply safe_ret. split_and!; [done|done|apply Ho].
Qed.

(** A variable's new stack, in the heap that the operation leaves. *)
Lemma set_gens_spec x x' st l i v gs : inv F x st -> ctl_vars st !! i = Some v -> Forall gen_ok gs ->
  Z.of_nat (length gs) <= v_cap v -> holds F l (x' ++ flat_map gen_blocks gs ++ other_blocks i st) ->
  safe E (set_gens i gs) (set_live l st) (fun _ st' => inv F x' st' /\
    at_key (stack st) (stack st') (v_key v) (map abs_gen gs) /\ ctl_cache_bytes st' = ctl_cache_bytes st).
Proof using Type.
  intros Hi Hv Hg Hl Hp. eapply var_at_spec; [exact Hv|]. unfold safe, modifyR. split_and!; [| |done].
  - apply (inv_update F x x' st l i v (mkVar (v_key v) gs (v_cap v))); done.
  - by apply (stack_update st i v (mkVar (v_key v) gs (v_cap v))); [eapply inv_keys|..].
Qed.

(** [slot] and [ctlGrow]: a place in the stack of the variable. *)
Definition has_room x k st i st' : Prop :=
  inv F x st' /\ same (stack st) (stack st') /\
  exists v, ctl_vars st' !! i = Some v /\ v_key v = k /\ Forall gen_ok (v_gens v) /\
    Z.of_nat (length (v_gens v)) < v_cap v /\ stack st' k = map abs_gen (v_gens v).

Lemma slot_grow_spec {B} x k (m : nat -> R ctl B) st Q : inv F x st ->
  (forall i st', has_room x k st i st' -> safe E (m i) st' Q) ->
  safe E (let! i := slot grow_ok k in ctlGrow grow_ok i ;! m i) st Q.
Proof using fresh HE.
  intros Hi HQ. apply safe_bind, safe_bind. eapply safe_mono; [by apply find_spec|].
  intros [i|] st1 (Hi1 & Hs1 & Ho); [|by destruct Ho]. destruct Ho as (v & Hv & Hk). apply safe_ret, safe_bind.
  eapply var_at_spec; [done|]. assert (var_ok v) as [Hg Hl] by (eapply Forall_lookup_1; [by eapply inv_vars|done]).
  pose proof (stack_at st1 i v (inv_keys _ _ _ Hi1) Hv) as Hst. rewrite Hk in Hst.
  destruct (Z.ltb_spec (Z.of_nat (length (v_gens v))) (v_cap v)) as [Hr|Hr].
  { apply safe_ret. apply HQ. split_and!; [done|done|]. by exists v. }
  cbv zeta. match goal with |- context [grow_ok ?n] => destruct (grow_ok n) eqn:Eg end; [|by eapply grow_stops].
  unfold safe at 1, modifyR. apply HQ.
  set (w := mkVar (v_key v) (v_gens v) (if v_cap v =? 0 then 4 else v_cap v * 2)).
  assert (Z.of_nat (length (v_gens w)) < v_cap w) as Hw by (simpl; destruct (Z.eqb_spec (v_cap v) 0); lia).
  pose proof (stack_update st1 i v w (inv_keys _ _ _ Hi1) Hv eq_refl) as Ha.
  split_and!.
  - rewrite <- (set_live_id st1) at 2. eapply inv_update; try done; [split; [done|by apply Z.lt_le_incl]|].
    by apply (inv_take_at F x st1 i v).
  - eapply same_trans; [exact Hs1|]. intros k'. rewrite Ha. destruct (Z.eqb_spec k' (v_key v)) as [->|]; [|done].
    by rewrite Hk.
  - exists w. split_and!; try done; [simpl; apply list_lookup_insert_eq; by eapply lookup_lt_Some|].
    rewrite Ha, Hk, Z.eqb_refl. done.
Qed.

Lemma ctl_push_spec x k s0 st i g : has_room (gen_blocks g ++ x) k s0 i st -> gen_ok g ->
  safe E (push i g) st (fun a st' => a = g_addr g /\ inv F x st' /\
    at_key (stack s0) (stack st') k (stack s0 k ++ [abs_gen g])).
Proof using fresh HE.
  intros (Hi & Hs & v & Hv & Hk & Hg & Hr & Hst) Hok. eapply var_at_spec; [done|].
  rewrite (proj2 (Z.ltb_lt _ _) Hr). apply safe_bind.
  pose proof (set_gens_spec _ x st (live st) i v (v_gens v ++ [g]) Hi Hv) as Hset. rewrite set_live_id in Hset.
  eapply safe_mono; [apply Hset|].
  { apply Forall_app. split; [done|by apply Forall_singleton]. }
  { rewrite length_app. simpl. lia. }
  { eapply holds_perm; [|by apply (inv_take_at F (gen_blocks g ++ x) st i v)].
    rewrite flat_map_app. simpl. rewrite app_nil_r. fold (var_blocks v). solve_Permutation. }
  intros _ st' (Hi' & Ha & _). apply safe_ret. split_and!; [done|done|].
  rewrite <- (Hs k), Hst, <- (map_app abs_gen _ [g]), <- Hk. by eapply at_key_same.
Qed.

Lemma room_alloc x k s0 i st p : has_room x k s0 i st -> p <> 0 -> p ∉ live st ->
  has_room (p :: x) k s0 i (set_live ({[p]} ∪ live st) st).
Proof using Type. intros (Hi & Hs & Hv) Hp Hl. split_and!; [by apply inv_alloc|done|done]. Qed.
Lemma room_unused p x k s0 i st : has_room (p :: x) k s0 i st -> ~ used (stack s0) p.
Proof using Type.
  intros (Hi & Hs & _) (k' & g & Hg & Ha). apply (inv_unused F x st p Hi). exists k', g. by rewrite Hs.
Qed.
Lemma room_take p k s0 i st n : has_room [] k s0 i st -> ctl_cache_bytes st = p -> p <> 0 ->
  has_room [p] k s0 i (set_cache (ctl_cache_key st) 0 n st).
Proof using Type.
  intros ([Hk Hl Hv Hh] & Hs & Hr) <- Hp. split_and!; [|done|done]. split; try done. eapply holds_perm; [|exact Hh].
  unfold table_blocks, block. simpl. apply Z.eqb_neq in Hp. rewrite Hp, app_nil_r. solve_Permutation.
Qed.

Lemma new_gen_ret s k n dims a b s' : b = a -> a <> 0 -> ~ used s a ->
  at_key s s' k (s k ++ [mkSgen a n dims]) -> new_gen s k n dims s' b.
Proof using Type. intros -> ? ? ?. by constructor. Qed.

Lemma ctl_alloc_spec k n st : inv F [] st ->
  safe E (pli_ctl_alloc malloc grow_ok k n) st (fun a st' => inv F [] st' /\ new_gen (stack st) k n [] (stack st') a).
Proof using fresh HE.
  intros Hi. unfold pli_ctl_alloc. apply slot_grow_spec with (x := []); [done|]. intros i st1 Hr. apply safe_get, safe_bind.
  assert (forall p st2, has_room [p] k st i st2 -> p <> 0 -> safe E (push i (mkGen p n 0 0 [])) st2
            (fun a st' => inv F [] st' /\ new_gen (stack st) k n [] (stack st') a)) as Hpush.
  { intros p st2 Hr2 Hp. eapply safe_mono; [by eapply (ctl_push_spec [] k st st2 i (mkGen p n 0 0 []))|].
    intros a st' (-> & Hi' & Ha). split; [done|]. eapply new_gen_ret; [done|done|by eapply room_unused|done]. }
  destruct (negb _ && _ && _) eqn:Ec.
  - apply andb_prop in Ec as [[Hc _]%andb_prop _]. apply negb_true_iff, Z.eqb_neq in Hc.
    apply safe_modify, safe_ret. apply Hpush; [|done]. by apply room_take.
  - apply alloc_spec; [done|apply alloc_stops|]. intros p Hp Hl. apply Hpush; [|done]. by apply room_alloc.
Qed.

Lemma ctl_alloc_dims_spec k n rank st : inv F [] st ->
  safe E (pli_ctl_alloc_dims malloc grow_ok k n rank) st (fun a st' =>
    inv F [] st' /\ new_gen (stack st) k n (repeat 0 (Z.to_nat rank)) (stack st') a).
Proof using fresh HE.
  intros Hi. unfold pli_ctl_alloc_dims. apply slot_grow_spec with (x := []); [done|]. intros i st1 Hr.
  set (r := if rank <? 0 then 0 else rank).
  assert (Hr0 : 0 <= r /\ Z.to_nat rank = Z.to_nat r) by (unfold r; destruct (Z.ltb_spec rank 0); lia).
  destruct Hr0 as [Hr0 ->]. apply safe_bind, alloc_spec; [done|apply alloc_stops|]. intros p Hp Hl.
  assert (Hr2 : has_room [p] k st i (set_live ({[p]} ∪ live st1) st1)) by by apply room_alloc.
  assert (forall g st2, has_room (gen_blocks g) k st i st2 -> gen_ok g -> g_addr g = p -> g_len g = n ->
            safe E (push i g) st2 (fun a st' => inv F [] st' /\ new_gen (stack st) k n (g_dims g) (stack st') a)) as Hpush.
  { intros g st2 Hr3 Hg Ha Hn. eapply safe_mono.
    { apply (ctl_push_spec [] k st st2 i g); [|done]. by rewrite app_nil_r. }
    intros a st' (-> & Hi' & Hk). split; [done|]. apply (new_gen_ret _ _ _ _ (g_addr g)); [done|by rewrite Ha| |by rewrite <- Hn].
    by eapply (room_unused (g_addr g) (block (g_dims_at g))). }
  destruct (Z.eqb_spec r 0) as [Hz|Hz].
  - rewrite Hz. by apply (Hpush (mkGen p n 0 0 [])).
  - apply safe_bind, malloc_spec; [done|intros Hm; by eapply alloc_stops|]. intros d Hd Hdl.
    destruct (Z.eqb_spec d 0) as [|_]; [done|]. apply (Hpush (mkGen p n r d (repeat 0 (Z.to_nat r)))); [|split; simpl|done..].
    + assert (has_room [d; p] k st i (set_live ({[d]} ∪ live (set_live ({[p]} ∪ live st1) st1)) (set_live ({[p]} ∪ live st1) st1)))
        as (Hi3 & Hs3 & Hv3) by by apply room_alloc.
      split_and!; [|done|done]. destruct Hi3 as [? ? ? Hh]. split; try done. eapply holds_perm; [|exact Hh].
      unfold gen_blocks, block. simpl. apply Z.eqb_neq in Hd. rewrite Hd. simpl. solve_Permutation.
    + rewrite repeat_length. lia.
    + lia.
Qed.

(** The top generation's descriptor, when it has one, is a live block. *)
Lemma dims_live x st i v below g : inv F x st -> ctl_vars st !! i = Some v -> v_gens v = below ++ [g] ->
  gen_ok g -> g_rank g <> 0 -> g_dims_at g ∈ live st.
Proof using fresh HE.
  intros Hi Hv Hg [_ Hok] Hr. eapply holds_live; [by eapply inv_take|]. rewrite (table_blocks_at _ _ _ Hv).
  unfold var_blocks. rewrite Hg, flat_map_app. unfold gen_blocks at 2, block. simpl.
  destruct (Z.eqb_spec (g_dims_at g) 0); [tauto|set_solver].
Qed.

(** A new descriptor for the top generation, in the heap with the old one replaced. *)
Lemma set_top_spec st i v below g d dims l : inv F [] st -> ctl_vars st !! i = Some v ->
  v_gens v = below ++ [g] -> var_ok v -> (d = 0 <-> dims = []) ->
  holds F l (block d ++ (g_addr g :: flat_map gen_blocks below ++ other_blocks i st)) ->
  safe E (set_gens i (below ++ [mkGen (g_addr g) (g_len g) (Z.of_nat (length dims)) d dims])) (set_live l st) (fun _ st' =>
    inv F [] st' /\ at_key (stack st) (stack st') (v_key v) (map abs_gen below ++ [mkSgen (g_addr g) (g_len g) dims])).
Proof using fresh HE.
  intros Hi Hv Hg [Hok Hl] Hd Hp. rewrite Hg in Hok, Hl. apply Forall_app in Hok as [Hb _].
  rewrite length_app in Hl. simpl in Hl. eapply safe_mono.
  - apply (set_gens_spec [] [] st l i v); [done|done| | |].
    + apply Forall_app. split; [done|]. apply Forall_singleton. split; simpl; [done|]. rewrite Hd.
      destruct dims; simpl; split; done || lia.
    + rewrite length_app. simpl. lia.
    + eapply holds_perm; [|exact Hp]. simpl. rewrite flat_map_app. simpl. rewrite app_nil_r. solve_Permutation.
  - intros _ st' (Hi' & Ha & _). split; [done|]. intros k'. by rewrite Ha, map_app.
Qed.

Lemma top_blocks st i v below g : inv F [] st -> ctl_vars st !! i = Some v -> v_gens v = below ++ [g] ->
  holds F (live st) (block (g_dims_at g) ++ (g_addr g :: flat_map gen_blocks below ++ other_blocks i st)).
Proof using fresh HE.
  intros Hi Hv Hg. eapply holds_perm; [|exact (inv_take_at _ _ _ _ _ Hi Hv)]. simpl.
  unfold var_blocks. rewrite Hg, flat_map_app. simpl. rewrite app_nil_r. solve_Permutation.
Qed.

Lemma stack_last s0 st k below g : same s0 (stack st) -> stack st k = map abs_gen below ++ [abs_gen g] ->
  last (s0 k) = Some (abs_gen g) /\ removelast (s0 k) = map abs_gen below.
Proof using Type. intros Hs E'. rewrite <- (Hs k), E', last_snoc. by rewrite removelast_last. Qed.

Lemma ctl_set_dim_spec k axis e st : inv F [] st ->
  safe E (pli_ctl_set_dim malloc grow_ok k axis e) st (fun _ st' => inv F [] st' /\
    spec_step (stack st) (CSetDim k axis e) 0 (stack st')).
Proof using fresh HE.
  intros Hi. apply safe_bind. eapply safe_mono; [by apply top_spec|]. intros [[[i below] g]|] st1 (Hi1 & Hs & Ht).
  2: { apply safe_ret. split; [done|]. constructor. rewrite <- (Hs k), Ht. simpl. intros k'.
       rewrite (Hs k'). destruct (Z.eqb_spec k' k) as [->|]; [|done]. by rewrite <- (Hs k). }
  destruct Ht as (v & Hv & <- & Hg & Hok & Hst). destruct (stack_last _ _ _ _ _ Hs Hst) as [Hlast Hrem].
  pose proof (proj1 Hok) as Hall. rewrite Hg in Hall. apply Forall_app in Hall as [_ [Hlen Hd0]%Forall_singleton].
  destruct (Z.ltb_spec axis 0) as [Ha|Ha].
  { apply safe_ret. split; [done|]. constructor. rewrite Hlast, Hrem. apply Z.ltb_lt in Ha. rewrite Ha.
    intros k'. rewrite (Hs k'). destruct (Z.eqb_spec k' (v_key v)) as [->|]; [|done]. by rewrite <- (Hs _). }
  apply safe_bind.
  assert (forall d dims l, holds F l (block d ++ (g_addr g :: flat_map gen_blocks below ++ other_blocks i st1)) ->
    d ∈ l -> d <> 0 -> (Z.to_nat axis < length dims)%nat -> dims = g_dims g ++ repeat 0 (S (Z.to_nat axis) - length (g_dims g)) ->
    safe E (deref d ;! if Nat.ltb (Z.to_nat axis) (length dims) then
        set_gens i (below ++ [mkGen (g_addr g) (g_len g) (Z.of_nat (length dims)) d (<[Z.to_nat axis := e]> dims)]) else wrong)
      (set_live l st1)
      (fun _ st' => inv F [] st' /\ spec_step (stack st) (CSetDim (v_key v) axis e) 0 (stack st'))) as Hset.
  { intros d dims l Hh Hdl Hdz Hax Hdims. apply safe_bind, deref_spec; [done|]. apply Nat.ltb_lt in Hax as Hax'. rewrite Hax'.
    rewrite <- (length_insert dims (Z.to_nat axis) e). eapply safe_mono.
    { apply (set_top_spec st1 i v below g d (<[Z.to_nat axis := e]> dims)); try done. split; [done|].
      intros Hn%(f_equal length). rewrite length_insert in Hn. simpl in Hn. lia. }
    intros _ st' [Hi' Hk]. split; [done|]. constructor. rewrite Hlast, Hrem. rewrite (proj2 (Z.ltb_ge _ _) Ha).
    unfold with_dim. simpl. rewrite <- Hdims. by eapply at_key_same. }
  pose proof (top_blocks _ _ _ _ _ Hi1 Hv Hg) as Hh. destruct (Z.leb_spec (g_rank g) axis) as [Hr|Hr].
  - apply safe_bind. apply holds_without in Hh as [Hp Hh]. apply realloc_spec; [done|done|intros; by eapply alloc_stops|].
    intros q Hq Hql. destruct (Z.eqb_spec q 0) as [|_]; [done|]. apply safe_ret. simpl.
    set (dims := g_dims g ++ _). assert (length dims = Z.to_nat (axis + 1)) as Hdl.
    { unfold dims. rewrite length_app, repeat_length. lia. }
    replace (axis + 1) with (Z.of_nat (length dims)) by lia. apply Hset; [|set_solver|done|lia|].
    + unfold block. destruct (Z.eqb_spec q 0); [done|]. by apply holds_alloc.
    + unfold dims. do 2 f_equal. lia.
  - apply safe_ret. simpl. rewrite <- Hlen, <- (set_live_id st1). apply Hset; [done| |lia|lia|].
    + rewrite <- Hlen in Hr. eapply dims_live; [done..|lia].
    + replace (S _ - _)%nat with 0%nat by lia. simpl. by rewrite app_nil_r.
Qed.

(** A popped buffer goes to the cache, the stale one is released. *)
Lemma put_cache st k a n l : inv F [a] st -> a <> 0 -> holds F l (a :: flat_map var_blocks (ctl_vars st)) ->
  inv F [] (set_cache k a n (set_live l st)).
Proof using Type.
  intros [Hk Hl Hv _] Ha Hh. split; try done. eapply holds_perm; [|exact Hh]. unfold table_blocks, block. simpl.
  destruct (Z.eqb_spec a 0); [done|]. solve_Permutation.
Qed.
Lemma release_spec k a n st (m : bool) : inv F [a] st ->
  safe E (if negb (ctl_cache_bytes st =? 0) then
            if m then plat_free a else plat_free (ctl_cache_bytes st) ;! modifyR (set_cache k a n)
          else modifyR (set_cache k a n)) st (fun _ st' => inv F [] st' /\ stack st' = stack st).
Proof using Type.
  intros Hi. pose proof (inv_take _ _ _ Hi) as Hh. destruct (inv_free F [] st a Hi) as (Ha & Hal & Hf).
  unfold table_blocks, block in Hh. destruct (Z.eqb_spec (ctl_cache_bytes st) 0) as [Hc|Hc]; simpl.
  - unfold safe, modifyR. split; [|done]. rewrite <- (set_live_id st). apply put_cache; [done|done|].
    by rewrite app_nil_r in Hh.
  - destruct m; [by apply free_spec|]. apply safe_bind.
    destruct (holds_free F (ctl_live st) (a :: flat_map var_blocks (ctl_vars st)) (ctl_cache_bytes st)) as (_ & Hcl & Hh').
    { eapply holds_perm; [|exact Hh]. solve_Permutation. }
    apply free_spec; [done|done|]. unfold safe, modifyR. split; [|done]. by apply put_cache.
Qed.

Lemma ctl_free_spec k st : inv F [] st -> (stack st k = [] -> E) ->
  safe E (pli_ctl_free_addr grow_ok k) st (fun r st' => inv F [] st' /\ spec_step (stack st) (CFree k) r (stack st')).
Proof using fresh HE.
  intros Hi Hfe. apply safe_bind. eapply safe_mono; [by apply top_spec|]. intros [[[i below] g]|] st1 (Hi1 & Hs & Ht).
  2: { apply safe_stop, Hfe. by rewrite <- (Hs k). }
  destruct Ht as (v & Hv & <- & Hg & [Hok Hl] & Hst). destruct (stack_last _ _ _ _ _ Hs Hst) as [Hlast Hrem].
  rewrite Hg in Hok, Hl. rewrite length_app in Hl. simpl in Hl. apply Forall_app in Hok as [Hb _].
  pose proof (top_blocks _ _ _ _ _ Hi1 Hv Hg) as Hh. apply holds_without in Hh as [Hp Hh]. apply safe_bind.
  assert (safe E (plat_free (g_dims_at g)) st1 (fun _ st' => st' = set_live (without (g_dims_at g) (live st1)) st1)) as Hfree.
  { unfold without. destruct (Z.eqb_spec (g_dims_at g) 0) as [->|Hd]; [by destruct st1|].
    apply free_spec; [done| |done]. by destruct Hp. }
  eapply safe_mono; [exact Hfree|]. clear Hfree. intros _ st2 ->. apply safe_bind. eapply safe_mono.
  { apply (set_gens_spec [] [g_addr g] st1 _ i v below); [done|done|done|lia|exact Hh]. }
  intros _ st3 (Hi3 & Ha & _). apply safe_get, safe_bind.
  eapply safe_mono with (Q := fun _ st' => inv F [] st' /\ stack st' = stack st3).
  { destruct (g_rank g =? 0); [by apply release_spec|]. destruct (inv_free F [] st3 _ Hi3) as (? & ? & ?). by apply free_spec. }
  intros _ st4 [Hi4 Hs4]. apply safe_ret. split; [done|].
  replace (addr_of (last below)) with (match last (removelast (stack st (v_key v))) with Some g => s_addr g | None => 0 end).
  2: { rewrite Hrem. change (map abs_gen below) with (abs_gen <$> below). rewrite fmap_last. by destruct (last below). }
  constructor; [intros Hn; by rewrite Hn in Hlast|]. rewrite Hs4, Hrem. by eapply at_key_same.
Qed.

Lemma ctl_ensure_spec k n st : inv F [] st ->
  safe E (pli_ctl_ensure malloc grow_ok k n ;! retR 0) st (fun r st' =>
    inv F [] st' /\ spec_step (stack st) (CEnsure k n) r (stack st')).
Proof using fresh HE.
  intros Hi. apply safe_bind, safe_bind. eapply safe_mono; [by apply top_spec|].
  intros [[[i below] g]|] st1 (Hi1 & Hs & Ht).
  - destruct Ht as (v & Hv & <- & Hg & _ & Hst). apply safe_ret, safe_ret. split; [done|].
    apply s_ensure_some; [|done]. rewrite <- (Hs _), Hst. by destruct (map _ below).
  - apply safe_bind. eapply safe_mono; [by apply ctl_alloc_spec|]. intros a st2 [Hi2 [a' Ha Hu Hk]].
    apply safe_ret, safe_ret. split; [done|]. apply (s_ensure_none _ _ _ a'); [by rewrite <- (Hs k)|].
    constructor; [done| |rewrite <- (Hs k); by eapply at_key_same].
    intros (k' & g & Hg & E'). apply Hu. exists k', g. by rewrite (Hs k').
Qed.

(** What a query reads is the top generation's. *)
Lemma of_top_spec k f h st : inv F [] st -> (forall g, gen_ok g -> f g = h (abs_gen g)) ->
  safe E (of_top grow_ok k f) st (fun r st' => inv F [] st' /\ same (stack st) (stack st') /\ r = top_of (stack st) k h).
Proof using fresh HE.
  intros Hi Hf. apply safe_bind. eapply safe_mono; [by apply top_spec|]. intros [[[i below] g]|] st1 (Hi1 & Hs & Ht).
  - destruct Ht as (v & Hv & <- & Hg & [Hok _] & Hst). destruct (stack_last _ _ _ _ _ Hs Hst) as [Hlast _].
    rewrite Hg in Hok. apply Forall_app in Hok as [_ Hok]. rewrite Forall_singleton in Hok.
    apply safe_ret. split_and!; [done|done|]. unfold top_of. rewrite Hlast. by apply Hf.
  - apply safe_ret. split_and!; [done|done|]. unfold top_of. by rewrite <- (Hs k), Ht.
Qed.
Lemma depth_spec k st : inv F [] st ->
  safe E (pli_ctl_depth grow_ok k) st (fun r st' => inv F [] st' /\ spec_step (stack st) (CDepth k) r (stack st')).
Proof using fresh HE.
  intros Hi. apply safe_bind. eapply safe_mono; [by apply find_spec|]. intros [i|] st1 (Hi1 & Hs & Ho).
  - destruct Ho as (v & Hv & <-). eapply var_at_spec; [done|]. apply safe_ret. split; [done|].
    pose proof (stack_at st1 i v (inv_keys _ _ _ Hi1) Hv) as Hst.
    replace (length (v_gens v)) with (length (stack st (v_key v))); [by constructor|].
    by rewrite <- (Hs _), Hst, length_map.
  - destruct Ho as [_ Ho]. apply safe_ret. split; [done|].
    change 0 with (Z.of_nat (length (@nil sgen))). rewrite <- Ho, (Hs k). by constructor.
Qed.
Lemma extent_spec k axis st : inv F [] st ->
  safe E (pli_ctl_extent grow_ok k axis) st (fun r st' => inv F [] st' /\ spec_step (stack st) (CExtent k axis) r (stack st')).
Proof using fresh HE.
  intros Hi. apply safe_bind. eapply safe_mono; [by apply top_spec|]. intros [[[i below] g]|] st1 (Hi1 & Hs & Ht).
  - destruct Ht as (v & Hv & <- & Hg & [Hok _] & Hst). destruct (stack_last _ _ _ _ _ Hs Hst) as [Hlast _].
    rewrite Hg in Hok. apply Forall_app in Hok as [_ Hok]. rewrite Forall_singleton in Hok.
    eapply safe_mono with (Q := fun r st' => inv F [] st' /\ same (stack st) (stack st') /\
      r = if axis <? 0 then 0 else default 0 (g_dims g !! Z.to_nat axis)).
    + destruct Hok as [Hlen Hd]. destruct (Z.ltb_spec axis 0) as [Ha|Ha]; [by apply safe_ret|].
      destruct (Z.leb_spec (g_rank g) axis) as [Hr|Hr]; simpl.
      { apply safe_ret. split_and!; [done|done|]. by rewrite lookup_ge_None_2 by lia. }
      apply safe_bind, deref_spec; [eapply dims_live; [done..|lia]|].
      destruct (lookup_lt_is_Some_2 (g_dims g) (Z.to_nat axis)) as [e He]; [lia|]. rewrite He. by apply safe_ret.
    + intros r st2 (Hi2 & Hs2 & ->). split; [done|].
      replace (if axis <? 0 then _ else _) with
        (top_of (stack st) (v_key v) (fun g => if axis <? 0 then 0 else default 0 (s_dims g !! Z.to_nat axis))); [by constructor|].
      unfold top_of. by rewrite Hlast.
  - apply safe_ret. split; [done|].
    replace 0 with (top_of (stack st) k (fun g => if axis <? 0 then 0 else default 0 (s_dims g !! Z.to_nat axis))) at 1; [by constructor|].
    unfold top_of. by rewrite <- (Hs k), Ht.
Qed.

End Ops.

(** ** Whole programs *)
Section Programs.
Context (malloc : allocator) (grow_ok : Z -> bool) (fresh : allocates_fresh malloc) (F : gset Z).
Context (E : Prop) (HE : refused malloc grow_ok -> E).

Lemma call_spec c st : inv F [] st -> (forall k, c = CFree k -> stack st k = [] -> E) ->
  safe E (run_call malloc grow_ok c) st (fun r st' => inv F [] st' /\ spec_step (stack st) c r (stack st')).
Proof using fresh HE.
  intros Hi Hf. destruct c as [k n|k n rank|k axis e|k|k n|k|k|k|k|k axis]; simpl.
  - eapply safe_mono; [by eapply ctl_alloc_spec|]. intros a st' []. by split; [|constructor].
  - eapply safe_mono; [by eapply ctl_alloc_dims_spec|]. intros a st' []. by split; [|constructor].
  - apply safe_bind. eapply safe_mono; [by eapply ctl_set_dim_spec|]. intros _ st' []. by apply safe_ret.
  - eapply ctl_free_spec; [done..|]. by apply Hf.
  - by eapply ctl_ensure_spec.
  - eapply safe_mono; [by eapply of_top_spec with (h := s_addr)|]. intros r st' (? & ? & ->). by split; [|constructor].
  - eapply safe_mono; [by eapply of_top_spec with (h := s_len)|]. intros r st' (? & ? & ->). by split; [|constructor].
  - by eapply depth_spec.
  - eapply safe_mono; [apply (of_top_spec malloc grow_ok fresh F E HE k g_rank (fun g => Z.of_nat (length (s_dims g)))); [done|by intros g []]|].
    intros r st' (? & ? & ->). by split; [|constructor].
  - by eapply extent_spec.
Qed.
End Programs.

Lemma run_spec malloc grow_ok F cs : allocates_fresh malloc -> forall st, inv F [] st ->
  safe (refused malloc grow_ok \/ frees_empty (stack st) cs) (run_calls malloc grow_ok cs) st
    (fun rs st' => inv F [] st' /\ spec_run (stack st) cs rs (stack st')).
Proof.
  intros fresh. induction cs as [|c cs IH]; intros st Hi; [apply safe_ret; split; [done|constructor]|].
  pose proof (call_spec malloc grow_ok fresh F (refused malloc grow_ok \/ frees_empty (stack st) (c :: cs))
    ltac:(auto) c st Hi) as Hc. simpl.
  apply safe_bind. eapply safe_mono; [apply Hc|].
  { intros k -> Hk. right. by constructor. }
  intros r st1 [Hi1 Hs]. specialize (IH st1 Hi1). unfold safe, bindR in *.
  destruct (run_calls _ _ cs st1) as [rs st2|msg|]; [|destruct IH; [by left|right; by eapply frees_later]|done].
  destruct IH as [Hi2 Hr]. split; [done|by econstructor].
Qed.

(** The table a task starts with, beside the blocks [F] that other code owns. *)
Definition ctl_init (F : gset Z) : ctl := mkCtl F [] None 0 0 0.
Lemma ctl_inv_init F : inv F [] (ctl_init F).
Proof.
  split; [constructor|done|constructor|]. split_and!; [constructor|set_solver|]. simpl. set_solver.
Qed.

(** C21: CONTROLLED storage implements generation stacks.  Whatever sequence of runtime
    calls a task makes, with any allocator that hands out fresh blocks, no call frees a
    block twice, touches a freed descriptor or stores past an array: every answer is the
    one of the specification, in which each variable has a stack of generations and an
    ALLOCATE's address is that of no other live generation (so neither the cached buffer
    nor the table's reuse of its slots is visible).  The table owns each of its blocks
    once, and no block is lost: the live blocks are the generations, their descriptors,
    the one cached buffer, and what other code owns.  The program stops only when memory
    runs out or when it frees a variable that has no generation. *)
Theorem ctl_refines malloc grow_ok F cs : allocates_fresh malloc ->
  match run_calls malloc grow_ok cs (ctl_init F) with
  | Done rs st => spec_run (fun _ => []) cs rs (stack st) /\ holds F (live st) (table_blocks st)
  | Stopped _ => refused malloc grow_ok \/ frees_empty (fun _ => []) cs
  | Wrong => False
  end.
Proof.
  intros fresh. pose proof (run_spec malloc grow_ok F cs fresh (ctl_init F) (ctl_inv_init F)) as H. unfold safe in H.
  destruct (run_calls _ _ _ _) as [rs st|msg|]; [|exact H..].
  destruct H as [Hi Hr]. split; [exact Hr|]. exact (inv_take F [] st Hi).
Qed.

Lemma ctl_refines_witness :
  match run_calls bump (fun _ => true)
    [CAlloc 7 10; CAllocDims 7 24 2; CSetDim 7 1 3; CExtent 7 1; CRank 7; CFree 7; CFree 7; CAlloc 8 10; CAlloc 7 10; CAlloc 7 4; CDepth 7]
    (ctl_init {[5]}) with
  | Done rs st => rs = [6; 7; 0; 3; 2; 6; 0; 7; 6; 8; 2] /\ holds {[5]} (live st) (table_blocks st)
  | _ => False
  end.
Proof.
  pose proof (ctl_refines bump (fun _ => true) {[5]}
    [CAlloc 7 10; CAllocDims 7 24 2; CSetDim 7 1 3; CExtent 7 1; CRank 7; CFree 7; CFree 7; CAlloc 8 10; CAlloc 7 10; CAlloc 7 4; CDepth 7]
    bump_fresh) as H.
  revert H. vm_compute. intros [_ H]. split; [reflexivity|exact H].
Defined.

(** A query writes the lookup cache, though the compiler declares it as reading only. *)
Lemma reader_writes_table : exists st r st',
  pli_ctl_len (fun _ => true) 1 st = Done r st' /\ ctl_last st' <> ctl_last st.
Proof.
  exists (mkCtl ∅ [mkVar 2 [] 0; mkVar 1 [] 0] (Some 0%nat) 0 0 0). do 2 eexists. split; [vm_compute; done|done].
Qed.
(** [pli_ctl_free_addr] ends the program on an empty stack, though the compiler declares
    that it returns. *)
Lemma free_addr_may_stop grow_ok k F : exists msg, pli_ctl_free_addr grow_ok k (ctl_init F) = Stopped msg.
Proof. by eexists. Qed.
