(* ===== verification/Area.v ===== *)
(** * AREA storage ([runtime/rt_storage.c], [pli_area_*])

    A region for BASED allocation: a header with its size and the bytes handed out,
    and a linked list of the live blocks through the blocks' own headers.  The model
    keeps the pointers: a load or store needs a live object, a walk has fuel, and both
    a bad access and a walk that does not end are [Wrong].  Lengths are 64-bit with
    their wrap-around; addresses are integers. *)
From S2P Require Import Prelude Heap OnStack.

Record PliBlock := mkBlock { b_size : Z; b_next : Z }.
Record PliArea := mkArea { a_size : Z; a_used : Z; a_blocks : Z }.

(** The heap, the STATIC areas' slots (0 when unset) and the running task's ON state. *)
Record mem := mkMem {
  m_live : gset Z; m_areas : gmap Z PliArea; m_blocks : gmap Z PliBlock;
  m_slots : gmap Z Z; m_on : pli_task_local }.
Definition set_areas (f : gmap Z PliArea -> gmap Z PliArea) (m : mem) : mem :=
  mkMem (m_live m) (f (m_areas m)) (m_blocks m) (m_slots m) (m_on m).
Definition set_blocks (f : gmap Z PliBlock -> gmap Z PliBlock) (m : mem) : mem :=
  mkMem (m_live m) (m_areas m) (f (m_blocks m)) (m_slots m) (m_on m).
Definition set_slot (s a : Z) (m : mem) : mem :=
  mkMem (m_live m) (m_areas m) (m_blocks m) (<[s := a]> (m_slots m)) (m_on m).
#[global] Instance mem_heap : HasHeap mem :=
  {| live := m_live; set_live l m := mkMem l (m_areas m) (m_blocks m) (m_slots m) (m_on m) |}.

Definition RT_AREA_KEY : Z := -7.
(** [sizeof(PliArea)], [sizeof(PliBlock)] *)
Definition area_bytes : Z := 24.
Definition hdr : Z := 16.

(** The ON-unit a raised condition calls, last: its address and its context. *)
Definition raised : Type := option (Z * Z).

Section Area.
Context (malloc : allocator).

Definition load_area (a : Z) : R mem PliArea :=
  let! o := getR (fun m => m_areas m !! a) in match o with Some x => retR x | None => wrong end.
Definition store_area (a : Z) (x : PliArea) : R mem unit :=
  load_area a ;! modifyR (set_areas (insert a x)).
Definition load_block (b : Z) : R mem PliBlock :=
  let! o := getR (fun m => m_blocks m !! b) in match o with Some x => retR x | None => wrong end.
Definition store_block (b : Z) (x : PliBlock) : R mem unit :=
  load_block b ;! modifyR (set_blocks (insert b x)).
Definition free_area (a : Z) : R mem unit := plat_free a ;! modifyR (set_areas (delete a)).
Definition free_block (b : Z) : R mem unit := plat_free b ;! modifyR (set_blocks (delete b)).

Definition rt_area_raise (msg : text) : R mem raised :=
  let! st := getR m_on in
  let (h, ctx) := pli_on_top_fn_pair RT_AREA_KEY st in
  if h =? 0 then stop msg else retR (Some (h, ctx)).

Definition pli_area_create (n : Z) : R mem Z :=
  let! a := plat_malloc malloc area_bytes in
  if a =? 0 then stop (txt "AREA: out of memory")
  else modifyR (set_areas (insert a (mkArea (if 0 <? n then n else 0) 0 0))) ;! retR a.

Definition pli_area_lazy (slotp n : Z) : R mem Z :=
  let! a := getR (fun m => default 0 (m_slots m !! slotp)) in
  if a =? 0 then let! a := pli_area_create n in modifyR (set_slot slotp a) ;! retR a
  else retR a.

(** The walks' fuel: no list is longer than the blocks that are live. *)
Definition walk_fuel : R mem nat := getR (fun m => S (size (live m))).

Fixpoint destroy_blocks (fuel : nat) (b : Z) : R mem unit :=
  match fuel with
  | O => wrong
  | S fuel =>
      if b =? 0 then retR tt
      else let! x := load_block b in free_block b ;! destroy_blocks fuel (b_next x)
  end.
Definition pli_area_destroy (ap : Z) : R mem unit :=
  if ap =? 0 then retR tt
  else
    let! a := load_area ap in
    let! fuel := walk_fuel in
    destroy_blocks fuel (a_blocks a) ;! free_area ap.

Definition pli_area_alloc (ap n : Z) : R mem (Z * raised) :=
  if ap =? 0 then
    let! r := rt_area_raise (txt "AREA: allocation from a null area") in retR (0, r)
  else
    let! a := load_area ap in
    let need := if n <? 0 then 0 else n in
    if i64 (i64 (a_size a - a_used a) - hdr) <? need then
      let! r := rt_area_raise (txt "AREA: area overflow") in retR (0, r)
    else
      let! b := plat_malloc malloc (u64 (need + hdr)) in
      if b =? 0 then stop (txt "AREA: out of memory")
      else
        modifyR (set_blocks (insert b (mkBlock need (a_blocks a)))) ;!
        store_area ap (mkArea (a_size a) (i64 (a_used a + i64 (need + hdr))) b) ;!
        retR (b + hdr, None).

Fixpoint owns_block (fuel : nat) (live b : Z) : R mem bool :=
  match fuel with
  | O => wrong
  | S fuel =>
      if live =? 0 then retR false
      else if live =? b then retR true
      else let! x := load_block live in owns_block fuel (b_next x) b
  end.
Definition pli_area_offset (ap p : Z) : R mem (Z * raised) :=
  if p =? 0 then retR (0, None)
  else if ap =? 0 then
    let! r := rt_area_raise (txt "AREA: OFFSET of a pointer with a null area") in retR (p, r)
  else
    let! a := load_area ap in
    let! fuel := walk_fuel in
    let! own := owns_block fuel (a_blocks a) (p - hdr) in
    if own then retR (p, None)
    else let! r := rt_area_raise (txt "AREA: OFFSET of a pointer not allocated in this area") in retR (p, r).

(** [PliBlock **link]: the head of the list, or the [next] of a block. *)
Inductive link := Head (a : Z) | Next (b : Z).
Definition load_link (l : link) : R mem Z :=
  match l with
  | Head a => let! x := load_area a in retR (a_blocks x)
  | Next b => let! x := load_block b in retR (b_next x)
  end.
Definition store_link (l : link) (p : Z) : R mem unit :=
  match l with
  | Head a => let! x := load_area a in store_area a (mkArea (a_size x) (a_used x) p)
  | Next b => let! x := load_block b in store_block b (mkBlock (b_size x) p)
  end.
Fixpoint find_link (fuel : nat) (l : link) (b : Z) : R mem link :=
  match fuel with
  | O => wrong
  | S fuel =>
      let! cur := load_link l in
      if negb (cur =? 0) && negb (cur =? b) then find_link fuel (Next cur) b else retR l
  end.

Definition pli_area_free (ap p : Z) : R mem raised :=
  if p =? 0 then retR None
  else
    let b := p - hdr in
    if ap =? 0 then rt_area_raise (txt "AREA: FREE through a null area")
    else
      let! fuel := walk_fuel in
      let! l := find_link fuel (Head ap) b in
      let! cur := load_link l in
      if cur =? 0 then rt_area_raise (txt "AREA: FREE of a pointer not allocated in this area")
      else
        let! x := load_block b in
        store_link l (b_next x) ;!
        let! a := load_area ap in
        let! x := load_block b in
        store_area ap (mkArea (a_size a) (i64 (a_used a - i64 (b_size x + hdr))) (a_blocks a)) ;!
        free_block b ;! retR None.

(** A program: the next call depends on what the earlier ones returned. *)
Inductive area_op :=
| ACreate (n : Z) | ALazy (slotp n : Z) | ADestroy (a : Z)
| AAlloc (a n : Z) | AOffset (a p : Z) | AFree (a p : Z).
Inductive prog := Halt | Op (o : area_op) (k : Z * raised -> prog).
Definition run_op (o : area_op) : R mem (Z * raised) :=
  match o with
  | ACreate n => let! a := pli_area_create n in retR (a, None)
  | ALazy s n => let! a := pli_area_lazy s n in retR (a, None)
  | ADestroy a => pli_area_destroy a ;! retR (0, None)
  | AAlloc a n => pli_area_alloc a n
  | AOffset a p => pli_area_offset a p
  | AFree a p => let! r := pli_area_free a p in retR (0, r)
  end.
Fixpoint run_prog (p : prog) : R mem (list (Z * raised)) :=
  match p with
  | Halt => retR []
  | Op o k => let! r := run_op o in let! rs := run_prog (k r) in retR (r :: rs)
  end.
End Area.
