(* ===== verification/AreaThms.v ===== *)
(** * Areas, against regions with a budget

    The specification: a region has a capacity and the generations it handed out,
    each with its length, the newest first.  The refinement says the linked lists and
    counters implement it; the invariant that no block is freed twice or lost. *)
From S2P Require Import Prelude Heap OnStack Area.

(** ** The specification *)
Record region := mkRegion { cap : Z; held : list (Z * Z) }.
Record spec := mkSpec { regions : gmap Z region; slots : gmap Z Z }.

Definition charged (l : list (Z * Z)) : Z := foldr (fun e n => e.2 + hdr + n) 0 l.
Definition on_pointer (s : spec) (a p : Z) : bool :=
  match regions s !! a with Some x => bool_decide (p ∈ (held x).*1) | None => false end.
(** The operation raises the AREA condition. *)
Definition raises (s : spec) (o : area_op) : bool :=
  match o with
  | AAlloc a n => match regions s !! a with Some x => cap x - charged (held x) - hdr <? Z.max n 0 | None => true end
  | AOffset a p | AFree a p => negb (p =? 0) && negb (on_pointer s a p)
  | _ => false
  end.
Definition value_on_raise (o : area_op) : Z := match o with AOffset _ p => p | _ => 0 end.
(** The handle is a region's, or null; lengths are 64-bit integers. *)
Definition handle (s : spec) (a : Z) : Prop := a = 0 \/ is_Some (regions s !! a).
Definition proper (s : spec) (o : area_op) : Prop :=
  match o with
  | ACreate n | ALazy _ n => srange 64 n
  | ADestroy a => handle s a
  | AAlloc a n => handle s a /\ srange 64 n
  | AOffset a p | AFree a p => handle s a
  end.
Definition in_use (s : spec) (p : Z) : Prop := exists a x, regions s !! a = Some x /\ p ∈ (held x).*1.
Definition with_region (a : Z) (x : region) (s : spec) : spec := mkSpec (<[a := x]> (regions s)) (slots s).

Inductive spec_step (u : raised) (s : spec) : area_op -> Z * raised -> spec -> Prop :=
| a_raise o : raises s o = true -> u <> None -> spec_step u s o (value_on_raise o, u) s
| a_create n a : a <> 0 -> regions s !! a = None ->
    spec_step u s (ACreate n) (a, None) (with_region a (mkRegion (Z.max n 0) []) s)
| a_lazy_set i n a : slots s !! i = Some a -> a <> 0 -> spec_step u s (ALazy i n) (a, None) s
| a_lazy_unset i n a : default 0 (slots s !! i) = 0 -> a <> 0 -> regions s !! a = None ->
    spec_step u s (ALazy i n) (a, None)
      (mkSpec (<[a := mkRegion (Z.max n 0) []]> (regions s)) (<[i := a]> (slots s)))
| a_destroy a : spec_step u s (ADestroy a) (0, None) (if a =? 0 then s else mkSpec (delete a (regions s)) (slots s))
| a_alloc a n x p : raises s (AAlloc a n) = false -> regions s !! a = Some x -> p <> 0 -> ~ in_use s p ->
    spec_step u s (AAlloc a n) (p, None) (with_region a (mkRegion (cap x) ((p, Z.max n 0) :: held x)) s)
| a_offset a p : raises s (AOffset a p) = false -> spec_step u s (AOffset a p) (p, None) s
| a_free_null a : spec_step u s (AFree a 0) (0, None) s
| a_free a p x : p <> 0 -> regions s !! a = Some x -> p ∈ (held x).*1 ->
    spec_step u s (AFree a p) (0, None)
      (with_region a (mkRegion (cap x) (filter (fun e => e.1 <> p) (held x))) s).

Inductive spec_run (u : raised) : spec -> prog -> list (Z * raised) -> spec -> Prop :=
| run_halt s : spec_run u s Halt [] s
| run_op_then s o k r s1 rs s2 : spec_step u s o r s1 -> spec_run u s1 (k r) rs s2 ->
    spec_run u s (Op o k) (r :: rs) s2.
(** Whatever the addresses it is given, the program uses handles of live areas only. *)
Fixpoint proper_prog (u : raised) (s : spec) (p : prog) : Prop :=
  match p with
  | Halt => True
  | Op o k => proper s o /\ forall r s', spec_step u s o r s' -> proper_prog u s' (k r)
  end.
(** Some operation of a run raises. *)
Inductive run_raises (u : raised) : spec -> prog -> Prop :=
| raises_here s o k : raises s o = true -> run_raises u s (Op o k)
| raises_later s o k r s1 : spec_step u s o r s1 -> run_raises u s1 (k r) -> run_raises u s (Op o k).

(** The unit the AREA condition runs. *)
Definition area_unit (on : pli_task_local) : raised :=
  let (h, ctx) := pli_on_top_fn_pair RT_AREA_KEY on in if h =? 0 then None else Some (h, ctx).

(** ** The linked list of a region *)
Fixpoint chain (m : gmap Z PliBlock) (p : Z) (l : list (Z * Z)) : Prop :=
  match l with
  | [] => p = 0
  | (q, n) :: l => p <> 0 /\ q = p + hdr /\ exists nx, m !! p = Some (mkBlock n nx) /\ chain m nx l
  end.
Definition addrs (l : list (Z * Z)) : list Z := map (fun e => e.1 - hdr) l.

Lemma chain_frame m m' p l : chain m p l -> (forall b, b ∈ addrs l -> m' !! b = m !! b) -> chain m' p l.
Proof.
  revert p. induction l as [|[q n] l IH]; intros p; simpl; [done|]. intros (Hp & -> & nx & Hm & Hc) Hf.
  split_and!; [done|done|]. exists nx. split; [|apply IH; [done|set_solver]].
  rewrite Hf; [done|]. apply elem_of_cons. left. lia.
Qed.
Lemma chain_app m p l1 q n l2 : chain m p (l1 ++ (q, n) :: l2) ->
  exists nx, m !! (q - hdr) = Some (mkBlock n nx) /\ chain m nx l2 /\ q - hdr <> 0.
Proof.
  revert p. induction l1 as [|[q1 n1] l1 IH]; intros p; simpl.
  - intros (Hp & -> & nx & Hm & Hc). exists nx. by replace (p + hdr - hdr) with p by lia.
  - intros (_ & _ & nx & _ & Hc). by eapply IH.
Qed.
Lemma addrs_elem p l : p ∈ l.*1 <-> p - hdr ∈ addrs l.
Proof.
  unfold addrs. rewrite !list_elem_of_fmap. split.
  - intros (e & -> & He). by exists e.
  - intros (e & E & He). exists e. split; [lia|done].
Qed.
Lemma addrs_app l l' : addrs (l ++ l') = addrs l ++ addrs l'.
Proof. apply map_app. Qed.
Lemma charged_app l l' : charged (l ++ l') = charged l + charged l'.
Proof. unfold charged. induction l; simpl; lia. Qed.
Lemma charged_pos l : Forall (fun e => 0 <= e.2) l -> 0 <= charged l.
Proof. unfold charged, hdr. induction 1; simpl in *; lia. Qed.

(** ** The walks *)
Lemma load_block_ok b x m : m_blocks m !! b = Some x -> load_block b m = Done x m.
Proof. intros H. unfold load_block, bindR, getR. by rewrite H. Qed.
Lemma load_area_ok a x m : m_areas m !! a = Some x -> load_area a m = Done x m.
Proof. intros H. unfold load_area, bindR, getR. by rewrite H. Qed.
Lemma load_area_spec {B} E a x m (f : PliArea -> R mem B) Q :
  m_areas m !! a = Some x -> safe E (f x) m Q -> safe E (let! x := load_area a in f x) m Q.
Proof. intros H HQ. apply safe_bind. unfold safe at 1. by rewrite (load_area_ok _ _ _ H). Qed.
Lemma load_block_spec {B} E b x m (f : PliBlock -> R mem B) Q :
  m_blocks m !! b = Some x -> safe E (f x) m Q -> safe E (let! x := load_block b in f x) m Q.
Proof. intros H HQ. apply safe_bind. unfold safe at 1. by rewrite (load_block_ok _ _ _ H). Qed.
Lemma done_spec {A B} E (e : R mem A) x m m' (f : A -> R mem B) Q :
  e m = Done x m' -> safe E (f x) m' Q -> safe E (let! x := e in f x) m Q.
Proof. intros H HQ. apply safe_bind. unfold safe at 1. by rewrite H. Qed.
Lemma owns_ok b m l : forall fuel p, chain (m_blocks m) p l -> (length l < fuel)%nat ->
  owns_block fuel p b m = Done (bool_decide (b + hdr ∈ l.*1)) m.
Proof.
  induction l as [|[q n] l IH]; intros [|fuel] p Hc Hf; simpl in *; try lia.
  - rewrite Hc. done.
  - destruct Hc as (Hp & -> & nx & Hm & Hc). destruct (Z.eqb_spec p 0); [done|].
    destruct (Z.eqb_spec p b) as [->|Hb].
    + rewrite bool_decide_true; [done|]. set_solver.
    + unfold bindR. rewrite (load_block_ok _ _ _ Hm), IH by (done || lia). f_equal.
      apply bool_decide_ext. rewrite elem_of_cons. split; [auto|]. intros [|]; [lia|done].
Qed.

Definition link_after (lk : link) (l1 : list (Z * Z)) : link :=
  match last l1 with Some e => Next (e.1 - hdr) | None => lk end.
Lemma find_link_ok b m l : forall fuel lk p, load_link lk m = Done p m -> chain (m_blocks m) p l -> (length l < fuel)%nat ->
  exists lk', find_link fuel lk b m = Done lk' m /\
  ((b + hdr ∉ l.*1 /\ load_link lk' m = Done 0 m) \/
   (exists l1 n l2, l = l1 ++ (b + hdr, n) :: l2 /\ lk' = link_after lk l1 /\ load_link lk' m = Done b m)).
Proof.
  induction l as [|[q n] l IH]; intros [|fuel] lk p Hl Hc Hf; simpl in *; try lia; unfold bindR; rewrite Hl.
  - rewrite Hc. simpl. exists lk. split; [done|]. left. rewrite Hl, Hc. set_solver.
  - destruct Hc as (Hp & -> & nx & Hm & Hc). destruct (Z.eqb_spec p 0); [done|]. simpl.
    destruct (Z.eqb_spec p b) as [->|Hb]; simpl.
    + exists lk. split; [done|]. right. by exists [], n, l.
    + destruct (IH fuel (Next p) nx) as (lk' & Hfind & H); [|done|lia|].
      { simpl. unfold bindR. by rewrite (load_block_ok _ _ _ Hm). }
      exists lk'. split; [done|]. destruct H as [[Hn Hl']|(l1 & n1 & l2 & -> & -> & Hl')]; [left|right].
      * split; [|done]. rewrite not_elem_of_cons. split; [lia|done].
      * exists ((p + hdr, n) :: l1), n1, l2. split_and!; [done| |done].
        unfold link_after. rewrite last_cons. destruct (last l1); simpl; [done|]. f_equal. lia.
Qed.

(** Nothing but the heap and the lists differ. *)
Definition keeps (m m' : mem) : Prop := m_slots m' = m_slots m /\ m_on m' = m_on m.

Lemma chain_unlink m p l1 c nc q n l2 nx : chain m p (l1 ++ (c, nc) :: (q, n) :: l2) ->
  NoDup (addrs (l1 ++ (c, nc) :: (q, n) :: l2)) -> m !! (q - hdr) = Some (mkBlock n nx) ->
  chain (<[c - hdr := mkBlock nc nx]> m) p (l1 ++ (c, nc) :: l2).
Proof.
  revert p. induction l1 as [|[q1 n1] l1 IH]; intros p; simpl.
  - intros (Hp & -> & nx1 & Hm & Hp1 & -> & nx2 & Hm2 & Hc) Hn Hq. replace (nx1 + hdr - hdr) with nx1 in * by lia.
    replace (p + hdr - hdr) with p in * by lia. assert (nx2 = nx) as -> by congruence.
    split_and!; [done|done|]. exists nx. rewrite lookup_insert_eq. split; [done|].
    eapply chain_frame; [exact Hc|]. intros b Hb. rewrite lookup_insert_ne; [done|].
    intros <-. apply NoDup_cons in Hn as [Hn _]. set_solver.
  - intros (Hp & -> & nx1 & Hm & Hc) [Hn Hnd]%NoDup_cons Hq. split_and!; [done|done|]. exists nx1.
    split; [|by apply IH]. rewrite lookup_insert_ne; [done|]. replace (p + hdr - hdr) with p in Hn by lia.
    intros <-. apply Hn. rewrite addrs_app. simpl. set_solver.
Qed.

Lemma store_link_ok m a ar l1 q n l2 nx : m_areas m !! a = Some ar ->
  chain (m_blocks m) (a_blocks ar) (l1 ++ (q, n) :: l2) -> NoDup (addrs (l1 ++ (q, n) :: l2)) ->
  m_blocks m !! (q - hdr) = Some (mkBlock n nx) ->
  exists m' ar', store_link (link_after (Head a) l1) nx m = Done tt m' /\ live m' = live m /\ keeps m m' /\
    m_areas m' = <[a := ar']> (m_areas m) /\ a_size ar' = a_size ar /\ a_used ar' = a_used ar /\
    chain (m_blocks m') (a_blocks ar') (l1 ++ l2) /\ (forall b, b ∉ addrs l1 -> m_blocks m' !! b = m_blocks m !! b).
Proof.
  intros Ha Hc Hn Hq. destruct l1 as [|[c nc] l1 _] using rev_ind.
  - exists (set_areas (insert a (mkArea (a_size ar) (a_used ar) nx)) m), (mkArea (a_size ar) (a_used ar) nx).
    split_and!; try done.
    + unfold link_after, store_link, store_area, bindR. simpl. by rewrite !(load_area_ok _ _ _ Ha).
    + simpl in *. destruct Hc as (_ & -> & nx' & Hm & Hc). replace (a_blocks ar + hdr - hdr) with (a_blocks ar) in Hq by lia.
      by assert (nx' = nx) as -> by congruence.
  - rewrite <- (assoc_L (++)) in Hc, Hn. simpl in Hc, Hn. destruct (chain_app _ _ _ _ _ _ Hc) as (nx' & Hm & _).
    exists (set_blocks (insert (c - hdr) (mkBlock nc nx)) m), ar. split_and!; try done.
    + unfold link_after. rewrite last_snoc. unfold store_link, store_block, bindR. simpl.
      by rewrite !(load_block_ok _ _ _ Hm).
    + simpl. by rewrite insert_id.
    + rewrite <- (assoc_L (++)). simpl. by eapply chain_unlink.
    + intros b Hb. simpl. rewrite lookup_insert_ne; [done|]. rewrite addrs_app in Hb. simpl in Hb. set_solver.
Qed.

Lemma free_block_ok F b o m : holds F (live m) (b :: o) -> exists m', free_block b m = Done tt m' /\
  holds F (live m') o /\ keeps m m' /\ m_areas m' = m_areas m /\ m_blocks m' = delete b (m_blocks m).
Proof.
  intros (Hb & Hl & Hh)%holds_free. exists (set_blocks (delete b) (set_live (live m ∖ {[b]}) m)). split; [|done].
  unfold free_block, plat_free, bindR. destruct (Z.eqb_spec b 0); [done|]. by rewrite decide_True.
Qed.
Lemma destroy_ok F o l : forall fuel p m, chain (m_blocks m) p l -> (length l < fuel)%nat ->
  holds F (live m) (addrs l ++ o) -> exists m', destroy_blocks fuel p m = Done tt m' /\
  holds F (live m') o /\ keeps m m' /\ m_areas m' = m_areas m /\ (forall b, b ∉ addrs l -> m_blocks m' !! b = m_blocks m !! b).
Proof.
  induction l as [|[q n] l IH]; intros [|fuel] p m Hc Hf Hh; simpl in *; try lia.
  - exists m. rewrite Hc. done.
  - destruct Hc as (Hp & -> & nx & Hm & Hc). replace (p + hdr - hdr) with p in * by lia.
    destruct (free_block_ok F p (addrs l ++ o) m Hh) as (m1 & Hfree & Hh1 & [Hs1 Ho1] & Ha1 & Hb1).
    assert (p ∉ addrs l) as Hpl by (destruct Hh as [Hn _]; apply NoDup_cons in Hn; set_solver).
    destruct (IH fuel nx m1) as (m2 & Hd & Hh2 & [Hs2 Ho2] & Ha2 & Hb2); [|lia|done|].
    { eapply chain_frame; [exact Hc|]. intros b Hb. rewrite Hb1, lookup_delete_ne; [done|]. by intros ->. }
    exists m2. split_and!; [|done|split; congruence|congruence|].
    + destruct (Z.eqb_spec p 0); [done|]. unfold bindR. rewrite (load_block_ok _ _ _ Hm), Hfree. exact Hd.
    + intros b [Hb Hbl]%not_elem_of_cons. rewrite Hb2, Hb1, lookup_delete_ne by done. done.
Qed.

(** ** The representation *)
Definition region_blocks (e : Z * region) : list Z := e.1 :: addrs (held e.2).
Definition owned (rs : gmap Z region) : list Z := flat_map region_blocks (map_to_list rs).

Record area_ok (m : gmap Z PliBlock) (ar : PliArea) (x : region) : Prop := {
  ok_size : a_size ar = cap x; ok_cap : 0 <= cap x < 2 ^ 63;
  ok_used : a_used ar = charged (held x); ok_fits : charged (held x) <= cap x;
  ok_pos : Forall (fun e => 0 <= e.2) (held x); ok_chain : chain m (a_blocks ar) (held x) }.
Definition represents (m : mem) (s : spec) : Prop := forall a,
  match m_areas m !! a, regions s !! a with
  | Some ar, Some x => area_ok (m_blocks m) ar x
  | None, None => True
  | _, _ => False
  end.
Record inv (F : gset Z) (on : pli_task_local) (m : mem) (s : spec) : Prop := {
  inv_areas : represents m s;
  inv_slots : m_slots m = slots s;
  inv_on : m_on m = on;
  inv_heap : holds F (live m) (owned (regions s)) }.

Lemma owned_insert rs a x : rs !! a = None -> owned (<[a := x]> rs) ≡ₚ region_blocks (a, x) ++ owned rs.
Proof. intros H. apply (flat_map_perm region_blocks _ ((a, x) :: map_to_list rs)). by apply map_to_list_insert. Qed.
Lemma owned_update rs a x : owned (<[a := x]> rs) ≡ₚ region_blocks (a, x) ++ owned (delete a rs).
Proof. rewrite <- insert_delete_eq. apply owned_insert, lookup_delete_eq. Qed.
Lemma owned_at rs a x : rs !! a = Some x -> owned rs ≡ₚ region_blocks (a, x) ++ owned (delete a rs).
Proof. intros H. rewrite <- owned_update. by rewrite insert_id. Qed.
Lemma owned_elem rs a x b : rs !! a = Some x -> b ∈ region_blocks (a, x) -> b ∈ owned rs.
Proof. intros H Hb. rewrite (owned_at _ _ _ H). set_solver. Qed.

(** One region changes, the others' blocks do not. *)
Lemma represents_update F on m m' s a x ar : inv F on m s -> m_areas m' = <[a := ar]> (m_areas m) ->
  area_ok (m_blocks m') ar x -> (forall b, b ∈ owned (delete a (regions s)) -> m_blocks m' !! b = m_blocks m !! b) ->
  represents m' (with_region a x s).
Proof.
  intros [Ha _ _ _] Hm Hok Hb a'. rewrite Hm. simpl. destruct (decide (a' = a)) as [->|Hne]; [by rewrite !lookup_insert_eq|].
  rewrite !lookup_insert_ne by done. specialize (Ha a'). destruct (m_areas m !! a') as [ar'|]; [|done].
  destruct (regions s !! a') as [x'|] eqn:Ex; [|done]. destruct Ha. split; try done.
  eapply chain_frame; [done|]. intros b Hbl. apply Hb. eapply (owned_elem _ a' x'); [by rewrite lookup_delete_ne|].
  by apply elem_of_cons; right.
Qed.
Lemma inv_region F on m s a x : inv F on m s -> regions s !! a = Some x ->
  exists ar, m_areas m !! a = Some ar /\ area_ok (m_blocks m) ar x.
Proof.
  intros [Ha _ _ _] Hx. specialize (Ha a). rewrite Hx in Ha. destruct (m_areas m !! a) as [ar|]; [eauto|done].
Qed.
Lemma region_holds F on m s a x : inv F on m s -> regions s !! a = Some x ->
  holds F (live m) (a :: addrs (held x) ++ owned (delete a (regions s))).
Proof. intros Hi Hx. eapply holds_perm; [|by eapply inv_heap]. by rewrite (owned_at _ _ _ Hx). Qed.

(** A region's list is shorter than the fuel of its walks. *)
Lemma fuel_enough F on m s a x : inv F on m s -> regions s !! a = Some x ->
  (length (held x) < S (size (live m)))%nat.
Proof.
  intros Hi Hx. destruct (region_holds _ _ _ _ _ _ Hi Hx) as (Hn & _ & ->).
  apply NoDup_cons in Hn as [_ Hn]. apply NoDup_app in Hn as (Hn & _ & _).
  assert (size (list_to_set (addrs (held x)) : gset Z) = length (held x)) as <-.
  { rewrite size_list_to_set by done. apply length_map. }
  apply Nat.lt_succ_r, subseteq_size. simpl. set_solver.
Qed.

Lemma raise_ok F on m s E : inv F on m s -> (area_unit on = None -> E) -> forall msg,
  safe E (rt_area_raise msg) m (fun r m' => r = area_unit on /\ r <> None /\ m' = m).
Proof.
  intros Hi HE msg. unfold rt_area_raise, area_unit in *. apply safe_get. rewrite (inv_on _ _ _ _ Hi).
  destruct (pli_on_top_fn_pair _ on) as [h c]. destruct (h =? 0); [by apply safe_stop, HE|by apply safe_ret].
Qed.

Section Ops.
Context (malloc : allocator) (fresh : allocates_fresh malloc) (F : gset Z) (on : pli_task_local).
Abbreviation u := (area_unit on).

(** The operation keeps the invariant and follows the specification; it stops only when
    memory runs out, or when it raises and no unit is established. *)
Definition stops (s : spec) (o : area_op) : Prop :=
  (exists l n, malloc l n = None) \/ (raises s o = true /\ u = None).
Definition op_ok (s : spec) (o : area_op) (m : mem) : Prop :=
  safe (stops s o) (run_op malloc o) m (fun r m' => exists s', inv F on m' s' /\ spec_step u s o r s').

Lemma raises_ok m s o v msg : inv F on m s -> raises s o = true -> v = value_on_raise o ->
  safe (stops s o) (let! r := rt_area_raise msg in retR (v, r)) m
    (fun r m' => exists s', inv F on m' s' /\ spec_step u s o r s').
Proof using fresh.
  intros Hi Hr ->. apply safe_bind. eapply safe_mono.
  { eapply raise_ok; [exact Hi|]. intros Hu. right. auto. }
  intros r m' (-> & Hn & ->). apply safe_ret. exists s. split; [done|]. by constructor.
Qed.

(** A new region, and what is to be its first use. *)
Lemma create_spec n m s E (Q : Z -> mem -> Prop) : inv F on m s -> srange 64 n ->
  (forall l n, malloc l n = None -> E) ->
  (forall a m', a <> 0 -> regions s !! a = None -> inv F on m' (with_region a (mkRegion (Z.max n 0) []) s) -> Q a m') ->
  safe E (pli_area_create malloc n) m Q.
Proof using fresh.
  intros Hi Hn HE HQ. apply safe_bind, malloc_spec; [done|by apply HE|]. intros a Ha Hl.
  destruct (Z.eqb_spec a 0) as [|_]; [done|]. apply safe_modify, safe_ret.
  assert (regions s !! a = None) as Hx.
  { destruct (regions s !! a) as [x|] eqn:Ex; [|done]. destruct Hl.
    eapply holds_live; [by eapply region_holds|by apply elem_of_cons; left]. }
  apply HQ; [done|done|]. split.
  - eapply represents_update; [exact Hi|done| |done]. unfold srange in Hn.
    split; simpl; try done; [destruct (Z.ltb_spec 0 n); lia|lia|lia].
  - apply Hi.
  - apply Hi.
  - eapply holds_perm; [by apply owned_insert|]. by apply holds_alloc; [apply Hi|..].
Qed.

Lemma create_ok n m s : inv F on m s -> proper s (ACreate n) -> op_ok s (ACreate n) m.
Proof using fresh.
  intros Hi Hp. apply safe_bind. eapply create_spec; [done|done|left; eauto|].
  intros a m' Ha Hx Hi'. apply safe_ret. eexists. split; [exact Hi'|]. by constructor.
Qed.
Lemma lazy_ok i n m s : inv F on m s -> proper s (ALazy i n) -> op_ok s (ALazy i n) m.
Proof using fresh.
  intros Hi Hp. apply safe_bind, safe_get. rewrite (inv_slots _ _ _ _ Hi).
  destruct (Z.eqb_spec (default 0 (slots s !! i)) 0) as [Hs|Hs].
  - apply safe_bind. eapply create_spec; [done|done|left; eauto|]. intros a m' Ha Hx [Hr Hsl Hon Hh].
    apply safe_modify, safe_ret. apply safe_ret. eexists. split; [|by eapply a_lazy_unset].
    split; [exact Hr|simpl; by rewrite Hsl|exact Hon|exact Hh].
  - apply safe_ret, safe_ret. exists s. split; [done|]. destruct (slots s !! i) as [a|] eqn:Es; [|done]. by constructor.
Qed.

Lemma destroy_op_ok a m s : inv F on m s -> proper s (ADestroy a) -> op_ok s (ADestroy a) m.
Proof using fresh.
  intros Hi Hp. apply safe_bind. unfold pli_area_destroy. destruct (Z.eqb_spec a 0) as [->|Ha].
  { apply safe_ret, safe_ret. exists s. split; [done|]. constructor. }
  destruct Hp as [|[x Hx]]; [done|]. destruct (inv_region _ _ _ _ _ _ Hi Hx) as (ar & Har & Hok).
  pose proof (region_holds _ _ _ _ _ _ Hi Hx) as Hh.
  destruct (destroy_ok F (a :: owned (delete a (regions s))) (held x) (S (size (live m))) (a_blocks ar) m)
    as (m1 & Hd & Hh1 & [Hs1 Ho1] & Ha1 & Hb1); [by destruct Hok|by eapply fuel_enough| |].
  { eapply holds_perm; [|exact Hh]. solve_Permutation. }
  unfold safe, bindR. rewrite (load_area_ok _ _ _ Har). unfold walk_fuel, getR. rewrite Hd.
  destruct (holds_free _ _ _ _ Hh1) as (_ & Hl & Hh2). unfold free_area, plat_free, bindR.
  destruct (Z.eqb_spec a 0) as [|_]; [done|]. rewrite decide_True by done. simpl.
  exists (mkSpec (delete a (regions s)) (slots s)). split.
  - split; simpl; [|rewrite Hs1; apply Hi|rewrite Ho1; apply Hi|exact Hh2].
    intros a'. simpl. rewrite Ha1. destruct (decide (a' = a)) as [->|Hne]; [by rewrite !lookup_delete_eq|].
    rewrite !lookup_delete_ne by done. pose proof (inv_areas _ _ _ _ Hi a') as Hra.
    destruct (m_areas m !! a') as [ar'|]; [|done]. destruct (regions s !! a') as [x'|] eqn:Ex'; [|done].
    destruct Hra. split; try done. eapply chain_frame; [done|]. intros b Hb. apply Hb1.
    destruct Hh as (Hn & _ & _). apply NoDup_cons in Hn as [_ Hn]. apply NoDup_app in Hn as (_ & Hdj & _).
    intros Hbx. eapply Hdj; [exact Hbx|]. eapply (owned_elem _ a' x'); [by rewrite lookup_delete_ne|by apply elem_of_cons; right].
  - pose proof (a_destroy u s a) as Hstep. apply Z.eqb_neq in Ha. by rewrite Ha in Hstep.
Qed.
(** The budget check, in 64 bits, is the exact one. *)
Lemma budget_ok m ar x n : area_ok m ar x -> srange 64 n ->
  (i64 (i64 (a_size ar - a_used ar) - hdr) <? (if n <? 0 then 0 else n)) = (cap x - charged (held x) - hdr <? Z.max n 0).
Proof using fresh.
  intros [-> Hc -> Hf Hpos _] Hn. pose proof (charged_pos _ Hpos).
  rewrite (swrap_small 64 (cap x - _)) by (done || unfold srange; lia).
  rewrite swrap_small by (done || unfold srange, hdr; lia). f_equal. destruct (Z.ltb_spec n 0); lia.
Qed.

Lemma alloc_ok a n m s : inv F on m s -> proper s (AAlloc a n) -> op_ok s (AAlloc a n) m.
Proof using fresh.
  intros Hi [Hp Hn]. unfold op_ok, run_op, pli_area_alloc. destruct (Z.eqb_spec a 0) as [->|Ha].
  { apply raises_ok; [done| |done]. simpl. destruct (regions s !! 0) as [x|] eqn:Hx; [|done].
    destruct (region_holds _ _ _ _ _ _ Hi Hx) as (_ & H0 & _). destruct (H0 0); [set_solver|done]. }
  destruct Hp as [|[x Hx]]; [done|]. destruct (inv_region _ _ _ _ _ _ Hi Hx) as (ar & Har & Hok).
  apply (load_area_spec _ _ ar); [done|]. cbv zeta.
  pose proof Hok as [Hsz Hcap Hus Hfit Hpos Hch]. pose proof (charged_pos _ Hpos) as Hc0.
  rewrite (budget_ok _ ar x n) by done.
  destruct (cap x - charged (held x) - hdr <? Z.max n 0) eqn:Er.
  { apply raises_ok; [done|by simpl; rewrite Hx|done]. }
  apply safe_bind, malloc_pos_spec; [done|left; eauto|]. intros b Hb Hl. destruct (Z.eqb_spec b 0) as [|_]; [lia|].
  set (need := if n <? 0 then 0 else n). assert (need = Z.max n 0 /\ 0 <= need <= cap x - charged (held x) - hdr) as (Hneed & Hn0).
  { unfold need. apply Z.ltb_ge in Er. destruct (Z.ltb_spec n 0); lia. }
  set (blk := mkBlock need (a_blocks ar)). set (ar' := mkArea (a_size ar) (i64 (a_used ar + i64 (need + hdr))) b).
  set (m1 := set_blocks (insert b blk) (set_live ({[b]} ∪ live m) m)). set (m2 := set_areas (insert a ar') m1).
  assert (b ∉ owned (regions s)) as Hbo by (intros Hbo; apply Hl; eapply holds_live; [apply Hi|exact Hbo]).
  assert (b ∉ addrs (held x)) as Hbx by (intros Hbx; apply Hbo; eapply owned_elem; [exact Hx|by apply elem_of_cons; right]).
  apply safe_modify. apply (done_spec _ _ tt _ m2).
  { change (store_area a ar' m1 = Done tt m2). unfold store_area, bindR. by rewrite (load_area_ok a ar m1 Har). }
  apply safe_ret. exists (with_region a (mkRegion (cap x) ((b + hdr, Z.max n 0) :: held x)) s). split.
  - split; [|apply Hi|apply Hi|].
    + eapply (represents_update F on m m2); [done|done| |].
      * split; simpl; try done.
        -- rewrite (swrap_small 64 (need + hdr)) by (done || unfold srange, hdr in *; lia).
           rewrite swrap_small by (done || unfold srange, hdr in *; lia). lia.
        -- lia.
        -- constructor; [simpl; lia|done].
        -- split_and!; [lia|done|]. exists (a_blocks ar). rewrite lookup_insert_eq. unfold blk. rewrite Hneed. split; [done|].
           eapply chain_frame; [done|]. intros b' Hb'. rewrite lookup_insert_ne; [done|]. by intros ->.
      * intros b' Hb'. simpl. rewrite lookup_insert_ne; [done|]. intros ->. apply Hbo.
        rewrite (owned_at _ _ _ Hx). set_solver.
    + eapply holds_perm; [by apply owned_update|]. eapply holds_perm; [|apply (holds_alloc F _ _ b (region_holds _ _ _ _ _ _ Hi Hx)); [lia|done]].
      simpl. replace (b + hdr - hdr) with b by lia. solve_Permutation.
  - constructor; [by simpl; rewrite Hx|done|unfold hdr; lia|].
    intros (a' & x' & Hx' & Hin). apply addrs_elem in Hin. replace (b + hdr - hdr) with b in Hin by lia.
    apply Hbo. eapply owned_elem; [exact Hx'|by apply elem_of_cons; right].
Qed.

Lemma null_region m s : inv F on m s -> regions s !! 0 = None.
Proof using fresh.
  intros Hi. destruct (regions s !! 0) as [x|] eqn:Hx; [|done].
  destruct (region_holds _ _ _ _ _ _ Hi Hx) as (_ & H0 & _). destruct (H0 0); [set_solver|done].
Qed.

Lemma offset_ok a p m s : inv F on m s -> proper s (AOffset a p) -> op_ok s (AOffset a p) m.
Proof using fresh.
  intros Hi Hp. unfold op_ok, run_op, pli_area_offset. destruct (Z.eqb_spec p 0) as [->|Hp0].
  { apply safe_ret. exists s. split; [done|]. by constructor. }
  apply Z.eqb_neq in Hp0 as Hp0'. destruct (Z.eqb_spec a 0) as [->|Ha].
  { apply raises_ok; [done| |done]. simpl. unfold on_pointer. by rewrite (null_region m s Hi), Hp0'. }
  destruct Hp as [|[x Hx]]; [done|]. destruct (inv_region _ _ _ _ _ _ Hi Hx) as (ar & Har & Hok).
  apply (load_area_spec _ _ ar); [done|]. apply safe_get. eapply done_spec.
  { apply (owns_ok _ m (held x)); [by destruct Hok|by eapply fuel_enough]. }
  replace (p - hdr + hdr) with p by lia.
  assert (raises s (AOffset a p) = negb (bool_decide (p ∈ (held x).*1))) as Hr.
  { simpl. unfold on_pointer. by rewrite Hx, Hp0'. }
  destruct (bool_decide _); [|by apply raises_ok]. apply safe_ret. exists s. split; [done|]. by constructor.
Qed.

Lemma filter_out q n (l1 l2 : list (Z * Z)) : q ∉ l1.*1 -> q ∉ l2.*1 ->
  filter (fun e : Z * Z => e.1 <> q) (l1 ++ (q, n) :: l2) = l1 ++ l2.
Proof using fresh.
  intros H1 H2. rewrite filter_app, filter_cons. rewrite decide_False by (simpl; auto).
  assert (forall l : list (Z * Z), q ∉ l.*1 -> filter (fun e : Z * Z => e.1 <> q) l = l) as Hid.
  { intros l Hl. induction l as [|e l IH]; [done|]. rewrite fmap_cons, not_elem_of_cons in Hl.
    rewrite filter_cons, decide_True by (destruct Hl; congruence). f_equal. apply IH, Hl. }
  by rewrite !Hid.
Qed.

(** The rest of [pli_area_free], once the block is found. *)
Lemma unlink_ok a p n l1 l2 m s x : inv F on m s -> regions s !! a = Some x -> held x = l1 ++ (p, n) :: l2 ->
  exists m', (let! x := load_block (p - hdr) in
     store_link (link_after (Head a) l1) (b_next x) ;!
     let! ar := load_area a in
     let! x := load_block (p - hdr) in
     store_area a (mkArea (a_size ar) (i64 (a_used ar - i64 (b_size x + hdr))) (a_blocks ar)) ;!
     free_block (p - hdr) ;! retR None) m = Done (@None (Z * Z)) m' /\ inv F on m' (with_region a (mkRegion (cap x) (l1 ++ l2)) s).
Proof using fresh.
  intros Hi Hx Hl. destruct (inv_region _ _ _ _ _ _ Hi Hx) as (ar & Har & [Hsz Hcap Hus Hfit Hpos Hch]).
  pose proof (region_holds _ _ _ _ _ _ Hi Hx) as Hh. rewrite Hl in *.
  assert (NoDup (addrs (l1 ++ (p, n) :: l2) ++ owned (delete a (regions s)))) as Hnd by (destruct Hh as [[_ Hn]%NoDup_cons _]; done).
  apply NoDup_app in Hnd as (Hn & Hdj & _). destruct (chain_app _ _ _ _ _ _ Hch) as (nx & Hm & _ & _).
  destruct (store_link_ok m a ar l1 p n l2 nx Har Hch Hn Hm) as (m1 & ar1 & Hst & Hlv1 & [Hs1 Ho1] & Ha1 & Hsz1 & Hus1 & Hc1 & Hb1).
  rewrite addrs_app in Hn, Hdj, Hh. simpl in Hn, Hdj, Hh. apply NoDup_app in Hn as (Hn1 & Hn12 & [Hnp _]%NoDup_cons).
  assert (p - hdr ∉ addrs l1) as Hp1 by (intros Hin; apply (Hn12 _ Hin); set_solver).
  set (ar2 := mkArea (a_size ar1) (i64 (a_used ar1 - i64 (n + hdr))) (a_blocks ar1)).
  set (m2 := set_areas (insert a ar2) m1).
  destruct (free_block_ok F (p - hdr) (a :: addrs (l1 ++ l2) ++ owned (delete a (regions s))) m2) as (m3 & Hf & Hh3 & [Hs3 Ho3] & Ha3 & Hb3).
  { change (live m2) with (live m1). rewrite Hlv1. eapply holds_perm; [|exact Hh]. rewrite addrs_app. solve_Permutation. }
  exists m3. split.
  { assert (m_areas m1 !! a = Some ar1) as Har1 by (by rewrite Ha1, lookup_insert_eq).
    assert (m_blocks m1 !! (p - hdr) = Some (mkBlock n nx)) as Hm1 by (by rewrite Hb1).
    unfold bindR at 1. rewrite (load_block_ok _ _ _ Hm). cbn [b_next]. unfold bindR at 1. rewrite Hst.
    unfold bindR at 1. rewrite (load_area_ok _ _ _ Har1). unfold bindR at 1. rewrite (load_block_ok _ _ _ Hm1). cbn [b_size].
    unfold bindR at 1, store_area. unfold bindR at 1. rewrite (load_area_ok _ _ _ Har1).
    change (modifyR _ m1) with (Done tt m2 : res mem unit). unfold bindR. by rewrite Hf. }
  rewrite charged_app in Hus, Hfit. simpl in Hus, Hfit. apply Forall_app in Hpos as [Hpos1 [Hn0 Hpos2]%Forall_cons]. simpl in Hn0.
  pose proof (charged_pos _ Hpos1). pose proof (charged_pos _ Hpos2).
  split; [|rewrite Hs3; change (m_slots m2) with (m_slots m1); rewrite Hs1; apply Hi
          |rewrite Ho3; change (m_on m2) with (m_on m1); rewrite Ho1; apply Hi|].
  - apply (represents_update F on m m3 s a _ ar2); [done| | |].
    + rewrite Ha3. simpl. by rewrite Ha1, insert_insert_eq.
    + split; simpl; try done; [by rewrite Hsz1| | |by apply Forall_app|].
      * rewrite charged_app. rewrite (swrap_small 64 (n + hdr)) by (done || unfold srange, hdr in *; lia).
        rewrite swrap_small by (done || unfold srange, hdr in *; lia). unfold hdr in *. lia.
      * rewrite charged_app. unfold hdr in *. lia.
      * eapply chain_frame; [exact Hc1|]. intros b Hb. rewrite Hb3, lookup_delete_ne; [done|].
        intros <-. rewrite addrs_app in Hb. set_solver.
    + intros b Hb. rewrite Hb3. rewrite lookup_delete_ne.
      * apply Hb1. intros Hin. eapply Hdj; [|exact Hb]. set_solver.
      * intros <-. eapply Hdj; [|exact Hb]. set_solver.
  - eapply holds_perm; [by apply owned_update|exact Hh3].
Qed.

Lemma free_ok a p m s : inv F on m s -> proper s (AFree a p) -> op_ok s (AFree a p) m.
Proof using fresh.
  intros Hi Hp. unfold op_ok, run_op, pli_area_free. destruct (Z.eqb_spec p 0) as [->|Hp0].
  { apply safe_bind, safe_ret, safe_ret. exists s. split; [done|]. constructor. }
  apply Z.eqb_neq in Hp0 as Hp0'. destruct (Z.eqb_spec a 0) as [->|Ha].
  { apply raises_ok; [done| |done]. simpl. unfold on_pointer. by rewrite (null_region m s Hi), Hp0'. }
  destruct Hp as [|[x Hx]]; [done|]. destruct (inv_region _ _ _ _ _ _ Hi Hx) as (ar & Har & Hok).
  destruct (find_link_ok (p - hdr) m (held x) (S (size (live m))) (Head a) (a_blocks ar)) as (lk & Hf & H).
  { simpl. unfold bindR. by rewrite (load_area_ok _ _ _ Har). }
  { by destruct Hok. }
  { by eapply fuel_enough. }
  replace (p - hdr + hdr) with p in H by lia. cbv zeta. apply safe_bind, safe_get.
  apply (done_spec _ _ lk _ m); [exact Hf|].
  destruct H as [[Hn Hl]|(l1 & n & l2 & Hh & -> & Hl)]; (eapply done_spec; [exact Hl|]).
  - simpl. pose proof (raises_ok m s (AFree a p) 0 (txt "AREA: FREE of a pointer not allocated in this area") Hi) as Hr.
    apply safe_bind_inv. apply Hr; [|done]. simpl. unfold on_pointer. rewrite Hx, Hp0'. simpl. by rewrite bool_decide_false.
  - destruct (unlink_ok a p n l1 l2 m s x Hi Hx Hh) as (m' & Hm & Hi').
    pose proof (region_holds _ _ _ _ _ _ Hi Hx) as (Hnd & Hnz & _). rewrite Hh, addrs_app in Hnd, Hnz. simpl in Hnd, Hnz.
    destruct (Z.eqb_spec (p - hdr) 0) as [Hz|_]; [destruct (Hnz (p - hdr)); [set_solver|lia]|].
    unfold safe at 1. rewrite Hm. apply safe_ret. eexists. split; [exact Hi'|].
    assert (p ∈ (held x).*1) as Hin by (rewrite Hh, fmap_app; set_solver).
    assert (l1 ++ l2 = filter (fun e : Z * Z => e.1 <> p) (held x)) as ->; [|by constructor].
    rewrite Hh. symmetry. apply NoDup_cons in Hnd as [_ Hnd]. apply NoDup_app in Hnd as [Hnd _].
    apply NoDup_app in Hnd as (_ & Hd & [Hp2 _]%NoDup_cons).
    apply filter_out; rewrite addrs_elem; [|done]. intros Hin'. apply (Hd _ Hin'). set_solver.
Qed.

Lemma op_is_ok o m s : inv F on m s -> proper s o -> op_ok s o m.
Proof using fresh.
  destruct o; [apply create_ok|apply lazy_ok|apply destroy_op_ok|apply alloc_ok|apply offset_ok|apply free_ok].
Qed.
End Ops.

(** ** Whole programs *)
Lemma run_is_ok malloc F on p : allocates_fresh malloc -> forall m s, inv F on m s -> proper_prog (area_unit on) s p ->
  safe ((exists l n, malloc l n = None) \/ (area_unit on = None /\ run_raises (area_unit on) s p)) (run_prog malloc p) m
    (fun rs m' => exists s', inv F on m' s' /\ spec_run (area_unit on) s p rs s').
Proof.
  intros fresh. induction p as [|o k IH]; intros m s Hi; simpl.
  { intros _. apply safe_ret. exists s. split; [done|constructor]. }
  intros [Hp Hk]. pose proof (op_is_ok malloc fresh F on o m s Hi Hp) as Ho. unfold op_ok, safe in Ho.
  unfold bindR at 1, safe. destruct (run_op malloc o m) as [r m1|msg|]; [| |done].
  - destruct Ho as (s1 & Hi1 & Hs1). specialize (IH r m1 s1 Hi1 (Hk _ _ Hs1)).
    unfold bindR, safe in *. destruct (run_prog malloc (k r) m1) as [rs m2|msg|]; [| |done].
    + destruct IH as (s2 & Hi2 & Hs2). exists s2. split; [done|by econstructor].
    + destruct IH as [Hr|[Hu Hr]]; [by left|]. right. split; [done|]. by eapply raises_later.
  - destruct Ho as [Ho|[Hr Hu]]; [by left|]. right. split; [done|]. by constructor.
Qed.

(** A task's memory before it makes an area, beside the blocks [F] that other code owns. *)
Definition mem_init (F : gset Z) (on : pli_task_local) : mem := mkMem F ∅ ∅ ∅ on.
Definition spec_init : spec := mkSpec ∅ ∅.
Lemma inv_init F on : inv F on (mem_init F on) spec_init.
Proof.
  split; [|done|done|].
  - intros a. simpl. by rewrite !lookup_empty.
  - unfold owned. simpl. rewrite map_to_list_empty. split_and!; [constructor|set_solver|simpl; set_solver].
Qed.

(** C22: areas implement regions with a budget.  Whatever area calls a program makes on
    handles of live areas, each depending on the earlier answers, with any allocator that hands out fresh blocks: every
    walk of a list ends, nothing is read or written through a dead pointer and nothing is
    freed twice; an ALLOCATE succeeds exactly when the length and its header fit in what
    is left of the region, with 64-bit arithmetic that cannot overflow; FREE gives back
    exactly its block's bytes in any order, and a pointer the region does not own is
    refused without effect; a refused operation runs the unit established for AREA and
    stops the program only when there is none; and destroying a region frees each block
    once and loses none. *)
Theorem areas_refine malloc F on p : allocates_fresh malloc -> proper_prog (area_unit on) spec_init p ->
  match run_prog malloc p (mem_init F on) with
  | Done rs m => exists s, spec_run (area_unit on) spec_init p rs s /\ represents m s /\ holds F (live m) (owned (regions s))
  | Stopped _ => (exists l n, malloc l n = None) \/ (area_unit on = None /\ run_raises (area_unit on) spec_init p)
  | Wrong => False
  end.
Proof.
  intros fresh Hp. pose proof (run_is_ok malloc F on p fresh _ _ (inv_init F on) Hp) as H.
  unfold safe in H. destruct (run_prog _ _ _) as [rs m|msg|]; [|exact H..].
  destruct H as (s & [Ha _ _ Hh] & Hr). by exists s.
Qed.

(** A program: two generations, a third that does not fit, then all of it released. *)
Definition sample_prog : prog :=
  Op (ACreate 100) (fun a => Op (AAlloc a.1 10) (fun p => Op (AAlloc a.1 20) (fun q =>
  Op (AAlloc a.1 30) (fun _ => Op (AFree a.1 p.1) (fun _ => Op (AFree a.1 p.1) (fun _ => Op (AOffset a.1 q.1) (fun _ =>
  Op (ADestroy a.1) (fun _ => Halt)))))))).
Definition sample_on : pli_task_local := mkLocal [mkFrame RT_AREA_KEY 0 1 77 5] 16 0 0 0.

Lemma step_handle u s o r s' a : spec_step u s o r s' -> handle s a -> o <> ADestroy a -> handle s' a.
Proof.
  unfold handle. intros Hs [->|[x Hx]] Ho; [by left|]. right.
  destruct Hs as [| | | |b| | | |]; simpl; try (by exists x);
    try (destruct (decide (a = a0)) as [->|]; [rewrite lookup_insert_eq|rewrite lookup_insert_ne by done]; eauto).
  destruct (Z.eqb_spec b 0); [by exists x|]. simpl. exists x. rewrite lookup_delete_ne; [done|]. congruence.
Qed.
Lemma create_handle u s n r s' : spec_step u s (ACreate n) r s' -> handle s' r.1.
Proof. inversion 1; subst; [done|]. right. simpl. rewrite lookup_insert_eq. eauto. Qed.

Lemma areas_refine_witness : allocates_fresh bump /\ proper_prog (area_unit sample_on) spec_init sample_prog /\
  match run_prog bump sample_prog (mem_init {[5]} sample_on) with
  | Done rs m => rs = [(6, None); (23, None); (24, None); (0, Some (77, 5)); (0, None); (0, Some (77, 5)); (24, None); (0, None)]
      /\ exists s, represents m s /\ holds {[5]} (live m) (owned (regions s))
  | _ => False
  end.
Proof.
  assert (proper_prog (area_unit sample_on) spec_init sample_prog) as Hp.
  { simpl. split; [unfold srange; lia|]. intros a s1 H1%create_handle.
    do 6 (split; [first [exact H1|split; [exact H1|unfold srange; lia]]|];
      intros ? ? Hs; eapply step_handle in H1; [|exact Hs|done]; clear Hs).
    split; [exact H1|done]. }
  split; [apply bump_fresh|]. split; [exact Hp|].
  pose proof (areas_refine bump {[5]} sample_on sample_prog bump_fresh Hp) as H.
  destruct (run_prog bump sample_prog (mem_init {[5]} sample_on)) as [rs m|msg|] eqn:E; [|revert E; vm_compute; discriminate..].
  split; [revert E; vm_compute; by intros [= <- _]|]. destruct H as (s & _ & Hr & Hh). by exists s.
Defined.
