(* ===== verification/Mem.v ===== *)
(** * Byte memory, and the runtime's own memory helpers ([runtime/pli_rt_state.h])

    A memory maps the addresses a program may use to their bytes; a load or store
    anywhere else is [Wrong].  [pli_memmove] and its siblings are the loops of the
    source; the lemmas say what they do to a memory, overlapping or not. *)
From S2P Require Import Prelude Heap.

Abbreviation mem := (gmap Z ascii).
Definition load (p : Z) : R mem ascii := fun m => match m !! p with Some c => Done c m | None => Wrong end.
Definition store (p : Z) (c : ascii) : R mem unit := fun m =>
  match m !! p with Some _ => Done tt (<[p := c]> m) | None => Wrong end.

(** [for (; n; --n) *a++ = *b++;] *)
Fixpoint copy_up (n : nat) (a b : Z) : R mem unit :=
  match n with
  | O => retR tt
  | S n => let! c := load b in store a c ;! copy_up n (a + 1) (b + 1)
  end.
(** [for (; n; --n) *--e = *--b;] *)
Fixpoint copy_down (n : nat) (e b : Z) : R mem unit :=
  match n with
  | O => retR tt
  | S n => let! c := load (b - 1) in store (e - 1) c ;! copy_down n (e - 1) (b - 1)
  end.
Definition pli_memcpy (d s n : Z) : R mem unit := copy_up (Z.to_nat n) d s.
Definition pli_memmove (d s n : Z) : R mem unit :=
  if d =? s then retR tt
  else if d <? s then copy_up (Z.to_nat n) d s
  else copy_down (Z.to_nat n) (d + n) (s + n).
Fixpoint fill (n : nat) (a : Z) (c : ascii) : R mem unit :=
  match n with O => retR tt | S n => store a c ;! fill n (a + 1) c end.
Definition pli_memset (d : Z) (c : ascii) (n : Z) : R mem unit := fill (Z.to_nat n) d c.
Fixpoint compare_run (n : nat) (x y : Z) : R mem Z :=
  match n with
  | O => retR 0
  | S n =>
      let! a := load x in let! b := load y in
      if ceqb a b then compare_run n (x + 1) (y + 1) else retR (if code a <? code b then -1 else 1)
  end.
Definition pli_memcmp (a b n : Z) : R mem Z := compare_run (Z.to_nat n) a b.
(** The address of the byte, 0 when it is not there. *)
Fixpoint find_run (n : nat) (a : Z) (c : ascii) : R mem Z :=
  match n with
  | O => retR 0
  | S n => let! d := load a in if ceqb d c then retR a else find_run n (a + 1) c
  end.
Definition pli_memchr (s : Z) (c : ascii) (n : Z) : R mem Z := find_run (Z.to_nat n) s c.

(** [for (long long i = lo; n more; ++i) body] *)
Fixpoint upto (n : nat) (lo : Z) (body : Z -> R mem unit) : R mem unit :=
  match n with O => retR tt | S n => body lo ;! upto n (lo + 1) body end.

(** ** Regions of memory *)
Definition len (s : text) : Z := Z.of_nat (length s).
Definition reads (m : mem) (p : Z) (s : text) : Prop := forall i c, s !! i = Some c -> m !! (p + Z.of_nat i) = Some c.
Definition mapped (m : mem) (p n : Z) : Prop := forall i, 0 <= i < n -> is_Some (m !! (p + i)).
Fixpoint write (p : Z) (s : text) (m : mem) : mem :=
  match s with [] => m | c :: s => write (p + 1) s (<[p := c]> m) end.
(** Two regions without a common byte. *)
Definition apart (p n q k : Z) : Prop := p + n <= q \/ q + k <= p.

Lemma lookup_write p s m q :
  write p s m !! q = if decide (p <= q < p + len s) then s !! Z.to_nat (q - p) else m !! q.
Proof.
  unfold len. revert p m. induction s as [|c s IH]; intros p m; simpl.
  - rewrite decide_False by lia. done.
  - rewrite IH. destruct (decide (p + 1 <= q < p + 1 + Z.of_nat (length s))) as [H|H].
    + rewrite decide_True by lia. replace (Z.to_nat (q - p)) with (S (Z.to_nat (q - (p + 1)))) by lia. done.
    + destruct (decide (q = p)) as [->|Hq].
      * rewrite lookup_insert_eq, decide_True by lia. by rewrite Z.sub_diag.
      * rewrite lookup_insert_ne by done. rewrite decide_False by lia. done.
Qed.
Lemma write_app p s t m : write p (s ++ t) m = write (p + len s) t (write p s m).
Proof.
  unfold len. revert p m. induction s as [|c s IH]; intros p m; simpl; [by rewrite Z.add_0_r|].
  rewrite IH. f_equal. lia.
Qed.
Lemma mapped_write m p n q s : mapped m p n -> mapped (write q s m) p n.
Proof.
  intros H i Hi. rewrite lookup_write. destruct (decide _) as [Hd|]; [|by apply H].
  apply lookup_lt_is_Some_2. unfold len in Hd. lia.
Qed.
Lemma mapped_insert m p n q c : mapped m p n -> mapped (<[q := c]> m) p n.
Proof. apply (mapped_write _ _ _ _ [c]). Qed.
Lemma mapped_sub m p n q k : mapped m p n -> p <= q -> q + k <= p + n -> mapped m q k.
Proof. intros H ? ? i Hi. replace (q + i) with (p + (q - p + i)) by lia. apply H. lia. Qed.
Lemma reads_write m p s q t : reads m p s -> apart p (len s) q (len t) -> reads (write q t m) p s.
Proof.
  intros H Ha i c Hi. rewrite lookup_write. apply lookup_lt_Some in Hi as Hl. unfold apart, len in *.
  rewrite decide_False by lia. by apply H.
Qed.
Lemma reads_written m p s : reads (write p s m) p s.
Proof.
  intros i c Hi. rewrite lookup_write. apply lookup_lt_Some in Hi as Hl. unfold len.
  rewrite decide_True by lia. by replace (Z.to_nat (p + Z.of_nat i - p)) with i by lia.
Qed.
Lemma reads_drop m p s k : reads m p s -> reads m (p + Z.of_nat k) (drop k s).
Proof.
  intros H i c Hi. rewrite lookup_drop in Hi. specialize (H _ _ Hi). by replace (p + Z.of_nat k + Z.of_nat i) with (p + Z.of_nat (k + i)) by lia.
Qed.
Lemma reads_take m p s k : reads m p s -> reads m p (take k s).
Proof. intros H i c [Hi _]%lookup_take_Some. by apply H. Qed.
Lemma reads_cons m p c s : reads m p (c :: s) <-> m !! p = Some c /\ reads m (p + 1) s.
Proof.
  split.
  - intros H. split; [specialize (H 0%nat c eq_refl); by rewrite Z.add_0_r in H|].
    intros i d Hi. replace (p + 1 + Z.of_nat i) with (p + Z.of_nat (S i)) by lia. by apply H.
  - intros [H1 H2] [|i] d Hi; simplify_eq/=; [by rewrite Z.add_0_r|].
    replace (p + Z.of_nat (S i)) with (p + 1 + Z.of_nat i) by lia. by apply H2.
Qed.
Lemma reads_mapped m p s : reads m p s -> mapped m p (len s).
Proof.
  intros H i Hi. unfold len in Hi. destruct (lookup_lt_is_Some_2 s (Z.to_nat i)) as [c Hc]; [lia|].
  exists c. specialize (H _ _ Hc). by rewrite Z2Nat.id in H by lia.
Qed.
Lemma write_same m p s : reads m p s -> write p s m = m.
Proof.
  intros H. apply map_eq. intros q. rewrite lookup_write. destruct (decide _) as [Hd|]; [|done]. unfold len in Hd.
  destruct (lookup_lt_is_Some_2 s (Z.to_nat (q - p))) as [c Hc]; [lia|]. rewrite Hc. specialize (H _ _ Hc).
  by replace (p + Z.of_nat (Z.to_nat (q - p))) with q in H by lia.
Qed.

(** ** The helpers *)
Lemma load_ok m p c : m !! p = Some c -> load p m = Done c m.
Proof. intros H. unfold load. by rewrite H. Qed.
Lemma store_ok m p c : is_Some (m !! p) -> store p c m = Done tt (<[p := c]> m).
Proof. intros [d H]. unfold store. by rewrite H. Qed.
Lemma mapped_at m p n i : mapped m p n -> 0 <= i < n -> is_Some (m !! (p + i)).
Proof. auto. Qed.

Lemma copy_up_ok s : forall a b m, reads m b s -> mapped m a (len s) -> a <= b \/ b + len s <= a ->
  copy_up (length s) a b m = Done tt (write a s m).
Proof.
  unfold len. induction s as [|c s IH]; intros a b m Hr Hm Ho; simpl in *; [done|].
  apply reads_cons in Hr as [Hc Hr]. unfold bindR. rewrite (load_ok _ _ _ Hc).
  rewrite store_ok by (specialize (Hm 0); rewrite Z.add_0_r in Hm; apply Hm; lia).
  apply IH; [| |lia].
  - apply (reads_write _ _ _ a [c]); [done|]. unfold apart, len. simpl. lia.
  - apply mapped_insert. eapply mapped_sub; [exact Hm|lia|lia].
Qed.
Lemma copy_down_ok s : forall a b m, reads m b s -> mapped m a (len s) -> b <= a \/ a + len s <= b ->
  copy_down (length s) (a + len s) (b + len s) m = Done tt (write a s m).
Proof.
  unfold len. induction s as [|c s IH] using rev_ind; intros a b m Hr Hm Ho; [done|].
  rewrite length_app in *. simpl in *. rewrite Nat.add_1_r in *. simpl. unfold bindR.
  replace (b + _ - 1) with (b + Z.of_nat (length s)) by lia. replace (a + _ - 1) with (a + Z.of_nat (length s)) by lia.
  rewrite (load_ok _ _ c); [|by apply Hr, list_lookup_middle].
  rewrite store_ok by (apply Hm; lia). rewrite IH.
  - rewrite write_app. simpl. f_equal. apply map_eq. intros q. rewrite lookup_write. unfold len.
    destruct (decide (q = a + Z.of_nat (length s))) as [->|Hq].
    + rewrite decide_False by lia. by rewrite !lookup_insert_eq.
    + rewrite !lookup_insert_ne by done. by rewrite lookup_write.
  - apply (reads_write _ _ _ _ [c]); [|unfold apart, len; simpl; lia].
    intros i d Hi. apply Hr. by apply lookup_app_l_Some.
  - apply mapped_insert. eapply mapped_sub; [exact Hm|lia|lia].
  - lia.
Qed.

(** [pli_memmove] copies the bytes that were at the source, whatever the overlap. *)
Lemma memmove_ok d s n t m : reads m s t -> n = len t -> mapped m d n -> pli_memmove d s n m = Done tt (write d t m).
Proof.
  intros Hr -> Hm. unfold pli_memmove. destruct (Z.eqb_spec d s) as [->|Hne].
  - by rewrite write_same.
  - unfold len at 1. rewrite Nat2Z.id. destruct (Z.ltb_spec d s).
    + apply copy_up_ok; [done|done|lia].
    + replace (Z.to_nat (len t)) with (length t) by (unfold len; lia). apply copy_down_ok; [done|done|lia].
Qed.
Lemma fill_ok c n : forall a m, mapped m a (Z.of_nat n) -> fill n a c m = Done tt (write a (replicate n c) m).
Proof.
  induction n as [|n IH]; intros a m Hm; simpl; [done|]. unfold bindR.
  rewrite store_ok by (specialize (Hm 0); rewrite Z.add_0_r in Hm; apply Hm; lia).
  apply IH. apply mapped_insert. eapply mapped_sub; [exact Hm|lia|lia].
Qed.
Lemma memset_ok d c n m : mapped m d n -> pli_memset d c n m = Done tt (write d (replicate (Z.to_nat n) c) m).
Proof. intros Hm. apply fill_ok. intros i Hi. apply Hm. lia. Qed.
Lemma memcmp_ok n s t p q m : reads m p s -> reads m q t -> n = len s -> n = len t ->
  exists r, pli_memcmp p q n m = Done r m /\ (r = 0 <-> s = t).
Proof.
  intros Hs Ht -> Hl. unfold pli_memcmp, len in *. rewrite Nat2Z.id. apply Nat2Z.inj in Hl.
  revert p q t Hs Ht Hl. induction s as [|c s IH]; intros p q [|d t] Hs Ht Hl; simplify_eq/=; [by exists 0|].
  apply reads_cons in Hs as [Hc Hs]. apply reads_cons in Ht as [Hd Ht]. unfold bindR.
  rewrite (load_ok _ _ _ Hc), (load_ok _ _ _ Hd). destruct (ceqb c d) eqn:E.
  - apply ceqb_true in E as ->. destruct (IH _ _ t Hs Ht Hl) as (r & -> & Hr). exists r. split; [done|].
    rewrite Hr. split; congruence.
  - apply ceqb_false in E. eexists. split; [done|]. split; [by destruct (code c <? code d)|congruence].
Qed.
Lemma memchr_ok s c p m : reads m p s -> 0 < p -> exists r, pli_memchr p c (len s) m = Done r m /\ (r <> 0 <-> c ∈ s).
Proof.
  unfold pli_memchr, len. rewrite Nat2Z.id. revert p. induction s as [|d s IH]; intros p Hr Hp; simpl.
  - exists 0. split; [done|]. set_solver.
  - apply reads_cons in Hr as [Hd Hr]. unfold bindR. rewrite (load_ok _ _ _ Hd). destruct (ceqb d c) eqn:E.
    + apply ceqb_true in E as ->. exists p. split; [done|]. split; [set_solver|lia].
    + apply ceqb_false in E. destruct (IH (p + 1) Hr) as (r & Hf & H); [lia|]. exists r. split; [done|]. rewrite H. set_solver.
Qed.
