(* ===== verification/RtString.v ===== *)
(** * Character strings at run time ([runtime/rt_string.c])

    The string assignments and built-ins, on the byte memory of [Mem]: their loops
    and accesses as the source has them.  A string operand is an address and a
    length.  On lengths that are not negative no sum or difference here leaves 64
    bits, so they are exact.  The clock functions (DATE, TIME, DATETIME) are left
    out.  [pli_substr_assign_varying] takes the length prefix it reads and returns
    the one it stores. *)
From S2P Require Import Prelude Heap Mem.

Definition blank : ascii := " "%char.
Definition clamp (n : Z) : Z := if n <? 0 then 0 else n.
(** [while (out < cap) dst[out++] = ' ';] *)
Definition blank_from (dst out cap : Z) : R mem unit :=
  upto (Z.to_nat (cap - out)) out (fun i => store (dst + i) blank).

Definition pli_assign_varying (dst cap src srclen : Z) : R mem Z :=
  let cap := clamp cap in
  let srclen := clamp srclen in
  let n := if srclen <? cap then srclen else cap in
  (if 0 <? n then pli_memmove dst src n else retR tt) ;!
  (if n <? cap then pli_memset (dst + n) blank (cap - n) else retR tt) ;!
  retR n.
Definition pli_assign_char (dst dstlen src srclen : Z) : R mem unit :=
  let dstlen := clamp dstlen in
  let srclen := clamp srclen in
  let n := if srclen <? dstlen then srclen else dstlen in
  (if 0 <? n then pli_memmove dst src n else retR tt) ;!
  if n <? dstlen then pli_memset (dst + n) blank (dstlen - n) else retR tt.
Definition pli_concat (dst a alen b blen : Z) : R mem unit :=
  let alen := clamp alen in
  let blen := clamp blen in
  (if 0 <? alen then pli_memmove dst a alen else retR tt) ;!
  if 0 <? blen then pli_memmove (dst + alen) b blen else retR tt.

Definition pli_isochar (dst dstlen lo hi : Z) : R mem unit :=
  let n := if lo <=? hi then i32 (hi - lo + 1) else 0 in
  let n := if dstlen <? n then dstlen else n in
  upto (Z.to_nat n) 0 (fun i => store (dst + i) (char_of (lo + i))) ;!
  if n <? dstlen then pli_memset (dst + n) blank (dstlen - n) else retR tt.

Definition pli_substr (dst dstcap src srclen start len : Z) : R mem unit :=
  let start := if start <? 1 then 1 else start in
  let n := if len <? dstcap then len else dstcap in
  let avail := clamp (srclen - (start - 1)) in
  let take := if avail <? n then avail else n in
  (if 0 <? take then pli_memmove dst (src + (start - 1)) take else retR tt) ;!
  if take <? n then pli_memset (dst + take) blank (n - take) else retR tt.

Definition pli_substr_assign (dst dstcap start len src srclen : Z) : R mem unit :=
  if start <? 1 then retR tt
  else if (dstcap <=? 0) || (100 * 1024 * 1024 <? dstcap) then stop (txt "substr_assign: corrupt dstcap")
  else if u64 (dst + dstcap) <? dst then stop (txt "substr_assign: wraparound in dstcap")
  else
    let space := dstcap - (start - 1) in
    if space <=? 0 then retR tt
    else
      let n := if space <? len then space else len in
      let take := if srclen <? n then srclen else n in
      (if 0 <? take then pli_memmove (dst + (start - 1)) src take else retR tt) ;!
      if take <? n then pli_memset (dst + (start - 1) + take) blank (n - take) else retR tt.
Definition pli_substr_assign_varying (dst dstcap old start len src srclen : Z) : R mem Z :=
  pli_substr_assign dst dstcap start len src srclen ;!
  if start <? 1 then retR old
  else
    let kept := old in
    let old := if old <? 0 then 0 else old in
    let old := if dstcap <? old then dstcap else old in
    let space := dstcap - (start - 1) in
    if space <=? 0 then retR kept
    else
      let n := if space <? len then space else len in
      (if old <? start - 1 then pli_memset (dst + old) blank (start - 1 - old) else retR tt) ;!
      let end_ := start - 1 + n in
      retR (if old <? end_ then i32 end_ else kept).

(** [for (i < srclen && out < dstcap; ++i) dst[out++] = src[i];] *)
Fixpoint repeat_inner (n : nat) (dst dstcap src i out : Z) : R mem Z :=
  match n with
  | O => retR out
  | S n =>
      if out <? dstcap then
        let! c := load (src + i) in store (dst + out) c ;! repeat_inner n dst dstcap src (i + 1) (out + 1)
      else retR out
  end.
Fixpoint repeat_outer (k : nat) (dst dstcap src srclen out : Z) : R mem Z :=
  match k with
  | O => retR out
  | S k =>
      let! out := repeat_inner (Z.to_nat srclen) dst dstcap src 0 out in
      repeat_outer k dst dstcap src srclen out
  end.
Definition pli_repeat (dst dstcap src srclen n : Z) : R mem unit :=
  let! out := repeat_outer (Z.to_nat n) dst dstcap src srclen 0 in blank_from dst out dstcap.

(** [while (j < tlen && c != t[j]) ++j;], [n] characters left *)
Fixpoint scan_ne (n : nat) (t : Z) (c : ascii) (j : Z) : R mem Z :=
  match n with
  | O => retR j
  | S n => let! d := load (t + j) in if ceqb c d then retR j else scan_ne n t c (j + 1)
  end.
(** [for (; i < slen; ++i)] with [n] characters left, of VERIFY *)
Fixpoint verify_loop (n : nat) (s t tlen i : Z) : R mem Z :=
  match n with
  | O => retR 0
  | S n =>
      let! c := load (s + i) in
      let! j := scan_ne (Z.to_nat tlen) t c 0 in
      if j =? tlen then retR (i + 1) else verify_loop n s t tlen (i + 1)
  end.
Definition pli_verify (s slen t tlen : Z) : R mem Z := verify_loop (Z.to_nat slen) s t tlen 0.
Definition pli_verify_from (s slen t tlen start : Z) : R mem Z :=
  let start := if start <? 1 then 1 else start in
  verify_loop (Z.to_nat (slen - (start - 1))) s t tlen (start - 1).

(** [return i + 1] inside the inner loop of SEARCH *)
Fixpoint search_loop (n : nat) (s t tlen i : Z) : R mem Z :=
  match n with
  | O => retR 0
  | S n =>
      let! c := load (s + i) in
      let! j := scan_ne (Z.to_nat tlen) t c 0 in
      if j <? tlen then retR (i + 1) else search_loop n s t tlen (i + 1)
  end.
Definition pli_search (s slen t tlen start : Z) : R mem Z :=
  let start := if start <? 1 then 1 else start in
  search_loop (Z.to_nat (slen - (start - 1))) s t tlen (start - 1).

Definition pli_translate (dst dstcap s slen out outlen in_ inlen : Z) : R mem unit :=
  let n := if slen <? dstcap then slen else dstcap in
  upto (Z.to_nat n) 0 (fun i =>
    let! c := load (s + i) in
    let! k := scan_ne (Z.to_nat inlen) in_ c 0 in
    let! c := if k <? inlen then (if k <? outlen then load (out + k) else retR blank) else retR c in
    store (dst + i) c) ;!
  if n <? dstcap then pli_memset (dst + n) blank (dstcap - n) else retR tt.

(** A character to trim: a blank, or one of the pad set. *)
Definition trims (pad : option (Z * Z)) (c : ascii) : R mem bool :=
  match pad with
  | None => retR (ceqb c blank)
  | Some (p, n) => let! r := pli_memchr p c n in retR (negb (r =? 0))
  end.
Fixpoint trim_lo (n : nat) (pad : option (Z * Z)) (s lo : Z) : R mem Z :=
  match n with
  | O => retR lo
  | S n => let! c := load (s + lo) in let! b := trims pad c in if b then trim_lo n pad s (lo + 1) else retR lo
  end.
Fixpoint trim_hi (n : nat) (pad : option (Z * Z)) (s hi : Z) : R mem Z :=
  match n with
  | O => retR hi
  | S n => let! c := load (s + (hi - 1)) in let! b := trims pad c in if b then trim_hi n pad s (hi - 1) else retR hi
  end.
Definition pli_trim (dst dstcap s slen : Z) (pad : option (Z * Z)) : R mem unit :=
  let! lo := trim_lo (Z.to_nat slen) pad s 0 in
  let! hi := trim_hi (Z.to_nat (slen - lo)) pad s slen in
  let! out := repeat_inner (Z.to_nat (hi - lo)) dst dstcap s lo 0 in
  blank_from dst out dstcap.

(** [for (i = 0; i + ylen <= xlen;)], a step of [ylen] or 1 *)
Fixpoint tally_loop (fuel : nat) (x xlen y ylen i n : Z) : R mem Z :=
  match fuel with
  | O => wrong
  | S fuel =>
      if i + ylen <=? xlen then
        let! r := pli_memcmp (x + i) y ylen in
        if r =? 0 then tally_loop fuel x xlen y ylen (i + ylen) (n + 1)
        else tally_loop fuel x xlen y ylen (i + 1) n
      else retR n
  end.
Definition pli_tally (x xlen y ylen : Z) : R mem Z :=
  if (ylen <=? 0) || (xlen <? ylen) then retR 0 else tally_loop (S (Z.to_nat xlen)) x xlen y ylen 0 0.

Definition to_lower (c : ascii) : ascii := if is_upper c then char_of (code c + 32) else c.
(** The loop of UPPERCASE and LOWERCASE. *)
Definition map_case (f : ascii -> ascii) (dst dstcap s slen : Z) : R mem unit :=
  let n := Z.max 0 (Z.min slen dstcap) in
  upto (Z.to_nat n) 0 (fun i => let! c := load (s + i) in store (dst + i) (f c)) ;!
  blank_from dst n dstcap.
Definition pli_uppercase : Z -> Z -> Z -> Z -> R mem unit := map_case to_upper.
Definition pli_lowercase : Z -> Z -> Z -> Z -> R mem unit := map_case to_lower.

Definition pli_high (dst n : Z) : R mem unit := pli_memset dst (char_of 255) n.
Definition pli_low (dst n : Z) : R mem unit := pli_memset dst (char_of 0) n.

(** [for (; i < n; ++i)] of the comparison, blanks past the end of an operand *)
Fixpoint cmp_loop (k : nat) (a alen b blen i : Z) : R mem Z :=
  match k with
  | O => retR 0
  | S k =>
      let! ca := if i <? alen then load (a + i) else retR blank in
      let! cb := if i <? blen then load (b + i) else retR blank in
      if negb (ceqb ca cb) then retR (if code ca <? code cb then -1 else 1)
      else cmp_loop k a alen b blen (i + 1)
  end.
Definition pli_cmp_char (a alen b blen : Z) : R mem Z :=
  cmp_loop (Z.to_nat (if blen <? alen then alen else blen)) a alen b blen 0.

(** [while (j < blen && a[i + j] == b[j]) ++j;] *)
Fixpoint scan_eq (n : nat) (a b j : Z) : R mem Z :=
  match n with
  | O => retR j
  | S n =>
      let! c := load (a + j) in let! d := load (b + j) in
      if ceqb c d then scan_eq n a b (j + 1) else retR j
  end.
Fixpoint index_loop (n : nat) (a b blen i : Z) : R mem Z :=
  match n with
  | O => retR 0
  | S n =>
      let! j := scan_eq (Z.to_nat blen) (a + i) b 0 in
      if j =? blen then retR (i + 1) else index_loop n a b blen (i + 1)
  end.
Definition pli_index (a alen b blen : Z) : R mem Z :=
  if blen <=? 0 then retR 1
  else if alen <? blen then retR 0
  else index_loop (Z.to_nat (alen - blen + 1)) a b blen 0.

Definition pli_center (dst dstcap s slen w : Z) : R mem unit :=
  let w := if w <? 0 then 0 else w in
  let field := if w <? dstcap then w else dstcap in
  let take := if slen <? field then slen else field in
  let left := Z.quot (field - take) 2 in
  upto (Z.to_nat left) 0 (fun i => store (dst + i) blank) ;!
  upto (Z.to_nat take) 0 (fun k => let! c := load (s + k) in store (dst + (left + k)) c) ;!
  blank_from dst (left + take) field ;!
  blank_from dst field dstcap.

Definition pli_rank (s slen : Z) : R mem Z :=
  if 0 <? slen then let! c := load s in retR (code c) else retR 0.
Definition pli_collate (dst dstcap n : Z) : R mem unit :=
  (if 0 <? dstcap then store dst (char_of (Z.land n 255)) else retR tt) ;!
  blank_from dst 1 dstcap.
Definition pli_reverse (dst dstcap s slen : Z) : R mem unit :=
  let n := if slen <? dstcap then slen else dstcap in
  upto (Z.to_nat n) 0 (fun i => let! c := load (s + (slen - 1 - i)) in store (dst + i) c) ;!
  blank_from dst n dstcap.
