(* ===== verification/Ast.v ===== *)
(** * Expression nodes ([src/ast.h])

    [struct Expr] with every field.  An owned child ([ExprP]) is the child
    itself, [None] when the pointer is null (an argument whose parse failed is
    stored as null); a [Symbol*] is the index of the
    symbol in its owner's list; the [double] payload is its 64 bits. *)
From S2P Require Import Prelude Types Diag Lexer.

#[local] Set Warnings "-register-all".

Module Expr.
Inductive Kind :=
  | IntLit | FltLit | DecLit | CharLit | BitLit | VarRef | Binary | Unary | Call
  | Subscript | Star | ComplexLit | TypeTag.
#[global] Instance Kind_eq_dec : EqDecision Kind.
Proof. solve_decision. Defined.

Inductive t : Type := mk {
  kind : Kind; loc : SourceLoc; ty : Ty;
  ival : Z; wideIval : Z; fval : Z; decScale : Z; decPrec : Z;
  sval : text; name : text; path : list text; memberPath : list Z;
  sym : option nat; locPtr : option t;
  allocBaseRef : bool; isLabel : bool; folded : bool;
  op : Tok.t; a : option t; b : option t; args : list (option t) }.

(** The default member initialisers. *)
Definition default : t :=
  mk IntLit (mkLoc 0 0) Ty_default 0 0 0 0 0 [] [] [] [] None None false false false
    Tok.Eof None None [].

(** A literal: [IntLit] has scale 0 whatever [decScale] holds. *)
Definition intLit (v : Z) : t :=
  mk IntLit (mkLoc 0 0) Ty_default (i64 v) v 0 0 0 [] [] [] [] None None false false false
    Tok.Eof None None [].
Definition decLit (v scale prec : Z) : t :=
  mk DecLit (mkLoc 0 0) Ty_default (i64 v) v 0 scale prec [] [] [] [] None None false false false
    Tok.Eof None None [].
Definition binary (o : Tok.t) (x y : t) : t :=
  mk Binary (mkLoc 0 0) Ty_default 0 0 0 0 0 [] [] [] [] None None false false false
    o (Some x) (Some y) [].
Definition unary (o : Tok.t) (x : t) : t :=
  mk Unary (mkLoc 0 0) Ty_default 0 0 0 0 0 [] [] [] [] None None false false false
    o (Some x) None [].

(** [e] with its type and operands replaced. *)
Definition typed (e : t) (v : Ty) (x y : option t) : t :=
  mk (kind e) (loc e) v (ival e) (wideIval e) (fval e) (decScale e) (decPrec e) (sval e) (name e)
    (path e) (memberPath e) (sym e) (locPtr e) (allocBaseRef e) (isLabel e) (folded e) (op e)
    x y (args e).

(** Structural induction through the operands [a] and [b]. *)
Section Ind.
Variable P : t -> Prop.
Hypothesis step : forall e,
  (forall x, a e = Some x -> P x) -> (forall y, b e = Some y -> P y) -> P e.

Fixpoint operand_ind (e : t) : P e.
Proof using P step.
  apply step.
  - intros x. destruct e as [? ? ? ? ? ? ? ? ? ? ? ? ? ? ? ? ? ? oa ob l]. cbn. intros E.
    destruct oa as [x'|]; [|discriminate E]. injection E as <-. exact (operand_ind x').
  - intros y. destruct e as [? ? ? ? ? ? ? ? ? ? ? ? ? ? ? ? ? ? oa ob l]. cbn. intros E.
    destruct ob as [y'|]; [|discriminate E]. injection E as <-. exact (operand_ind y').
Defined.
End Ind.
End Expr.
