(* ===== verification/ConstFold.v ===== *)
(** * Compile-time evaluation of constant expressions ([src/constfold.h], [src/constfold.cpp])

    128-bit integers are [Z] wrapped by [i128] after every operation, which is
    the portable arithmetic of [Wide128]; [int] fields are kept as they are
    written (scales and digit counts).  A function that returns [false] is
    [None]; for [foldConstExpr], which then leaves its node alone, [Untouched]. *)
From S2P Require Import Prelude Types Diag Lexer Ast.

Record ConstNum := mkConst { value : Z; scale : Z; prec : Z }.
#[global] Instance ConstNum_eq_dec : EqDecision ConstNum.
Proof. solve_decision. Defined.

(** [for (int i = 0; i < n; ++i) v = v * 10;] *)
Fixpoint times10 (n : nat) (v : Z) : Z :=
  match n with O => v | S n' => times10 n' (i128 (v * 10)) end.

Definition pow10 (k : Z) : Z := times10 (Z.to_nat k) 1.

Definition leafScale (e : Expr.t) : Z :=
  if bool_decide (Expr.kind e = Expr.DecLit) then Expr.decScale e else 0.

Definition scaleUp (v from to : Z) : Z := times10 (Z.to_nat (to - from)) v.

Fixpoint maxLeafMag (e : Expr.t) (scale out : Z) : option Z :=
  match Expr.kind e with
  | Expr.IntLit | Expr.DecLit =>
      let ls := leafScale e in
      let v := if ls <? scale then scaleUp (Expr.wideIval e) ls scale else Expr.wideIval e in
      let v := if v <? 0 then i128 (- v) else v in
      Some (if out <? v then v else out)
  | Expr.Unary =>
      if bool_decide (Expr.op e = Tok.Minus) || bool_decide (Expr.op e = Tok.Plus)
      then match Expr.a e with Some x => maxLeafMag x scale out | None => None end
      else None
  | Expr.Binary =>
      if negb (bool_decide (Expr.op e = Tok.Plus)) && negb (bool_decide (Expr.op e = Tok.Minus)) &&
         negb (bool_decide (Expr.op e = Tok.Star))
      then None
      else match Expr.a e with
           | Some x =>
               match maxLeafMag x scale out with
               | Some out => match Expr.b e with Some y => maxLeafMag y scale out | None => None end
               | None => None
               end
           | None => None
           end
  | _ => None
  end.

Definition storageDigits (ty : Ty) : Z :=
  let bits := intBits ty in if bits =? 128 then 38 else if bits =? 64 then 18 else 9.

(** [do { u /= 10; ++digits; } while (u != 0);] on the magnitude, a 128-bit
    unsigned value, which has at most 39 digits. *)
Fixpoint count_digits (fuel : nat) (u digits : Z) : Z :=
  match fuel with
  | O => digits
  | S f => if u / 10 =? 0 then digits + 1 else count_digits f (u / 10) (digits + 1)
  end.
Definition pli_mag (v : Z) : Z := uwrap 128 (Z.abs v).
Definition constDigits (v : Z) : Z := count_digits 39 (pli_mag v) 0.

Fixpoint constNumOf (e : Expr.t) : option ConstNum :=
  match Expr.kind e with
  | Expr.IntLit | Expr.DecLit =>
      Some (mkConst (Expr.wideIval e) (leafScale e) (constDigits (Expr.wideIval e)))
  | Expr.Unary =>
      match Expr.a e with
      | Some x =>
          match constNumOf x with
          | Some in_ =>
              if bool_decide (Expr.op e = Tok.Minus)
              then Some (mkConst (i128 (- value in_)) (scale in_) (prec in_))
              else if negb (bool_decide (Expr.op e = Tok.Plus)) then None else Some in_
          | None => None
          end
      | None => None
      end
  | Expr.Binary =>
      match Expr.a e, Expr.b e with
      | Some x, Some y =>
          match constNumOf x, constNumOf y with
          | Some a, Some b =>
              if bool_decide (Expr.op e = Tok.Plus) || bool_decide (Expr.op e = Tok.Minus) then
                let s := Z.max (scale a) (scale b) in
                let av := scaleUp (value a) (scale a) s in
                let bv := scaleUp (value b) (scale b) s in
                let v := i128 (if bool_decide (Expr.op e = Tok.Plus) then av + bv else av - bv) in
                Some (mkConst v s (constDigits v))
              else if bool_decide (Expr.op e = Tok.Star) then
                let v := i128 (value a * value b) in
                Some (mkConst v (scale a + scale b) (constDigits v))
              else None
          | _, _ => None
          end
      | _, _ => None
      end
  | _ => None
  end.

(** The value at the literal's scale, rounding half away from zero.  [None]: the
    power of ten wrapped to zero, and the code divides by it. *)
Definition rescale (n : ConstNum) (s : Z) : option Z :=
  if scale n <? s then Some (scaleUp (value n) (scale n) s)
  else if s <? scale n then
    let k := scale n - s in
    let d := pow10 k in
    let half := i128 (pow10 (k - 1) * 5) in
    let sign := if value n <? 0 then -1 else 1 in
    if d =? 0 then None
    else Some (i128 (Z.quot (i128 (value n + i128 (half * sign))) d))
  else Some (value n).

(** The rewritten node. *)
Definition literal (e : Expr.t) (ty : Ty) (v s digits : Z) : Expr.t :=
  Expr.mk Expr.DecLit (Expr.loc e) ty (i64 v) v (Expr.fval e) s digits (Expr.sval e) []
    (Expr.path e) (Expr.memberPath e) None (Expr.locPtr e) (Expr.allocBaseRef e)
    (Expr.isLabel e) true (Expr.op e) None None (Expr.args e).

(** What a call does: [true] with the rewritten node, [false], or a division by
    zero in the compiler. *)
Inductive fold_result := Folded (e : Expr.t) | Untouched | DividesByZero.

Definition foldConstExpr (e : Expr.t) (ty : Ty) (s : Z) : fold_result :=
  if negb (bool_decide (k ty = FixedDec)) then Untouched
  else
    match constNumOf e with
    | None => Untouched
    | Some n =>
        match rescale n s with
        | None => DividesByZero
        | Some v =>
            let digits := constDigits v in
            if (Types.prec ty <? digits) || (storageDigits ty <? digits) then Untouched
            else
              match maxLeafMag e s 0 with
              | None => Untouched
              | Some leaf =>
                  if Types.prec ty <? constDigits leaf then Untouched
                  else Folded (literal e ty v s digits)
              end
        end
    end.

#[global] Arguments constDigits : simpl never.

(** ** Digits and magnitudes *)
Lemma count_digits_spec f u d : 0 <= u < 10 ^ Z.of_nat f -> (0 < f)%nat ->
  exists n, count_digits f u d = d + n /\ 1 <= n /\ u < 10 ^ n /\ (1 < n -> 10 ^ (n - 1) <= u).
Proof.
  revert u d. induction f as [|f IH]; intros u d Hu Hf; [lia|]. cbn [count_digits].
  pose proof (Z.div_mod u 10 ltac:(lia)). pose proof (Z.mod_pos_bound u 10 ltac:(lia)).
  rewrite Nat2Z.inj_succ, Z.pow_succ_r in Hu by lia.
  destruct (Z.eqb_spec (u / 10) 0) as [E|E].
  - exists 1. repeat split; lia.
  - assert (0 < f)%nat by (destruct f; [cbn in Hu; lia|lia]).
    destruct (IH (u / 10) (d + 1)) as (n & -> & Hn & Hlt & Hge); [lia..|].
    exists (n + 1). split; [lia|]. split; [lia|]. rewrite Z.pow_add_r by lia. split; [lia|].
    intros _. replace (n + 1 - 1) with (n - 1 + 1) by lia. rewrite Z.pow_add_r by lia.
    destruct (Z.eq_dec n 1) as [->|]; [lia|]. specialize (Hge ltac:(lia)). lia.
Qed.

Lemma pli_mag_abs v : srange 128 v -> pli_mag v = Z.abs v.
Proof. intros Hv. unfold pli_mag. apply uwrap_small. unfold srange, urange in *. lia. Qed.

Lemma constDigits_abs v w : Z.abs v = Z.abs w -> constDigits v = constDigits w.
Proof. intros E. unfold constDigits, pli_mag. by rewrite E. Qed.

(** [constDigits] counts decimal digits: the value has at most [p] of them
    exactly when its magnitude is below [10^p]. *)
Lemma constDigits_le v p : srange 128 v -> 1 <= p -> constDigits v <= p <-> Z.abs v < 10 ^ p.
Proof.
  intros Hv Hp. unfold constDigits. rewrite pli_mag_abs by done.
  destruct (count_digits_spec 39 (Z.abs v) 0) as (n & -> & Hn & Hlt & Hge);
    [unfold srange in Hv; lia|lia|].
  rewrite Z.add_0_l. split.
  - intros Hle. eapply Z.lt_le_trans; [exact Hlt|]. apply Z.pow_le_mono_r; lia.
  - intros H. destruct (Z.le_gt_cases n p) as [|Hgt]; [done|]. specialize (Hge ltac:(lia)).
    assert (10 ^ p <= 10 ^ (n - 1)) by (apply Z.pow_le_mono_r; lia). lia.
Qed.

Lemma constDigits_pos v : 1 <= constDigits v.
Proof.
  pose proof (uwrap_range 128 (Z.abs v) ltac:(lia)) as H. change (urange 128 (pli_mag v)) in H.
  unfold constDigits, urange in *. destruct (count_digits_spec 39 (pli_mag v) 0) as (n & -> & ? & _); lia.
Qed.

Lemma storageDigits_range ty : storageDigits ty <= 38.
Proof. unfold storageDigits. cbn zeta. destruct (_ =? 128); [|destruct (_ =? 64)]; lia. Qed.

(** Powers of ten are exact while they fit. *)
Lemma times10_exact n v : Z.abs v * 10 ^ Z.of_nat n < 2 ^ 127 -> times10 n v = v * 10 ^ Z.of_nat n.
Proof.
  revert v. induction n as [|n IH]; intros v Hv; [cbn; lia|]. cbn [times10].
  rewrite Nat2Z.inj_succ, Z.pow_succ_r in * by lia.
  assert (0 < 10 ^ Z.of_nat n) by lia.
  rewrite swrap_small; [|lia|unfold srange; cbn; nia].
  rewrite IH by nia. lia.
Qed.

Lemma scaleUp_exact v from to : from <= to -> Z.abs v * 10 ^ (to - from) < 2 ^ 127 ->
  scaleUp v from to = v * 10 ^ (to - from).
Proof.
  intros Hle Hv. unfold scaleUp. rewrite times10_exact; rewrite Z2Nat.id by lia; done.
Qed.
Lemma scaleUp_ge v from to : to <= from -> scaleUp v from to = v.
Proof. intros H. unfold scaleUp. by replace (Z.to_nat (to - from)) with O by lia. Qed.

Lemma pow10_exact k : 0 <= k <= 38 -> pow10 k = 10 ^ k.
Proof.
  intros Hk. unfold pow10.
  assert (10 ^ k <= 10 ^ 38) by (apply Z.pow_le_mono_r; lia).
  rewrite times10_exact; rewrite Z2Nat.id by lia; lia.
Qed.

(** ** The exact value *)

(** The exact value of a sum, a difference or a product of decimal literals, as
    a numerator and the scale it is over, with no width limit. *)
Definition at_scale (v from to : Z) : Z := v * 10 ^ (to - from).
Fixpoint exact (e : Expr.t) : option (Z * Z) :=
  match Expr.kind e with
  | Expr.IntLit => Some (Expr.wideIval e, 0)
  | Expr.DecLit => Some (Expr.wideIval e, Expr.decScale e)
  | Expr.Unary =>
      match Expr.a e with
      | Some x =>
          match exact x, Expr.op e with
          | Some (v, s), Tok.Minus => Some (- v, s)
          | Some (v, s), Tok.Plus => Some (v, s)
          | _, _ => None
          end
      | None => None
      end
  | Expr.Binary =>
      match Expr.a e, Expr.b e with
      | Some x, Some y =>
          match exact x, exact y, Expr.op e with
          | Some (v, s), Some (w, t), Tok.Plus =>
              Some (at_scale v s (Z.max s t) + at_scale w t (Z.max s t), Z.max s t)
          | Some (v, s), Some (w, t), Tok.Minus =>
              Some (at_scale v s (Z.max s t) - at_scale w t (Z.max s t), Z.max s t)
          | Some (v, s), Some (w, t), Tok.Star => Some (v * w, s + t)
          | _, _, _ => None
          end
      | _, _ => None
      end
  | _ => None
  end.

(** Every constant of the tree, and every intermediate result, is a 128-bit
    integer also when it is expressed at the scale of its operation. *)
Definition i128_ok (v : Z) : bool := Z.abs v <? 2 ^ 127.
Fixpoint in_range (e : Expr.t) : bool :=
  match Expr.kind e with
  | Expr.IntLit | Expr.DecLit => i128_ok (Expr.wideIval e)
  | Expr.Unary => match Expr.a e with Some x => in_range x | None => false end
  | Expr.Binary =>
      match Expr.a e, Expr.b e with
      | Some x, Some y =>
          in_range x && in_range y &&
          match exact x, exact y with
          | Some (v, s), Some (w, t) =>
              i128_ok (at_scale v s (Z.max s t)) && i128_ok (at_scale w t (Z.max s t)) &&
              match exact e with Some (r, _) => i128_ok r | None => true end
          | _, _ => true
          end
      | _, _ => false
      end
  | _ => false
  end.

Lemma i128_ok_range v : i128_ok v = true -> srange 128 v.
Proof. unfold i128_ok, srange. change (2 ^ (128 - 1)) with (2 ^ 127). lia. Qed.
Lemma i128_ok_wrap v : i128_ok v = true -> i128 v = v.
Proof. intros H. apply swrap_small; [lia|by apply i128_ok_range]. Qed.

Lemma scaleUp_at_scale v from to : from <= to -> i128_ok (at_scale v from to) = true ->
  scaleUp v from to = at_scale v from to.
Proof.
  intros Hle H. apply scaleUp_exact; [done|]. unfold i128_ok, at_scale in H.
  rewrite Z.abs_mul in H. rewrite (Z.abs_eq (10 ^ _)) in H by (apply Z.pow_nonneg; lia). lia.
Qed.

(** In range, [constNumOf] computes the exact value. *)
Lemma constNumOf_exact e : in_range e = true ->
  match constNumOf e with
  | Some n => exact e = Some (value n, scale n) /\ i128_ok (value n) = true
  | None => exact e = None
  end.
Proof.
  induction e as [e IHa IHb] using Expr.operand_ind.
  destruct e as [kd ? ? ? wv ? dsc ? ? ? ? ? ? ? ? ? ? o oa ob ?].
  cbn [Expr.a Expr.b] in *. intros H.
  destruct kd; cbn in H |- *; try done.
  - destruct oa as [x|], ob as [y|]; try done.
    apply andb_true_iff in H as [[Hx Hy]%andb_true_iff H].
    specialize (IHa x eq_refl Hx). specialize (IHb y eq_refl Hy).
    destruct (constNumOf x) as [[v s p]|]; cbn in IHa; [destruct IHa as [Ea Hv]|by rewrite IHa].
    destruct (constNumOf y) as [[w t q]|]; cbn in IHb;
      [destruct IHb as [Eb Hw]|rewrite IHb; by destruct (exact x) as [[]|]].
    rewrite Ea, Eb in *.
    cbn in *. apply andb_true_iff in H as [[H1 H2]%andb_true_iff H].
    destruct o; cbn in H |- *; try done.
    1,2: rewrite !scaleUp_at_scale, i128_ok_wrap by (done || lia); done.
    rewrite (bool_decide_eq_false_2 (Tok.Star = Tok.Plus)), (bool_decide_eq_false_2 (Tok.Star = Tok.Minus)),
      (bool_decide_eq_true_2 (Tok.Star = Tok.Star)) by done.
    cbn. by rewrite i128_ok_wrap.
  - destruct oa as [x|]; try done. specialize (IHa x eq_refl H).
    destruct (constNumOf x) as [[v s p]|]; cbn in IHa; [destruct IHa as [-> Hv]|by rewrite IHa].
    destruct o; cbn; try done. assert (i128_ok (- v) = true) by (unfold i128_ok in *; lia).
    by rewrite i128_ok_wrap.
Qed.

(** ** Rounding *)

(** [w] is [V / 10^k] rounded to an integer, a tie going away from zero. *)
Definition rounds_to (V k w : Z) : Prop :=
  2 * Z.abs (V - w * 10 ^ k) <= 10 ^ k /\
  (2 * Z.abs (V - w * 10 ^ k) = 10 ^ k -> Z.abs V < Z.abs (w * 10 ^ k)).

(** Nearest with ties away is a function of the value. *)
Lemma round_half_away V d : 0 < d -> Z.even d = true ->
  let w := Z.quot (V + d / 2 * (if V <? 0 then -1 else 1)) d in
  2 * Z.abs (V - w * d) <= d /\ (2 * Z.abs (V - w * d) = d -> Z.abs V < Z.abs (w * d)).
Proof.
  intros Hd He. cbn zeta. apply Z.even_spec in He as [h ->].
  rewrite (Z.mul_comm 2 h), Z.div_mul by lia.
  destruct (Z.ltb_spec V 0).
  - replace (V + h * -1) with (- (- V + h)) by lia. rewrite Z.quot_opp_l by lia.
    rewrite Z.quot_div_nonneg by lia.
    pose proof (Z.div_mod (- V + h) (h * 2) ltac:(lia)).
    pose proof (Z.mod_pos_bound (- V + h) (h * 2) ltac:(lia)).
    generalize dependent ((- V + h) / (h * 2)). intros w ?. split; lia.
  - rewrite Z.quot_div_nonneg by lia.
    pose proof (Z.div_mod (V + h * 1) (h * 2) ltac:(lia)).
    pose proof (Z.mod_pos_bound (V + h * 1) (h * 2) ltac:(lia)).
    generalize dependent ((V + h * 1) / (h * 2)). intros w ?. split; lia.
Qed.

(** The folded value: exact when the scale grows, rounded when it shrinks. *)
Definition folds_to (V S s w : Z) : Prop :=
  if S <=? s then w = V * 10 ^ (s - S) else rounds_to V (S - s) w.

(** The scale change itself stays within 128 bits. *)
Definition rescale_ok (V S s : Z) : bool :=
  if S <=? s then i128_ok (V * 10 ^ (s - S))
  else (S - s <=? 38) && (Z.abs V + 10 ^ (S - s) <? 2 ^ 127).

Lemma rescale_exact n s : i128_ok (value n) = true -> rescale_ok (value n) (scale n) s = true ->
  exists w, rescale n s = Some w /\ folds_to (value n) (scale n) s w /\ srange 128 w.
Proof.
  destruct n as [V S p]. cbn [value scale]. unfold rescale_ok, rescale, folds_to. cbn [value scale].
  intros HV Hr. destruct (Z.leb_spec S s).
  - destruct (Z.ltb_spec S s).
    + eexists. split; [reflexivity|]. rewrite scaleUp_at_scale by (done || lia).
      split; [done|by apply i128_ok_range].
    + destruct (Z.ltb_spec s S); [lia|]. exists V. split; [done|].
      replace (s - S) with 0 by lia. rewrite Z.mul_1_r. split; [done|by apply i128_ok_range].
  - destruct (Z.ltb_spec S s); [lia|]. destruct (Z.ltb_spec s S); [|lia]. clear H0.
    apply andb_true_iff in Hr as [Hk Hr].
    rewrite !pow10_exact by lia.
    assert (10 ^ (S - s) = 10 * 10 ^ (S - s - 1)) as Ed.
    { rewrite <- Z.pow_succ_r by lia. f_equal. lia. }
    assert (0 < 10 ^ (S - s - 1)) by (apply Z.pow_pos_nonneg; lia).
    set (h := 10 ^ (S - s - 1)) in *. unfold rounds_to. rewrite !Ed in *. clear Ed.
    assert (forall z, Z.abs z < 2 ^ 127 -> i128 z = z) as Hw.
    { intros z Hz. apply i128_ok_wrap. unfold i128_ok. lia. }
    set (sg := if V <? 0 then -1 else 1).
    assert (sg = -1 \/ sg = 1) as Hsg by (unfold sg; destruct (V <? 0); lia).
    rewrite (Hw (h * 5)) by lia. rewrite (Hw (h * 5 * sg)) by (destruct Hsg as [-> | ->]; lia).
    rewrite (Hw (V + h * 5 * sg)) by (destruct Hsg as [-> | ->]; lia).
    destruct (Z.eqb_spec (10 * h) 0); [lia|].
    pose proof (round_half_away V (10 * h) ltac:(lia)) as Hround. cbn zeta in Hround. fold sg in Hround.
    replace (10 * h / 2) with (h * 5) in Hround by (apply Z.div_unique_exact; lia).
    specialize (Hround ltac:(by rewrite Z.even_mul)). destruct Hround as [Hn Ht].
    set (q := Z.quot (V + h * 5 * sg) (10 * h)) in *. clearbody q.
    assert (Z.abs q < 2 ^ 127) by nia. rewrite Hw by done.
    exists q. split; [done|]. split; [done|]. apply i128_ok_range. unfold i128_ok. lia.
Qed.

(** ** What the fold accepts *)

(** The constants of an expression made of [+], [-] and [*] only; [None] when it
    holds anything else, a division in particular. *)
Fixpoint leaves (e : Expr.t) : option (list Expr.t) :=
  match Expr.kind e with
  | Expr.IntLit | Expr.DecLit => Some [e]
  | Expr.Unary =>
      match Expr.op e, Expr.a e with
      | (Tok.Plus | Tok.Minus), Some x => leaves x
      | _, _ => None
      end
  | Expr.Binary =>
      match Expr.op e, Expr.a e, Expr.b e with
      | (Tok.Plus | Tok.Minus | Tok.Star), Some x, Some y =>
          match leaves x, leaves y with Some l, Some m => Some (l ++ m) | _, _ => None end
      | _, _, _ => None
      end
  | _ => None
  end.

(** A constant's magnitude as the runtime path would convert it to scale [s];
    a constant of a larger scale is taken at its own. *)
Definition leaf_mag (s : Z) (l : Expr.t) : Z :=
  Z.abs (Expr.wideIval l) * 10 ^ Z.max 0 (s - leafScale l).

Lemma leaf_step (s out : Z) (l : Expr.t) : leaf_mag s l < 2 ^ 127 ->
  let v := if leafScale l <? s then scaleUp (Expr.wideIval l) (leafScale l) s else Expr.wideIval l in
  let v := if v <? 0 then i128 (- v) else v in
  (if out <? v then v else out) = Z.max out (leaf_mag s l).
Proof.
  intros Hm. cbn zeta. unfold leaf_mag in *.
  assert ((if leafScale l <? s then scaleUp (Expr.wideIval l) (leafScale l) s else Expr.wideIval l)
    = Expr.wideIval l * 10 ^ Z.max 0 (s - leafScale l)) as ->.
  { destruct (Z.ltb_spec (leafScale l) s).
    - rewrite Z.max_r in * by lia. by apply scaleUp_exact; [lia|].
    - rewrite Z.max_l by lia. lia. }
  assert (0 < 10 ^ Z.max 0 (s - leafScale l)) as Hp by (apply Z.pow_pos_nonneg; lia).
  set (t := 10 ^ Z.max 0 (s - leafScale l)) in *.
  assert (Z.abs (Expr.wideIval l * t) = Z.abs (Expr.wideIval l) * t) as Ea by (rewrite Z.abs_mul; lia).
  rewrite <- Ea in *. generalize dependent (Expr.wideIval l * t). intros v Hm _.
  destruct (Z.ltb_spec v 0).
  - rewrite i128_ok_wrap by (unfold i128_ok; lia). destruct (Z.ltb_spec out (- v)); lia.
  - destruct (Z.ltb_spec out v); lia.
Qed.

Lemma maxLeafMag_spec e s out :
  match leaves e with
  | Some ls => Forall (fun l => leaf_mag s l < 2 ^ 127) ls ->
      maxLeafMag e s out = Some (fold_left (fun m l => Z.max m (leaf_mag s l)) ls out)
  | None => maxLeafMag e s out = None
  end.
Proof.
  revert out. induction e as [e IHa IHb] using Expr.operand_ind. intros out.
  destruct e as [kd ? ? ? wv ? dsc ? ? ? ? ? ? ? ? ? ? o oa ob ?]. cbn [Expr.a Expr.b] in *.
  destruct kd; try done.
  - cbn [leaves Expr.kind]. intros [Hl _]%Forall_cons. cbn [fold_left].
    rewrite <- leaf_step by done. done.
  - cbn [leaves Expr.kind]. intros [Hl _]%Forall_cons. cbn [fold_left].
    rewrite <- leaf_step by done. done.
  - assert (forall x y, oa = Some x -> ob = Some y ->
      match (match leaves x, leaves y with Some l, Some m => Some (l ++ m) | _, _ => None end) with
      | Some ls => Forall (fun l => leaf_mag s l < 2 ^ 127) ls ->
          match maxLeafMag x s out with Some out => maxLeafMag y s out | None => None end =
            Some (fold_left (fun m l => Z.max m (leaf_mag s l)) ls out)
      | None => match maxLeafMag x s out with Some out => maxLeafMag y s out | None => None end = None
      end \/ (leaves x <> None /\ leaves y = None)) as H.
    { intros x y -> ->. specialize (IHa x eq_refl out). destruct (leaves x) as [l|].
      - destruct (leaves y) as [m|] eqn:Ey; [|right; done]. left. intros [Hl Hm]%Forall_app.
        rewrite IHa by done. specialize (IHb y eq_refl). rewrite Ey in IHb.
        rewrite IHb by done. by rewrite fold_left_app.
      - left. by rewrite IHa. }
    assert (forall x y o', oa = Some x -> ob = Some y -> leaves y = None ->
      match maxLeafMag x s o' with Some out => maxLeafMag y s out | None => None end = None) as H2.
    { intros x y o' _ -> Ey. destruct (maxLeafMag x s o'); [|done].
      specialize (IHb y eq_refl z). by rewrite Ey in IHb. }
    destruct o; try done.
    all: destruct oa as [x|], ob as [y|]; try done;
      try (cbn; by destruct (maxLeafMag x s out)).
    all: destruct (H x y eq_refl eq_refl) as [H'|[_ Ey]]; [exact H'|].
    all: cbn; rewrite Ey; destruct (leaves x); by apply H2.
  - destruct o; try done; destruct oa as [x|]; try done; exact (IHa x eq_refl out).
Qed.

Lemma fold_max_le s ls out m : fold_left (fun m l => Z.max m (leaf_mag s l)) ls out <= m <->
  out <= m /\ Forall (fun l => leaf_mag s l <= m) ls.
Proof.
  revert out. induction ls as [|l ls IH]; intros out; cbn [fold_left].
  - split; [done|]. by intros [? _].
  - rewrite IH, Forall_cons, Z.max_lub_iff. tauto.
Qed.

(** The literal's value and operands, when [foldConstExpr] folds. *)
Lemma fold_inv e ty s e' : foldConstExpr e ty s = Folded e' ->
  exists n v leaf, k ty = FixedDec /\ constNumOf e = Some n /\ rescale n s = Some v /\
    maxLeafMag e s 0 = Some leaf /\ constDigits v <= Types.prec ty /\ constDigits v <= 38 /\
    constDigits leaf <= Types.prec ty /\ e' = literal e ty v s (constDigits v).
Proof.
  unfold foldConstExpr. case_bool_decide; cbn [negb]; [|done].
  destruct (constNumOf e) as [n|]; [|done]. destruct (rescale n s) as [v|] eqn:Er; [|done].
  destruct (Z.ltb_spec (Types.prec ty) (constDigits v)); [done|].
  pose proof (storageDigits_range ty).
  destruct (Z.ltb_spec (storageDigits ty) (constDigits v)); [done|].
  destruct (maxLeafMag e s 0) as [leaf|]; [|done].
  destruct (Z.ltb_spec (Types.prec ty) (constDigits leaf)); [done|].
  intros [= <-]. exists n, v, leaf. repeat split; try done; lia.
Qed.

(** C7: constant folding is sound.  When no intermediate value leaves 128 bits, a
    folded expression becomes the DECIMAL literal whose value is the exact value of
    the expression at the requested scale: exact when the scale does not shrink,
    otherwise rounded to nearest with ties away from zero.  The literal fits the
    declared precision, has the requested type and scale, and no operands left. *)
Theorem fold_sound e ty s e' V S :
  foldConstExpr e ty s = Folded e' -> exact e = Some (V, S) -> in_range e = true ->
  rescale_ok V S s = true ->
  Expr.kind e' = Expr.DecLit /\ Expr.ty e' = ty /\ Expr.decScale e' = s /\
  Expr.a e' = None /\ Expr.b e' = None /\
  folds_to V S s (Expr.wideIval e') /\ Z.abs (Expr.wideIval e') < 10 ^ Types.prec ty.
Proof.
  intros (n & v & leaf & _ & En & Er & _ & Hp & _ & _ & ->)%fold_inv Ex Hr Hs.
  pose proof (constNumOf_exact e Hr) as H. rewrite En in H. destruct H as [H Hv].
  rewrite H in Ex. injection Ex as <- <-.
  destruct (rescale_exact n s Hv Hs) as (w & Ew & Hw & Hrange). rewrite Ew in Er. injection Er as ->.
  repeat split; try done. apply constDigits_le; try done. pose proof (constDigits_pos v). lia.
Qed.

(** 2 * (1.25 - 0.5) at scale 1 is 1.5. *)
Lemma fold_sound_witness :
  let e := Expr.binary Tok.Star (Expr.intLit 2)
             (Expr.binary Tok.Minus (Expr.decLit 125 2 3) (Expr.decLit 5 1 1)) in
  let e' := literal e (fixedDec 5 1) 15 1 2 in
  foldConstExpr e (fixedDec 5 1) 1 = Folded e' /\
  Expr.kind e' = Expr.DecLit /\ Expr.ty e' = fixedDec 5 1 /\ Expr.decScale e' = 1 /\
  Expr.a e' = None /\ Expr.b e' = None /\
  folds_to 150 2 1 (Expr.wideIval e') /\ Z.abs (Expr.wideIval e') < 10 ^ Types.prec (fixedDec 5 1).
Proof.
  split; [vm_compute; reflexivity|].
  eapply (fold_sound (Expr.binary Tok.Star (Expr.intLit 2)
    (Expr.binary Tok.Minus (Expr.decLit 125 2 3) (Expr.decLit 5 1 1))) (fixedDec 5 1) 1 _ 150 2);
    vm_compute; reflexivity.
Defined.



(** The constants of a node are stored 128-bit integers. *)
Fixpoint lits_ok (e : Expr.t) : bool :=
  match Expr.kind e with
  | Expr.IntLit | Expr.DecLit => bool_decide (srange 128 (Expr.wideIval e))
  | Expr.Unary => match Expr.a e with Some x => lits_ok x | None => true end
  | Expr.Binary =>
      match Expr.a e with Some x => lits_ok x | None => true end &&
      match Expr.b e with Some y => lits_ok y | None => true end
  | _ => true
  end.

Lemma times10_range n v : srange 128 v -> srange 128 (times10 n v).
Proof. revert v. induction n as [|n IH]; intros v Hv; [done|]. apply IH. by apply swrap_range. Qed.

Lemma constNumOf_range e n : lits_ok e = true -> constNumOf e = Some n -> srange 128 (value n).
Proof.
  revert n. induction e as [e IHa _] using Expr.operand_ind. intros n.
  destruct e as [kd ? ? ? wv ? dsc ? ? ? ? ? ? ? ? ? ? o oa ob ?]. cbn [Expr.a Expr.b] in *.
  destruct kd; cbn [lits_ok constNumOf Expr.kind Expr.a Expr.b Expr.op Expr.wideIval]; try done.
  - intros H%bool_decide_eq_true [= <-]. done.
  - intros H%bool_decide_eq_true [= <-]. done.
  - intros _. destruct oa as [x|], ob as [y|]; try done.
    destruct (constNumOf x), (constNumOf y); try done.
    destruct (_ || _); [|case_bool_decide; [|done]]; intros [= <-]; by apply swrap_range.
  - intros H. destruct oa as [x|]; [|done]. specialize (IHa x eq_refl).
    destruct (constNumOf x) as [m|]; [|done]. specialize (IHa m H eq_refl).
    case_bool_decide; [intros [= <-]; by apply swrap_range|].
    destruct (negb _); [done|]. by intros [= <-].
Qed.

Lemma rescale_range n s v : srange 128 (value n) -> rescale n s = Some v -> srange 128 v.
Proof.
  intros Hn. unfold rescale. cbn zeta. destruct (scale n <? s); [|destruct (s <? scale n)].
  - intros [= <-]. by apply times10_range.
  - destruct (pow10 _ =? 0); [done|]. intros [= <-]. by apply swrap_range.
  - by intros [= <-].
Qed.

(** folding is idempotent: a folded constant, folded again to the same type
    and scale, is itself. *)
Theorem fold_idempotent e ty s e' :
  lits_ok e = true -> foldConstExpr e ty s = Folded e' -> foldConstExpr e' ty s = Folded e'.
Proof.
  intros Hok H. pose proof H as (n & v & leaf & Ek & En & Er & _ & Hp & H38 & _ & ->)%fold_inv.
  assert (srange 128 v) as Hv by (eapply rescale_range; [by eapply constNumOf_range|done]).
  apply constDigits_le in H38 as Hmag; [|done|lia].
  assert (constDigits (if v <? 0 then i128 (- v) else v) = constDigits v) as Hd.
  { apply constDigits_abs. destruct (Z.ltb_spec v 0); [|done].
    rewrite i128_ok_wrap; [lia|]. unfold i128_ok. lia. }
  assert (0 <= (if v <? 0 then i128 (- v) else v)) as Hnn.
  { destruct (Z.ltb_spec v 0); [|done]. rewrite i128_ok_wrap; [lia|]. unfold i128_ok. lia. }
  unfold foldConstExpr in *. rewrite En, Er in H.
  change (constNumOf (literal e ty v s (constDigits v))) with (Some (mkConst v s (constDigits v))).
  cbn match beta.
  assert (rescale (mkConst v s (constDigits v)) s = Some v) as ->.
  { unfold rescale. cbn [scale value]. by rewrite Z.ltb_irrefl. }
  destruct (negb _); [done|].
  destruct (_ || _); [done|].
  assert (maxLeafMag (literal e ty v s (constDigits v)) s 0 =
    Some (if v <? 0 then i128 (- v) else v)) as ->.
  { cbn -[i128 Z.ltb]. unfold leafScale. cbn -[i128 Z.ltb]. rewrite Z.ltb_irrefl.
    destruct (Z.ltb_spec 0 (if v <? 0 then i128 (- v) else v)); [done|]. f_equal. lia. }
  rewrite Hd. destruct (Z.ltb_spec (Types.prec ty) (constDigits v)); [lia|]. done.
Qed.

Lemma fold_idempotent_witness :
  let e := Expr.binary Tok.Star (Expr.decLit 15 1 2) (Expr.unary Tok.Minus (Expr.decLit 25 1 2)) in
  let e' := literal e (fixedDec 5 1) (-38) 1 2 in
  foldConstExpr e (fixedDec 5 1) 1 = Folded e' /\ foldConstExpr e' (fixedDec 5 1) 1 = Folded e'.
Proof.
  split; [vm_compute; reflexivity|].
  apply (fold_idempotent (Expr.binary Tok.Star (Expr.decLit 15 1 2)
    (Expr.unary Tok.Minus (Expr.decLit 25 1 2))) (fixedDec 5 1) 1); vm_compute; reflexivity.
Defined.

(** the fold is not sound without the width condition.  The product of two
    20-digit constants that fits its type's precision check wraps to zero and is
    folded to zero, and a literal 128 fraction digits finer than the target makes
    the compiler divide by zero. *)
Theorem fold_overflow_unsound :
  let big := Expr.intLit 18446744073709551616 in
  let e := Expr.binary Tok.Star big big in
  exact e = Some (18446744073709551616 * 18446744073709551616, 0) /\
  (exists e', foldConstExpr e (fixedDec 31 0) 0 = Folded e' /\ Expr.wideIval e' = 0) /\
  foldConstExpr (Expr.decLit 1 128 1) (fixedDec 5 0) 0 = DividesByZero.
Proof.
  split; [vm_compute; reflexivity|]. split; [|vm_compute; reflexivity].
  eexists. split; [vm_compute; reflexivity|]. vm_compute. reflexivity.
Qed.
