(* ===== verification/Constants.v ===== *)
(** * Arithmetic constants ([src/parser.cpp])

    The conversion of a numeric token's spelling to the literal it denotes:
    integer constants in base 2 or 10, decimal constants, sterling constants,
    hex string literals, and the bounded integers of precisions and scales.
    128-bit values wrap as they do in the code. *)
From S2P Require Import Prelude Types Diag Lexer Ast ConstFold.

(** [strtol]/[strtoll]: skip blanks and a sign, read digits below [base] (at
    most 10), saturate to 64 bits.  The result is the value, the index of the
    first character not read (0 when no digit was), and [errno == ERANGE]. *)
Definition digit_below (base : Z) (c : char) : bool :=
  is_digit c && (code c - 48 <? base).
Definition strtoll (s : text) (base : Z) : Z * nat * bool :=
  let i := skip_while is_space s 0 in
  let neg := ceqb (at_ s i) "-" in
  let i := if neg || ceqb (at_ s i) "+" then S i else i in
  let j := skip_while (digit_below base) s i in
  if (j =? i)%nat then (0, 0%nat, false)
  else
    let m := fold_left (fun v c => v * base + (code c - 48)) (substr s i (j - i)) 0 in
    let v := if neg then - m else m in
    (Z.max (- 2 ^ 63) (Z.min (2 ^ 63 - 1) v), j, negb (bool_decide (srange 64 v))).

Definition out_of_range (what : text) : text := what ++ txt " is out of range".

(** [*end != '\0'] *)
Definition stops_early (s : text) (j : nat) : bool := negb (ceqb (at_ s j) NUL).

Definition boundedNonNeg (s : text) (loc : SourceLoc) (d : Diags) (what rule : text) : Z * Diags :=
  let '(v, j, erange) := strtoll s 10 in
  if erange || (j =? 0)%nat || stops_early s j || (v <? 0) || (2147483647 <? v)
  then (0, error loc (out_of_range what) rule [] d)
  else (v, d).

Definition boundedInt (s : text) (loc : SourceLoc) (d : Diags) (what rule : text) : Z * Diags :=
  let '(v, j, erange) := strtoll s 10 in
  if erange || (j =? 0)%nat || stops_early s j || (v <? -2147483648) || (2147483647 <? v)
  then (0, error loc (out_of_range what) rule [] d)
  else (v, d).

Definition dimBoundFits (v : Z) : bool := (-2147483648 <=? v) && (v <=? 2147483647).

(** [v = v * base + (c - '0')], 128-bit. *)
Definition push_digit (base v : Z) (c : char) : Z := i128 (i128 (v * base) + (code c - 48)).

Definition set_const (kd : Expr.Kind) (iv wv ds dp : Z) (e : Expr.t) : Expr.t :=
  Expr.mk kd (Expr.loc e) (Expr.ty e) iv wv (Expr.fval e) ds dp (Expr.sval e) (Expr.name e)
    (Expr.path e) (Expr.memberPath e) (Expr.sym e) (Expr.locPtr e) (Expr.allocBaseRef e)
    (Expr.isLabel e) (Expr.folded e) (Expr.op e) (Expr.a e) (Expr.b e) (Expr.args e).

Definition parseIntConstant (s : text) (base : Z) (e : Expr.t) : Expr.t :=
  let v := fold_left (fun v c => if digit_below base c then push_digit base v c else v) s 0 in
  set_const (Expr.kind e) (fst (fst (strtoll s base))) v (Expr.decScale e) (Expr.decPrec e) e.

(** [s.find(c, from)] *)
Definition find_from (c : char) (s : text) (from : nat) : option nat :=
  let j := skip_while (fun x => negb (ceqb x c)) s from in
  if (j <? length s)%nat then Some j else None.

Definition all_digits (s : text) : bool := negb (bool_decide (s = [])) && forallb is_digit s.

(** Digit count of a non-negative 128-bit value, by repeated division. *)
Definition wide_digits (v : Z) : Z := constDigits v.

(** The four fields of a sterling constant: pounds, shillings, pence and the
    fraction of a penny; the flag tells whether a fraction was written. *)
Definition split_sterling (s : text) : option (text * text * text * text * bool) :=
  match find_from "." s 0 with
  | None => None
  | Some d1 =>
      match find_from "." s (S d1) with
      | None => None
      | Some d2 =>
          let pence := substr_from s (S d2) in
          match find_from "." pence 0 with
          | None => Some (substr s 0 d1, substr s (S d1) (d2 - d1 - 1), pence, [], false)
          | Some d3 =>
              Some (substr s 0 d1, substr s (S d1) (d2 - d1 - 1), substr pence 0 d3,
                    substr_from pence (S d3), true)
          end
      end
  end.

Definition parseSterlingConstant (s : text) (e : Expr.t) : option Expr.t :=
  match split_sterling s with
  | None => None
  | Some (poundsS, shillS, penceIntS, penceFracS, frac) =>
      if negb (all_digits poundsS) || negb (all_digits shillS) || negb (all_digits penceIntS) ||
         (frac && negb (all_digits penceFracS)) then None
      else if (2 <? length shillS)%nat || (2 <? length penceIntS)%nat || (38 <? length penceFracS)%nat
      then None
      else
        let shill := dec_value shillS in
        let penceInt := dec_value penceIntS in
        if (20 <=? shill) || (12 <=? penceInt) then None
        else
          let scale := Z.of_nat (length penceFracS) in
          let sig := skip_while (fun c => ceqb c "0") poundsS 0 in
          let poundsDigits :=
            if (sig <? length poundsS)%nat then Z.of_nat (length poundsS - sig) else 1 in
          if 38 <? poundsDigits + scale + 3 then None
          else
            let pounds := fold_left (push_digit 10) poundsS 0 in
            let penceFrac := fold_left (push_digit 10) penceFracS 0 in
            let value := i128 (i128 (i128 (pounds * 240) + shill * 12) + penceInt) in
            let value := i128 (times10 (Z.to_nat scale) value + penceFrac) in
            let prec := wide_digits value in
            if 38 <? prec then None
            else Some (set_const Expr.DecLit (i64 value) value scale prec e)
  end.

Definition parseDecConstant (s : text) (e : Expr.t) : Expr.t :=
  let '(intPart, fracPart) :=
    match find_from "." s 0 with
    | None => (s, [])
    | Some dot => (substr s 0 dot, substr_from s (S dot))
    end in
  let scaled := fold_left (push_digit 10) fracPart (fold_left (push_digit 10) intPart 0) in
  set_const (Expr.kind e) (i64 scaled) scaled (Z.of_nat (length fracPart))
    (Z.of_nat (length intPart + length fracPart)) e.

(** ** Hex string literals *)
Definition nibble (c : char) : Z :=
  if is_digit c then code c - 48
  else if (65 <=? code c) && (code c <=? 70) then code c - 65 + 10
  else if (97 <=? code c) && (code c <=? 102) then code c - 97 + 10
  else -1.

Fixpoint decode_pairs (hex : text) : option text :=
  match hex with
  | h :: l :: rest =>
      if (nibble h <? 0) || (nibble l <? 0) then None
      else match decode_pairs rest with
           | Some bytes => Some (char_of (nibble h * 16 + nibble l) :: bytes)
           | None => None
           end
  | _ => Some []
  end.

Definition decodeHexLiteral (hex : text) (loc : SourceLoc) (d : Diags) : option text * Diags :=
  if negb (Nat.even (length hex)) then
    (None, error loc (txt "a hex X literal needs an even digit count") (txt "(143)") [] d)
  else match decode_pairs hex with
       | None => (None, error loc (txt "a hex X literal needs hex digits") (txt "(143)") [] d)
       | Some bytes => (Some bytes, d)
       end.

(** ** Searching and cutting *)
Lemma prefix_len_app P a b : forallb P a = true -> prefix_len P (a ++ b) = (length a + prefix_len P b)%nat.
Proof. induction a as [|x a IH]; [done|]. cbn. intros [-> H]%andb_true_iff. by rewrite IH. Qed.

Lemma skip_while_app P a b c : forallb P b = true ->
  match c with x :: _ => P x = false | [] => True end ->
  skip_while P (a ++ b ++ c) (length a) = (length a + length b)%nat.
Proof.
  intros Hb Hc. unfold skip_while. rewrite drop_app_length, prefix_len_app by done.
  destruct c as [|x c]; cbn; [lia|]. rewrite Hc. lia.
Qed.

Definition lacks (c : char) (a : text) : bool := forallb (fun x => negb (ceqb x c)) a.

Lemma find_from_app c a b r : lacks c b = true ->
  find_from c (a ++ b ++ c :: r) (length a) = Some (length a + length b)%nat.
Proof.
  intros Hb. unfold find_from. rewrite skip_while_app; [|done|by rewrite ceqb_refl].
  by rewrite (proj2 (Nat.ltb_lt _ _)) by (rewrite !length_app; cbn [length]; lia).
Qed.
Lemma find_from_none c a b : lacks c b = true -> find_from c (a ++ b) (length a) = None.
Proof.
  intros Hb. unfold find_from. pose proof (skip_while_app (fun x => negb (ceqb x c)) a b [] Hb I) as H.
  rewrite app_nil_r in H. rewrite H.
  by rewrite (proj2 (Nat.ltb_ge _ _)) by (rewrite length_app; lia).
Qed.
Lemma digits_lack_dot s : forallb is_digit s = true -> lacks "." s = true.
Proof.
  intros H. unfold lacks. rewrite forallb_forall in *. intros x Hx. specialize (H x Hx).
  apply negb_true_iff. char_codes. lia.
Qed.
Lemma substr_app (a b c : text) : substr (a ++ b ++ c) (length a) (length b) = b.
Proof. unfold substr. rewrite drop_app_length. apply take_app_length. Qed.

(** ** Digit accumulation *)
Lemma dec_value_bounds s v : forallb is_digit s = true -> 0 <= v ->
  v * 10 ^ Z.of_nat (length s) <= dec_value_from v s < (v + 1) * 10 ^ Z.of_nat (length s).
Proof.
  revert v. induction s as [|c s IH]; intros v Hs Hv; [cbn; lia|].
  cbn [forallb] in Hs. apply andb_true_iff in Hs as [Hc Hs].
  change (dec_value_from v (c :: s)) with (dec_value_from (v * 10 + (code c - 48)) s).
  unfold is_digit in Hc. specialize (IH (v * 10 + (code c - 48)) Hs ltac:(lia)).
  cbn [length]. rewrite Nat2Z.inj_succ, Z.pow_succ_r by lia.
  assert (0 < 10 ^ Z.of_nat (length s)) by (apply Z.pow_pos_nonneg; lia). nia.
Qed.

(** The accumulation is exact as long as its result fits. *)
Lemma push_digits_exact s v : forallb is_digit s = true -> 0 <= v -> dec_value_from v s < 2 ^ 127 ->
  fold_left (push_digit 10) s v = dec_value_from v s.
Proof.
  revert v. induction s as [|c s IH]; intros v Hs Hv Hb; [done|].
  cbn [forallb] in Hs. apply andb_true_iff in Hs as [Hc Hs]. unfold is_digit in Hc.
  change (dec_value_from v (c :: s)) with (dec_value_from (v * 10 + (code c - 48)) s) in *.
  pose proof (dec_value_bounds s (v * 10 + (code c - 48)) Hs ltac:(lia)) as [Hlo _].
  assert (1 <= 10 ^ Z.of_nat (length s)) by (apply (Z.pow_le_mono_r 10 0); lia).
  assert (v * 10 + (code c - 48) < 2 ^ 127) by nia.
  cbn [fold_left]. unfold push_digit at 2. rewrite (i128_ok_wrap (v * 10)), i128_ok_wrap by (unfold i128_ok; lia).
  apply IH; [done|lia|done].
Qed.

Lemma digits_below_pow s n : forallb is_digit s = true -> Z.of_nat (length s) <= n ->
  0 <= dec_value s < 10 ^ n.
Proof.
  intros Hs Hn. pose proof (dec_value_bounds s 0 Hs ltac:(lia)).
  assert (10 ^ Z.of_nat (length s) <= 10 ^ n) by (apply Z.pow_le_mono_r; lia). lia.
Qed.

Lemma pow38_fits : 10 ^ 38 < 2 ^ 127.
Proof. reflexivity. Qed.

(** a decimal constant is exact.  The digits before and after the point, up
    to 38 in all, give the literal whose scaled value is the number they spell,
    whose scale is the count of fraction digits and whose precision is the count
    of all of them. *)
Theorem dec_constant_exact ip fp e :
  forallb is_digit (ip ++ fp) = true -> (length (ip ++ fp) <= 38)%nat ->
  let e' := parseDecConstant (ip ++ txt "." ++ fp) e in
  Expr.wideIval e' = dec_value (ip ++ fp) /\ Expr.decScale e' = Z.of_nat (length fp) /\
  Expr.decPrec e' = Z.of_nat (length (ip ++ fp)) /\ Expr.ival e' = i64 (dec_value (ip ++ fp)) /\
  Z.abs (Expr.wideIval e') < 10 ^ Expr.decPrec e'.
Proof.
  intros Hd Hl. cbn zeta. unfold parseDecConstant.
  pose proof Hd as Hd'. rewrite forallb_app in Hd'. apply andb_true_iff in Hd' as [Hi Hf].
  pose proof (find_from_app "." [] ip fp (digits_lack_dot _ Hi)) as E. cbn [app length Nat.add] in E.
  change (txt "." ++ fp) with ("."%char :: fp). rewrite E.
  pose proof (substr_app [] ip ("."%char :: fp)) as E1. cbn [app length] in E1. rewrite E1.
  assert (substr_from (ip ++ "."%char :: fp) (S (length ip)) = fp) as ->.
  { unfold substr_from. rewrite drop_app_ge by lia.
    by replace (S (length ip) - length ip)%nat with 1%nat by lia. }
  rewrite <- fold_left_app. unfold set_const.
  cbn [Expr.wideIval Expr.decScale Expr.decPrec Expr.ival].
  pose proof (digits_below_pow (ip ++ fp) 38 Hd ltac:(lia)). pose proof pow38_fits.
  rewrite push_digits_exact by first [exact Hd | lia].
  rewrite length_app in *. do 4 (split; [reflexivity|]).
  pose proof (digits_below_pow (ip ++ fp) (Z.of_nat (length ip + length fp)) Hd). rewrite length_app in *. lia.
Qed.

Lemma dec_constant_exact_witness :
  forallb is_digit (txt "3" ++ txt "140") = true /\
  let e' := parseDecConstant (txt "3" ++ txt "." ++ txt "140") Expr.default in
  Expr.wideIval e' = dec_value (txt "3" ++ txt "140") /\ Expr.decScale e' = Z.of_nat (length (txt "140")) /\
  Expr.decPrec e' = Z.of_nat (length (txt "3" ++ txt "140")) /\
  Expr.ival e' = i64 (dec_value (txt "3" ++ txt "140")) /\
  Z.abs (Expr.wideIval e') < 10 ^ Expr.decPrec e'.
Proof. split; [reflexivity|]. apply dec_constant_exact; [reflexivity|vm_compute; lia]. Defined.

(** ** Sterling constants *)

(** The spelling of a sterling constant's fields. *)
Definition sterling_text (p s d f : text) (frac : bool) : text :=
  p ++ txt "." ++ s ++ txt "." ++ d ++ (if frac then txt "." ++ f else []).

Lemma split_sterling_text p s d f frac :
  lacks "." p = true -> lacks "." s = true -> lacks "." d = true ->
  (frac = false -> f = []) ->
  split_sterling (sterling_text p s d f frac) = Some (p, s, d, f, frac).
Proof.
  intros Hp Hs Hd Hf. unfold split_sterling, sterling_text.
  change (txt "." ++ s ++ txt "." ++ d ++ (if frac then txt "." ++ f else []))
    with ("."%char :: s ++ "."%char :: d ++ (if frac then "."%char :: f else [])).
  set (tail := d ++ (if frac then "."%char :: f else [])).
  pose proof (find_from_app "." [] p (s ++ "."%char :: tail) Hp) as E1. cbn [app length Nat.add] in E1.
  rewrite E1.
  assert (p ++ "."%char :: s ++ "."%char :: tail = (p ++ ["."%char]) ++ s ++ "."%char :: tail) as Ea
    by by rewrite <- app_assoc.
  assert (length (p ++ ["."%char]) = S (length p)) as El by (rewrite length_app; cbn; lia).
  pose proof (find_from_app "." (p ++ ["."%char]) s tail Hs) as E2. rewrite <- Ea, El in E2. rewrite E2.
  assert (substr_from (p ++ "."%char :: s ++ "."%char :: tail) (S (S (length p) + length s)) = tail) as ->.
  { unfold substr_from. rewrite Ea, app_assoc. rewrite drop_app_ge by (rewrite length_app, El; lia).
    rewrite length_app, El. by replace (S (S (length p) + length s) - (S (length p) + length s))%nat with 1%nat by lia. }
  pose proof (substr_app [] p ("."%char :: s ++ "."%char :: tail)) as Ep. cbn [app length] in Ep. rewrite Ep.
  pose proof (substr_app (p ++ ["."%char]) s ("."%char :: tail)) as Es. rewrite <- Ea, El in Es.
  replace (S (length p) + length s - length p - 1)%nat with (length s) by lia. rewrite Es.
  unfold tail. destruct frac.
  - pose proof (find_from_app "." [] d f Hd) as E3. cbn [app length Nat.add] in E3. rewrite E3.
    pose proof (substr_app [] d ("."%char :: f)) as Ed. cbn [app length] in Ed. rewrite Ed.
    unfold substr_from. rewrite drop_app_ge by lia.
    by replace (S (length d) - length d)%nat with 1%nat by lia.
  - pose proof (find_from_none "." [] d Hd) as E3. cbn [app length] in E3. rewrite app_nil_r, E3.
    by rewrite Hf.
Qed.

(** The digits of the pounds, less leading zeros (a zero counts as one digit). *)
Definition significant (p : text) : Z := 
  let i := skip_while (fun c => ceqb c "0") p 0 in
  if (i <? length p)%nat then Z.of_nat (length p - i) else 1.

Lemma significant_bound p : forallb is_digit p = true -> dec_value p < 10 ^ significant p.
Proof.
  intros Hp. unfold significant. 
  assert (forall v, v = 0 -> dec_value_from v p = dec_value (drop (prefix_len (fun c => ceqb c "0") p) p)) as E.
  { induction p as [|c p IH]; [by intros v ->|]. intros v ->. cbn [prefix_len].
    cbn [forallb] in Hp. apply andb_true_iff in Hp as [_ Hp].
    destruct (ceqb c "0") eqn:Ec; [|done]. apply ceqb_true in Ec as ->. cbn [drop]. by apply IH. }
  rewrite (E 0 eq_refl). unfold skip_while. cbn [Nat.add]. rewrite drop_0.
  set (i := prefix_len _ p) in *.
  assert (forallb is_digit (drop i p) = true) as Hd.
  { rewrite <- (take_drop i p), forallb_app in Hp. by apply andb_true_iff in Hp as [_ ?]. }
  destruct (Nat.ltb_spec i (length p)).
  - pose proof (digits_below_pow (drop i p) (Z.of_nat (length p - i)) Hd) as H1.
    rewrite length_drop in H1. lia.
  - rewrite drop_ge by lia. cbn. lia.
Qed.

(** When the code accepts a sterling constant: fields of digits, at most two for
    the shillings (below 20) and the pence (below 12), and a value that 38 digits
    hold. *)
Definition sterling_ok (p s d f : text) (frac : bool) : bool :=
  all_digits p && all_digits s && all_digits d && (if frac then all_digits f else bool_decide (f = [])) &&
  (length s <=? 2)%nat && (length d <=? 2)%nat && (dec_value s <? 20) && (dec_value d <? 12) &&
  (significant p + Z.of_nat (length f) + 3 <=? 38).

(** Its value in pence, scaled by the fraction digits. *)
Definition pence_of (p s d f : text) : Z :=
  (dec_value p * 240 + dec_value s * 12 + dec_value d) * 10 ^ Z.of_nat (length f) + dec_value f.

Lemma all_digits_forallb s : all_digits s = true -> forallb is_digit s = true.
Proof. unfold all_digits. by intros [_ ?]%andb_true_iff. Qed.

Lemma significant_pos p : 1 <= significant p.
Proof. unfold significant. destruct (Nat.ltb_spec (skip_while (fun c => ceqb c "0") p 0) (length p)); lia. Qed.

Lemma pence_bound p s d f : forallb is_digit p = true -> forallb is_digit f = true ->
  0 <= dec_value s < 20 -> 0 <= dec_value d < 12 ->
  significant p + Z.of_nat (length f) + 3 <= 38 ->
  0 <= dec_value p /\ 0 <= dec_value f < 10 ^ Z.of_nat (length f) /\
  0 <= dec_value p * 240 + dec_value s * 12 + dec_value d < 10 ^ (significant p + 3) /\
  0 <= pence_of p s d f < 10 ^ 38.
Proof.
  intros Hp Hf Hs Hd Hn. pose proof (significant_bound p Hp) as Hb. pose proof (significant_pos p).
  pose proof (dec_value_bounds p 0 Hp ltac:(lia)) as [Hp0 _].
  pose proof (digits_below_pow f (Z.of_nat (length f)) Hf ltac:(lia)) as Hfr.
  set (a := dec_value p) in *. set (b := dec_value f) in *.
  assert (0 <= a * 240 + dec_value s * 12 + dec_value d < 10 ^ (significant p + 3)) as Hm.
  { rewrite Z.pow_add_r by lia. change (10 ^ 3) with 1000. split; [lia|]. lia. }
  split; [lia|]. split; [lia|]. split; [done|]. unfold pence_of. fold a b.
  set (m := a * 240 + dec_value s * 12 + dec_value d) in *. split; [lia|].
  eapply (Z.lt_le_trans _ (10 ^ (significant p + 3 + Z.of_nat (length f)))).
  - rewrite Z.pow_add_r by lia. set (t := 10 ^ Z.of_nat (length f)) in *.
    assert (0 < t) by (apply Z.pow_pos_nonneg; lia). nia.
  - apply Z.pow_le_mono_r; lia.
Qed.

(** sterling constants are converted exactly, with every rejection.  A
    spelling pounds.shillings.pence[.fraction] is accepted exactly when each field
    is a digit string, the shillings are below 20 and the pence below 12 (two
    digits at most), and 38 digits hold the value; the literal is then the number
    of pence, scaled by the count of fraction digits, without overflow. *)
Theorem sterling_constant_exact p s d f frac e :
  lacks "." p = true -> lacks "." s = true -> lacks "." d = true -> (frac = false -> f = []) ->
  parseSterlingConstant (sterling_text p s d f frac) e =
  if sterling_ok p s d f frac
  then Some (set_const Expr.DecLit (i64 (pence_of p s d f)) (pence_of p s d f)
               (Z.of_nat (length f)) (constDigits (pence_of p s d f)) e)
  else None.
Proof.
  intros Lp Ls Ld Hfr. unfold parseSterlingConstant, sterling_ok. rewrite split_sterling_text by done.
  fold (significant p).
  assert ((if frac then all_digits f else bool_decide (f = [])) = negb (frac && negb (all_digits f))) as ->.
  { destruct frac; cbn; [by rewrite negb_involutive|]. by apply bool_decide_eq_true, Hfr. }
  destruct (all_digits p) eqn:Dp; [|done]. destruct (all_digits s) eqn:Ds; [|done].
  destruct (all_digits d) eqn:Dd; [|done]. destruct (frac && negb (all_digits f)) eqn:Df; [done|].
  cbn [negb orb andb].
  assert (forallb is_digit f = true) as Hf.
  { destruct frac; [|by rewrite Hfr]. apply negb_false_iff in Df. by apply all_digits_forallb. }
  rewrite !Nat.ltb_antisym.
  destruct (length s <=? 2)%nat; [|done]. destruct (length d <=? 2)%nat; [|done]. cbn [negb orb andb].
  pose proof (dec_value_bounds s 0 (all_digits_forallb _ Ds) ltac:(lia)) as [Hs0 _].
  pose proof (dec_value_bounds d 0 (all_digits_forallb _ Dd) ltac:(lia)) as [Hd0 _].
  rewrite (Z.leb_antisym (dec_value s) 20), (Z.leb_antisym (dec_value d) 12).
  destruct (Nat.leb_spec (length f) 38) as [Hl|Hl]; cbn [negb].
  2:{ replace (significant p + Z.of_nat (length f) + 3 <=? 38) with false; [by rewrite andb_false_r|].
      pose proof (significant_pos p). symmetry. apply Z.leb_gt. lia. }
  destruct (Z.ltb_spec (dec_value s) 20) as [Hs|]; [|done].
  destruct (Z.ltb_spec (dec_value d) 12) as [Hd|]; [|done]. cbn [negb orb andb].
  rewrite Z.ltb_antisym. destruct (Z.leb_spec (significant p + Z.of_nat (length f) + 3) 38) as [Hn|]; [|done].
  cbn [negb].
  destruct (pence_bound p s d f (all_digits_forallb _ Dp) Hf ltac:(lia) ltac:(lia) Hn) as (Hp0 & Hf0 & Hm & Hv).
  pose proof pow38_fits as H38. pose proof (significant_pos p).
  assert (10 ^ (significant p + 3) <= 10 ^ 38) by (apply Z.pow_le_mono_r; lia).
  assert (10 ^ Z.of_nat (length f) <= 10 ^ 38) by (apply Z.pow_le_mono_r; lia).
  rewrite (push_digits_exact p) by first [by apply all_digits_forallb | lia].
  rewrite (push_digits_exact f) by first [exact Hf | lia].
  rewrite (i128_ok_wrap (dec_value p * 240)) by (unfold i128_ok; lia).
  rewrite (i128_ok_wrap (dec_value p * 240 + _)) by (unfold i128_ok; lia).
  rewrite (i128_ok_wrap (dec_value p * 240 + _ + _)) by (unfold i128_ok; lia).
  rewrite Nat2Z.id, times10_exact.
  2:{ rewrite Z.abs_eq by lia. unfold pence_of in Hv. lia. }
  fold (pence_of p s d f). rewrite i128_ok_wrap by (unfold i128_ok; lia).
  unfold wide_digits.
  assert (constDigits (pence_of p s d f) <= 38) as Hdig.
  { apply constDigits_le; [apply i128_ok_range; unfold i128_ok; lia|lia|lia]. }
  destruct (Z.ltb_spec 38 (constDigits (pence_of p s d f))); [lia|]. done.
Qed.

(** L101.13.8.5 is 24332.5 pence. *)
Lemma sterling_constant_exact_witness :
  parseSterlingConstant (sterling_text (txt "0101") (txt "13") (txt "8") (txt "5") true) Expr.default =
  Some (set_const Expr.DecLit (i64 244045) 244045 1 6 Expr.default).
Proof.
  rewrite (sterling_constant_exact (txt "0101") (txt "13") (txt "8") (txt "5") true Expr.default);
    [vm_compute; reflexivity..|]. intros [=].
Defined.

(** ** Hex strings *)
Definition hex_char (n : Z) : char := if n <? 10 then char_of (48 + n) else char_of (55 + n).
Definition encode_hex (s : text) : text :=
  concat (map (fun c => [hex_char (code c / 16); hex_char (code c mod 16)]) s).

Lemma nibble_hex_char n : 0 <= n < 16 -> nibble (hex_char n) = n.
Proof.
  intros Hn. unfold hex_char, nibble, is_digit. destruct (Z.ltb_spec n 10); rewrite code_char_of by lia;
  repeat match goal with |- context [?a <=? ?b] => destruct (Z.leb_spec a b) end; cbn [andb]; lia.
Qed.

Lemma decode_pairs_encode s : decode_pairs (encode_hex s) = Some s.
Proof.
  induction s as [|c s IH]; [done|]. unfold encode_hex in *. cbn [map concat app decode_pairs].
  pose proof (code_range c). pose proof (Z.mod_pos_bound (code c) 16 ltac:(lia)).
  pose proof (Z.div_mod (code c) 16 ltac:(lia)).
  rewrite !nibble_hex_char by lia. rewrite IH.
  destruct (Z.ltb_spec (code c / 16) 0); [lia|]. destruct (Z.ltb_spec (code c mod 16) 0); [lia|].
  cbn [orb]. do 2 f_equal. rewrite <- (char_of_code c) at 3. f_equal. lia.
Qed.

Lemma decode_pairs_none hex : Nat.even (length hex) = true ->
  decode_pairs hex = None <-> existsb (fun c => nibble c <? 0) hex = true.
Proof.
  remember (length hex) as n eqn:En. revert hex En.
  induction n as [n IH] using (well_founded_induction Wf_nat.lt_wf). intros hex -> He.
  destruct hex as [|h [|l hex]]; [done|done|]. cbn [decode_pairs existsb].
  specialize (IH (length hex) ltac:(cbn; lia) hex eq_refl He).
  destruct (nibble h <? 0), (nibble l <? 0); cbn [orb]; try tauto.
  destruct (decode_pairs hex); [|tauto]. rewrite <- IH. done.
Qed.

(** hex literals decode to the bytes they spell, and every malformed one is
    diagnosed.  The digits of any byte string, written in pairs, decode to it with
    no diagnostic; a literal with an odd count of digits, or with a character that
    is no hex digit, decodes to nothing and reports exactly one error. *)
Theorem hex_literal_roundtrip loc d :
  (forall s, decodeHexLiteral (encode_hex s) loc d = (Some s, d)) /\
  (forall hex, fst (decodeHexLiteral hex loc d) = None <->
     Nat.even (length hex) = false \/ existsb (fun c => nibble c <? 0) hex = true) /\
  (forall hex, reported (snd (decodeHexLiteral hex loc d)) =
     reported d + match fst (decodeHexLiteral hex loc d) with Some _ => 0 | None => 1 end).
Proof.
  split; [|split].
  - intros s. unfold decodeHexLiteral. rewrite decode_pairs_encode.
    assert (Nat.even (length (encode_hex s)) = true) as ->; [|done].
    induction s as [|c s IH]; [done|]. unfold encode_hex in *. cbn [map concat app length].
    by rewrite !Nat.even_succ_succ.
  - intros hex. unfold decodeHexLiteral. destruct (Nat.even (length hex)) eqn:E; cbn [negb].
    + rewrite <- decode_pairs_none by done. destruct (decode_pairs hex); cbn; [|tauto].
      split; [done|]. by intros [|].
    + cbn. tauto.
  - intros hex. unfold decodeHexLiteral. destruct (negb _); [cbn [fst snd]; by rewrite reported_error|].
    destruct (decode_pairs hex); cbn [fst snd]; [lia|by rewrite reported_error].
Qed.

(** ** Integer constants *)
Lemma skip_while_all P s : forallb P s = true -> skip_while P s 0 = length s.
Proof.
  intros H. pose proof (skip_while_app P [] s [] H I) as E. by rewrite app_nil_r in E.
Qed.

Lemma digit_below_10 c : digit_below 10 c = is_digit c.
Proof. unfold digit_below, is_digit. lia. Qed.

Lemma digits_below_10 s : forallb (digit_below 10) s = forallb is_digit s.
Proof. induction s as [|c s IH]; [done|]. cbn [forallb]. by rewrite digit_below_10, IH. Qed.

Lemma strtoll_digits s : s <> [] -> forallb is_digit s = true ->
  strtoll s 10 = (Z.min (2 ^ 63 - 1) (dec_value s), length s, negb (dec_value s <? 2 ^ 63)).
Proof.
  intros Hne Hs. unfold strtoll. destruct s as [|c s]; [done|]. pose proof Hs as Hall.
  cbn [forallb] in Hs. apply andb_true_iff in Hs as [Hc _].
  assert (skip_while is_space (c :: s) 0 = 0%nat) as ->.
  { unfold skip_while. cbn. assert (is_space c = false) as -> by (char_codes; lia). done. }
  assert (ceqb (at_ (c :: s) 0) "-" = false) as ->.
  { change (at_ (c :: s) 0) with c. char_codes. lia. }
  assert (ceqb (at_ (c :: s) 0) "+" = false) as ->.
  { change (at_ (c :: s) 0) with c. char_codes. lia. }
  cbn [orb].
  assert (skip_while (digit_below 10) (c :: s) 0 = length (c :: s)) as ->.
  { apply skip_while_all. by rewrite digits_below_10. }
  cbn [Nat.eqb]. change ((length (c :: s) =? 0)%nat) with false. cbn iota.
  unfold substr. rewrite drop_0, Nat.sub_0_r, firstn_all.
  change (fold_left (fun v c0 => v * 10 + (code c0 - 48)) (c :: s) 0) with (dec_value (c :: s)).
  pose proof (dec_value_bounds (c :: s) 0 Hall ltac:(lia)) as [Hv _].
  set (v := dec_value (c :: s)) in *. clearbody v. f_equal; [f_equal|].
  - rewrite Z.max_r; [done|]. lia.
  - f_equal. case_bool_decide as H; unfold srange in H.
    + symmetry. apply Z.ltb_lt. change (2 ^ (64 - 1)) with (2 ^ 63) in H. lia.
    + symmetry. apply Z.ltb_ge. change (2 ^ (64 - 1)) with (2 ^ 63) in H. lia.
Qed.

(** an integer constant reads back what [std::to_string] prints: its full
    value, with the 64-bit field saturated, when it fits 127 bits; a value of more
    bits wraps silently, so 2^128 reads as 0.  A precision, scale or level is
    accepted with its value exactly when it fits an [int], and otherwise reported
    once and read as 0. *)
Theorem int_constant_roundtrip v e loc d what rule :
  0 <= v ->
  (v < 2 ^ 127 ->
     Expr.wideIval (parseIntConstant (to_string v) 10 e) = v /\
     Expr.ival (parseIntConstant (to_string v) 10 e) = Z.min (2 ^ 63 - 1) v) /\
  Expr.wideIval (parseIntConstant (txt "340282366920938463463374607431768211456") 10 e) = 0 /\
  fst (boundedInt (to_string v) loc d what rule) = (if dimBoundFits v then v else 0) /\
  boundedNonNeg (to_string v) loc d what rule = boundedInt (to_string v) loc d what rule /\
  reported (snd (boundedInt (to_string v) loc d what rule)) =
    reported d + (if dimBoundFits v then 0 else 1).
Proof.
  intros Hv. destruct (to_string_nonneg v Hv) as (Hne & Hd & Ev).
  pose proof (strtoll_digits (to_string v) Hne Hd) as Est. rewrite Ev in Est.
  assert (stops_early (to_string v) (length (to_string v)) = false) as Hstop.
  { unfold stops_early, at_. rewrite lookup_ge_None_2 by lia. done. }
  assert ((length (to_string v) =? 0)%nat = false) as Hlen by (by destruct (to_string v)).
  assert ((negb (v <? 2 ^ 63) || (2147483647 <? Z.min (2 ^ 63 - 1) v)) = negb (dimBoundFits v)) as Hfit.
  { unfold dimBoundFits. destruct (Z.ltb_spec v (2 ^ 63)), (Z.leb_spec (-2147483648) v), (Z.leb_spec v 2147483647),
      (Z.ltb_spec 2147483647 (Z.min (2 ^ 63 - 1) v)); try done; lia. }
  assert (forall lo, lo <= 0 -> (Z.min (2 ^ 63 - 1) v <? lo) = false) as Hlo.
  { intros lo ?. apply Z.ltb_ge. lia. }
  split.
  { intros Hb. unfold parseIntConstant. rewrite Est. unfold set_const. cbn [Expr.wideIval Expr.ival fst].
    split; [|done]. rewrite <- Ev at 2.
    rewrite <- (push_digits_exact (to_string v)) by first [exact Hd | lia].
    clear -Hd. generalize (to_string v) 0 Hd. intros s. induction s as [|c s IH]; intros z Hs; [done|].
    cbn [forallb fold_left] in *. apply andb_true_iff in Hs as [Hc Hs]. rewrite digit_below_10, Hc. by apply IH. }
  split; [reflexivity|].
  unfold boundedInt, boundedNonNeg. rewrite Est, Hstop, Hlen, !Hlo, !orb_false_r by lia. rewrite Hfit.
  destruct (dimBoundFits v) eqn:Ef; cbn [negb fst snd].
  - split; [|split; [done|lia]]. unfold dimBoundFits in Ef. lia.
  - split; [done|]. split; [done|]. by rewrite reported_error.
Qed.

Lemma int_constant_roundtrip_witness :
  0 <= 2147483648 /\
  fst (boundedInt (to_string 2147483648) (mkLoc 1 1) (Diags_new []) (txt "precision") []) = 0.
Proof.
  split; [lia|].
  pose proof (int_constant_roundtrip 2147483648 Expr.default (mkLoc 1 1) (Diags_new []) (txt "precision") []
    ltac:(lia)) as (_ & _ & H & _). exact H.
Defined.
