(* ===== verification/Typing.v ===== *)
(** * Expression typing ([src/sema.cpp])

    The result types of the operators, the typing of literals, unary and binary
    expressions once their operands are typed, and the storage tests of DEFINED
    overlays.  Diagnostics are threaded as in [Diag]. *)
From S2P Require Import Prelude Types Diag Lexer Ast ConstFold Constants.

#[local] Abbreviation prec := Types.prec.
#[local] Abbreviation scale := Types.scale.

(** ** DEFINED overlays (rule 24) *)
Definition definedScalarBytes (t : Ty) : Z :=
  if isArray t || isStruct t || varying t || starLen t then -1
  else match k t with
       | FixedBin | FixedDec => Z.quot (intBits t) 8
       | Float => 8
       | Complex => 16
       | Char => len t
       | Bit => Z.quot (len t + 7) 8
       | Task | Event => 4
       | _ => -1
       end.

Definition empty_or_runtime (d : Dim) : bool := dyn d || lbDyn d || adj d || (ub d <? lb d).

(** The loop over the axes, [None] when one is empty or has a runtime extent; the
    bounds are [int]s, so an axis' extent is computed in 32 bits. *)
Fixpoint axes_count (ds : list Dim) (n : Z) : option Z :=
  match ds with
  | [] => Some n
  | d :: ds' => if empty_or_runtime d then None else axes_count ds' (i64 (n * i32 (i32 (ub d - lb d) + 1)))
  end.

Definition definedCharUnits (t : Ty) : Z :=
  if negb (isChar t) || varying t || starLen t then -1
  else match axes_count (dims t) 1 with Some n => i64 (n * len t) | None => -1 end.

Definition fixedElemCount (t : Ty) : Z :=
  match axes_count (dims t) 1 with Some n => n | None => -1 end.

Definition hasRuntimeExtent (t : Ty) : bool := existsb (fun d => dyn d || lbDyn d || adj d) (dims t).

Definition definedPosFits (d : Diags) (loc : SourceLoc) (pos itemUnits baseUnits : Z) (what : text)
  : bool * Diags :=
  if pos <? 1 then (false, error loc (txt "POSITION must be 1 or greater") (txt "(24)") [] d)
  else if baseUnits <? i64 (i64 (pos - 1) + itemUnits) then
    (false, error loc (txt "the DEFINED item does not fit into its " ++ what ++ txt " at POSITION(" ++
                       to_string pos ++ txt ")") (txt "(24)") [] d)
  else (true, d).

(** ** Arithmetic result types *)
Definition arithResultType (a b : Ty) : Ty :=
  if bool_decide (k a = Float) || bool_decide (k b = Float) then
    flt (Z.max (if bool_decide (k a = Float) then prec a else 6)
               (if bool_decide (k b = Float) then prec b else 6))
  else
    let bits := Z.max (intBits a) (intBits b) in
    let p := if bits =? 64 then 63 else 31 in
    let dec := bool_decide (k a = FixedDec) && bool_decide (k b = FixedDec) in
    let t := if dec then fixedDec p (Z.max (scale a) (scale b)) else fixedBin p (Z.max (scale a) (scale b)) in
    if dec then set_wideDec (wideDec a || wideDec b) t else t.

Definition mulResultType (a b : Ty) : Ty :=
  if bool_decide (k a = Float) || bool_decide (k b = Float) then arithResultType a b
  else if (bool_decide (k a = FixedBin) && bool_decide (k b = FixedDec) && (0 <? scale a)) ||
          (bool_decide (k a = FixedDec) && bool_decide (k b = FixedBin) && (0 <? scale b))
  then flt (Z.max 6 (Z.max (prec a) (prec b)))
  else
    let t := arithResultType a b in
    let t :=
      if negb (bool_decide (k t = FixedDec)) &&
         ((bool_decide (k a = FixedBin) && bool_decide (k b = FixedDec) && (0 <? scale b)) ||
          (bool_decide (k a = FixedDec) && bool_decide (k b = FixedBin) && (0 <? scale a)))
      then set_k FixedDec t else t in
    let t :=
      if bool_decide (k t = FixedDec) then
        let t := if bool_decide (k a = FixedDec) && bool_decide (k b = FixedDec)
                 then set_prec (Z.min (prec a + prec b) 31) t else t in
        set_wideDec (wideDec a || wideDec b || (18 <? prec t)) t
      else t in
    set_scale (scale a + scale b) t.

Definition divResultType (a b : Ty) : Ty :=
  let bothDec := bool_decide (k a = FixedDec) && bool_decide (k b = FixedDec) in
  let maxP := if bothDec then 31 else 63 in
  let mixed := negb bothDec && negb (bool_decide (k a = k b)) in
  let p1 := if mixed && bool_decide (k a = FixedDec) then decToBinDigits (prec a) else prec a in
  let q1 := if mixed && bool_decide (k a = FixedDec) then Z.min 62 (decToBinScale (scale a)) else scale a in
  let q2 := if mixed && bool_decide (k b = FixedDec) then Z.min 62 (decToBinScale (scale b)) else scale b in
  let q := maxP - p1 + q1 - q2 in
  if bothDec then fixedDec 31 (Z.max q 0) else fixedBin 63 (Z.max q 0).

Definition complexArith (a b : Ty) : bool :=
  let ac := isComplex a || isNumeric a in
  let bc := isComplex b || isNumeric b in
  ac && bc && (isComplex a || isComplex b).

(** Cross-sections (rule 126): the axes subscripted by ['*'].  A null argument
    would be dereferenced by the code; the parser stores one only for a failed
    parse, after which sema does not run. *)
Definition is_star (e : option Expr.t) : bool :=
  match e with Some e => bool_decide (Expr.kind e = Expr.Star) | None => false end.
Fixpoint starred (args : list (option Expr.t)) (ds : list Dim) : list Dim :=
  match args, ds with
  | a :: args', d :: ds' => if is_star a then d :: starred args' ds' else starred args' ds'
  | _, _ => []
  end.
Definition crossSectionType (e : Expr.t) (full : Ty) : option (Ty * Z) :=
  let r := starred (Expr.args e) (dims full) in
  if bool_decide (r = []) then None
  else Some (set_dims r (elementType full), Z.of_nat (length r)).

(** ** Typing an expression whose operands are typed *)
Definition INT_MAX : Z := 2147483647.

(** Literals: the type their digits or characters describe. *)
Definition typeLiteral (e : Expr.t) : Ty :=
  match Expr.kind e with
  | Expr.IntLit =>
      let t := if negb (Expr.wideIval e =? Expr.ival e) then fixedDec (constDigits (Expr.wideIval e)) 0
               else fixedDec (if (99999 <? Expr.ival e) || (Expr.ival e <? -99999) then 15 else 5) 0 in
      if (intBits t =? 32) && ((2147483647 <? Expr.ival e) || (Expr.ival e <? -2147483648))
      then fixedBin 63 0 else t
  | Expr.DecLit =>
      if negb (Expr.folded e) then fixedDec (if 0 <? Expr.decPrec e then Expr.decPrec e else 1) (Expr.decScale e)
      else Expr.ty e
  | Expr.FltLit => flt 6
  | Expr.ComplexLit => complexTy
  | Expr.CharLit => chr (i32 (Z.of_nat (length (Expr.sval e)))) false
  | Expr.BitLit => bit (i32 (Z.max 1 (Z.of_nat (length (Expr.sval e)))))
  | Expr.Star => voidTy
  | _ => Expr.ty e
  end.

Definition typeUnary (o : Tok.t) (loc : SourceLoc) (t : Ty) (d : Diags) : Ty * Diags :=
  if bool_decide (o = Tok.Not) then
    (if isBit t then bit (len t) else bit 1,
     if negb (isBit t) && negb (isNumeric t)
     then error loc (txt "operand of NOT must be a bit or arithmetic value") (txt "(122)") [] d else d)
  else if negb (isNumeric t) then
    (fixedBin 31 0,
     error loc (txt "operand of unary '-' must be arithmetic, found " ++ desc t) (txt "(122)") [] d)
  else (t, d).

Definition needs_arithmetic (A B : Ty) : text :=
  txt "arithmetic operator requires arithmetic operands (" ++ desc A ++ txt ", " ++ desc B ++ txt ")".
Definition cannot_compare (A B : Ty) : text :=
  txt "cannot compare " ++ desc A ++ txt " with " ++ desc B.

(** [+], [-] and [*] share their shape; [ty] is the numeric result. *)
Definition typeArith (loc : SourceLoc) (A B ty : Ty) (d : Diags) : Ty * Diags :=
  if complexArith A B then (complexTy, d)
  else if negb (isNumeric A) || negb (isNumeric B)
  then (fixedBin 31 0, error loc (needs_arithmetic A B) (txt "(120)") [] d)
  else (ty, d).

Definition typeDivPower (divide : bool) (loc : SourceLoc) (A B : Ty) (d : Diags) : Ty * Diags :=
  if complexArith A B then (complexTy, d)
  else if negb (isNumeric A) || negb (isNumeric B)
  then (flt 6, error loc (txt "operator requires arithmetic operands") (txt "(121)") [] d)
  else if divide && isFixed A && isFixed B then (divResultType A B, d)
  else (flt (Z.max 6 (Z.max (prec A) (prec B))), d).

Definition typeConcat (loc : SourceLoc) (A B : Ty) (d : Diags) : Ty * Diags :=
  let n := (if isChar A then len A else 24) + (if isChar B then len B else 24) in
  if INT_MAX <? n
  then (chr INT_MAX false,
        error loc (txt "the concatenated character length is too large") (txt "(119)") [] d)
  else (chr n false, d).

Definition typeLogical (loc : SourceLoc) (A B : Ty) (d : Diags) : Ty * Diags :=
  if (negb (isBit A) && negb (isNumeric A)) || (negb (isBit B) && negb (isNumeric B)) then
    (bit 1, error loc (txt "logical operator requires bit operands") (txt "(116)") [] d)
  else if (isBit A && (1 <? len A)) || (isBit B && (1 <? len B)) then
    (bit (if isBit A then len A else len B),
     if negb (isBit A && isBit B) || negb (len A =? len B)
     then error loc (txt "logical operators require identical BIT lengths in this stage")
            (txt "(116)") [] d
     else d)
  else (bit 1, d).

Definition typeEquality (loc : SourceLoc) (A B : Ty) (d : Diags) : Ty * Diags :=
  (bit 1,
   if (isLocator A || isLocator B) && negb (isLocator A && isLocator B) then
     error loc (txt "a POINTER or OFFSET can only be compared with another locator") (txt "(117)") [] d
   else if isComplex A || isComplex B then
     if negb (isComplex A || isNumeric A) || negb (isComplex B || isNumeric B)
     then error loc (cannot_compare A B) (txt "(117)") [] d else d
   else if negb (Bool.eqb (isChar A) (isChar B)) then error loc (cannot_compare A B) (txt "(117)") [] d
   else d).

Definition typeOrdered (loc : SourceLoc) (A B : Ty) (d : Diags) : Ty * Diags :=
  (bit 1,
   if isComplex A || isComplex B then
     error loc (txt "ordered comparison of a COMPLEX value is not allowed") (txt "(117)") [] d
   else if isLocator A || isLocator B then
     error loc (txt "ordered comparison of a POINTER or OFFSET is not allowed") (txt "(117)") [] d
   else if negb (Bool.eqb (isChar A) (isChar B)) then error loc (cannot_compare A B) (txt "(117)") [] d
   else d).

Definition typeBinary (o : Tok.t) (loc : SourceLoc) (A B : Ty) (d : Diags) : Ty * Diags :=
  match o with
  | Tok.Plus | Tok.Minus => typeArith loc A B (arithResultType A B) d
  | Tok.Star => typeArith loc A B (mulResultType A B) d
  | Tok.Slash => typeDivPower true loc A B d
  | Tok.Power => typeDivPower false loc A B d
  | Tok.Concat => typeConcat loc A B d
  | Tok.Amp | Tok.Bar => typeLogical loc A B d
  | Tok.Eq | Tok.Ne => typeEquality loc A B d
  | Tok.Lt | Tok.Le | Tok.Gt | Tok.Ge | Tok.Ngt | Tok.Nlt => typeOrdered loc A B d
  | _ => (fixedBin 31 0, d)
  end.

Definition folds (o : Tok.t) : bool :=
  bool_decide (o = Tok.Plus) || bool_decide (o = Tok.Minus) || bool_decide (o = Tok.Star).

(** [typeExpr] on the nodes built from literals and operators: operands first,
    then the node, then the constant fold.  [None]: a null operand, or a fold
    that divides by zero.  Nodes of other kinds keep the type they have. *)
Fixpoint typeExpr (e : Expr.t) (d : Diags) : option (Expr.t * Diags) :=
  match Expr.kind e with
  | Expr.Unary =>
      match Expr.a e with
      | Some x =>
          match typeExpr x d with
          | Some (x, d) =>
              let '(t, d) := typeUnary (Expr.op e) (Expr.loc e) (Expr.ty x) d in
              Some (Expr.typed e t (Some x) (Expr.b e), d)
          | None => None
          end
      | None => None
      end
  | Expr.Binary =>
      match Expr.a e, Expr.b e with
      | Some x, Some y =>
          match typeExpr x d with
          | Some (x, d) =>
              match typeExpr y d with
              | Some (y, d) =>
                  let '(t, d) := typeBinary (Expr.op e) (Expr.loc e) (Expr.ty x) (Expr.ty y) d in
                  let e' := Expr.typed e t (Some x) (Some y) in
                  if folds (Expr.op e) && bool_decide (k t = FixedDec) then
                    match foldConstExpr e' t (scale t) with
                    | Folded e'' => Some (e'', d)
                    | Untouched => Some (e', d)
                    | DividesByZero => None
                    end
                  else Some (e', d)
              | None => None
              end
          | None => None
          end
      | _, _ => None
      end
  | _ => Some (Expr.typed e (typeLiteral e) (Expr.a e) (Expr.b e), d)
  end.

(** ** Arithmetic result types *)

(** The types the declarations produce: a decimal is wide exactly beyond 18
    digits, precisions are positive and within the implementation maxima. *)
Definition fixed_ok (t : Ty) : bool :=
  match k t with
  | FixedDec => (1 <=? prec t) && (prec t <=? 31) && Bool.eqb (wideDec t) (18 <? prec t)
  | FixedBin => (1 <=? prec t) && (prec t <=? 63) && negb (wideDec t)
  | _ => false
  end.

(** A wide decimal meets a binary operand. *)
Definition wide_mixed (a b : Ty) : bool :=
  negb (bool_decide (k a = k b)) && (wideDec a || wideDec b).

Lemma intBits_cases t : intBits t = 32 \/ intBits t = 64 \/ intBits t = 128.
Proof.
  unfold intBits. destruct (k t); auto; [destruct (_ <=? _)|destruct (wideDec t); [|destruct (_ <=? _)]]; auto.
Qed.
Lemma intBits_narrow t : wideDec t = false -> intBits t <= 64.
Proof.
  intros H. unfold intBits. rewrite H. destruct (k t); try lia; destruct (_ <=? _); lia.
Qed.
Lemma intBits_wide t : k t = FixedDec -> wideDec t = true -> intBits t = 128.
Proof. intros H1 H2. unfold intBits. by rewrite H1, H2. Qed.
Lemma fixed_ok_kind t : fixed_ok t = true -> k t = FixedDec \/ (k t = FixedBin /\ wideDec t = false).
Proof.
  unfold fixed_ok. destruct (k t); try done; [|by left]. intros [_ H]%andb_true_iff. right.
  split; [done|]. by apply negb_true_iff.
Qed.

(** The two shapes of the common type of FIXED operands. *)
Lemma arith_dec a b : k a = FixedDec -> k b = FixedDec ->
  arithResultType a b =
  set_wideDec (wideDec a || wideDec b)
    (fixedDec (if Z.max (intBits a) (intBits b) =? 64 then 63 else 31) (Z.max (scale a) (scale b))).
Proof. intros Ka Kb. unfold arithResultType. rewrite Ka, Kb. done. Qed.
Lemma arith_bin a b : k a = FixedBin \/ k b = FixedBin -> isFixed a = true -> isFixed b = true ->
  arithResultType a b =
  fixedBin (if Z.max (intBits a) (intBits b) =? 64 then 63 else 31) (Z.max (scale a) (scale b)).
Proof.
  unfold arithResultType, isFixed. intros H Fa Fb.
  destruct (k a), (k b); try discriminate; try done; by destruct H.
Qed.
Lemma intBits_fixedBin64 c s : intBits (fixedBin (if c : bool then 63 else 31) s) = if c then 64 else 32.
Proof. by destruct c. Qed.
Lemma intBits_arith_dec w c s :
  intBits (set_wideDec w (fixedDec (if c : bool then 63 else 31) s)) = if w : bool then 128 else 64.
Proof. by destruct w, c. Qed.
Lemma fixed_ok_fixed t : fixed_ok t = true -> isFixed t = true.
Proof. unfold fixed_ok, isFixed. by destruct (k t). Qed.

(** The common type of [+], [-] and comparisons.  For FIXED operands it is
    symmetric in kind, precision, scale and width, its scale is the larger one, it
    is DECIMAL exactly when both operands are, and its storage is at least as wide
    as each operand's, unless a wide DECIMAL meets a BINARY operand: then a 128-bit
    operand gets the 32-bit type FIXED BINARY(31). *)
Theorem arith_result_type a b :
  fixed_ok a = true -> fixed_ok b = true ->
  arithResultType a b = arithResultType b a /\
  scale (arithResultType a b) = Z.max (scale a) (scale b) /\
  (k (arithResultType a b) = FixedDec <-> k a = FixedDec /\ k b = FixedDec) /\
  (wide_mixed a b = false -> intBits a <= intBits (arithResultType a b) /\
                             intBits b <= intBits (arithResultType a b)) /\
  (wide_mixed a b = true -> intBits (arithResultType a b) = 32 /\
                            Z.max (intBits a) (intBits b) = 128).
Proof.
  intros Ha Hb. unfold wide_mixed.
  pose proof (fixed_ok_fixed _ Ha) as Fa. pose proof (fixed_ok_fixed _ Hb) as Fb.
  pose proof (intBits_cases a). pose proof (intBits_cases b).
  destruct (decide (k a = FixedDec /\ k b = FixedDec)) as [[Ka Kb]|Hn].
  - rewrite (arith_dec a b), (arith_dec b a), intBits_arith_dec by done.
    rewrite (Z.max_comm (intBits b)), (Z.max_comm (scale b)), (orb_comm (wideDec b)), Ka, Kb.
    split; [done|]. split; [done|]. split; [done|]. split; [|done]. intros _.
    destruct (wideDec a) eqn:Wa; cbn [orb]; [lia|]. pose proof (intBits_narrow a Wa).
    destruct (wideDec b) eqn:Wb; [lia|]. pose proof (intBits_narrow b Wb). lia.
  - assert (k a = FixedBin \/ k b = FixedBin) as Hbin.
    { destruct (fixed_ok_kind a Ha) as [|[]], (fixed_ok_kind b Hb) as [|[]]; auto. tauto. }
    rewrite (arith_bin a b), (arith_bin b a), intBits_fixedBin64 by tauto.
    rewrite (Z.max_comm (intBits b)), (Z.max_comm (scale b)).
    split; [done|]. split; [done|]. split; [split; [done|tauto]|].
    destruct (fixed_ok_kind a Ha) as [Ka|[Ka Wa]], (fixed_ok_kind b Hb) as [Kb|[Kb Wb]]; [tauto|..].
    + rewrite Ka, Kb, Wb. pose proof (intBits_narrow b Wb). cbn [negb andb orb].
      rewrite orb_false_r. change (negb (bool_decide (FixedDec = FixedBin))) with true. cbn [andb].
      split; intros Wa.
      * pose proof (intBits_narrow a Wa). destruct (Z.eqb_spec (Z.max (intBits a) (intBits b)) 64); lia.
      * rewrite (intBits_wide a Ka Wa). destruct (Z.eqb_spec (Z.max 128 (intBits b)) 64); lia.
    + rewrite Ka, Kb, Wa. pose proof (intBits_narrow a Wa). cbn [orb].
      change (negb (bool_decide (FixedBin = FixedDec))) with true. cbn [andb].
      split; intros Wb.
      * pose proof (intBits_narrow b Wb). destruct (Z.eqb_spec (Z.max (intBits a) (intBits b)) 64); lia.
      * rewrite (intBits_wide b Kb Wb). destruct (Z.eqb_spec (Z.max (intBits a) 128) 64); lia.
    + rewrite Wa, Wb, andb_false_r. split; [intros _|done].
      pose proof (intBits_narrow a Wa). pose proof (intBits_narrow b Wb).
      destruct (Z.eqb_spec (Z.max (intBits a) (intBits b)) 64); lia.
Qed.

Lemma arith_result_type_witness :
  let a := fixedDec 25 2 in let b := fixedBin 31 0 in
  fixed_ok a = true /\ fixed_ok b = true /\ wide_mixed a b = true /\
  arithResultType a b = fixedBin 31 2 /\ intBits (arithResultType a b) = 32.
Proof.
  do 4 (split; [reflexivity|]).
  apply (arith_result_type (fixedDec 25 2) (fixedBin 31 0)); reflexivity.
Defined.

Lemma pow10_le p q : 0 <= p <= q -> 10 ^ p <= 10 ^ q.
Proof. intros ?. apply Z.pow_le_mono_r; lia. Qed.

Lemma product_bound v w p q : 0 <= p -> 0 <= q -> Z.abs v < 10 ^ p -> Z.abs w < 10 ^ q ->
  Z.abs (v * w) < 10 ^ (p + q).
Proof.
  intros Hp Hq Hv Hw. rewrite Z.abs_mul, Z.pow_add_r by done.
  assert (0 < 10 ^ p) by (apply Z.pow_pos_nonneg; lia). nia.
Qed.

Lemma digits_fit_width v n w : Z.abs v < 10 ^ n ->
  (n <= 9 /\ w = 32) \/ (n <= 18 /\ w = 64) \/ (n <= 38 /\ w = 128) -> srange w v.
Proof.
  intros Hv H. destruct (Z.neg_nonneg_cases n) as [Hn|Hn]; [rewrite Z.pow_neg_r in Hv by done; lia|].
  unfold srange. destruct H as [[? ->]|[[? ->]|[? ->]]].
  - pose proof (pow10_le n 9 ltac:(lia)). change (10 ^ 9) with 1000000000 in *.
    change (2 ^ (32 - 1)) with 2147483648. lia.
  - pose proof (pow10_le n 18 ltac:(lia)). change (2 ^ (64 - 1)) with 9223372036854775808. 
    change (10 ^ 18) with 1000000000000000000 in *. lia.
  - pose proof (pow10_le n 38 ltac:(lia)). change (128 - 1) with 127. lia.
Qed.

(** The product of decimals, and of a fractional decimal with an integer binary. *)
Lemma mul_dec a b : k a = FixedDec -> k b = FixedDec ->
  let t := mulResultType a b in
  k t = FixedDec /\ scale t = scale a + scale b /\ prec t = Z.min (prec a + prec b) 31 /\
  wideDec t = (wideDec a || wideDec b || (18 <? prec t)).
Proof.
  intros Ka Kb. unfold mulResultType. rewrite arith_dec, Ka, Kb by done. done.
Qed.
Lemma mul_bin_dec a b : k a = FixedBin -> k b = FixedDec -> scale a <= 0 -> 0 < scale b ->
  let t := mulResultType a b in k t = FixedDec /\ scale t = scale a + scale b /\ wideDec t = true.
Proof.
  intros Ka Kb Sa Sb. unfold mulResultType.
  rewrite (arith_bin a b) by (unfold isFixed; rewrite ?Ka, ?Kb; tauto). rewrite Ka, Kb.
  replace (0 <? scale a) with false by (symmetry; apply Z.ltb_ge; lia).
  replace (0 <? scale b) with true by (symmetry; apply Z.ltb_lt; lia).
  cbn -[Z.ltb Z.eqb Z.max intBits]. split; [done|]. split; [done|].
  destruct (_ =? 64); apply orb_true_r.
Qed.

(** the type of a product.  Its scale is the sum of the operand scales; for two
    DECIMALs the precision is the sum of theirs, at most 31; and its storage holds
    the exact product of any two values of the declared precisions while 38 digits
    do.  An integer BINARY times a fractional DECIMAL of up to 18 digits is an exact
    128-bit DECIMAL, a fractional BINARY times a DECIMAL is FLOAT. *)
Theorem mul_result_type a b v w :
  fixed_ok a = true -> fixed_ok b = true ->
  (k a = FixedDec -> k b = FixedDec -> Z.abs v < 10 ^ prec a -> Z.abs w < 10 ^ prec b ->
     let t := mulResultType a b in
     k t = FixedDec /\ scale t = scale a + scale b /\ prec t = Z.min (prec a + prec b) 31 /\
     (prec a + prec b <= 38 -> srange (intBits t) (v * w))) /\
  (k a = FixedBin -> k b = FixedDec -> scale a = 0 -> 0 < scale b ->
     - 2 ^ 63 <= v < 2 ^ 63 -> prec b <= 18 -> Z.abs w < 10 ^ prec b ->
     let t := mulResultType a b in
     k t = FixedDec /\ scale t = scale b /\ srange (intBits t) (v * w)) /\
  (k a = FixedBin -> k b = FixedDec -> 0 < scale a ->
     mulResultType a b = flt (Z.max 6 (Z.max (prec a) (prec b)))).
Proof.
  intros Ha Hb. split; [|split].
  - intros Ka Kb Hv Hw. cbn zeta. destruct (mul_dec a b Ka Kb) as (Kt & Et & Ep & Ew).
    split; [done|]. split; [done|]. split; [done|]. intros H38.
    unfold fixed_ok in Ha, Hb. rewrite Ka in Ha. rewrite Kb in Hb.
    apply andb_true_iff in Ha as [Ha Wa%eqb_prop]. apply andb_true_iff in Hb as [Hb Wb%eqb_prop].
    apply (digits_fit_width _ (prec a + prec b)); [apply product_bound; lia|].
    unfold intBits. rewrite Kt, Ew, Wa, Wb, Ep.
    destruct (Z.ltb_spec 18 (prec a)); cbn [orb]; [lia|].
    destruct (Z.ltb_spec 18 (prec b)); cbn [orb]; [lia|].
    destruct (Z.ltb_spec 18 (Z.min (prec a + prec b) 31)); [lia|].
    destruct (Z.leb_spec (Z.min (prec a + prec b) 31) 9); lia.
  - intros Ka Kb Sa Sb Hv Hp Hw. cbn zeta. destruct (mul_bin_dec a b Ka Kb) as (Kt & Et & Ew); [lia..|].
    split; [done|]. split; [lia|]. rewrite (intBits_wide _ Kt Ew).
    unfold fixed_ok in Hb. rewrite Kb in Hb.
    pose proof (pow10_le (prec b) 18 ltac:(lia)). change (10 ^ 18) with 1000000000000000000 in *.
    change (2 ^ 63) with 9223372036854775808 in *. unfold srange.
    change (2 ^ (128 - 1)) with 170141183460469231731687303715884105728.
    generalize dependent (10 ^ prec b). intros t Ht ?. nia.
  - intros Ka Kb Sa. unfold mulResultType. rewrite Ka, Kb.
    replace (0 <? scale a) with true by (symmetry; apply Z.ltb_lt; lia). done.
Qed.

(** DECIMAL(18) times DECIMAL(5): 23 digits, 128-bit storage. *)
Lemma mul_result_type_witness :
  let t := mulResultType (fixedDec 18 2) (fixedDec 5 3) in
  k t = FixedDec /\ scale t = 5 /\ prec t = 23 /\ srange (intBits t) (999999999999999999 * 99999).
Proof.
  destruct (mul_result_type (fixedDec 18 2) (fixedDec 5 3) 999999999999999999 99999) as (H & _);
    [reflexivity..|].
  destruct H as (H1 & H2 & H3 & H4); [reflexivity..|].
  split; [exact H1|]. split; [exact H2|]. split; [exact H3|]. apply H4. cbn. lia.
Defined.

(** ** Division *)

(** The exact quotient of the stored integers [v] (scale [q1]) and [w] (scale
    [q2]), truncated at scale [q]. *)
Definition quotient_at (v q1 w q2 q : Z) : Z :=
  if 0 <=? q - q1 + q2 then Z.quot (v * 10 ^ (q - q1 + q2)) w
  else Z.quot v (w * 10 ^ (q1 - q2 - q)).

(** the type of a DECIMAL quotient is FIXED DECIMAL(31) with the scale
    31 - p1 + q1 - q2 of the language rule, clamped at zero, and its precision
    never overflows while the clamp is not needed: every quotient by a non-zero
    divisor has at most 31 digits at that scale.  Any other FIXED pair is FIXED
    BINARY(63), a DECIMAL operand entering by its binary precision and scale. *)
Theorem div_result_type a b v w :
  fixed_ok a = true -> fixed_ok b = true ->
  (k a = FixedDec -> k b = FixedDec ->
     divResultType a b = fixedDec 31 (Z.max 0 (31 - prec a + scale a - scale b)) /\
     (w <> 0 -> Z.abs v < 10 ^ prec a -> 0 <= 31 - prec a + scale a - scale b ->
        Z.abs (quotient_at v (scale a) w (scale b) (scale (divResultType a b))) < 10 ^ 31)) /\
  (k a = FixedBin -> k b = FixedBin ->
     divResultType a b = fixedBin 63 (Z.max 0 (63 - prec a + scale a - scale b))) /\
  (k a = FixedDec -> k b = FixedBin ->
     divResultType a b =
     fixedBin 63 (Z.max 0 (63 - decToBinDigits (prec a) + Z.min 62 (decToBinScale (scale a)) - scale b))) /\
  (k a = FixedBin -> k b = FixedDec ->
     divResultType a b =
     fixedBin 63 (Z.max 0 (63 - prec a + scale a - Z.min 62 (decToBinScale (scale b))))).
Proof.
  intros Ha Hb. split; [|split; [|split]].
  - intros Ka Kb.
    assert (divResultType a b = fixedDec 31 (Z.max 0 (31 - prec a + scale a - scale b))) as E.
    { unfold divResultType. rewrite Ka, Kb, Z.max_comm. done. }
    split; [exact E|]. intros Hw Hv Hq. rewrite E.
    change (scale (fixedDec 31 ?s)) with s. rewrite Z.max_r by done. unfold quotient_at.
    unfold fixed_ok in Ha. rewrite Ka in Ha.
    replace (31 - prec a + scale a - scale b - scale a + scale b) with (31 - prec a) by lia.
    replace (0 <=? 31 - prec a) with true by (symmetry; apply Z.leb_le; lia).
    assert (Z.abs (v * 10 ^ (31 - prec a)) < 10 ^ 31) as Hnum.
    { replace 31 with (prec a + (31 - prec a)) at 2 by lia. rewrite Z.pow_add_r, Z.abs_mul by lia.
      assert (0 < 10 ^ (31 - prec a)) by (apply Z.pow_pos_nonneg; lia). nia. }
    generalize dependent (v * 10 ^ (31 - prec a)). intros n Hn.
    pose proof (Z.quot_abs n w Hw) as Eq. rewrite <- Eq.
    rewrite Z.quot_div_nonneg by lia.
    eapply Z.le_lt_trans; [|exact Hn]. apply Z.div_le_upper_bound; nia.
  - intros Ka Kb. unfold divResultType. rewrite Ka, Kb, Z.max_comm. done.
  - intros Ka Kb. unfold divResultType. rewrite Ka, Kb, Z.max_comm. done.
  - intros Ka Kb. unfold divResultType. rewrite Ka, Kb, Z.max_comm. done.
Qed.

(** 7 / 2 with DECIMAL(5) operands: scale 26. *)
Lemma div_result_type_witness :
  divResultType (fixedDec 5 0) (fixedDec 5 0) = fixedDec 31 26 /\
  Z.abs (quotient_at 7 0 2 0 26) < 10 ^ 31.
Proof.
  destruct (div_result_type (fixedDec 5 0) (fixedDec 5 0) 7 2) as (H & _); [reflexivity..|].
  destruct H as [H1 H2]; [reflexivity..|]. split; [exact H1|].
  apply H2; [done|reflexivity|cbn; lia].
Defined.

(** ** Operators and diagnostics *)
Definition arithmetic_op (o : Tok.t) : bool :=
  bool_decide (o ∈ [Tok.Plus; Tok.Minus; Tok.Star; Tok.Slash; Tok.Power]).
Definition comparison_op (o : Tok.t) : bool :=
  bool_decide (o ∈ [Tok.Eq; Tok.Ne; Tok.Lt; Tok.Le; Tok.Gt; Tok.Ge; Tok.Ngt; Tok.Nlt]).
Definition logical_op (o : Tok.t) : bool := bool_decide (o ∈ [Tok.Amp; Tok.Bar]).

Lemma arith_numeric a b : isNumeric (arithResultType a b) = true.
Proof.
  unfold arithResultType. destruct (_ || _); [done|]. cbn zeta.
  destruct (bool_decide _ && bool_decide _); done.
Qed.
Lemma mul_numeric a b : isNumeric (mulResultType a b) = true.
Proof.
  unfold mulResultType. destruct (_ || _); [apply arith_numeric|]. destruct (_ || _); [done|].
  cbn zeta. pose proof (arith_numeric a b) as H.
  set (t := arithResultType a b) in *. clearbody t.
  destruct (negb _ && _).
  - change (k (set_k FixedDec t)) with FixedDec. rewrite bool_decide_eq_true_2 by done.
    by destruct (bool_decide (k a = FixedDec) && _).
  - case_bool_decide as E; [|done]. destruct (bool_decide (k a = FixedDec) && _); exact H.
Qed.
Lemma div_numeric a b : isNumeric (divResultType a b) = true.
Proof. unfold divResultType. cbn zeta. by destruct (bool_decide (k a = _) && _). Qed.

Ltac typing_cases :=
  repeat match goal with
  | |- context [if ?c then _ else _] => destruct c eqn:?
  end; cbn [fst snd]; rewrite ?reported_error.

(** operator typing.  An operator reports at most one error.  A comparison is
    BIT(1) and an arithmetic operator gives an arithmetic type whatever its
    operands, so an error in an operand is not reported again by the operators
    around it.  On arithmetic operands every operator types without a diagnostic:
    a logical operator gives BIT(1) and concatenation CHARACTER(48). *)
Theorem binary_operator_typing o loc A B d :
  reported d <= reported (snd (typeBinary o loc A B d)) <= reported d + 1 /\
  (comparison_op o = true -> fst (typeBinary o loc A B d) = bit 1) /\
  (arithmetic_op o = true ->
     isNumeric (fst (typeBinary o loc A B d)) || isComplex (fst (typeBinary o loc A B d)) = true) /\
  (isNumeric A = true -> isNumeric B = true ->
     snd (typeBinary o loc A B d) = d /\
     (logical_op o = true -> fst (typeBinary o loc A B d) = bit 1) /\
     (o = Tok.Concat -> fst (typeBinary o loc A B d) = chr 48 false)).
Proof.
  split; [|split; [|split]].
  - destruct o; cbn [typeBinary snd]; try lia;
      unfold typeArith, typeDivPower, typeConcat, typeLogical, typeEquality, typeOrdered; cbn zeta;
      typing_cases; lia.
  - destruct o; try discriminate; done.
  - destruct o; try discriminate; intros _; cbn [typeBinary]; unfold typeArith, typeDivPower;
      typing_cases; rewrite ?arith_numeric, ?mul_numeric, ?div_numeric; done.
  - unfold isNumeric, isFixed. intros HA HB.
    destruct o; cbn [typeBinary]; try (split; [done|split; done]);
      unfold typeArith, typeDivPower, typeConcat, typeLogical, typeEquality, typeOrdered, complexArith,
        isNumeric, isFixed, isComplex, isLocator, isChar, isBit;
      destruct (k A); try discriminate HA; destruct (k B); try discriminate HB; (split; [done|split; done]).
Qed.

Lemma binary_operator_typing_witness :
  fst (typeBinary Tok.Lt (mkLoc 1 1) (fixedDec 5 0) (flt 6) (Diags_new [])) = bit 1.
Proof.
  apply (proj1 (proj2 (binary_operator_typing Tok.Lt (mkLoc 1 1) (fixedDec 5 0) (flt 6) (Diags_new [])))).
  reflexivity.
Defined.

(** ** Typing constant expressions *)

(** A tree the parser builds from literals and operators: operands present,
    leaves not yet folded. *)
Fixpoint operator_tree (e : Expr.t) : bool :=
  match Expr.kind e with
  | Expr.Unary => match Expr.a e with Some x => operator_tree x | None => false end
  | Expr.Binary =>
      match Expr.a e, Expr.b e with Some x, Some y => operator_tree x && operator_tree y | _, _ => false end
  | Expr.DecLit => negb (Expr.folded e)
  | _ => true
  end.

(** A typed constant is FLOAT, or FIXED at the scale of its value. *)
Definition typed_const (e : Expr.t) : Prop :=
  forall n, constNumOf e = Some n ->
    k (Expr.ty e) = Float \/
    (isFixed (Expr.ty e) = true /\ Types.scale (Expr.ty e) = ConstFold.scale n).

Lemma typed_literal e : operator_tree e = true -> Expr.kind e = Expr.IntLit \/ Expr.kind e = Expr.DecLit ->
  isFixed (typeLiteral e) = true /\ Types.scale (typeLiteral e) = leafScale e.
Proof.
  intros Hop. unfold typeLiteral, leafScale.
  destruct e as [kd ? ? ? wv ? dsc ? ? ? ? ? ? ? ? ? fo o oa ob ?]. cbn [Expr.kind].
  intros [-> | ->].
  - cbn zeta. destruct (_ && _); [done|]. destruct (negb _); done.
  - cbn in Hop |- *. rewrite Hop. done.
Qed.

Lemma arith_scale a b : isFixed a = true -> isFixed b = true ->
  isFixed (arithResultType a b) = true /\ Types.scale (arithResultType a b) = Z.max (scale a) (scale b).
Proof.
  unfold arithResultType, isFixed. destruct (k a); try discriminate; destruct (k b); try discriminate; done.
Qed.
Lemma arith_float a b : k a = Float \/ k b = Float -> k (arithResultType a b) = Float.
Proof.
  unfold arithResultType. intros [-> | ->]; [done|]. by rewrite orb_true_r.
Qed.
Lemma mul_scale a b : isFixed a = true -> isFixed b = true ->
  k (mulResultType a b) = Float \/
  (isFixed (mulResultType a b) = true /\ Types.scale (mulResultType a b) = scale a + scale b).
Proof.
  intros Fa Fb. pose proof (mul_numeric a b) as H. unfold isNumeric in H.
  destruct (bool_decide_reflect (k (mulResultType a b) = Float)) as [|Hf]; [by left|].
  rewrite orb_false_r in H. right. split; [done|]. revert Hf. unfold mulResultType.
  replace (bool_decide (k a = Float) || bool_decide (k b = Float)) with false.
  2:{ unfold isFixed in Fa, Fb. by destruct (k a), (k b). }
  destruct (bool_decide (k a = FixedBin) && bool_decide (k b = FixedDec) && (0 <? scale a) ||
            bool_decide (k a = FixedDec) && bool_decide (k b = FixedBin) && (0 <? scale b));
    [intros Hf; by destruct Hf|intros _; reflexivity].
Qed.
Lemma mul_float a b : k a = Float \/ k b = Float -> k (mulResultType a b) = Float.
Proof.
  intros H. unfold mulResultType.
  replace (bool_decide (k a = Float) || bool_decide (k b = Float)) with true; [by apply arith_float|].
  destruct H as [-> | ->]; [done|]. by rewrite orb_true_r.
Qed.

Lemma not_complex t : k t = Float \/ isFixed t = true -> isComplex t = false /\ isNumeric t = true.
Proof. unfold isComplex, isNumeric, isFixed. intros [-> |H]; [done|]. destruct (k t); try discriminate; done. Qed.

(** Rescaling to the value's own scale does nothing. *)
Lemma rescale_same n : rescale n (ConstFold.scale n) = Some (value n).
Proof. unfold rescale. by rewrite !Z.ltb_irrefl. Qed.

Lemma fold_same_scale e ty n : constNumOf e = Some n -> ConstFold.scale n = Types.scale ty ->
  foldConstExpr e ty (Types.scale ty) = Untouched \/
  exists d, foldConstExpr e ty (Types.scale ty) = Folded (literal e ty (value n) (Types.scale ty) d).
Proof.
  intros E Es. unfold foldConstExpr. rewrite E, <- Es, rescale_same.
  destruct (negb _); [by left|]. cbn zeta. destruct (_ || _); [by left|].
  destruct (maxLeafMag _ _ _); [|by left]. destruct (_ <? _); [by left|]. right. by eexists.
Qed.

(** The node's shape decides what its value and its range are. *)
Definition is_leaf (e : Expr.t) : Prop := Expr.kind e <> Expr.Unary /\ Expr.kind e <> Expr.Binary.

Lemma leaf_retyped e t : is_leaf e ->
  constNumOf (Expr.typed e t (Expr.a e) (Expr.b e)) = constNumOf e /\
  exact (Expr.typed e t (Expr.a e) (Expr.b e)) = exact e /\
  in_range (Expr.typed e t (Expr.a e) (Expr.b e)) = in_range e.
Proof. intros [H1 H2]. destruct e as [kd]; cbn in *. destruct kd; try done. Qed.

Lemma leaf_const e n : is_leaf e -> constNumOf e = Some n ->
  (Expr.kind e = Expr.IntLit \/ Expr.kind e = Expr.DecLit) /\ ConstFold.scale n = leafScale e.
Proof.
  intros [H1 H2]. destruct e as [kd]; cbn in *. destruct kd; try done; intros [= <-]; auto.
Qed.

Lemma constNumOf_binary e x y : Expr.kind e = Expr.Binary -> Expr.a e = Some x -> Expr.b e = Some y ->
  forall n, constNumOf e = Some n ->
  exists nx ny, constNumOf x = Some nx /\ constNumOf y = Some ny /\
    (((Expr.op e = Tok.Plus \/ Expr.op e = Tok.Minus) /\
      ConstFold.scale n = Z.max (ConstFold.scale nx) (ConstFold.scale ny)) \/
     (Expr.op e = Tok.Star /\ ConstFold.scale n = ConstFold.scale nx + ConstFold.scale ny)).
Proof.
  intros Ek Ea Eb n. destruct e as [kd ? ? ? ? ? ? ? ? ? ? ? ? ? ? ? ? o oa ob ?]. cbn in Ek, Ea, Eb. subst.
  cbn [constNumOf Expr.kind Expr.a Expr.b Expr.op].
  destruct (constNumOf x) as [nx|]; [|done]. destruct (constNumOf y) as [ny|]; [|done].
  intros H. exists nx, ny. split; [done|]. split; [done|].
  destruct o; try discriminate H; injection H as <-; auto.
Qed.
Lemma constNumOf_unary e x : Expr.kind e = Expr.Unary -> Expr.a e = Some x ->
  forall n, constNumOf e = Some n ->
  exists nx, constNumOf x = Some nx /\ (Expr.op e = Tok.Plus \/ Expr.op e = Tok.Minus) /\
    ConstFold.scale n = ConstFold.scale nx.
Proof.
  intros Ek Ea n. destruct e as [kd ? ? ? ? ? ? ? ? ? ? ? ? ? ? ? ? o oa ob ?]. cbn in Ek, Ea. subst.
  cbn [constNumOf Expr.kind Expr.a Expr.b Expr.op].
  destruct (constNumOf x) as [nx|]; [|done]. intros H. exists nx. split; [done|].
  destruct o; try discriminate H; injection H as <-; auto.
Qed.

(** Typing an operator of typed constants gives a typed constant. *)
Lemma typed_binary e x y d : Expr.kind e = Expr.Binary -> typed_const x -> typed_const y ->
  typed_const (Expr.typed e (fst (typeBinary (Expr.op e) (Expr.loc e) (Expr.ty x) (Expr.ty y) d))
                 (Some x) (Some y)).
Proof.
  intros Ek Hx Hy n En.
  match type of En with constNumOf ?e' = _ =>
    pose proof (constNumOf_binary e' x y Ek eq_refl eq_refl n En) as H end.
  destruct H as (nx & ny & Ex & Ey & Ho).
  specialize (Hx nx Ex). specialize (Hy ny Ey). cbn [Expr.op Expr.ty Expr.typed] in *.
  assert (isComplex (Expr.ty x) = false /\ isNumeric (Expr.ty x) = true) as [Cx Nx] by (apply not_complex; tauto).
  assert (isComplex (Expr.ty y) = false /\ isNumeric (Expr.ty y) = true) as [Cy Ny] by (apply not_complex; tauto).
  assert (forall t, typeArith (Expr.loc e) (Expr.ty x) (Expr.ty y) t d = (t, d)) as Ha.
  { intros t. unfold typeArith, complexArith. by rewrite Cx, Cy, Nx, Ny. }
  destruct Ho as [[Ho ->]|[Ho ->]].
  - assert (fst (typeBinary (Expr.op e) (Expr.loc e) (Expr.ty x) (Expr.ty y) d) =
      arithResultType (Expr.ty x) (Expr.ty y)) as ->.
    { destruct Ho as [-> | ->]; cbn [typeBinary]; by rewrite Ha. }
    destruct Hx as [Hx|[Hx <-]]; [left; apply arith_float; tauto|].
    destruct Hy as [Hy|[Hy <-]]; [left; apply arith_float; tauto|].
    right. by apply arith_scale.
  - rewrite Ho. cbn [typeBinary]. rewrite Ha. cbn [fst].
    destruct Hx as [Hx|[Hx <-]]; [left; apply mul_float; tauto|].
    destruct Hy as [Hy|[Hy <-]]; [left; apply mul_float; tauto|].
    by apply mul_scale.
Qed.
Lemma typed_unary e x d : Expr.kind e = Expr.Unary -> typed_const x ->
  typed_const (Expr.typed e (fst (typeUnary (Expr.op e) (Expr.loc e) (Expr.ty x) d)) (Some x) (Expr.b e)).
Proof.
  intros Ek Hx n En.
  match type of En with constNumOf ?e' = _ =>
    pose proof (constNumOf_unary e' x Ek eq_refl n En) as H end.
  destruct H as (nx & Ex & Ho & ->).
  specialize (Hx nx Ex). cbn [Expr.op Expr.ty Expr.typed] in *.
  assert (isComplex (Expr.ty x) = false /\ isNumeric (Expr.ty x) = true) as [Cx Nx] by (apply not_complex; tauto).
  unfold typeUnary. rewrite bool_decide_eq_false_2 by (by destruct Ho as [-> | ->]).
  rewrite Nx. exact Hx.
Qed.

(** Typing keeps the exact value and the ranges of a tree. *)
Definition same_value (e e' : Expr.t) : Prop :=
  in_range e = true -> exact e' = exact e /\ in_range e' = true.

Lemma same_binary e t x y x' y' : Expr.kind e = Expr.Binary -> Expr.a e = Some x -> Expr.b e = Some y ->
  same_value x x' -> same_value y y' -> same_value e (Expr.typed e t (Some x') (Some y')).
Proof.
  unfold same_value. intros Ek Ea Eb Hx Hy.
  destruct e as [kd ? ? ? ? ? ? ? ? ? ? ? ? ? ? ? ? o oa ob ?]. cbn in Ek, Ea, Eb. subst. cbn.
  intros H. apply andb_true_iff in H as [[Ix Iy]%andb_true_iff H].
  destruct (Hx Ix) as [-> ->]. destruct (Hy Iy) as [-> ->]. done.
Qed.
Lemma same_unary e t x x' : Expr.kind e = Expr.Unary -> Expr.a e = Some x ->
  same_value x x' -> same_value e (Expr.typed e t (Some x') (Expr.b e)).
Proof.
  unfold same_value. intros Ek Ea Hx.
  destruct e as [kd ? ? ? ? ? ? ? ? ? ? ? ? ? ? ? ? o oa ob ?]. cbn in Ek, Ea. subst. cbn.
  intros H. destruct (Hx H) as [-> ->]. done.
Qed.

Lemma operator_tree_inv e : operator_tree e = true ->
  (exists x y, Expr.kind e = Expr.Binary /\ Expr.a e = Some x /\ Expr.b e = Some y /\
     operator_tree x = true /\ operator_tree y = true) \/
  (exists x, Expr.kind e = Expr.Unary /\ Expr.a e = Some x /\ operator_tree x = true) \/ is_leaf e.
Proof.
  destruct e as [kd ? ? ? ? ? ? ? ? ? ? ? ? ? ? ? ? o oa ob ?]. unfold is_leaf.
  cbn [Expr.kind Expr.a Expr.b]. destruct kd; try (intros _; right; right; done); cbn.
  - destruct oa as [x|], ob as [y|]; try done. intros [? ?]%andb_true_iff. left. by exists x, y.
  - destruct oa as [x|]; [|done]. intros ?. right; left. by exists x.
Qed.

Lemma typeExpr_leaf e d : is_leaf e ->
  typeExpr e d = Some (Expr.typed e (typeLiteral e) (Expr.a e) (Expr.b e), d).
Proof. intros [H1 H2]. destruct e as [kd]. cbn in H1, H2. by destruct kd. Qed.
Lemma typeExpr_binary e d x y x' y' d1 d2 : Expr.kind e = Expr.Binary -> Expr.a e = Some x ->
  Expr.b e = Some y -> typeExpr x d = Some (x', d1) -> typeExpr y d1 = Some (y', d2) ->
  typeExpr e d =
    let '(t, d) := typeBinary (Expr.op e) (Expr.loc e) (Expr.ty x') (Expr.ty y') d2 in
    let e' := Expr.typed e t (Some x') (Some y') in
    if folds (Expr.op e) && bool_decide (k t = FixedDec) then
      match foldConstExpr e' t (scale t) with
      | Folded e'' => Some (e'', d) | Untouched => Some (e', d) | DividesByZero => None
      end
    else Some (e', d).
Proof.
  intros Ek Ea Eb Ex Ey. destruct e as [kd ? ? ? ? ? ? ? ? ? ? ? ? ? ? ? ? o oa ob ?].
  cbn in Ek, Ea, Eb. subst. cbn [typeExpr Expr.kind Expr.a Expr.b]. by rewrite Ex, Ey.
Qed.
Lemma typeExpr_unary e d x x' d1 : Expr.kind e = Expr.Unary -> Expr.a e = Some x ->
  typeExpr x d = Some (x', d1) ->
  typeExpr e d = let '(t, d) := typeUnary (Expr.op e) (Expr.loc e) (Expr.ty x') d1 in
                 Some (Expr.typed e t (Some x') (Expr.b e), d).
Proof.
  intros Ek Ea Ex. destruct e as [kd ? ? ? ? ? ? ? ? ? ? ? ? ? ? ? ? o oa ob ?].
  cbn in Ek, Ea. subst. cbn [typeExpr Expr.kind Expr.a]. by rewrite Ex.
Qed.

(** Folding an operator of typed constants: total, and the value is kept. *)
Lemma fold_typed e t : typed_const e -> Expr.ty e = t -> k t = FixedDec ->
  foldConstExpr e t (scale t) = Untouched \/
  exists e', foldConstExpr e t (scale t) = Folded e' /\ typed_const e' /\ same_value e e'.
Proof.
  intros Tc <- Hk. destruct (constNumOf e) as [n|] eqn:En.
  - destruct (Tc n En) as [E|[Hf Es]]; [congruence|].
    destruct (fold_same_scale e (Expr.ty e) n En (eq_sym Es)) as [-> | [dg ->]]; [by left|].
    right. eexists. split; [reflexivity|]. split.
    + intros m [= <-]. by right.
    + intros Hr. pose proof (constNumOf_exact e Hr) as Hx. rewrite En in Hx. destruct Hx as [-> Hv].
      by rewrite <- Es.
  - left. unfold foldConstExpr. rewrite En. by destruct (negb _).
Qed.

Lemma typeExpr_spec e d : operator_tree e = true ->
  exists e' d', typeExpr e d = Some (e', d') /\ typed_const e' /\ same_value e e'.
Proof.
  revert d. induction e as [e IHa IHb] using Expr.operand_ind. intros d Hop.
  destruct (operator_tree_inv e Hop) as [(x & y & Ek & Ea & Eb & Ox & Oy)|[(x & Ek & Ea & Ox)|Hl]].
  - destruct (IHa x Ea d Ox) as (x' & d1 & Ex & Tx & Sx).
    destruct (IHb y Eb d1 Oy) as (y' & d2 & Ey & Ty_ & Sy).
    rewrite (typeExpr_binary e d x y x' y' d1 d2) by done.
    pose proof (typed_binary e x' y' d2 Ek Tx Ty_) as Tc.
    destruct (typeBinary _ _ _ _ _) as [t d3]. cbn [fst] in Tc. cbn zeta.
    pose proof (same_binary e t x y x' y' Ek Ea Eb Sx Sy) as Sv.
    set (e' := Expr.typed e t (Some x') (Some y')) in *.
    destruct (_ && _) eqn:Ef; [|by exists e', d3].
    apply andb_true_iff in Ef as [_ Ekt%bool_decide_eq_true].
    destruct (fold_typed e' t Tc eq_refl Ekt) as [-> | (e'' & -> & Tf & Sf)]; [by exists e', d3|].
    exists e'', d3. split; [done|]. split; [done|]. intros Hr.
    destruct (Sv Hr) as [E1 R1]. destruct (Sf R1) as [E2 R2]. by rewrite E2.
  - destruct (IHa x Ea d Ox) as (x' & d1 & Ex & Tx & Sx).
    rewrite (typeExpr_unary e d x x' d1) by done.
    pose proof (typed_unary e x' d1 Ek Tx) as Tc.
    destruct (typeUnary _ _ _ _) as [t d2]. cbn [fst] in Tc.
    eexists _, d2. split; [reflexivity|]. split; [exact Tc|]. by apply (same_unary e t x x').
  - rewrite typeExpr_leaf by done. eexists _, d. split; [reflexivity|].
    destruct (leaf_retyped e (typeLiteral e) Hl) as (E1 & E2 & E3). split.
    + intros n En. rewrite E1 in En. destruct (leaf_const e n Hl En) as [Hk ->].
      right. by apply typed_literal.
    + intros Hr. by rewrite E2, E3.
Qed.

(** Typing a constant expression is total and keeps its value.  On every tree
    of literals and operators [typeExpr] returns, whatever the operators and the
    errors it reports (the fold at the node's own scale never divides by zero);
    when no value leaves 128 bits, the folded tree has exactly the value of the
    tree, with no rounding. *)
Theorem typing_keeps_constants e d : operator_tree e = true ->
  exists e' d', typeExpr e d = Some (e', d') /\
    (in_range e = true -> exact e' = exact e) /\
    (forall n, constNumOf e' = Some n -> isFixed (Expr.ty e') = true ->
       Types.scale (Expr.ty e') = ConstFold.scale n).
Proof.
  intros Hop. destruct (typeExpr_spec e d Hop) as (e' & d' & E & Tc & Sv).
  exists e', d'. split; [done|]. split; [by intros [? _]%Sv|].
  intros n En Hf. destruct (Tc n En) as [E0|[_ ?]]; [|done].
  unfold isFixed in Hf. by rewrite E0 in Hf.
Qed.

(** 1.25 * (2 - 0.5) / 3 folds its product and keeps the division. *)
Lemma typing_keeps_constants_witness :
  let e := Expr.binary Tok.Slash
             (Expr.binary Tok.Star (Expr.decLit 125 2 3)
                (Expr.binary Tok.Minus (Expr.intLit 2) (Expr.decLit 5 1 1))) (Expr.intLit 3) in
  operator_tree e = true /\
  exists e' d', typeExpr e (Diags_new []) = Some (e', d') /\
    (in_range e = true -> exact e' = exact e) /\
    (forall n, constNumOf e' = Some n -> isFixed (Expr.ty e') = true ->
       Types.scale (Expr.ty e') = ConstFold.scale n).
Proof. split; [reflexivity|]. apply typing_keeps_constants. reflexivity. Defined.

(** typing silently changes a constant that overflows: the product of two
    20-digit integer constants types without a diagnostic as FIXED DECIMAL(31,0)
    and becomes the literal 0. *)
Theorem typing_folds_overflow d :
  let big := Constants.parseIntConstant (txt "18446744073709551616") 10 Expr.default in
  let e := Expr.binary Tok.Star big big in
  exists e', typeExpr e d = Some (e', d) /\ Expr.kind e' = Expr.DecLit /\ Expr.wideIval e' = 0 /\
    Expr.ty e' = set_wideDec true (fixedDec 31 0) /\
    exact e = Some (18446744073709551616 * 18446744073709551616, 0).
Proof.
  eexists. split; [vm_compute; reflexivity|].
  split; [reflexivity|]. split; [vm_compute; reflexivity|]. split; [reflexivity|]. vm_compute. reflexivity.
Qed.
