(* ===== verification/ExprParser.v ===== *)
(** * The expression parser ([src/parser.h], [src/parser.cpp])

    Token access, the operator tables, the keyword test of ADR-004 and the
    recursive descent of rules (115)-(129) and (26)-(31), as a state monad over
    the position, the nesting depth and the diagnostics.  A null [ExprP] is
    [None].  The recursion carries fuel: the outer [None] of [M] means it ran
    out, which [ExprTotal] excludes. *)
From S2P Require Import Prelude Monad Types Diag Lexer Ast ConstFold Constants Typing.

Record pst := mkP { i_ : nat; exprDepth_ : Z; pd_ : Diags }.

Definition kMaxExprDepth : Z := 512.
Definition kMaxReplicatedChars : Z := 2 ^ 20.

(** The parser's monad. *)
Abbreviation M := (ST pst).

(** Operators *)
Definition infixOp (t : Token.t) : Tok.t :=
  match Token.kind t with
  | Tok.Bar | Tok.Amp | Tok.Concat | Tok.Eq | Tok.Ne | Tok.Lt | Tok.Le | Tok.Gt | Tok.Ge
  | Tok.Ngt | Tok.Nlt | Tok.Plus | Tok.Minus | Tok.Star | Tok.Slash | Tok.Power => Token.kind t
  | Tok.Word =>
      let w := Token.text_ t in
      if text_eqb w (txt "AND") then Tok.Amp
      else if text_eqb w (txt "OR") then Tok.Bar
      else if text_eqb w (txt "CAT") then Tok.Concat
      else if text_eqb w (txt "GT") then Tok.Gt
      else if text_eqb w (txt "LT") then Tok.Lt
      else if text_eqb w (txt "GE") then Tok.Ge
      else if text_eqb w (txt "LE") then Tok.Le
      else if text_eqb w (txt "NE") then Tok.Ne
      else if text_eqb w (txt "NG") then Tok.Ngt
      else if text_eqb w (txt "NL") then Tok.Nlt
      else Tok.Eof
  | _ => Tok.Eof
  end.

Definition precOf (o : Tok.t) : Z :=
  match o with
  | Tok.Bar => 1
  | Tok.Amp => 2
  | Tok.Eq | Tok.Ne | Tok.Lt | Tok.Le | Tok.Gt | Tok.Ge | Tok.Ngt | Tok.Nlt => 3
  | Tok.Concat => 4
  | Tok.Plus | Tok.Minus => 5
  | Tok.Star | Tok.Slash => 6
  | _ => 0
  end.

Definition isEnquiryName (w : text) : bool :=
  existsb (text_eqb w) [txt "NULL"; txt "DECLARESIZE"; txt "EPSILON"; txt "MAXVAL"; txt "MINVAL"].

Definition stmtKeywordSpelling (w : text) : bool :=
  existsb (text_eqb w)
    [txt "DECLARE"; txt "DCL"; txt "IF"; txt "DO"; txt "BEGIN"; txt "PUT"; txt "CALL"; txt "RETURN";
     txt "STOP"; txt "EXIT"; txt "GET"; txt "GO"; txt "GOTO"; txt "ON"; txt "SIGNAL"; txt "REVERT";
     txt "ALLOCATE"; txt "FREE"; txt "OPEN"; txt "CLOSE"; txt "READ"; txt "WRITE"; txt "REWRITE";
     txt "DELETE"; txt "WAIT"; txt "DELAY"].

(** Nodes *)
Definition node (kd : Expr.Kind) (loc : SourceLoc) : Expr.t :=
  Expr.mk kd loc Ty_default 0 0 0 0 0 [] [] [] [] None None false false false Tok.Eof None None [].
Definition op_node (kd : Expr.Kind) (loc : SourceLoc) (o : Tok.t) (x y : option Expr.t) : Expr.t :=
  Expr.mk kd loc Ty_default 0 0 0 0 0 [] [] [] [] None None false false false o x y [].
Definition str_node (kd : Expr.Kind) (loc : SourceLoc) (s : text) : Expr.t :=
  Expr.mk kd loc Ty_default 0 0 0 0 0 s [] [] [] None None false false false Tok.Eof None None [].
Definition flt_node (kd : Expr.Kind) (loc : SourceLoc) (bits : Z) : Expr.t :=
  Expr.mk kd loc Ty_default 0 0 bits 0 0 [] [] [] [] None None false false false Tok.Eof None None [].
Definition ref_node (kd : Expr.Kind) (loc : SourceLoc) (nm : text) (path : list text)
    (args : list (option Expr.t)) (locator : option Expr.t) : Expr.t :=
  Expr.mk kd loc Ty_default 0 0 0 0 0 [] nm path [] None locator false false false Tok.Eof None None args.
Definition set_locPtr (l : option Expr.t) (e : Expr.t) : Expr.t :=
  Expr.mk (Expr.kind e) (Expr.loc e) (Expr.ty e) (Expr.ival e) (Expr.wideIval e) (Expr.fval e)
    (Expr.decScale e) (Expr.decPrec e) (Expr.sval e) (Expr.name e) (Expr.path e) (Expr.memberPath e)
    (Expr.sym e) l (Expr.allocBaseRef e) (Expr.isLabel e) (Expr.folded e) (Expr.op e) (Expr.a e)
    (Expr.b e) (Expr.args e).

#[local] Set Warnings "-register-all".

(** One INITIAL item (rules (26)-(31)); [value] may be null, as in the code. *)
Inductive InitItem :=
  | IValue (value : option Expr.t) | IIter (factor : Z) (items : list InitItem)
  | IRepeat | IGroup (items : list InitItem).

Section Parser.
Variable t_ : list Token.t.
(** [strtod], and the conversion of a [long long] to [double], as bits. *)
Variable strtod : text -> Z.
Variable double_of : Z -> Z.

(** ** Token access *)
Definition cur_tok (st : pst) : Token.t := nth (i_ st) t_ Token.default.
Definition peek_tok (n : nat) (st : pst) : Token.t :=
  if (i_ st + n <? length t_)%nat then nth (i_ st + n) t_ Token.default else List.last t_ Token.default.
Definition is_at (kd : Tok.t) (st : pst) : bool := bool_decide (Token.kind (cur_tok st) = kd).
Definition peek_at (n : nat) (kd : Tok.t) (st : pst) : bool :=
  bool_decide (Token.kind (peek_tok n st) = kd).

Definition advance : M unit :=
  fun st => Some (tt, if (i_ st + 1 <? length t_)%nat then mkP (S (i_ st)) (exprDepth_ st) (pd_ st) else st).
Definition eat (kd : Tok.t) : M bool :=
  let* here := get (is_at kd) in if here then advance;; ret true else ret false.
Definition report (loc : SourceLoc) (msg rule : text) : M unit :=
  fun st => Some (tt, mkP (i_ st) (exprDepth_ st) (error loc msg rule [] (pd_ st))).

Definition expect (kd : Tok.t) (rule : text) : M bool :=
  let* here := get (is_at kd) in
  if here then advance;; ret true
  else
    let* t := get cur_tok in
    report (Token.loc t)
      (txt "expected " ++ tokName kd ++ txt ", found " ++
       (if bool_decide (Token.kind t = Tok.Word) then txt "'" ++ Token.text_ t ++ txt "'"
        else tokName (Token.kind t))) rule;;
    ret false.

(** [resync]: skip to the next semicolon. *)
Fixpoint skip_to_semi (fuel : nat) : M unit :=
  match fuel with
  | O => out_of_fuel
  | S f =>
      let* stop := get (fun st => is_at Tok.Eof st || is_at Tok.Semi st) in
      if stop then ret tt else advance;; skip_to_semi f
  end.
Definition fuel_left (st : pst) : nat := S (length t_ - i_ st).
Definition resync : M unit :=
  let* n := get fuel_left in skip_to_semi n;; eat Tok.Semi;; ret tt.

(** [DepthGuard g(exprDepth_)] around a body. *)
Definition guarded {A} (m : M A) : M A :=
  fun st =>
    match m (mkP (i_ st) (exprDepth_ st + 1) (pd_ st)) with
    | Some (x, st') => Some (x, mkP (i_ st') (exprDepth_ st' - 1) (pd_ st'))
    | None => None
    end.

(** ** Contextual keywords (ADR-004) *)
Definition tok_is (j : nat) (kd : Tok.t) : bool :=
  match t_ !! j with Some t => bool_decide (Token.kind t = kd) | None => false end.

(** The index after a balanced group that opens at [j]; [None] when a
    semicolon or the end of file comes first. *)
Fixpoint skip_group (fuel j : nat) (depth : Z) : option nat :=
  match fuel with
  | O => Some j
  | S f =>
      match t_ !! j with
      | None => Some j
      | Some t =>
          match Token.kind t with
          | Tok.LParen => skip_group f (S j) (depth + 1)
          | Tok.RParen => if depth - 1 =? 0 then Some (S j) else skip_group f (S j) (depth - 1)
          | Tok.Semi | Tok.Eof => None
          | _ => skip_group f (S j) depth
          end
      end
  end.

(** [while (... Dot or Arrow, then Word) j += 2;] *)
Fixpoint skip_members (fuel j : nat) : nat :=
  match fuel with
  | O => j
  | S f => if (tok_is j Tok.Dot || tok_is j Tok.Arrow) && tok_is (S j) Tok.Word
           then skip_members f (S (S j)) else j
  end.

(** One general reference tail. *)
Fixpoint skip_reference (fuel j : nat) : option nat :=
  match fuel with
  | O => Some j
  | S f =>
      let j' := skip_members (length t_) j in
      if tok_is j' Tok.LParen then
        match skip_group (length t_ - j') j' 0 with
        | Some j'' => skip_reference f j''
        | None => None
        end
      else if (j' =? j)%nat then Some j else skip_reference f j'
  end.

(** References separated by commas: [A, B, C =]. *)
Fixpoint skip_targets (fuel j : nat) : option nat :=
  match fuel with
  | O => Some j
  | S f =>
      match skip_reference (S (length t_)) j with
      | None => None
      | Some j' =>
          if tok_is j' Tok.Comma && tok_is (S j') Tok.Word then skip_targets f (S (S j')) else Some j'
      end
  end.

Definition looksLikeAssignment (st : pst) : bool :=
  let j := S (i_ st) in
  if (length t_ <=? j)%nat then false
  else match skip_targets (S (length t_)) j with
       | Some j' => tok_is j' Tok.Eq
       | None => false
       end.

Definition atStmtKeyword (w : text) (st : pst) : bool :=
  Token.isWord (cur_tok st) w && negb (looksLikeAssignment st).

(** ** Enquiry designators *)
Fixpoint designator_words (fuel : nat) (rule raw : text) : M text :=
  match fuel with
  | O => out_of_fuel
  | S f =>
      let* stop := get (fun st => is_at Tok.Eof st || is_at Tok.Semi st) in
      let* t := get cur_tok in
      if stop then
        report (Token.loc t) (txt "expected ':' to close the type designator") rule;; ret raw
      else
        let* closed := eat Tok.Colon in
        if closed then ret raw
        else
          let raw :=
            if bool_decide (Token.text_ t = []) then raw
            else (if bool_decide (raw = []) then raw else raw ++ txt " ") ++ Token.text_ t in
          advance;; designator_words f rule raw
  end.
Definition parseTypeDesignator (rule : text) : M (option Expr.t) :=
  let* t := get cur_tok in
  advance;;
  let* n := get fuel_left in
  let* raw := designator_words n rule [] in
  ret (Some (str_node Expr.TypeTag (Token.loc t) raw)).

(** ** Primaries that need no recursion *)

(** The string a replicated constant repeats. *)
Fixpoint repeat_text (n : nat) (s : text) : text :=
  match n with O => [] | S n' => s ++ repeat_text n' s end.

Definition is_string_tok (kd : Tok.t) : bool :=
  bool_decide (kd = Tok.CharLit) || bool_decide (kd = Tok.BitLit) || bool_decide (kd = Tok.HexLit).

(** [( integer ) string] (rule 129), the tokens tested before it is parsed. *)
Definition at_replicated (st : pst) : bool :=
  is_at Tok.LParen st && peek_at 1 Tok.Number st && negb (Token.isFloat (peek_tok 1 st)) &&
  peek_at 2 Tok.RParen st && is_string_tok (Token.kind (peek_tok 3 st)).

Definition replicated (loc : SourceLoc) : M (option Expr.t) :=
  advance;;
  let* c := get cur_tok in
  let count := fst (fst (strtoll (Token.text_ c) 10)) in
  advance;; advance;;
  let* lit := get cur_tok in
  advance;;
  let size := Z.of_nat (length (Token.sval lit)) in
  if (count <? 0) || (Z.quot kMaxReplicatedChars (Z.max 1 size) <? count) then
    report (Token.loc c) (txt "a replicated string constant is too large") (txt "(129)");;
    ret (Some (str_node Expr.CharLit loc []))
  else if bool_decide (Token.kind lit = Tok.HexLit) then
    fun st =>
      match decodeHexLiteral (Token.sval lit) (Token.loc lit) (pd_ st) with
      | (Some one, d) =>
          Some (Some (str_node Expr.CharLit loc (repeat_text (Z.to_nat count) one)),
                mkP (i_ st) (exprDepth_ st) d)
      | (None, d) => Some (Some (node Expr.IntLit loc), mkP (i_ st) (exprDepth_ st) d)
      end
  else
    ret (Some (str_node (if bool_decide (Token.kind lit = Tok.CharLit) then Expr.CharLit else Expr.BitLit)
                 loc (repeat_text (Z.to_nat count) (Token.sval lit)))).

(** A numeric constant (rules (135)-(139), (145)). *)
Definition number (loc : SourceLoc) : M (option Expr.t) :=
  let* t := get cur_tok in
  let s := Token.text_ t in
  if Token.sterling t then
    match parseSterlingConstant s (node Expr.IntLit loc) with
    | Some e => advance;; ret (Some e)
    | None =>
        report (Token.loc t) (txt "invalid sterling constant") (txt "(145)");;
        advance;; ret (Some (node Expr.IntLit loc))
    end
  else if Token.imaginary t then
    advance;;
    ret (Some (flt_node Expr.ComplexLit loc
           (if Token.isFloat t then strtod s
            else if Token.binaryRadix t then double_of (fst (fst (strtoll s 2)))
            else double_of (fst (fst (strtoll s 10))))))
  else if Token.isFloat t then
    (if Token.binaryRadix t
     then report loc (txt "a binary radix suffix is not valid on a fractional constant") (txt "(136)")
     else ret tt);;
    advance;;
    ret (Some (if Token.hasExp t then flt_node Expr.FltLit loc (strtod s)
               else parseDecConstant s (node Expr.DecLit loc)))
  else
    advance;;
    ret (Some (parseIntConstant s (if Token.binaryRadix t then 2 else 10) (node Expr.IntLit loc))).

(** A hex string constant (rule (143)). *)
Definition hex_string (loc : SourceLoc) : M (option Expr.t) :=
  let* t := get cur_tok in
  advance;;
  fun st =>
    match decodeHexLiteral (Token.sval t) (Token.loc t) (pd_ st) with
    | (Some out, d) => Some (Some (str_node Expr.CharLit loc out), mkP (i_ st) (exprDepth_ st) d)
    | (None, d) => Some (Some (node Expr.IntLit loc), mkP (i_ st) (exprDepth_ st) d)
    end.

(** [while (eat(Tok::Dot))]: member names (rule 124). *)
Fixpoint member_names (fuel : nat) (path : list text) : M (list text) :=
  match fuel with
  | O => out_of_fuel
  | S f =>
      let* dot := eat Tok.Dot in
      if dot then
        let* t := get cur_tok in
        if bool_decide (Token.kind t = Tok.Word)
        then advance;; member_names f (path ++ [Token.text_ t])
        else report (Token.loc t) (txt "expected a member name after '.'") (txt "(124)");; ret path
      else ret path
  end.

Definition starts_operand (kd : Tok.t) : bool :=
  bool_decide (kd = Tok.Word) || bool_decide (kd = Tok.Number) || bool_decide (kd = Tok.LParen) ||
  bool_decide (kd = Tok.CharLit) || bool_decide (kd = Tok.BitLit).

(** [{+|-|not}] at the start of an expression-one. *)
Definition at_prefix (st : pst) : bool :=
  is_at Tok.Plus st || is_at Tok.Minus st || is_at Tok.Not st ||
  (Token.isWord (cur_tok st) (txt "NOT") && starts_operand (Token.kind (peek_tok 1 st))).

(** ** The recursive descent *)
Fixpoint parseExpr (n : nat) (minPrec : Z) : M (option Expr.t) :=
  match n with
  | O => out_of_fuel
  | S n =>
      let* deep := get (fun st => kMaxExprDepth <=? exprDepth_ st) in
      let* t := get cur_tok in
      if deep then report (Token.loc t) (txt "expression nesting is too deep") (txt "(123)");; ret None
      else
        guarded (
          let* lhs := parseUnary n in
          match lhs with
          | None => ret None
          | Some lhs => parseInfix n minPrec lhs
          end)
  end
(** The loop over the infix operators of at least [minPrec]. *)
with parseInfix (n : nat) (minPrec : Z) (lhs : Expr.t) : M (option Expr.t) :=
  match n with
  | O => out_of_fuel
  | S n =>
      let* t := get cur_tok in
      let o := infixOp t in
      let p := precOf o in
      if bool_decide (o = Tok.Eof) || (p =? 0) || (p <? minPrec) then ret (Some lhs)
      else
        advance;;
        let* rhs := parseExpr n (p + 1) in
        match rhs with
        | None => ret None
        | Some rhs =>
            parseInfix n minPrec (op_node Expr.Binary (Token.loc t) o (Some lhs) (Some rhs))
        end
  end
with parseUnary (n : nat) : M (option Expr.t) :=
  match n with
  | O => out_of_fuel
  | S n =>
      let* deep := get (fun st => kMaxExprDepth <=? exprDepth_ st) in
      let* t := get cur_tok in
      if deep then report (Token.loc t) (txt "expression nesting is too deep") (txt "(122)");; ret None
      else
        guarded (
          let* prefix := get at_prefix in
          if prefix then
            let o := if bool_decide (Token.kind t = Tok.Word) then Tok.Not else Token.kind t in
            advance;;
            let* operand := parseUnary n in
            match operand with
            | None => ret None
            | Some x =>
                if bool_decide (o = Tok.Plus) then ret (Some x)
                else ret (Some (op_node Expr.Unary (Token.loc t) o (Some x) None))
            end
          else parsePower n)
  end
with parsePower (n : nat) : M (option Expr.t) :=
  match n with
  | O => out_of_fuel
  | S n =>
      let* base := parsePrimary n in
      match base with
      | None => ret None
      | Some base =>
          let* t := get cur_tok in
          if bool_decide (Token.kind t = Tok.Power) then
            advance;;
            let* ex := parseUnary n in
            match ex with
            | None => ret None
            | Some ex => ret (Some (op_node Expr.Binary (Token.loc t) Tok.Power (Some base) (Some ex)))
            end
          else ret (Some base)
      end
  end
with parsePrimary (n : nat) : M (option Expr.t) :=
  match n with
  | O => out_of_fuel
  | S n =>
      let* t := get cur_tok in
      let loc := Token.loc t in
      let* repl := get at_replicated in
      if repl then replicated loc
      else
        match Token.kind t with
        | Tok.LParen =>
            advance;;
            let* inner := parseExpr n 1 in
            expect Tok.RParen (txt "(123)");;
            ret inner
        | Tok.Number => number loc
        | Tok.CharLit => advance;; ret (Some (str_node Expr.CharLit loc (Token.sval t)))
        | Tok.HexLit => hex_string loc
        | Tok.BitLit => advance;; ret (Some (str_node Expr.BitLit loc (Token.sval t)))
        | Tok.Word =>
            let* lhs := parseBasic n in
            parseLocator n lhs
        | _ =>
            report loc (txt "expected an expression, found " ++ tokName (Token.kind t)) (txt "(123)");;
            ret None
        end
  end
(** One basic reference: [WORD (.WORD)* ( ( args ) )? (.WORD)*]. *)
with parseBasic (n : nat) : M Expr.t :=
  match n with
  | O => out_of_fuel
  | S n =>
      let* t := get cur_tok in
      advance;;
      let* k1 := get fuel_left in
      let* path := member_names k1 [] in
      let* paren := eat Tok.LParen in
      if paren then
        let* empty := get (is_at Tok.RParen) in
        let* args := (if empty then ret [] else parseArgs n (Token.text_ t) []) in
        expect Tok.RParen (txt "(126)");;
        let* k2 := get fuel_left in
        let* path := member_names k2 path in
        ret (ref_node Expr.Call (Token.loc t) (Token.text_ t) path args None)
      else
        let* k2 := get fuel_left in
        let* path := member_names k2 path in
        ret (ref_node Expr.VarRef (Token.loc t) (Token.text_ t) path [] None)
  end
with parseArgs (n : nat) (nm : text) (args : list (option Expr.t)) : M (list (option Expr.t)) :=
  match n with
  | O => out_of_fuel
  | S n =>
      let* t := get cur_tok in
      let* arg :=
        (if bool_decide (Token.kind t = Tok.Star)
         then advance;; ret (Some (node Expr.Star (Token.loc t)))
         else if bool_decide (Token.kind t = Tok.Colon) && isEnquiryName nm
         then parseTypeDesignator (txt "(126)")
         else parseExpr n 1) in
      let* comma := eat Tok.Comma in
      if comma then parseArgs n nm (args ++ [arg]) else ret (args ++ [arg])
  end
(** [while (at(Tok::Arrow))]: locator qualification (rule 124). *)
with parseLocator (n : nat) (lhs : Expr.t) : M (option Expr.t) :=
  match n with
  | O => out_of_fuel
  | S n =>
      let* arrow := eat Tok.Arrow in
      if arrow then
        let* t := get cur_tok in
        if negb (bool_decide (Token.kind t = Tok.Word)) then
          report (Token.loc t) (txt "expected a based variable after '->'") (txt "(124)");;
          ret (Some lhs)
        else
          let* rhs := parseBasic n in
          parseLocator n (set_locPtr (Some lhs) rhs)
      else ret (Some lhs)
  end.

Definition parseExprOrPlaceholder (n : nat) : M Expr.t :=
  let* t := get cur_tok in
  let* e := parseExpr n 1 in
  ret (default (node Expr.IntLit (Token.loc t)) e).

(** ** INITIAL lists (rules 26-31) *)
Definition valueStart (kd : Tok.t) : bool :=
  bool_decide (kd ∈ [Tok.Number; Tok.CharLit; Tok.BitLit; Tok.HexLit; Tok.Word; Tok.Minus;
                     Tok.Plus; Tok.Star; Tok.LParen]).
Definition iterHex (st : pst) : bool :=
  peek_at 1 Tok.Number st && peek_at 2 Tok.RParen st && peek_at 3 Tok.HexLit st.
Definition at_iter (st : pst) : bool :=
  iterHex st || (peek_at 1 Tok.Number st && peek_at 2 Tok.RParen st &&
                 (peek_at 3 Tok.LParen st || valueStart (Token.kind (peek_tok 3 st)))).
Definition at_parenConst (st : pst) : bool :=
  negb (iterHex st) && peek_at 1 Tok.Number st && peek_at 2 Tok.RParen st &&
  (peek_at 3 Tok.Comma st || peek_at 3 Tok.RParen st).

Fixpoint parseInitialList (n : nat) (out : list InitItem) : M (list InitItem) :=
  match n with
  | O => out_of_fuel
  | S n =>
      let* close := eat Tok.RParen in
      if close then ret out
      else
        let* item := parseInitialItem n in
        let* comma := eat Tok.Comma in
        if comma then parseInitialList n (out ++ [item])
        else expect Tok.RParen (txt "(28)");; ret (out ++ [item])
  end
with parseInitialItem (n : nat) : M InitItem :=
  match n with
  | O => out_of_fuel
  | S n =>
      let* star := eat Tok.Star in
      if star then ret IRepeat
      else
        let* paren := get (is_at Tok.LParen) in
        if negb paren then let* v := parseExpr n 1 in ret (IValue v)
        else
          let* iter := get at_iter in
          let* const := get at_parenConst in
          advance;;
          let* t := get cur_tok in
          let v := fst (fst (strtoll (Token.text_ t) 10)) in
          if iter then
            advance;; advance;;
            let* group := eat Tok.LParen in
            if group then let* l := parseInitialList n [] in ret (IIter v l)
            else let* it := parseInitialItem n in ret (IIter v [it])
          else if const then
            advance;; advance;;
            ret (IValue (Some (set_const Expr.IntLit v 0 0 0 (node Expr.IntLit (Token.loc t)))))
          else let* l := parseInitialList n [] in ret (IGroup l)
  end.
End Parser.
