(* ===== verification/ExprTotal.v ===== *)
(** * The expression parser is total and diagnoses its failures

    A weakest-precondition calculus for the parser monad, and the proof that on
    a token list ending in end-of-file every parsing function returns with fuel
    linear in the tokens left, never moves backwards, restores the nesting
    depth, and reports an error whenever it returns a null expression. *)
From S2P Require Import Prelude Monad Types Diag Lexer Ast ConstFold Constants Typing ExprParser.

#[local] Set Default Proof Using "All".

Create HintDb parser.

(** ** Weakest preconditions *)
Lemma wp_guarded {A} (m : M A) st (Q : A -> pst -> Prop) :
  (let st0 := mkP (i_ st) (exprDepth_ st + 1) (pd_ st) in
   wp m st0 (fun x st' => Q x (mkP (i_ st') (exprDepth_ st' - 1) (pd_ st')))) ->
  wp (guarded m) st Q.
Proof. unfold wp, guarded. cbn zeta. destruct (m _) as [[x st']|]; done. Qed.

Section Total.
Variable t_ : list Token.t.
Variable strtod : text -> Z.
Variable double_of : Z -> Z.
Hypothesis ends_eof : Token.kind (List.last t_ Token.default) = Tok.Eof.
Hypothesis nonempty : t_ <> [].

Definition inside (st : pst) : Prop := (i_ st < length t_)%nat.
Definition left_ (st : pst) : nat := (length t_ - i_ st)%nat.

(** [st'] follows [st]: no token is given back, the depth is restored, errors
    are only added. *)
Definition follows (st st' : pst) : Prop :=
  (i_ st <= i_ st')%nat /\ inside st' /\ exprDepth_ st' = exprDepth_ st /\
  grows (pd_ st) (pd_ st').
Definition consumes (st st' : pst) : Prop := follows st st' /\ (i_ st < i_ st')%nat.

Lemma expr_follows_refl st : inside st -> follows st st.
Proof. unfold follows. intros. repeat split; apply diags_grows_refl || done || lia. Qed.
Lemma expr_follows_trans a b c : follows a b -> follows b c -> follows a c.
Proof.
  unfold follows. intros (?&?&?&?) (?&?&?&?). split; [lia|]. split; [done|]. split; [congruence|]. by eapply diags_grows_trans.
Qed.
Lemma consumes_follows a b : consumes a b -> follows a b.
Proof. by intros [? _]. Qed.
Lemma consumes_l a b c : consumes a b -> follows b c -> consumes a c.
Proof.
  intros [H1 ?] H2. split; [by eapply expr_follows_trans|]. destruct H2 as (?&_). lia.
Qed.
Lemma consumes_r a b c : follows a b -> consumes b c -> consumes a c.
Proof.
  intros H1 [H2 ?]. split; [by eapply expr_follows_trans|]. destruct H1 as (?&_). lia.
Qed.
Lemma expr_follows_inside a b : follows a b -> inside b.
Proof. by intros (_&?&_). Qed.

Lemma last_nth : List.last t_ Token.default = nth (length t_ - 1) t_ Token.default.
Proof.
  assert (forall l : list Token.t, l <> [] -> List.last l Token.default = nth (length l - 1) l Token.default) as H.
  { induction l as [|t l IH]; [done|]. intros _. destruct l as [|t' l]; [done|].
    change (List.last (t :: t' :: l) Token.default) with (List.last (t' :: l) Token.default).
    rewrite IH by done. cbn [length]. by replace (S (S (length l)) - 1)%nat with (S (S (length l) - 1)) by lia. }
  by apply H.
Qed.

(** Only the last token is end-of-file, so any other kind can be consumed. *)
Lemma not_last st kd : inside st -> is_at t_ kd st = true -> kd <> Tok.Eof ->
  (i_ st + 1 < length t_)%nat.
Proof.
  unfold inside, is_at. intros Hi Hk%bool_decide_eq_true Hne.
  destruct (decide (i_ st + 1 < length t_)%nat); [done|]. exfalso. apply Hne. rewrite <- Hk.
  unfold cur_tok. replace (i_ st) with (length t_ - 1)%nat by lia. rewrite <- last_nth. exact ends_eof.
Qed.
Lemma peek_not_last st n kd : peek_at t_ n kd st = true -> kd <> Tok.Eof ->
  (i_ st + n < length t_)%nat /\ Token.kind (nth (i_ st + n) t_ Token.default) = kd.
Proof.
  unfold peek_at, peek_tok. intros H%bool_decide_eq_true Hne.
  destruct (Nat.ltb_spec (i_ st + n) (length t_)); [done|]. congruence.
Qed.

Lemma expr_wp_advance st kd (Q : unit -> pst -> Prop) : inside st -> is_at t_ kd st = true -> kd <> Tok.Eof ->
  (forall st', consumes st st' -> i_ st' = S (i_ st) -> Q tt st') -> wp (advance t_) st Q.
Proof.
  intros Hi Hk Hne HQ. unfold wp, advance. pose proof (not_last st kd Hi Hk Hne) as Hl.
  rewrite (proj2 (Nat.ltb_lt _ _) Hl). apply HQ; [|done].
  split; [|cbn; lia]. unfold follows, inside. cbn. split; [lia|]. split; [lia|]. split; [done|]. apply diags_grows_refl.
Qed.
Lemma wp_report st l m r (Q : unit -> pst -> Prop) : inside st ->
  (forall st', follows st st' -> i_ st' = i_ st -> reported (pd_ st) < reported (pd_ st') -> Q tt st') ->
  wp (report l m r) st Q.
Proof.
  intros Hi HQ. unfold wp, report. apply HQ; cbn; rewrite ?reported_error; try lia.
  unfold follows, inside. cbn. split; [lia|]. split; [done|]. split; [done|]. apply grows_error.
Qed.
Lemma expr_wp_eat st kd (Q : bool -> pst -> Prop) : inside st -> kd <> Tok.Eof ->
  (forall st', is_at t_ kd st = true -> consumes st st' -> i_ st' = S (i_ st) -> Q true st') ->
  (is_at t_ kd st = false -> Q false st) -> wp (eat t_ kd) st Q.
Proof.
  intros Hi Hne H1 H2. apply wp_bind, wp_get. destruct (is_at t_ kd st) eqn:E; [|by apply wp_ret, H2].
  apply wp_bind. eapply expr_wp_advance; [done..|]. intros st' Hc Hs. by apply wp_ret, H1.
Qed.
Lemma expr_wp_expect st kd rule (Q : bool -> pst -> Prop) : inside st -> kd <> Tok.Eof ->
  (forall b st', follows st st' -> Q b st') -> wp (expect t_ kd rule) st Q.
Proof.
  intros Hi Hne HQ. apply wp_bind, wp_get. destruct (is_at t_ kd st) eqn:E.
  - apply wp_bind. eapply expr_wp_advance; [done..|]. intros st' Hc _. apply wp_ret, HQ. by apply consumes_follows.
  - apply wp_bind, wp_get, wp_bind, wp_report; [done|]. intros st' Hf _ _. by apply wp_ret, HQ.
Qed.
(** ** Loops that only read tokens *)
Lemma member_names_total fuel path st (Q : list text -> pst -> Prop) :
  inside st -> (left_ st < fuel)%nat -> (forall l st', follows st st' -> Q l st') ->
  wp (member_names t_ fuel path) st Q.
Proof.
  revert path st Q. induction fuel as [|f IH]; intros path st Q Hi Hf HQ; [lia|]. cbn [member_names].
  apply wp_bind, expr_wp_eat; [done..| |].
  - intros st1 _ Hc Hs. apply wp_bind, wp_get. case_bool_decide as Hk.
    + apply wp_bind. eapply (expr_wp_advance _ Tok.Word).
      { by eapply expr_follows_inside, consumes_follows. } { by apply bool_decide_eq_true. } { done. }
      intros st2 Hc2 Hs2. apply IH.
      * by eapply expr_follows_inside, consumes_follows.
      * unfold left_ in *. destruct Hc2 as [(_&Hin&_) _]. unfold inside in *. lia.
      * intros l st3 Hf3. apply HQ. eapply expr_follows_trans; [by apply consumes_follows|].
        eapply expr_follows_trans; [by apply consumes_follows|done].
    + apply wp_bind, wp_report; [by eapply expr_follows_inside, consumes_follows|].
      intros st2 Hf2 _ _. apply wp_ret, HQ. eapply expr_follows_trans; [by apply consumes_follows|done].
  - intros _. apply wp_ret, HQ. by apply expr_follows_refl.
Qed.

Lemma designator_total fuel rule raw st (Q : text -> pst -> Prop) :
  inside st -> (left_ st < fuel)%nat -> (forall l st', follows st st' -> Q l st') ->
  wp (designator_words t_ fuel rule raw) st Q.
Proof.
  revert raw st Q. induction fuel as [|f IH]; intros raw st Q Hi Hf HQ; [lia|]. cbn [designator_words].
  apply wp_bind, wp_get, wp_bind, wp_get. destruct (_ || _) eqn:E.
  - apply wp_bind, wp_report; [done|]. intros st' Hfo _ _. by apply wp_ret, HQ.
  - apply wp_bind, expr_wp_eat; [done..| |].
    + intros st1 _ Hc _. apply wp_ret, HQ. by apply consumes_follows.
    + intros _. apply wp_bind. eapply (expr_wp_advance _ (Token.kind (cur_tok t_ st))); [done| | |].
      { unfold is_at. by apply bool_decide_eq_true. }
      { apply orb_false_iff in E as [E _]. unfold is_at in E. by apply bool_decide_eq_false in E. }
      intros st1 Hc Hs. apply IH; [by eapply expr_follows_inside, consumes_follows| |].
      * unfold left_ in *. destruct Hc as [(_&Hin&_) _]. unfold inside in *. lia.
      * intros l st2 H2. apply HQ. eapply expr_follows_trans; [by apply consumes_follows|done].
Qed.

Lemma type_designator_total rule st (Q : option Expr.t -> pst -> Prop) :
  inside st -> is_at t_ Tok.Colon st = true ->
  (forall e st', consumes st st' -> Q (Some e) st') -> wp (parseTypeDesignator t_ rule) st Q.
Proof.
  intros Hi Hk HQ. apply wp_bind, wp_get, wp_bind. eapply (expr_wp_advance _ Tok.Colon); [done..|].
  intros st1 Hc _. apply wp_bind, wp_get, wp_bind. apply designator_total.
  - by eapply expr_follows_inside, consumes_follows.
  - unfold left_, fuel_left. lia.
  - intros l st2 H2. apply wp_ret, HQ. by eapply consumes_l.
Qed.

(** ** Constants *)

(** What a primary does: it consumes its tokens, or fails with an error. *)
Definition primary_post (st : pst) (e : option Expr.t) (st' : pst) : Prop :=
  follows st st' /\
  match e with Some _ => (i_ st < i_ st')%nat | None => reported (pd_ st) < reported (pd_ st') end.

Lemma primary_some st st' e : consumes st st' -> primary_post st (Some e) st'.
Proof. by intros [? ?]. Qed.

Lemma decode_follows hex loc st : inside st ->
  follows st (mkP (i_ st) (exprDepth_ st) (snd (decodeHexLiteral hex loc (pd_ st)))).
Proof.
  intros Hi. unfold follows, inside. cbn [i_ exprDepth_ pd_].
  split; [lia|]. split; [done|]. split; [done|]. unfold decodeHexLiteral. destruct (negb _); [apply grows_error|].
  destruct (decode_pairs hex); [apply diags_grows_refl|apply grows_error].
Qed.

Lemma number_total loc st : inside st -> is_at t_ Tok.Number st = true ->
  wp (number t_ strtod double_of loc) st (primary_post st).
Proof.
  intros Hi Hk. apply wp_bind, wp_get.
  assert (forall e, wp (bind (advance t_) (fun _ => ret (Some e))) st (primary_post st)) as Hadv.
  { intros e. apply wp_bind. eapply (expr_wp_advance _ Tok.Number); [done..|].
    intros st1 Hc _. by apply wp_ret, primary_some. }
  assert (forall l m r e, wp (bind (report l m r) (fun _ => bind (advance t_) (fun _ => ret (Some e)))) st (primary_post st)) as Hrep.
  { intros l m r e. apply wp_bind, wp_report; [done|]. intros st1 Hf Hs _.
    apply wp_bind. eapply (expr_wp_advance _ Tok.Number); [by eapply expr_follows_inside| |done|].
    { unfold is_at, cur_tok in *. by rewrite Hs. }
    intros st2 Hc _. apply wp_ret, primary_some. by eapply consumes_r. }
  cbn zeta. destruct (Token.sterling _); [destruct (parseSterlingConstant _ _); auto|].
  destruct (Token.imaginary _); [auto|]. destruct (Token.isFloat _); [|auto].
  destruct (Token.binaryRadix _); [apply Hrep|].
  apply wp_bind, wp_ret, Hadv.
Qed.

Lemma hex_string_total loc st : inside st -> is_at t_ Tok.HexLit st = true ->
  wp (hex_string t_ loc) st (primary_post st).
Proof.
  intros Hi Hk. apply wp_bind, wp_get, wp_bind. eapply (expr_wp_advance _ Tok.HexLit); [done..|].
  intros st1 Hc _. unfold wp.
  pose proof (decode_follows (Token.sval (cur_tok t_ st)) (Token.loc (cur_tok t_ st)) st1
    (expr_follows_inside _ _ (consumes_follows _ _ Hc))) as Hf.
  destruct (decodeHexLiteral _ _ (pd_ st1)) as [[out|] d]; cbn [snd] in Hf;
    apply primary_some; by eapply consumes_l.
Qed.

Lemma replicated_total loc st : inside st -> at_replicated t_ st = true ->
  wp (replicated t_ loc) st (primary_post st).
Proof.
  intros Hi Hr. unfold at_replicated in Hr.
  apply andb_true_iff in Hr as [[[[H0 H1]%andb_true_iff _]%andb_true_iff H2]%andb_true_iff H3].
  destruct (peek_not_last _ _ _ H1) as [L1 K1]; [done|]. destruct (peek_not_last _ _ _ H2) as [L2 K2]; [done|].
  assert (exists kd, peek_at t_ 3 kd st = true /\ kd <> Tok.Eof) as (kd & H3' & Hkd).
  { unfold is_string_tok in H3. exists (Token.kind (peek_tok t_ 3 st)). unfold peek_at.
    split; [by apply bool_decide_eq_true|]. intros E. rewrite E in H3. done. }
  destruct (peek_not_last _ _ _ H3' Hkd) as [L3 K3].
  assert (forall st' n kd', i_ st' = (i_ st + n)%nat -> Token.kind (nth (i_ st + n) t_ Token.default) = kd' ->
    is_at t_ kd' st' = true) as Hat.
  { intros st' n kd' E K. unfold is_at, cur_tok. rewrite E. by apply bool_decide_eq_true. }
  apply wp_bind. eapply (expr_wp_advance _ Tok.LParen); [done..|]. intros st1 C1 S1.
  apply wp_bind, wp_get. cbn zeta. apply wp_bind.
  eapply (expr_wp_advance _ Tok.Number); [by eapply expr_follows_inside, consumes_follows| |done|].
  { apply (Hat _ 1%nat); [lia|done]. }
  intros st2 C2 S2. apply wp_bind.
  eapply (expr_wp_advance _ Tok.RParen); [by eapply expr_follows_inside, consumes_follows| |done|].
  { apply (Hat _ 2%nat); [lia|done]. }
  intros st3 C3 S3. apply wp_bind, wp_get, wp_bind.
  eapply (expr_wp_advance _ kd); [by eapply expr_follows_inside, consumes_follows| |done|].
  { apply (Hat _ 3%nat); [lia|done]. }
  intros st4 C4 S4.
  assert (consumes st st4) as C.
  { eapply consumes_l; [exact C1|]. apply consumes_follows.
    eapply consumes_l; [exact C2|]. apply consumes_follows. eapply consumes_l; [exact C3|]. by apply consumes_follows. }
  destruct (_ || _).
  { apply wp_bind, wp_report; [by eapply expr_follows_inside, consumes_follows|]. intros st5 F5 _ _.
    apply wp_ret, primary_some. by eapply consumes_l. }
  case_bool_decide; [|by apply wp_ret, primary_some].
  unfold wp. pose proof (decode_follows (Token.sval (cur_tok t_ st3)) (Token.loc (cur_tok t_ st3)) st4
    (expr_follows_inside _ _ (consumes_follows _ _ C))) as Hf.
  destruct (decodeHexLiteral _ _ (pd_ st4)) as [[out|] d]; cbn [snd] in Hf;
    apply primary_some; by eapply consumes_l.
Qed.

(** ** The recursive descent *)
Definition infix_post (st : pst) (e : option Expr.t) (st' : pst) : Prop :=
  follows st st' /\ match e with Some _ => True | None => reported (pd_ st) < reported (pd_ st') end.

Definition total_at (n : nat) : Prop :=
  (forall p st, inside st -> (8 * left_ st + 5 <= n)%nat ->
     wp (parseExpr t_ strtod double_of n p) st (primary_post st)) /\
  (forall p lhs st, inside st -> (8 * left_ st + 1 <= n)%nat ->
     wp (parseInfix t_ strtod double_of n p lhs) st (infix_post st)) /\
  (forall st, inside st -> (8 * left_ st + 4 <= n)%nat ->
     wp (parseUnary t_ strtod double_of n) st (primary_post st)) /\
  (forall st, inside st -> (8 * left_ st + 3 <= n)%nat ->
     wp (parsePower t_ strtod double_of n) st (primary_post st)) /\
  (forall st, inside st -> (8 * left_ st + 2 <= n)%nat ->
     wp (parsePrimary t_ strtod double_of n) st (primary_post st)) /\
  (forall st, inside st -> is_at t_ Tok.Word st = true -> (8 * left_ st + 1 <= n)%nat ->
     wp (parseBasic t_ strtod double_of n) st (fun _ => consumes st)) /\
  (forall nm args st, inside st -> (8 * left_ st + 6 <= n)%nat ->
     wp (parseArgs t_ strtod double_of n nm args) st (fun _ => follows st)) /\
  (forall lhs st, inside st -> (8 * left_ st + 1 <= n)%nat ->
     wp (parseLocator t_ strtod double_of n lhs) st
       (fun e st' => follows st st' /\ exists x, e = Some x)).

Lemma consumes_left st st' : consumes st st' -> (left_ st' + 1 <= left_ st)%nat.
Proof. unfold left_. intros [(?&Hin&_) ?]. unfold inside in *. lia. Qed.
Lemma follows_left st st' : follows st st' -> (left_ st' <= left_ st)%nat.
Proof. unfold left_. intros (?&_). lia. Qed.
Lemma consumes_inside st st' : consumes st st' -> inside st'.
Proof. intros H. by eapply expr_follows_inside, consumes_follows. Qed.

Lemma follows_deeper st : inside st -> inside (mkP (i_ st) (exprDepth_ st + 1) (pd_ st)).
Proof. done. Qed.
Lemma primary_guarded st e st' :
  primary_post (mkP (i_ st) (exprDepth_ st + 1) (pd_ st)) e st' ->
  primary_post st e (mkP (i_ st') (exprDepth_ st' - 1) (pd_ st')).
Proof.
  unfold primary_post, follows, inside. cbn. intros [(?&?&?&?) ?]. split; [|done].
  split; [lia|]. split; [done|]. split; [lia|done].
Qed.
Lemma primary_l st st1 e st' : consumes st st1 -> infix_post st1 e st' -> primary_post st e st'.
Proof.
  intros C [F H]. pose proof (consumes_l _ _ _ C F) as [F' L]. split; [done|].
  destruct e; [done|]. destruct (consumes_follows _ _ C) as (_&_&_&?%reported_grows). lia.
Qed.
Lemma primary_infix st e st' : primary_post st e st' -> infix_post st e st'.
Proof. intros [F H]. split; [done|]. by destruct e. Qed.

Lemma infix_not_eof st : bool_decide (infixOp (cur_tok t_ st) = Tok.Eof) = false ->
  Token.kind (cur_tok t_ st) <> Tok.Eof.
Proof.
  intros H%bool_decide_eq_false E. apply H. unfold infixOp. by rewrite E.
Qed.
Lemma at_cur st : is_at t_ (Token.kind (cur_tok t_ st)) st = true.
Proof. unfold is_at. by apply bool_decide_eq_true. Qed.

Lemma parseExpr_step n : total_at n -> forall p st, inside st -> (8 * left_ st + 5 <= S n)%nat ->
  wp (parseExpr t_ strtod double_of (S n) p) st (primary_post st).
Proof.
  intros (_ & HI & HU & _) p st Hi Hn. cbn [parseExpr].
  apply wp_bind, wp_get, wp_bind, wp_get. destruct (_ <=? _).
  { apply wp_bind, wp_report; [done|]. intros st' F _ R. by apply wp_ret. }
  apply wp_guarded. cbn zeta. set (st0 := mkP _ _ _).
  eapply wp_mono; [|intros e st'; apply (primary_guarded st)].
  fold st0. apply wp_bind. eapply wp_mono; [apply (HU st0); [done|unfold left_ in *; cbn; lia]|].
  intros [lhs|] st1 [F H].
  - eapply wp_mono; [apply HI; [by eapply expr_follows_inside|]|].
    { pose proof (consumes_left st0 st1 (conj F H)). unfold left_ in *. cbn in *. lia. }
    intros e st2 I2. by eapply primary_l.
  - by apply wp_ret.
Qed.

Lemma parseInfix_step n : total_at n -> forall p lhs st, inside st -> (8 * left_ st + 1 <= S n)%nat ->
  wp (parseInfix t_ strtod double_of (S n) p lhs) st (infix_post st).
Proof.
  intros (HE & HI & _) p lhs st Hi Hn. cbn [parseInfix].
  apply wp_bind, wp_get. cbn zeta. destruct (_ || _) eqn:E.
  { apply wp_ret. split; [by apply expr_follows_refl|done]. }
  apply orb_false_iff in E as [[E _]%orb_false_iff _].
  apply wp_bind. eapply (expr_wp_advance _ _); [done|apply at_cur|by apply infix_not_eof|].
  intros st1 C1 _. pose proof (consumes_left _ _ C1).
  apply wp_bind. eapply wp_mono; [apply HE; [by eapply consumes_inside|lia]|].
  intros [rhs|] st2 [F2 H2].
  - pose proof (follows_left _ _ F2).
    eapply wp_mono; [apply HI; [by eapply expr_follows_inside|lia]|].
    intros e st3 [F3 H3]. pose proof (consumes_l _ _ _ C1 F2) as C2.
    apply primary_infix. eapply primary_l; [exact C2|done].
  - apply wp_ret. apply primary_infix. eapply primary_l; [exact C1|by split].
Qed.

Lemma parseUnary_step n : total_at n -> forall st, inside st -> (8 * left_ st + 4 <= S n)%nat ->
  wp (parseUnary t_ strtod double_of (S n)) st (primary_post st).
Proof.
  intros (_ & _ & HU & HP & _) st Hi Hn. cbn [parseUnary].
  apply wp_bind, wp_get, wp_bind, wp_get. destruct (_ <=? _).
  { apply wp_bind, wp_report; [done|]. intros st' F _ R. by apply wp_ret. }
  apply wp_guarded. cbn zeta. set (st0 := mkP _ _ _).
  eapply wp_mono; [|intros e st'; apply (primary_guarded st)].
  fold st0. apply wp_bind, wp_get. destruct (at_prefix t_ st0) eqn:Ep.
  - assert (Token.kind (cur_tok t_ st0) <> Tok.Eof) as Hne.
    { intros E. unfold at_prefix, is_at, Token.isWord in Ep. rewrite E in Ep. done. }
    apply wp_bind. eapply (expr_wp_advance _ _); [done|apply at_cur|done|].
    intros st1 C1 _. pose proof (consumes_left _ _ C1).
    apply wp_bind. eapply wp_mono; [apply HU; [by eapply consumes_inside|unfold left_ in *; cbn in *; lia]|].
    intros [x|] st2 [F2 H2].
    + pose proof (consumes_l _ _ _ C1 F2) as C2.
      case_bool_decide; by apply wp_ret, primary_some.
    + apply wp_ret. eapply primary_l; [exact C1|by split].
  - apply HP; [done|unfold left_ in *; cbn; lia].
Qed.

Lemma parsePower_step n : total_at n -> forall st, inside st -> (8 * left_ st + 3 <= S n)%nat ->
  wp (parsePower t_ strtod double_of (S n)) st (primary_post st).
Proof.
  intros (_ & _ & HU & _ & HP & _) st Hi Hn. cbn [parsePower].
  apply wp_bind. eapply wp_mono; [apply HP; [done|lia]|].
  intros [base|] st1 [F1 H1]; [|by apply wp_ret].
  pose proof (conj F1 H1 : consumes _ _) as C1. pose proof (consumes_left _ _ C1).
  apply wp_bind, wp_get. case_bool_decide as Hk; [|by apply wp_ret, primary_some].
  apply wp_bind. eapply (expr_wp_advance _ Tok.Power); [by eapply expr_follows_inside|by apply bool_decide_eq_true|done|].
  intros st2 C2 _. pose proof (consumes_left _ _ C2).
  pose proof (consumes_l _ _ _ C1 (consumes_follows _ _ C2)) as C3.
  apply wp_bind. eapply wp_mono; [apply HU; [by eapply consumes_inside|lia]|].
  intros [ex|] st3 [F3 H3].
  - apply wp_ret, primary_some. by eapply consumes_l.
  - apply wp_ret. eapply primary_l; [exact C3|by split].
Qed.

Lemma parsePrimary_step n : total_at n -> forall st, inside st -> (8 * left_ st + 2 <= S n)%nat ->
  wp (parsePrimary t_ strtod double_of (S n)) st (primary_post st).
Proof.
  intros (HE & _ & _ & _ & _ & HB & _ & HL) st Hi Hn. cbn [parsePrimary].
  apply wp_bind, wp_get, wp_bind, wp_get. destruct (at_replicated t_ st) eqn:Er; [by apply replicated_total|].
  pose proof (at_cur st) as Hat.
  assert (forall l m r, wp (bind (report l m r) (fun _ => ret None)) st (primary_post st)) as Hfail.
  { intros. apply wp_bind, wp_report; [done|]. intros st' F _ R. by apply wp_ret. }
  assert (forall e kd, is_at t_ kd st = true -> kd <> Tok.Eof ->
    wp (bind (advance t_) (fun _ => ret (Some e))) st (primary_post st)) as Hadv.
  { intros e kd Hk Hne. apply wp_bind. eapply expr_wp_advance; [done..|]. intros st' C _.
    by apply wp_ret, primary_some. }
  destruct (Token.kind (cur_tok t_ st)) eqn:Ek; try apply Hfail.
  - apply wp_bind. eapply wp_mono; [apply HB; [done|done|lia]|]. intros b st1 C1. cbn beta in C1.
    pose proof (consumes_left _ _ C1).
    eapply wp_mono; [apply HL; [by eapply consumes_inside|lia]|].
    intros e st2 [F2 [x ->]]. apply primary_some. by eapply consumes_l.
  - by apply number_total.
  - by apply (Hadv _ Tok.CharLit).
  - by apply (Hadv _ Tok.BitLit).
  - by apply hex_string_total.
  - apply wp_bind. eapply (expr_wp_advance _ Tok.LParen); [done..|]. intros st1 C1 _.
    pose proof (consumes_left _ _ C1).
    apply wp_bind. eapply wp_mono; [apply HE; [by eapply consumes_inside|lia]|].
    intros e st2 [F2 H2]. apply wp_bind, expr_wp_expect; [by eapply expr_follows_inside|done|].
    intros b st3 F3. apply wp_ret. eapply primary_l; [exact C1|].
    split; [by eapply expr_follows_trans|]. destruct e; [done|]. destruct F3 as (_&_&_&?%reported_grows). lia.
Qed.

Lemma parseBasic_step n : total_at n -> forall st, inside st -> is_at t_ Tok.Word st = true ->
  (8 * left_ st + 1 <= S n)%nat ->
  wp (parseBasic t_ strtod double_of (S n)) st (fun _ => consumes st).
Proof.
  intros (_ & _ & _ & _ & _ & _ & HA & _) st Hi Hw Hn. cbn [parseBasic].
  apply wp_bind, wp_get, wp_bind. eapply (expr_wp_advance _ Tok.Word); [done..|]. intros st1 C1 _.
  pose proof (consumes_inside _ _ C1) as I1. pose proof (consumes_left _ _ C1).
  assert (forall st2 path (f : list text -> Expr.t), consumes st st2 ->
    wp (bind (get (fuel_left t_)) (fun k2 => bind (member_names t_ k2 path) (fun path => ret (f path)))) st2
       (fun _ => consumes st)) as Htail.
  { intros st2 path f C2. apply wp_bind, wp_get, wp_bind, member_names_total;
      [by eapply consumes_inside|unfold left_, fuel_left; lia|].
    intros l st3 F3. apply wp_ret. by eapply consumes_l. }
  apply wp_bind, wp_get, wp_bind, member_names_total; [done|unfold left_, fuel_left; lia|].
  intros path st2 F2. pose proof (consumes_l _ _ _ C1 F2) as C2.
  pose proof (expr_follows_inside _ _ F2) as I2. pose proof (follows_left _ _ F2).
  apply wp_bind, expr_wp_eat; [done..| |].
  - intros st3 _ C3 _. pose proof (consumes_l _ _ _ C2 (consumes_follows _ _ C3)) as C4.
    pose proof (consumes_left _ _ C3).
    apply wp_bind, wp_get, wp_bind.
    eapply (wp_mono _ _ (fun _ => follows st3)).
    { destruct (is_at t_ Tok.RParen st3).
      - apply wp_ret, expr_follows_refl. by eapply consumes_inside.
      - apply HA; [by eapply consumes_inside|lia]. }
    intros args st4 F4. apply wp_bind, expr_wp_expect; [by eapply expr_follows_inside|done|].
    intros b st5 F5. apply Htail. eapply consumes_l; [exact C4|]. by eapply expr_follows_trans.
  - intros _. by apply Htail.
Qed.

Lemma parseArgs_step n : total_at n -> forall nm args st, inside st -> (8 * left_ st + 6 <= S n)%nat ->
  wp (parseArgs t_ strtod double_of (S n) nm args) st (fun _ => follows st).
Proof.
  intros (HE & _ & _ & _ & _ & _ & HA & _) nm args st Hi Hn. cbn [parseArgs].
  apply wp_bind, wp_get, wp_bind. eapply (wp_mono _ _ (fun _ => follows st)).
  - case_bool_decide as Es.
    { apply wp_bind. eapply (expr_wp_advance _ Tok.Star); [done|by apply bool_decide_eq_true|done|].
      intros st1 C1 _. by apply wp_ret, consumes_follows. }
    destruct (_ && _) eqn:Ec.
    { apply andb_true_iff in Ec as [Ec _]. apply type_designator_total; [done|done|].
      intros e st1 C1. by apply consumes_follows. }
    eapply wp_mono; [apply HE; [done|lia]|]. by intros e st1 [F1 _].
  - intros arg st1 F1. pose proof (follows_left _ _ F1). apply wp_bind, expr_wp_eat; [by eapply expr_follows_inside|done| |].
    + intros st2 _ C2 _. pose proof (consumes_left _ _ C2).
      eapply wp_mono; [apply HA; [by eapply consumes_inside|lia]|].
      intros l st3 F3. eapply expr_follows_trans; [exact F1|]. eapply expr_follows_trans; [by apply consumes_follows|done].
    + intros _. by apply wp_ret.
Qed.

Lemma parseLocator_step n : total_at n -> forall lhs st, inside st -> (8 * left_ st + 1 <= S n)%nat ->
  wp (parseLocator t_ strtod double_of (S n) lhs) st (fun e st' => follows st st' /\ exists x, e = Some x).
Proof.
  intros (_ & _ & _ & _ & _ & HB & _ & HL) lhs st Hi Hn. cbn [parseLocator].
  apply wp_bind, expr_wp_eat; [done..| |].
  - intros st1 _ C1 _. pose proof (consumes_inside _ _ C1) as I1. pose proof (consumes_left _ _ C1).
    apply wp_bind, wp_get. case_bool_decide as Hk; cbn [negb].
    + apply wp_bind. eapply wp_mono; [apply HB; [done|by apply bool_decide_eq_true|lia]|].
      intros rhs st2 C2. cbn beta in C2. pose proof (consumes_left _ _ C2).
      eapply wp_mono; [apply HL; [by eapply consumes_inside|lia]|].
      intros e st3 [F3 [x ->]]. split; [|by eexists].
      eapply expr_follows_trans; [by apply consumes_follows|]. eapply expr_follows_trans; [by apply consumes_follows|done].
    + apply wp_bind, wp_report; [done|]. intros st2 F2 _ _. apply wp_ret. split; [|by eexists].
      eapply expr_follows_trans; [by apply consumes_follows|done].
  - intros _. apply wp_ret. split; [by apply expr_follows_refl|by eexists].
Qed.

Lemma total_all n : total_at n.
Proof.
  induction n as [|n IH].
  { repeat split; intros; lia. }
  unfold total_at. split; [by apply parseExpr_step|]. split; [by apply parseInfix_step|].
  split; [by apply parseUnary_step|]. split; [by apply parsePower_step|].
  split; [by apply parsePrimary_step|]. split; [by apply parseBasic_step|].
  split; [by apply parseArgs_step|by apply parseLocator_step].
Qed.
End Total.

(** C2: the expression parser always returns, and a failure is always diagnosed.
    On any token list that ends in end-of-file, from any position and nesting depth
    and for any minimum precedence, fuel of eight per token left and five is enough;
    the parser never moves backwards or past the last token, restores the nesting
    depth, never withdraws an error, consumes at least one token when it returns an
    expression and reports at least one error when it returns a null one. *)
Theorem expression_parser_total t_ strtod double_of n minPrec st :
  Token.kind (List.last t_ Token.default) = Tok.Eof -> (i_ st < length t_)%nat ->
  (8 * (length t_ - i_ st) + 5 <= n)%nat ->
  exists e st', parseExpr t_ strtod double_of n minPrec st = Some (e, st') /\
    (i_ st <= i_ st' < length t_)%nat /\ exprDepth_ st' = exprDepth_ st /\
    reported (pd_ st) <= reported (pd_ st') /\
    match e with
    | Some _ => (i_ st < i_ st')%nat
    | None => reported (pd_ st) < reported (pd_ st')
    end.
Proof.
  intros Heof Hi Hn. assert (t_ <> []) as Hne by (destruct t_; [cbn in Hi; lia|done]).
  destruct (total_all t_ strtod double_of Heof Hne n) as (HE & _).
  specialize (HE minPrec st Hi Hn). unfold wp in HE.
  destruct (parseExpr _ _ _ _ _ _) as [[e st']|]; [|done].
  destruct HE as [(?&?&?&?%reported_grows) H]. exists e, st'. done.
Qed.

(** On [( 1 +;] the parser fails at the semicolon. *)
Lemma expression_parser_total_witness :
  let z := mkLoc 0 0 in
  let ts := [Token.at_loc Tok.LParen z; set_text (txt "1") (Token.at_loc Tok.Number z);
             Token.at_loc Tok.Plus z; Token.at_loc Tok.Semi z; Token.at_loc Tok.Eof z] in
  exists e st', parseExpr ts (fun _ => 0) (fun _ => 0) 45 1 (mkP 0 0 (Diags_new [])) = Some (e, st') /\
    (0 <= i_ st' < length ts)%nat /\ exprDepth_ st' = 0 /\ 0 <= reported (pd_ st') /\
    match e with Some _ => (0 < i_ st')%nat | None => 0 < reported (pd_ st') end.
Proof.
  intros z ts. apply (expression_parser_total ts (fun _ => 0) (fun _ => 0) 45 1 (mkP 0 0 (Diags_new [])));
    [reflexivity|unfold ts; cbn; lia|unfold ts; cbn; lia].
Defined.
