(* ===== verification/ExprRound.v ===== *)
(** * Printing and parsing expressions are inverse

    A surface syntax of expressions with its printer, which writes the
    parentheses precedence requires (and any others), and the theorem that
    [parseExpr] reads a printed expression back as its tree. *)
From S2P Require Import Prelude Monad Types Diag Lexer LexerPos LexRound Ast ConstFold Constants Typing ExprParser ExprTotal.

#[local] Set Default Proof Using "All".
#[local] Set Warnings "-register-all".

Definition zloc : SourceLoc := mkLoc 0 0.

(** Locations reset, at every depth. *)
Fixpoint erase (e : Expr.t) : Expr.t :=
  Expr.mk (Expr.kind e) zloc (Expr.ty e) (Expr.ival e) (Expr.wideIval e) (Expr.fval e)
    (Expr.decScale e) (Expr.decPrec e) (Expr.sval e) (Expr.name e) (Expr.path e) (Expr.memberPath e)
    (Expr.sym e) (option_map erase (Expr.locPtr e)) (Expr.allocBaseRef e) (Expr.isLabel e)
    (Expr.folded e) (Expr.op e) (option_map erase (Expr.a e)) (option_map erase (Expr.b e))
    (List.map (option_map erase) (Expr.args e)).

(** ** Surface syntax *)
Inductive sx :=
  | XInt (s : text) (binary : bool)
  | XDec (s : text)
  | XFlt (s : text)
  | XChar (s : text)
  | XBit (s : text)
  | XRef (locator : option sx) (nm : text) (path : list text)
  | XCall (locator : option sx) (nm : text) (path : list text) (args : list (option sx)) (path' : list text)
  | XParen (x : sx)
  | XPre (o : Tok.t) (x : sx)
  | XPow (x y : sx)
  | XBin (o : Token.t) (x y : sx).

Definition word (s : text) : Token.t := set_text s (Token.at_loc Tok.Word zloc).
Definition sym (kd : Tok.t) : Token.t := Token.at_loc kd zloc.
Definition numeral (s : text) (bin fl ex : bool) : Token.t :=
  set_flags bin false false fl ex (set_text s (Token.at_loc Tok.Number zloc)).
Definition dotted (path : list text) : list Token.t := concat (map (fun w => [sym Tok.Dot; word w]) path).

(** 1 to 6: an infix operator of that precedence; 7: prefix operators and [**];
    8: a primary. *)
Definition level (x : sx) : Z :=
  match x with
  | XBin o _ _ => precOf (infixOp o)
  | XPre _ _ | XPow _ _ => 7
  | _ => 8
  end.

Definition wrap (p : Z) (x : sx) (body : list Token.t) : list Token.t :=
  if level x <? p then sym Tok.LParen :: body ++ [sym Tok.RParen] else body.

Fixpoint commas (l : list (list Token.t)) : list Token.t :=
  match l with
  | [] => []
  | [x] => x
  | x :: l' => x ++ sym Tok.Comma :: commas l'
  end.

Fixpoint body (x : sx) : list Token.t :=
  match x with
  | XInt s bin => [numeral s bin false false]
  | XDec s => [numeral s false true false]
  | XFlt s => [numeral s false true true]
  | XChar s => [set_sval s (sym Tok.CharLit)]
  | XBit s => [set_sval s (sym Tok.BitLit)]
  | XRef l nm path =>
      match l with Some y => body y ++ [sym Tok.Arrow] | None => [] end ++ word nm :: dotted path
  | XCall l nm path args path' =>
      match l with Some y => body y ++ [sym Tok.Arrow] | None => [] end ++
      word nm :: dotted path ++ sym Tok.LParen ::
      commas (map (fun a => match a with Some y => body y | None => [sym Tok.Star] end) args) ++
      sym Tok.RParen :: dotted path'
  | XParen y => sym Tok.LParen :: body y ++ [sym Tok.RParen]
  | XPre o y => sym o :: wrap 7 y (body y)
  | XPow y z => wrap 8 y (body y) ++ sym Tok.Power :: wrap 7 z (body z)
  | XBin o y z =>
      wrap (precOf (infixOp o)) y (body y) ++ o :: wrap (precOf (infixOp o) + 1) z (body z)
  end.
Definition print (p : Z) (x : sx) : list Token.t := wrap p x (body x).

(** ** The tree *)
Section Build.
Variable strtod : text -> Z.

Fixpoint build (x : sx) : Expr.t :=
  match x with
  | XInt s bin => parseIntConstant s (if bin then 2 else 10) (node Expr.IntLit zloc)
  | XDec s => parseDecConstant s (node Expr.DecLit zloc)
  | XFlt s => flt_node Expr.FltLit zloc (strtod s)
  | XChar s => str_node Expr.CharLit zloc s
  | XBit s => str_node Expr.BitLit zloc s
  | XRef l nm path => ref_node Expr.VarRef zloc nm path [] (option_map build l)
  | XCall l nm path args path' =>
      ref_node Expr.Call zloc nm (path ++ path')
        (List.map (fun a => Some match a with Some y => build y | None => node Expr.Star zloc end) args)
        (option_map build l)
  | XParen y => build y
  | XPre o y =>
      if bool_decide (o = Tok.Plus) then build y
      else op_node Expr.Unary zloc o (Some (build y)) None
  | XPow y z => op_node Expr.Binary zloc Tok.Power (Some (build y)) (Some (build z))
  | XBin o y z => op_node Expr.Binary zloc (infixOp o) (Some (build y)) (Some (build z))
  end.
End Build.

(** ** Well-formedness, size and depth *)
Definition is_ref (x : sx) : bool := match x with XRef _ _ _ | XCall _ _ _ _ _ => true | _ => false end.

(** Names may be spelled like any operator or keyword but NOT; an infix operator
    is any token with a precedence; locators are references. *)
Fixpoint sx_ok (x : sx) : bool :=
  match x with
  | XInt _ _ | XDec _ | XFlt _ | XChar _ | XBit _ => true
  | XRef l nm _ =>
      match l with Some y => is_ref y && sx_ok y | None => true end && negb (text_eqb nm (txt "NOT"))
  | XCall l nm _ args _ =>
      match l with Some y => is_ref y && sx_ok y | None => true end && negb (text_eqb nm (txt "NOT")) &&
      forallb (fun a => match a with Some y => sx_ok y | None => true end) args
  | XParen y => sx_ok y
  | XPre o y => bool_decide (o ∈ [Tok.Plus; Tok.Minus; Tok.Not]) && sx_ok y
  | XPow y z => sx_ok y && sx_ok z
  | XBin o y z => (1 <=? precOf (infixOp o)) && bool_decide (erase_loc o = o) && sx_ok y && sx_ok z
  end.

Fixpoint size (x : sx) : nat :=
  match x with
  | XInt _ _ | XDec _ | XFlt _ | XChar _ | XBit _ => 1%nat
  | XRef l _ _ => S match l with Some y => size y | None => 0%nat end
  | XCall l _ _ args _ =>
      S (match l with Some y => size y | None => 0%nat end +
         list_sum (map (fun a => match a with Some y => size y | None => 0%nat end) args))
  | XParen y | XPre _ y => S (size y)
  | XPow y z | XBin _ y z => S (size y + size z)
  end.

(** Nesting levels used inside a call of [parseExpr]. *)
Definition wrapped (p : Z) (x : sx) (n : Z) : Z := if level x <? p then 2 + n else n.
Fixpoint nesting (x : sx) : Z :=
  match x with
  | XInt _ _ | XDec _ | XFlt _ | XChar _ | XBit _ => 1
  | XRef l _ _ => match l with Some y => nesting y | None => 1 end
  | XCall l _ _ args _ =>
      Z.max (match l with Some y => nesting y | None => 1 end)
        (2 + fold_right Z.max 0 (map (fun a => match a with Some y => nesting y | None => 0 end) args))
  | XParen y => 2 + nesting y
  | XPre _ y => 1 + wrapped 7 y (nesting y)
  | XPow y z => Z.max (wrapped 8 y (nesting y)) (1 + wrapped 7 z (nesting z))
  | XBin o y z => Z.max (wrapped (precOf (infixOp o)) y (nesting y))
                        (1 + wrapped (precOf (infixOp o) + 1) z (nesting z))
  end.

(** What may follow an expression printed at precedence [p]. *)
Definition continues (kd : Tok.t) : bool :=
  bool_decide (kd ∈ [Tok.Dot; Tok.Arrow; Tok.LParen; Tok.CharLit; Tok.BitLit; Tok.HexLit]).
Definition stops (p : Z) (t : Token.t) : Prop :=
  continues (Token.kind t) = false /\ (p <= 7 -> Token.kind t <> Tok.Power) /\
  (p <= 6 -> precOf (infixOp t) < p).

Section Round.
Variable t_ : list Token.t.
Variable strtod : text -> Z.
Variable double_of : Z -> Z.
Abbreviation wpE n p := (wp (parseExpr t_ strtod double_of n p)).

(** The tokens ahead, without their locations. *)
Definition toks (st : pst) : list Token.t := map erase_loc (drop (i_ st) t_).

Lemma toks_cons st u r : toks st = u :: r ->
  erase_loc (cur_tok t_ st) = u /\ (i_ st < length t_)%nat.
Proof.
  unfold toks, cur_tok. intros E. destruct (drop (i_ st) t_) as [|t l] eqn:Ed; [done|].
  cbn in E. injection E as E _.
  assert (i_ st < length t_)%nat.
  { apply (f_equal length) in Ed. rewrite length_drop in Ed. cbn in Ed. lia. }
  split; [|done]. rewrite <- E. f_equal.
  rewrite <- (Nat.add_0_r (i_ st)), <- nth_skipn. change (skipn (i_ st) t_) with (drop (i_ st) t_).
  by rewrite Ed.
Qed.
Lemma toks_kind st u r : toks st = u :: r -> Token.kind (cur_tok t_ st) = Token.kind u.
Proof. intros [E _]%toks_cons. by rewrite <- E. Qed.
Lemma toks_at st u r kd : toks st = u :: r -> is_at t_ kd st = bool_decide (Token.kind u = kd).
Proof. intros E. unfold is_at. by rewrite (toks_kind _ _ _ E). Qed.
Lemma toks_left st : left_ t_ st = length (toks st).
Proof. unfold left_, toks. by rewrite length_map, length_drop. Qed.

Lemma toks_advance st u v r : toks st = u :: v :: r ->
  exists st', advance t_ st = Some (tt, st') /\ toks st' = v :: r /\
    exprDepth_ st' = exprDepth_ st /\ pd_ st' = pd_ st.
Proof.
  intros E. pose proof (toks_cons _ _ _ E) as [_ Hi]. unfold advance.
  assert (i_ st + 1 < length t_)%nat as Hl.
  { unfold toks in E. apply (f_equal length) in E. rewrite length_map, length_drop in E. cbn in E. lia. }
  rewrite (proj2 (Nat.ltb_lt _ _) Hl). eexists. split; [reflexivity|]. split; [|done].
  unfold toks in *. cbn [i_]. destruct (drop (i_ st) t_) as [|t l] eqn:Ed; [done|].
  cbn in E. injection E as _ E.
  replace (S (i_ st)) with (i_ st + 1)%nat by lia. rewrite <- drop_drop, Ed. exact E.
Qed.

(** What a parser leaves behind: the rest of the tokens, nothing else. *)
Definition leaves_ (st : pst) (post : list Token.t) (st' : pst) : Prop :=
  toks st' = post /\ exprDepth_ st' = exprDepth_ st /\ pd_ st' = pd_ st.

Lemma wp_adv st u r (Q : unit -> pst -> Prop) : toks st = u :: r -> r <> [] ->
  (forall st', leaves_ st r st' -> Q tt st') -> wp (advance t_) st Q.
Proof.
  intros E Hr HQ. destruct r as [|v r]; [done|].
  destruct (toks_advance _ _ _ _ E) as (st' & Ea & Et & Ed & Ep).
  unfold wp. rewrite Ea. by apply HQ.
Qed.
Lemma wp_eat_yes st kd u r (Q : bool -> pst -> Prop) : toks st = u :: r -> r <> [] -> Token.kind u = kd ->
  (forall st', leaves_ st r st' -> Q true st') -> wp (eat t_ kd) st Q.
Proof.
  intros E Hr Hk HQ. apply wp_bind, wp_get. rewrite (toks_at _ _ _ _ E), bool_decide_eq_true_2 by done.
  apply wp_bind. eapply wp_adv; [done..|]. intros st' H. by apply wp_ret, HQ.
Qed.
Lemma wp_eat_no st kd u r (Q : bool -> pst -> Prop) : toks st = u :: r -> Token.kind u <> kd ->
  Q false st -> wp (eat t_ kd) st Q.
Proof.
  intros E Hk HQ. apply wp_bind, wp_get. rewrite (toks_at _ _ _ _ E), bool_decide_eq_false_2 by done.
  by apply wp_ret.
Qed.
Lemma wp_expect_yes st kd rule u r (Q : bool -> pst -> Prop) : toks st = u :: r -> r <> [] -> Token.kind u = kd ->
  (forall st', leaves_ st r st' -> Q true st') -> wp (expect t_ kd rule) st Q.
Proof.
  intros E Hr Hk HQ. apply wp_bind, wp_get. rewrite (toks_at _ _ _ _ E), bool_decide_eq_true_2 by done.
  apply wp_bind. eapply wp_adv; [done..|]. intros st' H. by apply wp_ret, HQ.
Qed.
Lemma leaves_trans a r1 b r2 c : leaves_ a r1 b -> leaves_ b r2 c -> leaves_ a r2 c.
Proof. unfold leaves_. intros (_&?&?) (?&?&?). repeat split; congruence. Qed.
Lemma leaves_toks a r b : leaves_ a r b -> toks b = r.
Proof. by intros [? _]. Qed.
Lemma leaves_depth a r b : leaves_ a r b -> exprDepth_ b = exprDepth_ a.
Proof. by intros (_&?&_). Qed.

Lemma wp_members st path l post (Q : list text -> pst -> Prop) fuel :
  toks st = dotted path ++ post -> post <> [] -> Token.kind (hd Token.default post) <> Tok.Dot ->
  (length (toks st) < fuel)%nat ->
  (forall st', leaves_ st post st' -> Q (l ++ path) st') -> wp (member_names t_ fuel l) st Q.
Proof.
  revert st l fuel. induction path as [|w path IH]; intros st l fuel E Hne Hk Hf HQ.
  - destruct fuel as [|f]; [lia|]. cbn [member_names]. destruct post as [|u post]; [done|].
    apply wp_bind. eapply wp_eat_no; [exact E|done|]. apply wp_ret.
    rewrite <- (app_nil_r l). by apply HQ.
  - destruct fuel as [|f]; [lia|]. cbn [member_names].
    change (dotted (w :: path)) with ([sym Tok.Dot; word w] ++ dotted path) in E. cbn [app] in E.
    apply wp_bind. eapply wp_eat_yes; [exact E|done|done|]. intros st1 L1.
    pose proof (leaves_toks _ _ _ L1) as E1. apply wp_bind, wp_get.
    rewrite (toks_kind _ _ _ E1). rewrite bool_decide_eq_true_2 by done.
    apply wp_bind. eapply wp_adv; [exact E1| |].
    { by destruct (dotted path), post. }
    intros st2 L2. pose proof (leaves_toks _ _ _ L2) as E2.
    destruct (toks_cons _ _ _ E1) as [Ew _].
    assert (Token.text_ (cur_tok t_ st1) = w) as -> by (apply (f_equal Token.text_) in Ew; exact Ew).
    eapply IH; [exact E2|done|done| |].
    + rewrite E2. rewrite E in Hf. cbn in Hf. lia.
    + intros st3 L3. rewrite <- app_assoc. apply HQ.
      eapply leaves_trans; [exact L1|]. by eapply leaves_trans.
Qed.

(** The statements proved together, by induction on the size. *)
Definition yields (st : pst) (x : sx) (post : list Token.t) (e : option Expr.t) (st' : pst) : Prop :=
  leaves_ st post st' /\ exists e', e = Some e' /\ erase e' = build strtod x.

Definition ok_post (p : Z) (post : list Token.t) : Prop :=
  match post with t :: _ => stops p t | [] => False end.
Lemma ok_post_ne p post : ok_post p post -> post <> [].
Proof. by destruct post. Qed.

Definition reads_expr (x : sx) : Prop := forall p st post n,
  1 <= p <= 7 -> toks st = print p x ++ post -> ok_post p post ->
  exprDepth_ st + 1 + wrapped p x (nesting x) <= kMaxExprDepth -> (8 * left_ t_ st + 5 <= n)%nat ->
  wp (parseExpr t_ strtod double_of n p) st (yields st x post).
Definition reads_unary (x : sx) : Prop := forall st post n,
  toks st = print 7 x ++ post -> ok_post 7 post ->
  exprDepth_ st + wrapped 7 x (nesting x) <= kMaxExprDepth -> (8 * left_ t_ st + 4 <= n)%nat ->
  wp (parseUnary t_ strtod double_of n) st (yields st x post).
Definition reads_primary (x : sx) : Prop := forall st post n,
  toks st = print 8 x ++ post -> ok_post 8 post ->
  exprDepth_ st - 1 + wrapped 8 x (nesting x) <= kMaxExprDepth -> (8 * left_ t_ st + 2 <= n)%nat ->
  wp (parsePrimary t_ strtod double_of n) st (yields st x post).
(** Inside a call of [parseExpr]: the spine of [x] is read and the loop goes on
    with its tree. *)
Definition reads_spine (x : sx) : Prop := forall p st post n (Q : option Expr.t -> pst -> Prop),
  1 <= p <= level x -> toks st = body x ++ post -> ok_post (Z.min 7 (level x + 1)) post ->
  exprDepth_ st + nesting x <= kMaxExprDepth -> (8 * left_ t_ st + 4 <= n)%nat ->
  (forall m e st', yields st x post (Some e) st' -> (8 * left_ t_ st' + 1 <= m)%nat ->
     wp (parseInfix t_ strtod double_of m p e) st' Q) ->
  wp (let* lhs := parseUnary t_ strtod double_of n in
      match lhs with None => ret None | Some lhs => parseInfix t_ strtod double_of n p lhs end) st Q.
Definition reads_x (x : sx) : Prop :=
  reads_expr x /\ reads_unary x /\ reads_primary x /\ reads_spine x.

(** ** Shapes of printed expressions *)
Definition primary_kind (kd : Tok.t) : bool :=
  match kd with Tok.Number | Tok.CharLit | Tok.BitLit | Tok.Word | Tok.LParen => true | _ => false end.
Definition starter_kind (kd : Tok.t) : bool :=
  match kd with Tok.Plus | Tok.Minus | Tok.Not => true | _ => primary_kind kd end.
Definition starter (u : Token.t) : Prop :=
  starter_kind (Token.kind u) = true /\ (Token.kind u = Tok.Word -> Token.text_ u <> txt "NOT").
Definition primary_starter (u : Token.t) : Prop :=
  primary_kind (Token.kind u) = true /\ (Token.kind u = Tok.Word -> Token.text_ u <> txt "NOT").

Lemma primary_starter_starter u : primary_starter u -> starter u.
Proof. unfold primary_starter, starter. intros [H ?]. split; [|done]. by destruct (Token.kind u). Qed.

Lemma precOf_range o : 0 <= precOf o <= 6.
Proof. by destruct o. Qed.
Lemma infix_facts o : 1 <= precOf (infixOp o) ->
  continues (Token.kind o) = false /\ Token.kind o <> Tok.Power /\ Token.kind o <> Tok.RParen /\
  infixOp o <> Tok.Eof.
Proof.
  intros H. assert (infixOp o <> Tok.Eof) as He by (intros E; rewrite E in H; cbn in H; lia).
  split; [|split; [|split; [|done]]].
  - unfold infixOp in *. by destruct (Token.kind o).
  - intros E. unfold infixOp in H. rewrite E in H. cbn in H. lia.
  - intros E. unfold infixOp in He. rewrite E in He. done.
Qed.
Lemma level_pos x : sx_ok x = true -> 1 <= level x <= 8.
Proof.
  destruct x; cbn; try lia. intros H. rewrite !andb_true_iff, Z.leb_le in H.
  pose proof (precOf_range (infixOp o)). lia.
Qed.

Lemma wrap_cases p x : (level x < p /\ print p x = sym Tok.LParen :: body x ++ [sym Tok.RParen] /\
    forall n, wrapped p x n = 2 + n) \/
  (p <= level x /\ print p x = body x /\ forall n, wrapped p x n = n).
Proof.
  unfold print, wrap, wrapped. destruct (Z.ltb_spec (level x) p); [left|right]; done.
Qed.

Lemma sx_ind_size (P : sx -> Prop) : (forall x, (forall y, (size y < size x)%nat -> P y) -> P x) -> forall x, P x.
Proof.
  intros H x. remember (size x) as n eqn:E. revert x E.
  induction n as [n IH] using (well_founded_induction Wf_nat.lt_wf). intros x ->.
  apply H. intros y Hy. by apply (IH (size y)).
Qed.

Lemma wrapped_ge p x n : n <= wrapped p x n.
Proof. unfold wrapped. destruct (_ <? _); lia. Qed.

Lemma nesting_pos x : 1 <= nesting x.
Proof.
  induction x as [x IH] using sx_ind_size.
  destruct x as [| | | | |[l|] ? ?|[l|] ? ? args ?|y|? y|y z|o y z]; cbn [nesting size] in *; try lia.
  - apply IH. lia.
  - pose proof (IH l ltac:(lia)). lia.
  - specialize (IH y ltac:(lia)). lia.
  - specialize (IH y ltac:(lia)). pose proof (wrapped_ge 7 y (nesting y)). lia.
  - specialize (IH y ltac:(lia)). pose proof (wrapped_ge 8 y (nesting y)). lia.
  - specialize (IH y ltac:(lia)). pose proof (wrapped_ge (precOf (infixOp o)) y (nesting y)). lia.
Qed.

Lemma in_args_size y (args : list (option sx)) : In (Some y) args ->
  (size y <= list_sum (map (fun a => match a with Some y => size y | None => 0%nat end) args))%nat.
Proof.
  unfold list_sum. induction args as [|a args IH]; [done|]. cbn [map fold_right In].
  intros [->|H]; [lia|]. specialize (IH H). lia.
Qed.
Lemma in_args_nesting y (args : list (option sx)) : In (Some y) args ->
  nesting y <= fold_right Z.max 0 (map (fun a => match a with Some y => nesting y | None => 0 end) args).
Proof.
  induction args as [|a args IH]; [done|]. cbn. intros [->|H]; [lia|]. specialize (IH H). lia.
Qed.

Lemma ref_level x : is_ref x = true -> level x = 8.
Proof. by destruct x. Qed.

Lemma prefix_kinds o : o ∈ [Tok.Plus; Tok.Minus; Tok.Not] -> o = Tok.Plus \/ o = Tok.Minus \/ o = Tok.Not.
Proof. rewrite !elem_of_cons, elem_of_nil. tauto. Qed.

(** The first token of a printed expression. *)
Lemma wrap_first p x : sx_ok x = true ->
  (exists u r, body x = u :: r /\ starter u /\ (8 <= level x -> primary_starter u)) ->
  exists u r, print p x = u :: r /\ starter u /\ (8 <= p -> primary_starter u).
Proof.
  intros Hok (u & r & E & Hs & Hp). pose proof (level_pos x Hok).
  destruct (wrap_cases p x) as [(Hl & -> & _)|(Hl & -> & _)].
  - eexists _, _. split; [reflexivity|]. split; [|intros _]; split; done.
  - exists u, r. split; [done|]. split; [done|]. intros. apply Hp. lia.
Qed.
Lemma body_first x : sx_ok x = true ->
  exists u r, body x = u :: r /\ starter u /\ (8 <= level x -> primary_starter u).
Proof.
  induction x as [x IH] using sx_ind_size. intros Hok.
  assert (forall u, primary_starter u -> starter u /\ (8 <= level x -> primary_starter u)) as Hprim.
  { intros u H. split; [by apply primary_starter_starter|done]. }
  assert (forall nm, negb (text_eqb nm (txt "NOT")) = true -> primary_starter (word nm)) as Hword.
  { intros nm H%negb_true_iff. split; [done|]. cbn. intros _ ->. unfold text_eqb in H.
    by rewrite bool_decide_eq_true_2 in H. }
  destruct x as [| | | | |[l|] nm ?|[l|] nm ? args ?|y|o y|y z|o y z]; cbn [body sx_ok size] in *.
  all: try (eexists _, _; split; [reflexivity|]; apply Hprim; split; done).
  - rewrite !andb_true_iff in Hok. destruct Hok as [[Hr Hok] _].
    destruct (IH l ltac:(lia) Hok) as (u & r & -> & Hs & Hp). eexists _, _. split; [reflexivity|].
    split; [done|]. intros _. apply Hp. by rewrite ref_level.
  - eexists _, _. split; [reflexivity|]. by apply Hprim, Hword.
  - rewrite !andb_true_iff in Hok. destruct Hok as [[[Hr Hok] _] _].
    destruct (IH l ltac:(lia) Hok) as (u & r & -> & Hs & Hp). eexists _, _. split; [reflexivity|].
    split; [done|]. intros _. apply Hp. by rewrite ref_level.
  - rewrite !andb_true_iff in Hok. destruct Hok as [[_ Hok] _].
    eexists _, _. split; [reflexivity|]. by apply Hprim, Hword.
  - rewrite !andb_true_iff in Hok. destruct Hok as [Ho _]. apply bool_decide_eq_true in Ho.
    eexists _, _. split; [reflexivity|]. cbn [level]. split; [|lia].
    apply prefix_kinds in Ho as [-> |[-> | ->]]; done.
  - rewrite !andb_true_iff in Hok. destruct Hok as [Hy _].
    destruct (wrap_first 8 y Hy (IH y ltac:(lia) Hy)) as (u & r & Ew & Hs & Hp).
    unfold print in Ew. rewrite Ew. eexists _, _. split; [reflexivity|]. split; [done|cbn; lia].
  - rewrite !andb_true_iff, Z.leb_le in Hok. destruct Hok as [[[Hl _] Hy] _].
    destruct (wrap_first (precOf (infixOp o)) y Hy (IH y ltac:(lia) Hy)) as (u & r & Ew & Hs & Hp).
    unfold print in Ew. rewrite Ew. eexists _, _. split; [reflexivity|]. split; [done|].
    cbn. pose proof (precOf_range (infixOp o)). lia.
Qed.
Lemma print_first p x : sx_ok x = true ->
  exists u r, print p x = u :: r /\ starter u /\ (8 <= p -> primary_starter u).
Proof. intros H. by apply wrap_first, body_first. Qed.

(** After a number comes no right parenthesis, unless the number is all there is. *)
Lemma number_second x u r : body x = u :: r -> sx_ok x = true -> Token.kind u = Tok.Number ->
  match r with v :: _ => Token.kind v <> Tok.RParen | [] => True end.
Proof.
  revert u r. induction x as [x IH] using sx_ind_size. intros u r E Hok Hk.
  assert (forall y p v rest, (size y < size x)%nat -> sx_ok y = true -> Token.kind v <> Tok.RParen ->
    print p y ++ v :: rest = u :: r -> match r with w :: _ => Token.kind w <> Tok.RParen | [] => True end) as Hsub.
  { intros y p v rest Hs Hy Hv Ey. destruct (wrap_cases p y) as [(_ & Ep & _)|(_ & Ep & _)]; rewrite Ep in Ey.
    - injection Ey as <- _. done.
    - destruct (body_first y Hy) as (u' & r' & Eb & _). rewrite Eb in Ey. injection Ey as <- <-.
      specialize (IH y Hs _ _ Eb Hy Hk). destruct r' as [|w r']; done. }
  destruct x as [| | | | |[l|] nm ?|[l|] nm ? args ?|y|o y|y z|o y z]; cbn [body sx_ok size] in *.
  all: try (injection E as <- <-; done).
  - rewrite !andb_true_iff in Hok. destruct Hok as [[Hr Hok] _].
    eapply (Hsub l 1 (sym Tok.Arrow) (word nm :: dotted path)); [lia|done|done|].
    unfold print, wrap. rewrite ref_level by done. rewrite <- E, <- app_assoc. done.
  - rewrite !andb_true_iff in Hok. destruct Hok as [[[Hr Hok] _] _].
    eapply (Hsub l 1 (sym Tok.Arrow)); [lia|done|done|].
    unfold print, wrap. rewrite ref_level by done. rewrite <- E, <- !app_assoc. done.
  - injection E as <- <-. cbn in Hk. rewrite !andb_true_iff in Hok. destruct Hok as [Ho _].
    apply bool_decide_eq_true, prefix_kinds in Ho. rewrite Hk in Ho. by destruct Ho as [|[|]].
  - rewrite !andb_true_iff in Hok. destruct Hok as [Hy _].
    eapply (Hsub y 8 (sym Tok.Power)); [lia|done|done|exact E].
  - rewrite !andb_true_iff, Z.leb_le in Hok. destruct Hok as [[[Hl _] Hy] _].
    eapply (Hsub y (precOf (infixOp o)) o); [lia|done|by apply infix_facts|exact E].
Qed.

Lemma peek_toks st n u : nth_error (toks st) n = Some u -> erase_loc (peek_tok t_ n st) = u.
Proof.
  unfold toks, peek_tok. rewrite nth_error_map. change (drop (i_ st) t_) with (skipn (i_ st) t_).
  rewrite nth_error_skipn. destruct (nth_error t_ (i_ st + n)) as [t|] eqn:E; [|done].
  cbn [option_map]. intros [= <-].
  assert (i_ st + n < length t_)%nat as Hl by (apply nth_error_Some; congruence).
  rewrite (proj2 (Nat.ltb_lt _ _) Hl). f_equal. by apply nth_error_nth.
Qed.
Lemma not_replicated_first st u r : toks st = u :: r -> Token.kind u <> Tok.LParen ->
  at_replicated t_ st = false.
Proof. intros E Hk. unfold at_replicated. rewrite (toks_at _ _ _ _ E), bool_decide_eq_false_2; done. Qed.
Lemma not_replicated_paren st x post : sx_ok x = true ->
  toks st = sym Tok.LParen :: body x ++ sym Tok.RParen :: post -> ok_post 8 post ->
  at_replicated t_ st = false.
Proof.
  intros Hok E Hp. unfold at_replicated. destruct (body_first x Hok) as (u & r & Eb & _).
  pose proof (number_second x u r Eb Hok) as Hn. rewrite Eb in E. destruct post as [|v post]; [done|].
  destruct Hp as (Hc & _).
  assert (erase_loc (peek_tok t_ 1 st) = u) as E1 by (apply peek_toks; by rewrite E).
  destruct (peek_at t_ 1 Tok.Number st) eqn:P1; [|by rewrite andb_false_r].
  unfold peek_at in P1. apply bool_decide_eq_true in P1.
  assert (Token.kind u = Tok.Number) as Ku by (by rewrite <- E1). specialize (Hn Ku).
  destruct (peek_at t_ 2 Tok.RParen st) eqn:P2; [|by rewrite andb_false_r].
  unfold peek_at in P2. apply bool_decide_eq_true in P2.
  destruct r as [|w r].
  - assert (erase_loc (peek_tok t_ 3 st) = v) as E3 by (apply peek_toks; by rewrite E).
    assert (is_string_tok (Token.kind (peek_tok t_ 3 st)) = false) as ->; [|by rewrite andb_false_r].
    change (Token.kind (peek_tok t_ 3 st)) with (Token.kind (erase_loc (peek_tok t_ 3 st))). rewrite E3.
    clear -Hc. by destruct (Token.kind v).
  - assert (erase_loc (peek_tok t_ 2 st) = w) as E2 by (apply peek_toks; by rewrite E).
    exfalso. apply Hn. by rewrite <- E2.
Qed.

Lemma no_prefix st u r : toks st = u :: r -> primary_starter u -> at_prefix t_ st = false.
Proof.
  intros E [Hk Hw]. unfold at_prefix. rewrite !(toks_at _ _ _ _ E).
  assert (Token.isWord (cur_tok t_ st) (txt "NOT") = false) as ->.
  { unfold Token.isWord. pose proof (toks_cons _ _ _ E) as [Eu _].
    change (Token.kind (cur_tok t_ st)) with (Token.kind (erase_loc (cur_tok t_ st))).
    change (Token.text_ (cur_tok t_ st)) with (Token.text_ (erase_loc (cur_tok t_ st))). rewrite Eu.
    case_bool_decide as H1; [|done]. cbn. unfold text_eqb. apply bool_decide_eq_false. by apply Hw. }
  rewrite !bool_decide_eq_false_2; [done|intros H; by rewrite H in Hk..].
Qed.

(** ** Reading back *)
Lemma stops_mono p q t : p <= q -> q <= 8 -> (7 < p -> q = 8) -> stops p t -> stops q t.
Proof. unfold stops. intros Hpq Hq H8 (?&?&?). repeat split; try done; intros; [apply H0; lia|specialize (H1 ltac:(lia)); lia]. Qed.
Lemma ok_post_mono p q post : p <= q -> q <= 8 -> (7 < p -> q = 8) -> ok_post p post -> ok_post q post.
Proof. destruct post; [done|]. apply stops_mono. Qed.
Lemma ok_post_sym p kd post : continues kd = false -> kd <> Tok.Power -> (1 <= p)%Z ->
  infixOp (sym kd) = Tok.Eof -> ok_post p (sym kd :: post).
Proof. intros Hc Hp Hle Hi. split; [done|]. split; [done|]. rewrite Hi. cbn. lia. Qed.
Lemma ok_post_infix p o post : 1 <= precOf (infixOp o) < p -> ok_post p (o :: post).
Proof.
  intros H. destruct (infix_facts o ltac:(lia)) as (?&?&?&?). split; [done|]. split; [done|]. lia.
Qed.

Lemma yields_leaves st st1 r x post e st' : leaves_ st r st1 -> yields st1 x post e st' -> yields st x post e st'.
Proof. intros L [L' H]. split; [by eapply leaves_trans|done]. Qed.
Lemma toks_ne st ts post u : toks st = ts ++ post -> ok_post u post -> post <> [].
Proof. intros _. apply ok_post_ne. Qed.
Lemma app_ne {A} (l r : list A) : r <> [] -> l ++ r <> [].
Proof. by destruct l, r. Qed.

(** The infix loop stops. *)
Lemma infix_stop m p e st post : toks st = post -> ok_post p post -> p <= 7 -> (1 <= m)%nat ->
  forall Q : option Expr.t -> pst -> Prop, Q (Some e) st -> wp (parseInfix t_ strtod double_of m p e) st Q.
Proof.
  intros E Hp Hle Hm Q HQ. destruct m as [|m]; [lia|]. cbn [parseInfix].
  destruct post as [|u post]; [done|]. destruct Hp as (Hc & Hpow & Hprec).
  apply wp_bind, wp_get. cbn zeta.
  assert (infixOp (cur_tok t_ st) = infixOp u) as ->.
  { destruct (toks_cons _ _ _ E) as [<- _]. done. }
  destruct (bool_decide_reflect (infixOp u = Tok.Eof)) as [->|He]; [done|]. cbn [orb].
  destruct (Z.eqb_spec (precOf (infixOp u)) 0) as [->|H0]; [done|]. cbn [orb].
  destruct (Z.ltb_spec (precOf (infixOp u)) p); [done|]. exfalso.
  destruct (Z_le_dec p 6) as [H6|H6]; [specialize (Hprec H6); lia|].
  pose proof (precOf_range (infixOp u)). lia.
Qed.

(** [parseExpr] on a spine. *)
Lemma expr_of_spine x p st post n : sx_ok x = true -> reads_spine x -> 1 <= p <= 7 -> p <= level x ->
  toks st = body x ++ post -> ok_post p post -> exprDepth_ st + 1 + nesting x <= kMaxExprDepth ->
  (8 * left_ t_ st + 5 <= n)%nat ->
  wp (parseExpr t_ strtod double_of n p) st (yields st x post).
Proof.
  intros Hok HS Hp Hl E Hpost Hd Hn. destruct n as [|n]; [lia|]. cbn [parseExpr].
  pose proof (nesting_pos x). apply wp_bind, wp_get, wp_bind, wp_get.
  destruct (Z.leb_spec kMaxExprDepth (exprDepth_ st)); [lia|].
  apply wp_guarded. cbn zeta. set (st0 := mkP (i_ st) (exprDepth_ st + 1) (pd_ st)).
  pose proof (level_pos x Hok).
  apply (HS p st0 post n); [lia|exact E| |cbn; lia|unfold left_ in *; cbn; lia|].
  { eapply ok_post_mono; [| | |exact Hpost]; lia. }
  intros m e st' [L [e' [[= <-] He]]] Hm.
  eapply (infix_stop m p e st' post); [by eapply leaves_toks|done|lia|lia|].
  split; [|by exists e]. destruct L as (?&Hd'&?). cbn in Hd'. split; [done|]. split; [cbn; lia|done].
Qed.

(** A parenthesised expression is a primary. *)
Lemma paren_primary x st post n : sx_ok x = true -> reads_spine x ->
  toks st = sym Tok.LParen :: body x ++ sym Tok.RParen :: post -> ok_post 8 post ->
  exprDepth_ st + 1 + nesting x <= kMaxExprDepth -> (8 * left_ t_ st + 2 <= n)%nat ->
  wp (parsePrimary t_ strtod double_of n) st (yields st x post).
Proof.
  intros Hok HS E Hp Hd Hn. destruct n as [|n]; [lia|]. cbn [parsePrimary].
  apply wp_bind, wp_get, wp_bind, wp_get. rewrite (not_replicated_paren st x post) by done.
  rewrite (toks_kind _ _ _ E). cbn [Token.kind sym Token.at_loc].
  apply wp_bind. eapply wp_adv; [exact E|by apply app_ne|]. intros st1 L1.
  pose proof (leaves_toks _ _ _ L1) as E1. pose proof (level_pos x Hok).
  assert (left_ t_ st = S (left_ t_ st1)) as Hl by (rewrite !toks_left, E, E1; done).
  apply wp_bind. eapply wp_mono.
  { apply (expr_of_spine x 1 st1 (sym Tok.RParen :: post) n Hok HS ltac:(lia) ltac:(lia) E1);
      [by apply ok_post_sym|rewrite (leaves_depth _ _ _ L1); lia|lia]. }
  intros e st2 [L2 [e' [-> He]]]. apply wp_bind. eapply wp_expect_yes.
  { by eapply leaves_toks. } { by eapply ok_post_ne. } { done. }
  intros st3 L3. apply wp_ret. split; [|by exists e'].
  eapply leaves_trans; [exact L1|]. by eapply leaves_trans.
Qed.

(** A primary read by [parsePower], then by [parseUnary]. *)
Lemma power_of_primary x st post n : reads_primary x -> 8 <= level x \/ level x < 7 ->
  toks st = print 7 x ++ post -> ok_post 7 post ->
  exprDepth_ st - 1 + wrapped 7 x (nesting x) <= kMaxExprDepth -> (8 * left_ t_ st + 3 <= n)%nat ->
  wp (parsePower t_ strtod double_of n) st (yields st x post).
Proof.
  intros HP Hlev E Hp Hd Hn. destruct n as [|n]; [lia|]. cbn [parsePower].
  assert (print 7 x = print 8 x /\ wrapped 7 x (nesting x) = wrapped 8 x (nesting x)) as [Ep Ew].
  { unfold print, wrap, wrapped.
    destruct (Z.ltb_spec (level x) 7), (Z.ltb_spec (level x) 8); try lia; done. }
  rewrite Ep in E. rewrite Ew in Hd. apply wp_bind. eapply wp_mono.
  { apply (HP st post n); [exact E| |exact Hd|lia]. eapply ok_post_mono; [| | |exact Hp]; lia. }
  intros e st1 [L1 [e' [-> He]]]. destruct post as [|u post]; [done|].
  apply wp_bind, wp_get. rewrite (toks_kind _ _ _ (leaves_toks _ _ _ L1)).
  rewrite bool_decide_eq_false_2; [|by apply Hp]. apply wp_ret. split; [done|by exists e'].
Qed.
Lemma unary_of_power x u r st post n : toks st = u :: r -> primary_starter u -> 
  exprDepth_ st < kMaxExprDepth ->
  (forall st0, toks st0 = toks st -> exprDepth_ st0 = exprDepth_ st + 1 -> pd_ st0 = pd_ st ->
     left_ t_ st0 = left_ t_ st ->
     wp (parsePower t_ strtod double_of n) st0 (yields st0 x post)) ->
  wp (parseUnary t_ strtod double_of (S n)) st (yields st x post).
Proof.
  intros E Hu Hd HP. cbn [parseUnary]. apply wp_bind, wp_get, wp_bind, wp_get.
  destruct (Z.leb_spec kMaxExprDepth (exprDepth_ st)); [lia|].
  apply wp_guarded. cbn zeta. set (st0 := mkP (i_ st) (exprDepth_ st + 1) (pd_ st)).
  apply wp_bind, wp_get. rewrite (no_prefix st0 u r) by done.
  eapply wp_mono; [by apply (HP st0)|]. intros e st' [(?&Hd'&?) He]. split; [|done].
  cbn in Hd'. split; [done|]. split; [cbn; lia|done].
Qed.

Lemma unary_of_primary x st post n : sx_ok x = true -> reads_primary x -> 8 <= level x \/ level x < 7 ->
  toks st = print 7 x ++ post -> ok_post 7 post ->
  exprDepth_ st + wrapped 7 x (nesting x) <= kMaxExprDepth -> (8 * left_ t_ st + 4 <= n)%nat ->
  wp (parseUnary t_ strtod double_of n) st (yields st x post).
Proof.
  intros Hok HP Hlev E Hp Hd Hn. destruct n as [|n]; [lia|].
  assert (print 7 x = print 8 x) as Ep.
  { unfold print, wrap. destruct (Z.ltb_spec (level x) 7), (Z.ltb_spec (level x) 8); try lia; done. }
  destruct (print_first 8 x Hok) as (u & r & Eu & _ & Hu).
  pose proof (nesting_pos x). pose proof (wrapped_ge 7 x (nesting x)).
  eapply (unary_of_power x u (r ++ post)); [by rewrite E, Ep, Eu|by apply Hu|lia|].
  intros st0 E0 D0 _ L0. eapply power_of_primary; try done; [by rewrite E0|lia|lia].
Qed.

(** ** References *)
Definition after_ref (post : list Token.t) : Prop :=
  match post with t :: _ => Token.kind t <> Tok.Dot /\ Token.kind t <> Tok.LParen | [] => False end.
Lemma after_ref_ok p post : ok_post p post -> after_ref post.
Proof.
  destruct post as [|u post]; [done|]. intros [H _]. unfold continues in H.
  split; intros E; rewrite E in H; done.
Qed.
Lemma after_ref_dot post : after_ref post -> post <> [] /\ Token.kind (hd Token.default post) <> Tok.Dot.
Proof. destruct post; [done|]. by intros []. Qed.

Definition arg_tokens (a : option sx) : list Token.t :=
  match a with Some y => body y | None => [sym Tok.Star] end.
Definition arg_tree (a : option sx) : Expr.t :=
  match a with Some y => build strtod y | None => node Expr.Star zloc end.
Definition arg_ok (d : Z) (a : option sx) : Prop :=
  match a with
  | Some y => sx_ok y = true /\ reads_spine y /\ d + 1 + nesting y <= kMaxExprDepth
  | None => True
  end.

Lemma spine_expr1 y st post n : sx_ok y = true -> reads_spine y -> toks st = body y ++ post -> ok_post 1 post ->
  exprDepth_ st + 1 + nesting y <= kMaxExprDepth -> (8 * left_ t_ st + 5 <= n)%nat ->
  wp (parseExpr t_ strtod double_of n 1) st (yields st y post).
Proof. intros Hok HS. pose proof (level_pos y Hok). apply (expr_of_spine y 1); done || lia. Qed.

(** One argument. *)
Lemma arg_reads nm a st post n : arg_ok (exprDepth_ st) a -> toks st = arg_tokens a ++ post -> ok_post 1 post ->
  (8 * left_ t_ st + 5 <= n)%nat ->
  wp (let* t := get (cur_tok t_) in
      if bool_decide (Token.kind t = Tok.Star)
      then advance t_;; ret (Some (node Expr.Star (Token.loc t)))
      else if bool_decide (Token.kind t = Tok.Colon) && isEnquiryName nm
      then parseTypeDesignator t_ (txt "(126)")
      else parseExpr t_ strtod double_of n 1) st
    (fun e st' => leaves_ st post st' /\ exists e', e = Some e' /\ erase e' = arg_tree a).
Proof.
  intros Ha E Hp Hn. apply wp_bind, wp_get. destruct a as [y|]; cbn [arg_tokens arg_tree arg_ok] in *.
  - destruct Ha as (Hok & HS & Hd). destruct (body_first y Hok) as (u & r & Eb & [Hu _] & _).
    pose proof E as E'. rewrite Eb in E'. cbn [app] in E'. rewrite (toks_kind _ _ _ E').
    rewrite !bool_decide_eq_false_2 by (intros H; by rewrite H in Hu). cbn [andb].
    eapply wp_mono; [by apply (spine_expr1 y st post n)|]. done.
  - rewrite (toks_kind _ _ _ E). rewrite bool_decide_eq_true_2 by done.
    apply wp_bind. eapply wp_adv; [exact E|by eapply ok_post_ne|]. intros st' L.
    apply wp_ret. split; [done|]. by eexists.
Qed.

Lemma args_read nm a args st args0 post n :
  Forall (arg_ok (exprDepth_ st)) (a :: args) ->
  toks st = commas (map arg_tokens (a :: args)) ++ sym Tok.RParen :: post ->
  (8 * left_ t_ st + 6 <= n)%nat ->
  wp (parseArgs t_ strtod double_of n nm args0) st
    (fun l st' => leaves_ st (sym Tok.RParen :: post) st' /\
       exists l', l = args0 ++ l' /\ map (option_map erase) l' = map (fun a => Some (arg_tree a)) (a :: args)).
Proof.
  revert a st args0 n. induction args as [|a2 args IH]; intros a st args0 n Ha E Hn;
    (destruct n as [|n]; [lia|]); cbn [parseArgs]; apply Forall_cons in Ha as [Ha Hargs].
  - cbn [map commas] in E.
    apply wp_bind, wp_get, wp_bind. 
    pose proof (arg_reads nm a st (sym Tok.RParen :: post) n Ha E ltac:(by apply ok_post_sym) ltac:(lia)) as Harg.
    unfold wp at 1 in Harg. unfold bind at 1, get at 1 in Harg. fold (@wp pst (option Expr.t)) in Harg.
    eapply wp_mono; [exact Harg|]. intros e st1 [L1 (e' & -> & He)].
    apply wp_bind. eapply wp_eat_no; [by eapply leaves_toks|done|]. apply wp_ret.
    split; [done|]. eexists. split; [reflexivity|]. cbn. by rewrite He.
  - assert (commas (map arg_tokens (a :: a2 :: args)) =
      arg_tokens a ++ sym Tok.Comma :: commas (map arg_tokens (a2 :: args))) as Ec by done.
    rewrite Ec, <- app_assoc, <- app_comm_cons in E.
    apply wp_bind, wp_get, wp_bind.
    pose proof (arg_reads nm a st _ n Ha E ltac:(by apply ok_post_sym) ltac:(lia)) as Harg.
    unfold wp at 1 in Harg. unfold bind at 1, get at 1 in Harg. fold (@wp pst (option Expr.t)) in Harg.
    eapply wp_mono; [exact Harg|]. intros e st1 [L1 (e' & -> & He)].
    apply wp_bind. eapply wp_eat_yes; [by eapply leaves_toks|by apply app_ne|done|]. intros st2 L2.
    pose proof (leaves_trans _ _ _ _ _ L1 L2) as L12.
    assert (left_ t_ st2 < left_ t_ st)%nat as Hl.
    { rewrite !toks_left, (leaves_toks _ _ _ L2), E, !length_app. cbn [length]. rewrite !length_app. cbn [length]. lia. }
    eapply wp_mono; [apply IH|].
    + by rewrite (leaves_depth _ _ _ L12).
    + by eapply leaves_toks.
    + lia.
    + intros l st3 [L3 (l' & -> & Hl')]. split; [by eapply leaves_trans|].
      eexists (Some e' :: l'). rewrite <- app_assoc. split; [done|]. cbn [map] in *. by rewrite Hl', <- He.
Qed.

(** The tokens and the tree of one basic reference. *)
Definition basic_tokens (nm : text) (path : list text) (call : option (list (option sx) * list text)) : list Token.t :=
  word nm :: dotted path ++
  match call with
  | Some (args, path') => sym Tok.LParen :: commas (map arg_tokens args) ++ sym Tok.RParen :: dotted path'
  | None => []
  end.
Definition basic_tree (nm : text) (path : list text) (call : option (list (option sx) * list text))
    (l : option Expr.t) : Expr.t :=
  match call with
  | Some (args, path') => ref_node Expr.Call zloc nm (path ++ path') (map (fun a => Some (arg_tree a)) args) l
  | None => ref_node Expr.VarRef zloc nm path [] l
  end.

Lemma fuel_left_toks st : (length (toks st) < fuel_left t_ st)%nat.
Proof. rewrite <- toks_left. unfold left_, fuel_left. lia. Qed.

Lemma commas_first a args : arg_ok 0 a \/ True -> (match a with Some y => sx_ok y = true | None => True end) ->
  exists u r, commas (map arg_tokens (a :: args)) = u :: r /\ Token.kind u <> Tok.RParen.
Proof.
  intros _ Ha. assert (exists u r, arg_tokens a = u :: r /\ Token.kind u <> Tok.RParen) as (u & r & E & Hu).
  { destruct a as [y|]; cbn [arg_tokens]; [|by eexists _, _].
    destruct (body_first y Ha) as (u & r & E & [Hu _] & _). exists u, r. split; [done|].
    intros H. by rewrite H in Hu. }
  destruct args as [|b args]; cbn [map commas]; rewrite E; by eexists _, _.
Qed.

Lemma basic_reads nm path call st post n :
  match call with Some (args, _) => Forall (arg_ok (exprDepth_ st)) args | None => True end ->
  toks st = basic_tokens nm path call ++ post -> after_ref post -> (8 * left_ t_ st + 1 <= n)%nat ->
  wp (parseBasic t_ strtod double_of n) st
    (fun e st' => leaves_ st post st' /\ erase e = basic_tree nm path call None).
Proof.
  intros Hargs E Hpost Hn. destruct n as [|n]; [lia|]. cbn [parseBasic].
  destruct (after_ref_dot _ Hpost) as [Hne Hdot].
  unfold basic_tokens in E. cbn [app] in E.
  pose proof (toks_cons _ _ _ E) as [Eu _].
  assert (Token.text_ (cur_tok t_ st) = nm) as Hnm by (apply (f_equal Token.text_) in Eu; exact Eu).
  apply wp_bind, wp_get, wp_bind. eapply wp_adv; [exact E| |].
  { destruct call as [[]|], post, (dotted path); done. }
  intros st1 L1. pose proof (leaves_toks _ _ _ L1) as E1. rewrite <- app_assoc in E1.
  apply wp_bind, wp_get, wp_bind. eapply wp_members; [exact E1| | |apply fuel_left_toks|].
  { destruct call as [[]|]; done. } { destruct call as [[]|]; done. }
  intros st2 L2. pose proof (leaves_toks _ _ _ L2) as E2. cbn [app].
  pose proof (leaves_trans _ _ _ _ _ L1 L2) as L12. rewrite Hnm.
  destruct call as [[args path']|]; cbn [app] in E2.
  - apply wp_bind. eapply wp_eat_yes; [exact E2|by destruct (commas _), post, (dotted path')|done|]. intros st3 L3.
    pose proof (leaves_toks _ _ _ L3) as E3. pose proof (leaves_trans _ _ _ _ _ L12 L3) as L123.
    rewrite <- app_assoc in E3. cbn [app] in E3.
    apply wp_bind, wp_get, wp_bind.
    eapply (wp_mono _ _ (fun l st' => leaves_ st3 (sym Tok.RParen :: dotted path' ++ post) st' /\
       map (option_map erase) l = map (fun a => Some (arg_tree a)) args)).
    { destruct args as [|a args].
      - cbn [map commas app] in E3. rewrite (toks_at _ _ _ _ E3), bool_decide_eq_true_2 by done.
        apply wp_ret. split; [|done]. split; [exact E3|done].
      - destruct (commas_first a args) as (u & r & Ec & Hu); [by right|apply Forall_cons in Hargs as [Ha _]; destruct a; [apply Ha|done]|].
        pose proof E3 as E3'. rewrite Ec in E3'. cbn [app] in E3'.
        rewrite (toks_at _ _ _ _ E3'), bool_decide_eq_false_2 by done.
        eapply wp_mono; [apply (args_read nm a args st3 [] (dotted path' ++ post))|].
        + by rewrite (leaves_depth _ _ _ L123).
        + exact E3.
        + assert (left_ t_ st3 + 2 <= left_ t_ st)%nat as Hl; [|lia].
          rewrite !toks_left, E3, E. cbn [length]. rewrite !length_app. cbn [length]. rewrite !length_app. cbn [length]. lia.
        + intros l st4 [L4 (l' & -> & Hl')]. done. }
    intros args' st4 [L4 Hargs']. apply wp_bind. eapply wp_expect_yes.
    { by eapply leaves_toks. } { by apply app_ne. } { done. }
    intros st5 L5. apply wp_bind, wp_get, wp_bind.
    eapply wp_members; [by eapply leaves_toks|done|done|apply fuel_left_toks|]. intros st6 L6.
    apply wp_ret. split.
    + eapply leaves_trans; [exact L123|]. eapply leaves_trans; [exact L4|]. by eapply leaves_trans.
    + cbn. by rewrite Hargs'.
  - apply wp_bind. destruct post as [|u post]; [done|]. eapply wp_eat_no; [exact E2|by apply Hpost|].
    apply wp_bind, wp_get, wp_bind.
    eapply (wp_members st2 [] path (u :: post)); [exact E2|done|done|apply fuel_left_toks|]. intros st3 L3.
    apply wp_ret. split; [by eapply leaves_trans|]. rewrite app_nil_r. done.
Qed.

(** References, with the loop over their locators. *)
Definition ref_parts (x : sx) : option (option sx * text * list text * option (list (option sx) * list text)) :=
  match x with
  | XRef l nm path => Some (l, nm, path, None)
  | XCall l nm path args path' => Some (l, nm, path, Some (args, path'))
  | _ => None
  end.
Lemma ref_body x l nm path call : ref_parts x = Some (l, nm, path, call) ->
  body x = match l with Some y => body y ++ [sym Tok.Arrow] | None => [] end ++ basic_tokens nm path call /\
  build strtod x = basic_tree nm path call (option_map (build strtod) l).
Proof.
  destruct x; try done; intros [= <- <- <- <-]; unfold basic_tokens, basic_tree; cbn [body build];
    rewrite ?app_nil_r; done.
Qed.

Definition args_of (x : sx) : list (option sx) := match x with XCall _ _ _ args _ => args | _ => [] end.

Lemma erase_set_locator l e : erase (set_locPtr l e) = set_locPtr (option_map erase l) (erase e).
Proof. by destruct e. Qed.
Lemma basic_tree_locator nm path call l : set_locPtr l (basic_tree nm path call None) = basic_tree nm path call l.
Proof. by destruct call as [[]|]. Qed.

Definition reads_ref (x : sx) : Prop := forall st post n (Q : option Expr.t -> pst -> Prop),
  toks st = body x ++ post -> after_ref post ->
  exprDepth_ st - 1 + nesting x <= kMaxExprDepth -> (8 * left_ t_ st + 1 <= n)%nat ->
  (forall m e st', yields st x post (Some e) st' -> (8 * left_ t_ st' + 1 <= m)%nat ->
     wp (parseLocator t_ strtod double_of m e) st' Q) ->
  wp (let* b := parseBasic t_ strtod double_of n in parseLocator t_ strtod double_of n b) st Q.

Lemma ref_reads x : sx_ok x = true -> is_ref x = true ->
  (forall y, In (Some y) (args_of x) -> sx_ok y = true -> reads_spine y) ->
  (forall l, match ref_parts x with Some (Some l', _, _, _) => l = l' | _ => False end -> reads_ref l) ->
  reads_ref x.
Proof.
  intros Hok Href Hargs Hloc st post n Q E Hpost Hd Hn HQ.
  destruct (ref_parts x) as [[[[l nm] path] call]|] eqn:Ex; [|by destruct x].
  destruct (ref_body x l nm path call Ex) as [Eb Et]. rewrite Eb in E.
  assert (forall d, d - 1 + nesting x <= kMaxExprDepth ->
    match call with Some (args, _) => Forall (arg_ok d) args | None => True end) as Hcall.
  { intros d Hd'. destruct x as [| | | | |l' nm' path1|l' nm' path1 args path'| | | |]; try done;
      injection Ex as <- <- <- <-; [done|].
    apply List.Forall_forall. intros [y|] Hin; [|done]. cbn [sx_ok] in Hok. rewrite !andb_true_iff in Hok.
    destruct Hok as [_ Hall]. rewrite forallb_forall in Hall. pose proof (Hall _ Hin) as Hy.
    split; [exact Hy|]. split; [by apply Hargs|]. cbn [nesting] in Hd'.
    pose proof (in_args_nesting y args Hin). lia. }
  destruct l as [l|].
  - rewrite <- app_assoc in E. cbn [app] in E. rewrite <- app_assoc in E.
    apply (Hloc l eq_refl st (sym Tok.Arrow :: basic_tokens nm path call ++ post) n Q); [exact E|done| |done|].
    { destruct x as [| | | | |l' nm' path1|l' nm' path1 args path'| | | |]; try done;
        injection Ex as -> -> -> <-; cbn [nesting] in Hd; lia. }
    intros m e st1 [L1 (e' & [= <-] & He)] Hm. pose proof (leaves_toks _ _ _ L1) as E1.
    destruct m as [|m]; [lia|]. cbn [parseLocator].
    apply wp_bind. eapply wp_eat_yes; [exact E1|done|done|]. intros st2 L2.
    pose proof (leaves_toks _ _ _ L2) as E2. pose proof (leaves_trans _ _ _ _ _ L1 L2) as L12.
    apply wp_bind, wp_get. unfold basic_tokens in E2. cbn [app] in E2.
    rewrite (toks_kind _ _ _ E2), bool_decide_eq_true_2 by done. cbn [negb].
    assert (S (left_ t_ st2) = left_ t_ st1) as Hl by (rewrite !toks_left, E1, E2; done).
    apply wp_bind. eapply wp_mono.
    { apply (basic_reads nm path call st2 post m); [apply Hcall; by rewrite (leaves_depth _ _ _ L12)|exact E2|done|lia]. }
    intros b st3 [L3 Hb]. pose proof (leaves_trans _ _ _ _ _ L12 L3) as L123.
    apply HQ.
    + split; [done|]. eexists. split; [reflexivity|].
      rewrite erase_set_locator, Hb, basic_tree_locator, Et. cbn [option_map]. by rewrite He.
    + assert (left_ t_ st3 <= left_ t_ st2)%nat; [|lia].
      rewrite !toks_left, (leaves_toks _ _ _ L3), E2. cbn [length]. rewrite !length_app. lia.
  - cbn [app] in E. apply wp_bind. eapply wp_mono.
    { apply (basic_reads nm path call st post n); [by apply Hcall|exact E|done|done]. }
    intros b st1 [L1 Hb]. apply HQ.
    + split; [done|]. eexists. split; [reflexivity|]. by rewrite Hb, Et.
    + assert (left_ t_ st1 <= left_ t_ st)%nat; [|lia].
      rewrite !toks_left, (leaves_toks _ _ _ L1), E, length_app. lia.
Qed.

Lemma locator_stop m e st post (Q : option Expr.t -> pst -> Prop) : toks st = post -> ok_post 8 post -> (1 <= m)%nat ->
  Q (Some e) st -> wp (parseLocator t_ strtod double_of m e) st Q.
Proof.
  intros E Hp Hm HQ. destruct m as [|m]; [lia|]. cbn [parseLocator]. destruct post as [|u post]; [done|].
  apply wp_bind. eapply wp_eat_no; [exact E| |by apply wp_ret].
  destruct Hp as [Hc _]. intros H. by rewrite H in Hc.
Qed.

(** ** Primaries *)
Lemma ref_primary x : sx_ok x = true -> is_ref x = true -> reads_ref x -> reads_primary x.
Proof.
  intros Hok Href HR st post n E Hp Hd Hn. destruct n as [|n]; [lia|]. cbn [parsePrimary].
  assert (print 8 x = body x) as Eb by (unfold print, wrap; by rewrite ref_level).
  assert (wrapped 8 x (nesting x) = nesting x) as Ew by (unfold wrapped; by rewrite ref_level).
  rewrite Eb in E. rewrite Ew in Hd.
  assert (exists w r, body x = word w :: r) as (w & r & Ebw).
  { clear -t_ strtod double_of Hok Href. induction x as [x IH] using sx_ind_size.
    destruct x as [| | | | |[l|] nm path1|[l|] nm path1 args path'| | | |]; try done; cbn [body app]; try by eexists _, _.
    - cbn [sx_ok] in Hok. rewrite !andb_true_iff in Hok. destruct Hok as [[Hr Hok] _].
      destruct (IH l ltac:(cbn; lia) Hok Hr) as (w & r & ->). by eexists _, _.
    - cbn [sx_ok] in Hok. rewrite !andb_true_iff in Hok. destruct Hok as [[[Hr Hok] _] _].
      destruct (IH l ltac:(cbn; lia) Hok Hr) as (w & r & ->). by eexists _, _. }
  pose proof E as E'. rewrite Ebw in E'. cbn [app] in E'.
  apply wp_bind, wp_get, wp_bind, wp_get. rewrite (not_replicated_first _ _ _ E') by done.
  rewrite (toks_kind _ _ _ E'). cbn [Token.kind word set_text Token.at_loc].
  apply (HR st post n); [exact E|by eapply after_ref_ok|lia|lia|].
  intros m e st' Y Hm. pose proof Y as [L _].
  eapply locator_stop; [by eapply leaves_toks|done|lia|done].
Qed.

(** A constant. *)
Definition constant (x : sx) : bool :=
  match x with XInt _ _ | XDec _ | XFlt _ | XChar _ | XBit _ => true | _ => false end.
Lemma constant_primary x : constant x = true -> reads_primary x.
Proof.
  intros Hc st post n E Hp Hd Hn. destruct n as [|n]; [lia|]. cbn [parsePrimary].
  pose proof (ok_post_ne _ _ Hp) as Hne.
  destruct x as [s bin|s|s|s|s| | | | | |]; try discriminate Hc; unfold print, wrap in E; cbn in E.
  all: apply wp_bind, wp_get, wp_bind, wp_get; rewrite (not_replicated_first _ _ _ E) by done;
    rewrite (toks_kind _ _ _ E); cbn [Token.kind numeral set_flags set_text set_sval sym Token.at_loc].
  all: destruct (toks_cons _ _ _ E) as [Eu _].
  1,2,3: unfold number; apply wp_bind, wp_get; cbn zeta;
    pose proof (f_equal Token.sterling Eu) as E1; pose proof (f_equal Token.imaginary Eu) as E2;
    pose proof (f_equal Token.isFloat Eu) as E3; pose proof (f_equal Token.binaryRadix Eu) as E4;
    pose proof (f_equal Token.hasExp Eu) as E5; pose proof (f_equal Token.text_ Eu) as E6;
    cbn [Token.sterling Token.imaginary Token.isFloat Token.binaryRadix Token.hasExp Token.text_
      erase_loc LexRound.set_loc numeral set_flags set_text Token.at_loc] in E1, E2, E3, E4, E5, E6;
    rewrite E1, E2, E3, ?E4, ?E5, E6; cbn iota.
  - apply wp_bind. eapply wp_adv; [exact E|done|]. intros st' L. apply wp_ret.
    split; [done|]. eexists. split; [reflexivity|]. by destruct bin.
  - apply wp_bind, wp_ret, wp_bind. eapply wp_adv; [exact E|done|]. intros st' L. apply wp_ret.
    split; [done|]. eexists. split; [reflexivity|].
    cbn [build]. unfold parseDecConstant. destruct (match find_from "." s 0 with Some _ => _ | None => _ end). done.
  - apply wp_bind, wp_ret, wp_bind. eapply wp_adv; [exact E|done|]. intros st' L. apply wp_ret.
    split; [done|]. by eexists.
  - apply wp_bind. eapply wp_adv; [exact E|done|]. intros st' L. apply wp_ret.
    split; [done|]. eexists. split; [reflexivity|]. apply (f_equal Token.sval) in Eu. cbn in Eu. cbn. by rewrite Eu.
  - apply wp_bind. eapply wp_adv; [exact E|done|]. intros st' L. apply wp_ret.
    split; [done|]. eexists. split; [reflexivity|]. apply (f_equal Token.sval) in Eu. cbn in Eu. cbn. by rewrite Eu.
Qed.

(** ** Operators *)
Lemma unary_wrapped x : 7 <= level x -> print 7 x = body x /\ wrapped 7 x (nesting x) = nesting x.
Proof.
  intros H. unfold print, wrap, wrapped. destruct (Z.ltb_spec (level x) 7); [lia|done].
Qed.

Lemma pre_unary o y : sx_ok (XPre o y) = true -> reads_unary y -> reads_unary (XPre o y).
Proof.
  intros Hok HU st post n E Hp Hd Hn. destruct n as [|n]; [lia|].
  destruct (unary_wrapped (XPre o y)) as [Eb Ew]; [cbn; lia|]. rewrite Eb in E. rewrite Ew in Hd.
  cbn [body nesting sx_ok] in *. change (wrap 7 y (body y)) with (print 7 y) in E.
  rewrite andb_true_iff in Hok. destruct Hok as [Ho Hy]. apply bool_decide_eq_true, prefix_kinds in Ho.
  cbn [parseUnary]. apply wp_bind, wp_get, wp_bind, wp_get.
  pose proof (nesting_pos y). pose proof (wrapped_ge 7 y (nesting y)).
  destruct (Z.leb_spec kMaxExprDepth (exprDepth_ st)); [lia|].
  apply wp_guarded. cbn zeta. set (st0 := mkP (i_ st) (exprDepth_ st + 1) (pd_ st)).
  assert (toks st0 = sym o :: print 7 y ++ post) as E0 by exact E.
  apply wp_bind, wp_get.
  assert (at_prefix t_ st0 = true) as ->.
  { unfold at_prefix. rewrite !(toks_at _ _ _ _ E0). by destruct Ho as [-> |[-> | ->]]. }
  rewrite (toks_kind st _ _ E). cbn [sym Token.kind Token.at_loc].
  rewrite (bool_decide_eq_false_2 (o = Tok.Word)) by (by destruct Ho as [-> |[-> | ->]]).
  apply wp_bind. eapply wp_adv; [exact E0|apply app_ne; by eapply ok_post_ne|]. intros st1 L1.
  pose proof (leaves_toks _ _ _ L1) as E1.
  assert (left_ t_ st = S (left_ t_ st1)) as Hl by (rewrite !toks_left, E, E1; done).
  apply wp_bind. eapply wp_mono.
  { apply (HU st1 post n); [exact E1|done| |lia]. rewrite (leaves_depth _ _ _ L1). cbn. lia. }
  intros e st2 [L2 (e' & -> & He)]. pose proof (leaves_trans _ _ _ _ _ L1 L2) as (?&Hd'&?). cbn in Hd'.
  assert (leaves_ st post (mkP (i_ st2) (exprDepth_ st2 - 1) (pd_ st2))) as L by (split; [done|split; [cbn; lia|done]]).
  destruct (bool_decide (o = Tok.Plus)) eqn:Eo; apply wp_ret; (split; [exact L|]); eexists; (split; [reflexivity|]);
    cbn [build]; rewrite Eo; [exact He|]. cbn. by rewrite He.
Qed.

Lemma pow_unary y z : sx_ok (XPow y z) = true -> reads_primary y -> reads_unary z -> reads_unary (XPow y z).
Proof.
  intros Hok HP HU st post n E Hp Hd Hn. destruct n as [|n]; [lia|].
  destruct (unary_wrapped (XPow y z)) as [Eb Ew]; [cbn; lia|]. rewrite Eb in E. rewrite Ew in Hd.
  cbn [body nesting sx_ok] in *. change (wrap 7 z (body z)) with (print 7 z) in E.
  change (wrap 8 y (body y)) with (print 8 y) in E. rewrite <- app_assoc in E. cbn [app] in E.
  rewrite andb_true_iff in Hok. destruct Hok as [Hy Hz].
  pose proof (nesting_pos y). pose proof (wrapped_ge 8 y (nesting y)).
  destruct (print_first 8 y Hy) as (u & r & Eu & _ & Hu). pose proof E as E'. rewrite Eu in E'. cbn [app] in E'.
  eapply (unary_of_power (XPow y z) u); [exact E'|by apply Hu|lia|].
  intros st0 T0 D0 _ L0. rewrite E in T0. destruct n as [|n]; [lia|]. cbn [parsePower].
  apply wp_bind. eapply wp_mono.
  { apply (HP st0 (sym Tok.Power :: print 7 z ++ post) n); [exact T0| |lia|lia].
    split; [done|]. split; lia. }
  intros e st1 [L1 (e1 & -> & He1)]. pose proof (leaves_toks _ _ _ L1) as E1.
  apply wp_bind, wp_get. rewrite (toks_kind _ _ _ E1), bool_decide_eq_true_2 by done.
  apply wp_bind. eapply wp_adv; [exact E1|apply app_ne; by eapply ok_post_ne|]. intros st2 L2.
  pose proof (leaves_toks _ _ _ L2) as E2. pose proof (leaves_trans _ _ _ _ _ L1 L2) as L12.
  assert (left_ t_ st2 < left_ t_ st0)%nat as Hl.
  { rewrite !toks_left, E2, T0. rewrite (length_app (print 8 y)). cbn [length]. lia. }
  apply wp_bind. eapply wp_mono.
  { apply (HU st2 post n); [exact E2|done| |lia]. rewrite (leaves_depth _ _ _ L12). lia. }
  intros e st3 [L3 (e2 & -> & He2)]. apply wp_ret. split; [by eapply leaves_trans|].
  eexists. split; [reflexivity|]. cbn. by rewrite He1, He2.
Qed.

Lemma spine_of_unary x : 7 <= level x -> reads_unary x -> reads_spine x.
Proof.
  intros Hl HU p st post n Q Hp E Hpost Hd Hn HQ.
  destruct (unary_wrapped x Hl) as [Eb Ew]. rewrite Z.min_l in Hpost by lia.
  apply wp_bind. eapply wp_mono.
  { apply (HU st post n); [by rewrite Eb|done|by rewrite Ew|done]. }
  intros e st' Y. pose proof Y as [L (e' & -> & He)]. apply HQ; [done|].
  assert (left_ t_ st' <= left_ t_ st)%nat; [|lia].
  rewrite !toks_left, (leaves_toks _ _ _ L), E, length_app. lia.
Qed.

Lemma spine_bin o y z : sx_ok (XBin o y z) = true -> reads_x y -> reads_x z -> reads_spine (XBin o y z).
Proof.
  intros Hok (_ & HUy & _ & HSy) (HEz & _) p st post n Q Hp E Hpost Hd Hn HQ.
  cbn [body nesting sx_ok level] in *. rewrite !andb_true_iff, Z.leb_le, bool_decide_eq_true in Hok.
  destruct Hok as [[[Hq Ho] Hy] Hz]. set (q := precOf (infixOp o)) in *.
  pose proof (precOf_range (infixOp o)). fold q in H. rewrite Z.min_r in Hpost by lia.
  change (wrap q y (body y)) with (print q y) in E. change (wrap (q + 1) z (body z)) with (print (q + 1) z) in E.
  rewrite <- app_assoc in E. cbn [app] in E.
  assert (forall m e st', yields st y (o :: print (q + 1) z ++ post) (Some e) st' -> (8 * left_ t_ st' + 1 <= m)%nat ->
    wp (parseInfix t_ strtod double_of m p e) st' Q) as Hloop.
  { intros m e st1 [L1 (e1 & [= <-] & He1)] Hm. pose proof (leaves_toks _ _ _ L1) as E1.
    destruct m as [|m]; [lia|]. cbn [parseInfix]. apply wp_bind, wp_get. cbn zeta.
    destruct (toks_cons _ _ _ E1) as [Eo _].
    assert (infixOp (cur_tok t_ st1) = infixOp o) as -> by (rewrite <- Eo; done). fold q.
    destruct (infix_facts o ltac:(fold q; lia)) as (_ & _ & _ & Hne).
    rewrite bool_decide_eq_false_2 by done.
    destruct (Z.eqb_spec q 0); [lia|]. destruct (Z.ltb_spec q p); [lia|]. cbn [orb].
    apply wp_bind. eapply wp_adv; [exact E1|apply app_ne; by eapply ok_post_ne|]. intros st2 L2.
    pose proof (leaves_toks _ _ _ L2) as E2. pose proof (leaves_trans _ _ _ _ _ L1 L2) as L12.
    assert (left_ t_ st1 = S (left_ t_ st2)) as Hl by (rewrite !toks_left, E1, E2; done).
    apply wp_bind. eapply wp_mono.
    { apply (HEz (q + 1) st2 post m); [lia|exact E2|done| |lia]. rewrite (leaves_depth _ _ _ L12). lia. }
    intros ez st3 [L3 (e2 & -> & He2)]. apply HQ.
    - split; [by eapply leaves_trans|]. eexists. split; [reflexivity|]. cbn. by rewrite He1, He2.
    - assert (left_ t_ st3 <= left_ t_ st2)%nat; [|lia].
      rewrite !toks_left, (leaves_toks _ _ _ L3), E2, length_app. lia. }
  destruct (wrap_cases q y) as [(Hl & Ep & Ew)|(Hl & Ep & Ew)].
  - assert (print q y = print 7 y) as E7.
    { rewrite Ep. unfold print, wrap. destruct (Z.ltb_spec (level y) 7); [done|lia]. }
    assert (wrapped 7 y (nesting y) = wrapped q y (nesting y)) as W7.
    { rewrite Ew. unfold wrapped. destruct (Z.ltb_spec (level y) 7); [done|lia]. }
    rewrite E7 in E. apply wp_bind. eapply wp_mono.
    { apply (HUy st (o :: print (q + 1) z ++ post) n); [exact E|apply ok_post_infix; fold q; lia|rewrite W7; lia|lia]. }
    intros e st1 Y. pose proof Y as [L1 (e1 & -> & He1)]. apply Hloop; [done|].
    assert (left_ t_ st1 <= left_ t_ st)%nat; [|lia].
    rewrite !toks_left, (leaves_toks _ _ _ L1), E, length_app. lia.
  - rewrite Ep in E. apply (HSy p st (o :: print (q + 1) z ++ post) n Q); try done; [lia| |rewrite Ew in Hd; lia].
    apply ok_post_infix. fold q. lia.
Qed.

(** The other readings follow from the spine. *)
Lemma reads_from_spine x : sx_ok x = true -> (8 <= level x -> reads_primary x) -> (7 <= level x -> reads_unary x) ->
  reads_spine x -> reads_x x.
Proof.
  intros Hok HP HU HS.
  assert (reads_primary x) as HP'.
  { destruct (Z_le_dec 8 (level x)) as [|Hl]; [by apply HP|]. intros st post n E Hp Hd Hn.
    destruct (wrap_cases 8 x) as [(_ & Ep & Ew)|(? & _)]; [|lia]. rewrite Ep in E. rewrite Ew in Hd.
    cbn [app] in E. rewrite <- app_assoc in E. apply paren_primary; try done. lia. }
  assert (reads_unary x) as HU'.
  { destruct (Z_le_dec 7 (level x)) as [|Hl]; [by apply HU|]. intros st post n E Hp Hd Hn.
    apply unary_of_primary; try done. lia. }
  split; [|done]. intros p st post n Hp E Hpost Hd Hn.
  destruct (wrap_cases p x) as [(Hl & Ep & Ew)|(Hl & Ep & Ew)].
  - assert (print p x = print 7 x) as E7.
    { rewrite Ep. unfold print, wrap. destruct (Z.ltb_spec (level x) 7); [done|lia]. }
    assert (wrapped 7 x (nesting x) = wrapped p x (nesting x)) as W7.
    { rewrite Ew. unfold wrapped. destruct (Z.ltb_spec (level x) 7); [done|lia]. }
    rewrite E7 in E. destruct n as [|n]; [lia|]. cbn [parseExpr].
    pose proof (nesting_pos x). pose proof (wrapped_ge p x (nesting x)).
    apply wp_bind, wp_get, wp_bind, wp_get. destruct (Z.leb_spec kMaxExprDepth (exprDepth_ st)); [lia|].
    apply wp_guarded. cbn zeta. set (st0 := mkP (i_ st) (exprDepth_ st + 1) (pd_ st)).
    apply wp_bind. eapply wp_mono.
    { apply (HU' st0 post n); [exact E| |cbn; lia|unfold left_ in *; cbn; lia].
      eapply ok_post_mono; [| | |exact Hpost]; lia. }
    intros e st' [L (e' & -> & He)]. destruct n as [|n]; [lia|].
    eapply (infix_stop (S n) p e' st' post); [by eapply leaves_toks|done|lia|lia|].
    split; [|by exists e']. destruct L as (?&Hd'&?). cbn in Hd'. split; [done|]. split; [cbn; lia|done].
  - rewrite Ep in E. rewrite Ew in Hd. by apply expr_of_spine.
Qed.

Lemma reads_level8 x : sx_ok x = true -> level x = 8 -> reads_primary x -> reads_x x.
Proof.
  intros Hok Hl HP. assert (reads_unary x) as HU.
  { intros st post n E Hp Hd Hn. apply unary_of_primary; try done. lia. }
  apply reads_from_spine; try done. apply spine_of_unary; [lia|done].
Qed.

Lemma reads_all x : sx_ok x = true -> reads_x x /\ (is_ref x = true -> reads_ref x).
Proof.
  induction x as [x IH] using sx_ind_size. intros Hok.
  destruct (constant x) eqn:Hc.
  { split; [|by destruct x]. apply reads_level8; [done|by destruct x|by apply constant_primary]. }
  destruct (is_ref x) eqn:Href.
  { assert (reads_ref x) as HR.
    { apply ref_reads; [done..| |].
      - intros y Hin Hy. apply (IH y); [|done]. destruct x; try done; cbn [args_of] in Hin; try done.
        pose proof (in_args_size y _ Hin). cbn [size]. lia.
      - intros l Hl.
        assert (is_ref l = true /\ sx_ok l = true /\ (size l < size x)%nat) as (? & ? & ?).
        { destruct x as [| | | | |[l'|] nm path1|[l'|] nm path1 args path'| | | |]; try done; cbn in Hl; subst l';
            cbn [sx_ok size] in *; rewrite !andb_true_iff in Hok; repeat split; try tauto; lia. }
        by apply (IH l). }
    split; [|done]. apply reads_level8; [done|by apply ref_level|by apply ref_primary]. }
  split; [|done].
  destruct x as [| | | | | | |y|o y|y z|o y z]; try done; cbn [size] in IH.
  - assert (reads_spine y) as HS by (apply IH; [lia|done]).
    apply reads_level8; [done..|]. intros st post n E Hp Hd Hn.
    apply (paren_primary y); try done.
    + unfold print, wrap in E. cbn in E. by rewrite <- app_assoc in E.
    + unfold wrapped in Hd. cbn in Hd. lia.
  - assert (reads_unary (XPre o y)) as HU.
    { apply pre_unary; [done|]. cbn in Hok. rewrite andb_true_iff in Hok. apply IH; [lia|tauto]. }
    apply reads_from_spine; [done|cbn; lia|done|]. apply spine_of_unary; [cbn; lia|done].
  - assert (reads_unary (XPow y z)) as HU.
    { pose proof Hok as Hok'. cbn in Hok'. rewrite andb_true_iff in Hok'. destruct Hok' as [Hy Hz].
      apply pow_unary; [done| |]; apply IH; done || lia. }
    apply reads_from_spine; [done|cbn; lia|done|]. apply spine_of_unary; [cbn; lia|done].
  - pose proof Hok as Hok'. cbn in Hok'. rewrite !andb_true_iff, Z.leb_le in Hok'. destruct Hok' as [[[Hq Ho] Hy] Hz].
    pose proof (precOf_range (infixOp o)).
    apply reads_from_spine; [done|cbn; lia|cbn; lia|].
    apply spine_bin; [done| |]; apply IH; done || lia.
Qed.
End Round.

(** C1: parsing is the inverse of printing, precedence and associativity included.
    A surface expression (constants, references with members, arguments, locators
    and ['*'] axes, redundant parentheses, prefix operators, right-associative [**],
    and the left-associative infix operators in their symbol or word spellings)
    printed with the parentheses its precedence needs is read back by [parseExpr] as
    its tree; exactly its tokens are consumed, the depth is restored and no
    diagnostic is issued, when the nesting stays within the 512 levels of the code.
    Identifiers may have any spelling but NOT, operator words included. *)
Theorem expression_roundtrip t_ strtod double_of n p x st post :
  sx_ok x = true -> 1 <= p <= 7 ->
  toks t_ st = print p x ++ post -> ok_post p post ->
  exprDepth_ st + 1 + wrapped p x (nesting x) <= kMaxExprDepth ->
  (8 * (length t_ - i_ st) + 5 <= n)%nat ->
  exists e st', parseExpr t_ strtod double_of n p st = Some (Some e, st') /\
    erase e = build strtod x /\ toks t_ st' = post /\
    exprDepth_ st' = exprDepth_ st /\ pd_ st' = pd_ st.
Proof.
  intros Hok Hp E Hpost Hd Hn.
  destruct (reads_all t_ strtod double_of x Hok) as [(HE & _) _].
  specialize (HE p st post n Hp E Hpost Hd Hn). unfold wp in HE.
  destruct (parseExpr _ _ _ _ _ _) as [[e st']|]; [|done].
  destruct HE as [(?&?&?) (e' & -> & ?)]. by exists e', st'.
Qed.

(** [-A.B ** 2 AND F( *, X->Y) CAT (1)] *)
Definition sample : sx :=
  XBin (word (txt "AND"))
    (XPre Tok.Minus (XPow (XRef None (txt "A") [txt "B"]) (XInt (txt "2") false)))
    (XBin (word (txt "CAT"))
       (XCall None (txt "AND") [] [None; Some (XRef (Some (XRef None (txt "X") [])) (txt "Y") [])] [])
       (XParen (XInt (txt "1") false))).

Lemma expression_roundtrip_witness :
  let ts := print 1 sample ++ [sym Tok.Semi; sym Tok.Eof] in
  let st := mkP 0 0 (Diags_new []) in
  exists e st', parseExpr ts (fun _ => 0) (fun _ => 0) 200 1 st = Some (Some e, st') /\
    erase e = build (fun _ => 0) sample /\ toks ts st' = [sym Tok.Semi; sym Tok.Eof] /\
    exprDepth_ st' = exprDepth_ st /\ pd_ st' = pd_ st.
Proof.
  intros ts st. apply (expression_roundtrip ts (fun _ => 0) (fun _ => 0) 200 1 sample st);
    [reflexivity|lia|reflexivity| |vm_compute; intros [=]|vm_compute; lia].
  split; [reflexivity|]. split; [intros _ [=]|]. intros _. reflexivity.
Defined.

(** Source text to tree.  Text printed from lexemes that spell an expression and
    a semicolon, with any blanks and comments between them, lexes and parses to the
    tree of the expression with no diagnostic. *)
Theorem source_expression strtod double_of d seps0 ps x :
  forallb sep_ok seps0 = true -> forallb piece_ok ps = true -> sx_ok x = true ->
  map token_of (map fst ps) = print 1 x ++ [sym Tok.Semi] -> 1 + nesting x <= kMaxExprDepth ->
  exists ts lx e st',
    run (render_seps seps0 ++ concat (map render_piece ps)) d = Some (ts, lx) /\
    parseExpr ts strtod double_of (8 * length ts + 5) 1 (mkP 0 0 (d_ lx)) = Some (Some e, st') /\
    erase e = build strtod x /\ pd_ st' = d.
Proof.
  intros Hs Hps Hok Ht Hn.
  assert (exists ts lx, run (render_seps seps0 ++ concat (map render_piece ps)) d = Some (ts, lx) /\
    d_ lx = d /\ map erase_loc ts = map token_of (map fst ps) ++ [Token.at_loc Tok.Eof (mkLoc 0 0)])
    as (ts & lx & Er & Ed & Et).
  { unfold run, lexAll.
    destruct (lexLoop_rest (render_seps seps0 ++ concat (map render_piece ps))
      (fuel_of (render_seps seps0 ++ concat (map render_piece ps)) (mkLex 0 1 1 d)) [] (mkLex 0 1 1 d) seps0 ps)
      as (ts & st & E & Hd & Hts); [done..|by apply pieces_fuel|].
    by exists ts, st. }
  assert (toks ts (mkP 0 0 (d_ lx)) = print 1 x ++ [sym Tok.Semi; sym Tok.Eof]) as E.
  { unfold toks. cbn [i_]. rewrite drop_0, Et, Ht, <- app_assoc. done. }
  destruct (reads_all ts strtod double_of x Hok) as [(HE & _) _].
  assert (wrapped 1 x (nesting x) = nesting x) as Ew.
  { pose proof (level_pos ts strtod double_of x Hok). unfold wrapped. destruct (Z.ltb_spec (level x) 1); [lia|done]. }
  specialize (HE 1 (mkP 0 0 (d_ lx)) _ (8 * length ts + 5)%nat ltac:(lia) E
    ltac:(by apply (ok_post_sym ts strtod double_of)) ltac:(rewrite Ew; cbn; lia) ltac:(unfold left_; cbn [i_]; lia)).
  unfold wp in HE. destruct (parseExpr _ _ _ _ _ _) as [[e st']|] eqn:Ep; [|done].
  destruct HE as [(?&?&Hpd) (e' & -> & He)]. exists ts, lx, e', st'.
  split; [done|]. split; [exact Ep|]. split; [done|]. by rewrite Hpd.
Qed.

(** [ a+ 1 /* c */ ; ] *)
Lemma source_expression_witness :
  let sp := [SBlank " "%char] in
  let ps := [(LWord (txt "a"), sp); (LOp Tok.Plus, sp); (LNum (txt "1") None None [], sp ++ [SComment (txt "c")]);
             (LOp Tok.Semi, sp)] in
  let x := XBin (sym Tok.Plus) (XRef None (txt "A") []) (XInt (txt "1") false) in
  exists ts lx e st',
    run (render_seps [] ++ concat (map render_piece ps)) (Diags_new []) = Some (ts, lx) /\
    parseExpr ts (fun _ => 0) (fun _ => 0) (8 * length ts + 5) 1 (mkP 0 0 (d_ lx)) = Some (Some e, st') /\
    erase e = build (fun _ => 0) x /\ pd_ st' = Diags_new [].
Proof.
  intros sp ps x. apply (source_expression (fun _ => 0) (fun _ => 0) (Diags_new []) [] ps x);
    [reflexivity..|vm_compute; intros [=]].
Defined.

(** a parenthesised constant in an INITIAL list loses its value.  The item
    [(5)] becomes an integer literal whose 64-bit field holds 5 and whose 128-bit
    field holds 0, and the constant folder, which reads the latter, takes it as 0;
    the same constant without parentheses is read as 5. *)
Theorem initial_paren_constant d :
  let five := numeral (txt "5") false false false in
  let item ts := parseInitialItem ts (fun _ => 0) (fun _ => 0) 60 (mkP 0 0 d) in
  (exists e st, item [sym Tok.LParen; five; sym Tok.RParen; sym Tok.RParen; sym Tok.Eof] = Some (IValue (Some e), st) /\
     pd_ st = d /\ Expr.ival e = 5 /\ Expr.wideIval e = 0 /\ option_map value (constNumOf e) = Some 0) /\
  (exists e st, item [five; sym Tok.RParen; sym Tok.Eof] = Some (IValue (Some e), st) /\
     pd_ st = d /\ Expr.ival e = 5 /\ Expr.wideIval e = 5 /\ option_map value (constNumOf e) = Some 5).
Proof.
  split; eexists _, _; (split; [vm_compute; reflexivity|]); repeat split; vm_compute; reflexivity.
Qed.
