(* ===== verification/Facts.v ===== *)
(** * The decision layer: fact store and lowering policy

    irgen_decisions.h/.cpp, the parts that record and choose: [FactStore] and
    its report ([--print-facts]), the inline-versus-library decision
    ([decideInline] and its three tables), and the declared-range fact
    ([fixedBinRangeFact]). *)
From S2P Require Import Prelude.

(** ** The fact store *)
Module FactStore.

Record BuiltinFact := mkBuiltin {
  op : text; path : text; count : Z; reason : text }.

Record ProcFacts := mkProc {
  name : text; effect : text; effectNote : text; nounwind : bool; willReturn : bool;
  builtins : list BuiltinFact; pinned : list text }.

(** [cur] is the index of the open procedure, [None] for the code's [-1]. *)
Record t := mk {
  loweringMode : text; checks : list (text * bool); procs : list ProcFacts;
  cur : option nat }.

Definition empty : t := mk (txt "auto") [] [] None.

Definition setLoweringMode (m : text) (f : t) : t := mk m (checks f) (procs f) (cur f).

(** The loops that update the first entry with a key and append otherwise. *)
Fixpoint update_first {A} (hit : A -> bool) (upd : A -> A) (new : A) (l : list A) : list A :=
  match l with
  | [] => [new]
  | x :: l' => if hit x then upd x :: l' else x :: update_first hit upd new l'
  end.

Fixpoint index_of {A} (hit : A -> bool) (l : list A) : option nat :=
  match l with
  | [] => None
  | x :: l' => if hit x then Some 0%nat else S <$> index_of hit l'
  end.

Definition setCheck (kind : text) (on : bool) (f : t) : t :=
  mk (loweringMode f)
     (update_first (fun c => text_eqb (fst c) kind) (fun c => (fst c, on)) (kind, on) (checks f))
     (procs f) (cur f).

Definition beginProc (n : text) (f : t) : t :=
  match index_of (fun p => text_eqb (name p) n) (procs f) with
  | Some i => mk (loweringMode f) (checks f) (procs f) (Some i)
  | None => mk (loweringMode f) (checks f)
               (procs f ++ [mkProc n [] [] false false [] []]) (Some (length (procs f)))
  end.

Definition setEffects (n eff note : text) (nw wr : bool) (f : t) : t :=
  mk (loweringMode f) (checks f)
     (update_first (fun p => text_eqb (name p) n)
        (fun p => mkProc (name p) eff note nw wr (builtins p) (pinned p))
        (mkProc n eff note nw wr [] []) (procs f))
     (cur f).


(** The procedure being lowered, updated in place; nothing when none is open. *)
Definition on_cur (upd : ProcFacts -> ProcFacts) (f : t) : t :=
  match cur f with
  | None => f
  | Some i => mk (loweringMode f) (checks f) (alter upd i (procs f)) (cur f)
  end.

Definition recordBuiltin (o p r : text) (f : t) : t :=
  on_cur (fun q =>
    mkProc (name q) (effect q) (effectNote q) (nounwind q) (willReturn q)
      (update_first (fun b => text_eqb (op b) o && text_eqb (path b) p)
         (fun b => mkBuiltin (op b) (path b) (u32 (count b + 1))
                     (if is_empty (reason b) then r else reason b))
         (mkBuiltin o p 1 r) (builtins q))
      (pinned q)) f.

Definition recordPinned (n : text) (f : t) : t :=
  on_cur (fun q =>
    mkProc (name q) (effect q) (effectNote q) (nounwind q) (willReturn q) (builtins q)
      (update_first (fun s => text_eqb s n) id n (pinned q))) f.

Definition report_builtin (b : BuiltinFact) : text :=
  txt "  builtin " ++ op b ++ txt " -> " ++ path b ++ txt " x" ++ to_string (count b) ++
  (if is_empty (reason b) then [] else txt " (" ++ reason b ++ txt ")") ++ [newline].

Definition report_proc (p : ProcFacts) : text :=
  if is_empty (builtins p) && is_empty (effect p) && is_empty (pinned p) then []
  else
    txt "proc " ++ name p ++ [newline] ++
    (if is_empty (effect p) then []
     else txt "  effect: " ++ effect p ++
          (if is_empty (effectNote p) then [] else txt " (" ++ effectNote p ++ txt ")") ++
          [newline]) ++
    (if is_empty (pinned p) then []
     else txt "  pinned:" ++ mjoin ((fun s => txt " " ++ s) <$> pinned p) ++ [newline]) ++
    (if nounwind p || willReturn p then
       txt "  control:" ++ (if nounwind p then txt " nounwind" else []) ++
       (if willReturn p then txt " willreturn" else []) ++ [newline]
     else []) ++
    mjoin (report_builtin <$> builtins p).

Definition report (f : t) : text :=
  txt "; pli facts" ++ [newline] ++ txt "module" ++ [newline] ++
  txt "  lowering: " ++ loweringMode f ++ [newline] ++
  (if is_empty (checks f) then []
   else txt "  checks:" ++
        mjoin ((fun c : text * bool => txt " " ++ fst c ++ (if snd c then txt " on" else txt " off"))
               <$> checks f) ++ [newline]) ++
  mjoin (report_proc <$> procs f).

(** The operations a client performs, as data: a run is a fold over them. *)
Inductive event :=
  | SetCheck (kind : text) (on : bool)
  | BeginProc (n : text)
  | RecordBuiltin (o p r : text)
  | RecordPinned (n : text)
  | SetEffects (n eff note : text) (nw wr : bool).

Definition step (f : t) (e : event) : t :=
  match e with
  | SetCheck k on => setCheck k on f
  | BeginProc n => beginProc n f
  | RecordBuiltin o p r => recordBuiltin o p r f
  | RecordPinned n => recordPinned n f
  | SetEffects n e note nw wr => setEffects n e note nw wr f
  end.
Definition run (f : t) (es : list event) : t := fold_left step es f.

(** Well-formedness: one entry per key at each level, and an open procedure
    that exists. *)
Record wf (f : t) : Prop := {
  wf_checks : NoDup (fst <$> checks f);
  wf_procs : NoDup (name <$> procs f);
  wf_builtins : Forall (fun p => NoDup ((fun b => (op b, path b)) <$> builtins p)) (procs f);
  wf_pinned : Forall (fun p => NoDup (pinned p)) (procs f);
  wf_cur : forall i, cur f = Some i -> (i < length (procs f))%nat }.

(** What the log says of one pair: the sites recorded for [(o, p)] while the
    procedure [n] was open.  [open] is the procedure open before the log. *)
Fixpoint sites (open : option text) (n o p : text) (es : list event) : Z :=
  match es with
  | [] => 0
  | e :: es' =>
      match e with
      | BeginProc m => sites (Some m) n o p es'
      | RecordBuiltin o' p' _ =>
          (if bool_decide (open = Some n) && text_eqb o' o && text_eqb p' p then 1 else 0) +
          sites open n o p es'
      | _ => sites open n o p es'
      end
  end.

Definition find_key {A K} `{EqDecision K} (key : A -> K) (k : K) (l : list A) : option A :=
  find (fun x => bool_decide (key x = k)) l.
#[global] Arguments find_key : simpl never.

(** The count the store reports for a pair, zero when it has no entry. *)
Definition counted (f : t) (n o p : text) : Z :=
  match find_key name n (procs f) with
  | Some q =>
      match find_key (fun b => (op b, path b)) (o, p) (builtins q) with
      | Some b => count b
      | None => 0
      end
  | None => 0
  end.

(** *** Keyed lists *)
Section Keyed.
Context {A K : Type} `{EqDecision K} (key : A -> K).
Implicit Types (l : list A) (x : A) (k : K).

Lemma find_key_cons k x l :
  find_key key k (x :: l) = if bool_decide (key x = k) then Some x else find_key key k l.
Proof. done. Qed.

Lemma find_key_None k l : find_key key k l = None <-> k ∉ key <$> l.
Proof.
  induction l as [|x l IH]; [split; [set_solver|done]|].
  rewrite find_key_cons, fmap_cons, not_elem_of_cons.
  destruct (decide (key x = k)) as [E|E].
  - rewrite bool_decide_true by done. naive_solver.
  - rewrite bool_decide_false, IH by done. naive_solver.
Qed.

Lemma find_key_snoc k l x :
  find_key key k (l ++ [x]) =
  match find_key key k l with
  | Some y => Some y
  | None => if bool_decide (key x = k) then Some x else None
  end.
Proof.
  induction l as [|y l IH]; [done|]. cbn [app]. rewrite !find_key_cons, IH.
  by destruct (bool_decide (key y = k)).
Qed.

Lemma find_key_update hit upd new k k' l :
  (forall x, hit x = bool_decide (key x = k)) -> (forall x, key (upd x) = key x) -> key new = k ->
  find_key key k' (update_first hit upd new l) =
  if bool_decide (k' = k) then Some (from_option upd new (find_key key k l))
  else find_key key k' l.
Proof.
  intros Hh Hu Hn. induction l as [|x l IH]; cbn [update_first].
  - rewrite find_key_cons, Hn. unfold find_key. cbn. repeat case_bool_decide; congruence.
  - rewrite (find_key_cons k), Hh. destruct (decide (key x = k)) as [E|E].
    + rewrite (bool_decide_true (key x = k)) by done.
      rewrite !find_key_cons, Hu. cbn. repeat case_bool_decide; congruence.
    + rewrite (bool_decide_false (key x = k)) by done.
      rewrite !find_key_cons, IH. repeat case_bool_decide; congruence.
Qed.

Lemma keys_update hit upd new k l :
  (forall x, hit x = bool_decide (key x = k)) -> (forall x, key (upd x) = key x) -> key new = k ->
  key <$> update_first hit upd new l =
  if bool_decide (k ∈ key <$> l) then key <$> l else (key <$> l) ++ [k].
Proof.
  intros Hh Hu Hn. induction l as [|x l IH]; cbn [update_first].
  - rewrite bool_decide_false by set_solver. cbn. by rewrite Hn.
  - rewrite Hh. destruct (decide (key x = k)) as [E|E].
    + rewrite (bool_decide_true (key x = k)) by done.
      rewrite bool_decide_true by set_solver. cbn. by rewrite Hu.
    + rewrite (bool_decide_false (key x = k)) by done. cbn. rewrite IH.
      repeat case_bool_decide; set_solver.
Qed.

Lemma nodup_update hit upd new k l :
  (forall x, hit x = bool_decide (key x = k)) -> (forall x, key (upd x) = key x) -> key new = k ->
  NoDup (key <$> l) -> NoDup (key <$> update_first hit upd new l).
Proof.
  intros Hh Hu Hn Hl. rewrite (keys_update _ _ _ k) by done. case_bool_decide; [done|].
  apply NoDup_app. set_solver by eauto using NoDup_singleton.
Qed.

Lemma keys_alter upd i l : (forall x, key (upd x) = key x) -> key <$> alter upd i l = key <$> l.
Proof.
  intros Hu. revert i. induction l as [|x l IH]; intros [|i]; cbn; [done..| |].
  - f_equal. apply Hu.
  - f_equal. apply IH.
Qed.

Lemma find_key_alter upd i x k l :
  (forall x, key (upd x) = key x) -> NoDup (key <$> l) -> l !! i = Some x ->
  find_key key k (alter upd i l) =
  if bool_decide (key x = k) then Some (upd x) else find_key key k l.
Proof.
  intros Hu. revert i. induction l as [|y l IH]; intros i Hn Hi; [done|].
  rewrite fmap_cons, NoDup_cons in Hn. destruct Hn as [Hy Hn]. destruct i as [|i]; cbn in Hi.
  - simplify_eq. change (alter upd 0%nat (x :: l)) with (upd x :: l).
    rewrite !find_key_cons, Hu. by case_bool_decide.
  - change (alter upd (S i) (y :: l)) with (y :: alter upd i l).
    rewrite !find_key_cons, IH by done.
    destruct (decide (key x = k)) as [E|E]; [|by rewrite (bool_decide_false (key x = k))].
    rewrite (bool_decide_true (key x = k)) by done.
    rewrite bool_decide_false; [done|]. intros E'. apply Hy. rewrite E', <- E.
    apply list_elem_of_fmap. exists x. split; [done|]. by eapply list_elem_of_lookup_2.
Qed.

Lemma find_key_lookup i x l :
  NoDup (key <$> l) -> l !! i = Some x -> find_key key (key x) l = Some x.
Proof.
  intros Hn Hi. pose proof (find_key_alter id i x (key x) l (fun _ => eq_refl) Hn Hi) as E.
  rewrite bool_decide_true in E by done. by rewrite list_alter_id in E.
Qed.

Lemma index_of_spec k l :
  match index_of (fun x => bool_decide (key x = k)) l with
  | Some i => exists x, l !! i = Some x /\ key x = k
  | None => k ∉ key <$> l
  end.
Proof.
  induction l as [|x l IH]; cbn; [set_solver|]. case_bool_decide as E; [by exists x|].
  destruct (index_of _ l) as [i|]; cbn; [done|]. set_solver.
Qed.
End Keyed.

(** *** Invariant *)
Definition cur_name (f : t) : option text := cur f ≫= fun i => name <$> procs f !! i.

(** The entry of the open procedure changes, nothing else does. *)
Lemma on_cur_wf upd f :
  wf f -> (forall q, name (upd q) = name q) ->
  (forall q, NoDup ((fun b => (op b, path b)) <$> builtins q) ->
             NoDup ((fun b => (op b, path b)) <$> builtins (upd q))) ->
  (forall q, NoDup (pinned q) -> NoDup (pinned (upd q))) ->
  wf (on_cur upd f).
Proof.
  intros Hf Hn Hb Hp. unfold on_cur. destruct (cur f) as [i|] eqn:E; [|done].
  destruct Hf as [H1 H2 H3 H4 H5]. split; cbn; try done.
  - by rewrite keys_alter.
  - apply Forall_alter; [done|]. intros q _ ?. by apply Hb.
  - apply Forall_alter; [done|]. intros q _ ?. by apply Hp.
  - intros j [= <-]. rewrite length_alter. by apply H5.
Qed.

Lemma pair_hit o p b :
  (text_eqb (op b) o && text_eqb (path b) p) = bool_decide ((op b, path b) = (o, p)).
Proof. unfold text_eqb. repeat case_bool_decide; naive_solver. Qed.

Lemma wf_empty : wf empty.
Proof. split; cbn; try constructor. done. Qed.

Lemma wf_step f e : wf f -> wf (step f e).
Proof.
  intros Hf. pose proof Hf as [H1 H2 H3 H4 H5].
  destruct e as [k on|n|o p r|n|n eff note nw wr]; cbn [step].
  - split; cbn; try done. by apply (nodup_update fst) with (k := k).
  - unfold beginProc. pose proof (index_of_spec name n (procs f)) as Hi.
    unfold text_eqb. destruct (index_of _ (procs f)) as [i|].
    + destruct Hi as (q & Hq & _). split; cbn; try done.
      intros j [= <-]. by eapply lookup_lt_Some.
    + split; cbn; try done.
      * rewrite fmap_app, NoDup_app. cbn. set_solver by eauto using NoDup_singleton.
      * apply Forall_app. split; [done|]. repeat constructor.
      * apply Forall_app. split; [done|]. repeat constructor.
      * intros j [= <-]. rewrite length_app. cbn. lia.
  - apply on_cur_wf; try done. intros q Hq. cbn.
    apply nodup_update with (k := (o, p)); try done. intros b. apply pair_hit.
  - apply on_cur_wf; try done. intros q Hq. cbn.
    rewrite <- (list_fmap_id (update_first _ _ _ _)).
    apply (nodup_update id) with (k := n); try done. by rewrite list_fmap_id.
  - assert (length (procs f) <= length (procs (setEffects n eff note nw wr f)))%nat.
    { cbn. clear. induction (procs f) as [|x l IH]; cbn; [lia|].
      destruct (text_eqb _ _); cbn; lia. }
    split; cbn; try done.
    + by apply (nodup_update name) with (k := n).
    + clear -H3. induction H3 as [|x l Hx Hl IH]; cbn; [repeat constructor|].
      destruct (text_eqb _ _); by constructor.
    + clear -H4. induction H4 as [|x l Hx Hl IH]; cbn; [repeat constructor|].
      destruct (text_eqb _ _); by constructor.
    + intros i Hi. apply H5 in Hi. cbn in *. lia.
Qed.

(** *** What the store counts *)
Lemma text_hit (x k : text) : text_eqb x k = bool_decide (x = k).
Proof. done. Qed.

Lemma cur_name_step f e :
  wf f -> cur_name (step f e) = match e with BeginProc n => Some n | _ => cur_name f end.
Proof.
  intros Hf. destruct e as [k on|n|o p r|n|n eff note nw wr]; cbn [step]; unfold cur_name; try done.
  - unfold beginProc. pose proof (index_of_spec name n (procs f)) as Hi.
    unfold text_eqb. destruct (index_of _ (procs f)) as [i|]; cbn.
    + destruct Hi as (q & -> & E). cbn. by rewrite E.
    + by rewrite list_lookup_middle.
  - unfold recordBuiltin, on_cur. destruct (cur f) as [i|] eqn:E; [|by rewrite E]. cbn.
    rewrite list_lookup_alter_eq. by destruct (procs f !! i).
  - unfold recordPinned, on_cur. destruct (cur f) as [i|] eqn:E; [|by rewrite E]. cbn.
    rewrite list_lookup_alter_eq. by destruct (procs f !! i).
  - cbn. destruct (cur f) as [i|] eqn:E; [|done]. cbn. apply wf_cur in E; [|done].
    revert i E. induction (procs f) as [|x l IH]; intros i E; cbn in *; [lia|].
    destruct (text_eqb _ _); destruct i as [|i]; cbn; try done. apply IH. lia.
Qed.

(** A record names the open procedure, so its count is that procedure's. *)
Lemma counted_on_cur upd f n o p :
  wf f -> (forall q, name (upd q) = name q) ->
  counted (on_cur upd f) n o p =
  match cur f ≫= (fun i => procs f !! i) with
  | Some q => if bool_decide (name q = n) then
                match find_key (fun b => (op b, path b)) (o, p) (builtins (upd q)) with
                | Some b => count b | None => 0 end
              else counted f n o p
  | None => counted f n o p
  end.
Proof.
  intros Hf Hn. unfold on_cur. destruct (cur f) as [i|] eqn:E; cbn; [|done].
  destruct (lookup_lt_is_Some_2 (procs f) i) as [q Hq]; [by apply wf_cur|].
  unfold counted. cbn [procs]. rewrite Hq, (find_key_alter name _ i q) by (done || apply Hf).
  by destruct (bool_decide (name q = n)).
Qed.

Lemma counted_cur f i q o p :
  wf f -> cur f = Some i -> procs f !! i = Some q ->
  counted f (name q) o p =
  match find_key (fun b => (op b, path b)) (o, p) (builtins q) with
  | Some b => count b | None => 0 end.
Proof.
  intros Hf Hi Hq. unfold counted. by rewrite (find_key_lookup name i q) by (done || apply Hf).
Qed.

Lemma cur_name_lookup f : cur_name f = name <$> (cur f ≫= (fun i => procs f !! i)).
Proof. unfold cur_name. by destruct (cur f). Qed.

Definition site_of (open : option text) (n o p : text) (e : event) : Z :=
  match e with
  | RecordBuiltin o' p' _ =>
      if bool_decide (open = Some n) && text_eqb o' o && text_eqb p' p then 1 else 0
  | _ => 0
  end.

Lemma counted_step f e n o p :
  wf f -> urange 32 (counted f n o p) ->
  counted (step f e) n o p = u32 (counted f n o p + site_of (cur_name f) n o p e).
Proof.
  intros Hf Hr.
  assert (counted f n o p = u32 (counted f n o p + 0)) as Eq0.
  { by rewrite Z.add_0_r, uwrap_small. }
  destruct e as [k on|m|o' p' r|m|m eff note nw wr]; cbn [step site_of]; try done;
    rewrite <- ?Eq0.
  - unfold beginProc. destruct (index_of _ _) eqn:E; [done|]. unfold counted. cbn.
    rewrite find_key_snoc.
    destruct (find_key name n (procs f)); [done|]. cbn. by destruct (bool_decide (m = n)).
  - unfold recordBuiltin. rewrite counted_on_cur by done. rewrite cur_name_lookup.
    destruct (cur f) as [i|] eqn:Ei; cbn; [|done].
    destruct (procs f !! i) as [q|] eqn:Eq; cbn; [|done].
    destruct (decide (name q = n)) as [<-|Hne].
    + rewrite !bool_decide_true by done. cbn. rewrite (counted_cur f i q) in * by done.
      rewrite (find_key_update _ _ _ _ (o', p')) by (done || intros; apply pair_hit).
      unfold text_eqb. case_bool_decide as E1; [simplify_eq|].
      * rewrite !bool_decide_true by done. cbn. by destruct (find_key _ _ _) as [b|].
      * by repeat case_bool_decide; simplify_eq; cbn.
    + rewrite !bool_decide_false by congruence. done.
  - unfold recordPinned. rewrite counted_on_cur by done.
    destruct (cur f) as [i|] eqn:Ei; cbn; [|done].
    destruct (procs f !! i) as [q|] eqn:Eq; cbn; [|done].
    case_bool_decide; [subst|done]. by rewrite (counted_cur f i q).
  - unfold counted. cbn. rewrite (find_key_update name _ _ _ m) by done.
    case_bool_decide; [subst|done]. by destruct (find_key name m (procs f)).
Qed.

Lemma sites_cons open n o p e es :
  sites open n o p (e :: es) =
  site_of open n o p e + sites (match e with BeginProc m => Some m | _ => open end) n o p es.
Proof. by destruct e. Qed.

Lemma counted_run es f n o p :
  wf f -> urange 32 (counted f n o p) -> wf (run f es) /\
  counted (run f es) n o p = u32 (counted f n o p + sites (cur_name f) n o p es).
Proof.
  revert f. induction es as [|e es IH]; intros f Hf Hr.
  { cbn. by rewrite Z.add_0_r, uwrap_small. }
  pose proof (counted_step f e n o p Hf Hr) as Es.
  change (run f (e :: es)) with (run (step f e) es).
  destruct (IH (step f e) (wf_step f e Hf)) as [Hw ->].
  { rewrite Es. by apply uwrap_range. }
  split; [done|]. rewrite sites_cons, cur_name_step, Es by done.
  destruct (uwrap_congr 32 (counted f n o p + site_of (cur_name f) n o p e)) as [k Ek]; [done|].
  rewrite Ek. apply uwrap_eq with (k := k); [done|]. lia.
Qed.

(** the fact store, after any sequence of operations on an empty one, has
    one entry per check kind, per procedure, per (operation, path) pair of a
    procedure and per pinned name, and an open procedure that exists; the
    count it prints for a pair is exactly the number of sites recorded for it
    while that procedure was open — however often the procedure was reopened
    or its verdict set in between — modulo the width of the counter. *)
Theorem facts_exact (es : list event) (n o p : text) :
  wf (run empty es) /\ counted (run empty es) n o p = u32 (sites None n o p es).
Proof.
  destruct (counted_run es empty n o p) as [Hw ->]; [apply wf_empty|done|]. done.
Qed.

End FactStore.

(** ** The inline-versus-library decision *)
Inductive InlinePath := Library | LLVM | ConstantTable.
#[global] Instance InlinePath_dec : EqDecision InlinePath.
Proof. solve_decision. Defined.

(** [what] is the [const char*] of the code, [None] for [nullptr]. *)
Record CallSite := mkSite { constantArg : bool; what : option text }.
Record InlineDecision := mkDecision { decided : InlinePath; why : text }.

Definition runtimeDefaultTable : list (text * bool) :=
  (fun s => (txt s, true)) <$>
  ["assign_char"; "index"; "assign_varying"; "high"; "low"; "uppercase"; "lowercase";
   "reverse"; "center"; "cmp_char";
   "verify"; "verify_from"; "search"; "tally";
   "substr"; "substr_assign"; "substr_assign_varying"; "repeat"; "translate"; "picture"; "trim";
   "fixed_of_float"; "fixed_of_char"; "char_of_fixed"; "char_of_float";
   "pli_sqrt"; "pli_exp"; "pli_log"; "pli_sin"; "pli_cos"; "pli_tan"; "pli_log2"; "pli_log10";
   "pli_atan"; "pli_sinh"; "pli_cosh"; "pli_tanh"; "pli_atanh"; "pli_erf"; "pli_erfc";
   "pli_sind"; "pli_cosd"; "pli_tand"; "pli_atand"; "pli_asin"; "pli_acos"; "pli_cbrt";
   "pli_atan2";
   "pli_rank"; "pli_collate"; "pli_isochar";
   "concat_const"; "bit_merge"; "bit_test"]%string.

Definition llvmLoweringOps : list text :=
  txt <$>
  ["assign_char"; "index"; "assign_varying"; "high"; "low"; "uppercase"; "lowercase";
   "reverse"; "center"; "cmp_char";
   "verify"; "verify_from"; "search"; "tally";
   "substr"; "substr_assign"; "substr_assign_varying"; "repeat"; "translate"; "picture"; "trim";
   "fixed_of_float"; "fixed_of_char"; "char_of_fixed"; "char_of_float";
   "pli_sqrt"; "pli_exp"; "pli_log"; "pli_sin"; "pli_cos"; "pli_tan"; "pli_log2"; "pli_log10";
   "pli_atan"; "pli_sinh"; "pli_cosh"; "pli_tanh"; "pli_atanh"; "pli_erf"; "pli_erfc";
   "pli_sind"; "pli_cosd"; "pli_tand"; "pli_atand"; "pli_asin"; "pli_acos"; "pli_cbrt";
   "pli_atan2";
   "pli_rank"; "pli_collate"; "pli_isochar";
   "concat_const"; "bit_merge"; "bit_test"]%string.

Definition hasLLVMLowering (op : text) : bool := bool_decide (op ∈ llvmLoweringOps).

Definition lookup_op {A} (op : text) (l : list (text * A)) : option A :=
  snd <$> find (fun e => text_eqb (fst e) op) l.

Definition prefersLLVMLowering (op : text) : bool :=
  match lookup_op op runtimeDefaultTable with Some b => b | None => false end.

Definition indexPrefersLLVM (_ : CallSite) : bool := true.
Definition verifyPrefersLLVM (_ : CallSite) : bool := true.
Definition searchPrefersLLVM (_ : CallSite) : bool := true.
Definition tallyPrefersLLVM (_ : CallSite) : bool := true.
Definition substrPrefersLLVM (_ : CallSite) : bool := true.
Definition repeatPrefersLLVM (_ : CallSite) : bool := true.
Definition translatePrefersLLVM (_ : CallSite) : bool := true.
Definition trimPrefersLLVM (_ : CallSite) : bool := true.
Definition charOfFixedPrefersLLVM (_ : CallSite) : bool := true.
Definition charOfFloatPrefersLLVM (_ : CallSite) : bool := true.
Definition fixedOfCharPrefersLLVM (_ : CallSite) : bool := true.
Definition fixedOfFloatPrefersLLVM (_ : CallSite) : bool := true.
Definition mathPrefersLLVM (_ : CallSite) : bool := true.

Definition predicateTable : list (text * (CallSite -> bool)) :=
  prod_map txt id <$>
  [("index", indexPrefersLLVM); ("verify", verifyPrefersLLVM);
   ("verify_from", verifyPrefersLLVM); ("search", searchPrefersLLVM);
   ("tally", tallyPrefersLLVM); ("substr", substrPrefersLLVM);
   ("substr_assign", substrPrefersLLVM); ("substr_assign_varying", substrPrefersLLVM);
   ("repeat", repeatPrefersLLVM); ("translate", translatePrefersLLVM);
   ("trim", trimPrefersLLVM); ("char_of_fixed", charOfFixedPrefersLLVM);
   ("char_of_float", charOfFloatPrefersLLVM); ("fixed_of_char", fixedOfCharPrefersLLVM);
   ("fixed_of_float", fixedOfFloatPrefersLLVM);
   ("pli_sqrt", mathPrefersLLVM); ("pli_exp", mathPrefersLLVM); ("pli_log", mathPrefersLLVM);
   ("pli_sin", mathPrefersLLVM); ("pli_cos", mathPrefersLLVM); ("pli_tan", mathPrefersLLVM);
   ("pli_log2", mathPrefersLLVM); ("pli_log10", mathPrefersLLVM); ("pli_atan", mathPrefersLLVM);
   ("pli_sinh", mathPrefersLLVM); ("pli_cosh", mathPrefersLLVM); ("pli_tanh", mathPrefersLLVM);
   ("pli_atanh", mathPrefersLLVM); ("pli_erf", mathPrefersLLVM); ("pli_erfc", mathPrefersLLVM);
   ("pli_sind", mathPrefersLLVM); ("pli_cosd", mathPrefersLLVM); ("pli_tand", mathPrefersLLVM);
   ("pli_atand", mathPrefersLLVM); ("pli_asin", mathPrefersLLVM); ("pli_acos", mathPrefersLLVM);
   ("pli_cbrt", mathPrefersLLVM); ("pli_atan2", mathPrefersLLVM); ("pli_rank", mathPrefersLLVM);
   ("pli_collate", mathPrefersLLVM); ("pli_isochar", mathPrefersLLVM)]%string.

Definition builtinPredicate (op : text) : option (CallSite -> bool) :=
  lookup_op op predicateTable.

Definition decideInline (op : text) (site : CallSite) : InlineDecision :=
  if negb (hasLLVMLowering op) then
    mkDecision Library (txt "no inline expansion for this operation")
  else if constantArg site && negb (text_eqb op (txt "picture")) then
    mkDecision ConstantTable
      (txt "a constant " ++ default (txt "argument") (what site) ++
       txt " becomes a compile-time table")
  else
    match builtinPredicate op with
    | Some pred =>
        if pred site then mkDecision LLVM (txt "the per-call-site predicate chooses inline")
        else mkDecision Library (txt "the per-call-site predicate chooses the library call")
    | None =>
        if prefersLLVMLowering op then
          mkDecision LLVM (txt "the inline expansion is the default for this operation")
        else mkDecision Library (txt "the library call is the default for this operation")
    end.

(** ** The declared-precision range fact *)
Record RangeSite := mkRangeSite {
  storageBits : Z; precisionChecked : bool; privateStorage : bool; unionMember : bool }.
Record RangeFact := mkRange { emit : bool; lo : Z; hi : Z }.

Definition fixedBinRangeFact (prec : Z) (site : RangeSite) : RangeFact :=
  if (prec <=? 0) || (storageBits site =? 0) || (i32 (storageBits site) - 1 <=? prec) then
    mkRange false 0 0
  else if negb (precisionChecked site) || negb (privateStorage site) || unionMember site then
    mkRange false 0 0
  else
    let lim := i64 (Z.shiftl 1 prec) in
    mkRange true (- lim) lim.

(** ** The inline policy has no dead ends *)
Lemma lookup_op_Some {A} (op : text) (l : list (text * A)) :
  is_Some (lookup_op op l) <-> op ∈ fst <$> l.
Proof.
  induction l as [|[k v] l IH]; cbn.
  - split; [by intros []|set_solver].
  - unfold lookup_op in *. cbn. unfold text_eqb. case_bool_decide as E; cbn.
    + subst. split; [set_solver|by eexists].
    + rewrite IH. set_solver.
Qed.

(** Every operation with a lowering has a call-site rule that answers yes or a
    default that prefers the lowering. *)
Lemma lowering_chosen op site :
  op ∈ llvmLoweringOps ->
  match builtinPredicate op with Some pred => pred site | None => prefersLLVMLowering op end = true.
Proof.
  intros Hop. revert op Hop. apply Forall_forall.
  repeat constructor.
Qed.

(** the call-site decision is the library call exactly for the operations
    without an expansion; an operation with one takes the constant table when
    an argument is a constant (a picture aside) and the expansion otherwise.
    The "library call" answers of the predicates and of the default table are
    never given: each operation with a lowering has a predicate or a default
    that chooses it, and no predicate or default names an operation without
    one. *)
Theorem inline_decision (op : text) (site : CallSite) :
  decided (decideInline op site) =
    (if hasLLVMLowering op then
       if constantArg site && negb (text_eqb op (txt "picture")) then ConstantTable else LLVM
     else Library) /\
  (is_Some (builtinPredicate op) \/ prefersLLVMLowering op = true -> hasLLVMLowering op = true).
Proof.
  split.
  - unfold decideInline. destruct (hasLLVMLowering op) eqn:E; cbn [negb]; [|done].
    apply bool_decide_eq_true in E. pose proof (lowering_chosen op site E) as H.
    destruct (constantArg site && _); [done|].
    destruct (builtinPredicate op) as [pred|]; by rewrite H.
  - intros H. apply bool_decide_eq_true.
    assert (op ∈ fst <$> predicateTable \/ op ∈ fst <$> runtimeDefaultTable) as [Hp|Hp].
    { destruct H as [H|H]; [left; by apply lookup_op_Some|right].
      apply lookup_op_Some. unfold prefersLLVMLowering in H.
      destruct (lookup_op op runtimeDefaultTable); [by eexists|done]. }
    + revert op Hp H. assert (Forall (fun o => o ∈ llvmLoweringOps) (fst <$> predicateTable)) as HF
        by by_dec. intros op Hp _. by rewrite Forall_forall in HF; apply HF.
    + revert op Hp H. assert (Forall (fun o => o ∈ llvmLoweringOps) (fst <$> runtimeDefaultTable)) as HF
        by by_dec. intros op Hp _. by rewrite Forall_forall in HF; apply HF.
Qed.

(** ** The range fact is a true promise *)

(** a range fact, when one is emitted, is what the precision check
    enforces: the half-open interval holds exactly the values of a FIXED
    BINARY(p) item, it lies strictly inside the storage type (so it says
    something), and no bound wraps; and it is emitted for every checked
    private item outside a union whose precision leaves the type a spare bit. *)
Theorem range_fact_honest (prec : Z) (site : RangeSite) :
  0 < storageBits site <= 64 ->
  let f := fixedBinRangeFact prec site in
  (emit f = true <->
     0 < prec < storageBits site - 1 /\ precisionChecked site = true /\
     privateStorage site = true /\ unionMember site = false) /\
  (emit f = true ->
     (forall v, lo f <= v < hi f <-> - 2 ^ prec <= v <= 2 ^ prec - 1) /\
     (forall v, lo f <= v < hi f -> srange (storageBits site - 1) v) /\
     srange 64 (lo f) /\ srange 64 (hi f)).
Proof.
  intros Hs. cbv zeta. unfold fixedBinRangeFact.
  rewrite (swrap_small 32 (storageBits site)) by (unfold srange; lia).
  destruct (Z.leb_spec prec 0) as [?|Hp]; cbn [orb].
  { cbn. split; [|done]. split; [done|lia]. }
  destruct (Z.eqb_spec (storageBits site) 0) as [?|_]; [lia|]; cbn [orb].
  destruct (Z.leb_spec (storageBits site - 1) prec) as [?|Hq]; cbn [orb].
  { cbn. split; [|done]. split; [done|lia]. }
  destruct (precisionChecked site), (privateStorage site), (unionMember site); cbn [negb orb];
    try (cbn; split; [naive_solver|done]).
  assert (2 ^ prec <= 2 ^ 62) by (apply Z.pow_le_mono_r; lia).
  assert (0 < 2 ^ prec) by lia.
  assert (2 ^ prec <= 2 ^ (storageBits site - 2)) by (apply Z.pow_le_mono_r; lia).
  rewrite Z.shiftl_1_l, swrap_small by (unfold srange; lia). cbn [emit lo hi].
  split; [split; [intros _|done]; lia|]. intros _. unfold srange.
  replace (storageBits site - 1 - 1) with (storageBits site - 2) by lia.
  split; [lia|]. split; [lia|]. lia.
Qed.

Lemma range_fact_honest_witness :
  let site := mkRangeSite 32 true true false in
  0 < storageBits site <= 64 /\ emit (fixedBinRangeFact 7 site) = true /\
  srange 64 (lo (fixedBinRangeFact 7 site)).
Proof.
  split; [cbn; lia|]. pose proof (range_fact_honest 7 (mkRangeSite 32 true true false)) as H.
  cbv zeta in H. destruct H as [[_ H1] H2]; [cbn; lia|].
  split; [apply H1; cbn; lia|]. apply H2, H1. cbn. lia.
Defined.

Lemma inline_decision_witness :
  decided (decideInline (txt "verify") (mkSite true (Some (txt "alphabet")))) = ConstantTable /\
  decided (decideInline (txt "picture") (mkSite true None)) = LLVM /\
  hasLLVMLowering (txt "trim") = true.
Proof.
  split; [apply (inline_decision (txt "verify"))|].
  split; [apply (inline_decision (txt "picture"))|].
  apply (inline_decision (txt "trim") (mkSite false None)). right. vm_compute. reflexivity.
Defined.
