(* ===== verification/Peephole.v ===== *)
(** * The decision layer: constant tables and store plans

    irgen_decisions.cpp: the folds that replace a run-time scan by a table
    ([foldRepeatText], [searchTableBytes], [translateTableBytes]), the
    constant-offset store plan of a concatenation ([planConcatStore]) and the
    merged masked test ([mergeBitTests]); each against the operation it
    replaces. *)
From S2P Require Import Prelude.

Definition byte_index (c : char) : nat := Z.to_nat (code c).

(** ** Folds *)
Fixpoint append_n (n : nat) (src acc : text) : text :=
  match n with O => acc | S n' => append_n n' src (acc ++ src) end.

(** [(long long)src.size() * count] is evaluated only for [count <= 2^20]. *)
Definition foldRepeatText (src : text) (count : Z) : text :=
  match src with
  | [] => []
  | _ =>
      if count <=? 0 then []
      else if (Z.shiftl 1 20 <? count) || (Z.shiftl 1 20 <? Z.of_nat (length src) * count) then []
      else append_n (Z.to_nat count) src []
  end.

Definition searchTableBytes (alphabet : text) : text :=
  fold_left (fun bytes c => <[byte_index c := char_of 1]> bytes) alphabet (replicate 256 NUL).

(** The loop's state: the table, the [mapped] flags and the index [j]. *)
Definition translateStep (out : text) (st : text * list bool * nat) (c : char)
  : text * list bool * nat :=
  let '(bytes, mapped, j) := st in
  if default false (mapped !! byte_index c) then (bytes, mapped, S j)
  else (<[byte_index c := if (j <? length out)%nat then at_ out j else " "%char]> bytes,
        <[byte_index c := true]> mapped, S j).

Definition translateTableBytes (out inp : text) : text :=
  let bytes := (fun c => char_of (Z.of_nat c)) <$> seq 0 256 in
  let '(bytes, _, _) := fold_left (translateStep out) inp (bytes, replicate 256 false, 0%nat) in
  bytes.

(** The run-time scan the translation table replaces. *)
Definition translate_scan (out inp : text) (c : char) : char :=
  match list_find (c =.) inp with
  | Some (j, _) => default " "%char (out !! j)
  | None => c
  end.

(** ** The concatenation store plan *)
Record ConcatStorePlan := mkPlan { plan_ok : bool; sizes : list Z; used : Z; pad : Z }.

Fixpoint plan_loop (cap : Z) (leafLen : list Z) (sizes : list Z) (used : Z) : list Z * Z :=
  match leafLen with
  | [] => (sizes, used)
  | l :: ls =>
      let room := cap - used in
      let take := if l <? room then l else room in
      plan_loop cap ls (sizes ++ [take]) (used + take)
  end.

Definition planConcatStore (leafLen : list Z) (cap : Z) : ConcatStorePlan :=
  if cap <=? 0 then mkPlan false [] 0 0
  else if existsb (fun l => l <? 0) leafLen then mkPlan false [] 0 0
  else
    let '(sizes, used) := plan_loop cap leafLen [] 0 in
    mkPlan true sizes used (cap - used).

(** Executing a plan: copy the planned prefix of each leaf, then blanks. *)
Definition run_plan (leaves : list text) (p : ConcatStorePlan) : text :=
  mjoin (zip_with (fun s n => take (Z.to_nat n) s) leaves (sizes p)) ++
  replicate (Z.to_nat (pad p)) " "%char.

(** The assignment it replaces: the leftmost [cap] characters of the
    concatenation, blank-padded. *)
Definition assign_fixed (s : text) (cap : Z) : text :=
  let n := Z.to_nat cap in take n (s ++ replicate n " "%char).

(** ** Merged bit tests *)
Record BitTestMerge := mkMerge { merge_ok : bool; mask : text; want : text }.

Definition is_one (c : char) : bool := ceqb c "1"%char.
Definition bit_char (b : bool) : char := if b then "1"%char else "0"%char.

(** The loop; [None] is one of the early returns. *)
Fixpoint merge_loop (mask1 want1 mask2 want2 : text) : option (text * text) :=
  match mask1, want1, mask2, want2 with
  | c1 :: mask1', d1 :: want1', c2 :: mask2', d2 :: want2' =>
      let m1 := is_one c1 in let m2 := is_one c2 in
      let w1 := is_one d1 in let w2 := is_one d2 in
      if m1 && m2 then None
      else if (w1 && negb m1) || (w2 && negb m2) then None
      else
        match merge_loop mask1' want1' mask2' want2' with
        | Some (m, w) => Some (bit_char (m1 || m2) :: m, bit_char (w1 || w2) :: w)
        | None => None
        end
  | _, _, _, _ => Some ([], [])
  end.

Definition mergeBitTests (mask1 want1 mask2 want2 : text) : BitTestMerge :=
  if negb (length mask1 =? length mask2)%nat || negb (length mask1 =? length want1)%nat ||
     negb (length mask1 =? length want2)%nat
  then mkMerge false [] []
  else
    match merge_loop mask1 want1 mask2 want2 with
    | Some (m, w) => mkMerge true m w
    | None => mkMerge false [] []
    end.

(** A masked test [(x & m) = w] on bit strings. *)
Definition bit_test (x m w : text) : Prop :=
  Forall2 (fun xm c => is_one (fst xm) && is_one (snd xm) = is_one c) (zip x m) w.

(** ** Byte-indexed tables *)
Lemma byte_index_lt c : (byte_index c < 256)%nat.
Proof. unfold byte_index. pose proof (code_range c). lia. Qed.

Lemma byte_index_inj c d : byte_index c = byte_index d -> c = d.
Proof.
  unfold byte_index. pose proof (code_range c). pose proof (code_range d).
  intros E. apply code_inj. lia.
Qed.

Lemma lookup_byte_insert {A} (t : list A) c d (x : A) :
  length t = 256%nat ->
  <[byte_index d := x]> t !! byte_index c = if bool_decide (c = d) then Some x else t !! byte_index c.
Proof.
  intros Hl. case_bool_decide as E.
  - subst. apply list_lookup_insert_eq. rewrite Hl. apply byte_index_lt.
  - apply list_lookup_insert_ne. intros H. by apply E, byte_index_inj.
Qed.

Lemma search_table_from alphabet t c :
  length t = 256%nat ->
  let t' := fold_left (fun bytes c => <[byte_index c := char_of 1]> bytes) alphabet t in
  length t' = 256%nat /\
  t' !! byte_index c = if bool_decide (c ∈ alphabet) then Some (char_of 1) else t !! byte_index c.
Proof.
  revert t. induction alphabet as [|d al IH]; intros t Hl; cbn [fold_left].
  - split; [done|]. by rewrite bool_decide_false by set_solver.
  - destruct (IH (<[byte_index d := char_of 1]> t)) as [H1 H2]; [by rewrite length_insert|].
    split; [done|]. rewrite H2, lookup_byte_insert by done.
    destruct (decide (c = d)) as [->|]; [rewrite (bool_decide_true (d ∈ d :: al)) by set_solver|].
    + rewrite (bool_decide_true (d = d)) by done. by case_bool_decide.
    + rewrite (bool_decide_false (c = d)) by done.
      rewrite (bool_decide_ext (c ∈ d :: al) (c ∈ al)); [done|]. set_solver.
Qed.

Lemma identity_table c :
  ((fun c => char_of (Z.of_nat c)) <$> seq 0 256) !! byte_index c = Some c.
Proof.
  rewrite list_lookup_fmap, lookup_seq_lt by apply byte_index_lt. cbn. f_equal.
  unfold byte_index. rewrite Z2Nat.id by apply code_range. apply char_of_code.
Qed.

(** What the translation loop has built after the prefix [pre] of [in]. *)
Definition translated (out pre : text) (st : text * list bool * nat) : Prop :=
  let '(bytes, mapped, j) := st in
  length bytes = 256%nat /\ length mapped = 256%nat /\ j = length pre /\
  forall c, mapped !! byte_index c = Some (bool_decide (c ∈ pre)) /\
            bytes !! byte_index c = Some (translate_scan out pre c).

Lemma translate_scan_snoc out pre c d :
  translate_scan out (pre ++ [d]) c =
  if bool_decide (c ∈ pre) then translate_scan out pre c
  else if bool_decide (c = d) then default " "%char (out !! length pre) else c.
Proof.
  unfold translate_scan. case_bool_decide as Hc.
  - destruct (list_find_elem_of (c =.) pre c Hc eq_refl) as [[j x] E].
    by rewrite (list_find_app_l _ _ _ _ _ E), E.
  - rewrite list_find_app_r.
    + cbn. case_decide as E.
      * rewrite bool_decide_true by done. done.
      * by rewrite bool_decide_false.
    + apply list_find_None, Forall_forall. intros x Hx ->. done.
Qed.

Lemma translate_step_ok out pre st d :
  translated out pre st -> translated out (pre ++ [d]) (translateStep out st d).
Proof.
  destruct st as [[bytes mapped] j]. intros (Hb & Hm & -> & Hc). unfold translateStep.
  rewrite (proj1 (Hc d)). cbn [default]. case_bool_decide as Hd; cbn [translated].
  - split; [done|]. split; [done|]. split; [rewrite length_app; cbn; lia|]. intros c.
    destruct (Hc c) as [-> ->]. rewrite translate_scan_snoc. split.
    + f_equal. apply bool_decide_ext. set_solver.
    + f_equal. case_bool_decide; [done|]. rewrite bool_decide_false by set_solver.
      unfold translate_scan. rewrite (proj2 (list_find_None _ _)); [done|].
      apply Forall_forall. intros x Hx ->. done.
  - split; [by rewrite length_insert|]. split; [by rewrite length_insert|].
    split; [rewrite length_app; cbn; lia|]. intros c.
    rewrite !lookup_byte_insert by done. destruct (Hc c) as [-> ->].
    rewrite translate_scan_snoc. split.
    + case_bool_decide; f_equal; [subst; by rewrite bool_decide_true by set_solver|].
      apply bool_decide_ext. set_solver.
    + destruct (decide (c = d)) as [->|Hcd].
      * rewrite !(bool_decide_true (d = d)), (bool_decide_false (d ∈ pre)) by done. f_equal.
        destruct (Nat.ltb_spec (length pre) (length out)) as [Hl|Hl].
        -- unfold at_. by destruct (lookup_lt_is_Some_2 out (length pre) Hl) as [x ->].
        -- by rewrite lookup_ge_None_2.
      * rewrite !(bool_decide_false (c = d)) by done. f_equal.
        case_bool_decide; [done|]. unfold translate_scan.
        rewrite (proj2 (list_find_None _ _)); [done|].
        apply Forall_forall. intros x Hx ->. done.
Qed.

Lemma translate_table_from out inp pre st :
  translated out pre st -> translated out (pre ++ inp) (fold_left (translateStep out) inp st).
Proof.
  revert pre st. induction inp as [|d inp IH]; intros pre st Hst; cbn [fold_left].
  - by rewrite app_nil_r.
  - replace (pre ++ d :: inp) with ((pre ++ [d]) ++ inp) by by rewrite <- app_assoc.
    by apply IH, translate_step_ok.
Qed.

(** the constant tables agree with the scans they replace, on every byte:
    the membership table of an alphabet has 256 entries and holds 1 exactly at
    the characters of the alphabet, and the translation table of [out]/[in]
    maps each byte to what the scan answers — the character of [out] at the
    first occurrence in [in], a blank past the end of [out], the byte itself
    when it does not occur. *)
Theorem tables_are_scans (alphabet out inp : text) :
  length (searchTableBytes alphabet) = 256%nat /\
  length (translateTableBytes out inp) = 256%nat /\
  forall c,
    searchTableBytes alphabet !! byte_index c =
      Some (char_of (if bool_decide (c ∈ alphabet) then 1 else 0)) /\
    translateTableBytes out inp !! byte_index c = Some (translate_scan out inp c).
Proof.
  assert (length (replicate 256 NUL) = 256%nat) as H256 by done.
  pose proof (translate_table_from out inp []
    ((fun c => char_of (Z.of_nat c)) <$> seq 0 256, replicate 256 false, 0%nat)) as Ht.
  unfold translateTableBytes. destruct (fold_left _ inp _) as [[bytes mapped] j].
  destruct Ht as (H1 & H2 & H3 & H4).
  { split; [by rewrite length_fmap, length_seq|]. split; [done|]. split; [done|].
    intros c. split; [by rewrite lookup_replicate_2 by apply byte_index_lt|].
    apply identity_table. }
  split; [apply (search_table_from alphabet _ NUL H256)|]. split; [done|].
  intros c. split; [|apply H4].
  destruct (search_table_from alphabet _ c H256) as [_ E]. etransitivity; [exact E|].
  case_bool_decide; [done|]. by rewrite lookup_replicate_2 by apply byte_index_lt.
Qed.

(** ** Repetition *)
Lemma append_n_concat n src acc : append_n n src acc = acc ++ mjoin (replicate n src).
Proof.
  revert acc. induction n as [|n IH]; intros acc; cbn; [by rewrite app_nil_r|].
  by rewrite IH, app_assoc.
Qed.

(** ** The store plan *)
Lemma plan_loop_copies cap (leaves : list text) acc used :
  0 <= used <= cap ->
  let '(sizes, used') := plan_loop cap ((fun s => Z.of_nat (length s)) <$> leaves) acc used in
  exists tl,
    sizes = acc ++ tl /\ length tl = length leaves /\
    Forall2 (fun n s => 0 <= n <= Z.of_nat (length s)) tl leaves /\
    used <= used' <= cap /\
    mjoin (zip_with (fun s n => take (Z.to_nat n) s) leaves tl) =
      take (Z.to_nat (cap - used)) (mjoin leaves) /\
    used' - used = Z.min (cap - used) (Z.of_nat (length (mjoin leaves))).
Proof.
  revert acc used. induction leaves as [|s ls IH]; intros acc used Hu; cbn [fmap list_fmap plan_loop].
  - exists []. rewrite app_nil_r. cbn. rewrite take_nil. repeat split; try lia. constructor.
  - set (n := if Z.of_nat (length s) <? cap - used then Z.of_nat (length s) else cap - used).
    assert (n = Z.min (Z.of_nat (length s)) (cap - used)) as En.
    { unfold n. destruct (Z.ltb_spec (Z.of_nat (length s)) (cap - used)); lia. }
    clearbody n. specialize (IH (acc ++ [n]) (used + n) ltac:(lia)).
    destruct (plan_loop _ _ _ _) as [sz u]. destruct IH as (tl & -> & Hl & Hf & Hr & Hc & Hn).
    change (mjoin (s :: ls)) with (s ++ mjoin ls).
    exists (n :: tl). rewrite <- app_assoc. cbn [app length].
    change (mjoin (zip_with (fun s n => take (Z.to_nat n) s) (s :: ls) (n :: tl)))
      with (take (Z.to_nat n) s ++ mjoin (zip_with (fun s n => take (Z.to_nat n) s) ls tl)).
    split; [done|]. split; [by rewrite Hl|]. split; [constructor; [lia|done]|].
    split; [lia|]. rewrite length_app. split; [|lia].
    rewrite take_app, Hc. f_equal.
    + destruct (Z.le_gt_cases (Z.of_nat (length s)) (cap - used)); [by rewrite !take_ge by lia|].
      f_equal. lia.
    + f_equal. lia.
Qed.

Lemma take_pad n (s : text) :
  take n (s ++ replicate n " "%char) = take n s ++ replicate (n - length s) " "%char.
Proof.
  rewrite take_app, take_replicate. repeat f_equal. lia.
Qed.

Lemma no_negative_length (leaves : list text) :
  existsb (fun l => l <? 0) ((fun s => Z.of_nat (length s)) <$> leaves) = false.
Proof.
  induction leaves as [|s ls IH]; [done|].
  cbn [fmap list_fmap existsb]. apply orb_false_iff. split; [|exact IH].
  destruct (Z.ltb_spec (Z.of_nat (length s)) 0); [lia|done].
Qed.

(** a constant repetition within the bound folds to exactly the repeated
    text, and a concatenation store plan, whenever one exists (a positive
    capacity), reproduces the assignment it replaces: copying the planned
    prefix of each leaf and then the planned blanks gives the leftmost [cap]
    characters of the concatenation blank-padded to [cap]; each prefix lies
    inside its leaf and the bytes and blanks add up to the capacity. *)
Theorem constant_stores_exact (src : text) (count : Z) (leaves : list text) (cap : Z) :
  let p := planConcatStore ((fun s => Z.of_nat (length s)) <$> leaves) cap in
  (foldRepeatText src count =
     if bool_decide (0 < count /\ Z.of_nat (length src) * count <= 2 ^ 20)
     then mjoin (replicate (Z.to_nat count) src) else []) /\
  (plan_ok p = true <-> 0 < cap) /\
  (0 < cap ->
     run_plan leaves p = assign_fixed (mjoin leaves) cap /\
     Forall2 (fun n s => 0 <= n <= Z.of_nat (length s)) (sizes p) leaves /\
     0 <= pad p /\ used p + pad p = cap /\
     used p = Z.min cap (Z.of_nat (length (mjoin leaves)))).
Proof.
  cbv zeta. split; [|split].
  - unfold foldRepeatText. destruct src as [|c src]; [by case_bool_decide; induction (Z.to_nat count)|].
    change (Z.shiftl 1 20) with (2 ^ 20).
    destruct (Z.leb_spec count 0); [by rewrite bool_decide_false by lia|].
    destruct (Z.ltb_spec (2 ^ 20) count); cbn [orb].
    { rewrite bool_decide_false; [done|]. cbn [length]. intros [_ Hle]. nia. }
    destruct (Z.ltb_spec (2 ^ 20) (Z.of_nat (length (c :: src)) * count)).
    + by rewrite bool_decide_false by lia.
    + rewrite bool_decide_true by lia. apply append_n_concat.
  - unfold planConcatStore. destruct (Z.leb_spec cap 0); [cbn; split; [done|lia]|].
    rewrite no_negative_length. destruct (plan_loop _ _ _ _). cbn. split; [lia|done].
  - intros Hc. unfold planConcatStore. destruct (Z.leb_spec cap 0); [lia|].
    rewrite no_negative_length.
    pose proof (plan_loop_copies cap leaves [] 0 ltac:(lia)) as Hp.
    destruct (plan_loop _ _ _ _) as [sz u]. destruct Hp as (tl & -> & Hl & Hf & Hu & Hm & Hn).
    cbn [app plan_ok sizes used pad]. split; [|split; [done|lia]].
    unfold run_plan, assign_fixed. cbn [sizes pad]. rewrite Hm, Z.sub_0_r, take_pad.
    do 2 f_equal. lia.
Qed.

(** *** Merged tests *)
Lemma bit_test_nil : bit_test [] [] [].
Proof. constructor. Qed.

Lemma bit_test_cons a m w x ms ws :
  bit_test (a :: x) (m :: ms) (w :: ws) <->
  is_one a && is_one m = is_one w /\ bit_test x ms ws.
Proof. unfold bit_test. cbn [zip_with]. by rewrite Forall2_cons. Qed.

Lemma is_one_bit b : is_one (bit_char b) = b.
Proof. by destruct b. Qed.

Lemma merge_loop_spec mask1 want1 mask2 want2 x m w :
  length want1 = length mask1 -> length mask2 = length mask1 -> length want2 = length mask1 ->
  length x = length mask1 -> merge_loop mask1 want1 mask2 want2 = Some (m, w) ->
  length m = length mask1 /\ length w = length mask1 /\
  (bit_test x mask1 want1 /\ bit_test x mask2 want2 <-> bit_test x m w).
Proof.
  revert want1 mask2 want2 x m w.
  induction mask1 as [|m1 mask1 IH]; intros [|w1 want1] [|m2 mask2] [|w2 want2] [|a x] m w;
    cbn [length]; intros; try lia.
  - cbn in *. simplify_eq. split; [done|]. split; [done|]. pose proof bit_test_nil. tauto.
  - cbn [merge_loop] in *. destruct (is_one m1) eqn:E1, (is_one m2) eqn:E2,
      (is_one w1) eqn:F1, (is_one w2) eqn:F2; cbn [andb orb negb] in *; try done;
      (destruct (merge_loop mask1 want1 mask2 want2) as [[m' w']|] eqn:E; [|done]);
      simplify_eq;
      (destruct (IH want1 mask2 want2 x m' w') as (H1' & H2' & H3'); [lia..|done|]);
      (split; [cbn; lia|]); (split; [cbn; lia|]);
      rewrite !bit_test_cons, !is_one_bit, <- H3', ?E1, ?E2, ?F1, ?F2;
      destruct (is_one a); cbn; tauto.
Qed.

(** The loop gives up exactly where one test decides a bit of the other, or a
    test can never hold. *)
Lemma merge_loop_None mask1 want1 mask2 want2 :
  length want1 = length mask1 -> length mask2 = length mask1 -> length want2 = length mask1 ->
  merge_loop mask1 want1 mask2 want2 = None ->
  exists i m1 w1 m2 w2,
    mask1 !! i = Some m1 /\ want1 !! i = Some w1 /\ mask2 !! i = Some m2 /\ want2 !! i = Some w2 /\
    (is_one m1 = true /\ is_one m2 = true \/ is_one w1 = true /\ is_one m1 = false \/
     is_one w2 = true /\ is_one m2 = false).
Proof.
  revert want1 mask2 want2.
  induction mask1 as [|m1 mask1 IH]; intros [|w1 want1] [|m2 mask2] [|w2 want2];
    cbn [length]; intros Hl1 Hl2 Hl3; try lia; cbn [merge_loop]; [done|].
  intros H. destruct (merge_loop mask1 want1 mask2 want2) as [[m' w']|] eqn:E.
  - exists 0%nat, m1, w1, m2, w2. do 4 (split; [done|]).
    destruct (is_one m1), (is_one m2), (is_one w1), (is_one w2); cbn in H; try done; tauto.
  - destruct (IH want1 mask2 want2) as (i & H'); [lia..|done|]. exists (S i). exact H'.
Qed.

Lemma merge_loop_independent mask1 want1 mask2 want2 r :
  length want1 = length mask1 -> length mask2 = length mask1 -> length want2 = length mask1 ->
  merge_loop mask1 want1 mask2 want2 = Some r ->
  forall i, let b (s : text) := is_one (default "0"%char (s !! i)) in
    b mask1 && b mask2 = false /\ (b want1 = true -> b mask1 = true) /\
    (b want2 = true -> b mask2 = true).
Proof.
  revert want1 mask2 want2 r.
  induction mask1 as [|m1 mask1 IH]; intros [|w1 want1] [|m2 mask2] [|w2 want2] r;
    cbn [length]; intros Hl1 Hl2 Hl3; try lia; intros H i; [done|].
  cbn [merge_loop] in H.
  destruct (is_one m1 && is_one m2) eqn:E1; [done|].
  destruct (is_one w1 && negb (is_one m1) || is_one w2 && negb (is_one m2)) eqn:E2; [done|].
  destruct (merge_loop mask1 want1 mask2 want2) as [r'|] eqn:E; [|done].
  destruct i as [|i]; [|cbn; eapply IH; eauto; lia]. cbn.
  destruct (is_one m1), (is_one m2), (is_one w1), (is_one w2); cbn in *; naive_solver.
Qed.

(** Two bit tests on one value are merged only when the merged test is
    equivalent to their conjunction, for every value of the operand's length;
    and they are merged whenever the strings have one length, the masks are
    disjoint and each expectation lies inside its mask. *)
Theorem merged_test_equivalent (mask1 want1 mask2 want2 : text) :
  let r := mergeBitTests mask1 want1 mask2 want2 in
  (merge_ok r = true -> forall x, length x = length mask1 ->
     (bit_test x mask1 want1 /\ bit_test x mask2 want2 <-> bit_test x (mask r) (want r))) /\
  (merge_ok r = true <->
     length mask2 = length mask1 /\ length want1 = length mask1 /\ length want2 = length mask1 /\
     forall i, let b (s : text) := is_one (default "0"%char (s !! i)) in
       b mask1 && b mask2 = false /\ (b want1 = true -> b mask1 = true) /\
       (b want2 = true -> b mask2 = true)).
Proof.
  cbv zeta. unfold mergeBitTests.
  destruct (Nat.eqb_spec (length mask1) (length mask2)) as [L2|]; [|by cbn; intuition congruence].
  destruct (Nat.eqb_spec (length mask1) (length want1)) as [L1|]; [|by cbn; intuition congruence].
  destruct (Nat.eqb_spec (length mask1) (length want2)) as [L3|]; [|by cbn; intuition congruence].
  cbn [negb orb]. destruct (merge_loop mask1 want1 mask2 want2) as [[m w]|] eqn:E; cbn [merge_ok mask want].
  - split.
    + intros _ x Hx. eapply merge_loop_spec; eauto.
    + split; [intros _|done]. do 3 (split; [done|]). eapply merge_loop_independent; eauto.
  - split; [done|]. split; [done|]. intros (_ & _ & _ & H). exfalso.
    destruct (merge_loop_None mask1 want1 mask2 want2) as (i & m1 & w1 & m2 & w2 & E1 & E2 & E3 & E4 & Hi);
      [done..|]. specialize (H i). cbv zeta in H. rewrite E1, E2, E3, E4 in H.
    cbn [from_option] in H. unfold id in H. destruct (is_one m1), (is_one m2), (is_one w1), (is_one w2);
      cbn [andb] in H; intuition congruence.
Qed.

Lemma constant_stores_exact_witness :
  foldRepeatText (txt "ab") 3 = txt "ababab" /\
  run_plan [txt "abc"; txt "de"] (planConcatStore [3; 2] 4) = txt "abcd" /\
  run_plan [txt "abc"; txt "de"] (planConcatStore [3; 2] 7) = txt "abcde  ".
Proof.
  split; [exact (proj1 (constant_stores_exact (txt "ab") 3 [] 1))|].
  split.
  - exact (proj1 (proj2 (proj2 (constant_stores_exact [] 0 [txt "abc"; txt "de"] 4)) eq_refl)).
  - exact (proj1 (proj2 (proj2 (constant_stores_exact [] 0 [txt "abc"; txt "de"] 7)) eq_refl)).
Defined.

Lemma merged_test_equivalent_witness :
  (bit_test (txt "1011") (txt "1000") (txt "1000") /\ bit_test (txt "1011") (txt "0110") (txt "0010")
   <-> bit_test (txt "1011") (txt "1110") (txt "1010")) /\
  merge_ok (mergeBitTests (txt "10") (txt "01") (txt "01") (txt "01")) = false.
Proof.
  split.
  - refine (proj1 (merged_test_equivalent (txt "1000") (txt "1000") (txt "0110") (txt "0010"))
              _ (txt "1011") _); vm_compute; reflexivity.
  - vm_compute. reflexivity.
Defined.
