(* ===== verification/RtStringThms.v ===== *)
(** * Run-time strings against lists of characters

    What each routine of [RtString] leaves in memory, as the list operation the
    language defines; and that the decision layer's constant folds and tables
    ([Peephole]) give what the routines they replace give. *)
From S2P Require Import Prelude Heap Mem RtString Peephole.

(** A value in a field of [n] characters: cut on the right, or blank-padded. *)
Definition field (n : Z) (s : text) : text := resize (Z.to_nat n) blank s.

Lemma field_spec n s : field n s = take (Z.to_nat n) s ++ replicate (Z.to_nat n - length s) blank.
Proof. apply resize_spec. Qed.
Lemma field_len n s : 0 <= n -> len (field n s) = n.
Proof. intros. unfold len, field. rewrite length_resize. lia. Qed.

Lemma field_none n s : n <= 0 -> field n s = [].
Proof. intros H. rewrite field_spec. by replace (Z.to_nat n) with 0%nat by lia. Qed.
Lemma field_field c f n : len c <= f <= n -> field n (field f c) = field n c.
Proof.
  intros H. unfold len in H. rewrite !field_spec, !take_ge; [|lia|lia|rewrite length_app, length_replicate, ?length_take; lia].
  rewrite <- app_assoc, <- replicate_add, length_app, length_replicate. do 2 f_equal. lia.
Qed.
Lemma write_field d n k s m : 0 <= n -> n = Z.min k (len s) -> 0 <= k ->
  write (d + n) (replicate (Z.to_nat (k - n)) blank) (write d (take (Z.to_nat n) s) m) = write d (field k s) m.
Proof.
  intros Hn -> Hk. rewrite field_spec. unfold len in *.
  replace (take (Z.to_nat k) s) with (take (Z.to_nat (Z.min k (Z.of_nat (length s)))) s).
  2: { destruct (Z.min_spec k (Z.of_nat (length s))) as [[? ->]|[? ->]]; [done|]. rewrite !take_ge by lia. done. }
  rewrite write_app. f_equal; [|f_equal; lia]. unfold len. rewrite length_take. lia.
Qed.

(** The move and the blank fill that assignments end with. *)
Lemma move_fill_ok d src n cap s m : reads m src s -> 0 <= cap -> n = Z.min cap (len s) -> mapped m d cap ->
  ((if 0 <? n then pli_memmove d src n else retR tt) ;!
   if n <? cap then pli_memset (d + n) blank (cap - n) else retR tt) m = Done tt (write d (field cap s) m).
Proof.
  intros Hr Hc Hn Hm. assert (0 <= n <= cap /\ n <= len s) as (Hn0 & Hns) by (unfold len in *; lia).
  assert (len (take (Z.to_nat n) s) = n) as Hlt by (unfold len in *; rewrite length_take; lia).
  rewrite <- (write_field d n cap s m) by (done || lia). unfold bindR.
  assert ((if 0 <? n then pli_memmove d src n else retR tt) m = Done tt (write d (take (Z.to_nat n) s) m)) as ->.
  { destruct (Z.ltb_spec 0 n) as [Hp|Hp].
    - apply memmove_ok; [by apply reads_take|done|]. eapply mapped_sub; [exact Hm|lia|lia].
    - replace n with 0 by lia. done. }
  destruct (Z.ltb_spec n cap) as [Hlt'|Hge].
  - apply memset_ok, mapped_write. eapply mapped_sub; [exact Hm|lia|lia].
  - replace (Z.to_nat (cap - n)) with 0%nat by lia. done.
Qed.

(** ** Loops that store a list *)
Lemma upto_store (I : nat -> mem -> Prop) (body : Z -> R mem unit) (g : Z -> Z) t : forall lo k m,
  I k m -> g lo = g 0 + lo -> (forall i, g i = g 0 + i) ->
  (forall i c m', t !! i = Some c -> I (k + i)%nat m' ->
     body (lo + Z.of_nat i) m' = Done tt (<[g (lo + Z.of_nat i) := c]> m') /\ I (S (k + i)) (<[g (lo + Z.of_nat i) := c]> m')) ->
  upto (length t) lo body m = Done tt (write (g lo) t m).
Proof.
  induction t as [|c t IH]; intros lo k m Hi Hg Hg' Hb; simpl; [done|]. unfold bindR.
  destruct (Hb 0%nat c m eq_refl) as [Hc Hi']; [by rewrite Nat.add_0_r|]. rewrite Z.add_0_r in Hc, Hi'. rewrite Hc.
  replace (g lo + 1) with (g (lo + 1)) by (rewrite (Hg' (lo + 1)), (Hg' lo); lia).
  apply (IH (lo + 1) (S k)); [by rewrite Nat.add_0_r in Hi'|by rewrite Hg'|done|].
  intros i d m' Hd Hk. specialize (Hb (S i) d m' Hd).
  replace (lo + 1 + Z.of_nat i) with (lo + Z.of_nat (S i)) by lia. replace (k + S i)%nat with (S k + i)%nat in Hb by lia.
  by apply Hb.
Qed.

Lemma blank_from_ok dst out cap m : 0 <= out -> mapped m dst cap ->
  blank_from dst out cap m = Done tt (write (dst + out) (replicate (Z.to_nat (cap - out)) blank) m).
Proof.
  intros Ho Hm. unfold blank_from. rewrite <- (length_replicate (Z.to_nat (cap - out)) blank) at 1.
  apply (upto_store (fun _ m' => mapped m' dst cap) _ (fun i => dst + i) _ out 0); [done|lia|intros; lia|].
  intros i c m' [-> Hi]%lookup_replicate Hm'. split; [|by apply mapped_insert].
  apply store_ok, Hm'. lia.
Qed.

(** A loop that reads position [i] of [s] and stores its image at [dst + i], in place or
    downwards or apart. *)
Definition forward (dst src n : Z) : Prop := dst <= src \/ src + n <= dst.
Lemma map_loop_ok f dst src s n cap m : reads m src s -> mapped m dst cap -> n = Z.min cap (len s) -> 0 <= cap ->
  forward dst src (len s) -> forall body,
  (forall i c m', s !! i = Some c -> m' !! (src + Z.of_nat i) = Some c ->
     (forall q, m' !! q = m !! q \/ dst <= q < dst + cap) -> mapped m' dst cap -> Z.of_nat i < cap ->
     body (Z.of_nat i) m' = Done tt (<[dst + Z.of_nat i := f c]> m')) ->
  upto (Z.to_nat n) 0 body m = Done tt (write dst (take (Z.to_nat n) (map f s)) m).
Proof.
  intros Hr Hm Hn Hc Hf body Hb. set (t := take (Z.to_nat n) (map f s)).
  assert (length t = Z.to_nat n) as Hl by (unfold t, len in *; rewrite length_take, length_map; lia).
  rewrite <- Hl. replace dst with (dst + 0) at 1 by lia.
  apply (upto_store (fun k m' => reads m' (src + Z.of_nat k) (drop k s) /\ mapped m' dst cap /\
    (forall q, m' !! q = m !! q \/ dst <= q < dst + cap)) body (fun i => dst + i) t 0 0);
    [|lia|intros; lia|].
  { rewrite Z.add_0_r. split_and!; [done|done|auto]. }
  intros i c m' Hi (Hr' & Hm' & Hq). simpl. apply lookup_lt_Some in Hi as Hil. rewrite Hl in Hil.
  unfold t in Hi. apply lookup_take_Some in Hi as [Hi _]. change (map f s) with (f <$> s) in Hi.
  apply list_lookup_fmap_Some in Hi as (d & -> & Hd). rewrite Z.add_0_l in *. simpl in Hr'.
  assert (Z.of_nat i < cap) as Hic by (unfold len in *; lia).
  assert (m' !! (src + Z.of_nat i) = Some d) as Hd'.
  { rewrite (drop_S _ _ _ Hd) in Hr'. by apply reads_cons in Hr' as [? _]. }
  split; [by apply Hb|]. split_and!.
  - rewrite (drop_S _ _ _ Hd) in Hr'. apply reads_cons in Hr' as [_ Hr'].
    apply (reads_write _ _ _ (dst + Z.of_nat i) [f d]).
    + by replace (src + Z.of_nat (S i)) with (src + Z.of_nat i + 1) by lia.
    + apply lookup_lt_Some in Hd. unfold forward, apart, len in *. rewrite length_drop. simpl. lia.
  - by apply mapped_insert.
  - intros q. destruct (decide (q = dst + Z.of_nat i)) as [->|Hne]; [right; lia|].
    rewrite lookup_insert_ne by done. apply Hq.
Qed.

(** ** Scans *)
(** The index of the first element that satisfies [P], the length when none does. *)
Definition first_index (P : ascii -> bool) (s : text) : nat :=
  match list_find P s with Some (i, _) => i | None => length s end.
(** The 1-based position of the first one from index [k] on, 0 when there is none. *)
Definition first_pos (P : ascii -> bool) (k : nat) (s : text) : Z :=
  match list_find P (drop k s) with Some (i, _) => Z.of_nat (k + i) + 1 | None => 0 end.

Lemma scan_ne_ok c t m : forall T j, reads m (t + j) T ->
  scan_ne (length T) t c j m = Done (j + Z.of_nat (first_index (fun d => ceqb c d) T)) m.
Proof.
  intros T. unfold first_index. induction T as [|d T IH]; intros j Hr; simpl; [by rewrite Z.add_0_r|].
  apply reads_cons in Hr as [Hd Hr]. unfold bindR. rewrite (load_ok _ _ _ Hd).
  destruct (ceqb c d) eqn:E.
  - rewrite decide_True by done. by rewrite Z.add_0_r.
  - rewrite decide_False by auto. rewrite IH by (by rewrite Z.add_assoc).
    f_equal. destruct (list_find _ T) as [[i x]|]; simpl; lia.
Qed.
Lemma scan_ne_at c t T m n : reads m t T -> n = len T ->
  scan_ne (Z.to_nat n) t c 0 m = Done (Z.of_nat (first_index (fun d => ceqb c d) T)) m.
Proof. intros Hr ->. unfold len. rewrite Nat2Z.id. apply (scan_ne_ok c t m T 0). by rewrite Z.add_0_r. Qed.
Lemma first_index_in c T : (first_index (fun d => ceqb c d) T < length T)%nat <-> c ∈ T.
Proof.
  unfold first_index. destruct (list_find _ T) as [[i d]|] eqn:E.
  - apply list_find_Some in E as (Hi & Hd & _). apply Is_true_eq_true, ceqb_true in Hd as <-.
    split; intros; [by eapply list_elem_of_lookup_2|by eapply lookup_lt_Some].
  - apply list_find_None in E. split; [lia|]. intros Hc. rewrite Forall_forall in E. destruct (E c Hc).
    by rewrite ceqb_refl.
Qed.
Lemma first_index_le c T : (first_index (fun d => ceqb c d) T <= length T)%nat.
Proof.
  unfold first_index. destruct (list_find _ T) as [[i d]|] eqn:E; [|done].
  apply list_find_Some in E as (Hi & _). apply lookup_lt_Some in Hi. lia.
Qed.

Definition elem (T : text) (c : ascii) : bool := bool_decide (c ∈ T).

(** The loops of VERIFY and SEARCH, from index [k] of [s]. *)
Lemma verify_loop_ok s t S T m k : reads m s S -> reads m t T ->
  verify_loop (length S - k) s t (len T) (Z.of_nat k) m = Done (first_pos (fun c => negb (elem T c)) k S) m.
Proof.
  intros Hs Ht. remember (length S - k)%nat as n eqn:Hn. revert k Hn. induction n as [|n IH]; intros k Hn; simpl.
  - unfold first_pos. by rewrite drop_ge by lia.
  - destruct (lookup_lt_is_Some_2 S k) as [c Hc]; [lia|]. unfold bindR. rewrite (load_ok _ _ _ (Hs _ _ Hc)).
    rewrite (scan_ne_at c t T m) by done. pose proof (first_index_in c T) as Hin. pose proof (first_index_le c T) as Hle.
    unfold first_pos. rewrite (drop_S _ _ _ Hc). simpl. unfold elem. destruct (Z.eqb_spec (Z.of_nat (first_index (fun d => ceqb c d) T)) (len T)) as [E|E]; unfold len in E.
    + rewrite decide_True; [unfold retR; f_equal; lia|]. rewrite bool_decide_false; [done|]. rewrite <- Hin. lia.
    + rewrite decide_False; [|rewrite bool_decide_true; [auto|apply Hin; lia]].
      replace (Z.of_nat k + 1) with (Z.of_nat (Datatypes.S k)) by lia. rewrite IH by lia.
      unfold first_pos. unfold elem. destruct (list_find _ _) as [[i x]|]; simpl; f_equal; lia.
Qed.
Lemma search_loop_ok s t S T m k : reads m s S -> reads m t T ->
  search_loop (length S - k) s t (len T) (Z.of_nat k) m = Done (first_pos (elem T) k S) m.
Proof.
  intros Hs Ht. remember (length S - k)%nat as n eqn:Hn. revert k Hn. induction n as [|n IH]; intros k Hn; simpl.
  - unfold first_pos. by rewrite drop_ge by lia.
  - destruct (lookup_lt_is_Some_2 S k) as [c Hc]; [lia|]. unfold bindR. rewrite (load_ok _ _ _ (Hs _ _ Hc)).
    rewrite (scan_ne_at c t T m) by done. pose proof (first_index_in c T) as Hin. pose proof (first_index_le c T) as Hle.
    unfold first_pos. rewrite (drop_S _ _ _ Hc). simpl. unfold elem. destruct (Z.ltb_spec (Z.of_nat (first_index (fun d => ceqb c d) T)) (len T)) as [E|E]; unfold len in E.
    + rewrite decide_True; [unfold retR; f_equal; lia|]. rewrite bool_decide_true; [done|]. apply Hin. lia.
    + rewrite decide_False; [|rewrite bool_decide_false; [auto|rewrite <- Hin; lia]].
      replace (Z.of_nat k + 1) with (Z.of_nat (Datatypes.S k)) by lia. rewrite IH by lia.
      unfold first_pos. unfold elem. destruct (list_find _ _) as [[i x]|]; simpl; f_equal; lia.
Qed.

(** The start of the three-argument forms: positions count from 1, and those below are 1. *)
Definition from (start : Z) : nat := Z.to_nat (start - 1).
Lemma search_ok s t S T m start : reads m s S -> reads m t T ->
  pli_search s (len S) t (len T) start m = Done (first_pos (elem T) (from start) S) m.
Proof.
  intros Hs Ht. unfold pli_search, from. rewrite <- (search_loop_ok s t S T m) by done.
  assert ((if start <? 1 then 1 else start) - 1 = Z.of_nat (Z.to_nat (start - 1))) as -> by (destruct (Z.ltb_spec start 1); lia).
  cbv zeta. f_equal. unfold len. lia.
Qed.
Lemma verify_from_ok s t S T m start : reads m s S -> reads m t T ->
  pli_verify_from s (len S) t (len T) start m = Done (first_pos (fun c => negb (elem T c)) (from start) S) m.
Proof.
  intros Hs Ht. unfold pli_verify_from, from. rewrite <- (verify_loop_ok s t S T m) by done.
  assert ((if start <? 1 then 1 else start) - 1 = Z.of_nat (Z.to_nat (start - 1))) as -> by (destruct (Z.ltb_spec start 1); lia).
  cbv zeta. f_equal. unfold len. lia.
Qed.
Lemma verify_ok s t S T m : reads m s S -> reads m t T ->
  pli_verify s (len S) t (len T) m = Done (first_pos (fun c => negb (elem T c)) 0 S) m.
Proof.
  intros Hs Ht. unfold pli_verify. rewrite <- (verify_loop_ok s t S T m) by done.
  f_equal. unfold len. lia.
Qed.

(** The order of character data: the first difference decides, by code. *)
Fixpoint lex (a b : text) : Z :=
  match a, b with
  | c :: a, d :: b => if ceqb c d then lex a b else if code c <? code d then -1 else 1
  | _, _ => 0
  end.
Definition longer (a b : text) : Z := Z.max (len a) (len b).

Lemma field_lookup n s i : (i < Z.to_nat n)%nat -> field n s !! i = Some (default blank (s !! i)).
Proof.
  intros Hi. rewrite field_spec. destruct (decide (i < length s)%nat) as [Hl|Hl].
  - destruct (lookup_lt_is_Some_2 s i Hl) as [c Hc]. rewrite lookup_app_l by (rewrite length_take; lia).
    by rewrite lookup_take_lt, Hc by done.
  - rewrite (lookup_ge_None_2 s i) by lia. rewrite lookup_app_r by (rewrite length_take; lia).
    apply lookup_replicate_2. rewrite length_take. lia.
Qed.

Lemma cmp_operand a A m i : reads m a A -> 0 <= i ->
  (if i <? len A then load (a + i) else retR blank) m = Done (default blank (A !! Z.to_nat i)) m.
Proof.
  intros Hr Hi. unfold len. destruct (Z.ltb_spec i (Z.of_nat (length A))).
  - destruct (lookup_lt_is_Some_2 A (Z.to_nat i)) as [c Hc]; [lia|]. rewrite Hc. specialize (Hr _ _ Hc).
    rewrite Z2Nat.id in Hr by lia. by rewrite (load_ok _ _ _ Hr).
  - by rewrite lookup_ge_None_2 by lia.
Qed.
Lemma cmp_ok a b A B m : reads m a A -> reads m b B ->
  pli_cmp_char a (len A) b (len B) m = Done (lex (field (longer A B) A) (field (longer A B) B)) m.
Proof.
  intros Ha Hb. unfold pli_cmp_char. replace (if len B <? len A then len A else len B) with (longer A B).
  2: { unfold longer. destruct (Z.ltb_spec (len B) (len A)); lia. }
  set (n := longer A B). assert (0 <= n) by (unfold n, longer, len; lia).
  assert (forall k i, (k + i = Z.to_nat n)%nat ->
    cmp_loop k a (len A) b (len B) (Z.of_nat i) m = Done (lex (drop i (field n A)) (drop i (field n B))) m) as H'.
  2: { apply (H' _ 0%nat). lia. }
  induction k as [|k IH]; intros i Hi; simpl.
  - rewrite drop_ge; [done|]. unfold field. rewrite length_resize. lia.
  - unfold bindR. rewrite !cmp_operand by (done || lia). rewrite Nat2Z.id.
    rewrite (drop_S (field n A) _ _ (field_lookup n A i ltac:(lia))), (drop_S (field n B) _ _ (field_lookup n B i ltac:(lia))). simpl.
    destruct (ceqb _ _) eqn:E; simpl; [|done]. replace (Z.of_nat i + 1) with (Z.of_nat (S i)) by lia. apply IH. lia.
Qed.

(** [b] occurs in [a] at index [i]. *)
Definition occurs (b a : text) (i : nat) : Prop := take (length b) (drop i a) = b.
#[export] Instance occurs_dec b a i : Decision (occurs b a i).
Proof. unfold occurs. apply _. Defined.
Inductive found (b a : text) : Z -> Prop :=
| found_at i : occurs b a i -> (forall j, (j < i)%nat -> ~ occurs b a j) -> found b a (Z.of_nat i + 1)
| found_none : (forall i, ~ occurs b a i) -> found b a 0.

Lemma scan_eq_ok m : forall B A a b j, reads m (a + j) A -> reads m (b + j) B -> (length B <= length A)%nat ->
  exists k, scan_eq (length B) a b j m = Done (j + Z.of_nat k) m /\ (k <= length B)%nat /\
    (k = length B <-> take (length B) A = B).
Proof.
  induction B as [|d B IH]; intros [|c A] a b j Ha Hb Hl; simpl in *; try lia.
  - exists 0%nat. split_and!; [by rewrite Z.add_0_r|lia|done].
  - exists 0%nat. split_and!; [by rewrite Z.add_0_r|lia|done].
  - apply reads_cons in Ha as [Hc Ha]. apply reads_cons in Hb as [Hd Hb]. unfold bindR.
    rewrite (load_ok _ _ _ Hc), (load_ok _ _ _ Hd). destruct (ceqb c d) eqn:E.
    + apply ceqb_true in E as ->. destruct (IH A a b (j + 1)) as (k & -> & Hk & Hiff); [by rewrite Z.add_assoc..|lia|].
      exists (S k). split_and!; [f_equal; lia|lia|]. split; [intros [= ->]; f_equal; by apply Hiff|]. intros [= ->%Hiff]. done.
    + apply ceqb_false in E. exists 0%nat. split_and!; [unfold retR; f_equal; lia|lia|]. split; [done|]. congruence.
Qed.
Lemma occurs_fits b a i : occurs b a i -> b <> [] -> (i + length b <= length a)%nat.
Proof.
  unfold occurs. intros H Hb. apply (f_equal length) in H. rewrite length_take, length_drop in H.
  assert (length b <> 0)%nat by (by destruct b). lia.
Qed.
Lemma index_ok a b A B m : reads m a A -> reads m b B ->
  exists r, pli_index a (len A) b (len B) m = Done r m /\ found B A r.
Proof.
  intros Ha Hb. unfold pli_index. unfold len. destruct (Z.leb_spec (Z.of_nat (length B)) 0) as [H0|H0].
  { exists 1. split; [done|]. apply (found_at _ _ 0); [|lia]. destruct B; [done|]. simpl in H0. lia. }
  assert (B <> []) as HB by (by intros ->). destruct (Z.ltb_spec (Z.of_nat (length A)) (Z.of_nat (length B))) as [Hl|Hl].
  { exists 0. split; [done|]. apply found_none. intros i Hi%occurs_fits; [lia|done]. }
  assert (forall n i, (n + i = length A - length B + 1)%nat -> (forall j, (j < i)%nat -> ~ occurs B A j) ->
    exists r, index_loop n a b (Z.of_nat (length B)) (Z.of_nat i) m = Done r m /\ found B A r) as H.
  2: { replace (Z.to_nat _) with (length A - length B + 1)%nat by lia. apply (H _ 0%nat); [lia|lia]. }
  induction n as [|n IH]; intros i Hi Hno; simpl.
  { exists 0. split; [done|]. apply found_none. intros j Hj. apply occurs_fits in Hj as Hfit; [|done]. apply (Hno j); [lia|done]. }
  unfold bindR. rewrite Nat2Z.id.
  destruct (scan_eq_ok m B (drop i A) (a + Z.of_nat i) b 0) as (k & -> & Hk & Hiff).
  { rewrite Z.add_0_r. by apply reads_drop. }
  { by rewrite Z.add_0_r. }
  { rewrite length_drop. lia. }
  destruct (Z.eqb_spec (0 + Z.of_nat k) (Z.of_nat (length B))) as [E|E].
  - exists (Z.of_nat i + 1). split; [done|]. apply found_at; [|done]. apply Hiff. lia.
  - replace (Z.of_nat i + 1) with (Z.of_nat (S i)) by lia. apply IH; [lia|]. intros j Hj.
    destruct (decide (j = i)) as [->|]; [|apply Hno; lia]. intros Ho%Hiff. lia.
Qed.

(** The occurrences counted from the left, none overlapping the one before it. *)
Inductive tallies (b : text) : text -> Z -> Prop :=
| tally_end a : (length a < length b)%nat -> tallies b a 0
| tally_hit a n : tallies b a n -> tallies b (b ++ a) (n + 1)
| tally_skip c a n : ~ occurs b (c :: a) 0 -> tallies b a n -> tallies b (c :: a) n.

Lemma tally_loop_ok x y X Y m : reads m x X -> reads m y Y -> Y <> [] ->
  forall fuel i n, (length X - i < fuel)%nat -> (i <= length X)%nat ->
  exists r, tally_loop fuel x (len X) y (len Y) (Z.of_nat i) n m = Done r m /\ tallies Y (drop i X) (r - n).
Proof.
  intros Hx Hy HY. assert (0 < length Y)%nat by (destruct Y; [done|simpl; lia]).
  induction fuel as [|fuel IH]; intros i n Hf Hi; [lia|]. simpl. unfold len.
  destruct (Z.leb_spec (Z.of_nat i + Z.of_nat (length Y)) (Z.of_nat (length X))) as [Hl|Hl].
  - destruct (memcmp_ok (len Y) (take (length Y) (drop i X)) Y (x + Z.of_nat i) y m) as (r & Hc & Hr);
      [by apply reads_take, reads_drop|done| |done|].
    { unfold len. rewrite length_take, length_drop. lia. }
    unfold bindR. unfold len in Hc. rewrite Hc. destruct (Z.eqb_spec r 0) as [Hz|Hz].
    + apply Hr in Hz. destruct (IH (i + length Y)%nat (n + 1)) as (r' & Hd & Ht); [lia|lia|]. unfold len in Hd.
      rewrite Nat2Z.inj_add in Hd. exists r'. split; [exact Hd|].
      rewrite <- (take_drop (length Y) (drop i X)), Hz, drop_drop. replace (r' - n) with (r' - (n + 1) + 1) by lia. by constructor.
    + destruct (IH (S i) n) as (r' & Hd & Ht); [lia|lia|]. unfold len in Hd. rewrite Nat2Z.inj_succ in Hd.
      exists r'. split; [exact Hd|]. destruct (lookup_lt_is_Some_2 X i) as [c Hc']; [lia|].
      rewrite (drop_S _ _ _ Hc') in *. constructor; [|done]. intros Ho. apply Hz, Hr. exact Ho.
  - exists n. split; [done|]. rewrite Z.sub_diag. constructor. rewrite length_drop. lia.
Qed.
Lemma tally_ok x y X Y m : reads m x X -> reads m y Y -> Y <> [] ->
  exists r, pli_tally x (len X) y (len Y) m = Done r m /\ tallies Y X r.
Proof.
  intros Hx Hy HY. unfold pli_tally. assert (0 < length Y)%nat by (destruct Y; [done|simpl; lia]). unfold len.
  destruct (Z.leb_spec (Z.of_nat (length Y)) 0); [lia|]. simpl.
  destruct (Z.ltb_spec (Z.of_nat (length X)) (Z.of_nat (length Y))).
  - exists 0. split; [done|]. constructor. lia.
  - rewrite Nat2Z.id. destruct (tally_loop_ok x y X Y m Hx Hy HY (S (length X)) 0 0) as (r & Hd & Ht); [lia|lia|].
    exists r. rewrite Z.sub_0_r in Ht. done.
Qed.

(** ** The built-ins that build a string *)
Definition outside (m m' : mem) (d n : Z) : Prop := forall q, m' !! q = m !! q \/ d <= q < d + n.
Lemma reads_outside m m' p s d n : reads m p s -> outside m m' d n -> apart p (len s) d n -> reads m' p s.
Proof.
  intros Hr Ho Ha i c Hi. destruct (Ho (p + Z.of_nat i)) as [->|H]; [by apply Hr|].
  apply lookup_lt_Some in Hi. unfold apart, len in *. lia.
Qed.
Lemma write_outside d s n m : len s <= n -> outside m (write d s m) d n.
Proof. intros H q. rewrite lookup_write. case_decide; [right; lia|by left]. Qed.

(** Cutting to the field and padding it, as the tails of the loops do. *)
Lemma pad_ok dst n cap t m : 0 <= cap -> n = Z.min cap (len t) -> mapped m dst cap ->
  blank_from dst n cap (write dst (take (Z.to_nat n) t) m) = Done tt (write dst (field cap t) m).
Proof.
  intros Hc Hn Hm. assert (0 <= n) by (unfold len in *; lia).
  rewrite blank_from_ok by (done || by apply mapped_write). by rewrite write_field.
Qed.
Lemma pad_memset_ok dst n cap t m : 0 <= cap -> n = Z.min cap (len t) -> mapped m dst cap ->
  (if n <? cap then pli_memset (dst + n) blank (cap - n) else retR tt) (write dst (take (Z.to_nat n) t) m)
  = Done tt (write dst (field cap t) m).
Proof.
  intros Hc Hn Hm. assert (0 <= n) by (unfold len in *; lia).
  assert ((if n <? cap then pli_memset (dst + n) blank (cap - n) else retR tt) (write dst (take (Z.to_nat n) t) m) =
    Done tt (write (dst + n) (replicate (Z.to_nat (cap - n)) blank) (write dst (take (Z.to_nat n) t) m))) as ->.
  { destruct (Z.ltb_spec n cap).
    - apply memset_ok, mapped_write. eapply mapped_sub; [exact Hm|lia|lia].
    - by replace (Z.to_nat (cap - n)) with 0%nat by lia. }
  by rewrite write_field.
Qed.

Lemma case_ok f dst cap src S m : reads m src S -> mapped m dst cap -> 0 <= cap -> forward dst src (len S) ->
  map_case f dst cap src (len S) m = Done tt (write dst (field cap (map f S)) m).
Proof.
  intros Hr Hm Hc Hf. unfold map_case. replace (Z.max 0 (Z.min (len S) cap)) with (Z.min cap (len S)) by (unfold len; lia).
  unfold bindR at 1. erewrite map_loop_ok; [|exact Hr|exact Hm|done|done|exact Hf|].
  - apply pad_ok; [done|unfold len; by rewrite length_map|done].
  - intros i c m' Hi Hc' _ Hm' Hlt. unfold bindR. rewrite (load_ok _ _ _ Hc'). apply store_ok, Hm'. lia.
Qed.

Lemma translate_ok dst cap src S out O inp I m : reads m src S -> reads m out O -> reads m inp I -> mapped m dst cap ->
  0 <= cap -> forward dst src (len S) -> apart out (len O) dst cap -> apart inp (len I) dst cap ->
  pli_translate dst cap src (len S) out (len O) inp (len I) m =
    Done tt (write dst (field cap (map (translate_scan O I) S)) m).
Proof.
  intros Hr Ho Hi Hm Hc Hf Hao Hai. unfold pli_translate.
  replace (if len S <? cap then len S else cap) with (Z.min cap (len S)) by (destruct (Z.ltb_spec (len S) cap); lia).
  unfold bindR at 1. erewrite (map_loop_ok (translate_scan O I)); [|exact Hr|exact Hm|done|done|exact Hf|].
  - apply pad_memset_ok; [done|unfold len; by rewrite length_map|done].
  - intros i c m' Hic Hc' Hq Hm' Hlt. unfold bindR. rewrite (load_ok _ _ _ Hc').
    rewrite (scan_ne_at c inp I m') by (done || by eapply reads_outside).
    assert ((if Z.of_nat (first_index (fun d => ceqb c d) I) <? len I
             then if Z.of_nat (first_index (fun d => ceqb c d) I) <? len O
                  then load (out + Z.of_nat (first_index (fun d => ceqb c d) I)) else retR blank
             else retR c) m' = Done (translate_scan O I c) m') as ->; [|apply store_ok, Hm'; lia].
    unfold translate_scan, first_index.
    assert (list_find (fun d => ceqb c d) I = list_find (c =.) I) as Heq.
    { apply list_find_ext. intros d. split; [by intros ?%Is_true_eq_true%ceqb_true|intros <-; by rewrite ceqb_refl]. }
    rewrite <- Heq. destruct (list_find _ I) as [[j d]|] eqn:E.
    + apply list_find_Some in E as (Hj & _ & _). apply lookup_lt_Some in Hj. unfold len.
      destruct (Z.ltb_spec (Z.of_nat j) (Z.of_nat (length I))); [|lia].
      destruct (Z.ltb_spec (Z.of_nat j) (Z.of_nat (length O))).
      * destruct (lookup_lt_is_Some_2 O j) as [x Hx]; [lia|]. rewrite Hx. apply load_ok.
        by apply (reads_outside m m' out O dst cap).
      * by rewrite lookup_ge_None_2 by lia.
    + unfold len. destruct (Z.ltb_spec (Z.of_nat (length I)) (Z.of_nat (length I))); [lia|done].
Qed.

Lemma inner_ok dst cap src m0 : forall T i out m, reads m (src + i) T -> mapped m dst cap -> 0 <= out <= cap ->
  apart dst cap (src + i) (len T) -> m = m0 ->
  repeat_inner (length T) dst cap src i out m =
    Done (Z.min cap (out + len T)) (write (dst + out) (take (Z.to_nat (cap - out)) T) m).
Proof.
  intros T i out m Hr Hm Ho Ha _. revert i out m Hr Hm Ho Ha. unfold len.
  induction T as [|c T IH]; intros i out m Hr Hm Ho Ha; simpl.
  - rewrite take_nil. simpl. rewrite Z.add_0_r. by rewrite Z.min_r by lia.
  - destruct (Z.ltb_spec out cap) as [Hl|Hl].
    + apply reads_cons in Hr as [Hc Hr]. unfold bindR. rewrite (load_ok _ _ _ Hc), store_ok by (apply Hm; lia).
      unfold apart in *. simpl in Ha. rewrite IH.
      * replace (Z.to_nat (cap - out)) with (S (Z.to_nat (cap - (out + 1)))) by lia. simpl.
        replace (dst + out + 1) with (dst + (out + 1)) by lia. f_equal. lia.
      * rewrite Z.add_assoc. apply (reads_write _ _ _ (dst + out) [c]); [done|]. unfold apart, len. simpl. lia.
      * by apply mapped_insert.
      * lia.
      * lia.
    + replace (Z.to_nat (cap - out)) with 0%nat by lia. simpl. unfold retR. f_equal. lia.
Qed.

Lemma outer_ok dst cap src S : forall k out m, reads m src S -> mapped m dst cap -> 0 <= out <= cap ->
  apart dst cap src (len S) ->
  repeat_outer k dst cap src (len S) out m =
    Done (Z.min cap (out + len (mjoin (replicate k S)))) (write (dst + out) (take (Z.to_nat (cap - out)) (mjoin (replicate k S))) m).
Proof.
  induction k as [|k IH]; intros out m Hr Hm Ho Ha; simpl.
  - rewrite take_nil. unfold len. simpl. by rewrite Z.add_0_r, Z.min_r by lia.
  - unfold bindR at 1. replace (Z.to_nat (len S)) with (length S) by (unfold len; lia).
    rewrite (inner_ok dst cap src m S 0 out m) by (rewrite ?Z.add_0_r; done).
    set (t := take (Z.to_nat (cap - out)) S). change (mjoin (S :: replicate k S)) with (S ++ mjoin (replicate k S)).
    assert (len t = Z.min (cap - out) (len S)) as Ht by (unfold t, len; rewrite length_take; lia).
    rewrite IH.
    + replace (Z.min cap (out + len S)) with (out + len t) by lia. rewrite Z.add_assoc, <- write_app.
      rewrite take_app. replace (Z.to_nat (cap - out) - length S)%nat with (Z.to_nat (cap - (out + len t))) by (unfold len in *; lia).
      f_equal. unfold len in *. rewrite length_app. lia.
    + apply reads_write; [done|]. unfold apart, len in *. lia.
    + by apply mapped_write.
    + unfold len. lia.
    + done.
Qed.
Lemma repeat_ok dst cap src S n m : reads m src S -> mapped m dst cap -> 0 <= cap -> apart dst cap src (len S) ->
  pli_repeat dst cap src (len S) n m = Done tt (write dst (field cap (mjoin (replicate (Z.to_nat n) S))) m).
Proof.
  intros Hr Hm Hc Ha. unfold pli_repeat, bindR at 1. rewrite outer_ok by (done || lia).
  rewrite Z.add_0_r, Z.add_0_l, Z.sub_0_r. set (t := mjoin _).
  replace (take (Z.to_nat cap) t) with (take (Z.to_nat (Z.min cap (len t))) t); [by apply pad_ok|].
  unfold len. destruct (Z.min_spec cap (Z.of_nat (length t))) as [[? ->]|[? ->]]; [done|]. by rewrite !take_ge by lia.
Qed.

(** TRIM drops the characters of the pad set at both ends. *)
Fixpoint drop_set (P : ascii -> bool) (s : text) : text :=
  match s with [] => [] | c :: s' => if P c then drop_set P s' else s end.
Definition drop_set_r (P : ascii -> bool) (s : text) : text := reverse (drop_set P (reverse s)).
Definition trimmed (P : ascii -> bool) (s : text) : text := drop_set_r P (drop_set P s).
Definition pad_test (pad : option text) (c : ascii) : bool :=
  match pad with None => ceqb c blank | Some p => elem p c end.

Lemma drop_set_suffix P s : exists k, drop_set P s = drop k s /\ (k <= length s)%nat.
Proof.
  induction s as [|c s (k & IH & Hk)]; simpl; [by exists 0%nat|]. destruct (P c); [exists (S k)|exists 0%nat]; simpl; auto with lia.
Qed.
Lemma drop_set_r_prefix P s : exists k, drop_set_r P s = take k s /\ (k <= length s)%nat.
Proof.
  unfold drop_set_r. destruct (drop_set_suffix P (reverse s)) as (k & -> & Hk). rewrite length_reverse in Hk.
  exists (length s - k)%nat. split; [|lia].
  rewrite reverse_drop, length_reverse, reverse_involutive. done.
Qed.

(** The pad set: an address and a length, apart from nothing, or null. *)
Definition pad_reads (m : mem) (pad : option (Z * Z)) (p : option text) : Prop :=
  match pad, p with
  | None, None => True
  | Some (a, n), Some t => 0 < a /\ n = len t /\ reads m a t
  | _, _ => False
  end.
Lemma trims_ok m pad p c : pad_reads m pad p -> trims pad c m = Done (pad_test p c) m.
Proof.
  destruct pad as [[a n]|], p as [t|]; simpl; try done. intros (Ha & -> & Hr).
  destruct (memchr_ok t c a m Hr Ha) as (r & E & Hi). unfold bindR. rewrite E. unfold retR, elem. f_equal.
  destruct (Z.eqb_spec r 0) as [Hz|Hz]; simpl; symmetry; [apply bool_decide_false|apply bool_decide_true]; tauto.
Qed.

Lemma trim_lo_ok m pad p s : pad_reads m pad p -> forall T lo, reads m (s + lo) T ->
  trim_lo (length T) pad s lo m = Done (lo + (len T - len (drop_set (pad_test p) T))) m.
Proof.
  intros Hp. unfold len. induction T as [|c T IH]; intros lo Hr; simpl; [unfold retR; f_equal; lia|].
  apply reads_cons in Hr as [Hc Hr]. unfold bindR. rewrite (load_ok _ _ _ Hc), (trims_ok _ _ p) by done.
  destruct (pad_test p c); [|simpl; unfold retR; f_equal; lia]. rewrite IH by (by rewrite Z.add_assoc). f_equal. lia.
Qed.
Lemma trim_hi_ok m pad p s : pad_reads m pad p -> forall T lo, reads m (s + lo) T ->
  trim_hi (length T) pad s (lo + len T) m = Done (lo + len (drop_set_r (pad_test p) T)) m.
Proof.
  intros Hp. unfold len, drop_set_r. induction T as [|c T IH] using rev_ind; intros lo Hr; [done|].
  rewrite length_app, Nat.add_comm, reverse_snoc. simpl.
  replace (s + (lo + Z.of_nat (S (length T)) - 1)) with (s + lo + Z.of_nat (length T)) by lia. unfold bindR.
  rewrite (load_ok _ _ c) by (by apply Hr, list_lookup_middle). rewrite (trims_ok _ _ p) by done.
  destruct (pad_test p c).
  - replace (lo + Z.of_nat (S (length T)) - 1) with (lo + Z.of_nat (length T)) by lia. apply IH.
    intros i d Hi. apply Hr. by apply lookup_app_l_Some.
  - unfold retR. f_equal. rewrite reverse_cons, reverse_involutive, length_app. simpl. lia.
Qed.

Lemma trim_ok dst cap src S pad p m : reads m src S -> mapped m dst cap -> 0 <= cap -> apart dst cap src (len S) ->
  pad_reads m pad p ->
  pli_trim dst cap src (len S) pad m = Done tt (write dst (field cap (trimmed (pad_test p) S)) m).
Proof.
  intros Hr Hm Hc Ha Hp. unfold pli_trim, bindR at 1. unfold len at 1. rewrite Nat2Z.id.
  rewrite (trim_lo_ok m pad p src Hp S 0) by (by rewrite Z.add_0_r).
  destruct (drop_set_suffix (pad_test p) S) as (k & Hk & Hkl). unfold trimmed. rewrite Hk.
  assert (0 + (len S - len (drop k S)) = Z.of_nat k) as -> by (unfold len; rewrite length_drop; lia).
  assert (Z.to_nat (len S - Z.of_nat k) = length (drop k S)) as -> by (rewrite length_drop; unfold len; lia).
  assert (reads m (src + Z.of_nat k) (drop k S)) as Hrk by by apply reads_drop.
  unfold bindR at 1. replace (len S) with (Z.of_nat k + len (drop k S)) by (unfold len; rewrite length_drop; lia).
  rewrite (trim_hi_ok m pad p src Hp (drop k S) (Z.of_nat k)) by done.
  destruct (drop_set_r_prefix (pad_test p) (drop k S)) as (h & Hh & Hhl). rewrite Hh. set (t := take h (drop k S)).
  replace (Z.to_nat (Z.of_nat k + len t - Z.of_nat k)) with (length t) by (unfold len; lia).
  unfold bindR. rewrite (inner_ok dst cap src m t (Z.of_nat k) 0 m); [|by apply reads_take|done|lia| |done].
  - rewrite Z.add_0_r, Z.add_0_l, Z.sub_0_r.
    replace (take (Z.to_nat cap) t) with (take (Z.to_nat (Z.min cap (len t))) t); [by apply pad_ok|].
    unfold len. destruct (Z.min_spec cap (Z.of_nat (length t))) as [[? ->]|[? ->]]; [done|]. by rewrite !take_ge by lia.
  - unfold t, apart, len in *. rewrite length_take, length_drop in *. lia.
Qed.

Lemma reverse_ok dst cap src S m : reads m src S -> mapped m dst cap -> 0 <= cap -> apart dst cap src (len S) ->
  pli_reverse dst cap src (len S) m = Done tt (write dst (field cap (reverse S)) m).
Proof.
  intros Hr Hm Hc Ha. unfold pli_reverse.
  replace (if len S <? cap then len S else cap) with (Z.min cap (len S)) by (destruct (Z.ltb_spec (len S) cap); lia).
  set (n := Z.min cap (len S)). set (t := take (Z.to_nat n) (reverse S)).
  assert (length t = Z.to_nat n) as Hl by (unfold t; rewrite length_take, length_reverse; unfold n, len in *; lia).
  unfold bindR at 1. rewrite <- Hl.
  rewrite (upto_store (fun _ m' => reads m' src S /\ mapped m' dst cap) _ (fun i => dst + i) t 0 0);
    [|done|lia|intros; lia|].
  - rewrite Z.add_0_r. apply pad_ok; [done|unfold len; by rewrite length_reverse|done].
  - intros i c m' Hi [Hr' Hm']. apply lookup_lt_Some in Hi as Hil. rewrite Z.add_0_l.
    assert (Z.of_nat i < cap /\ (i < length S)%nat) as [Hic HiS] by (unfold n, len in *; lia).
    unfold t in Hi. apply lookup_take_Some in Hi as [Hi _]. rewrite reverse_lookup in Hi by done.
    split; [|split; [apply (reads_write _ _ _ _ [c]); [done|]|by apply mapped_insert]].
    + unfold bindR. rewrite (load_ok _ _ c).
      * apply store_ok, Hm'. lia.
      * replace (src + (len S - 1 - Z.of_nat i)) with (src + Z.of_nat (length S - Datatypes.S i)) by (unfold len; lia).
        by apply Hr'.
    + unfold apart, len in *. simpl. lia.
Qed.

(** The value centred in a field of [f] characters, the odd blank on the right. *)
Definition centred (f : Z) (s : text) : text :=
  replicate (Z.to_nat ((f - Z.min (len s) f) / 2)) blank ++ take (Z.to_nat f) s.
Lemma center_ok dst cap src S w m : reads m src S -> mapped m dst cap -> 0 <= cap -> apart dst cap src (len S) ->
  pli_center dst cap src (len S) w m = Done tt (write dst (field cap (centred (Z.min (Z.max w 0) cap) S)) m).
Proof.
  intros Hr Hm Hc Ha. unfold pli_center. replace (if w <? 0 then 0 else w) with (Z.max w 0) by (destruct (Z.ltb_spec w 0); lia).
  replace (if Z.max w 0 <? cap then Z.max w 0 else cap) with (Z.min (Z.max w 0) cap) by (destruct (Z.ltb_spec (Z.max w 0) cap); lia).
  set (f := Z.min (Z.max w 0) cap). assert (0 <= f <= cap) as Hf by (unfold f; lia).
  replace (if len S <? f then len S else f) with (Z.min (len S) f) by (destruct (Z.ltb_spec (len S) f); lia).
  cbv zeta. set (tk := Z.min (len S) f). assert (0 <= tk <= f /\ tk <= len S) as Htk by (unfold tk, len; lia).
  rewrite Z.quot_div_nonneg by lia. set (left := (f - tk) / 2). assert (0 <= left /\ left + tk <= f) as Hleft.
  { unfold left. pose proof (Z.mul_div_le (f - tk) 2). pose proof (Z.div_pos (f - tk) 2). lia. }
  unfold bindR at 1. rewrite <- (length_replicate (Z.to_nat left) blank) at 1.
  rewrite (upto_store (fun _ m' => mapped m' dst cap) _ (fun i => dst + i) (replicate (Z.to_nat left) blank) 0 0); [|done|lia|intros; lia|].
  2: { intros i c m' [-> Hi]%lookup_replicate Hm'. split; [|by apply mapped_insert]. apply store_ok, Hm'. lia. }
  rewrite Z.add_0_r. set (m1 := write dst _ m). set (t := take (Z.to_nat tk) S).
  assert (length t = Z.to_nat tk) as Hl by (unfold t, len in *; rewrite length_take; lia).
  unfold bindR at 1. rewrite <- Hl.
  rewrite (upto_store (fun _ m' => reads m' src S /\ mapped m' dst cap) _ (fun i => dst + left + i) t 0 0); [| |lia|intros; lia|].
  - rewrite Z.add_0_r. unfold m1.
    assert (write (dst + left) t (write dst (replicate (Z.to_nat left) blank) m) = write dst (take (Z.to_nat (left + tk)) (centred f S)) m) as ->.
    { unfold centred. fold tk. fold left. rewrite take_app, take_ge by (rewrite length_replicate; lia).
      rewrite write_app, length_replicate. unfold len at 1. rewrite length_replicate, Z2Nat.id by lia. f_equal.
      rewrite take_take. unfold t. f_equal. lia. }
    set (c := centred f S). assert (len c = left + tk) as Hcl.
    { unfold c, centred, len in *. fold tk. fold left. rewrite length_app, length_replicate, length_take. unfold tk in *. lia. }
    unfold bindR. rewrite blank_from_ok; [|lia|by apply mapped_write; eapply mapped_sub; [exact Hm|lia|lia]].
    rewrite (write_field dst (left + tk) f c m) by lia. rewrite blank_from_ok by (lia || by apply mapped_write).
    assert (field f c = take (Z.to_nat f) (field f c)) as ->.
    { rewrite take_ge; [done|]. unfold field. rewrite length_resize. lia. }
    rewrite (write_field dst f cap (field f c) m); [|lia|rewrite field_len; lia|lia].
    by rewrite field_field by lia.
  - split; [|by apply mapped_write]. apply reads_write; [done|]. unfold apart, len in *. rewrite length_replicate. lia.
  - intros i c m' Hi [Hr' Hm']. apply lookup_lt_Some in Hi as Hil. rewrite Z.add_0_l. unfold t in Hi. apply lookup_take_Some in Hi as [Hi Hi'].
    split; [|split; [apply (reads_write _ _ _ _ [c]); [done|]|by apply mapped_insert]].
    + unfold bindR. rewrite (load_ok _ _ c) by (by apply Hr'). rewrite Z.add_assoc. apply store_ok. rewrite <- Z.add_assoc. apply Hm'. lia.
    + unfold apart, len in *. simpl. lia.
Qed.

(** ** Assignments *)
Lemma clamp_len s : clamp (len s) = len s.
Proof. unfold clamp, len. by destruct (Z.ltb_spec (Z.of_nat (length s)) 0); [lia|]. Qed.
Lemma clamp_id n : 0 <= n -> clamp n = n.
Proof. intros. unfold clamp. by destruct (Z.ltb_spec n 0); [lia|]. Qed.
Lemma min_if a b : (if a <? b then a else b) = Z.min b a.
Proof. destruct (Z.ltb_spec a b); lia. Qed.

Lemma assign_char_ok dst cap src s m : reads m src s -> mapped m dst cap -> 0 <= cap ->
  pli_assign_char dst cap src (len s) m = Done tt (write dst (field cap s) m).
Proof.
  intros Hr Hm Hc. unfold pli_assign_char. rewrite clamp_len, clamp_id, min_if by done. cbv zeta. by apply move_fill_ok.
Qed.
Lemma then_ret {A} (a b : R mem unit) (x : A) m m' : (a ;! b) m = Done tt m' -> (a ;! b ;! retR x) m = Done x m'.
Proof. unfold bindR. destruct (a m) as [u m1|msg|]; [|done|done]. by intros ->. Qed.
Lemma assign_varying_ok dst cap src s m : reads m src s -> mapped m dst cap -> 0 <= cap ->
  pli_assign_varying dst cap src (len s) m = Done (Z.min cap (len s)) (write dst (field cap s) m).
Proof.
  intros Hr Hm Hc. unfold pli_assign_varying. rewrite clamp_len, clamp_id, min_if by done. cbv zeta.
  by apply then_ret, move_fill_ok.
Qed.
Lemma concat_ok dst a b A B m : reads m a A -> reads m b B -> mapped m dst (len A + len B) -> apart b (len B) dst (len A) ->
  pli_concat dst a (len A) b (len B) m = Done tt (write dst (A ++ B) m).
Proof.
  intros Ha Hb Hm Hap. assert (0 <= len A /\ 0 <= len B) as [HA HB] by (unfold len; lia).
  unfold pli_concat. rewrite !clamp_len. cbv zeta. unfold bindR. rewrite write_app.
  assert ((if 0 <? len A then pli_memmove dst a (len A) else retR tt) m = Done tt (write dst A m)) as ->.
  { destruct (Z.ltb_spec 0 (len A)).
    - apply memmove_ok; [done|done|]. eapply mapped_sub; [exact Hm|lia|lia].
    - destruct A; [done|]. unfold len in *. simpl in *. lia. }
  destruct (Z.ltb_spec 0 (len B)).
  - apply memmove_ok; [by apply reads_write|done|]. apply mapped_write. eapply mapped_sub; [exact Hm|lia|lia].
  - destruct B; [done|]. unfold len in *. simpl in *. lia.
Qed.

(** SUBSTR(s, i, n) *)
Lemma substr_ok dst cap src S start n m : reads m src S -> mapped m dst cap ->
  pli_substr dst cap src (len S) start n m = Done tt (write dst (field (Z.min cap n) (drop (from start) S)) m).
Proof.
  intros Hr Hm. unfold pli_substr, from. set (st := if start <? 1 then 1 else start).
  assert (st - 1 = Z.of_nat (Z.to_nat (start - 1))) as Hst by (unfold st; destruct (Z.ltb_spec start 1); lia).
  cbv zeta. rewrite Hst, min_if. set (k := Z.to_nat (start - 1)). set (n' := Z.min cap n).
  assert (clamp (len S - Z.of_nat k) = len (drop k S)) as ->.
  { unfold clamp, len. rewrite length_drop. destruct (Z.ltb_spec (Z.of_nat (length S) - Z.of_nat k) 0); lia. }
  rewrite min_if. destruct (Z.le_gt_cases 0 n') as [Hn|Hn].
  - apply move_fill_ok; [by apply reads_drop|done|done|]. eapply mapped_sub; [exact Hm|lia|lia].
  - rewrite (Z.min_l n') by (unfold len; lia). unfold bindR. destruct (Z.ltb_spec 0 n'); [lia|]. unfold retR.
    rewrite Z.ltb_irrefl. by rewrite field_none by lia.
Qed.

(** SUBSTR(d, i, n) = s *)
Definition max_string : Z := 100 * 1024 * 1024.
Definition sane (dst cap : Z) : Prop := 0 < cap <= max_string /\ 0 <= dst /\ dst + cap < 2 ^ 64.
Definition overlay_len (cap start n : Z) : Z := Z.min (cap - (start - 1)) n.
Lemma substr_assign_ok dst cap start n src s m : reads m src s -> mapped m dst cap -> sane dst cap ->
  pli_substr_assign dst cap start n src (len s) m =
    Done tt (if (1 <=? start) && (start <=? cap) then write (dst + (start - 1)) (field (overlay_len cap start n) s) m else m).
Proof.
  intros Hr Hm (Hc & Hd & Hw). unfold pli_substr_assign, overlay_len. change (100 * 1024 * 1024) with max_string.
  destruct (Z.ltb_spec start 1) as [Hs|Hs].
  { destruct (Z.leb_spec 1 start); [lia|]. done. }
  destruct (Z.leb_spec 1 start); [|lia]. destruct (Z.leb_spec cap 0); [lia|]. destruct (Z.ltb_spec max_string cap); [lia|]. simpl.
  rewrite uwrap_small by (unfold urange; lia). destruct (Z.ltb_spec (dst + cap) dst); [lia|].
  destruct (Z.leb_spec (cap - (start - 1)) 0); destruct (Z.leb_spec start cap); try lia; [done|].
  cbv zeta. replace (if cap - (start - 1) <? n then cap - (start - 1) else n) with (Z.min (cap - (start - 1)) n).
  2: { destruct (Z.ltb_spec (cap - (start - 1)) n); lia. }
  set (k := Z.min (cap - (start - 1)) n). rewrite min_if. destruct (Z.le_gt_cases 0 k) as [Hk|Hk].
  - apply move_fill_ok; [done|done|done|]. eapply mapped_sub; [exact Hm|lia|lia].
  - rewrite (Z.min_l k) by (unfold len; lia). unfold bindR. destruct (Z.ltb_spec 0 k); [lia|]. unfold retR.
    rewrite Z.ltb_irrefl. by rewrite field_none by lia.
Qed.

(** The overlay of a VARYING value: it may lengthen the value, over blanks. *)
Definition overlay (v : text) (k : nat) (t : text) : text :=
  take k (v ++ replicate (k - length v) blank) ++ t ++ drop (k + length t) v.
Lemma overlay_length v k t : len (overlay v k t) = Z.max (len v) (Z.of_nat k + len t).
Proof.
  unfold overlay, len. rewrite !length_app, length_take, length_app, length_replicate, length_drop. lia.
Qed.
Lemma overlay_lookup v k t i : overlay v k t !! i =
  if decide (k <= i < k + length t)%nat then t !! (i - k)%nat
  else if decide (length v <= i < k)%nat then Some blank else v !! i.
Proof.
  unfold overlay. set (h := take k (v ++ replicate (k - length v) blank)).
  assert (length h = k) as Hh by (unfold h; rewrite length_take, length_app, length_replicate; lia).
  destruct (decide (i < k)%nat) as [Hi|Hi].
  - rewrite decide_False by lia. rewrite lookup_app_l by lia. unfold h. rewrite lookup_take_lt by done.
    case_decide.
    + rewrite lookup_app_r by lia. apply lookup_replicate_2. lia.
    + by rewrite lookup_app_l by lia.
  - rewrite (decide_False (P := (length v <= i < k)%nat)) by lia. rewrite lookup_app_r, Hh by lia. case_decide.
    + by rewrite lookup_app_l by lia.
    + rewrite lookup_app_r by lia. rewrite lookup_drop. f_equal. lia.
Qed.

Lemma substr_assign_varying_ok dst cap start n src s v m : reads m src s -> reads m dst v -> mapped m dst cap -> sane dst cap ->
  len v <= cap -> 1 <= start <= cap -> 0 <= n ->
  exists m', pli_substr_assign_varying dst cap (len v) start n src (len s) m =
      Done (len (overlay v (from start) (field (overlay_len cap start n) s))) m' /\
    reads m' dst (overlay v (from start) (field (overlay_len cap start n) s)) /\ outside m m' dst cap.
Proof.
  intros Hr Hv Hm Hsane Hl Hst Hn. unfold pli_substr_assign_varying, bindR at 1. rewrite substr_assign_ok by done.
  destruct Hsane as (Hc & Hd & Hw). destruct (Z.leb_spec 1 start); [|lia]. destruct (Z.leb_spec start cap); [|lia]. simpl.
  set (k := overlay_len cap start n). set (t := field k s). assert (0 <= k <= cap - (start - 1)) as Hk by (unfold k, overlay_len; lia).
  assert (len t = k) as Ht by (apply field_len; lia). unfold from.
  destruct (Z.ltb_spec start 1); [lia|]. destruct (Z.ltb_spec (len v) 0); [unfold len in *; lia|].
  destruct (Z.ltb_spec cap (len v)); [lia|]. destruct (Z.leb_spec (cap - (start - 1)) 0); [lia|].
  replace (if cap - (start - 1) <? n then cap - (start - 1) else n) with k.
  2: { unfold k, overlay_len. destruct (Z.ltb_spec (cap - (start - 1)) n); lia. }
  set (gap := replicate (Z.to_nat (start - 1 - len v)) blank). set (m1 := write (dst + (start - 1)) t m).
  assert ((if len v <? start - 1 then pli_memset (dst + len v) blank (start - 1 - len v) else retR tt) m1 = Done tt (write (dst + len v) gap m1)) as Hg.
  { destruct (Z.ltb_spec (len v) (start - 1)).
    - apply memset_ok, mapped_write. eapply mapped_sub; [exact Hm|unfold len; lia|lia].
    - unfold gap. by replace (Z.to_nat _) with 0%nat by lia. }
  unfold bindR. rewrite Hg. eexists. split_and!.
  - unfold retR. f_equal. rewrite overlay_length, Ht. replace (Z.of_nat (Z.to_nat (start - 1))) with (start - 1) by lia.
    rewrite swrap_small by (done || unfold srange, max_string in *; lia). destruct (Z.ltb_spec (len v) (start - 1 + k)); lia.
  - intros i c Hi. rewrite overlay_lookup in Hi. unfold m1. rewrite !lookup_write. unfold len in *.
    assert (length gap = Z.to_nat (start - 1 - Z.of_nat (length v))) as Hgl by apply length_replicate. rewrite Hgl.
    destruct (decide (Z.to_nat (start - 1) <= i < Z.to_nat (start - 1) + length t)%nat).
    + rewrite decide_False by lia. rewrite decide_True by lia. rewrite <- Hi. f_equal. lia.
    + destruct (decide (length v <= i < Z.to_nat (start - 1))%nat).
      * rewrite decide_True by lia. simplify_eq. apply lookup_replicate_2. lia.
      * apply lookup_lt_Some in Hi as Hil. rewrite decide_False by lia. rewrite decide_False by lia. by apply Hv.
  - intros q. unfold m1. rewrite !lookup_write. unfold len in *.
    assert (length gap = Z.to_nat (start - 1 - Z.of_nat (length v))) as Hgl by apply length_replicate. rewrite Hgl.
    case_decide; [right; lia|]. case_decide; [right; lia|by left].
Qed.

(** ** COLLATE and ISOCHAR *)
Lemma collate_ok dst cap n m : mapped m dst cap -> 0 <= cap ->
  pli_collate dst cap n m = Done tt (write dst (field cap [char_of (Z.land n 255)]) m).
Proof.
  intros Hm Hc. unfold pli_collate, bindR. destruct (Z.ltb_spec 0 cap) as [Hp|Hp].
  - rewrite store_ok by (specialize (Hm 0); rewrite Z.add_0_r in Hm; apply Hm; lia).
    apply (pad_ok dst 1 cap [char_of (Z.land n 255)] m); [done|unfold len; simpl; lia|done].
  - unfold retR, blank_from. replace (Z.to_nat (cap - 1)) with 0%nat by lia. simpl. by rewrite field_none by lia.
Qed.
Definition codes (lo hi : Z) : text := map (fun i => char_of (lo + Z.of_nat i)) (seq 0 (Z.to_nat (hi - lo + 1))).
Lemma isochar_ok dst cap lo hi m : mapped m dst cap -> 0 <= cap -> srange 32 lo -> srange 32 hi -> hi - lo + 1 < 2 ^ 31 ->
  pli_isochar dst cap lo hi m = Done tt (write dst (field cap (codes lo hi)) m).
Proof.
  intros Hm Hc Hlo Hhi Hn. unfold pli_isochar. unfold srange in *.
  assert ((if lo <=? hi then i32 (hi - lo + 1) else 0) = len (codes lo hi)) as ->.
  { unfold len, codes. rewrite length_map, length_seq. destruct (Z.leb_spec lo hi); [|lia].
    rewrite swrap_small by (done || unfold srange; lia). lia. }
  cbv zeta. replace (if cap <? len (codes lo hi) then cap else len (codes lo hi)) with (Z.min cap (len (codes lo hi))).
  2: { destruct (Z.ltb_spec cap (len (codes lo hi))); lia. }
  set (n := Z.min cap (len (codes lo hi))).
  set (t := take (Z.to_nat n) (codes lo hi)).
  assert (length t = Z.to_nat n) as Hl by (unfold t, n, len in *; rewrite length_take; lia).
  unfold bindR at 1. rewrite <- Hl.
  rewrite (upto_store (fun _ m' => mapped m' dst cap) _ (fun i => dst + i) t 0 0); [|done|lia|intros; lia|].
  - rewrite Z.add_0_r. by apply pad_memset_ok.
  - intros i c m' Hi Hm'. apply lookup_lt_Some in Hi as Hil. split; [|by apply mapped_insert]. rewrite Z.add_0_l.
    unfold t in Hi. apply lookup_take_Some in Hi as [Hi _]. unfold codes in Hi.
    change (map ?f ?l) with (f <$> l) in Hi. apply list_lookup_fmap_Some in Hi as (j & -> & Hj).
    apply lookup_seq in Hj as [-> _]. apply store_ok, Hm'. unfold n in *. lia.
Qed.

(** ** The theorems *)


(** C35: the string built-ins compute what the language defines, in a field of the
    target's length: REPEAT, TRANSLATE, TRIM, UPPERCASE, LOWERCASE (these two and
    TRANSLATE in place as well), REVERSE, CENTER, COLLATE and ISOCHAR. *)
Theorem string_builtins_exact (m : mem) (dst cap src : Z) (s : text) :
  reads m src s -> mapped m dst cap -> 0 <= cap ->
  (forall f, f = to_upper \/ f = to_lower -> forward dst src (len s) ->
    map_case f dst cap src (len s) m = Done tt (write dst (field cap (map f s)) m)) /\
  (forall out o inp i, reads m out o -> reads m inp i -> apart out (len o) dst cap -> apart inp (len i) dst cap ->
    forward dst src (len s) -> pli_translate dst cap src (len s) out (len o) inp (len i) m =
    Done tt (write dst (field cap (map (translate_scan o i) s)) m)) /\
  (apart dst cap src (len s) ->
    (forall n, pli_repeat dst cap src (len s) n m = Done tt (write dst (field cap (mjoin (replicate (Z.to_nat n) s))) m)) /\
    (forall pad p, pad_reads m pad p ->
      pli_trim dst cap src (len s) pad m = Done tt (write dst (field cap (trimmed (pad_test p) s)) m)) /\
    pli_reverse dst cap src (len s) m = Done tt (write dst (field cap (reverse s)) m) /\
    (forall w, pli_center dst cap src (len s) w m =
      Done tt (write dst (field cap (centred (Z.min (Z.max w 0) cap) s)) m))) /\
  (forall n, pli_collate dst cap n m = Done tt (write dst (field cap [char_of (Z.land n 255)]) m)) /\
  (forall lo hi, srange 32 lo -> srange 32 hi -> hi - lo + 1 < 2 ^ 31 ->
    pli_isochar dst cap lo hi m = Done tt (write dst (field cap (codes lo hi)) m)).
Proof.
  intros Hr Hm Hc. split_and!.
  - intros f _ Hf. by apply case_ok.
  - intros out o inp i Ho Hi Hao Hai Hf. by apply translate_ok.
  - intros Ha. split_and!; intros; [by apply repeat_ok|by apply trim_ok|by apply reverse_ok|by apply center_ok].
  - intros n. by apply collate_ok.
  - intros lo hi Hlo Hhi Hn. by apply isochar_ok.
Qed.

(** The string scans and the comparison are exact: VERIFY and SEARCH, with or
    without a start, answer the first position outside or inside the set; INDEX the first
    occurrence; TALLY the occurrences counted from the left without overlap; and the
    comparison orders the operands by code with the shorter one extended by blanks. *)
Theorem string_scans_exact (m : mem) (a b : Z) (s t : text) : reads m a s -> reads m b t ->
  pli_verify a (len s) b (len t) m = Done (first_pos (fun c => negb (elem t c)) 0 s) m /\
  (forall start, pli_verify_from a (len s) b (len t) start m = Done (first_pos (fun c => negb (elem t c)) (from start) s) m /\
    pli_search a (len s) b (len t) start m = Done (first_pos (elem t) (from start) s) m) /\
  (exists r, pli_index a (len s) b (len t) m = Done r m /\ found t s r) /\
  (t <> [] -> exists r, pli_tally a (len s) b (len t) m = Done r m /\ tallies t s r) /\
  pli_cmp_char a (len s) b (len t) m = Done (lex (field (longer s t) s) (field (longer s t) t)) m.
Proof.
  intros Hs Ht. split_and!.
  - by apply verify_ok.
  - intros start. split; [by apply verify_from_ok|by apply search_ok].
  - by apply index_ok.
  - intros Hne. by apply tally_ok.
  - by apply cmp_ok.
Qed.

(** ** The decision layer's folds *)
(** What the compiled scan reads in the membership table, the compiled translation in the
    translation table. *)
Definition in_table (table : text) (c : ascii) : bool :=
  negb (bool_decide (table !! byte_index c = Some NUL)).
Definition by_table (table : text) (c : ascii) : ascii := default NUL (table !! byte_index c).

(** C33: what the compiler decides about strings gives what the run-time routine it
    replaces gives: a folded REPEAT within the bound is the repeated value; a scan
    through the membership table of a constant set is SEARCH, or VERIFY of the
    complement; a constant TRANSLATE is the map through the table; and the store plan of
    a concatenation, run on its operands, leaves what the run-time concatenation into a
    temporary followed by the assignment leaves. *)
Theorem folded_strings_agree (m : mem) (dst cap a b : Z) (s t : text) :
  reads m a s -> reads m b t -> mapped m dst cap -> 0 < cap ->
  (forall n, 0 < n -> len s * n <= 2 ^ 20 -> apart dst cap a (len s) ->
    pli_repeat dst cap a (len s) n m = Done tt (write dst (field cap (foldRepeatText s n)) m)) /\
  (forall start, pli_search a (len s) b (len t) start m = Done (first_pos (in_table (searchTableBytes t)) (from start) s) m /\
    pli_verify_from a (len s) b (len t) start m =
      Done (first_pos (fun c => negb (in_table (searchTableBytes t) c)) (from start) s) m) /\
  (forall inp i, reads m inp i -> apart b (len t) dst cap -> apart inp (len i) dst cap -> forward dst a (len s) ->
    pli_translate dst cap a (len s) b (len t) inp (len i) m =
      Done tt (write dst (field cap (map (by_table (translateTableBytes t i)) s)) m)) /\
  (forall tmp, mapped m tmp (len s + len t) -> apart b (len t) tmp (len s) -> apart tmp (len s + len t) dst cap ->
    exists m1, pli_concat tmp a (len s) b (len t) m = Done tt m1 /\
      pli_assign_char dst cap tmp (len s + len t) m1 =
        Done tt (write dst (run_plan [s; t] (planConcatStore [len s; len t] cap)) m1)).
Proof.
  intros Hs Ht Hm Hc.
  assert (forall c, in_table (searchTableBytes t) c = elem t c) as Hin.
  { intros c. destruct (tables_are_scans t [] []) as (_ & _ & H). destruct (H c) as [Hc' _].
    unfold in_table, elem. rewrite Hc'. destruct (bool_decide (c ∈ t)); done. }
  split_and!.
  - intros n Hn Hb Ha. rewrite repeat_ok by (done || lia). do 3 f_equal.
    destruct (constant_stores_exact s n [] 1) as (H & _). rewrite H. by rewrite bool_decide_true.
  - intros start. rewrite search_ok, verify_from_ok by done. unfold first_pos.
    rewrite (list_find_ext (in_table (searchTableBytes t)) (elem t)) by (intros c; by rewrite Hin).
    by rewrite (list_find_ext (fun c => negb (in_table (searchTableBytes t) c)) (fun c => negb (elem t c))) by (intros c; by rewrite Hin).
  - intros inp i Hi Hao Hai Hf. rewrite translate_ok by (done || lia). do 3 f_equal. apply map_ext. intros c.
    destruct (tables_are_scans [] t i) as (_ & _ & H). destruct (H c) as [_ H']. unfold by_table. by rewrite H'.
  - intros tmp Hmt Ha Hat. rewrite (concat_ok tmp a b s t m) by done. eexists. split; [done|].
    assert (len s + len t = len (s ++ t)) as -> by (unfold len; rewrite length_app; lia).
    rewrite assign_char_ok; [|apply reads_written|by apply mapped_write|lia].
    destruct (constant_stores_exact [] 0 [s; t] cap) as (_ & _ & H). destruct (H Hc) as [E _].
    change ((fun s : text => Z.of_nat (length s)) <$> [s; t]) with [len s; len t] in E. rewrite E.
    do 3 f_equal. change (mjoin [s; t]) with (s ++ t ++ []). rewrite app_nil_r.
    unfold assign_fixed. rewrite field_spec, take_pad. done.
Qed.

(** ** Witnesses *)
Definition sample_mem : mem := write 200 (replicate 8 NUL) (write 100 (txt "HELLO") ∅).
Lemma sample_reads : reads sample_mem 100 (txt "HELLO").
Proof. apply reads_write; [apply reads_written|]. left. vm_compute. discriminate. Qed.
Lemma sample_mapped : mapped sample_mem 200 8.
Proof. apply (reads_mapped _ _ (replicate 8 NUL)), reads_written. Qed.

Lemma string_builtins_exact_witness :
  exists m', pli_reverse 200 8 100 5 sample_mem = Done tt m' /\ reads m' 200 (txt "OLLEH   ").
Proof.
  destruct (string_builtins_exact sample_mem 200 8 100 (txt "HELLO") sample_reads sample_mapped) as (_ & _ & H & _); [lia|].
  destruct H as (_ & _ & H & _); [vm_compute; right; discriminate|]. eexists. split; [exact H|]. apply reads_written.
Defined.
Lemma string_scans_exact_witness : pli_search 100 5 100 5 2 sample_mem = Done 2 sample_mem.
Proof.
  destruct (string_scans_exact sample_mem 100 100 (txt "HELLO") (txt "HELLO") sample_reads sample_reads) as (_ & H & _).
  exact (proj2 (H 2)).
Defined.
Lemma folded_strings_agree_witness :
  exists m', pli_repeat 200 8 100 5 2 sample_mem = Done tt m' /\ reads m' 200 (txt "HELLOHEL").
Proof.
  destruct (folded_strings_agree sample_mem 200 8 100 100 (txt "HELLO") (txt "HELLO") sample_reads sample_reads sample_mapped) as [H _]; [lia|].
  eexists. split; [apply (H 2); vm_compute; [done|discriminate|right; discriminate]|]. apply reads_written.
Defined.
