(* ===== verification/EffectFile.v ===== *)
(** * The decision layer: published effects

    [src/irgen_decisions.h], [src/irgen_decisions.cpp]: the verdict
    type of the effect analysis ([MemEffect], [ProcEffects]) and the line
    format that carries a procedure's verdict from the module that compiled it
    to the module that calls it ([formatEffectLine], [parseEffectLine]). *)
From S2P Require Import Prelude.

Inductive MemEffect := Unknown | Read | ArgRead | ArgReadWrite | NoMemory.
#[global] Instance MemEffect_dec : EqDecision MemEffect.
Proof. solve_decision. Defined.

(** [effect] and the two control promises; [note] is for the report only. *)
Record ProcEffects := mkEffects {
  effect : MemEffect; nounwind : bool; willReturn : bool; note : text }.

(** [ProcEffects()]: the default member initialisers. *)
Definition noPromise : ProcEffects := mkEffects Unknown false false [].

Definition effectToken (e : MemEffect) : text :=
  match e with
  | NoMemory => txt "none"
  | ArgRead => txt "argmem-read"
  | ArgReadWrite => txt "argmem-readwrite"
  | Read => txt "read"
  | Unknown => txt "readwrite"
  end.

Definition kPublishedEffectsHeader : text := txt "# pli published effects v1".

Definition formatEffectLine (name : text) (e : ProcEffects) (digest : text) : text :=
  name ++ txt " " ++ digest ++ txt " " ++ effectToken (effect e) ++
  (if nounwind e then txt " nounwind" else []) ++
  (if willReturn e then txt " willreturn" else []).

(** [std::istringstream >> std::string]: leading white space is skipped and the
    token runs to the next white space; [None] when nothing is left. *)
Definition next_token (s : text) : option (text * text) :=
  let s := drop (prefix_len is_space s) s in
  match s with
  | [] => None
  | _ =>
      let n := prefix_len (fun c => negb (is_space c)) s in
      Some (take n s, drop n s)
  end.

(** [while (in >> tok)], as the list of what it reads. *)
Fixpoint tokens_loop (fuel : nat) (s : text) : list text :=
  match fuel with
  | O => []
  | S f => match next_token s with
           | None => []
           | Some (t, rest) => t :: tokens_loop f rest
           end
  end.
Definition tokens (s : text) : list text := tokens_loop (S (length s)) s.

(** One flag: [None] for a token the reader does not understand. *)
Definition flag (st : ProcEffects * bool) (tok : text) : option (ProcEffects * bool) :=
  let '(e, saw) := st in
  let set eff := Some (mkEffects eff (nounwind e) (willReturn e) (note e), true) in
  if text_eqb tok (txt "none") then set NoMemory
  else if text_eqb tok (txt "argmem-read") then set ArgRead
  else if text_eqb tok (txt "argmem-readwrite") then set ArgReadWrite
  else if text_eqb tok (txt "read") then set Read
  else if text_eqb tok (txt "readwrite") then set Unknown
  else if text_eqb tok (txt "nounwind") then
    Some (mkEffects (effect e) true (willReturn e) (note e), saw)
  else if text_eqb tok (txt "willreturn") then
    Some (mkEffects (effect e) (nounwind e) true (note e), saw)
  else None.

Fixpoint flags (toks : list text) (st : ProcEffects * bool) : option (ProcEffects * bool) :=
  match toks with
  | [] => Some st
  | t :: toks' => match flag st t with Some st' => flags toks' st' | None => None end
  end.

(** The function's result with its three out-parameters; [None] is [false],
    after which no caller reads them. *)
Definition parseEffectLine (line : text) : option (text * ProcEffects * text) :=
  match next_token line with
  | None => None
  | Some (name, rest) =>
      match next_token rest with
      | None => None
      | Some (digest, rest) =>
          match flags (tokens rest) (noPromise, false) with
          | Some (e, true) => Some (name, e, digest)
          | _ => None
          end
      end
  end.

(** ** Tokens *)
Definition word (s : text) : Prop := s <> [] /\ Forall (fun c => is_space c = false) s.

#[global] Instance word_dec s : Decision (word s).
Proof. unfold word. apply _. Defined.

Lemma prefix_len_all P s : Forall (fun c => P c = true) s -> prefix_len P s = length s.
Proof. induction 1 as [|c s Hc Hs IH]; cbn; [done|]. by rewrite Hc, IH. Qed.

Lemma prefix_len_stop P s c rest :
  Forall (fun c => P c = true) s -> P c = false -> prefix_len P (s ++ c :: rest) = length s.
Proof. induction 1 as [|d s Hd Hs IH]; intros Hc; cbn; [by rewrite Hc|]. by rewrite Hd, IH. Qed.

Lemma next_token_word s rest :
  word s -> (rest = [] \/ exists c r, rest = c :: r /\ is_space c = true) ->
  next_token (s ++ rest) = Some (s, rest).
Proof.
  intros [Hne Hs] Hr. unfold next_token. destruct s as [|c s]; [done|].
  assert (is_space c = false) as Hc by by inversion Hs.
  cbn [app prefix_len]. rewrite Hc. cbn [drop].
  assert (Forall (fun c => negb (is_space c) = true) (c :: s)) as Hs'.
  { eapply Forall_impl; [exact Hs|]. cbn. intros x ->. done. }
  change (c :: s ++ rest) with ((c :: s) ++ rest).
  assert (prefix_len (fun c => negb (is_space c)) ((c :: s) ++ rest) = length (c :: s)) as ->.
  { destruct Hr as [->|(d & r & -> & Hd)].
    - rewrite app_nil_r. by apply prefix_len_all.
    - apply prefix_len_stop; [done|]. by rewrite Hd. }
  by rewrite take_app_length, drop_app_length.
Qed.

Lemma next_token_space c s : is_space c = true -> next_token (c :: s) = next_token s.
Proof. intros Hc. unfold next_token. cbn [prefix_len]. by rewrite Hc. Qed.

Lemma next_token_shrinks s t rest : next_token s = Some (t, rest) -> (length rest < length s)%nat.
Proof.
  unfold next_token. set (s' := drop (prefix_len is_space s) s).
  assert (length s' <= length s)%nat by (unfold s'; rewrite length_drop; lia).
  destruct s' as [|c s''] eqn:E; [done|]. intros [= <- <-].
  assert (is_space c = false) as Hc.
  { clear -E. subst s'. induction s as [|d s IH]; cbn in E; [done|].
    destruct (is_space d) eqn:Hd; [by apply IH|]. cbn in E. by simplify_eq. }
  cbn [prefix_len]. rewrite Hc. cbn [negb drop]. rewrite length_drop. cbn in *. lia.
Qed.

(** The tokens of words laid out with single blanks, as the writer does. *)
Definition spaced (ws : list text) : text := mjoin ((fun w => txt " " ++ w) <$> ws).

Lemma spaced_head ws : spaced ws = [] \/ exists c r, spaced ws = c :: r /\ is_space c = true.
Proof. destruct ws as [|w ws]; [by left|]. right. by eexists _, _. Qed.

Lemma tokens_spaced ws : Forall word ws -> tokens (spaced ws) = ws.
Proof.
  intros Hws. unfold tokens.
  assert (forall f, (length (spaced ws) < f)%nat -> tokens_loop f (spaced ws) = ws); [|auto with lia].
  induction Hws as [|w ws Hw Hws IH]; intros f Hf; (destruct f as [|f]; [lia|]); [done|].
  change (spaced (w :: ws)) with (" "%char :: w ++ spaced ws) in *.
  cbn [tokens_loop]. rewrite next_token_space by done.
  rewrite next_token_word by (done || apply spaced_head). f_equal. apply IH.
  cbn in Hf. rewrite length_app in Hf. lia.
Qed.

Definition flag_words (e : ProcEffects) : list text :=
  effectToken (effect e) ::
  (if nounwind e then [txt "nounwind"] else []) ++ (if willReturn e then [txt "willreturn"] else []).

Lemma flag_words_words e : Forall word (flag_words e).
Proof. destruct e as [[] [] [] nt]; cbn; by_dec. Qed.

Lemma format_spaced name e digest :
  formatEffectLine name e digest = name ++ spaced (digest :: flag_words e).
Proof.
  unfold formatEffectLine, spaced, flag_words. cbn.
  destruct (nounwind e), (willReturn e); cbn; by rewrite <- ?app_assoc, ?app_nil_r.
Qed.

(** The known flags, and what a list of them means: the last effect token and
    the union of the control promises. *)
Definition effect_of (tok : text) : option MemEffect :=
  snd <$> find (fun p => text_eqb (fst p) tok)
    ((fun e => (effectToken e, e)) <$> [NoMemory; ArgRead; ArgReadWrite; Read; Unknown]).

Definition known_flag (tok : text) : Prop :=
  is_Some (effect_of tok) \/ tok = txt "nounwind" \/ tok = txt "willreturn".

Definition promise (toks : list text) : ProcEffects :=
  mkEffects (default Unknown (last (omap effect_of toks)))
    (bool_decide (txt "nounwind" ∈ toks)) (bool_decide (txt "willreturn" ∈ toks)) [].

Lemma tokens_loop_fuel f g s :
  (length s < f)%nat -> (length s < g)%nat -> tokens_loop f s = tokens_loop g s.
Proof.
  revert g s. induction f as [|f IH]; intros g s Hf Hg; [lia|]. destruct g as [|g]; [lia|].
  cbn [tokens_loop]. destruct (next_token s) as [[t rest]|] eqn:E; [|done].
  apply next_token_shrinks in E. f_equal. apply IH; lia.
Qed.

Lemma tokens_unfold s :
  tokens s = match next_token s with None => [] | Some (t, rest) => t :: tokens rest end.
Proof.
  unfold tokens at 1. cbn [tokens_loop]. destruct (next_token s) as [[t rest]|] eqn:E; [|done].
  apply next_token_shrinks in E. f_equal. apply tokens_loop_fuel; lia.
Qed.

#[global] Instance known_flag_dec tok : Decision (known_flag tok).
Proof. unfold known_flag. apply _. Defined.

(** One flag, by the meaning of its token. *)
Lemma flag_spec e saw tok :
  flag (e, saw) tok =
  match effect_of tok with
  | Some eff => Some (mkEffects eff (nounwind e) (willReturn e) (note e), true)
  | None =>
      if bool_decide (known_flag tok) then
        Some (mkEffects (effect e) (nounwind e || bool_decide (tok = txt "nounwind"))
                (willReturn e || bool_decide (tok = txt "willreturn")) (note e), saw)
      else None
  end.
Proof.
  destruct (decide (tok ∈ txt <$> ["none"; "argmem-read"; "argmem-readwrite"; "read"; "readwrite";
                                   "nounwind"; "willreturn"]%string)) as [H|H].
  - cbn in H. rewrite !elem_of_cons, elem_of_nil in H.
    destruct e as [eff [] [] nt]; decompose [or] H; (done || (subst; vm_compute; done)).
  - cbn in H. rewrite !not_elem_of_cons in H. destruct H as (H1 & H2 & H3 & H4 & H5 & H6 & H7 & _).
    assert (effect_of tok = None) as En.
    { unfold effect_of. cbn [fmap list_fmap find fst effectToken]. unfold text_eqb.
      by rewrite !bool_decide_false. }
    unfold flag, text_eqb. rewrite En, !bool_decide_false; try done.
    unfold known_flag. rewrite En. by intros [[]|[]].
Qed.

Lemma last_omap_cons {A B} (f : A -> option B) (d : B) x l :
  default d (last (omap f (x :: l))) = default (default d (f x)) (last (omap f l)).
Proof.
  cbn. destruct (f x) as [y|]; [|done]. rewrite last_cons. by destruct (last (omap f l)).
Qed.

Lemma flags_spec toks e saw :
  flags toks (e, saw) =
  if decide (Forall known_flag toks) then
    Some (mkEffects (default (effect e) (last (omap effect_of toks)))
            (nounwind e || bool_decide (txt "nounwind" ∈ toks))
            (willReturn e || bool_decide (txt "willreturn" ∈ toks)) (note e),
          saw || bool_decide (Exists (fun t => is_Some (effect_of t)) toks))
  else None.
Proof.
  revert e saw. induction toks as [|t toks IH]; intros e saw; cbn [flags].
  { destruct (decide _) as [_|H]; [|by destruct H]. destruct e. by rewrite !orb_false_r. }
  assert (Hn : forall x, bool_decide (x ∈ t :: toks) = bool_decide (t = x) || bool_decide (x ∈ toks)).
  { intros x. rewrite <- bool_decide_or. apply bool_decide_ext. set_solver. }
  assert (He : bool_decide (Exists (fun t => is_Some (effect_of t)) (t :: toks)) =
               bool_decide (is_Some (effect_of t)) || bool_decide (Exists (fun t => is_Some (effect_of t)) toks)).
  { rewrite <- bool_decide_or. apply bool_decide_ext. apply Exists_cons. }
  rewrite flag_spec, last_omap_cons, !Hn, He. clear Hn He.
  assert (known_flag t -> Forall known_flag toks -> Forall known_flag (t :: toks)) as Hc by by constructor.
  destruct (effect_of t) as [eff|] eqn:E.
  - assert (known_flag t) by (left; by rewrite E).
    assert (t <> txt "nounwind" /\ t <> txt "willreturn") as [H1 H2].
    { split; intros ->; vm_compute in E; done. }
    rewrite (bool_decide_false _ H1), (bool_decide_false _ H2), IH, (bool_decide_true (is_Some _)) by done.
    cbn [effect nounwind willReturn note default orb].
    destruct (decide (Forall known_flag toks)) as [Hf|Hf].
    + rewrite decide_True by auto. by rewrite orb_true_r.
    + rewrite decide_False; [done|]. intros Hg. by inversion Hg.
  - rewrite (bool_decide_false (is_Some _)) by by intros [].
    destruct (decide (known_flag t)) as [Hk|Hk].
    + rewrite (bool_decide_true _ Hk), IH. cbn [effect nounwind willReturn note default orb].
      rewrite <- !orb_assoc.
      destruct (decide (Forall known_flag toks)) as [Hf|Hf].
      * by rewrite decide_True by auto.
      * rewrite decide_False; [done|]. intros Hg. by inversion Hg.
    + rewrite (bool_decide_false _ Hk), decide_False; [done|]. intros Hg. by inversion Hg.
Qed.

Lemma effect_of_token e : effect_of (effectToken e) = Some e.
Proof. by destruct e; vm_compute. Qed.

Lemma promise_flag_words e :
  promise (flag_words e) = mkEffects (effect e) (nounwind e) (willReturn e) [].
Proof. destruct e as [[] [] [] nt]; vm_compute; done. Qed.

Lemma parse_tokens line n e d :
  parseEffectLine line = Some (n, e, d) <->
  exists fs, tokens line = n :: d :: fs /\ Forall known_flag fs /\
    Exists (fun t => is_Some (effect_of t)) fs /\ e = promise fs.
Proof.
  unfold parseEffectLine. rewrite tokens_unfold.
  destruct (next_token line) as [[n' rest]|]; [|split; [done|naive_solver]].
  rewrite tokens_unfold. destruct (next_token rest) as [[d' rest']|]; [|split; [done|naive_solver]].
  rewrite flags_spec. cbn [effect nounwind willReturn note orb noPromise].
  fold (promise (tokens rest')). split.
  - destruct (decide _) as [Hf|]; [|done]. case_bool_decide as Hx; [|done].
    intros [= <- <- <-]. by exists (tokens rest').
  - intros (fs & [= -> -> ->] & Hf & Hx & ->).
    destruct (decide _) as [_|]; [|done]. by rewrite bool_decide_true.
Qed.

(** The published-effects line format.  Writing a verdict and reading it
    back gives the name, the digest and the verdict (the report's note aside),
    for every name and digest without white space.  The reader accepts exactly
    the lines that name a procedure, a digest and known flags with at least
    one memory effect among them, and what it returns is the last effect with
    the union of the control promises; anything else is refused. *)
Theorem published_effects_format (name digest line : text) (e : ProcEffects) :
  (word name -> word digest ->
     parseEffectLine (formatEffectLine name e digest) =
       Some (name, mkEffects (effect e) (nounwind e) (willReturn e) [], digest)) /\
  (parseEffectLine line = Some (name, e, digest) <->
     exists fs, tokens line = name :: digest :: fs /\ Forall known_flag fs /\
       Exists (fun t => is_Some (effect_of t)) fs /\ e = promise fs).
Proof.
  split; [|apply parse_tokens]. intros Hn Hd. apply parse_tokens. exists (flag_words e).
  rewrite format_spaced, tokens_unfold, next_token_word by (done || apply spaced_head).
  assert (Forall word (digest :: flag_words e)) by (constructor; [done|apply flag_words_words]).
  rewrite tokens_spaced by done. split; [done|]. split; [|split].
  - destruct e as [[] [] [] nt]; cbn; by_dec.
  - apply Exists_cons. left. by rewrite effect_of_token.
  - by rewrite promise_flag_words.
Qed.

Lemma published_effects_format_witness :
  word (txt "PURE_HELPER") /\ word (txt "3f2a1c9d") /\
  parseEffectLine (formatEffectLine (txt "PURE_HELPER") (mkEffects ArgRead true true []) (txt "3f2a1c9d")) =
    Some (txt "PURE_HELPER", mkEffects ArgRead true true [], txt "3f2a1c9d").
Proof.
  assert (word (txt "PURE_HELPER")) as H1 by by_dec.
  assert (word (txt "3f2a1c9d")) as H2 by by_dec.
  split; [exact H1|]. split; [exact H2|].
  exact (proj1 (published_effects_format (txt "PURE_HELPER") (txt "3f2a1c9d") []
                  (mkEffects ArgRead true true [])) H1 H2).
Defined.
