(* ===== verification/Picture.v ===== *)
(** * PICTURE specifications

    irgen_decisions.cpp: the picture classifier ([classifyPicture], rules
    (146)-(148)) and the compile-time conversion of a constant through a
    picture ([foldPictureConversion]); runtime/rt_edit.c: the interpreter the
    fold stands for ([pic_format128], reached through [pli_put_edit_pic]). *)
From S2P Require Import Prelude.

(** ** Character classes *)
Definition char_in (s : string) (c : char) : bool := existsb (ceqb c) (txt s).

Definition isPictureChar : char -> bool := char_in "ABCDEGHIKMPSTVYZ$.,*/1236789XFR+-".
Definition isNumericPictureChar : char -> bool := char_in "9ZV.,$+-SY*EKCRDTIB/GHMP678".
Definition isFoldablePictureChar : char -> bool := char_in "9ZV.+-SXA".

Record PictureSpec := mkSpec {
  valid : bool; numeric : bool; foldable : bool; sterling : bool; binary : bool;
  hasRepeat : bool; hasScale : bool; width : Z; intDigits : Z; fracDigits : Z;
  point : Z; scale : Z; badChar : char; expanded : text }.

Definition spec0 : PictureSpec :=
  mkSpec false false false false false false false 0 0 0 (-1) 0 NUL [].

Definition set_badChar c s := mkSpec (valid s) (numeric s) (foldable s) (sterling s) (binary s)
  (hasRepeat s) (hasScale s) (width s) (intDigits s) (fracDigits s) (point s) (scale s) c (expanded s).
Definition set_scale n s := mkSpec (valid s) (numeric s) (foldable s) (sterling s) (binary s)
  (hasRepeat s) true (width s) (intDigits s) (fracDigits s) (point s) n (badChar s) (expanded s).

(** ** The classifier *)

(** The digit loops of a repetition factor and of F(n): the value, whether a
    digit was read and what follows; [None] is the return on a value above
    1000000. *)
Fixpoint bounded_digits (s : text) (n : Z) (digits : bool) : option (Z * bool * text) :=
  match s with
  | c :: s' =>
      if is_digit c then
        let n := n * 10 + (code c - 48) in
        if 1000000 <? n then None else bounded_digits s' n true
      else Some (n, digits, s)
  | [] => Some (n, digits, [])
  end.

(** "(integer)" at the head of [s], which starts after the parenthesis. *)
Definition repeat_factor (s : text) : option (Z * text) :=
  match bounded_digits s 0 false with
  | Some (n, true, c :: s') => if ceqb c ")" then Some (n, s') else None
  | _ => None
  end.

(** "(n)", "(+n)", "(-n)" after an F; it must end the picture. *)
Definition scale_factor (s : text) : option Z :=
  match s with
  | c :: s' =>
      if ceqb c "(" then
        let '(sign, s'') :=
          match s' with
          | d :: s'' => if ceqb d "+" then (1, s'') else if ceqb d "-" then (-1, s'') else (1, s')
          | [] => (1, s')
          end in
        match repeat_factor s'' with
        | Some (n, []) => Some (sign * n)
        | _ => None
        end
      else None
  | [] => None
  end.

(** One character, [repeat] times. *)
Definition expand_char (c : char) (repeat : Z) (repeated : bool) (s : PictureSpec) : PictureSpec :=
  mkSpec (valid s) (numeric s) (foldable s) (sterling s)
    (binary s || ceqb c "1" || ceqb c "2" || ceqb c "3")
    (hasRepeat s || repeated) (hasScale s)
    (width s + (if ceqb c "V" then 0 else repeat))
    (intDigits s) (fracDigits s) (point s) (scale s) (badChar s)
    (expanded s ++ replicate (Z.to_nat repeat) c).

(** The expansion loop: the specification so far and whether the loop ran to
    the end ([false] is one of its [return s]).  [fuel] bounds the iterations;
    each consumes at least one character. *)
Fixpoint expand (fuel : nat) (pic : text) (s : PictureSpec) : PictureSpec * bool :=
  match fuel with
  | O => (s, false)
  | S f =>
      let char_at (repeat : Z) (repeated : bool) (rest : text) :=
        match rest with
        | [] => (s, false)
        | c :: rest' =>
            if ceqb c "F" then
              if repeated then (s, false)
              else match scale_factor rest' with
                   | Some n => (set_scale n s, true)
                   | None => (s, false)
                   end
            else if negb (isPictureChar c) then (set_badChar c s, false)
            else expand f rest' (expand_char c repeat repeated s)
        end in
      match pic with
      | [] => (s, true)
      | c :: rest =>
          if ceqb c "(" then
            match repeat_factor rest with
            | Some (n, rest') => char_at n true rest'
            | None => (s, false)
            end
          else char_at 1 false pic
      end
  end.

(** The sterling fields after "GM": the state is the field number, the digits
    of the current field, the width and the digit count; the flag is [false]
    when the loop returned early. *)
Fixpoint sterling_fields (s : text) (field digits width ints : Z) : bool * Z * Z * Z * Z :=
  match s with
  | [] => (true, field, digits, width, ints)
  | c :: s' =>
      if ceqb c "M" then
        if (digits =? 0) || (2 <=? field) then (false, field, digits, width, ints)
        else sterling_fields s' (field + 1) 0 width ints
      else if ceqb c "9" || ceqb c "Z" then
        sterling_fields s' field (digits + 1) (width + 1) (ints + 1)
      else if (field =? 0) || negb (char_in ".B/HP" c) then (false, field, digits, width, ints)
      else sterling_fields s' field digits (width + 1) ints
  end.

Definition is_point (c : char) : bool := ceqb c "V" || ceqb c ".".

(** rule (148): every digit-position class counts toward the precision. *)
Definition digit_position (c : char) : bool := char_in "9ZY*$TIR" c.

Fixpoint find_char (P : char -> bool) (s : text) (i : Z) : Z :=
  match s with
  | [] => -1
  | c :: s' => if P c then i else find_char P s' (i + 1)
  end.

(** The count loop: (intDigits, fracDigits). *)
Fixpoint count_positions (point i : Z) (s : text) (ints fracs : Z) : Z * Z :=
  match s with
  | [] => (ints, fracs)
  | c :: s' =>
      if negb (digit_position c) then count_positions point (i + 1) s' ints fracs
      else if (0 <=? point) && (point <? i) then count_positions point (i + 1) s' ints (fracs + 1)
      else count_positions point (i + 1) s' (ints + 1) fracs
  end.

Definition sterlingSpec (s : PictureSpec) : PictureSpec :=
  let base v w i := mkSpec v true false true (binary s) (hasRepeat s) (hasScale s) w i 0
                      (point s) (scale s) (badChar s) (expanded s) in
  match expanded s with
  | _ :: m :: rest =>
      if ceqb m "M" then
        let '(ok, field, digits, w, i) := sterling_fields rest 0 0 0 0 in
        base (ok && negb (negb (field =? 2) || (digits =? 0) || (w <=? 0) || (127 <? w) || (38 <? i)))
          w i
      else base false 0 0
  | _ => base false 0 0
  end.

Definition numericSpec (s : PictureSpec) : PictureSpec :=
  let pt := find_char is_point (expanded s) 0 in
  let '(ints, fracs) := count_positions pt 0 (expanded s) 0 0 in
  let num := existsb isNumericPictureChar (expanded s) in
  let fold := num && negb (hasRepeat s) && negb (hasScale s) && (0 <? width s) &&
              (length (expanded s) <=? 127)%nat && (0 <? ints + fracs) in
  mkSpec true num (fold && forallb isFoldablePictureChar (expanded s)) (sterling s) (binary s)
    (hasRepeat s) (hasScale s) (width s) ints fracs pt (scale s) (badChar s) (expanded s).

Definition classifyPicture (pic : text) : PictureSpec :=
  match pic with
  | [] => spec0
  | _ =>
      let '(s, ok) := expand (S (length pic)) pic spec0 in
      if negb ok then s
      else match expanded s with
           | [] => s
           | c :: _ => if ceqb c "G" then sterlingSpec s else numericSpec s
           end
  end.

(** ** The digits of a magnitude *)

(** [while (av > 0 && ndig < 64) digits[ndig++] = av % 10], least significant
    first; the swap loop after it reverses the array. *)
Fixpoint digits_loop (room : nat) (av : Z) : list Z :=
  match room with
  | O => []
  | S r => if av =? 0 then [] else av mod 10 :: digits_loop r (av / 10)
  end.
Definition digits_of (av : Z) : list Z := if av =? 0 then [0] else rev (digits_loop 64 av).

Definition dchar (digits : list Z) (i : Z) : char :=
  char_of (48 + default 0 (digits !! Z.to_nat i)).

(** ** The compile-time conversion *)

(** The loop's text, suppression flag and fractional index. *)
Record fold_state := mkFold { f_text : text; f_led : bool; f_frac : Z }.

Definition is_nine_z (c : char) : bool := ceqb c "9" || ceqb c "Z".

(** One picture character: [pre] is the part of the picture before it. *)
Definition fold_char (digits : list Z) (val_int val_frac : Z) (isneg : bool) (spec : PictureSpec)
    (pre : text) (c : char) (st : fold_state) : fold_state :=
  let emit d := mkFold (f_text st ++ [d]) (f_led st) (f_frac st) in
  let pi := Z.of_nat (length pre) in
  let is_fractional := (0 <=? point spec) && (point spec <? pi) in
  if ceqb c "V" then st
  else if is_nine_z c then
    if is_fractional then
      if f_frac st <? val_frac then
        mkFold (f_text st ++ [dchar digits (val_int + f_frac st)]) false (f_frac st + 1)
      else mkFold (f_text st ++ ["0"%char]) (f_led st) (f_frac st + 1)
    else
      let int_idx := Z.of_nat (length (filter (fun d => is_nine_z d) pre)) in
      let src_idx := int_idx - (intDigits spec - val_int) in
      if src_idx <? 0 then emit (if ceqb c "9" then "0"%char else " "%char)
      else if src_idx <? val_int then
        let d := dchar digits src_idx in
        if ceqb c "Z" && ceqb d "0" && f_led st then emit " "%char
        else mkFold (f_text st ++ [d]) false (f_frac st)
      else emit (if ceqb c "9" then "0"%char else " "%char)
  else if ceqb c "." then emit "."%char
  else if ceqb c "+" then emit (if isneg then "-"%char else "+"%char)
  else if ceqb c "-" || ceqb c "S" then emit (if isneg then "-"%char else " "%char)
  else if ceqb c "X" || ceqb c "A" then emit " "%char
  else emit c.

Fixpoint fold_loop (digits : list Z) (val_int val_frac : Z) (isneg : bool) (spec : PictureSpec)
    (pre rest : text) (st : fold_state) : fold_state :=
  match rest with
  | [] => st
  | c :: rest' =>
      fold_loop digits val_int val_frac isneg spec (pre ++ [c]) rest'
        (fold_char digits val_int val_frac isneg spec pre c st)
  end.

(** [value] is a 64-bit integer; the result is the out-parameter, [None] for
    [return false]. *)
Definition foldPictureConversion (value sc : Z) (spec : PictureSpec) : option text :=
  if negb (valid spec) || negb (foldable spec) || (sc <? 0) then None
  else if value =? - 2 ^ 63 then None
  else
    let isneg := value <? 0 in
    let av := if isneg then u64 (u64 (- (value + 1)) + 1) else u64 value in
    let digits := digits_of av in
    let ndig := Z.of_nat (length digits) in
    let val_int := if sc <? ndig then ndig - sc else 0 in
    let val_frac := if sc <? ndig then sc else ndig in
    let st := fold_loop digits val_int val_frac isneg spec [] (expanded spec) (mkFold [] true 0) in
    if Z.of_nat (length (f_text st)) =? width spec then Some (f_text st) else None.

(** ** The run-time interpreter *)
Definition pic_digit_class (c : char) : bool := char_in "9ZY*$TIR" c.
Definition forced (c : char) : bool := char_in "9TIR" c.
Definition suppressing (c : char) : bool := char_in "ZY*$" c.

(** The picture facts the interpreter computes before its first pass. *)
Record rt_facts := mkRt {
  r_digits : list Z; r_val_int : Z; r_val_frac : Z; r_vpos : Z; r_fixed : bool;
  r_int_total : Z; r_frac_total : Z; r_isneg : bool; r_ocap : Z }.

(** The walk's state: the output so far ([oi] is its length), the suppression
    flag, the two digit indices, and the exponent's place. *)
Record rt_state := mkSt {
  s_out : text; s_led : bool; s_int : Z; s_frac : Z; s_expo : option nat }.

Definition put (cs : text) (st : rt_state) : rt_state :=
  mkSt (s_out st ++ cs) (s_led st) (s_int st) (s_frac st) (s_expo st).
Definition significant (d : char) (st : rt_state) : rt_state :=
  mkSt (s_out st ++ [d]) false (s_int st) (s_frac st) (s_expo st).

(** A value digit at a position of class [c]: suppressed or printed. *)
Definition rt_digit (c d : char) (st : rt_state) : rt_state :=
  if suppressing c && ceqb d "0" && s_led st then
    put [if ceqb c "*" then "*"%char else " "%char] st
  else significant d st.

(** A position to the right of the value's digits. *)
Definition rt_pad_right (c : char) (st : rt_state) : rt_state :=
  if forced c then put ["0"%char] st
  else if ceqb c "*" then put [if s_led st then "*"%char else "0"%char] st
  else put [if s_led st then " "%char else "0"%char] st.

Definition next_int (st : rt_state) : rt_state :=
  mkSt (s_out st) (s_led st) (s_int st + 1) (s_frac st) (s_expo st).
Definition next_frac (st : rt_state) : rt_state :=
  mkSt (s_out st) (s_led st) (s_int st) (s_frac st + 1) (s_expo st).

Definition rt_position (F : rt_facts) (pi : Z) (c : char) (st : rt_state) : rt_state :=
  if (0 <=? r_vpos F) && (r_vpos F <? pi) then
    next_frac
      (if s_frac st <? r_val_frac F then
         rt_digit c (dchar (r_digits F) (r_val_int F + s_frac st)) st
       else rt_pad_right c st)
  else
    let src_idx := s_int st - (r_int_total F - r_val_int F) in
    next_int
      (if src_idx <? 0 then
         put [if forced c then "0"%char else if ceqb c "*" then "*"%char else " "%char] st
       else if src_idx <? r_val_int F then rt_digit c (dchar (r_digits F) src_idx) st
       else rt_pad_right c st).

(** The characters that are not digit positions; the flag asks to skip the
    next picture character (the second half of CR or DB). *)
Definition rt_other (F : rt_facts) (c : char) (rest : text) (st : rt_state) : rt_state * bool :=
  let next d := match rest with x :: _ => ceqb x d | [] => false end in
  let room n := Z.of_nat (length (s_out st)) + n <=? r_ocap F in
  let sign (a b : char) := if r_isneg F then a else b in
  if ceqb c "." || ceqb c "," || ceqb c "/" then (put [c] st, false)
  else if ceqb c "B" then (put [" "%char] st, false)
  else if ceqb c "+" || ceqb c "-" then
    (put [sign "-"%char (if ceqb c "-" then " "%char else "+"%char)] st, false)
  else if ceqb c "S" then (put [sign "-"%char " "%char] st, false)
  else if ceqb c "C" && next "R"%char then
    if room 2 then (put [sign "C"%char " "%char; sign "R"%char " "%char] st, true) else (st, false)
  else if ceqb c "D" && next "B"%char then
    if room 2 then (put [sign "D"%char " "%char; sign "B"%char " "%char] st, true) else (st, false)
  else if ceqb c "X" || ceqb c "A" then (put [" "%char] st, false)
  else if ceqb c "E" || ceqb c "K" then
    if room 4 then
      (mkSt (s_out st ++ replicate 4 " "%char) (s_led st) (s_int st) (s_frac st)
         (Some (length (s_out st))), false)
    else (st, false)
  else (put [c] st, false).

(** The first pass; [pi < piclen && oi < ocap]. *)
Fixpoint rt_walk (F : rt_facts) (pi : Z) (pic : text) (st : rt_state) : rt_state :=
  match pic with
  | [] => st
  | c :: rest =>
      if r_ocap F <=? Z.of_nat (length (s_out st)) then st
      else if ceqb c "V" then rt_walk F (pi + 1) rest st
      else if r_fixed F && (pi =? 0) && ceqb c "$" then rt_walk F (pi + 1) rest (put ["$"%char] st)
      else if pic_digit_class c then rt_walk F (pi + 1) rest (rt_position F pi c st)
      else
        let '(st', skip) := rt_other F c rest st in
        match rest with
        | _ :: rest' => if skip then rt_walk F (pi + 2) rest' st' else rt_walk F (pi + 1) rest st'
        | [] => st'
        end
  end.

(** Characters of a class among the first [n]. *)
Definition count_class (P : char -> bool) (s : text) : Z := Z.of_nat (length (filter (fun c => P c) s)).

(** "$$" at the start, not three: the first prints literally. *)
Definition fixed_currency (pic : text) : bool :=
  match pic with
  | a :: b :: rest =>
      ceqb a "$" && ceqb b "$" && match rest with c :: _ => negb (ceqb c "$") | [] => true end
  | _ => false
  end.

(** The first run of '$': its start ([-1] when there is none) and its end. *)
Definition currency_run (pic : text) : Z * Z :=
  let start := find_char (fun c => ceqb c "$") pic 0 in
  if start <? 0 then (-1, -1)
  else (start, start + Z.of_nat (prefix_len (fun c => ceqb c "$") (drop (Z.to_nat start) pic))).

Fixpoint explicit_sign (pic : text) : bool :=
  match pic with
  | [] => false
  | c :: rest =>
      ceqb c "+" || ceqb c "-" || ceqb c "S" ||
      (ceqb c "C" && match rest with d :: _ => ceqb d "R" | [] => false end) ||
      (ceqb c "D" && match rest with d :: _ => ceqb d "B" | [] => false end) ||
      explicit_sign rest
  end.

Definition is_exponent (c : char) : bool := ceqb c "E" || ceqb c "K".

Definition rt_facts_of (av : Z) (isneg : bool) (sc : Z) (pic : text) (cap : Z) : rt_facts :=
  let digits := digits_of av in
  let ndig := Z.of_nat (length digits) in
  let vpos := find_char is_point pic 0 in
  let fixed := fixed_currency pic in
  let int_part := if 0 <=? vpos then take (Z.to_nat vpos) pic else pic in
  let frac_part := if 0 <=? vpos then drop (Z.to_nat (vpos + 1)) pic else [] in
  let maxout := Z.of_nat (length pic) + 3 * count_class is_exponent pic in
  mkRt digits (if sc <? ndig then ndig - sc else 0) (if sc <? ndig then sc else ndig) vpos fixed
    (count_class pic_digit_class (if fixed then drop 1 int_part else int_part))
    (count_class pic_digit_class frac_part) isneg (if maxout <? cap then maxout else cap).

(** The third pass: the floating currency sign. *)
Definition float_currency (pic out : text) : text :=
  let '(start, stop) := currency_run pic in
  let oi := Z.of_nat (length out) in
  if negb (fixed_currency pic) && (0 <=? start) && (stop <=? oi) then
    let si := Z.of_nat (prefix_len (fun c => ceqb c " ") out) in
    if (0 <? si) && (start <=? si - 1) && (si - 1 <? stop) then
      <[Z.to_nat (si - 1) := "$"%char]> out
    else if si =? oi then
      if start <? oi then <[Z.to_nat start := "$"%char]> out else out
    else out
  else out.

(** The fourth pass: "E+dd" at the reserved place. *)
Definition write_exponent (exponent : Z) (at_pos : option nat) (out : text) : text :=
  match at_pos with
  | Some p =>
      let e := Z.abs exponent in
      <[p := "E"%char]> (<[S p := if 0 <=? exponent then "+"%char else "-"%char]>
        (<[S (S p) := char_of (48 + (e / 10) mod 10)]>
           (<[S (S (S p)) := char_of (48 + e mod 10)]> out)))
  | None => out
  end.

Definition pic_format128 (val sc sign : Z) (pic : text) (cap : Z) : text :=
  if (Z.of_nat (length pic) <=? 0) || (cap <=? 0) then []
  else
    let isneg := sign <? 0 in
    let av := if isneg then uwrap 128 (Z.abs val) else uwrap 128 val in
    let F := rt_facts_of av isneg sc pic cap in
    let st := rt_walk F 0 pic (mkSt [] true 0 0 None) in
    let out := float_currency pic (s_out st) in
    let out := write_exponent (sc - r_frac_total F) (s_expo st) out in
    if isneg && negb (explicit_sign pic) && (Z.of_nat (length out) <? cap) then out ++ ["-"%char]
    else out.

(** [pli_put_edit_pic]: what it writes, through its 128-byte buffer. *)
Definition pli_put_edit_pic (val sc sign : Z) (pic : text) : text :=
  pic_format128 val sc sign pic 127.

(** The sign irgen passes. *)
Definition sign_of (value : Z) : Z := if value <? 0 then -1 else 1.

(** *** Samples *)
Example picture_ex1 : foldPictureConversion 12345 2 (classifyPicture (txt "ZZ9.99")) = Some (txt "123.45").
Proof. vm_compute. reflexivity. Qed.
Example picture_ex2 : pli_put_edit_pic 12345 2 1 (txt "ZZ9.99") = txt "123.45".
Proof. vm_compute. reflexivity. Qed.
Example picture_ex3 : pli_put_edit_pic (-1234567) 2 (-1) (txt "$$$,$$9V.99CR") = txt "$12,345.67CR".
Proof. vm_compute. reflexivity. Qed.
Example picture_ex4 : pli_put_edit_pic 5 2 1 (txt "9V99") = txt "050".
Proof. vm_compute. reflexivity. Qed.
