(* ===== verification/PictureFold.v ===== *)
(** * The picture fold against the interpreter

    The compile-time conversion of Picture.v writes what the interpreter
    writes, on the pictures where the two agree; where they do not, samples. *)
From S2P Require Import Prelude Picture.

#[local] Set Default Proof Using "All".

(** ** Characters of foldable pictures *)
Lemma char_in_spec s c : char_in s c = true <-> c ∈ txt s.
Proof.
  unfold char_in. rewrite existsb_exists. setoid_rewrite ceqb_true.
  setoid_rewrite <- list_elem_of_In. naive_solver.
Qed.

Lemma foldable_cases (P : char -> Prop) :
  Forall P (txt "9ZV.+-SXA") -> forall c, isFoldablePictureChar c = true -> P c.
Proof.
  intros HP c Hc. apply char_in_spec in Hc. by eapply Forall_forall in HP.
Qed.

(** ** The classifier on a picture without repetition or scaling *)
Definition not_V (c : char) : bool := negb (ceqb c "V").

Lemma expand_hasRepeat f pic s s' :
  expand f pic s = (s', true) -> hasRepeat s = true -> hasRepeat s' = true.
Proof.
  revert pic s. induction f as [|f IH]; intros pic s; [done|]. cbn [expand].
  destruct pic as [|c rest]; [by intros [= <-]|].
  destruct (ceqb c "(").
  - destruct (repeat_factor rest) as [[n [|d rest']]|]; [done| |done].
    destruct (ceqb d "F"); [done|]. destruct (negb (isPictureChar d)); [done|].
    intros H1 H2. eapply IH; [exact H1|]. cbn. by rewrite H2.
  - destruct (ceqb c "F").
    + destruct (scale_factor rest); [|done]. intros [= <-]. done.
    + destruct (negb (isPictureChar c)); [done|].
      intros H1 H2. eapply IH; [exact H1|]. cbn. by rewrite H2.
Qed.

#[local] Arguments count_class : simpl never.
Lemma count_class_nil P : count_class P [] = 0.
Proof. done. Qed.

Lemma count_class_cons P c s : count_class P (c :: s) = (if P c then 1 else 0) + count_class P s.
Proof. unfold count_class. rewrite filter_cons. destruct (P c); simpl; [|done]. lia. Qed.

Lemma count_class_app P s1 s2 : count_class P (s1 ++ s2) = count_class P s1 + count_class P s2.
Proof. unfold count_class. rewrite filter_app, length_app. lia. Qed.

Lemma count_class_nonneg P s : 0 <= count_class P s.
Proof. unfold count_class. lia. Qed.

Lemma expand_plain f pic s s' :
  expand f pic s = (s', true) -> hasRepeat s' = false -> hasScale s' = false ->
  expanded s' = expanded s ++ pic /\ width s' = width s + count_class not_V pic /\
  sterling s' = sterling s.
Proof.
  revert pic s. induction f as [|f IH]; intros pic s; [done|]. cbn [expand].
  destruct pic as [|c rest]; [intros [= <-] ??; rewrite app_nil_r, count_class_nil; by rewrite Z.add_0_r|].
  destruct (ceqb c "(") eqn:Ec.
  - destruct (repeat_factor rest) as [[n [|d rest']]|]; [done| |done].
    destruct (ceqb d "F"); [done|]. destruct (negb (isPictureChar d)); [done|].
    intros H1 H2. apply expand_hasRepeat in H1; [congruence|]. cbn. by rewrite orb_true_r.
  - destruct (ceqb c "F").
    + destruct (scale_factor rest); [|done]. intros [= <-]. done.
    + destruct (negb (isPictureChar c)); [done|].
      intros H1 H2 H3. destruct (IH _ _ H1 H2 H3) as (-> & -> & ->). cbn.
      rewrite <- app_assoc, count_class_cons. unfold not_V at 2.
      split; [done|]. split; [|done]. destruct (ceqb c "V"); cbn; lia.
Qed.

Lemma find_char_range P s i : 0 <= i ->
  find_char P s i = -1 /\ forallb (fun c => negb (P c)) s = true \/
  i <= find_char P s i < i + Z.of_nat (length s) /\
    exists c, s !! Z.to_nat (find_char P s i - i) = Some c /\ P c = true.
Proof.
  revert i. induction s as [|c s IH]; intros i Hi; cbn [find_char length forallb]; [by left|].
  destruct (P c) eqn:E.
  - right. split; [lia|]. exists c. by rewrite Z.sub_diag.
  - destruct (IH (i + 1)) as [[-> H]|(H1 & d & H2 & H3)]; [lia|left; done|right].
    split; [lia|]. exists d. split; [|done].
    replace (Z.to_nat (find_char P s (i + 1) - i)) with
      (S (Z.to_nat (find_char P s (i + 1) - (i + 1)))) by lia. done.
Qed.

Lemma count_positions_spec pt i s a b : 0 <= i ->
  count_positions pt i s a b =
  if 0 <=? pt then
    (a + count_class digit_position (take (Z.to_nat (pt + 1 - i)) s),
     b + count_class digit_position (drop (Z.to_nat (pt + 1 - i)) s))
  else (a + count_class digit_position s, b).
Proof.
  revert i a b. induction s as [|c s IH]; intros i a b Hi.
  { rewrite take_nil, drop_nil, !count_class_nil. cbn [count_positions].
    destruct (0 <=? pt); apply (f_equal2 pair); lia. }
  cbn [count_positions]. rewrite count_class_cons.
  destruct (Z.leb_spec 0 pt) as [Hp|Hp]; cbn [andb].
  - destruct (Z.ltb_spec pt i) as [Hpi|Hpi].
    + replace (Z.to_nat (pt + 1 - i)) with 0%nat by lia. rewrite take_0, drop_0.
      rewrite count_class_cons. rewrite !IH by lia.
      replace (Z.to_nat (pt + 1 - (i + 1))) with 0%nat by lia.
      rewrite take_0, drop_0, !count_class_nil. destruct (digit_position c); cbn [negb]; apply (f_equal2 pair); lia.
    + replace (Z.to_nat (pt + 1 - i)) with (S (Z.to_nat (pt + 1 - (i + 1)))) by lia.
      rewrite firstn_cons, skipn_cons, count_class_cons, !IH by lia.
      destruct (digit_position c); cbn [negb]; apply (f_equal2 pair); lia.
  - rewrite !IH by lia.
    destruct (digit_position c); cbn [negb]; apply (f_equal2 pair); lia.
Qed.

(** What a foldable classification says of the picture. *)
Lemma foldable_spec pic :
  foldable (classifyPicture pic) = true ->
  let s := classifyPicture pic in
  let pt := find_char is_point pic 0 in
  valid s = true /\ expanded s = pic /\ pic <> [] /\ (length pic <= 127)%nat /\
  forallb isFoldablePictureChar pic = true /\
  width s = count_class not_V pic /\ point s = pt /\
  intDigits s = count_class digit_position (if 0 <=? pt then take (Z.to_nat (pt + 1)) pic else pic).
Proof.
  unfold classifyPicture. destruct pic as [|c0 pic0]; [done|]. set (pic := c0 :: pic0).
  destruct (expand (S (length pic)) pic spec0) as [s ok] eqn:E.
  assert (foldable s = false) as Hs.
  { assert (forall f p t t' o, expand f p t = (t', o) -> foldable t = false -> foldable t' = false) as HF.
    { clear. induction f as [|f IH]; intros p t t' o; [by intros [= <- <-]|]. cbn [expand].
      destruct p as [|c rest]; [by intros [= <- <-]|]. destruct (ceqb c "(").
      - destruct (repeat_factor rest) as [[n [|d rest']]|]; [by intros [= <- <-]| |by intros [= <- <-]].
        destruct (ceqb d "F"); [by intros [= <- <-]|].
        destruct (negb (isPictureChar d)); [by intros [= <- <-]|]. intros H ?. by eapply IH.
      - destruct (ceqb c "F"); [destruct (scale_factor rest); by intros [= <- <-]|].
        destruct (negb (isPictureChar c)); [by intros [= <- <-]|]. intros H ?. by eapply IH. }
    by eapply HF. }
  destruct ok; cbn [negb]; [|congruence].
  destruct (expanded s) as [|e es] eqn:Ee; [congruence|].
  destruct (ceqb e "G").
  { intros H. exfalso. revert H. unfold sterlingSpec. rewrite Ee.
    destruct es as [|m es]; [done|]. destruct (ceqb m "M"); [|done].
    by destruct (sterling_fields _ _ _ _ _) as [[[[? ?] ?] ?] ?]. }
  unfold numericSpec. rewrite count_positions_spec by lia.
  pose (pr := if 0 <=? find_char is_point (expanded s) 0 then
      (0 + count_class digit_position (take (Z.to_nat (find_char is_point (expanded s) 0 + 1 - 0)) (expanded s)),
       0 + count_class digit_position (drop (Z.to_nat (find_char is_point (expanded s) 0 + 1 - 0)) (expanded s)))
    else (0 + count_class digit_position (expanded s), 0)).
  change (if 0 <=? find_char is_point (expanded s) 0 then _ else _) with pr.
  destruct pr as [ints fracs] eqn:Epr. cbn [foldable]. intros H.
  rewrite !andb_true_iff, !negb_true_iff in H.
  destruct H as ((((((_ & Hr) & Hsc) & _) & Hl) & _) & Hf).
  destruct (expand_plain _ _ _ _ E Hr Hsc) as (Ex & Hw & _). cbn in Ex. subst pr.
  rewrite Ex in *. cbn [valid expanded width point intDigits].
  split; [done|]. split; [done|]. split; [done|]. split; [by apply Nat.leb_le|].
  split; [done|]. split; [by rewrite Hw|]. split; [done|].
  rewrite Z.sub_0_r in Epr. by destruct (0 <=? find_char is_point pic 0); injection Epr as <- _.
Qed.

(** ** The interpreter's facts on a foldable picture *)
Section Foldable.
Context (pic : text) (Hfold : forallb isFoldablePictureChar pic = true)
  (Hlen : (length pic <= 127)%nat).

#[local] Abbreviation pt := (find_char is_point pic 0).

Lemma foldable_char c : c ∈ pic -> isFoldablePictureChar c = true.
Proof. intros Hc. rewrite forallb_forall in Hfold. by apply Hfold, list_elem_of_In. Qed.

Lemma no_class P : Forall (fun c => P c = false) (txt "9ZV.+-SXA") -> count_class P pic = 0.
Proof.
  intros HP. assert (Forall (fun c => P c = false) pic) as H.
  { apply Forall_forall. intros c Hc. by apply (foldable_cases _ HP), foldable_char. }
  clear -H. induction H as [|c s Hc H IH]; [done|]. by rewrite count_class_cons, Hc, IH.
Qed.

Lemma find_char_none P i : Forall (fun c => P c = false) (txt "9ZV.+-SXA") -> find_char P pic i = -1.
Proof.
  intros HP. assert (Forall (fun c => P c = false) pic) as H.
  { apply Forall_forall. intros c Hc. by apply (foldable_cases _ HP), foldable_char. }
  clear -H. revert i. induction H as [|c s Hc H IH]; intros i; [done|]. cbn. by rewrite Hc.
Qed.

Lemma fixed_currency_foldable : fixed_currency pic = false.
Proof.
  assert (forall c, c ∈ pic -> ceqb c "$" = false) as H.
  { intros c Hc. apply (foldable_cases (fun c => ceqb c "$" = false)); [by_dec|].
    by apply foldable_char. }
  clear -H. destruct pic as [|a [|b rest]]; [done..|]. unfold fixed_currency.
  by rewrite (H a) by set_solver.
Qed.

Lemma digit_class_nine_z c : isFoldablePictureChar c = true -> pic_digit_class c = is_nine_z c.
Proof. revert c. apply foldable_cases. by_dec. Qed.

(** Integer positions are counted the same way by both sides. *)
Lemma int_total :
  count_class pic_digit_class (if 0 <=? pt then take (Z.to_nat pt) pic else pic) =
  count_class digit_position (if 0 <=? pt then take (Z.to_nat (pt + 1)) pic else pic).
Proof.
  change pic_digit_class with digit_position.
  destruct (Z.leb_spec 0 pt) as [Hp|]; [|done].
  destruct (find_char_range is_point pic 0) as [[E _]|(H1 & c & H2 & H3)]; [lia..|].
  rewrite Z.sub_0_r in H2.
  replace (Z.to_nat (pt + 1)) with (S (Z.to_nat pt)) by lia.
  rewrite (take_S_r _ _ c) by done. rewrite count_class_app, count_class_cons, count_class_nil.
  assert (digit_position c = false) as ->; [|lia].
  revert H3. apply (foldable_cases (fun c => is_point c = true -> digit_position c = false)).
  - by_dec.
  - apply foldable_char. by eapply list_elem_of_lookup_2.
Qed.

(** An integer position lies strictly below the integer total. *)
Lemma int_index_lt pre c rest :
  pic = pre ++ c :: rest -> is_nine_z c = true -> pt < 0 \/ Z.of_nat (length pre) <= pt ->
  count_class is_nine_z pre < count_class digit_position (if 0 <=? pt then take (Z.to_nat (pt + 1)) pic else pic).
Proof.
  intros E Hc Hp.
  assert (forall s, (forall x, x ∈ s -> x ∈ pic) -> count_class digit_position s = count_class is_nine_z s) as Hcc.
  { intros s Hs. induction s as [|x s IH]; [done|]. rewrite !count_class_cons.
    rewrite IH by set_solver. by rewrite <- digit_class_nine_z by (apply foldable_char, Hs; set_solver). }
  rewrite Hcc.
  2: { intros x. destruct (0 <=? pt); [|done]. intros Hx. eapply elem_of_take in Hx as (i & Hi & _).
       by eapply list_elem_of_lookup_2. }
  remember pt as p eqn:Ep. clear Ep. destruct (Z.leb_spec 0 p).
  - rewrite E, take_app_ge by lia.
    replace (Z.to_nat (p + 1) - length pre)%nat with (S (Z.to_nat p - length pre)) by lia.
    rewrite firstn_cons, count_class_app, count_class_cons, Hc.
    pose proof (count_class_nonneg is_nine_z (take (Z.to_nat p - length pre) rest)). lia.
  - rewrite E, count_class_app, count_class_cons, Hc.
    pose proof (count_class_nonneg is_nine_z rest). lia.
Qed.

Context (av sc : Z) (isneg : bool) (spec : PictureSpec).
Context (Hpoint : point spec = pt)
  (Hints : intDigits spec = count_class digit_position (if 0 <=? pt then take (Z.to_nat (pt + 1)) pic else pic)).

(** No zero-suppressing position after the point. *)
Definition frac_forced : Prop :=
  forall i, pic !! i = Some "Z"%char -> pt < 0 \/ Z.of_nat i <= pt.

Context (Hforced : frac_forced).

#[local] Abbreviation F := (rt_facts_of av isneg sc pic 127).
#[local] Abbreviation digits := (digits_of av).
#[local] Abbreviation ndig := (Z.of_nat (length digits)).
#[local] Abbreviation val_int := (if sc <? ndig then ndig - sc else 0).
#[local] Abbreviation val_frac := (if sc <? ndig then sc else ndig).

Lemma facts_ocap : r_ocap F = Z.of_nat (length pic).
Proof.
  unfold rt_facts_of. cbn [r_ocap]. rewrite no_class by by_dec. rewrite Z.mul_0_r, Z.add_0_r.
  destruct (Z.ltb_spec (Z.of_nat (length pic)) 127); lia.
Qed.

Lemma facts_int_total : r_int_total F = intDigits spec.
Proof.
  unfold rt_facts_of. cbn [r_int_total]. rewrite fixed_currency_foldable, Hints. apply int_total.
Qed.

(** The two walks after the prefix [pre]. *)
Record agree (pre : text) (f : fold_state) (r : rt_state) : Prop := {
  ag_text : f_text f = s_out r;
  ag_led : f_led f = s_led r;
  ag_frac : f_frac f = s_frac r;
  ag_expo : s_expo r = None;
  ag_int : pt < 0 \/ Z.of_nat (length pre) <= pt -> s_int r = count_class is_nine_z pre;
  ag_len : (length (s_out r) <= length pre)%nat }.

Lemma agree_put pre c f r d :
  agree pre f r -> is_nine_z c = false ->
  agree (pre ++ [c]) (mkFold (f_text f ++ [d]) (f_led f) (f_frac f)) (put [d] r).
Proof.
  intros [H1 H2 H3 H4 H5 H6] Hc. split; cbn; try done.
  - by rewrite H1.
  - intros Hp. rewrite count_class_app, count_class_cons, Hc, count_class_nil.
    rewrite length_app in Hp. cbn in Hp. rewrite H5 by lia. lia.
  - rewrite !length_app. cbn. lia.
Qed.

(** A digit position. *)
Lemma agree_digit pre c rest f r :
  pic = pre ++ c :: rest -> is_nine_z c = true -> agree pre f r ->
  agree (pre ++ [c]) (fold_char digits val_int val_frac isneg spec pre c f)
    (rt_position F (Z.of_nat (length pre)) c r).
Proof.
  intros E Hc [H1 H2 H3 H4 H5 H6].
  assert (c = "9"%char \/ c = "Z"%char) as Hcc.
  { unfold is_nine_z in Hc. rewrite orb_true_iff, !ceqb_true in Hc. done. }
  assert (ceqb c "V" = false) as HV by by destruct Hcc as [->| ->].
  unfold fold_char. rewrite HV, Hc. unfold rt_position. rewrite facts_int_total, Hpoint.
  cbn [r_vpos r_val_frac r_val_int r_digits rt_facts_of].
  destruct ((0 <=? pt) && (pt <? Z.of_nat (length pre))) eqn:Efrac.
  - (* after the point only 9 *)
    rewrite andb_true_iff, Z.leb_le, Z.ltb_lt in Efrac.
    assert (c = "9"%char) as ->.
    { destruct Hcc as [?|Hz]; [done|]. subst c.
      assert (pic !! length pre = Some "Z"%char) as HZ by by rewrite E, list_lookup_middle.
      destruct (Hforced _ HZ); lia. }
    assert (forall d, rt_digit "9"%char d r = significant d r) as -> by done.
    change (rt_pad_right "9"%char r) with (put ["0"%char] r).
    rewrite H3. destruct (s_frac r <? val_frac); split; cbn; rewrite ?H1, ?H2, ?H3; try done;
      rewrite ?length_app; cbn; lia.
  - assert (pt < 0 \/ Z.of_nat (length pre) <= pt) as Hp.
    { rewrite andb_false_iff, Z.leb_gt, Z.ltb_ge in Efrac. lia. }
    fold (count_class is_nine_z pre). rewrite (H5 Hp).
    pose proof (int_index_lt pre c rest E Hc Hp) as Hlt. rewrite <- Hints in Hlt.
    assert (forall f' r', f_text f' = s_out r' -> f_led f' = s_led r' -> f_frac f' = s_frac r' ->
      s_expo r' = None -> s_int r' = s_int r -> (length (s_out r') <= S (length pre))%nat ->
      agree (pre ++ [c]) f' (next_int r')) as Hag.
    { intros f' r' A1 A2 A3 A4 A5 A6. split; cbn; try done.
      - intros _. rewrite A5, H5, count_class_app, count_class_cons, Hc, count_class_nil by done. lia.
      - rewrite length_app. cbn. lia. }
    destruct (_ <? 0); [|destruct (Z.ltb_spec (count_class is_nine_z pre - (intDigits spec - val_int)) val_int); [|lia]].
    + apply Hag; cbn; try done; [|rewrite length_app; cbn; lia]. rewrite H1. by destruct Hcc as [->| ->].
    + rewrite H2. unfold rt_digit. destruct Hcc as [->| ->]; cbn [ceqb].
      * change (suppressing "9") with false. change (ceqb "9" "Z") with false. cbn [andb].
        apply Hag; cbn; rewrite ?H1, ?length_app; cbn; try done; lia.
      * change (suppressing "Z") with true. change (ceqb "Z" "Z") with true. cbn [andb].
        destruct (ceqb (dchar _ _) "0" && s_led r); apply Hag; cbn; rewrite ?H1, ?length_app; cbn; try done; lia.
Qed.

(** Any other character of the foldable set. *)
Lemma agree_other pre c rest f r :
  isFoldablePictureChar c = true -> is_nine_z c = false -> c <> "V"%char -> agree pre f r ->
  snd (rt_other F c rest r) = false /\
  agree (pre ++ [c]) (fold_char digits val_int val_frac isneg spec pre c f) (fst (rt_other F c rest r)).
Proof.
  intros Hc Hn HV Ha. apply char_in_spec in Hc. unfold txt in Hc. cbn in Hc. rewrite !elem_of_cons, elem_of_nil in Hc.
  decompose [or] Hc; subst; try done;
    (split; [reflexivity|]; apply agree_put; [exact Ha|reflexivity]).
Qed.

Lemma walks_agree rest pre f r :
  pic = pre ++ rest -> agree pre f r ->
  agree pic (fold_loop digits val_int val_frac isneg spec pre rest f)
    (rt_walk F (Z.of_nat (length pre)) rest r).
Proof.
  revert pre f r. induction rest as [|c rest IH]; intros pre f r E Ha.
  { rewrite app_nil_r in E. by rewrite E. }
  cbn [fold_loop rt_walk]. rewrite facts_ocap.
  pose proof (ag_len _ _ _ Ha) as Hl. pose proof (f_equal length E) as El.
  rewrite length_app in El. cbn in El.
  destruct (Z.leb_spec (Z.of_nat (length pic)) (Z.of_nat (length (s_out r)))); [lia|].
  assert (isFoldablePictureChar c = true) as Hc by (apply foldable_char; rewrite E; set_solver).
  assert (pic = (pre ++ [c]) ++ rest) as E' by by rewrite <- app_assoc.
  replace (Z.of_nat (length pre) + 1) with (Z.of_nat (length (pre ++ [c])))
    by (rewrite length_app; cbn; lia).
  destruct (ceqb c "V") eqn:EV.
  { apply IH; [done|]. unfold fold_char. rewrite EV. apply ceqb_true in EV. subst c.
    destruct Ha as [H1 H2 H3 H4 H5 H6]. split; try done.
    - intros Hp. rewrite count_class_app, count_class_cons, count_class_nil.
      rewrite length_app in Hp. cbn in Hp. rewrite H5 by lia.
      change ((if is_nine_z "V" then 1 else 0) + 0) with 0. lia.
    - rewrite length_app. lia. }
  cbn [r_fixed rt_facts_of]. rewrite fixed_currency_foldable. cbn [andb].
  rewrite digit_class_nine_z by done. destruct (is_nine_z c) eqn:En.
  { apply IH; [done|]. by eapply agree_digit. }
  destruct (agree_other pre c rest f r Hc En) as [Hs Ho]; [by apply ceqb_false|done|].
  fold F. destruct (rt_other F c rest r) as [st' skip]. cbn [fst snd] in Hs, Ho. subst skip.
  pose proof (IH (pre ++ [c]) _ st' E' Ho) as Hw. by destruct rest.
Qed.
End Foldable.

(** The fold writes one character per position that is not V. *)
Lemma fold_char_length digits vi vf isneg spec pre c f :
  Z.of_nat (length (f_text (fold_char digits vi vf isneg spec pre c f))) =
  Z.of_nat (length (f_text f)) + (if not_V c then 1 else 0).
Proof.
  unfold fold_char, not_V. destruct (ceqb c "V"); [cbn; lia|].
  repeat match goal with |- context [f_text (if ?b then _ else _)] => destruct b end;
    cbn [f_text negb]; rewrite length_app; cbn [length]; lia.
Qed.

Lemma fold_loop_length digits vi vf isneg spec pre rest f :
  Z.of_nat (length (f_text (fold_loop digits vi vf isneg spec pre rest f))) =
  Z.of_nat (length (f_text f)) + count_class not_V rest.
Proof.
  revert pre f. induction rest as [|c rest IH]; intros pre f; cbn [fold_loop].
  - rewrite count_class_nil. lia.
  - rewrite IH, fold_char_length, count_class_cons. lia.
Qed.

(** The magnitude both sides decompose. *)
Lemma magnitude64 v : srange 64 v -> v <> - 2 ^ 63 ->
  (if v <? 0 then u64 (u64 (- (v + 1)) + 1) else u64 v) =
  (if sign_of v <? 0 then uwrap 128 (Z.abs v) else uwrap 128 v).
Proof.
  intros Hv Hm. unfold srange in Hv. cbn in Hv. unfold sign_of.
  destruct (Z.ltb_spec v 0); cbn [Z.ltb Z.compare].
  - rewrite (uwrap_small 64 (- (v + 1))) by (unfold urange; lia).
    rewrite !uwrap_small by (unfold urange; lia). lia.
  - rewrite !uwrap_small by (unfold urange; lia). done.
Qed.

(** C9: the compile-time conversion of a constant through a picture the
    classifier calls foldable is exactly the text the run-time interpreter
    writes for it, for every 64-bit value but the smallest, every scale, and
    every such picture that suppresses no zero after the point and, when the
    value is negative, has a sign character. *)
Theorem picture_fold_is_runtime (pic : text) (value sc : Z) :
  foldable (classifyPicture pic) = true -> srange 64 value -> value <> - 2 ^ 63 -> 0 <= sc ->
  frac_forced pic -> (value < 0 -> explicit_sign pic = true) ->
  foldPictureConversion value sc (classifyPicture pic) =
    Some (pli_put_edit_pic value sc (sign_of value) pic).
Proof.
  intros Hf Hv Hm Hsc Hz Hs.
  destruct (foldable_spec pic Hf) as (Hval & Hx & Hne & Hl & Hc & Hw & Hp & Hi).
  unfold foldPictureConversion, pli_put_edit_pic, pic_format128.
  rewrite Hval, Hf, Hx, magnitude64 by done. cbn [negb orb].
  destruct (Z.ltb_spec sc 0); [lia|]. destruct (Z.eqb_spec value (- 2 ^ 63)); [done|].
  destruct (Z.leb_spec (Z.of_nat (length pic)) 0); [by destruct pic|]. cbn [orb].
  change (127 <=? 0) with false. cbv iota zeta.
  set (av := if sign_of value <? 0 then uwrap 128 (Z.abs value) else uwrap 128 value).
  assert ((value <? 0) = (sign_of value <? 0)) as -> by (unfold sign_of; by destruct (value <? 0)).
  set (isneg := sign_of value <? 0).
  assert (agree pic [] (mkFold [] true 0) (mkSt [] true 0 0 None)) as Ha by by constructor.
  pose proof (walks_agree pic Hc Hl av sc isneg (classifyPicture pic) Hp Hi Hz pic [] _ _ eq_refl Ha) as Hw'.
  rewrite fold_loop_length. cbn [f_text length]. rewrite Z.add_0_l, Hw, Z.eqb_refl.
  f_equal. change (Z.of_nat (length [])) with 0 in Hw'. destruct Hw' as [-> _ _ -> _ _].
  unfold float_currency, currency_run. rewrite find_char_none by (done || by_dec).
  change (-1 <? 0) with true. cbv iota beta. change (0 <=? -1) with false. rewrite andb_false_r.
  cbn [andb write_exponent]. destruct isneg eqn:En; [|done].
  assert (value < 0). { unfold isneg, sign_of in En. by destruct (Z.ltb_spec value 0). }
  by rewrite Hs.
Qed.

#[global] Instance frac_forced_dec pic : Decision (frac_forced pic).
Proof.
  refine (cast_if (decide (Forall (fun i => pic !! i = Some "Z"%char ->
    find_char is_point pic 0 < 0 \/ Z.of_nat i <= find_char is_point pic 0) (seq 0 (length pic))))).
  - intros i Hi. rewrite Forall_seq in f. apply f; [|done]. apply lookup_lt_Some in Hi. lia.
  - intros H. apply n, Forall_seq. intros i _. apply H.
Defined.

Lemma picture_fold_is_runtime_witness :
  foldable (classifyPicture (txt "SZZ9V.99")) = true /\ srange 64 (-12345) /\ -12345 <> - 2 ^ 63 /\
  frac_forced (txt "SZZ9V.99") /\
  foldPictureConversion (-12345) 2 (classifyPicture (txt "SZZ9V.99")) =
    Some (pli_put_edit_pic (-12345) 2 (sign_of (-12345)) (txt "SZZ9V.99")).
Proof.
  assert (foldable (classifyPicture (txt "SZZ9V.99")) = true) as H1 by (vm_compute; reflexivity).
  assert (srange 64 (-12345)) as H2 by by_dec.
  assert (-12345 <> - 2 ^ 63) as H3 by by_dec.
  assert (frac_forced (txt "SZZ9V.99")) as H4 by by_dec.
  split; [exact H1|]. split; [exact H2|]. split; [exact H3|]. split; [exact H4|].
  apply (picture_fold_is_runtime (txt "SZZ9V.99") (-12345) 2 H1 H2 H3); [lia|exact H4|].
  intros _. vm_compute. reflexivity.
Defined.

(** outside those conditions the fold and the interpreter write different
    text, although the classifier calls the pictures foldable: a Z position
    after the point prints the zero the interpreter suppresses, and a negative
    value through a picture without a sign loses the trailing minus the
    interpreter appends.  And both place the digits of a fraction smaller than
    its scale to the left: 0.05 through 9V99 is written 050. *)
Theorem picture_fold_diverges :
  (let spec := classifyPicture (txt "Z.ZZ") in
   foldable spec = true /\ foldPictureConversion 0 2 spec = Some (txt " .00") /\
   pli_put_edit_pic 0 2 (sign_of 0) (txt "Z.ZZ") = txt " .  ") /\
  (let spec := classifyPicture (txt "99") in
   foldable spec = true /\ foldPictureConversion (-5) 0 spec = Some (txt "05") /\
   pli_put_edit_pic (-5) 0 (sign_of (-5)) (txt "99") = txt "05-") /\
  (let spec := classifyPicture (txt "9V99") in
   foldPictureConversion 5 2 spec = Some (txt "050") /\
   pli_put_edit_pic 5 2 (sign_of 5) (txt "9V99") = txt "050" /\
   foldPictureConversion 50 2 spec = Some (txt "050")).
Proof. split; [|split]; vm_compute; repeat split; reflexivity. Qed.
