(* ===== verification/Stmts.v ===== *)
(** * Statements ([src/ast.h], [src/hir.h])

    The parts of [struct Stmt] and [struct HStmt] that the two share.  The two trees
    mirror each other field for field, so a part is written once, over the type [E] of
    the expressions it holds ([Expr.t] in the tree, [HExpr.t] in the high-level IR); an
    owned child is the child itself, [None] for null, and a symbol is its index.  The
    fields of the one wide [struct] are grouped by the statements they serve.  Then the
    parser's tree: declaration items, statements, procedures, the program. *)
From S2P Require Import Prelude Types Diag Lexer Ast.

(** ** Shared parts *)
(** Rule (65): an element of a label array as a statement prefix. *)
Record LabelElem := mkLabelElem { le_name : text; le_subs : list Z; le_sym : option nat }.

(** The condition prefixes: NO... and CHECK(...) switches, STRINGRANGE as -1, 0, 1. *)
Record Prefixes := mkPrefixes {
  noSize : bool; noSub : bool; noZdiv : bool; noConv : bool; noUnder : bool; noOver : bool; noFOver : bool;
  chkSize : bool; chkSub : bool; chkZdiv : bool; chkConv : bool; chkUnder : bool; chkOver : bool; chkFOver : bool;
  strRange : Z }.
Definition no_prefixes : Prefixes :=
  mkPrefixes false false false false false false false false false false false false false false 0.

(** The ENTRY statement (rule 56). *)
Record EntryOpts := mkEntryOpts {
  params : list text; entryIsFunction : bool; entryRetTy : Ty; entryParamSyms : list nat }.
Definition no_entry : EntryOpts := mkEntryOpts [] false Ty_default [].

Module FormatItem.
Inductive Kind := A | B | C | F | E | X | Skip | Page | Line | Column | Remote | P | Repeat.
#[global] Instance Kind_dec : EqDecision Kind.
Proof. solve_decision. Defined.

(** One FORMAT item (rules (44)-(55)). *)
Inductive t (X : Type) : Type := mk {
  kind : Kind; w : option X; d : option X; s : option X; remote : text; pic : text;
  subs : list (t X); count : option X; items : list (t X) }.
Arguments mk {X}. Arguments kind {X}. Arguments w {X}. Arguments d {X}. Arguments s {X}. Arguments remote {X}.
Arguments pic {X}. Arguments subs {X}. Arguments count {X}. Arguments items {X}.
End FormatItem.

(** PUT and GET (rules (104)-(109)). *)
Record StreamOpts (E : Type) := mkStreamOpts {
  skip : bool; page : bool; copy : bool; line : bool; skipCount : option E; lineCount : option E;
  items_ : list (option E); edit : bool; data : bool; formats : list (FormatItem.t E); stringTarget_ : option E }.
Arguments mkStreamOpts {E}. Arguments skip {E}. Arguments page {E}. Arguments copy {E}. Arguments line {E}.
Arguments skipCount {E}. Arguments lineCount {E}. Arguments items_ {E}. Arguments edit {E}. Arguments data {E}.
Arguments formats {E}. Arguments stringTarget_ {E}.
Definition no_stream {E} : StreamOpts E := mkStreamOpts false false false false None None [] false false [] None.

(** OPEN, CLOSE, the record statements and DISPLAY REPLY (rules (100)-(114)). *)
Record FileOpts (E : Type) := mkFileOpts {
  fileSym : option nat; openTitle : text; openInput : bool; openUpdate : bool; openRecord : bool; openKeyed : bool;
  openDirect : bool; openIdent : option E; openLinesize : option E; openPagesize : option E;
  keyOpt : option E; keyToOpt : option E; keyFromOpt : option E; keyNoLock : bool; keySet : bool; replyTarget : option E }.
Arguments mkFileOpts {E}. Arguments fileSym {E}. Arguments openTitle {E}. Arguments openInput {E}. Arguments openUpdate {E}.
Arguments openRecord {E}. Arguments openKeyed {E}. Arguments openDirect {E}. Arguments openIdent {E}.
Arguments openLinesize {E}. Arguments openPagesize {E}. Arguments keyOpt {E}. Arguments keyToOpt {E}.
Arguments keyFromOpt {E}. Arguments keyNoLock {E}. Arguments keySet {E}. Arguments replyTarget {E}.
Definition no_file {E} : FileOpts E :=
  mkFileOpts None [] false false false false false None None None None None None false false None.

(** The task options of CALL, and WAIT (rules (79),(82)). *)
Record TaskOpts (E : Type) := mkTaskOpts {
  hasTaskOpt : bool; taskRef : option E; eventRef : option E; priorityExpr : option E;
  waitEvents : list (option E); waitCount : option E }.
Arguments mkTaskOpts {E}. Arguments hasTaskOpt {E}. Arguments taskRef {E}. Arguments eventRef {E}.
Arguments priorityExpr {E}. Arguments waitEvents {E}. Arguments waitCount {E}.
Definition no_task {E} : TaskOpts E := mkTaskOpts false None None None [] None.

(** ON, REVERT, SIGNAL (rules (91)-(99)), their unit apart. *)
Record OnOpts (E : Type) := mkOnOpts {
  condName : text; condKey_ : Z; snap : bool; isSystem : bool; onIndex : Z; onCaps : list nat; oncodeExpr_ : option E }.
Arguments mkOnOpts {E}. Arguments condName {E}. Arguments condKey_ {E}. Arguments snap {E}. Arguments isSystem {E}.
Arguments onIndex {E}. Arguments onCaps {E}. Arguments oncodeExpr_ {E}.
Definition no_on {E} : OnOpts E := mkOnOpts [] 0 false false (-1) [] None.

(** ALLOCATE and FREE (rules (87)-(90)). *)
Record AllocBound (E : Type) := mkAllocBound { ab_lb : option E; ab_ub : option E; ab_star : bool }.
Arguments mkAllocBound {E}. Arguments ab_lb {E}. Arguments ab_ub {E}. Arguments ab_star {E}.
Record AllocOpts (E : Type) := mkAllocOpts {
  allocBase : list (option E); allocSet : list (option E); allocArea : list (option E);
  allocBounds : list (list (AllocBound E)); allocCharLen : list (option E);
  allocVarying : list bool; allocHasChar : list bool; freeBase : list (option E); freeArea : list (option E) }.
Arguments mkAllocOpts {E}. Arguments allocBase {E}. Arguments allocSet {E}. Arguments allocArea {E}.
Arguments allocBounds {E}. Arguments allocCharLen {E}. Arguments allocVarying {E}. Arguments allocHasChar {E}.
Arguments freeBase {E}. Arguments freeArea {E}.
Definition no_alloc {E} : AllocOpts E := mkAllocOpts [] [] [] [] [] [] [] [] [].

(** ** The parser's declarations *)
Module InitItem.
Inductive Kind := Value | Iter | Repeat | Group.
#[global] Instance Kind_dec : EqDecision Kind.
Proof. solve_decision. Defined.
(** One INITIAL item (rules (26)-(31)). *)
Inductive t : Type := mk { kind : Kind; value : option Expr.t; factor : Z; items : list t }.
End InitItem.

(** One DEFINED base subscript (rules 24,126,134). *)
Record DefinedSub := mkDefinedSub { isub : bool; axis : Z; ds_expr : option Expr.t; mult : Z; add : Z }.
(** A structure member of runtime extent: its path and its bounds. *)
Record DynMember (E : Type) := mkDynMember { dm_path : list Z; dm_ub : option E; dm_lb : option E }.
Arguments mkDynMember {E}. Arguments dm_path {E}. Arguments dm_ub {E}. Arguments dm_lb {E}.

Module DeclItem.
(** One declared name with its attributes; [ref] groups what names another item. *)
Record attrs := mkAttrs {
  like : text; typeRef : text; definedBase : text; definedSubs : list DefinedSub; hasPos : bool; pos : Z;
  basedBase : text; basedNoPtr : bool; controlled : bool; area : bool; areaSize : option Expr.t; areaStar : bool;
  sawStatic : bool; offset : bool; offsetRef : text; aligned : bool; unaligned : bool; optional : bool;
  entryVariable : bool; fileAttr : bool; returnsStructName : text; external : bool; entryByValue : bool;
  uses : list text; sets : list text; reducible : Z; abnormalLabel : text; normal : bool; picture : text;
  reserved : bool; unionAttr : bool; labelAttr : bool; nonprint : bool; imaginary : bool; dataAttr : bool;
  genericEntries : list (text * Ty) }.
Definition no_attrs : attrs :=
  mkAttrs [] [] [] [] false 1 [] false false false None false false false [] false false false false false []
    false false [] [] 0 [] false [] false false false false false false [].
Record t := mk {
  name : text; ty : Ty; loc : SourceLoc; level : Z; dynBounds : list (option Expr.t); dynLbBounds : list (option Expr.t);
  init : option Expr.t; slenExpr : option Expr.t; valueInit : option Expr.t; initCall : option Expr.t;
  initItems : list InitItem.t; att : attrs; dynMembers : list (DynMember Expr.t); sym : option nat;
  isEntry : bool; isCondition : bool; entryParams : list Ty; entryIsFunction : bool; entryRetTy : Ty; extName : text }.
Definition default : t :=
  mk [] Ty_default (mkLoc 0 0) 0 [] [] None None None None [] no_attrs [] None false false [] false Ty_default [].
End DeclItem.

(** ** The parser's statements *)
Module Stmt.
Inductive Kind :=
  | Null | Declare_ | Assign | If | Group | Begin | DoWhile | DoIter | Put | Get | CallS
  | Return | Stop | Goto | Entry | Allocate | Free | Open | Close | Leave | Iterate | On
  | Revert | Signal | Display | Read | Write | Rewrite | Delete | Wait | Delay | Format
  | DefineAlias | DefineConstant.
#[global] Instance Kind_dec : EqDecision Kind.
Proof. solve_decision. Defined.

Inductive t : Type := mk {
  kind : Kind; loc : SourceLoc; labels : list text; labelElems : list LabelElem; decls : list DeclItem.t;
  target : option Expr.t; value : option Expr.t; cond : option Expr.t;
  from : option Expr.t; to : option Expr.t; by_ : option Expr.t; until : bool; forever : bool;
  extraTargets : list (option Expr.t); byName : bool; prefixes : Prefixes;
  thenS : option t; elseS : option t; body : list (option t); name : text; sym : option nat; aliasTy : Ty;
  entry : EntryOpts; stream : StreamOpts Expr.t; fileIdent : text; file : FileOpts Expr.t;
  args : list (option Expr.t); gotoTarget : option Expr.t; task : TaskOpts Expr.t;
  on_ : OnOpts Expr.t; unit : option t; alloc : AllocOpts Expr.t }.

(** The default member initialisers. *)
Definition default : t :=
  mk Null (mkLoc 0 0) [] [] [] None None None None None None false false [] false no_prefixes None None [] [] None
    Ty_default no_entry no_stream [] no_file [] None no_task no_on None no_alloc.

(** The fixed condition keys (rules (94),(97)). *)
Definition kSizeCondKey : Z := -1.
Definition kSubscriptrangeCondKey : Z := -2.
Definition kZerodivideCondKey : Z := -3.
Definition kConversionCondKey : Z := -4.
Definition kStringrangeCondKey : Z := -5.
Definition kFinishCondKey : Z := -6.
Definition kAreaCondKey : Z := -7.
Definition kUnderflowCondKey : Z := -8.
Definition kOverflowCondKey : Z := -9.
Definition kFixedoverflowCondKey : Z := -10.
Definition kEndfileBaseCondKey : Z := -1000.
Definition kUndefinedfileBaseCondKey : Z := -2000.
End Stmt.

(** ** Procedures *)
Module Proc.
Record t := mk {
  name : text; loc : SourceLoc; isMain : bool; isExternal : bool; isRecursive : bool; isFunction : bool; retTy : Ty;
  returnsStructName : text; params : list text; isPackage : bool; exports : list text; entryNames : list text;
  body : list (option Stmt.t); parent : option nat; paramSyms : list nat; localSyms : list nat;
  directUses : list nat; env : list nat; irName : text }.
End Proc.
(** A [Proc*] is an index into [procs]. *)
Record Program := mkProgram {
  procs : list Proc.t; defines : list (option Stmt.t); mainProc : option nat; condNames : list text }.

Definition opt_ok {A} (P : A -> Prop) (o : option A) : Prop := match o with Some x => P x | None => True end.

(** ** Induction on the trees *)
Section induction.
Variable P : Expr.t -> Prop.
Hypothesis estep : forall e, opt_ok P (Expr.locPtr e) -> opt_ok P (Expr.a e) -> opt_ok P (Expr.b e) ->
  Forall (opt_ok P) (Expr.args e) -> P e.
Fixpoint expr_ind (e : Expr.t) : P e :=
  let opt (o : option Expr.t) : opt_ok P o := match o return opt_ok P o with Some x => expr_ind x | None => I end in
  estep e (opt (Expr.locPtr e)) (opt (Expr.a e)) (opt (Expr.b e))
    ((fix go (l : list (option Expr.t)) : Forall (opt_ok P) l :=
        match l with
        | [] => List.Forall_nil _
        | o :: l' => List.Forall_cons _ o l' (opt o) (go l')
        end) (Expr.args e)).
End induction.

Section stmt_induction.
Variable Q : Stmt.t -> Prop.
Hypothesis sstep : forall s, opt_ok Q (Stmt.thenS s) -> opt_ok Q (Stmt.elseS s) -> opt_ok Q (Stmt.unit s) ->
  Forall (opt_ok Q) (Stmt.body s) -> Q s.
Fixpoint stmt_ind (s : Stmt.t) : Q s :=
  let opt (o : option Stmt.t) : opt_ok Q o := match o return opt_ok Q o with Some x => stmt_ind x | None => I end in
  sstep s (opt (Stmt.thenS s)) (opt (Stmt.elseS s)) (opt (Stmt.unit s))
    ((fix go (l : list (option Stmt.t)) : Forall (opt_ok Q) l :=
        match l with
        | [] => List.Forall_nil _
        | o :: l' => List.Forall_cons _ o l' (opt o) (go l')
        end) (Stmt.body s)).
End stmt_induction.
