(* ===== verification/ParserBase.v ===== *)
(** * The common part of the statement and declaration parsers ([src/parser.h])

    The tokens and the conversions of the C library as a class, the token access of
    [ExprParser] at those, member assignment on records, loops, and the calculus in which
    the parsers are shown total: [total m] says that [m] returns from every position, never
    moves backwards, restores the nesting depth and withdraws no error; [steps] says of the
    body of a loop that it also consumes a token whenever it goes round again. *)
From S2P Require Import Prelude Monad Types Diag Lexer Ast Constants Stmts ExprParser ExprTotal.

(** ** Assigning a member *)
(** [r <| f := v |>] is [r] with the field [f] replaced. *)
Class Eta (R : Type) := eta_fields : R -> R.
Class Setter {R T : Type} (f : R -> T) := set_field : T -> R -> R.
Ltac build_setter :=
  lazymatch goal with
  | |- @Setter ?R ?T ?f =>
      let i := constr:(ltac:(typeclasses eauto) : Eta R) in
      let res := constr:(fun (v : T) (r : R) =>
        ltac:(let e := eval hnf in (i r) in
              let p := eval pattern (f r) in e in
              lazymatch p with ?g _ => let t := eval cbv beta in (g v) in exact t end)) in
      exact res
  end.
#[export] Hint Extern 0 (Setter _) => build_setter : typeclass_instances.
Notation "r <| f := v |>" := (set_field (f := f) v r) (at level 1, left associativity, format "r  <| f  :=  v |>") : pli_scope.


(** ** The input and its tokens *)
(** The tokens of the source, [strtod] and the conversion of an integer to [double]. *)
Class Input := mkInput { toks : list Token.t; strtod : text -> Z; double_of : Z -> Z }.

Abbreviation M := (ST pst).
Abbreviation cur := (ExprParser.cur_tok toks).
Abbreviation peek n := (ExprParser.peek_tok toks n).
Abbreviation advance := (ExprParser.advance toks).
Abbreviation eat kd := (ExprParser.eat toks kd).
Abbreviation expect kd rule := (ExprParser.expect toks kd rule).
Abbreviation resync := (ExprParser.resync toks).
Abbreviation looksLikeAssignment := (ExprParser.looksLikeAssignment toks).
Abbreviation atStmtKeyword w := (ExprParser.atStmtKeyword toks w).

(** The states that hold a position in the tokens, and what their operations never change. *)
Class Positioned (S : Type) := mkPositioned { pos : S -> pst; keeps : S -> S -> Prop }.
#[global] Instance pst_positioned : Positioned pst := mkPositioned pst (fun st => st) (fun _ _ => True).

(** Conditions: on the position ([if?]), and with an effect ([if*]). *)
Notation "'if?' p 'then' a 'else' b" := (bind (get (fun st => p (pos st))) (fun x => if x then a else b))
  (at level 10, p at level 100, a at level 200, b at level 200) : pli_scope.
Notation "'if*' m 'then' a 'else' b" := (bind m (fun x => if x then a else b))
  (at level 10, m at level 100, a at level 200, b at level 200) : pli_scope.
Definition both (p q : pst -> bool) : pst -> bool := fun st => p st && q st.
Definition either (p q : pst -> bool) : pst -> bool := fun st => p st || q st.
Definition not_ (p : pst -> bool) : pst -> bool := fun st => negb (p st).
Notation "p '&&&' q" := (both p q) (at level 40, left associativity) : pli_scope.
Notation "p '|||' q" := (either p q) (at level 50, left associativity) : pli_scope.

Section tokens.
Context `{Input}.
(** [at(Tok::k)], [atWord(w)], [peek(n).kind == k], [peek(n).isWord(w)]. *)
Definition here (kd : Tok.t) : pst -> bool := is_at toks kd.
Definition atWord (w : text) : pst -> bool := fun st => Token.isWord (cur st) w.
Definition next (n : nat) (kd : Tok.t) : pst -> bool := peek_at toks n kd.
Definition nextWord (n : nat) (w : text) : pst -> bool := fun st => Token.isWord (peek n st) w.
Definition eatWord (w : text) : M bool := if? atWord w then advance;; ret true else ret false.
Definition when {S} `{Positioned S} (p : pst -> bool) (m : ST S unit) : ST S unit := if? p then m else ret tt.
(** [d_.error(cur().loc, ...)], [d_.warn(loc, ...)]. *)
Definition error_here (msg rule : text) : M unit := let* t := get cur in report (Token.loc t) msg rule.
Definition warn_at (loc : SourceLoc) (msg rule : text) : M unit :=
  fun st => Some (tt, mkP (i_ st) (exprDepth_ st) (warn loc msg rule [] (pd_ st))).
(** [error] with a suggested replacement. *)
Definition error_fix (loc : SourceLoc) (msg rule fix_ : text) : M unit :=
  fun st => Some (tt, mkP (i_ st) (exprDepth_ st) (error loc msg rule fix_ (pd_ st))).
(** [i_ = save]. *)
Definition goto_ (i : nat) : M unit := fun st => Some (tt, mkP i (exprDepth_ st) (pd_ st)).
(** What the token is called in a message. *)
Definition word_or_name (t : Token.t) : text :=
  if bool_decide (Token.kind t = Tok.Word) then Token.text_ t else tokName (Token.kind t).
(** [boundedNonNeg] and [boundedInt] of the number here. *)
Definition bounded (f : text -> SourceLoc -> Diags -> text -> text -> Z * Diags) (what rule : text) : M Z :=
  fun st => let '(v, d) := f (Token.text_ (cur st)) (Token.loc (cur st)) (pd_ st) what rule in
            Some (v, mkP (i_ st) (exprDepth_ st) d).
(** The word here, if there is one. *)
Definition here_word : M (option text) :=
  let* t := get cur in ret (if bool_decide (Token.kind t = Tok.Word) then Some (Token.text_ t) else None).
Definition strtoll10 (t : Token.t) : Z := fst (fst (strtoll (Token.text_ t) 10)).

(** ** Loops *)
(** The body says whether to go round again ([inl]) or to leave ([inr]).  Every round
    consumes a token ([steps] below), so there are no more rounds than tokens left. *)
Section loops.
Context {S : Type} `{Positioned S} {A B : Type} (body : A -> ST S (A + B)).
Fixpoint rounds (n : nat) (a : A) : ST S B :=
  match n with
  | O => out_of_fuel
  | Datatypes.S n => let* r := body a in match r with inl a => rounds n a | inr b => ret b end
  end.
Definition loop (a : A) : ST S B := let* n := get (fun st => fuel_left toks (pos st)) in rounds n a.
End loops.

(** [do { count the parenthesis here; advance(); } while (going(depth) && !at(Eof));] *)
Definition skip_round (going : Z -> bool) (depth : Z) : M (Z + unit) :=
  let* t := get cur in
  let d := match Token.kind t with Tok.LParen => depth + 1 | Tok.RParen => depth - 1 | _ => depth end in
  advance;;
  let* eof := get (here Tok.Eof) in
  ret (if going d && negb eof then inl d else inr tt).
Definition skip_group_here : M unit := loop (skip_round (fun d => 0 <? d)) 0.

(** ** Expressions, with fuel for the tokens left *)
Definition expr_fuel (st : pst) : nat := 8 * (length toks - i_ st) + 5.
Definition expression : M (option Expr.t) := let* n := get expr_fuel in ExprParser.parseExpr toks strtod double_of n 1.
Definition expressionOrPlaceholder : M Expr.t :=
  let* n := get expr_fuel in ExprParser.parseExprOrPlaceholder toks strtod double_of n.
Definition primary : M (option Expr.t) := let* n := get expr_fuel in ExprParser.parsePrimary toks strtod double_of n.
End tokens.

#[local] Set Default Proof Using "Type*".
(** ** Totality *)
Class EndsEof `{Input} : Prop := { ends_eof : Token.kind (List.last toks Token.default) = Tok.Eof; nonempty : toks <> [] }.
Class Keeps (S : Type) `{Positioned S} : Prop := {
  keeps_refl : forall s : S, keeps s s;
  keeps_trans : forall a b c : S, keeps a b -> keeps b c -> keeps a c }.
#[global] Instance pst_keeps : Keeps pst.
Proof. by split. Qed.

(** Words and kinds other than the end of the file. *)
Definition not_eof `{Input} (p : pst -> bool) : Prop := forall st, p st = true -> is_at toks Tok.Eof st = false.

Section calculus.
Context `{EndsEof} {S : Type} `{Keeps S} (lim : nat).
Abbreviation inside := (ExprTotal.inside toks).
Abbreviation eof st := (is_at toks Tok.Eof (pos st)).

(** A run goes on from where it was, and keeps what the operations of [S] keep. *)
Definition follows (a b : S) : Prop := ExprTotal.follows toks (pos a) (pos b) /\ keeps a b.
Lemma follows_refl st : inside (pos st) -> follows st st.
Proof. intros Hi. split; [exact (ExprTotal.expr_follows_refl toks strtod double_of ends_eof nonempty _ Hi)|apply keeps_refl]. Qed.
Lemma follows_trans a b c : follows a b -> follows b c -> follows a c.
Proof.
  intros [F1 K1] [F2 K2]. split; [|by eapply keeps_trans].
  exact (ExprTotal.expr_follows_trans toks strtod double_of ends_eof nonempty _ _ _ F1 F2).
Qed.
Lemma follows_inside a b : follows a b -> inside (pos b).
Proof. by intros [(_ & ? & _) _]. Qed.
Lemma follows_le a b : follows a b -> (i_ (pos a) <= i_ (pos b))%nat.
Proof. by intros [(? & _) _]. Qed.

(** Inside the tokens, with at most [lim] of them left. *)
Definition within (st : S) : Prop := inside (pos st) /\ (length toks - i_ (pos st) <= lim)%nat /\ 0 <= mute_ (pd_ (pos st)).
Lemma within_inside st : within st -> inside (pos st).
Proof. by intros [? _]. Qed.
Lemma follows_within a c : within a -> follows a c -> within c.
Proof.
  intros (Hi & Hb & Hm) F. split; [by eapply follows_inside|]. pose proof (follows_le _ _ F).
  destruct F as [(_ & _ & _ & E & _) _]. rewrite E. split; [lia|done].
Qed.
Lemma within_follows st : within st -> follows st st.
Proof. intros [Hi _]. by apply follows_refl. Qed.

Definition total {A} (m : ST S A) : Prop := forall st, within st -> wp m st (fun _ st' => follows st st').
Definition steps {A B} (m : ST S (A + B)) : Prop := forall st, within st ->
  wp m st (fun r st' => follows st st' /\ match r with inl _ => (i_ (pos st) < i_ (pos st'))%nat | inr _ => True end).

Lemma wp_total {A} (m : ST S A) st (Q : A -> S -> Prop) : total m -> within st ->
  (forall x st', follows st st' -> Q x st') -> wp m st Q.
Proof. intros Hm Hi HQ. eapply wp_mono; [by apply (Hm st Hi)|]. exact HQ. Qed.
Lemma total_ret {A} (x : A) : total (ret x).
Proof. intros st Hi. by apply wp_ret, within_follows. Qed.
Lemma total_get {A} (f : S -> A) : total (get f).
Proof. intros st Hi. by apply wp_get, within_follows. Qed.
Lemma total_bind {A B} (m : ST S A) (f : A -> ST S B) : total m -> (forall x, total (f x)) -> total (bind m f).
Proof.
  intros Hm Hf st Hi. apply wp_bind. apply wp_total; [done..|]. intros x st1 F1.
  apply wp_total; [apply Hf|by eapply follows_within|]. intros y st2 F2. by eapply follows_trans.
Qed.
Lemma total_when p (m : ST S unit) : total m -> total (when p m).
Proof. intros Hm. apply total_bind; [apply total_get|]. intros [|]; [done|apply total_ret]. Qed.

(** ** Loops *)
(** A loop whose rounds consume a token or leave with [Q]. *)
Lemma rounds_post {A B} (body : A -> ST S (A + B)) (Q : B -> S -> Prop) :
  (forall a st, within st -> wp (body a) st (fun r st' => follows st st' /\
     match r with inl _ => (i_ (pos st) < i_ (pos st'))%nat | inr b => Q b st' end)) ->
  forall n a st, within st -> (length toks - i_ (pos st) < n)%nat -> wp (rounds body n a) st (fun b st' => follows st st' /\ Q b st').
Proof.
  intros Hb n. induction n as [|n IH]; intros a st Hi Hn; [lia|]. cbn [rounds]. apply wp_bind.
  eapply wp_mono; [apply (Hb a st Hi)|]. intros [a'|b] st1 [F1 C1]; [|by apply wp_ret].
  eapply wp_mono; [apply IH; [by eapply follows_within|]|].
  - pose proof (follows_inside _ _ F1). unfold ExprTotal.inside in *. lia.
  - intros y st2 [F2 HQ]. split; [by eapply follows_trans|done].
Qed.
Lemma loop_post {A B} (body : A -> ST S (A + B)) (Q : B -> S -> Prop) :
  (forall a st, within st -> wp (body a) st (fun r st' => follows st st' /\
     match r with inl _ => (i_ (pos st) < i_ (pos st'))%nat | inr b => Q b st' end)) ->
  forall a st, within st -> wp (loop body a) st (fun b st' => follows st st' /\ Q b st').
Proof. intros Hb a st Hi. apply wp_bind, wp_get. apply rounds_post; [done..|]. unfold fuel_left. lia. Qed.
Lemma total_loop {A B} (body : A -> ST S (A + B)) a : (forall a, steps (body a)) -> total (loop body a).
Proof.
  intros Hb st Hi. eapply wp_mono; [apply (loop_post body (fun _ _ => True)); [|done]|by intros b st' [F _]].
  intros a' st' Hi'. by apply Hb.
Qed.
Lemma steps_stop {A B} (x : B) : steps (A := A) (ret (inr x)).
Proof. intros st Hi. split; [by apply within_follows|done]. Qed.
Lemma steps_bind {A B C} (m : ST S C) (f : C -> ST S (A + B)) : total m -> (forall x, steps (f x)) -> steps (bind m f).
Proof.
  intros Hm Hf st Hi. apply wp_bind. apply wp_total; [done..|]. intros x st1 F1.
  eapply wp_mono; [apply Hf; by eapply follows_within|]. intros r st2 [F2 C2]. split; [by eapply follows_trans|].
  destruct r; [|done]. pose proof (follows_le _ _ F1). lia.
Qed.

(** ** Progress *)
(** [strict m]: [m] consumes a token wherever one is left.  [stays m]: it consumes none. *)
Definition strict {A} (m : ST S A) : Prop := forall st, within st -> eof st = false ->
  wp m st (fun _ st' => follows st st' /\ (i_ (pos st) < i_ (pos st'))%nat).
Definition stays {A} (m : ST S A) : Prop := forall st, within st -> wp m st (fun _ st' => follows st st' /\ i_ (pos st') = i_ (pos st)).

Lemma strict_bind {A B} (m : ST S A) (f : A -> ST S B) : strict m -> (forall x, total (f x)) -> strict (bind m f).
Proof.
  intros Hm Hf st Hi Hn. apply wp_bind. eapply wp_mono; [by apply (Hm st Hi)|]. intros x st1 [F1 C1].
  apply wp_total; [done|by eapply follows_within|]. intros y st2 F2. split; [by eapply follows_trans|].
  pose proof (follows_le _ _ F2). lia.
Qed.
Lemma stays_total {A} (m : ST S A) : stays m -> total m.
Proof. intros Hm st Hi. eapply wp_mono; [by apply Hm|]. by intros x st' [F _]. Qed.
Lemma strict_stays {A B} (m : ST S A) (f : A -> ST S B) : stays m -> (forall x, strict (f x)) -> strict (bind m f).
Proof.
  intros Hm Hf st Hi Hn. apply wp_bind. eapply wp_mono; [by apply (Hm st Hi)|]. intros x st1 [F1 E1].
  eapply wp_mono; [apply Hf; [by eapply follows_within|unfold is_at, cur_tok in *; by rewrite E1]|].
  intros y st2 [F2 C2]. split; [by eapply follows_trans|lia].
Qed.
Lemma strict_total {A} (m : ST S A) : strict m -> (forall st, within st -> eof st = true -> wp m st (fun _ st' => follows st st')) ->
  total m.
Proof.
  intros Hs He st Hi. destruct (eof st) eqn:E; [by apply He|]. eapply wp_mono; [by apply Hs|]. by intros x st' [F _].
Qed.
Lemma stays_get {A} (f : S -> A) : stays (get f).
Proof. intros st Hi. apply wp_get. split; [by apply within_follows|done]. Qed.
Lemma stays_ret {A} (x : A) : stays (ret x).
Proof. intros st Hi. apply wp_ret. split; [by apply within_follows|done]. Qed.
Lemma stays_bind {A B} (m : ST S A) (f : A -> ST S B) : stays m -> (forall x, stays (f x)) -> stays (bind m f).
Proof.
  intros Hm Hf st Hi. apply wp_bind. eapply wp_mono; [by apply (Hm st Hi)|]. intros x st1 [F1 E1].
  eapply wp_mono; [apply Hf; by eapply follows_within|]. intros y st2 [F2 E2]. split; [by eapply follows_trans|congruence].
Qed.
(** A round whose condition excludes the end of the file, and which then consumes. *)
Lemma steps_strict {A B} (p : pst -> bool) (a b : ST S (A + B)) : not_eof p -> strict a -> steps b ->
  steps (if? p then a else b).
Proof.
  intros Hp Ha Hb st Hi. apply wp_bind, wp_get. destruct (p (pos st)) eqn:E; [|by apply Hb].
  eapply wp_mono; [apply Ha; [done|by apply Hp]|]. intros r st' [F C]. split; [done|by destruct r].
Qed.
Lemma steps_strict_not {A B} (p : pst -> bool) (a b : ST S (A + B)) : not_eof (not_ p) -> steps a -> strict b ->
  steps (if? p then a else b).
Proof.
  intros Hp Ha Hb st Hi. apply wp_bind, wp_get. destruct (p (pos st)) eqn:E; [by apply Ha|].
  eapply wp_mono; [apply Hb; [done|apply Hp; unfold not_; by rewrite E]|]. intros r st' [F C]. split; [done|by destruct r].
Qed.

(** [advances P m]: [m] consumes a token when its result satisfies [P]; [advances_in], not at
    the end of the file. *)
Definition advances {A} (P : A -> bool) (m : ST S A) : Prop := forall st, within st ->
  wp m st (fun r st' => follows st st' /\ (P r = true -> (i_ (pos st) < i_ (pos st'))%nat)).
Definition advances_in {A} (P : A -> bool) (m : ST S A) : Prop := forall st, within st -> eof st = false ->
  wp m st (fun r st' => follows st st' /\ (P r = true -> (i_ (pos st) < i_ (pos st'))%nat)).
Lemma advances_total {A} (P : A -> bool) (m : ST S A) : advances P m -> total m.
Proof. intros Hm st Hi. eapply wp_mono; [by apply (Hm st Hi)|]. by intros x st' [F _]. Qed.
Lemma advances_strict {A} (P : A -> bool) (m : ST S A) : strict m -> advances_in P m.
Proof. intros Hm st Hi He. eapply wp_mono; [by apply (Hm st Hi)|]. by intros x st' [F C]. Qed.
Lemma advances_stop {A} (P : A -> bool) x : P x = false -> advances P (ret x).
Proof. intros Hx st Hi. apply wp_ret. split; [by apply within_follows|]. by rewrite Hx. Qed.
Lemma advances_weaken {A} (P : A -> bool) (m : ST S A) : advances P m -> advances_in P m.
Proof. intros Hm st Hi _. by apply Hm. Qed.
Lemma advances_ret {A} (P : A -> bool) x : P x = false -> advances_in P (ret x).
Proof. intros Hx. by apply advances_weaken, advances_stop. Qed.
Lemma advances_get {A B} (P : A -> bool) (f : S -> B) (g : B -> ST S A) : (forall x, advances_in P (g x)) -> advances_in P (bind (get f) g).
Proof. intros Hg st Hi He. apply wp_bind, wp_get. by apply Hg. Qed.
Lemma advances_bind {A B} (P : A -> bool) (Q : B -> bool) (m : ST S A) (f : A -> ST S B) : advances P m ->
  (forall x, P x = true -> total (f x)) -> (forall x, P x = false -> advances Q (f x)) -> advances Q (bind m f).
Proof.
  intros Hm Ht Hf st Hi. apply wp_bind. eapply wp_mono; [by apply (Hm st Hi)|]. intros x st1 [F1 C1]. destruct (P x) eqn:E.
  - apply wp_total; [by apply Ht|by eapply follows_within|]. intros y st2 F2. split; [by eapply follows_trans|].
    intros _. specialize (C1 eq_refl). pose proof (follows_le _ _ F2). lia.
  - eapply wp_mono; [apply Hf; [done|by eapply follows_within]|]. intros y st2 [F2 C2]. split; [by eapply follows_trans|].
    intros Hq. specialize (C2 Hq). pose proof (follows_le _ _ F1). lia.
Qed.
Lemma steps_advances {A B C} (P : C -> bool) (m : ST S C) (f : C -> ST S (A + B)) : advances P m ->
  (forall x, P x = true -> total (f x)) -> (forall x, P x = false -> steps (f x)) -> steps (bind m f).
Proof.
  intros Hm Ht Hf st Hi. apply wp_bind. eapply wp_mono; [by apply (Hm st Hi)|]. intros x st1 [F1 C1]. destruct (P x) eqn:E.
  - apply wp_total; [by apply Ht|by eapply follows_within|]. intros y st2 F2. split; [by eapply follows_trans|].
    specialize (C1 eq_refl). destruct y; [|done]. pose proof (follows_le _ _ F2). lia.
  - eapply wp_mono; [apply Hf; [done|by eapply follows_within]|]. intros y st2 [F2 C2]. split; [by eapply follows_trans|].
    destruct y; [|done]. pose proof (follows_le _ _ F1). lia.
Qed.

Lemma strict_advances {A B} (P : A -> bool) (m : ST S A) (f : A -> ST S B) : advances P m ->
  (forall x, total (f x)) -> (forall x, P x = false -> strict (f x)) -> strict (bind m f).
Proof.
  intros Hm Ht Hf st Hi He. apply wp_bind. eapply wp_mono; [by apply (Hm st Hi)|]. intros x st1 [F1 C1].
  assert (within st1) as Hi1 by (by eapply follows_within). pose proof (follows_le _ _ F1) as L1.
  assert ((i_ (pos st) < i_ (pos st1))%nat -> wp (f x) st1 (fun _ st' => follows st st' /\ (i_ (pos st) < i_ (pos st'))%nat)) as Hc.
  { intros C. apply wp_total; [apply Ht|done|]. intros y st2 F2. split; [by eapply follows_trans|]. pose proof (follows_le _ _ F2). lia. }
  destruct (P x) eqn:E; [by apply Hc, C1|]. destruct (Nat.eq_dec (i_ (pos st1)) (i_ (pos st))) as [E1|]; [|apply Hc; lia].
  eapply wp_mono; [apply Hf; [done..|unfold is_at, cur_tok in *; by rewrite E1]|].
  intros y st2 [F2 C2]. split; [by eapply follows_trans|lia].
Qed.
Lemma advances_stays {A B} (P : B -> bool) (m : ST S A) x : P x = false -> total m -> advances P (m;; ret x).
Proof.
  intros Hx Hm st Hi. apply wp_bind. apply wp_total; [done..|]. intros y st1 F1. apply wp_ret. split; [done|]. by rewrite Hx.
Qed.

Lemma advances_total_false {A} (m : ST S A) : total m -> advances (fun _ => false) m.
Proof. intros Hm st Hi. apply wp_total; [done..|]. intros x st' F. by split. Qed.
Lemma strict_total_bind {A B} (m : ST S A) (f : A -> ST S B) : total m -> (forall x, total (f x)) -> (forall x, strict (f x)) -> strict (bind m f).
Proof. intros Hm Ht Hs. eapply strict_advances; [by apply advances_total_false|done|]. intros x _. apply Hs. Qed.
Lemma advances_branch {A} (P : A -> bool) (p : pst -> bool) (a b : ST S A) : not_eof p -> strict a -> advances P b ->
  advances P (if? p then a else b).
Proof.
  intros Hp Ha Hb st Hi. apply wp_bind, wp_get. destruct (p (pos st)) eqn:E; [|by apply Hb].
  eapply wp_mono; [apply Ha; [done|by apply Hp]|]. by intros r st' [F C].
Qed.
Lemma advances_if {A} (P : A -> bool) (p : pst -> bool) (a b : ST S A) : advances P a -> advances P b -> advances P (if? p then a else b).
Proof. intros Ha Hb st Hi. apply wp_bind, wp_get. destruct (p (pos st)); [by apply Ha|by apply Hb]. Qed.
Lemma strict_if {A} (p : pst -> bool) (a b : ST S A) : strict a -> strict b -> strict (if? p then a else b).
Proof. intros Ha Hb st Hi He. apply wp_bind, wp_get. destruct (p (pos st)); [by apply Ha|by apply Hb]. Qed.
Lemma total_branch {A} (p : pst -> bool) (a b : ST S A) : not_eof p -> strict a -> total b -> total (if? p then a else b).
Proof.
  intros Hp Ha Hb st Hi. apply wp_bind, wp_get. destruct (p (pos st)) eqn:E; [|by apply Hb].
  eapply wp_mono; [apply Ha; [done|by apply Hp]|]. by intros r st' [F _].
Qed.
(** A loop that leaves with [P] only once a round has consumed a token. *)
Lemma advances_loop {A B} (P : B -> bool) (body : A -> ST S (A + B)) a :
  (forall a, advances (fun r => match r with inl _ => true | inr b => P b end) (body a)) -> advances P (loop body a).
Proof.
  intros Hb st Hi. assert (forall n a st0, within st0 -> follows st st0 -> (length toks - i_ (pos st0) < n)%nat ->
    wp (rounds body n a) st0 (fun b st' => follows st st' /\ (P b = true -> (i_ (pos st) < i_ (pos st'))%nat))) as Hr.
  { induction n as [|n IH]; intros a0 st0 Hi0 F0 Hn; [lia|]. cbn [rounds]. apply wp_bind.
    eapply wp_mono; [apply (Hb a0 st0 Hi0)|]. intros r st1 [F1 C1]. assert (follows st st1) as G1 by (by eapply follows_trans).
    pose proof (follows_le _ _ F0). pose proof (follows_inside _ _ F1).
    destruct r as [a'|b]; [|apply wp_ret; split; [done|]; intros Hp; specialize (C1 Hp); lia].
    specialize (C1 eq_refl). apply IH; [by eapply follows_within|done|]. unfold ExprTotal.inside in *. lia. }
  apply wp_bind, wp_get. apply Hr; [done|by apply within_follows|]. unfold fuel_left. lia.
Qed.
Lemma strict_loop {A B} (body : A -> ST S (A + B)) a : (forall a, steps (body a)) -> strict (body a) -> strict (loop body a).
Proof.
  intros Hb Ha st Hi He. apply wp_bind, wp_get. destruct (fuel_left toks (pos st)) as [|n] eqn:En; [unfold fuel_left in En; lia|].
  cbn [rounds]. apply wp_bind. eapply wp_mono; [by apply Ha|]. intros r st1 [F1 C1]. destruct r as [a'|b]; [|by apply wp_ret].
  eapply wp_mono; [apply (rounds_post body (fun _ _ => True)); [|by eapply follows_within|]|].
  - intros a'' st'' Hi''. by apply Hb.
  - pose proof (follows_inside _ _ F1). unfold fuel_left, ExprTotal.inside in *. lia.
  - intros b st2 [F2 _]. split; [by eapply follows_trans|]. pose proof (follows_le _ _ F2). lia.
Qed.

(** The body of a loop that is known not to be at the end of the file. *)
Definition steps_in {A B} (m : ST S (A + B)) : Prop := forall st, within st -> eof st = false ->
  wp m st (fun r st' => follows st st' /\ match r with inl _ => (i_ (pos st) < i_ (pos st'))%nat | inr _ => True end).
Lemma steps_in_strict {A B} (m : ST S (A + B)) : strict m -> steps_in m.
Proof. intros Hm st Hi He. eapply wp_mono; [by apply (Hm st Hi)|]. intros r st' [F C]. split; [done|by destruct r]. Qed.
Lemma steps_in_steps {A B} (m : ST S (A + B)) : steps m -> steps_in m.
Proof. intros Hm st Hi _. by apply Hm. Qed.

Lemma steps_in_if {A B} (p : pst -> bool) (a b : ST S (A + B)) : steps_in a -> steps_in b -> steps_in (if? p then a else b).
Proof. intros Ha Hb st Hi He. apply wp_bind, wp_get. destruct (p (pos st)); [by apply Ha|by apply Hb]. Qed.
Lemma steps_in_get {A B C} (f : S -> C) (g : C -> ST S (A + B)) : (forall x, steps_in (g x)) -> steps_in (bind (get f) g).
Proof. intros Hg st Hi He. apply wp_bind, wp_get. by apply Hg. Qed.
Lemma steps_unless {A B} (p : pst -> bool) (a b : ST S (A + B)) : not_eof (not_ p) -> steps a -> steps_in b -> steps (if? p then a else b).
Proof.
  intros Hp Ha Hb st Hi. apply wp_bind, wp_get. destruct (p (pos st)) eqn:E; [by apply Ha|].
  apply Hb; [done|]. apply Hp. unfold not_. by rewrite E.
Qed.

(** Backtracking: [from s0 m] is totality for a program that may put back the tokens read
    since [s0]. *)
Definition from (s0 : S) {A} (m : ST S A) : Prop := forall st, within st -> follows s0 st -> wp m st (fun _ st' => follows s0 st').
Lemma from_total s0 {A} (m : ST S A) : total m -> from s0 m.
Proof. intros Hm st Hi F. apply wp_total; [done..|]. intros x st' F'. by eapply follows_trans. Qed.
Lemma from_bind s0 {A B} (m : ST S A) (f : A -> ST S B) : within s0 -> from s0 m -> (forall x, from s0 (f x)) -> from s0 (bind m f).
Proof.
  intros Hs Hm Hf st Hi F. apply wp_bind. eapply wp_mono; [by apply Hm|]. intros x st1 F1.
  apply Hf; [by apply (follows_within s0)|done].
Qed.
End calculus.

(** ** Recursion *)
Section recursion.
Context `{EndsEof} {S : Type} `{Keeps S} (lim : nat).
Abbreviation eof st := (is_at toks Tok.Eof (pos st)).
(** After a token is consumed one fewer is left. *)
Lemma within_pred (st st' : S) : within lim st -> follows st st' -> (i_ (pos st) < i_ (pos st'))%nat -> within (pred lim) st'.
Proof.
  intros Hi F C. destruct (follows_within lim _ _ Hi F) as (Hi' & Hb' & Hm). split; [done|]. split; [|done].
  destruct Hi as (Hi & Hb & _). unfold ExprTotal.inside in *. lia.
Qed.
(** Some token is always left: the last is never consumed. *)
Lemma total_zero {A} (m : ST S A) : total 0 m.
Proof. intros st (Hi & Hb & _). unfold ExprTotal.inside in Hi. lia. Qed.
Lemma advances_zero {A} (P : A -> bool) (m : ST S A) : advances 0 P m.
Proof. intros st (Hi & Hb & _). unfold ExprTotal.inside in Hi. lia. Qed.
Lemma total_less {A} (m : ST S A) n : (n <= lim)%nat -> total lim m -> total n m.
Proof. intros Hn Hm st (Hi & Hb & ?). apply Hm. split; [done|]. split; [lia|done]. Qed.
Lemma wp_after {A} (m : ST S A) s0 st (Q : A -> S -> Prop) : total (pred lim) m -> within lim s0 -> follows s0 st ->
  (i_ (pos s0) < i_ (pos st))%nat -> (forall x st', follows s0 st' -> Q x st') -> wp m st Q.
Proof.
  intros Hm Hi F C HQ. apply (wp_total (pred lim)); [done|by eapply within_pred|]. intros x st' F'. apply HQ. by eapply follows_trans.
Qed.
(** Totality where the position is known not to be the end of the file. *)
Definition total_in {A} (m : ST S A) : Prop := forall st, within lim st -> eof st = false -> wp m st (fun _ st' => follows st st').
Lemma total_in_total {A} (m : ST S A) : total lim m -> total_in m.
Proof. intros Hm st Hi _. by apply Hm. Qed.
(** Progress with the rest of the run one token shorter. *)
Lemma strict_pred {A B} (m : ST S A) (f : A -> ST S B) : strict lim m -> (forall x, total (pred lim) (f x)) -> strict lim (bind m f).
Proof.
  intros Hm Hf st Hi He. apply wp_bind. eapply wp_mono; [by apply (Hm st Hi)|]. intros x st1 [F1 C1].
  apply (wp_total (pred lim)); [done|by eapply within_pred|]. intros y st2 F2. split; [by eapply follows_trans|].
  pose proof (follows_le _ _ F2). lia.
Qed.
Lemma total_in_get {A B} (f : S -> A) (g : A -> ST S B) : (forall x, total_in (g x)) -> total_in (bind (get f) g).
Proof. intros Hg st Hi He. apply wp_bind, wp_get. by apply Hg. Qed.
Lemma total_in_strict {A B} (m : ST S A) (f : A -> ST S B) : strict lim m -> (forall x, total (pred lim) (f x)) -> total_in (bind m f).
Proof.
  intros Hm Hf st Hi He. apply wp_bind. eapply wp_mono; [by apply (Hm st Hi)|]. intros x st1 [F1 C1].
  by apply (wp_after _ st).
Qed.
Lemma total_guard {A} (p : pst -> bool) (a b : ST S A) : not_eof p -> total_in a -> total lim b ->
  total lim (if? p then a else b) /\ total lim (bind (get (fun st => p (pos st))) (fun x => if negb x then b else a)).
Proof.
  intros Hp Ha Hb. split; intros st Hi; apply wp_bind, wp_get; destruct (p (pos st)) eqn:E; cbn [negb]; try (by apply Hb);
    apply Ha; try done; by apply Hp.
Qed.
Lemma total_after {A B} (m : ST S A) (f : A -> ST S B) (p : pst -> bool) g : not_eof p -> strict lim m -> (forall x, total (pred lim) (f x)) ->
  total lim g -> total lim (if? p then bind m f else g).
Proof.
  intros Hp Hm Hf Hg. apply total_guard; [done| |done]. by apply total_in_strict.
Qed.
End recursion.

(** ** The parser's own steps *)
Section primitives.
Context `{EndsEof} (lim : nat).
Abbreviation total := (total (S := pst) lim).
Abbreviation strict := (strict (S := pst) lim).
Abbreviation inside := (ExprTotal.inside toks).
(** A step that changes the diagnostics only, and lets them grow. *)
Lemma stays_diags {A} (f : pst -> A) (g : pst -> Diags) : (forall st, grows (pd_ st) (g st)) ->
  stays lim (fun st => Some (f st, mkP (i_ st) (exprDepth_ st) (g st))).
Proof.
  intros Hg st [Hi _]. unfold wp. split; [|done]. split; [|done]. unfold ExprTotal.follows, ExprTotal.inside.
  cbn. repeat split; try done; try lia; apply (Hg st).
Qed.
Lemma stays_report loc msg rule : stays lim (report loc msg rule).
Proof. apply (stays_diags (fun _ => tt)). intros st. apply grows_error. Qed.
Lemma stays_warn loc msg rule : stays lim (warn_at loc msg rule).
Proof. apply (stays_diags (fun _ => tt)). intros st. apply grows_warn. Qed.
Lemma stays_error_fix loc msg rule fx : stays lim (error_fix loc msg rule fx).
Proof. apply (stays_diags (fun _ => tt)). intros st. apply grows_error. Qed.
Lemma stays_error_here msg rule : stays lim (error_here msg rule).
Proof. apply stays_bind; [apply stays_get|]. intros t. apply stays_report. Qed.
Lemma stays_bounded f what rule : (forall s l d, grows d (snd (f s l d what rule))) -> stays lim (bounded f what rule).
Proof.
  intros Hf st [Hi _]. unfold wp, bounded. specialize (Hf (Token.text_ (cur st)) (Token.loc (cur st)) (pd_ st)).
  destruct (f _ _ _ _ _) as [v d]. cbn in Hf. split; [|done]. split; [|done]. unfold ExprTotal.follows, ExprTotal.inside. cbn.
  repeat split; try done; try lia; apply Hf.
Qed.
Lemma bounded_grows s l d what rule :
  grows d (snd (boundedNonNeg s l d what rule)) /\ grows d (snd (boundedInt s l d what rule)).
Proof.
  unfold boundedNonNeg, boundedInt. destruct (strtoll s 10) as [[v j] er].
  split; destruct (_ || _); cbn [snd]; apply diags_grows_refl || apply grows_error.
Qed.
Lemma total_report loc msg rule : total (report loc msg rule).
Proof. apply stays_total, stays_report. Qed.
Lemma total_error_here msg rule : total (error_here msg rule).
Proof. apply stays_total, stays_error_here. Qed.
Lemma total_warn loc msg rule : total (warn_at loc msg rule).
Proof. apply stays_total, stays_warn. Qed.
Lemma total_error_fix loc msg rule fx : total (error_fix loc msg rule fx).
Proof. apply stays_total, stays_error_fix. Qed.
Lemma total_bounded f what rule : (forall s l d, grows d (snd (f s l d what rule))) -> total (bounded f what rule).
Proof. intros Hf. by apply stays_total, stays_bounded. Qed.

(** Moving on: a token is consumed, or the end of the file has been reached. *)
Lemma wp_advance st (Q : unit -> pst -> Prop) : inside st ->
  (forall st', follows st st' -> (i_ st < i_ st')%nat \/ (i_ st' = i_ st /\ is_at toks Tok.Eof st' = true) -> Q tt st') ->
  wp advance st Q.
Proof.
  intros Hi HQ. unfold wp, ExprParser.advance. destruct (Nat.ltb_spec (i_ st + 1) (length toks)).
  - apply HQ; [|left; cbn; lia]. split; [|done]. unfold ExprTotal.follows, ExprTotal.inside. cbn.
    split; [lia|]. split; [lia|]. split; [done|apply diags_grows_refl].
  - apply HQ; [by apply follows_refl|]. right. split; [done|]. unfold is_at. apply bool_decide_eq_true.
    unfold cur_tok. unfold ExprTotal.inside in Hi. replace (i_ st) with (length toks - 1)%nat by lia.
    rewrite <- (last_nth toks strtod double_of ends_eof nonempty). apply ends_eof.
Qed.
Lemma total_advance : total advance.
Proof. intros st [Hi _]. by apply wp_advance. Qed.
Lemma strict_advance : strict advance.
Proof.
  intros st [Hi _] Hn. apply wp_advance; [apply Hi|]. intros st' F [C|[E1 He]]; [done|].
  cbn in Hn. unfold is_at, cur_tok in *. rewrite E1 in He. congruence.
Qed.
Lemma wp_eat kd st (Q : bool -> pst -> Prop) : inside st -> kd <> Tok.Eof ->
  (forall st', follows st st' -> (i_ st < i_ st')%nat -> Q true st') -> (is_at toks kd st = false -> Q false st) -> wp (eat kd) st Q.
Proof.
  intros Hi Hk H1 H2. apply (ExprTotal.expr_wp_eat toks strtod double_of ends_eof nonempty); [done..| |done].
  intros st' _ [F C] _. by apply H1.
Qed.
Lemma wp_expect kd rule st (Q : bool -> pst -> Prop) : inside st -> kd <> Tok.Eof ->
  (forall st', follows st st' -> (i_ st < i_ st')%nat -> Q true st') -> (forall st', follows st st' -> i_ st' = i_ st -> Q false st') ->
  wp (expect kd rule) st Q.
Proof.
  intros Hi Hk H1 H2. unfold ExprParser.expect. apply wp_bind, wp_get. destruct (is_at toks kd st) eqn:E.
  - apply wp_bind, wp_advance; [done|]. intros st1 F1 [C1|[E1 He]]; [by apply wp_ret, H1|].
    exfalso. unfold is_at, cur_tok in *. rewrite E1 in He. apply bool_decide_eq_true in He, E. congruence.
  - apply wp_bind, wp_get, wp_bind.
    apply (ExprTotal.wp_report toks strtod double_of ends_eof nonempty); [done|]. intros st1 F1 E1 _. by apply wp_ret, H2.
Qed.
Lemma total_eat kd : kd <> Tok.Eof -> total (eat kd).
Proof. intros Hk st [Hi ?]. apply wp_eat; [done..|by intros; apply follows_refl]. Qed.
Lemma total_expect kd rule : kd <> Tok.Eof -> total (expect kd rule).
Proof. intros Hk st [Hi _]. by apply wp_expect. Qed.
Lemma total_eatWord w : total (eatWord w).
Proof. apply total_bind; [apply total_get|]. intros [|]; [|apply total_ret]. apply total_bind; [apply total_advance|]. intros _. apply total_ret. Qed.
(** Once a token is consumed, the rest of the round need only be total. *)
Lemma steps_eat {A B} kd (f : bool -> M (A + B)) : kd <> Tok.Eof -> total (f true) -> steps lim (f false) -> steps lim (bind (eat kd) f).
Proof.
  intros Hk H1 H2 st Hi. apply wp_bind. apply wp_eat; [apply Hi|done| |].
  - intros st1 F1 C1. apply (wp_total lim); [done|by eapply follows_within|]. intros r st2 F2.
    split; [by eapply follows_trans|]. destruct r; [|done]. pose proof (follows_le _ _ F2). cbn in *. lia.
  - intros _. by apply H2.
Qed.
Lemma total_eat_after {B} kd (f : bool -> M B) : kd <> Tok.Eof -> ParserBase.total (S := pst) (pred lim) (f true) -> total (f false) ->
  total (bind (eat kd) f).
Proof.
  intros Hk H1 H2 st Hi. apply wp_bind. apply wp_eat; [apply Hi|done| |].
  - intros st1 F1 C1. by apply (wp_after lim _ st).
  - intros _. by apply H2.
Qed.
Lemma total_expect_after {B} kd rule (f : bool -> M B) : kd <> Tok.Eof -> ParserBase.total (S := pst) (pred lim) (f true) -> total (f false) ->
  total (bind (expect kd rule) f).
Proof.
  intros Hk H1 H2 st Hi. apply wp_bind, wp_expect; [apply Hi|done|intros st1 F1 C1; by apply (wp_after lim _ st)|].
  intros st1 F1 _. apply (wp_total lim); [done|by eapply follows_within|]. intros r st2 F2. by eapply follows_trans.
Qed.
Lemma steps_skip_round going depth : steps lim (skip_round going depth).
Proof.
  intros st Hi. apply wp_bind, wp_get, wp_bind, wp_advance; [apply Hi|]. intros st1 F1 C1. apply wp_bind, wp_get, wp_ret.
  split; [done|]. unfold here. destruct C1 as [C1|[_ ->]]; [by destruct (_ && _)|]. by rewrite andb_false_r.
Qed.
Lemma strict_skip_group : strict skip_group_here.
Proof.
  apply strict_loop; [intros d; apply steps_skip_round|]. apply strict_stays; [apply stays_get|]. intros t.
  apply strict_bind; [apply strict_advance|]. intros _. apply total_bind; [apply total_get|]. intros e. apply total_ret.
Qed.
Lemma total_skip_group : total skip_group_here.
Proof. apply total_loop. intros d. apply steps_skip_round. Qed.

(** Expressions, with fuel for the tokens left. *)
Lemma total_parseExpr n p : (8 * lim + 5 <= n)%nat -> total (ExprParser.parseExpr toks strtod double_of n p).
Proof.
  intros Hn st (Hi & Hb & _). destruct (total_all toks strtod double_of ends_eof nonempty n) as (HE & _).
  cbn in *. eapply wp_mono; [apply HE; [done|unfold left_; lia]|]. by intros e st' [F _].
Qed.
Lemma total_expression : total expression.
Proof.
  intros st Hi. apply wp_bind, wp_get.
  destruct (total_all toks strtod double_of ends_eof nonempty (expr_fuel st)) as (HE & _).
  eapply wp_mono; [apply HE; [apply Hi|unfold expr_fuel, left_; lia]|]. by intros e st' [F _].
Qed.
Lemma total_expressionOrPlaceholder : total expressionOrPlaceholder.
Proof.
  intros st Hi. apply wp_bind, wp_get, wp_bind, wp_get, wp_bind.
  destruct (total_all toks strtod double_of ends_eof nonempty (expr_fuel st)) as (HE & _).
  eapply wp_mono; [apply HE; [apply Hi|unfold expr_fuel, left_; lia]|]. intros e st' [F _]. by apply wp_ret.
Qed.
Lemma total_primary : total primary.
Proof.
  intros st Hi. apply wp_bind, wp_get.
  destruct (total_all toks strtod double_of ends_eof nonempty (expr_fuel st)) as (_ & _ & _ & _ & HP & _).
  eapply wp_mono; [apply HP; [apply Hi|unfold expr_fuel, left_; lia]|]. by intros e st' [F _].
Qed.

(** A primary or an expression that is there consumed a token. *)
Definition got {A} (o : option A) : bool := match o with Some _ => true | None => false end.
Lemma advances_primary : advances lim got primary.
Proof.
  intros st Hi. apply wp_bind, wp_get.
  destruct (total_all toks strtod double_of ends_eof nonempty (expr_fuel st)) as (_ & _ & _ & _ & HP & _).
  eapply wp_mono; [apply HP; [apply Hi|unfold expr_fuel, left_; lia]|]. intros [e|] st' [F C]; by split.
Qed.
Lemma not_eof_here kd : kd <> Tok.Eof -> not_eof (here kd).
Proof. unfold not_eof, here, is_at. intros Hk st E%bool_decide_eq_true. rewrite E. by apply bool_decide_eq_false. Qed.
Lemma not_eof_word w : not_eof (atWord w).
Proof.
  unfold not_eof, atWord, Token.isWord, is_at. intros st [E%bool_decide_eq_true _]%andb_true_iff. rewrite E. by apply bool_decide_eq_false.
Qed.
Lemma not_eof_both_l p q : not_eof p -> not_eof (p &&& q).
Proof. intros Hp st [? _]%andb_true_iff. by apply Hp. Qed.
Lemma not_eof_both_r p q : not_eof q -> not_eof (p &&& q).
Proof. intros Hq st [_ ?]%andb_true_iff. by apply Hq. Qed.
Lemma not_eof_either p q : not_eof p -> not_eof q -> not_eof (p ||| q).
Proof. intros Hp Hq st [?|?]%orb_true_iff; [by apply Hp|by apply Hq]. Qed.
Lemma not_eof_not_l p : not_eof (not_ (here Tok.Eof ||| p)).
Proof. intros st H1. unfold not_, either, here in H1. by destruct (is_at toks Tok.Eof st). Qed.
Lemma not_eof_not_r p : not_eof (not_ (p ||| here Tok.Eof)).
Proof. intros st H1. unfold not_, either, here in H1. destruct (is_at toks Tok.Eof st); [|done]. by rewrite orb_true_r in H1. Qed.
Lemma not_eof_not : not_eof (not_ (here Tok.Eof)).
Proof. intros st H1. unfold not_, here in H1. by destruct (is_at toks Tok.Eof st). Qed.

(** The kind of the token here, other than the end of the file. *)
Lemma advances_kind {A} (P : A -> bool) kd (f : Token.t -> M A) (g : Token.t -> M A) : kd <> Tok.Eof ->
  (forall t, Token.kind t = kd -> advances_in lim P (f t)) -> (forall t, advances lim P (g t)) ->
  advances lim P (bind (get cur) (fun t => if bool_decide (Token.kind t = kd) then f t else g t)).
Proof.
  intros Hk Hf Hg st Hi. apply wp_bind, wp_get. case_bool_decide as E; [|by apply Hg]. apply Hf; [done..|].
  cbn. unfold is_at. rewrite E. by apply bool_decide_eq_false.
Qed.
Lemma total_here_word : total here_word.
Proof. apply total_bind; [apply total_get|]. intros t. apply total_ret. Qed.
Lemma stays_here_word : stays lim here_word.
Proof. apply stays_bind; [apply stays_get|]. intros t. apply stays_ret. Qed.
Lemma steps_here_word {A B} (f : option text -> M (A + B)) : (forall w, steps_in lim (f (Some w))) -> steps lim (f None) ->
  steps lim (bind here_word f).
Proof.
  intros H1 H2 st Hi. unfold here_word. apply wp_bind, wp_bind, wp_get, wp_ret. case_bool_decide as E; [|by apply H2].
  apply H1; [done|]. cbn. unfold is_at. rewrite E. by apply bool_decide_eq_false.
Qed.

(** Skipping to the next semicolon stops there or at the end of the file. *)
Lemma skip_to_semi_spec n st : inside st -> (length toks - i_ st < n)%nat ->
  wp (ExprParser.skip_to_semi toks n) st (fun _ st' => follows st st' /\
    (is_at toks Tok.Eof st' || is_at toks Tok.Semi st') = true /\
    ((i_ st < i_ st')%nat \/ (i_ st' = i_ st /\ is_at toks Tok.Eof st || is_at toks Tok.Semi st = true))).
Proof.
  revert st. induction n as [|n IH]; intros st Hi Hn; [lia|]. cbn [ExprParser.skip_to_semi]. apply wp_bind, wp_get.
  destruct (_ || _) eqn:E.
  - apply wp_ret. split; [by apply follows_refl|]. split; [done|]. by right.
  - apply wp_bind, wp_advance; [done|]. intros st1 F1 C1.
    assert (i_ st < i_ st1)%nat as C.
    { destruct C1 as [C1|[E1 He]]; [done|]. apply orb_false_iff in E as [E _]. unfold is_at, cur_tok in *. rewrite E1 in He. congruence. }
    pose proof (follows_inside _ _ F1) as I1. cbn in I1. eapply wp_mono; [apply IH; [done|unfold ExprTotal.inside in *; lia]|].
    intros [] st2 (F2 & S2 & _). split; [by eapply follows_trans|]. split; [done|]. left.
    pose proof (follows_le _ _ F2). cbn in *. lia.
Qed.
Lemma strict_resync : strict resync.
Proof.
  intros st Hi He. unfold ExprParser.resync. apply wp_bind, wp_get, wp_bind.
  eapply wp_mono; [apply skip_to_semi_spec; [apply Hi|unfold fuel_left; lia]|]. intros [] st1 (F1 & S1 & C1).
  apply wp_bind, wp_eat; [exact (follows_inside _ _ F1)|done| |].
  - intros st2 F2 C2. apply wp_ret. split; [by eapply follows_trans|]. pose proof (follows_le _ _ F1). cbn in *. lia.
  - intros Hs. apply wp_ret. split; [done|]. rewrite Hs, orb_false_r in S1. destruct C1 as [C1|[E1 Hn]]; [done|].
    exfalso. cbn in He. unfold is_at, cur_tok in *. rewrite E1 in *. congruence.
Qed.
Lemma total_resync : total resync.
Proof.
  apply strict_total; [apply strict_resync|]. intros st Hi He. unfold ExprParser.resync. apply wp_bind, wp_get, wp_bind.
  eapply wp_mono; [apply skip_to_semi_spec; [apply Hi|unfold fuel_left; lia]|]. intros [] st1 (F1 & _).
  apply wp_bind, wp_eat; [exact (follows_inside _ _ F1)|done| |]; intros; apply wp_ret; [by eapply follows_trans|done].
Qed.
Lemma from_goto s0 : within lim s0 -> from lim s0 (goto_ (i_ s0)).
Proof.
  intros [Hi _] st _ [(F1 & F2 & F3 & F4) _]. unfold wp, goto_. split; [|done].
  unfold ExprTotal.follows, ExprTotal.inside in *. cbn. split; [lia|]. split; [done|]. by split.
Qed.
Lemma total_saved {A} (f : nat -> M A) : (forall s0, within lim s0 -> from lim s0 (f (i_ s0))) -> total (bind (get i_) f).
Proof. intros Hf st Hi. apply wp_bind, wp_get. apply (Hf st Hi); [done|by eapply within_follows]. Qed.
End primitives.

(** ** Automation *)
Create HintDb total discriminated.
#[export] Hint Extern 0 (Keeps _) => typeclasses eauto : total.
#[export] Hint Resolve total_ret total_get total_advance total_report total_error_here total_warn total_error_fix total_eatWord
  total_skip_group total_expression total_expressionOrPlaceholder total_primary : total.
#[export] Hint Extern 1 (total _ (ExprParser.eat _ _)) => apply total_eat; discriminate : total.
#[export] Hint Extern 1 (total _ (ExprParser.expect _ _ _)) => apply total_expect; discriminate : total.
#[export] Hint Extern 1 (total _ (bounded _ _ _)) => apply total_bounded; intros; apply bounded_grows : total.
#[export] Hint Resolve total_when total_here_word stays_here_word : total.
#[export] Hint Resolve stays_get stays_ret stays_report stays_warn stays_error_here stays_error_fix : total.
#[export] Hint Extern 1 (stays _ (bounded _ _ _)) => apply stays_bounded; intros; apply bounded_grows : total.
#[export] Hint Resolve total_resync strict_resync strict_advance steps_stop steps_skip_round : total.
#[export] Hint Resolve not_eof_word not_eof_not_l not_eof_not_r not_eof_not not_eof_both_l not_eof_both_r not_eof_either : total.
#[export] Hint Extern 1 (not_eof (here _)) => apply not_eof_here; discriminate : total.

(** [total], [strict], [stays] and [steps] of a program read off its text. *)
Ltac total_step :=
  cbv beta zeta iota;
  lazymatch goal with
  | |- total _ (if ?b then _ else _) => destruct b
  | |- total _ (match ?x with _ => _ end) => destruct x
  | |- total _ (bind (get i_) _) => apply total_saved; intros ? ?
  | |- total _ (bind _ _) => first [solve [auto with total nocore] | apply total_bind; [|intros ?]]
  | |- total _ (when _ _) => apply total_when
  | |- total _ (loop _ _) => first [solve [auto with total nocore] | apply total_loop; intros ?]
  | |- total _ _ => solve [auto with total nocore]
  | |- strict _ (if ?b then _ else _) => destruct b
  | |- strict _ (match ?x with _ => _ end) => destruct x
  | |- strict _ (bind _ _) =>
      first [solve [auto with total nocore]
            | apply strict_bind; [solve [auto with total nocore]|intros ?]
            | apply strict_stays; [solve [repeat total_step]|intros ?]
            | apply strict_bind; [|intros ?]]
  | |- strict _ _ => solve [auto with total nocore]
  | |- steps _ (if ?b then _ else _) => destruct b
  | |- steps _ (match ?x with _ => _ end) => destruct x
  | |- steps _ (bind (get _) (fun x => if x then _ else _)) =>
      first [solve [auto with total nocore]
            | apply steps_strict; [solve [auto with total nocore]|solve [repeat total_step]|]
            | apply steps_strict_not; [solve [auto with total nocore]| |solve [repeat total_step]]
            | apply steps_bind; [solve [auto with total nocore]|intros ?]]
  | |- steps _ (bind here_word _) => apply steps_here_word; [intros ?|]
  | |- steps_in _ (if ?b then _ else _) => destruct b
  | |- steps_in _ (match ?x with _ => _ end) => destruct x
  | |- steps_in _ _ => first [apply steps_in_strict; solve [repeat total_step] | apply steps_in_steps]
  | |- steps _ (bind (ExprParser.eat _ _) _) => apply steps_eat; [discriminate| |]
  | |- steps _ (bind _ _) => first [solve [auto with total nocore] | apply steps_bind; [|intros ?]]
  | |- steps _ _ => solve [auto with total nocore]
  | |- from _ _ (if ?b then _ else _) => destruct b
  | |- from _ _ (match ?x with _ => _ end) => destruct x
  | |- from _ _ (goto_ _) => by apply from_goto
  | |- from _ _ (bind _ _) =>
      first [apply from_total; solve [auto with total nocore] | apply from_bind; [assumption| |intros ?]]
  | |- from _ _ _ => apply from_total; solve [auto with total nocore]
  | |- stays _ (if ?b then _ else _) => destruct b
  | |- stays _ (match ?x with _ => _ end) => destruct x
  | |- stays _ (bind _ _) => apply stays_bind; [|intros ?]
  | |- stays _ _ => solve [auto with total nocore]
  end.
Ltac totality := repeat total_step.
