(* ===== verification/DeclParser.v ===== *)
(** * The declaration parser ([src/parser.cpp])

    DECLARE with its items, factored lists and attributes (rules (9)-(43)), the dimension
    attribute (rules (12),(13)) with its backtracking, the descriptors of ENTRY parameters
    (rules (36),(38)) and the WHEN types of GENERIC (rule (41)).  An attribute that the code
    writes into [item] or [bag] is a record update here; the word that selects it is the
    token at the position. *)
From S2P Require Import Prelude Monad Types Diag Lexer Ast Constants Stmts ExprParser ParserBase.

(** ** Words *)
Definition spells (w : text) (s : string) : bool := text_eqb w (txt s).
Definition one_of (w : text) (l : list string) : bool := existsb (spells w) l.
Definition isScalarTypeWord (w : text) : bool :=
  one_of w ["FIXED"; "FLOAT"; "BINARY"; "BIN"; "DECIMAL"; "DEC"; "CHARACTER"; "CHAR"; "BIT"; "VARYING"; "VARYINGZ"; "VAR";
            "VARZ"; "ALIGNED"; "UNALIGNED"; "POINTER"; "AREA"; "OFFSET"]%string.
(** The words that make a bare extent before them a dimension ([isAttrWord]). *)
Definition isAttrWord (w : text) : bool :=
  one_of w ["FIXED"; "FLOAT"; "BINARY"; "BIN"; "DECIMAL"; "DEC"; "CHARACTER"; "CHAR"; "BIT"; "VARYING"; "VARYINGZ"; "VAR";
            "VARZ"; "STATIC"; "AUTOMATIC"; "AUTO"; "ALIGNED"; "UNALIGNED"; "INTERNAL"; "INITIAL"; "INIT"; "VALUE"; "TYPE";
            "EXTERNAL"; "EXT"; "OPTIONAL"; "POINTER"; "PTR"; "BASED"; "CONTROLLED"; "CTL"; "AREA"; "OFFSET"; "VARIABLE";
            "TASK"; "EVENT"; "CELL"; "UNION"; "SECONDARY"; "PICTURE"; "PIC"; "LABEL"; "COMPLEX"; "CPLX"; "REAL"; "LIKE";
            "FILE"; "ENTRY"; "DEFINED"; "DEF"]%string.

(** ** The attributes seen so far *)
Module AttrBag.
Record t := mk {
  fixed : bool; floating : bool; binary : bool; decimal : bool; character : bool; bit : bool; varying : bool;
  varyingz : bool; pointer : bool; picture : bool; complex : bool; imaginary : bool; file : bool; controlled : bool;
  area : bool; areaSize : option Expr.t; areaStar : bool; staticAttr : bool; offset : bool; offsetRef : text;
  task : bool; event : bool; aligned : bool; unaligned : bool; prec : Z; scale : Z; slen : Z; starLen : bool;
  slenExpr : option Expr.t }.
#[global] Instance eta : Eta t := fun r =>
  mk (fixed r) (floating r) (binary r) (decimal r) (character r) (bit r) (varying r) (varyingz r) (pointer r) (picture r)
    (complex r) (imaginary r) (file r) (controlled r) (area r) (areaSize r) (areaStar r) (staticAttr r) (offset r)
    (offsetRef r) (task r) (event r) (aligned r) (unaligned r) (prec r) (scale r) (slen r) (starLen r) (slenExpr r).
Definition default : t :=
  mk false false false false false false false false false false false false false false false None false false false []
    false false false false (-1) 0 (-1) false None.
(** An arithmetic base or scale attribute, or a string attribute. *)
Definition arithmetic (b : t) : bool := fixed b || floating b || binary b || decimal b.
Definition string_ (b : t) : bool := character b || bit b.
End AttrBag.
#[global] Instance eta_attrs : Eta DeclItem.attrs := fun r => DeclItem.mkAttrs
  (DeclItem.like r) (DeclItem.typeRef r) (DeclItem.definedBase r) (DeclItem.definedSubs r) (DeclItem.hasPos r) (DeclItem.pos r)
  (DeclItem.basedBase r) (DeclItem.basedNoPtr r) (DeclItem.controlled r) (DeclItem.area r) (DeclItem.areaSize r)
  (DeclItem.areaStar r) (DeclItem.sawStatic r) (DeclItem.offset r) (DeclItem.offsetRef r) (DeclItem.aligned r)
  (DeclItem.unaligned r) (DeclItem.optional r) (DeclItem.entryVariable r) (DeclItem.fileAttr r) (DeclItem.returnsStructName r)
  (DeclItem.external r) (DeclItem.entryByValue r) (DeclItem.uses r) (DeclItem.sets r) (DeclItem.reducible r)
  (DeclItem.abnormalLabel r) (DeclItem.normal r) (DeclItem.picture r) (DeclItem.reserved r) (DeclItem.unionAttr r)
  (DeclItem.labelAttr r) (DeclItem.nonprint r) (DeclItem.imaginary r) (DeclItem.dataAttr r) (DeclItem.genericEntries r).
#[global] Instance eta_item : Eta DeclItem.t := fun r => DeclItem.mk
  (DeclItem.name r) (DeclItem.ty r) (DeclItem.loc r) (DeclItem.level r) (DeclItem.dynBounds r) (DeclItem.dynLbBounds r)
  (DeclItem.init r) (DeclItem.slenExpr r) (DeclItem.valueInit r) (DeclItem.initCall r) (DeclItem.initItems r) (DeclItem.att r)
  (DeclItem.dynMembers r) (DeclItem.sym r) (DeclItem.isEntry r) (DeclItem.isCondition r) (DeclItem.entryParams r)
  (DeclItem.entryIsFunction r) (DeclItem.entryRetTy r) (DeclItem.extName r).
#[global] Instance eta_ty : Eta Ty := fun t => mkTy (k t) (prec t) (scale t) (len t) (wideDec t) (varying t) (varyingz t)
  (starLen t) (controlled t) (unaligned t) (imaginary t) (isUnion t) (picture t) (dims t) (members t).
#[global] Instance eta_dim : Eta Dim := fun d => mkDim (lb d) (ub d) (dyn d) (lbDyn d) (adj d).

(** ** Copies *)
Fixpoint cloneExpr (e : Expr.t) : Expr.t :=
  let opt (o : option Expr.t) := match o with Some x => Some (cloneExpr x) | None => None end in
  Expr.mk (Expr.kind e) (Expr.loc e) (Expr.ty e) (Expr.ival e) (Expr.wideIval e) (Expr.fval e) (Expr.decScale e)
    (Expr.decPrec e) (Expr.sval e) (Expr.name e) (Expr.path e) (Expr.memberPath e) None (opt (Expr.locPtr e)) false false false
    (Expr.op e) (opt (Expr.a e)) (opt (Expr.b e)) (map opt (Expr.args e)).
(** The INITIAL item of [ExprParser] as the tree's. *)
Fixpoint initItem (i : ExprParser.InitItem) : InitItem.t :=
  match i with
  | IValue v => InitItem.mk InitItem.Value v 0 []
  | IIter f l => InitItem.mk InitItem.Iter None f (map initItem l)
  | IRepeat => InitItem.mk InitItem.Repeat None 0 []
  | IGroup l => InitItem.mk InitItem.Group None 0 (map initItem l)
  end.

Section declarations.
Context `{Input}.

(** ** Scalar attributes (rules (15)-(18)) *)
(** [parenNums]: the group [( n1 [, scale] )]; both stay as given where absent. *)
Definition parenNums (n1 n2 : Z) (allowNegScale : bool) (rule : text) : M (Z * Z) :=
  if* eat Tok.LParen then
    let* n1 := (if? here Tok.Number
                then let* v := bounded boundedNonNeg (txt "precision") rule in advance;; ret v else ret n1) in
    if* eat Tok.Comma then
      if? (here Tok.Minus &&& (fun _ => negb allowNegScale))
      then error_here (txt "negative scale not allowed here") rule;; ret (n1, n2)
      else
        let* neg := eat Tok.Minus in
        eat Tok.Plus;;
        let* n2 := (if? here Tok.Number
                    then let* v := bounded boundedInt (txt "scale factor") rule in advance;; ret (if neg then - v else v)
                    else ret n2) in
        expect Tok.RParen rule;; ret (n1, n2)
    else expect Tok.RParen rule;; ret (n1, n2)
  else ret (n1, n2).

(** An arithmetic attribute and its precision; FLOAT keeps no scale. *)
Definition with_precision (b : AttrBag.t) (scaled : bool) (word : string) (rule : text) : M AttrBag.t :=
  advance;;
  if? here Tok.LParen then
    let* (p, q) := parenNums (-1) 0 scaled rule in
    if p <=? 0 then error_here (txt word ++ txt " precision must be positive") (txt "(16)");; ret b
    else ret (if scaled then b <| AttrBag.prec := p |> <| AttrBag.scale := q |> else b <| AttrBag.prec := p |>)
  else ret b.
(** [( * )]: an adjustable length (rule (18)). *)
Definition star_length (b : AttrBag.t) (rule : text) : M AttrBag.t :=
  advance;; advance;; expect Tok.RParen rule;; ret (b <| AttrBag.starLen := true |>).
Definition char_length (b : AttrBag.t) (rule : text) : M AttrBag.t :=
  if? (here Tok.LParen &&& next 1 Tok.Star) then star_length b rule
  else if? here Tok.LParen then
    advance;;
    if? (here Tok.Number &&& (fun st => negb (Token.isFloat (cur st)))) then
      let* a := bounded boundedNonNeg (txt "precision") rule in
      advance;; expect Tok.RParen rule;;
      ret (if 0 <? a then b <| AttrBag.slen := a |> else b)
    else
      let* e := expressionOrPlaceholder in
      expect Tok.RParen rule;;
      ret (b <| AttrBag.slenExpr := Some e |> <| AttrBag.starLen := true |>)
  else ret b.
Definition bit_length (b : AttrBag.t) (rule : text) : M AttrBag.t :=
  if? (here Tok.LParen &&& next 1 Tok.Star) then star_length b rule
  else if? here Tok.LParen then
    let* (a, _) := parenNums (-1) 0 false rule in
    ret (if 0 <? a then b <| AttrBag.slen := a |> else b)
  else ret b.

(** [None] where the code returns false, nothing consumed. *)
Definition parseScalarAttr (b : AttrBag.t) (rule : text) : M (option AttrBag.t) :=
  let* t := get cur in
  let w := Token.text_ t in
  let done_ (m : M AttrBag.t) : M (option AttrBag.t) := let* b := m in ret (Some b) in
  if negb (bool_decide (Token.kind t = Tok.Word)) then ret None
  else if spells w "FIXED" then done_ (with_precision (b <| AttrBag.fixed := true |>) true "FIXED" rule)
  else if spells w "FLOAT" then done_ (with_precision (b <| AttrBag.floating := true |>) false "FLOAT" rule)
  else if one_of w ["BINARY"; "BIN"]%string then done_ (with_precision (b <| AttrBag.binary := true |>) true "BINARY" rule)
  else if one_of w ["DECIMAL"; "DEC"]%string then done_ (with_precision (b <| AttrBag.decimal := true |>) true "DECIMAL" rule)
  else if one_of w ["CHARACTER"; "CHAR"]%string then advance;; done_ (char_length (b <| AttrBag.character := true |>) rule)
  else if spells w "BIT" then advance;; done_ (bit_length (b <| AttrBag.bit := true |>) rule)
  else if one_of w ["VARYINGZ"; "VARZ"]%string
  then advance;; ret (Some (b <| AttrBag.varying := true |> <| AttrBag.varyingz := true |>))
  else if one_of w ["VARYING"; "VAR"]%string then advance;; ret (Some (b <| AttrBag.varying := true |>))
  else if spells w "REAL" then advance;; ret (Some b)
  else if one_of w ["CONTROLLED"; "CTL"]%string then advance;; ret (Some (b <| AttrBag.controlled := true |>))
  else ret None.

(** ** GENERIC WHEN types (rule (41)) *)
(** The words of the selector, in the order they are tested below. *)
Record when_bag := mkWhen {
  w_fixed : bool; w_floating : bool; w_binary : bool; w_decimal : bool; w_character : bool; w_bit : bool; w_pointer : bool;
  w_complex : bool; w_entry : bool; w_area : bool; w_offset : bool; w_label : bool; w_task : bool; w_event : bool }.
#[global] Instance eta_when : Eta when_bag := fun r => mkWhen
  (w_fixed r) (w_floating r) (w_binary r) (w_decimal r) (w_character r) (w_bit r) (w_pointer r) (w_complex r) (w_entry r)
  (w_area r) (w_offset r) (w_label r) (w_task r) (w_event r).
Definition when_word (r : when_bag) (w : text) : option when_bag :=
  if spells w "FIXED" then Some (r <| w_fixed := true |>)
  else if spells w "FLOAT" then Some (r <| w_floating := true |>)
  else if one_of w ["BINARY"; "BIN"]%string then Some (r <| w_binary := true |>)
  else if one_of w ["DECIMAL"; "DEC"]%string then Some (r <| w_decimal := true |>)
  else if one_of w ["CHARACTER"; "CHAR"]%string then Some (r <| w_character := true |>)
  else if spells w "BIT" then Some (r <| w_bit := true |>)
  else if one_of w ["POINTER"; "PTR"]%string then Some (r <| w_pointer := true |>)
  else if one_of w ["COMPLEX"; "CPLX"]%string then Some (r <| w_complex := true |>)
  else if spells w "ENTRY" then Some (r <| w_entry := true |>)
  else if spells w "AREA" then Some (r <| w_area := true |>)
  else if spells w "OFFSET" then Some (r <| w_offset := true |>)
  else if spells w "LABEL" then Some (r <| w_label := true |>)
  else if spells w "TASK" then Some (r <| w_task := true |>)
  else if spells w "EVENT" then Some (r <| w_event := true |>)
  else None.
Definition when_words : M when_bag :=
  loop (fun r =>
    let* w := here_word in
    match (match w with Some w => when_word r w | None => None end) with
    | Some r => advance;; when (here Tok.LParen) skip_group_here;; ret (inl r)
    | None => ret (inr r)
    end) (mkWhen false false false false false false false false false false false false false false).
Definition when_type (r : when_bag) : Ty :=
  if w_character r then chr 1 false
  else if w_bit r then bit 1
  else if w_floating r then flt 6
  else if w_fixed r || w_binary r || w_decimal r then (if w_binary r then fixedBin 15 0 else fixedDec 5 0)
  else if w_pointer r then ptr
  else if w_complex r then complexTy
  else if w_entry r then entryTy
  else if w_area r then areaTy
  else if w_offset r then offsetTy
  else if w_label r then labelTy
  else if w_task r then taskTy
  else eventTy.
Definition parseWhenType : M (option Ty) :=
  let* r := when_words in
  if negb (w_fixed r) && negb (w_floating r) && negb (w_character r) && negb (w_bit r) && negb (w_pointer r) &&
     negb (w_complex r) && negb (w_entry r) && negb (w_area r) && negb (w_offset r) && negb (w_label r) && negb (w_task r) &&
     negb (w_event r)
  then error_here (txt "expected a data attribute in a GENERIC WHEN selector") (txt "(41)");; ret None
  else if (w_fixed r && w_floating r) || (w_binary r && w_decimal r) || (w_character r && w_bit r) ||
          (w_complex r && (w_character r || w_bit r || w_pointer r)) || (w_area r && w_offset r) || (w_task r && w_event r)
  then error_here (txt "conflicting attributes in a GENERIC WHEN selector") (txt "(15)");; ret None
  else ret (Some (when_type r)).
End declarations.

Section dimensions.
Context `{Input}.

(** ** The dimension attribute (rules (12),(13)) *)
Definition dim0 : Dim := mkDim 1 1 false false false.
(** An adjustable extent: the caller supplies the bound. *)
Definition star_dim : Dim := mkDim 1 1 true false true.
(** [foldBound]: a possibly negated integer literal. *)
Definition foldBound (e : Expr.t) : option Z :=
  match Expr.kind e, Expr.a e with
  | Expr.IntLit, _ => Some (Expr.ival e)
  | Expr.Unary, Some x =>
      if bool_decide (Expr.op e = Tok.Minus) && bool_decide (Expr.kind x = Expr.IntLit) then Some (i64 (- Expr.ival x)) else None
  | _, _ => None
  end.
(** The axes so far with the runtime bounds among them, and whether there was a colon. *)
Record axes_t := mkAxes { axes : list Dim; db : list (option Expr.t); dlb : list (option Expr.t); anyColon : bool }.
Definition out_of_range_bound (e : Expr.t) : M unit :=
  report (Expr.loc e) (txt "a dimension bound is out of range") (txt "(12)").
(** An upper bound [e] into axis [d]; [None] out of range. *)
Definition upper_bound (d : Dim) (a : axes_t) (e : Expr.t) : M (option axes_t) :=
  match foldBound e with
  | Some v =>
      if dimBoundFits v then ret (Some (mkAxes (axes a ++ [d <| ub := v |>]) (db a) (dlb a) (anyColon a)))
      else out_of_range_bound e;; ret None
  | None => ret (Some (mkAxes (axes a ++ [d <| dyn := true |>]) (db a ++ [Some e]) (dlb a) (anyColon a)))
  end.
Definition one_axis (a : axes_t) : M (option axes_t) :=
  if* eat Tok.Star then ret (Some (mkAxes (axes a ++ [star_dim]) (db a) (dlb a) (anyColon a)))
  else
    let* first := expression in
    match first with
    | None => ret None
    | Some first =>
        if* eat Tok.Colon then
          let a := mkAxes (axes a) (db a) (dlb a) true in
          let lower :=
            match foldBound first with
            | Some v => if dimBoundFits v then Some (dim0 <| lb := v |>, a) else None
            | None => Some (dim0 <| lbDyn := true |>, mkAxes (axes a) (db a) (dlb a ++ [Some first]) true)
            end in
          match lower with
          | None => out_of_range_bound first;; ret None
          | Some (d, a) =>
              let* u := expression in
              match u with Some u => upper_bound d a u | None => ret None end
          end
        else upper_bound dim0 a first
    end.
Definition dim_axes : M (option axes_t) :=
  loop (fun a =>
    let* r := one_axis a in
    match r with
    | None => ret (inr None)
    | Some a => if* eat Tok.Comma then ret (inl a) else ret (inr (Some a))
    end) (mkAxes [] [] [] false).
(** [None] when the group is no dimension: the tokens are put back. *)
Definition tryParseDimension : M (option axes_t) :=
  if? here Tok.LParen then
    let* save := get i_ in
    eat Tok.LParen;;
    let* r := dim_axes in
    match r with
    | None => goto_ save;; ret None
    | Some a =>
        expect Tok.RParen (txt "(12)");;
        if anyColon a then ret (Some a)
        else if? ((fun st => bool_decide (Token.kind (cur st) = Tok.Word) && isAttrWord (Token.text_ (cur st))) ||| here Tok.Comma)
             then ret (Some a)
             else goto_ save;; ret None
    end
  else ret None.

(** ** ENTRY descriptors (rules (36),(38)) *)
Definition isSingleStar : pst -> bool := here Tok.LParen &&& next 1 Tok.Star &&& next 2 Tok.RParen.
(** [constNum]: a plain, possibly negative, integer. *)
Definition constNum : M (option Z) :=
  let* neg := eat Tok.Minus in
  let* t := get cur in
  if negb (bool_decide (Token.kind t = Tok.Number)) || Token.isFloat t || Token.binaryRadix t || Token.imaginary t || Token.hasExp t
  then ret None
  else
    let* v := bounded boundedNonNeg (txt "dimension") (txt "(36)") in
    advance;; ret (Some (if neg then - v else v)).
(** One axis of the group: [inl] stands for a failure ([ok = false]). *)
Definition star_axis : M (option Dim) :=
  if* eat Tok.Star then ret (Some star_dim)
  else
    let* u := constNum in
    match u with
    | None => ret None
    | Some u =>
        if* eat Tok.Colon then
          let* v := constNum in
          match v with Some v => ret (Some (dim0 <| lb := u |> <| ub := v |>)) | None => ret None end
        else ret (Some (dim0 <| ub := u |>))
    end.
(** The axes read, and whether all of them were well formed. *)
Definition star_axes : M (list Dim * bool) :=
  loop (fun l =>
    let* d := star_axis in
    match d with
    | None => ret (inr (l, false))
    | Some d => if* eat Tok.Comma then ret (inl (l ++ [d])) else ret (inr (l ++ [d], true))
    end) [].
Definition star_message (foundStar : bool) : text :=
  if foundStar
  then txt "only a leading '*' with constant later bounds is supported in an ENTRY descriptor in this stage"
  else txt "only a '*' dimension is supported in an ENTRY descriptor in this stage".
Definition parseStarGroup : M (option (list Dim)) :=
  if? here Tok.LParen then
    let* save := get i_ in
    let* l := get cur in
    advance;;
    let* (ds, ok) := star_axes in
    let* closed := (if ok then eat Tok.RParen else ret false) in
    if closed && existsb adj ds && match ds with d :: r => adj d && negb (existsb adj r) | [] => false end then ret (Some ds)
    else
      goto_ save;; skip_group_here;;
      report (Token.loc l) (star_message (existsb adj ds)) (txt "(36)");; ret None
  else ret None.

(** A trailing dimension group: the lone star, or a group that is skipped. *)
Definition trailing_star (star : option (list Dim)) : M (option (list Dim)) :=
  if? isSingleStar then
    match star with
    | Some _ => error_here (txt "duplicate '*' dimension in an ENTRY descriptor") (txt "(36)");; ret star
    | None => advance;; advance;; advance;; ret (Some [star_dim])
    end
  else if? here Tok.LParen then
    let* l := get cur in
    skip_group_here;; report (Token.loc l) (star_message false) (txt "(36)");; ret star
  else ret star.
Definition with_dims (star : option (list Dim)) (t : Ty) : Ty := t <| dims := dims t ++ default [] star |>.

Definition or_else (p d : Z) : Z := if 0 <? p then p else d.
(** The scalar attributes of a descriptor give its type. *)
Definition scalar_attrs (rule : text) : M AttrBag.t :=
  loop (fun b => let* r := parseScalarAttr b rule in match r with Some b => ret (inl b) | None => ret (inr b) end) AttrBag.default.
Definition char_type (b : AttrBag.t) : Ty :=
  let t := (chr (or_else (AttrBag.slen b) 1) (AttrBag.varying b)) <| varyingz := AttrBag.varyingz b |> in
  if AttrBag.starLen b then t <| starLen := true |> else t.
Definition descriptor_type (b : AttrBag.t) (star : option (list Dim)) : M Ty :=
  let varying_array (t : Ty) : M Ty :=
    (if bool_decide (is_Some star) && AttrBag.varying b
     then error_here (txt "adjustable-length VARYING arrays are not implemented in this stage") (txt "(12)") else ret tt);;
    ret t in
  if AttrBag.character b then
    match star with
    | Some _ =>
        error_here (txt "arrays of CHARACTER are not implemented in this stage") (txt "(12)");;
        ret ((char_type b) <| controlled := AttrBag.controlled b |>)
    | None => varying_array ((char_type b) <| controlled := AttrBag.controlled b |>)
    end
  else if AttrBag.bit b then
    (if AttrBag.varyingz b then error_here (txt "VARYINGZ requires CHARACTER") (txt "(15)") else ret tt);;
    let t := bit (or_else (AttrBag.slen b) 1) in
    if bool_decide (is_Some star) && (1 <? AttrBag.slen b)
    then error_here (txt "arrays of BIT(n>1) are not implemented in this stage") (txt "(12)");; ret t
    else
      (if AttrBag.starLen b then error_here (txt "a '*' string length is not implemented in this stage") (txt "(18)") else ret tt);;
      varying_array ((with_dims star t) <| controlled := AttrBag.controlled b |>)
  else
    let t :=
      if AttrBag.floating b then flt (or_else (AttrBag.prec b) (if AttrBag.binary b then 21 else 6))
      else if AttrBag.binary b then fixedBin (or_else (AttrBag.prec b) 15) (AttrBag.scale b)
      else fixedDec (or_else (AttrBag.prec b) 5) (AttrBag.scale b) in
    varying_array ((with_dims star t) <| controlled := AttrBag.controlled b |>).

(** [parseEntryParams], the descriptor parser given; the types go after [params]. *)
Definition entryParams (descriptor : M Ty) (params : list Ty) : M (list Ty) :=
  if* expect Tok.LParen (txt "(38)") then
    let* params :=
      loop (fun l =>
        if? (here Tok.RParen ||| here Tok.Eof) then ret (inr l)
        else
          let* t := descriptor in
          if* eat Tok.Comma then ret (inl (l ++ [t])) else ret (inr (l ++ [t]))) params in
    expect Tok.RParen (txt "(38)");; ret params
  else ret params.

Fixpoint descriptor (n : nat) : M Ty :=
  match n with
  | O => out_of_fuel
  | S n =>
      let* star := (if? here Tok.LParen then parseStarGroup else ret None) in
      if? (atWord (txt "POINTER") ||| atWord (txt "PTR")) then
        advance;;
        let* star := trailing_star star in
        ret (with_dims star ptr)
      else if? atWord (txt "AREA") then
        advance;; when (here Tok.LParen) skip_group_here;; ret areaTy
      else if? atWord (txt "OFFSET") then
        advance;;
        (if? (here Tok.LParen &&& next 1 Tok.Word) then advance;; advance;; when (here Tok.RParen) advance
         else when (here Tok.LParen) skip_group_here);;
        ret offsetTy
      else if? (atWord (txt "ENTRY") ||| atWord (txt "ENT")) then
        advance;;
        (if? here Tok.LParen then entryParams (descriptor n) [] else ret []);;
        when (atWord (txt "RETURNS"))
          (advance;;
           if* expect Tok.LParen (txt "(38)") then descriptor n;; expect Tok.RParen (txt "(38)");; ret tt else ret tt);;
        when (atWord (txt "VARIABLE")) advance;;
        ret entryTy
      else
        let* b := scalar_attrs (txt "(38)") in
        let* star := trailing_star star in
        descriptor_type b star
  end.
(** One level of nesting takes a word and a parenthesis: the tokens left are fuel enough. *)
Definition parseDescriptorType : M Ty := let* n := get (fuel_left toks) in descriptor n.
Definition parseEntryParams (params : list Ty) : M (list Ty) := entryParams parseDescriptorType params.
End dimensions.

Section attributes.
Context `{Input}.

(** ** The attributes of a declaration *)
(** What the attribute loop builds: [bag], [item], and the [init] that is moved in last. *)
Record tail := mkTail { bag : AttrBag.t; item : DeclItem.t; init_ : option Expr.t }.
#[global] Instance eta_tail : Eta tail := fun s => mkTail (bag s) (item s) (init_ s).
Definition on_att (f : DeclItem.attrs -> DeclItem.attrs) (i : DeclItem.t) : DeclItem.t := i <| DeclItem.att := f (DeclItem.att i) |>.
Definition on_item (f : DeclItem.t -> DeclItem.t) (s : tail) : tail := s <| item := f (item s) |>.
Definition on_bag (f : AttrBag.t -> AttrBag.t) (s : tail) : tail := s <| bag := f (bag s) |>.
Definition set_att (f : DeclItem.attrs -> DeclItem.attrs) : tail -> tail := on_item (on_att f).

(** The arguments of CALL: expressions, or a star for one that is left out. *)
Definition call_arg : M (option Expr.t) :=
  let* t := get cur in
  if bool_decide (Token.kind t = Tok.Star) then advance;; ret (Some (node Expr.Star (Token.loc t)))
  else let* e := expressionOrPlaceholder in ret (Some e).
Definition call_args : M (list (option Expr.t)) :=
  if? here Tok.RParen then ret []
  else loop (fun l => let* a := call_arg in if* eat Tok.Comma then ret (inl (l ++ [a])) else ret (inr (l ++ [a]))) [].

(** INITIAL (rules (26)-(31)); a list shares the fuel of its expressions. *)
Definition initialList : M (list InitItem.t) :=
  let* n := get (fun st => (expr_fuel st + 3)%nat) in
  let* l := ExprParser.parseInitialList toks strtod double_of n [] in ret (map initItem l).
Definition initial_call : M Expr.t :=
  let* t := get cur in
  if negb (bool_decide (Token.kind t = Tok.Word)) then
    report (Token.loc t) (txt "expected a function name after INITIAL CALL") (txt "(27)");; ret Expr.default
  else
    let call args := ref_node Expr.Call (Token.loc t) (Token.text_ t) [] args None in
    advance;;
    if? here Tok.LParen then
      advance;;
      let* l := call_args in
      expect Tok.RParen (txt "(27)");; ret (call l)
    else report (Token.loc t) (txt "expected '(' after the INITIAL CALL function name") (txt "(27)");; ret (call []).
Definition value_twice : text := txt "VALUE cannot be combined with INITIAL or a second VALUE (ADR-108)".
Definition initial_attr (s : tail) : M tail :=
  (if bool_decide (is_Some (DeclItem.valueInit (item s))) then error_here value_twice [] else ret tt);;
  advance;;
  if* expect Tok.LParen (txt "(26)") then
    if? atWord (txt "CALL") then
      advance;;
      let* c := initial_call in
      expect Tok.RParen (txt "(26)");;
      ret (on_item (fun i => i <| DeclItem.initCall := Some c |>) s)
    else
      let* l := initialList in
      let s := on_item (fun i => i <| DeclItem.initItems := l |>) s in
      ret match l with
          | [InitItem.mk InitItem.Value (Some v) _ _] => s <| init_ := Some (cloneExpr v) |>
          | _ => s
          end
  else ret s.

(** TYPE and VALUE (ADR-114, ADR-108). *)
Definition type_attr (s : tail) : M tail :=
  advance;;
  let* w := here_word in
  match w with
  | Some w => advance;; ret (set_att (fun a => a <| DeclItem.typeRef := w |>) s)
  | None => error_here (txt "expected an alias name after TYPE (ADR-114)") [];; ret s
  end.
Definition value_attr (s : tail) : M tail :=
  advance;;
  if* eat Tok.LParen then
    let* v := expression in
    if* eat Tok.RParen then
      let i := item s in
      if bool_decide (is_Some (DeclItem.init i)) || bool_decide (is_Some (DeclItem.initCall i)) ||
         negb (bool_decide (DeclItem.initItems i = [])) || bool_decide (is_Some (DeclItem.valueInit i))
      then report (DeclItem.loc i) value_twice [];; ret s
      else ret (on_item (fun i => i <| DeclItem.valueInit := v |>) s)
    else error_here (txt "expected ')' after the VALUE constant (ADR-108)") [];; ret s
  else error_here (txt "expected '(' after VALUE (ADR-108)") [];; ret s.

(** STATIC, AUTOMATIC, INTERNAL (rule (15)). *)
Definition storage_attr (w : text) (s : tail) : M tail :=
  let* t := get cur in
  let* s := (if spells w "STATIC" then ret (on_bag (fun b => b <| AttrBag.staticAttr := true |>) s)
             else warn_at (Token.loc t) (txt "attribute " ++ w ++ txt " is accepted but has no effect in this stage") (txt "(15)");;
                  ret s) in
  advance;; ret s.
(** EXTERNAL with the symbol's own spelling (rule (42)). *)
Definition external_attr (s : tail) : M tail :=
  let s := set_att (fun a => a <| DeclItem.external := true |>) s in
  advance;;
  if? (here Tok.LParen &&& next 1 Tok.CharLit) then
    advance;;
    let* t := get cur in
    advance;; when (here Tok.RParen) advance;;
    ret (on_item (fun i => i <| DeclItem.extName := Token.sval t |>) s)
  else ret s.

(** ENTRY OPTIONS (rule (34)): whether a by-value option is among them. *)
Definition entry_option : M bool :=
  if? atWord (txt "BYVALUE") then advance;; ret true
  else if? atWord (txt "LINKAGE") then
    advance;;
    if* expect Tok.LParen (txt "(34)") then
      let* v := (if? atWord (txt "SYSTEM") then advance;; ret true
                 else error_here (txt "LINKAGE other than SYSTEM is not implemented in this stage") (txt "(34)");; ret false) in
      expect Tok.RParen (txt "(34)");; ret v
    else ret false
  else
    let* t := get cur in
    warn_at (Token.loc t) (txt "ignoring unsupported entry option '" ++ word_or_name t ++ txt "'") (txt "(34)");;
    advance;; ret false.
Definition options_attr (s : tail) : M tail :=
  advance;;
  if* expect Tok.LParen (txt "(34)") then
    let* v := loop (fun v => let* o := entry_option in
                             if* eat Tok.Comma then ret (inl (v || o)) else ret (inr (v || o))) false in
    expect Tok.RParen (txt "(34)");;
    ret (if v then set_att (fun a => a <| DeclItem.entryByValue := true |>) s else s)
  else ret s.
Definition entry_attr (s : tail) : M tail :=
  let s := on_item (fun i => i <| DeclItem.isEntry := true |>) s in
  advance;;
  if? here Tok.LParen then
    let* l := parseEntryParams (DeclItem.entryParams (item s)) in ret (on_item (fun i => i <| DeclItem.entryParams := l |>) s)
  else ret s.
(** A lone word that is no scalar type names a structure (rule (127)). *)
Definition names_structure : pst -> bool :=
  (fun st => bool_decide (Token.kind (cur st) = Tok.Word) && negb (isScalarTypeWord (Token.text_ (cur st)))) &&& next 1 Tok.RParen.
Definition returns_attr (s : tail) : M tail :=
  advance;;
  if* expect Tok.LParen (txt "(34)") then
    let s := on_item (fun i => i <| DeclItem.entryIsFunction := true |>) s in
    let* s :=
      (if? names_structure then
         let* t := get cur in advance;; ret (set_att (fun a => a <| DeclItem.returnsStructName := Token.text_ t |>) s)
       else
         let* t := parseDescriptorType in
         let* t := (if starLen t && negb (varying t)
                    then report (DeclItem.loc (item s)) (txt "RETURNS of CHAR(*) is not implemented in this stage") (txt "(34)");;
                         ret (chr 1 false)
                    else ret t) in
         ret (on_item (fun i => i <| DeclItem.entryRetTy := t |>) s)) in
    expect Tok.RParen (txt "(34)");; ret s
  else ret s.

(** USES and SETS (rules (34),(38)): the text of an item, [None] where the list ends. *)
Definition uses_item : M (option text) :=
  let* t := get cur in
  match Token.kind t with
  | Tok.Star => advance;; ret (Some (txt "*"))
  | Tok.Number =>
      (if Token.isFloat t || Token.sterling t || Token.imaginary t
       then report (Token.loc t) (txt "a USES/SETS level must be an integer constant") (txt "(38)") else ret tt);;
      advance;; ret (Some (Token.text_ t))
  | Tok.Word =>
      let* r := primary in
      match r with
      | None => ret None
      | Some r =>
          if negb (bool_decide (Expr.kind r = Expr.VarRef)) || bool_decide (is_Some (Expr.locPtr r))
          then report (Expr.loc r) (txt "a USES/SETS item must be an unsubscripted reference") (txt "(38)");; ret (Some [])
          else ret (Some (Expr.name r ++ flat_map (fun q => txt "." ++ q) (Expr.path r)))
      end
  | _ => report (Token.loc t) (txt "expected a name, a level number, or '*' in USES/SETS") (txt "(38)");; ret None
  end.
Definition uses_attr (is_uses : bool) (s : tail) : M tail :=
  advance;;
  if* expect Tok.LParen (txt "(34)") then
    let* l :=
      loop (fun l =>
        let* r := uses_item in
        match r with
        | None => ret (inr l)
        | Some w =>
            let l := if bool_decide (w = []) then l else l ++ [w] in
            if* eat Tok.Comma then ret (inl l) else ret (inr l)
        end) (if is_uses then DeclItem.uses (DeclItem.att (item s)) else DeclItem.sets (DeclItem.att (item s))) in
    expect Tok.RParen (txt "(34)");;
    ret (set_att (fun a => if is_uses then a <| DeclItem.uses := l |> else a <| DeclItem.sets := l |>) s)
  else ret s.
Definition abnormal_attr (s : tail) : M tail :=
  advance;;
  if* expect Tok.LParen (txt "(38)") then
    let* w := here_word in
    let* s := match w with
              | Some w => advance;; ret (set_att (fun a => a <| DeclItem.abnormalLabel := w |>) s)
              | None => error_here (txt "ABNORMAL requires a label name") (txt "(38)");; ret s
              end in
    expect Tok.RParen (txt "(38)");; ret s
  else ret s.

(** LIKE (rule (43)): a dotted path. *)
Definition like_path (p : text) : M text :=
  loop (fun p =>
    if* eat Tok.Dot then
      let* w := here_word in
      match w with
      | Some w => advance;; ret (inl (p ++ txt "." ++ w))
      | None => error_here (txt "expected a member name after '.' in LIKE reference") (txt "(43)");; ret (inr p)
      end
    else ret (inr p)) p.
Definition like_attr (s : tail) : M tail :=
  advance;;
  let* w := here_word in
  match w with
  | Some w => advance;; let* p := like_path w in ret (set_att (fun a => a <| DeclItem.like := p |>) s)
  | None => error_here (txt "expected a reference after LIKE") (txt "(43)");; ret s
  end.

(** DEFINED and POSITION (rules (24),(126),(134)). *)
Definition isub_form : pst -> bool := here Tok.Isub ||| (here Tok.Number &&& next 1 Tok.Star &&& next 2 Tok.Isub).
Definition isub_offset : M Z :=
  if? (here Tok.Plus ||| here Tok.Minus) then
    let* t := get cur in
    advance;;
    let* v := (if? here Tok.Number then let* n := get cur in advance;; ret (strtoll10 n)
               else error_here (txt "expected an integer in the iSUB offset") (txt "(134)");; ret 0) in
    ret (if bool_decide (Token.kind t = Tok.Minus) then i64 (- v) else v)
  else ret 0.
Definition defined_sub : M DefinedSub :=
  if? isub_form then
    let* mult := (if? here Tok.Number then let* t := get cur in advance;; eat Tok.Star;; ret (strtoll10 t) else ret 1) in
    let* t := get cur in
    advance;;
    let* add := isub_offset in
    ret (mkDefinedSub true (i32 (i32 (strtoll10 t) - 1)) None mult add)
  else
    let* e := expression in
    match e with
    | Some _ => ret (mkDefinedSub false 0 e 1 0)
    | None => error_here (txt "expected a DEFINED base subscript") (txt "(24)");; advance;; ret (mkDefinedSub false 0 None 1 0)
    end.
Definition position_attr (s : tail) : M tail :=
  if? (atWord (txt "POSITION") ||| atWord (txt "POS")) then
    advance;;
    let* p :=
      (if* eat Tok.LParen then
         let* p := (if? here Tok.Number then let* t := get cur in advance;; ret (strtoll10 t)
                    else error_here (txt "POSITION requires an integer constant") (txt "(24)");; advance;; ret 1) in
         expect Tok.RParen (txt "(24)");; ret p
       else error_here (txt "expected '(' after POSITION") (txt "(24)");; ret 1) in
    ret (set_att (fun a => a <| DeclItem.hasPos := true |> <| DeclItem.pos := p |>) s)
  else ret s.
Definition defined_attr (s : tail) : M tail :=
  advance;;
  let* w := here_word in
  let* s := match w with
            | Some w => advance;; ret (set_att (fun a => a <| DeclItem.definedBase := w |>) s)
            | None => error_here (txt "expected a reference after DEFINED") (txt "(24)");; ret s
            end in
  let* s :=
    (if? here Tok.LParen then
       advance;;
       let* l :=
         (if? here Tok.RParen then ret (DeclItem.definedSubs (DeclItem.att (item s)))
          else loop (fun l => let* d := defined_sub in
                              if* eat Tok.Comma then ret (inl (l ++ [d])) else ret (inr (l ++ [d])))
                 (DeclItem.definedSubs (DeclItem.att (item s)))) in
       expect Tok.RParen (txt "(126)");; ret (set_att (fun a => a <| DeclItem.definedSubs := l |>) s)
     else ret s) in
  position_attr s.

(** BASED, AREA, OFFSET, PICTURE (rules (25),(20),(22),(19)). *)
Definition based_attr (s : tail) : M tail :=
  advance;;
  if? here Tok.LParen then
    advance;;
    let* w := here_word in
    let* s := match w with
              | Some w => advance;; ret (set_att (fun a => a <| DeclItem.basedBase := w |>) s)
              | None => error_here (txt "expected a POINTER reference after BASED(") (txt "(25)");; ret s
              end in
    expect Tok.RParen (txt "(25)");; ret s
  else ret (set_att (fun a => a <| DeclItem.basedNoPtr := true |>) s).
Definition area_attr (s : tail) : M tail :=
  let s := on_bag (fun b => b <| AttrBag.area := true |>) s in
  advance;;
  if* eat Tok.LParen then
    let* s := (if? here Tok.Star then advance;; ret (on_bag (fun b => b <| AttrBag.areaStar := true |>) s)
               else let* e := expressionOrPlaceholder in ret (on_bag (fun b => b <| AttrBag.areaSize := Some e |>) s)) in
    expect Tok.RParen (txt "(20)");; ret s
  else ret s.
Definition offset_attr (s : tail) : M tail :=
  let s := on_bag (fun b => b <| AttrBag.offset := true |>) s in
  advance;;
  if* eat Tok.LParen then
    let* w := here_word in
    let* s := match w with
              | Some w => advance;; ret (on_bag (fun b => b <| AttrBag.offsetRef := w |>) s)
              | None => error_here (txt "expected an AREA name after OFFSET(") (txt "(22)");; ret s
              end in
    expect Tok.RParen (txt "(22)");; ret s
  else ret s.
Definition picture_attr (s : tail) : M tail :=
  advance;;
  if* eat Tok.LParen then
    let* s :=
      (if? here Tok.CharLit then
         let* t := get cur in
         advance;;
         ret (on_bag (fun b => b <| AttrBag.picture := true |>) (set_att (fun a => a <| DeclItem.picture := Token.sval t |>) s))
       else error_here (txt "PICTURE requires a character-string literal in parentheses") (txt "(19)");; ret s) in
    expect Tok.RParen (txt "(19)");; ret s
  else error_here (txt "PICTURE requires ( 'picture-string' )") (txt "(19)");; ret s.

(** GENERIC (rule (41)): the dispatch list; [None] where it breaks off. *)
Definition generic_entry : M (option (text * Ty)) :=
  let* w := here_word in
  match w with
  | None => error_here (txt "expected an entry name after GENERIC '('") (txt "(41)");; ret None
  | Some w =>
      advance;;
      if* eatWord (txt "WHEN") then
        if* expect Tok.LParen (txt "(41)") then
          let* t := parseWhenType in
          (if bool_decide (is_Some t) then ret tt else skip_group_here;; when (here Tok.RParen) advance);;
          expect Tok.RParen (txt "(41)");; ret (Some (w, default Ty_default t))
        else ret None
      else error_here (txt "expected WHEN after entry name in GENERIC") (txt "(41)");; ret None
  end.
Definition generic_attr (s : tail) : M tail :=
  advance;;
  if* expect Tok.LParen (txt "(41)") then
    let* l :=
      loop (fun l =>
        let* e := generic_entry in
        match e with
        | None => ret (inr l)
        | Some e => if* eat Tok.Comma then ret (inl (l ++ [e])) else ret (inr (l ++ [e]))
        end) (DeclItem.genericEntries (DeclItem.att (item s))) in
    expect Tok.RParen (txt "(41)");; ret (set_att (fun a => a <| DeclItem.genericEntries := l |>) s)
  else ret s.
Definition foreign_attr (w : text) (s : tail) : M tail :=
  error_here (if spells w "SECONDARY" then txt "attribute SECONDARY is not supported"
              else txt "attribute BUILTIN is not a Subset-G attribute") (txt "(15)");;
  advance;;
  when (here Tok.LParen) (loop (skip_round (fun d => negb (d =? 0))) 0);; ret s.

(** A word that only sets a flag. *)
Definition flag (f : tail -> tail) (s : tail) : M tail := advance;; ret (f s).
Definition environment_attr (s : tail) : M tail :=
  advance;;
  when (here Tok.LParen) skip_group_here;;
  ret (on_bag (fun b => b <| AttrBag.file := true |>) s).
(** The attribute that a word starts, in the order of the tests; [None] for no attribute. *)
Definition attribute (w : text) : option (tail -> M tail) :=
  if one_of w ["INITIAL"; "INIT"]%string then Some initial_attr
  else if spells w "TYPE" then Some type_attr
  else if spells w "VALUE" then Some value_attr
  else if spells w "OPTIONAL" then Some (flag (set_att (fun a => a <| DeclItem.optional := true |>)))
  else if spells w "VARIABLE" then Some (flag (set_att (fun a => a <| DeclItem.entryVariable := true |>)))
  else if spells w "ALIGNED" then Some (flag (on_bag (fun b => b <| AttrBag.aligned := true |>)))
  else if spells w "UNALIGNED" then Some (flag (on_bag (fun b => b <| AttrBag.unaligned := true |>)))
  else if one_of w ["STATIC"; "AUTOMATIC"; "AUTO"; "INTERNAL"; "INT"]%string then Some (storage_attr w)
  else if one_of w ["EXTERNAL"; "EXT"]%string then Some external_attr
  else if spells w "OPTIONS" then Some options_attr
  else if spells w "ENTRY" then Some entry_attr
  else if spells w "RETURNS" then Some returns_attr
  else if spells w "USES" then Some (uses_attr true)
  else if spells w "SETS" then Some (uses_attr false)
  else if spells w "ABNORMAL" then Some abnormal_attr
  else if spells w "NORMAL" then Some (flag (set_att (fun a => a <| DeclItem.normal := true |>)))
  else if spells w "REDUCIBLE" then Some (flag (set_att (fun a => a <| DeclItem.reducible := 1 |>)))
  else if spells w "IRREDUCIBLE" then Some (flag (set_att (fun a => a <| DeclItem.reducible := -1 |>)))
  else if spells w "LIKE" then Some like_attr
  else if one_of w ["DEFINED"; "DEF"]%string then Some defined_attr
  else if one_of w ["POINTER"; "PTR"]%string then Some (flag (on_bag (fun b => b <| AttrBag.pointer := true |>)))
  else if spells w "FILE" then Some (flag (on_bag (fun b => b <| AttrBag.file := true |>)))
  else if spells w "ENVIRONMENT" then Some environment_attr
  else if spells w "TASK" then Some (flag (on_bag (fun b => b <| AttrBag.task := true |>)))
  else if spells w "EVENT" then Some (flag (on_bag (fun b => b <| AttrBag.event := true |>)))
  else if spells w "BASED" then Some based_attr
  else if one_of w ["COMPLEX"; "CPLX"]%string then Some (flag (on_bag (fun b => b <| AttrBag.complex := true |>)))
  else if spells w "IMAGINARY" then Some (flag (on_bag (fun b => b <| AttrBag.imaginary := true |>)))
  else if one_of w ["CONTROLLED"; "CTL"]%string then Some (flag (on_bag (fun b => b <| AttrBag.controlled := true |>)))
  else if spells w "CONDITION" then Some (flag (on_item (fun i => i <| DeclItem.isCondition := true |>)))
  else if spells w "AREA" then Some area_attr
  else if spells w "OFFSET" then Some offset_attr
  else if one_of w ["PICTURE"; "PIC"]%string then Some picture_attr
  else if spells w "LABEL" then Some (flag (set_att (fun a => a <| DeclItem.labelAttr := true |>)))
  else if spells w "GENERIC" then Some generic_attr
  else if one_of w ["BUILTIN"; "SECONDARY"]%string then Some (foreign_attr w)
  else if spells w "RESERVED" then Some (flag (set_att (fun a => a <| DeclItem.reserved := true |>)))
  else if one_of w ["UNION"; "CELL"]%string then Some (flag (set_att (fun a => a <| DeclItem.unionAttr := true |>)))
  else if one_of w ["NONPRINT"; "NOPRINT"]%string then Some (flag (set_att (fun a => a <| DeclItem.nonprint := true |>)))
  else None.

(** A bare precision or length. *)
Definition bare_number : M Z :=
  let* v := bounded boundedNonNeg (txt "precision or length") (txt "(16)") in advance;; ret v.
Definition bare_precision (s : tail) : M tail :=
  let* l := get cur in
  eat Tok.LParen;;
  let* a := (if? here Tok.Number then bare_number else ret (-1)) in
  let* b := (if* eat Tok.Comma then if? here Tok.Number then bare_number else ret 0 else ret 0) in
  expect Tok.RParen (txt "(16)");;
  if AttrBag.string_ (bag s) then ret (if 0 <? a then on_bag (fun g => g <| AttrBag.slen := a |>) s else s)
  else if 0 <? a then ret (on_bag (fun g => g <| AttrBag.prec := a |> <| AttrBag.scale := b |>) s)
  else report (Token.loc l) (txt "arrays are not implemented in this stage") (txt "(12)");; ret s.

(** The attribute loop. *)
Definition attr_round (s : tail) : M (tail + tail) :=
  let* r := parseScalarAttr (bag s) (txt "(16)") in
  match r with
  | Some b => ret (inl (s <| bag := b |>))
  | None =>
      let* w := here_word in
      match w with
      | Some w => match attribute w with Some f => let* s := f s in ret (inl s) | None => ret (inr s) end
      | None => if? here Tok.LParen then let* s := bare_precision s in ret (inl s) else ret (inr s)
      end
  end.
End attributes.

Section items.
Context `{Input}.

(** ** From attributes to the type *)
(** The conflicts that are diagnosed, in order: a condition, the message, the rule. *)
Definition conflicts (b : AttrBag.t) (a : DeclItem.attrs) : list (bool * string * string) :=
  let strings := AttrBag.string_ b in
  let arith := AttrBag.arithmetic b in
  let storage := AttrBag.area b || AttrBag.offset b in
  let task := AttrBag.task b || AttrBag.event b in
  let typeRef := negb (bool_decide (DeclItem.typeRef a = [])) in
  [(typeRef && (arith || strings || AttrBag.varying b || AttrBag.pointer b || AttrBag.complex b || AttrBag.file b || task || storage),
    "TYPE cannot be combined with explicit data attributes (ADR-114)", "");
   (AttrBag.fixed b && AttrBag.floating b, "FIXED and FLOAT are conflicting attributes", "(16)");
   (AttrBag.binary b && AttrBag.decimal b, "BINARY and DECIMAL are conflicting attributes", "(16)");
   (AttrBag.character b && AttrBag.bit b, "CHARACTER and BIT are conflicting attributes", "(18)");
   (strings && arith, "string and arithmetic attributes cannot be combined", "(15)");
   (AttrBag.picture b && (arith || strings || AttrBag.pointer b || AttrBag.complex b || AttrBag.file b || task || storage || AttrBag.varying b),
    "PICTURE cannot be combined with another data attribute", "(19)");
   (AttrBag.picture b && (negb (bool_decide (DeclItem.like a = [])) || typeRef), "PICTURE cannot be combined with LIKE or TYPE", "(19)");
   (AttrBag.varying b && negb strings, "VARYING requires CHARACTER or BIT", "(15)");
   (AttrBag.varyingz b && negb (AttrBag.character b), "VARYINGZ requires CHARACTER", "(15)");
   (AttrBag.pointer b && (strings || arith), "POINTER cannot be combined with a data attribute", "(15)");
   (AttrBag.file b && (strings || arith || AttrBag.pointer b), "FILE cannot be combined with a data attribute", "(15)");
   (AttrBag.complex b && (strings || AttrBag.pointer b || AttrBag.file b),
    "COMPLEX cannot be combined with a non-arithmetic data attribute", "(15)");
   (AttrBag.imaginary b && (strings || AttrBag.pointer b || AttrBag.file b),
    "IMAGINARY cannot be combined with a non-arithmetic data attribute", "(15)");
   (AttrBag.complex b && AttrBag.imaginary b, "COMPLEX and IMAGINARY are conflicting attributes", "(15)");
   (task && (strings || arith || AttrBag.pointer b || AttrBag.complex b || AttrBag.file b || AttrBag.varying b),
    "TASK/EVENT cannot be combined with a data attribute", "(15)");
   (AttrBag.task b && AttrBag.event b, "TASK and EVENT are conflicting attributes", "(15)");
   (AttrBag.aligned b && AttrBag.unaligned b, "ALIGNED and UNALIGNED are conflicting attributes", "(15)");
   (storage && (strings || arith || AttrBag.pointer b || AttrBag.complex b || AttrBag.file b || AttrBag.varying b || task),
    "AREA/OFFSET cannot be combined with another data attribute", "(15)");
   (AttrBag.area b && AttrBag.offset b, "AREA and OFFSET are conflicting attributes", "(15)")]%string.
Fixpoint report_conflicts (loc : SourceLoc) (l : list (bool * string * string)) : M unit :=
  match l with
  | [] => ret tt
  | (c, msg, rule) :: l => (if c : bool then report loc (txt msg) (txt rule) else ret tt);; report_conflicts loc l
  end.

(** Whether a data attribute was written, as computed before the type: [controlled] and
    [imaginary] of the item are not set yet. *)
Definition data_attr (b : AttrBag.t) (i : DeclItem.t) : bool :=
  let a := DeclItem.att i in
  AttrBag.arithmetic b || AttrBag.string_ b || AttrBag.pointer b || AttrBag.complex b || AttrBag.file b || AttrBag.task b ||
  AttrBag.event b || AttrBag.area b || AttrBag.offset b || DeclItem.labelAttr a || AttrBag.picture b ||
  negb (bool_decide (DeclItem.like a = [])) || negb (bool_decide (DeclItem.typeRef a = [])) || DeclItem.controlled a ||
  negb (bool_decide (DeclItem.basedBase a = [])) || DeclItem.basedNoPtr a || DeclItem.imaginary a.
(** All scale factors are accepted (Y33-6003-0 section 4.5). *)
Definition fixedScaleFits (b : AttrBag.t) (binary : bool) : bool := if AttrBag.prec b <=? 0 then true else true.

(** The defaults of rules (15)-(18). *)
Definition item_type (b : AttrBag.t) (i : DeclItem.t) : M DeclItem.t :=
  let typed t := ret (i <| DeclItem.ty := t |>) in
  if AttrBag.task b then typed taskTy
  else if AttrBag.event b then typed eventTy
  else if DeclItem.labelAttr (DeclItem.att i) then typed labelTy
  else if AttrBag.file b then ret (on_att (fun a => a <| DeclItem.fileAttr := true |>) (i <| DeclItem.ty := voidTy |>))
  else if AttrBag.area b then typed areaTy
  else if AttrBag.offset b then typed offsetTy
  else if AttrBag.pointer b then typed ptr
  else if AttrBag.complex b then typed complexTy
  else if AttrBag.imaginary b
  then ret (on_att (fun a => a <| DeclItem.imaginary := true |>) (i <| DeclItem.ty := complexTy <| imaginary := true |> |>))
  else if AttrBag.character b then ret (i <| DeclItem.ty := char_type b |> <| DeclItem.slenExpr := AttrBag.slenExpr b |>)
  else if AttrBag.bit b then
    (if AttrBag.starLen b then report (DeclItem.loc i) (txt "a '*' string length is not implemented in this stage") (txt "(18)")
     else ret tt);;
    typed (bit (or_else (AttrBag.slen b) 1))
  else if AttrBag.floating b then typed (flt (or_else (AttrBag.prec b) (if AttrBag.binary b then 21 else 6)))
  else
    let binary := AttrBag.binary b && negb (AttrBag.decimal b) in
    (if fixedScaleFits b binary then ret tt
     else report (DeclItem.loc i)
            (if binary then txt "a FIXED BINARY scale factor must be less than the precision"
             else txt "a FIXED DECIMAL scale factor must not exceed the precision") (txt "(16)"));;
    typed (if binary then fixedBin (or_else (AttrBag.prec b) 15) (AttrBag.scale b)
           else fixedDec (or_else (AttrBag.prec b) 5) (AttrBag.scale b)).

(** What remains after the loop: the conflicts, the type, the members moved from the bag. *)
Definition decl_finish (ax : option axes_t) (s : tail) : M DeclItem.t :=
  let b := bag s in
  let i := item s in
  report_conflicts (DeclItem.loc i) (conflicts b (DeclItem.att i));;
  let* i := item_type b (on_att (fun a => a <| DeclItem.dataAttr := data_attr b i |>) i) in
  let ds := match ax with Some a => axes a | None => [] end in
  let i := i <| DeclItem.ty := (DeclItem.ty i) <| dims := ds |> |> in
  let i := on_att (fun a =>
    a <| DeclItem.controlled := AttrBag.controlled b |> <| DeclItem.aligned := AttrBag.aligned b |>
      <| DeclItem.unaligned := AttrBag.unaligned b |> <| DeclItem.area := AttrBag.area b |>
      <| DeclItem.areaSize := AttrBag.areaSize b |> <| DeclItem.areaStar := AttrBag.areaStar b |>
      <| DeclItem.sawStatic := AttrBag.staticAttr b |> <| DeclItem.offset := AttrBag.offset b |>
      <| DeclItem.offsetRef := AttrBag.offsetRef b |>) i in
  (if isBit (DeclItem.ty i) && (1 <? len (DeclItem.ty i)) && negb (bool_decide (ds = []))
   then report (DeclItem.loc i) (txt "arrays of BIT(n>1) are not implemented in this stage") (txt "(12)") else ret tt);;
  ret (i <| DeclItem.dynBounds := match ax with Some a => db a | None => [] end |>
         <| DeclItem.dynLbBounds := match ax with Some a => dlb a | None => [] end |> <| DeclItem.init := init_ s |>).

Definition parseDeclTail (i : DeclItem.t) : M DeclItem.t :=
  let* ax := tryParseDimension in
  let* s := loop attr_round (mkTail AttrBag.default i None) in
  decl_finish ax s.

Definition kMaxStructureLevel : Z := 49.
(** [None] where the code returns false. *)
Definition parseDeclItem : M (option DeclItem.t) :=
  let* level :=
    (if? (here Tok.Number &&& (fun st => negb (Token.isFloat (cur st)))) then
       let* v := bounded boundedNonNeg (txt "level number") (txt "(11)") in
       let* v := (if kMaxStructureLevel <? v then error_here (txt "a level number must not exceed 49") (txt "(11)");; ret 0
                  else ret v) in
       advance;; ret v
     else ret 0) in
  let* t := get cur in
  if bool_decide (Token.kind t = Tok.Word) then
    advance;;
    let* i := parseDeclTail (DeclItem.default <| DeclItem.level := level |> <| DeclItem.name := Token.text_ t |>
                               <| DeclItem.loc := Token.loc t |>) in
    ret (Some i)
  else report (Token.loc t) (txt "expected a name in DECLARE") (txt "(11)");; ret None.

(** ** DECLARE (rules (9),(11)) *)
Definition factored_names : M (list (text * SourceLoc)) :=
  loop (fun l =>
    let* t := get cur in
    if bool_decide (Token.kind t = Tok.Word) then
      advance;;
      if* eat Tok.Comma then ret (inl (l ++ [(Token.text_ t, Token.loc t)])) else ret (inr (l ++ [(Token.text_ t, Token.loc t)]))
    else report (Token.loc t) (txt "expected a name in factored declaration") (txt "(11)");; ret (inr l)) [].
(** What each name of a factored list takes of the shared tail. *)
Definition factored_item (base : DeclItem.t) (n : text * SourceLoc) : DeclItem.t :=
  let b := DeclItem.att base in
  on_att (fun a => a <| DeclItem.entryByValue := DeclItem.entryByValue b |> <| DeclItem.controlled := DeclItem.controlled b |>
                     <| DeclItem.like := DeclItem.like b |> <| DeclItem.picture := DeclItem.picture b |>
                     <| DeclItem.fileAttr := DeclItem.fileAttr b |> <| DeclItem.nonprint := DeclItem.nonprint b |>
                     <| DeclItem.genericEntries := DeclItem.genericEntries b |>)
    (DeclItem.default <| DeclItem.name := fst n |> <| DeclItem.loc := snd n |> <| DeclItem.level := DeclItem.level base |>
       <| DeclItem.ty := DeclItem.ty base |> <| DeclItem.isEntry := DeclItem.isEntry base |>
       <| DeclItem.extName := DeclItem.extName base |> <| DeclItem.entryParams := DeclItem.entryParams base |>).
Definition factored : M (list DeclItem.t) :=
  let* t := get cur in
  let floc := Token.loc t in
  advance;;
  let* names := factored_names in
  expect Tok.RParen (txt "(11)");;
  (if bool_decide (names = []) then report floc (txt "factored declaration has no names") (txt "(11)") else ret tt);;
  let* base := parseDeclTail DeclItem.default in
  report_conflicts floc
    [(bool_decide (is_Some (DeclItem.init base)), "INITIAL in a factored declaration is not implemented in this stage", "(26)");
     (bool_decide (is_Some (DeclItem.initCall base)), "INITIAL CALL in a factored declaration is not implemented in this stage", "(27)");
     (negb (bool_decide (DeclItem.dynBounds base = [])), "dynamic bounds in a factored declaration are not implemented in this stage", "(13)")]%string;;
  ret (map (factored_item base) names).

#[global] Instance eta_stmt : Eta Stmt.t := fun r => Stmt.mk
  (Stmt.kind r) (Stmt.loc r) (Stmt.labels r) (Stmt.labelElems r) (Stmt.decls r) (Stmt.target r) (Stmt.value r) (Stmt.cond r)
  (Stmt.from r) (Stmt.to r) (Stmt.by_ r) (Stmt.until r) (Stmt.forever r) (Stmt.extraTargets r) (Stmt.byName r) (Stmt.prefixes r)
  (Stmt.thenS r) (Stmt.elseS r) (Stmt.body r) (Stmt.name r) (Stmt.sym r) (Stmt.aliasTy r) (Stmt.entry r) (Stmt.stream r)
  (Stmt.fileIdent r) (Stmt.file r) (Stmt.args r) (Stmt.gotoTarget r) (Stmt.task r) (Stmt.on_ r) (Stmt.unit r) (Stmt.alloc r).
(** A statement of a kind, at a place. *)
Definition stmt (kd : Stmt.Kind) (loc : SourceLoc) : Stmt.t := Stmt.default <| Stmt.kind := kd |> <| Stmt.loc := loc |>.

(** The items up to the end of the list; [false] where one failed and the rest was skipped. *)
Definition decl_items : M (list DeclItem.t * bool) :=
  loop (fun l =>
    if? here Tok.LParen then
      let* ds := factored in
      if* eat Tok.Comma then ret (inl (l ++ ds)) else ret (inr (l ++ ds, true))
    else
      let* d := parseDeclItem in
      match d with
      | None => resync;; ret (inr (l, false))
      | Some d => if* eat Tok.Comma then ret (inl (l ++ [d])) else ret (inr (l ++ [d], true))
      end) [].
Definition parseDeclare : M (option Stmt.t) :=
  let* t := get cur in
  let* (l, ok) := decl_items in
  (if ok : bool then expect Tok.Semi (txt "(9)");; ret tt else ret tt);;
  ret (Some ((stmt Stmt.Declare_ (Token.loc t)) <| Stmt.decls := l |>)).
End items.
