(* ===== verification/DeclTotal.v ===== *)
(** * The declaration parser is total

    Every parser of [DeclParser] returns from every position of every token list that ends
    in end-of-file: it never moves backwards, restores the nesting depth and withdraws no
    error; the backtracking of a dimension and of a descriptor puts tokens back only as far
    as the parser itself read them. *)
From S2P Require Import Prelude Monad Types Diag Lexer Ast Constants Stmts ExprParser ExprTotal ParserBase DeclParser.

#[local] Set Default Proof Using "Type*".
Section total.
Context `{EndsEof} (lim : nat).
Abbreviation total := (ParserBase.total lim).

Lemma total_parenNums n1 n2 a rule : total (parenNums n1 n2 a rule).
Proof. unfold parenNums. totality. Qed.
#[local] Hint Resolve total_parenNums : total.
Lemma total_with_precision b s w rule : total (with_precision b s w rule).
Proof. unfold with_precision. totality. Qed.
Lemma total_char_length b rule : total (char_length b rule).
Proof. unfold char_length, star_length. totality. Qed.
Lemma total_bit_length b rule : total (bit_length b rule).
Proof. unfold bit_length, star_length. totality. Qed.
#[local] Hint Resolve total_with_precision total_char_length total_bit_length : total.
Lemma total_parseScalarAttr b rule : total (parseScalarAttr b rule).
Proof. unfold parseScalarAttr. totality. Qed.
#[local] Hint Resolve total_parseScalarAttr : total.
Definition is_some {A} (o : option A) : bool := match o with Some _ => true | None => false end.
Lemma scalar_advances b rule : advances lim is_some (parseScalarAttr b rule).
Proof.
  intros st Hi. unfold parseScalarAttr. apply wp_bind, wp_get. cbv zeta. case_bool_decide as Ek; cbn [negb].
  - match goal with |- wp ?m st _ => enough (advances_in lim is_some m) as Ha end.
    { apply Ha; [done|]. cbn. unfold is_at. rewrite Ek. by apply bool_decide_eq_false. }
    repeat case_match; try (by apply advances_ret); apply advances_strict; unfold with_precision; totality.
  - apply wp_ret. split; [by apply follows_refl, Hi|done].
Qed.

Lemma total_when_words : total when_words.
Proof. unfold when_words. totality. Qed.
#[local] Hint Resolve total_when_words : total.
Lemma total_parseWhenType : total parseWhenType.
Proof. unfold parseWhenType. totality. Qed.
#[local] Hint Resolve total_parseWhenType : total.

Lemma total_upper_bound d a e : total (upper_bound d a e).
Proof. unfold upper_bound, out_of_range_bound. totality. Qed.
#[local] Hint Resolve total_upper_bound : total.
Lemma total_one_axis a : total (one_axis a).
Proof. unfold one_axis, out_of_range_bound. totality. Qed.
#[local] Hint Resolve total_one_axis : total.
Lemma total_dim_axes : total dim_axes.
Proof. unfold dim_axes. totality. Qed.
#[local] Hint Resolve total_dim_axes : total.
Lemma total_tryParseDimension : total tryParseDimension.
Proof. unfold tryParseDimension. totality. Qed.
#[local] Hint Resolve total_tryParseDimension : total.
Lemma total_constNum : total constNum.
Proof. unfold constNum. totality. Qed.
#[local] Hint Resolve total_constNum : total.
Lemma total_star_axis : total star_axis.
Proof. unfold star_axis. totality. Qed.
#[local] Hint Resolve total_star_axis : total.
Lemma total_star_axes : total star_axes.
Proof. unfold star_axes. totality. Qed.
#[local] Hint Resolve total_star_axes : total.
Lemma total_parseStarGroup : total parseStarGroup.
Proof. unfold parseStarGroup. totality. Qed.
#[local] Hint Resolve total_parseStarGroup : total.
Lemma total_trailing_star s : total (trailing_star s).
Proof. unfold trailing_star. totality. Qed.
Lemma total_descriptor_type b s : total (descriptor_type b s).
Proof. unfold descriptor_type. totality. Qed.
Lemma total_scalar_attrs rule : total (scalar_attrs rule).
Proof.
  unfold scalar_attrs. apply total_loop. intros b. eapply steps_advances; [apply scalar_advances| |]; intros [?|] Hx; try done; totality.
Qed.
#[local] Hint Resolve total_trailing_star total_descriptor_type total_scalar_attrs : total.
End total.
#[local] Hint Resolve total_parseScalarAttr total_parseWhenType total_tryParseDimension total_parseStarGroup total_trailing_star
  total_descriptor_type total_scalar_attrs : total.

Section descriptors.
Context `{EndsEof}.
Lemma total_entryParams lim d params : total (pred lim) d -> total lim (entryParams d params).
Proof.
  intros Hd. unfold entryParams. apply total_expect_after; [discriminate|totality|totality].
Qed.
(** The nesting of descriptors: a word and a parenthesis each. *)
Lemma total_descriptor n : total n (descriptor n).
Proof.
  induction n as [|n IH]; [apply total_zero|]. cbn [descriptor].
  apply total_bind; [totality|]. intros star.
  apply total_bind; [totality|]. intros [|]; [totality|].
  apply total_bind; [totality|]. intros [|]; [totality|].
  apply total_bind; [totality|]. intros [|]; [totality|].
  apply total_after; [auto with total nocore|auto with total nocore| |totality]. intros []. change (pred (S n)) with n.
  apply total_bind.
  - apply total_bind; [totality|]. intros [|]; [|totality]. apply total_entryParams. eapply total_less; [|exact IH]. lia.
  - intros _. totality.
Qed.
Lemma total_parseDescriptorType lim : total lim parseDescriptorType.
Proof.
  intros st (Hi & Hb & Hm). apply wp_bind, wp_get. eapply wp_mono; [apply total_descriptor|by intros ty st' F].
  split; [done|]. split; [cbn; unfold fuel_left; lia|done].
Qed.
End descriptors.
#[export] Hint Resolve total_parseDescriptorType : total.

(** ** INITIAL lists *)
Section initial.
Context `{EndsEof}.
Abbreviation list_ := (ExprParser.parseInitialList toks strtod double_of).
Abbreviation item_ := (ExprParser.parseInitialItem toks strtod double_of).
Lemma initial_total n : (forall lim l, (8 * lim + 7 <= n)%nat -> total lim (list_ n l)) /\
  (forall lim, (8 * lim + 6 <= n)%nat -> total lim (item_ n)).
Proof.
  induction n as [|n [IHl IHi]]; [split; intros; lia|].
  assert (forall lim l, (8 * lim <= n)%nat -> total (pred lim) (list_ n l)) as Hl.
  { intros [|lim] l Hn; [apply total_zero|]. apply IHl. cbn. lia. }
  assert (forall lim, (8 * lim <= n)%nat -> total (pred lim) (item_ n)) as Hitem.
  { intros [|lim] Hn; [apply total_zero|]. apply IHi. cbn. lia. }
  split.
  - intros lim l Hn. cbn [ExprParser.parseInitialList]. apply total_eat_after; [discriminate|totality|].
    apply total_bind; [apply IHi; lia|]. intros it. apply total_eat_after; [discriminate|apply Hl; lia|totality].
  - intros lim Hn. cbn [ExprParser.parseInitialItem]. apply total_bind; [totality|]. intros [|]; [totality|].
    refine (proj2 (total_guard (S := pst) lim (is_at toks Tok.LParen) _ _ _ _ _)); [apply (not_eof_here Tok.LParen); discriminate| |].
    + apply total_in_get. intros iter. apply total_in_get. intros const. apply total_in_strict; [auto with total nocore|]. intros _.
      apply total_bind; [totality|]. intros t. cbv zeta. destruct iter; [|destruct const; [totality|]].
      * apply total_bind; [totality|]. intros _. apply total_bind; [totality|]. intros _.
        apply total_bind; [totality|]. intros [|]; apply total_bind; try (intros; totality); [apply Hl; lia|apply Hitem; lia].
      * apply total_bind; [apply Hl; lia|]. intros; totality.
    + apply total_bind; [apply total_parseExpr; lia|]. intros; totality.
Qed.
Lemma total_initialList lim : total lim initialList.
Proof.
  intros st (Hi & Hb & Hm). apply wp_bind, wp_get, wp_bind.
  destruct (initial_total (expr_fuel st + 3)) as [Hl _].
  apply (wp_total (length toks - i_ st)); [apply Hl; unfold expr_fuel; lia|by split|]. intros l st' F. by apply wp_ret.
Qed.
End initial.
#[export] Hint Resolve total_initialList : total.

(** ** Attributes *)
Section attributes.
Context `{EndsEof} (lim : nat).
Abbreviation total := (ParserBase.total lim).

Lemma total_call_arg : total call_arg.
Proof. unfold call_arg. totality. Qed.
#[local] Hint Resolve total_call_arg : total.
Lemma total_call_args : total call_args.
Proof. unfold call_args. totality. Qed.
#[local] Hint Resolve total_call_args : total.
Lemma total_initial_call : total initial_call.
Proof. unfold initial_call. totality. Qed.
#[local] Hint Resolve total_initial_call : total.
Lemma total_entry_option : total entry_option.
Proof. unfold entry_option. totality. Qed.
#[local] Hint Resolve total_entry_option : total.
Lemma total_parseEntryParams l : total (parseEntryParams l).
Proof. apply total_entryParams. auto with total nocore. Qed.
#[local] Hint Resolve total_parseEntryParams : total.
Lemma total_uses_item : total uses_item.
Proof. unfold uses_item. totality. Qed.
#[local] Hint Resolve total_uses_item : total.
Lemma total_like_path p : total (like_path p).
Proof. unfold like_path. totality. Qed.
#[local] Hint Resolve total_like_path : total.
Lemma total_isub_offset : total isub_offset.
Proof. unfold isub_offset. totality. Qed.
#[local] Hint Resolve total_isub_offset : total.
Lemma total_defined_sub : total defined_sub.
Proof. unfold defined_sub. totality. Qed.
#[local] Hint Resolve total_defined_sub : total.
Lemma total_generic_entry : total generic_entry.
Proof. unfold generic_entry. totality. Qed.
#[local] Hint Resolve total_generic_entry : total.
Lemma total_position_attr s : total (position_attr s).
Proof. unfold position_attr. totality. Qed.
#[local] Hint Resolve total_position_attr : total.

(** An attribute starts with its word: it consumes that. *)
Lemma attribute_strict w f s : attribute w = Some f -> strict lim (f s).
Proof.
  unfold attribute. intros Hf. repeat (case_match; try done); simplify_eq;
    unfold flag, initial_attr, type_attr, value_attr, storage_attr, external_attr, options_attr, entry_attr, returns_attr, uses_attr,
      abnormal_attr, like_attr, defined_attr, environment_attr, based_attr, area_attr, offset_attr, picture_attr, generic_attr, foreign_attr;
    totality.
Qed.

Lemma bare_precision_consumes s st : ParserBase.within lim st -> here Tok.LParen st = true ->
  wp (bare_precision s) st (fun _ st' => follows st st' /\ (i_ st < i_ st')%nat).
Proof.
  intros Hi Hl. apply wp_bind, wp_get, wp_bind, wp_eat; [apply Hi|done| |unfold here in Hl; by rewrite Hl].
  intros st1 F1 C1. match goal with |- wp ?m st1 _ => assert (total m) as Hm by (unfold bare_number; totality) end.
  apply (wp_total lim); [done|by apply (follows_within lim st)|]. intros x st2 F2.
  split; [by apply (follows_trans st st1)|]. pose proof (follows_le _ _ F2). cbn in *. lia.
Qed.
Lemma attr_round_steps s : steps lim (attr_round s).
Proof.
  unfold attr_round. eapply steps_advances; [apply scalar_advances| |]; intros [b|] Hb; try done; [totality|].
  apply steps_here_word; [intros w; destruct (attribute w) as [f|] eqn:E|].
  - apply steps_in_strict. apply strict_bind; [by eapply attribute_strict|]. intros; totality.
  - totality.
  - intros st Hi. apply wp_bind, wp_get. destruct (here Tok.LParen (pos st)) eqn:E.
    + apply wp_bind. eapply wp_mono; [by apply bare_precision_consumes|]. by intros s' st' [F C].
    + by apply (steps_stop lim s st).
Qed.
End attributes.
#[export] Hint Resolve total_call_args total_initial_call attr_round_steps : total.

(** ** Items *)
Section items.
Context `{EndsEof} (lim : nat).
Abbreviation total := (ParserBase.total lim).
Lemma total_report_conflicts loc l : total (report_conflicts loc l).
Proof. induction l as [|[[c msg] rule] l IH]; cbn [report_conflicts]; totality. Qed.
#[local] Hint Resolve total_report_conflicts : total.
Lemma total_item_type b i : total (item_type b i).
Proof. unfold item_type. totality. Qed.
#[local] Hint Resolve total_item_type : total.
Lemma total_decl_finish ax s : total (decl_finish ax s).
Proof. unfold decl_finish. totality. Qed.
#[local] Hint Resolve total_decl_finish : total.
Lemma total_parseDeclTail i : total (parseDeclTail i).
Proof. unfold parseDeclTail. totality. Qed.
#[local] Hint Resolve total_parseDeclTail : total.
Lemma total_parseDeclItem : total parseDeclItem.
Proof. unfold parseDeclItem. totality. Qed.
#[local] Hint Resolve total_parseDeclItem : total.
Lemma total_factored_names : total factored_names.
Proof.
  apply total_loop. intros l st Hi. apply wp_bind, wp_get. case_bool_decide as E.
  - match goal with |- wp ?m st _ => enough (strict lim m) as Hs end.
    { eapply wp_mono; [apply (Hs st Hi)|].
      - cbn. unfold is_at. rewrite E. by apply bool_decide_eq_false.
      - intros r st' [F C]. split; [done|by destruct r]. }
    totality.
  - match goal with |- wp ?m st _ => enough (steps lim m) as Hs by exact (Hs st Hi) end. totality.
Qed.
#[local] Hint Resolve total_factored_names : total.
Lemma total_factored : total factored.
Proof. unfold factored. totality. Qed.
#[local] Hint Resolve total_factored : total.
Lemma total_decl_items : total decl_items.
Proof. unfold decl_items. totality. Qed.
#[local] Hint Resolve total_decl_items : total.
Lemma total_parseDeclare : total parseDeclare.
Proof. unfold parseDeclare. totality. Qed.
End items.
#[export] Hint Resolve total_parseDeclItem total_parseDeclare : total.
