(* ===== verification/StmtParser.v ===== *)
(** * The simple statements ([src/parser.cpp])

    The parsers of the statements that hold no statement: stream and record input and output
    with their format lists, CALL, WAIT, DELAY, assignment, ALLOCATE, FREE, OPEN, CLOSE,
    DISPLAY, the exits, SIGNAL and REVERT, DEFINE, RETURN, STOP, GO TO; then the condition
    prefixes and the labels that precede any statement.  A null [StmtP] is [None].  A format
    list can lead the code to a null dereference, which is an outcome of its own. *)
From S2P Require Import Prelude Monad Types Diag Lexer Ast Constants Stmts ExprParser ParserBase DeclParser.

(** What a parser comes to: a result, a failure it has reported, a null dereference. *)
Inductive Outcome (A : Type) := Done (x : A) | Failed | Crash.
Arguments Done {A} x.
Arguments Failed {A}.
Arguments Crash {A}.

(** ** Fields *)
#[global] Instance eta_stream : Eta (StreamOpts Expr.t) := fun r => mkStreamOpts
  (skip r) (page r) (copy r) (line r) (skipCount r) (lineCount r) (items_ r) (edit r) (data r) (formats r) (stringTarget_ r).
#[global] Instance eta_file : Eta (FileOpts Expr.t) := fun r => mkFileOpts
  (fileSym r) (openTitle r) (openInput r) (openUpdate r) (openRecord r) (openKeyed r) (openDirect r) (openIdent r)
  (openLinesize r) (openPagesize r) (keyOpt r) (keyToOpt r) (keyFromOpt r) (keyNoLock r) (keySet r) (replyTarget r).
#[global] Instance eta_task : Eta (TaskOpts Expr.t) := fun r => mkTaskOpts
  (hasTaskOpt r) (taskRef r) (eventRef r) (priorityExpr r) (waitEvents r) (waitCount r).
#[global] Instance eta_on : Eta (OnOpts Expr.t) := fun r => mkOnOpts
  (condName r) (condKey_ r) (snap r) (isSystem r) (onIndex r) (onCaps r) (oncodeExpr_ r).
#[global] Instance eta_format : Eta (FormatItem.t Expr.t) := fun r => FormatItem.mk
  (FormatItem.kind r) (FormatItem.w r) (FormatItem.d r) (FormatItem.s r) (FormatItem.remote r) (FormatItem.pic r)
  (FormatItem.subs r) (FormatItem.count r) (FormatItem.items r).
#[global] Instance eta_prefixes : Eta Prefixes := fun r => mkPrefixes
  (noSize r) (noSub r) (noZdiv r) (noConv r) (noUnder r) (noOver r) (noFOver r)
  (chkSize r) (chkSub r) (chkZdiv r) (chkConv r) (chkUnder r) (chkOver r) (chkFOver r) (strRange r).
Definition on_stream (f : StreamOpts Expr.t -> StreamOpts Expr.t) (s : Stmt.t) : Stmt.t := s <| Stmt.stream := f (Stmt.stream s) |>.
Definition on_file (f : FileOpts Expr.t -> FileOpts Expr.t) (s : Stmt.t) : Stmt.t := s <| Stmt.file := f (Stmt.file s) |>.
Definition on_task (f : TaskOpts Expr.t -> TaskOpts Expr.t) (s : Stmt.t) : Stmt.t := s <| Stmt.task := f (Stmt.task s) |>.
Definition on_cond (f : OnOpts Expr.t -> OnOpts Expr.t) (s : Stmt.t) : Stmt.t := s <| Stmt.on_ := f (Stmt.on_ s) |>.

Section common.
Context `{Input}.

(** Expressions separated by commas, up to the closing parenthesis; null where one failed. *)
Definition expr_list : M (list (option Expr.t)) :=
  if? here Tok.RParen then ret []
  else loop (fun l => let* e := expression in if* eat Tok.Comma then ret (inl (l ++ [e])) else ret (inr (l ++ [e]))) [].
(** [( expr )] after an option word, if the parenthesis is there. *)
Definition paren_expr (rule : text) : M (option (option Expr.t)) :=
  if* eat Tok.LParen then let* e := expression in expect Tok.RParen rule;; ret (Some e) else ret None.
(** [FILE ( f )]: the name read, or the one before. *)
Definition file_name (old rule : text) : M text :=
  let* w := here_word in
  let* w := match w with
            | Some w => advance;; ret w
            | None => error_here (txt "expected a FILE variable after FILE(") rule;; ret old
            end in
  expect Tok.RParen rule;; ret w.
Definition failed {A} : M (option A) := resync;; ret None.
Definition fail_here {A} (msg : string) (rule : string) : M (option A) := error_here (txt msg) (txt rule);; failed.
End common.

(** ** Format lists (rules (44)-(55)) *)
Fixpoint cloneFormatItem (f : FormatItem.t Expr.t) : FormatItem.t Expr.t :=
  FormatItem.mk (FormatItem.kind f) (option_map cloneExpr (FormatItem.w f)) (option_map cloneExpr (FormatItem.d f))
    (option_map cloneExpr (FormatItem.s f)) (FormatItem.remote f) (FormatItem.pic f)
    (map cloneFormatItem (FormatItem.subs f)) (option_map cloneExpr (FormatItem.count f)) (map cloneFormatItem (FormatItem.items f)).
Definition fmt (kd : FormatItem.Kind) : FormatItem.t Expr.t := FormatItem.mk kd None None None [] [] [] None [].
Definition format_word (w : text) : option FormatItem.Kind :=
  if spells w "A" then Some FormatItem.A
  else if spells w "B" then Some FormatItem.B
  else if spells w "C" then Some FormatItem.C
  else if spells w "R" then Some FormatItem.Remote
  else if spells w "F" then Some FormatItem.F
  else if spells w "E" then Some FormatItem.E
  else if spells w "X" then Some FormatItem.X
  else if spells w "SKIP" then Some FormatItem.Skip
  else if spells w "PAGE" then Some FormatItem.Page
  else if spells w "LINE" then Some FormatItem.Line
  else if one_of w ["COL"; "COLUMN"]%string then Some FormatItem.Column
  else None.
Definition is_real (kd : FormatItem.Kind) : bool :=
  match kd with FormatItem.F | FormatItem.E | FormatItem.P => true | _ => false end.

Section formats.
Context `{Input}.

(** P( 'picture' ): without a picture the item stays an A item. *)
Definition picture_item : M (FormatItem.t Expr.t) :=
  if* eat Tok.LParen then
    let* f := (if? here Tok.CharLit then
                 let* t := get cur in
                 advance;; ret ((fmt FormatItem.P) <| FormatItem.pic := Token.sval t |>)
               else error_here (txt "P requires a picture string literal in parentheses") (txt "(53)");; ret (fmt FormatItem.A)) in
    expect Tok.RParen (txt "(53)");; ret f
  else error_here (txt "P requires ( 'picture-string' )") (txt "(53)");; ret (fmt FormatItem.A).
Definition remote_item : M (option (FormatItem.t Expr.t)) :=
  if* expect Tok.LParen (txt "(55)") then
    let* w := here_word in
    match w with
    | Some w => advance;; expect Tok.RParen (txt "(55)");; ret (Some ((fmt FormatItem.Remote) <| FormatItem.remote := w |>))
    | None => error_here (txt "R requires a FORMAT statement label in parentheses") (txt "(55)");; ret None
    end
  else ret None.
(** C( real [, real] ); a third part is never read. *)
Definition complex_item (single : M (option (FormatItem.t Expr.t))) : M (option (FormatItem.t Expr.t)) :=
  if* expect Tok.LParen (txt "(51)") then
    let* l :=
      loop (fun l =>
        let* r := single in
        match r with
        | None => ret (inr None)
        | Some f =>
            if is_real (FormatItem.kind f) then
              let l := l ++ [f] in
              if* eat Tok.Comma then if (2 <=? length l)%nat then ret (inr (Some l)) else ret (inl l) else ret (inr (Some l))
            else error_here (txt "a C format part must be an F, E, or P real format") (txt "(51)");; ret (inr None)
        end) [] in
    match l with
    | None => ret None
    | Some l =>
        if (2 <? length l)%nat then error_here (txt "a C format takes at most two real formats") (txt "(51)");; ret None
        else expect Tok.RParen (txt "(51)");; ret (Some ((fmt FormatItem.C) <| FormatItem.subs := l |>))
    end
  else ret None.
(** The optional [( width [, decimals [, scale]] )]. *)
Definition sized_item (kd : FormatItem.Kind) : M (option (FormatItem.t Expr.t)) :=
  let col := bool_decide (kd = FormatItem.Column) in
  let no_column := error_here (txt "COL requires a column number in parentheses") (txt "(48)");; ret None in
  if? ((fun _ => col) &&& not_ (here Tok.LParen)) then no_column
  else if* eat Tok.LParen then
    let* w := expression in
    let* (d, s) :=
      (if bool_decide (kd = FormatItem.F) || bool_decide (kd = FormatItem.E) then
         if* eat Tok.Comma then
           let* d := expression in
           if* eat Tok.Comma then let* s := expression in ret (d, s) else ret (d, None)
         else ret (None, None)
       else ret (None, None)) in
    expect Tok.RParen (txt "(48)");;
    ret (Some ((fmt kd) <| FormatItem.w := w |> <| FormatItem.d := d |> <| FormatItem.s := s |>))
  else if col then no_column
  else ret (Some (fmt kd)).
Fixpoint singleItem (n : nat) : M (option (FormatItem.t Expr.t)) :=
  match n with
  | O => out_of_fuel
  | S n =>
      let* t := get cur in
      let w := Token.text_ t in
      if negb (bool_decide (Token.kind t = Tok.Word)) then error_here (txt "expected a format item") (txt "(48)");; ret None
      else if spells w "P" then advance;; let* f := picture_item in ret (Some f)
      else
        match format_word w with
        | None => error_here (txt "'" ++ w ++ txt "' is not a format item") (txt "(48)");; ret None
        | Some kd =>
            advance;;
            match kd with
            | FormatItem.Remote => remote_item
            | FormatItem.C => complex_item (singleItem n)
            | _ => sized_item kd
            end
        end
  end.
Definition parseSingleFormatItem : M (option (FormatItem.t Expr.t)) := let* n := get (fuel_left toks) in singleItem n.

(** A literal count unrolls its group; any other is kept for run time.  The count is
    dereferenced even where it failed to parse. *)
Definition repeat_group (count : option Expr.t) (group out : list (FormatItem.t Expr.t)) : Outcome (list (FormatItem.t Expr.t)) :=
  match count with
  | None => Crash
  | Some c =>
      if bool_decide (Expr.kind c = Expr.IntLit) && (0 <=? Expr.ival c)
      then Done (out ++ concat (repeat (map cloneFormatItem group) (Z.to_nat (Expr.ival c))))
      else Done (out ++ [(fmt FormatItem.Repeat) <| FormatItem.count := Some c |> <| FormatItem.items := group |>])
  end.
(** Items separated by commas. *)
Definition format_items (item : list (FormatItem.t Expr.t) -> M (Outcome (list (FormatItem.t Expr.t)))) (out : list (FormatItem.t Expr.t)) :
    M (Outcome (list (FormatItem.t Expr.t))) :=
  if? here Tok.RParen then ret (Done out)
  else loop (fun l =>
    let* r := item l in
    match r with
    | Done l => if* eat Tok.Comma then ret (inl l) else ret (inr (Done l))
    | r => ret (inr r)
    end) out.
Fixpoint formatItem (n : nat) (out : list (FormatItem.t Expr.t)) : M (Outcome (list (FormatItem.t Expr.t))) :=
  match n with
  | O => out_of_fuel
  | S n =>
      if? here Tok.LParen then
        advance;;
        let* count := expression in
        if* expect Tok.RParen (txt "(47)") then
          if* eat Tok.LParen then
            let* g := format_items (formatItem n) [] in
            match g with
            | Done g => if* expect Tok.RParen (txt "(47)") then ret (repeat_group count g out) else ret Failed
            | r => ret r
            end
          else error_here (txt "expected '(' to open the repeated format group") (txt "(47)");; ret Failed
        else ret Failed
      else
        let* f := parseSingleFormatItem in
        ret match f with Some f => Done (out ++ [f]) | None => Failed end
  end.
(** One level of nesting takes a parenthesis. *)
Definition parseFormatItemInto (out : list (FormatItem.t Expr.t)) : M (Outcome (list (FormatItem.t Expr.t))) :=
  let* n := get (fuel_left toks) in formatItem n out.
Definition parseFormatStmt (labels : list text) : M (Outcome Stmt.t) :=
  let* t := get cur in
  let s := (stmt Stmt.Format (Token.loc t)) <| Stmt.labels := labels |> in
  advance;;
  (if bool_decide (labels = []) then report (Token.loc t) (txt "a FORMAT statement requires a label for R reference") (txt "(44)") else ret tt);;
  if* expect Tok.LParen (txt "(45)") then
    let* r := format_items parseFormatItemInto [] in
    match r with
    | Done l =>
        if* expect Tok.RParen (txt "(45)") then expect Tok.Semi (txt "(44)");; ret (Done (on_stream (fun o => o <| formats := l |>) s))
        else ret Failed
    | Failed => ret Failed
    | Crash => ret Crash
    end
  else ret Failed.

(** ** PUT and GET (rules (104)-(111)) *)
(** [EDIT ( datalist ) formatlist , ...]: the data items and the formats go after those read. *)
Definition parseEditClause (s : Stmt.t) : M (Outcome Stmt.t) :=
  advance;;
  let* r :=
    loop (fun s =>
      if* expect Tok.LParen (txt "(110)") then
        let* l := expr_list in
        expect Tok.RParen (txt "(110)");;
        let s := on_stream (fun o => o <| items_ := items_ o ++ l |>) s in
        if* expect Tok.LParen (txt "(45)") then
          let* r := format_items parseFormatItemInto (formats (Stmt.stream s)) in
          match r with
          | Done l =>
              expect Tok.RParen (txt "(45)");;
              let s := on_stream (fun o => o <| formats := l |>) s in
              if* eat Tok.Comma then ret (inl s) else ret (inr (Done s))
          | Failed => ret (inr Failed)
          | Crash => ret (inr Crash)
          end
        else ret (inr Failed)
      else ret (inr Failed)) s in
  ret match r with Done s => Done (on_stream (fun o => o <| edit := true |>) s) | r => r end.

(** One stream option.  PUT and GET read the same options but for PAGE. *)
Definition stream_list (rule : string) (s : Stmt.t) : M Stmt.t :=
  if* expect Tok.LParen (txt rule) then
    let* l := expr_list in
    expect Tok.RParen (txt rule);; ret (on_stream (fun o => o <| items_ := items_ o ++ l |>) s)
  else ret s.
Definition stream_option (put : bool) (s : Stmt.t) : M (Outcome Stmt.t) :=
  let failed_ := resync;; ret Failed in
  let set f := ret (Done (on_stream f s)) in
  if? atWord (txt "SKIP") then
    advance;;
    let* e := paren_expr (txt "(105)") in
    set (fun o => let o := o <| skip := true |> in match e with Some e => o <| skipCount := e |> | None => o end)
  else if? ((fun _ => put) &&& atWord (txt "PAGE")) then advance;; set (fun o => o <| page := true |>)
  else if? atWord (txt "LIST") then advance;; let* s := stream_list "(109)" s in ret (Done s)
  else if? atWord (txt "FILE") then
    advance;;
    if* eat Tok.LParen then let* w := file_name (Stmt.fileIdent s) (txt "(105)") in ret (Done (s <| Stmt.fileIdent := w |>))
    else ret (Done s)
  else if? atWord (txt "EDIT") then
    let* r := parseEditClause s in
    match r with Failed => failed_ | r => ret r end
  else if? atWord (txt "DATA") then
    advance;; let* s := stream_list "(106)" (on_stream (fun o => o <| data := true |>) s) in ret (Done s)
  else if? atWord (txt "STRING") then
    advance;;
    if* eat Tok.LParen then
      let* e := primary in expect Tok.RParen (txt "(105)");; set (fun o => o <| stringTarget_ := e |>)
    else error_here (txt "expected '(' after STRING") (txt "(105)");; ret (Done s)
  else if? atWord (txt "LINE") then
    advance;;
    let* e := paren_expr (txt "(105)") in
    set (fun o => let o := o <| line := true |> in match e with Some e => o <| lineCount := e |> | None => o end)
  else if? atWord (txt "COPY") then advance;; set (fun o => o <| copy := true |>)
  else if put then error_here (txt "unexpected token in PUT statement") (txt "(105)");; failed_
  else if? atWord (txt "PAGE") then error_here (txt "GET option PAGE is not implemented in this stage") (txt "(105)");; failed_
  else error_here (txt "unexpected token in GET statement") (txt "(105)");; failed_.
Definition at_end_of_options : pst -> bool := here Tok.Semi ||| here Tok.Eof.
Definition parseStream (put : bool) : M (Outcome Stmt.t) :=
  let* t := get cur in
  advance;;
  let* r :=
    loop (fun s =>
      if? at_end_of_options then ret (inr (Done s))
      else
        let* r := stream_option put s in
        ret match r with Done s => inl s | r => inr r end)
      (stmt (if put then Stmt.Put else Stmt.Get) (Token.loc t)) in
  match r with Done s => expect Tok.Semi (txt "(104)");; ret (Done s) | r => ret r end.
Definition parsePut : M (Outcome Stmt.t) := parseStream true.
Definition parseGet : M (Outcome Stmt.t) := parseStream false.
End formats.

Section calls.
Context `{Input}.

(** ** CALL, WAIT, DELAY, assignment *)
Definition star_or_expr : M (option Expr.t) :=
  let* t := get cur in
  if bool_decide (Token.kind t = Tok.Star) then advance;; ret (Some (node Expr.Star (Token.loc t))) else expression.
(** The options in any order; [None] where one fails. *)
Definition duplicate_option (w : string) (s : Stmt.t) : M (Stmt.t + option Stmt.t) :=
  error_here (txt "duplicate " ++ txt w ++ txt " option on CALL") (txt "(79)");; advance;; ret (inl s).
Definition call_option (s : Stmt.t) : M (Stmt.t + option Stmt.t) :=
  let o := Stmt.task s in
  let fail := resync;; ret (inr None) in
  if? atWord (txt "TASK") then
    if hasTaskOpt o then duplicate_option "TASK" s
    else
      advance;;
      let s := on_task (fun o => o <| hasTaskOpt := true |>) s in
      if* eat Tok.LParen then
        if? here Tok.RParen then expect Tok.RParen (txt "(79)");; ret (inl s)
        else
          let* r := primary in
          match r with
          | None => fail
          | Some _ => expect Tok.RParen (txt "(79)");; ret (inl (on_task (fun o => o <| taskRef := r |>) s))
          end
      else ret (inl s)
  else if? atWord (txt "EVENT") then
    match eventRef o with
    | Some _ => duplicate_option "EVENT" s
    | None =>
        advance;;
        if* expect Tok.LParen (txt "(79)") then
          let* r := primary in
          match r with
          | None => fail
          | Some _ => expect Tok.RParen (txt "(79)");; ret (inl (on_task (fun o => o <| eventRef := r |>) s))
          end
        else fail
    end
  else if? atWord (txt "PRIORITY") then
    match priorityExpr o with
    | Some _ => duplicate_option "PRIORITY" s
    | None =>
        advance;;
        if* expect Tok.LParen (txt "(79)") then
          let* e := expression in
          expect Tok.RParen (txt "(79)");; ret (inl (on_task (fun o => o <| priorityExpr := e |>) s))
        else fail
    end
  else ret (inr (Some s)).
Definition parseCall : M (option Stmt.t) :=
  let* t := get cur in
  advance;;
  let* w := here_word in
  match w with
  | None => fail_here "expected entry name after CALL" "(78)"
  | Some w =>
      advance;;
      let* l :=
        (if* eat Tok.LParen then
           let* l :=
             (if? here Tok.RParen then ret []
              else loop (fun l => let* a := star_or_expr in if* eat Tok.Comma then ret (inl (l ++ [a])) else ret (inr (l ++ [a]))) []) in
           expect Tok.RParen (txt "(80)");; ret l
         else ret []) in
      let* r := loop call_option ((stmt Stmt.CallS (Token.loc t)) <| Stmt.name := w |> <| Stmt.args := l |>) in
      match r with
      | None => ret None
      | Some s => expect Tok.Semi (txt "(78)");; ret (Some s)
      end
  end.

(** References separated by commas; [None] where one failed. *)
Definition primaries (l : list (option Expr.t)) : M (option (list (option Expr.t))) :=
  loop (fun l =>
    let* e := primary in
    match e with
    | None => resync;; ret (inr None)
    | Some _ => if* eat Tok.Comma then ret (inl (l ++ [e])) else ret (inr (Some (l ++ [e])))
    end) l.
Definition parseWait : M (option Stmt.t) :=
  let* t := get cur in
  advance;;
  if* expect Tok.LParen (txt "(82)") then
    let* r := (if? here Tok.RParen then ret (Some []) else primaries []) in
    match r with
    | None => ret None
    | Some l =>
        if* expect Tok.RParen (txt "(82)") then
          let* n := (if? here Tok.LParen then advance;; let* e := expression in expect Tok.RParen (txt "(82)");; ret e else ret None) in
          expect Tok.Semi (txt "(82)");;
          ret (Some (on_task (fun o => o <| waitEvents := l |> <| waitCount := n |>) (stmt Stmt.Wait (Token.loc t))))
        else failed
    end
  else failed.
Definition parseDelay : M (option Stmt.t) :=
  let* t := get cur in
  advance;;
  if* expect Tok.LParen (txt "(83)") then
    let* e := expression in
    expect Tok.RParen (txt "(83)");; expect Tok.Semi (txt "(83)");;
    ret (Some ((stmt Stmt.Delay (Token.loc t)) <| Stmt.value := e |>))
  else failed.

(** [, BY NAME] after the right-hand side. *)
Definition by_name : M bool :=
  if? here Tok.Comma then
    advance;;
    if? (atWord (txt "BY") &&& nextWord 1 (txt "NAME")) then advance;; advance;; ret true
    else error_here (txt "malformed assignment: unexpected item after the right-hand side") (txt "(86)");; ret false
  else ret false.
Definition more_targets : M (option (list (option Expr.t))) :=
  loop (fun l =>
    if? here Tok.Comma then
      advance;;
      let* e := primary in
      match e with None => resync;; ret (inr None) | Some _ => ret (inl (l ++ [e])) end
    else ret (inr (Some l))) [].
Definition parseAssignment : M (option Stmt.t) :=
  let* t := get cur in
  let* e := primary in
  match e with
  | None => failed
  | Some _ =>
      let* more := more_targets in
      match more with
      | None => ret None
      | Some more =>
          if? here Tok.Eq then
            advance;;
            let* v := expression in
            let* b := by_name in
            expect Tok.Semi (txt "(86)");;
            ret (Some ((stmt Stmt.Assign (Token.loc t)) <| Stmt.target := e |> <| Stmt.extraTargets := more |>
                         <| Stmt.value := v |> <| Stmt.byName := b |>))
          else
            let* u := get cur in
            error_fix (Token.loc u) (txt "expected '=' in assignment statement") (txt "(86)") (txt "= ");; failed
      end
  end.
End calls.

Section storage.
Context `{Input}.

(** ** ALLOCATE and FREE (rules (87)-(90)) *)
#[global] Instance eta_alloc : Eta (AllocOpts Expr.t) := fun r => mkAllocOpts
  (allocBase r) (allocSet r) (allocArea r) (allocBounds r) (allocCharLen r) (allocVarying r) (allocHasChar r) (freeBase r) (freeArea r).
Definition on_alloc (f : AllocOpts Expr.t -> AllocOpts Expr.t) (s : Stmt.t) : Stmt.t := s <| Stmt.alloc := f (Stmt.alloc s) |>.
(** The trailing string attributes: the length, and whether CHARACTER and VARYING were said. *)
Record alloc_attrs := mkAllocAttrs { charLen : option Expr.t; hasChar : bool; varying_ : bool }.
#[global] Instance eta_alloc_attrs : Eta alloc_attrs := fun r => mkAllocAttrs (charLen r) (hasChar r) (varying_ r).
(** SET or IN with its parenthesis. *)
Definition atOpt (w : string) : pst -> bool := atWord (txt w) &&& next 1 Tok.LParen.
(** [[SET|IN ( reference )]], the locator and the area. *)
Definition set_in : M (option (option Expr.t * option Expr.t)) :=
  let option_ (seen : option Expr.t) (w : string) : M (option Expr.t) :=
    (if bool_decide (is_Some seen)
     then error_here (txt "duplicate " ++ txt w ++ txt " option in ALLOCATE") (txt "(88)") else ret tt);;
    advance;; expect Tok.LParen (txt "(88)");; primary in
  loop (fun '(set, area) =>
    if? atOpt "SET" then
      let* e := option_ set "SET"%string in
      match e with None => resync;; ret (inr None) | Some _ => expect Tok.RParen (txt "(88)");; ret (inl (e, area)) end
    else if? atOpt "IN" then
      let* e := option_ area "IN"%string in
      match e with None => resync;; ret (inr None) | Some _ => expect Tok.RParen (txt "(88)");; ret (inl (set, e)) end
    else ret (inr (Some (set, area)))) (None, None).
(** One axis: [*], an extent, or a pair of bounds. *)
Definition alloc_bound : M (option (AllocBound Expr.t)) :=
  if? here Tok.Star then advance;; ret (Some (mkAllocBound None None true))
  else
    let* first := expression in
    match first with
    | None => failed
    | Some _ =>
        if* eat Tok.Colon then
          let* second := expression in
          match second with None => failed | Some _ => ret (Some (mkAllocBound first second false)) end
        else ret (Some (mkAllocBound None first false))
    end.
Definition alloc_bounds : M (option (list (AllocBound Expr.t))) :=
  loop (fun l =>
    let* b := alloc_bound in
    match b with
    | None => ret (inr None)
    | Some b => if* eat Tok.Comma then ret (inl (l ++ [b])) else ret (inr (Some (l ++ [b])))
    end) [].
Definition alloc_attr (a : alloc_attrs) : M (alloc_attrs + option alloc_attrs) :=
  if? (atWord (txt "CHARACTER") ||| atWord (txt "CHAR")) then
    let a := a <| hasChar := true |> in
    advance;;
    if? here Tok.LParen then
      advance;;
      if? here Tok.Star then advance;; expect Tok.RParen (txt "(89)");; ret (inl a)
      else
        let* e := expression in
        match e, charLen a with
        | None, _ => resync;; ret (inr None)
        | Some _, Some _ =>
            error_here (txt "duplicate CHARACTER length in ALLOCATE") (txt "(89)");; expect Tok.RParen (txt "(89)");; ret (inl a)
        | Some _, None => expect Tok.RParen (txt "(89)");; ret (inl (a <| charLen := e |>))
        end
    else ret (inl a)
  else if? (atWord (txt "VARYING") ||| atWord (txt "VAR")) then advance;; ret (inl (a <| varying_ := true |>))
  else if? (atWord (txt "BIT") ||| atWord (txt "CELL") ||| atWord (txt "AREA") ||| atWord (txt "INITIAL") ||| atWord (txt "INIT")) then
    let* t := get cur in
    error_here (txt "ALLOCATE " ++ Token.text_ t ++ txt " is not implemented in this stage") (txt "(89)");; resync;; ret (inr None)
  else ret (inr (Some a)).
Definition push_alloc (base set area : option Expr.t) (bounds : list (AllocBound Expr.t)) (a : alloc_attrs) : Stmt.t -> Stmt.t :=
  on_alloc (fun o => o <| allocBase := allocBase o ++ [base] |> <| allocSet := allocSet o ++ [set] |>
    <| allocArea := allocArea o ++ [area] |> <| allocBounds := allocBounds o ++ [bounds] |>
    <| allocCharLen := allocCharLen o ++ [charLen a] |> <| allocVarying := allocVarying o ++ [varying_ a] |>
    <| allocHasChar := allocHasChar o ++ [hasChar a] |>).
Definition no_attrs_ : alloc_attrs := mkAllocAttrs None false false.
Definition alloc_base (t : Token.t) : Expr.t :=
  Expr.mk Expr.VarRef (Token.loc t) Ty_default 0 0 0 0 0 [] (Token.text_ t) [] [] None None true false false Tok.Eof None None [].
(** What follows the name of an item. *)
Definition alloc_item (base : option Expr.t) (s : Stmt.t) : M (option Stmt.t) :=
  let* paren := eat Tok.LParen in
  if? (atOpt "SET" ||| atOpt "IN") then
    let* r := set_in in
    match r with
    | None => ret None
    | Some (set, area) =>
        (if paren then expect Tok.RParen (txt "(88)");; ret tt else ret tt);;
        ret (Some (push_alloc base set area [] no_attrs_ s))
    end
  else if paren then
    let* bs := alloc_bounds in
    match bs with
    | None => ret None
    | Some bs =>
        expect Tok.RParen (txt "(89)");;
        let* a := loop alloc_attr no_attrs_ in
        match a with
        | None => ret None
        | Some a =>
            let* r := set_in in
            ret match r with None => None | Some (set, area) => Some (push_alloc base set area bs a s) end
        end
    end
  else
    let* a := loop alloc_attr no_attrs_ in
    ret match a with None => None | Some a => Some (push_alloc base None None [] a s) end.
Definition alloc_name (s : Stmt.t) : M (option Stmt.t) :=
  when (here Tok.Number &&& (fun st => negb (Token.isFloat (cur st))) &&& next 1 Tok.Word)
    (bounded boundedNonNeg (txt "level number") (txt "(89)");; advance);;
  let* t := get cur in
  if bool_decide (Token.kind t = Tok.Word) then advance;; alloc_item (Some (alloc_base t)) s
  else fail_here "expected an identifier after ALLOCATE" "(87)".
Definition parseAllocate : M (option Stmt.t) :=
  let* t := get cur in
  advance;;
  let* r :=
    loop (fun s =>
      let* r := alloc_name s in
      match r with
      | None => ret (inr None)
      | Some s => if* eat Tok.Comma then ret (inl s) else ret (inr (Some s))
      end) (stmt Stmt.Allocate (Token.loc t)) in
  match r with None => ret None | Some s => expect Tok.Semi (txt "(87)");; ret (Some s) end.

Definition free_item (s : Stmt.t) : M (option Stmt.t) :=
  let* e := primary in
  match e with
  | None => failed
  | Some _ =>
      let push area := on_alloc (fun o => o <| freeBase := freeBase o ++ [e] |> <| freeArea := freeArea o ++ [area] |>) s in
      if? atOpt "IN" then
        advance;; expect Tok.LParen (txt "(90)");;
        let* a := primary in
        match a with
        | None => failed
        | Some _ => expect Tok.RParen (txt "(90)");; ret (Some (push a))
        end
      else ret (Some (push None))
  end.
Definition parseFree : M (option Stmt.t) :=
  let* t := get cur in
  advance;;
  let* outer := eat Tok.LParen in
  let* r :=
    loop (fun s =>
      let* r := free_item s in
      match r with
      | None => ret (inr None)
      | Some s => if* eat Tok.Comma then ret (inl s) else ret (inr (Some s))
      end) (stmt Stmt.Free (Token.loc t)) in
  match r with
  | None => ret None
  | Some s =>
      (if outer then expect Tok.RParen (txt "(90)");; ret tt else ret tt);;
      expect Tok.Semi (txt "(90)");; ret (Some s)
  end.
End storage.

Section files.
Context `{Input}.

(** ** DISPLAY, OPEN, CLOSE and the record statements (rules (100)-(114)) *)
Definition parseDisplay : M (option Stmt.t) :=
  let* t := get cur in
  advance;;
  if* expect Tok.LParen (txt "(114)") then
    let* v := expression in
    if* expect Tok.RParen (txt "(114)") then
      let s := (stmt Stmt.Display (Token.loc t)) <| Stmt.value := v |> in
      if? atWord (txt "REPLY") then
        advance;;
        let* r := paren_expr (txt "(114)") in
        match r with
        | Some r => expect Tok.Semi (txt "(114)");; ret (Some (on_file (fun o => o <| replyTarget := r |>) s))
        | None => error_here (txt "expected '(' after REPLY") (txt "(114)");; ret None
        end
      else expect Tok.Semi (txt "(114)");; ret (Some s)
    else ret None
  else ret None.

(** The options of READ, WRITE, REWRITE and DELETE after the data clause. *)
Definition key_option (w : string) (set : option Expr.t -> FileOpts Expr.t -> FileOpts Expr.t) (s : Stmt.t) : M (Stmt.t + option Stmt.t) :=
  advance;;
  let* e := paren_expr (txt "(113)") in
  match e with
  | Some e => ret (inl (on_file (set e) s))
  | None => error_here (txt "expected '(' after " ++ txt w) (txt "(113)");; resync;; ret (inr None)
  end.
Definition record_option (s : Stmt.t) : M (Stmt.t + option Stmt.t) :=
  if? at_end_of_options then ret (inr (Some s))
  else if? atWord (txt "KEY") then key_option "KEY" (fun e o => o <| keyOpt := e |>) s
  else if? atWord (txt "KEYTO") then key_option "KEYTO" (fun e o => o <| keyToOpt := e |>) s
  else if? atWord (txt "KEYFROM") then key_option "KEYFROM" (fun e o => o <| keyFromOpt := e |>) s
  else if? atWord (txt "NOLOCK") then advance;; ret (inl (on_file (fun o => o <| keyNoLock := true |>) s))
  else if? atWord (txt "SET") then advance;; ret (inl (on_file (fun o => o <| keySet := true |>) s))
  else
    let* t := get cur in
    if? (atWord (txt "LOCATE") ||| atWord (txt "UNLOCK") ||| atWord (txt "EVENT")) then
      error_here (txt "record option " ++ Token.text_ t ++ txt " is not implemented in this stage") (txt "(113)");;
      advance;; ret (inl s)
    else
      error_here (txt "record option '" ++ word_or_name t ++ txt "' is not implemented in this stage") (txt "(113)");;
      resync;; ret (inr None).
(** [FILE ( f )], required; and the INTO or FROM clause. *)
Definition record_file (s : Stmt.t) : M Stmt.t :=
  if? atWord (txt "FILE") then
    advance;;
    if* eat Tok.LParen then let* w := file_name [] (txt "(113)") in ret (s <| Stmt.fileIdent := w |>)
    else error_here (txt "expected '(' after FILE") (txt "(113)");; ret s
  else error_here (txt "READ/WRITE/REWRITE/DELETE require a FILE ( f ) option in this stage") (txt "(113)");; ret s.
Definition record_data (isRead : bool) (s : Stmt.t) : M Stmt.t :=
  let want := if isRead then "INTO"%string else "FROM"%string in
  if? atWord (txt want) then
    advance;;
    let* e := paren_expr (txt "(113)") in
    match e with
    | Some e => ret (if isRead then s <| Stmt.target := e |> else s <| Stmt.value := e |>)
    | None => error_here (txt "expected '(' after " ++ txt want) (txt "(113)");; ret s
    end
  else
    error_here ((if isRead then txt "READ requires an INTO ( reference ) option; "
                 else txt "WRITE/REWRITE require a FROM ( expression ) option; ") ++
                txt "it is not implemented otherwise in this stage") (txt "(113)");; ret s.
Definition parseRecordIO : M (option Stmt.t) :=
  let* t := get cur in
  let isRead := Token.isWord t (txt "READ") in
  let isDelete := Token.isWord t (txt "DELETE") in
  let kd := if isRead then Stmt.Read else if Token.isWord t (txt "REWRITE") then Stmt.Rewrite
            else if isDelete then Stmt.Delete else Stmt.Write in
  advance;;
  let* s := record_file (stmt kd (Token.loc t)) in
  let* s := (if isDelete then ret s else record_data isRead s) in
  let* r := loop record_option s in
  match r with None => ret None | Some s => expect Tok.Semi (txt "(112)");; ret (Some s) end.

(** OPEN: the statement so far, and whether FILE and STREAM or PRINT were said. *)
Record open_state := mkOpen { opened : Stmt.t; sawFile : bool; sawStream : bool }.
#[global] Instance eta_open : Eta open_state := fun r => mkOpen (opened r) (sawFile r) (sawStream r).
Definition on_opened (f : FileOpts Expr.t -> FileOpts Expr.t) (s : open_state) : open_state := s <| opened := on_file f (opened s) |>.
Definition open_expr (w : string) (set : option Expr.t -> FileOpts Expr.t -> FileOpts Expr.t) (s : open_state) :
    M (open_state + option open_state) :=
  advance;;
  let* e := paren_expr (txt "(101)") in
  match e with
  | Some e => ret (inl (on_opened (set e) s))
  | None => error_here (txt w ++ txt " requires a parenthesized argument") (txt "(101)");; resync;; ret (inr None)
  end.
Definition open_option (s : open_state) : M (open_state + option open_state) :=
  let flag f := advance;; ret (inl (on_opened f s)) in
  if? at_end_of_options then ret (inr (Some s))
  else if? atWord (txt "FILE") then
    advance;;
    let s := s <| sawFile := true |> in
    if* eat Tok.LParen then
      let* w := file_name (Stmt.fileIdent (opened s)) (txt "(101)") in ret (inl (s <| opened := (opened s) <| Stmt.fileIdent := w |> |>))
    else error_here (txt "expected '(' after FILE") (txt "(101)");; ret (inl s)
  else if? atWord (txt "TITLE") then
    advance;;
    if* eat Tok.LParen then
      let* s := (if? here Tok.CharLit then
                   let* t := get cur in advance;; ret (on_opened (fun o => o <| openTitle := Token.sval t |>) s)
                 else error_here (txt "TITLE requires a character-string constant") (txt "(101)");; ret s) in
      expect Tok.RParen (txt "(101)");; ret (inl s)
    else ret (inl s)
  else if? atWord (txt "INPUT") then flag (fun o => o <| openInput := true |>)
  else if? atWord (txt "OUTPUT") then flag (fun o => o)
  else if? atWord (txt "UPDATE") then flag (fun o => o <| openUpdate := true |>)
  else if? (atWord (txt "STREAM") ||| atWord (txt "PRINT")) then advance;; ret (inl (s <| sawStream := true |>))
  else if? (atWord (txt "RECORD") ||| atWord (txt "SEQUENTIAL")) then flag (fun o => o <| openRecord := true |>)
  else if? atWord (txt "KEYED") then flag (fun o => o <| openKeyed := true |>)
  else if? atWord (txt "DIRECT") then flag (fun o => o <| openDirect := true |>)
  else if? atWord (txt "IDENT") then open_expr "IDENT" (fun e o => o <| openIdent := e |>) s
  else if? atWord (txt "LINESIZE") then open_expr "LINESIZE" (fun e o => o <| openLinesize := e |>) s
  else if? atWord (txt "PAGESIZE") then open_expr "PAGESIZE" (fun e o => o <| openPagesize := e |>) s
  else if? atWord (txt "ENVIRONMENT") then
    error_here (txt "ENVIRONMENT is not an OPEN option (TR 25.084 rule (101))") (txt "(101)");;
    advance;; when (here Tok.LParen) skip_group_here;; ret (inl s)
  else error_here (txt "unexpected token in OPEN statement") (txt "(101)");; resync;; ret (inr None).
(** The combinations that are diagnosed once the options are read. *)
Definition open_conflicts (s : open_state) : list (bool * string * string) :=
  let o := Stmt.file (opened s) in
  let alone := openUpdate o && (negb (openRecord o) || sawStream s) in
  [(negb (sawFile s), "OPEN requires a FILE ( f ) option in this stage", "(101)");
   (openRecord o && sawStream s, "OPEN cannot combine RECORD with STREAM/PRINT in this stage", "(101)");
   (alone, "OPEN ... UPDATE requires the RECORD SEQUENTIAL organisation in this stage", "(101)");
   (negb alone && openUpdate o && openInput o, "OPEN cannot combine INPUT with UPDATE", "(101)")]%string.
Definition parseOpen : M (option Stmt.t) :=
  let* t := get cur in
  advance;;
  let* r := loop open_option (mkOpen (stmt Stmt.Open (Token.loc t)) false false) in
  match r with
  | None => ret None
  | Some s => report_conflicts (Token.loc t) (open_conflicts s);; expect Tok.Semi (txt "(100)");; ret (Some (opened s))
  end.
Definition close_option (s : open_state) : M (open_state + option open_state) :=
  if? at_end_of_options then ret (inr (Some s))
  else if? atWord (txt "FILE") then
    advance;;
    let s := s <| sawFile := true |> in
    if* eat Tok.LParen then
      let* w := file_name (Stmt.fileIdent (opened s)) (txt "(103)") in ret (inl (s <| opened := (opened s) <| Stmt.fileIdent := w |> |>))
    else ret (inl s)
  else
    (if? atWord (txt "IDENT") then error_here (txt "CLOSE option IDENT is not implemented in this stage") (txt "(103)")
     else error_here (txt "unexpected token in CLOSE statement") (txt "(103)"));;
    resync;; ret (inr None).
Definition parseClose : M (option Stmt.t) :=
  let* t := get cur in
  advance;;
  let* r := loop close_option (mkOpen (stmt Stmt.Close (Token.loc t)) false false) in
  match r with
  | None => ret None
  | Some s =>
      report_conflicts (Token.loc t) [(negb (sawFile s), "CLOSE requires a FILE ( f ) option in this stage", "(103)")]%string;;
      expect Tok.Semi (txt "(102)");; ret (Some (opened s))
  end.
End files.

Section control.
Context `{Input}.

(** ** Conditions (rules (91)-(99)) *)
Definition implemented_conditions : list string :=
  ["ERROR"; "SIZE"; "SUBSCRIPTRANGE"; "ZERODIVIDE"; "CONVERSION"; "STRINGRANGE"; "FINISH"; "AREA"; "UNDERFLOW"; "OVERFLOW";
   "FIXEDOVERFLOW"]%string.
(** The name of the condition and the file of a file condition; the name is empty after a
    failure. *)
Definition parseCondition : M (text * text) :=
  let* t := get cur in
  let w := Token.text_ t in
  let l := Token.loc t in
  let none : M (text * text) := ret ([], []) in
  if negb (bool_decide (Token.kind t = Tok.Word)) then report l (txt "expected a condition") (txt "(94)");; none
  else if one_of w implemented_conditions then advance;; ret (w, [])
  else if spells w "CHECK" then
    advance;; when (here Tok.LParen) skip_group_here;;
    report l (txt "CHECK conditions are not implemented in this stage") (txt "(95)");; none
  else if spells w "CONDITION" then
    advance;;
    if* expect Tok.LParen (txt "(99)") then
      let* n := get cur in
      if bool_decide (Token.kind n = Tok.Word) then
        advance;;
        if* expect Tok.RParen (txt "(99)") then
          if one_of (Token.text_ n) implemented_conditions
          then report (Token.loc n) (Token.text_ n ++ txt " is not a valid programmer-named condition") (txt "(99)");; none
          else ret (Token.text_ n, [])
        else none
      else report (Token.loc n) (txt "expected a condition name") (txt "(99)");; none
    else none
  else if one_of w ["ENDFILE"; "UNDEFINEDFILE"]%string then
    advance;;
    if? here Tok.LParen then
      advance;;
      let* f := here_word in
      match f with
      | Some f => advance;; expect Tok.RParen (txt "(97)");; ret (w, f)
      | None => error_here (txt "expected a FILE variable after " ++ w ++ txt "(") (txt "(97)");; none
      end
    else report l (w ++ txt " requires a FILE ( f ) reference") (txt "(97)");; none
  else if one_of w ["ENDPAGE"; "KEY"; "NAME"; "RECORD"; "TRANSMIT"]%string then
    advance;; when (here Tok.LParen) skip_group_here;;
    report l (w ++ txt " conditions are not implemented in this stage") (txt "(97)");; none
  else report l (txt "expected a condition") (txt "(94)");; none.
(** A statement of kind [kd] with its condition; [None] where there is none. *)
Definition condition_stmt (kd : Stmt.Kind) : M (option Stmt.t) :=
  let* t := get cur in
  advance;;
  let* (c, f) := parseCondition in
  if bool_decide (c = []) then failed
  else ret (Some (on_cond (fun o => o <| condName := c |>) ((stmt kd (Token.loc t)) <| Stmt.fileIdent := f |>))).
Definition parseRevert : M (option Stmt.t) :=
  let* r := condition_stmt Stmt.Revert in
  match r with None => ret None | Some s => expect Tok.Semi (txt "(92)");; ret (Some s) end.
Definition parseSignal : M (option Stmt.t) :=
  let* r := condition_stmt Stmt.Signal in
  match r with
  | None => ret None
  | Some s =>
      if? atWord (txt "SET") then
        advance;;
        if? atWord (txt "ONCODE") then
          advance;;
          if* expect Tok.LParen (txt "(93)") then
            let* e := expressionOrPlaceholder in
            if* expect Tok.RParen (txt "(93)") then
              expect Tok.Semi (txt "(93)");; ret (Some (on_cond (fun o => o <| oncodeExpr_ := Some e |>) s))
            else failed
          else failed
        else fail_here "expected ONCODE after SET in a SIGNAL statement" "(93)"
      else expect Tok.Semi (txt "(93)");; ret (Some s)
  end.

(** ** LEAVE, ITERATE, RETURN, STOP, GO TO *)
Definition parseLoopExit (isIterate : bool) : M (option Stmt.t) :=
  let* t := get cur in
  let s := stmt (if isIterate then Stmt.Iterate else Stmt.Leave) (Token.loc t) in
  advance;;
  let* w := here_word in
  let* s := match w with Some w => advance;; ret (s <| Stmt.name := w |>) | None => ret s end in
  if* eat Tok.Semi then ret (Some s)
  else fail_here (if isIterate then "expected ';' after ITERATE (ADR-105)" else "expected ';' after LEAVE (ADR-105)") "".
Definition parseReturn : M (option Stmt.t) :=
  let* t := get cur in
  let s := stmt Stmt.Return (Token.loc t) in
  advance;;
  let* s := (if* eat Tok.LParen then
               let* e := expressionOrPlaceholder in expect Tok.RParen (txt "(81)");; ret (s <| Stmt.value := Some e |>)
             else ret s) in
  expect Tok.Semi (txt "(81)");; ret (Some s).
Definition parseStop : M (option Stmt.t) :=
  let* t := get cur in advance;; expect Tok.Semi (txt "(85)");; ret (Some (stmt Stmt.Stop (Token.loc t))).
(** [GO TO] or [GOTO]: a label, or an expression in parentheses. *)
Definition parseGoto (two_words : bool) : M (option Stmt.t) :=
  let* t := get cur in
  let s := stmt Stmt.Goto (Token.loc t) in
  advance;;
  (if two_words then advance else ret tt);;
  let* w := here_word in
  let* s :=
    match w with
    | Some w => advance;; ret (s <| Stmt.name := w |>)
    | None =>
        if? here Tok.LParen then
          advance;;
          let* e := expressionOrPlaceholder in expect Tok.RParen (txt "(77)");; ret (s <| Stmt.gotoTarget := Some e |>)
        else error_here (if two_words then txt "expected a label after GO TO" else txt "expected a label after GOTO") (txt "(77)");; ret s
    end in
  expect Tok.Semi (txt "(77)");; ret (Some s).

(** ** DEFINE ALIAS and DEFINE CONSTANT (ADR-114, ADR-205) *)
(** What an alias may not be, in the order of the tests. *)
Definition alias_fault (i : DeclItem.t) : option string :=
  let a := DeclItem.att i in
  if negb (bool_decide (DeclItem.typeRef a = [])) then Some "aliases of aliases are not implemented in this stage (ADR-114)"%string
  else if negb (bool_decide (dims (DeclItem.ty i) = [])) || negb (bool_decide (DeclItem.dynBounds i = [])) ||
          negb (bool_decide (DeclItem.dynLbBounds i = [])) then Some "array aliases are not implemented in this stage (ADR-114)"%string
  else if negb (DeclItem.level i =? 0) || bool_decide (is_Some (DeclItem.init i)) || bool_decide (is_Some (DeclItem.initCall i)) ||
          negb (bool_decide (DeclItem.initItems i = [])) || bool_decide (is_Some (DeclItem.valueInit i)) ||
          negb (bool_decide (DeclItem.like a = [])) || negb (bool_decide (DeclItem.definedBase a = [])) ||
          negb (bool_decide (DeclItem.basedBase a = [])) || DeclItem.basedNoPtr a || DeclItem.isEntry i || DeclItem.fileAttr a ||
          negb (bool_decide (DeclItem.entryParams i = []))
  then Some "only scalar data attributes are implemented in DEFINE ALIAS (ADR-114)"%string
  else None.
Definition parseDefineAlias : M (option Stmt.t) :=
  advance;;
  if? atWord (txt "ALIAS") then
    advance;;
    let* i := parseDeclItem in
    match i with
    | None => failed
    | Some i =>
        match alias_fault i with
        | Some msg => report (DeclItem.loc i) (txt msg) [];; failed
        | None =>
            if* eat Tok.Semi
            then ret (Some ((stmt Stmt.DefineAlias (DeclItem.loc i)) <| Stmt.name := DeclItem.name i |> <| Stmt.aliasTy := DeclItem.ty i |>))
            else fail_here "expected ';' after the DEFINE ALIAS statement (ADR-114)" ""
        end
    end
  else fail_here "expected ALIAS after DEFINE (ADR-114)" "".
Definition parseDefineConstant : M (option Stmt.t) :=
  let* t := get cur in
  advance;; advance;;
  let* w := here_word in
  match w with
  | None => fail_here "expected a constant name after DEFINE CONSTANT (ADR-205)" ""
  | Some w =>
      advance;;
      let* e := expression in
      match e with
      | None => failed
      | Some _ =>
          if* eat Tok.Semi then ret (Some ((stmt Stmt.DefineConstant (Token.loc t)) <| Stmt.name := w |> <| Stmt.value := e |>))
          else fail_here "expected ';' after the DEFINE CONSTANT statement (ADR-205)" ""
      end
  end.

(** ** Condition prefixes (rules (60)-(63)) *)
(** One check on (1) or off (-1); the conditions are numbered 0 to 7. *)
Definition set_check (c : Z) (state : Z) (p : Prefixes) : Prefixes :=
  let off := state <? 0 in
  let on := 0 <? state in
  if c =? 0 then p <| noSize := off |> <| chkSize := on |>
  else if c =? 1 then p <| noSub := off |> <| chkSub := on |>
  else if c =? 2 then p <| noZdiv := off |> <| chkZdiv := on |>
  else if c =? 3 then p <| noConv := off |> <| chkConv := on |>
  else if c =? 4 then p <| noUnder := off |> <| chkUnder := on |>
  else if c =? 5 then p <| strRange := state |>
  else if c =? 6 then p <| noOver := off |> <| chkOver := on |>
  else p <| noFOver := off |> <| chkFOver := on |>.
Definition setCond (which state : Z) (p : Prefixes) : Prefixes :=
  if which <? 0 then fold_left (fun p c => set_check c state p) [0; 1; 2; 3; 4; 5; 6; 7] p else set_check which state p.
Definition no_words : list string :=
  ["NOSIZE"; "NOSUBSCRIPTRANGE"; "NOZERODIVIDE"; "NOCONVERSION"; "NOSTRINGRANGE"; "NOUNDERFLOW"; "NOOVERFLOW"; "NOFIXEDOVERFLOW"]%string.
Definition condition_number (w : text) : option Z :=
  if spells w "SIZE" then Some 0
  else if spells w "SUBSCRIPTRANGE" then Some 1
  else if spells w "ZERODIVIDE" then Some 2
  else if spells w "CONVERSION" then Some 3
  else if spells w "UNDERFLOW" then Some 4
  else if spells w "STRINGRANGE" then Some 5
  else if spells w "OVERFLOW" then Some 6
  else if spells w "FIXEDOVERFLOW" then Some 7
  else if spells w "ALL" then Some (-1)
  else None.
(** The words of one prefix read so far. *)
Record prefix_state := mkPrefix {
  pre : Prefixes; anyWord : bool; allHandled : bool; checkMode : bool; noCheckMode : bool; named : bool }.
#[global] Instance eta_prefix_state : Eta prefix_state := fun r =>
  mkPrefix (pre r) (anyWord r) (allHandled r) (checkMode r) (noCheckMode r) (named r).
Definition prefix_word (s : prefix_state) (w : text) : prefix_state :=
  let s := s <| anyWord := true |> in
  if spells w "CHECK" then s <| checkMode := true |> <| noCheckMode := false |> <| named := false |>
  else if spells w "NOCHECK" then s <| noCheckMode := true |> <| checkMode := false |> <| named := false |>
  else
    let no := one_of w no_words in
    match condition_number (if no then skipn 2 w else w) with
    | None => s <| allHandled := false |>
    | Some which =>
        if negb no && negb (checkMode s) && negb (noCheckMode s) && (which <? 0) then s <| allHandled := false |>
        else
          let state := if no then -1 else if checkMode s then 1 else if noCheckMode s then -1 else if which =? 5 then 1 else 0 in
          let s := if checkMode s || noCheckMode s then s <| named := true |> else s in
          if state =? 0 then s else s <| pre := setCond which state (pre s) |>
    end.
Definition prefix_words (ts : list Token.t) (p : Prefixes) : prefix_state :=
  fold_left (fun s t => if bool_decide (Token.kind t = Tok.Word) then prefix_word s (Token.text_ t) else s) ts
    (mkPrefix p false true false false false).
(** [None] where the code returns false. *)
Definition parseCondPrefixes (p : Prefixes) : M (option Prefixes) :=
  loop (fun p =>
    if? here Tok.LParen then
      let* t := get cur in
      let* save := get i_ in
      skip_group_here;;
      if? here Tok.Colon then
        advance;;
        let* upto := get i_ in
        let s := prefix_words (firstn (upto - save) (skipn save toks)) p in
        let p := if noCheckMode s && negb (named s) then setCond (-1) (-1) (pre s) else pre s in
        (if negb (anyWord s) || negb (allHandled s)
         then warn_at (Token.loc t) (txt "condition prefixes are parsed but not yet enforced") (txt "(60)") else ret tt);;
        ret (inl p)
      else report (Token.loc t) (txt "condition prefix must end with ':'") (txt "(60)");; ret (inr None)
    else ret (inr (Some p))) p.

(** ** Labels (rules (64),(65)) *)
(** The signed integers of [( n , ... ]; whether each was one. *)
Definition label_sub : M (option Z) :=
  let* sign := (if? here Tok.Plus then advance;; ret 1 else if? here Tok.Minus then advance;; ret (-1) else ret 1) in
  let* t := get cur in
  if negb (bool_decide (Token.kind t = Tok.Number)) || Token.isFloat t || Token.sterling t || Token.imaginary t then ret None
  else advance;; ret (Some (i64 (sign * strtoll10 t))).
Definition label_subs : M (option (list Z)) :=
  loop (fun l =>
    let* n := label_sub in
    match n with
    | None => ret (inr None)
    | Some n => if* eat Tok.Comma then ret (inl (l ++ [n])) else ret (inr (Some (l ++ [n])))
    end) [].
(** [AR( n , ... ) :]; the tokens are put back when it is something else. *)
Definition label_elem : M (option LabelElem) :=
  let* save := get i_ in
  let* t := get cur in
  advance;; advance;;
  let* l := label_subs in
  let* ok := get (here Tok.RParen &&& next 1 Tok.Colon) in
  match l with
  | Some l => if ok : bool then advance;; advance;; ret (Some (mkLabelElem (Token.text_ t) l None)) else goto_ save;; ret None
  | None => goto_ save;; ret None
  end.
Definition label_prefixes : M (list text * list LabelElem) :=
  loop (fun '(ls, es) =>
    let* t := get cur in
    if? (not_ (fun st => bool_decide (Token.kind (cur st) = Tok.Word))) then ret (inr (ls, es))
    else if? next 1 Tok.Colon then advance;; advance;; ret (inl (ls ++ [Token.text_ t], es))
    else if? not_ (next 1 Tok.LParen) then ret (inr (ls, es))
    else
      let* e := label_elem in
      ret match e with Some e => inl (ls, es ++ [e]) | None => inr (ls, es) end) ([], []).
(** The names of [( a , ... )] in PROCEDURE and ENTRY. *)
Definition parameter_list (rule : string) : M (list text) :=
  if* eat Tok.LParen then
    let* l :=
      loop (fun l =>
        if? (here Tok.RParen ||| here Tok.Eof) then ret (inr l)
        else
          let* w := here_word in
          let* l := match w with
                    | Some w => advance;; ret (l ++ [w])
                    | None => error_here (txt "expected parameter name") (txt rule);; advance;; ret l
                    end in
          if* eat Tok.Comma then ret (inl l) else ret (inr l)) [] in
    expect Tok.RParen (txt rule);; ret l
  else ret [].
End control.
