(* ===== verification/StmtTotal.v ===== *)
(** * The simple statements are total

    Every parser of [StmtParser] returns from every position, and a statement whose first
    token is there consumes it. *)
From S2P Require Import Prelude Monad Types Diag Lexer Ast Constants Stmts ExprParser ExprTotal ParserBase DeclParser DeclTotal StmtParser.

#[local] Set Default Proof Using "Type*".
Section common.
Context `{EndsEof} (lim : nat).
Abbreviation total := (ParserBase.total (S := pst) lim).
Lemma total_expr_list : total expr_list.
Proof. unfold expr_list. totality. Qed.
Lemma total_paren_expr rule : total (paren_expr rule).
Proof. unfold paren_expr. totality. Qed.
Lemma total_file_name old rule : total (file_name old rule).
Proof. unfold file_name. totality. Qed.
Lemma strict_failed {A} : strict lim (failed (A := A)).
Proof. unfold failed. totality. Qed.
Lemma total_failed {A} : total (failed (A := A)).
Proof. unfold failed. totality. Qed.
Lemma strict_fail_here {A} msg rule : strict lim (fail_here (A := A) msg rule).
Proof. unfold fail_here, failed. totality. Qed.
Lemma total_fail_here {A} msg rule : total (fail_here (A := A) msg rule).
Proof. unfold fail_here, failed. totality. Qed.
End common.
#[export] Hint Resolve total_expr_list total_paren_expr total_file_name strict_failed total_failed strict_fail_here total_fail_here : total.

(** ** Format lists *)
Section formats.
Context `{EndsEof}.
Lemma total_picture_item lim : total lim picture_item.
Proof. unfold picture_item. totality. Qed.
Lemma total_remote_item lim : total lim remote_item.
Proof. unfold remote_item. totality. Qed.
Lemma total_sized_item lim kd : total lim (sized_item kd).
Proof. unfold sized_item. totality. Qed.
Lemma total_complex_item lim m : advances lim got m -> total lim (complex_item m).
Proof.
  intros Hm. unfold complex_item. apply total_bind; [totality|]. intros [|]; [|totality]. apply total_bind; [|intros; totality].
  apply total_loop. intros l. eapply steps_advances; [exact Hm| |]; intros [f|] Hx; try done; totality.
Qed.
#[local] Hint Resolve total_picture_item total_remote_item total_sized_item : total.
(** A word is consumed where the token is one. *)
Lemma singleItem_advances n : forall lim, (lim <= n)%nat -> advances lim got (singleItem n).
Proof.
  induction n as [|n IH]; intros lim Hn; [assert (lim = 0%nat) as -> by lia; apply advances_zero|]. cbn [singleItem].
  intros st Hi. apply wp_bind, wp_get. cbv zeta. case_bool_decide as Ek; cbn [negb].
  - assert (is_at toks Tok.Eof (pos st) = false) as He by (cbn; unfold is_at; rewrite Ek; by apply bool_decide_eq_false).
    destruct (spells _ "P"); [|destruct (format_word _) as [kd|]].
    + match goal with |- wp ?m st _ => enough (advances_in lim got m) as Ha by (by apply Ha) end. apply advances_strict. totality.
    + assert (forall k : M (option (FormatItem.t Expr.t)), ParserBase.total (pred lim) k -> wp (advance;; k) st (fun r st' => follows st st' /\ (got r = true -> (i_ (pos st) < i_ (pos st'))%nat))) as Hadv.
      { intros k Hk. apply wp_bind. eapply wp_mono; [by apply (strict_advance lim)|]. intros [] st1 [F1 C1].
        apply (wp_total (pred lim)); [done|by eapply within_pred|]. intros r st2 F2. split; [by eapply follows_trans|].
        intros _. pose proof (follows_le _ _ F2). lia. }
      apply Hadv. destruct kd; try totality. apply total_complex_item, IH. lia.
    + match goal with |- wp ?m st _ => enough (advances lim got m) as Ha by (by apply Ha) end; apply advances_stays; [done|totality].
  - match goal with |- wp ?m st _ => enough (advances lim got m) as Ha by (by apply Ha) end; apply advances_stays; [done|totality].
Qed.
Lemma total_parseSingleFormatItem lim : total lim parseSingleFormatItem.
Proof.
  intros st Hi. apply wp_bind, wp_get. eapply wp_mono.
  - apply (singleItem_advances _ (fuel_left toks st)); [lia|]. destruct Hi as (? & ? & ?). split; [done|]. split; [cbn; unfold fuel_left; lia|done].
  - by intros r st' [F _].
Qed.
#[local] Hint Resolve total_parseSingleFormatItem : total.
Lemma total_format_items lim item out : (forall l, total lim (item l)) -> total lim (format_items item out).
Proof. intros Hi. unfold format_items. totality. Qed.
Lemma total_formatItem n : forall lim out, (lim <= n)%nat -> total lim (formatItem n out).
Proof.
  induction n as [|n IH]; intros lim out Hn; [assert (lim = 0%nat) as -> by lia; apply total_zero|]. cbn [formatItem].
  apply total_after; [auto with total nocore|auto with total nocore| |totality]. intros _.
  apply total_bind; [totality|]. intros count. apply total_bind; [totality|]. intros [|]; [|totality].
  apply total_bind; [totality|]. intros [|]; [|totality].
  apply total_bind; [apply total_format_items; intros l; apply IH; lia|]. intros g. totality.
Qed.
Lemma total_parseFormatItemInto lim out : total lim (parseFormatItemInto out).
Proof.
  intros st Hi. apply wp_bind, wp_get. apply (total_formatItem _ (fuel_left toks st)); [lia|].
  destruct Hi as (? & ? & ?). split; [done|]. split; [cbn; unfold fuel_left; lia|done].
Qed.
#[local] Hint Resolve total_parseFormatItemInto : total.
Lemma total_formats lim out : total lim (format_items parseFormatItemInto out).
Proof. apply total_format_items. intros l. auto with total nocore. Qed.
#[local] Hint Resolve total_formats : total.
Lemma strict_parseFormatStmt lim labels : strict lim (parseFormatStmt labels).
Proof. unfold parseFormatStmt. totality. Qed.
Lemma strict_parseEditClause lim s : strict lim (parseEditClause s).
Proof. unfold parseEditClause. totality. Qed.
#[local] Hint Resolve strict_parseEditClause : total.
Lemma total_stream_list lim rule s : total lim (stream_list rule s).
Proof. unfold stream_list. totality. Qed.
#[local] Hint Resolve total_stream_list : total.
Lemma strict_stream_option lim put s : strict lim (stream_option put s).
Proof. unfold stream_option. totality. Qed.
Lemma strict_parseStream lim put : strict lim (parseStream put).
Proof.
  unfold parseStream. apply strict_stays; [totality|]. intros t. apply strict_bind; [totality|]. intros _.
  apply total_bind; [|intros; totality]. apply total_loop. intros s.
  apply steps_strict_not; [apply not_eof_not_r|totality|]. apply strict_bind; [apply strict_stream_option|]. intros; totality.
Qed.
Lemma strict_parsePut lim : strict lim parsePut.
Proof. apply strict_parseStream. Qed.
Lemma strict_parseGet lim : strict lim parseGet.
Proof. apply strict_parseStream. Qed.
End formats.
#[export] Hint Resolve strict_parseFormatStmt strict_parsePut strict_parseGet : total.

(** ** CALL, WAIT, DELAY, assignment *)
Section calls.
Context `{EndsEof} (lim : nat).
Abbreviation total := (ParserBase.total (S := pst) lim).
Abbreviation strict := (ParserBase.strict (S := pst) lim).

Lemma total_star_or_expr : total star_or_expr.
Proof. unfold star_or_expr. totality. Qed.
#[local] Hint Resolve total_star_or_expr : total.
Lemma steps_call_option s : steps lim (call_option s).
Proof. unfold call_option, duplicate_option. totality. Qed.
#[local] Hint Resolve steps_call_option : total.
Lemma strict_parseCall : strict parseCall.
Proof. unfold parseCall. totality. Qed.
Lemma total_primaries l : total (primaries l).
Proof. unfold primaries. totality. Qed.
#[local] Hint Resolve total_primaries : total.
Lemma strict_parseWait : strict parseWait.
Proof. unfold parseWait. totality. Qed.
Lemma strict_parseDelay : strict parseDelay.
Proof. unfold parseDelay. totality. Qed.
Lemma total_by_name : total by_name.
Proof. unfold by_name. totality. Qed.
#[local] Hint Resolve total_by_name : total.
Lemma total_more_targets : total more_targets.
Proof. unfold more_targets. totality. Qed.
#[local] Hint Resolve total_more_targets : total.
Lemma strict_parseAssignment : strict parseAssignment.
Proof.
  unfold parseAssignment. apply strict_stays; [totality|]. intros t. eapply strict_advances; [apply advances_primary|intros x; totality|].
  intros [e|] He; [done|totality].
Qed.
Lemma total_parseAssignment : total parseAssignment.
Proof. unfold parseAssignment. totality. Qed.

(** ** ALLOCATE and FREE *)
Lemma not_eof_atOpt w : not_eof (atOpt w).
Proof. unfold atOpt. auto with total nocore. Qed.
#[local] Hint Resolve not_eof_atOpt : total.
Lemma total_set_in : total set_in.
Proof. unfold set_in. apply total_loop. intros [set area]. totality. Qed.
#[local] Hint Resolve total_set_in : total.
Lemma total_alloc_bound : total alloc_bound.
Proof. unfold alloc_bound. totality. Qed.
#[local] Hint Resolve total_alloc_bound : total.
Lemma total_alloc_bounds : total alloc_bounds.
Proof. unfold alloc_bounds. totality. Qed.
#[local] Hint Resolve total_alloc_bounds : total.
Lemma steps_alloc_attr a : steps lim (alloc_attr a).
Proof. unfold alloc_attr. totality. Qed.
#[local] Hint Resolve steps_alloc_attr : total.
Lemma total_alloc_item base s : total (alloc_item base s).
Proof. unfold alloc_item. totality. Qed.
#[local] Hint Resolve total_alloc_item : total.
Lemma total_alloc_name s : total (alloc_name s).
Proof. unfold alloc_name. totality. Qed.
#[local] Hint Resolve total_alloc_name : total.
Lemma strict_parseAllocate : strict parseAllocate.
Proof. unfold parseAllocate. totality. Qed.
Lemma total_free_item s : total (free_item s).
Proof. unfold free_item. totality. Qed.
#[local] Hint Resolve total_free_item : total.
Lemma strict_parseFree : strict parseFree.
Proof. unfold parseFree. totality. Qed.

(** ** Files *)
Lemma strict_parseDisplay : strict parseDisplay.
Proof. unfold parseDisplay. totality. Qed.
Lemma strict_key_option w set s : strict (key_option w set s).
Proof. unfold key_option. totality. Qed.
#[local] Hint Resolve strict_key_option : total.
(** The options of a file statement end before the end of the file. *)
Lemma steps_options {A B} (r : B) (m : M (A + B)) : strict m -> steps lim (if? at_end_of_options then ret (inr r) else m).
Proof. intros Hm. apply steps_strict_not; [apply not_eof_not_r|totality|done]. Qed.
Lemma steps_record_option s : steps lim (record_option s).
Proof. apply steps_options. totality. Qed.
#[local] Hint Resolve steps_record_option : total.
Lemma total_record_file s : total (record_file s).
Proof. unfold record_file. totality. Qed.
Lemma total_record_data b s : total (record_data b s).
Proof. unfold record_data. totality. Qed.
#[local] Hint Resolve total_record_file total_record_data : total.
Lemma strict_parseRecordIO : strict parseRecordIO.
Proof. unfold parseRecordIO. totality. Qed.
Lemma strict_open_expr w set s : strict (open_expr w set s).
Proof. unfold open_expr. totality. Qed.
#[local] Hint Resolve strict_open_expr : total.
Lemma steps_open_option s : steps lim (open_option s).
Proof. apply steps_options. totality. Qed.
Lemma steps_close_option s : steps lim (close_option s).
Proof. apply steps_options. totality. Qed.
#[local] Hint Resolve steps_open_option steps_close_option total_report_conflicts : total.
Lemma strict_parseOpen : strict parseOpen.
Proof. unfold parseOpen. totality. Qed.
Lemma strict_parseClose : strict parseClose.
Proof. unfold parseClose. totality. Qed.

(** ** Conditions and control *)
Lemma total_parseCondition : total parseCondition.
Proof. unfold parseCondition. totality. Qed.
#[local] Hint Resolve total_parseCondition : total.
Lemma strict_condition_stmt kd : strict (condition_stmt kd).
Proof. unfold condition_stmt. totality. Qed.
#[local] Hint Resolve strict_condition_stmt : total.
Lemma strict_parseRevert : strict parseRevert.
Proof. unfold parseRevert. totality. Qed.
Lemma strict_parseSignal : strict parseSignal.
Proof. unfold parseSignal. totality. Qed.
Lemma strict_parseLoopExit b : strict (parseLoopExit b).
Proof. unfold parseLoopExit. totality. Qed.
Lemma strict_parseReturn : strict parseReturn.
Proof. unfold parseReturn. totality. Qed.
Lemma strict_parseStop : strict parseStop.
Proof. unfold parseStop. totality. Qed.
Lemma strict_parseGoto b : strict (parseGoto b).
Proof. unfold parseGoto. totality. Qed.
Lemma strict_parseDefineAlias : strict parseDefineAlias.
Proof. unfold parseDefineAlias. totality. Qed.
Lemma strict_parseDefineConstant : strict parseDefineConstant.
Proof. unfold parseDefineConstant. totality. Qed.

(** ** Prefixes and labels *)
Lemma total_parseCondPrefixes p : total (parseCondPrefixes p).
Proof.
  unfold parseCondPrefixes. totality.
Qed.
Lemma total_label_sub : total label_sub.
Proof. unfold label_sub. totality. Qed.
#[local] Hint Resolve total_label_sub : total.
Lemma total_label_subs : total label_subs.
Proof. unfold label_subs. totality. Qed.
#[local] Hint Resolve total_label_subs : total.
(** A label in parentheses is taken whole or put back. *)
Lemma label_elem_spec st : within lim st ->
  wp label_elem st (fun r st' => follows st st' /\ (got r = true -> (i_ st < i_ st')%nat)).
Proof.
  intros Hi. apply wp_bind, wp_get, wp_bind, wp_get, wp_bind. apply wp_advance; [apply Hi|]. intros st1 F1 C1.
  assert (within lim st1) as Hi1 by (by apply (follows_within lim st)).
  apply wp_bind. apply (wp_total lim); [totality|done|]. intros [] st2 F2. assert (follows st st2) as G2 by (by eapply follows_trans).
  apply wp_bind. apply (wp_total lim); [totality|by apply (follows_within lim st)|]. intros l st3 F3.
  assert (follows st st3) as G3 by (by eapply follows_trans). apply wp_bind, wp_get.
  assert (wp (goto_ (i_ st);; ret None) st3 (fun (r : option LabelElem) st' => follows st st' /\ (got r = true -> (i_ st < i_ st')%nat))) as Hback.
  { apply wp_bind. eapply wp_mono; [apply (from_goto lim st Hi st3); [by apply (follows_within lim st)|done]|]. intros [] st4 F4.
    by apply wp_ret. }
  destruct l as [l|]; [|done]. destruct (_ &&& _) eqn:E; [|done].
  apply wp_bind. eapply wp_mono; [apply (strict_advance lim st3); [by apply (follows_within lim st)|]|].
  { apply andb_true_iff in E as [E _]. by apply (not_eof_here Tok.RParen). }
  intros [] st4 [F4 C4]. apply wp_bind. apply (wp_total lim); [totality|apply (follows_within lim st3); [by apply (follows_within lim st)|done]|].
  intros [] st5 F5. apply wp_ret. split; [eapply follows_trans; [exact G3|by eapply follows_trans]|]. intros _.
  pose proof (follows_le _ _ G3). pose proof (follows_le _ _ F5). cbn in *. lia.
Qed.
Lemma advances_label_elem : advances lim got label_elem.
Proof. intros st Hi. by apply label_elem_spec. Qed.
Lemma total_label_prefixes : total label_prefixes.
Proof.
  apply total_loop. intros [ls es]. apply steps_bind; [totality|]. intros t.
  apply steps_unless; [|totality|].
  { intros st E. unfold not_ in E. rewrite negb_involutive in E. apply bool_decide_eq_true in E. unfold is_at. rewrite E. by apply bool_decide_eq_false. }
  apply steps_in_if; [totality|]. apply steps_in_steps, steps_bind; [totality|]. intros [|]; [totality|].
  eapply steps_advances; [apply advances_label_elem| |]; intros [e|] He; try done; totality.
Qed.
Lemma total_parameter_list rule : total (parameter_list rule).
Proof. unfold parameter_list. totality. Qed.
End calls.
#[export] Hint Resolve strict_parseCall strict_parseWait strict_parseDelay strict_parseAssignment total_parseAssignment strict_parseAllocate
  strict_parseFree strict_parseDisplay strict_parseRecordIO strict_parseOpen strict_parseClose strict_condition_stmt strict_parseRevert
  strict_parseSignal strict_parseLoopExit strict_parseReturn strict_parseStop strict_parseGoto strict_parseDefineAlias
  strict_parseDefineConstant total_parseCondPrefixes total_label_prefixes total_parameter_list : total.
