(* ===== verification/BlockParser.v ===== *)
(** * The parser ([src/parser.cpp])

    The whole parser object over the simple statements of [StmtParser]: bodies and their END
    clauses with multiple closure, IF, DO, SELECT, BEGIN, ON, nested procedures, the
    speculative parse of an ambiguous keyword, external procedures and packages.  The
    recursion is open: every construct is written over the statement parser [self], and
    [parseStatement] closes it with one unit of fuel per level. *)
From S2P Require Import Prelude Monad Types Diag Lexer Ast Constants Stmts ExprParser ParserBase DeclParser StmtParser.

(** ** The parser object *)
(** An END clause; [label] names an enclosing block. *)
Record EndInfo := mkEnd { present : bool; label : text; endLabels : list text; end_loc : SourceLoc }.
Definition no_end : EndInfo := mkEnd false [] [] (mkLoc 0 0).
(** The members of [Parser].  A procedure is its index in [prog_]; [crashed_] records that a
    null pointer was dereferenced, and [dangling_] that [mainProc] points to a procedure that
    was destroyed: from there on the run has no meaning in C++. *)
Record parser := mkParser {
  pst_ : pst; blockDepth_ : Z; prog_ : Program; pendingEnd_ : EndInfo; endClauseLabels_ : list text;
  procStrRange_ : Z; procCond_ : list Z; crashed_ : bool; dangling_ : bool }.
#[global] Instance eta_parser : Eta parser := fun r => mkParser
  (pst_ r) (blockDepth_ r) (prog_ r) (pendingEnd_ r) (endClauseLabels_ r) (procStrRange_ r) (procCond_ r) (crashed_ r) (dangling_ r).
#[global] Instance eta_program : Eta Program := fun r => mkProgram (procs r) (defines r) (mainProc r) (condNames r).
#[global] Instance eta_end : Eta EndInfo := fun r => mkEnd (present r) (label r) (endLabels r) (end_loc r).
#[global] Instance eta_entry : Eta EntryOpts := fun r => mkEntryOpts (params r) (entryIsFunction r) (entryRetTy r) (entryParamSyms r).
#[global] Instance eta_proc : Eta Proc.t := fun r => Proc.mk
  (Proc.name r) (Proc.loc r) (Proc.isMain r) (Proc.isExternal r) (Proc.isRecursive r) (Proc.isFunction r) (Proc.retTy r)
  (Proc.returnsStructName r) (Proc.params r) (Proc.isPackage r) (Proc.exports r) (Proc.entryNames r) (Proc.body r)
  (Proc.parent r) (Proc.paramSyms r) (Proc.localSyms r) (Proc.directUses r) (Proc.env r) (Proc.irName r).
Abbreviation P := (ST parser).

(** What no statement changes: the scope it is parsed in, the main procedure once there is
    one, and the procedures that were started before it. *)
Definition scope_same (a b : parser) : Prop :=
  blockDepth_ b = blockDepth_ a /\ procStrRange_ b = procStrRange_ a /\ procCond_ b = procCond_ a /\
  defines (prog_ b) = defines (prog_ a) /\ condNames (prog_ b) = condNames (prog_ a) /\
  (is_Some (mainProc (prog_ a)) -> mainProc (prog_ b) = mainProc (prog_ a)) /\
  (crashed_ a = true -> crashed_ b = true) /\ (dangling_ a = true -> dangling_ b = true).
Definition scope_kept (a b : parser) : Prop := scope_same a b /\ procs (prog_ a) `prefix_of` procs (prog_ b).
#[global] Instance parser_positioned : Positioned parser := mkPositioned parser pst_ scope_kept.

(** A parser of [StmtParser] run on the position; a crash is recorded. *)
Definition lift {A} (m : M A) : P A := fun s =>
  match m (pst_ s) with Some (x, st) => Some (x, s <| pst_ := st |>) | None => None end.
Definition set_end (e : EndInfo) : P unit := modify (fun s => s <| pendingEnd_ := e |>).
Definition set_end_labels (l : list text) : P unit := modify (fun s => s <| endClauseLabels_ := l |>).
Definition lift_outcome {A} (m : M (Outcome A)) : P (option A) :=
  let* r := lift m in
  match r with
  | Done x => ret (Some x)
  | Failed => ret None
  | Crash => modify (fun s => s <| crashed_ := true |>);; ret None
  end.

(** ** Procedures *)
Definition new_proc (name : text) (loc : SourceLoc) (parent : option nat) : Proc.t :=
  Proc.mk name loc false false false false Ty_default [] [] false [] [] [] parent [] [] [] [] [].
Definition on_procs (f : list Proc.t -> list Proc.t) : P unit := modify (fun s => s <| prog_ := (prog_ s) <| procs := f (procs (prog_ s)) |> |>).
Definition set_proc (p : nat) (f : Proc.t -> Proc.t) : P unit := on_procs (alter f p).
Definition startProc (name : text) (loc : SourceLoc) (parent : option nat) : P nat :=
  let* p := get (fun s => length (procs (prog_ s))) in
  on_procs (fun l => l ++ [new_proc name loc parent]);; ret p.

(** [ProcCondGuard]: what a prefix on PROCEDURE sets. *)
Definition guard_entry (no chk : bool) (old : Z) : Z := if no then 1 else if chk then 2 else old.
Definition ProcCondGuard (p : Prefixes) (s : list Z) : list Z :=
  zip_with (fun '(no, chk) old => guard_entry no chk old)
    [(noSize p, chkSize p); (noSub p, chkSub p); (noZdiv p, chkZdiv p); (noConv p, chkConv p); (noUnder p, chkUnder p);
     (noOver p, chkOver p); (noFOver p, chkFOver p)] s.
(** [RangeGuard]: run [m] with STRINGRANGE as prefix [p] has it, then restore it. *)
Definition in_range {A} (p : Prefixes) (m : P A) : P A :=
  let* outer := get procStrRange_ in
  modify (fun s => s <| procStrRange_ := if strRange p =? 0 then outer else strRange p |>);;
  let* x := m in
  modify (fun s => s <| procStrRange_ := outer |>);; ret x.
(** Run [m] in the scope of prefix [p], then restore the scope. *)
Definition in_scope {A} (p : Prefixes) (m : P A) : P A :=
  let* outer := get procStrRange_ in
  let* saved := get procCond_ in
  modify (fun s => s <| procStrRange_ := if strRange p =? 0 then outer else strRange p |> <| procCond_ := ProcCondGuard p saved |>);;
  let* x := m in
  modify (fun s => s <| procStrRange_ := outer |> <| procCond_ := saved |>);; ret x.

Section options.
Context `{Input}.

(** OPTIONS( ... ): the word MAIN anywhere in the group (rule (5)). *)
Definition options_round (r : Z * bool) : M ((Z * bool) + bool) :=
  let '(depth, main) := r in
  if? here Tok.Eof then ret (inr main)
  else if negb (0 <? depth) then ret (inr main)
  else
    let* t := get cur in
    advance;;
    ret (inl match Token.kind t with
             | Tok.LParen => (depth + 1, main)
             | Tok.RParen => (depth - 1, main)
             | _ => (depth, main || Token.isWord t (txt "MAIN"))
             end).
(** RETURNS( ... ) of a procedure (rules (34),(127)). *)
Definition proc_returns (p : Proc.t) : M Proc.t :=
  if* expect Tok.LParen (txt "(34)") then
    let p := p <| Proc.isFunction := true |> in
    let* p :=
      (if? names_structure then let* t := get cur in advance;; ret (p <| Proc.returnsStructName := Token.text_ t |>)
       else
         let* t := parseDescriptorType in
         let* t :=
           (if isBit t && (1 <? len t) then
              report (Proc.loc p) (txt "RETURNS of a BIT(n>1) value is not implemented in this stage") (txt "(34)");; ret (bit 1)
            else if starLen t && negb (varying t) then
              report (Proc.loc p) (txt "RETURNS of CHAR(*) is not implemented in this stage") (txt "(34)");; ret (chr 1 false)
            else ret t) in
         ret (p <| Proc.retTy := t |>)) in
    expect Tok.RParen (txt "(34)");; ret p
  else ret p.
Definition proc_option (p : Proc.t) : M (Proc.t + Proc.t) :=
  if? at_end_of_options then ret (inr p)
  else if? atWord (txt "OPTIONS") then
    advance;;
    if* expect Tok.LParen (txt "(5)") then
      let* main := loop options_round (1, Proc.isMain p) in ret (inl (p <| Proc.isMain := main |>))
    else ret (inl p)
  else if? atWord (txt "RECURSIVE") then advance;; ret (inl (p <| Proc.isRecursive := true |>))
  else if? atWord (txt "RETURNS") then advance;; let* p := proc_returns p in ret (inl p)
  else
    let* t := get cur in
    warn_at (Token.loc t) (txt "ignoring unsupported procedure option '" ++ word_or_name t ++ txt "'") (txt "(5)");;
    advance;; ret (inl p).
Definition proc_options (p : Proc.t) : M Proc.t :=
  let* l := parameter_list "(4)" in
  let* p := loop proc_option (p <| Proc.params := l |>) in
  expect Tok.Semi (txt "(2)");; ret p.
(** The options go into procedure [p]; the first MAIN procedure is the program's. *)
Definition parseProcOptions (p : nat) (q : Proc.t) : P unit :=
  let* q := lift (proc_options q) in
  set_proc p (fun _ => q);;
  modify (fun s => match Proc.isMain q, mainProc (prog_ s) with
                   | true, None => s <| prog_ := (prog_ s) <| mainProc := Some p |> |>
                   | _, _ => s
                   end).

(** END [label] ; *)
Definition end_clause : M EndInfo :=
  let* t := get cur in
  advance;;
  let* w := here_word in
  let* l := match w with Some w => advance;; ret w | None => ret [] end in
  expect Tok.Semi (txt "(7)");; ret (mkEnd true l [] (Token.loc t)).
(** A label that names the block itself is its own END. *)
Definition own_end (ownName : text) (e : EndInfo) : EndInfo := if text_eqb (label e) ownName then e <| label := [] |> else e.
Definition kMaxBlockDepth : Z := 128.
Definition null_stmt (loc : SourceLoc) (labels : list text) : Stmt.t := (stmt Stmt.Null loc) <| Stmt.labels := labels |>.
Definition first_label (labels : list text) : text := match labels with l :: _ => l | [] => [] end.
Definition kw (probe : bool) (w : string) : pst -> bool := fun st => if probe then atWord (txt w) st else atStmtKeyword (txt w) st.
(** The IF-chain that SELECT is turned into: the arms, and what follows the last. *)
Fixpoint if_chain (arms : list Stmt.t) (els : option Stmt.t) : option Stmt.t :=
  match arms with
  | [] => None
  | [a] => Some (a <| Stmt.elseS := els |>)
  | a :: arms => Some (a <| Stmt.elseS := if_chain arms els |>)
  end.
End options.

Section clauses.
Context `{Input}.

(** [IF expr THEN]. *)
Definition if_clause : M (option Stmt.t) :=
  let* t := get cur in
  advance;;
  let* c := expression in
  if? atWord (txt "THEN") then advance;; ret (Some ((stmt Stmt.If (Token.loc t)) <| Stmt.cond := c |>))
  else
    let* u := get cur in
    error_fix (Token.loc u) (txt "expected THEN") (txt "(75)") (txt "THEN ");; failed.
(** [ON condition [SNAP]], and whether SYSTEM ends the statement. *)
Definition on_clause : M (option (Stmt.t * bool)) :=
  let* r := condition_stmt Stmt.On in
  match r with
  | None => ret None
  | Some s =>
      let* s :=
        (if? atWord (txt "SNAP") then
           let* t := get cur in
           advance;;
           warn_at (Token.loc t) (txt "SNAP is accepted but has no effect in this stage") (txt "(91)");;
           ret (on_cond (fun o => o <| snap := true |>) s)
         else ret s) in
      if? (atWord (txt "SYSTEM") &&& next 1 Tok.Semi) then
        advance;; expect Tok.Semi (txt "(91)");; ret (Some (on_cond (fun o => o <| isSystem := true |>) s, true))
      else ret (Some (s, false))
  end.

(** The heads of DO (rules (69)-(73)). *)
Definition paren_cond (rule : string) (s : Stmt.t) : M Stmt.t :=
  if* expect Tok.LParen (txt rule) then
    let* e := expression in expect Tok.RParen (txt rule);; ret (s <| Stmt.cond := e |>)
  else ret s.
Definition do_while (s : Stmt.t) : M (option Stmt.t) :=
  advance;;
  let* s := paren_cond "(71)" (s <| Stmt.kind := Stmt.DoWhile |>) in
  if? atWord (txt "UNTIL")
  then fail_here "DO with both WHILE and UNTIL is not implemented in this stage (ADR-106)" ""
  else expect Tok.Semi (txt "(71)");; ret (Some s).
Definition do_until (s : Stmt.t) : M (option Stmt.t) :=
  advance;;
  if* eat Tok.LParen then
    let* e := expression in
    if* eat Tok.RParen then
      if? atWord (txt "WHILE") then fail_here "DO with both UNTIL and WHILE is not implemented in this stage (ADR-106)" ""
      else if* eat Tok.Semi then ret (Some (s <| Stmt.kind := Stmt.DoWhile |> <| Stmt.until := true |> <| Stmt.cond := e |>))
      else fail_here "expected ';' after UNTIL ( expr ) (ADR-106)" ""
    else fail_here "expected ')' after the UNTIL condition (ADR-106)" ""
  else fail_here "expected '(' after UNTIL (ADR-106)" "".
Definition do_forever (s : Stmt.t) : M (option Stmt.t) :=
  advance;;
  if? (atWord (txt "WHILE") ||| atWord (txt "UNTIL"))
  then fail_here "DO FOREVER cannot be combined with WHILE/UNTIL (ADR-370)" ""
  else if* eat Tok.Semi then ret (Some (s <| Stmt.kind := Stmt.DoWhile |> <| Stmt.forever := true |>))
  else fail_here "expected ';' after DO FOREVER (ADR-370)" "".
Definition iteration (s : Stmt.t) : M (Stmt.t + option Stmt.t) :=
  let stop (msg : string) : M (Stmt.t + option Stmt.t) := error_here (txt msg) [];; resync;; ret (inr None) in
  if? atWord (txt "TO") then advance;; let* e := expression in ret (inl (s <| Stmt.to := e |>))
  else if? atWord (txt "BY") then advance;; let* e := expression in ret (inl (s <| Stmt.by_ := e |>))
  else if? atWord (txt "WHILE") then advance;; let* s := paren_cond "(73)" s in ret (inl s)
  else if? atWord (txt "UNTIL") then stop "DO with an iterative specification and UNTIL is not implemented in this stage (ADR-106)"%string
  else if? atWord (txt "FOREVER") then stop "DO FOREVER cannot be combined with an iterative specification (ADR-370)"%string
  else ret (inr (Some s)).
Definition do_iterative (w : text) (s : Stmt.t) : M (option Stmt.t) :=
  advance;;
  if* expect Tok.Eq (txt "(72)") then
    let* e := expression in
    let* r := loop iteration (s <| Stmt.kind := Stmt.DoIter |> <| Stmt.name := w |> <| Stmt.from := e |>) in
    match r with
    | None => ret None
    | Some s =>
        if? here Tok.Comma then fail_here "multiple DO specifications are not implemented in this stage" "(72)"
        else expect Tok.Semi (txt "(71)");; ret (Some s)
    end
  else failed.
Definition do_clause : M (option Stmt.t) :=
  let* t := get cur in
  advance;;
  let s := stmt Stmt.Group (Token.loc t) in
  if* eat Tok.Semi then ret (Some s)
  else if? atWord (txt "WHILE") then do_while s
  else if? atWord (txt "UNTIL") then do_until s
  else if? atWord (txt "FOREVER") then do_forever s
  else
    let* w := here_word in
    match w with
    | Some w => do_iterative w s
    | None => fail_here "malformed DO statement" "(71)"
    end.

(** [SELECT [( expr )] ;]: the expression, if there is one. *)
Definition select_clause : M (option (option Expr.t)) :=
  let semi (e : option Expr.t) : M (option (option Expr.t)) :=
    if* eat Tok.Semi then ret (Some e) else fail_here "expected ';' after SELECT (ADR-104)" "" in
  advance;;
  if* eat Tok.LParen then
    let* e := expressionOrPlaceholder in
    if* eat Tok.RParen then semi (Some e) else fail_here "expected ')' after the SELECT expression (ADR-104)" ""
  else semi None.
(** The predicate of a WHEN with values: a chain of comparisons.  A value that failed to
    parse is dereferenced. *)
Fixpoint when_predicate (sel : Expr.t) (vals : list (option Expr.t)) (pred : option Expr.t) : Outcome (option Expr.t) :=
  match vals with
  | [] => Done pred
  | None :: _ => Crash
  | Some v :: vals =>
      let eq := op_node Expr.Binary (Expr.loc v) Tok.Eq (Some (cloneExpr sel)) (Some v) in
      when_predicate sel vals
        (Some match pred with None => eq | Some p => op_node Expr.Binary (Expr.loc eq) Tok.Bar (Some p) (Some eq) end)
  end.
Definition when_clause (sel : option Expr.t) : M (Outcome (option Expr.t)) :=
  let fail (msg : string) : M (Outcome (option Expr.t)) := error_here (txt msg) [];; resync;; ret Failed in
  advance;;
  if* eat Tok.LParen then
    let* vals := loop (fun l => let* e := expression in if* eat Tok.Comma then ret (inl (l ++ [e])) else ret (inr (l ++ [e]))) [] in
    if* eat Tok.RParen then
      match sel, vals with
      | Some sel, _ => ret (when_predicate sel vals None)
      | None, [v] => ret (Done v)
      | None, _ => fail "WHEN with multiple values needs SELECT ( expr ) (ADR-104)"%string
      end
    else fail "expected ')' after the WHEN values (ADR-104)"%string
  else fail "expected '(' after WHEN (ADR-104)"%string.
(** The END of a SELECT: what it closes beyond, [None] after a failure. *)
Definition select_end : M (option EndInfo) :=
  let* t := get cur in
  advance;;
  let* w := here_word in
  let* l := match w with Some w => advance;; ret w | None => ret [] end in
  if* eat Tok.Semi then ret (Some (mkEnd true l [] (Token.loc t))) else fail_here "expected ';' after END" "(7)".
Definition atWhen (w : string) : pst -> bool := atWord (txt w) &&& not_ looksLikeAssignment.

(** The ENTRY statement (rule (56)). *)
Definition entry_clause (s : Stmt.t) : M Stmt.t :=
  advance;;
  let* l := parameter_list "(56)" in
  let s := s <| Stmt.entry := (Stmt.entry s) <| params := l |> |> in
  let* s :=
    (if? atWord (txt "RETURNS") then
       advance;;
       if* expect Tok.LParen (txt "(56)") then
         let* t := parseDescriptorType in
         expect Tok.RParen (txt "(56)");;
         ret (s <| Stmt.entry := (Stmt.entry s) <| entryIsFunction := true |> <| entryRetTy := t |> |>)
       else ret s
     else ret s) in
  expect Tok.Semi (txt "(56)");; ret s.
End clauses.

Section recursion.
Context `{Input}.
(** [parseStatement(owner)]. *)
Variable self : nat -> P (option Stmt.t).

(** ** Bodies (rules (6),(7)) *)
Definition body_round (owner : nat) (ownName : text) (l : list (option Stmt.t)) :
    P (list (option Stmt.t) + list (option Stmt.t) * EndInfo) :=
  if? here Tok.Eof then
    lift (let* t := get cur in
          error_fix (Token.loc t) (txt "unexpected end of file: missing END for '" ++ ownName ++ txt "'") (txt "(7)")
            (txt "END " ++ ownName ++ txt ";"));;
    ret (inr (l, no_end))
  else if? atStmtKeyword (txt "END") then
    let* e := lift end_clause in ret (inr (l, own_end ownName e))
  else
    let* s := self owner in
    let l := match s with Some _ => l ++ [s] | None => l end in
    let* e := get pendingEnd_ in
    if present e then set_end no_end;; ret (inr (l, own_end ownName e)) else ret (inl l).
Definition parseBody (owner : nat) (ownName : text) : P (list (option Stmt.t) * EndInfo) :=
  let* depth := get blockDepth_ in
  if kMaxBlockDepth <=? depth then lift (error_here (txt "block nesting is too deep") (txt "(68)"));; ret ([], no_end)
  else
    modify (fun s => s <| blockDepth_ := depth + 1 |>);;
    let* r := loop (body_round owner ownName) [] in
    modify (fun s => s <| blockDepth_ := blockDepth_ s - 1 |>);; ret r.
Definition unmatched_end (e : EndInfo) : P unit :=
  if present e && negb (bool_decide (label e = []))
  then lift (report (end_loc e) (txt "END label '" ++ label e ++ txt "' does not match any open block") (txt "(7)"))
  else ret tt.
(** The body of procedure [p]; a labelled END is a target at its end. *)
Definition parseProcBody (p : nat) (name : text) : P unit :=
  let* (l, e) := parseBody p name in
  let l := if present e && bool_decide (label e = []) && negb (bool_decide (endLabels e = []))
           then l ++ [Some (null_stmt (end_loc e) (endLabels e))] else l in
  set_proc p (fun q => q <| Proc.body := l |>);;
  unmatched_end e.
(** What the END of a group leaves for the blocks around it. *)
Definition close_group (e : EndInfo) : P unit :=
  if present e then if bool_decide (label e = []) then set_end_labels (endLabels e) else set_end e else ret tt.

(** ** The statements that hold statements *)
Definition parseBegin (owner : nat) (labels : list text) : P (option Stmt.t) :=
  let* loc := lift (let* t := get cur in advance;; expect Tok.Semi (txt "(68)");; ret (Token.loc t)) in
  let* (l, e) := parseBody owner (first_label labels) in
  close_group e;; ret (Some ((stmt Stmt.Begin loc) <| Stmt.body := l |>)).
Definition parseDo (owner : nat) (labels : list text) : P (option Stmt.t) :=
  let* r := lift do_clause in
  match r with
  | None => ret None
  | Some s =>
      let* (l, e) := parseBody owner (first_label labels) in
      close_group e;; ret (Some (s <| Stmt.body := l |>))
  end.
Definition parseIf (owner : nat) : P (option Stmt.t) :=
  let* r := lift if_clause in
  match r with
  | None => ret None
  | Some s =>
      let* a := self owner in
      let s := s <| Stmt.thenS := a |> in
      let* e := get pendingEnd_ in
      if present e then ret (Some s)
      else if? atWord (txt "ELSE") then
        lift advance;;
        let* b := self owner in ret (Some (s <| Stmt.elseS := b |>))
      else ret (Some s)
  end.
Definition parseOn (owner : nat) : P (option Stmt.t) :=
  let* r := lift on_clause in
  match r with
  | None => ret None
  | Some (s, true) => ret (Some s)
  | Some (s, false) =>
      let* u := self owner in
      match u with
      | None => lift (fail_here "expected an unconditional statement as the ON-unit" "(91)")
      | Some u' =>
          if bool_decide (Stmt.kind u' = Stmt.If)
          then lift (report (Stmt.loc u') (txt "an ON-unit must be an unconditional statement") (txt "(91)");; failed)
          else ret (Some (s <| Stmt.unit := u |>))
      end
  end.

(** SELECT: the arms so far, the OTHERWISE statement, and whether there was one. *)
Record select_state := mkSelect { arms : list Stmt.t; otherwise : option Stmt.t; sawOtherwise : bool }.
(** An END from a body closes this SELECT. *)
Definition closeFromBody : P unit :=
  let* e := get pendingEnd_ in
  set_end no_end;; (if bool_decide (label e = []) then set_end_labels (endLabels e) else set_end e).
Definition select_round (owner : nat) (sel : option Expr.t) (s : select_state) : P (select_state + option Stmt.t) :=
  let head := if_chain (arms s) (otherwise s) in
  let fail (msg : string) : P (select_state + option Stmt.t) := lift (error_here (txt msg) [];; resync);; ret (inr head) in
  let after_body (s : select_state) : P (select_state + option Stmt.t) :=
    let* e := get pendingEnd_ in
    if present e then closeFromBody;; ret (inr (if_chain (arms s) (otherwise s))) else ret (inl s) in
  if? here Tok.Eof then lift (error_here (txt "unexpected end of file: missing END for SELECT (ADR-104)") []);; ret (inr head)
  else
    let* e := get pendingEnd_ in
    if present e then closeFromBody;; ret (inr head)
    else if? atStmtKeyword (txt "END") then
      let* r := lift select_end in
      match r with
      | None => ret (inr head)
      | Some e =>
          (if negb (bool_decide (label e = [])) then set_end e
           else if bool_decide (arms s = []) then lift (report (end_loc e) (txt "SELECT requires at least one WHEN (ADR-104)") []) else ret tt);;
          ret (inr head)
      end
    else if? not_ (atWhen "WHEN" ||| atWhen "OTHERWISE") then fail "expected WHEN, OTHERWISE, or END in SELECT (ADR-104)"%string
    else if? atWhen "WHEN" then
      if sawOtherwise s then fail "WHEN after OTHERWISE (ADR-104)"%string
      else
        let* loc := get (fun st => Token.loc (cur (pst_ st))) in
        let* r := lift_outcome (when_clause sel) in
        match r with
        | None => ret (inr head)
        | Some pred =>
            let* b := self owner in
            after_body (mkSelect (arms s ++ [(stmt Stmt.If loc) <| Stmt.cond := pred |> <| Stmt.thenS := b |>]) (otherwise s) (sawOtherwise s))
        end
    else if sawOtherwise s then fail "only one OTHERWISE is allowed in SELECT (ADR-104)"%string
    else
      lift advance;;
      let* b := self owner in
      after_body (mkSelect (arms s) b true).
Definition parseSelect (owner : nat) : P (option Stmt.t) :=
  let* r := lift select_clause in
  match r with None => ret None | Some sel => loop (select_round owner sel) (mkSelect [] None false) end.

(** ** The keywords (rules (57)-(59)) *)
(** [parseRecordIO] is reached by four words. *)
Definition keywordStatement (owner : nat) (labels : list text) (probe : bool) : P (option Stmt.t) :=
  let at_ := kw probe in
  if? (at_ "DECLARE" ||| at_ "DCL") then lift (advance;; parseDeclare)
  else if? at_ "DEFINE" then
    if? nextWord 1 (txt "CONSTANT") then lift parseDefineConstant else lift parseDefineAlias
  else if? at_ "IF" then parseIf owner
  else if? at_ "DO" then parseDo owner labels
  else if? at_ "SELECT" then parseSelect owner
  else if? at_ "LEAVE" then lift (parseLoopExit false)
  else if? at_ "ITERATE" then lift (parseLoopExit true)
  else if? at_ "BEGIN" then parseBegin owner labels
  else if? at_ "FORMAT" then lift_outcome (parseFormatStmt labels)
  else if? at_ "PUT" then lift_outcome parsePut
  else if? at_ "DISPLAY" then lift parseDisplay
  else if? at_ "CALL" then lift parseCall
  else if? at_ "WAIT" then lift parseWait
  else if? at_ "DELAY" then lift parseDelay
  else if? at_ "RETURN" then lift parseReturn
  else if? (at_ "STOP" ||| at_ "EXIT") then lift parseStop
  else if? at_ "GET" then lift_outcome parseGet
  else if? (at_ "GO" &&& nextWord 1 (txt "TO")) then lift (parseGoto true)
  else if? at_ "GOTO" then lift (parseGoto false)
  else if? at_ "ON" then parseOn owner
  else if? at_ "SIGNAL" then lift parseSignal
  else if? at_ "REVERT" then lift parseRevert
  else if? at_ "ALLOCATE" then lift parseAllocate
  else if? at_ "FREE" then lift parseFree
  else if? at_ "OPEN" then lift parseOpen
  else if? at_ "CLOSE" then lift parseClose
  else if? (at_ "READ" ||| at_ "WRITE" ||| at_ "REWRITE" ||| at_ "DELETE") then lift parseRecordIO
  else ret None.

(** The speculative parse: under muted diagnostics, and undone unless it is clean. *)
Definition on_diags (f : Diags -> Diags) : P unit := lift (fun st => Some (tt, mkP (i_ st) (exprDepth_ st) (f (pd_ st)))).
Definition rollback (save : nat) (saveEnd : EndInfo) (saveProcs : nat) (before : Z) : P unit :=
  lift (goto_ save);;
  set_end saveEnd;;
  modify (fun s =>
    let gone := match mainProc (prog_ s) with
                | Some m => (saveProcs <=? m)%nat && (m <? length (procs (prog_ s)))%nat
                | None => false
                end in
    s <| dangling_ := dangling_ s || gone |>);;
  on_procs (take saveProcs);;
  on_diags (rewindMutedErrors before).
Definition probeKeywordStatement (owner : nat) (labels : list text) : P (option Stmt.t) :=
  let* save := get (fun s => i_ (pst_ s)) in
  let* saveEnd := get pendingEnd_ in
  let* saveProcs := get (fun s => length (procs (prog_ s))) in
  let* before := get (fun s => mutedErrors (pd_ (pst_ s))) in
  on_diags mute;;
  let* s := keywordStatement owner labels true in
  let* errors := get (fun s => mutedErrors (pd_ (pst_ s))) in
  on_diags unmute;;
  if bool_decide (is_Some s) && (errors =? before) then ret s
  else rollback save saveEnd saveProcs before;; ret None.

(** ** Statements *)
(** A labelled END leaves its labels on a null statement after the group. *)
Definition closeWithEndLabels (base : Stmt.t) : P (option Stmt.t) :=
  let* l := get endClauseLabels_ in
  if bool_decide (l = []) then ret (Some base)
  else
    set_end_labels [];;
    ret (Some ((stmt Stmt.Group (Stmt.loc base)) <| Stmt.body := [Some base; Some (null_stmt (Stmt.loc base) l)] |>)).
(** The checks that the prefix of the procedure around it switches off. *)
Definition inherited (s : parser) : Prefixes :=
  let off n := bool_decide (nth n (procCond_ s) 0 = 1) in
  mkPrefixes (off 0%nat) (off 1%nat) (off 2%nat) (off 3%nat) (off 4%nat) (off 5%nat) (off 6%nat)
    false false false false false false false (procStrRange_ s).
(** A procedure body under the prefix of its statement. *)
Definition parseProcedure (name : text) (loc : SourceLoc) (parent : option nat) (entries : list text) (pre : Prefixes) : P unit :=
  let* p := startProc name loc parent in
  parseProcOptions p ((new_proc name loc parent) <| Proc.entryNames := entries |>);;
  in_scope pre (parseProcBody p name).
(** The statement after its prefixes and labels.  A kept probe takes over the prefixes and
    the label-array elements, not the labels. *)
Definition labelled_statement (owner : nat) (loc : SourceLoc) (pre : Prefixes) (labels : list text) (elems : list LabelElem) :
    P (option Stmt.t) :=
  let with_prefix (s : Stmt.t) := s <| Stmt.prefixes := pre |> <| Stmt.labelElems := elems |> in
  let with_labels (s : Stmt.t) := (with_prefix s) <| Stmt.labels := labels |> in
  let labelled (st : pst) := negb (bool_decide (labels = [])) in
  if? (labelled &&& atStmtKeyword (txt "END")) then
    (if bool_decide (elems = []) then ret tt
     else lift (report loc (txt "a label array on an END clause is not implemented in this stage") (txt "(7)")));;
    let* e := lift end_clause in
    set_end (e <| endLabels := labels |>);; ret (Some (null_stmt (end_loc e) []))
  else if? (atStmtKeyword (txt "PACKAGE") &&& labelled) then
    lift (fail_here "nested packages are not implemented in this stage (ADR-109)" "")
  else if? ((atStmtKeyword (txt "PROCEDURE") ||| atStmtKeyword (txt "PROC")) &&& labelled) then
    lift advance;;
    parseProcedure (first_label labels) loc (Some owner) [] pre;; ret None
  else if? atStmtKeyword (txt "ENTRY") then
    match labels with
    | [] => lift (fail_here "ENTRY statement requires a label (the entry name)" "(56)")
    | l :: _ =>
        let* s := lift (entry_clause ((stmt Stmt.Entry loc) <| Stmt.name := l |>)) in ret (Some (with_labels s))
    end
  else if* lift (eat Tok.Semi) then ret (Some (with_labels (stmt Stmt.Null loc)))
  else
    let* s :=
      (if? ((fun st => bool_decide (Token.kind (cur st) = Tok.Word)) &&& looksLikeAssignment &&&
            (fun st => stmtKeywordSpelling (Token.text_ (cur st))))
       then probeKeywordStatement owner labels else ret None) in
    match s with
    | Some s => closeWithEndLabels (with_prefix s)
    | None =>
        let* k := keywordStatement owner labels false in
        match k with
        | Some k => closeWithEndLabels (with_labels k)
        | None => let* s := lift parseAssignment in ret (option_map with_labels s)
        end
    end.
Definition statement (owner : nat) : P (option Stmt.t) :=
  let* loc := get (fun s => Token.loc (cur (pst_ s))) in
  let* p := get inherited in
  let* r := lift (parseCondPrefixes p) in
  match r with
  | None => ret None
  | Some pre =>
      in_range pre (let* (labels, elems) := lift label_prefixes in labelled_statement owner loc pre labels elems)
  end.
End recursion.

(** ** The program (rule (1)) *)
Section program.
Context `{Input}.

Fixpoint statement_fuel (n : nat) (owner : nat) : P (option Stmt.t) :=
  match n with O => out_of_fuel | S n => statement (statement_fuel n) owner end.
(** One level of nesting consumes a token. *)
Definition parseStatement (owner : nat) : P (option Stmt.t) :=
  let* n := get (fun s => fuel_left toks (pst_ s)) in statement_fuel n owner.

(** PACKAGE (ADR-109). *)
Definition export_list : M (list text) :=
  if? here Tok.RParen then ret []
  else loop (fun l =>
    let* w := here_word in
    match w with
    | Some w => advance;; if* eat Tok.Comma then ret (inl (l ++ [w])) else ret (inr (l ++ [w]))
    | None => error_here (txt "expected an exported procedure name (ADR-109)") [];; ret (inr l)
    end) [].
Definition package_clause : M (list text) :=
  advance;;
  let* l :=
    (if? atWord (txt "EXPORTS") then
       advance;;
       if* eat Tok.LParen then
         let* l := export_list in
         if* eat Tok.RParen then ret l
         else error_here (txt "expected ')' after the EXPORTS list (ADR-109)") [];; ret l
       else error_here (txt "expected '(' after EXPORTS (ADR-109)") [];; ret []
     else ret []) in
  if* eat Tok.Semi then ret l
  else error_here (txt "expected ';' after the PACKAGE statement (ADR-109)") [];; ret l.
Definition parsePackage (name : text) (loc : SourceLoc) : P unit :=
  let* p := startProc name loc None in
  let* exports := lift package_clause in
  set_proc p (fun q => q <| Proc.isPackage := true |> <| Proc.exports := exports |>);;
  let* (l, e) := parseBody parseStatement p name in
  set_proc p (fun q => q <| Proc.body := l |>);;
  unmatched_end e.

(** [name {, name} :] before PROCEDURE or PACKAGE; [None] after a failure. *)
Definition entry_names : M (option (list text)) :=
  loop (fun l =>
    if* eat Tok.Comma then
      let* w := here_word in
      match w with
      | Some w => advance;; ret (inl (l ++ [w]))
      | None => error_here (txt "expected entry name") (txt "(3)");; resync;; ret (inr None)
      end
    else ret (inr (Some l))) [].
Definition procedure_head : M (option (Prefixes * (text * SourceLoc) * list text)) :=
  let* p := parseCondPrefixes no_prefixes in
  match p with
  | None => failed
  | Some p =>
      let* t := get cur in
      if bool_decide (Token.kind t = Tok.Word) then
        advance;;
        let* l := entry_names in
        match l with
        | None => ret None
        | Some l => if* expect Tok.Colon (txt "(64)") then ret (Some (p, (Token.text_ t, Token.loc t), l)) else failed
        end
      else fail_here "expected procedure name" "(2)"
  end.
Definition parseExternalProcedure : P unit :=
  let* r := lift procedure_head in
  match r with
  | None => ret tt
  | Some (pre, (name, loc), entries) =>
      if? atStmtKeyword (txt "PACKAGE") then
        (if bool_decide (entries = []) then ret tt
         else lift (error_here (txt "only a single name is allowed on a PACKAGE statement (ADR-109)") []));;
        parsePackage name loc
      else if? (atStmtKeyword (txt "PROCEDURE") ||| atStmtKeyword (txt "PROC")) then
        lift advance;;
        parseProcedure parseStatement name loc None entries pre
      else
        lift (let* t := get cur in
              error_fix (Token.loc t) (txt "expected PROCEDURE after entry name") (txt "(2)") (txt "PROCEDURE ");; resync)
  end.
Definition push_define (s : option Stmt.t) : P unit :=
  match s with
  | Some _ => modify (fun p => p <| prog_ := (prog_ p) <| defines := defines (prog_ p) ++ [s] |> |>)
  | None => ret tt
  end.
Definition top_round (u : unit) : P (unit + unit) :=
  if? here Tok.Eof then ret (inr tt)
  else
    let* before := get (fun s => i_ (pst_ s)) in
    (if? (atWord (txt "DEFINE") &&& nextWord 1 (txt "ALIAS")) then
       let* d := lift parseDefineAlias in push_define d
     else if? (atWord (txt "DEFINE") &&& nextWord 1 (txt "CONSTANT")) then
       lift (error_here (txt "DEFINE CONSTANT at file scope is not implemented in this stage (ADR-205)") [];; resync)
     else parseExternalProcedure);;
    let* after := get (fun s => i_ (pst_ s)) in
    if (after =? before)%nat then lift (error_here (txt "expected an external procedure") (txt "(1)"));; ret (inr tt)
    else ret (inl tt).
Definition parse : P unit := loop top_round tt.
(** The object as it is constructed. *)
Definition Parser_new (d : Diags) : parser :=
  mkParser (mkP 0 0 d) 0 (mkProgram [] [] None []) no_end [] 0 [0; 0; 0; 0; 0; 0; 0] false false.
End program.
