(* ===== verification/BlockTotal.v ===== *)
(** * The parser is total

    Statements, blocks and programs over the calculus of [ParserBase]: the parser returns on
    every list of tokens that ends in end-of-file, at the end of the file, with its scope,
    its nesting depths and the diagnostics' mute depth restored. *)
From S2P Require Import Prelude Monad Types Diag Lexer Ast Constants Stmts ExprParser ExprTotal ParserBase DeclParser DeclTotal.
From S2P Require Import StmtParser StmtTotal BlockParser.

#[local] Set Default Proof Using "Type*".

(** ** The scope *)
Lemma scope_same_refl a : scope_same a a.
Proof. unfold scope_same. repeat split; done. Qed.
Lemma scope_same_trans a b c : scope_same a b -> scope_same b c -> scope_same a c.
Proof.
  intros (?&?&?&?&?&M1&?&?) (?&?&?&?&?&M2&?&?). unfold scope_same. split; [congruence|]. split; [congruence|]. split; [congruence|].
  split; [congruence|]. split; [congruence|]. split; [|auto]. intros Hm. rewrite M2; [by apply M1|]. by rewrite M1.
Qed.
(** A change of the members that are not the scope. *)
Lemma scope_kept_eq a b : blockDepth_ b = blockDepth_ a -> procStrRange_ b = procStrRange_ a -> procCond_ b = procCond_ a ->
  prog_ b = prog_ a -> (crashed_ a = true -> crashed_ b = true) -> (dangling_ a = true -> dangling_ b = true) -> scope_kept a b.
Proof. intros E1 E2 E3 E4 ? ?. split; [|by rewrite E4]. unfold scope_same. rewrite E4. by repeat split. Qed.
#[global] Instance parser_keeps : Keeps parser.
Proof.
  split.
  - intros a. split; [apply scope_same_refl|done].
  - intros a b c [S1 P1] [S2 P2]. split; [by eapply scope_same_trans|by etrans].
Qed.

Section lifted.
Context `{EndsEof} (lim : nat).
Abbreviation total := (ParserBase.total (S := parser) lim).
Abbreviation strict := (ParserBase.strict (S := parser) lim).
Abbreviation stays := (ParserBase.stays (S := parser) lim).

Lemma follows_lift (s : parser) st' : ParserBase.follows (pst_ s) st' -> ParserBase.follows s (s <| pst_ := st' |>).
Proof. intros [F _]. split; [exact F|]. by apply scope_kept_eq. Qed.
Lemma wp_lift {A} (m : M A) s (Q : A -> parser -> Prop) :
  wp m (pst_ s) (fun x st' => Q x (s <| pst_ := st' |>)) -> wp (lift m) s Q.
Proof. unfold wp, lift. by destruct (m (pst_ s)) as [[x st']|]. Qed.
Lemma total_lift {A} (m : M A) : ParserBase.total lim m -> total (lift m).
Proof. intros Hm s Hi. apply wp_lift. eapply wp_mono; [apply Hm; exact Hi|]. intros x st' F. by apply follows_lift. Qed.
Lemma strict_lift {A} (m : M A) : ParserBase.strict lim m -> strict (lift m).
Proof.
  intros Hm s Hi He. apply wp_lift. eapply wp_mono; [apply Hm; [exact Hi|exact He]|]. intros x st' [F C]. split; [by apply follows_lift|done].
Qed.
Lemma stays_lift {A} (m : M A) : ParserBase.stays lim m -> stays (lift m).
Proof.
  intros Hm s Hi. apply wp_lift. eapply wp_mono; [apply Hm; exact Hi|]. intros x st' [F C]. split; [by apply follows_lift|done].
Qed.
Lemma advances_lift {A} P (m : M A) : ParserBase.advances lim P m -> advances lim P (lift m).
Proof.
  intros Hm s Hi. apply wp_lift. eapply wp_mono; [apply Hm; exact Hi|]. intros x st' [F C]. split; [by apply follows_lift|done].
Qed.

(** A step that changes neither the position nor the scope. *)
Lemma stays_modify (f : parser -> parser) : (forall s, pst_ (f s) = pst_ s /\ scope_kept s (f s)) -> stays (modify f).
Proof.
  intros Hf s Hi. destruct (Hf s) as [E K]. apply wp_modify. split; [|cbn; by rewrite E]. split; [|done].
  cbn. rewrite E. exact (proj1 (within_follows lim s Hi)).
Qed.
Lemma stays_set_end e : stays (set_end e).
Proof. apply stays_modify. intros s. split; [done|]. by apply scope_kept_eq. Qed.
Lemma stays_set_end_labels l : stays (set_end_labels l).
Proof. apply stays_modify. intros s. split; [done|]. by apply scope_kept_eq. Qed.
Lemma stays_crash : stays (modify (fun s => s <| crashed_ := true |>)).
Proof.
  apply stays_modify. intros s. split; [done|]. by apply scope_kept_eq.
Qed.
Lemma total_set_end e : total (set_end e).
Proof. apply stays_total, stays_set_end. Qed.
Lemma total_set_end_labels l : total (set_end_labels l).
Proof. apply stays_total, stays_set_end_labels. Qed.
Lemma outcome_tail {A} (r : Outcome A) : total (match r with
  Done x => ret (Some x) | Failed => ret None | Crash => modify (fun s => s <| crashed_ := true |>);; ret None end).
Proof.
  destruct r; [apply total_ret..|]. apply total_bind; [apply stays_total, stays_crash|]. intros _. apply total_ret.
Qed.
Lemma total_lift_outcome {A} (m : M (Outcome A)) : ParserBase.total lim m -> total (lift_outcome m).
Proof. intros Hm. apply total_bind; [by apply total_lift|]. intros r. apply outcome_tail. Qed.
Lemma strict_lift_outcome {A} (m : M (Outcome A)) : ParserBase.strict lim m -> strict (lift_outcome m).
Proof. intros Hm. apply strict_bind; [by apply strict_lift|]. intros r. apply outcome_tail. Qed.
End lifted.
#[export] Hint Extern 2 (total _ (lift _)) => apply total_lift; totality : total.
#[export] Hint Extern 2 (strict _ (lift _)) => apply strict_lift; totality : total.
#[export] Hint Extern 2 (strict _ (lift_outcome _)) => apply strict_lift_outcome; totality : total.
#[export] Hint Resolve total_set_end total_set_end_labels : total.

(** ** Clauses *)
Section clauses.
Context `{EndsEof} (lim : nat).
Abbreviation total := (ParserBase.total (S := pst) lim).
Abbreviation strict := (ParserBase.strict (S := pst) lim).

Lemma steps_options_round r : steps lim (options_round r).
Proof.
  destruct r as [depth main]. apply steps_unless; [apply not_eof_not|totality|]. destruct (negb _); [apply steps_in_steps; totality|].
  apply steps_in_strict. totality.
Qed.
#[local] Hint Resolve steps_options_round : total.
Lemma total_proc_returns p : total (proc_returns p).
Proof. unfold proc_returns. totality. Qed.
#[local] Hint Resolve total_proc_returns : total.
Lemma steps_proc_option p : steps lim (proc_option p).
Proof. apply steps_options. totality. Qed.
#[local] Hint Resolve steps_proc_option : total.
Lemma total_proc_options p : total (proc_options p).
Proof. unfold proc_options. totality. Qed.
Lemma strict_end_clause : strict end_clause.
Proof. unfold end_clause. totality. Qed.
Lemma total_end_clause : total end_clause.
Proof. unfold end_clause. totality. Qed.
Lemma total_select_end : total select_end.
Proof. unfold select_end. totality. Qed.
Lemma strict_if_clause : strict if_clause.
Proof. unfold if_clause. totality. Qed.
Lemma strict_on_clause : strict on_clause.
Proof. unfold on_clause. totality. Qed.
Lemma total_paren_cond rule s : total (paren_cond rule s).
Proof. unfold paren_cond. totality. Qed.
#[local] Hint Resolve total_paren_cond : total.
Lemma steps_iteration s : steps lim (iteration s).
Proof. unfold iteration. totality. Qed.
#[local] Hint Resolve steps_iteration : total.
Lemma strict_do_clause : strict do_clause.
Proof. unfold do_clause, do_while, do_until, do_forever, do_iterative. totality. Qed.
Lemma strict_select_clause : strict select_clause.
Proof. unfold select_clause. totality. Qed.
Lemma strict_when_clause sel : strict (when_clause sel).
Proof. unfold when_clause. totality. Qed.
Lemma strict_select_end : strict select_end.
Proof. unfold select_end. totality. Qed.
Lemma strict_entry_clause s : strict (entry_clause s).
Proof. unfold entry_clause. totality. Qed.
Lemma not_eof_atStmtKeyword w : not_eof (atStmtKeyword w).
Proof. intros st [E _]%andb_true_iff. by apply (not_eof_word w). Qed.
Lemma not_eof_kw probe w : not_eof (kw probe w).
Proof. intros st. unfold kw. destruct probe; [apply not_eof_word|apply not_eof_atStmtKeyword]. Qed.
Lemma not_eof_atWhen w : not_eof (atWhen w).
Proof. apply not_eof_both_l, not_eof_word. Qed.

(** A malformed prefix is reported after its parenthesis. *)
Definition none {A} (o : option A) : bool := negb (got o).
Lemma advances_parseCondPrefixes p : advances lim none (parseCondPrefixes p).
Proof.
  apply advances_loop. intros a. apply advances_branch; [auto with total nocore| |].
  - apply strict_stays; [totality|]. intros t. apply strict_stays; [totality|]. intros save.
    apply strict_bind; [apply strict_skip_group|]. intros _. totality.
  - by apply advances_stop.
Qed.
Lemma total_export_list : total export_list.
Proof. unfold export_list. totality. Qed.
#[local] Hint Resolve total_export_list : total.
Lemma total_package_clause : total package_clause.
Proof. unfold package_clause. totality. Qed.
Lemma total_entry_names : total entry_names.
Proof. unfold entry_names. totality. Qed.
#[local] Hint Resolve total_entry_names : total.
Lemma strict_procedure_head : strict procedure_head.
Proof.
  unfold procedure_head. eapply strict_advances; [apply advances_parseCondPrefixes|intros p; totality|]. intros [p|] Hp; [|done]. totality.
Qed.
End clauses.
#[export] Hint Resolve total_end_clause total_select_end total_proc_options strict_end_clause strict_if_clause strict_on_clause strict_do_clause strict_select_clause
  strict_when_clause strict_select_end strict_entry_clause not_eof_atStmtKeyword not_eof_kw not_eof_atWhen total_package_clause
  strict_procedure_head : total.

(** ** Bodies and procedures *)
Section ends.
Context `{EndsEof} (lim : nat).
Abbreviation total := (ParserBase.total (S := parser) lim).
Lemma total_unmatched_end e : total (unmatched_end e).
Proof. unfold unmatched_end. destruct (_ && _); [auto with total nocore|apply total_ret]. Qed.
Lemma total_close_group e : total (close_group e).
Proof. unfold close_group. totality. Qed.
Lemma total_closeFromBody : total closeFromBody.
Proof. unfold closeFromBody. totality. Qed.
End ends.
#[export] Hint Resolve total_unmatched_end total_close_group total_closeFromBody : total.
(** What [self] is shown to do before the constructs that call it are. *)
Definition parses `{Input} (lim : nat) (self : nat -> P (option Stmt.t)) : Prop :=
  forall owner, total lim (self owner) /\ strict lim (self owner).

Section bodies.
Context `{EndsEof} (lim : nat) (self : nat -> P (option Stmt.t)) (Hself : parses lim self).
Abbreviation total := (ParserBase.total (S := parser) lim).
Abbreviation strict := (ParserBase.strict (S := parser) lim).

Lemma total_self owner : total (self owner).
Proof. apply Hself. Qed.
Lemma strict_self owner : strict (self owner).
Proof. apply Hself. Qed.
#[local] Hint Resolve total_self strict_self : total.
Lemma steps_body_round owner name l : steps lim (body_round self owner name l).
Proof.
  unfold body_round. apply steps_unless; [apply not_eof_not|apply steps_bind; [auto with total nocore|intros; totality]|].
  apply steps_in_if; [apply steps_in_steps, steps_bind; [auto with total nocore|intros; totality]|].
  apply steps_in_strict, strict_bind; [auto with total nocore|]. intros s. totality.
Qed.
Lemma total_parseBody owner name : total (parseBody self owner name).
Proof.
  intros s Hi. unfold parseBody. apply wp_bind, wp_get. destruct (_ <=? _).
  - match goal with |- wp ?m s _ => enough (total m) as Ht by exact (Ht s Hi) end.
    apply total_bind; [auto with total nocore|]. intros _. apply total_ret.
  - apply wp_bind, wp_modify. apply wp_bind. set (s1 := s <| blockDepth_ := blockDepth_ s + 1 |>).
    eapply wp_mono; [apply (total_loop lim (body_round self owner name) []); [intros l; apply steps_body_round|exact Hi]|].
    intros r s2 [F [K Pk]]. apply wp_bind, wp_modify, wp_ret. split; [exact F|]. split; [|exact Pk].
    destruct K as (D & K). split; [|exact K]. unfold set_field. cbn [blockDepth_]. rewrite D. unfold s1, set_field. cbn [blockDepth_]. lia.
Qed.
#[local] Hint Resolve total_parseBody : total.

(** ** The groups *)
Lemma total_parseBegin_tail owner name loc :
  total (let* (l, e) := parseBody self owner name in close_group e;; ret (Some ((stmt Stmt.Begin loc) <| Stmt.body := l |>))).
Proof. totality. Qed.
Lemma steps_select_round owner sel s : steps lim (select_round self owner sel s).
Proof.
  unfold select_round. apply steps_unless; [apply not_eof_not|apply steps_bind; [auto with total nocore|intros; totality]|].
  apply steps_in_get. intros e. destruct (present e); [apply steps_in_steps; totality|].
  apply steps_in_if.
  { apply steps_in_steps, steps_bind; [auto with total nocore|]. intros [e'|]; [|totality]. apply steps_bind; [|intros; totality].
    destruct (negb _); [auto with total nocore|]. destruct (bool_decide _); [auto with total nocore|apply total_ret]. }
  assert (forall msg, steps (A := select_state) lim
    (lift (error_here (txt msg) [];; resync);; ret (inr (if_chain (arms s) (otherwise s))))) as Hfail.
  { intros msg. apply steps_bind; [auto with total nocore|]. intros _. totality. }
  apply steps_in_if; [by apply steps_in_steps|]. apply steps_in_if.
  - destruct (sawOtherwise s); [by apply steps_in_steps|]. apply steps_in_strict. apply strict_stays; [apply stays_get|]. intros loc.
    apply strict_bind; [auto with total nocore|]. intros [pred|]; totality.
  - destruct (sawOtherwise s); [by apply steps_in_steps|]. apply steps_in_strict. apply strict_bind; [auto with total nocore|].
    intros _. totality.
Qed.
#[local] Hint Resolve steps_select_round : total.
End bodies.
#[export] Hint Resolve total_parseBody total_self : total.

(** Steps that add to procedure [k] and later ones only. *)
Section grown.
Context `{EndsEof} (lim : nat).
(** As [follows], for the procedures before [k]. *)
Definition grown (k : nat) (a b : parser) : Prop :=
  ExprTotal.follows toks (pst_ a) (pst_ b) /\ scope_same a b /\ take k (procs (prog_ a)) `prefix_of` procs (prog_ b) /\
  (k <= length (procs (prog_ b)))%nat.
Lemma grown_follows k a b c : (k <= length (procs (prog_ a)))%nat -> grown k a b -> follows b c -> grown k a c.
Proof.
  intros Hk (F1 & S1 & P1 & L1) [F2 [S2 P2]]. split; [|split; [by eapply scope_same_trans|]].
  - exact (ExprTotal.expr_follows_trans toks strtod double_of ends_eof nonempty _ _ _ F1 F2).
  - split; [by etrans|]. pose proof (prefix_length _ _ P2). lia.
Qed.
Lemma grown_within k a b : within lim a -> grown k a b -> within lim b.
Proof.
  intros (Hi & Hb & Hm) ((L & I & _ & E & _) & _). split; [exact I|]. cbn in *. rewrite E. unfold ExprTotal.inside in *. lia.
Qed.
Lemma take_alter {A} (f : A -> A) k p (l : list A) : (k <= p)%nat -> take k (alter f p l) = take k l.
Proof.
  intros Hk. apply list_eq. intros i. destruct (decide (i < k)%nat).
  - rewrite !lookup_take_lt by done. apply list_lookup_alter_ne. lia.
  - rewrite !lookup_take_ge by lia. done.
Qed.
Lemma grown_set_proc k a b p f : (k <= p)%nat -> (k <= length (procs (prog_ a)))%nat -> grown k a b ->
  grown k a (b <| prog_ := (prog_ b) <| procs := alter f p (procs (prog_ b)) |> |>).
Proof.
  intros Hk Ha (F & S & [l E] & L). split; [exact F|]. split; [exact S|]. split; [|by cbn; rewrite length_alter].
  cbn. rewrite E in *. assert (length (take k (procs (prog_ a))) = k) as Ek by (rewrite length_take; lia).
  rewrite <- (take_drop k (alter f p _)), take_alter by done. rewrite take_app_le by (rewrite Ek; done).
  rewrite (take_ge (take k _)) by lia. by eexists.
Qed.
Lemma wp_set_proc p f s (Q : unit -> parser -> Prop) :
  Q tt (s <| prog_ := (prog_ s) <| procs := alter f p (procs (prog_ s)) |> |>) -> wp (set_proc p f) s Q.
Proof. done. Qed.

(** The two members that a prefix on PROCEDURE changes. *)
Definition rescope (v : Z) (w : list Z) (s : parser) : parser := s <| procStrRange_ := v |> <| procCond_ := w |>.
Lemma grown_rescope k a b v w : grown k a b -> grown k (rescope v w a) (rescope v w b).
Proof. intros (F & (?&?&?&?&?&?&?&?) & R). split; [exact F|]. split; [by repeat split|exact R]. Qed.
Lemma grown_restore k a b v w : grown k (rescope v w a) b -> grown k a (rescope (procStrRange_ a) (procCond_ a) b).
Proof. intros (F & (?&?&?&?&?&?&?&?) & R). split; [exact F|]. split; [by repeat split|exact R]. Qed.
(** The first MAIN procedure. *)
Definition elect (main : bool) (p : nat) (s : parser) : parser :=
  match main, mainProc (prog_ s) with true, None => s <| prog_ := (prog_ s) <| mainProc := Some p |> |> | _, _ => s end.
Lemma grown_elect k a b main p : grown k a b -> grown k a (elect main p b).
Proof.
  intros Hg. unfold elect. destruct main; [|done]. destruct (mainProc (prog_ b)) eqn:E; [done|].
  destruct Hg as (F & (?&?&?&?&?&Hm&?&?) & R). split; [exact F|]. split; [|exact R]. repeat split; try done.
  intros Hs. rewrite <- Hm in Hs by done. rewrite E in Hs. by destruct Hs.
Qed.
Lemma grown_start s l : within lim s ->
  grown (length (procs (prog_ s))) s (s <| prog_ := (prog_ s) <| procs := procs (prog_ s) ++ l |> |>).
Proof.
  intros Hi. split; [exact (proj1 (within_follows lim s Hi))|]. split; [by destruct (scope_same_refl s) as (?&?&?&?&?&?&?&?); repeat split|].
  cbn. split.
  - rewrite take_ge by done. by eexists.
  - rewrite length_app. lia.
Qed.
Lemma grown_all a b : grown (length (procs (prog_ a))) a b -> follows a b.
Proof. intros (F & S & Pf & _). split; [exact F|]. split; [exact S|]. by rewrite take_ge in Pf. Qed.
End grown.

Section procedures.
Context `{EndsEof} (lim : nat) (self : nat -> P (option Stmt.t)) (Hself : parses lim self).
(** The body of a procedure changes that procedure and adds others. *)
Lemma parseProcBody_grown k a s p name : within lim a -> (k <= length (procs (prog_ a)))%nat -> (k <= p)%nat -> grown k a s ->
  wp (parseProcBody self p name) s (fun _ s' => grown k a s').
Proof.
  intros Ha La Hp Hg. assert (within lim s) as Hi by (by eapply grown_within). unfold parseProcBody. apply wp_bind.
  eapply wp_mono; [apply (total_parseBody lim self Hself); exact Hi|]. intros [l e] s1 F1. apply wp_bind, wp_set_proc.
  set (s2 := s1 <| prog_ := _ |>). assert (grown k a s2) as G2.
  { apply grown_set_proc; [done..|]. by eapply grown_follows. }
  eapply wp_mono; [apply (total_unmatched_end lim); by apply (grown_within lim k a)|]. intros [] s3 F3. by eapply grown_follows.
Qed.
Lemma total_parseProcedure name loc parent entries pre : total lim (parseProcedure self name loc parent entries pre).
Proof.
  intros s Hi. set (k := length (procs (prog_ s))). unfold parseProcedure, startProc, parseProcOptions, on_procs.
  apply wp_bind, wp_bind, wp_get, wp_bind, wp_modify, wp_ret. fold k.
  set (s1 := s <| prog_ := _ |>). pose proof (grown_start lim s [new_proc name loc parent] Hi) as G1. fold k s1 in G1.
  assert (within lim s1) as Hi1 by exact Hi. clearbody s1. apply wp_bind, wp_bind.
  eapply wp_mono; [apply (total_lift lim (proc_options _)); [totality|exact Hi1]|]. intros q s2 F2.
  assert (grown k s s2) as G2 by by eapply grown_follows. apply wp_bind, wp_set_proc.
  set (s3 := s2 <| prog_ := _ |>). assert (grown k s s3) as G3 by by apply grown_set_proc.
  apply wp_modify. change (wp (in_scope pre (parseProcBody self k name)) (elect (Proc.isMain q) k s3) (fun _ s' => follows s s')).
  assert (grown k s (elect (Proc.isMain q) k s3)) as G4 by by apply grown_elect.
  set (s4 := elect _ k s3) in *. clearbody s4. unfold in_scope. apply wp_bind, wp_get, wp_bind, wp_get, wp_bind, wp_modify.
  set (v := if _ : bool then _ else _). set (w := ProcCondGuard _ _). pose proof (grown_rescope k s s4 v w G4) as G5.
  apply wp_bind. eapply wp_mono; [apply (parseProcBody_grown k (rescope v w s)); [exact Hi|done..|exact G5]|].
  intros [] s6 G6. apply wp_bind, wp_modify, wp_ret. apply grown_all. apply grown_restore in G6.
  destruct G4 as (_ & (_ & -> & -> & _) & _). exact G6.
Qed.
End procedures.

(** ** Statements *)
(** A statement calls [self] after it has consumed a token. *)
Section statements.
Context `{EndsEof} (lim : nat) (self : nat -> P (option Stmt.t)) (Hself : parses (pred lim) self).
Abbreviation strict := (ParserBase.strict (S := parser) lim).
#[local] Hint Resolve steps_select_round : total.

Lemma strict_parseBegin owner labels : strict (parseBegin self owner labels).
Proof. unfold parseBegin. apply strict_pred; [auto with total nocore|]. intros loc. totality. Qed.
Lemma strict_parseDo owner labels : strict (parseDo self owner labels).
Proof. unfold parseDo. apply strict_pred; [auto with total nocore|]. intros [s|]; totality. Qed.
Lemma strict_parseIf owner : strict (parseIf self owner).
Proof. unfold parseIf. apply strict_pred; [auto with total nocore|]. intros [s|]; totality. Qed.
Lemma strict_parseOn owner : strict (parseOn self owner).
Proof. unfold parseOn. apply strict_pred; [auto with total nocore|]. intros [[s []]|]; totality. Qed.
Lemma strict_parseSelect owner : strict (parseSelect self owner).
Proof. unfold parseSelect. apply strict_pred; [auto with total nocore|]. intros [s|]; totality. Qed.
#[local] Hint Resolve strict_parseBegin strict_parseDo strict_parseIf strict_parseOn strict_parseSelect : total.

(** A keyword statement that is there consumed its keyword. *)
Lemma advances_keywordStatement owner labels probe : advances lim got (keywordStatement self owner labels probe).
Proof.
  unfold keywordStatement. apply advances_branch; [auto with total nocore|auto with total nocore|].
  apply advances_branch; [auto with total nocore|apply strict_if; auto with total nocore|].
  repeat (apply advances_branch; [auto 7 with total nocore|auto with total nocore|]). by apply advances_stop.
Qed.

(** ** The probe *)
Lemma wp_on_diags f s (Q : unit -> parser -> Prop) :
  Q tt (s <| pst_ := mkP (i_ (pst_ s)) (exprDepth_ (pst_ s)) (f (pd_ (pst_ s))) |>) -> wp (on_diags f) s Q.
Proof. done. Qed.
(** What a probe leaves behind: an accepted one the diagnostics as they were, a failed one
    everything but the labels of an END, the main procedure and the two monitors. *)
Definition undone (a b : parser) : parser :=
  a <| endClauseLabels_ := endClauseLabels_ b |> <| prog_ := (prog_ a) <| mainProc := mainProc (prog_ b) |> |>
    <| crashed_ := crashed_ b |> <| dangling_ := dangling_ b |>.
Lemma undone_ext (a b : parser) : pst_ b = pst_ a -> blockDepth_ b = blockDepth_ a -> pendingEnd_ b = pendingEnd_ a ->
  procStrRange_ b = procStrRange_ a -> procCond_ b = procCond_ a -> procs (prog_ b) = procs (prog_ a) ->
  defines (prog_ b) = defines (prog_ a) -> condNames (prog_ b) = condNames (prog_ a) -> b = undone a b.
Proof. destruct a as [p d [] e l r c ? ?], b as [p' d' [] e' l' r' c' ? ?]. cbn. intros; subst. done. Qed.
Lemma probe_spec owner labels s : within lim s ->
  wp (probeKeywordStatement self owner labels) s (fun r s' => follows s s' /\ (got r = true -> (i_ (pst_ s) < i_ (pst_ s'))%nat) /\
    match r with Some _ => pd_ (pst_ s') = pd_ (pst_ s) | None => s' = undone s s' end).
Proof.
  intros Hi. pose proof Hi as (I & _ & Hm). unfold probeKeywordStatement.
  apply wp_bind, wp_get, wp_bind, wp_get, wp_bind, wp_get, wp_bind, wp_get, wp_bind, wp_on_diags.
  set (s1 := s <| pst_ := _ |>). assert (within lim s1) as Hi1.
  { destruct Hi as (A1 & A2 & A3). split; [exact A1|]. split; [exact A2|]. cbn in *. lia. }
  apply wp_bind. eapply wp_mono; [exact (advances_keywordStatement owner labels true s1 Hi1)|]. intros r s2 [[F2 [K2 P2]] C2].
  apply wp_bind, wp_get, wp_bind, wp_on_diags. destruct F2 as (L2 & I2 & D2 & G2).
  assert (rewindMutedErrors (mnerr_ (pd_ (pst_ s))) (unmute (pd_ (pst_ s2))) = pd_ (pst_ s)) as Hu by (by apply muted_undone).
  destruct K2 as (B2 & R2 & W2 & F2 & N2 & M2 & X2 & Y2). cbn in L2, I2, D2, C2, Hm.
  destruct (bool_decide (is_Some r) && _) eqn:Ec.
  - apply wp_ret. apply andb_true_iff in Ec as [Hr%bool_decide_eq_true Hc%Z.eqb_eq]. unfold mutedErrors in Hc.
    assert (unmute (pd_ (pst_ s2)) = pd_ (pst_ s)) as Ed.
    { rewrite <- Hu. rewrite <- Hc. unfold unmute. destruct (_ <? _); by destruct (pd_ (pst_ s2)). }
    split; [|split; [exact C2|destruct r; [exact Ed|by destruct Hr]]].
    split; [|split; [by repeat split|done]]. split; [done|]. split; [done|]. split; [done|]. cbn. rewrite Ed. apply diags_grows_refl.
  - unfold rollback. apply wp_bind, wp_bind. apply wp_lift. unfold wp at 1, goto_. apply wp_bind, wp_modify, wp_bind, wp_modify, wp_bind, wp_modify.
    apply wp_on_diags, wp_ret. cbn. set (s' := set_field _ _).
    assert (s' = undone s s') as Eu.
    { apply undone_ext; try done; unfold s'; cbn.
      - destruct (pst_ s) as [i e d]. cbn in *. by f_equal.
      - destruct P2 as [l E]. cbn in E. rewrite E. by rewrite take_app_length. }
    split; [|split; [done|exact Eu]]. rewrite Eu. split; [exact (proj1 (within_follows lim s Hi))|].
    split; [|done]. unfold undone, scope_same, s'. cbn. repeat split; try done. intros Hd. by rewrite Y2.
Qed.
Lemma advances_probe owner labels : advances lim got (probeKeywordStatement self owner labels).
Proof. intros s Hi. eapply wp_mono; [by apply probe_spec|]. by intros r s' (F & C & _). Qed.

(** ** A statement *)
Lemma total_closeWithEndLabels b : total lim (closeWithEndLabels b).
Proof. unfold closeWithEndLabels. totality. Qed.
#[local] Hint Resolve total_closeWithEndLabels : total.
Lemma in_range_spec {A} (m : P A) p s (C : parser -> Prop) : (forall v s', C s' -> C (s' <| procStrRange_ := v |>)) ->
  (forall s1, within lim s1 -> pst_ s1 = pst_ s -> wp m s1 (fun _ s' => follows s1 s' /\ C s')) -> within lim s ->
  wp (in_range p m) s (fun _ s' => follows s s' /\ C s').
Proof.
  intros HC Hm Hi. unfold in_range. apply wp_bind, wp_get, wp_bind, wp_modify, wp_bind.
  eapply wp_mono; [apply Hm; [exact Hi|done]|]. intros x s2 [[F [(?&?&?&?&?&?&?&?) Pf]] Hc]. apply wp_bind, wp_modify, wp_ret.
  split; [|by apply HC]. split; [exact F|]. split; [by repeat split|exact Pf].
Qed.
Lemma total_in_range {A} (m : P A) p : total lim m -> total lim (in_range p m).
Proof.
  intros Hm s Hi. eapply wp_mono; [apply (in_range_spec m p s (fun _ => True)); [done| |done]|by intros x s' [F _]].
  intros s1 Hi1 _. eapply wp_mono; [by apply Hm|]. done.
Qed.
Lemma strict_in_range {A} (m : P A) p : strict m -> strict (in_range p m).
Proof.
  intros Hm s Hi He. apply (in_range_spec m p s (fun s' => (i_ (pst_ s) < i_ (pst_ s'))%nat)); [done| |done].
  intros s1 Hi1 E1. rewrite <- E1. apply (Hm s1 Hi1). cbn. by rewrite E1.
Qed.

Lemma statement_tail owner labels (f g : Stmt.t -> Stmt.t) :
  let m := (let* s :=
      (if? ((fun st => bool_decide (Token.kind (cur st) = Tok.Word)) &&& looksLikeAssignment &&&
            (fun st => stmtKeywordSpelling (Token.text_ (cur st))))
       then probeKeywordStatement self owner labels else ret None) in
    match s with
    | Some s => closeWithEndLabels (f s)
    | None =>
        let* k := keywordStatement self owner labels false in
        match k with
        | Some k => closeWithEndLabels (g k)
        | None => let* s := lift parseAssignment in ret (option_map g s)
        end
    end) in strict m /\ total lim m.
Proof.
  assert (advances lim got (if? ((fun st => bool_decide (Token.kind (cur st) = Tok.Word)) &&& looksLikeAssignment &&&
            (fun st => stmtKeywordSpelling (Token.text_ (cur st))))
       then probeKeywordStatement self owner labels else ret None)) as Hp.
  { apply advances_if; [apply advances_probe|by apply advances_stop]. }
  pose proof (advances_keywordStatement owner labels false) as Hk.
  assert (forall k : option Stmt.t, total lim match k with Some k => closeWithEndLabels (g k)
    | None => let* s := lift parseAssignment in ret (option_map g s) end) as Ht by (intros [k|]; totality).
  assert (forall s : option Stmt.t, total lim match s with Some s => closeWithEndLabels (f s) | None =>
      let* k := keywordStatement self owner labels false in
        match k with Some k => closeWithEndLabels (g k) | None => let* s := lift parseAssignment in ret (option_map g s) end end) as Hs.
  { intros [s|]; [totality|]. apply total_bind; [by eapply advances_total|exact Ht]. }
  split; [|apply total_bind; [by eapply advances_total|exact Hs]].
  eapply strict_advances; [exact Hp|exact Hs|]. intros [s|] E; [done|].
  eapply strict_advances; [exact Hk|exact Ht|]. intros [k|] E'; [done|]. totality.
Qed.
Lemma advances_semi : advances lim (fun b : bool => b) (lift (eat Tok.Semi)).
Proof.
  apply advances_lift. intros st Hi. apply wp_eat; [apply Hi|done|by intros st' F C|]. intros _. split; [by apply (within_follows lim)|done].
Qed.
Lemma labelled_statement_spec owner loc pre labels elems :
  strict (labelled_statement self owner loc pre labels elems) /\ total lim (labelled_statement self owner loc pre labels elems).
Proof.
  unfold labelled_statement. cbv zeta.
  destruct (statement_tail owner labels (fun s => s <| Stmt.prefixes := pre |> <| Stmt.labelElems := elems |>)
    (fun s => s <| Stmt.prefixes := pre |> <| Stmt.labelElems := elems |> <| Stmt.labels := labels |>)) as [Ts Tt].
  match type of Ts with ParserBase.strict _ ?t => set (tail := t) in Ts, Tt |- * end. clearbody tail.
  match goal with |- strict (bind _ (fun x => if x then ?e else bind _ (fun y => if y then ?k else
    bind _ (fun z => if z then ?p else bind _ (fun w => if w then ?n else ?r))))) /\ _ =>
    assert (strict e) as He; [|assert (strict k) as Hk; [|assert (strict p) as Hp; [|assert (strict n) as Hn; [|
      assert (strict r) as Hr; [|assert (total lim r) as Hrt]]]]] end.
  - apply strict_stays.
    { destruct (bool_decide _); [apply stays_ret|]. apply stays_lift, stays_report. }
    intros _. apply strict_bind; [auto with total nocore|]. intros e. totality.
  - auto with total nocore.
  - apply strict_pred; [auto with total nocore|]. intros _. apply total_bind; [by apply total_parseProcedure|]. intros _. totality.
  - destruct labels as [|l ls]; [auto with total nocore|]. apply strict_bind; [auto with total nocore|]. intros s. totality.
  - eapply strict_advances; [apply advances_semi|intros [|]; [totality|exact Tt]|]. intros [|] E; [done|exact Ts].
  - apply total_bind; [eapply advances_total, advances_semi|]. intros [|]; [totality|exact Tt].
  - split; [by repeat apply strict_if|]. repeat (apply total_branch; [auto with total nocore|done|]). done.
Qed.

Lemma statement_spec owner : total lim (statement self owner) /\ strict (statement self owner).
Proof.
  assert (forall loc pre, let m := (let* (labels, elems) := lift label_prefixes in labelled_statement self owner loc pre labels elems) in
    strict m /\ total lim m) as Hm.
  { intros loc pre. split.
    - apply strict_total_bind; [auto with total nocore|intros [ls es]; apply labelled_statement_spec..].
    - apply total_bind; [auto with total nocore|]. intros [ls es]. apply labelled_statement_spec. }
  assert (forall loc (r : option Prefixes), total lim match r with None => ret None | Some pre =>
    in_range pre (let* (labels, elems) := lift label_prefixes in labelled_statement self owner loc pre labels elems) end) as Hr.
  { intros loc [pre|]; [apply total_in_range, Hm|totality]. }
  unfold statement. split.
  - apply total_bind; [totality|]. intros loc. apply total_bind; [totality|]. intros p. apply total_bind; [auto with total nocore|]. apply Hr.
  - apply strict_stays; [apply stays_get|]. intros loc. apply strict_stays; [apply stays_get|]. intros p.
    eapply strict_advances; [apply advances_lift, advances_parseCondPrefixes|apply Hr|]. intros [pre|] E; [|done].
    apply strict_in_range, Hm.
Qed.
End statements.

(** ** Programs *)
Section program.
Context `{EndsEof}.
Lemma statement_fuel_parses n : forall lim, (lim <= n)%nat -> parses lim (statement_fuel n).
Proof.
  induction n as [|n IH]; intros lim Hn owner.
  - assert (lim = 0%nat) as -> by lia. split; [apply total_zero|]. intros st (Hi & Hb & _). unfold ExprTotal.inside in Hi. lia.
  - apply statement_spec, IH. lia.
Qed.
Lemma parseStatement_parses lim : parses lim parseStatement.
Proof.
  intros owner. assert (forall s : parser, within lim s -> within (fuel_left toks (pst_ s)) s) as Hw.
  { intros s (? & ? & ?). split; [done|]. split; [cbn; unfold fuel_left; lia|done]. }
  split.
  - intros s Hi. apply wp_bind, wp_get. by apply (statement_fuel_parses _ (fuel_left toks (pst_ s))), Hw.
  - intros s Hi He. apply wp_bind, wp_get. apply (statement_fuel_parses _ (fuel_left toks (pst_ s))); [done|by apply (Hw s)|done].
Qed.
#[local] Hint Resolve parseStatement_parses : total.
Lemma total_parsePackage lim name loc : total lim (parsePackage name loc).
Proof.
  intros s Hi. set (k := length (procs (prog_ s))). unfold parsePackage, startProc, on_procs.
  apply wp_bind, wp_bind, wp_get, wp_bind, wp_modify, wp_ret. fold k.
  set (s1 := s <| prog_ := _ |>). pose proof (grown_start lim s [new_proc name loc None] Hi) as G1. fold k s1 in G1.
  assert (within lim s1) as Hi1 by exact Hi. clearbody s1. apply wp_bind.
  eapply wp_mono; [apply (total_lift lim package_clause); [totality|exact Hi1]|]. intros l s2 F2.
  assert (grown k s s2) as G2 by by eapply grown_follows. apply wp_bind, wp_set_proc.
  set (s3 := s2 <| prog_ := _ |>). assert (grown k s s3) as G3 by by apply grown_set_proc. clearbody s3.
  assert (within lim s3) as Hi3 by by apply (grown_within lim k s). apply wp_bind.
  eapply wp_mono; [apply (total_parseBody lim parseStatement (parseStatement_parses lim) k name); exact Hi3|]. intros [b e] s4 F4.
  assert (grown k s s4) as G4 by by eapply grown_follows. apply wp_bind, wp_set_proc.
  set (s5 := s4 <| prog_ := _ |>). assert (grown k s s5) as G5 by by apply grown_set_proc. clearbody s5.
  assert (within lim s5) as Hi5 by by apply (grown_within lim k s).
  eapply wp_mono; [apply (total_unmatched_end lim); exact Hi5|]. intros [] s6 F6. apply grown_all. by eapply grown_follows.
Qed.
Lemma strict_parseExternalProcedure lim : strict (S := parser) lim parseExternalProcedure.
Proof.
  unfold parseExternalProcedure. apply strict_bind; [auto with total nocore|]. intros [[[pre [name loc]] entries]|]; [|totality].
  apply total_bind; [totality|]. intros [|].
  - apply total_bind; [destruct (bool_decide _); [apply total_ret|auto with total nocore]|]. intros _. apply total_parsePackage.
  - apply total_bind; [totality|]. intros [|]; [|auto with total nocore]. apply total_bind; [auto with total nocore|]. intros _.
    apply total_parseProcedure, parseStatement_parses.
Qed.
End program.
