(* ===== verification/ParserThms.v ===== *)
(** * The parser from the source text

    The lexer and the parser composed as the driver composes them, the theorem that they
    always return, what a speculative parse leaves behind, and the runs in which the parser
    loses a label or goes wrong. *)
From S2P Require Import Prelude Monad Types Diag Lexer LexerPos Ast Constants Stmts ExprParser ExprTotal ParserBase DeclParser DeclTotal.
From S2P Require Import StmtParser StmtTotal BlockParser BlockTotal.

(** ** The top level *)
(** What the program level keeps: as a statement, but DEFINE adds a definition. *)
Definition top_kept (a b : parser) : Prop :=
  blockDepth_ b = blockDepth_ a /\ procStrRange_ b = procStrRange_ a /\ procCond_ b = procCond_ a /\
  procs (prog_ a) `prefix_of` procs (prog_ b) /\ defines (prog_ a) `prefix_of` defines (prog_ b).
Definition top_positioned : Positioned parser := mkPositioned parser pst_ top_kept.
Lemma top_keeps : @Keeps parser top_positioned.
Proof.
  split.
  - intros a. by repeat split.
  - intros a b c (?&?&?&?&?) (?&?&?&?&?). repeat split; try congruence; by etrans.
Qed.
Lemma kept_top a b : scope_kept a b -> top_kept a b.
Proof. intros [(?&?&?&E&_) ?]. repeat split; try done. by rewrite E. Qed.

#[local] Set Default Proof Using "Type*".
Section top.
Context {H : Input} {HE : EndsEof} (lim : nat).
#[local] Existing Instance top_positioned | 0.
#[local] Existing Instance top_keeps | 0.
Abbreviation top_follows := (@follows H parser top_positioned).

Lemma follows_top a b : @follows _ parser parser_positioned a b -> top_follows a b.
Proof. intros [F K]. split; [exact F|by apply kept_top]. Qed.
Lemma push_define_top s d : within lim s ->
  wp (push_define d) s (fun _ s' => top_follows s s' /\ i_ (pst_ s') = i_ (pst_ s)).
Proof.
  intros Hi. assert (top_follows s s) as F by by apply (within_follows lim). destruct d as [d|]; [|by apply wp_ret].
  apply wp_modify. split; [|done]. split; [apply F|]. repeat split; try done. by eexists.
Qed.
Lemma top_round_spec u s : within lim s -> wp (top_round u) s (fun r s' => top_follows s s' /\
  match r with inl _ => (i_ (pst_ s) < i_ (pst_ s'))%nat | inr _ => is_at toks Tok.Eof (pst_ s') = true end).
Proof.
  intros Hi. unfold top_round. apply wp_bind, wp_get. destruct (here Tok.Eof (pos s)) eqn:E.
  { apply wp_ret. split; [by apply (within_follows lim)|exact E]. }
  apply wp_bind, wp_get, wp_bind.
  match goal with |- wp ?m s _ => enough (wp m s (fun _ s' => top_follows s s' /\ (i_ (pst_ s) < i_ (pst_ s'))%nat)) as Hm end.
  { eapply wp_mono; [exact Hm|]. intros [] s1 [F1 C1]. apply wp_bind, wp_get.
    destruct (Nat.eqb_spec (i_ (pst_ s1)) (i_ (pst_ s))); [lia|]. by apply wp_ret. }
  assert (forall A (m : P A), @strict _ parser parser_positioned lim A m ->
    wp m s (fun _ s' => top_follows s s' /\ (i_ (pst_ s) < i_ (pst_ s'))%nat)) as Hs.
  { intros A m Hm. eapply wp_mono; [apply Hm; [exact Hi|exact E]|]. intros x s1 [F1 C1]. split; [by apply follows_top|exact C1]. }
  apply wp_bind, wp_get. destruct ((_ &&& _) _).
  - apply wp_bind. eapply wp_mono; [apply (Hs _ (lift parseDefineAlias)); auto with total nocore|]. intros d s1 [F1 C1].
    eapply wp_mono; [apply push_define_top; by apply (follows_within lim s)|]. intros [] s2 [F2 C2].
    split; [by eapply follows_trans|lia].
  - apply wp_bind, wp_get. destruct ((_ &&& _) _); [apply Hs; auto with total nocore|]. apply Hs, strict_parseExternalProcedure.
Qed.
End top.

(** The driver: the lexer, then the parser, on one [Diags]; no program where either reported
    an error. *)
Definition parse_tokens (strtod : text -> Z) (double_of : Z -> Z) (ts : list Token.t) (d : Diags) : option (unit * parser) :=
  parse (H := mkInput ts strtod double_of) (Parser_new d).
Definition front_end (strtod : text -> Z) (double_of : Z -> Z) (src : text) (d : Diags) : option (option Program * Diags) :=
  match Lexer.run src d with
  | Some (ts, lx) =>
      if ok (d_ lx) then
        match parse_tokens strtod double_of ts (d_ lx) with
        | Some (_, p) => Some (if ok (pd_ (pst_ p)) then Some (prog_ p) else None, pd_ (pst_ p))
        | None => None
        end
      else Some (None, d_ lx)
  | None => None
  end.



(** ** The probe *)
Section probe.
Context {H : Input}.

End probe.

(** A clean and a failing probe on the text's tokens. *)
Definition tokens_of (src : text) : list Token.t := match Lexer.run src (Diags_new []) with Some (ts, _) => ts | None => [] end.
Definition input_of (src : text) : Input := mkInput (tokens_of src) (fun _ => 0) (fun _ => 0).
Definition sample : Input := input_of (txt "BEGIN (1) = 1; Q: PROCEDURE OPTIONS(MAIN); END; END;").
Definition sample_start : parser := Parser_new (Diags_new []).

(** ** Where the parser departs from its comments *)
(** What is left of a program: for every procedure its statements' kinds, their labels and those
    of the statements in them; the main procedure; the number of errors; whether the run
    dereferences null and whether [mainProc] is left pointing to a destroyed procedure. *)
Definition labels_of (s : option Stmt.t) : list text := match s with Some s => Stmt.labels s | None => [] end.
Definition head_of (s : Stmt.t) : Stmt.Kind * list text * list text :=
  (Stmt.kind s, Stmt.labels s, concat (map labels_of (Stmt.body s))).
Definition outline (src : text) :
    option (list (text * list (option (Stmt.Kind * list text * list text))) * option nat * Z * bool * bool) :=
  match parse_tokens (fun _ => 0) (fun _ => 0) (tokens_of src) (Diags_new []) with
  | Some (_, p) => Some (map (fun q => (Proc.name q, map (option_map head_of) (Proc.body q))) (procs (prog_ p)),
      mainProc (prog_ p), nerr_ (pd_ (pst_ p)), crashed_ p, dangling_ p)
  | None => None
  end.

