(* ===== verification/Hir.v ===== *)
(** * The high-level IR

    src/hir.h and src/sema.h's [Symbol] as the lowering and the decision layer use it.
    A [Symbol*], an AST [Proc*] and an [HProc*] are indices; an owned child ([HExprP],
    [HStmtP]) is the child itself, [None] when null; a pointer that a symbol keeps into
    the IR is the expression it points to. *)
From S2P Require Import Prelude Types Diag Lexer Ast Stmts.

Module HExpr.
Inductive Kind :=
  | IntLit | FltLit | DecLit | CharLit | BitLit | VarRef | Binary | Unary | Call
  | Subscript | Star | ComplexLit | Convert | TypeTag.
#[global] Instance Kind_dec : EqDecision Kind.
Proof. solve_decision. Defined.

Inductive t : Type := mk {
  kind : Kind; loc : SourceLoc; ty : Ty; ival : Z; wideIval : Z; fval : Z; decScale : Z; decPrec : Z; sval : text;
  name : text; path : list text; memberPath : list Z; sym : option nat; locPtr : option t;
  op : Tok.t; a : option t; b : option t; args : list (option t); convTo : Ty; isLabel : bool }.

(** The default member initialisers. *)
Definition default : t :=
  mk IntLit (mkLoc 0 0) Ty_default 0 0 0 0 0 [] [] [] [] None None Tok.Eof None None [] Ty_default false.
Definition lit (v : Z) : t :=
  mk IntLit (mkLoc 0 0) Ty_default v 0 0 0 0 [] [] [] [] None None Tok.Eof None None [] Ty_default false.
Definition var (s : nat) : t :=
  mk VarRef (mkLoc 0 0) Ty_default 0 0 0 0 0 [] [] [] [] (Some s) None Tok.Eof None None [] Ty_default false.
End HExpr.

Inductive SymKind := Var | Param | ProcName | Generic.
#[global] Instance SymKind_dec : EqDecision SymKind.
Proof. solve_decision. Defined.

(** What the lowering of the declarations leaves on a symbol. *)
Record SymLowered := mkLowered {
  dynUb : option HExpr.t; dynUbAxes : list (option HExpr.t); dynLb : option HExpr.t; dynLbAxes : list (option HExpr.t);
  dynLenExpr : option HExpr.t; dynMembers : list (DynMember HExpr.t); definedIdx : list (option HExpr.t);
  initCallH : option HExpr.t }.
Definition not_lowered : SymLowered := mkLowered None [] None [] None [] [] None.

(** What the semantic analysis keeps on a symbol besides. *)
Record SymMore := mkMore {
  sloc : SourceLoc; implicit : bool; symInitCall : option Expr.t; initElems : list Expr.t; symFile : bool; isCond : bool;
  symIrName : text }.
Definition no_more : SymMore := mkMore (mkLoc 0 0) false None [] false false [].

(** [entryStmt] is what the code reads of [entry]: the parameters of the ENTRY statement. *)
Record Symbol := mkSymbol {
  skind : SymKind; isStatic : bool; external : bool; isEntryC : bool; isEntryVar : bool;
  controlledSym : bool; basedBase : option nat; basedNoPtr : bool; definedBase : option nat;
  proc : option nat; owner : option nat;
  sname : text; sty : Ty; isValue : bool; initExpr : option Expr.t; entryByValue : bool; entryStmt : option (list nat);
  low : SymLowered; more : SymMore }.

Definition isBased (s : Symbol) : bool := bool_decide (is_Some (basedBase s)) || basedNoPtr s.

(** A variable of procedure [o] (of no procedure for [None]), otherwise plain. *)
Definition plainSym (kd : SymKind) (static : bool) (p o : option nat) : Symbol :=
  mkSymbol kd static false false false false None false None p o [] Ty_default false None false None not_lowered no_more.
Definition plainVar (o : option nat) : Symbol := plainSym Var false None o.
Definition procSym (p : nat) : Symbol := plainSym ProcName false (Some p) None.

Module HStmt.
Inductive Kind :=
  | Null | Declare_ | Assign | If | Group | Begin | DoWhile | DoIter | Put | Get | CallS
  | Return | Stop | Goto | Entry | Allocate | Free | Open | Close | Leave | Iterate | On
  | Revert | Signal | Display | Read | Write | Rewrite | Delete | Wait | Delay | Format.
#[global] Instance Kind_dec : EqDecision Kind.
Proof. solve_decision. Defined.

Record decl := mkDecl {
  dname : text; dty : Ty; dloc : SourceLoc; level : Z;
  dynBounds : list (option HExpr.t); dynLbBounds : list (option HExpr.t); dynMemberBounds : list (option HExpr.t);
  dynLenBound : option HExpr.t; definedIdxBounds : list (option HExpr.t);
  init : option HExpr.t; initCall : option HExpr.t; dsym : option nat; isEntry : bool; isCondition : bool;
  entryParams : list Ty; entryIsFunction : bool; entryRetTy : Ty; extName : text }.
Definition no_decl : decl :=
  mkDecl [] Ty_default (mkLoc 0 0) 0 [] [] [] None [] None None None false false [] false Ty_default [].

Inductive t : Type := mk {
  kind : Kind; loc : SourceLoc; labels : list text; labelElems : list LabelElem; decls : list decl;
  target : option HExpr.t; value : option HExpr.t; cond : option HExpr.t;
  from : option HExpr.t; to : option HExpr.t; by_ : option HExpr.t; until : bool; forever : bool; byNegConst : bool;
  extraTargets : list (option HExpr.t); byName : bool; prefixes : Prefixes;
  thenS : option t; elseS : option t; body : list (option t); name : text; sym : option nat;
  entry : EntryOpts; stream : StreamOpts HExpr.t; gotoTarget : option HExpr.t; file : FileOpts HExpr.t;
  args : list (option HExpr.t); task : TaskOpts HExpr.t; on_ : OnOpts HExpr.t; unit : option t; onScope : Z;
  alloc : AllocOpts HExpr.t }.
Definition items (s : t) : list (option HExpr.t) := items_ (stream s).
Definition stringTarget (s : t) : option HExpr.t := stringTarget_ (stream s).
Definition oncodeExpr (s : t) : option HExpr.t := oncodeExpr_ (on_ s).
Definition condKey (s : t) : Z := condKey_ (on_ s).

(** A statement of kind [k] with the children that the samples use. *)
Definition sample (k : Kind) (tg v f l b : option HExpr.t) (ss : list t) (s : option nat) (xs : list HExpr.t) : t :=
  mk k (mkLoc 0 0) [] [] [] tg v None f l b false false false [] false no_prefixes None None (Some <$> ss) [] s
    no_entry no_stream None no_file (Some <$> xs) no_task no_on None (-1) no_alloc.
Definition bare (k : Kind) : t := sample k None None None None None [] None [].
Definition assign (x v : HExpr.t) : t := sample Assign (Some x) (Some v) None None None [] None [].
Definition call (s : nat) (l : list HExpr.t) : t := sample CallS None None None None None [] (Some s) l.
(** [DO s = f TO l] (no TO for [None]). *)
Definition doIter (s : nat) (f : HExpr.t) (l : option HExpr.t) (ss : list t) : t :=
  sample DoIter None None (Some f) l None ss (Some s) [].
End HStmt.

Record HProc := mkProc {
  src : option nat; isFunction : bool; retTy : Ty; paramSyms : list nat;
  body : list (option HStmt.t);
  pname : text; ploc : SourceLoc; isMain : bool; isExternal : bool; isRecursive : bool; isPackage : bool;
  params : list text; entryNames : list text; parent : option nat; localSyms : list nat; directUses : list nat;
  env : list nat; irName : text }.
(** A procedure with a body and nothing else. *)
Definition bareProc (i : nat) (f : bool) (r : Ty) (ps : list nat) (b : list (option HStmt.t)) : HProc :=
  mkProc (Some i) f r ps b [] (mkLoc 0 0) false false false false [] [] None [] [] [] [].
(** [mainProc] is an index into [procs]. *)
Record HProgram := mkHProgram { procs : list HProc; mainProc : option nat }.
