(* ===== verification/HirLower.v ===== *)
(** * Lowering to the high-level IR ([src/hir.cpp])

    [lower] mirrors the typed tree node for node and makes each implicit conversion an
    explicit [Convert].  The symbols are a table that the declarations update ([symtab]);
    an expression only reads it.  [procs] is the program's table of procedures, through
    which a [Symbol::proc] is followed. *)
From S2P Require Import Prelude Types Diag Lexer Ast Stmts Hir.

(** ** Conversions *)
Definition convRequired (src dst : Ty) : bool :=
  if negb (Bool.eqb (isBit src) (isBit dst)) then true
  else if isBit src && isBit dst && negb (len src =? len dst) then true
  else if negb (Bool.eqb (bool_decide (k src = Float)) (bool_decide (k dst = Float))) then true
  else if isNumeric src && isNumeric dst && negb (bool_decide (k src = Float)) && negb (bool_decide (k dst = Float))
  then negb (intBits src =? intBits dst) || negb (Types.scale src =? Types.scale dst)
  else false.

Definition convert (e : HExpr.t) (dst : Ty) : HExpr.t :=
  HExpr.mk HExpr.Convert (HExpr.loc e) dst 0 0 0 0 0 [] [] [] [] None None Tok.Eof (Some e) None [] dst false.
Definition convIf (e : option HExpr.t) (dst : Ty) : option HExpr.t :=
  match e with
  | None => None
  | Some e => if negb (convRequired (HExpr.ty e) dst) then Some e else Some (convert e dst)
  end.

(** ** Expressions *)
Definition mapKind (kd : Expr.Kind) : HExpr.Kind :=
  match kd with
  | Expr.IntLit => HExpr.IntLit | Expr.FltLit => HExpr.FltLit | Expr.DecLit => HExpr.DecLit
  | Expr.CharLit => HExpr.CharLit | Expr.BitLit => HExpr.BitLit | Expr.VarRef => HExpr.VarRef
  | Expr.Binary => HExpr.Binary | Expr.Unary => HExpr.Unary | Expr.Call => HExpr.Call
  | Expr.Subscript => HExpr.Subscript | Expr.Star => HExpr.Star | Expr.ComplexLit => HExpr.ComplexLit
  | Expr.TypeTag => HExpr.TypeTag
  end.

Definition symtab := nat -> Symbol.

Section expressions.
Context (procs : list Proc.t) (tab : symtab).

Definition sym_of (e : Expr.t) : option Symbol := tab <$> Expr.sym e.
(** The parameter types of a procedure. *)
Definition param_types (ps : list nat) : list Ty := (fun s => sty (tab s)) <$> ps.
Definition proc_params (p : nat) : list nat :=
  match procs !! p with Some pr => Proc.paramSyms pr | None => [] end.

(** The literal that a use of a VALUE constant stands for, when it is exactly that. *)
Definition lowerValueConst (e : Expr.t) : option HExpr.t :=
  match sym_of e with
  | None => None
  | Some s =>
      match initExpr s with
      | None => None
      | Some ini =>
          if negb (isValue s) then None
          else if negb (bool_decide (Expr.kind ini = Expr.CharLit)) && negb (bool_decide (Expr.kind ini = Expr.BitLit)) then None
          else
            let isC := bool_decide (Expr.kind ini = Expr.CharLit) in
            if negb (if isC then isChar (sty s) else isBit (sty s)) then None
            else if varying (sty s) || varyingz (sty s) then None
            else if negb (len (sty s) =? Z.of_nat (length (Expr.sval ini))) then None
            else
              Some (HExpr.mk (if isC then HExpr.CharLit else HExpr.BitLit) (Expr.loc e) (sty s) 0 0 0 0 0
                      (Expr.sval ini) [] [] [] None None Tok.Eof None None [] Ty_default false)
      end
  end.

(** Where the source converts the first two operands, or zips with the parameters. *)
Definition conv_first_two (d0 d1 : Ty) (l : list (option HExpr.t)) : list (option HExpr.t) :=
  match l with x :: y :: l => convIf x d0 :: convIf y d1 :: l | _ => l end.
Definition conv_first (d : Ty) (l : list (option HExpr.t)) : list (option HExpr.t) :=
  match l with x :: l => convIf x d :: l | [] => [] end.
Fixpoint conv_zip (l : list (option HExpr.t)) (ds : list Ty) : list (option HExpr.t) :=
  match l, ds with
  | x :: l, d :: ds => convIf x d :: conv_zip l ds
  | l, _ => l
  end.
(** MULTIPLY matches the width of the product and keeps the operand's scale. *)
Definition operand_ty (common : Ty) (x : option HExpr.t) : Ty :=
  Types.set_scale match x with Some x => if isFixed (HExpr.ty x) then Types.scale (HExpr.ty x) else 0 | None => 0 end common.
Definition nth_arg (i : nat) (l : list (option HExpr.t)) : option HExpr.t := mjoin (l !! i).

Definition conv_args (e : Expr.t) (l : list (option HExpr.t)) : list (option HExpr.t) :=
  let n := Expr.name e in
  if bool_decide (n = txt "MIN") || bool_decide (n = txt "MAX") || bool_decide (n = txt "MOD") || bool_decide (n = txt "DIVIDE")
  then conv_first_two (Expr.ty e) (Expr.ty e) l
  else if bool_decide (n = txt "MULTIPLY")
  then conv_first_two (operand_ty (Expr.ty e) (nth_arg 0 l)) (operand_ty (Expr.ty e) (nth_arg 1 l)) l
  else if bool_decide (n = txt "PRECISION") then conv_first (Expr.ty e) l
  else if bool_decide (n = txt "ROUND") then conv_first (Expr.ty e) l
  else
    match sym_of e with
    | Some s => match proc s with Some p => conv_zip l (param_types (proc_params p)) | None => l end
    | None => l
    end.

(** The parts of [lowerExpr], which calls them with itself for the children. *)
Section parts.
Context (rec : bool -> Expr.t -> HExpr.t).
Definition lowerExprBase (e : Expr.t) (substValue : bool) : HExpr.t :=
  HExpr.mk (mapKind (Expr.kind e)) (Expr.loc e) (Expr.ty e) (Expr.ival e) (Expr.wideIval e) (Expr.fval e) (Expr.decScale e)
    (Expr.decPrec e) (Expr.sval e) (Expr.name e) (Expr.path e) (Expr.memberPath e) (Expr.sym e)
    (match Expr.locPtr e with Some x => Some (rec substValue x) | None => None end) (Expr.op e)
    (match Expr.a e with Some x => Some (rec substValue x) | None => None end)
    (match Expr.b e with Some x => Some (rec substValue x) | None => None end)
    (map (fun o => match o with Some x => Some (rec substValue x) | None => None end) (Expr.args e))
    Ty_default (Expr.isLabel e).
Definition set_args (l : list (option HExpr.t)) (h : HExpr.t) : HExpr.t :=
  HExpr.mk (HExpr.kind h) (HExpr.loc h) (HExpr.ty h) (HExpr.ival h) (HExpr.wideIval h) (HExpr.fval h) (HExpr.decScale h)
    (HExpr.decPrec h) (HExpr.sval h) (HExpr.name h) (HExpr.path h) (HExpr.memberPath h) (HExpr.sym h) (HExpr.locPtr h)
    (HExpr.op h) (HExpr.a h) (HExpr.b h) l (HExpr.convTo h) (HExpr.isLabel h).
(** A built-in reads its arguments; a procedure may write one passed by reference. *)
Definition by_value (e : Expr.t) : bool := match sym_of e with Some s => entryByValue s | None => true end.
Definition lowerCallExpr (e : Expr.t) (substValue : bool) : HExpr.t :=
  let h := lowerExprBase e (substValue && by_value e) in
  set_args (conv_args e (HExpr.args h)) h.
(** The kind that [lowerSubscriptExpr] sets is the one [mapKind] gave. *)
Definition lowerSubscriptExpr (e : Expr.t) (substValue : bool) : HExpr.t := lowerExprBase e substValue.
End parts.

Fixpoint lowerExpr (substValue : bool) (e : Expr.t) : HExpr.t :=
  match (if substValue && bool_decide (Expr.kind e = Expr.VarRef) then lowerValueConst e else None) with
  | Some c => c
  | None =>
      match Expr.kind e with
      | Expr.Call => lowerCallExpr lowerExpr e substValue
      | Expr.Subscript => lowerSubscriptExpr lowerExpr e substValue
      | _ => lowerExprBase lowerExpr e substValue
      end
  end.
(** [lowerExpr] with its default argument, on a possibly null child. *)
Definition lowerE (e : option Expr.t) : option HExpr.t := lowerExpr true <$> e.
Definition lowerEs (l : list (option Expr.t)) : list (option HExpr.t) := map lowerE l.

(** ** Format items *)
Definition format_kind (f : FormatItem.t Expr.t) (subs : list (FormatItem.t HExpr.t)) (c : option HExpr.t)
    (its : list (FormatItem.t HExpr.t)) : FormatItem.t HExpr.t :=
  FormatItem.mk (FormatItem.kind f) (lowerE (FormatItem.w f)) (lowerE (FormatItem.d f)) (lowerE (FormatItem.s f))
    (FormatItem.remote f) (FormatItem.pic f) subs c its.
(** The parts of a complex item, and theirs; nothing below is copied. *)
Definition lowerSubSub (f : FormatItem.t Expr.t) : FormatItem.t HExpr.t := format_kind f [] None [].
Definition lowerSub (f : FormatItem.t Expr.t) : FormatItem.t HExpr.t :=
  format_kind f (map lowerSubSub (FormatItem.subs f)) None [].
Fixpoint lowerFormatItem (f : FormatItem.t Expr.t) : FormatItem.t HExpr.t :=
  if bool_decide (FormatItem.kind f = FormatItem.Repeat)
  then format_kind f (map lowerSub (FormatItem.subs f)) (lowerE (FormatItem.count f)) (map lowerFormatItem (FormatItem.items f))
  else format_kind f (map lowerSub (FormatItem.subs f)) None [].
End expressions.

(** ** Declarations *)
Definition set_low (l : SymLowered) (s : Symbol) : Symbol :=
  mkSymbol (skind s) (isStatic s) (external s) (isEntryC s) (isEntryVar s) (controlledSym s) (basedBase s) (basedNoPtr s)
    (definedBase s) (proc s) (owner s) (sname s) (sty s) (isValue s) (initExpr s) (entryByValue s) (entryStmt s) l (more s).
Definition on_low (i : option nat) (f : SymLowered -> SymLowered) (tab : symtab) : symtab :=
  match i with
  | None => tab
  | Some i => fun j => if decide (j = i) then set_low (f (low (tab j))) (tab j) else tab j
  end.

(** [dynUbAxes.assign(...)] and [dynUb = dynUbAxes[0]] when there is one. *)
Definition low_bounds (ub lb : list (option HExpr.t)) (l : SymLowered) : SymLowered :=
  mkLowered (match ub with x :: _ => x | [] => dynUb l end) ub (match lb with x :: _ => x | [] => dynLb l end) lb
    (dynLenExpr l) (dynMembers l) (definedIdx l) (initCallH l).
Definition low_len (e : option HExpr.t) (l : SymLowered) : SymLowered :=
  mkLowered (dynUb l) (dynUbAxes l) (dynLb l) (dynLbAxes l) e (dynMembers l) (definedIdx l) (initCallH l).
Definition low_members (m : list (DynMember HExpr.t)) (l : SymLowered) : SymLowered :=
  mkLowered (dynUb l) (dynUbAxes l) (dynLb l) (dynLbAxes l) (dynLenExpr l) (dynMembers l ++ m) (definedIdx l) (initCallH l).
Definition low_defined (d : list (option HExpr.t)) (l : SymLowered) : SymLowered :=
  mkLowered (dynUb l) (dynUbAxes l) (dynLb l) (dynLbAxes l) (dynLenExpr l) (dynMembers l) d (initCallH l).
Definition low_call (e : option HExpr.t) (l : SymLowered) : SymLowered :=
  mkLowered (dynUb l) (dynUbAxes l) (dynLb l) (dynLbAxes l) (dynLenExpr l) (dynMembers l) (definedIdx l) e.

Section statements.
Context (procs : list Proc.t).

Definition lower_member (tab : symtab) (m : DynMember Expr.t) : DynMember HExpr.t :=
  mkDynMember (dm_path m) (lowerE procs tab (dm_ub m)) (lowerE procs tab (dm_lb m)).
(** The bounds that [dynMemberBounds] owns, in the order they are pushed. *)
Definition member_bounds (m : DynMember HExpr.t) : list (option HExpr.t) :=
  (if dm_ub m then [dm_ub m] else []) ++ (if dm_lb m then [dm_lb m] else []).
Definition lower_defined (tab : symtab) (d : DefinedSub) : option HExpr.t :=
  match ds_expr d with
  | None => None
  | Some e => if isub d || bool_decide (Expr.kind e = Expr.IntLit) then None else Some (lowerExpr procs tab true e)
  end.

(** One item: the lowered item, and the table with what rides on its symbol. *)
Definition lowerDecl (d : DeclItem.t) (tab : symtab) : HStmt.decl * symtab :=
  let sy := DeclItem.sym d in
  let ub := lowerEs procs tab (DeclItem.dynBounds d) in
  let lb := lowerEs procs tab (DeclItem.dynLbBounds d) in
  let init := lowerE procs tab (DeclItem.init d) in
  let tab := on_low sy (low_bounds ub lb) tab in
  let slen := if sy then lowerE procs tab (DeclItem.slenExpr d) else None in
  let tab := if slen then on_low sy (low_len slen) tab else tab in
  let ms := if sy then map (lower_member tab) (DeclItem.dynMembers d) else [] in
  let tab := on_low sy (low_members ms) tab in
  let subs := DeclItem.definedSubs (DeclItem.att d) in
  let idx := if sy then map (lower_defined tab) subs else [] in
  let tab := match subs with [] => tab | _ => on_low sy (low_defined idx) tab end in
  let call := if sy then lowerE procs tab (DeclItem.initCall d) else None in
  let tab := if call then on_low sy (low_call call) tab else tab in
  (HStmt.mkDecl (DeclItem.name d) (DeclItem.ty d) (DeclItem.loc d) (DeclItem.level d) ub lb (flat_map member_bounds ms) slen idx
     init call sy (DeclItem.isEntry d) (DeclItem.isCondition d) (DeclItem.entryParams d) (DeclItem.entryIsFunction d)
     (DeclItem.entryRetTy d) (DeclItem.extName d), tab).

(** A list lowered in order, the table passed along. *)
Section in_order.
Context {A B : Type} (f : A -> symtab -> B * symtab).
Fixpoint in_order (l : list A) (tab : symtab) : list B * symtab :=
  match l with
  | [] => ([], tab)
  | x :: l => let '(y, tab) := f x tab in let '(ys, tab) := in_order l tab in (y :: ys, tab)
  end.
End in_order.

(** ** Statements *)
(** The cast between the two enumerations, which list the same kinds in the same order. *)
Definition hkind (kd : Stmt.Kind) : HStmt.Kind :=
  match kd with
  | Stmt.Null => HStmt.Null | Stmt.Declare_ => HStmt.Declare_ | Stmt.Assign => HStmt.Assign | Stmt.If => HStmt.If
  | Stmt.Group => HStmt.Group | Stmt.Begin => HStmt.Begin | Stmt.DoWhile => HStmt.DoWhile | Stmt.DoIter => HStmt.DoIter
  | Stmt.Put => HStmt.Put | Stmt.Get => HStmt.Get | Stmt.CallS => HStmt.CallS | Stmt.Return => HStmt.Return
  | Stmt.Stop => HStmt.Stop | Stmt.Goto => HStmt.Goto | Stmt.Entry => HStmt.Entry | Stmt.Allocate => HStmt.Allocate
  | Stmt.Free => HStmt.Free | Stmt.Open => HStmt.Open | Stmt.Close => HStmt.Close | Stmt.Leave => HStmt.Leave
  | Stmt.Iterate => HStmt.Iterate | Stmt.On => HStmt.On | Stmt.Revert => HStmt.Revert | Stmt.Signal => HStmt.Signal
  | Stmt.Display => HStmt.Display | Stmt.Read => HStmt.Read | Stmt.Write => HStmt.Write | Stmt.Rewrite => HStmt.Rewrite
  | Stmt.Delete => HStmt.Delete | Stmt.Wait => HStmt.Wait | Stmt.Delay => HStmt.Delay | Stmt.Format => HStmt.Format
  | Stmt.DefineAlias | Stmt.DefineConstant => HStmt.Null
  end.

Section parts.
Context (tab : symtab).
Notation lowerE := (lowerE procs tab).
Notation lowerEs := (lowerEs procs tab).

Definition lowerStream (o : StreamOpts Expr.t) : StreamOpts HExpr.t :=
  mkStreamOpts (skip o) (page o) (copy o) (line o) (lowerE (skipCount o)) (lowerE (lineCount o)) (lowerEs (items_ o))
    (edit o) (data o) (map (lowerFormatItem procs tab) (formats o)) (lowerE (stringTarget_ o)).
Definition lowerFile (o : FileOpts Expr.t) : FileOpts HExpr.t :=
  mkFileOpts (fileSym o) (openTitle o) (openInput o) (openUpdate o) (openRecord o) (openKeyed o) (openDirect o)
    (lowerE (openIdent o)) (lowerE (openLinesize o)) (lowerE (openPagesize o)) (lowerE (keyOpt o)) (lowerE (keyToOpt o))
    (lowerE (keyFromOpt o)) (keyNoLock o) (keySet o) (lowerE (replyTarget o)).
Definition lowerTask (o : TaskOpts Expr.t) : TaskOpts HExpr.t :=
  mkTaskOpts (hasTaskOpt o) (lowerE (taskRef o)) (lowerE (eventRef o)) (lowerE (priorityExpr o)) (lowerEs (waitEvents o))
    (lowerE (waitCount o)).
Definition lowerOn (kd : Stmt.Kind) (o : OnOpts Expr.t) : OnOpts HExpr.t :=
  mkOnOpts (condName o) (condKey_ o) (snap o) (isSystem o) (onIndex o) (onCaps o)
    (if bool_decide (kd = Stmt.Signal) then lowerE (oncodeExpr_ o) else None).
Definition lowerBound (b : AllocBound Expr.t) : AllocBound HExpr.t :=
  mkAllocBound (lowerE (ab_lb b)) (lowerE (ab_ub b)) (ab_star b).
Definition lowerAlloc (o : AllocOpts Expr.t) : AllocOpts HExpr.t :=
  mkAllocOpts (lowerEs (allocBase o)) (lowerEs (allocSet o)) (lowerEs (allocArea o)) (map (map lowerBound) (allocBounds o))
    (lowerEs (allocCharLen o)) (allocVarying o) (allocHasChar o) (lowerEs (freeBase o)) (lowerEs (freeArea o)).

(** The arguments of CALL, each converted to its parameter if the callee is known. *)
Definition callee_params (s : option nat) : list Ty :=
  match tab <$> s with
  | None => []
  | Some y =>
      match entryStmt y with
      | Some en => param_types tab en
      | None => match proc y with Some p => param_types tab (proc_params procs p) | None => [] end
      end
  end.
Definition lowerCallArgs (s : Stmt.t) : list (option HExpr.t) :=
  conv_zip (lowerEs (Stmt.args s)) (callee_params (Stmt.sym s)).

(** What an assignment converts to: the leaf member, the variable, the element. *)
Definition assign_ty (s : Stmt.t) : option Ty :=
  match Stmt.target s with
  | None => None
  | Some t =>
      match Expr.sym t with
      | None => None
      | Some y =>
          if bool_decide (Expr.kind t = Expr.VarRef)
          then Some (if bool_decide (Expr.memberPath t = []) then sty (tab y) else Expr.ty t)
          else if bool_decide (Expr.kind t = Expr.Subscript) then Some (Expr.ty t)
          else None
      end
  end.
Definition lowerValue (owner : option Proc.t) (s : Stmt.t) : option HExpr.t :=
  let v := lowerE (Stmt.value s) in
  match Stmt.kind s with
  | Stmt.Assign => match assign_ty s with Some d => convIf v d | None => v end
  | Stmt.Return => match owner with Some p => if Proc.isFunction p then convIf v (Proc.retTy p) else v | None => v end
  | Stmt.DoIter => None
  | _ => v
  end.
(** The three DO expressions: converted to the control variable's type. *)
Definition lowerDo (s : Stmt.t) (e : option Expr.t) : option HExpr.t :=
  match Stmt.kind s, Stmt.sym s with
  | Stmt.DoIter, Some y => convIf (lowerE e) (sty (tab y))
  | _, _ => lowerE e
  end.
Definition negative_literal (e : option HExpr.t) : bool :=
  match e with Some e => bool_decide (HExpr.kind e = HExpr.IntLit) && (HExpr.ival e <? 0) | None => false end.
End parts.

(** A DEFINE CONSTANT becomes the declaration of its symbol. *)
Definition lowerConstant (s : Stmt.t) (tab : symtab) : HStmt.t :=
  HStmt.mk HStmt.Declare_ (Stmt.loc s) (Stmt.labels s) []
    (match Stmt.sym s with
     | Some y => [HStmt.mkDecl (Stmt.name s) (sty (tab y)) (Stmt.loc s) 0 [] [] [] None [] None None (Some y) false false [] false Ty_default []]
     | None => []
     end)
    None None None None None None false false false [] false no_prefixes None None [] [] None no_entry no_stream None no_file []
    no_task no_on None (-1) no_alloc.

Section lowerStmt.
Context (owner : option Proc.t).
(** The node itself, its children lowered: [static_cast] of the kind and every field. *)
Definition lowered_stmt (kd : Stmt.Kind) (s : Stmt.t) (un : option HStmt.t) (ds : list HStmt.decl) (th el : option HStmt.t)
    (bd : list (option HStmt.t)) (tab : symtab) : HStmt.t :=
  let by_ := lowerDo tab s (Stmt.by_ s) in
  HStmt.mk (hkind kd) (Stmt.loc s) (Stmt.labels s) (Stmt.labelElems s) ds
    (lowerE procs tab (Stmt.target s)) (lowerValue tab owner s) (lowerE procs tab (Stmt.cond s))
    (lowerDo tab s (Stmt.from s)) (lowerDo tab s (Stmt.to s)) by_ (Stmt.until s) (Stmt.forever s)
    (bool_decide (kd = Stmt.DoIter) && negative_literal by_)
    (lowerEs procs tab (Stmt.extraTargets s)) (Stmt.byName s) (Stmt.prefixes s) th el bd (Stmt.name s) (Stmt.sym s)
    (Stmt.entry s) (lowerStream tab (Stmt.stream s)) (lowerE procs tab (Stmt.gotoTarget s)) (lowerFile tab (Stmt.file s))
    (lowerCallArgs tab s) (lowerTask tab (Stmt.task s)) (lowerOn tab kd (Stmt.on_ s)) un (-1)
    (lowerAlloc tab (Stmt.alloc s)).
Fixpoint lowerStmt (s : Stmt.t) (tab : symtab) : option HStmt.t * symtab :=
  let child (o : option Stmt.t) (tab : symtab) := match o with Some c => lowerStmt c tab | None => (None, tab) end in
  match Stmt.kind s with
  | Stmt.DefineAlias => (None, tab)
  | Stmt.DefineConstant => (Some (lowerConstant s tab), tab)
  | kd =>
      let '(un, tab) := child (Stmt.unit s) tab in
      let '(ds, tab) := in_order lowerDecl (Stmt.decls s) tab in
      let '(th, tab) := child (Stmt.thenS s) tab in
      let '(el, tab) := child (Stmt.elseS s) tab in
      let '(bd, tab) := in_order child (Stmt.body s) tab in
      (Some (lowered_stmt kd s un ds th el bd tab), tab)
  end.
Definition lowerChild (o : option Stmt.t) (tab : symtab) : option HStmt.t * symtab :=
  match o with Some c => lowerStmt c tab | None => (None, tab) end.
End lowerStmt.
End statements.

(** ** The program *)
(** A pointer to a procedure of the program, found again among its nodes. *)
Definition node_of (n : nat) (p : option nat) : option nat :=
  match p with Some j => if (j <? n)%nat then Some j else None | None => None end.
Definition lowerProc (n i : nat) (p : Proc.t) (b : list (option HStmt.t)) : HProc :=
  mkProc (Some i) (Proc.isFunction p) (Proc.retTy p) (Proc.paramSyms p) b (Proc.name p) (Proc.loc p) (Proc.isMain p)
    (Proc.isExternal p) (Proc.isRecursive p) (Proc.isPackage p) (Proc.params p) (Proc.entryNames p) (node_of n (Proc.parent p))
    (Proc.localSyms p) (Proc.directUses p) (Proc.env p) (Proc.irName p).
Definition lower (prog : Program) (tab : symtab) : HProgram * symtab :=
  let ps := Stmts.procs prog in
  let '(bodies, tab) := in_order (fun p => in_order (lowerChild ps (Some p)) (Proc.body p)) ps tab in
  (mkHProgram (imap (fun i pb => lowerProc (length ps) i (fst pb) (snd pb)) (zip ps bodies))
     (node_of (length ps) (Stmts.mainProc prog)), tab).
