(* ===== verification/HirLowerThms.v ===== *)
(** * What the lowering keeps and what it makes explicit

    The lowered tree is the typed tree with its VALUE constants replaced and conversions
    put between ([lower_mirrors]); at every place where a scalar conversion is due the
    operand already has the type it is needed in ([conversions_explicit]); the program's
    procedures, statements and labels keep their order and the symbols lose nothing. *)
From S2P Require Import Prelude Types Diag Lexer Ast Stmts Hir HirLower.

(** ** Conversions *)
Lemma convRequired_refl t : convRequired t t = false.
Proof.
  unfold convRequired. rewrite !eqb_reflx, !Z.eqb_refl. cbn. rewrite andb_false_r. by destruct (_ && _ && _ && _).
Qed.
(** The width of a product and its own scale: what MULTIPLY converts to. *)
Lemma convRequired_scale t s : convRequired (Types.set_scale s t) (Types.set_scale (if isFixed t then s else 0) t) = false.
Proof.
  unfold convRequired, isBit, isNumeric, isFixed, intBits. cbn. rewrite !eqb_reflx, !Z.eqb_refl. cbn. rewrite andb_false_r.
  destruct (Types.k t); cbn; rewrite ?Z.eqb_refl; done.
Qed.
Lemma convIf_settles e d x : convIf e d = Some x -> convRequired (HExpr.ty x) d = false.
Proof.
  destruct e as [e|]; [|done]. cbn. destruct (convRequired (HExpr.ty e) d) eqn:E; cbn; intros [= <-]; [|done].
  apply convRequired_refl.
Qed.
Lemma convIf_none e d : convIf e d = None <-> e = None.
Proof. destruct e as [e|]; [|done]. cbn. by destruct (convRequired (HExpr.ty e) d). Qed.

(** The types in which a call needs its arguments, as far as the lowering converts them. *)
Section explicit.
Context (procs : list Proc.t) (tab : symtab).

Definition targets (h : HExpr.t) : list Ty :=
  let n := HExpr.name h in
  let args := HExpr.args h in
  let two (d0 d1 : Ty) := if (length args <? 2)%nat then [] else [d0; d1] in
  if bool_decide (n = txt "MIN") || bool_decide (n = txt "MAX") || bool_decide (n = txt "MOD") || bool_decide (n = txt "DIVIDE")
  then two (HExpr.ty h) (HExpr.ty h)
  else if bool_decide (n = txt "MULTIPLY")
  then two (operand_ty (HExpr.ty h) (nth_arg 0 args)) (operand_ty (HExpr.ty h) (nth_arg 1 args))
  else if bool_decide (n = txt "PRECISION") then [HExpr.ty h]
  else if bool_decide (n = txt "ROUND") then [HExpr.ty h]
  else
    match tab <$> HExpr.sym h with
    | Some s => match proc s with Some p => param_types tab (proc_params procs p) | None => [] end
    | None => []
    end.
(** No operand is left that still needs converting. *)
Fixpoint settled (l : list (option HExpr.t)) (ds : list Ty) : Prop :=
  match l, ds with
  | x :: l, d :: ds => opt_ok (fun x => convRequired (HExpr.ty x) d = false) x /\ settled l ds
  | _, _ => True
  end.
Definition node_explicit (h : HExpr.t) : Prop :=
  match HExpr.kind h with
  | HExpr.Convert => HExpr.ty h = HExpr.convTo h /\ exists x, HExpr.a h = Some x /\ convRequired (HExpr.ty x) (HExpr.convTo h) = true
  | HExpr.Call => settled (HExpr.args h) (targets h)
  | _ => True
  end.
Fixpoint explicit (h : HExpr.t) : Prop :=
  node_explicit h /\
  (match HExpr.locPtr h with Some x => explicit x | None => True end) /\
  (match HExpr.a h with Some x => explicit x | None => True end) /\
  (match HExpr.b h with Some x => explicit x | None => True end) /\
  (fix all (l : list (option HExpr.t)) : Prop :=
     match l with [] => True | o :: l => (match o with Some x => explicit x | None => True end) /\ all l end) (HExpr.args h).
Definition explicit_opt (o : option HExpr.t) : Prop := opt_ok explicit o.

Lemma explicit_unfold h : explicit h <-> node_explicit h /\ explicit_opt (HExpr.locPtr h) /\ explicit_opt (HExpr.a h) /\
  explicit_opt (HExpr.b h) /\ Forall explicit_opt (HExpr.args h).
Proof.
  assert (forall l, (fix all (l : list (option HExpr.t)) : Prop :=
     match l with [] => True | o :: l => (match o with Some x => explicit x | None => True end) /\ all l end) l <-> Forall explicit_opt l) as Hl.
  { induction l as [|o l IH]; [split; [constructor|done]|]. rewrite Forall_cons, IH. by destruct o. }
  destruct h as [kd lc ty iv wiv fv dsc dpr sv nm pth mp s l o a b args cv lb].
  cbn [explicit HExpr.locPtr HExpr.a HExpr.b HExpr.args]. rewrite Hl. by destruct l, a, b.
Qed.

Lemma explicit_convIf o d : explicit_opt o -> explicit_opt (convIf o d).
Proof.
  destruct o as [e|]; [|done]. cbn [convIf]. intros He. destruct (convRequired (HExpr.ty e) d) eqn:E; cbn [negb]; [|done].
  cbn. split; [|done]. split; [done|]. by exists e.
Qed.
Lemma settled_zip l : forall ds, settled (conv_zip l ds) ds.
Proof.
  induction l as [|x l IH]; intros [|d ds]; cbn; try done. split; [|apply IH].
  destruct (convIf x d) eqn:E; cbn; [by eapply convIf_settles|done].
Qed.
Lemma explicit_zip l : Forall explicit_opt l -> forall ds, Forall explicit_opt (conv_zip l ds).
Proof.
  induction 1 as [|x l Hx Hl IH]; intros [|d ds]; cbn; try (by constructor). constructor; [by apply explicit_convIf|apply IH].
Qed.

Lemma conv_first_two_spec d0 d1 l : conv_first_two d0 d1 l = conv_zip l (if (length l <? 2)%nat then [] else [d0; d1]).
Proof. by destruct l as [|x [|y [|z l]]]. Qed.
Lemma zip_length l : forall ds, length (conv_zip l ds) = length l.
Proof. induction l as [|x l IH]; intros [|d ds]; cbn; auto. Qed.
Lemma operand_settled c x y : opt_ok (fun z => convRequired (HExpr.ty z) (operand_ty c x) = false) (convIf x (operand_ty c x)) ->
  y = convIf x (operand_ty c x) -> opt_ok (fun z => convRequired (HExpr.ty z) (operand_ty c y) = false) y.
Proof.
  intros H ->. destruct x as [x|]; [|done]. cbn [convIf] in *. destruct (convRequired (HExpr.ty x) (operand_ty c (Some x))) eqn:E;
    cbn [negb] in *; [|done]. clear E H. cbn [opt_ok]. unfold operand_ty at 2. cbn [HExpr.ty convert]. unfold operand_ty.
  generalize (if isFixed (HExpr.ty x) then Types.scale (HExpr.ty x) else 0). intros s. apply (convRequired_scale c s).
Qed.

(** The conversions of a call leave its arguments as [targets] asks. *)
Lemma conv_args_settled e h : HExpr.name h = Expr.name e -> HExpr.ty h = Expr.ty e -> HExpr.sym h = Expr.sym e ->
  settled (conv_args procs tab e (HExpr.args h)) (targets (set_args (conv_args procs tab e (HExpr.args h)) h)).
Proof.
  intros Hn Ht Hs. unfold targets, conv_args, sym_of. cbn [set_args HExpr.name HExpr.args HExpr.ty HExpr.sym]. rewrite Hn, Ht, Hs.
  destruct (_ || _ || _ || _) eqn:E1.
  { rewrite conv_first_two_spec, zip_length. apply settled_zip. }
  destruct (bool_decide (Expr.name e = txt "MULTIPLY")) eqn:E2.
  { destruct (HExpr.args h) as [|x [|y l]]; [exact I..|]. cbn [conv_first_two length Nat.ltb Nat.leb nth_arg lookup list_lookup mjoin option_join settled].
    split; [|split; [|by destruct l]]; (eapply operand_settled; [|done]);
      (destruct (convIf _ _) eqn:E; cbn; [by eapply convIf_settles|done]). }
  assert (forall d, settled (conv_first d (HExpr.args h)) [d]) as Hone.
  { intros d. destruct (HExpr.args h) as [|x l]; [done|]. cbn [conv_first settled]. split; [|by destruct l].
    destruct (convIf x d) eqn:E; cbn; [by eapply convIf_settles|done]. }
  destruct (bool_decide (Expr.name e = txt "PRECISION")); [apply Hone|].
  destruct (bool_decide (Expr.name e = txt "ROUND")); [apply Hone|].
  destruct (tab <$> Expr.sym e) as [s|]; cbn; [|by destruct (HExpr.args h)].
  destruct (proc s) as [p|]; [apply settled_zip|by destruct (HExpr.args h)].
Qed.
Lemma conv_args_explicit e l : Forall explicit_opt l -> Forall explicit_opt (conv_args procs tab e l).
Proof.
  intros Hl. unfold conv_args. destruct (_ || _ || _ || _); [rewrite conv_first_two_spec; by apply explicit_zip|].
  assert (forall d, Forall explicit_opt (conv_first d l)) as Hone.
  { intros d. destruct Hl; cbn; constructor; [by apply explicit_convIf|done]. }
  repeat case_match; auto; [rewrite conv_first_two_spec; by apply explicit_zip|by apply explicit_zip].
Qed.

Lemma base_explicit rec e sub : (forall b, opt_ok (fun x => explicit (rec b x)) (Expr.locPtr e)) ->
  (forall b, opt_ok (fun x => explicit (rec b x)) (Expr.a e)) -> (forall b, opt_ok (fun x => explicit (rec b x)) (Expr.b e)) ->
  (forall b, Forall (opt_ok (fun x => explicit (rec b x))) (Expr.args e)) ->
  let h := lowerExprBase rec e sub in
  explicit_opt (HExpr.locPtr h) /\ explicit_opt (HExpr.a h) /\ explicit_opt (HExpr.b h) /\ Forall explicit_opt (HExpr.args h).
Proof.
  intros Hl Ha Hb Hargs h. cbn. specialize (Hl sub). specialize (Ha sub). specialize (Hb sub). specialize (Hargs sub).
  split_and!; [by destruct (Expr.locPtr e)|by destruct (Expr.a e)|by destruct (Expr.b e)|].
  induction Hargs as [|o l Ho _ IH]; cbn; constructor; [by destruct o|done].
Qed.
Lemma value_const_explicit e c : lowerValueConst tab e = Some c -> explicit c.
Proof. unfold lowerValueConst. intros H. repeat (case_match; try done); simplify_eq; by cbn; repeat case_match. Qed.

Lemma lowerExpr_explicit e : forall sub, explicit (lowerExpr procs tab sub e).
Proof.
  induction e as [e Hl Ha Hb Hargs] using expr_ind. intros sub.
  assert (forall o, opt_ok (fun x => forall sub, explicit (lowerExpr procs tab sub x)) o ->
    forall b, opt_ok (fun x => explicit (lowerExpr procs tab b x)) o) as Hopt by (intros [x|]; cbn; auto).
  pose proof (fun b => base_explicit (lowerExpr procs tab) e b (Hopt _ Hl) (Hopt _ Ha) (Hopt _ Hb)
    (fun b => Forall_impl _ _ _ Hargs (fun o H => Hopt o H b))) as Hbase.
  assert (lowerExpr procs tab sub e =
    match (if sub && bool_decide (Expr.kind e = Expr.VarRef) then lowerValueConst tab e else None) with
    | Some c => c
    | None =>
        match Expr.kind e with
        | Expr.Call => lowerCallExpr procs tab (lowerExpr procs tab) e sub
        | Expr.Subscript => lowerSubscriptExpr (lowerExpr procs tab) e sub
        | _ => lowerExprBase (lowerExpr procs tab) e sub
        end
    end) as -> by (by destruct e).
  destruct (if sub && _ then _ else None) eqn:Ec.
  { destruct (sub && _); [|done]. by eapply value_const_explicit. }
  assert (forall b, HExpr.kind (lowerExprBase (lowerExpr procs tab) e b) <> HExpr.Call -> explicit (lowerExprBase (lowerExpr procs tab) e b)) as Hplain.
  { intros b Hk. apply explicit_unfold. split; [|apply Hbase]. unfold node_explicit. cbn in *. by destruct (Expr.kind e). }
  destruct (Expr.kind e) eqn:Ek; try (apply Hplain; cbn; by rewrite Ek).
  apply explicit_unfold. destruct (Hbase (sub && by_value tab e)) as (H1 & H2 & H3 & H4). unfold lowerCallExpr. split.
  - unfold node_explicit. cbn [set_args HExpr.kind lowerExprBase]. rewrite Ek. cbn [mapKind]. by apply conv_args_settled.
  - cbn [set_args HExpr.locPtr HExpr.a HExpr.b HExpr.args]. split_and!; [done..|]. by apply conv_args_explicit.
Qed.
End explicit.

(** ** The symbols *)
(** Two tables that differ only in what the lowering leaves on the symbols. *)
Definition same_reads (tab tab' : symtab) : Prop := forall i, set_low not_lowered (tab i) = set_low not_lowered (tab' i).
#[global] Instance same_reads_equiv : Equivalence same_reads.
Proof. split; [by intros ??|by intros ?? H i; rewrite H|]. intros a b c H1 H2 i. by rewrite H1. Qed.
Lemma on_low_reads i f tab : same_reads tab (on_low i f tab).
Proof. intros j. unfold on_low. destruct i as [i|]; [|done]. by destruct (decide (j = i)). Qed.
Lemma same_reads_fields tab tab' : same_reads tab tab' -> forall i,
  sty (tab i) = sty (tab' i) /\ isValue (tab i) = isValue (tab' i) /\ initExpr (tab i) = initExpr (tab' i) /\
  entryByValue (tab i) = entryByValue (tab' i) /\ entryStmt (tab i) = entryStmt (tab' i) /\ proc (tab i) = proc (tab' i).
Proof. intros H i. specialize (H i). destruct (tab i), (tab' i). cbn in *. by injection H as <- <- <- <- <- <- <- <- <- <- <- <- <- <- <- <- <-. Qed.

Section reads.
Context (procs : list Proc.t) (tab tab' : symtab) (Hr : same_reads tab tab').
Lemma param_types_reads ps : param_types tab ps = param_types tab' ps.
Proof using Hr. unfold param_types. apply list_fmap_ext. intros _ s _. by destruct (same_reads_fields _ _ Hr s) as [-> _]. Qed.
Lemma value_const_reads e : lowerValueConst tab e = lowerValueConst tab' e.
Proof using Hr.
  unfold lowerValueConst, sym_of. destruct (Expr.sym e) as [s|]; [|done]. cbn.
  destruct (same_reads_fields _ _ Hr s) as (-> & -> & -> & _). done.
Qed.
Lemma conv_args_reads e l : conv_args procs tab e l = conv_args procs tab' e l.
Proof using Hr.
  unfold conv_args, sym_of. destruct (Expr.sym e) as [s|]; cbn; [|done].
  destruct (same_reads_fields _ _ Hr s) as (_ & _ & _ & _ & _ & ->). destruct (proc (tab' s)); [|done]. by rewrite param_types_reads.
Qed.
Lemma by_value_reads e : by_value tab e = by_value tab' e.
Proof using Hr. unfold by_value, sym_of. destruct (Expr.sym e) as [s|]; [|done]. by destruct (same_reads_fields _ _ Hr s) as (_ & _ & _ & ? & _). Qed.
Lemma base_reads rec rec' e : (forall b, opt_ok (fun x => rec b x = rec' b x) (Expr.locPtr e)) ->
  (forall b, opt_ok (fun x => rec b x = rec' b x) (Expr.a e)) -> (forall b, opt_ok (fun x => rec b x = rec' b x) (Expr.b e)) ->
  (forall b, Forall (opt_ok (fun x => rec b x = rec' b x)) (Expr.args e)) -> forall sub,
  lowerExprBase rec e sub = lowerExprBase rec' e sub.
Proof using.
  intros Hl Ha Hb Hargs sub. unfold lowerExprBase. specialize (Hl sub). specialize (Ha sub). specialize (Hb sub).
  assert (map (fun o => match o with Some x => Some (rec sub x) | None => None end) (Expr.args e) =
    map (fun o => match o with Some x => Some (rec' sub x) | None => None end) (Expr.args e)) as ->.
  { apply map_ext_Forall. eapply Forall_impl; [apply (Hargs sub)|]. intros [x|]; cbn; [by intros ->|done]. }
  destruct (Expr.locPtr e), (Expr.a e), (Expr.b e); cbn in *; by rewrite ?Hl, ?Ha, ?Hb.
Qed.
Lemma lowerExpr_reads e : forall sub, lowerExpr procs tab sub e = lowerExpr procs tab' sub e.
Proof using Hr.
  induction e as [e Hl Ha Hb Hargs] using expr_ind. intros sub.
  assert (forall o, opt_ok (fun x => forall sub, lowerExpr procs tab sub x = lowerExpr procs tab' sub x) o ->
    forall b, opt_ok (fun x => lowerExpr procs tab b x = lowerExpr procs tab' b x) o) as Hopt by (intros [x|]; cbn; auto).
  pose proof (base_reads (lowerExpr procs tab) (lowerExpr procs tab') e (Hopt _ Hl) (Hopt _ Ha) (Hopt _ Hb)
    (fun b => Forall_impl _ _ _ Hargs (fun o H => Hopt o H b))) as Hbase.
  transitivity (match (if sub && bool_decide (Expr.kind e = Expr.VarRef) then lowerValueConst tab e else None) with
    | Some c => c
    | None => match Expr.kind e with
              | Expr.Call => lowerCallExpr procs tab (lowerExpr procs tab) e sub
              | Expr.Subscript => lowerSubscriptExpr (lowerExpr procs tab) e sub
              | _ => lowerExprBase (lowerExpr procs tab) e sub end end); [by destruct e|].
  transitivity (match (if sub && bool_decide (Expr.kind e = Expr.VarRef) then lowerValueConst tab' e else None) with
    | Some c => c
    | None => match Expr.kind e with
              | Expr.Call => lowerCallExpr procs tab' (lowerExpr procs tab') e sub
              | Expr.Subscript => lowerSubscriptExpr (lowerExpr procs tab') e sub
              | _ => lowerExprBase (lowerExpr procs tab') e sub end end); [|by destruct e].
  rewrite value_const_reads. unfold lowerCallExpr, lowerSubscriptExpr. rewrite by_value_reads, !Hbase.
  destruct (if sub && _ then _ else None); [done|]. destruct (Expr.kind e); try done. by rewrite conv_args_reads.
Qed.
End reads.

Lemma lowerDecl_reads procs d tab : same_reads tab (snd (lowerDecl procs d tab)).
Proof.
  unfold lowerDecl. cbn [snd]. repeat case_match; repeat (first [reflexivity|etrans; [|apply on_low_reads]]).
Qed.

Section in_order.
Context {A B : Type} (f : A -> symtab -> B * symtab) (R : symtab -> Prop) (Q : A -> B -> Prop).
Lemma in_order_spec l : Forall (fun x => forall tab, R tab -> R (snd (f x tab)) /\ Q x (fst (f x tab))) l ->
  forall tab, R tab -> R (snd (in_order f l tab)) /\ Forall2 Q l (fst (in_order f l tab)).
Proof.
  induction 1 as [|x l Hx _ IH]; intros tab Hr; [by split; [|constructor]|]. cbn.
  destruct (Hx tab Hr) as [H1 H2]. destruct (f x tab) as [y tab1]. destruct (IH tab1 H1) as [H3 H4].
  destruct (in_order f l tab1) as [ys tab2]. split; [done|]. by constructor.
Qed.
End in_order.

(** ** Statements *)
(** Every expression a statement holds, those of its children apart. *)
Fixpoint format_exprs (f : FormatItem.t HExpr.t) : list (option HExpr.t) :=
  [FormatItem.w f; FormatItem.d f; FormatItem.s f; FormatItem.count f] ++
  flat_map format_exprs (FormatItem.subs f) ++ flat_map format_exprs (FormatItem.items f).
Definition stream_exprs (o : StreamOpts HExpr.t) : list (option HExpr.t) :=
  [skipCount o; lineCount o; stringTarget_ o] ++ items_ o ++ flat_map format_exprs (formats o).
Definition file_exprs (o : FileOpts HExpr.t) : list (option HExpr.t) :=
  [openIdent o; openLinesize o; openPagesize o; keyOpt o; keyToOpt o; keyFromOpt o; replyTarget o].
Definition task_exprs (o : TaskOpts HExpr.t) : list (option HExpr.t) :=
  [taskRef o; eventRef o; priorityExpr o; waitCount o] ++ waitEvents o.
Definition alloc_exprs (o : AllocOpts HExpr.t) : list (option HExpr.t) :=
  allocBase o ++ allocSet o ++ allocArea o ++ flat_map (flat_map (fun b => [ab_lb b; ab_ub b])) (allocBounds o) ++
  allocCharLen o ++ freeBase o ++ freeArea o.
Definition decl_exprs (d : HStmt.decl) : list (option HExpr.t) :=
  HStmt.dynBounds d ++ HStmt.dynLbBounds d ++ HStmt.dynMemberBounds d ++ HStmt.definedIdxBounds d ++
  [HStmt.dynLenBound d; HStmt.init d; HStmt.initCall d].
Definition stmt_exprs (h : HStmt.t) : list (option HExpr.t) :=
  [HStmt.target h; HStmt.value h; HStmt.cond h; HStmt.from h; HStmt.to h; HStmt.by_ h; HStmt.gotoTarget h;
   oncodeExpr_ (HStmt.on_ h)] ++ HStmt.extraTargets h ++ HStmt.args h ++ flat_map decl_exprs (HStmt.decls h) ++
  stream_exprs (HStmt.stream h) ++ file_exprs (HStmt.file h) ++ task_exprs (HStmt.task h) ++ alloc_exprs (HStmt.alloc h).

Section stmts.
Context (procs : list Proc.t) (tab : symtab).
Notation explicit := (explicit procs tab).
Notation explicit_opt := (explicit_opt procs tab).

(** The type an assignment needs its value in, read off the lowered target. *)
Definition stored_ty (h : HStmt.t) : option Ty :=
  match HStmt.target h with
  | None => None
  | Some t =>
      match HExpr.sym t with
      | None => None
      | Some y =>
          if bool_decide (HExpr.kind t = HExpr.VarRef)
          then Some (if bool_decide (HExpr.memberPath t = []) then sty (tab y) else HExpr.ty t)
          else if bool_decide (HExpr.kind t = HExpr.Subscript) then Some (HExpr.ty t)
          else None
      end
  end.
Definition fits (d : Ty) (o : option HExpr.t) : Prop := opt_ok (fun x => convRequired (HExpr.ty x) d = false) o.
(** No conversion is left implicit in the statement itself; [ret] is the result type of
    the function it stands in, if it is one. *)
Definition operands_fit (ret : option Ty) (h : HStmt.t) : Prop :=
  match HStmt.kind h with
  | HStmt.Assign => forall d, stored_ty h = Some d -> fits d (HStmt.value h)
  | HStmt.Return => forall d, ret = Some d -> fits d (HStmt.value h)
  | HStmt.DoIter => forall y, HStmt.sym h = Some y ->
      fits (sty (tab y)) (HStmt.from h) /\ fits (sty (tab y)) (HStmt.to h) /\ fits (sty (tab y)) (HStmt.by_ h)
  | HStmt.CallS => settled (HStmt.args h) (callee_params procs tab (HStmt.sym h))
  | _ => True
  end.
Definition stmt_here (ret : option Ty) (h : HStmt.t) : Prop := operands_fit ret h /\ Forall explicit_opt (stmt_exprs h).
Section everywhere.
Context (P : HStmt.t -> Prop).
(** [P] of the statement and of every statement in it. *)
Fixpoint everywhere (h : HStmt.t) : Prop :=
  P h /\
  (match HStmt.thenS h with Some x => everywhere x | None => True end) /\
  (match HStmt.elseS h with Some x => everywhere x | None => True end) /\
  (match HStmt.unit h with Some x => everywhere x | None => True end) /\
  (fix all (l : list (option HStmt.t)) : Prop :=
     match l with [] => True | o :: l => (match o with Some x => everywhere x | None => True end) /\ all l end) (HStmt.body h).
Lemma everywhere_intro h : P h -> opt_ok everywhere (HStmt.thenS h) -> opt_ok everywhere (HStmt.elseS h) ->
  opt_ok everywhere (HStmt.unit h) -> Forall (opt_ok everywhere) (HStmt.body h) -> everywhere h.
Proof.
  intros HP Ht He Hu Hb. destruct h. cbn in *. split; [done|]. split; [by case_match|]. split; [by case_match|]. split; [by case_match|].
  clear - Hb. induction Hb as [|o l Ho _ IH]; [done|]. split; [by destruct o|done].
Qed.
End everywhere.

Lemma explicit_E e : explicit_opt (lowerE procs tab e).
Proof. destruct e as [e|]; [apply lowerExpr_explicit|done]. Qed.
Lemma explicit_Es l : Forall explicit_opt (lowerEs procs tab l).
Proof. unfold lowerEs. induction l; constructor; [apply explicit_E|done]. Qed.
Lemma fits_conv e d : fits d (convIf e d).
Proof. unfold fits. destruct (convIf e d) eqn:E; [by eapply convIf_settles|done]. Qed.

Lemma explicit_flat {A} (f : A -> list (option HExpr.t)) l : Forall (fun x => Forall explicit_opt (f x)) l ->
  Forall explicit_opt (flat_map f l).
Proof. induction 1; cbn; [constructor|]. by apply Forall_app. Qed.
Lemma explicit_format_kind f subs c its : Forall explicit_opt (flat_map format_exprs subs) -> explicit_opt c ->
  Forall explicit_opt (flat_map format_exprs its) -> Forall explicit_opt (format_exprs (format_kind procs tab f subs c its)).
Proof.
  intros Hs Hc Hi. cbn. repeat constructor; try apply explicit_E; [done|]. by apply Forall_app.
Qed.
Lemma explicit_sub f : Forall explicit_opt (format_exprs (lowerSub procs tab f)).
Proof.
  apply explicit_format_kind; [|done|constructor]. apply explicit_flat. apply Forall_fmap, Forall_true. intros g.
  by apply explicit_format_kind.
Qed.
Fixpoint explicit_format (f : FormatItem.t Expr.t) : Forall explicit_opt (format_exprs (lowerFormatItem procs tab f)).
Proof.
  assert (forall l, Forall explicit_opt (flat_map format_exprs (map (lowerSub procs tab) l))) as Hs.
  { intros l. apply explicit_flat, Forall_fmap, Forall_true. intros g. apply explicit_sub. }
  destruct f as [kd w d s rm pc subs c its]. cbn [lowerFormatItem FormatItem.kind].
  destruct (bool_decide _); apply explicit_format_kind; try apply Hs; [apply explicit_E| |done|constructor].
  cbn. induction its as [|g its IH]; cbn; [constructor|]. apply Forall_app. split; [apply explicit_format|apply IH].
Qed.

Lemma explicit_parts s : Forall explicit_opt (stream_exprs (lowerStream procs tab (Stmt.stream s))) /\
  Forall explicit_opt (file_exprs (lowerFile procs tab (Stmt.file s))) /\
  Forall explicit_opt (task_exprs (lowerTask procs tab (Stmt.task s))) /\
  Forall explicit_opt (alloc_exprs (lowerAlloc procs tab (Stmt.alloc s))).
Proof.
  split_and!; repeat (first [constructor; [apply explicit_E|]|apply explicit_Es|apply Forall_app; split]); try constructor.
  - cbn. apply explicit_flat, Forall_fmap, Forall_true. apply explicit_format.
  - cbn. apply explicit_flat, Forall_fmap, Forall_true. intros l. apply explicit_flat, Forall_fmap, Forall_true. intros b.
    repeat constructor; apply explicit_E.
Qed.

Lemma lowerValue_explicit owner s : explicit_opt (lowerValue procs tab owner s).
Proof.
  unfold lowerValue. repeat case_match; try apply explicit_E; try (apply explicit_convIf, explicit_E). done.
Qed.
Lemma lowerDo_explicit s e : explicit_opt (lowerDo procs tab s e).
Proof. unfold lowerDo. repeat case_match; try apply explicit_E. apply explicit_convIf, explicit_E. Qed.
End stmts.

(** What is explicit under a table is so under any with the same reads. *)
Section transport.
Context (procs : list Proc.t) (tab tab' : symtab) (Hr : same_reads tab tab').
Lemma targets_reads h : targets procs tab h = targets procs tab' h.
Proof using Hr.
  unfold targets. destruct (HExpr.sym h) as [s|]; cbn; [|done].
  destruct (same_reads_fields _ _ Hr s) as (_ & _ & _ & _ & _ & ->). destruct (proc (tab' s)); [|done]. by erewrite param_types_reads.
Qed.
Fixpoint explicit_reads (h : HExpr.t) : explicit procs tab h -> explicit procs tab' h.
Proof using Hr.
  intros H. apply explicit_unfold in H as (Hn & Hl & Ha & Hb & Hargs). apply explicit_unfold.
  split; [unfold node_explicit in *; by rewrite <- targets_reads|].
  destruct h as [kd lc ty iv wiv fv dsc dpr sv nm pth mp s l o a b args cv lb]. cbn in Hl, Ha, Hb, Hargs |- *.
  split; [destruct l as [x|]; [exact (explicit_reads x Hl)|done]|]. split; [destruct a as [x|]; [exact (explicit_reads x Ha)|done]|].
  split; [destruct b as [x|]; [exact (explicit_reads x Hb)|done]|]. clear - explicit_reads Hargs.
  induction args as [|x args IH]; [constructor|]. inversion Hargs; subst. constructor; [|by apply IH].
  destruct x as [x|]; [by apply explicit_reads|done].
Qed.
Lemma explicit_opts_reads l : Forall (explicit_opt procs tab) l -> Forall (explicit_opt procs tab') l.
Proof using Hr. intros H. eapply Forall_impl; [exact H|]. intros [h|]; [apply explicit_reads|done]. Qed.
Lemma stored_ty_reads h : stored_ty tab h = stored_ty tab' h.
Proof using Hr.
  unfold stored_ty. destruct (HStmt.target h) as [t|]; [|done]. destruct (HExpr.sym t) as [y|]; [|done].
  by destruct (same_reads_fields _ _ Hr y) as [-> _].
Qed.
Lemma callee_params_reads s : callee_params procs tab s = callee_params procs tab' s.
Proof using Hr.
  unfold callee_params. destruct s as [s|]; [|done]. cbn.
  destruct (same_reads_fields _ _ Hr s) as (_ & _ & _ & _ & -> & ->). destruct (entryStmt (tab' s)); [by apply param_types_reads|].
  destruct (proc (tab' s)); [by apply param_types_reads|done].
Qed.
Lemma operands_fit_reads ret h : operands_fit procs tab ret h -> operands_fit procs tab' ret h.
Proof using Hr.
  unfold operands_fit. intros H1. destruct (HStmt.kind h); try done.
  - intros d. rewrite <- stored_ty_reads. apply H1.
  - intros y Hy. specialize (H1 y Hy). by destruct (same_reads_fields _ _ Hr y) as [<- _].
  - by rewrite <- callee_params_reads.
Qed.
End transport.

(** The reads of the table at hand are those of the one we started from. *)
Section lowering.
Context (procs : list Proc.t) (tab0 : symtab).
Notation R := (same_reads tab0).

Lemma explicit_E_from tab e : R tab -> explicit_opt procs tab0 (lowerE procs tab e).
Proof.
  intros Hr. pose proof (explicit_E procs tab e) as H. destruct (lowerE procs tab e); [|done].
  by apply (explicit_reads procs tab tab0 (symmetry Hr)).
Qed.
Lemma explicit_Es_from tab l : R tab -> Forall (explicit_opt procs tab0) (lowerEs procs tab l).
Proof. intros Hr. unfold lowerEs. induction l; constructor; [by apply explicit_E_from|done]. Qed.

Lemma lowerDecl_explicit d tab : R tab ->
  R (snd (lowerDecl procs d tab)) /\ Forall (explicit_opt procs tab0) (decl_exprs (fst (lowerDecl procs d tab))).
Proof.
  intros Hr. split; [by etrans; [exact Hr|apply lowerDecl_reads]|].
  assert (forall i f t, R t -> R (on_low i f t)) as Hon by (intros; by etrans; [|apply on_low_reads]).
  assert (forall t o, R t -> explicit_opt procs tab0 (lowerE procs t o)) as HE by (intros; by apply explicit_E_from).
  unfold lowerDecl, decl_exprs.
  cbn [fst HStmt.dynBounds HStmt.dynLbBounds HStmt.dynMemberBounds HStmt.definedIdxBounds HStmt.dynLenBound HStmt.init HStmt.initCall].
  set (tab1 := on_low _ (low_bounds _ _) tab). assert (R tab1) as H1 by (by apply Hon).
  set (slen := if DeclItem.sym d then lowerE procs tab1 (DeclItem.slenExpr d) else None).
  set (tab2 := if slen then on_low (DeclItem.sym d) (low_len slen) tab1 else tab1).
  assert (explicit_opt procs tab0 slen) as Hslen by (subst slen; destruct (DeclItem.sym d); [by apply HE|done]).
  assert (R tab2) as H2 by (subst tab2; destruct slen; [by apply Hon|done]).
  set (ms := if DeclItem.sym d then map (lower_member procs tab2) (DeclItem.dynMembers d) else []). set (tab3 := on_low _ (low_members ms) tab2). assert (R tab3) as H3 by (by apply Hon).
  assert (Forall (fun m => explicit_opt procs tab0 (dm_ub m) /\ explicit_opt procs tab0 (dm_lb m)) ms) as Hms.
  { subst ms. destruct (DeclItem.sym d); [|constructor]. apply Forall_fmap, Forall_true. intros m. split; by apply HE. }
  set (idx := if DeclItem.sym d then map (lower_defined procs tab3) (DeclItem.definedSubs (DeclItem.att d)) else []). assert (Forall (explicit_opt procs tab0) idx) as Hidx.
  { subst idx. destruct (DeclItem.sym d); [|constructor]. apply Forall_fmap, Forall_true. intros x. cbn. unfold lower_defined.
    destruct (ds_expr x) as [e|]; [|done]. destruct (_ || _); [done|]. by apply (HE tab3 (Some e)). }
  set (tab4 := match DeclItem.definedSubs (DeclItem.att d) with [] => tab3 | _ => _ end).
  assert (R tab4) as H4 by (subst tab4; destruct (DeclItem.definedSubs _); [done|by apply Hon]).
  repeat apply Forall_app_2; try (by apply explicit_Es_from); [|done|].
  - clear - Hms. induction Hms as [|m ms [Hu Hl] _ IH]; cbn; [constructor|]. apply Forall_app. split; [|done].
    unfold member_bounds. destruct (dm_ub m), (dm_lb m); cbn; repeat constructor; done.
  - repeat constructor; [done|by apply HE|]. destruct (DeclItem.sym d); [by apply HE|done].
Qed.

(** What the enclosing procedure returns, when it is a function. *)
Definition result_ty (owner : option Proc.t) : option Ty :=
  match owner with Some p => if Proc.isFunction p then Some (Proc.retTy p) else None | None => None end.
Notation done_ owner := (everywhere (stmt_here procs tab0 (result_ty owner))).

Lemma target_ty tab s h : HStmt.target h = lowerE procs tab (Stmt.target s) -> forall d, stored_ty tab h = Some d ->
  assign_ty tab s = Some d.
Proof.
  unfold stored_ty, assign_ty. intros ->. destruct (Stmt.target s) as [e|]; [|done]. cbn. intros d.
  assert (lowerExpr procs tab true e =
    match (if bool_decide (Expr.kind e = Expr.VarRef) then lowerValueConst tab e else None) with
    | Some c => c
    | None =>
        match Expr.kind e with
        | Expr.Call => lowerCallExpr procs tab (lowerExpr procs tab) e true
        | Expr.Subscript => lowerSubscriptExpr (lowerExpr procs tab) e true
        | _ => lowerExprBase (lowerExpr procs tab) e true
        end
    end) as -> by (by destruct e).
  destruct (if bool_decide _ then lowerValueConst tab e else None) eqn:Ec.
  { destruct (bool_decide _); [|done]. unfold lowerValueConst in Ec. repeat (case_match; try done); by simplify_eq. }
  destruct (Expr.kind e) eqn:Ek; cbn; rewrite ?Ek; by destruct (Expr.sym e).
Qed.

(** A statement lowered, its owner at hand. *)
Definition lowered_ok (owner : option Proc.t) (r : option HStmt.t * symtab) : Prop :=
  R (snd r) /\ opt_ok (done_ owner) (fst r).
Notation child_of := (lowerChild procs).
Lemma lowerStmt_unfold owner s tab : lowerStmt procs owner s tab =
  match Stmt.kind s with
  | Stmt.DefineAlias => (None, tab)
  | Stmt.DefineConstant => (Some (lowerConstant s tab), tab)
  | kd =>
      let '(un, tab) := child_of owner (Stmt.unit s) tab in
      let '(ds, tab) := in_order (lowerDecl procs) (Stmt.decls s) tab in
      let '(th, tab) := child_of owner (Stmt.thenS s) tab in
      let '(el, tab) := child_of owner (Stmt.elseS s) tab in
      let '(bd, tab) := in_order (child_of owner) (Stmt.body s) tab in
      (Some (lowered_stmt procs owner kd s un ds th el bd tab), tab)
  end.
Proof. destruct s. unfold lowered_stmt. cbn [lowerStmt Stmt.kind Stmt.unit Stmt.decls Stmt.thenS Stmt.elseS Stmt.body]. by case_match. Qed.

Lemma child_ok owner o : opt_ok (fun s => forall tab, R tab -> lowered_ok owner (lowerStmt procs owner s tab)) o ->
  forall tab, R tab -> lowered_ok owner (child_of owner o tab).
Proof. destruct o as [s|]; cbn; [auto|]. by intros _ tab Hr. Qed.

Lemma lowered_operands owner s un ds th el bd tab :
  operands_fit procs tab (result_ty owner) (lowered_stmt procs owner (Stmt.kind s) s un ds th el bd tab).
Proof.
  unfold operands_fit. cbn [lowered_stmt HStmt.kind]. destruct (Stmt.kind s) eqn:Ek; cbn [hkind]; try done.
  - intros d Hd. apply (target_ty tab s) in Hd; [|done]. cbn [lowered_stmt HStmt.value]. unfold lowerValue. rewrite Ek, Hd.
    apply fits_conv.
  - intros y Hy. cbn [lowered_stmt HStmt.sym HStmt.from HStmt.to HStmt.by_] in *. unfold lowerDo. rewrite Ek, Hy.
    split_and!; apply fits_conv.
  - apply settled_zip.
  - intros d Hd. cbn [lowered_stmt HStmt.value]. unfold lowerValue. rewrite Ek. unfold result_ty in Hd.
    destruct owner as [p|]; [|done]. destruct (Proc.isFunction p); [|done]. injection Hd as ->. apply fits_conv.
Qed.
Lemma lowered_exprs owner s un ds th el bd tab : R tab -> Forall (fun d => Forall (explicit_opt procs tab0) (decl_exprs d)) ds ->
  Forall (explicit_opt procs tab0) (stmt_exprs (lowered_stmt procs owner (Stmt.kind s) s un ds th el bd tab)).
Proof.
  intros Hr Hds. assert (forall l, Forall (explicit_opt procs tab) l -> Forall (explicit_opt procs tab0) l) as Hto.
  { intros l. apply explicit_opts_reads. by symmetry. }
  assert (forall o, explicit_opt procs tab o -> explicit_opt procs tab0 o) as Ho.
  { intros o H. assert (Forall (explicit_opt procs tab0) [o]) as HF by (apply Hto; by constructor). by inversion HF. }
  destruct (explicit_parts procs tab s) as (H1 & H2 & H3 & H4). unfold stmt_exprs, lowered_stmt.
  cbn [HStmt.target HStmt.value HStmt.cond HStmt.from HStmt.to HStmt.by_ HStmt.gotoTarget HStmt.on_ HStmt.extraTargets
    HStmt.args HStmt.decls HStmt.stream HStmt.file HStmt.task HStmt.alloc oncodeExpr_ lowerOn].
  apply Forall_app_2; [|apply Forall_app_2; [|apply Forall_app_2; [|apply Forall_app_2; [|apply Forall_app_2;
    [|apply Forall_app_2; [|apply Forall_app_2]]]]]]; try (by apply Hto).
  - repeat constructor; try (by apply explicit_E_from); try (apply Ho; apply lowerDo_explicit); [apply Ho, lowerValue_explicit|].
    case_bool_decide; [by apply explicit_E_from|done].
  - by apply explicit_Es_from.
  - apply Hto. apply explicit_zip. apply explicit_Es.
  - by apply explicit_flat.
Qed.
Lemma lowered_constant owner s tab : everywhere (stmt_here procs tab0 (result_ty owner)) (lowerConstant s tab).
Proof.
  apply everywhere_intro; [|done..|constructor]. split; [done|]. unfold lowerConstant, stmt_exprs. cbn.
  destruct (Stmt.sym s); repeat constructor.
Qed.

Lemma lowerStmt_ok owner s : forall tab, R tab -> lowered_ok owner (lowerStmt procs owner s tab).
Proof.
  induction s as [s Ht He Hu Hb] using stmt_ind. intros tab Hr. rewrite lowerStmt_unfold.

  assert (forall l, Forall (opt_ok (fun s => forall tab, R tab -> lowered_ok owner (lowerStmt procs owner s tab))) l ->
    Forall (fun o => forall tab, R tab -> R (snd (child_of owner o tab)) /\ opt_ok (done_ owner) (fst (child_of owner o tab))) l) as Hl.
  { intros l H. eapply Forall_impl; [exact H|]. intros o Ho. by apply child_ok. }
  pose proof (child_ok owner _ Hu tab Hr) as [Hr1 Hun]. destruct (child_of owner (Stmt.unit s) tab) as [un tab1].
  assert (Forall (fun x => forall tab, R tab -> R (snd (lowerDecl procs x tab)) /\
    Forall (explicit_opt procs tab0) (decl_exprs (fst (lowerDecl procs x tab)))) (Stmt.decls s)) as Hds.
  { apply Forall_true. intros x tab' Hr'. by apply lowerDecl_explicit. }
  apply (in_order_spec _ R (fun _ d => Forall (explicit_opt procs tab0) (decl_exprs d))) with (tab := tab1) in Hds as [Hr2 Hds]; [|done].
  destruct (in_order (lowerDecl procs) (Stmt.decls s) tab1) as [ds tab2].
  pose proof (child_ok owner _ Ht tab2 Hr2) as [Hr3 Hth]. destruct (child_of owner (Stmt.thenS s) tab2) as [th tab3].
  pose proof (child_ok owner _ He tab3 Hr3) as [Hr4 Hel]. destruct (child_of owner (Stmt.elseS s) tab3) as [el tab4].
  apply Hl in Hb. apply (in_order_spec _ R (fun _ => opt_ok (done_ owner))) with (tab := tab4) in Hb as [Hr5 Hb]; [|exact Hr4].
  destruct (in_order (child_of owner) (Stmt.body s) tab4) as [bd tab5]. cbn [fst snd] in *.
  assert (lowered_ok owner (Some (lowered_stmt procs owner (Stmt.kind s) s un ds th el bd tab5), tab5)) as Hmain.
  { split; [done|]. apply everywhere_intro; [|done..|]; [split|].
    - apply (operands_fit_reads procs tab5 tab0 (symmetry Hr5)). apply lowered_operands.
    - apply lowered_exprs; [done|]. clear - Hds. by induction Hds; constructor.
    - cbn. clear - Hb. by induction Hb; constructor. }
  destruct (Stmt.kind s) eqn:Ek; try exact Hmain; [done|]. split; [done|]. apply lowered_constant.
Qed.
End lowering.

(** ** The program *)
(** Every statement of every procedure. *)
Definition program_fits (ps : list Proc.t) (tab : symtab) (hp : HProgram) : Prop :=
  Forall2 (fun p h => Forall (opt_ok (everywhere (stmt_here ps tab (result_ty (Some p))))) (body h)) ps (procs hp).

Lemma procs_lowered (P : Proc.t -> list (option HStmt.t) -> Prop) n ps bodies : Forall2 P ps bodies ->
  Forall2 (fun p h => P p (body h)) ps (imap (fun i pb => lowerProc n i (fst pb) (snd pb)) (zip ps bodies)).
Proof.
  intros H. assert (forall k, Forall2 (fun p h => P p (body h)) ps
    (imap (fun i pb => lowerProc n (k + i) (fst pb) (snd pb)) (zip ps bodies))) as Hk; [|apply (Hk 0%nat)].
  induction H as [|p b ps bodies Hp _ IH]; intros k; cbn; [constructor|]. constructor; [done|].
  erewrite imap_ext; [apply (IH (S k))|]. intros i x _. cbn. by rewrite Nat.add_succ_r.
Qed.


(** ** Round trip *)
Definition unkind (kd : HExpr.Kind) : Expr.Kind :=
  match kd with
  | HExpr.IntLit => Expr.IntLit | HExpr.FltLit => Expr.FltLit | HExpr.DecLit => Expr.DecLit
  | HExpr.CharLit => Expr.CharLit | HExpr.BitLit => Expr.BitLit | HExpr.VarRef => Expr.VarRef
  | HExpr.Binary => Expr.Binary | HExpr.Unary => Expr.Unary | HExpr.Call => Expr.Call
  | HExpr.Subscript => Expr.Subscript | HExpr.Star => Expr.Star | HExpr.ComplexLit => Expr.ComplexLit
  | HExpr.TypeTag => Expr.TypeTag | HExpr.Convert => Expr.IntLit
  end.
(** The lowered tree read back: the conversions taken out, the rest as it stands. *)
Fixpoint raise (h : HExpr.t) : Expr.t :=
  let opt (o : option HExpr.t) := match o with Some x => Some (raise x) | None => None end in
  let node := Expr.mk (unkind (HExpr.kind h)) (HExpr.loc h) (HExpr.ty h) (HExpr.ival h) (HExpr.wideIval h) (HExpr.fval h)
    (HExpr.decScale h) (HExpr.decPrec h) (HExpr.sval h) (HExpr.name h) (HExpr.path h) (HExpr.memberPath h) (HExpr.sym h)
    (opt (HExpr.locPtr h)) false (HExpr.isLabel h) false (HExpr.op h) (opt (HExpr.a h)) (opt (HExpr.b h)) (map opt (HExpr.args h)) in
  match HExpr.kind h, HExpr.a h with HExpr.Convert, Some x => raise x | _, _ => node end.
Definition raise_opt (o : option HExpr.t) : option Expr.t := match o with Some x => Some (raise x) | None => None end.

(** The tree that the lowering mirrors: [value_of] in place of the uses of VALUE constants,
    those under a call that takes its arguments by reference apart. *)
Section substitution.
Context (tab : symtab) (value_of : Expr.t -> option Expr.t).
Fixpoint substituted (sub : bool) (e : Expr.t) : Expr.t :=
  let sub' := if bool_decide (Expr.kind e = Expr.Call) then sub && by_value tab e else sub in
  let opt (o : option Expr.t) := match o with Some x => Some (substituted sub' x) | None => None end in
  match (if sub && bool_decide (Expr.kind e = Expr.VarRef) then value_of e else None) with
  | Some c => c
  | None =>
      Expr.mk (Expr.kind e) (Expr.loc e) (Expr.ty e) (Expr.ival e) (Expr.wideIval e) (Expr.fval e) (Expr.decScale e)
        (Expr.decPrec e) (Expr.sval e) (Expr.name e) (Expr.path e) (Expr.memberPath e) (Expr.sym e) (opt (Expr.locPtr e)) false
        (Expr.isLabel e) false (Expr.op e) (opt (Expr.a e)) (opt (Expr.b e)) (map opt (Expr.args e))
  end.
End substitution.

(** The literal of a VALUE constant whose storage holds exactly that literal. *)
Definition exact_literal (tab : symtab) (e : Expr.t) : option Expr.t :=
  match tab <$> Expr.sym e with
  | Some s =>
      match initExpr s with
      | Some ini =>
          let lit (kd : Expr.Kind) := Expr.mk kd (Expr.loc e) (sty s) 0 0 0 0 0 (Expr.sval ini) [] [] [] None None false false false
            Tok.Eof None None [] in
          if isValue s && negb (varying (sty s) || varyingz (sty s)) && (len (sty s) =? Z.of_nat (length (Expr.sval ini)))
          then match Expr.kind ini with
               | Expr.CharLit => if isChar (sty s) then Some (lit Expr.CharLit) else None
               | Expr.BitLit => if isBit (sty s) then Some (lit Expr.BitLit) else None
               | _ => None
               end
          else None
      | None => None
      end
  | None => None
  end.

Section mirrors.
Context (procs : list Proc.t) (tab : symtab).
Lemma raise_convIf o d : raise_opt (convIf o d) = raise_opt o.
Proof. destruct o as [x|]; [|done]. cbn [convIf]. by destruct (convRequired _ _). Qed.
Lemma raise_zip l : forall ds, map raise_opt (conv_zip l ds) = map raise_opt l.
Proof. induction l as [|x l IH]; intros [|d ds]; cbn [conv_zip map]; [done..|]. by rewrite raise_convIf, IH. Qed.
Lemma raise_conv_args e l : map raise_opt (conv_args procs tab e l) = map raise_opt l.
Proof.
  unfold conv_args. rewrite !conv_first_two_spec. repeat case_match; try apply raise_zip; try done;
    destruct l; cbn [conv_first map]; by rewrite ?raise_convIf.
Qed.
Lemma unkind_map kd : unkind (mapKind kd) = kd.
Proof. by destruct kd. Qed.
Lemma raise_value e : raise_opt (lowerValueConst tab e) = exact_literal tab e.
Proof.
  unfold lowerValueConst, exact_literal, sym_of. destruct (tab <$> Expr.sym e) as [s|]; [|done]. destruct (initExpr s) as [ini|]; [|done].
  destruct (isValue s); [|done]. cbn [negb andb]. destruct (Expr.kind ini); cbn; try (by repeat case_match);
    destruct (isChar (sty s)), (isBit (sty s)); cbn; try (by repeat case_match);
    destruct (varying (sty s) || varyingz (sty s)); cbn; try done; by destruct (len (sty s) =? _).
Qed.

Lemma raise_node h : HExpr.kind h <> HExpr.Convert ->
  raise h = Expr.mk (unkind (HExpr.kind h)) (HExpr.loc h) (HExpr.ty h) (HExpr.ival h) (HExpr.wideIval h) (HExpr.fval h)
    (HExpr.decScale h) (HExpr.decPrec h) (HExpr.sval h) (HExpr.name h) (HExpr.path h) (HExpr.memberPath h) (HExpr.sym h)
    (raise_opt (HExpr.locPtr h)) false (HExpr.isLabel h) false (HExpr.op h) (raise_opt (HExpr.a h)) (raise_opt (HExpr.b h))
    (map raise_opt (HExpr.args h)).
Proof. destruct h as [kd]. cbn [HExpr.kind]. by destruct kd. Qed.
Lemma mapKind_plain kd : mapKind kd <> HExpr.Convert.
Proof. by destruct kd. Qed.

(** Lowering an expression is exactly replacing the uses of VALUE constants by their
    literals and putting conversions between: with the conversions taken out, the lowered
    tree is the typed tree, every field of every node, with [exact_literal] at those uses.
    A constant is replaced only where its storage holds exactly the literal, and not
    where it is an argument of a call that takes its arguments by reference. *)
Theorem lower_mirrors e : forall sub, raise (lowerExpr procs tab sub e) = substituted tab (exact_literal tab) sub e.
Proof.
  induction e as [e Hl Ha Hb Hargs] using expr_ind. intros sub.
  transitivity (raise match (if sub && bool_decide (Expr.kind e = Expr.VarRef) then lowerValueConst tab e else None) with
    | Some c => c
    | None => match Expr.kind e with
              | Expr.Call => lowerCallExpr procs tab (lowerExpr procs tab) e sub
              | Expr.Subscript => lowerSubscriptExpr (lowerExpr procs tab) e sub
              | _ => lowerExprBase (lowerExpr procs tab) e sub end end); [by destruct e|].
  assert (forall b o, opt_ok (fun x => forall sub, raise (lowerExpr procs tab sub x) = substituted tab (exact_literal tab) sub x) o ->
    raise_opt (match o with Some x => Some (lowerExpr procs tab b x) | None => None end) =
    match o with Some x => Some (substituted tab (exact_literal tab) b x) | None => None end) as Hopt.
  { intros b [x|]; cbn; [by intros ->|done]. }
  assert (forall b, map raise_opt (map (fun o => match o with Some x => Some (lowerExpr procs tab b x) | None => None end) (Expr.args e)) =
    map (fun o => match o with Some x => Some (substituted tab (exact_literal tab) b x) | None => None end) (Expr.args e)) as Hmap.
  { intros b. rewrite map_map. apply map_ext_Forall. eapply Forall_impl; [exact Hargs|]. intros o. apply Hopt. }
  pose proof (raise_value e) as Hv. destruct e as [kd lc ty iv wiv fv dsc dpr sv nm pth mp s l ab lb fo op a b args].
  cbn [Expr.locPtr Expr.a Expr.b Expr.args Expr.kind substituted] in *.
  destruct (sub && bool_decide (kd = Expr.VarRef)) eqn:Es.
  { rewrite <- Hv. destruct (lowerValueConst _ _) as [c|]; [done|]. cbn [raise_opt]. apply andb_true_iff in Es as [_ Ek].
    apply bool_decide_eq_true in Ek as ->. rewrite raise_node by done. cbn. rewrite !(Hopt sub), Hmap by done. done. }
  clear Hv. set (b0 := if bool_decide (kd = Expr.Call) then _ else sub).
  assert (raise (lowerExprBase (lowerExpr procs tab) (Expr.mk kd lc ty iv wiv fv dsc dpr sv nm pth mp s l ab lb fo op a b args) b0) =
    Expr.mk kd lc ty iv wiv fv dsc dpr sv nm pth mp s
      (match l with Some x => Some (substituted tab (exact_literal tab) b0 x) | None => None end) false lb false op
      (match a with Some x => Some (substituted tab (exact_literal tab) b0 x) | None => None end)
      (match b with Some x => Some (substituted tab (exact_literal tab) b0 x) | None => None end)
      (map (fun o => match o with Some x => Some (substituted tab (exact_literal tab) b0 x) | None => None end) args)) as Hbase.
  { rewrite raise_node by apply mapKind_plain. cbn. by rewrite unkind_map, !(Hopt b0), Hmap. }
  destruct (bool_decide (kd = Expr.Call)) eqn:Ek; subst b0.
  - apply bool_decide_eq_true in Ek as ->. etrans; [|exact Hbase]. unfold lowerCallExpr. rewrite !raise_node by done.
    cbn [set_args HExpr.kind HExpr.loc HExpr.ty HExpr.ival HExpr.wideIval HExpr.fval HExpr.decScale HExpr.decPrec HExpr.sval
      HExpr.name HExpr.path HExpr.memberPath HExpr.sym HExpr.locPtr HExpr.isLabel HExpr.op HExpr.a HExpr.b HExpr.args].
    by rewrite raise_conv_args.
  - etrans; [|exact Hbase]. by destruct kd.
Qed.
End mirrors.

Lemma lookup_map {A B} (f : A -> B) l i : map f l !! i = f <$> l !! i.
Proof. apply list_lookup_fmap. Qed.

(** An argument of a function call that takes its arguments by reference keeps the
    storage of a VALUE constant; the same argument of a CALL statement is its literal,
    whatever the callee declares. *)
Theorem call_statement_substitutes procs tab e c s o i : Expr.kind e = Expr.VarRef -> exact_literal tab e = Some c ->
  by_value tab o = false -> Expr.kind o = Expr.Call -> Expr.args o !! i = Some (Some e) -> Stmt.args s !! i = Some (Some e) ->
  (exists x, HExpr.args (lowerExpr procs tab true o) !! i = Some (Some x) /\ raise x = substituted tab (exact_literal tab) false e) /\
  exists x, lowerCallArgs procs tab s !! i = Some (Some x) /\ raise x = c.
Proof.
  intros Hk Hc Hv Ho Hi Hs. split.
  - assert (map raise_opt (HExpr.args (lowerExpr procs tab true o)) !! i = Some (Some (substituted tab (exact_literal tab) false e))) as H.
    { assert (map raise_opt (HExpr.args (lowerExpr procs tab true o)) = Expr.args (raise (lowerExpr procs tab true o))) as ->.
      { rewrite raise_node; [done|]. destruct o. cbn in Ho |- *. subst. done. }
      rewrite lower_mirrors. destruct o. cbn in Ho, Hi |- *. subst. cbn. rewrite Hv, (bool_decide_true (Expr.Call = Expr.Call)) by done.
      rewrite (bool_decide_false (Expr.Call = Expr.VarRef)) by done. cbn. by rewrite lookup_map, Hi. }
    rewrite lookup_map in H. destruct (HExpr.args _ !! i) as [[x|]|] eqn:E; cbn in H; try done. exists x. split; [done|]. by injection H.
  - assert (map raise_opt (lowerCallArgs procs tab s) !! i = Some (Some c)) as H.
    { unfold lowerCallArgs. rewrite raise_zip. unfold lowerEs. rewrite map_map, lookup_map, Hs. cbn. f_equal. f_equal.
      rewrite lower_mirrors. destruct e. cbn in Hk. subst. cbn [substituted Expr.kind andb]. by rewrite bool_decide_true, Hc. }
    rewrite lookup_map in H. destruct (lowerCallArgs _ _ _ !! i) as [[x|]|] eqn:E; cbn in H; try done. exists x. split; [done|]. by injection H.
Qed.

(** ** The program, node for node *)
Section program.
Context (procs : list Proc.t) (tab0 : symtab).
Notation R := (same_reads tab0).
Definition literals (o : option Expr.t) : option Expr.t := substituted tab0 (exact_literal tab0) true <$> o.

(** The node of a statement: its kind, labels and references, its expressions with the
    conversions taken out. *)
Definition same_node (s : Stmt.t) (h : HStmt.t) : Prop :=
  HStmt.kind h = hkind (Stmt.kind s) /\ HStmt.labels h = Stmt.labels s /\ HStmt.sym h = Stmt.sym s /\ HStmt.name h = Stmt.name s /\
  raise_opt (HStmt.target h) = literals (Stmt.target s) /\
  (Stmt.kind s <> Stmt.DoIter -> raise_opt (HStmt.value h) = literals (Stmt.value s)) /\
  raise_opt (HStmt.cond h) = literals (Stmt.cond s) /\ raise_opt (HStmt.from h) = literals (Stmt.from s) /\
  raise_opt (HStmt.to h) = literals (Stmt.to s) /\ raise_opt (HStmt.by_ h) = literals (Stmt.by_ s) /\
  map raise_opt (HStmt.args h) = map literals (Stmt.args s) /\ map raise_opt (HStmt.extraTargets h) = map literals (Stmt.extraTargets s) /\
  map DeclItem.sym (Stmt.decls s) = map HStmt.dsym (HStmt.decls h).
(** The declaration of a DEFINE CONSTANT's symbol, or of nothing for a duplicate. *)
Definition declares_constant (s : Stmt.t) (h : HStmt.t) : Prop :=
  HStmt.kind h = HStmt.Declare_ /\ HStmt.labels h = Stmt.labels s /\ HStmt.body h = [] /\
  map (fun d => (HStmt.dsym d, HStmt.dname d, HStmt.dty d)) (HStmt.decls h) =
  match Stmt.sym s with Some y => [(Some y, Stmt.name s, sty (tab0 y))] | None => [] end.
Fixpoint mirrors (s : Stmt.t) (h : option HStmt.t) : Prop :=
  let opt (o : option Stmt.t) (h : option HStmt.t) := match o with Some c => mirrors c h | None => h = None end in
  match Stmt.kind s with
  | Stmt.DefineAlias => h = None
  | Stmt.DefineConstant => exists x, h = Some x /\ declares_constant s x
  | _ =>
      match h with
      | None => False
      | Some x =>
          same_node s x /\ opt (Stmt.thenS s) (HStmt.thenS x) /\ opt (Stmt.elseS s) (HStmt.elseS x) /\ opt (Stmt.unit s) (HStmt.unit x) /\
          (fix all (l : list (option Stmt.t)) (hs : list (option HStmt.t)) : Prop :=
             match l, hs with
             | [], [] => True
             | o :: l, h :: hs => opt o h /\ all l hs
             | _, _ => False
             end) (Stmt.body s) (HStmt.body x)
      end
  end.
Definition mirrors_child (o : option Stmt.t) (h : option HStmt.t) : Prop :=
  match o with Some c => mirrors c h | None => h = None end.

Lemma raise_E tab e : R tab -> raise_opt (lowerE procs tab e) = literals e.
Proof.
  intros Hr. destruct e as [e|]; [|done]. cbn. f_equal. rewrite <- (lowerExpr_reads procs tab0 tab Hr). apply lower_mirrors.
Qed.
Lemma raise_Es tab l : R tab -> map raise_opt (lowerEs procs tab l) = map literals l.
Proof. intros Hr. unfold lowerEs. rewrite map_map. apply map_ext. intros o. by apply raise_E. Qed.
Lemma raise_Do tab s e : R tab -> raise_opt (lowerDo procs tab s e) = literals e.
Proof.
  intros Hr. unfold lowerDo. destruct (Stmt.kind s), (Stmt.sym s); try (by apply raise_E). rewrite raise_convIf. by apply raise_E.
Qed.
Lemma raise_Value tab owner s : R tab -> Stmt.kind s <> Stmt.DoIter -> raise_opt (lowerValue procs tab owner s) = literals (Stmt.value s).
Proof.
  intros Hr Hk. unfold lowerValue. destruct (Stmt.kind s); try done; try (by apply raise_E); repeat case_match;
    rewrite ?raise_convIf; by apply raise_E.
Qed.
Lemma lowered_node owner s un ds th el bd tab : R tab -> map DeclItem.sym (Stmt.decls s) = map HStmt.dsym ds ->
  same_node s (lowered_stmt procs owner (Stmt.kind s) s un ds th el bd tab).
Proof.
  intros Hr Hd. unfold same_node. cbn [lowered_stmt HStmt.kind HStmt.labels HStmt.sym HStmt.name HStmt.target HStmt.value HStmt.cond
    HStmt.from HStmt.to HStmt.by_ HStmt.args HStmt.extraTargets HStmt.decls].
  split_and!; try done; try (by apply raise_E); try (by apply raise_Do); [by apply raise_Value| |by apply raise_Es].
  unfold lowerCallArgs. rewrite raise_zip. by apply raise_Es.
Qed.
Lemma lowered_constant_declares s tab : R tab -> declares_constant s (lowerConstant s tab).
Proof.
  intros Hr. unfold declares_constant, lowerConstant. destruct (Stmt.sym s) as [y|]; [|done].
  cbn. by destruct (same_reads_fields _ _ Hr y) as [-> _].
Qed.

Lemma mirrors_intro s x : same_node s x -> Stmt.kind s <> Stmt.DefineAlias -> Stmt.kind s <> Stmt.DefineConstant ->
  mirrors_child (Stmt.thenS s) (HStmt.thenS x) -> mirrors_child (Stmt.elseS s) (HStmt.elseS x) ->
  mirrors_child (Stmt.unit s) (HStmt.unit x) -> Forall2 mirrors_child (Stmt.body s) (HStmt.body x) -> mirrors s (Some x).
Proof.
  intros Hn H1 H2 Ht He Hu Hb. destruct s. cbn in Ht, He, Hu, Hb, H1, H2 |- *.
  case_match; try done; (split; [exact Hn|]); (split; [done|]); (split; [done|]); (split; [done|]); clear - Hb;
    (induction Hb as [|o h l hs Ho _ IH]; [done|by split]).
Qed.
Lemma child_mirrors owner o : opt_ok (fun s => forall tab, R tab -> R (snd (lowerStmt procs owner s tab)) /\ mirrors s (fst (lowerStmt procs owner s tab))) o ->
  forall tab, R tab -> R (snd (lowerChild procs owner o tab)) /\ mirrors_child o (fst (lowerChild procs owner o tab)).
Proof. destruct o as [s|]; cbn; [auto|]. by intros _ tab Hr. Qed.
Lemma decl_syms l tab : R tab -> R (snd (in_order (lowerDecl procs) l tab)) /\
  map DeclItem.sym l = map HStmt.dsym (fst (in_order (lowerDecl procs) l tab)).
Proof.
  intros Hr. assert (Forall (fun x => forall tab, R tab -> R (snd (lowerDecl procs x tab)) /\
    DeclItem.sym x = HStmt.dsym (fst (lowerDecl procs x tab))) l) as H.
  { apply Forall_true. intros x t Ht. split; [by etrans; [|apply lowerDecl_reads]|done]. }
  apply (in_order_spec _ R (fun x d => DeclItem.sym x = HStmt.dsym d)) with (tab := tab) in H as [H1 H2]; [|done].
  split; [done|]. clear - H2. induction H2 as [|x d l ds Hx _ IH]; [done|]. cbn. by rewrite Hx, IH.
Qed.
Lemma lowerStmt_mirrors owner s : forall tab, R tab ->
  R (snd (lowerStmt procs owner s tab)) /\ mirrors s (fst (lowerStmt procs owner s tab)).
Proof.
  induction s as [s Ht He Hu Hb] using stmt_ind. intros tab Hr. rewrite lowerStmt_unfold.
  pose proof (child_mirrors owner _ Hu tab Hr) as [Hr1 Hun]. destruct (lowerChild procs owner (Stmt.unit s) tab) as [un tab1].
  pose proof (decl_syms (Stmt.decls s) tab1 Hr1) as [Hr2 Hds].
  destruct (in_order (lowerDecl procs) (Stmt.decls s) tab1) as [ds tab2].
  pose proof (child_mirrors owner _ Ht tab2 Hr2) as [Hr3 Hth]. destruct (lowerChild procs owner (Stmt.thenS s) tab2) as [th tab3].
  pose proof (child_mirrors owner _ He tab3 Hr3) as [Hr4 Hel]. destruct (lowerChild procs owner (Stmt.elseS s) tab3) as [el tab4].
  assert (Forall (fun o => forall tab, R tab -> R (snd (lowerChild procs owner o tab)) /\ mirrors_child o (fst (lowerChild procs owner o tab))) (Stmt.body s)) as Hl
    by (eapply Forall_impl; [exact Hb|]; intros o Ho; by apply child_mirrors).
  apply (in_order_spec _ R mirrors_child) with (tab := tab4) in Hl as [Hr5 Hbd]; [|exact Hr4].
  destruct (in_order (lowerChild procs owner) (Stmt.body s) tab4) as [bd tab5]. cbn [fst snd] in *.
  assert (Stmt.kind s <> Stmt.DefineAlias -> Stmt.kind s <> Stmt.DefineConstant ->
    mirrors s (Some (lowered_stmt procs owner (Stmt.kind s) s un ds th el bd tab5))) as Hmain.
  { intros Hk1 Hk2. by apply mirrors_intro; [apply lowered_node|..]. }
  destruct (Stmt.kind s) eqn:Ek; try (split; [done|by apply Hmain]); (split; [done|]).
  - destruct s; cbn in Ek |- *; by subst.
  - destruct s; cbn in Ek |- *; subst; cbn. eexists. split; [done|]. by apply lowered_constant_declares.
Qed.
End program.

(** A procedure and its lowered form, in a program of [n] procedures. *)
Definition same_proc (n : nat) (tab : symtab) (p : Proc.t) (h : HProc) : Prop :=
  pname h = Proc.name p /\ isFunction h = Proc.isFunction p /\ retTy h = Proc.retTy p /\ paramSyms h = Proc.paramSyms p /\
  localSyms h = Proc.localSyms p /\ entryNames h = Proc.entryNames p /\ irName h = Proc.irName p /\
  (forall j, parent h = Some j <-> Proc.parent p = Some j /\ (j < n)%nat) /\
  Forall2 (mirrors_child tab) (Proc.body p) (body h).

Lemma node_of_spec n o j : node_of n o = Some j <-> o = Some j /\ (j < n)%nat.
Proof.
  destruct o as [i|]; cbn [node_of]; [|split; [done|by intros [? ?]]]. destruct (Nat.ltb_spec i n).
  - split; [by intros [= <-]|by intros [? _]].
  - split; [done|]. intros [[= <-] Hlt]. lia.
Qed.


(** A VALUE constant of three characters, a procedure that takes its argument by reference. *)
Definition abc_value : symtab := fun i =>
  if decide (i = 0%nat) then
    mkSymbol Var false false false false false None false None None None (txt "C") (chr 3 false) true
      (Some (Expr.mk Expr.CharLit (mkLoc 0 0) (chr 3 false) 0 0 0 0 0 (txt "abc") [] [] [] None None false false false Tok.Eof None None []))
      false None not_lowered no_more
  else procSym 0.
Definition abc_use : Expr.t :=
  Expr.mk Expr.VarRef (mkLoc 0 0) (chr 3 false) 0 0 0 0 0 [] (txt "C") [] [] (Some 0%nat) None false false false Tok.Eof None None [].

Definition abc_call : Expr.t :=
  Expr.mk Expr.Call (mkLoc 0 0) Ty_default 0 0 0 0 0 [] (txt "F") [] [] (Some 1%nat) None false false false Tok.Eof None None [Some abc_use].
Definition abc_stmt : Stmt.t :=
  Stmt.mk Stmt.CallS (mkLoc 0 0) [] [] [] None None None None None None false false [] false no_prefixes None None [] (txt "F") (Some 1%nat)
    Ty_default no_entry no_stream [] no_file [Some abc_use] None no_task no_on None no_alloc.
Lemma call_statement_substitutes_witness :
  exists c, exact_literal abc_value abc_use = Some c /\ Expr.kind c = Expr.CharLit /\
  (exists x, HExpr.args (lowerExpr [] abc_value true abc_call) !! 0%nat = Some (Some x) /\
     raise x = substituted abc_value (exact_literal abc_value) false abc_use) /\
  exists x, lowerCallArgs [] abc_value abc_stmt !! 0%nat = Some (Some x) /\ raise x = c.
Proof.
  eexists. split; [vm_compute; reflexivity|]. split; [reflexivity|].
  apply (call_statement_substitutes [] abc_value abc_use _ abc_stmt abc_call 0); vm_compute; reflexivity.
Defined.
