(* ===== verification/CallGraph.v ===== *)
(** * Recursive invocation ([src/sema.cpp], rule 5)

    The static call edges out of a procedure, collected from its typed tree, and the
    check that every procedure on a cycle of them is declared RECURSIVE.  A [Proc*] is an
    index into the program; the vector the collectors push to is passed along. *)
From S2P Require Import Prelude Types Diag Lexer Ast Stmts Hir HirLower.
From Stdlib Require Import Sorting.Sorted.

(** ** The edges *)
Definition add_callee (tab : symtab) (o : option nat) (out : list nat) : list nat :=
  match o with
  | Some s => match proc (tab s) with Some q => if bool_decide (q ∈ out) then out else out ++ [q] | None => out end
  | None => out
  end.
Definition each_callee {A} (f : A -> list nat -> list nat) (l : list (option A)) (out : list nat) : list nat :=
  fold_left (fun out o => match o with Some x => f x out | None => out end) l out.

Section collect.
Variable tab : symtab.

Fixpoint collectExprCallees (e : Expr.t) (out : list nat) : list nat :=
  let opt (o : option Expr.t) (out : list nat) : list nat :=
    match o with Some x => collectExprCallees x out | None => out end in
  let out := opt (Expr.locPtr e) out in
  match Expr.kind e with
  | Expr.Call => fold_left (fun out o => opt o out) (Expr.args e) (add_callee tab (Expr.sym e) out)
  | Expr.Binary => opt (Expr.b e) (opt (Expr.a e) out)
  | Expr.Unary => opt (Expr.a e) out
  | Expr.Subscript => fold_left (fun out o => opt o out) (Expr.args e) out
  | _ => out
  end.
Definition collectO (o : option Expr.t) (out : list nat) : list nat :=
  match o with Some e => collectExprCallees e out | None => out end.
Definition collectL (l : list (option Expr.t)) (out : list nat) : list nat :=
  each_callee collectExprCallees l out.
Fixpoint collectInitItemCallees (i : InitItem.t) (out : list nat) : list nat :=
  fold_left (fun out sub => collectInitItemCallees sub out) (InitItem.items i) (collectO (InitItem.value i) out).
Definition collectDeclCallees (d : DeclItem.t) (out : list nat) : list nat :=
  let out := collectO (DeclItem.initCall d) (collectO (DeclItem.init d) out) in
  let out := collectL (DeclItem.dynLbBounds d) (collectL (DeclItem.dynBounds d) out) in
  fold_left (fun out i => collectInitItemCallees i out) (DeclItem.initItems d) out.
(** The expressions of a statement that the collector walks, in its order. *)
Definition format_exprs (l : list (FormatItem.t Expr.t)) : list (option Expr.t) :=
  flat_map (fun f => [FormatItem.w f; FormatItem.d f]) l.
Definition walked_exprs (s : Stmt.t) : list (option Expr.t) :=
  let t := Stmt.task s in
  let st := Stmt.stream s in
  let a := Stmt.alloc s in
  [Stmt.target s; Stmt.value s; Stmt.cond s; Stmt.from s; Stmt.to s; Stmt.by_ s; skipCount st; stringTarget_ st] ++
  items_ st ++ Stmt.extraTargets s ++ Stmt.args s ++ [taskRef t; eventRef t; priorityExpr t; Stmt.value s] ++
  waitEvents t ++ [waitCount t] ++ format_exprs (formats st) ++ allocBase a ++ allocSet a ++ freeBase a.
Fixpoint collectStmtCallees (s : Stmt.t) (out : list nat) : list nat :=
  let opt (o : option Stmt.t) (out : list nat) : list nat :=
    match o with Some x => collectStmtCallees x out | None => out end in
  let out := collectL (walked_exprs s) out in
  let out := if bool_decide (Stmt.kind s = Stmt.CallS) then add_callee tab (Stmt.sym s) out else out in
  let out := if bool_decide (Stmt.kind s = Stmt.Declare_)
             then fold_left (fun out d => collectDeclCallees d out) (Stmt.decls s) out else out in
  let out := opt (Stmt.unit s) (opt (Stmt.elseS s) (opt (Stmt.thenS s) out)) in
  fold_left (fun out o => opt o out) (Stmt.body s) out.
Definition collectCallees (body : list (option Stmt.t)) (out : list nat) : list nat :=
  each_callee collectStmtCallees body out.
End collect.

(** ** The search *)
(** [adj], the map from a procedure to its callees, and the depth-first search of one
    procedure; the top of the stack, the back of the vector, is the head of the list. *)
Definition adj (tab : symtab) (prog : Program) (q : nat) : list nat :=
  match Stmts.procs prog !! q with Some p => collectCallees tab (Proc.body p) [] | None => [] end.
Fixpoint search (G : nat -> list nat) (start n : nat) (stack : list nat) (seen : gset nat) : option bool :=
  match n with
  | O => None
  | S n =>
      match stack with
      | [] => Some false
      | q :: stack =>
          if decide (q = start) then Some true
          else if decide (q ∈ seen) then search G start n stack seen
          else search G start n (rev (G q) ++ stack) ({[q]} ∪ seen)
      end
  end.
(** An iteration takes a procedure off the stack, and each is expanded once. *)
Definition search_fuel (tab : symtab) (prog : Program) (start : nat) : nat :=
  S (length (adj tab prog start) + sum_list_with (fun q => length (adj tab prog q)) (seq 0 (length (Stmts.procs prog)))).
Definition on_cycle (tab : symtab) (prog : Program) (start : nat) : option bool :=
  search (adj tab prog) start (search_fuel tab prog start) (rev (adj tab prog start)) ∅.
Definition not_recursive (p : Proc.t) (d : Diags) : Diags :=
  error (Proc.loc p) (txt "procedure '" ++ Proc.name p ++ txt "' is invoked recursively but lacks the RECURSIVE attribute; add RECURSIVE to its PROCEDURE statement")
    (txt "(5)") [] d.
(** [None] would be a search that does not end. *)
Fixpoint check_from (tab : symtab) (prog : Program) (ps : list Proc.t) (i : nat) (d : Diags) : option Diags :=
  match ps with
  | [] => Some d
  | p :: ps =>
      match on_cycle tab prog i with
      | Some cycle => check_from tab prog ps (S i) (if cycle && negb (Proc.isRecursive p) then not_recursive p d else d)
      | None => None
      end
  end.
Definition checkRecursion (tab : symtab) (prog : Program) (d : Diags) : option Diags :=
  check_from tab prog (Stmts.procs prog) 0 d.

(** ** What a procedure calls *)
(** The specification: every call there is in the text of a procedure, whatever part of a
    statement it stands in. *)
Definition expr_parts (e : Expr.t) : list (option Expr.t) := [Expr.locPtr e; Expr.a e; Expr.b e] ++ Expr.args e.
Inductive within : Expr.t -> Expr.t -> Prop :=
  | within_refl e : within e e
  | within_part c x e : Some x ∈ expr_parts e -> within c x -> within c e.
Inductive init_within : InitItem.t -> InitItem.t -> Prop :=
  | init_refl i : init_within i i
  | init_part c x i : x ∈ InitItem.items i -> init_within c x -> init_within c i.
Inductive format_within : FormatItem.t Expr.t -> FormatItem.t Expr.t -> Prop :=
  | format_refl f : format_within f f
  | format_part c x f : x ∈ FormatItem.subs f ++ FormatItem.items f -> format_within c x -> format_within c f.
Definition stmt_parts (s : Stmt.t) : list (option Stmt.t) := [Stmt.thenS s; Stmt.elseS s; Stmt.unit s] ++ Stmt.body s.
Inductive stmt_within : Stmt.t -> Stmt.t -> Prop :=
  | stmt_refl s : stmt_within s s
  | stmt_part c x s : Some x ∈ stmt_parts s -> stmt_within c x -> stmt_within c s.

(** The expressions of a declaration and of a statement: those the collector walks, and
    the rest. *)
Definition decl_walked (d : DeclItem.t) (e : Expr.t) : Prop :=
  Some e ∈ [DeclItem.init d; DeclItem.initCall d] ++ DeclItem.dynBounds d ++ DeclItem.dynLbBounds d \/
  exists i j, i ∈ DeclItem.initItems d /\ init_within j i /\ InitItem.value j = Some e.
Definition decl_missed (d : DeclItem.t) (e : Expr.t) : Prop :=
  Some e ∈ [DeclItem.slenExpr d; DeclItem.valueInit d; DeclItem.areaSize (DeclItem.att d)] ++
    map ds_expr (DeclItem.definedSubs (DeclItem.att d)) ++ flat_map (fun m => [dm_ub m; dm_lb m]) (DeclItem.dynMembers d).
Definition all_bounds (l : list (list (AllocBound Expr.t))) : list (option Expr.t) :=
  flat_map (flat_map (fun b => [ab_lb b; ab_ub b])) l.
Definition missed_exprs (s : Stmt.t) : list (option Expr.t) :=
  let a := Stmt.alloc s in
  let f := Stmt.file s in
  [Stmt.gotoTarget s; oncodeExpr_ (Stmt.on_ s); lineCount (Stmt.stream s)] ++ allocArea a ++ all_bounds (allocBounds a) ++
  allocCharLen a ++ freeArea a ++
  [openIdent f; openLinesize f; openPagesize f; keyOpt f; keyToOpt f; keyFromOpt f; replyTarget f].
Definition stmt_walked (s : Stmt.t) (e : Expr.t) : Prop :=
  Some e ∈ walked_exprs s \/ Stmt.kind s = Stmt.Declare_ /\ exists d, d ∈ Stmt.decls s /\ decl_walked d e.
Definition stmt_missed (s : Stmt.t) (e : Expr.t) : Prop :=
  Some e ∈ missed_exprs s \/ (exists d, d ∈ Stmt.decls s /\ decl_missed d e) \/
  exists f g, f ∈ formats (Stmt.stream s) /\ format_within g f /\
    (Some e ∈ [FormatItem.s g; FormatItem.count g] \/ g <> f /\ Some e ∈ [FormatItem.w g; FormatItem.d g]).

Section spec.
Variable tab : symtab.
Definition calls_in (e : Expr.t) (q : nat) : Prop :=
  exists c s, within c e /\ Expr.kind c = Expr.Call /\ Expr.sym c = Some s /\ proc (tab s) = Some q.
Definition call_stmt (s : Stmt.t) (q : nat) : Prop :=
  Stmt.kind s = Stmt.CallS /\ exists i, Stmt.sym s = Some i /\ proc (tab i) = Some q.
Definition body_calls (body : list (option Stmt.t)) (q : nat) : Prop :=
  exists s0 s, Some s0 ∈ body /\ stmt_within s s0 /\
    (call_stmt s q \/ exists e, (stmt_walked s e \/ stmt_missed s e) /\ calls_in e q).
Definition calls (prog : Program) (p q : nat) : Prop :=
  exists pr, Stmts.procs prog !! p = Some pr /\ body_calls (Proc.body pr) q.

(** The operands of an expression are where its kind has them. *)
Definition node_shaped (e : Expr.t) : bool :=
  match Expr.kind e with
  | Expr.Call | Expr.Subscript => bool_decide (Expr.a e = None) && bool_decide (Expr.b e = None)
  | Expr.Binary => bool_decide (Expr.args e = [])
  | Expr.Unary => bool_decide (Expr.args e = []) && bool_decide (Expr.b e = None)
  | _ => bool_decide (Expr.args e = []) && bool_decide (Expr.a e = None) && bool_decide (Expr.b e = None)
  end.
Definition shaped (e : Expr.t) : Prop := forall c, within c e -> node_shaped c = true.
(** A body whose calls all stand in the places the collector walks. *)
Definition plain_body (body : list (option Stmt.t)) : Prop :=
  forall s0 s e, Some s0 ∈ body -> stmt_within s s0 ->
    (stmt_walked s e -> shaped e) /\ (stmt_missed s e -> forall q, ~ calls_in e q).
Definition plain (prog : Program) : Prop :=
  forall i p, Stmts.procs prog !! i = Some p -> plain_body (Proc.body p).
End spec.

(** ** Collectors *)
(** A collector keeps what there is, adds nothing but [C] and all of [D]. *)
Definition adds (f : list nat -> list nat) (C D : nat -> Prop) : Prop :=
  forall out q, (q ∈ f out -> q ∈ out \/ C q) /\ (q ∈ out \/ D q -> q ∈ f out).

Lemma adds_weaken f (C D C' D' : nat -> Prop) :
  adds f C D -> (forall q, C q -> C' q) -> (forall q, D' q -> D q) -> adds f C' D'.
Proof. intros H HC HD out q. destruct (H out q) as [H1 H2]. naive_solver. Qed.
Lemma adds_ext f g C D : (forall out, f out = g out) -> adds g C D -> adds f C D.
Proof. intros E H out q. rewrite E. apply H. Qed.
Lemma adds_none C : adds id C (fun _ => False).
Proof. intros out q. naive_solver. Qed.
Lemma adds_comp f g C D C' D' : adds f C D -> adds g C' D' ->
  adds (fun out => g (f out)) (fun q => C q \/ C' q) (fun q => D q \/ D' q).
Proof.
  intros Hf Hg out q. destruct (Hf out q) as [F1 F2], (Hg (f out) q) as [G1 G2]. split.
  - intros [H|H]%G1; [destruct (F1 H)|]; auto.
  - intros [H|[H|H]]; apply G2; auto.
Qed.
Lemma adds_fold {A} (f : A -> list nat -> list nat) (C D : A -> nat -> Prop) l :
  (forall x, x ∈ l -> adds (f x) (C x) (D x)) ->
  adds (fun out => fold_left (fun out x => f x out) l out) (fun q => exists x, x ∈ l /\ C x q) (fun q => exists x, x ∈ l /\ D x q).
Proof.
  induction l as [|x l IH]; intros Hl; cbn.
  - eapply adds_weaken; [apply (adds_none (fun _ => False))|done|]. intros q (y & Hy & _). by apply elem_of_nil in Hy.
  - eapply adds_weaken; [apply (adds_comp (f x)); [apply Hl, list_elem_of_here|apply IH; intros y Hy; apply Hl; by right]| |].
    + intros q [H|(y & Hy & H)]; [exists x|exists y]; split; auto; by constructor.
    + intros q (y & [-> |Hy]%elem_of_cons & H); [by left|right; eauto].
Qed.
Lemma adds_opt {A} (f : A -> list nat -> list nat) (C D : A -> nat -> Prop) o :
  opt_ok (fun x => adds (f x) (C x) (D x)) o ->
  adds (fun out => match o with Some x => f x out | None => out end)
    (fun q => exists x, o = Some x /\ C x q) (fun q => exists x, o = Some x /\ D x q).
Proof.
  destruct o as [x|]; cbn; intros H.
  - eapply adds_weaken; [exact H|naive_solver..].
  - eapply adds_weaken; [apply (adds_none (fun _ => False))|naive_solver..].
Qed.
Lemma adds_each {A} (f : A -> list nat -> list nat) (C D : A -> nat -> Prop) l :
  Forall (opt_ok (fun x => adds (f x) (C x) (D x))) l ->
  adds (each_callee f l) (fun q => exists x, Some x ∈ l /\ C x q) (fun q => exists x, Some x ∈ l /\ D x q).
Proof.
  intros H. rewrite Forall_forall in H.
  eapply adds_weaken; [apply (adds_fold (fun o out => match o with Some x => f x out | None => out end)
    (fun o q => exists x, o = Some x /\ C x q) (fun o q => exists x, o = Some x /\ D x q)); intros o Ho; apply adds_opt; auto|..].
  - intros q (o & Ho & x & -> & Hx). eauto.
  - intros q (x & Ho & Hx). eauto.
Qed.

Section collected.
Variable tab : symtab.

Lemma adds_callee o :
  adds (add_callee tab o) (fun q => exists s, o = Some s /\ proc (tab s) = Some q) (fun q => exists s, o = Some s /\ proc (tab s) = Some q).
Proof.
  intros out q. unfold add_callee. destruct o as [s|]; [|naive_solver].
  destruct (proc (tab s)) as [r|] eqn:Er; [|naive_solver].
  case_bool_decide as Hin; [split; [tauto|naive_solver]|].
  rewrite elem_of_app, list_elem_of_singleton. naive_solver.
Qed.

(** What a walked expression adds: its calls, all of them when it is shaped. *)
Definition shaped_calls (e : Expr.t) (q : nat) : Prop := shaped e /\ calls_in tab e q.
Notation adds_expr := (fun e => adds (collectExprCallees tab e) (calls_in tab e) (shaped_calls e)).

Lemma calls_in_part e x q : Some x ∈ expr_parts e -> calls_in tab x q -> calls_in tab e q.
Proof. intros Hx (c & s & Hc & H). exists c, s. split; [by eapply within_part|done]. Qed.
Lemma shaped_part e x : Some x ∈ expr_parts e -> shaped e -> shaped x.
Proof. intros Hx H c Hc. apply H. by eapply within_part. Qed.
Lemma shaped_calls_cases e q : shaped_calls e q ->
  (Expr.kind e = Expr.Call /\ exists s, Expr.sym e = Some s /\ proc (tab s) = Some q) \/
  exists x, Some x ∈ expr_parts e /\ shaped_calls x q.
Proof.
  intros (Hs & c & s & Hc & Hk & Hy & Hp). inversion Hc as [|? x ? Hx Hcx]; subst; [left; eauto|].
  right. exists x. repeat split; [done|by eapply shaped_part|by exists c, s].
Qed.
Lemma part_cases e x : Some x ∈ expr_parts e <->
  Expr.locPtr e = Some x \/ Expr.a e = Some x \/ Expr.b e = Some x \/ Some x ∈ Expr.args e.
Proof. unfold expr_parts. cbn. rewrite !elem_of_cons. naive_solver. Qed.

(** The four ways a part of an expression is walked. *)
Lemma adds_args e :
  Forall (opt_ok (fun x => adds (collectExprCallees tab x) (calls_in tab x) (shaped_calls x))) (Expr.args e) ->
  adds (fun out => fold_left (fun out o => match o with Some x => collectExprCallees tab x out | None => out end) (Expr.args e) out)
    (calls_in tab e) (fun q => exists x, Some x ∈ Expr.args e /\ shaped_calls x q).
Proof.
  intros H. eapply adds_weaken; [exact (adds_each _ _ _ _ H)| |done].
  intros q (x & Hx & Hq). eapply calls_in_part; [|exact Hq]. rewrite part_cases. auto.
Qed.
Lemma adds_operand e o :
  (forall x, o = Some x -> Some x ∈ expr_parts e) ->
  opt_ok (fun x => adds (collectExprCallees tab x) (calls_in tab x) (shaped_calls x)) o ->
  adds (fun out => match o with Some x => collectExprCallees tab x out | None => out end)
    (calls_in tab e) (fun q => exists x, o = Some x /\ shaped_calls x q).
Proof.
  intros Ho H. eapply adds_weaken; [exact (adds_opt _ _ _ _ H)| |done].
  intros q (x & Hx & Hq). eapply calls_in_part; [apply Ho, Hx|exact Hq].
Qed.
Lemma adds_both f g (C D D' : nat -> Prop) : adds f C D -> adds g C D' -> adds (fun out => g (f out)) C (fun q => D q \/ D' q).
Proof. intros Hf Hg. eapply adds_weaken; [exact (adds_comp _ _ _ _ _ _ Hf Hg)|naive_solver|done]. Qed.
Lemma adds_named e : Expr.kind e = Expr.Call ->
  adds (add_callee tab (Expr.sym e)) (calls_in tab e) (fun q => exists s, Expr.sym e = Some s /\ proc (tab s) = Some q).
Proof.
  intros Hk. eapply adds_weaken; [apply adds_callee| |done].
  intros q (s & Hs & Hp). exists e, s. repeat split; [constructor|done..].
Qed.

Lemma collectExpr_eq e out : collectExprCallees tab e out =
  let opt (o : option Expr.t) (out : list nat) : list nat :=
    match o with Some x => collectExprCallees tab x out | None => out end in
  let out := opt (Expr.locPtr e) out in
  match Expr.kind e with
  | Expr.Call => fold_left (fun out o => opt o out) (Expr.args e) (add_callee tab (Expr.sym e) out)
  | Expr.Binary => opt (Expr.b e) (opt (Expr.a e) out)
  | Expr.Unary => opt (Expr.a e) out
  | Expr.Subscript => fold_left (fun out o => opt o out) (Expr.args e) out
  | _ => out
  end.
Proof. by destruct e. Qed.
Lemma node_shape e : shaped e -> node_shaped e = true.
Proof. intros H. apply H. constructor. Qed.
Lemma collectExpr_adds e : adds (collectExprCallees tab e) (calls_in tab e) (shaped_calls e).
Proof.
  induction e as [e Hp Ha Hb Hl] using expr_ind.
  apply (adds_operand e) in Hp; [|intros x Hx; rewrite part_cases; auto].
  apply (adds_operand e) in Ha; [|intros x Hx; rewrite part_cases; auto].
  apply (adds_operand e) in Hb; [|intros x Hx; rewrite part_cases; auto].
  apply adds_args in Hl.
  assert (forall q, shaped_calls e q -> node_shaped e = true /\
    ((Expr.kind e = Expr.Call /\ exists s, Expr.sym e = Some s /\ proc (tab s) = Some q) \/
     ((exists x, Expr.locPtr e = Some x /\ shaped_calls x q) \/ (exists x, Expr.a e = Some x /\ shaped_calls x q) \/
      (exists x, Expr.b e = Some x /\ shaped_calls x q) \/ exists x, Some x ∈ Expr.args e /\ shaped_calls x q))) as Hq.
  { intros q Hs. split; [apply node_shape, Hs|]. destruct (shaped_calls_cases e q Hs) as [H|(x & Hx & H)]; [by left|].
    right. apply part_cases in Hx as [Hx|[Hx|[Hx|Hx]]]; eauto 10. }
  destruct (Expr.kind e) eqn:Ek.
  all: eapply adds_ext; [intros out; rewrite collectExpr_eq, Ek; reflexivity|].
  all: eapply adds_weaken;
    [ first
        [ exact (adds_both _ _ _ _ _ (adds_both _ _ _ _ _ Hp (adds_named e Ek)) Hl)
        | exact (adds_both _ _ _ _ _ (adds_both _ _ _ _ _ Hp Ha) Hb)
        | exact (adds_both _ _ _ _ _ Hp Ha)
        | exact (adds_both _ _ _ _ _ Hp Hl)
        | exact Hp ]
    | done
    | intros q Hs; destruct (Hq q Hs) as [Hn H]; unfold node_shaped in Hn; rewrite Ek in Hn;
      rewrite ?andb_true_iff, ?bool_decide_eq_true in Hn; destruct_and?;
      repeat match goal with E : Expr.args _ = [] |- _ => rewrite E in H; clear E end;
      try setoid_rewrite elem_of_nil in H; naive_solver ].
Qed.

Lemma collectO_adds o :
  adds (collectO tab o) (fun q => exists e, o = Some e /\ calls_in tab e q) (fun q => exists e, o = Some e /\ shaped_calls e q).
Proof. apply (adds_opt (collectExprCallees tab)). destruct o; [apply collectExpr_adds|exact I]. Qed.
Lemma collectL_adds l :
  adds (collectL tab l) (fun q => exists e, Some e ∈ l /\ calls_in tab e q) (fun q => exists e, Some e ∈ l /\ shaped_calls e q).
Proof.
  apply (adds_each (collectExprCallees tab)). apply Forall_forall. intros [e|] _; [apply collectExpr_adds|exact I].
Qed.

(** INITIAL items. *)
Definition init_calls (C : Expr.t -> nat -> Prop) (i : InitItem.t) (q : nat) : Prop :=
  exists j e, init_within j i /\ InitItem.value j = Some e /\ C e q.
Lemma init_calls_cases C i q : init_calls C i q <->
  (exists e, InitItem.value i = Some e /\ C e q) \/ exists x, x ∈ InitItem.items i /\ init_calls C x q.
Proof.
  split.
  - intros (j & e & Hj & He & Hq). inversion Hj as [|? x ? Hx Hjx]; subst; [eauto|]. right. exists x. split; [done|by exists j, e].
  - intros [(e & He & Hq)|(x & Hx & j & e & Hj & He & Hq)]; [exists i, e|exists j, e]; repeat split; try done; [constructor|by eapply init_part].
Qed.
Lemma collectInit_adds : forall i, adds (collectInitItemCallees tab i) (init_calls (calls_in tab) i) (init_calls shaped_calls i).
Proof.
  fix IH 1. intros [k v f items].
  eapply adds_weaken; [exact (adds_comp _ _ _ _ _ _ (collectO_adds v) (adds_fold (collectInitItemCallees tab) (init_calls (calls_in tab)) (init_calls shaped_calls) items
    ((fix go (l : list InitItem.t) : forall x, x ∈ l -> adds (collectInitItemCallees tab x) (init_calls (calls_in tab) x) (init_calls shaped_calls x) :=
       match l with
       | [] => fun x Hx => False_ind _ (proj1 (elem_of_nil x) Hx)
       | y :: l => fun x Hx => match proj1 (elem_of_cons l x y) Hx with
                               | or_introl E => eq_ind_r (fun x => adds (collectInitItemCallees tab x) (init_calls (calls_in tab) x) (init_calls shaped_calls x)) (IH y) E
                               | or_intror H => go l x H
                               end
       end) items)))| |]; intros q H; [apply init_calls_cases; exact H|apply init_calls_cases in H; exact H].
Qed.

(** Declarations. *)
Definition over_walked (C : Expr.t -> nat -> Prop) (d : DeclItem.t) (q : nat) : Prop := exists e, decl_walked d e /\ C e q.
Lemma collectDecl_adds d : adds (collectDeclCallees tab d) (over_walked (calls_in tab) d) (over_walked shaped_calls d).
Proof.
  eapply adds_weaken;
    [exact (adds_comp _ _ _ _ _ _ (adds_comp _ _ _ _ _ _ (adds_comp _ _ _ _ _ _ (adds_comp _ _ _ _ _ _
       (collectO_adds (DeclItem.init d)) (collectO_adds (DeclItem.initCall d))) (collectL_adds (DeclItem.dynBounds d)))
       (collectL_adds (DeclItem.dynLbBounds d)))
       (adds_fold (collectInitItemCallees tab) _ _ (DeclItem.initItems d) (fun i _ => collectInit_adds i)))| |];
    intros q.
  - intros [[[[(e & He & H)|(e & He & H)]|(e & He & H)]|(e & He & H)]|(i & Hi & j & e & Hj & He & H)];
      exists e; (split; [|exact H]); [left..|right; eauto];
      rewrite !elem_of_app, elem_of_cons, list_elem_of_singleton; auto 6 using eq_sym.
  - intros (e & [He|(i & j & Hi & Hj & He)] & H); [|right; exists i; split; [done|by exists j, e]].
    rewrite !elem_of_app, elem_of_cons, list_elem_of_singleton in He.
    destruct He as [[E|E]|[E|E]]; left; [do 3 left|do 2 left; right|left; right|right]; eauto using eq_sym.
Qed.

(** Statements. *)
Definition stmt_calls (C : Expr.t -> nat -> Prop) (s : Stmt.t) (q : nat) : Prop :=
  call_stmt tab s q \/ exists e, stmt_walked s e /\ C e q.
Definition in_stmts (P : Stmt.t -> nat -> Prop) (s0 : Stmt.t) (q : nat) : Prop := exists s, stmt_within s s0 /\ P s q.
Lemma in_stmts_cases P s q : in_stmts P s q <-> P s q \/ exists x, Some x ∈ stmt_parts s /\ in_stmts P x q.
Proof.
  split.
  - intros (c & Hc & H). inversion Hc as [|? x ? Hx Hcx]; subst; [by left|]. right. exists x. split; [done|by exists c].
  - intros [H|(x & Hx & c & Hc & H)]; [exists s|exists c]; split; try done; [constructor|by eapply stmt_part].
Qed.
Lemma collectStmt_eq s out : collectStmtCallees tab s out =
  let opt (o : option Stmt.t) (out : list nat) : list nat :=
    match o with Some x => collectStmtCallees tab x out | None => out end in
  let out := collectL tab (walked_exprs s) out in
  let out := if bool_decide (Stmt.kind s = Stmt.CallS) then add_callee tab (Stmt.sym s) out else out in
  let out := if bool_decide (Stmt.kind s = Stmt.Declare_)
             then fold_left (fun out d => collectDeclCallees tab d out) (Stmt.decls s) out else out in
  let out := opt (Stmt.unit s) (opt (Stmt.elseS s) (opt (Stmt.thenS s) out)) in
  fold_left (fun out o => opt o out) (Stmt.body s) out.
Proof. by destruct s. Qed.
Lemma adds_if (P : Prop) `{!Decision P} f C D : adds f C D ->
  adds (fun out => if bool_decide P then f out else out) (fun q => P /\ C q) (fun q => P /\ D q).
Proof.
  intros H. case_bool_decide.
  - eapply adds_weaken; [exact H|naive_solver..].
  - eapply adds_weaken; [apply (adds_none (fun _ => False))|naive_solver..].
Qed.
Notation C := (in_stmts (stmt_calls (calls_in tab))).
Notation D := (in_stmts (stmt_calls shaped_calls)).
Lemma collectStmt_adds s : adds (collectStmtCallees tab s) (C s) (D s).
Proof.
  induction s as [s Ht He Hu Hb] using stmt_ind.
  eapply adds_ext; [apply collectStmt_eq|]. cbv zeta.
  eapply adds_weaken;
    [exact (adds_comp _ _ _ _ _ _ (adds_comp _ _ _ _ _ _ (adds_comp _ _ _ _ _ _ (adds_comp _ _ _ _ _ _
       (adds_comp _ _ _ _ _ _ (adds_comp _ _ _ _ _ _
         (collectL_adds (walked_exprs s))
         (adds_if (Stmt.kind s = Stmt.CallS) _ _ _ (adds_callee (Stmt.sym s))))
         (adds_if (Stmt.kind s = Stmt.Declare_) _ _ _ (adds_fold (collectDeclCallees tab) _ _ (Stmt.decls s) (fun d _ => collectDecl_adds d))))
       (adds_opt _ _ _ _ Ht)) (adds_opt _ _ _ _ He)) (adds_opt _ _ _ _ Hu)) (adds_each _ _ _ _ Hb))| |]; intros q.
  - intros H. apply in_stmts_cases.
    destruct H as [[[[[[H|H]|H]|H]|H]|H]|H].
    + left. right. destruct H as (e & Hw & H). exists e. split; [by left|done].
    + left. by left.
    + left. right. destruct H as (Hk & d & Hd & e & Hw & H). exists e. split; [right; eauto|done].
    + right. destruct H as (x & Hx & H). exists x. split; [|exact H].
      unfold stmt_parts. rewrite elem_of_app, !elem_of_cons. auto 6 using eq_sym.
    + right. destruct H as (x & Hx & H). exists x. split; [|exact H].
      unfold stmt_parts. rewrite elem_of_app, !elem_of_cons. auto 6 using eq_sym.
    + right. destruct H as (x & Hx & H). exists x. split; [|exact H].
      unfold stmt_parts. rewrite elem_of_app, !elem_of_cons. auto 6 using eq_sym.
    + right. destruct H as (x & Hx & H). exists x. split; [|exact H].
      unfold stmt_parts. rewrite elem_of_app, !elem_of_cons. auto 6 using eq_sym.
  - intros H. apply in_stmts_cases in H as [[H|(e & [Hw|(Hk & d & Hd & Hw)] & H)]|(x & Hx & H)].
    + do 5 left. by right.
    + do 6 left. eauto.
    + do 4 left. right. split; [done|]. exists d. split; [done|by exists e].
    + unfold stmt_parts in Hx. rewrite elem_of_app, !elem_of_cons in Hx.
      destruct Hx as [[E|[E|[E|E]]]|E]; [do 3 left; right|do 2 left; right|left; right|by apply elem_of_nil in E|right]; eauto using eq_sym.
Qed.
Lemma collectCallees_adds body :
  adds (collectCallees tab body) (fun q => exists s, Some s ∈ body /\ C s q) (fun q => exists s, Some s ∈ body /\ D s q).
Proof.
  apply (adds_each (collectStmtCallees tab)). apply Forall_forall. intros [s|] _; [apply collectStmt_adds|exact I].
Qed.

(** The edges are calls, and in a plain program all of them. *)
Lemma adj_calls prog p q : q ∈ adj tab prog p -> calls tab prog p q.
Proof.
  unfold adj. destruct (Stmts.procs prog !! p) as [pr|] eqn:Ep; [|intros H; by apply elem_of_nil in H].
  intros H. apply (collectCallees_adds (Proc.body pr)) in H as [H|(s0 & Hs0 & s & Hs & H)]; [by apply elem_of_nil in H|].
  exists pr. split; [done|]. exists s0, s. repeat split; [done..|]. destruct H as [H|(e & He & H)]; [by left|right; eauto].
Qed.
Lemma calls_adj prog p q : plain tab prog -> calls tab prog p q -> q ∈ adj tab prog p.
Proof.
  intros Hp (pr & Ep & s0 & s & Hs0 & Hs & H). unfold adj. rewrite Ep.
  apply (collectCallees_adds (Proc.body pr)). right. exists s0. split; [done|]. exists s. split; [done|].
  destruct H as [H|(e & [He|He] & H)]; [by left|..]; destruct (Hp p pr Ep s0 s e Hs0 Hs) as [H1 H2].
  - right. exists e. split; [done|]. split; [by apply H1|done].
  - by destruct (H2 He q).
Qed.
End collected.

(** ** The search of one procedure *)
Section search.
Variable G : nat -> list nat.
Definition edge (p q : nat) : Prop := q ∈ G p.

(** The work left: the callees of the procedures not expanded yet. *)
Definition left_in (seen : gset nat) (l : list nat) : nat :=
  sum_list_with (fun q => if decide (q ∈ seen) then 0%nat else length (G q)) l.
Lemma left_in_add q seen l : NoDup l -> q ∉ seen ->
  (left_in ({[q]} ∪ seen) l + (if decide (q ∈ l) then length (G q) else 0) <= left_in seen l)%nat.
Proof.
  intros Hn Hq. induction Hn as [|x l Hx Hn IH]; [rewrite decide_False by apply not_elem_of_nil; done|].
  unfold left_in in *. cbn [sum_list_with]. destruct (decide (x = q)) as [-> |Hne].
  - rewrite (decide_True (P := q ∈ {[q]} ∪ seen)) by set_solver. rewrite (decide_False (P := q ∈ seen)) by done.
    rewrite (decide_True (P := q ∈ q :: l)) by left. rewrite decide_False in IH by done. lia.
  - rewrite (decide_ext (x ∈ {[q]} ∪ seen) (x ∈ seen)) by set_solver.
    rewrite (decide_ext (q ∈ x :: l) (q ∈ l)) by (rewrite elem_of_cons; naive_solver). destruct (decide (x ∈ seen)); lia.
Qed.
Lemma left_in_empty l : left_in ∅ l = sum_list_with (fun q => length (G q)) l.
Proof. unfold left_in. induction l as [|q l IH]; cbn; [done|]. by rewrite decide_False, IH by set_solver. Qed.
Lemma elem_of_rev (x : nat) l : x ∈ rev l <-> x ∈ l.
Proof. rewrite !list_elem_of_In. symmetry. apply in_rev. Qed.

Variable start : nat.
Lemma search_ends N n stack seen : (forall q, (N <= q)%nat -> G q = []) ->
  (length stack + left_in seen (seq 0 N) < n)%nat -> is_Some (search G start n stack seen).
Proof.
  intros outside. revert stack seen. induction n as [|n IH]; intros stack seen Hn; [lia|]. cbn.
  destruct stack as [|q stack]; [by eexists|]. cbn in Hn.
  case_decide as Hs; [by eexists|]. case_decide as Hq; [apply IH; lia|].
  apply IH. rewrite length_app, length_rev.
  pose proof (left_in_add q seen (seq 0 N) (NoDup_seq 0 N) Hq) as Hl.
  case_decide as Hin; [lia|]. rewrite (outside q) by (rewrite elem_of_seq in Hin; lia). cbn. lia.
Qed.
Lemma search_true n stack seen : search G start n stack seen = Some true -> exists q, q ∈ stack /\ rtc edge q start.
Proof.
  revert stack seen. induction n as [|n IH]; intros stack seen H; [done|]. cbn in H.
  destruct stack as [|q stack]; [done|]. case_decide as Hs; [subst; exists start; split; [by left|done]|].
  case_decide as Hq.
  - destruct (IH _ _ H) as (p & Hp & Hr). exists p. split; [by right|done].
  - destruct (IH _ _ H) as (p & [Hp|Hp]%elem_of_app & Hr); [|exists p; split; [by right|done]].
    exists q. split; [by left|]. apply rtc_l with p; [|done]. unfold edge. by rewrite elem_of_rev in Hp.
Qed.
Lemma search_false n stack seen : search G start n stack seen = Some false -> start ∉ seen ->
  (forall p q, p ∈ seen -> edge p q -> q ∈ seen \/ q ∈ stack) ->
  forall p, p ∈ seen \/ p ∈ stack -> ~ rtc edge p start.
Proof.
  revert stack seen. induction n as [|n IH]; intros stack seen H Hs Hc p Hp; [done|]. cbn in H.
  destruct stack as [|q stack].
  - intros Hr. apply Hs. destruct Hp as [Hp|Hp]; [|by apply elem_of_nil in Hp]. clear H.
    assert (forall x y, rtc edge x y -> x ∈ seen -> y ∈ seen) as Hclosed; [|eauto].
    intros x y Hr'. induction Hr' as [|x y z Hxy Hr' IHr]; intros Hx; [done|]. apply IHr. destruct (Hc x y Hx Hxy) as [H|H]; [done|by apply elem_of_nil in H].
  - case_decide as Hqs; [done|]. case_decide as Hq.
    + apply (IH _ _ H Hs).
      * intros x y Hx Hxy. destruct (Hc x y Hx Hxy) as [|[-> |]%elem_of_cons]; auto.
      * destruct Hp as [|[-> |]%elem_of_cons]; auto.
    + refine (IH _ _ H _ _ p _); [set_solver| |].
      * intros x y Hx Hxy. rewrite elem_of_app, elem_of_rev.
        apply elem_of_union in Hx as [->%elem_of_singleton|Hx]; [by right; left|].
        destruct (Hc x y Hx Hxy) as [|[-> |]%elem_of_cons]; [left; set_solver|left; set_solver|auto].
      * rewrite elem_of_app. destruct Hp as [|[-> |]%elem_of_cons]; [left; set_solver|left; set_solver|auto].
Qed.
End search.

Lemma on_cycle_spec tab prog i :
  exists b, on_cycle tab prog i = Some b /\ (b = true <-> tc (edge (adj tab prog)) i i).
Proof.
  destruct (search_ends (adj tab prog) i (length (Stmts.procs prog)) (search_fuel tab prog i) (rev (adj tab prog i)) ∅) as [b Hb].
  - intros q Hq. unfold adj. by rewrite (lookup_ge_None_2 (Stmts.procs prog) q).
  - rewrite length_rev. rewrite left_in_empty. unfold search_fuel. lia.
  - exists b. split; [exact Hb|]. destruct b; (split; [intros Hf|intros Ht]); try done.
    + apply search_true in Hb as (q & Hq & Hr). rewrite elem_of_rev in Hq. apply tc_rtc_r with q; [by apply tc_once|exact Hr].
    + exfalso. assert (exists q, edge (adj tab prog) i q /\ rtc (edge (adj tab prog)) q i) as (q & Hq & Hr).
      { inversion Ht as [|? q ? Hq Hr]; subst; [by exists i|]. exists q. split; [done|by apply tc_rtc]. }
      refine (search_false _ _ _ _ _ Hb _ _ q _ Hr); [set_solver..|right; by apply elem_of_rev].
Qed.

(** The diagnostics of the procedures numbered [ls], in that order. *)
Definition report (prog : Program) (d : Diags) (i : nat) : Diags :=
  match Stmts.procs prog !! i with Some p => not_recursive p d | None => d end.
Definition offends (tab : symtab) (prog : Program) (i : nat) : Prop :=
  exists p, Stmts.procs prog !! i = Some p /\ Proc.isRecursive p = false /\ tc (edge (adj tab prog)) i i.
Lemma check_from_spec tab prog ps : forall i d, drop i (Stmts.procs prog) = ps ->
  exists ls, check_from tab prog ps i d = Some (fold_left (report prog) ls d) /\ StronglySorted lt ls /\
    forall j, j ∈ ls <-> (i <= j)%nat /\ offends tab prog j.
Proof.
  induction ps as [|p ps IH]; intros i d Hps; cbn [check_from].
  - exists []. split; [done|]. split; [constructor|]. intros j. split; [by intros ?%elem_of_nil|]. intros [Hj (p & Hp & _)].
    apply lookup_lt_Some in Hp. apply (f_equal length) in Hps. rewrite length_drop in Hps. cbn in Hps. lia.
  - assert (Stmts.procs prog !! i = Some p) as Hp.
    { rewrite <- (Nat.add_0_r i), <- lookup_drop, Hps. done. }
    assert (drop (S i) (Stmts.procs prog) = ps) as Hps'.
    { rewrite <- Nat.add_1_r, <- drop_drop, Hps. done. }
    destruct (on_cycle_spec tab prog i) as (b & -> & Hb).
    destruct (IH (S i) (if b && negb (Proc.isRecursive p) then not_recursive p d else d) Hps') as (ls & -> & Hs & Hls).
    destruct (decide (b = true /\ Proc.isRecursive p = false)) as [[-> Hr]|Hn].
    + exists (i :: ls). rewrite Hr. cbn [fold_left andb negb]. replace (report prog d i) with (not_recursive p d) by (unfold report; by rewrite Hp). split; [done|]. split.
      * constructor; [done|]. apply List.Forall_forall. intros j Hj. apply list_elem_of_In, Hls in Hj. lia.
      * intros j. rewrite elem_of_cons, Hls. split.
        -- intros [-> |[? ?]]; (split; [lia|]); [|done]. exists p. split; [done|]. split; [done|by apply Hb].
        -- intros [Hle Ho]. destruct (decide (j = i)); [by left|right]. split; [lia|done].
    + exists ls. split; [|split; [done|]].
      * destruct b, (Proc.isRecursive p); cbn; try done. by destruct Hn.
      * intros j. rewrite Hls. split; intros [Hle Ho]; (split; [|done]); [lia|]. destruct (decide (j = i)) as [-> |]; [|lia].
        destruct Ho as (p' & Hp' & Hr & Ht). rewrite Hp in Hp'. injection Hp' as <-. destruct Hn. split; [by apply Hb|done].
Qed.

Lemma tc_mono {A} (R R' : relation A) : (forall x y, R x y -> R' x y) -> forall x y, tc R x y -> tc R' x y.
Proof. intros HR x y H. induction H as [x y H|x y z H _ IH]; [by apply tc_once, HR|eapply tc_l; [by apply HR|done]]. Qed.

(** ** What the check promises *)
(** C18: the check of rule 5.  It ends, whatever the call graph, and it reports one error per
    procedure, in the order of the program, at the procedure.  A procedure that is reported
    is not RECURSIVE and can call itself again, directly or through others, in the plain
    sense of the text: a CALL statement or a function reference anywhere in a body.  In a
    program whose calls stand in the parts of statements that the collector walks, every
    such procedure is reported. *)
Theorem recursion_checked (tab : symtab) (prog : Program) (d : Diags) :
  exists ls, checkRecursion tab prog d = Some (fold_left (report prog) ls d) /\ StronglySorted lt ls /\
    (forall i, i ∈ ls -> exists p, Stmts.procs prog !! i = Some p /\ Proc.isRecursive p = false /\ tc (calls tab prog) i i) /\
    (plain tab prog -> forall i p, Stmts.procs prog !! i = Some p -> Proc.isRecursive p = false -> tc (calls tab prog) i i -> i ∈ ls).
Proof.
  destruct (check_from_spec tab prog (Stmts.procs prog) 0 d eq_refl) as (ls & He & Hs & Hls).
  exists ls. split; [exact He|]. split; [exact Hs|]. split.
  - intros i Hi. apply Hls in Hi as (_ & p & Hp & Hr & Ht). exists p. split; [done|]. split; [done|].
    exact (tc_mono _ _ (adj_calls tab prog) i i Ht).
  - intros Hpl i p Hp Hr Ht. apply Hls. split; [lia|]. exists p. split; [done|]. split; [done|].
    exact (tc_mono _ _ (fun x y => calls_adj tab prog x y Hpl) i i Ht).
Qed.

(** [F: PROCEDURE; CALL F; END;], and the same with [F] named in the bound of an ALLOCATE. *)
Definition proc_of (s : Stmt.t) : Proc.t :=
  Proc.mk (txt "F") (mkLoc 1 1) false false false false Ty_default [] [] false [] [] [Some s] None [] [] [] [] [].
Definition with_call (k : Stmt.Kind) (sym : option nat) (al : AllocOpts Expr.t) : Stmt.t :=
  Stmt.mk k (mkLoc 2 1) [] [] [] None None None None None None false false [] false no_prefixes None None [] [] sym
    Ty_default no_entry no_stream [] no_file [] None no_task no_on None al.
Definition call_F : Expr.t :=
  Expr.mk Expr.Call (mkLoc 2 1) Ty_default 0 0 0 0 0 [] (txt "F") [] [] (Some 0%nat) None false false false Tok.Eof None None [].
Definition self_call : Program := mkProgram [proc_of (with_call Stmt.CallS (Some 0%nat) no_alloc)] [] None [].
Definition bound_call : Program :=
  mkProgram [proc_of (with_call Stmt.Allocate None (mkAllocOpts [] [] [] [[mkAllocBound None (Some call_F) false]] [] [] [] [] []))] [] None [].
Definition one_proc : symtab := fun _ => procSym 0.

Definition absent {A} (o : option A) : bool := match o with None => true | Some _ => false end.
Lemma all_absent {A} (l : list (option A)) x : forallb absent l = true -> Some x ∉ l.
Proof. intros H Hx. apply list_elem_of_In in Hx. by apply (proj1 (forallb_forall _ _) H) in Hx. Qed.
Lemma self_call_plain : plain one_proc self_call.
Proof.
  intros [|i] p Hp; [|by destruct i]. injection Hp as <-. intros s0 s e Hs0 Hs.
  apply list_elem_of_singleton in Hs0. injection Hs0 as ->. inversion Hs as [|? x ? Hx _]; subst.
  - split.
    + intros [He|(Hk & _)]; [by apply all_absent in He|done].
    + intros [He|[(dd & Hd & _)|(f & _ & Hf & _)]]; [by apply all_absent in He|by apply elem_of_nil in Hd|by apply elem_of_nil in Hf].
  - by apply all_absent in Hx.
Qed.
Lemma recursion_checked_witness (d := Diags_new (txt "a.pli")) : exists ls, checkRecursion one_proc self_call d = Some (fold_left (report self_call) ls d) /\ 0%nat ∈ ls.
Proof.
  destruct (recursion_checked one_proc self_call d) as (ls & He & _ & _ & H). exists ls. split; [exact He|].
  refine (H self_call_plain 0%nat _ eq_refl eq_refl _). apply tc_once.
  exists (proc_of (with_call Stmt.CallS (Some 0%nat) no_alloc)). split; [reflexivity|].
  exists (with_call Stmt.CallS (Some 0%nat) no_alloc), (with_call Stmt.CallS (Some 0%nat) no_alloc).
  split; [by apply list_elem_of_singleton|]. split; [constructor|]. left. split; [reflexivity|]. exists 0%nat. by split.
Defined.

(** What the check of rule 5 misses.  The collector does not walk the bounds and the
    CHARACTER length of an ALLOCATE, the areas of ALLOCATE and FREE, the operands of OPEN and of
    the record statements, the ONCODE of a SIGNAL or the target of a GO TO: a procedure that
    invokes itself only there is called recursively without being RECURSIVE, and nothing is
    reported. *)
Theorem recursion_missed (d : Diags) :
  tc (calls one_proc bound_call) 0%nat 0%nat /\
  (exists p, Stmts.procs bound_call !! 0%nat = Some p /\ Proc.isRecursive p = false) /\
  checkRecursion one_proc bound_call d = Some d.
Proof.
  split; [|split; [by eexists|reflexivity]]. apply tc_once. eexists. split; [reflexivity|]. eexists _, _.
  split; [by apply list_elem_of_singleton|]. split; [constructor|]. right. exists call_F. split.
  - right. left. vm_compute. do 4 right. left.
  - exists call_F, 0%nat. repeat split; constructor.
Qed.
