(* ===== verification/Scopes.v ===== *)
(** * Scopes and symbols ([src/sema.cpp])

    The symbol tables of the semantic analysis: scopes, lookup, declaration, the names of
    procedures, packages, parameters and the bases of BASED variables.  A [Scope*], a
    [Symbol*] and a [Proc*] are indices into [scopes_], [owned_] and the procedures of the
    program; the root scope is scope 0. *)
From S2P Require Import Prelude Monad Types Diag Lexer Ast Stmts Hir ParserBase.

(** ** The members of [Sema] *)
Record Scope := mkScope { sparent : option nat; tab : gmap text nat; order : list nat; aliases : gmap text Ty }.
(** A BASED item whose base is not resolved yet: what the code reads of the item, its scope and procedure. *)
Record PendingBased := mkPending { pb_base : text; pb_sym : nat; pb_loc : SourceLoc; pb_sc : nat; pb_proc : nat }.
Record sema := mkSema {
  d_ : Diags; procs_ : list Proc.t; scopes_ : list Scope; procScopes_ : gmap nat nat; owned_ : list Symbol;
  irNames_ : gset text; storage_ : list nat; pendingBased_ : list PendingBased; mainProc_ : option nat }.
#[global] Instance eta_scope : Eta Scope := fun r => mkScope (sparent r) (tab r) (order r) (aliases r).
#[global] Instance eta_pending : Eta PendingBased := fun r => mkPending (pb_base r) (pb_sym r) (pb_loc r) (pb_sc r) (pb_proc r).
#[global] Instance eta_sema : Eta sema := fun r => mkSema (d_ r) (procs_ r) (scopes_ r) (procScopes_ r) (owned_ r) (irNames_ r) (storage_ r) (pendingBased_ r) (mainProc_ r).
#[global] Instance eta_symbol : Eta Symbol := fun r => mkSymbol (skind r) (isStatic r) (external r) (isEntryC r) (isEntryVar r) (controlledSym r) (basedBase r)
  (basedNoPtr r) (definedBase r) (proc r) (owner r) (sname r) (sty r) (isValue r) (initExpr r) (entryByValue r) (entryStmt r) (low r) (more r).
#[global] Instance eta_more : Eta SymMore := fun r => mkMore (sloc r) (implicit r) (symInitCall r) (initElems r) (symFile r) (isCond r) (symIrName r).
#[global] Instance eta_proc : Eta Proc.t := fun r => Proc.mk
  (Proc.name r) (Proc.loc r) (Proc.isMain r) (Proc.isExternal r) (Proc.isRecursive r) (Proc.isFunction r) (Proc.retTy r)
  (Proc.returnsStructName r) (Proc.params r) (Proc.isPackage r) (Proc.exports r) (Proc.entryNames r) (Proc.body r)
  (Proc.parent r) (Proc.paramSyms r) (Proc.localSyms r) (Proc.directUses r) (Proc.env r) (Proc.irName r).
#[global] Instance eta_entryopts : Eta EntryOpts := fun r => mkEntryOpts (Stmts.params r) (Stmts.entryIsFunction r) (Stmts.entryRetTy r) (Stmts.entryParamSyms r).
#[global] Instance eta_stmt : Eta Stmt.t := fun r => Stmt.mk
  (Stmt.kind r) (Stmt.loc r) (Stmt.labels r) (Stmt.labelElems r) (Stmt.decls r) (Stmt.target r) (Stmt.value r) (Stmt.cond r)
  (Stmt.from r) (Stmt.to r) (Stmt.by_ r) (Stmt.until r) (Stmt.forever r) (Stmt.extraTargets r) (Stmt.byName r) (Stmt.prefixes r)
  (Stmt.thenS r) (Stmt.elseS r) (Stmt.body r) (Stmt.name r) (Stmt.sym r) (Stmt.aliasTy r) (Stmt.entry r) (Stmt.stream r)
  (Stmt.fileIdent r) (Stmt.file r) (Stmt.args r) (Stmt.gotoTarget r) (Stmt.task r) (Stmt.on_ r) (Stmt.unit r) (Stmt.alloc r).

Abbreviation M := (ST sema).
Definition report (loc : SourceLoc) (msg rule : text) : M unit := modify (fun s => s <| d_ := error loc msg rule [] (d_ s) |>).
Definition say (f : Diags -> Diags) : M unit := modify (fun s => s <| d_ := f (d_ s) |>).
Definition on_symbol (i : nat) (f : Symbol -> Symbol) : M unit := modify (fun s => s <| owned_ := alter f i (owned_ s) |>).
Definition on_scope (i : nat) (f : Scope -> Scope) : M unit := modify (fun s => s <| scopes_ := alter f i (scopes_ s) |>).
Definition on_proc (i : nat) (f : Proc.t -> Proc.t) : M unit := modify (fun s => s <| procs_ := alter f i (procs_ s) |>).
Definition the_symbol (s : sema) (i : nat) : Symbol := default (plainVar None) (owned_ s !! i).
Definition the_proc (s : sema) (p : nat) : Proc.t :=
  default (Proc.mk [] (mkLoc 0 0) false false false false Ty_default [] [] false [] [] [] None [] [] [] [] []) (procs_ s !! p).
Definition the_scope (s : sema) (i : nat) : Scope := default (mkScope None ∅ [] ∅) (scopes_ s !! i).

(** ** Scopes *)
(** A [std::make_unique<Scope>] with this parent, pushed to [scopes_]. *)
Definition new_scope (parent : nat) : M nat := fun s =>
  Some (length (scopes_ s), s <| scopes_ := scopes_ s ++ [mkScope (Some parent) ∅ [] ∅] |>).
(** The climb over parents ends after at most as many steps as there are procedures. *)
Fixpoint scope_for (n p : nat) : M nat :=
  match n with
  | O => out_of_fuel
  | S n => fun s =>
      match procScopes_ s !! p with
      | Some sc => Some (sc, s)
      | None =>
          (let* outer := match Proc.parent (the_proc s p) with Some q => scope_for n q | None => ret 0%nat end in
           let* raw := new_scope outer in
           modify (fun s => s <| procScopes_ := <[p := raw]> (procScopes_ s) |>);; ret raw) s
      end
  end.
Definition scopeFor (p : nat) : M nat := fun s => scope_for (S (length (procs_ s))) p s.

(** The climb over the scopes that enclose one another. *)
Fixpoint lookup_from (n : nat) (scs : list Scope) (sc : nat) (x : text) : option nat :=
  match n with
  | O => None
  | S n =>
      match scs !! sc with
      | Some s => match tab s !! x with
                  | Some i => Some i
                  | None => match sparent s with Some p => lookup_from n scs p x | None => None end
                  end
      | None => None
      end
  end.
Definition lookup (s : sema) (sc : nat) (x : text) : option nat := lookup_from (S (length (scopes_ s))) (scopes_ s) sc x.
Fixpoint alias_from (n : nat) (scs : list Scope) (sc : nat) (x : text) : option Ty :=
  match n with
  | O => None
  | S n =>
      match scs !! sc with
      | Some s => match aliases s !! x with
                  | Some t => Some t
                  | None => match sparent s with Some p => alias_from n scs p x | None => None end
                  end
      | None => None
      end
  end.
Definition lookupAlias (s : sema) (sc : nat) (x : text) : option Ty := alias_from (S (length (scopes_ s))) (scopes_ s) sc x.
Definition defineAlias (sc : nat) (x : text) (t : Ty) (l : SourceLoc) : M unit := fun s =>
  if bool_decide (is_Some (aliases (the_scope s sc) !! x))
  then report l (txt "'" ++ x ++ txt "' is already declared in this block (ADR-114)") [] s
  else on_scope sc (fun c => c <| aliases := <[x := t]> (aliases c) |>) s.

(** ** Declaring a name *)
Definition ir_base (k : SymKind) (static : bool) (x : text) : text :=
  if bool_decide (k = Param) then txt "%" ++ x ++ txt ".ptr"
  else if static then txt "@pli_g_" ++ x else txt "%" ++ x ++ txt ".addr".
(** The suffixes are tried in turn until one is free. *)
Fixpoint free_name (n : nat) (used : gset text) (base : text) (d : Z) (ir : text) : option text :=
  match n with
  | O => None
  | S n => if decide (ir ∈ used) then free_name n used base (d + 1) (base ++ txt "$" ++ to_string d) else Some ir
  end.
Definition declare (sc : nat) (x : text) (t : Ty) (l : SourceLoc) (k : SymKind) (static : bool) : M nat := fun s =>
  match tab (the_scope s sc) !! x with
  | Some i =>
      (report l (txt "'" ++ x ++ txt "' is already declared in this block") (txt "(9)");;
       say (note (sloc (more (the_symbol s i))) (txt "previous declaration was here"));; ret i) s
  | None =>
      let base := ir_base k static x in
      match free_name (S (size (irNames_ s))) (irNames_ s) base 1 base with
      | None => None
      | Some ir =>
          let raw := length (owned_ s) in
          let y := (plainSym k static None None) <| sname := x |> <| sty := t |> <| more := mkMore l false None [] false false ir |> in
          (modify (fun s => s <| irNames_ := {[ir]} ∪ irNames_ s |> <| owned_ := owned_ s ++ [y] |>);;
           on_scope sc (fun c => c <| tab := <[x := raw]> (tab c) |> <| order := order c ++ [raw] |>);;
           (if bool_decide (k = ProcName) then ret tt else modify (fun s => s <| storage_ := storage_ s ++ [raw] |>));; ret raw) s
      end
  end.
(** The type of an undeclared name. *)
Definition implicit_type (x : text) : Ty :=
  let c := match x with [] => "X"%char | c :: _ => c end in
  if (73 <=? code c) && (code c <=? 78) then fixedBin 15 0 else flt 6.
Definition implicitDeclare (sc : nat) (x : text) (l : SourceLoc) (static : bool) : M nat :=
  let t := implicit_type x in
  let* s := declare sc x t l Var static in
  on_symbol s (fun y => y <| more := (more y) <| implicit := true |> |>);;
  say (warn l (txt "'" ++ x ++ txt "' is not declared; implicitly " ++ desc t) (txt "(130)") []);; ret s.

(** ** Procedures and packages *)
Fixpoint for_each {A} (f : A -> M Datatypes.unit) (l : list A) : M Datatypes.unit :=
  match l with [] => ret tt | x :: l => f x;; for_each f l end.
Definition on_procs_of (f : nat -> M Datatypes.unit) : M Datatypes.unit := fun s => for_each f (seq 0 (length (procs_ s))) s.
(** The first procedure of package [p] named [x]. *)
Definition member (s : sema) (p : nat) (x : text) : option nat :=
  find (fun q => bool_decide (Proc.parent (the_proc s q) = Some p) && text_eqb (Proc.name (the_proc s q)) x) (seq 0 (length (procs_ s))).
Definition export (p : nat) (x : text) : M Datatypes.unit := fun s =>
  let pr := the_proc s p in
  match member s p x with
  | None => report (Proc.loc pr) (txt "EXPORTS name '" ++ x ++ txt "' is not a procedure of package '" ++ Proc.name pr ++ txt "' (ADR-109)") [] s
  | Some m =>
      if Proc.isMain (the_proc s m) then report (Proc.loc pr) (txt "cannot EXPORT the MAIN procedure '" ++ x ++ txt "' (ADR-109)") [] s
      else on_proc m (fun q => q <| Proc.isExternal := true |>) s
  end.
Definition resolvePackageExports : M Datatypes.unit :=
  on_procs_of (fun p s =>
    if Proc.isPackage (the_proc s p) then for_each (export p) (Proc.exports (the_proc s p)) s else ret tt s).
Definition processPackage (p : nat) : M Datatypes.unit := fun s =>
  for_each (fun b =>
    match b with
    | None => ret tt
    | Some b =>
        if bool_decide (Stmt.kind b = Stmt.Null) || bool_decide (Stmt.kind b = Stmt.Declare_) then ret tt
        else report (Stmt.loc b) (txt "only DECLARE and PROCEDURE may appear in a PACKAGE body (ADR-109)") []
    end) (Proc.body (the_proc s p)) s.

(** Pass 1 of [run]: linkage, IR name and symbols of one procedure. *)
Definition proc_ir (s : sema) (p : Proc.t) : text :=
  if Proc.isExternal p then txt "@" ++ Proc.name p
  else txt "@PLI_" ++ (match Proc.parent p with Some q => Proc.name (the_proc s q) ++ txt "$" | None => [] end) ++ Proc.name p.
Definition declareProc (p : nat) : M Datatypes.unit := fun s =>
  let pr := the_proc s p in
  if Proc.isPackage pr then ret tt s
  else
    let ext := Proc.isExternal pr || (negb (bool_decide (is_Some (Proc.parent pr))) && negb (Proc.isMain pr)) in
    (on_proc p (fun q => q <| Proc.isExternal := ext |>);;
     let* ir := get (fun s => proc_ir s (the_proc s p)) in
     on_proc p (fun q => q <| Proc.irName := ir |>);;
     let* outer := match Proc.parent pr with Some q => scopeFor q | None => ret 0%nat end in
     let symTy := if Proc.isFunction pr then Proc.retTy pr else voidTy in
     let* s := declare outer (Proc.name pr) symTy (Proc.loc pr) ProcName false in
     on_symbol s (fun y => y <| proc := Some p |>);;
     for_each (fun en =>
       let* es := declare outer en symTy (Proc.loc pr) ProcName false in on_symbol es (fun y => y <| proc := Some p |>))
       (Proc.entryNames pr);;
     for_each (fun st =>
       match st with
       | None => ret tt
       | Some st =>
           if bool_decide (Stmt.kind st = Stmt.Entry) then
             let et := if Stmts.entryIsFunction (Stmt.entry st) then Stmts.entryRetTy (Stmt.entry st) else voidTy in
             let* es := declare outer (Stmt.name st) et (Stmt.loc st) ProcName false in
             on_symbol es (fun y => y <| proc := Some p |> <| entryStmt := Some (Stmts.entryParamSyms (Stmt.entry st)) |>)
           else ret tt
       end) (Proc.body pr)) s.
Definition pass1 : M Datatypes.unit := on_procs_of declareProc.
(** The entry point of a program without OPTIONS(MAIN). *)
Definition chooseMain (compileOnly : bool) : M Datatypes.unit := fun s =>
  match mainProc_ s with
  | Some _ => ret tt s
  | None =>
      match find (fun p => negb (Proc.isPackage (the_proc s p))) (seq 0 (length (procs_ s))) with
      | Some e =>
          if compileOnly then ret tt s
          else
            (say (warn (Proc.loc (the_proc s e)) (txt "no procedure has OPTIONS(MAIN); using '" ++ Proc.name (the_proc s e) ++
                   txt "' as the program entry point") (txt "(5)") []);;
             modify (fun s => s <| mainProc_ := Some e |>);; on_proc e (fun q => q <| Proc.isMain := true |>)) s
      | None =>
          if bool_decide (procs_ s = []) then report (mkLoc 0 0) (txt "translation unit contains no procedure") (txt "(1)") s
          else if compileOnly then ret tt s
          else report (mkLoc 0 0) (txt "translation unit holds only PACKAGE blocks and no entry point (ADR-109)") (txt "(1)") s
      end
  end.

(** ** Parameters *)
Definition forget_storage (i : nat) : M Datatypes.unit := modify (fun s => s <| storage_ := List.filter (fun j => negb (j =? i)%nat) (storage_ s) |>).
Definition param_ir (x : text) : text := txt "%" ++ x ++ txt ".ptr".
Definition resolveParam (sc p : nat) (x : text) : M nat := fun s =>
  (let* i :=
     match tab (the_scope s sc) !! x with
     | Some i =>
         on_symbol i (fun y => y <| skind := Param |> <| isStatic := false |> <| more := (more y) <| symIrName := param_ir x |> |>);;
         forget_storage i;; ret i
     | None =>
         let t := implicit_type x in
         let* i := declare sc x t (Proc.loc (the_proc s p)) Param false in
         forget_storage i;;
         say (warn (Proc.loc (the_proc s p)) (txt "parameter '" ++ x ++ txt "' has no DECLARE; implicitly " ++ desc t) (txt "(4)") []);;
         ret i
     end in
   on_symbol i (fun y => y <| owner := Some p |>);; ret i) s.
Fixpoint map_m {A B} (f : A -> M B) (l : list A) : M (list B) :=
  match l with [] => ret [] | x :: l => let* y := f x in let* l := map_m f l in ret (y :: l) end.
(** [resolveParams] with the symbols resolved so far; nothing is done twice. *)
Definition resolveParams (sc p : nat) (names : list text) (out : list nat) : M (list nat) :=
  if bool_decide (out = []) then map_m (resolveParam sc p) names else ret out.
Definition resolveEntryParams (sc p : nat) (st : option Stmt.t) : M (option Stmt.t) :=
  match st with
  | Some s =>
      if bool_decide (Stmt.kind s = Stmt.Entry) then
        let* l := resolveParams sc p (Stmts.params (Stmt.entry s)) (Stmts.entryParamSyms (Stmt.entry s)) in
        ret (Some (s <| Stmt.entry := (Stmt.entry s) <| Stmts.entryParamSyms := l |> |>))
      else ret st
  | None => ret st
  end.
Definition resolveProcParams (p : nat) : M Datatypes.unit :=
  let* sc := scopeFor p in
  let* pr := get (fun s => the_proc s p) in
  let* l := resolveParams sc p (Proc.params pr) (Proc.paramSyms pr) in
  on_proc p (fun q => q <| Proc.paramSyms := l |>);;
  let* b := map_m (resolveEntryParams sc p) (Proc.body pr) in
  on_proc p (fun q => q <| Proc.body := b |>).

(** ** BASED *)
Definition isProcParamName (p : Proc.t) (x : text) : bool :=
  existsb (text_eqb x) (Proc.params p) ||
  existsb (fun o => match o with Some st => bool_decide (Stmt.kind st = Stmt.Entry) && existsb (text_eqb x) (Stmts.params (Stmt.entry st)) | None => false end)
    (Proc.body p).
(** A variable or parameter that locates storage. *)
Definition is_locator (y : Symbol) : bool := (bool_decide (skind y = Var) || bool_decide (skind y = Param)) && isLocator (sty y).
Definition set_base (i b : nat) : M Datatypes.unit := on_symbol i (fun y => y <| basedBase := Some b |>).
Definition tryResolveBased (pb : PendingBased) : M bool := fun s =>
  if bool_decide (pb_base pb = []) || bool_decide (is_Some (basedBase (the_symbol s (pb_sym pb)))) then ret true s
  else
    let base := lookup s (pb_sc pb) (pb_base pb) in
    match base with
    | Some b => if is_locator (the_symbol s b) then (set_base (pb_sym pb) b;; ret true) s else ret false s
    | None =>
        if isProcParamName (the_proc s (pb_proc pb)) (pb_base pb) then
          (let* psc := scopeFor (pb_proc pb) in
           let* b := declare psc (pb_base pb) ptr (pb_loc pb) Var false in
           on_symbol b (fun y => y <| owner := Some (pb_proc pb) |>);; set_base (pb_sym pb) b;; ret true) s
        else ret false s
    end.
Definition resolvePendingBased (p : nat) : M Datatypes.unit := fun s =>
  for_each (fun pb => if (pb_proc pb =? p)%nat then tryResolveBased pb;; ret tt else ret tt) (pendingBased_ s) s.
Definition no_base (pb : PendingBased) : M PendingBased :=
  report (pb_loc pb) (txt "BASED base '" ++ pb_base pb ++ txt "' is not a POINTER or OFFSET variable in this scope") (txt "(25)");;
  ret (pb <| pb_base := [] |>).
Definition flush_one (pb : PendingBased) : M PendingBased := fun s =>
  if bool_decide (is_Some (basedBase (the_symbol s (pb_sym pb)))) then ret pb s
  else
    (let* ok := tryResolveBased pb in
     if ok : bool then ret pb
     else fun s =>
       match lookup s (pb_sc pb) (pb_base pb) with
       | Some b => if is_locator (the_symbol s b) then (set_base (pb_sym pb) b;; ret pb) s else no_base pb s
       | None => no_base pb s
       end) s.
Definition flushPendingBased : M Datatypes.unit := fun s =>
  (let* l := map_m flush_one (pendingBased_ s) in modify (fun s => s <| pendingBased_ := l |>)) s.

(** ** Structures *)
Fixpoint hasDynamicMember (t : Ty) : bool :=
  existsb (fun m => match m with mkMember _ u => (isArray u && isDynamic u) || (isStruct u && hasDynamicMember u) end) (members t).
Definition resolveStructReturn (p : nat) : M Datatypes.unit := fun s =>
  let pr := the_proc s p in
  if bool_decide (Proc.returnsStructName pr = []) then ret tt s
  else
    (let* sc := scopeFor p in
     fun s =>
       let bad := report (Proc.loc pr) (txt "RETURNS reference '" ++ Proc.returnsStructName pr ++ txt "' is not a structure in this scope") (txt "(127)");;
                  on_proc p (fun q => q <| Proc.retTy := voidTy |>) in
       match lookup s sc (Proc.returnsStructName pr) with
       | Some i =>
           let tpl := the_symbol s i in
           if bool_decide (skind tpl = Var) && isStruct (sty tpl) then
             ((if hasDynamicMember (sty tpl) then report (Proc.loc pr) (txt "RETURNS of a structure with a dynamic member is not implemented") (txt "(13)") else ret tt);;
              on_proc p (fun q => q <| Proc.retTy := sty tpl |>)) s
           else bad s
       | None => bad s
       end) s.
