(* ===== verification/ScopesThms.v ===== *)
(** * Theorems on scopes and symbols

    The climb over parents, the states the analysis can reach, their invariant, and lexical
    lookup. *)
From S2P Require Import Prelude Monad Types Diag Lexer Ast Stmts Hir ParserBase Scopes.

(** ** Climbing a forest *)
(** [up a] is the parent of [a] among [N] nodes; no node is above itself. *)
Section forest.
Variables (up : nat -> option nat) (N : nat).
Definition below (a b : nat) : Prop := up a = Some b.
Definition forest : Prop := (forall a b, below a b -> (a < N)%nat /\ (b < N)%nat) /\ forall a, ~ tc below a a.
Fixpoint chain (n a : nat) : list nat :=
  match n with O => [] | S n => a :: match up a with Some b => chain n b | None => [] end end.

Lemma chain_above n a x : x ∈ chain n a -> rtc below a x.
Proof.
  revert a. induction n as [|n IH]; intros a Hx; cbn in Hx; [by apply elem_of_nil in Hx|].
  apply elem_of_cons in Hx as [-> |Hx]; [constructor|]. destruct (up a) as [b|] eqn:E; [|by apply elem_of_nil in Hx].
  eapply rtc_l; [exact E|auto].
Qed.
Lemma chain_nodup n a : forest -> NoDup (chain n a).
Proof.
  intros Hf. revert a. induction n as [|n IH]; intros a; cbn; [constructor|]. destruct (up a) as [b|] eqn:E.
  - constructor; [|done]. intros Hx. apply (proj2 Hf a). apply tc_rtc_r with b; [by apply tc_once|by apply chain_above in Hx].
  - constructor; [apply not_elem_of_nil|constructor].
Qed.
Lemma chain_bound n a : forest -> (a < N)%nat -> (length (chain n a) <= N)%nat.
Proof.
  intros Hf Ha. rewrite <- (length_seq N 0). apply submseteq_length, NoDup_submseteq; [by apply chain_nodup|].
  intros x Hx. apply chain_above in Hx. apply elem_of_seq. cut (x < N)%nat; [lia|].
  induction Hx as [x|x y z Hxy _ IH]; [done|]. apply IH. by apply (proj1 Hf x).
Qed.
Lemma chain_stable n a : (length (chain (S n) a) <= n)%nat -> chain (S n) a = chain n a.
Proof.
  revert a. induction n as [|n IH]; intros a H; [by cbn in H; lia|].
  cbn [chain] in *. destruct (up a) as [b|]; [|done]. cbn in H. f_equal. apply IH. cbn. lia.
Qed.
Lemma chain_short n a : (length (chain n a) <= n)%nat.
Proof. revert a. induction n as [|n IH]; intros a; cbn; [lia|]. destruct (up a) as [b|]; cbn; [|lia]. specialize (IH b). lia. Qed.
(** A rank that falls on the way up and is at most [N]. *)
Definition rank (a : nat) : nat := length (chain N a).
Lemma rank_bound a : (rank a < S N)%nat.
Proof. unfold rank. pose proof (chain_short N a). lia. Qed.
Lemma rank_up a b : forest -> up a = Some b -> (rank b < rank a)%nat.
Proof.
  intros Hf E. destruct (proj1 Hf a b E) as [Ha Hb]. unfold rank.
  rewrite <- (chain_stable N a) by (by apply chain_bound). cbn. rewrite E. cbn. lia.
Qed.
End forest.

(** The parents of the procedures of a program. *)
Definition proc_up (ps : list Proc.t) (p : nat) : option nat := match ps !! p with Some pr => Proc.parent pr | None => None end.
Definition nested (ps : list Proc.t) : Prop := forest (proc_up ps) (length ps).

(** ** A free name *)
Definition candidate (base : text) (k : nat) : text :=
  match k with O => base | S _ => base ++ txt "$" ++ to_string (Z.of_nat k) end.
Lemma to_string_inj a b : 0 <= a -> 0 <= b -> to_string a = to_string b -> a = b.
Proof.
  intros Ha Hb E. destruct (to_string_nonneg a Ha) as (_ & _ & Va), (to_string_nonneg b Hb) as (_ & _ & Vb).
  rewrite <- Va, <- Vb. by rewrite E.
Qed.
Lemma candidate_inj base i j : candidate base i = candidate base j -> i = j.
Proof.
  destruct i as [|i], j as [|j]; cbn [candidate]; intros H; [done|apply (f_equal length) in H; rewrite !length_app in H; change (length (txt "$")) with 1%nat in H; lia..|].
  apply app_inv_head in H. injection H as H. apply to_string_inj in H; lia.
Qed.
Lemma free_name_spec n used base d :
  match free_name n used base (Z.of_nat (S d)) (candidate base d) with
  | Some r => r ∉ used /\ exists j, r = candidate base j
  | None => forall i, (d <= i < d + n)%nat -> candidate base i ∈ used
  end.
Proof.
  revert d. induction n as [|n IH]; intros d; cbn [free_name]; [intros i Hi; lia|].
  case_decide as Hd; [|split; [done|by exists d]].
  replace (Z.of_nat (S d) + 1) with (Z.of_nat (S (S d))) by lia. specialize (IH (S d)).
  change (base ++ txt "$" ++ to_string (Z.of_nat (S d))) with (candidate base (S d)).
  destruct (free_name n used base (Z.of_nat (S (S d))) (candidate base (S d))) as [r|]; [done|].
  intros i Hi. destruct (decide (i = d)) as [-> |]; [done|]. apply IH. lia.
Qed.
Lemma free_name_ends used base : exists r, free_name (S (size used)) used base 1 base = Some r /\ r ∉ used.
Proof.
  pose proof (free_name_spec (S (size used)) used base 0) as H. cbn [candidate] in H. change (Z.of_nat 1) with 1 in H.
  destruct (free_name _ _ _ _ _) as [r|]; [exists r; by destruct H|]. exfalso.
  assert (list_to_set (map (candidate base) (seq 0 (S (size used)))) ⊆ used) as Hs.
  { intros x Hx. apply elem_of_list_to_set, list_elem_of_fmap in Hx as (i & -> & Hi). apply elem_of_seq in Hi. apply H. lia. }
  apply subseteq_size in Hs. rewrite size_list_to_set in Hs; [rewrite length_map, length_seq in Hs; lia|].
  apply NoDup_fmap_2_strong; [|apply NoDup_seq]. intros i j _ _. apply candidate_inj.
Qed.

(** ** The invariant *)
(** What every state has: procedures nested in a forest, scopes that point to earlier scopes,
    tables that name the symbols they hold, each in one table. *)
Record shape (s : sema) : Prop := {
  sh_nested : nested (procs_ s);
  sh_root : exists r, scopes_ s !! 0%nat = Some r /\ sparent r = None;
  sh_parent : forall i c p, scopes_ s !! i = Some c -> sparent c = Some p -> (p < i)%nat;
  sh_scope : forall p sc, procScopes_ s !! p = Some sc -> (sc < length (scopes_ s))%nat;
  sh_tab : forall i c x j, scopes_ s !! i = Some c -> tab c !! x = Some j -> exists y, owned_ s !! j = Some y /\ sname y = x;
  sh_one : forall i i' c c' x x' j, scopes_ s !! i = Some c -> scopes_ s !! i' = Some c' -> tab c !! x = Some j -> tab c' !! x' = Some j -> i = i';
  sh_link : forall p sc, procScopes_ s !! p = Some sc -> exists c o, scopes_ s !! sc = Some c /\ sparent c = Some o /\
    match proc_up (procs_ s) p with Some q => procScopes_ s !! q = Some o | None => o = 0%nat end }.
(** The names in the IR are those handed out, each to one symbol. *)
Record distinct (s : sema) : Prop := {
  ds_used : forall i y, owned_ s !! i = Some y -> symIrName (more y) ∈ irNames_ s;
  ds_one : forall i j y z, owned_ s !! i = Some y -> owned_ s !! j = Some z -> symIrName (more y) = symIrName (more z) -> i = j }.
(** Nothing is taken away. *)
Record grows (s s' : sema) : Prop := {
  gr_scopes : (length (scopes_ s) <= length (scopes_ s'))%nat;
  gr_owned : (length (owned_ s) <= length (owned_ s'))%nat;
  gr_procs : map Proc.parent (procs_ s') = map Proc.parent (procs_ s) }.
Lemma extends_refl s : grows s s.
Proof. by constructor. Qed.
Lemma extends_trans a b c : grows a b -> grows b c -> grows a c.
Proof. intros [] []. split; [lia..|congruence]. Qed.
Lemma grows_count s s' : grows s s' -> length (procs_ s') = length (procs_ s).
Proof. intros H. pose proof (f_equal length (gr_procs _ _ H)) as E. by rewrite !length_map in E. Qed.

Lemma proc_up_map ps ps' : map Proc.parent ps' = map Proc.parent ps -> forall a, proc_up ps' a = proc_up ps a.
Proof.
  intros E a. unfold proc_up. pose proof (f_equal (fun l => l !! a) E) as Ea. cbn in Ea. rewrite !list_lookup_fmap in Ea.
  destruct (ps' !! a), (ps !! a); cbn in Ea; congruence.
Qed.
Lemma nested_map ps ps' : map Proc.parent ps' = map Proc.parent ps -> nested ps -> nested ps'.
Proof.
  intros E. pose proof (proc_up_map ps ps' E) as Hu.
  pose proof (f_equal length E) as El. rewrite !length_map in El.
  assert (forall a b, below (proc_up ps') a b <-> below (proc_up ps) a b) as Hb by (intros a b; unfold below; by rewrite Hu).
  unfold nested, forest. intros [H1 H2]. rewrite El. split; [intros a b H; by apply H1, Hb|].
  intros a Ht. apply (H2 a). exact (tc_congruence id (below (proc_up ps)) a a (fun x y H => proj1 (Hb x y) H) Ht).
Qed.

Section rules.
Context (b : bool).
(** From [s], [m] keeps the invariant, takes nothing away and ends with [Q]; the names in the
    IR stay distinct when [b] is set. *)
Definition safe {A} (s : sema) (m : M A) (Q : A -> sema -> Prop) : Prop :=
  shape s -> wp m s (fun r s' => shape s' /\ grows s s' /\ (b = true -> distinct s -> distinct s') /\ Q r s').

Lemma ends_ret {A} s (x : A) (Q : A -> sema -> Prop) : Q x s -> safe s (ret x) Q.
Proof. intros HQ Hs. apply wp_ret. split; [done|]. split; [apply extends_refl|done]. Qed.
Lemma ends_bind {A B} s (m : M A) (f : A -> M B) (Q : A -> sema -> Prop) (R : B -> sema -> Prop) :
  safe s m Q -> (forall r s', grows s s' -> Q r s' -> safe s' (f r) R) -> safe s (bind m f) R.
Proof.
  intros Hm Hf Hs. apply wp_bind. eapply wp_mono; [exact (Hm Hs)|].
  intros r s1 (S1 & G1 & D1 & Q1). cbn. eapply wp_mono; [exact (Hf r s1 G1 Q1 S1)|].
  intros r' s2 (S2 & G2 & D2 & Q2). split; [done|]. split; [exact (extends_trans _ _ _ G1 G2)|]. split; [auto|done].
Qed.
Lemma ends_mono {A} s (m : M A) (Q R : A -> sema -> Prop) : safe s m Q -> (forall r s', Q r s' -> R r s') -> safe s m R.
Proof. intros Hm H Hs. eapply wp_mono; [exact (Hm Hs)|]. naive_solver. Qed.
Lemma safe_here {A} s (m : M A) (Q : A -> sema -> Prop) : (shape s -> safe s m Q) -> safe s m Q.
Proof. intros H Hs. by apply H. Qed.
Lemma safe_diag s (f : Diags -> Diags) : safe s (say f) (fun _ _ => True).
Proof.
  intros [H1 H2 H3 H4 H5 H6 H7]. apply wp_modify. split; [by split|]. split; [by split|]. split; [|done]. intros _ [D1 D2]. by split.
Qed.
Lemma safe_report s l msg rule : safe s (report l msg rule) (fun _ _ => True).
Proof. exact (safe_diag s (error l msg rule [])). Qed.
Lemma safe_storage s (f : sema -> list nat) : safe s (modify (fun s => s <| storage_ := f s |>)) (fun _ _ => True).
Proof.
  intros [H1 H2 H3 H4 H5 H6 H7]. apply wp_modify. split; [by split|]. split; [by split|]. split; [|done]. intros _ [D1 D2]. by split.
Qed.
Lemma alter_same {A} (f : A -> A) (l : list A) i j y : alter f i l !! j = Some y ->
  exists z, l !! j = Some z /\ (y = z \/ y = f z).
Proof. rewrite list_lookup_alter. case_decide; [subst j|eauto]. destruct (l !! i) as [z|]; cbn; intros E; [injection E as <-; eauto|discriminate E]. Qed.
(** A symbol is given attributes, its name kept; its name in the IR too, when they are to stay distinct. *)
Lemma safe_symbol s i f :
  (forall y, sname (f y) = sname y) -> (b = true -> forall y, symIrName (more (f y)) = symIrName (more y)) ->
  safe s (on_symbol i f) (fun _ _ => True).
Proof.
  intros Hn Hi [H1 H2 H3 H4 H5 H6 H7]. apply wp_modify. split; [split; try done|split].
  - intros sc c x j Hc Hx. destruct (H5 sc c x j Hc Hx) as (y & Hy & Hyx). cbn. rewrite list_lookup_alter.
    case_decide; [|by exists y]. subst. rewrite Hy. cbn. eexists. split; [reflexivity|by rewrite Hn].
  - split; cbn; [done|by rewrite length_alter|done].
  - split; [|done]. intros Hb [D1 D2]. specialize (Hi Hb). split.
    + cbn. intros j y Hy. apply alter_same in Hy as (z & Hz & [-> | ->]); rewrite ?Hi; by apply (D1 j).
    + cbn. intros j k y z Hy Hz E. apply alter_same in Hy as (y' & Hy' & Ey). apply alter_same in Hz as (z' & Hz' & Ez).
      apply (D2 j k y' z' Hy' Hz'). destruct Ey as [-> | ->], Ez as [-> | ->]; by rewrite ?Hi in E.
Qed.
Lemma map_alter_parent f i ps : (forall p, Proc.parent (f p) = Proc.parent p) -> map Proc.parent (alter f i ps) = map Proc.parent ps.
Proof.
  intros Hf. apply list_eq. intros j. rewrite !list_lookup_fmap, list_lookup_alter. case_decide; [|done].
  subst. destruct (ps !! j); cbn; [by rewrite Hf|done].
Qed.
Lemma safe_proc s i f : (forall p, Proc.parent (f p) = Proc.parent p) -> safe s (on_proc i f) (fun _ _ => True).
Proof.
  intros Hf [H1 H2 H3 H4 H5 H6 H7]. apply wp_modify. pose proof (map_alter_parent f i (procs_ s) Hf) as E.
  split; [split; try done; [by eapply nested_map|]|].
  { intros q sc Hq. destruct (H7 q sc Hq) as (c & o & Hc & Ho & H). exists c, o. split; [done|]. split; [done|]. by rewrite (proc_up_map _ _ E). }
  split; [by split|]. split; [|done]. intros _ [D1 D2]. by split.
Qed.
Lemma safe_each {A} (f : A -> M unit) l s :
  (forall x s', x ∈ l -> grows s s' -> safe s' (f x) (fun _ _ => True)) -> safe s (for_each f l) (fun _ _ => True).
Proof.
  revert s. induction l as [|x l IH]; intros s H; [by apply ends_ret|]. cbn.
  eapply ends_bind; [apply H; [by left|apply extends_refl]|]. intros _ s' Hg _. apply IH.
  intros y s2 Hy Hg2. apply H; [by right|by eapply extends_trans].
Qed.
Lemma safe_map {A B} (f : A -> M B) l s :
  (forall x s', x ∈ l -> grows s s' -> safe s' (f x) (fun _ _ => True)) -> safe s (map_m f l) (fun _ _ => True).
Proof.
  revert s. induction l as [|x l IH]; intros s H; [by apply ends_ret|]. cbn.
  eapply ends_bind; [apply H; [by left|apply extends_refl]|]. intros y s' Hg _.
  eapply ends_bind; [apply IH; intros z s2 Hz Hg2; apply H; [by right|by eapply extends_trans]|].
  intros r s3 _ _. by apply ends_ret.
Qed.

(** *** New scopes *)
Lemma safe_new_scope s parent : (parent < length (scopes_ s))%nat ->
  safe s (new_scope parent) (fun r s' => scopes_ s' !! r = Some (mkScope (Some parent) ∅ [] ∅) /\ procScopes_ s' = procScopes_ s).
Proof.
  intros Hp [H1 H2 H3 H4 H5 H6 H7]. unfold wp, new_scope.
  assert (forall i c, (scopes_ s ++ [mkScope (Some parent) ∅ [] ∅]) !! i = Some c ->
    scopes_ s !! i = Some c \/ i = length (scopes_ s) /\ c = mkScope (Some parent) ∅ [] ∅) as Hl.
  { intros i c Hi. apply lookup_app_Some in Hi as [|[Hle Hi]]; [auto|]. right.
    apply list_lookup_singleton_Some in Hi as [? <-]. split; [lia|done]. }
  split; [split; cbn|].
  - done.
  - destruct H2 as (r & Hr & Hn). exists r. split; [by apply lookup_app_l_Some|done].
  - intros i c p Hi Hc. apply Hl in Hi as [Hi|[-> ->]]; [by eapply H3|]. by injection Hc as <-.
  - intros p sc Hsc. rewrite length_app. cbn. specialize (H4 p sc Hsc). lia.
  - intros i c x j Hi Hx. apply Hl in Hi as [Hi|[-> ->]]; [by eapply H5|done].
  - intros i i' c c' x x' j Hi Hi' Hx Hx'. apply Hl in Hi as [Hi|[-> ->]]; [|done]. apply Hl in Hi' as [Hi'|[-> ->]]; [|done].
    by eapply H6.
  - intros p sc Hsc. destruct (H7 p sc Hsc) as (c & o & Hc & Ho & H). exists c, o. split; [by apply lookup_app_l_Some|done].
  - split; [split; cbn; rewrite ?length_app; cbn; [lia|lia|done]|]. split; [intros _ [D1 D2]; by split|]. cbn.
    rewrite lookup_app_r, Nat.sub_diag by done. done.
Qed.
Lemma safe_remember s p raw o : procScopes_ s !! p = None -> scopes_ s !! raw = Some (mkScope (Some o) ∅ [] ∅) ->
  match proc_up (procs_ s) p with Some q => procScopes_ s !! q = Some o | None => o = 0%nat end ->
  safe s (modify (fun s => s <| procScopes_ := <[p := raw]> (procScopes_ s) |>)) (fun _ s' => procScopes_ s' !! p = Some raw).
Proof.
  intros Hp Hr Ho [H1 H2 H3 H4 H5 H6 H7]. apply wp_modify. split; [split; try done|].
  - cbn. intros q sc Hq. destruct (decide (q = p)) as [-> |]; [rewrite lookup_insert_eq in Hq; injection Hq as <-; by apply lookup_lt_Some in Hr|].
    rewrite lookup_insert_ne in Hq by done. by eapply H4.
  - cbn. intros q sc Hq. assert (forall a l, procScopes_ s !! a = Some l -> <[p:=raw]> (procScopes_ s) !! a = Some l) as Hk.
    { intros a l Ha. rewrite lookup_insert_ne; [done|congruence]. }
    destruct (decide (q = p)) as [-> |].
    + rewrite lookup_insert_eq in Hq. injection Hq as <-. eexists _, o. split; [exact Hr|]. split; [done|].
      destruct (proc_up (procs_ s) p); auto.
    + rewrite lookup_insert_ne in Hq by done. destruct (H7 q sc Hq) as (c & o' & Hc & Ho' & H). exists c, o'.
      split; [done|]. split; [done|]. destruct (proc_up (procs_ s) q); auto.
  - split; [by split|]. split; [intros _ [D1 D2]; by split|]. cbn. by rewrite lookup_insert_eq.
Qed.
Lemma safe_root s : shape s -> (0 < length (scopes_ s))%nat.
Proof. intros Hs. destruct (sh_root s Hs) as (r & Hr & _). by apply lookup_lt_Some in Hr. Qed.
(** The scope of a procedure, found or opened inside that of the procedure it is in; scopes of others are kept. *)
Lemma safe_scope_for ps n p s : nested ps -> map Proc.parent (procs_ s) = map Proc.parent ps -> (rank (proc_up ps) (length ps) p < n)%nat ->
  safe s (scope_for n p) (fun r s' => procScopes_ s' !! p = Some r /\
    forall a, (rank (proc_up ps) (length ps) p < rank (proc_up ps) (length ps) a)%nat -> procScopes_ s' !! a = procScopes_ s !! a).
Proof.
  intros Hn. revert p s. induction n as [|n IH]; intros p s Hps Hr; [lia|]. cbn [scope_for].
  intros Hs. unfold wp. cbn. destruct (procScopes_ s !! p) as [sc|] eqn:Esc; [split; [done|]; split; [apply extends_refl|done]|].
  revert Hs. match goal with |- shape s -> match ?m s with _ => _ end => change (safe s m (fun r s' => procScopes_ s' !! p = Some r /\
    forall a, (rank (proc_up ps) (length ps) p < rank (proc_up ps) (length ps) a)%nat -> procScopes_ s' !! a = procScopes_ s !! a)) end.
  assert (Proc.parent (the_proc s p) = proc_up ps p) as ->.
  { rewrite <- (proc_up_map _ _ Hps). unfold the_proc, proc_up. by destruct (procs_ s !! p). }
  eapply ends_bind with (Q := fun o s' => (o < length (scopes_ s'))%nat /\
    match proc_up ps p with Some q => procScopes_ s' !! q = Some o | None => o = 0%nat end /\
    forall a, (rank (proc_up ps) (length ps) p <= rank (proc_up ps) (length ps) a)%nat -> procScopes_ s' !! a = procScopes_ s !! a).
  - destruct (proc_up ps p) as [q|] eqn:Eq.
    + pose proof (rank_up _ _ _ _ Hn Eq) as Hrk. intros Hs. eapply wp_mono; [apply (IH q s Hps ltac:(lia) Hs)|].
      intros o s' (S1 & G1 & D1 & Q1 & K1). split; [done|]. split; [done|]. split; [done|]. split; [by eapply sh_scope|]. split; [done|].
      intros a Ha. apply K1. lia.
    + apply safe_here. intros Hs. apply ends_ret. split; [by apply safe_root|done].
  - intros o s1 G1 (Ho & Hl & Hk). eapply ends_bind; [by apply safe_new_scope|]. intros raw s2 G2 (Hraw & Eps). cbn in Hraw.
    eapply ends_bind with (Q := fun _ s' => procScopes_ s' !! p = Some raw /\ forall a, a <> p -> procScopes_ s' !! a = procScopes_ s1 !! a).
    + intros Hs2. eapply wp_mono; [|exact (fun _ _ H => H)]. rewrite <- (proc_up_map ps (procs_ s2)) in Hl.
      2:{ rewrite (gr_procs _ _ G2), (gr_procs _ _ G1). done. }
      assert (procScopes_ s2 !! p = None) as Hnone by (rewrite Eps, Hk; done). rewrite <- Eps in Hl.
      destruct (safe_remember s2 p raw o Hnone Hraw Hl Hs2) as (S3 & G3 & D3 & Q3). split; [exact S3|]. split; [exact G3|]. split; [exact D3|].
      split; [exact Q3|]. intros a Ha. cbn. by rewrite lookup_insert_ne, Eps.
    + intros u s3 _ (Q3 & K3). apply ends_ret. split; [done|]. intros a Ha. rewrite K3; [apply Hk; lia|]. intros ->. lia.
Qed.
Lemma safe_scopeFor s p : safe s (scopeFor p) (fun r s' => (r < length (scopes_ s'))%nat).
Proof.
  intros Hs. eapply wp_mono.
  - apply (safe_scope_for (procs_ s) (S (length (procs_ s))) p s (sh_nested s Hs) eq_refl); [apply rank_bound|done].
  - intros r s' (S1 & G1 & D1 & Q1 & _). split; [done|]. split; [done|]. split; [done|]. by eapply sh_scope.
Qed.
End rules.

(** ** Declaring *)
(** The state after a name was entered under [ir]. *)
Definition entered_symbol (x : text) (t : Ty) (l : SourceLoc) (k : SymKind) (static : bool) (ir : text) : Symbol :=
  (plainSym k static None None) <| sname := x |> <| sty := t |> <| more := mkMore l false None [] false false ir |>.
Definition entered (s : sema) (sc : nat) (x : text) (y : Symbol) (ir : text) : sema :=
  let raw := length (owned_ s) in
  s <| irNames_ := {[ir]} ∪ irNames_ s |> <| owned_ := owned_ s ++ [y] |>
    <| scopes_ := alter (fun c => c <| tab := <[x := raw]> (tab c) |> <| order := order c ++ [raw] |>) sc (scopes_ s) |>
    <| storage_ := if bool_decide (skind y = ProcName) then storage_ s else storage_ s ++ [raw] |>.
Definition diagnosed (s : sema) (f : Diags -> Diags) : sema := s <| d_ := f (d_ s) |>.
Definition declared_twice (x : text) (l : SourceLoc) (y : Symbol) (d : Diags) : Diags :=
  note (sloc (more y)) (txt "previous declaration was here")
    (error l (txt "'" ++ x ++ txt "' is already declared in this block") (txt "(9)") [] d).
Lemma declare_run s sc x t l k static :
  match tab (the_scope s sc) !! x with
  | Some i => declare sc x t l k static s = Some (i, diagnosed s (declared_twice x l (the_symbol s i)))
  | None => exists ir, ir ∉ irNames_ s /\
      declare sc x t l k static s = Some (length (owned_ s), entered s sc x (entered_symbol x t l k static ir) ir)
  end.
Proof.
  unfold declare. destruct (tab (the_scope s sc) !! x) as [i|] eqn:E.
  - reflexivity.
  - destruct (free_name_ends (irNames_ s) (ir_base k static x)) as (ir & -> & Hir). exists ir. split; [done|].
    unfold entered. change (skind (entered_symbol x t l k static ir)) with k. destruct (bool_decide (k = ProcName)); reflexivity.
Qed.

Section declaring.
Variables (s : sema) (sc : nat) (x : text) (y : Symbol) (ir : text).
Hypothesis Hs : shape s.
Hypothesis Hsc : (sc < length (scopes_ s))%nat.
Hypothesis Hy : sname y = x.

Lemma entered_scope i c : scopes_ (entered s sc x y ir) !! i = Some c ->
  exists c0, scopes_ s !! i = Some c0 /\ sparent c = sparent c0 /\
    ((i <> sc /\ c = c0) \/ (i = sc /\ tab c = <[x := length (owned_ s)]> (tab c0))).
Proof using Type.
  cbn. rewrite list_lookup_alter. case_decide as E; [subst i|intros H; exists c; auto].
  destruct (scopes_ s !! sc) as [c0|]; cbn; intros H; [injection H as <-|discriminate H]. exists c0. cbn. auto.
Qed.
Lemma tab_bound i c z j : scopes_ s !! i = Some c -> tab c !! z = Some j -> (j < length (owned_ s))%nat.
Proof using Hs. intros Hc Hj. destruct (sh_tab s Hs i c z j Hc Hj) as (u & Hu & _). by apply lookup_lt_Some in Hu. Qed.
Lemma entered_shape : shape (entered s sc x y ir).
Proof using Hs Hsc Hy.
  pose proof Hs as [H1 H2 H3 H4 H5 H6 H7]. split.
  - exact H1.
  - destruct H2 as (r & Hr & Hn). unfold entered. cbn. rewrite list_lookup_alter. case_decide as E; [|by exists r].
    subst. rewrite Hr. eexists. split; [reflexivity|done].
  - intros i c p Hc Hp. apply entered_scope in Hc as (c0 & Hc0 & E & _). apply (H3 i c0); [done|congruence].
  - intros p q Hq. cbn. rewrite length_alter. by eapply H4.
  - intros i c z j Hc Hj. apply entered_scope in Hc as (c0 & Hc0 & _ & [[_ ->]|[-> E]]).
    + destruct (H5 i c0 z j Hc0 Hj) as (u & Hu & Hz). exists u. split; [by apply lookup_app_l_Some|done].
    + rewrite E in Hj. apply lookup_insert_Some in Hj as [[<- <-]|[Hne Hj]].
      * exists y. split; [|done]. cbn. rewrite lookup_app_r by done. by rewrite Nat.sub_diag.
      * destruct (H5 sc c0 z j Hc0 Hj) as (u & Hu & Hz). exists u. split; [by apply lookup_app_l_Some|done].
  - intros i i' c c' z z' j Hc Hc' Hj Hj'.
    apply entered_scope in Hc as (c0 & Hc0 & _ & C). apply entered_scope in Hc' as (c0' & Hc0' & _ & C').
    destruct C as [[Hi ->]|[-> E]], C' as [[Hi' ->]|[-> E']]; [by eapply H6|..|done].
    + rewrite E' in Hj'. apply lookup_insert_Some in Hj' as [[_ <-]|[_ Hj']]; [|by eapply H6].
      pose proof (tab_bound _ _ _ _ Hc0 Hj). lia.
    + rewrite E in Hj. apply lookup_insert_Some in Hj as [[_ <-]|[_ Hj]]; [|by eapply H6].
      pose proof (tab_bound _ _ _ _ Hc0' Hj'). lia.
  - intros p q Hq. destruct (H7 p q Hq) as (c & o & Hc & Ho & H). unfold entered. cbn. rewrite list_lookup_alter.
    case_decide as E; [|by exists c, o]. subst. rewrite Hc. eexists _, o. split; [reflexivity|done].
Qed.
Hypothesis Hyi : symIrName (more y) = ir.
Hypothesis Hir : ir ∉ irNames_ s.
Lemma entered_distinct : distinct s -> distinct (entered s sc x y ir).
Proof using Hsc Hyi Hir.
  assert (forall i u, owned_ (entered s sc x y ir) !! i = Some u -> owned_ s !! i = Some u \/ i = length (owned_ s) /\ u = y) as Ho.
  { intros i u Hu. cbn in Hu. apply lookup_app_Some in Hu as [|[Hle Hu]]; [auto|].
    apply list_lookup_singleton_Some in Hu as [? <-]. right. split; [lia|done]. }
  intros [D1 D2]. split.
  - intros i u Hu. cbn [irNames_ entered]. apply elem_of_union. apply Ho in Hu as [Hu|[_ ->]]; [right; by eapply D1|left; by apply elem_of_singleton].
  - intros i j u v Hu Hv E. apply Ho in Hu as [Hu|[-> ->]], Hv as [Hv|[-> ->]]; [by eapply D2|..|done].
    + destruct Hir. rewrite <- Hyi, <- E. by eapply D1.
    + destruct Hir. rewrite <- Hyi, E. by eapply D1.
Qed.
End declaring.
Lemma entered_grows s sc x y ir : grows s (entered s sc x y ir).
Proof. split; cbn; [by rewrite length_alter|rewrite length_app; cbn; lia|done]. Qed.

Lemma safe_declare b s sc x t l k static : (sc < length (scopes_ s))%nat ->
  safe b s (declare sc x t l k static) (fun i s' => (i < length (owned_ s'))%nat).
Proof.
  intros Hsc Hs. unfold wp. pose proof (declare_run s sc x t l k static) as H.
  destruct (tab (the_scope s sc) !! x) as [i|] eqn:E.
  - rewrite H. destruct (safe_diag b s (declared_twice x l (the_symbol s i)) Hs) as (H1 & H2 & H3 & _). split; [exact H1|]. split; [exact H2|]. split; [exact H3|].
    cbn. unfold the_scope in E. destruct (scopes_ s !! sc) as [c|] eqn:Ec; [|cbn in E; by rewrite lookup_empty in E]. by eapply tab_bound.
  - destruct H as (ir & Hir & ->). split; [by apply entered_shape|]. split; [apply entered_grows|]. split; [intros _; by apply entered_distinct|].
    cbn. rewrite length_app. cbn. lia.
Qed.

(** ** The operations keep the invariant *)
Section operations.
Context (b : bool).
Notation ok := (fun _ _ => True).
Ltac next := eapply ends_bind; [|intros ? ? ?Hg ?Hq; cbn beta in * ].
Ltac valid := repeat match goal with H : grows _ _ |- _ => apply gr_scopes in H end; lia.
Lemma ends_get {A} s (f : sema -> A) (Q : A -> sema -> Prop) : Q (f s) s -> safe b s (get f) Q.
Proof. intros H Hs. apply wp_get. split; [done|]. split; [apply extends_refl|done]. Qed.

Lemma safe_defineAlias s sc x t l : safe b s (defineAlias sc x t l) ok.
Proof.
  intros Hs. unfold wp, defineAlias. case_bool_decide; [exact (safe_report b s _ _ _ Hs)|].
  destruct Hs as [H1 H2 H3 H4 H5 H6 H7]. cbn. set (f := fun c : Scope => _).
  assert (forall i c, alter f sc (scopes_ s) !! i = Some c -> exists c0, scopes_ s !! i = Some c0 /\ sparent c = sparent c0 /\ tab c = tab c0) as Hl.
  { intros i c Hc. apply alter_same in Hc as (z & Hz & [-> | ->]); by exists z. }
  split; [split; cbn|split; [split; cbn; rewrite ?length_alter; done|split; [intros _ [D1 D2]; by split|done]]].
  - done.
  - destruct H2 as (r & Hr & Hn). rewrite list_lookup_alter. case_decide as E; [|by exists r]. subst. rewrite Hr. by eexists.
  - intros i c p Hc Hp. apply Hl in Hc as (c0 & Hc0 & E & _). apply (H3 i c0); [done|congruence].
  - intros p q Hq. rewrite length_alter. by eapply H4.
  - intros i c z j Hc Hj. apply Hl in Hc as (c0 & Hc0 & _ & E). rewrite E in Hj. by eapply H5.
  - intros i i' c c' z z' j Hc Hc' Hj Hj'. apply Hl in Hc as (c0 & Hc0 & _ & E), Hc' as (c1 & Hc1 & _ & E').
    rewrite E in Hj. rewrite E' in Hj'. by eapply H6.
  - intros p q Hq. destruct (H7 p q Hq) as (c & o & Hc & Ho & Hl7). rewrite list_lookup_alter.
    case_decide as E; [|by exists c, o]. subst. rewrite Hc. eexists _, o. split; [reflexivity|done].
Qed.
Lemma safe_implicitDeclare s sc x l static : (sc < length (scopes_ s))%nat -> safe b s (implicitDeclare sc x l static) ok.
Proof.
  intros Hsc. unfold implicitDeclare. next; [by apply safe_declare|]. next; [by apply safe_symbol|].
  next; [apply safe_diag|by apply ends_ret].
Qed.
Lemma safe_on_procs_of s f : (forall p s', grows s s' -> safe b s' (f p) ok) -> safe b s (on_procs_of f) ok.
Proof. intros H. apply (safe_each b f (seq 0 (length (procs_ s))) s). intros p s' _ Hg. by apply H. Qed.
Lemma safe_resolvePackageExports s : safe b s resolvePackageExports ok.
Proof.
  apply safe_on_procs_of. intros p s' _. destruct (Proc.isPackage (the_proc s' p)) eqn:Ep.
  - intros Hs. unfold wp. rewrite Ep. revert Hs. apply (safe_each b (export p)). intros x s2 _ _ Hs2. unfold wp, export.
    destruct (member s2 p x) as [m|]; [|exact (safe_report b s2 _ _ _ Hs2)].
    destruct (Proc.isMain (the_proc s2 m)); [exact (safe_report b s2 _ _ _ Hs2)|].
    refine (safe_proc b s2 m _ _ Hs2). done.
  - intros Hs. unfold wp. rewrite Ep. by apply (ends_ret b s' tt).
Qed.
Lemma safe_processPackage s p : safe b s (processPackage p) ok.
Proof.
  apply (safe_each b _ (Proc.body (the_proc s p)) s). intros [st|] s' _ _; [|by apply ends_ret].
  destruct (_ || _); [by apply ends_ret|apply safe_report].
Qed.
Lemma safe_outer s o : safe b s (match o with Some q => scopeFor q | None => ret 0%nat end) (fun r s' => (r < length (scopes_ s'))%nat).
Proof.
  destruct o as [q|]; [apply safe_scopeFor|]. apply safe_here. intros Hs. apply ends_ret. by apply safe_root.
Qed.
Lemma safe_declareProc s p : safe b s (declareProc p) ok.
Proof.
  intros Hs. unfold wp, declareProc. destruct (Proc.isPackage (the_proc s p)); [by apply (ends_ret b s tt)|].
  revert Hs. set (pr := the_proc s p). set (ext := _ || _). set (symTy := if Proc.isFunction pr then _ else _).
  match goal with |- shape s -> match ?m s with _ => _ end => change (safe b s m ok) end.
  next; [by apply safe_proc|]. eapply ends_bind with (Q := ok); [by apply ends_get|intros ir s0 _ _]. next; [by apply safe_proc|].
  eapply ends_bind; [apply safe_outer|]. intros outer s1 Hg1 Ho. cbn beta in Ho.
  next; [by apply safe_declare|]. next; [by apply safe_symbol|]. next.
  - apply safe_each. intros en t2 _ G2. next; [apply safe_declare; valid|]. by apply safe_symbol.
  - apply safe_each. intros [st|] t2 _ G2; [|by apply ends_ret]. destruct (bool_decide (Stmt.kind st = Stmt.Entry)); [|by apply ends_ret].
    next; [apply safe_declare; valid|]. by apply safe_symbol.
Qed.
Lemma safe_pass1 s : safe b s pass1 ok.
Proof. apply safe_on_procs_of. intros p s' _. apply safe_declareProc. Qed.
Lemma safe_main s o : safe b s (modify (fun s => s <| mainProc_ := o |>)) ok.
Proof. intros [H1 H2 H3 H4 H5 H6 H7]. apply wp_modify. split; [by split|]. split; [by split|]. split; [|done]. intros _ [D1 D2]. by split. Qed.
Lemma safe_chooseMain s c : safe b s (chooseMain c) ok.
Proof.
  intros Hs. unfold wp, chooseMain. destruct (mainProc_ s); [by apply (ends_ret b s tt)|].
  destruct (find _ _) as [e|].
  - destruct c; [by apply (ends_ret b s tt)|]. revert Hs.
    match goal with |- shape s -> match ?m s with _ => _ end => change (safe b s m ok) end.
    next; [apply safe_diag|]. next; [apply safe_main|]. by apply safe_proc.
  - destruct (bool_decide (procs_ s = [])); [exact (safe_report b s _ _ _ Hs)|].
    destruct c; [by apply (ends_ret b s tt)|exact (safe_report b s _ _ _ Hs)].
Qed.

(** The base of a BASED variable. *)
Lemma safe_set_base s i o : safe b s (set_base i o) ok.
Proof. by apply safe_symbol. Qed.
Lemma safe_tryResolveBased s pb : safe b s (tryResolveBased pb) ok.
Proof.
  intros Hs. unfold wp, tryResolveBased. destruct (_ || _); [by apply (ends_ret b s true)|].
  destruct (lookup s (pb_sc pb) (pb_base pb)) as [o|].
  - destruct (is_locator (the_symbol s o)); [|by apply (ends_ret b s false)]. revert Hs.
    match goal with |- shape s -> match ?m s with _ => _ end => change (safe b s m ok) end.
    next; [apply safe_set_base|]. by apply ends_ret.
  - destruct (isProcParamName _ _); [|by apply (ends_ret b s false)]. revert Hs.
    match goal with |- shape s -> match ?m s with _ => _ end => change (safe b s m ok) end.
    next; [apply safe_scopeFor|]. next; [by apply safe_declare|]. next; [by apply safe_symbol|]. next; [apply safe_set_base|].
    by apply ends_ret.
Qed.
Lemma safe_resolvePendingBased s p : safe b s (resolvePendingBased p) ok.
Proof.
  apply (safe_each b (fun pb => if (pb_proc pb =? p)%nat then tryResolveBased pb;; ret tt else ret tt) (pendingBased_ s) s).
  intros pb s' _ _. destruct (_ =? _)%nat; [|by apply ends_ret]. next; [apply safe_tryResolveBased|by apply ends_ret].
Qed.
Lemma safe_no_base s pb : safe b s (no_base pb) ok.
Proof. unfold no_base. next; [apply safe_report|by apply ends_ret]. Qed.
Lemma safe_flush_one s pb : safe b s (flush_one pb) ok.
Proof.
  intros Hs. unfold wp, flush_one. destruct (bool_decide _); [by apply (ends_ret b s pb)|]. revert Hs.
  match goal with |- shape s -> match ?m s with _ => _ end => change (safe b s m ok) end.
  next; [apply safe_tryResolveBased|]. destruct r; [by apply ends_ret|]. intros Hs. unfold wp.
  destruct (lookup s' (pb_sc pb) (pb_base pb)) as [o|]; [|exact (safe_no_base s' pb Hs)].
  destruct (is_locator (the_symbol s' o)); [|exact (safe_no_base s' pb Hs)]. revert Hs.
  match goal with |- shape s' -> match ?m s' with _ => _ end => change (safe b s' m ok) end.
  next; [apply safe_set_base|by apply ends_ret].
Qed.
Lemma safe_pending s l : safe b s (modify (fun s => s <| pendingBased_ := l |>)) ok.
Proof. intros [H1 H2 H3 H4 H5 H6 H7]. apply wp_modify. split; [by split|]. split; [by split|]. split; [|done]. intros _ [D1 D2]. by split. Qed.
Lemma safe_flushPendingBased s : safe b s flushPendingBased ok.
Proof.
  unfold flushPendingBased. intros Hs. unfold wp. revert Hs.
  match goal with |- shape s -> match ?m s with _ => _ end => change (safe b s m ok) end.
  next; [apply (safe_map b flush_one); intros; apply safe_flush_one|apply safe_pending].
Qed.
Lemma safe_resolveStructReturn s p : safe b s (resolveStructReturn p) ok.
Proof.
  intros Hs. unfold wp, resolveStructReturn. destruct (bool_decide _); [by apply (ends_ret b s tt)|]. revert Hs.
  match goal with |- shape s -> match ?m s with _ => _ end => change (safe b s m ok) end.
  next; [apply safe_scopeFor|]. intros Hs. unfold wp.
  assert (forall l msg rule, safe b s' (report l msg rule;; on_proc p (fun q => q <| Proc.retTy := voidTy |>)) ok) as Hbad.
  { intros. next; [apply safe_report|by apply safe_proc]. }
  destruct (lookup s' r _) as [i|]; [|by apply Hbad]. destruct (_ && _); [|by apply Hbad]. revert Hs.
  match goal with |- shape s' -> match ?m s' with _ => _ end => change (safe b s' m ok) end.
  next; [destruct (hasDynamicMember _); [apply safe_report|by apply ends_ret]|]. by apply safe_proc.
Qed.
End operations.

(** Parameters are renamed in the IR without a look at the names in use. *)
Lemma safe_resolveParam s sc p x : (sc < length (scopes_ s))%nat -> safe false s (resolveParam sc p x) (fun _ _ => True).
Proof.
  intros Hsc Hs. unfold wp, resolveParam. revert Hs.
  match goal with |- shape s -> match ?m s with _ => _ end => change (safe false s m (fun _ _ => True)) end.
  eapply ends_bind with (Q := fun _ _ => True).
  - destruct (tab (the_scope s sc) !! x) as [i|].
    + eapply ends_bind; [by apply safe_symbol|]. intros _ s1 _ _. eapply ends_bind; [apply safe_storage|]. intros _ s2 _ _. by apply ends_ret.
    + eapply ends_bind; [by apply safe_declare|]. intros i s1 _ _. eapply ends_bind; [apply safe_storage|]. intros _ s2 _ _.
      eapply ends_bind; [apply safe_diag|]. intros _ s3 _ _. by apply ends_ret.
  - intros i s1 _ _. eapply ends_bind; [by apply safe_symbol|]. intros _ s2 _ _. by apply ends_ret.
Qed.
Lemma safe_resolveParams s sc p names out : (sc < length (scopes_ s))%nat -> safe false s (resolveParams sc p names out) (fun _ _ => True).
Proof.
  intros Hsc. unfold resolveParams. destruct (bool_decide _); [|by apply ends_ret].
  apply safe_map. intros x s' _ Hg. apply safe_resolveParam. apply gr_scopes in Hg. lia.
Qed.
Lemma safe_resolveProcParams s p : safe false s (resolveProcParams p) (fun _ _ => True).
Proof.
  unfold resolveProcParams. eapply ends_bind; [apply safe_scopeFor|]. intros sc s1 _ Hsc. cbn beta in Hsc.
  eapply ends_bind with (Q := fun _ _ => True); [by apply ends_get|]. intros pr s2 G2 _. apply gr_scopes in G2.
  eapply ends_bind; [apply safe_resolveParams; lia|]. intros l s3 G3 _. apply gr_scopes in G3.
  eapply ends_bind; [by apply safe_proc|]. intros _ s4 G4 _. apply gr_scopes in G4.
  eapply ends_bind; [|intros bd s5 _ _; by apply safe_proc].
  apply safe_map. intros [st|] s5 _ G5; [|by apply ends_ret]. cbn [resolveEntryParams].
  destruct (bool_decide _); [|by apply ends_ret]. apply gr_scopes in G5.
  eapply ends_bind; [apply safe_resolveParams; lia|]. intros l' s6 _ _. by apply ends_ret.
Qed.

(** ** Lexical lookup *)
(** The declaration of [x] that is visible in a scope: its own, or that of the nearest scope around it. *)
Inductive visible (s : sema) : nat -> text -> nat -> Prop :=
  | visible_here sc c x i : scopes_ s !! sc = Some c -> tab c !! x = Some i -> visible s sc x i
  | visible_outer sc c o x i : scopes_ s !! sc = Some c -> tab c !! x = None -> sparent c = Some o -> visible s o x i -> visible s sc x i.
(** [a] is [b] or lies inside it. *)
Definition inside (s : sema) : nat -> nat -> Prop := rtc (fun a b => exists c, scopes_ s !! a = Some c /\ sparent c = Some b).

Lemma lookup_visible s sc x i : shape s -> (lookup s sc x = Some i <-> visible s sc x i).
Proof.
  intros Hs. unfold lookup. assert (forall n sc, (sc < n)%nat -> lookup_from n (scopes_ s) sc x = Some i <-> visible s sc x i) as H.
  { clear sc. induction n as [|n IH]; intros sc Hn; [lia|]. cbn. destruct (scopes_ s !! sc) as [c|] eqn:Ec.
    - destruct (tab c !! x) as [j|] eqn:Et.
      + split; [intros [= ->]; by eapply visible_here|]. intros H. inversion H; congruence.
      + destruct (sparent c) as [o|] eqn:Eo.
        * pose proof (sh_parent s Hs sc c o Ec Eo). rewrite IH by lia. split; [intros H'; by eapply visible_outer|].
          intros H'. inversion H'; congruence.
        * split; [done|]. intros H. inversion H; congruence.
    - split; [done|]. intros H. inversion H; congruence. }
  destruct (decide (sc < length (scopes_ s))%nat) as [Hl|Hl]; [apply H; lia|].
  pose proof (lookup_ge_None_2 (scopes_ s) sc ltac:(lia)) as E. split.
  - cbn. rewrite E. done.
  - intros Hv. inversion Hv; congruence.
Qed.
Lemma visible_named s sc x i : shape s -> visible s sc x i -> exists y, owned_ s !! i = Some y /\ sname y = x.
Proof. intros Hs Hv. induction Hv; [by eapply sh_tab|done]. Qed.

(** What entering a name changes. *)
Lemma entered_visible s sc x y ir : (sc < length (scopes_ s))%nat -> visible (entered s sc x y ir) sc x (length (owned_ s)).
Proof.
  intros Hsc. apply lookup_lt_is_Some in Hsc as [c Hc]. eapply visible_here.
  - cbn. rewrite list_lookup_alter_eq, Hc. reflexivity.
  - cbn. by rewrite lookup_insert_eq.
Qed.
Lemma entered_others s sc x y ir z : forall sc' j, z <> x \/ ~ inside s sc' sc ->
  (visible (entered s sc x y ir) sc' z j <-> visible s sc' z j).
Proof.
  assert (forall i c0, scopes_ s !! i = Some c0 -> exists c, scopes_ (entered s sc x y ir) !! i = Some c /\ sparent c = sparent c0 /\
    (z <> x \/ i <> sc -> tab c !! z = tab c0 !! z)) as Hfwd.
  { intros i c0 Hc. unfold entered. cbn. rewrite list_lookup_alter. case_decide as E; [subst i|by exists c0].
    rewrite Hc. eexists. split; [reflexivity|]. split; [done|]. intros [Hz|]; [|done]. cbn. by rewrite lookup_insert_ne. }
  intros sc' j Hz. split; intros Hv.
  - revert Hz. induction Hv as [i c z' j Hc Hj|i c o z' j Hc Hn Ho Hv IH]; intros Hz; pose proof Hc as Hc'; apply entered_scope in Hc' as (c0 & Hc0 & E & _);
      destruct (Hfwd i c0 Hc0) as (c1 & Hc1 & _ & Ht); rewrite Hc in Hc1; injection Hc1 as <-.
    + apply visible_here with c0; [done|]. rewrite <- Ht; [done|]. destruct Hz as [|Hz]; [auto|right; intros ->; by destruct Hz; constructor].
    + apply visible_outer with c0 o; [done| |congruence|].
      * rewrite <- Ht; [done|]. destruct Hz as [|Hz]; [auto|right; intros ->; by destruct Hz; constructor].
      * apply IH; [done|]. destruct Hz as [|Hz]; [auto|right; intros Hi; apply Hz]. eapply rtc_l; [|exact Hi]. exists c0. split; congruence.
  - revert Hz. induction Hv as [i c0 z' j Hc Hj|i c0 o z' j Hc Hn Ho Hv IH]; intros Hz; destruct (Hfwd i c0 Hc) as (c & Hc1 & E & Ht).
    + apply visible_here with c; [done|]. rewrite Ht; [done|]. destruct Hz as [|Hz]; [auto|right; intros ->; by destruct Hz; constructor].
    + apply visible_outer with c o; [done| |congruence|].
      * rewrite Ht; [done|]. destruct Hz as [|Hz]; [auto|right; intros ->; by destruct Hz; constructor].
      * apply IH; [done|]. destruct Hz as [|Hz]; [auto|right; intros Hi; apply Hz]. eapply rtc_l; [|exact Hi]. exists c0. by split.
Qed.

(** ** The states of the analysis *)
(** The start of [run]: the root scope and nothing else. *)
Definition start (d : Diags) (ps : list Proc.t) (main : option nat) : sema :=
  mkSema d ps [mkScope None ∅ [] ∅] ∅ [] ∅ [] [] main.
(** One operation; the flag is lost when it renames symbols in the IR. *)
Inductive step : bool -> sema -> sema -> Prop :=
  | step_scope p r s s' : scopeFor p s = Some (r, s') -> step true s s'
  | step_block sc r s s' : (sc < length (scopes_ s))%nat -> new_scope sc s = Some (r, s') -> step true s s'
  | step_alias sc x t l s s' : defineAlias sc x t l s = Some (tt, s') -> step true s s'
  | step_declare sc x t l k static i s s' : (sc < length (scopes_ s))%nat -> declare sc x t l k static s = Some (i, s') -> step true s s'
  | step_implicit sc x l static i s s' : (sc < length (scopes_ s))%nat -> implicitDeclare sc x l static s = Some (i, s') -> step true s s'
  | step_exports s s' : resolvePackageExports s = Some (tt, s') -> step true s s'
  | step_pass1 s s' : pass1 s = Some (tt, s') -> step true s s'
  | step_package p s s' : processPackage p s = Some (tt, s') -> step true s s'
  | step_main c s s' : chooseMain c s = Some (tt, s') -> step true s s'
  | step_postpone pb s : step true s (s <| pendingBased_ := pendingBased_ s ++ [pb] |>)
  | step_based p s s' : resolvePendingBased p s = Some (tt, s') -> step true s s'
  | step_flush s s' : flushPendingBased s = Some (tt, s') -> step true s s'
  | step_return p s s' : resolveStructReturn p s = Some (tt, s') -> step true s s'
  | step_attribute i f s s' : (forall y, sname (f y) = sname y /\ symIrName (more (f y)) = symIrName (more y)) ->
      on_symbol i f s = Some (tt, s') -> step true s s'
  | step_params p s s' : resolveProcParams p s = Some (tt, s') -> step false s s'.
Inductive reach (d : Diags) (ps : list Proc.t) (main : option nat) : bool -> sema -> Prop :=
  | reach_start : reach d ps main true (start d ps main)
  | reach_step b c s s' : reach d ps main b s -> step c s s' -> reach d ps main (b && c) s'.

Lemma safe_result {A} b s (m : M A) Q r s' : safe b s m Q -> shape s -> m s = Some (r, s') ->
  shape s' /\ (b = true -> distinct s -> distinct s').
Proof. intros Hm Hs E. specialize (Hm Hs). unfold wp in Hm. rewrite E in Hm. naive_solver. Qed.
Lemma step_inv c s s' : step c s s' -> shape s -> shape s' /\ (c = true -> distinct s -> distinct s').
Proof.
  intros H Hs. destruct H.
  all: try (eapply safe_result; [|exact Hs|eassumption];
    first [apply safe_scopeFor|by apply safe_new_scope|apply safe_defineAlias|by apply safe_declare|by apply safe_implicitDeclare
          |apply safe_resolvePackageExports|apply safe_pass1|apply safe_processPackage|apply safe_chooseMain|apply safe_resolvePendingBased
          |apply safe_flushPendingBased|apply safe_resolveStructReturn|apply safe_symbol; naive_solver|apply safe_resolveProcParams]).
  exact (safe_result true s _ _ tt _ (safe_pending true s (pendingBased_ s ++ [pb])) Hs eq_refl).
Qed.
Lemma start_shape d ps main : nested ps -> shape (start d ps main) /\ distinct (start d ps main).
Proof.
  intros Hn. split; split; try done.
  - by eexists.
  - intros i c p Hc Hp. apply list_lookup_singleton_Some in Hc as [_ <-]. done.
  - intros i c x j Hc Hj. apply list_lookup_singleton_Some in Hc as [_ <-]. done.
  - intros i i' c c' x x' j Hc _ Hj. apply list_lookup_singleton_Some in Hc as [_ <-]. done.
Qed.
Lemma reach_inv d ps main b s : nested ps -> reach d ps main b s -> shape s /\ (b = true -> distinct s).
Proof.
  intros Hn H. induction H as [|b c s s' _ [Hs Hd] Hst]; [destruct (start_shape d ps main Hn); auto|].
  destruct (step_inv _ _ _ Hst Hs) as [Hs' Hd']. split; [done|]. intros E. apply andb_true_iff in E as [-> ->]. auto.
Qed.

(** ** What the symbol tables promise *)
(** C16: in every state the declaration processing can reach, from any program whose
    procedures are nested in a forest: a lookup ends and finds the declaration of the nearest
    enclosing scope, a symbol of that name; the scope of a procedure lies directly in that of the
    procedure around it.  A declaration ends: one of a name that the scope has is diagnosed
    and answers with the symbol there is, any other enters a new symbol, which is
    the one visible in its scope and which changes no other name and no scope outside.  And
    as long as no parameter was resolved, no two symbols have one name in the IR. *)
Theorem names_resolve_lexically (d : Diags) (ps : list Proc.t) (main : option nat) (b : bool) (s : sema) :
  nested ps -> reach d ps main b s ->
  (forall sc x i, lookup s sc x = Some i <-> visible s sc x i) /\
  (forall sc x i, visible s sc x i -> exists y, owned_ s !! i = Some y /\ sname y = x) /\
  (forall p sc, procScopes_ s !! p = Some sc -> exists c o, scopes_ s !! sc = Some c /\ sparent c = Some o /\
     match proc_up (procs_ s) p with Some q => procScopes_ s !! q = Some o | None => o = 0%nat end) /\
  (forall sc x t l k static, (sc < length (scopes_ s))%nat -> exists i s', declare sc x t l k static s = Some (i, s') /\
     match tab (the_scope s sc) !! x with
     | Some j => i = j /\ s' = diagnosed s (declared_twice x l (the_symbol s j))
     | None => i = length (owned_ s) /\ visible s' sc x i /\
         forall z sc' j, z <> x \/ ~ inside s sc' sc -> (visible s' sc' z j <-> visible s sc' z j)
     end) /\
  (b = true -> forall i j y z, owned_ s !! i = Some y -> owned_ s !! j = Some z -> symIrName (more y) = symIrName (more z) -> i = j).
Proof.
  intros Hn Hr. destruct (reach_inv d ps main b s Hn Hr) as [Hs Hd].
  split; [intros sc x i; by apply lookup_visible|]. split; [intros sc x i; by apply visible_named|].
  split; [apply (sh_link s Hs)|]. split; [|intros Hb; apply (ds_one s (Hd Hb))].
  intros sc x t l k static Hsc. pose proof (declare_run s sc x t l k static) as H.
  destruct (tab (the_scope s sc) !! x) as [j|]; [by eexists _, _|]. destruct H as (ir & Hir & ->).
  eexists _, _. split; [reflexivity|]. split; [done|]. split; [by apply entered_visible|]. intros z sc' j Hz. by apply entered_others.
Qed.

(** ** Samples *)
(** A procedure inside [o], with these parameters. *)
Definition sample_proc (x : string) (o : option nat) (l : list text) : Proc.t :=
  Proc.mk (txt x) (mkLoc 1 1) false false false false Ty_default [] l false [] [] [] o [] [] [] [] [].
(** [OUTER: PROCEDURE; INNER: PROCEDURE; END; END;] *)
Definition two_procs : list Proc.t := [sample_proc "OUTER" None []; sample_proc "INNER" (Some 0%nat) []].
Lemma two_procs_nested : nested two_procs.
Proof.
  assert (forall a o, below (proc_up two_procs) a o -> a = 1%nat /\ o = 0%nat) as H.
  { intros [|[|[|a]]] o; cbn; try done. by intros [= <-]. }
  split; [intros a o Ha; apply H in Ha as [-> ->]; cbn; lia|]. intros a Ht.
  assert (exists o, below (proc_up two_procs) a o /\ rtc (below (proc_up two_procs)) o a) as (o & Ha & Hr).
  { inversion Ht as [? ? Hb|? o ? Hb Ht']; subst; [by exists a|exists o; split; [done|by apply tc_rtc]]. }
  apply H in Ha as [-> ->]. inversion Hr as [|? c ? Hb _]; subst. apply H in Hb as [? _]. done.
Qed.
Definition after_pass1 : sema := match pass1 (start (Diags_new []) two_procs None) with Some (_, s) => s | None => start (Diags_new []) two_procs None end.
Lemma names_resolve_lexically_witness :
  visible after_pass1 0 (txt "OUTER") 0 /\ exists sc, procScopes_ after_pass1 !! 0%nat = Some sc /\ visible after_pass1 sc (txt "INNER") 1 /\
    visible after_pass1 sc (txt "OUTER") 0.
Proof.
  assert (reach (Diags_new []) two_procs None (true && true) after_pass1) as Hr.
  { eapply reach_step; [apply reach_start|]. apply step_pass1. by vm_compute. }
  destruct (names_resolve_lexically _ _ _ _ _ two_procs_nested Hr) as (H & _).
  split; [apply H; by vm_compute|]. exists 1%nat. split; [by vm_compute|]. split; apply H; by vm_compute.
Defined.

(** Two procedures [Q] in [A] and in [B], each with a procedure [R] inside. *)
Definition two_R : list Proc.t :=
  [sample_proc "A" None []; sample_proc "Q" (Some 0%nat) []; sample_proc "R" (Some 1%nat) [];
   sample_proc "B" None []; sample_proc "Q" (Some 3%nat) []; sample_proc "R" (Some 4%nat) []].
(** [F] and [G], each with a declared parameter [X]. *)
Definition two_X : list Proc.t := [sample_proc "F" None [txt "X"]; sample_proc "G" None [txt "X"]].
Definition declare_X (p : nat) : M Datatypes.unit :=
  let* sc := scopeFor p in let* i := declare sc (txt "X") ptr (mkLoc 1 1) Var false in ret tt.
Definition outcome_of (m : M Datatypes.unit) (ps : list Proc.t) : option sema := option_map snd (m (start (Diags_new []) ps None)).
(** Where the names in the IR are not unique, as the comment on them promises.  The name
    of a procedure is made of its own and its parent's: two procedures of one name in
    homonymous parents get one name, and the code generator, which finds a function by
    its name, takes the one for the other.  And a declared parameter is renamed without a look at
    the names in use. *)
Theorem ir_names_clash :
  (exists s, outcome_of pass1 two_R = Some s /\ Proc.irName (the_proc s 2) = Proc.irName (the_proc s 5)) /\
  (exists s i j, outcome_of (declare_X 0;; declare_X 1;; resolveProcParams 0;; resolveProcParams 1) two_X = Some s /\
     Proc.paramSyms (the_proc s 0) = [i] /\ Proc.paramSyms (the_proc s 1) = [j] /\ i <> j /\
     symIrName (more (the_symbol s i)) = symIrName (more (the_symbol s j))).
Proof.
  split.
  - eexists. split; [vm_compute; reflexivity|]. by vm_compute.
  - eexists _, 0%nat, 1%nat. split; [vm_compute; reflexivity|]. repeat split; try by vm_compute.
Qed.
