(* ===== verification/StaticLinks.v ===== *)
(** * Static links ([src/sema.cpp], [src/irgen.cpp], rule 8)

    The variables of enclosing procedures that a procedure uses, noted while it is typed;
    pass 3, which makes of them the list of links each procedure takes as hidden
    parameters; and the choice of the links at a call. *)
From S2P Require Import Prelude Monad Types Diag Lexer Ast Stmts Hir HirLower ParserBase Scopes ScopesThms.

Definition isDescendantOf_n : nat -> list Proc.t -> nat -> nat -> bool := fix go n ps p anc :=
  match n with
  | O => false
  | S n => (p =? anc)%nat || match proc_up ps p with Some q => go n ps q anc | None => false end
  end.
Definition isDescendantOf (ps : list Proc.t) (p anc : nat) : bool := isDescendantOf_n (S (length ps)) ps p anc.
Definition addEnv (env : list nat) (s : nat) : list nat := if bool_decide (s ∈ env) then env else env ++ [s].
Definition is_package (ps : list Proc.t) (p : nat) : bool := match ps !! p with Some pr => Proc.isPackage pr | None => false end.

Section uses.
Variable tab : symtab.
(** A variable that lives in the frame of a strict ancestor of [p]. *)
Definition captured (ps : list Proc.t) (p s : nat) : bool :=
  let y := tab s in
  (bool_decide (skind y = Var) || bool_decide (skind y = Param)) &&
  match owner y with
  | Some o => negb (o =? p)%nat && isDescendantOf ps p o && negb (is_package ps o)
  | None => false
  end.
(** [None]: the chain of bases did not end within the fuel. *)
Fixpoint noteStaticUse (n : nat) (p s : nat) (ps : list Proc.t) : option (list Proc.t) :=
  match n with
  | O => None
  | S n =>
      let ps := if captured ps p s then alter (fun q => q <| Proc.directUses := addEnv (Proc.directUses q) s |>) p ps else ps in
      match (match basedBase (tab s) with Some b => noteStaticUse n p b ps | None => Some ps end) with
      | Some ps => match definedBase (tab s) with Some b => noteStaticUse n p b ps | None => Some ps end
      | None => None
      end
  end.

(** The links of a procedure out of what it uses and the links of its internal procedures. *)
Definition merge_env (ps : list Proc.t) (p : nat) : list nat :=
  let env := fold_left addEnv (match ps !! p with Some pr => Proc.directUses pr | None => [] end) [] in
  fold_left (fun env q =>
    match ps !! q with
    | Some qr =>
        if bool_decide (Proc.parent qr = Some p)
        then fold_left (fun env s => if bool_decide (owner (tab s) = Some p) then env else addEnv env s) (Proc.env qr) env
        else env
    | None => env
    end) (seq 0 (length ps)) env.
Fixpoint computeEnv (n : nat) (p : nat) (ps : list Proc.t) : list Proc.t :=
  match n with
  | O => ps
  | S n =>
      let ps := fold_left (fun ps q => if bool_decide (proc_up ps q = Some p) then computeEnv n q ps else ps) (seq 0 (length ps)) ps in
      alter (fun q => q <| Proc.env := merge_env ps p |>) p ps
  end.
(** Pass 3 of [run]. *)
Definition staticLinks (ps : list Proc.t) : list Proc.t :=
  fold_left (fun ps p => match ps !! p with
                         | Some pr => if bool_decide (Proc.parent pr = None) then computeEnv (S (length ps)) p ps else ps
                         | None => ps
                         end) (seq 0 (length ps)) ps.

(** [appendStaticLinks]: what a call from [caller] passes for each link of the callee: the
    variable, or the diagnostic that it cannot be reached.  [None]: the call stands in an ON
    unit and the callee has links, which is diagnosed. *)
Inductive link := Passed (s : nat) | OutOfReach (s : nat).
Definition env_of (ps : list Proc.t) (p : nat) : list nat := match ps !! p with Some pr => Proc.env pr | None => [] end.
Definition appendStaticLinks (ps : list Proc.t) (inHandler : bool) (caller callee : nat) : option (list link) :=
  if inHandler && negb (bool_decide (env_of ps callee = [])) then None
  else Some (map (fun v => if bool_decide (owner (tab v) = Some caller) || bool_decide (v ∈ env_of ps caller) then Passed v else OutOfReach v)
               (env_of ps callee)).
End uses.

(** ** Descent and lists of variables *)
Lemma isDescendantOf_spec ps p anc : nested ps -> isDescendantOf ps p anc = true <-> rtc (below (proc_up ps)) p anc.
Proof.
  intros Hn. unfold isDescendantOf.
  assert (forall n p, (rank (proc_up ps) (length ps) p < n)%nat -> isDescendantOf_n n ps p anc = true <-> rtc (below (proc_up ps)) p anc) as H.
  { induction n as [|n IH]; intros q Hq; [lia|]. cbn. rewrite orb_true_iff, Nat.eqb_eq. split.
    - intros [-> |H]; [constructor|]. destruct (proc_up ps q) as [o|] eqn:Eo; [|done].
      pose proof (rank_up _ _ _ _ Hn Eo). apply IH in H; [|lia]. by eapply rtc_l.
    - intros H. inversion H as [|? o ? Ho Hr]; subst; [by left|right]. rewrite Ho. pose proof (rank_up _ _ _ _ Hn Ho). apply IH; [lia|done]. }
  apply H, rank_bound.
Qed.
Lemma elem_of_addEnv env s t : t ∈ addEnv env s <-> t ∈ env \/ t = s.
Proof. unfold addEnv. case_bool_decide; [naive_solver|]. by rewrite elem_of_app, list_elem_of_singleton. Qed.
Lemma NoDup_addEnv env s : NoDup env -> NoDup (addEnv env s).
Proof.
  intros H. unfold addEnv. case_bool_decide as Hs; [done|]. apply NoDup_app. split; [done|]. split; [|apply NoDup_singleton].
  intros t Ht Hts. apply list_elem_of_singleton in Hts as ->. done.
Qed.
(** A list grown element by element. *)
Definition grown (f : list nat -> list nat) (C : nat -> Prop) : Prop :=
  forall env, (forall t, t ∈ f env <-> t ∈ env \/ C t) /\ (NoDup env -> NoDup (f env)).
Lemma grown_fold {A} (f : list nat -> A -> list nat) (C : A -> nat -> Prop) l :
  (forall x, x ∈ l -> grown (fun env => f env x) (C x)) -> grown (fun env => fold_left f l env) (fun t => exists x, x ∈ l /\ C x t).
Proof.
  induction l as [|x l IH]; intros H env; cbn.
  - split; [|done]. intros t. split; [auto|]. intros [|(x & Hx & _)]; [done|by apply elem_of_nil in Hx].
  - destruct (IH (fun y Hy => H y ltac:(by right)) (f env x)) as [I1 I2], (H x ltac:(by left) env) as [H1 H2].
    split; [|auto]. intros t. rewrite I1, H1. setoid_rewrite elem_of_cons. naive_solver.
Qed.
Lemma grown_addEnv s : grown (fun env => addEnv env s) (eq s).
Proof. intros env. split; [|apply NoDup_addEnv]. intros t. rewrite elem_of_addEnv. naive_solver. Qed.
Lemma grown_if (b : bool) f C : grown f C -> grown (fun env => if b then f env else env) (fun t => b = true /\ C t).
Proof. intros H env. destruct (H env) as [H1 H2]. destruct b; split; try done; intros t; rewrite ?H1; naive_solver. Qed.
Lemma grown_ext f g C D : (forall env, g env = f env) -> (forall t, C t <-> D t) -> grown f C -> grown g D.
Proof. intros E HC H env. rewrite E. destruct (H env) as [H1 H2]. split; [|done]. intros t. rewrite H1, HC. done. Qed.

(** ** Pass 3 *)
Section pass3.
Variable tab : symtab.
Variable ps0 : list Proc.t.
Notation up := (proc_up ps0).
Definition uses_of (ps : list Proc.t) (p : nat) : list nat := match ps !! p with Some pr => Proc.directUses pr | None => [] end.
(** What pass 3 does not touch. *)
Definition skeleton (ps : list Proc.t) : list Proc.t := map (fun q => q <| Proc.env := [] |>) ps.
Definition same (ps : list Proc.t) : Prop := skeleton ps = skeleton ps0.
Lemma same_at ps p : same ps -> option_map (fun q => q <| Proc.env := [] |>) (ps !! p) = option_map (fun q => q <| Proc.env := [] |>) (ps0 !! p).
Proof. intros H. pose proof (f_equal (fun l => l !! p) H) as E. unfold skeleton in E. by rewrite !list_lookup_fmap in E. Qed.
Lemma same_length ps : same ps -> length ps = length ps0.
Proof. intros H. pose proof (f_equal length H) as E. unfold skeleton in E. by rewrite !length_map in E. Qed.
Lemma same_up ps p : same ps -> proc_up ps p = up p.
Proof. intros H. pose proof (same_at ps p H) as E. unfold proc_up. destruct (ps !! p) as [a|], (ps0 !! p) as [b|]; cbn in E; try done. injection E. congruence. Qed.
Lemma same_uses ps p : same ps -> uses_of ps p = uses_of ps0 p.
Proof. intros H. pose proof (same_at ps p H) as E. unfold uses_of. destruct (ps !! p) as [a|], (ps0 !! p) as [b|]; cbn in E; try done. injection E. congruence. Qed.
Lemma same_env ps p env : same ps -> same (alter (fun q => q <| Proc.env := env |>) p ps).
Proof.
  unfold same. intros <-. apply list_eq. intros j. unfold skeleton. rewrite !list_lookup_fmap, list_lookup_alter.
  case_decide as E; [subst|done]. by destruct (ps !! j).
Qed.

(** A variable that [p] needs a link for: it lives in a strict ancestor, and [p] or a procedure inside it uses it. *)
Definition linked (p s : nat) : Prop :=
  exists q o, rtc (below up) q p /\ s ∈ uses_of ps0 q /\ owner (tab s) = Some o /\ tc (below up) p o.
Definition settled (ps : list Proc.t) (p : nat) : Prop := NoDup (env_of ps p) /\ forall s, s ∈ env_of ps p <-> linked p s.
Hypothesis Hn : nested ps0.
(** Every use noted is of a variable of a strict ancestor. *)
Hypothesis Hu : forall p s, s ∈ uses_of ps0 p -> exists o, owner (tab s) = Some o /\ tc (below up) p o.

Lemma child_grown ps p c : same ps -> grown (fun env =>
    match ps !! c with
    | Some qr => if bool_decide (Proc.parent qr = Some p)
        then fold_left (fun env s => if bool_decide (owner (tab s) = Some p) then env else addEnv env s) (Proc.env qr) env else env
    | None => env
    end) (fun s => up c = Some p /\ s ∈ env_of ps c /\ owner (tab s) <> Some p).
Proof using Type.
  intros Hs. pose proof (same_up ps c Hs) as Eu. unfold proc_up in Eu at 1. unfold env_of. rewrite <- Eu.
  destruct (ps !! c) as [qr|]; [|intros env; split; [naive_solver|done]].
  assert (grown (fun env => fold_left (fun env s => if bool_decide (owner (tab s) = Some p) then env else addEnv env s) (Proc.env qr) env)
    (fun s => s ∈ Proc.env qr /\ owner (tab s) <> Some p)) as G.
  { eapply grown_ext; [reflexivity| |apply (grown_fold _ (fun t s => owner (tab t) <> Some p /\ t = s))].
    - intros s. naive_solver.
    - intros t _ env. destruct (grown_addEnv t env) as [H1 H2]. case_bool_decide; (split; [|done]); intros s; rewrite ?H1; naive_solver. }
  intros env. destruct (G env) as [H1 H2]. case_bool_decide; (split; [|done]); intros s; rewrite ?H1; naive_solver.
Qed.
Lemma merge_env_spec ps p : same ps ->
  NoDup (merge_env tab ps p) /\
  forall s, s ∈ merge_env tab ps p <-> s ∈ uses_of ps0 p \/ exists c, up c = Some p /\ s ∈ env_of ps c /\ owner (tab s) <> Some p.
Proof using Hn.
  intros Hs. unfold merge_env. fold (uses_of ps p).
  destruct (grown_fold addEnv eq (uses_of ps p) (fun x _ => grown_addEnv x) []) as [U1 U2].
  destruct (grown_fold _ _ (seq 0 (length ps)) (fun c _ => child_grown ps p c Hs) (fold_left addEnv (uses_of ps p) [])) as [C1 C2].
  split; [apply C2, U2; constructor|]. intros s. rewrite C1, U1, <- (same_uses ps p Hs). setoid_rewrite elem_of_nil.
  split; [naive_solver|]. intros [H|(c & Hc & H)]; [naive_solver|]. right. exists c. split; [|done].
  apply elem_of_seq. rewrite (same_length ps Hs). destruct (proj1 Hn c p Hc). lia.
Qed.

(** One step: when the internal procedures are settled, so is the merge. *)
Lemma linked_step p s : linked p s <-> s ∈ uses_of ps0 p \/ exists c, up c = Some p /\ linked c s /\ owner (tab s) <> Some p.
Proof using Hn Hu.
  split.
  - intros (q & o & Hq & Hs & Ho & Hp). apply rtc_inv_r in Hq as [-> |(c & Hqc & Hc)]; [by left|]. right. exists c.
    split; [exact Hc|]. split; [exists q, o; repeat split; [done..|by eapply tc_l]|].
    rewrite Ho. intros [= ->]. by apply (proj2 Hn p).
  - intros [Hs|(c & Hc & (q & o & Hq & Hs & Ho & Ht) & Hne)].
    + destruct (Hu p s Hs) as (o & Ho & Ht). by exists p, o.
    + exists q, o. split; [by eapply rtc_r|]. split; [done|]. split; [done|].
      inversion Ht as [? ? Hco|? x ? Hcx Hx]; subst; unfold below in *; [congruence|].
      assert (x = p) as -> by congruence. done.
Qed.
Lemma settled_merge ps p : same ps -> (forall c, up c = Some p -> settled ps c) ->
  settled (alter (fun q => q <| Proc.env := merge_env tab ps p |>) p ps) p \/ ps !! p = None.
Proof using Hn Hu.
  intros Hs Hc. destruct (ps !! p) as [pr|] eqn:Ep; [left|by right]. unfold settled, env_of. rewrite list_lookup_alter_eq, Ep. cbn.
  destruct (merge_env_spec ps p Hs) as [H1 H2]. split; [exact H1|]. intros s. etransitivity; [apply H2|]. rewrite linked_step.
  split; (intros [H|(c & Hcp & Hsc & Hne)]; [by left|right; exists c; split; [done|]; split; [by apply (Hc c Hcp)|done]]).
Qed.

(** The whole of a subtree. *)
Lemma settled_alter ps p env q : q <> p -> settled ps q -> settled (alter (fun q => q <| Proc.env := env |>) p ps) q.
Proof using Type. intros Hne [H1 H2]. unfold settled, env_of. by rewrite list_lookup_alter_ne. Qed.
Lemma computeEnv_settles n p ps : same ps -> (p < length ps0)%nat -> (length ps0 < n + rank up (length ps0) p)%nat ->
  same (computeEnv tab n p ps) /\ (forall q, settled ps q -> settled (computeEnv tab n p ps) q) /\
  forall q, rtc (below up) q p -> settled (computeEnv tab n p ps) q.
Proof using Hn Hu.
  revert p ps. induction n as [|n IH]; intros p ps Hs Hp Hr.
  - pose proof (chain_short up (length ps0) p). unfold rank in Hr. lia.
  - cbn [computeEnv]. set (go := fun ps q => if bool_decide (proc_up ps q = Some p) then computeEnv tab n q ps else ps).
    assert (forall l ps, same ps -> same (fold_left go l ps) /\ (forall q, settled ps q -> settled (fold_left go l ps) q) /\
      forall c q, c ∈ l -> up c = Some p -> rtc (below up) q c -> settled (fold_left go l ps) q) as Hl.
    { induction l as [|c l IHl]; intros ps' Hs'; cbn; [split; [done|split; [done|intros ? ? H; by apply elem_of_nil in H]]|].
      assert (same (go ps' c) /\ (forall q, settled ps' q -> settled (go ps' c) q) /\
        (up c = Some p -> forall q, rtc (below up) q c -> settled (go ps' c) q)) as (G1 & G2 & G3).
      { unfold go. rewrite (same_up ps' c Hs'). case_bool_decide as Ec; [|split; [done|split; [done|done]]].
        pose proof (rank_up up (length ps0) c p Hn Ec). destruct (proj1 Hn c p Ec) as [Hc _].
        destruct (IH c ps' Hs' Hc ltac:(lia)) as (I1 & I2 & I3). auto. }
      destruct (IHl (go ps' c) G1) as (L1 & L2 & L3). split; [done|]. split; [auto|].
      intros c' q [-> |Hc']%elem_of_cons Hup Hq; [apply L2; by apply G3|by eapply L3]. }
    destruct (Hl (seq 0 (length ps)) ps Hs) as (F1 & F2 & F3). set (ps1 := fold_left go (seq 0 (length ps)) ps) in *.
    assert (forall c q, up c = Some p -> rtc (below up) q c -> settled ps1 q) as Hsub.
    { intros c q Hc Hq. apply (F3 c); [|done..]. apply elem_of_seq. rewrite (same_length ps Hs). destruct (proj1 Hn c p Hc). lia. }
    assert (settled (alter (fun q => q <| Proc.env := merge_env tab ps1 p |>) p ps1) p) as Hhere.
    { destruct (settled_merge ps1 p F1) as [H|H]; [intros c Hc; by apply (Hsub c)|done|].
      apply lookup_ge_None in H. rewrite (same_length ps1 F1) in H. lia. }
    split; [by apply same_env|]. split.
    + intros q Hq. destruct (decide (q = p)) as [-> |]; [done|]. apply settled_alter; auto.
    + intros q Hq. destruct (decide (q = p)) as [-> |]; [done|]. apply settled_alter; [done|].
      apply rtc_inv_r in Hq as [?|(c & Hqc & Hc)]; [done|]. by apply (Hsub c).
Qed.
Lemma root_above q : (q < length ps0)%nat -> exists r, up r = None /\ (r < length ps0)%nat /\ rtc (below up) q r.
Proof using Hn.
  assert (forall n q, (rank up (length ps0) q < n)%nat -> (q < length ps0)%nat -> exists r, up r = None /\ (r < length ps0)%nat /\ rtc (below up) q r) as H.
  { induction n as [|n IH]; intros a Ha Hlt; [lia|]. destruct (up a) as [o|] eqn:Eo; [|by exists a].
    pose proof (rank_up _ _ _ _ Hn Eo). destruct (proj1 Hn a o Eo) as [_ Ho].
    destruct (IH o ltac:(lia) Ho) as (r & Hr & Hlr & Hor). exists r. split; [done|]. split; [done|]. by eapply rtc_l. }
  apply (H (S (length ps0)) q). apply rank_bound.
Qed.
Lemma staticLinks_settles : same (staticLinks tab ps0) /\ forall q, (q < length ps0)%nat -> settled (staticLinks tab ps0) q.
Proof using Hn Hu.
  unfold staticLinks. set (go := fun ps p => match ps !! p with Some pr => if bool_decide (Proc.parent pr = None) then computeEnv tab (S (length ps)) p ps else ps | None => ps end).
  assert (forall l ps, same ps -> same (fold_left go l ps) /\ (forall q, settled ps q -> settled (fold_left go l ps) q) /\
    forall r q, r ∈ l -> (r < length ps0)%nat -> up r = None -> rtc (below up) q r -> settled (fold_left go l ps) q) as Hl.
  { induction l as [|r l IHl]; intros ps Hs; cbn; [split; [done|split; [done|intros ? ? H; by apply elem_of_nil in H]]|].
    assert (same (go ps r) /\ (forall q, settled ps q -> settled (go ps r) q) /\
      ((r < length ps0)%nat -> up r = None -> forall q, rtc (below up) q r -> settled (go ps r) q)) as (G1 & G2 & G3).
    { pose proof (same_up ps r Hs) as Eu. unfold go. unfold proc_up in Eu at 1. destruct (ps !! r) as [pr|] eqn:Er.
      - rewrite Eu. case_bool_decide as Ec; [|split; [done|split; [done|done]]].
        pose proof (lookup_lt_Some _ _ _ Er) as Hr. rewrite (same_length ps Hs) in *.
        destruct (computeEnv_settles (S (length ps0)) r ps Hs Hr ltac:(lia)) as (I1 & I2 & I3). auto.
      - split; [done|]. split; [done|]. intros Hr. apply lookup_ge_None in Er. rewrite (same_length ps Hs) in Er. lia. }
    destruct (IHl (go ps r) G1) as (L1 & L2 & L3). split; [done|]. split; [auto|].
    intros r' q [-> |Hr']%elem_of_cons Hlt Hup Hq; [apply L2; by apply G3|by eapply L3]. }
  destruct (Hl (seq 0 (length ps0)) ps0 eq_refl) as (F1 & F2 & F3). split; [done|]. intros q Hq.
  destruct (root_above q Hq) as (r & Hr & Hlr & Hqr). apply (F3 r); [apply elem_of_seq; lia|done..].
Qed.
End pass3.

(** ** What is noted *)
Section noting.
Variable tab : symtab.
(** The storage a reference to [s] goes through: its BASED locator and its DEFINED base. *)
Definition base (s t : nat) : Prop := basedBase (tab s) = Some t \/ definedBase (tab s) = Some t.
Definition with_uses (p : nat) (l : list nat) (ps : list Proc.t) : list Proc.t := alter (fun q => q <| Proc.directUses := l |>) p ps.
Lemma with_uses_parent p l ps : map Proc.parent (with_uses p l ps) = map Proc.parent ps.
Proof. by apply map_alter_parent. Qed.
Lemma with_uses_package p l ps o : is_package (with_uses p l ps) o = is_package ps o.
Proof. unfold is_package, with_uses. rewrite list_lookup_alter. case_decide; [subst|done]. by destruct (ps !! o). Qed.
Lemma descendant_map ps ps' p a : map Proc.parent ps' = map Proc.parent ps -> isDescendantOf ps' p a = isDescendantOf ps p a.
Proof.
  intros E. unfold isDescendantOf. pose proof (f_equal length E) as El. rewrite !length_map in El. rewrite El.
  generalize (S (length ps)) as n. intros n. revert p. induction n as [|n IH]; intros p; cbn; [done|].
  rewrite (proc_up_map _ _ E). destruct (proc_up ps p); by rewrite ?IH.
Qed.
Lemma captured_with q l ps p s : captured tab (with_uses q l ps) p s = captured tab ps p s.
Proof.
  unfold captured. destruct (owner (tab s)) as [o|]; [|done].
  by rewrite with_uses_package, (descendant_map ps) by apply with_uses_parent.
Qed.
Lemma uses_with p l ps : uses_of (with_uses p l ps) p = if decide (p < length ps)%nat then l else [].
Proof.
  unfold uses_of, with_uses. rewrite list_lookup_alter_eq. case_decide as E.
  - apply lookup_lt_is_Some in E as [q ->]. done.
  - by rewrite lookup_ge_None_2 by lia.
Qed.
Lemma uses_with_ne p q l ps : q <> p -> uses_of (with_uses p l ps) q = uses_of ps q.
Proof. intros H. unfold uses_of, with_uses. by rewrite list_lookup_alter_ne. Qed.

(** [p] gets the captured variables among [C]. *)
Definition notes (ps ps' : list Proc.t) (p : nat) (C : nat -> Prop) : Prop :=
  exists l, ps' = with_uses p l ps /\ forall t, t ∈ uses_of ps' p <-> t ∈ uses_of ps p \/ ((p < length ps)%nat /\ C t /\ captured tab ps p t = true).
Lemma notes_none ps p (C : nat -> Prop) : (forall t, C t -> captured tab ps p t = false) -> notes ps ps p C.
Proof.
  intros H. exists (uses_of ps p). split.
  - apply list_eq. intros j. unfold with_uses, uses_of. rewrite list_lookup_alter. case_decide; [subst|done].
    destruct (ps !! j) as [q|]; [|done]. cbn. by destruct q.
  - intros t. split; [auto|]. intros [|(_ & Ht & Hc)]; [done|]. rewrite H in Hc; done.
Qed.
Lemma notes_trans a b c p (C D : nat -> Prop) : notes a b p C -> notes b c p D -> notes a c p (fun t => C t \/ D t).
Proof.
  intros (l & -> & H1) (l' & -> & H2). exists l'. split.
  - unfold with_uses. by rewrite list_alter_alter_eq.
  - intros t. rewrite H2, H1, captured_with. unfold with_uses. rewrite length_alter. naive_solver.
Qed.
Lemma notes_one ps p s : notes ps (if captured tab ps p s then with_uses p (addEnv (uses_of ps p) s) ps else ps) p (eq s).
Proof.
  destruct (captured tab ps p s) eqn:E; [|apply notes_none; by intros t <-].
  exists (addEnv (uses_of ps p) s). split; [done|]. intros t. rewrite uses_with. case_decide as Hp.
  - rewrite elem_of_addEnv. naive_solver.
  - unfold uses_of. rewrite lookup_ge_None_2 by lia. naive_solver.
Qed.
Lemma note_here ps p s : alter (fun q => q <| Proc.directUses := addEnv (Proc.directUses q) s |>) p ps = with_uses p (addEnv (uses_of ps p) s) ps.
Proof.
  apply list_eq. intros j. unfold with_uses, uses_of. rewrite !list_lookup_alter. case_decide; [subst|done]. by destruct (ps !! j).
Qed.
Lemma notes_weaken ps ps' p (C D : nat -> Prop) : (forall t, C t <-> D t) -> notes ps ps' p C -> notes ps ps' p D.
Proof. intros H (l & E & Hl). exists l. split; [done|]. intros t. rewrite Hl, H. done. Qed.

(** The chain of bases ends: everything along it is noted. *)
Lemma note_ends s : Acc (flip base) s -> exists n0, forall n, (n0 <= n)%nat -> forall p ps,
  exists ps', noteStaticUse tab n p s ps = Some ps' /\ notes ps ps' p (rtc base s).
Proof.
  intros Hacc. induction Hacc as [s _ IH].
  assert (forall o, (forall t, o = Some t -> base s t) -> exists n0, forall n, (n0 <= n)%nat -> forall p ps,
    exists ps', (match o with Some b => noteStaticUse tab n p b ps | None => Some ps end) = Some ps' /\
      notes ps ps' p (fun t => exists b, o = Some b /\ rtc base b t)) as Ho.
  { intros [b|] Hb.
    - destruct (IH b (Hb b eq_refl)) as (n0 & H). exists n0. intros n Hle p ps. destruct (H n Hle p ps) as (ps' & E & Hns).
      exists ps'. split; [done|]. eapply notes_weaken; [|exact Hns]. naive_solver.
    - exists 0%nat. intros n _ p ps. exists ps. split; [done|]. apply notes_none. naive_solver. }
  destruct (Ho (basedBase (tab s)) (fun t H => or_introl H)) as (n1 & H1), (Ho (definedBase (tab s)) (fun t H => or_intror H)) as (n2 & H2).
  exists (S (n1 + n2)). intros [|n] Hn p ps; [lia|]. cbn [noteStaticUse]. rewrite note_here.
  pose proof (notes_one ps p s) as N0. set (ps0 := if captured tab ps p s then _ else ps) in *.
  destruct (H1 n ltac:(lia) p ps0) as (ps1 & -> & N1), (H2 n ltac:(lia) p ps1) as (ps2 & -> & N2).
  exists ps2. split; [done|]. eapply notes_weaken; [|exact (notes_trans _ _ _ _ _ _ (notes_trans _ _ _ _ _ _ N0 N1) N2)].
  intros t. split.
  - intros [[<-|(b & Hb & Ht)]|(b & Hb & Ht)]; [constructor|eapply rtc_l; [by left|done]|eapply rtc_l; [by right|done]].
  - intros Ht. inversion Ht as [|? b ? [Hb|Hb] Hbt]; subst; eauto.
Qed.
(** A variable that is its own base in the end is never done. *)
Lemma note_loops n p s ps : tc base s s -> noteStaticUse tab n p s ps = None.
Proof.
  revert s ps. induction n as [|n IH]; intros s ps Hs; [done|]. cbn [noteStaticUse].
  assert (exists b, base s b /\ tc base b b) as (b & Hb & Hbb).
  { inversion Hs as [? ? Hss|? b ? Hsb Hbs]; subst; [by exists s|]. exists b. split; [done|]. eapply tc_r; done. }
  set (ps0 := if captured tab ps p s then _ else ps). destruct Hb as [Hb|Hb]; rewrite Hb.
  - by rewrite (IH b ps0 Hbb).
  - destruct (match basedBase (tab s) with Some b => _ | None => _ end) as [ps1|]; [|done]. by apply IH.
Qed.

(** The references of a program in the order they are typed: procedure and symbol. *)
Fixpoint note_all (n : nat) (refs : list (nat * nat)) (ps : list Proc.t) : option (list Proc.t) :=
  match refs with
  | [] => Some ps
  | (p, s) :: refs => match noteStaticUse tab n p s ps with Some ps => note_all n refs ps | None => None end
  end.
Lemma notes_same ps ps' p C : notes ps ps' p C -> map Proc.parent ps' = map Proc.parent ps /\ forall q t, captured tab ps' q t = captured tab ps q t.
Proof. intros (l & -> & _). split; [apply with_uses_parent|]. intros q t. apply captured_with. Qed.
Lemma note_all_ends refs : (forall s, Acc (flip base) s) -> exists n0, forall n, (n0 <= n)%nat -> forall ps, exists ps', note_all n refs ps = Some ps' /\
  map Proc.parent ps' = map Proc.parent ps /\ (forall q t, captured tab ps' q t = captured tab ps q t) /\
  forall q t, t ∈ uses_of ps' q <-> t ∈ uses_of ps q \/ (q < length ps)%nat /\ captured tab ps q t = true /\ exists s, (q, s) ∈ refs /\ rtc base s t.
Proof.
  intros Hacc. induction refs as [|[p s] refs (n2 & H2)]; cbn.
  - exists 0%nat. intros n _ ps. exists ps. repeat split; try done; try tauto. intros [|(_ & _ & s & Hs & _)]; [done|by apply elem_of_nil in Hs].
  - destruct (note_ends s (Hacc s)) as (n1 & H1). exists (n1 + n2)%nat. intros n Hn ps.
    destruct (H1 n ltac:(lia) p ps) as (ps1 & -> & N1). destruct (H2 n ltac:(lia) ps1) as (ps' & E & Ep & Ec & Hu).
    destruct (notes_same _ _ _ _ N1) as [Ep1 Ec1]. exists ps'. split; [done|]. split; [congruence|]. split; [intros q t; by rewrite Ec, Ec1|].
    intros q t. rewrite Hu. pose proof (f_equal length Ep1) as El. rewrite !length_map in El. rewrite El, Ec1.
    destruct N1 as (l & -> & Hl). setoid_rewrite elem_of_cons. destruct (decide (q = p)) as [-> |Hq].
    + rewrite Hl. naive_solver.
    + rewrite uses_with_ne by done. naive_solver.
Qed.
End noting.

(** ** What the static links promise *)
(** The variable [s] must reach [p] by a link: [p] or a procedure inside it has a reference
    that goes to [s], itself or through its bases, and [s] lives in a strict ancestor of [p]. *)
Definition needs (tab : symtab) (ps : list Proc.t) (refs : list (nat * nat)) (p s : nat) : Prop :=
  exists q t o, (q, t) ∈ refs /\ rtc (below (proc_up ps)) q p /\ rtc (base tab) t s /\ captured tab ps q s = true /\
    owner (tab s) = Some o /\ tc (below (proc_up ps)) p o.
Lemma captured_above tab ps p s : nested ps -> captured tab ps p s = true -> exists o, owner (tab s) = Some o /\ tc (below (proc_up ps)) p o.
Proof.
  intros Hn H. unfold captured in H. destruct (owner (tab s)) as [o|]; [|by rewrite andb_false_r in H]. exists o. split; [done|].
  rewrite !andb_true_iff, negb_true_iff, Nat.eqb_neq in H. destruct H as (_ & (Hne & Hd) & _).
  apply isDescendantOf_spec in Hd; [|done]. inversion Hd as [|? x ? Hx Hr]; subst; [done|]. apply tc_rtc_r with x; [by apply tc_once|done].
Qed.
Lemma links_settled tab ps0 refs n : nested ps0 -> (forall p, uses_of ps0 p = []) -> (forall ps1, note_all tab n refs ps0 = Some ps1 ->
    map Proc.parent ps1 = map Proc.parent ps0 -> (forall q t, captured tab ps1 q t = captured tab ps0 q t) ->
    (forall q t, t ∈ uses_of ps1 q <-> t ∈ uses_of ps0 q \/ (q < length ps0)%nat /\ captured tab ps0 q t = true /\ exists s, (q, s) ∈ refs /\ rtc (base tab) s t) ->
    same ps1 (staticLinks tab ps1) /\ forall p, (p < length ps0)%nat -> NoDup (env_of (staticLinks tab ps1) p) /\
      forall s, s ∈ env_of (staticLinks tab ps1) p <-> needs tab ps0 refs p s).
Proof.
  intros Hn H0 ps1 _ Ep Ec Hu. pose proof (nested_map ps0 ps1 Ep Hn) as Hn1. pose proof (proc_up_map ps0 ps1 Ep) as Eu.
  assert (forall a b, below (proc_up ps1) a b <-> below (proc_up ps0) a b) as Hb by (intros a b; unfold below; by rewrite Eu).
  assert (forall a b, tc (below (proc_up ps1)) a b <-> tc (below (proc_up ps0)) a b) as Htc.
  { intros a b. split; intros H; refine (tc_congruence id _ a b _ H); intros x y; apply Hb. }
  assert (forall a b, rtc (below (proc_up ps1)) a b <-> rtc (below (proc_up ps0)) a b) as Hrtc.
  { intros a b. split; intros H; refine (rtc_congruence id _ a b _ H); intros x y; apply Hb. }
  destruct (staticLinks_settles tab ps1 Hn1) as [Hsame Hset].
  { intros p s Hs. apply Hu in Hs as [Hs|(_ & Hc & _)]; [rewrite H0 in Hs; by apply elem_of_nil in Hs|].
    rewrite <- Ec in Hc. by apply captured_above in Hc. }
  split; [done|]. pose proof (f_equal length Ep) as El. rewrite !length_map in El. intros p Hp.
  destruct (Hset p ltac:(lia)) as [Hnd Henv]. split; [done|]. intros s. rewrite Henv. unfold linked, needs. split.
  - intros (q & o & Hq & Hs & Ho & Ht). apply Hu in Hs as [Hs|(_ & Hc & t & Hr & Hts)]; [rewrite H0 in Hs; by apply elem_of_nil in Hs|].
    exists q, t, o. rewrite <- Hrtc, <- Htc. done.
  - intros (q & t & o & Hr & Hq & Hts & Hc & Ho & Ht). exists q, o. rewrite Hrtc, Htc. repeat split; try done. apply Hu. right.
    split; [|split; [done|by exists t]]. apply rtc_inv in Hq as [-> |(x & Hx & _)]; [done|]. by apply (proj1 Hn q x).
Qed.

(** C17: static links.  For a program whose procedures form a forest and whose chains of BASED and
    DEFINED bases end, noting the references ends, and pass 3 gives each procedure as
    links exactly the variables it needs, each once: those of strict ancestors that it, or
    a procedure inside it, refers to, directly or through a base.  A call of an internal procedure
    of one's own, and a call of oneself, can always pass every link; any other call is
    diagnosed for exactly the variables that the caller has no need of itself. *)
Theorem static_links (tab : symtab) (ps0 : list Proc.t) (refs : list (nat * nat)) :
  nested ps0 -> (forall p, uses_of ps0 p = []) -> (forall s, Acc (flip (base tab)) s) ->
  exists n ps1, note_all tab n refs ps0 = Some ps1 /\ let ps := staticLinks tab ps1 in
    (forall p, (p < length ps0)%nat -> NoDup (env_of ps p) /\ forall s, s ∈ env_of ps p <-> needs tab ps0 refs p s) /\
    (forall p r, (p < length ps0)%nat -> proc_up ps0 p = Some r \/ p = r ->
       appendStaticLinks tab ps false r p = Some (map Passed (env_of ps p))) /\
    (forall r p s l, (p < length ps0)%nat -> (r < length ps0)%nat -> appendStaticLinks tab ps false r p = Some l ->
       OutOfReach s ∈ l <-> needs tab ps0 refs p s /\ owner (tab s) <> Some r /\ ~ needs tab ps0 refs r s).
Proof.
  intros Hn H0 Hacc. destruct (note_all_ends tab refs Hacc) as (n & Hall). destruct (Hall n ltac:(lia) ps0) as (ps1 & E & Ep & Ec & Hu).
  exists n, ps1. split; [done|]. cbv zeta. destruct (links_settled tab ps0 refs n Hn H0 ps1 E Ep Ec Hu) as [_ Hset].
  split; [done|]. split.
  - intros p r Hp Hr. unfold appendStaticLinks. cbn [andb]. f_equal. apply map_ext_in. intros s Hs. apply list_elem_of_In in Hs.
    destruct Hr as [Hr| ->]; [|rewrite (bool_decide_eq_true_2 (s ∈ _)) by done; by rewrite orb_true_r].
    destruct (Hset p Hp) as [_ Henv]. apply Henv in Hs as (q & t & o & Hqt & Hq & Hts & Hc & Ho & Ht).
    inversion Ht as [? ? Hpo|? x ? Hpx Hx]; subst; unfold below in *.
    + assert (o = r) as -> by congruence. by rewrite Ho, bool_decide_eq_true_2.
    + assert (x = r) as -> by congruence. rewrite (bool_decide_eq_true_2 (s ∈ _)); [by rewrite orb_true_r|].
      destruct (proj1 Hn p r Hr) as [_ Hlr]. apply (Hset r Hlr). exists q, t, o. repeat split; try done. by eapply rtc_r.
  - intros r p s l Hp Hr Hl. unfold appendStaticLinks in Hl. cbn [andb] in Hl. injection Hl as <-.
    rewrite list_elem_of_In, in_map_iff. destruct (Hset p Hp) as [_ Hep], (Hset r Hr) as [_ Her]. rewrite <- Hep, <- Her. split.
    + intros (v & Hv & Hin). apply list_elem_of_In in Hin.
      destruct (bool_decide_reflect (owner (tab v) = Some r)); [done|]. destruct (bool_decide_reflect (v ∈ env_of (staticLinks tab ps1) r)); [done|].
      injection Hv as <-. done.
    + intros (Hin & Ho & Hne). exists s. rewrite <- list_elem_of_In. split; [|done].
      by rewrite (bool_decide_eq_false_2 (owner (tab s) = Some r)), (bool_decide_eq_false_2 (s ∈ _)).
Qed.

(** A variable of [OUTER] that [INNER] refers to. *)
Definition one_var : symtab := fun s => if (s =? 0)%nat then plainVar (Some 0%nat) else plainVar None.
Lemma static_links_witness : exists n ps1, note_all one_var n [(1%nat, 0%nat)] two_procs = Some ps1 /\
  0%nat ∈ env_of (staticLinks one_var ps1) 1 /\ appendStaticLinks one_var (staticLinks one_var ps1) false 0 1 = Some [Passed 0].
Proof.
  assert (forall s, Acc (flip (base one_var)) s) as Hacc.
  { intros s. constructor. intros t [H|H]; unfold one_var in H; destruct (s =? 0)%nat; discriminate H. }
  assert (forall p, uses_of two_procs p = []) as H0 by (intros [|[|[|p]]]; reflexivity).
  destruct (static_links one_var two_procs [(1%nat, 0%nat)] two_procs_nested H0 Hacc) as (n & ps1 & E & He & Ha & _).
  exists n, ps1. split; [exact E|]. destruct (He 1%nat ltac:(cbn; lia)) as [Hnd Hs].
  assert (0%nat ∈ env_of (staticLinks one_var ps1) 1) as Hin.
  { apply Hs. exists 1%nat, 0%nat, 0%nat. split; [by apply list_elem_of_singleton|]. split; [constructor|]. split; [constructor|].
    split; [by vm_compute|]. split; [reflexivity|]. by apply tc_once. }
  split; [exact Hin|]. rewrite (Ha 1%nat 0%nat ltac:(cbn; lia) (or_introl eq_refl)). f_equal.
  assert (forall s, s ∈ env_of (staticLinks one_var ps1) 1 -> s = 0%nat) as Hone.
  { intros s (q & t & o & Hqt & _ & Hts & _)%Hs. apply list_elem_of_singleton in Hqt. injection Hqt as -> ->.
    inversion Hts as [|? x ? [Hx|Hx] _]; [done|discriminate Hx..]. }
  destruct (env_of (staticLinks one_var ps1) 1) as [|a [|b l]]; [by apply elem_of_nil in Hin|..].
  - by rewrite (Hone a ltac:(by left)).
  - rewrite (Hone a ltac:(by left)), (Hone b ltac:(by right; left)) in Hnd. apply NoDup_cons in Hnd as [Hnd _]. destruct Hnd. by left.
Defined.

(** The symbols of a state of the analysis. *)
Definition symbols (s : sema) : symtab := the_symbol s.
(** [DECLARE P POINTER BASED(P);] in [OUTER]. *)
Definition self_based : M Datatypes.unit :=
  let* sc := scopeFor 0 in
  let* i := declare sc (txt "P") ptr (mkLoc 2 1) Var false in
  on_symbol i (fun y => y <| owner := Some 0%nat |>);;
  modify (fun s => s <| pendingBased_ := [mkPending (txt "P") i (mkLoc 2 1) sc 0] |>);;
  resolvePendingBased 0;; flushPendingBased.
(** A BASED variable may be its own base.  A locator declared BASED on itself is
    accepted without a diagnostic, and the note of a reference to it, by whatever procedure,
    does not end: the recursion over the bases has no bound. *)
Theorem based_on_itself :
  exists s, outcome_of self_based two_procs = Some s /\ errorCount (d_ s) = 0 /\
    forall n p ps, noteStaticUse (symbols s) n p 0 ps = None.
Proof.
  eexists. split; [vm_compute; reflexivity|]. split; [reflexivity|]. intros n p ps. apply note_loops. apply tc_once. left. reflexivity.
Qed.
