(* ===== verification/OnCapture.v ===== *)
(** * The captures of an ON-unit ([src/sema.cpp], rule 91)

    [Sema::checkOnUnit]: an ON-unit runs in a function without the frame of the procedure
    that established it, so the variables of that frame that it reaches are captured by
    address, and what cannot be captured is diagnosed. *)
From S2P Require Import Prelude Types Diag Lexer Ast Stmts Hir HirLower CallGraph.

Section unit.
Variable tab : symtab.
Variable p : nat.
(** [inUnit_ > 1]: the unit is inside another one. *)
Variable nested : bool.

Definition caps_diags : Type := list nat * Diags.
Definition reject (loc : SourceLoc) (msg : text) (st : caps_diags) : caps_diags := (fst st, error loc msg (txt "(91)") [] (snd st)).
Definition cap (s : nat) (st : caps_diags) : caps_diags := (if bool_decide (s ∈ fst st) then fst st else fst st ++ [s], snd st).
Definition no_frame : text := txt "an ON-unit reaching an automatic variable is not implemented in this stage".
Definition is_global (y : Symbol) : bool := bool_decide (skind y = Var) && isStatic y && negb (bool_decide (is_Some (definedBase y))).
Definition plainOwn (y : Symbol) : bool :=
  bool_decide (skind y = Var) && negb (isStatic y) && negb (isBased y) && negb (bool_decide (is_Some (definedBase y))) &&
  negb (symFile (more y)) && bool_decide (owner y = Some p).
Definition ownFixed (y : Symbol) : bool := plainOwn y && negb (controlledSym y) && negb (isArea (sty y)) && negb (isDynamic (sty y)).
Definition noteCap (s : nat) (whole : bool) (loc : SourceLoc) (st : caps_diags) : caps_diags :=
  let y := tab s in
  if is_global y then st
  else if negb nested && plainOwn y && whole then cap s st
  else if negb nested && ownFixed y && (isArray (sty y) || isStruct (sty y)) then cap s st
  else reject loc no_frame st.
(** The reference that an expression node is, and [checkExpr]. *)
Definition noteExpr (e : Expr.t) (st : caps_diags) : caps_diags :=
  match Expr.sym e with
  | Some s =>
      if (bool_decide (Expr.kind e = Expr.VarRef) || bool_decide (Expr.kind e = Expr.Subscript)) &&
         negb (bool_decide (skind (tab s) = ProcName)) && bool_decide (is_Some (owner (tab s)))
      then noteCap s (bool_decide (Expr.kind e = Expr.VarRef) && bool_decide (Expr.path e = []) && negb (bool_decide (is_Some (Expr.locPtr e)))) (Expr.loc e) st
      else st
  | None => st
  end.
Fixpoint checkExpr (e : Expr.t) (st : caps_diags) : caps_diags :=
  let opt (o : option Expr.t) (st : caps_diags) : caps_diags := match o with Some x => checkExpr x st | None => st end in
  fold_left (fun st o => opt o st) (Expr.args e) (opt (Expr.b e) (opt (Expr.a e) (opt (Expr.locPtr e) (noteExpr e st)))).
Definition checkO (o : option Expr.t) (st : caps_diags) : caps_diags := match o with Some e => checkExpr e st | None => st end.
(** The statements that a unit may not hold. *)
Definition checkKind (u : option Stmt.t) (s : Stmt.t) (st : caps_diags) : caps_diags :=
  let no (msg : string) := reject (Stmt.loc s) (txt msg) st in
  match Stmt.kind s with
  | Stmt.Leave => no "LEAVE inside an ON-unit is not implemented in this stage"
  | Stmt.Iterate => no "ITERATE inside an ON-unit is not implemented in this stage"
  | Stmt.Declare_ =>
      match u with
      | Some u => if bool_decide (Stmt.kind u = Stmt.Begin) then st else no "a DECLARE is only allowed inside a BEGIN ON-unit"
      | None => no "a DECLARE is only allowed inside a BEGIN ON-unit"
      end
  | Stmt.DefineAlias => no "DEFINE ALIAS inside an ON-unit is not implemented in this stage"
  | Stmt.DefineConstant => no "DEFINE CONSTANT inside an ON-unit is not implemented in this stage"
  | Stmt.Entry => no "ENTRY inside an ON-unit is not implemented in this stage"
  | Stmt.DoIter =>
      match Stmt.sym s with
      | Some i => if bool_decide (is_Some (owner (tab i))) then reject (Stmt.loc s) no_frame st else st
      | None => st
      end
  | _ => st
  end.
Definition checkLabels (s : Stmt.t) (st : caps_diags) : caps_diags :=
  if bool_decide (Stmt.labelElems s = []) then st
  else reject (Stmt.loc s) (txt "a label-array prefix inside an ON-unit is not implemented in this stage") st.
Definition unit_exprs (s : Stmt.t) : list (option Expr.t) :=
  [Stmt.target s] ++ Stmt.extraTargets s ++
  [Stmt.value s; Stmt.cond s; Stmt.from s; Stmt.to s; Stmt.by_ s; skipCount (Stmt.stream s)] ++ items_ (Stmt.stream s) ++ Stmt.args s.
(** [check]; a nested ON was validated when its own unit was. *)
Fixpoint check (u : option Stmt.t) (s : Stmt.t) (st : caps_diags) : caps_diags :=
  let opt (o : option Stmt.t) (st : caps_diags) : caps_diags := match o with Some x => check u x st | None => st end in
  let st := checkLabels s st in
  if bool_decide (Stmt.kind s = Stmt.On) then st
  else
    let st := fold_left (fun st o => checkO o st) (unit_exprs s) (checkKind u s st) in
    fold_left (fun st o => opt o st) (Stmt.body s) (opt (Stmt.unit s) (opt (Stmt.elseS s) (opt (Stmt.thenS s) st))).
(** The unit of an ON statement: its captures, and the diagnostics. *)
Definition checkOnUnit (on : Stmt.t) (d : Diags) : caps_diags :=
  match Stmt.unit on with
  | Some u => check (Some u) u ([], d)
  | None => (onCaps (Stmt.on_ on), d)
  end.

(** ** What a unit reaches *)
(** The nodes of an expression, and the statements of a unit, a nested ON for its labels alone. *)
Fixpoint nodes (e : Expr.t) : list Expr.t :=
  let opt (o : option Expr.t) : list Expr.t := match o with Some x => nodes x | None => [] end in
  e :: opt (Expr.locPtr e) ++ opt (Expr.a e) ++ opt (Expr.b e) ++ flat_map opt (Expr.args e).
Definition nodesO (o : option Expr.t) : list Expr.t := match o with Some e => nodes e | None => [] end.
Fixpoint visited (s : Stmt.t) : list Stmt.t :=
  let opt (o : option Stmt.t) : list Stmt.t := match o with Some x => visited x | None => [] end in
  if bool_decide (Stmt.kind s = Stmt.On) then [s]
  else s :: opt (Stmt.thenS s) ++ opt (Stmt.elseS s) ++ opt (Stmt.unit s) ++ flat_map opt (Stmt.body s).
(** What is checked of one statement. *)
Definition visit (u : option Stmt.t) (st : caps_diags) (s : Stmt.t) : caps_diags :=
  let st := checkLabels s st in
  if bool_decide (Stmt.kind s = Stmt.On) then st
  else fold_left (fun st e => noteExpr e st) (flat_map nodesO (unit_exprs s)) (checkKind u s st).

Lemma fold_flat_map {A B C} (f : C -> B -> C) (g : A -> list B) l st :
  fold_left f (flat_map g l) st = fold_left (fun st x => fold_left f (g x) st) l st.
Proof. revert st. induction l as [|x l IH]; intros st; cbn; [done|]. by rewrite fold_left_app, IH. Qed.
Lemma fold_ext_in {A C} (f g : C -> A -> C) l st : (forall st x, x ∈ l -> f st x = g st x) -> fold_left f l st = fold_left g l st.
Proof.
  revert st. induction l as [|x l IH]; intros st H; cbn; [done|]. rewrite (H st x) by by left. apply IH. intros st' y Hy. apply H. by right.
Qed.
Lemma checkExpr_nodes e st : checkExpr e st = fold_left (fun st e => noteExpr e st) (nodes e) st.
Proof.
  revert st. induction e as [e Hp Ha Hb Hl] using expr_ind; intros st.
  assert (forall o st, opt_ok (fun x => forall st, checkExpr x st = fold_left (fun st e => noteExpr e st) (nodes x) st) o ->
    match o with Some x => checkExpr x st | None => st end = fold_left (fun st e => noteExpr e st) (nodesO o) st) as Ho.
  { intros [x|] st'; cbn; [intros H; apply H|done]. }
  transitivity (fold_left (fun st o => match o with Some x => checkExpr x st | None => st end) (Expr.args e)
    (checkO (Expr.b e) (checkO (Expr.a e) (checkO (Expr.locPtr e) (noteExpr e st))))); [by destruct e|].
  transitivity (fold_left (fun st e => noteExpr e st) (e :: nodesO (Expr.locPtr e) ++ nodesO (Expr.a e) ++ nodesO (Expr.b e) ++ flat_map nodesO (Expr.args e)) st);
    [|by destruct e].
  cbn [fold_left]. rewrite !fold_left_app, fold_flat_map. unfold checkO. rewrite !Ho by done.
  apply fold_ext_in. intros st' o Hin. apply Ho. rewrite Forall_forall in Hl. by apply Hl.
Qed.
Lemma check_visited u s st : check u s st = fold_left (visit u) (visited s) st.
Proof.
  revert st. induction s as [s Ht He Hu Hb] using stmt_ind; intros st.
  set (opt := fun (o : option Stmt.t) (st : caps_diags) => match o with Some x => check u x st | None => st end).
  set (vis := fun (o : option Stmt.t) => match o with Some x => visited x | None => [] end).
  assert (forall o st, opt_ok (fun x => forall st, check u x st = fold_left (visit u) (visited x) st) o -> opt o st = fold_left (visit u) (vis o) st) as Ho.
  { intros [x|] st'; cbn; [intros H; apply H|done]. }
  transitivity (if bool_decide (Stmt.kind s = Stmt.On) then checkLabels s st
    else fold_left (fun st o => opt o st) (Stmt.body s) (opt (Stmt.unit s) (opt (Stmt.elseS s) (opt (Stmt.thenS s)
      (fold_left (fun st o => checkO o st) (unit_exprs s) (checkKind u s (checkLabels s st))))))); [by destruct s|].
  transitivity (fold_left (visit u) (if bool_decide (Stmt.kind s = Stmt.On) then [s]
    else s :: vis (Stmt.thenS s) ++ vis (Stmt.elseS s) ++ vis (Stmt.unit s) ++ flat_map vis (Stmt.body s)) st); [|by destruct s].
  destruct (bool_decide (Stmt.kind s = Stmt.On)) eqn:Ek; [cbn; unfold visit; by rewrite Ek|].
  cbn [fold_left]. replace (visit u st s) with (fold_left (fun st e => noteExpr e st) (flat_map nodesO (unit_exprs s)) (checkKind u s (checkLabels s st))) by (unfold visit; by rewrite Ek).
  rewrite !fold_left_app, (fold_flat_map (visit u) vis).
  rewrite (fold_flat_map (fun st e => noteExpr e st) nodesO), !Ho by done.
  rewrite (fold_ext_in (fun st o => checkO o st) (fun st x => fold_left (fun st e => noteExpr e st) (nodesO x) st)).
  - apply fold_ext_in. intros st' o Hin. apply Ho. rewrite Forall_forall in Hb. by apply Hb.
  - intros st' [e|] _; [apply checkExpr_nodes|done].
Qed.
End unit.

(** ** What the check finds *)
Section judged.
Variable tab : symtab.
Variable p : nat.
Variable nested : bool.
Notation noteExpr := (noteExpr tab p nested).
Notation visit := (visit tab p nested).

(** The variable of some procedure's frame, or global, that a node refers to. *)
Definition reference (e : Expr.t) : option nat :=
  match Expr.sym e with
  | Some s => if (bool_decide (Expr.kind e = Expr.VarRef) || bool_decide (Expr.kind e = Expr.Subscript)) &&
                 negb (bool_decide (skind (tab s) = ProcName)) && bool_decide (is_Some (owner (tab s))) then Some s else None
  | None => None
  end.
Definition whole (e : Expr.t) : bool :=
  bool_decide (Expr.kind e = Expr.VarRef) && bool_decide (Expr.path e = []) && negb (bool_decide (is_Some (Expr.locPtr e))).
(** Whether the address that the reference uses can be captured. *)
Definition capturable (s : nat) (w : bool) : bool :=
  let y := tab s in negb nested && ((plainOwn p y && w) || (ownFixed p y && (isArray (sty y) || isStruct (sty y)))).
Definition node_cap (e : Expr.t) : option nat :=
  match reference e with Some s => if is_global (tab s) then None else Some s | None => None end.
Definition node_ok (e : Expr.t) : bool := match node_cap e with Some s => capturable s (whole e) | None => true end.
Definition kind_ok (u : option Stmt.t) (s : Stmt.t) : bool :=
  match Stmt.kind s with
  | Stmt.Leave | Stmt.Iterate | Stmt.DefineAlias | Stmt.DefineConstant | Stmt.Entry => false
  | Stmt.Declare_ => match u with Some u => bool_decide (Stmt.kind u = Stmt.Begin) | None => false end
  | Stmt.DoIter => match Stmt.sym s with Some i => negb (bool_decide (is_Some (owner (tab i)))) | None => true end
  | _ => true
  end.
Definition stmt_nodes (s : Stmt.t) : list Expr.t := if bool_decide (Stmt.kind s = Stmt.On) then [] else flat_map nodesO (unit_exprs s).
Definition stmt_ok (u : option Stmt.t) (s : Stmt.t) : bool :=
  bool_decide (Stmt.labelElems s = []) && (bool_decide (Stmt.kind s = Stmt.On) || kind_ok u s) && forallb node_ok (stmt_nodes s).

(** A check that finds nothing when [ok], and captures what [C] says; else it reports. *)
Record judged (f : caps_diags -> caps_diags) (ok : bool) (C : nat -> Prop) : Prop := {
  jd_fine : ok = true -> forall st, snd (f st) = snd st /\ forall c, c ∈ fst (f st) <-> c ∈ fst st \/ C c;
  jd_errs : forall st, mute_ (snd st) = 0 -> mute_ (snd (f st)) = 0 /\ nerr_ (snd st) <= nerr_ (snd (f st)) /\
              (ok = false -> nerr_ (snd st) < nerr_ (snd (f st)));
  jd_nodup : forall st, NoDup (fst st) -> NoDup (fst (f st));
  jd_own : forall st, (forall c, c ∈ fst st -> plainOwn p (tab c) = true /\ nested = false) ->
             forall c, c ∈ fst (f st) -> plainOwn p (tab c) = true /\ nested = false }.
Lemma judged_id : judged id true (fun _ => False).
Proof.
  split.
  - intros _ st. split; [done|]. intros c. cbn. naive_solver.
  - intros st Hm. cbn. split; [done|]. split; [lia|done].
  - done.
  - done.
Qed.
Lemma judged_comp f g ok ok' C C' : judged f ok C -> judged g ok' C' -> judged (fun st => g (f st)) (ok && ok') (fun c => C c \/ C' c).
Proof.
  intros F G. split.
  - intros [H1 H2]%andb_true_iff st. destruct (jd_fine _ _ _ F H1 st) as [E1 M1], (jd_fine _ _ _ G H2 (f st)) as [E2 M2].
    split; [congruence|]. intros c. rewrite M2, M1. tauto.
  - intros st Hm. destruct (jd_errs _ _ _ F st Hm) as (F1 & F2 & F3), (jd_errs _ _ _ G (f st) F1) as (G1 & G2 & G3).
    split; [done|]. split; [lia|]. intros [H|H]%andb_false_iff; [specialize (F3 H)|specialize (G3 H)]; lia.
  - intros st H. apply (jd_nodup _ _ _ G), (jd_nodup _ _ _ F), H.
  - intros st H. apply (jd_own _ _ _ G), (jd_own _ _ _ F), H.
Qed.
Lemma judged_fold {A} (f : A -> caps_diags -> caps_diags) ok (C : A -> nat -> Prop) l : (forall x, judged (f x) (ok x) (C x)) ->
  judged (fun st => fold_left (fun st x => f x st) l st) (forallb ok l) (fun c => exists x, x ∈ l /\ C x c).
Proof.
  intros H. induction l as [|x l IH]; cbn.
  - destruct judged_id as [J1 J2 J3 J4]. split; try done. intros _ st. split; [done|]. intros c. split; [auto|].
    intros [|(x & Hx & _)]; [done|by apply elem_of_nil in Hx].
  - destruct (judged_comp _ _ _ _ _ _ (H x) IH) as [J1 J2 J3 J4]. split; try done. intros E st. destruct (J1 E st) as [E1 M1].
    split; [done|]. intros c. rewrite M1. setoid_rewrite elem_of_cons. naive_solver.
Qed.
Lemma judged_reject loc msg : judged (reject loc msg) false (fun _ => False).
Proof.
  split; try done. intros st Hm. unfold reject. cbn. unfold error, muted. rewrite Hm. cbn. split; [done|]. split; [lia|intros; lia].
Qed.
Lemma judged_weaken f ok (C D : nat -> Prop) : (forall c, C c <-> D c) -> judged f ok C -> judged f ok D.
Proof. intros H [J1 J2 J3 J4]. split; try done. intros E st. destruct (J1 E st) as [E1 M1]. split; [done|]. intros c. by rewrite M1, H. Qed.
Lemma judged_any f (C D : nat -> Prop) : judged f false C -> judged f false D.
Proof. intros [J1 J2 J3 J4]. by split. Qed.
Lemma judged_cap s : plainOwn p (tab s) = true -> nested = false -> judged (cap s) true (eq s).
Proof.
  intros Ho Hn. split.
  - intros _ [caps d]. split; [done|]. intros c. cbn. case_bool_decide; [naive_solver|]. rewrite elem_of_app, list_elem_of_singleton. naive_solver.
  - intros st Hm. cbn. split; [done|]. split; [lia|done].
  - intros [caps d] H. cbn in *. case_bool_decide as Hin; [done|]. apply NoDup_app. split; [done|]. split; [|apply NoDup_singleton].
    intros c Hc Hs. apply list_elem_of_singleton in Hs as ->. done.
  - intros [caps d] H c. cbn in *. case_bool_decide; [apply H|]. rewrite elem_of_app, list_elem_of_singleton. intros [Hc| ->]; [by apply H|done].
Qed.
Lemma judged_node e : judged (noteExpr e) (node_ok e) (fun c => node_cap e = Some c).
Proof.
  unfold OnCapture.noteExpr, node_ok, node_cap, reference. destruct (Expr.sym e) as [s|]; [|eapply judged_weaken; [|exact judged_id]; naive_solver].
  destruct (_ && _ && _); [|eapply judged_weaken; [|exact judged_id]; naive_solver]. unfold noteCap. fold (whole e).
  destruct (is_global (tab s)); [eapply judged_weaken; [|exact judged_id]; naive_solver|]. unfold capturable.
  destruct nested eqn:En; cbn [negb andb]; [eapply judged_any, judged_reject|].
  destruct (plainOwn p (tab s) && whole e) eqn:E1.
  - apply andb_true_iff in E1 as [E1 _]. cbn [orb]. eapply judged_weaken; [|by apply judged_cap]. naive_solver.
  - cbn [orb]. destruct (ownFixed p (tab s) && _) eqn:E2; [|eapply judged_any, judged_reject].
    apply andb_true_iff in E2 as [E2 _]. unfold ownFixed in E2. rewrite !andb_true_iff in E2. destruct E2 as [[[E2 _] _] _].
    eapply judged_weaken; [|by apply judged_cap]. naive_solver.
Qed.
Lemma judged_kind u s : judged (checkKind tab u s) (kind_ok u s) (fun _ => False).
Proof.
  unfold checkKind, kind_ok. destruct (Stmt.kind s); try exact judged_id; try apply judged_reject.
  - destruct u as [u|]; [|apply judged_reject]. destruct (bool_decide _); [exact judged_id|apply judged_reject].
  - destruct (Stmt.sym s) as [i|]; [|exact judged_id]. destruct (bool_decide _); [apply judged_reject|exact judged_id].
Qed.
Lemma judged_visit u s : judged (fun st => visit u st s) (stmt_ok u s) (fun c => exists e, e ∈ stmt_nodes s /\ node_cap e = Some c).
Proof.
  unfold OnCapture.visit, stmt_ok, stmt_nodes, checkLabels.
  assert (judged (fun st => if bool_decide (Stmt.labelElems s = []) then st else
    reject (Stmt.loc s) (txt "a label-array prefix inside an ON-unit is not implemented in this stage") st) (bool_decide (Stmt.labelElems s = [])) (fun _ => False)) as Hl.
  { destruct (bool_decide _); [exact judged_id|apply judged_reject]. }
  destruct (bool_decide (Stmt.kind s = Stmt.On)); cbn [orb].
  - cbn [forallb]. rewrite !andb_true_r. eapply judged_weaken; [|exact Hl]. intros c. split; [done|]. intros (e & He & _). by apply elem_of_nil in He.
  - eapply judged_weaken; [|exact (judged_comp _ _ _ _ _ _ (judged_comp _ _ _ _ _ _ Hl (judged_kind u s)) (judged_fold noteExpr node_ok _ _ judged_node))].
    naive_solver.
Qed.
End judged.

(** ** What the captures promise *)
(** A statement of the unit refers to variable [i], or to a part of it, where the check looks. *)
Definition reached (tab : symtab) (u : Stmt.t) (i : nat) : Prop :=
  exists s e, s ∈ visited u /\ e ∈ stmt_nodes s /\ reference tab e = Some i.

(** [ON ERROR X = Y;], and the same with [PUT STRING(X) LIST(...)], of locals [X], 0, and [Y], 1. *)
Definition local : symtab := fun _ => plainVar (Some 0%nat).
Definition ref_to (s : nat) : Expr.t := (Expr.mk Expr.VarRef (mkLoc 1 1) Ty_default 0 0 0 0 0 [] [] [] [] (Some s) None false false false Tok.Eof None None []).
Definition on_error (u : Stmt.t) : Stmt.t :=
  Stmt.mk Stmt.On (mkLoc 1 1) [] [] [] None None None None None None false false [] false no_prefixes None None [] [] None
    Ty_default no_entry no_stream [] no_file [] None no_task no_on (Some u) no_alloc.
Definition unit_stmt (k : Stmt.Kind) (t v : option Expr.t) (st : StreamOpts Expr.t) : Stmt.t :=
  Stmt.mk k (mkLoc 1 1) [] [] [] t v None None None None false false [] false no_prefixes None None [] [] None
    Ty_default no_entry st [] no_file [] None no_task no_on None no_alloc.
Definition set_X : Stmt.t := unit_stmt Stmt.Assign (Some (ref_to 0)) (Some (ref_to 1)) no_stream.
Definition put_X : Stmt.t := unit_stmt Stmt.Put None None (mkStreamOpts false false false false None None [] false false [] (Some (ref_to 0))).

(** What the check does not look at: the target of PUT STRING, the operands of WAIT and of the
    task options, format widths, file and key options, the operands of ALLOCATE and FREE,
    the ONCODE of a SIGNAL and the target of a GO TO.  A local variable there is neither captured
    nor diagnosed. *)
Lemma on_unit_missed (d : Diags) : checkOnUnit local 0 false (on_error put_X) d = ([], d).
Proof. reflexivity. Qed.
