(* ===== verification/Overlay.v ===== *)
(** * DEFINED overlays ([src/sema.cpp], [src/irgen.cpp], rules 24, 126, 134)

    A DEFINED item has no storage of its own: it lies over its base.  The checks that accept
    a base and compute where the item starts, and the addresses that the code generator
    makes of the answer, in bytes from the start of the base's storage. *)
From S2P Require Import Prelude Types Diag Lexer Ast Constants Stmts Hir.

(** ** Sizes *)
Definition definedScalarBytes (t : Ty) : Z :=
  if isArray t || isStruct t || varying t || starLen t then -1
  else
    match k t with
    | FixedBin | FixedDec => intBits t / 8
    | Float => 8
    | Complex => 16
    | Char => len t
    | Bit => (len t + 7) / 8
    | Task | Event => 4
    | _ => -1
    end.
(** The elements of the dimensions, in the code's arithmetic: the span is an [int]. *)
Definition no_extent (d : Dim) : bool := dyn d || lbDyn d || adj d || (ub d <? lb d).
Definition span (d : Dim) : Z := i32 (i32 (ub d - lb d) + 1).
Fixpoint count_dims (n : Z) (l : list Dim) : Z :=
  match l with
  | [] => n
  | d :: l => if no_extent d then -1 else count_dims (i64 (n * span d)) l
  end.
Definition definedCharUnits (t : Ty) : Z :=
  if negb (isChar t) || varying t || starLen t then -1
  else if existsb no_extent (dims t) then -1 else i64 (count_dims 1 (dims t) * len t).
Definition fixedElemCount (t : Ty) : Z := count_dims 1 (dims t).
Definition hasRuntimeExtent (t : Ty) : bool := existsb (fun d => dyn d || lbDyn d || adj d) (dims t).
Definition definedPosFits (loc : SourceLoc) (pos itemUnits baseUnits : Z) (what : text) (d : Diags) : bool * Diags :=
  if pos <? 1 then (false, error loc (txt "POSITION must be 1 or greater") (txt "(24)") [] d)
  else if baseUnits <? i64 (i64 (pos - 1) + itemUnits)
  then (false, error loc (txt "the DEFINED item does not fit into its " ++ what ++ txt " at POSITION(" ++ to_string pos ++ txt ")") (txt "(24)") [] d)
  else (true, d).
Definition isIntegerSubscriptType (t : Ty) : bool := (bool_decide (k t = FixedBin) || bool_decide (k t = FixedDec)) && (scale t =? 0).

(** ** The subscripts of the base *)
(** One base axis: [definedConst], [definedSlotAxis], [definedSlotMult] and [definedSlotAdd]
    there, and whether the subscript is evaluated at each reference. *)
Record Slot := mkSlot { sl_const : Z; sl_axis : Z; sl_mult : Z; sl_add : Z; sl_runtime : bool }.
Definition constant_slot (c : Z) : Slot := mkSlot c (-1) 1 0 false.
(** What the loop over the subscripts keeps. *)
Record Scan := mkScan { sc_slots : list Slot; sc_used : list bool; sc_isubs : Z; sc_ok : bool; sc_runtime : bool; sc_d : Diags }.

Section item.
(** The item: name of its base, location, type, POSITION; run-time subscripts are typed already. *)
Variables (baseName : text) (loc : SourceLoc) (ity : Ty) (subs : list DefinedSub) (hasPos : bool) (pos : Z).
Definition err (msg rule : string) (d : Diags) : Diags := error loc (txt msg) (txt rule) [] d.

Definition scan_sub (s : Scan) (x : DefinedSub * Dim) : Scan :=
  let '(ds, bd) := x in
  let put (sl : Slot) (used : list bool) (n : Z) (ok rt : bool) (d : Diags) := mkScan (sc_slots s ++ [sl]) used n ok rt d in
  if isub ds then
    if (axis ds <? 0) || (Z.of_nat (length (dims ity)) <=? axis ds)
    then put (constant_slot 0) (sc_used s) (sc_isubs s) false (sc_runtime s)
           (error loc (txt "iSUB dummy " ++ to_string (axis ds + 1) ++ txt "SUB names a subscript the item does not have") (txt "(134)") [] (sc_d s))
    else put (mkSlot 0 (axis ds) (mult ds) (add ds) false) (<[Z.to_nat (axis ds) := true]> (sc_used s)) (sc_isubs s + 1) (sc_ok s) (sc_runtime s) (sc_d s)
  else
    match ds_expr ds with
    | Some e =>
        if bool_decide (Expr.kind e = Expr.IntLit) then
          let c := Expr.ival e in
          put (constant_slot c) (sc_used s) (sc_isubs s) (sc_ok s) (sc_runtime s)
            (if (c <? lb bd) || (ub bd <? c)
             then error (Expr.loc e) (txt "DEFINED base subscript " ++ to_string c ++ txt " is out of bounds " ++ to_string (lb bd) ++ txt ":" ++ to_string (ub bd)) (txt "(126)") [] (sc_d s)
             else sc_d s)
        else
          let bad := negb (isVoid (Expr.ty e)) && negb (isIntegerSubscriptType (Expr.ty e)) in
          put (mkSlot 0 (-1) 1 0 true) (sc_used s) (sc_isubs s) (sc_ok s && negb bad) true
            (if bad then error (Expr.loc e) (txt "a DEFINED base subscript must be of an integer type, not " ++ desc (Expr.ty e)) (txt "(126)") [] (sc_d s) else sc_d s)
    | None => put (constant_slot 0) (sc_used s) (sc_isubs s) false (sc_runtime s) (err "expected a DEFINED base subscript" "(24)" (sc_d s))
    end.
Definition scan_subs (bdims : list Dim) (d : Diags) : Scan :=
  fold_left scan_sub (zip subs bdims) (mkScan [] (replicate (length (dims ity)) false) 0 true false d).

(** The affine image of each mapped item axis stays within its base axis. *)
Definition slot_dim (sl : Slot) : Dim := default (mkDim 1 1 false false false) (dims ity !! Z.to_nat (sl_axis sl)).
Definition slot_fits (sl : Slot) (bd : Dim) : bool :=
  let yd := slot_dim sl in
  let lo := i64 (i64 (sl_mult sl * lb yd) + sl_add sl) in
  let hi := i64 (i64 (sl_mult sl * ub yd) + sl_add sl) in
  (lb bd <=? Z.min lo hi) && (Z.max lo hi <=? ub bd).
Fixpoint fit_slots (k : Z) (l : list (Slot * Dim)) (d : Diags) : bool * Diags :=
  match l with
  | [] => (true, d)
  | (sl, bd) :: l =>
      if (sl_axis sl <? 0) || slot_fits sl bd then fit_slots (k + 1) l d
      else
        let d := error loc (txt "DEFINED iSUB axis " ++ to_string (sl_axis sl + 1) ++ txt " maps to base subscript " ++ to_string (k + 1) ++
                   txt " outside its bounds " ++ to_string (lb bd) ++ txt ":" ++ to_string (ub bd)) (txt "(134)") [] d in
        (false, snd (fit_slots (k + 1) l d))
  end.

(** ** The decision *)
(** [definedConst] and the slot vectors (empty for a whole-base overlay), whether it is an iSUB overlay, [definedPos]. *)
Record Overlay := mkOverlay { ov_slots : list Slot; ov_isub : bool; ov_pos : Z }.
Definition whole_base : Overlay := mkOverlay [] false 0.

Definition overlay_position (bt : Ty) (d : Diags) : option Overlay * Diags :=
  let itemUnits := if isArray ity then -1 else definedCharUnits ity in
  let baseUnits := definedCharUnits bt in
  if (itemUnits <? 0) || (baseUnits <? 0)
  then (None, err "POSITION requires a scalar CHARACTER item and base (string-overlay defining)" "(24)" d)
  else
    let '(ok, d) := definedPosFits loc pos itemUnits baseUnits (txt "base") d in
    (if ok then Some (mkOverlay [] false (pos - 1)) else None, d).
Definition overlay_whole (bt : Ty) (d : Diags) : option Overlay * Diags :=
  let itemBytes := definedScalarBytes ity in
  let baseBytes := definedScalarBytes bt in
  let sameView := Ty_eqb ity bt || ((0 <? itemBytes) && (itemBytes =? baseBytes)) in
  if isStruct ity || isStruct bt then (None, err "DEFINED on a structure is not implemented in this stage" "(24)" d)
  else if isArray ity || isArray bt then
    let itemN := fixedElemCount ity in
    let baseN := fixedElemCount bt in
    let itemElem := if isArray ity then definedScalarBytes (elementType ity) else itemBytes in
    let baseElem := if isArray bt then definedScalarBytes (elementType bt) else baseBytes in
    if negb (isArray ity) || negb (isArray bt)
    then (None, err "DEFINED requires the item and its base to be both arrays or both scalars" "(24)" d)
    else if (itemN <? 0) || (baseN <? 0)
    then (None, err "DEFINED over an array with a runtime extent is not implemented in this stage" "(24)" d)
    else if (itemElem <=? 0) || (baseElem <=? 0) || negb (itemElem =? baseElem)
    then (None, error loc (txt "a DEFINED array needs its base's element type and size (" ++ desc (elementType ity) ++ txt " vs " ++
                  desc (elementType bt) ++ txt ")") (txt "(24)") [] d)
    else if baseN <? itemN
    then (None, error loc (txt "a DEFINED array must fit into its base (" ++ to_string itemN ++ txt " element(s), base has " ++ to_string baseN ++ txt ")") (txt "(24)") [] d)
    else (Some whole_base, d)
  else if negb sameView
  then (None, error loc (txt "DEFINED requires the item and base to have the same storage size (" ++ desc ity ++ txt " vs " ++ desc bt ++ txt ")") (txt "(24)") [] d)
  else (Some whole_base, d).
Definition overlay_subscripted (bt : Ty) (d : Diags) : option Overlay * Diags :=
  if negb (isArray bt)
  then (None, error loc (txt "DEFINED base '" ++ baseName ++ txt "' is not an array and cannot be subscripted") (txt "(126)") [] d)
  else if hasRuntimeExtent bt then (None, err "DEFINED over an array with a runtime extent is not implemented in this stage" "(126)" d)
  else if negb (length subs =? length (dims bt))%nat
  then (None, error loc (txt "DEFINED base '" ++ baseName ++ txt "' has " ++ to_string (Z.of_nat (length (dims bt))) ++ txt " dimension(s) but takes " ++
                to_string (Z.of_nat (length subs)) ++ txt " subscript(s)") (txt "(126)") [] d)
  else
    let s := scan_subs (dims bt) d in
    let isubs := 0 <? sc_isubs s in
    let '(ok, d) := if sc_ok s && isubs && sc_runtime s
                    then (false, err "DEFINED iSUB defining requires the other base subscripts to be constant" "(134)" (sc_d s)) else (sc_ok s, sc_d s) in
    let '(ok, d) := if ok && isubs && hasPos then (false, err "POSITION cannot be used with iSUB defining" "(24)" d) else (ok, d) in
    if ok && isubs then
      let matches := isArray ity && Ty_eqb (elementType ity) (elementType bt) && forallb id (sc_used s) in
      let d := if matches then d else err "DEFINED iSUB base requires an array of the base's element type whose every subscript appears as an iSUB dummy" "(134)" d in
      if matches then
        let '(fits, d) := fit_slots 0 (zip (sc_slots s) (dims bt)) d in
        (if fits then Some (mkOverlay (sc_slots s) true 0) else None, d)
      else (None, d)
    else if ok && hasPos then
      let itemUnits := if isArray ity then -1 else definedCharUnits ity in
      let elUnits := definedCharUnits (elementType bt) in
      if (itemUnits <? 0) || (elUnits <? 0)
      then (None, err "POSITION requires a scalar CHARACTER item and base element" "(24)" d)
      else
        let '(fit, d) := definedPosFits loc pos itemUnits elUnits (txt "base element") d in
        (if fit then Some (mkOverlay (sc_slots s) false (pos - 1)) else None, d)
    else if ok then
      if Ty_eqb ity (elementType bt) then (Some (mkOverlay (sc_slots s) false 0), d)
      else (None, if isArray ity then err "DEFINED element base requires a scalar item, not an array" "(24)" d
                  else error loc (txt "DEFINED element base requires a scalar item of the base's element type (" ++ desc ity ++ txt " vs " ++
                         desc (elementType bt) ++ txt ")") (txt "(24)") [] d)
    else (None, d).
(** The base, when its name is found, and the procedure that declares the item. *)
Definition define_on (base : option Symbol) (p : nat) (d : Diags) : option Overlay * Diags :=
  match base with
  | None => (None, error loc (txt "DEFINED base '" ++ baseName ++ txt "' is not a variable in this scope") (txt "(24)") [] d)
  | Some b =>
      if negb (bool_decide (skind b = Var))
      then (None, error loc (txt "DEFINED base '" ++ baseName ++ txt "' is not a variable in this scope") (txt "(24)") [] d)
      else if negb (bool_decide (owner b = Some p)) then (None, err "DEFINED across an enclosing procedure is not implemented in this stage" "(24)" d)
      else if is_empty subs && hasPos then overlay_position (sty b) d
      else if is_empty subs then overlay_whole (sty b) d
      else overlay_subscripted (sty b) d
  end.
End item.

(** ** Addresses ([src/irgen.cpp]) *)
(** The flat offset of an element and the stride before the first axis, last axis first. *)
Definition row_major (l : list (Dim * Z)) : Z * Z :=
  fold_right (fun '(d, i) '(flat, stride) => (i64 (flat + i64 (i64 (i - lb d) * stride)), i64 (stride * span d))) (0, 1) l.
Definition clampIndex (i lo hi : Z) : Z := let l := if i <? lo then lo else i in if hi <? l then hi else l.
Section address.
(** Whether subscripts are checked, and the values of the run-time subscripts of the base at this reference. *)
Variables (subChecks : bool) (raw : nat -> Z).
Definition const_index (k : nat) (sl : Slot) (bd : Dim) : Z :=
  if sl_runtime sl then if subChecks then clampIndex (raw k) (lb bd) (ub bd) else raw k else sl_const sl.
Definition definedConstAddr (slots : list Slot) (bdims : list Dim) : Z :=
  fst (row_major (zip bdims (imap (fun k x => const_index k (fst x) (snd x)) (zip slots bdims)))).
Definition isub_index (y : list Z) (sl : Slot) (bd : Dim) : Z :=
  if sl_axis sl <? 0 then sl_const sl
  else
    let raw := i64 (i64 (default 0 (y !! Z.to_nat (sl_axis sl)) * sl_mult sl) + sl_add sl) in
    if subChecks then clampIndex raw (lb bd) (ub bd) else raw.
Definition definedSubElementAddr (slots : list Slot) (bdims : list Dim) (y : list Z) : Z :=
  fst (row_major (zip bdims (map (fun x => isub_index y (fst x) (snd x)) (zip slots bdims)))).
(** The byte, from the start of the base's storage, at which the element of the item with
    the subscripts [y] starts; an element takes [esize] bytes in the base and [isize] in the item. *)
Definition item_offset (ov : Overlay) (ity bt : Ty) (esize isize : Z) (y : list Z) : Z :=
  if ov_isub ov then definedSubElementAddr (ov_slots ov) (dims bt) y * esize
  else (if is_empty (ov_slots ov) then 0 else definedConstAddr (ov_slots ov) (dims bt) * esize) + ov_pos ov +
       fst (row_major (zip (dims ity) y)) * isize.
End address.

(** ** Bounds of the flat offset *)
Definition dim_fine (d : Dim) : Prop := srange 32 (lb d) /\ srange 32 (ub d) /\ ub d - lb d + 1 < 2 ^ 31.
Fixpoint elems (l : list Dim) : Z := match l with [] => 1 | d :: l => (ub d - lb d + 1) * elems l end.
Definition index_ok (l : list Dim) (y : list Z) : Prop := Forall2 (fun d i => lb d <= i <= ub d) l y.
Definition dims_fine (l : list Dim) : Prop := Forall dim_fine l /\ elems l < 2 ^ 62.

Lemma i64_small z : - 2 ^ 63 <= z < 2 ^ 63 -> i64 z = z.
Proof. intros H. by apply swrap_small. Qed.
Lemma i32_small z : - 2 ^ 31 <= z < 2 ^ 31 -> i32 z = z.
Proof. intros H. by apply swrap_small. Qed.
Lemma span_fine d : dim_fine d -> lb d <= ub d -> span d = ub d - lb d + 1.
Proof. intros (_ & _ & H) Hle. unfold span. rewrite (i32_small (ub d - lb d)) by lia. apply i32_small. lia. Qed.
Lemma elems_pos l y : index_ok l y -> 1 <= elems l.
Proof. intros H. induction H as [|d i l y Hd _ IH]; cbn; [lia|]. nia. Qed.
Lemma row_major_spec l y : Forall dim_fine l -> elems l < 2 ^ 62 -> index_ok l y ->
  exists f, row_major (zip l y) = (f, elems l) /\ 0 <= f < elems l.
Proof.
  intros Hf Hb Hi. induction Hi as [|d i l y Hd Hi IH]; cbn; [by exists 0|].
  apply Forall_cons in Hf as [Hdf Hf]. pose proof (elems_pos l y Hi) as Hp. cbn in Hb.
  assert (elems l < 2 ^ 62) as Hl by nia. destruct (IH Hf Hl) as (f & E & Hfl). unfold row_major in E. cbn in E. rewrite E.
  rewrite span_fine by (auto; lia).
  destruct Hdf as (H1 & H2 & H3). unfold srange in *.
  assert (0 <= (i - lb d) * elems l <= (ub d - lb d) * elems l) as Hm by nia.
  rewrite (i64_small (i - lb d)) by lia. rewrite (i64_small ((i - lb d) * elems l)) by nia.
  rewrite (i64_small (f + _)) by nia. rewrite (i64_small (elems l * _)) by nia.
  eexists. split; [f_equal; lia|]. nia.
Qed.
Lemma count_dims_none l n : existsb no_extent l = true -> count_dims n l = -1.
Proof. revert n. induction l as [|d l IH]; intros n; cbn; [done|]. destruct (no_extent d); [done|apply IH]. Qed.
Lemma no_extent_le d : no_extent d = false -> lb d <= ub d.
Proof. unfold no_extent. rewrite !orb_false_iff. intros [_ H]. by apply Z.ltb_ge in H. Qed.
Lemma elems_extent l : existsb no_extent l = false -> 1 <= elems l.
Proof.
  induction l as [|d l IH]; cbn; [lia|]. rewrite orb_false_iff. intros [Hd%no_extent_le Hl%IH]. nia.
Qed.
Lemma count_dims_some l : forall n, Forall dim_fine l -> existsb no_extent l = false -> 0 <= n -> n * elems l < 2 ^ 62 -> count_dims n l = n * elems l.
Proof.
  induction l as [|d l IH]; intros n Hf He Hn Hb; cbn in *; [lia|].
  apply Forall_cons in Hf as [Hd Hf]. apply orb_false_iff in He as [Ed Hl]. rewrite Ed. pose proof (no_extent_le d Ed).
  pose proof (elems_extent l Hl). rewrite span_fine by done. rewrite i64_small by nia. rewrite IH; [lia|done|done|nia|nia].
Qed.
Lemma fixedElemCount_spec t : dims_fine (dims t) -> 0 <= fixedElemCount t -> fixedElemCount t = elems (dims t).
Proof.
  intros [Hf Hb] H. unfold fixedElemCount in *. destruct (existsb no_extent (dims t)) eqn:E; [rewrite count_dims_none in H by done; lia|].
  rewrite count_dims_some by (auto; lia). lia.
Qed.

(** ** Storage *)
Section storage.
(** The bytes of a scalar whose size the target decides. *)
Variable opaque : Ty -> Z.
Hypothesis opaque_eq : forall t u, Ty_eqb t u = true -> opaque t = opaque u.
Hypothesis opaque_nonneg : forall t, 0 <= opaque t.
(** The bytes of one element, and of the whole storage. *)
Definition esize (t : Ty) : Z :=
  let e := elementType t in if 0 <=? definedScalarBytes e then definedScalarBytes e else opaque e.
Definition storage (t : Ty) : Z := elems (dims t) * esize t.

Lemma esize_nonneg t : 0 <= esize t.
Proof using opaque_nonneg. unfold esize. destruct (Z.leb_spec 0 (definedScalarBytes (elementType t))); [done|apply opaque_nonneg]. Qed.
Lemma elementType_scalar t : isArray t = false -> elementType t = t.
Proof. unfold isArray, elementType, set_dims. rewrite negb_false_iff, bool_decide_eq_true. intros E. destruct t; cbn in *. by subst. Qed.
Lemma definedScalarBytes_eq t u : Ty_eqb t u = true -> definedScalarBytes t = definedScalarBytes u.
Proof.
  intros H. destruct (relevant_proj t u H) as (E1 & E2 & E3 & E4 & E5 & E6 & E7 & E8 & E9 & E10 & E11).
  unfold definedScalarBytes, isArray, isStruct, intBits. by rewrite E1, E2, E4, E5, E6, E7, E10.
Qed.
Lemma esize_eq t u : Ty_eqb (elementType t) (elementType u) = true -> esize t = esize u.
Proof using opaque_eq. intros H. unfold esize. by rewrite (definedScalarBytes_eq _ _ H), (opaque_eq _ _ H). Qed.
Lemma elementType_twice t : elementType (elementType t) = elementType t.
Proof. reflexivity. Qed.
Lemma storage_scalar t : isArray t = false -> storage t = esize t.
Proof. unfold isArray, storage. rewrite negb_false_iff, bool_decide_eq_true. intros ->. cbn. lia. Qed.

(** The byte range of an element lies in the storage of the base. *)
Definition inside_base (off n : Z) (bt : Ty) : Prop := 0 <= off /\ off + n <= storage bt.
Lemma flat_inside bt f n pos : 0 <= f < elems (dims bt) -> 0 <= pos -> pos + n <= esize bt -> inside_base (f * esize bt + pos) n bt.
Proof using opaque_nonneg.
  intros Hf Hp Hn. pose proof (esize_nonneg bt). unfold inside_base, storage. split; [nia|].
  assert ((f + 1) * esize bt <= elems (dims bt) * esize bt) by nia. nia.
Qed.
End storage.

(** ** The subscripts that were read *)
Section scanned.
Variable ity : Ty.
Abbreviation scan_sub loc := (scan_sub loc ity).
(** A slot of an accepted overlay: an axis of the item, a subscript of each reference, or a constant within the axis. *)
Definition slot_good (sl : Slot) (x : DefinedSub * Dim) : Prop :=
  (0 <= sl_axis sl < Z.of_nat (length (dims ity)) /\ sl_runtime sl = false /\ sl_mult sl = mult (fst x) /\ sl_add sl = add (fst x)) \/
  (sl_axis sl = -1 /\ sl_runtime sl = true) \/
  (sl_axis sl = -1 /\ sl_runtime sl = false /\ lb (snd x) <= sl_const sl <= ub (snd x)).
Record scanned (s s' : Scan) (l : list (DefinedSub * Dim)) : Prop := {
  sn_mute : mute_ (sc_d s') = 0;
  sn_errs : nerr_ (sc_d s) <= nerr_ (sc_d s');
  sn_ok : sc_ok s' = true -> sc_ok s = true;
  sn_isubs : sc_isubs s <= sc_isubs s';
  sn_runtime : sc_runtime s' = false -> sc_runtime s = false;
  sn_slots : exists new, sc_slots s' = sc_slots s ++ new /\ length new = length l /\
    (sc_ok s' = true -> nerr_ (sc_d s') = nerr_ (sc_d s) -> Forall2 slot_good new l) /\
    (sc_isubs s' = sc_isubs s -> Forall (fun sl => sl_axis sl = -1) new) /\
    (sc_runtime s' = false -> Forall (fun sl => sl_runtime sl = false) new) }.
Lemma error_counts loc msg rule d : mute_ d = 0 -> mute_ (error loc msg rule [] d) = 0 /\ nerr_ (error loc msg rule [] d) = nerr_ d + 1.
Proof. intros H. unfold error, muted. rewrite H. done. Qed.
Ltac count_errors Hm := match goal with
  | |- context [error ?l ?m ?r [] ?d] => destruct (error_counts l m r d Hm) as [Hm' Hn']; set (d' := error l m r [] d) in *; clearbody d'
  end.
Lemma scanned_one loc s x : mute_ (sc_d s) = 0 -> scanned s (scan_sub loc s x) [x].
Proof.
  intros Hm. destruct x as [ds bd]. unfold Overlay.scan_sub, err. destruct (isub ds).
  - destruct ((axis ds <? 0) || (Z.of_nat (length (dims ity)) <=? axis ds)) eqn:Ea; cbn.
    + count_errors Hm. split; cbn; try done; try lia. exists [constant_slot 0]. split; [done|]. split; [done|]. split; [done|]. split; by repeat constructor.
    + rewrite orb_false_iff in Ea. destruct Ea as [A1%Z.ltb_ge A2%Z.leb_gt]. split; cbn; try done; try lia.
      eexists [_]. split; [reflexivity|]. split; [done|]. split; [|split; [lia|by repeat constructor]].
      intros _ _. constructor; [left; cbn; auto with lia|constructor].
  - destruct (ds_expr ds) as [e|]; cbn.
    + destruct (bool_decide (Expr.kind e = Expr.IntLit)); cbn.
      * destruct ((Expr.ival e <? lb bd) || (ub bd <? Expr.ival e)) eqn:Ec.
        -- count_errors Hm. split; cbn; try done; try lia. exists [constant_slot (Expr.ival e)]. split; [done|]. split; [done|].
           split; [intros _ H; lia|]. split; by repeat constructor.
        -- rewrite orb_false_iff in Ec. destruct Ec as [C1%Z.ltb_ge C2%Z.ltb_ge]. split; cbn; try done; try lia.
           exists [constant_slot (Expr.ival e)]. split; [done|]. split; [done|]. split; [|split; by repeat constructor].
           intros _ _. constructor; [right; right; cbn; auto with lia|constructor].
      * destruct (negb (isVoid (Expr.ty e)) && negb (isIntegerSubscriptType (Expr.ty e))) eqn:Eb; cbn.
        -- count_errors Hm. rewrite andb_false_r. split; cbn; try done; try lia. eexists [_]. split; [reflexivity|]. split; [done|].
           split; [done|]. split; [by repeat constructor|done].
        -- rewrite andb_true_r. split; cbn; try done; try lia. eexists [_]. split; [reflexivity|]. split; [done|].
           split; [|split; [by repeat constructor|done]]. intros _ _. constructor; [right; left; done|constructor].
    + count_errors Hm. split; cbn; try done; try lia. exists [constant_slot 0]. split; [done|]. split; [done|]. split; [done|]. split; by repeat constructor.
Qed.
Lemma scanned_all loc l : forall s, mute_ (sc_d s) = 0 -> scanned s (fold_left (scan_sub loc) l s) l.
Proof.
  induction l as [|x l IH]; intros s Hm; cbn.
  - split; try done; try lia. exists []. rewrite app_nil_r. repeat split; constructor.
  - pose proof (scanned_one loc s x Hm) as [M1 E1 O1 I1 R1 (n1 & S1 & L1 & G1 & A1 & T1)]. set (s1 := scan_sub loc s x) in *.
    destruct (IH s1 M1) as [M2 E2 O2 I2 R2 (n2 & S2 & L2 & G2 & A2 & T2)]. set (s2 := fold_left (scan_sub loc) l s1) in *.
    split; auto; try lia. exists (n1 ++ n2). rewrite S2, S1, app_assoc. split; [done|]. split; [rewrite length_app; cbn in *; lia|].
    split; [|split].
    + intros Hok He. change (x :: l) with ([x] ++ l). apply Forall2_app; [apply G1; [auto|lia]|apply G2; [done|lia]].
    + intros Hi. apply Forall_app. split; [apply A1; lia|apply A2; lia].
    + intros Hr. apply Forall_app. split; auto.
Qed.
End scanned.

(** ** Accepted overlays stay inside *)
Section accepted.
Variable opaque : Ty -> Z.
Hypothesis opaque_eq : forall t u, Ty_eqb t u = true -> opaque t = opaque u.
Hypothesis opaque_nonneg : forall t, 0 <= opaque t.
Variables (baseName : text) (loc : SourceLoc) (ity bt : Ty) (subs : list DefinedSub) (hasPos : bool) (pos : Z).
Variables (subChecks : bool) (raw : nat -> Z) (y : list Z).
Abbreviation size := (esize opaque).
Abbreviation within := (inside_base opaque).
(** Numbers that leave room for the arithmetic of the checks. *)
Record fine : Prop := {
  fn_item : dims_fine (dims ity);
  fn_base : dims_fine (dims bt);
  fn_ilen : 0 <= len ity < 2 ^ 31;
  fn_blen : 0 <= len bt < 2 ^ 31;
  fn_bytes : elems (dims bt) * len bt < 2 ^ 62;
  fn_pos : 0 <= pos < 2 ^ 62;
  fn_subs : Forall (fun ds => Z.abs (mult ds) < 2 ^ 31 /\ Z.abs (add ds) < 2 ^ 62) subs }.
Hypothesis Hfine : fine.
Hypothesis Hextent : Forall (fun d => lb d <= ub d) (dims bt).
Hypothesis Hy : index_ok (dims ity) y.
(** The run-time subscripts are checked, or in bounds as the program promises. *)
Hypothesis Hraw : forall k bd, dims bt !! k = Some bd -> subChecks = true \/ lb bd <= raw k <= ub bd.

Lemma no_dims t : isArray t = false -> dims t = [].
Proof. unfold isArray. by rewrite negb_false_iff, bool_decide_eq_true. Qed.
Lemma char_size t : isChar t = true -> varying t = false -> starLen t = false -> 0 <= len t -> size t = len t.
Proof using Type.
  intros Hc Hv Hs Hl. unfold esize, definedScalarBytes. assert (isArray (elementType t) = false) as -> by reflexivity.
  assert (isStruct (elementType t) = false) as ->.
  { unfold isChar, isStruct in *. apply bool_decide_eq_true in Hc. apply bool_decide_eq_false. cbn. rewrite Hc. done. }
  cbn. rewrite Hv, Hs. cbn. unfold isChar in Hc. apply bool_decide_eq_true in Hc. rewrite Hc. destruct (Z.leb_spec 0 (len t)); [done|lia].
Qed.
Lemma char_units t : 0 <= definedCharUnits t -> dims_fine (dims t) -> 0 <= len t < 2 ^ 31 -> elems (dims t) * len t < 2 ^ 62 ->
  definedCharUnits t = storage opaque t /\ size t = len t.
Proof using Type.
  intros Hu [Hf Hb] Hl Hbl. unfold definedCharUnits in *. destruct (isChar t) eqn:Ec; cbn in Hu |- *; [|lia].
  destruct (varying t) eqn:Ev; cbn in Hu |- *; [lia|]. destruct (starLen t) eqn:Es; cbn in Hu |- *; [lia|].
  destruct (existsb no_extent (dims t)) eqn:Ee; [lia|]. pose proof (elems_extent _ Ee).
  rewrite count_dims_some by (auto; lia). unfold storage. rewrite char_size by (auto; lia). rewrite i64_small by nia. split; lia.
Qed.
Lemma pos_fits loc' u b what d d' : definedPosFits loc' pos u b what d = (true, d') -> 0 <= u < 2 ^ 62 -> pos - 1 + u <= b /\ 0 <= pos - 1.
Proof using Hfine.
  pose proof (fn_pos Hfine) as Hp. unfold definedPosFits. intros H Hu. destruct (Z.ltb_spec pos 1); [discriminate H|].
  rewrite (i64_small (pos - 1)) in H by lia. rewrite i64_small in H by lia. destruct (Z.ltb_spec b (pos - 1 + u)); [discriminate H|]. lia.
Qed.

Lemma position_inside d d' ov : overlay_position loc ity pos bt d = (Some ov, d') ->
  within (item_offset subChecks raw ov ity bt (size bt) (size ity) y) (size ity) bt.
Proof using Hfine Hy.
  unfold overlay_position. destruct (isArray ity) eqn:Ea; [done|]. cbn [Z.ltb].
  destruct ((definedCharUnits ity <? 0) || (definedCharUnits bt <? 0)) eqn:Eu; [done|]. rewrite orb_false_iff in Eu. destruct Eu as [U1%Z.ltb_ge U2%Z.ltb_ge].
  destruct (definedPosFits _ _ _ _ _ _) as [[] d1] eqn:Ep; [|done]. intros [= <- <-].
  pose proof (no_dims _ Ea) as Ed. pose proof Hy as Hy'. rewrite Ed in Hy'. apply Forall2_nil_inv_l in Hy' as Ey.
  destruct Hfine as [F1 F2 F3 F4 F5 F6 F7].
  destruct (char_units ity U1 F1 F3 ltac:(rewrite Ed; cbn; lia)) as [V1 W1], (char_units bt U2 F2 F4 F5) as [V2 W2].
  rewrite V2 in Ep. apply pos_fits in Ep; [|rewrite V1; unfold storage; rewrite Ed; cbn; lia].
  rewrite V1 in Ep. unfold storage in Ep at 1. rewrite Ed in Ep. cbn in Ep.
  unfold item_offset. rewrite Ed, Ey. cbn. split; lia.
Qed.
Lemma whole_inside d d' ov : overlay_whole loc ity bt d = (Some ov, d') ->
  within (item_offset subChecks raw ov ity bt (size bt) (size ity) y) (size ity) bt.
Proof using Hfine Hy opaque_eq.
  unfold overlay_whole. destruct (isStruct ity || isStruct bt); [done|]. destruct (isArray ity || isArray bt) eqn:Ea.
  - destruct (isArray ity) eqn:Ei; [|done]. destruct (isArray bt) eqn:Eb; [|done]. cbn [negb orb].
    destruct ((fixedElemCount ity <? 0) || (fixedElemCount bt <? 0)) eqn:Eu; [done|]. rewrite orb_false_iff in Eu. destruct Eu as [U1%Z.ltb_ge U2%Z.ltb_ge].
    destruct (_ || _ || _) eqn:Ee; [done|]. rewrite !orb_false_iff, negb_false_iff, Z.eqb_eq in Ee. destruct Ee as [[E1%Z.leb_gt E2%Z.leb_gt] E3].
    destruct (Z.ltb_spec (fixedElemCount bt) (fixedElemCount ity)) as [|Hle]; [done|]. intros [= <- <-].
    destruct Hfine as [F1 F2 _ _ _ _ _]. rewrite (fixedElemCount_spec _ F1 U1), (fixedElemCount_spec _ F2 U2) in Hle.
    destruct F1 as [G1 G2]. destruct (row_major_spec _ _ G1 G2 Hy) as (f & Ef & Hf).
    unfold item_offset. cbn [ov_isub whole_base ov_slots is_empty ov_pos]. rewrite Ef. cbn [fst]. unfold inside_base, storage.
    assert (size ity = size bt) as ->. { unfold esize. rewrite E3. destruct (Z.leb_spec 0 (definedScalarBytes (elementType bt))); [done|lia]. }
    assert (0 < size bt). { unfold esize. destruct (Z.leb_spec 0 (definedScalarBytes (elementType bt))); lia. }
    split; nia.
  - apply orb_false_iff in Ea as [Ei Eb]. pose proof (no_dims _ Ei) as Ed. pose proof (no_dims _ Eb) as Ed'.
    pose proof Hy as Hy'. rewrite Ed in Hy'. apply Forall2_nil_inv_l in Hy' as Ey.
    destruct (negb _) eqn:Ev; [done|]. intros [= <- <-]. apply negb_false_iff, orb_true_iff in Ev.
    unfold item_offset. rewrite Ed, Ey. cbn. unfold inside_base, storage. rewrite Ed'. cbn.
    assert (size ity = size bt) as ->; [|lia]. destruct Ev as [Ev|Ev].
    + apply esize_eq; [exact opaque_eq|]. by rewrite !elementType_scalar.
    + rewrite andb_true_iff, Z.ltb_lt, Z.eqb_eq in Ev. destruct Ev as [E1 E2]. unfold esize. rewrite !elementType_scalar by done. rewrite <- E2.
      destruct (Z.leb_spec 0 (definedScalarBytes ity)); [done|lia].
Qed.

(** The subscripts of the base that an access makes. *)
Lemma clamp_inside i d : lb d <= ub d -> lb d <= clampIndex i (lb d) (ub d) <= ub d.
Proof. intros H. unfold clampIndex. destruct (Z.ltb_spec i (lb d)); [destruct (Z.ltb_spec (ub d) (lb d))|destruct (Z.ltb_spec (ub d) i)]; lia. Qed.
Lemma clampIndex_id i d : lb d <= i <= ub d -> clampIndex i (lb d) (ub d) = i.
Proof. intros H. unfold clampIndex. destruct (Z.ltb_spec i (lb d)); [lia|]. destruct (Z.ltb_spec (ub d) i); [lia|done]. Qed.
Lemma const_index_inside k sl ds bd : dims bt !! k = Some bd -> sl_axis sl = -1 -> slot_good ity sl (ds, bd) ->
  lb bd <= const_index subChecks raw k sl bd <= ub bd.
Proof using Hextent Hraw.
  intros Hk Ha Hg. unfold const_index. pose proof (Forall_lookup_1 _ _ _ _ Hextent Hk) as Hd. cbn in Hd.
  destruct Hg as [(H & _)|[(_ & ->)|(_ & -> & H)]]; [lia| |exact H].
  destruct (Hraw k bd Hk) as [-> |H]; [by apply clamp_inside|]. destruct subChecks; [by apply clamp_inside|done].
Qed.
Lemma affine_inside m a l u i : Z.abs m < 2 ^ 31 -> Z.abs a < 2 ^ 62 -> - 2 ^ 31 <= l -> u < 2 ^ 31 -> l <= i <= u ->
  i64 (i64 (i * m) + a) = i * m + a /\ Z.min (i64 (i64 (m * l) + a)) (i64 (i64 (m * u) + a)) <= i * m + a <= Z.max (i64 (i64 (m * l) + a)) (i64 (i64 (m * u) + a)).
Proof.
  intros Hm Ha Hl Hu Hi. assert (forall j, l <= j <= u -> - 2 ^ 62 < j * m < 2 ^ 62) as Hj by (intros j Hj; nia).
  rewrite !(Z.mul_comm m). pose proof (Hj i Hi). pose proof (Hj l ltac:(lia)). pose proof (Hj u ltac:(lia)).
  rewrite !(i64_small (_ * m)) by lia. rewrite !i64_small by lia. split; [done|].
  destruct (Z.le_ge_cases 0 m); split; nia.
Qed.
Lemma isub_index_inside sl ds bd : slot_good ity sl (ds, bd) -> sl_runtime sl = false -> ds ∈ subs -> lb bd <= ub bd ->
  (0 <= sl_axis sl -> slot_fits ity sl bd = true) -> lb bd <= isub_index subChecks y sl bd <= ub bd.
Proof using Hfine Hraw Hy.
  intros Hg Hr Hds Hbd Hfit. unfold isub_index. destruct (Z.ltb_spec (sl_axis sl) 0) as [Ha|Ha].
  - destruct Hg as [(H & _)|[(_ & H)|(_ & _ & H)]]; [lia|congruence|exact H].
  - destruct Hg as [(Hax & _ & Em & Eadd)|[(H & _)|(H & _)]]; [|lia..]. cbn [fst] in *.
    pose proof (fn_subs Hfine) as Hs. rewrite Forall_forall in Hs. destruct (Hs ds Hds) as [Hm Hadd]. rewrite <- Em in Hm. rewrite <- Eadd in Hadd.
    destruct (lookup_lt_is_Some_2 (dims ity) (Z.to_nat (sl_axis sl)) ltac:(lia)) as [yd Hyd].
    destruct (Forall2_lookup_l _ _ _ _ _ Hy Hyd) as (i & Hi & Hin). rewrite Hi. cbn [default].
    pose proof (Forall_lookup_1 _ _ _ _ (proj1 (fn_item Hfine)) Hyd) as (R1 & R2 & _). unfold srange in R1, R2.
    specialize (Hfit Ha). unfold slot_fits, slot_dim in Hfit. rewrite Hyd in Hfit. cbn [default id from_option] in Hfit. cbv zeta in Hfit.
    rewrite andb_true_iff, !Z.leb_le in Hfit. destruct (affine_inside (sl_mult sl) (sl_add sl) (lb yd) (ub yd) i Hm Hadd ltac:(lia) ltac:(lia) Hin) as [E Hr'].
    cbn [id from_option]. rewrite E. assert (lb bd <= i * sl_mult sl + sl_add sl <= ub bd) as Hin' by lia.
    destruct subChecks; [by rewrite clampIndex_id|done].
Qed.
Lemma fit_slots_all l : forall kk d d', fit_slots loc ity kk l d = (true, d') -> forall sl bd, (sl, bd) ∈ l -> 0 <= sl_axis sl -> slot_fits ity sl bd = true.
Proof.
  induction l as [|[sl bd] l IH]; intros kk d d' H sl' bd' Hin Ha; cbn in *; [by apply elem_of_nil in Hin|].
  destruct ((sl_axis sl <? 0) || slot_fits ity sl bd) eqn:E; [|discriminate H].
  apply elem_of_cons in Hin as [[= -> ->]|Hin]; [|by eapply IH]. apply orb_true_iff in E as [E|E]; [|done]. apply Z.ltb_lt in E. lia.
Qed.
Lemma index_zip {A} (f : nat -> A -> Dim -> Z) (sls : list A) (l : list Dim) : length sls = length l ->
  (forall k sl bd, sls !! k = Some sl -> l !! k = Some bd -> lb bd <= f k sl bd <= ub bd) ->
  index_ok l (imap (fun k x => f k (fst x) (snd x)) (zip sls l)).
Proof.
  intros Hl H. apply Forall2_same_length_lookup_2; [rewrite length_imap, length_zip; lia|].
  intros k bd i Hk Hi. rewrite list_lookup_imap in Hi. destruct (zip sls l !! k) as [[sl bd']|] eqn:Ez; [|done].
  cbn in Hi. injection Hi as <-. apply lookup_zip_Some in Ez as [H1 H2]. cbn in *. rewrite Hk in H2. injection H2 as <-. by apply H.
Qed.

Lemma fit_slots_d l : forall kk d d', fit_slots loc ity kk l d = (true, d') -> d' = d.
Proof.
  induction l as [|[sl bd] l IH]; intros kk d d' H; cbn in *; [by injection H|].
  destruct (_ || _); [by eapply IH|discriminate H].
Qed.
Lemma pos_fits_d loc' u b what d d' : definedPosFits loc' pos u b what d = (true, d') -> d' = d.
Proof. unfold definedPosFits. destruct (pos <? 1); [done|]. destruct (b <? _); [done|]. by intros [= <-]. Qed.
Lemma imap_map {A B} (g : A -> B) l : imap (fun _ => g) l = map g l.
Proof. induction l as [|a l IH]; [done|]. rewrite imap_cons. cbn. f_equal. apply IH. Qed.
Lemma lookup_zip2 {A B} (l : list A) (l' : list B) k a b : l !! k = Some a -> l' !! k = Some b -> zip l l' !! k = Some (a, b).
Proof. intros H1 H2. apply lookup_zip_Some. done. Qed.
Lemma const_inside sls n p : length sls = length (dims bt) -> Forall2 (slot_good ity) sls (zip subs (dims bt)) -> Forall (fun sl => sl_axis sl = -1) sls ->
  length subs = length (dims bt) -> 0 <= p -> p + n <= size bt ->
  within (definedConstAddr subChecks raw sls (dims bt) * size bt + p) n bt.
Proof using Hfine Hextent Hraw opaque_nonneg.
  intros Hl Hg Ha Hs Hp Hn. destruct (fn_base Hfine) as [F1 F2].
  assert (index_ok (dims bt) (imap (fun k x => const_index subChecks raw k (fst x) (snd x)) (zip sls (dims bt)))) as Hi.
  { apply index_zip; [done|]. intros k sl bd Hsl Hbd. destruct (lookup_lt_is_Some_2 subs k) as [ds Hds].
    { rewrite Hs. by apply lookup_lt_Some in Hbd. }
    apply (const_index_inside k sl ds bd Hbd); [exact (Forall_lookup_1 _ _ _ _ Ha Hsl)|].
    destruct (Forall2_lookup_l _ _ _ _ _ Hg Hsl) as (x & Hx & Hgx). rewrite (lookup_zip2 _ _ _ _ _ Hds Hbd) in Hx. by injection Hx as <-. }
  destruct (row_major_spec _ _ F1 F2 Hi) as (f & Ef & Hf). unfold definedConstAddr. rewrite Ef. by apply flat_inside.
Qed.
Lemma subscripted_inside d d' ov : overlay_subscripted baseName loc ity subs hasPos pos bt d = (Some ov, d') -> mute_ d = 0 -> nerr_ d' = nerr_ d ->
  within (item_offset subChecks raw ov ity bt (size bt) (size ity) y) (size ity) bt.
Proof using All.
  unfold overlay_subscripted. intros H Hm He. destruct (isArray bt) eqn:Eb; [|discriminate H]. cbn [negb] in H.
  destruct (hasRuntimeExtent bt); [discriminate H|]. destruct (Nat.eqb_spec (length subs) (length (dims bt))) as [El|]; [|discriminate H]. cbn [negb] in H.
  unfold scan_subs in H.
  pose proof (scanned_all ity loc (zip subs (dims bt)) (mkScan [] (replicate (length (dims ity)) false) 0 true false d) Hm) as [_ _ _ I1 _ (sls & S1 & L1 & G1 & A1 & T1)].
  set (s := fold_left _ _ _) in *. cbn in S1, G1, A1, I1. rewrite length_zip in L1.
  destruct (sc_ok s) eqn:Ok; [|discriminate H]. cbn [andb] in H.
  assert (length sls = length (dims bt)) as Ls by lia.
  destruct (Z.ltb_spec 0 (sc_isubs s)) as [Hi|Hi].
  - destruct (sc_runtime s) eqn:Er; [discriminate H|]. cbn [andb] in H. destruct hasPos; [discriminate H|]. cbn [andb] in H.
    destruct (isArray ity && Ty_eqb (elementType ity) (elementType bt) && forallb id (sc_used s)) eqn:Ematch; [|discriminate H].
    destruct (fit_slots loc ity 0 (zip (sc_slots s) (dims bt)) (sc_d s)) as [[] d1] eqn:Ef; [|discriminate H]. injection H as <- <-.
    pose proof (fit_slots_d _ _ _ _ Ef) as ->. rewrite !andb_true_iff in Ematch. destruct Ematch as [[_ Et] _]. rewrite S1 in *.
    specialize (G1 eq_refl He). specialize (T1 eq_refl). destruct (fn_base Hfine) as [F1 F2].
    assert (index_ok (dims bt) (map (fun x => isub_index subChecks y (fst x) (snd x)) (zip sls (dims bt)))) as Hix.
    { rewrite <- imap_map.
      apply (index_zip (fun _ => isub_index subChecks y)); [done|]. intros k sl bd Hsl Hbd. destruct (lookup_lt_is_Some_2 subs k) as [ds Hds].
      { rewrite El. by apply lookup_lt_Some in Hbd. }
      apply (isub_index_inside sl ds bd); [|exact (Forall_lookup_1 _ _ _ _ T1 Hsl)|by eapply list_elem_of_lookup_2|exact (Forall_lookup_1 _ _ _ _ Hextent Hbd)|].
      - destruct (Forall2_lookup_l _ _ _ _ _ G1 Hsl) as (x & Hx & Hgx). rewrite (lookup_zip2 _ _ _ _ _ Hds Hbd) in Hx. by injection Hx as <-.
      - intros Ha. eapply fit_slots_all; [exact Ef| |exact Ha]. eapply list_elem_of_lookup_2. by apply lookup_zip2. }
    destruct (row_major_spec _ _ F1 F2 Hix) as (f & Eff & Hf). unfold item_offset, definedSubElementAddr. cbn [ov_isub ov_slots]. rewrite Eff. cbn [fst].
    rewrite (esize_eq opaque opaque_eq ity bt Et). rewrite <- (Z.add_0_r (f * _)). apply flat_inside; [exact opaque_nonneg|done|lia|lia].
  - rewrite S1 in H. assert (Forall (fun sl => sl_axis sl = -1) sls) as Ha by (apply A1; lia).
    assert (sls <> []) as Hne. { intros ->. unfold isArray in Eb. rewrite negb_true_iff, bool_decide_eq_false in Eb. cbn in Ls. by destruct (dims bt). }
    assert (forall o, is_empty (ov_slots o) = is_empty sls -> is_empty (ov_slots o) = false) as Hem by (intros o ->; by destruct sls).
    destruct hasPos; cbn [andb] in H.
    + destruct (isArray ity) eqn:Ea; [discriminate H|].
      destruct ((definedCharUnits ity <? 0) || (definedCharUnits (elementType bt) <? 0)) eqn:Eu; [discriminate H|].
      rewrite orb_false_iff in Eu. destruct Eu as [U1%Z.ltb_ge U2%Z.ltb_ge].
      destruct (definedPosFits _ _ _ _ _ _) as [[] d1] eqn:Ep; [|discriminate H]. injection H as <- <-.
      pose proof (pos_fits_d _ _ _ _ _ _ Ep) as ->. specialize (G1 eq_refl He).
      pose proof (no_dims _ Ea) as Ed. pose proof Hy as Hy'. rewrite Ed in Hy'. apply Forall2_nil_inv_l in Hy' as Ey.
      destruct Hfine as [F1 F2 F3 F4 F5 F6 F7].
      destruct (char_units ity U1 F1 F3 ltac:(rewrite Ed; cbn; lia)) as [V1 W1].
      destruct (char_units (elementType bt) U2 ltac:(by split; [constructor|]) F4 ltac:(cbn; lia)) as [V2 W2].
      assert (storage opaque ity = len ity) as V1' by (unfold storage; rewrite Ed, W1; cbn; lia).
      assert (storage opaque (elementType bt) = size bt) as V2'.
      { unfold storage. cbn [dims elementType set_dims elems]. rewrite Z.mul_1_l. done. }
      rewrite V2, V2' in Ep. apply pos_fits in Ep; [|rewrite V1, V1'; lia]. rewrite V1, V1' in Ep.
      unfold item_offset. cbn [ov_isub ov_slots ov_pos]. rewrite (Hem (mkOverlay sls false 0) eq_refl : is_empty sls = false). rewrite Ed, Ey. cbn [zip row_major fold_right fst].
      rewrite Z.mul_0_l, Z.add_0_r. apply const_inside; [done..|lia|lia].
    + destruct (Ty_eqb ity (elementType bt)) eqn:Et; [|discriminate H]. injection H as <- <-. specialize (G1 eq_refl He).
      destruct (relevant_proj _ _ Et) as (_ & _ & _ & _ & _ & _ & _ & _ & _ & Ed & _). cbn in Ed.
      pose proof Hy as Hy'. rewrite Ed in Hy'. apply Forall2_nil_inv_l in Hy' as Ey.
      assert (size ity = size bt) as Es.
      { apply esize_eq; [exact opaque_eq|]. rewrite elementType_scalar; [done|]. unfold isArray. by rewrite Ed. }
      unfold item_offset. cbn [ov_isub ov_slots ov_pos]. rewrite (Hem (mkOverlay sls false 0) eq_refl : is_empty sls = false). rewrite Ed, Ey. cbn [zip row_major fold_right fst].
      rewrite Z.mul_0_l, Z.add_0_r, Es. apply const_inside; [done..|lia|lia].
Qed.
End accepted.


Definition based_on (t : Ty) : Symbol := mkSymbol Var false false false false false None false None None (Some 0%nat) [] t false None false None not_lowered no_more.
Definition axis_of (l u : Z) : Dim := mkDim l u false false false.
(** [DCL X(10,3) CHAR(4), Y(4) CHAR(4) DEFINED X(2*1SUB+1, 3)]. *)
Definition ten_three : Ty := set_dims [axis_of 1 10; axis_of 1 3] (chr 4 false).
Definition four : Ty := set_dims [axis_of 1 4] (chr 4 false).
Definition odd_rows : list DefinedSub :=
  [mkDefinedSub true 0 None 2 1; mkDefinedSub false (-1) (Some (Expr.intLit 3)) 1 0].

(** What the checks of DEFINED items let through.  POSITION(9223372036854775807)
    overflows the sum that is compared, so a CHARACTER(2) item is accepted over a
    CHARACTER(5) base, 9223372036854775806 bytes after its start; four axes of 65536
    elements multiply to zero elements, so that array is accepted over one of a single
    element, and its second element already lies outside it; and of [X(3,3)], [Y(3) DEFINED
    X(1SUB,1SUB)] and [Z(3) DEFINED Y], where [Y] is the diagonal of [X], the element
    [Y(2)] is the fifth of [X] while [Z(2)], which should be the same, is the second. *)
Theorem defined_departs :
  (let two := chr 2 false in let five := based_on (chr 5 false) in
   exists ov, define_on (txt "A") (mkLoc 1 1) two [] true 9223372036854775807 (Some five) 0 (Diags_new []) = (Some ov, Diags_new []) /\
     item_offset true (fun _ => 0) ov two (sty five) 5 2 [] = 9223372036854775806) /\
  (let huge := set_dims (replicate 4 (axis_of 1 65536)) (fixedBin 15 0) in let one := based_on (set_dims [axis_of 1 1] (fixedBin 15 0)) in
   exists ov, define_on (txt "A") (mkLoc 1 1) huge [] false 0 (Some one) 0 (Diags_new []) = (Some ov, Diags_new []) /\
     item_offset true (fun _ => 0) ov huge (sty one) 2 2 [1; 1; 1; 2] = 2 /\ elems (dims (sty one)) * 2 = 2) /\
  (let x := based_on (set_dims [axis_of 1 3; axis_of 1 3] (chr 1 false)) in let y := based_on (set_dims [axis_of 1 3] (chr 1 false)) in
   exists oy oz, define_on (txt "X") (mkLoc 1 1) (sty y) [mkDefinedSub true 0 None 1 0; mkDefinedSub true 0 None 1 0] false 0 (Some x) 0 (Diags_new []) = (Some oy, Diags_new []) /\
     define_on (txt "Y") (mkLoc 1 1) (sty y) [] false 0 (Some y) 0 (Diags_new []) = (Some oz, Diags_new []) /\
     item_offset true (fun _ => 0) oy (sty y) (sty x) 1 1 [2] = 4 /\ item_offset true (fun _ => 0) oz (sty y) (sty y) 1 1 [2] = 1 /\
     ov_isub oz = false).
Proof. repeat split; repeat eexists; by vm_compute. Qed.
