(* ===== verification/Unset.v ===== *)
(** * Variables used before they are set ([src/sema.cpp], ADR-266)

    The opt-in definite-assignment walk of the semantic analysis: the filter that picks the
    variables worth tracking, and the class [UnsetWalk], which runs over the typed tree of a
    procedure once.  A [Symbol*] is the index of the symbol, a [std::set] of them a [gset]. *)
From S2P Require Import Prelude Types Diag Lexer Ast Stmts Hir HirLower.

(** ** What a statement names and how it jumps *)
(** [eachStmtExpr]: the expressions one statement names directly. *)
Definition bound_exprs (l : list (list (AllocBound Expr.t))) : list (option Expr.t) :=
  flat_map (flat_map (fun b => [ab_lb b; ab_ub b])) l.
Definition eachStmtExpr (s : Stmt.t) : list (option Expr.t) :=
  let t := Stmt.task s in
  let a := Stmt.alloc s in
  [Stmt.target s; Stmt.value s; Stmt.cond s; Stmt.from s; Stmt.to s; Stmt.by_ s] ++ Stmt.extraTargets s ++
  items_ (Stmt.stream s) ++ [stringTarget_ (Stmt.stream s)] ++ Stmt.args s ++ [Stmt.gotoTarget s] ++ waitEvents t ++
  [waitCount t; taskRef t; eventRef t; priorityExpr t; oncodeExpr_ (Stmt.on_ s); skipCount (Stmt.stream s)] ++
  allocBase a ++ allocSet a ++ allocArea a ++ bound_exprs (allocBounds a) ++ allocCharLen a ++ freeBase a ++ freeArea a.
(** A GO TO, a label or an ENTRY statement. *)
Fixpoint hasJump (s : Stmt.t) : bool :=
  let opt (o : option Stmt.t) : bool := match o with Some x => hasJump x | None => false end in
  negb (bool_decide (Stmt.labels s = [])) || bool_decide (Stmt.kind s = Stmt.Goto) || bool_decide (Stmt.kind s = Stmt.Entry) ||
  existsb opt (Stmt.body s) || opt (Stmt.thenS s) || opt (Stmt.elseS s) || opt (Stmt.unit s).
Definition hasJumps (b : list (option Stmt.t)) : bool :=
  existsb (fun o => match o with Some x => hasJump x | None => false end) b.

(** [collectAddrTaken]: the variables that ADDR is applied to. *)
Definition addr_arg (o : option Expr.t) : gset nat :=
  match o with
  | Some a => match Expr.kind a, Expr.sym a with Expr.VarRef, Some s => {[s]} | _, _ => ∅ end
  | None => ∅
  end.
Fixpoint addrTaken (e : Expr.t) : gset nat :=
  let opt (o : option Expr.t) : gset nat := match o with Some x => addrTaken x | None => ∅ end in
  (if bool_decide (Expr.kind e = Expr.Call) && text_eqb (Expr.name e) (txt "ADDR") then ⋃ map addr_arg (Expr.args e) else ∅) ∪
  ⋃ map opt (Expr.args e) ∪ opt (Expr.a e) ∪ opt (Expr.b e).
Fixpoint stmtAddrTaken (s : Stmt.t) : gset nat :=
  let opt (o : option Stmt.t) : gset nat := match o with Some x => stmtAddrTaken x | None => ∅ end in
  ⋃ map (fun o => match o with Some e => addrTaken e | None => ∅ end) (eachStmtExpr s) ∪
  ⋃ map opt (Stmt.body s) ∪ opt (Stmt.thenS s) ∪ opt (Stmt.elseS s).
Definition collectAddrTaken (b : list (option Stmt.t)) : gset nat :=
  ⋃ map (fun o => match o with Some s => stmtAddrTaken s | None => ∅ end) b.

(** ** The walk *)
Record walk := mkWalk { wd_ : Diags; set_ : gset nat; warned_ : gset nat }.
Definition with_set (S : gset nat) (w : walk) : walk := mkWalk (wd_ w) S (warned_ w).
Definition mark (s : nat) (w : walk) : walk := with_set ({[s]} ∪ set_ w) w.

Section walk.
Variable tab : symtab.
Variable cand : gset nat.

(** The variable of a reference that the walk can track: a whole variable. *)
Definition tracked (e : Expr.t) : option nat :=
  if (bool_decide (Expr.kind e = Expr.VarRef) || bool_decide (Expr.kind e = Expr.Subscript)) && bool_decide (Expr.path e = []) &&
     negb (bool_decide (is_Some (Expr.locPtr e)))
  then match Expr.sym e with Some s => if decide (s ∈ cand) then Some s else None | None => None end
  else None.
(** A read: report it when nothing stored the variable, once, and count it as set. *)
Definition use (s : nat) (loc : SourceLoc) (w : walk) : walk :=
  if decide (s ∈ set_ w) then w
  else
    let w := if decide (s ∈ warned_ w) then w
             else mkWalk (warn loc (txt "variable '" ++ sname (tab s) ++ txt "' may be used before it is set") [] [] (wd_ w))
                    (set_ w) ({[s]} ∪ warned_ w) in
    mark s w.
Definition store (o : option Expr.t) (w : walk) : walk :=
  match o with
  | Some e => match tracked e with Some s => mark s w | None => w end
  | None => w
  end.
(** A bare variable passed to a call is a store; anything else is read. *)
Fixpoint read (e : Expr.t) (w : walk) : walk :=
  let opt (o : option Expr.t) (w : walk) : walk := match o with Some x => read x w | None => w end in
  let w := match tracked e with Some s => use s (Expr.loc e) w | None => w end in
  if bool_decide (Expr.kind e = Expr.Call) then
    fold_left (fun w o =>
      match o with
      | None => w
      | Some a =>
          match tracked a with
          | Some s => mark s (fold_left (fun w o => opt o w) (Expr.args a) w)
          | None => read a w
          end
      end) (Expr.args e) w
  else opt (Expr.b e) (opt (Expr.a e) (fold_left (fun w o => opt o w) (Expr.args e) w)).
Definition readO (o : option Expr.t) (w : walk) : walk := match o with Some e => read e w | None => w end.
Definition each (f : option Expr.t -> walk -> walk) (l : list (option Expr.t)) (w : walk) : walk :=
  fold_left (fun w o => f o w) l w.
Definition argument (o : option Expr.t) (w : walk) : walk :=
  match o with
  | None => w
  | Some a => match tracked a with Some s => mark s (each readO (Expr.args a) w) | None => read a w end
  end.
(** The subscripts of a target are read, the target is stored. *)
Definition assign (o : option Expr.t) (w : walk) : walk :=
  match o with None => w | Some e => store o (each readO (Expr.args e) w) end.

(** The statements that hold no statement, and do not end the path. *)
Definition leaf (s : Stmt.t) (w : walk) : walk :=
  let st := Stmt.stream s in
  let al := Stmt.alloc s in
  match Stmt.kind s with
  | Stmt.Assign => each assign (Stmt.extraTargets s) (assign (Stmt.target s) (readO (Stmt.value s) w))
  | Stmt.Put => store (stringTarget_ st) (each readO (items_ st) (readO (skipCount st) w))
  | Stmt.Get => each assign (items_ st) (readO (stringTarget_ st) w)
  | Stmt.CallS => each argument (Stmt.args s) w
  | Stmt.Return | Stmt.Stop | Stmt.Write | Stmt.Rewrite | Stmt.Display | Stmt.Delay => readO (Stmt.value s) w
  | Stmt.Read => assign (Stmt.target s) w
  | Stmt.Signal => readO (oncodeExpr_ (Stmt.on_ s)) w
  | Stmt.Wait => readO (waitCount (Stmt.task s)) (each readO (waitEvents (Stmt.task s)) w)
  | Stmt.Allocate =>
      each readO (allocCharLen al) (each readO (bound_exprs (allocBounds al)) (each readO (allocArea al)
        (each store (allocSet al) (each (fun o w => store o (readO o w)) (allocBase al) w))))
  | Stmt.Free => each readO (freeArea al) (each readO (freeBase al) w)
  | _ => w
  end.
Definition mark_sym (s : Stmt.t) (w : walk) : walk := match Stmt.sym s with Some i => mark i w | None => w end.
(** Whether the path goes on after the statement, and the facts there. *)
Fixpoint stmt (s : Stmt.t) (w : walk) : bool * walk :=
  let list := fix list (b : list (option Stmt.t)) (w : walk) : bool * walk :=
    match b with
    | [] => (true, w)
    | None :: b => list b w
    | Some x :: b => let '(falls, w) := stmt x w in if falls then list b w else (false, w)
    end in
  match Stmt.kind s with
  | Stmt.If =>
      let w := readO (Stmt.cond s) w in
      let entry := set_ w in
      let '(thenFalls, w) := match Stmt.thenS s with Some t => stmt t w | None => (true, w) end in
      let thenSet := set_ w in
      let w := with_set entry w in
      let '(elseFalls, w) := match Stmt.elseS s with Some e => stmt e w | None => (true, w) end in
      let joined := if negb elseFalls then thenSet else if negb thenFalls then set_ w else thenSet ∩ set_ w in
      (thenFalls || elseFalls, with_set joined w)
  | Stmt.Group => list (Stmt.body s) w
  | Stmt.Begin =>
      let '(falls, w) := list (Stmt.body s) w in
      (falls, fold_left (fun w d => match DeclItem.sym d with Some i => with_set (set_ w ∖ {[i]}) w | None => w end) (Stmt.decls s) w)
  | Stmt.DoWhile | Stmt.DoIter =>
      let w := readO (Stmt.by_ s) (readO (Stmt.to s) (readO (Stmt.from s) (readO (Stmt.cond s) w))) in
      let entry := set_ w in
      let '(_, w) := list (Stmt.body s) (mark_sym s w) in
      (true, if negb (Stmt.until s) && negb (Stmt.forever s) then mark_sym s (with_set entry w) else w)
  | Stmt.Return | Stmt.Stop => (false, leaf s w)
  | Stmt.Goto => (false, w)
  | _ => (true, leaf s w)
  end.
(** [list], over a whole body. *)
Fixpoint stmts (b : list (option Stmt.t)) (w : walk) : bool * walk :=
  match b with
  | [] => (true, w)
  | None :: b => stmts b w
  | Some x :: b => let '(falls, w) := stmt x w in if falls then stmts b w else (false, w)
  end.
End walk.

(** ** The check *)
(** Storage that is not an uninitialised AUTOMATIC scalar or array is not a candidate. *)
Definition candidate (escaped : gset nat) (s : nat) (y : Symbol) : bool :=
  let m := more y in
  bool_decide (skind y = Var) &&
  negb (isStatic y || external y || controlledSym y || isBased y || bool_decide (is_Some (definedBase y))) &&
  negb (bool_decide (is_Some (initExpr y)) || bool_decide (is_Some (symInitCall m)) || negb (bool_decide (length (initElems m) = 0%nat))) &&
  negb (isValue y || symFile m || isEntryVar y || isCond m || implicit m) &&
  negb (isStruct (sty y) || bool_decide (s ∈ escaped)).
Definition candidates (tab : symtab) (p : Proc.t) : gset nat :=
  let escaped := collectAddrTaken (Proc.body p) in
  list_to_set (List.filter (fun s => candidate escaped s (tab s)) (Proc.localSyms p)).
Definition checkProc (tab : symtab) (p : Proc.t) (d : Diags) : Diags :=
  if Proc.isPackage p || hasJumps (Proc.body p) then d
  else
    let cand := candidates tab p in
    if bool_decide (cand = ∅) then d else wd_ (snd (stmts tab cand (Proc.body p) (mkWalk d ∅ ∅))).
Definition checkUnset (tab : symtab) (prog : Stmts.Program) (d : Diags) : Diags :=
  fold_left (fun d p => checkProc tab p d) (Stmts.procs prog) d.
