(* ===== verification/UnsetThms.v ===== *)
(** * What the walk over unset variables finds

    A procedure body denotes its runs: the reads and stores of the tracked variables along a
    path, whatever the tests decide, and how the run leaves.  The walk misses no run that
    reads a variable before storing it, provided LEAVE and ITERATE stay out of UNTIL and
    FOREVER loops; and every warning has such a run, provided the tests come where the walk
    reads them. *)
From S2P Require Import Prelude Types Diag Lexer Ast Stmts Hir HirLower Unset.

(** ** Runs *)
Inductive event := R (s : nat) | W (s : nat).
#[global] Instance event_dec : EqDecision event.
Proof. solve_decision. Defined.
(** How a run leaves a statement; [Ends] also stands for a run that is watched no further. *)
Inductive outcome := Falls | Ends | Leaves | Iterates.
#[global] Instance outcome_dec : EqDecision outcome.
Proof. solve_decision. Defined.
Definition runs := list event -> outcome -> Prop.

Definition just (l : list event) : runs := fun e o => e = l /\ o = Falls.
Definition ending (l : list event) : runs := fun e o => e = l /\ o = Ends.
Definition seq_ (T U : runs) : runs := fun e o =>
  (T e o /\ o <> Falls) \/ (T e Falls /\ o = Ends) \/ exists e1 e2, e = e1 ++ e2 /\ T e1 Falls /\ U e2 o.
Definition alt (T U : runs) : runs := fun e o => T e o \/ U e o.
Inductive star (T : runs) : runs :=
  | star_nil : star T [] Falls
  | star_stop e o : T e o -> o <> Falls -> star T e o
  | star_more e1 e2 o : T e1 Falls -> star T e2 o -> star T (e1 ++ e2) o.
(** ITERATE goes on after the body of the loop, LEAVE after the loop. *)
Definition resume (T : runs) : runs := fun e o => (T e o /\ o <> Iterates) \/ (T e Iterates /\ o = Falls).
Definition catch (T : runs) : runs := fun e o => (T e o /\ o <> Leaves) \/ (T e Leaves /\ o = Falls).
(** A loop that only LEAVE leaves. *)
Definition endless (T : runs) : runs := fun e o => (T e o /\ o <> Falls) \/ (T e Falls /\ o = Ends).

(** [x] is read before it is stored; [x] is not stored. *)
Definition early (x : nat) (e : list event) : Prop := exists l1 l2, e = l1 ++ R x :: l2 /\ W x ∉ l1.
Definition Reads (T : runs) (x : nat) : Prop := exists e o, T e o /\ early x e.
Definition Keeps (T : runs) (x : nat) : Prop := exists e, T e Falls /\ W x ∉ e.

Section runs_of.
Variable cand : gset nat.
Abbreviation tracked := (Unset.tracked cand).

(** ** The runs of a statement *)
Fixpoint events (e : Expr.t) : list event :=
  let opt (o : option Expr.t) : list event := match o with Some x => events x | None => [] end in
  (match tracked e with Some s => [R s] | None => [] end) ++
  if bool_decide (Expr.kind e = Expr.Call) then
    flat_map (fun o =>
      match o with
      | None => []
      | Some a => match tracked a with Some s => flat_map opt (Expr.args a) ++ [W s] | None => events a end
      end) (Expr.args e)
  else flat_map opt (Expr.args e) ++ opt (Expr.a e) ++ opt (Expr.b e).
Definition ev (o : option Expr.t) : list event := match o with Some e => events e | None => [] end.
Definition evs (l : list (option Expr.t)) : list event := flat_map ev l.
Definition stored (o : option Expr.t) : list event :=
  match o with Some e => match tracked e with Some s => [W s] | None => [] end | None => [] end.
Definition passed (o : option Expr.t) : list event :=
  match o with
  | Some a => match tracked a with Some s => evs (Expr.args a) ++ [W s] | None => events a end
  | None => []
  end.
Definition assigned (o : option Expr.t) : list event :=
  match o with Some e => evs (Expr.args e) ++ stored (Some e) | None => [] end.
Definition leaf_events (s : Stmt.t) : list event :=
  let st := Stmt.stream s in
  let al := Stmt.alloc s in
  match Stmt.kind s with
  | Stmt.Assign => ev (Stmt.value s) ++ assigned (Stmt.target s) ++ flat_map assigned (Stmt.extraTargets s)
  | Stmt.Put => ev (skipCount st) ++ evs (items_ st) ++ stored (stringTarget_ st)
  | Stmt.Get => ev (stringTarget_ st) ++ flat_map assigned (items_ st)
  | Stmt.CallS => flat_map passed (Stmt.args s)
  | Stmt.Return | Stmt.Stop | Stmt.Write | Stmt.Rewrite | Stmt.Display | Stmt.Delay => ev (Stmt.value s)
  | Stmt.Read => assigned (Stmt.target s)
  | Stmt.Signal => ev (oncodeExpr_ (Stmt.on_ s))
  | Stmt.Wait => evs (waitEvents (Stmt.task s)) ++ ev (waitCount (Stmt.task s))
  | Stmt.Allocate =>
      flat_map (fun o => ev o ++ stored o) (allocBase al) ++ flat_map stored (allocSet al) ++ evs (allocArea al) ++
      evs (bound_exprs (allocBounds al)) ++ evs (allocCharLen al)
  | Stmt.Free => evs (freeBase al) ++ evs (freeArea al)
  | _ => []
  end.
(** What a DO evaluates once, the control variable stored; and its test. *)
Definition head_events (s : Stmt.t) : list event :=
  ev (Stmt.from s) ++ ev (Stmt.to s) ++ ev (Stmt.by_ s) ++ match Stmt.sym s with Some i => [W i] | None => [] end.
Definition loop_runs (s : Stmt.t) (body : runs) : runs :=
  let test := just (ev (Stmt.cond s)) in
  let round := seq_ (resume body) test in
  seq_ (just (head_events s))
    (catch (if Stmt.forever s then endless (star (resume body))
            else if Stmt.until s then seq_ round (star round)
            else seq_ test (star round))).
Fixpoint runs_of (s : Stmt.t) : runs :=
  let opt (o : option Stmt.t) : runs := match o with Some x => runs_of x | None => just [] end in
  let list := fix list (b : list (option Stmt.t)) : runs :=
    match b with [] => just [] | o :: b => seq_ (opt o) (list b) end in
  match Stmt.kind s with
  | Stmt.If => seq_ (just (ev (Stmt.cond s))) (alt (opt (Stmt.thenS s)) (opt (Stmt.elseS s)))
  | Stmt.Group | Stmt.Begin => list (Stmt.body s)
  | Stmt.DoWhile | Stmt.DoIter => loop_runs s (list (Stmt.body s))
  | Stmt.Return | Stmt.Stop => ending (leaf_events s)
  | Stmt.Goto => ending []
  | Stmt.Leave => fun e o => e = [] /\ o = Leaves
  | Stmt.Iterate => fun e o => e = [] /\ o = Iterates
  | _ => just (leaf_events s)
  end.
Definition runs_opt (o : option Stmt.t) : runs := match o with Some x => runs_of x | None => just [] end.
Fixpoint runs_list (b : list (option Stmt.t)) : runs :=
  match b with [] => just [] | o :: b => seq_ (runs_opt o) (runs_list b) end.
End runs_of.

(** ** The algebra of runs *)
Lemma early_app x e1 e2 : early x (e1 ++ e2) <-> early x e1 \/ (W x ∉ e1 /\ early x e2).
Proof.
  split.
  - intros (l1 & l2 & E & N). apply app_eq_app in E as (k & [[-> E]|[-> E]]).
    + destruct k as [|y k].
      * right. rewrite app_nil_r. split; [done|]. exists [], l2. by split; [|apply not_elem_of_nil].
      * left. injection E as <- ->. by exists l1, k.
    + right. apply not_elem_of_app in N as [N1 N2]. split; [done|]. by exists k, l2.
  - intros [(l1 & l2 & -> & N)|[N (l1 & l2 & -> & N')]].
    + exists l1, (l2 ++ e2). by rewrite <- app_assoc.
    + exists (e1 ++ l1), l2. rewrite <- app_assoc. split; [done|]. apply not_elem_of_app. done.
Qed.
Lemma early_in x e : early x e -> R x ∈ e.
Proof. intros (l1 & l2 & -> & _). apply elem_of_app. right. apply list_elem_of_here. Qed.
Lemma in_early x e : R x ∈ e -> W x ∉ e -> early x e.
Proof.
  intros Hr Hw. apply list_elem_of_split in Hr as (l1 & l2 & ->). exists l1, l2. split; [done|].
  intros Hx. apply Hw, elem_of_app. by left.
Qed.

Section algebra.
Context (x : nat).
Implicit Types T U : runs.
Lemma Reads_just l : Reads (just l) x <-> early x l.
Proof. split; [by intros (e & o & [-> _] & Hx)|]. intros Hx. by exists l, Falls. Qed.
Lemma Keeps_just l : Keeps (just l) x <-> W x ∉ l.
Proof. split; [by intros (e & [-> _] & Hx)|]. intros Hx. by exists l. Qed.
Lemma Reads_seq T U : Reads (seq_ T U) x <-> Reads T x \/ (Keeps T x /\ Reads U x).
Proof.
  split.
  - intros (e & o & [[He _]|[[He ->]|(e1 & e2 & -> & H1 & H2)]] & Hx); [left; by exists e, o|left; by exists e, Falls|].
    apply early_app in Hx as [Hx|[Hw Hx]]; [left; by exists e1, Falls|right]. split; [by exists e1|by exists e2, o].
  - intros [(e & o & He & Hx)|[(e1 & H1 & Hw) (e2 & o & H2 & Hx)]].
    + destruct (decide (o = Falls)) as [->|Ho]; [exists e, Ends|exists e, o]; (split; [|done]); [by right; left|by left].
    + exists (e1 ++ e2), o. split; [right; right; by exists e1, e2|]. apply early_app. by right.
Qed.
Lemma Keeps_seq T U : Keeps (seq_ T U) x <-> Keeps T x /\ Keeps U x.
Proof.
  split.
  - intros (e & [[_ He]|[[_ He]|(e1 & e2 & -> & H1 & H2)]] & Hx); [done..|]. apply not_elem_of_app in Hx as [Hx1 Hx2].
    split; [by exists e1|by exists e2].
  - intros [(e1 & H1 & Hx1) (e2 & H2 & Hx2)]. exists (e1 ++ e2). split; [right; right; by exists e1, e2|].
    by apply not_elem_of_app.
Qed.
Lemma Reads_alt T U : Reads (alt T U) x <-> Reads T x \/ Reads U x.
Proof. unfold Reads, alt. naive_solver. Qed.
Lemma Keeps_alt T U : Keeps (alt T U) x <-> Keeps T x \/ Keeps U x.
Proof. unfold Keeps, alt. naive_solver. Qed.
Lemma Reads_star T : Reads (star T) x <-> Reads T x.
Proof.
  split.
  - intros (e & o & He & Hx). induction He as [|e o He Ho|e1 e2 o H1 H2 IH].
    + destruct Hx as (l1 & l2 & E & _). by destruct l1.
    + by exists e, o.
    + apply early_app in Hx as [Hx|[_ Hx]]; [by exists e1, Falls|by apply IH].
  - intros (e & o & He & Hx). destruct (decide (o = Falls)) as [->|Ho].
    + exists (e ++ []), Falls. split; [by eapply star_more; [|apply star_nil]|by rewrite app_nil_r].
    + exists e, o. split; [by apply star_stop|done].
Qed.
Lemma Keeps_star T : Keeps (star T) x.
Proof. exists []. split; [apply star_nil|apply not_elem_of_nil]. Qed.
Lemma Reads_resume T : Reads (resume T) x <-> Reads T x.
Proof.
  unfold Reads, resume. split; [naive_solver|]. intros (e & o & He & Hx).
  destruct (decide (o = Iterates)) as [->|]; [exists e, Falls|exists e, o]; naive_solver.
Qed.
Lemma Reads_catch T : Reads (catch T) x <-> Reads T x.
Proof.
  unfold Reads, catch. split; [naive_solver|]. intros (e & o & He & Hx).
  destruct (decide (o = Leaves)) as [->|]; [exists e, Falls|exists e, o]; naive_solver.
Qed.
Lemma Reads_endless T : Reads (endless T) x <-> Reads T x.
Proof.
  unfold Reads, endless. split; [naive_solver|]. intros (e & o & He & Hx).
  destruct (decide (o = Falls)) as [->|]; [exists e, Ends|exists e, o]; naive_solver.
Qed.
Lemma Keeps_resume T : (forall e, ~ T e Iterates) -> Keeps (resume T) x -> Keeps T x.
Proof. intros Hn (e & [[He _]|[He _]] & Hx); [by exists e|by destruct (Hn e)]. Qed.
Lemma Keeps_weaken T U : (forall e, T e Falls -> U e Falls) -> Keeps T x -> Keeps U x.
Proof. intros Hu (e & He & Hx). exists e. auto. Qed.
End algebra.
(** Runs that no LEAVE or ITERATE ends. *)
Definition contained (T : runs) : Prop := forall e o, T e o -> o = Falls \/ o = Ends.
Lemma contained_just l : contained (just l).
Proof. intros e o [_ ->]. by left. Qed.
Lemma contained_seq T U : contained T -> contained U -> contained (seq_ T U).
Proof. intros HT HU e o [[He _]|[[_ ->]|(e1 & e2 & _ & _ & H2)]]; eauto. Qed.
Lemma contained_star T : contained T -> contained (star T).
Proof. intros HT e o He. induction He; eauto. Qed.
Lemma contained_resume T : contained T -> forall e o, resume T e o <-> T e o.
Proof.
  intros HT e o. unfold resume. split; [intros [[He _]|[He _]]; [done|by apply HT in He as [|]]|].
  intros He. left. split; [done|]. by apply HT in He as [->| ->].
Qed.
Lemma contained_catch T : contained T -> forall e o, catch T e o <-> T e o.
Proof.
  intros HT e o. unfold catch. split; [intros [[He _]|[He _]]; [done|by apply HT in He as [|]]|].
  intros He. left. split; [done|]. by apply HT in He as [->| ->].
Qed.

(** ** The facts along a run *)
Definition facts (w : walk) : gset nat * gset nat := (set_ w, warned_ w).
Definition act (f : gset nat * gset nat) (e : event) : gset nat * gset nat :=
  match e with
  | R s => if decide (s ∈ f.1) then f else ({[s]} ∪ f.1, {[s]} ∪ f.2)
  | W s => ({[s]} ∪ f.1, f.2)
  end.
Definition acts (l : list event) (f : gset nat * gset nat) : gset nat * gset nat := fold_left act l f.
Lemma acts_app l1 l2 f : acts (l1 ++ l2) f = acts l2 (acts l1 f).
Proof. apply fold_left_app. Qed.
Lemma early_cons x a l : early x (a :: l) <-> a = R x \/ (a <> W x /\ early x l).
Proof.
  change (a :: l) with ([a] ++ l). rewrite early_app. split.
  - intros [(l1 & l2 & E & _)|[N H]].
    + left. destruct l1 as [|? [|]]; [by injection E|discriminate E..].
    + right. split; [|done]. intros ->. apply N, list_elem_of_here.
  - intros [-> |[N H]]; [left; exists [], []; by split; [|apply not_elem_of_nil]|right]. split; [|done].
    intros Hx. by apply list_elem_of_singleton in Hx.
Qed.
(** What a list of events adds. *)
Lemma acts_spec l : forall f x,
  (x ∈ (acts l f).2 <-> x ∈ f.2 \/ (x ∉ f.1 /\ early x l)) /\ (x ∈ (acts l f).1 <-> x ∈ f.1 \/ W x ∈ l \/ R x ∈ l).
Proof.
  induction l as [|a l IH]; intros f x.
  - cbn. split; [|set_solver]. split; [by left|]. intros [?|[_ (l1 & l2 & E & _)]]; [done|by destruct l1].
  - change (acts (a :: l) f) with (acts l (act f a)). destruct (IH (act f a) x) as [-> ->].
    rewrite early_cons. destruct a as [s|s]; cbn [act].
    + destruct (decide (s ∈ f.1)) as [Hs|Hs]; cbn [fst snd]; (destruct (decide (s = x)) as [->|Hx]; split; set_solver).
    + cbn [fst snd]. destruct (decide (s = x)) as [->|Hx]; split; set_solver.
Qed.

Section facts.
Variable tab : symtab.
Variable cand : gset nat.
Abbreviation tracked := (Unset.tracked cand).
Abbreviation read := (Unset.read tab cand).
Abbreviation readO := (Unset.readO tab cand).
Abbreviation events := (events cand).
Abbreviation ev := (ev cand).

(** The run [l] is what [f] does to the facts. *)
Definition does (f : walk -> walk) (l : list event) : Prop := forall w, facts (f w) = acts l (facts w).
Lemma does_id : does (fun w => w) [].
Proof. done. Qed.
Lemma does_app f g l1 l2 : does f l1 -> does g l2 -> does (fun w => g (f w)) (l1 ++ l2).
Proof. intros Hf Hg w. by rewrite Hg, Hf, acts_app. Qed.
Lemma does_ext f g l l' : (forall w, f w = g w) -> l = l' -> does g l' -> does f l.
Proof. intros Hf -> Hg w. by rewrite Hf. Qed.
Lemma does_mark s : does (mark s) [W s].
Proof. done. Qed.
Lemma does_use s loc : does (use tab s loc) [R s].
Proof.
  intros w. unfold use, facts. cbn. destruct (decide (s ∈ set_ w)); [done|]. destruct (decide (s ∈ warned_ w)); cbn; [|done].
  f_equal. set_solver.
Qed.
Lemma does_fold {A} (f : A -> walk -> walk) (g : A -> list event) (l : list A) :
  Forall (fun a => does (f a) (g a)) l -> does (fun w => fold_left (fun w a => f a w) l w) (flat_map g l).
Proof.
  induction 1 as [|a l Ha _ IH]; [apply does_id|]. cbn. exact (does_app (f a) _ _ _ Ha IH).
Qed.
Lemma does_store o : does (store cand o) (stored cand o).
Proof. destruct o as [e|]; [|apply does_id]. intros w. cbn [store stored]. by destruct (tracked e). Qed.
(** The two halves of a read: the reference itself, then what is in it. *)
Definition read_self (e : Expr.t) (w : walk) : walk := match tracked e with Some s => use tab s (Expr.loc e) w | None => w end.
Definition read_parts (e : Expr.t) (w : walk) : walk :=
  if bool_decide (Expr.kind e = Expr.Call) then each (argument tab cand) (Expr.args e) w
  else readO (Expr.b e) (readO (Expr.a e) (each readO (Expr.args e) w)).
Lemma read_unfold e w : read e w = read_parts e (read_self e w).
Proof. by destruct e. Qed.
Lemma events_unfold e : events e =
  (match tracked e with Some s => [R s] | None => [] end) ++
  (if bool_decide (Expr.kind e = Expr.Call) then flat_map (passed cand) (Expr.args e)
   else evs cand (Expr.args e) ++ ev (Expr.a e) ++ ev (Expr.b e)).
Proof. by destruct e. Qed.
Lemma does_each f g l : Forall (fun o => does (f o) (g o)) l -> does (each f l) (flat_map g l).
Proof. apply does_fold. Qed.
Lemma does_reads e : does (read e) (events e) /\ does (each readO (Expr.args e)) (evs cand (Expr.args e)).
Proof.
  induction e as [e _ Ha Hb Hargs] using expr_ind.
  assert (forall o, opt_ok (fun e => does (read e) (events e) /\ does (each readO (Expr.args e)) (evs cand (Expr.args e))) o ->
    does (readO o) (ev o)) as Ho.
  { intros [x|] Hx; [apply Hx|apply does_id]. }
  assert (does (each readO (Expr.args e)) (evs cand (Expr.args e))) as Hl.
  { apply does_each. eapply Forall_impl; [exact Hargs|]. intros o. apply Ho. }
  split; [|exact Hl]. refine (does_ext _ _ _ _ (read_unfold e) (events_unfold e) _). apply (does_app (read_self e) (read_parts e)).
  - intros w. unfold read_self. destruct (tracked e); [by apply does_use|done].
  - unfold read_parts. destruct (bool_decide _).
    + apply does_each. eapply Forall_impl; [exact Hargs|]. intros [x|] Hx; [|apply does_id].
      cbn in Hx. intros w. cbn [argument passed]. destruct (tracked x) as [s|]; [|by apply Hx].
      exact (does_app _ _ _ _ (proj2 Hx) (does_mark s) w).
    + exact (does_app _ _ _ _ Hl (does_app _ _ _ _ (Ho _ Ha) (Ho _ Hb))).
Qed.
Lemma does_readO o : does (readO o) (ev o).
Proof. destruct o as [e|]; [apply does_reads|apply does_id]. Qed.
Lemma does_evs l : does (each readO l) (evs cand l).
Proof. apply does_each, Forall_true, does_readO. Qed.
Lemma does_assign o : does (assign tab cand o) (assigned cand o).
Proof. destruct o as [e|]; [|apply does_id]. exact (does_app _ _ _ _ (does_evs _) (does_store _)). Qed.
Lemma does_argument o : does (argument tab cand o) (passed cand o).
Proof.
  destruct o as [e|]; [|apply does_id]. intros w. cbn [argument passed]. destruct (tracked e); [|by apply does_reads].
  exact (does_app _ _ _ _ (does_evs _) (does_mark _) w).
Qed.
Lemma does_mark_sym s : does (mark_sym s) (match Stmt.sym s with Some i => [W i] | None => [] end).
Proof. unfold mark_sym. destruct (Stmt.sym s); [apply does_mark|apply does_id]. Qed.
#[local] Hint Resolve does_id does_readO does_evs does_assign does_argument does_store : core.
Lemma does_leaf s : does (leaf tab cand s) (leaf_events cand s).
Proof.
  assert (forall o, does (fun w => store cand o (readO o w)) (ev o ++ stored cand o)) as Hb.
  { intros o. exact (does_app _ _ _ _ (does_readO o) (does_store o)). }
  unfold leaf, leaf_events. destruct (Stmt.kind s); auto; rewrite ?app_assoc;
    repeat first [solve [auto] | solve [apply does_each, Forall_true; auto] | refine (does_app _ _ _ _ _ _)].
Qed.
End facts.

(** ** Sound and exact walks *)
(** [over F T]: the walk [F] warns of everything that [T] reads early, and what it counts as
    set was set before, is stored by every run that goes on, or has been warned of.
    [exact F T]: everything it warns of [T] reads early. *)
Definition over (F : walk -> bool * walk) (T : runs) : Prop := forall w f w', F w = (f, w') ->
  set_ w ⊆ set_ w' /\ warned_ w ⊆ warned_ w' /\
  (forall x, x ∉ set_ w -> Reads T x -> x ∈ warned_ w') /\
  (forall x, x ∈ set_ w' -> Keeps T x -> x ∈ set_ w \/ x ∈ warned_ w') /\
  (f = false -> forall e, ~ T e Falls).
Definition exact (F : walk -> bool * walk) (T : runs) : Prop := forall w f w', F w = (f, w') ->
  (forall x, x ∈ warned_ w' -> x ∈ warned_ w \/ (x ∉ set_ w /\ Reads T x)) /\
  (f = true -> (exists e, T e Falls) /\ forall x, x ∉ set_ w' -> x ∉ set_ w /\ Keeps T x).
Definition on_path (f : walk -> walk) (w : walk) : bool * walk := (true, f w).
Definition and_then (F G : walk -> bool * walk) (w : walk) : bool * walk :=
  let '(falls, w) := F w in if falls then G w else (false, w).
Definition branch (F G : walk -> bool * walk) (w : walk) : bool * walk :=
  let entry := set_ w in
  let '(thenFalls, w) := F w in
  let thenSet := set_ w in
  let '(elseFalls, w) := G (with_set entry w) in
  let joined := if negb elseFalls then thenSet else if negb thenFalls then set_ w else thenSet ∩ set_ w in
  (thenFalls || elseFalls, with_set joined w).

Section walks.
Implicit Types (F G : walk -> bool * walk) (T U : runs).
Lemma does_set f l w x : does f l -> x ∈ set_ (f w) <-> x ∈ set_ w \/ W x ∈ l \/ R x ∈ l.
Proof. intros Hd. change (set_ (f w)) with (facts (f w)).1. rewrite Hd. apply acts_spec. Qed.
Lemma does_warned f l w x : does f l -> x ∈ warned_ (f w) <-> x ∈ warned_ w \/ (x ∉ set_ w /\ early x l).
Proof. intros Hd. change (warned_ (f w)) with (facts (f w)).2. rewrite Hd. apply acts_spec. Qed.
(** What is set after a run, not stored by it and not set before has been warned of. *)
Lemma does_unstored f l w x : does f l -> x ∈ set_ (f w) -> W x ∉ l -> x ∈ set_ w \/ x ∈ warned_ (f w).
Proof.
  intros Hd Hs Hw. apply (does_set f l w x Hd) in Hs as [?|[?|Hr]]; [by left|done|].
  destruct (decide (x ∈ set_ w)); [by left|right]. apply (does_warned f l w x Hd). right. split; [done|]. by apply in_early.
Qed.
Lemma over_just f l : does f l -> over (on_path f) (just l).
Proof.
  intros Hd w b w' [= <- <-]. split; [intros x Hx; apply (does_set f l w x Hd); by left|].
  split; [intros x Hx; apply (does_warned f l w x Hd); by left|].
  split; [intros x Hx Hr; apply (does_warned f l w x Hd); right; split; [done|by apply Reads_just]|].
  split; [|done]. intros x Hx Hk. apply Keeps_just in Hk. by eapply does_unstored.
Qed.
Lemma exact_just f l : does f l -> exact (on_path f) (just l).
Proof.
  intros Hd w b w' [= <- <-]. split.
  - intros x Hx. apply (does_warned f l w x Hd) in Hx as [?|[? ?]]; [by left|right]. split; [done|]. by apply Reads_just.
  - intros _. split; [by exists l|]. intros x Hx. assert (~ (x ∈ set_ w \/ W x ∈ l \/ R x ∈ l)) as Hn.
    { intros Hn. by apply Hx, (does_set f l w x Hd). }
    split; [tauto|]. apply Keeps_just. tauto.
Qed.
Lemma over_seq F G T U : over F T -> over G U -> over (and_then F G) (seq_ T U).
Proof.
  intros HF HG w b w' E. unfold and_then in E. destruct (F w) as [f1 w1] eqn:E1.
  destruct (HF _ _ _ E1) as (S1 & V1 & R1 & K1 & N1). destruct f1.
  - destruct (HG _ _ _ E) as (S2 & V2 & R2 & K2 & N2). split; [set_solver|]. split; [set_solver|]. split; [|split].
    + intros x Hx Hr. apply Reads_seq in Hr as [Hr|[Hk Hr]]; [by apply V2, R1|]. destruct (decide (x ∈ set_ w1)) as [Hi|Hi].
      * destruct (K1 x Hi Hk); [done|by apply V2].
      * by apply R2.
    + intros x Hx Hk. apply Keeps_seq in Hk as [Hk1 Hk2]. destruct (K2 x Hx Hk2) as [Hs|?]; [|by right].
      destruct (K1 x Hs Hk1); [by left|right; by apply V2].
    + intros -> e [[_ He]|[[_ He]|(e1 & e2 & _ & _ & H2)]]; [done..|]. by apply (N2 eq_refl e2).
  - injection E as <- <-. split; [done|]. split; [done|]. split; [|split].
    + intros x Hx Hr. apply Reads_seq in Hr as [Hr|[(e & He & _) _]]; [by apply R1|]. by destruct (N1 eq_refl e).
    + intros x Hx Hk. apply Keeps_seq in Hk as [(e & He & _) _]. by destruct (N1 eq_refl e).
    + intros _ e [[_ He]|[[_ He]|(e1 & e2 & _ & H1 & _)]]; [done..|]. by apply (N1 eq_refl e1).
Qed.
Lemma exact_seq F G T U : exact F T -> exact G U -> exact (and_then F G) (seq_ T U).
Proof.
  intros HF HG w b w' E. unfold and_then in E. destruct (F w) as [f1 w1] eqn:E1.
  destruct (HF _ _ _ E1) as (R1 & N1). destruct f1.
  - destruct (HG _ _ _ E) as (R2 & N2). destruct (N1 eq_refl) as [[e1 H1] K1]. split.
    + intros x Hx. apply R2 in Hx as [Hx|[Hx Hr]].
      * apply R1 in Hx as [?|[? ?]]; [by left|right]. split; [done|]. apply Reads_seq. by left.
      * right. destruct (K1 x Hx) as [? ?]. split; [done|]. apply Reads_seq. by right.
    + intros Hb. destruct (N2 Hb) as [[e2 H2] K2]. split; [exists (e1 ++ e2); right; right; by exists e1, e2|].
      intros x Hx. destruct (K2 x Hx) as [Hy Hk]. destruct (K1 x Hy) as [? ?]. split; [done|]. by apply Keeps_seq.
  - injection E as <- <-. split; [|done]. intros x Hx. apply R1 in Hx as [?|[? ?]]; [by left|right].
    split; [done|]. apply Reads_seq. by left.
Qed.
Lemma over_branch F G T U : over F T -> over G U -> over (branch F G) (alt T U).
Proof.
  intros HF HG w b w' E. unfold branch in E. destruct (F w) as [f1 w1] eqn:E1.
  destruct (G _) as [f2 w2] eqn:E2. injection E as <- <-.
  destruct (HF _ _ _ E1) as (S1 & V1 & R1 & K1 & N1), (HG _ _ _ E2) as (S2 & V2 & R2 & K2 & N2). cbn in *.
  assert (forall x, x ∈ (if negb f2 then set_ w1 else if negb f1 then set_ w2 else set_ w1 ∩ set_ w2) ->
    (f2 = false /\ x ∈ set_ w1) \/ (f1 = false /\ x ∈ set_ w2) \/ (x ∈ set_ w1 /\ x ∈ set_ w2)) as Hj.
  { intros x. destruct f1, f2; cbn; set_solver. }
  split; [destruct f1, f2; cbn; set_solver|]. split; [set_solver|]. split; [|split].
  - intros x Hx Hr. apply Reads_alt in Hr as [Hr|Hr]; [by apply V2, R1|by apply R2].
  - intros x Hx Hk. apply Keeps_alt in Hk. destruct Hk as [Hk|Hk].
    + assert (x ∈ set_ w1 -> x ∈ set_ w \/ x ∈ warned_ w2) as H1 by (intros Hs; destruct (K1 x Hs Hk); auto).
      destruct (Hj x Hx) as [[_ ?]|[[-> _]|[? _]]]; [by apply H1| |by apply H1]. destruct Hk as (e & He & _). by destruct (N1 eq_refl e).
    + destruct (Hj x Hx) as [[-> _]|[[_ ?]|[_ ?]]]; [|by apply K2..]. destruct Hk as (e & He & _). by destruct (N2 eq_refl e).
  - intros Hf e [He|He]; [by apply (N1 ltac:(by destruct f1) e)|by apply (N2 ltac:(by destruct f1, f2) e)].
Qed.
Lemma exact_branch F G T U : exact F T -> exact G U -> exact (branch F G) (alt T U).
Proof.
  intros HF HG w b w' E. unfold branch in E. destruct (F w) as [f1 w1] eqn:E1.
  destruct (G _) as [f2 w2] eqn:E2. injection E as <- <-. destruct (HF _ _ _ E1) as (R1 & N1), (HG _ _ _ E2) as (R2 & N2). cbn in *.
  split.
  - intros x Hx. apply R2 in Hx as [Hx|[? ?]].
    + apply R1 in Hx as [?|[? ?]]; [by left|right]. split; [done|]. apply Reads_alt. by left.
    + right. split; [done|]. apply Reads_alt. by right.
  - intros Hf. assert (f1 = true -> (exists e, alt T U e Falls) /\ forall x, x ∉ set_ w1 -> x ∉ set_ w /\ Keeps (alt T U) x) as H1.
    { intros H. destruct (N1 H) as [[e He] K]. split; [exists e; by left|]. intros x Hx. destruct (K x Hx). split; [done|].
      apply Keeps_alt. by left. }
    assert (f2 = true -> (exists e, alt T U e Falls) /\ forall x, x ∉ set_ w2 -> x ∉ set_ w /\ Keeps (alt T U) x) as H2.
    { intros H. destruct (N2 H) as [[e He] K]. split; [exists e; by right|]. intros x Hx. destruct (K x Hx). split; [done|].
      apply Keeps_alt. by right. }
    destruct f1, f2; cbn in *; [|by apply H1|by apply H2|done]. destruct (H1 eq_refl) as [He K1], (H2 eq_refl) as [_ K2].
    split; [done|]. intros x Hx. destruct (decide (x ∈ set_ w1)); [apply K2; set_solver|by apply K1].
Qed.
End walks.

(** ** Loops *)
Definition no_store (l : list event) : bool := forallb (fun e => match e with R _ => true | W _ => false end) l.
Lemma no_store_in l x : no_store l = true -> W x ∉ l.
Proof. intros Hl Hx. apply list_elem_of_In in Hx. unfold no_store in Hl. rewrite forallb_forall in Hl. by specialize (Hl _ Hx). Qed.
(** No ITERATE ends a loop, nor a LEAVE. *)
Lemma contained_loop cand s B : contained (loop_runs cand s B).
Proof.
  set (round := seq_ (resume B) (just (ev cand (Stmt.cond s)))).
  assert (forall e o, resume B e o -> o <> Iterates) as Hr by (intros e o [[_ ?]|[_ ->]]; done).
  assert (forall e o, round e o -> o <> Iterates) as Hn.
  { intros e o [[He _]|[[_ ->]|(e1 & e2 & _ & _ & [_ ->])]]; [by eapply Hr|done..]. }
  assert (forall T, (forall e o, T e o -> o <> Iterates) -> forall e o, star T e o -> o <> Iterates) as Hs.
  { intros T HT e o He. induction He; [done|by eapply HT|done]. }
  assert (forall T, (forall e o, T e o -> o <> Iterates) -> contained (catch T)) as Hc.
  { intros T HT e o [[He Ho]|[_ ->]]; [|by left]. destruct o; [by left|by right|done|by apply HT in He]. }
  apply contained_seq; [apply contained_just|]. apply Hc. intros e o. destruct (Stmt.forever s); [|destruct (Stmt.until s)].
  - intros [[He _]|[_ ->]]; [|done]. eapply Hs; [|exact He]. exact Hr.
  - intros [[He _]|[[_ ->]|(e1 & e2 & _ & _ & He)]]; [by eapply Hn|done|]. eapply Hs; [|exact He]. exact Hn.
  - intros [[[_ ->] _]|[[_ ->]|(e1 & e2 & _ & _ & He)]]; [done..|]. eapply Hs; [|exact He]. exact Hn.
Qed.

Section loops.
Variable tab : symtab.
Variable cand : gset nat.
Abbreviation readO := (Unset.readO tab cand).
Abbreviation ev := (ev cand).
Definition test_of (s : Stmt.t) : list event := ev (Stmt.cond s).
Definition bounds_of (s : Stmt.t) : list event := ev (Stmt.from s) ++ ev (Stmt.to s) ++ ev (Stmt.by_ s).
Definition sets_of (s : Stmt.t) : list event := match Stmt.sym s with Some i => [W i] | None => [] end.
Definition head_walk (s : Stmt.t) (w : walk) : walk :=
  readO (Stmt.by_ s) (readO (Stmt.to s) (readO (Stmt.from s) (readO (Stmt.cond s) w))).
Context (s : Stmt.t).
Abbreviation test := (test_of s).
Abbreviation bounds := (bounds_of s).
Abbreviation sets := (sets_of s).
Abbreviation head := (head_walk s).
Definition loop_walk (L : walk -> bool * walk) (w : walk) : bool * walk :=
  let w := head w in
  let entry := set_ w in
  let '(_, w) := L (mark_sym s w) in
  (true, if negb (Stmt.until s) && negb (Stmt.forever s) then mark_sym s (with_set entry w) else w).

Lemma head_events_eq : head_events cand s = bounds ++ sets.
Proof. unfold head_events, bounds_of, sets_of. by rewrite !app_assoc. Qed.
Lemma does_head : does head (test ++ bounds).
Proof.
  unfold test_of, bounds_of. rewrite !app_assoc.
  refine (does_app _ _ _ _ (does_app _ _ _ _ (does_app _ _ _ _ (does_readO _ _ _) (does_readO _ _ _)) (does_readO _ _ _)) (does_readO _ _ _)).
Qed.
Lemma in_mark_sym x w : x ∈ set_ (mark_sym s w) <-> W x ∈ sets \/ x ∈ set_ w.
Proof. unfold mark_sym, sets_of, mark. destruct (Stmt.sym s) as [i|]; cbn; [|set_solver]. rewrite list_elem_of_singleton. set_solver. Qed.
Lemma warned_mark_sym w : warned_ (mark_sym s w) = warned_ w.
Proof. unfold mark_sym. by destruct (Stmt.sym s). Qed.
Context (B : runs).
(** Every run of the loop starts with its head. *)
Lemma Reads_loop x : Reads (loop_runs cand s B) x ->
  early x (bounds ++ sets) \/
  (W x ∉ bounds ++ sets /\ (early x test \/ (Reads B x /\ (Stmt.until s = false -> Stmt.forever s = false -> W x ∉ test)))).
Proof.
  unfold loop_runs. rewrite Reads_seq, Reads_just, Keeps_just, head_events_eq, Reads_catch.
  assert (Reads (seq_ (resume B) (just test)) x -> early x test \/ Reads B x) as Hr.
  { rewrite Reads_seq, Reads_resume, Reads_just. tauto. }
  destruct (Stmt.forever s); [|destruct (Stmt.until s)].
  - rewrite Reads_endless, Reads_star, Reads_resume. intuition discriminate.
  - rewrite Reads_seq, Reads_star. intuition discriminate.
  - rewrite Reads_seq, Reads_just, Keeps_just, Reads_star. intuition.
Qed.
Lemma Keeps_loop x : Keeps (loop_runs cand s B) x -> W x ∉ bounds ++ sets.
Proof. unfold loop_runs. rewrite Keeps_seq, Keeps_just, head_events_eq. tauto. Qed.
Lemma Keeps_while x : Stmt.until s = false -> Stmt.forever s = false -> Keeps (loop_runs cand s B) x -> W x ∉ test.
Proof.
  unfold loop_runs. intros -> ->. rewrite Keeps_seq. intros [_ (e & He & Hx)].
  assert (exists o, seq_ (just test) (star (seq_ (resume B) (just test))) e o /\ (o = Falls \/ o = Leaves)) as (o & [[[_ ->] ?]|[[[-> _] _]|(e1 & e2 & -> & [-> _] & _)]] & Ho).
  { destruct He as [[He _]|[He _]]; eauto. }
  - by destruct Ho.
  - done.
  - apply not_elem_of_app in Hx. tauto.
Qed.
Lemma Keeps_until x : contained B -> Stmt.until s || Stmt.forever s = true -> Keeps (loop_runs cand s B) x -> Keeps B x.
Proof.
  intros HB Hu. unfold loop_runs. rewrite Keeps_seq. intros [_ (e & He & Hx)].
  assert (contained (resume B)) as HR by (intros e' o' H; by eapply HB, (contained_resume B HB)).
  set (round := seq_ (resume B) (just _)) in *. assert (contained round) as Hd by (apply contained_seq; [done|apply contained_just]).
  destruct (Stmt.forever s) eqn:Ef.
  - destruct He as [[[[_ ?]|[_ ?]] _]|[[[He _]|[_ ?]] _]]; try done. by apply (contained_star _ HR) in He as [|].
  - destruct (Stmt.until s); [|done]. assert (contained (seq_ round (star round))) as Hq by (by apply contained_seq; [|apply contained_star]).
    apply (contained_catch _ Hq) in He.
    assert (Keeps (seq_ round (star round)) x) as Hk by by exists e. apply Keeps_seq in Hk as [Hk _].
    apply Keeps_seq in Hk as [Hk _]. eapply Keeps_weaken; [|exact Hk]. intros e'. by apply contained_resume.
Qed.
(** The test comes first, or it stores nothing. *)
Definition test_first : bool :=
  no_store test || (negb (Stmt.until s) && negb (Stmt.forever s) && bool_decide (head_events cand s = [])).
Lemma over_loop (L : walk -> bool * walk) : test_first = true -> (Stmt.until s || Stmt.forever s = true -> contained B) -> over L B ->
  over (loop_walk L) (loop_runs cand s B).
Proof.
  intros Ht Hc HL w b w' E. unfold loop_walk in E. set (w1 := head w) in *. destruct (L _) as [f w2] eqn:E2. injection E as <- <-.
  destruct (HL _ _ _ E2) as (S2 & V2 & R2 & K2 & _). rewrite warned_mark_sym in V2.
  assert (forall x, x ∈ set_ w -> x ∈ set_ w1) as S1 by (intros x Hx; apply (does_set head _ w x does_head); by left).
  assert (forall x, x ∈ warned_ w -> x ∈ warned_ w1) as V1 by (intros x Hx; apply (does_warned head _ w x does_head); by left).
  assert (forall x, x ∉ set_ w -> early x (test ++ bounds) -> x ∈ warned_ w2) as Hw.
  { intros x Hx Hr. apply V2, (does_warned head _ w x does_head). by right. }
  set (w' := if _ && _ then _ else w2). assert (warned_ w' = warned_ w2) as Ew.
  { unfold w'. destruct (_ && _); [|done]. by rewrite warned_mark_sym. }
  assert (forall x, x ∈ set_ w1 -> W x ∉ test ++ bounds -> x ∈ set_ w \/ x ∈ warned_ w2) as Hs.
  { intros x Hx Hn. destruct (does_unstored head _ w x does_head Hx Hn); [by left|right; by apply V2]. }
  assert (forall x, W x ∉ test \/ (Stmt.until s = false /\ Stmt.forever s = false /\ bounds ++ sets = [])) as Hf.
  { intros x. apply orb_prop in Ht as [Ht|Ht]; [left; by apply no_store_in|right].
    apply andb_prop in Ht as [Ht Hh]. apply andb_prop in Ht as [Hu Hv]. rewrite negb_true_iff in Hu, Hv. rewrite <- head_events_eq.
    by apply bool_decide_eq_true in Hh. }
  rewrite Ew. split; [|split; [set_solver|]]; [|split; [|split; [|done]]].
  - intros x Hx. unfold w'. destruct (_ && _).
    + apply in_mark_sym. right. by apply S1.
    + apply S2, in_mark_sym. right. by apply S1.
  - intros x Hx Hr. apply Reads_loop in Hr as [Hr|[Hn [Hr|[Hr Htest]]]].
    + apply Hw; [done|]. apply early_app in Hr as [Hr|[_ Hr]].
      * apply early_app. destruct (Hf x) as [?|(_ & _ & E0)]; [by right|].
        apply app_eq_nil in E0 as [E0 _]. rewrite E0 in Hr. by destruct Hr as ([] & ? & ? & _).
      * apply early_in in Hr. unfold sets_of in Hr. destruct (Stmt.sym s); [by apply list_elem_of_singleton in Hr|by apply elem_of_nil in Hr].
    + apply Hw; [done|]. apply early_app. by left.
    + assert (W x ∉ test) as Hnt by (destruct (Hf x) as [?|(? & ? & _)]; auto). apply not_elem_of_app in Hn as [Hnb Hns].
      destruct (decide (x ∈ set_ (mark_sym s w1))) as [Hi|Hi]; [|by apply R2]. apply in_mark_sym in Hi as [?|Hi]; [done|].
      destruct (Hs x Hi); [by apply not_elem_of_app|done..].
  - intros x Hx Hk. pose proof (Keeps_loop x Hk) as Hn. pose proof Hn as [Hnb Hns]%not_elem_of_app.
    unfold w' in Hx. destruct (negb _ && negb _) eqn:Eu.
    + apply andb_prop in Eu as [Eu Ef]. rewrite negb_true_iff in Eu, Ef. apply in_mark_sym in Hx as [?|Hx]; [done|].
      apply (Hs x Hx). apply not_elem_of_app. split; [by apply Keeps_while|done].
    + assert (Stmt.until s || Stmt.forever s = true) as Eo by (by destruct (Stmt.until s), (Stmt.forever s)).
      destruct (K2 x Hx (Keeps_until x (Hc Eo) Eo Hk)) as [Hi|?]; [|by right]. apply in_mark_sym in Hi as [?|Hi]; [done|].
      apply (Hs x Hi). apply not_elem_of_app. split; [|done]. destruct (Hf x) as [?|(Hu & Hv & _)]; [done|]. by rewrite Hu, Hv in Eo.
Qed.

(** No test, or a WHILE whose head has no event. *)
Definition test_alone : bool :=
  bool_decide (ev (Stmt.cond s) = []) || (negb (Stmt.until s) && bool_decide (head_events cand s = [])).
Lemma loop_falls e : Stmt.forever s = false -> B e Falls -> Stmt.until s = true ->
  loop_runs cand s B ((bounds ++ sets) ++ (e ++ test) ++ []) Falls.
Proof.
  intros Hf He Hu. unfold loop_runs. rewrite Hf, Hu. right. right. exists (bounds ++ sets), ((e ++ test) ++ []).
  split; [done|]. split; [by rewrite head_events_eq|]. left. split; [|done]. right. right. exists (e ++ test), [].
  split; [done|]. split; [|apply star_nil]. right. right. exists e, test. split; [done|]. split; [|done]. left. by split.
Qed.
Lemma while_falls : Stmt.forever s = false -> Stmt.until s = false ->
  loop_runs cand s B ((bounds ++ sets) ++ test ++ []) Falls.
Proof.
  intros Hf Hu. unfold loop_runs. rewrite Hf, Hu. right. right. exists (bounds ++ sets), (test ++ []).
  split; [done|]. split; [by rewrite head_events_eq|]. left. split; [|done]. right. right. exists test, [].
  split; [done|]. split; [done|apply star_nil].
Qed.
Lemma loop_Reads_head x : early x (bounds ++ sets) -> Reads (loop_runs cand s B) x.
Proof. intros Hr. apply Reads_seq. left. apply Reads_just. by rewrite head_events_eq. Qed.
Lemma loop_Reads_body x : Stmt.forever s = false -> W x ∉ bounds ++ sets -> W x ∉ test -> Reads B x -> Reads (loop_runs cand s B) x.
Proof.
  intros Hf Hn Ht Hr. apply Reads_seq. right. split; [apply Keeps_just; by rewrite head_events_eq|]. apply Reads_catch.
  rewrite Hf. assert (Reads (seq_ (resume B) (just test)) x) as Hd by (apply Reads_seq; left; by apply Reads_resume).
  destruct (Stmt.until s).
  - apply Reads_seq. by left.
  - apply Reads_seq. right. split; [by apply Keeps_just|by apply Reads_star].
Qed.
Lemma exact_loop (L : walk -> bool * walk) : test_alone = true -> Stmt.forever s = false ->
  (Stmt.until s = true -> forall w, fst (L w) = true) -> exact L B -> exact (loop_walk L) (loop_runs cand s B).
Proof.
  intros Ht Hf Hc HL w b w' E. unfold loop_walk in E. set (w1 := head w) in *. destruct (L _) as [f w2] eqn:E2. injection E as <- <-.
  destruct (HL _ _ _ E2) as (R2 & N2). rewrite warned_mark_sym in R2.
  assert (test = [] \/ (Stmt.until s = false /\ bounds ++ sets = [])) as Ha.
  { apply orb_prop in Ht as [Ht|Ht]; [left; by apply bool_decide_eq_true in Ht|right]. apply andb_prop in Ht as [Hu Hh].
    rewrite negb_true_iff in Hu. apply bool_decide_eq_true in Hh. by rewrite head_events_eq in Hh. }
  assert (forall x, x ∉ set_ (mark_sym s w1) -> x ∉ set_ w /\ W x ∉ bounds ++ sets /\ W x ∉ test) as Hs.
  { intros x Hx. assert (~ (W x ∈ sets \/ x ∈ set_ w \/ W x ∈ test ++ bounds \/ R x ∈ test ++ bounds)) as Hn.
    { intros Hn. apply Hx, in_mark_sym. destruct Hn as [?|Hn]; [by left|right]. by apply (does_set head _ w x does_head). }
    rewrite !not_elem_of_app. rewrite !elem_of_app in Hn. tauto. }
  assert (forall x, x ∈ warned_ w2 -> x ∈ warned_ w \/ x ∉ set_ w /\ Reads (loop_runs cand s B) x) as Hw.
  { intros x Hx. apply R2 in Hx as [Hx|[Hx Hr]].
    - apply (does_warned head _ w x does_head) in Hx as [?|[Hx Hr]]; [by left|right]. split; [done|].
      apply early_app in Hr as [Hr|[Hn Hr]].
      + destruct Ha as [Ha|[Hu Ha]]; [rewrite Ha in Hr; by destruct Hr as ([] & ? & ? & _)|]. apply Reads_seq. right.
        split; [apply Keeps_just; rewrite head_events_eq, Ha; apply not_elem_of_nil|]. apply Reads_catch. rewrite Hf, Hu. apply Reads_seq. left.
        by apply Reads_just.
      + apply loop_Reads_head, early_app. by left.
    - right. destruct (Hs x Hx) as (? & ? & ?). split; [done|]. by apply loop_Reads_body. }
  destruct (Stmt.until s) eqn:Hu; rewrite Hf; cbn [negb andb].
  - split; [exact Hw|]. intros _. specialize (Hc eq_refl (mark_sym s w1)). rewrite E2 in Hc. destruct (N2 Hc) as [[e He] K2].
    split; [exists ((bounds ++ sets) ++ (e ++ test) ++ []); by apply loop_falls|]. intros x Hx. destruct (K2 x Hx) as [Hy (e' & He' & Hn)].
    destruct (Hs x Hy) as (? & ? & ?). split; [done|]. exists ((bounds ++ sets) ++ (e' ++ test) ++ []). split; [by apply loop_falls|].
    rewrite app_nil_r. by rewrite !not_elem_of_app, <- not_elem_of_app.
  - split; [by rewrite warned_mark_sym|]. intros _. pose proof (while_falls Hf Hu) as Hl. split; [by eexists|].
    intros x Hx. assert (x ∉ set_ (mark_sym s w1)) as Hy.
    { intros Hi. apply Hx, in_mark_sym. by apply in_mark_sym in Hi. }
    destruct (Hs x Hy) as (? & ? & ?). split; [done|]. eexists. split; [exact Hl|]. rewrite app_nil_r. by apply not_elem_of_app.
Qed.
End loops.

(** ** The procedures that the walk is right about *)
Section right.
Variable tab : symtab.
Variable cand : gset nat.
Abbreviation stmt := (Unset.stmt tab cand).
Abbreviation stmts := (Unset.stmts tab cand).
Abbreviation runs_of := (runs_of cand).
Abbreviation runs_opt := (runs_opt cand).
Abbreviation runs_list := (runs_list cand).

(** LEAVE and ITERATE stay out of UNTIL and FOREVER loops; a test that stores, by passing a
    variable to a function, comes before whatever else the loop does. *)
Fixpoint tame (inner : bool) (s : Stmt.t) : bool :=
  let opt (o : option Stmt.t) : bool := match o with Some x => tame inner x | None => true end in
  match Stmt.kind s with
  | Stmt.If => opt (Stmt.thenS s) && opt (Stmt.elseS s)
  | Stmt.Group => forallb opt (Stmt.body s)
  | Stmt.Begin => bool_decide (length (Stmt.decls s) = 0%nat) && forallb opt (Stmt.body s)
  | Stmt.DoWhile | Stmt.DoIter =>
      test_first cand s &&
      forallb (fun o => match o with Some x => tame (Stmt.until s || Stmt.forever s) x | None => true end) (Stmt.body s)
  | Stmt.Leave | Stmt.Iterate => negb inner
  | _ => true
  end.
(** Whether a statement can fall through, whatever is set. *)
Fixpoint completes (s : Stmt.t) : bool :=
  let opt (o : option Stmt.t) : bool := match o with Some x => completes x | None => true end in
  match Stmt.kind s with
  | Stmt.If => opt (Stmt.thenS s) || opt (Stmt.elseS s)
  | Stmt.Group | Stmt.Begin => forallb opt (Stmt.body s)
  | Stmt.Return | Stmt.Stop | Stmt.Goto => false
  | _ => true
  end.
Definition opt_completes (o : option Stmt.t) : bool := match o with Some x => completes x | None => true end.
(** No LEAVE, ITERATE or FOREVER; a loop that tests anything is a plain WHILE; the body of an
    UNTIL loop can fall through. *)
Fixpoint structured (s : Stmt.t) : bool :=
  let opt (o : option Stmt.t) : bool := match o with Some x => structured x | None => true end in
  match Stmt.kind s with
  | Stmt.If => opt (Stmt.thenS s) && opt (Stmt.elseS s)
  | Stmt.Group => forallb opt (Stmt.body s)
  | Stmt.Begin => bool_decide (length (Stmt.decls s) = 0%nat) && forallb opt (Stmt.body s)
  | Stmt.DoWhile | Stmt.DoIter =>
      test_alone cand s && negb (Stmt.forever s) && (negb (Stmt.until s) || forallb opt_completes (Stmt.body s)) &&
      forallb opt (Stmt.body s)
  | Stmt.Leave | Stmt.Iterate => false
  | _ => true
  end.

Definition walk_opt (o : option Stmt.t) : walk -> bool * walk := match o with Some t => stmt t | None => on_path (fun w => w) end.
Lemma stmts_cons o b w : stmts (o :: b) w = and_then (walk_opt o) (stmts b) w.
Proof. by destruct o. Qed.
Lemma stmt_unfold s w : stmt s w =
  match Stmt.kind s with
  | Stmt.If => and_then (on_path (readO tab cand (Stmt.cond s))) (branch (walk_opt (Stmt.thenS s)) (walk_opt (Stmt.elseS s))) w
  | Stmt.Group => stmts (Stmt.body s) w
  | Stmt.Begin =>
      let '(falls, w) := stmts (Stmt.body s) w in
      (falls, fold_left (fun w d => match DeclItem.sym d with Some i => with_set (set_ w ∖ {[i]}) w | None => w end) (Stmt.decls s) w)
  | Stmt.DoWhile | Stmt.DoIter => loop_walk tab cand s (stmts (Stmt.body s)) w
  | Stmt.Return | Stmt.Stop => (false, leaf tab cand s w)
  | Stmt.Goto => (false, w)
  | _ => (true, leaf tab cand s w)
  end.
Proof. destruct s as [kd ? ? ? ? ? ? ? ? ? ? ? ? ? ? ? th el ? ? ? ? ? ? ? ? ? ? ? ? ? ?]. by destruct kd, th, el. Qed.
Lemma runs_unfold s : runs_of s =
  match Stmt.kind s with
  | Stmt.If => seq_ (just (ev cand (Stmt.cond s))) (alt (runs_opt (Stmt.thenS s)) (runs_opt (Stmt.elseS s)))
  | Stmt.Group | Stmt.Begin => runs_list (Stmt.body s)
  | Stmt.DoWhile | Stmt.DoIter => loop_runs cand s (runs_list (Stmt.body s))
  | Stmt.Return | Stmt.Stop => ending (leaf_events cand s)
  | Stmt.Goto => ending []
  | Stmt.Leave => fun e o => e = [] /\ o = Leaves
  | Stmt.Iterate => fun e o => e = [] /\ o = Iterates
  | _ => just (leaf_events cand s)
  end.
Proof. by destruct s as [kd ? ? ? ? ? ? ? ? ? ? ? ? ? ? ? th el ? ? ? ? ? ? ? ? ? ? ? ? ? ?]. Qed.

Lemma over_stop f l : does f l -> over (fun w => (false, f w)) (ending l).
Proof.
  intros Hd w b w' [= <- <-]. split; [intros x Hx; apply (does_set f l w x Hd); by left|].
  split; [intros x Hx; apply (does_warned f l w x Hd); by left|].
  split; [|split; [by intros x _ (e & [_ ?] & _)|by intros _ e [_ ?]]].
  intros x Hx (e & o & [-> _] & Hr). apply (does_warned f l w x Hd). by right.
Qed.
Lemma exact_stop f l : does f l -> exact (fun w => (false, f w)) (ending l).
Proof.
  intros Hd w b w' [= <- <-]. split; [|done]. intros x Hx. apply (does_warned f l w x Hd) in Hx as [?|[? ?]]; [by left|right].
  split; [done|]. by exists l, Ends.
Qed.
Lemma over_jump o : o <> Falls -> over (on_path (fun w => w)) (fun e o' => e = [] /\ o' = o).
Proof.
  intros Ho w b w' [= <- <-]. split; [done|]. split; [done|]. split; [|split; [|done]].
  - intros x _ (e & o' & [-> _] & Hr). by destruct Hr as ([] & ? & ? & _).
  - intros x _ (e & [_ Hf] & _). by subst o.
Qed.
Lemma over_opt (Q : Stmt.t -> bool) o : opt_ok (fun s => Q s = true -> over (stmt s) (runs_of s)) o ->
  match o with Some x => Q x | None => true end = true -> over (walk_opt o) (runs_opt o).
Proof. destruct o as [s|]; [by intros H|]. intros _ _. apply over_just, does_id. Qed.
Lemma over_list (Q : Stmt.t -> bool) b : Forall (opt_ok (fun s => Q s = true -> over (stmt s) (runs_of s))) b ->
  forallb (fun o => match o with Some x => Q x | None => true end) b = true -> over (stmts b) (runs_list b).
Proof.
  induction 1 as [|o b Ho _ IH]; intros H.
  - apply over_just, does_id.
  - cbn in H. apply andb_prop in H as [H1 H2]. intros w f w' E. rewrite stmts_cons in E. revert E.
    apply (over_seq _ _ (runs_opt o) (runs_list b)); [by apply (over_opt Q)|by apply IH].
Qed.
Lemma tame_contained s : tame true s = true -> contained (runs_of s).
Proof.
  induction s as [s Ht He _ Hb] using stmt_ind. destruct s as [kd ? ? ? ? ? ? cn ? ? ? ? ? ? ? ? th el body ? ? ? ? ? ? ? ? ? ? ? ? ?].
  cbn in Ht, He, Hb. rewrite runs_unfold. cbn [tame Stmt.kind Stmt.thenS Stmt.elseS Stmt.body Stmt.cond].
  assert (forall o, opt_ok (fun s => tame true s = true -> contained (runs_of s)) o ->
    match o with Some x => tame true x | None => true end = true -> contained (runs_opt o)) as Hopt.
  { intros [x|]; [by intros H|]. intros _ _. apply contained_just. }
  assert (forallb (fun o => match o with Some x => tame true x | None => true end) body = true -> contained (runs_list body)) as Hl.
  { induction Hb as [|o b Ho _ IH]; intros H; [apply contained_just|]. cbn in H. apply andb_prop in H as [H1 H2].
    apply contained_seq; [by apply Hopt|by apply IH]. }
  destruct kd; intros H; try apply contained_just; try apply contained_loop; try done; auto.
  - apply andb_prop in H as [H1 H2]. apply contained_seq; [apply contained_just|]. intros e o [Hr|Hr]; [by eapply Hopt in Hr|by eapply Hopt in Hr].
  - apply andb_prop in H as [_ H]. auto.
  - intros e o [_ ->]. by right.
  - intros e o [_ ->]. by right.
  - intros e o [_ ->]. by right.
Qed.
Lemma tame_list_contained b : forallb (fun o => match o with Some x => tame true x | None => true end) b = true -> contained (runs_list b).
Proof.
  induction b as [|o b IH]; intros H; [apply contained_just|]. cbn in H. apply andb_prop in H as [H1 H2]. apply contained_seq; [|by apply IH].
  destruct o as [x|]; [by apply tame_contained|apply contained_just].
Qed.

Lemma stmt_over s : forall inner, tame inner s = true -> over (stmt s) (runs_of s).
Proof.
  induction s as [s Ht He _ Hb] using stmt_ind. intros inner H w f w' E. rewrite stmt_unfold in E. rewrite runs_unfold.
  pose proof (over_just (leaf tab cand s) _ (does_leaf tab cand s)) as Hleaf.
  pose proof (over_stop (leaf tab cand s) _ (does_leaf tab cand s)) as Hstop.
  assert (forall i o, opt_ok (fun s => forall i, tame i s = true -> over (stmt s) (runs_of s)) o ->
    opt_ok (fun s => tame i s = true -> over (stmt s) (runs_of s)) o) as Hi by (intros i [x|] Hx; [exact (Hx i)|done]).
  assert (forall i, forallb (fun o => match o with Some x => tame i x | None => true end) (Stmt.body s) = true ->
    over (stmts (Stmt.body s)) (runs_list (Stmt.body s))) as Hl.
  { intros i. apply (over_list (tame i)). eapply Forall_impl; [exact Hb|]. apply Hi. }
  destruct s as [kd ? ? ? ? ? ? cn ? ? ? ? ? ? ? ? th el body ? ? ? ? ? ? ? ? ? ? ? ? ?].
  cbn [Stmt.kind Stmt.thenS Stmt.elseS Stmt.body Stmt.cond Stmt.decls] in *.
  destruct kd; cbn [tame Stmt.kind Stmt.thenS Stmt.elseS Stmt.body Stmt.decls Stmt.until Stmt.forever] in H;
    try exact (Hleaf _ _ _ E); try exact (Hstop _ _ _ E).
  - apply andb_prop in H as [H1 H2]. revert E. apply over_seq; [apply over_just, does_readO|].
    apply over_branch; (apply (over_opt (tame inner)); [by apply Hi|done]).
  - exact (Hl _ H _ _ _ E).
  - apply andb_prop in H as [Hd H]. apply bool_decide_eq_true, nil_length_inv in Hd as ->.
    destruct (stmts body w) as [f1 w1] eqn:E1. cbn in E. injection E as <- <-. exact (Hl _ H _ _ _ E1).
  - apply andb_prop in H as [Hf H]. revert E. apply over_loop; [done| |by eapply Hl]. intros Hu. cbn in Hu. rewrite Hu in H. by apply tame_list_contained.
  - apply andb_prop in H as [Hf H]. revert E. apply over_loop; [done| |by eapply Hl]. intros Hu. cbn in Hu. rewrite Hu in H. by apply tame_list_contained.
  - exact (over_jump Leaves ltac:(done) _ _ _ E).
  - exact (over_jump Iterates ltac:(done) _ _ _ E).
Qed.

Lemma completes_falls s : forall w, fst (stmt s w) = completes s.
Proof.
  induction s as [s Ht He _ Hb] using stmt_ind. intros w. rewrite stmt_unfold.
  assert (forall o, opt_ok (fun s => forall w, fst (stmt s w) = completes s) o -> forall w, fst (walk_opt o w) = opt_completes o) as Ho.
  { intros [x|] Hx; [exact Hx|done]. }
  assert (forall w, fst (stmts (Stmt.body s) w) = forallb opt_completes (Stmt.body s)) as Hl.
  { clear -Hb Ho. induction Hb as [|o b Hx _ IH]; intros w; [done|]. rewrite stmts_cons. cbn. rewrite <- (Ho o Hx w). unfold and_then.
    destruct (walk_opt o w) as [[] w1]; [apply IH|done]. }
  destruct s as [kd ? ? ? ? ? ? cn ? ? ? ? ? ? ? ? th el body ? ? ? ? ? ? ? ? ? ? ? ? ?]. cbn [Stmt.kind Stmt.thenS Stmt.elseS Stmt.body] in *.
  destruct kd; try done; cbn [completes Stmt.kind Stmt.thenS Stmt.elseS Stmt.body].
  - unfold and_then, on_path, branch. specialize (Ho _ Ht (readO tab cand cn w)) as H1.
    change (Stmt.cond _) with cn. destruct (walk_opt th _) as [f1 w1]. specialize (Ho _ He (with_set (set_ (readO tab cand cn w)) w1)) as H2.
    destruct (walk_opt el _) as [f2 w2]. cbn in *. by subst.
  - specialize (Hl w). by destruct (stmts body w).
  - unfold loop_walk. by destruct (stmts body _).
  - unfold loop_walk. by destruct (stmts body _).
Qed.
Lemma list_completes b : forall w, fst (stmts b w) = forallb opt_completes b.
Proof.
  induction b as [|o b IH]; intros w; [done|]. rewrite stmts_cons. cbn. unfold and_then.
  assert (fst (walk_opt o w) = opt_completes o) as <- by (destruct o as [x|]; [apply completes_falls|done]).
  destruct (walk_opt o w) as [[] w1]; [apply IH|done].
Qed.
Lemma exact_list b : Forall (opt_ok (fun s => structured s = true -> exact (stmt s) (runs_of s))) b ->
  forallb (fun o => match o with Some x => structured x | None => true end) b = true -> exact (stmts b) (runs_list b).
Proof.
  induction 1 as [|o b Ho _ IH]; intros H.
  - apply exact_just, does_id.
  - cbn in H. apply andb_prop in H as [H1 H2]. intros w f w' E. rewrite stmts_cons in E. revert E.
    apply (exact_seq _ _ (runs_opt o) (runs_list b)); [|by apply IH]. destruct o as [x|]; [by apply Ho|apply exact_just, does_id].
Qed.
Lemma stmt_exact s : structured s = true -> exact (stmt s) (runs_of s).
Proof.
  induction s as [s Ht He _ Hb] using stmt_ind. intros H w f w' E. rewrite stmt_unfold in E. rewrite runs_unfold.
  pose proof (exact_just (leaf tab cand s) _ (does_leaf tab cand s)) as Hleaf.
  pose proof (exact_stop (leaf tab cand s) _ (does_leaf tab cand s)) as Hstop.
  pose proof (exact_list _ Hb) as Hl.
  assert (forall o, opt_ok (fun s => structured s = true -> exact (stmt s) (runs_of s)) o ->
    match o with Some x => structured x | None => true end = true -> exact (walk_opt o) (runs_opt o)) as Ho.
  { intros [x|]; [by intros Hx|]. intros _ _. apply exact_just, does_id. }
  destruct s as [kd ? ? ? ? ? ? cn ? ? ? ? ? ? ? ? th el body ? ? ? ? ? ? ? ? ? ? ? ? ?].
  cbn [Stmt.kind Stmt.thenS Stmt.elseS Stmt.body Stmt.cond Stmt.decls] in *.
  assert (forall s', Stmt.body s' = body -> test_alone cand s' && negb (Stmt.forever s') && (negb (Stmt.until s') || forallb opt_completes body) &&
    forallb (fun o => match o with Some x => structured x | None => true end) body = true ->
    exact (loop_walk tab cand s' (stmts body)) (loop_runs cand s' (runs_list body))) as Hloop.
  { intros s' _ Hs. apply andb_prop in Hs as [Hs Hs4]. apply andb_prop in Hs as [Hs Hs3]. apply andb_prop in Hs as [Hs1 Hs2].
    apply exact_loop; [done|by apply negb_true_iff|intros Hu w0; rewrite list_completes; by rewrite Hu in Hs3|by apply Hl]. }
  destruct kd; cbn [structured Stmt.kind Stmt.thenS Stmt.elseS Stmt.body Stmt.decls Stmt.until Stmt.forever] in H;
    try exact (Hleaf _ _ _ E); try exact (Hstop _ _ _ E); try done.
  - apply andb_prop in H as [H1 H2]. revert E. apply exact_seq; [apply exact_just, does_readO|].
    apply exact_branch; by apply Ho.
  - exact (Hl H _ _ _ E).
  - apply andb_prop in H as [Hd H]. apply bool_decide_eq_true, nil_length_inv in Hd as ->.
    destruct (stmts body w) as [f1 w1] eqn:E1. cbn in E. injection E as <- <-. exact (Hl H _ _ _ E1).
  - match type of E with loop_walk _ _ ?s' _ _ = _ => exact (Hloop s' eq_refl H _ _ _ E) end.
  - match type of E with loop_walk _ _ ?s' _ _ = _ => exact (Hloop s' eq_refl H _ _ _ E) end.
Qed.
End right.

(** ** One warning for each variable *)
Section counting.
Variable tab : symtab.
Variable cand : gset nat.
(** What changes of the set and the warnings keep, the whole walk keeps. *)
Variable P : walk -> Prop.
Hypothesis P_set : forall S w, P w -> P (with_set S w).
Hypothesis P_use : forall s loc w, s ∈ cand -> P w -> P (use tab s loc w).
Definition keeps (f : walk -> walk) : Prop := forall w, P w -> P (f w).
#[local] Set Default Proof Using "Type*".
Lemma tracked_cand e s : tracked cand e = Some s -> s ∈ cand.
Proof. unfold tracked. destruct (_ && _); [|done]. destruct (Expr.sym e); [|done]. by destruct (decide _); intros [= <-]. Qed.
Lemma keeps_fold {A} (f : A -> walk -> walk) l : Forall (fun a => keeps (f a)) l -> keeps (fun w => fold_left (fun w a => f a w) l w).
Proof. induction 1 as [|a l Ha _ IH]; intros w Hw; [done|]. by apply IH, Ha. Qed.
Lemma keeps_each f l : (forall o, keeps (f o)) -> keeps (each f l).
Proof. intros Hf. apply keeps_fold. by apply Forall_true. Qed.
Lemma keeps_mark s : keeps (mark s).
Proof. intros w. apply P_set. Qed.
Lemma keeps_reads e : keeps (read tab cand e) /\ keeps (each (readO tab cand) (Expr.args e)).
Proof.
  induction e as [e _ Ha Hb Hargs] using expr_ind.
  assert (forall o, opt_ok (fun e => keeps (read tab cand e) /\ keeps (each (readO tab cand) (Expr.args e))) o -> keeps (readO tab cand o)) as Ho.
  { intros [x|] Hx; [apply Hx|by intros w]. }
  assert (keeps (each (readO tab cand) (Expr.args e))) as Hl.
  { apply keeps_fold. eapply Forall_impl; [exact Hargs|]. intros o. apply Ho. }
  split; [|exact Hl]. intros w Hw. rewrite read_unfold. assert (P (read_self tab cand e w)) as H1.
  { unfold read_self. destruct (tracked cand e) as [s|] eqn:E; [|done]. apply P_use; [by eapply tracked_cand|done]. }
  set (w1 := read_self tab cand e w) in *. clearbody w1. unfold read_parts. destruct (bool_decide _).
  - revert w1 H1. apply keeps_fold. eapply Forall_impl; [exact Hargs|]. intros [x|] Hx w1 H1; [|done]. cbn in Hx |- *.
    destruct (tracked cand x); [by apply keeps_mark, Hx|by apply Hx].
  - by apply (Ho _ Hb), (Ho _ Ha), Hl.
Qed.
Lemma keeps_readO o : keeps (readO tab cand o).
Proof. destruct o as [e|]; [apply keeps_reads|by intros w]. Qed.
Lemma keeps_store o : keeps (store cand o).
Proof. intros w Hw. unfold store. destruct o as [e|]; [|done]. destruct (tracked cand e); [by apply keeps_mark|done]. Qed.
Lemma keeps_assign o : keeps (assign tab cand o).
Proof. intros w Hw. destruct o as [e|]; [|done]. apply keeps_store. by apply keeps_reads. Qed.
Lemma keeps_argument o : keeps (argument tab cand o).
Proof.
  intros w Hw. destruct o as [e|]; [|done]. cbn. destruct (tracked cand e); [by apply keeps_mark, keeps_reads|by apply keeps_reads].
Qed.
Lemma keeps_leaf s : keeps (leaf tab cand s).
Proof.
  assert (forall o, keeps (fun w => store cand o (readO tab cand o w))) as Hb by (intros o w Hw; by apply keeps_store, keeps_readO).
  intros w Hw. unfold leaf. destruct (Stmt.kind s); try done;
    repeat first [apply keeps_each; [apply keeps_readO || apply keeps_store || apply keeps_assign || apply keeps_argument || apply Hb|]
                 | apply keeps_readO | apply keeps_store | apply keeps_assign | exact Hw].
Qed.
Lemma keeps_mark_sym s : keeps (mark_sym s).
Proof. intros w Hw. unfold mark_sym. destruct (Stmt.sym s); [by apply keeps_mark|done]. Qed.
Lemma keeps_stmt s : keeps (fun w => snd (stmt tab cand s w)).
Proof.
  induction s as [s Ht He _ Hb] using stmt_ind. intros w Hw. cbn. rewrite stmt_unfold.
  assert (forall o, opt_ok (fun s => keeps (fun w => snd (stmt tab cand s w))) o -> keeps (fun w => snd (walk_opt tab cand o w))) as Ho.
  { intros [x|] Hx; [exact Hx|by intros w']. }
  assert (keeps (fun w => snd (stmts tab cand (Stmt.body s) w))) as Hl.
  { clear -Hb Ho. induction Hb as [|o b Hx _ IH]; intros w Hw; [done|]. rewrite stmts_cons. unfold and_then.
    pose proof (Ho o Hx w Hw) as H1. cbn beta in H1. destruct (walk_opt tab cand o w) as [[] w1]; [exact (IH w1 H1)|exact H1]. }
  pose proof (keeps_leaf s w Hw) as Hleaf.
  destruct (Stmt.kind s); try exact Hleaf; try exact Hw; try exact (Hl w Hw).
  - unfold and_then, on_path, branch. pose proof (Ho _ Ht _ (keeps_readO (Stmt.cond s) w Hw)) as H1. cbn beta in H1.
    destruct (walk_opt tab cand (Stmt.thenS s) _) as [f1 w1]. cbn in H1 |- *. pose proof (Ho _ He _ (P_set (set_ (readO tab cand (Stmt.cond s) w)) w1 H1)) as H2. cbn beta in H2.
    destruct (walk_opt tab cand (Stmt.elseS s) _) as [f2 w2]. by apply P_set.
  - pose proof (Hl w Hw) as H1. cbn beta in H1. destruct (stmts tab cand (Stmt.body s) w) as [f1 w1]. cbn in H1 |- *.
    revert w1 H1. apply keeps_fold, Forall_true. intros d w1 H1. destruct (DeclItem.sym d); [by apply P_set|done].
  - unfold loop_walk. pose proof (Hl _ (keeps_mark_sym s _ (keeps_readO (Stmt.by_ s) _ (keeps_readO (Stmt.to s) _
      (keeps_readO (Stmt.from s) _ (keeps_readO (Stmt.cond s) w Hw)))))) as H1. cbn beta in H1. unfold head_walk.
    destruct (stmts tab cand (Stmt.body s) _) as [f1 w1]. cbn in H1 |- *. destruct (_ && _); [by apply keeps_mark_sym, P_set|done].
  - unfold loop_walk. pose proof (Hl _ (keeps_mark_sym s _ (keeps_readO (Stmt.by_ s) _ (keeps_readO (Stmt.to s) _
      (keeps_readO (Stmt.from s) _ (keeps_readO (Stmt.cond s) w Hw)))))) as H1. cbn beta in H1. unfold head_walk.
    destruct (stmts tab cand (Stmt.body s) _) as [f1 w1]. cbn in H1 |- *. destruct (_ && _); [by apply keeps_mark_sym, P_set|done].
Qed.
Lemma keeps_stmts b : keeps (fun w => snd (stmts tab cand b w)).
Proof.
  induction b as [|o b IH]; intros w Hw; [done|]. rewrite stmts_cons. unfold and_then.
  assert (P (snd (walk_opt tab cand o w))) as H1 by (destruct o as [x|]; [by apply keeps_stmt|done]).
  destruct (walk_opt tab cand o w) as [[] w1]; [exact (IH w1 H1)|exact H1].
Qed.
End counting.


(** ** Samples *)
Definition node (kd : Expr.Kind) (nm : string) (s : option nat) (op : Tok.t) (x y : option Expr.t) (l : list (option Expr.t)) : Expr.t :=
  Expr.mk kd (mkLoc 1 1) (fixedBin 31 0) 0 0 0 0 0 [] (txt nm) [] [] s None false false false op x y l.
Definition use_of (s : nat) : Expr.t := node Expr.VarRef "" (Some s) Tok.Eof None None [].
Definition one : Expr.t := node Expr.IntLit "" None Tok.Eof None None [].
Definition above (s : nat) : Expr.t := node Expr.Binary "" None Tok.Gt (Some (use_of s)) (Some one) [].
(** A statement of kind [kd] with target, value, test, start, UNTIL, FOREVER, arms, body and control variable. *)
Definition sample (kd : Stmt.Kind) (tg v c f : option Expr.t) (u fo : bool) (th el : option Stmt.t) (l : list Stmt.t) (s : option nat) : Stmt.t :=
  Stmt.mk kd (mkLoc 1 1) [] [] [] tg v c f None None u fo [] false no_prefixes th el (Some <$> l) [] s Ty_default no_entry no_stream []
    no_file [] None no_task no_on None no_alloc.
Definition set_to (s : nat) (e : Expr.t) : Stmt.t := sample Stmt.Assign (Some (use_of s)) (Some e) None None false false None None [] None.
Definition if_ (c : Expr.t) (th el : option Stmt.t) : Stmt.t := sample Stmt.If None None (Some c) None false false th el [] None.
Definition leave : Stmt.t := sample Stmt.Leave None None None None false false None None [] None.
Definition do_ (c : option Expr.t) (u fo : bool) (l : list Stmt.t) : Stmt.t := sample Stmt.DoWhile None None c None u fo None None l None.
Definition do_from (s : nat) (c : option Expr.t) (l : list Stmt.t) : Stmt.t := sample Stmt.DoIter None None c (Some one) false false None None l (Some s).
(** A procedure whose local variables are [X], 0, [Y], 1, and [C], 2, with this body. *)
Definition locals : symtab := fun _ => plainVar (Some 0%nat).
Definition proc_of (l : list Stmt.t) : Proc.t :=
  Proc.mk (txt "P") (mkLoc 1 1) false false false false Ty_default [] [] false [] [] (Some <$> l) None [] [0; 1]%nat [] [] [].
Definition warnings (l : list Stmt.t) : Z := nwarn_ (checkProc locals (proc_of l) (Diags_new [])).

(** [IF C > 1 THEN X = 1; Y = X;] *)
Definition one_branch : list Stmt.t := [if_ (above 2) (Some (set_to 0 one)) None; set_to 1 (use_of 0)].

(** The candidates of the samples. *)
Definition both : gset nat := {[0%nat; 1%nat]}.
Lemma early_nil x : ~ early x [].
Proof. intros ([] & ? & ? & _); done. Qed.

Ltac open_runs H :=
  cbn [runs_opt runs_list] in H; rewrite ?runs_unfold in H; unfold do_, do_from, if_, sample, set_to, leave, loop_runs in H;
  cbn [Stmt.kind Stmt.forever Stmt.until Stmt.body Stmt.thenS Stmt.elseS fmap list_fmap] in H.
Ltac nil_run H := first [by apply Reads_just, early_nil in H | by apply Reads_just, early_cons in H as [?|[? _]]].
(** Where [--warn-unset] departs from its promise that "a warning is better withheld than
    wrong".  No run of the three first procedures reads [X] before storing it, and each gets
    a warning about it: the test of an UNTIL loop is taken to come before the body; the test
    of a DO with a control variable before the variable is set; and a branch that ends in
    LEAVE joins what follows.  The fourth reads [X] unset when the loop is left at once, and
    gets none. *)
Theorem unset_departs :
  let until := [do_ (Some (above 0)) true false [set_to 0 one]] in
  let control := [do_from 0 (Some (above 0)) []] in
  let left_ := [do_ (Some (above 2)) false false [if_ (above 2) (Some leave) (Some (set_to 0 one)); set_to 1 (use_of 0)]] in
  let at_once := [do_ None false true [if_ (above 2) (Some leave) None; set_to 0 one]; set_to 1 (use_of 0)] in
  let reads l := Reads (runs_list (candidates locals (proc_of l)) (Proc.body (proc_of l))) 0 in
  (warnings until = 1 /\ ~ reads until) /\ (warnings control = 1 /\ ~ reads control) /\
  (warnings left_ = 1 /\ ~ reads left_) /\ (warnings at_once = 0 /\ reads at_once).
Proof.
  cbv zeta. repeat split; try by vm_compute.
  - replace (candidates locals _) with both by by vm_compute. intros Hr.
    apply Reads_seq in Hr as [Hr|[_ Hr]]; [|nil_run Hr]. open_runs Hr.
    apply Reads_seq in Hr as [Hr|[_ Hr]]; [by apply Reads_just, early_nil in Hr|]. rewrite Reads_catch in Hr.
    assert (~ Reads (seq_ (resume (runs_list both [Some (set_to 0 one)])) (just (ev both (Some (above 0))))) 0) as Hn.
    { intros Hx. apply Reads_seq in Hx as [Hx|[Hx _]].
      - rewrite Reads_resume in Hx. apply Reads_seq in Hx as [Hx|[_ Hx]]; open_runs Hx; nil_run Hx.
      - apply Keeps_resume in Hx; [|intros e [[[_ ?] _]|[[_ ?]|(? & ? & _ & _ & [_ ?])]]; done].
        apply Keeps_seq in Hx as [Hx _]. open_runs Hx. apply Keeps_just in Hx. by apply Hx, list_elem_of_here. }
    apply Reads_seq in Hr as [Hr|[_ Hr]]; [by apply Hn|]. rewrite Reads_star in Hr. by apply Hn.
  - replace (candidates locals _) with both by by vm_compute. intros Hr.
    apply Reads_seq in Hr as [Hr|[_ Hr]]; [|nil_run Hr]. open_runs Hr.
    apply Reads_seq in Hr as [Hr|[Hr _]].
    + apply Reads_just, early_cons in Hr as [?|[? _]]; done.
    + apply Keeps_just in Hr. by apply Hr, list_elem_of_here.
  - replace (candidates locals _) with both by by vm_compute. intros Hr.
    apply Reads_seq in Hr as [Hr|[_ Hr]]; [|nil_run Hr]. open_runs Hr.
    apply Reads_seq in Hr as [Hr|[_ Hr]]; [by apply Reads_just, early_nil in Hr|]. rewrite Reads_catch in Hr.
    apply Reads_seq in Hr as [Hr|[_ Hr]]; [nil_run Hr|]. rewrite Reads_star in Hr.
    apply Reads_seq in Hr as [Hr|[_ Hr]]; [|nil_run Hr]. rewrite Reads_resume in Hr.
    apply Reads_seq in Hr as [Hr|[Hk Hr]].
    + open_runs Hr. apply Reads_seq in Hr as [Hr|[_ Hr]]; [nil_run Hr|]. apply Reads_alt in Hr as [Hr|Hr]; open_runs Hr; [|nil_run Hr].
      destruct Hr as (e & o & [-> _] & Hr). by apply early_nil in Hr.
    + open_runs Hk. apply Keeps_seq in Hk as [_ Hk]. apply Keeps_alt in Hk as [Hk|Hk]; open_runs Hk; [by destruct Hk as (e & [_ ?] & _)|].
      apply Keeps_just in Hk. by apply Hk, list_elem_of_here.
  - replace (candidates locals _) with both by by vm_compute. apply Reads_seq. right. split.
    + exists []. split; [|apply not_elem_of_nil]. right. right. exists [], []. split; [done|]. split; [done|]. right. split; [|done].
      left. split; [|done]. apply star_stop; [|done]. left. split; [|done]. left. split; [|done]. right. right. exists [], [].
      split; [done|]. split; [done|]. by left.
    + apply Reads_seq. left. apply Reads_just, early_cons. by left.
Qed.
