(* ===== verification/SemaFaults.v ===== *)
(** * Where the semantic analysis departs ([src/sema.cpp])

    The programs on which the modelled parts of the analysis accept what they mean to
    reject, warn of what cannot happen, or confuse two names: the lemmas of the single
    files brought together. *)
From S2P Require Import Prelude Diag Types Ast Stmts Hir CallGraph Scopes ScopesThms StaticLinks OnCapture Overlay Unset UnsetThms.

(** C40: where the semantic analysis departs from what its comments promise.
    Used before set: an UNTIL loop whose body sets the variable that its test reads gets a
    warning although no run reads it unset, and one that is left at once gets none.
    Rule 5: a procedure that invokes itself in a bound of an ALLOCATE is not
    diagnosed.  ON-units: a local variable written by a PUT STRING is neither captured
    nor diagnosed.  BASED: a locator based on itself is accepted, and
    the note of a reference to it never ends.  DEFINED: POSITION(9223372036854775807) is accepted over
    five characters.  And two homonymous procedures in homonymous
    parents have one name in the IR. *)
Theorem sema_departs :
  (let until := [do_ (Some (above 0)) true false [set_to 0 one]] in
   let at_once := [do_ None false true [if_ (above 2) (Some leave) None; set_to 0 one]; set_to 1 (use_of 0)] in
   let reads l := Reads (runs_list (candidates locals (proc_of l)) (Proc.body (proc_of l))) 0 in
   (warnings until = 1 /\ ~ reads until) /\ (warnings at_once = 0 /\ reads at_once)) /\
  (tc (calls one_proc bound_call) 0%nat 0%nat /\ forall d, checkRecursion one_proc bound_call d = Some d) /\
  (forall d, checkOnUnit local 0 false (on_error put_X) d = ([], d)) /\
  (exists s, outcome_of self_based two_procs = Some s /\ errorCount (d_ s) = 0 /\
     forall n p ps, noteStaticUse (symbols s) n p 0 ps = None) /\
  (let two := chr 2 false in let five := based_on (chr 5 false) in
   exists ov, define_on (txt "A") (mkLoc 1 1) two [] true 9223372036854775807 (Some five) 0 (Diags_new []) = (Some ov, Diags_new []) /\
     item_offset true (fun _ => 0) ov two (sty five) 5 2 [] = 9223372036854775806) /\
  (exists s, outcome_of pass1 two_R = Some s /\ Proc.irName (the_proc s 2) = Proc.irName (the_proc s 5)).
Proof.
  destruct unset_departs as (U1 & _ & _ & U4). split; [exact (conj U1 U4)|].
  split; [split; [|intros d]; apply recursion_missed; exact (Diags_new [])|].
  split; [exact on_unit_missed|]. split; [exact based_on_itself|].
  split; [exact (proj1 defined_departs)|exact (proj1 ir_names_clash)].
Qed.
