(* ===== verification/Effects.v ===== *)
(** * The decision layer: memory effects

    [src/irgen_decisions.cpp]: the taxonomy of storage ([aliasClass]), the walker
    that collects what one procedure's body does, and [analyzeEffects] (
    the recursion mark, the escape mark, the whole-program fixpoint with the
    handler rule, the verdict). *)
From S2P Require Import Prelude Types Lexer Hir EffectFile.

(** ** Alias classes *)
Inductive AliasClass := Disjoint | Shares | AnyStorage.
#[global] Instance AliasClass_dec : EqDecision AliasClass.
Proof. solve_decision. Defined.

Definition aliasClass (s : option Symbol) : AliasClass :=
  match s with
  | None => AnyStorage
  | Some s =>
      if isBased s then AnyStorage
      else if bool_decide (is_Some (definedBase s)) then Shares
      else if controlledSym s then Shares
      else if external s || isStatic s then Shares
      else if bool_decide (skind s = Param) then Shares
      else if bool_decide (skind s = ProcName) || isEntryVar s then Shares
      else Disjoint
  end.

(** ** Reaches and accumulated facts *)
Inductive Reach := Frame | Arg | Other.
#[global] Instance Reach_dec : EqDecision Reach.
Proof. solve_decision. Defined.

Definition wider (x y : Reach) : Reach :=
  match x, y with
  | Other, _ | _, Other => Other
  | Arg, _ | _, Arg => Arg
  | Frame, Frame => Frame
  end.

Definition isArithOp (o : Tok.t) : bool :=
  bool_decide (o = Tok.Plus) || bool_decide (o = Tok.Minus) || bool_decide (o = Tok.Star) ||
  bool_decide (o = Tok.Power).

Inductive BuiltinEffect := ConstantB | Pure | Allocates | Escapes | UnknownB.
#[global] Instance BuiltinEffect_dec : EqDecision BuiltinEffect.
Proof. solve_decision. Defined.

Definition constant_builtins : list text := txt <$>
  ["DECLARESIZE"; "EPSILON"; "MAXVAL"; "MINVAL"; "NULL"; "OMITTED"; "PRESENT";
   "PRECISION"; "REAL"; "IMAG"; "EXPONENT"; "ABS"; "SIGN"; "MAX";
   "MIN"; "TRUNC"; "ROUND"; "CEIL"; "FLOOR"; "ACOS"; "ASIN";
   "ATAN"; "ATAN2"; "ATAND"; "ATANH"; "CBRT"; "COS"; "COSD";
   "COSH"; "ERF"; "ERFC"; "EXP"; "LOG"; "LOG10"; "LOG2";
   "SIN"; "SIND"; "SINH"; "SQRT"; "TAN"; "TAND"; "TANH";
   "COMPLEX"; "CONJG"]%string.
Definition reader_builtins : list text := txt <$>
  ["INDEX"; "LENGTH"; "SUBSTR"; "VERIFY"; "SEARCH"; "TRANSLATE"; "MOD"; "ADD"; "SUBTRACT";
   "MULTIPLY"; "DIVIDE"]%string.
Definition allocator_builtins : list text := txt <$> ["REPEAT"; "REVERSE"]%string.
Definition escaper_builtins : list text := txt <$> ["ADDR"; "BYADDR"]%string.

Definition builtinEffect (op : text) : BuiltinEffect :=
  if bool_decide (op ∈ constant_builtins) then ConstantB
  else if bool_decide (op ∈ reader_builtins) then Pure
  else if bool_decide (op ∈ allocator_builtins) then Allocates
  else if bool_decide (op ∈ escaper_builtins) then Escapes
  else UnknownB.

(** The code's [note] member is never assigned and is not carried. *)
Record Bits := mkBits {
  readsOther : bool; writesOther : bool; readsArg : bool; writesArg : bool;
  opaque : bool; io : bool; hasOnUnit : bool; nameEscapes : bool;
  mayUnwind : bool; mayNotReturn : bool; raiseKeys : gset Z }.
#[global] Instance Bits_dec : EqDecision Bits.
Proof. solve_decision. Defined.

Definition bits0 : Bits := mkBits false false false false false false false false false false ∅.

Definition set_reads (b : Bits) := mkBits true (writesOther b) (readsArg b) (writesArg b) (opaque b)
  (io b) (hasOnUnit b) (nameEscapes b) (mayUnwind b) (mayNotReturn b) (raiseKeys b).
Definition set_writes (b : Bits) := mkBits (readsOther b) true (readsArg b) (writesArg b) (opaque b)
  (io b) (hasOnUnit b) (nameEscapes b) (mayUnwind b) (mayNotReturn b) (raiseKeys b).
Definition set_readsArg (b : Bits) := mkBits (readsOther b) (writesOther b) true (writesArg b) (opaque b)
  (io b) (hasOnUnit b) (nameEscapes b) (mayUnwind b) (mayNotReturn b) (raiseKeys b).
Definition set_writesArg (b : Bits) := mkBits (readsOther b) (writesOther b) (readsArg b) true (opaque b)
  (io b) (hasOnUnit b) (nameEscapes b) (mayUnwind b) (mayNotReturn b) (raiseKeys b).
Definition set_opaque (b : Bits) := mkBits (readsOther b) (writesOther b) (readsArg b) (writesArg b) true
  (io b) (hasOnUnit b) (nameEscapes b) (mayUnwind b) (mayNotReturn b) (raiseKeys b).
Definition set_io (b : Bits) := mkBits (readsOther b) (writesOther b) (readsArg b) (writesArg b) (opaque b)
  true (hasOnUnit b) (nameEscapes b) (mayUnwind b) (mayNotReturn b) (raiseKeys b).
Definition set_onUnit (b : Bits) := mkBits (readsOther b) (writesOther b) (readsArg b) (writesArg b)
  (opaque b) (io b) true (nameEscapes b) (mayUnwind b) (mayNotReturn b) (raiseKeys b).
Definition set_nameEscapes (b : Bits) := mkBits (readsOther b) (writesOther b) (readsArg b) (writesArg b)
  (opaque b) (io b) (hasOnUnit b) true (mayUnwind b) (mayNotReturn b) (raiseKeys b).
Definition set_unwind (b : Bits) := mkBits (readsOther b) (writesOther b) (readsArg b) (writesArg b)
  (opaque b) (io b) (hasOnUnit b) (nameEscapes b) true (mayNotReturn b) (raiseKeys b).
Definition set_noReturn (b : Bits) := mkBits (readsOther b) (writesOther b) (readsArg b) (writesArg b)
  (opaque b) (io b) (hasOnUnit b) (nameEscapes b) (mayUnwind b) true (raiseKeys b).
Definition add_keys (ks : gset Z) (b : Bits) := mkBits (readsOther b) (writesOther b) (readsArg b)
  (writesArg b) (opaque b) (io b) (hasOnUnit b) (nameEscapes b) (mayUnwind b) (mayNotReturn b)
  (raiseKeys b ∪ ks).

Definition noteReach (r : Reach) (isWrite : bool) (b : Bits) : Bits :=
  match r with
  | Other => if isWrite then set_writes b else set_reads b
  | Arg => if isWrite then set_writesArg b else set_readsArg b
  | Frame => b
  end.

Definition effectNote (b : Bits) : text :=
  if hasOnUnit b then txt "establishes an ON unit"
  else if nameEscapes b then txt "its name escapes"
  else if io b then txt "does input or output"
  else if opaque b then txt "calls something whose effects are unknown"
  else if writesOther b then txt "writes memory outside its arguments"
  else if readsOther b then txt "reads memory outside its arguments"
  else if writesArg b then txt "writes its arguments"
  else if readsArg b then txt "reads its arguments"
  else txt "touches no memory".

Record EffectOptions := mkOptions {
  sizeChecks : bool; subscriptChecks : bool; zerodivideChecks : bool; conversionChecks : bool;
  overflowChecks : bool; fixedOverflowChecks : bool }.

(** The condition keys of ast.h. *)
Definition kSizeCondKey : Z := -1.
Definition kSubscriptrangeCondKey : Z := -2.
Definition kZerodivideCondKey : Z := -3.
Definition kConversionCondKey : Z := -4.
Definition kStringrangeCondKey : Z := -5.
Definition kOverflowCondKey : Z := -9.
Definition kFixedoverflowCondKey : Z := -10.

(** ** The walker

    The program's tables: the symbols, whether an AST procedure is a package,
    the procedures and the by-value parameters; [self] is the procedure being
    walked. *)
Record World := mkWorld {
  symbols : nat -> Symbol; isPackage : nat -> bool; procs : list HProc;
  byValue : gset nat; opts : EffectOptions }.

(** [bySrc]: the last procedure mirroring an AST procedure. *)
Definition bySrc (W : World) : gmap nat nat :=
  fst (fold_left (fun '(m, i) p => (match src p with Some s => <[s := i]> m | None => m end, S i))
         (procs W) (∅, 0%nat)).

(** What a walk accumulates: [b_], [escaped_], [calls_], and the shared
    [handlerKeys]. *)
Record walk := mkWalk {
  bits : Bits; escaped : gset nat; calls : list (nat * Reach); handlerKeys : gset Z }.

Definition on_bits (f : Bits -> Bits) (w : walk) : walk :=
  mkWalk (f (bits w)) (escaped w) (calls w) (handlerKeys w).
Definition note_access (r : Reach) (isWrite : bool) : walk -> walk := on_bits (noteReach r isWrite).
Definition raise (on : bool) (key : Z) : walk -> walk :=
  on_bits (if on then add_keys {[key]} else id).
Definition add_call (target : nat) (r : Reach) (w : walk) : walk :=
  mkWalk (bits w) (escaped w) (calls w ++ [(target, r)]) (handlerKeys w).

Section Walker.
Context (W : World) (self : HProc).

Definition raiseSize : walk -> walk := raise (sizeChecks (opts W)) kSizeCondKey.
Definition raiseOverflow : walk -> walk := raise (overflowChecks (opts W)) kOverflowCondKey.
Definition raiseFixedOverflow : walk -> walk :=
  raise (fixedOverflowChecks (opts W)) kFixedoverflowCondKey.

Definition reachOf (s : option nat) : Reach :=
  match s with
  | None => Other
  | Some i =>
      let s := symbols W i in
      if bool_decide (skind s = ProcName) then Frame
      else if external s || isStatic s || controlledSym s then Other
      else if isBased s then Other
      else if bool_decide (is_Some (definedBase s)) then Other
      else
        match owner s with
        | None => Other
        | Some o =>
            if isPackage W o then Other
            else if negb (bool_decide (owner s = src self)) then Arg
            else if bool_decide (skind s = Param) then
              (if bool_decide (i ∈ byValue W) then Frame else Arg)
            else Frame
        end
  end.

Definition reachOfExpr (e : option HExpr.t) : Reach :=
  match e with
  | None => Frame
  | Some e =>
      if bool_decide (HExpr.kind e = HExpr.VarRef) || bool_decide (HExpr.kind e = HExpr.Subscript) then
        match HExpr.locPtr e with Some _ => Other | None => reachOf (HExpr.sym e) end
      else Frame
  end.

Definition args_reach (args : list (option HExpr.t)) : Reach :=
  fold_left (fun r a => wider r (reachOfExpr a)) args Frame.

(** The by-reference actuals: a position whose formal rides by value is
    skipped. *)
Definition callArgReach (callee : HProc) (args : list (option HExpr.t)) : Reach :=
  fst (fold_left (fun '(r, i) a =>
         (match paramSyms callee !! i with
          | Some s => if bool_decide (s ∈ byValue W) then r else wider r (reachOfExpr a)
          | None => wider r (reachOfExpr a)
          end, S i)) args (Frame, 0%nat)).

(** The HIR twin of an AST procedure. *)
Definition twin (p : nat) : option (nat * HProc) :=
  match bySrc W !! p with
  | Some t => (fun h => (t, h)) <$> procs W !! t
  | None => None
  end.

Definition markEscape (s : option nat) (w : walk) : walk :=
  match s with
  | None => w
  | Some s =>
      if negb (bool_decide (skind (symbols W s) = ProcName)) then w
      else match proc (symbols W s) with
           | None => w
           | Some p =>
               match bySrc W !! p with
               | Some t => mkWalk (bits w) ({[t]} ∪ escaped w) (calls w) (handlerKeys w)
               | None => w
               end
           end
  end.

Definition set_opaque_unwind (b : Bits) : Bits := set_unwind (set_opaque b).

(** A built-in call, after its arguments were walked. *)
Definition builtinCall (e : HExpr.t) (writeCtx : bool) (w : walk) : walk :=
  let name := HExpr.name e in
  let r := args_reach (HExpr.args e) in
  let w := on_bits set_unwind w in
  let w :=
    match builtinEffect name with
    | ConstantB => w
    | Pure =>
        let w := note_access r false w in
        let w := if text_eqb name (txt "MOD") || text_eqb name (txt "DIVIDE")
                 then raise (zerodivideChecks (opts W)) kZerodivideCondKey w else w in
        let w := if text_eqb name (txt "SUBSTR") then raise true kStringrangeCondKey w else w in
        if text_eqb name (txt "ADD") || text_eqb name (txt "SUBTRACT") ||
           text_eqb name (txt "MULTIPLY")
        then
          let w := raiseSize w in
          if bool_decide (k (HExpr.ty e) = Float) then raiseOverflow w
          else if bool_decide (k (HExpr.ty e) = FixedDec) then raiseFixedOverflow w
          else w
        else w
    | Allocates => on_bits set_writes w
    | Escapes =>
        if bool_decide (r = Frame) then on_bits set_opaque w else note_access r false w
    | UnknownB => on_bits set_opaque w
    end in
  match HExpr.args e with
  | a :: _ => if writeCtx then note_access (reachOfExpr a) true w else w
  | [] => w
  end.

(** A call expression, after its arguments were walked (every branch of the
    code walks them first). *)
Definition callTail (e : HExpr.t) (writeCtx : bool) (w : walk) : walk :=
  match (symbols W) <$> HExpr.sym e with
  | Some callee =>
      if bool_decide (skind callee = ProcName) then
        match proc callee ≫= twin with
        | Some (t, target) => add_call t (callArgReach target (HExpr.args e)) w
        | None => on_bits set_opaque w
        end
      else if isEntryVar callee || isEntryC callee then on_bits set_opaque_unwind w
      else builtinCall e writeCtx w
  | None => builtinCall e writeCtx w
  end.

Fixpoint walkExpr (e : HExpr.t) (writeCtx : bool) (w : walk) : walk :=
  let isFixedOpt (o : option HExpr.t) :=
    match o with Some x => Types.isFixed (HExpr.ty x) | None => false end in
  match HExpr.kind e with
  | HExpr.IntLit | HExpr.FltLit | HExpr.DecLit | HExpr.CharLit | HExpr.BitLit
  | HExpr.ComplexLit | HExpr.TypeTag | HExpr.Star => w
  | HExpr.VarRef =>
      match HExpr.sym e with
      | None => w
      | Some s =>
          if bool_decide (skind (symbols W s) = ProcName) then markEscape (Some s) w
          else match HExpr.locPtr e with
               | Some l => note_access Other writeCtx (walkExpr l false w)
               | None => note_access (reachOf (Some s)) writeCtx w
               end
      end
  | HExpr.Subscript =>
      let w := fold_left (fun w o => match o with Some x => walkExpr x false w | None => w end)
                 (HExpr.args e) w in
      let w := match HExpr.locPtr e with
               | Some l => note_access Other writeCtx (walkExpr l false w)
               | None => match HExpr.sym e with
                         | Some s => note_access (reachOf (Some s)) writeCtx w
                         | None => w
                         end
               end in
      raise (subscriptChecks (opts W)) kSubscriptrangeCondKey w
  | HExpr.Binary =>
      let w := match HExpr.a e with Some x => walkExpr x false w | None => w end in
      let w := match HExpr.b e with Some x => walkExpr x false w | None => w end in
      let w := if isFixedOpt (HExpr.a e) && isArithOp (HExpr.op e) then raiseSize w else w in
      let w := if isArithOp (HExpr.op e) then
                 if bool_decide (k (HExpr.ty e) = Float) then raiseOverflow w
                 else if bool_decide (k (HExpr.ty e) = FixedDec) then raiseFixedOverflow w
                 else w
               else w in
      if bool_decide (HExpr.op e = Tok.Slash)
      then raise (zerodivideChecks (opts W)) kZerodivideCondKey w else w
  | HExpr.Unary =>
      let w := match HExpr.a e with Some x => walkExpr x false w | None => w end in
      if isFixedOpt (HExpr.a e) && bool_decide (HExpr.op e = Tok.Minus) then raiseSize w else w
  | HExpr.Convert =>
      let w := match HExpr.a e with Some x => walkExpr x false w | None => w end in
      on_bits set_unwind (raise (conversionChecks (opts W)) kConversionCondKey w)
  | HExpr.Call =>
      callTail e writeCtx
        (fold_left (fun w o => match o with Some x => walkExpr x false w | None => w end)
           (HExpr.args e) w)
  end.

Definition walkOpt (o : option HExpr.t) (writeCtx : bool) (w : walk) : walk :=
  match o with Some x => walkExpr x writeCtx w | None => w end.
Definition walkArgs (l : list (option HExpr.t)) (w : walk) : walk :=
  fold_left (fun w o => walkOpt o false w) l w.

Definition walkCallStmt (st : HStmt.t) (w : walk) : walk :=
  let w := walkArgs (HStmt.args st) w in
  match (symbols W) <$> HStmt.sym st with
  | Some callee =>
      match (if bool_decide (skind callee = ProcName) then proc callee else None) with
      | Some p =>
          match twin p with
          | Some (t, target) => add_call t (callArgReach target (HStmt.args st)) w
          | None => on_bits set_opaque w
          end
      | None => on_bits set_opaque_unwind w
      end
  | None => on_bits set_opaque_unwind w
  end.

Definition walkDecl (w : walk) (d : HStmt.decl) : walk :=
  walkOpt (HStmt.dynLenBound d) false
    (walkOpt (HStmt.initCall d) false (walkOpt (HStmt.init d) false w)).

Definition nonzero_literal (e : HExpr.t) : bool :=
  bool_decide (HExpr.kind e = HExpr.IntLit) && negb (HExpr.ival e =? 0).

(** I/O, storage and the condition machinery. *)
Definition walkOutside (st : HStmt.t) (w : walk) : walk :=
  let w := walkOpt (HStmt.target st) false w in
  let w := walkOpt (HStmt.value st) false w in
  let w := walkOpt (HStmt.cond st) false w in
  let w := walkOpt (HStmt.from st) false w in
  let w := walkOpt (HStmt.to st) false w in
  let w := walkOpt (HStmt.by_ st) false w in
  let w := walkArgs (HStmt.items st) w in
  let w := walkOpt (HStmt.stringTarget st) true w in
  let w := walkOpt (HStmt.oncodeExpr st) false w in
  on_bits (fun b => set_opaque (set_io b)) w.

Fixpoint walkStmt (st : HStmt.t) (w : walk) : walk :=
  let walkBody (w : walk) :=
    fold_left (fun w o => match o with Some x => walkStmt x w | None => w end) (HStmt.body st) w in
  match HStmt.kind st with
  | HStmt.Null | HStmt.Leave | HStmt.Iterate | HStmt.Format | HStmt.Entry => w
  | HStmt.Stop | HStmt.Goto => on_bits set_noReturn w
  | HStmt.Declare_ => fold_left walkDecl (HStmt.decls st) w
  | HStmt.Assign =>
      let w := walkOpt (HStmt.target st) true w in
      let w := fold_left (fun w o => walkOpt o true w) (HStmt.extraTargets st) w in
      let w := walkOpt (HStmt.value st) false w in
      match HStmt.target st with
      | Some t => if Types.isChar (HExpr.ty t) then raiseSize w else w
      | None => w
      end
  | HStmt.If =>
      let w := walkOpt (HStmt.cond st) false w in
      let w := match HStmt.thenS st with Some x => walkStmt x w | None => w end in
      match HStmt.elseS st with Some x => walkStmt x w | None => w end
  | HStmt.Group | HStmt.Begin => walkBody w
  | HStmt.DoWhile => walkBody (walkOpt (HStmt.cond st) false (on_bits set_noReturn w))
  | HStmt.DoIter =>
      let w := match HStmt.by_ st with
               | Some b => if nonzero_literal b then w else on_bits set_noReturn w
               | None => w
               end in
      let w := walkOpt (HStmt.from st) false w in
      let w := walkOpt (HStmt.to st) false w in
      let w := walkOpt (HStmt.by_ st) false w in
      walkBody w
  | HStmt.Return => walkOpt (HStmt.value st) false w
  | HStmt.On =>
      let w := on_bits (fun b => set_opaque (set_onUnit b)) w in
      let w := mkWalk (bits w) (escaped w) (calls w) ({[HStmt.condKey st]} ∪ handlerKeys w) in
      match HStmt.unit st with Some x => walkStmt x w | None => w end
  | HStmt.CallS => walkCallStmt st w
  | HStmt.Put | HStmt.Get | HStmt.Display | HStmt.Read | HStmt.Write | HStmt.Rewrite
  | HStmt.Delete | HStmt.Open | HStmt.Close | HStmt.Allocate | HStmt.Free | HStmt.Revert
  | HStmt.Signal | HStmt.Wait | HStmt.Delay => walkOutside st w
  end.

(** [run]: the body, then the hidden result pointer of a structure- or
    character-valued function. *)
Definition runWalker (handlers : gset Z) : walk :=
  let w := fold_left (fun w o => match o with Some x => walkStmt x w | None => w end)
             (body self) (mkWalk bits0 ∅ [] handlers) in
  if isFunction self && (Types.isStruct (retTy self) || Types.isChar (retTy self))
  then on_bits set_writesArg w else w.
End Walker.

(** ** The whole-program analysis *)
Inductive Colour := White | Grey | Black.
#[global] Instance Colour_dec : EqDecision Colour.
Proof. solve_decision. Defined.

(** The facts of the procedures, by index, and the calls each makes. *)
Abbreviation facts := (list Bits).
Abbreviation call_graph := (list (list (nat * Reach))).

Definition callees (G : call_graph) (n : nat) : list nat := fst <$> default [] (G !! n).
Definition colour_of (cs : gmap nat Colour) (n : nat) : Colour := default White (cs !! n).

(** The depth-first search that marks the target of each back edge. *)
Fixpoint visit (G : call_graph) (fuel : nat) (n : nat) (st : gmap nat Colour * facts)
  : gmap nat Colour * facts :=
  match fuel with
  | O => st
  | S f =>
      let st := (<[n := Grey]> (fst st), snd st) in
      let st := fold_left (fun st c =>
                  match colour_of (fst st) c with
                  | Grey => (fst st, alter set_noReturn c (snd st))
                  | White => visit G f c st
                  | Black => st
                  end) (callees G n) st in
      (<[n := Black]> (fst st), snd st)
  end.

Definition mark_recursion (G : call_graph) (bs : facts) : facts :=
  let n := length bs in
  snd (fold_left (fun st p => if bool_decide (colour_of (fst st) p = White)
                              then visit G (S n) p st else st)
         (seq 0 n) (∅, bs)).

Definition mark_escaped (escaped : gset nat) (bs : facts) : facts :=
  imap (fun i b => if bool_decide (i ∈ escaped) then set_nameEscapes (set_opaque b) else b) bs.

(** What a call adds to the caller's facts. *)
Definition absorb (bs : facts) (next : Bits) (c : nat * Reach) : Bits :=
  match bs !! fst c with
  | None => next
  | Some cb =>
      let next := if opaque cb then set_opaque next else next in
      let next := if readsOther cb then set_reads next else next in
      let next := if writesOther cb then set_writes next else next in
      let next := if readsArg cb then noteReach (snd c) false next else next in
      let next := if writesArg cb then noteReach (snd c) true next else next in
      let next := add_keys (raiseKeys cb) next in
      let next := if mayUnwind cb then set_unwind next else next in
      if mayNotReturn cb then set_noReturn next else next
  end.

(** One procedure of a round, in place. *)
Definition update_proc (G : call_graph) (st : facts * bool) (p : nat) : facts * bool :=
  let '(bs, changed) := st in
  match bs !! p with
  | None => st
  | Some b =>
      let next := fold_left (absorb bs) (default [] (G !! p)) b in
      if bool_decide (next = b) then st else (<[p := next]> bs, true)
  end.

Definition handled (handlers : gset Z) (b : Bits) : bool :=
  existsb (fun k => bool_decide (k ∈ handlers) || bool_decide (0 ∈ handlers)) (elements (raiseKeys b)).

(** The handler rule on one procedure. *)
Definition dispatch (handlers : gset Z) (b : Bits) : Bits :=
  if handled handlers b then set_unwind (set_writes b) else b.

(** One round: the new facts, and whether anything changed. *)
Definition round (G : call_graph) (handlers : gset Z) (bs : facts) : facts * bool :=
  let '(bs1, changed) := fold_left (update_proc G) (seq 0 (length bs)) (bs, false) in
  let bs2 := dispatch handlers <$> bs1 in
  (bs2, changed || negb (bool_decide (bs2 = bs1))).

(** [for (round = 0; round <= n + 1; ++round)] with the break; [fuel] is the
    number of rounds left. *)
Fixpoint fixpoint_loop (G : call_graph) (handlers : gset Z) (fuel : nat) (bs : facts) : facts * bool :=
  match fuel with
  | O => (bs, false)
  | S f =>
      let '(bs', changed) := round G handlers bs in
      if changed then fixpoint_loop G handlers f bs' else (bs', true)
  end.

Definition verdict (b : Bits) : ProcEffects :=
  mkEffects
    (if opaque b then Unknown
     else if writesOther b then Unknown
     else if readsOther b then Read
     else if writesArg b then ArgReadWrite
     else if readsArg b then ArgRead
     else NoMemory)
    (negb (opaque b) && negb (mayUnwind b))
    (negb (opaque b) && negb (mayNotReturn b) && bool_decide (raiseKeys b = ∅))
    (effectNote b).

(** The walks of every procedure, in order, sharing the handler keys. *)
Definition walk_all (W : World) : list walk * gset Z :=
  fold_left (fun '(ws, hs) p => let w := runWalker W p hs in (ws ++ [w], handlerKeys w))
    (procs W) ([], ∅).

(** The graph, the facts before the fixpoint, and the handler keys. *)
Definition prepare (W : World) : call_graph * facts * gset Z :=
  let '(ws, hs) := walk_all W in
  let G := calls <$> ws in
  let escaped_set := fold_left (fun s w => s ∪ escaped w) ws ∅ in
  (G, mark_escaped escaped_set (mark_recursion G (bits <$> ws)), hs).

Definition final_facts (W : World) : facts * bool :=
  let '(G, bs, hs) := prepare W in
  fixpoint_loop G hs (length (procs W) + 2) bs.

Definition analyzeEffects (W : World) : list ProcEffects := verdict <$> fst (final_facts W).
