(* ===== verification/EffectsSound.v ===== *)
(** * The effect analysis against its specification

    What a procedure's facts should be, as an inductive relation on the call
    graph, and the fixpoint of Effects.v against it. *)
From S2P Require Import Prelude Types Lexer Hir EffectFile Effects.

(** ** Facts, uniformly *)
Inductive flag :=
  | FOpaque | FUnwind | FNoReturn | FKey (key : Z)
  | FReadsOther | FWritesOther | FReadsArg | FWritesArg.
#[global] Instance flag_dec : EqDecision flag.
Proof. solve_decision. Defined.

Definition has (b : Bits) (f : flag) : Prop :=
  match f with
  | FOpaque => opaque b = true
  | FUnwind => mayUnwind b = true
  | FNoReturn => mayNotReturn b = true
  | FKey k => k ∈ raiseKeys b
  | FReadsOther => readsOther b = true
  | FWritesOther => writesOther b = true
  | FReadsArg => readsArg b = true
  | FWritesArg => writesArg b = true
  end.
#[global] Instance has_dec b f : Decision (has b f).
Proof. destruct f; cbn; apply _. Defined.

(** What a fact of the callee means for the caller, when the call passes
    storage of reach [r]. *)
Inductive transfers (r : Reach) : flag -> flag -> Prop :=
  | t_opaque : transfers r FOpaque FOpaque
  | t_unwind : transfers r FUnwind FUnwind
  | t_noreturn : transfers r FNoReturn FNoReturn
  | t_key k : transfers r (FKey k) (FKey k)
  | t_reads : transfers r FReadsOther FReadsOther
  | t_writes : transfers r FWritesOther FWritesOther
  | t_reads_other : r = Other -> transfers r FReadsArg FReadsOther
  | t_reads_arg : r = Arg -> transfers r FReadsArg FReadsArg
  | t_writes_other : r = Other -> transfers r FWritesArg FWritesOther
  | t_writes_arg : r = Arg -> transfers r FWritesArg FWritesArg.

Definition handles (hs : gset Z) (k : Z) : Prop := k ∈ hs \/ 0 ∈ hs.

(** The specification: a procedure has the facts of its own body, those its
    callees hand up, and, when it can raise a condition the unit handles, what
    a handler may do. *)
Inductive derives (G : call_graph) (hs : gset Z) (bs : facts) : nat -> flag -> Prop :=
  | d_own p b f : bs !! p = Some b -> has b f -> derives G hs bs p f
  | d_call p cs q r f f' :
      G !! p = Some cs -> (q, r) ∈ cs -> derives G hs bs q f' -> transfers r f' f ->
      derives G hs bs p f
  | d_handler p k f :
      derives G hs bs p (FKey k) -> handles hs k -> f = FUnwind \/ f = FWritesOther ->
      derives G hs bs p f.

(** ** One call, one procedure *)

(** [g] turns on the flags of [P] and nothing else. *)
Definition adds (g : Bits -> Bits) (P : flag -> Prop) : Prop :=
  forall b f, has (g b) f <-> has b f \/ P f.

Lemma adds_opaque : adds set_opaque (fun f => f = FOpaque).
Proof. intros b f; destruct f; cbn; naive_solver. Qed.
Lemma adds_unwind : adds set_unwind (fun f => f = FUnwind).
Proof. intros b f; destruct f; cbn; naive_solver. Qed.
Lemma adds_noReturn : adds set_noReturn (fun f => f = FNoReturn).
Proof. intros b f; destruct f; cbn; naive_solver. Qed.
Lemma adds_reads : adds set_reads (fun f => f = FReadsOther).
Proof. intros b f; destruct f; cbn; naive_solver. Qed.
Lemma adds_writes : adds set_writes (fun f => f = FWritesOther).
Proof. intros b f; destruct f; cbn; naive_solver. Qed.
Lemma adds_keys ks : adds (add_keys ks) (fun f => exists k, f = FKey k /\ k ∈ ks).
Proof. intros b f; destruct f; cbn; set_solver. Qed.
Lemma adds_reach r (w : bool) : adds (noteReach r w)
  (fun f => transfers r (if w then FWritesArg else FReadsArg) f).
Proof.
  intros b f. split.
  - destruct r, w, f; cbn; auto; right; by constructor.
  - intros [H|H]; [destruct r, w, f; cbn in *; auto|].
    destruct w; inversion H; subst; done.
Qed.

Lemma has_if (c : bool) g P b f : adds g P ->
  has (if c then g b else b) f <-> has b f \/ c = true /\ P f.
Proof. intros Hg. destruct c; [pose proof (Hg b f)|]; naive_solver. Qed.

(** The pairs of [transfers], by the callee's flag. *)
Lemma transfers_cases r cb f :
  (exists f', has cb f' /\ transfers r f' f) <->
  (opaque cb = true /\ f = FOpaque) \/ (readsOther cb = true /\ f = FReadsOther) \/
  (writesOther cb = true /\ f = FWritesOther) \/
  (readsArg cb = true /\ transfers r FReadsArg f) \/
  (writesArg cb = true /\ transfers r FWritesArg f) \/
  (exists k, f = FKey k /\ k ∈ raiseKeys cb) \/
  (mayUnwind cb = true /\ f = FUnwind) \/ (mayNotReturn cb = true /\ f = FNoReturn).
Proof.
  split.
  - intros (f' & H & Ht). inversion Ht; subst; cbn in H; naive_solver.
  - intros H. decompose [or and ex] H; subst; clear H.
    + exists FOpaque. by repeat constructor.
    + exists FReadsOther. by repeat constructor.
    + exists FWritesOther. by repeat constructor.
    + by exists FReadsArg.
    + by exists FWritesArg.
    + exists (FKey x). by repeat constructor.
    + exists FUnwind. by repeat constructor.
    + exists FNoReturn. by repeat constructor.
Qed.

Lemma has_absorb bs next c f :
  has (absorb bs next c) f <->
  has next f \/ exists cb f', bs !! fst c = Some cb /\ has cb f' /\ transfers (snd c) f' f.
Proof.
  unfold absorb. destruct (bs !! fst c) as [cb|]; [|naive_solver].
  transitivity (has next f \/ exists f', has cb f' /\ transfers (snd c) f' f); [|naive_solver].
  rewrite transfers_cases, (has_if _ _ _ _ _ adds_noReturn), (has_if _ _ _ _ _ adds_unwind).
  pose proof adds_keys as Hk. unfold adds in Hk. rewrite Hk. clear Hk.
  rewrite (has_if _ _ _ _ _ (adds_reach (snd c) true)), (has_if _ _ _ _ _ (adds_reach (snd c) false)),
    (has_if _ _ _ _ _ adds_writes), (has_if _ _ _ _ _ adds_reads), (has_if _ _ _ _ _ adds_opaque).
  tauto.
Qed.

Lemma has_absorb_all bs cs next f :
  has (fold_left (absorb bs) cs next) f <->
  has next f \/ exists q r cb f', (q, r) ∈ cs /\ bs !! q = Some cb /\ has cb f' /\ transfers r f' f.
Proof.
  revert next. induction cs as [|[q r] cs IH]; intros next; cbn [fold_left].
  - split; [by left|]. intros [?|(? & ? & ? & ? & H & _)]; [done|]. by apply elem_of_nil in H.
  - rewrite IH, has_absorb. cbn [fst snd]. split.
    + intros [[?|(cb & f' & ?)]|(q' & r' & cb & f' & ? & ?)]; [by left|right..].
      * exists q, r, cb, f'. set_solver.
      * exists q', r', cb, f'. set_solver.
    + intros [?|(q' & r' & cb & f' & Hin & H)]; [by left; left|].
      apply elem_of_cons in Hin as [[= -> ->]|Hin]; [left; right|right]; eauto 10.
Qed.

(** The handler rule. *)
Lemma handled_spec hs b : handled hs b = true <-> exists k, k ∈ raiseKeys b /\ handles hs k.
Proof.
  unfold handled, handles. rewrite existsb_exists. setoid_rewrite <- list_elem_of_In.
  setoid_rewrite elem_of_elements. setoid_rewrite orb_true_iff.
  setoid_rewrite bool_decide_eq_true. done.
Qed.

Lemma has_dispatch hs b f :
  has (dispatch hs b) f <->
  has b f \/ exists k, has b (FKey k) /\ handles hs k /\ (f = FUnwind \/ f = FWritesOther).
Proof.
  unfold dispatch.
  assert (adds (fun b => set_unwind (set_writes b)) (fun f => f = FUnwind \/ f = FWritesOther)) as Ha.
  { intros b' f'. pose proof (adds_unwind (set_writes b') f'). pose proof (adds_writes b' f'). tauto. }
  rewrite (has_if _ (fun b => set_unwind (set_writes b)) _ _ _ Ha), handled_spec.
  cbn [has]. naive_solver.
Qed.

(** ** Rounds *)
Definition has_at (bs : facts) (p : nat) (f : flag) : Prop := exists b, bs !! p = Some b /\ has b f.
#[global] Instance has_at_dec bs p f : Decision (has_at bs p f).
Proof.
  refine (match bs !! p as o return bs !! p = o -> _ with
          | Some b => fun E => cast_if (decide (has b f))
          | None => fun E => right _ end eq_refl).
  - by exists b.
  - intros (b' & E' & H). congruence.
  - intros (b' & E' & H). congruence.
Defined.

(** The facts [p] takes over from its callees, read off [bs]. *)
Definition takes (G : call_graph) (bs : facts) (p : nat) (f : flag) : Prop :=
  exists cs q r f', G !! p = Some cs /\ (q, r) ∈ cs /\ has_at bs q f' /\ transfers r f' f.

Lemma takes_mono G bs bs' p f :
  (forall q g, has_at bs q g -> has_at bs' q g) -> takes G bs p f -> takes G bs' p f.
Proof. intros H (cs & q & r & f' & ? & ? & ? & ?). exists cs, q, r, f'. eauto. Qed.

Lemma has_at_insert bs p b next q f :
  bs !! p = Some b -> has_at (<[p := next]> bs) q f <-> (q = p /\ has next f) \/ (q <> p /\ has_at bs q f).
Proof.
  intros Hp. unfold has_at. destruct (decide (q = p)) as [->|Hq].
  - rewrite list_lookup_insert_eq by (by eapply lookup_lt_Some). naive_solver.
  - rewrite list_lookup_insert_ne by done. naive_solver.
Qed.

Lemma update_proc_spec G bs ch p bs' ch' :
  update_proc G (bs, ch) p = (bs', ch') ->
  length bs' = length bs /\
  (forall q f, has_at bs' q f <-> has_at bs q f \/ (q = p /\ (p < length bs)%nat /\ takes G bs p f)) /\
  (ch' = false -> ch = false /\ bs' = bs).
Proof.
  unfold update_proc. destruct (bs !! p) as [b|] eqn:Hp.
  2: { intros [= <- <-]. apply lookup_ge_None in Hp. split; [done|]. split; [|done].
       intros q f. split; [by left|]. intros [?|(_ & ? & _)]; [done|lia]. }
  pose proof (lookup_lt_Some _ _ _ Hp) as Hlt.
  assert (forall f, has (fold_left (absorb bs) (default [] (G !! p)) b) f <-> has b f \/ takes G bs p f) as Hn.
  { intros f. rewrite has_absorb_all. apply or_iff_compat_l. unfold takes, has_at. split.
    - intros (q & r & cb & f' & Hin & ? & ? & ?). destruct (G !! p) as [cs|]; [|by apply elem_of_nil in Hin].
      exists cs, q, r, f'. eauto 10.
    - intros (cs & q & r & f' & -> & ? & (cb & ? & ?) & ?). exists q, r, cb, f'. eauto. }
  case_bool_decide as E; intros [= <- <-].
  - split; [done|]. split; [|done]. intros q f. split; [by left|].
    intros [?|(-> & _ & Ht)]; [done|]. exists b. split; [done|]. rewrite <- E. apply Hn. by right.
  - split; [apply length_insert|]. split; [|done]. intros q f.
    rewrite (has_at_insert _ _ b) by done. rewrite Hn. unfold has_at. split.
    + intros [(-> & [H|H])|[_ H]]; [left; by exists b| |by left]. right. done.
    + intros [(c & Hc & H)|(-> & _ & H)]; [|left; auto].
      destruct (decide (q = p)) as [->|]; [left; split; [done|left; congruence]|right; eauto].
Qed.

(** A pass over the procedures of [l], in place. *)
Lemma update_pass_spec G l bs ch bs' ch' :
  fold_left (update_proc G) l (bs, ch) = (bs', ch') ->
  length bs' = length bs /\
  (forall q f, has_at bs q f -> has_at bs' q f) /\
  (forall q f, q ∈ l -> (q < length bs)%nat -> takes G bs q f -> has_at bs' q f) /\
  (forall D : nat -> flag -> Prop,
     (forall q f, has_at bs q f -> D q f) ->
     (forall q cs q' r f f', G !! q = Some cs -> (q', r) ∈ cs -> D q' f' -> transfers r f' f -> D q f) ->
     forall q f, has_at bs' q f -> D q f) /\
  (ch' = false -> ch = false /\ bs' = bs).
Proof.
  revert bs ch. induction l as [|p l IH]; intros bs ch; cbn [fold_left].
  { intros [= <- <-]. split; [done|]. split; [done|]. split; [|eauto].
    intros q f Hq. by apply elem_of_nil in Hq. }
  destruct (update_proc G (bs, ch) p) as [bs1 ch1] eqn:E. intros E'.
  destruct (update_proc_spec _ _ _ _ _ _ E) as (L1 & S1 & C1).
  destruct (IH _ _ E') as (L2 & M2 & P2 & D2 & C2).
  assert (forall q f, has_at bs q f -> has_at bs1 q f) as M1 by (intros q f; rewrite S1; by left).
  split; [lia|]. split; [auto|]. split; [|split].
  - intros q f [->|Hq]%elem_of_cons Hlt Ht.
    + apply M2, S1. by right.
    + apply P2; [done|lia|]. by eapply takes_mono.
  - intros D Hown Hcall. apply D2; [|done]. intros q f. rewrite S1.
    intros [?|(-> & _ & (cs & q' & r & f' & ? & ? & ? & ?))]; [by apply Hown|]. eauto.
  - intros ->. destruct (C2 eq_refl) as [-> ->]. destruct (C1 eq_refl) as [-> ->]. done.
Qed.

Lemma has_at_dispatch hs bs p f :
  has_at (dispatch hs <$> bs) p f <-> exists b, bs !! p = Some b /\ has (dispatch hs b) f.
Proof.
  unfold has_at. rewrite list_lookup_fmap. destruct (bs !! p) as [b|]; cbn; naive_solver.
Qed.

Lemma round_spec G hs bs bs' ch :
  round G hs bs = (bs', ch) ->
  length bs' = length bs /\
  (forall q f, has_at bs q f -> has_at bs' q f) /\
  (forall q f, (q < length bs)%nat -> takes G bs q f -> has_at bs' q f) /\
  (forall q k f, has_at bs' q (FKey k) -> handles hs k -> f = FUnwind \/ f = FWritesOther -> has_at bs' q f) /\
  (forall bs0, (forall q f, has_at bs q f -> derives G hs bs0 q f) ->
               forall q f, has_at bs' q f -> derives G hs bs0 q f) /\
  (ch = false -> bs' = bs).
Proof.
  unfold round. destruct (fold_left _ _ _) as [bs1 ch1] eqn:E. intros [= <- <-].
  destruct (update_pass_spec _ _ _ _ _ _ E) as (L & M & P & D & C).
  assert (forall q f, has_at bs1 q f -> has_at (dispatch hs <$> bs1) q f) as Md.
  { intros q f (b & Hb & H). apply has_at_dispatch. exists b. split; [done|]. apply has_dispatch. by left. }
  split; [by rewrite length_fmap|]. split; [auto|]. split; [|split; [|split]].
  - intros q f Hq Ht. apply Md, P; [|done..]. apply elem_of_seq. lia.
  - intros q k f (b & Hb & H)%has_at_dispatch Hk Hf. apply has_at_dispatch. exists b. split; [done|].
    apply has_dispatch in H as [H|(k' & H & ? & [?|?])]; [|done..].
    apply has_dispatch. right. by exists k.
  - intros bs0 H0. pose proof (D (derives G hs bs0) H0 ltac:(intros; by eapply d_call)) as Hd.
    intros q f (b & Hb & H)%has_at_dispatch. apply has_dispatch in H as [H|(k & H & Hk & Hf)].
    + apply Hd. by exists b.
    + eapply d_handler; [|done..]. apply Hd. by exists b.
  - intros [-> Hd]%orb_false_iff. apply negb_false_iff, bool_decide_eq_true in Hd.
    destruct (C eq_refl) as [_ ->]. done.
Qed.

(** ** The loop *)

(** A fact list closed under the rules. *)
Definition closed (G : call_graph) (hs : gset Z) (bs : facts) : Prop :=
  (forall q f, (q < length bs)%nat -> takes G bs q f -> has_at bs q f) /\
  (forall q k f, has_at bs q (FKey k) -> handles hs k -> f = FUnwind \/ f = FWritesOther -> has_at bs q f).

Lemma loop_spec G hs fuel bs bs' conv :
  fixpoint_loop G hs fuel bs = (bs', conv) ->
  length bs' = length bs /\
  (forall q f, has_at bs q f -> has_at bs' q f) /\
  (forall bs0, (forall q f, has_at bs q f -> derives G hs bs0 q f) ->
               forall q f, has_at bs' q f -> derives G hs bs0 q f) /\
  (conv = true -> closed G hs bs').
Proof.
  revert bs. induction fuel as [|fuel IH]; intros bs; cbn [fixpoint_loop].
  { intros [= <- <-]. split; [done|]. split; [done|]. split; [auto|done]. }
  destruct (round G hs bs) as [bs1 ch] eqn:E. pose proof (round_spec _ _ _ _ _ E) as (L & M & P & H & D & C).
  destruct ch.
  - intros E'. destruct (IH _ E') as (L2 & M2 & D2 & C2).
    split; [lia|]. split; [auto|]. split; [|done]. intros bs0 H0. apply D2. by apply D.
  - intros [= <- <-]. specialize (C eq_refl). subst bs1. split; [done|]. split; [done|].
    split; [auto|]. intros _. split; [done|]. exact H.
Qed.

Lemma closed_derives G hs bs0 bs :
  closed G hs bs -> (length G <= length bs)%nat -> (forall q f, has_at bs0 q f -> has_at bs q f) ->
  forall p f, derives G hs bs0 p f -> has_at bs p f.
Proof.
  intros [Hc Hh] HG Hm p f Hd. induction Hd as [p b f Hb H|p cs q r f f' Hcs Hin Hd IH Ht|p k f Hd IH Hk Hf].
  - apply Hm. by exists b.
  - apply Hc; [apply lookup_lt_Some in Hcs; lia|]. by exists cs, q, r, f'.
  - by eapply Hh.
Qed.

(** ** The rounds are enough for the facts a call passes on unchanged *)
Definition plain (f : flag) : Prop := forall r, transfers r f f.

Definition edge (G : call_graph) (p q : nat) : Prop := exists cs r, G !! p = Some cs /\ (q, r) ∈ cs.

Lemma plain_cases f : f <> FReadsArg -> f <> FWritesArg -> plain f.
Proof. intros ?? r. destruct f; by constructor. Qed.

(** The procedures that have [f]. *)
Definition having (bs : facts) (f : flag) : list nat :=
  filter (fun p => has_at bs p f) (seq 0 (length bs)).

Lemma elem_having bs f p : p ∈ having bs f <-> has_at bs p f.
Proof.
  unfold having. rewrite list_elem_of_filter, elem_of_seq. split; [tauto|].
  intros H. split; [done|]. destruct H as (b & Hb & _). apply lookup_lt_Some in Hb. lia.
Qed.

Lemma having_nodup bs f : NoDup (having bs f).
Proof. apply NoDup_filter, NoDup_seq. Qed.

Lemma having_le bs f : (length (having bs f) <= length bs)%nat.
Proof. unfold having. etransitivity; [apply length_filter|]. by rewrite length_seq. Qed.

Lemma having_grows bs bs' f :
  (forall q, has_at bs q f -> has_at bs' q f) ->
  (length (having bs f) < length (having bs' f))%nat \/ (forall q, has_at bs' q f -> has_at bs q f).
Proof.
  intros Hm. assert (having bs f ⊆+ having bs' f) as Hs.
  { apply NoDup_submseteq; [apply having_nodup|]. intros x. rewrite !elem_having. apply Hm. }
  destruct (Nat.lt_ge_cases (length (having bs f)) (length (having bs' f))) as [|Hge]; [by left|right].
  assert (having bs f ≡ₚ having bs' f) as Hp.
  { apply submseteq_length_Permutation; [done|]. lia. }
  intros q. rewrite <- !elem_having. by rewrite Hp.
Qed.

Lemma having_all bs f : (length bs <= length (having bs f))%nat ->
  forall p, (p < length bs)%nat -> has_at bs p f.
Proof.
  intros Hl p Hp. apply elem_having.
  assert (having bs f ≡ₚ seq 0 (length bs)) as ->.
  { apply submseteq_length_Permutation; [|rewrite length_seq; lia].
    apply NoDup_submseteq; [apply having_nodup|]. intros x. rewrite elem_having, elem_of_seq.
    intros (b & Hb & _). apply lookup_lt_Some in Hb. lia. }
  apply elem_of_seq. lia.
Qed.

Lemma loop_plain G hs fuel bs bs' conv f :
  plain f -> length G = length bs -> (length bs <= fuel + length (having bs f))%nat ->
  fixpoint_loop G hs fuel bs = (bs', conv) ->
  forall p q, rtc (edge G) p q -> (p < length bs)%nat -> has_at bs q f -> has_at bs' p f.
Proof.
  intros Hf. revert bs. induction fuel as [|fuel IH]; intros bs HG Hl; cbn [fixpoint_loop].
  { intros [= <- <-] p q _ Hp _. apply having_all; [lia|done]. }
  destruct (round G hs bs) as [bs1 ch] eqn:E.
  destruct (round_spec _ _ _ _ _ E) as (L & M & P & H & D & C).
  assert ((length (having bs f) < length (having bs1 f))%nat \/
          (forall p q, rtc (edge G) p q -> has_at bs q f -> has_at bs p f)) as [Hgrow|Hcl].
  { destruct (having_grows bs bs1 f (fun q => M q f)) as [?|Hsame]; [by left|right].
    intros p q Hpq Hq. induction Hpq as [p|p q' q (cs & r & Hcs & Hin) Hpq IHp]; [done|].
    apply Hsame, P; [apply lookup_lt_Some in Hcs; lia|]. exists cs, q', r, f. auto. }
  - intros Hloop p q Hpq Hp Hq. assert (ch = true) as ->.
    { destruct ch; [done|]. rewrite (C eq_refl) in Hgrow. lia. }
    apply (IH bs1) with (q := q); [lia|lia|exact Hloop|done|lia|by apply M].
  - intros Hloop p q Hpq Hp Hq.
    assert (has_at bs1 p f) as H1 by (apply M; by eapply Hcl).
    destruct ch; [|by simplify_eq].
    destruct (loop_spec _ _ _ _ _ _ Hloop) as (_ & Hm & _). by apply Hm.
Qed.

(** A condition the unit handles unwinds into its handler. *)
Lemma loop_handled G hs fuel bs bs' conv :
  (0 < fuel)%nat -> fixpoint_loop G hs fuel bs = (bs', conv) ->
  forall p k, has_at bs' p (FKey k) -> handles hs k -> has_at bs' p FUnwind /\ has_at bs' p FWritesOther.
Proof.
  revert bs. induction fuel as [|fuel IH]; intros bs Hf; [lia|]. cbn [fixpoint_loop].
  destruct (round G hs bs) as [bs1 ch] eqn:E. destruct (round_spec _ _ _ _ _ E) as (L & M & P & H & D & C).
  destruct ch.
  - intros Hl. destruct fuel as [|fuel]; [|by apply (IH bs1); [lia|]].
    cbn in Hl. simplify_eq. intros p k Hk Hh. split; eapply H; eauto.
  - intros [= <- <-] p k Hk Hh. split; eapply H; eauto.
Qed.
