(* ===== verification/EffectsRecursion.v ===== *)
(** * The recursion mark

    The depth-first search of the effect analysis: after it, a cycle of the
    call graph has a procedure marked as one that may not return. *)
From S2P Require Import Prelude Types Lexer Hir EffectFile Effects EffectsSound.

Section Search.
Context (G : call_graph) (N : nat).
Hypothesis edges_inside : forall p q, edge G p q -> (q < N)%nat.

(** The procedures finished so far, latest first: every edge of a finished one
    leads to a marked procedure or to one finished earlier. *)
Fixpoint ordered (M : nat -> Prop) (bl : list nat) : Prop :=
  match bl with
  | [] => True
  | u :: bl' => (forall v, edge G u v -> M v \/ v ∈ bl') /\ ordered M bl'
  end.

Lemma ordered_mono (M M' : nat -> Prop) bl : (forall v, M v -> M' v) -> ordered M bl -> ordered M' bl.
Proof.
  intros H. induction bl as [|u bl IH]; cbn; [done|]. intros [H1 H2]. split; [|auto].
  intros v Hv. destruct (H1 v Hv); auto.
Qed.

Definition step_unmarked (M : nat -> Prop) (p q : nat) : Prop := edge G p q /\ ~ M q.

Lemma ordered_closed M bl x y : ordered M bl -> x ∈ bl -> step_unmarked M x y -> y ∈ bl.
Proof.
  induction bl as [|u bl IH]; [intros _ H; by apply elem_of_nil in H|].
  intros [H1 H2] [->|Hx]%elem_of_cons [He Hm]; apply elem_of_cons; right.
  - by destruct (H1 y He).
  - apply IH; [done..|]. by split.
Qed.

Lemma ordered_closed_tc M bl x y : ordered M bl -> x ∈ bl -> tc (step_unmarked M) x y -> y ∈ bl.
Proof.
  intros Ho Hx Ht. induction Ht as [x y Hs|x y z Hs Ht IH]; [by eapply ordered_closed|].
  apply IH. by eapply ordered_closed.
Qed.

Lemma ordered_acyclic M bl x :
  NoDup bl -> ordered M bl -> x ∈ bl -> ~ tc (step_unmarked M) x x.
Proof.
  induction bl as [|u bl IH]; [intros _ _ H; by apply elem_of_nil in H|].
  rewrite NoDup_cons. intros [Hu Hn] [H1 H2] [->|Hx]%elem_of_cons Ht.
  - apply Hu. inversion Ht as [? ? [He Hm]|? y ? [He Hm] Ht']; subst.
    + by destruct (H1 u He).
    + eapply ordered_closed_tc; [exact H2| |exact Ht']. by destruct (H1 y He).
  - by eapply IH.
Qed.

Definition marked (bs : facts) (v : nat) : Prop := has_at bs v FNoReturn.

Record dfs_inv (cs : gmap nat Colour) (bs : facts) (bl : list nat) : Prop := {
  di_len : length bs = N;
  di_nodup : NoDup bl;
  di_black : forall u, colour_of cs u = Black <-> u ∈ bl;
  di_ordered : ordered (marked bs) bl }.

Definition whites (cs : gmap nat Colour) : nat :=
  length (filter (fun p => colour_of cs p = White) (seq 0 N)).

Lemma colour_insert cs n x m : colour_of (<[n := x]> cs) m = if decide (m = n) then x else colour_of cs m.
Proof.
  unfold colour_of. case_decide as E; [subst; by rewrite lookup_insert_eq|].
  by rewrite lookup_insert_ne.
Qed.

Lemma filter_length_mono {A} (P Q : A -> Prop) `{!forall x, Decision (P x), !forall x, Decision (Q x)} l :
  (forall x, P x -> Q x) -> (length (filter P l) <= length (filter Q l))%nat.
Proof.
  intros HPQ. induction l as [|x l IH]; [done|]. rewrite !filter_cons.
  destruct (decide (P x)), (decide (Q x)); cbn; try lia. naive_solver.
Qed.

Lemma whites_mono cs cs' :
  (forall m, colour_of cs' m = White -> colour_of cs m = White) -> (whites cs' <= whites cs)%nat.
Proof. intros H. unfold whites. by apply filter_length_mono. Qed.

Lemma whites_grey cs n x : (n < N)%nat -> colour_of cs n = White -> x <> White ->
  (S (whites (<[n := x]> cs)) <= whites cs)%nat.
Proof.
  intros Hn Hw Hx. unfold whites.
  assert (forall l, n ∈ l -> NoDup l ->
    (S (length (filter (fun p => colour_of (<[n := x]> cs) p = White) l)) <=
     length (filter (fun p => colour_of cs p = White) l))%nat) as H.
  { induction l as [|m l IH]; [intros H; by apply elem_of_nil in H|].
    rewrite NoDup_cons. intros Hin [Hm Hl]. rewrite !filter_cons, colour_insert.
    destruct (decide (m = n)) as [->|Hne].
    - rewrite decide_False by done. rewrite (decide_True _ _ Hw). cbn. apply le_n_S.
      apply filter_length_mono. intros p. rewrite colour_insert. by case_decide.
    - apply elem_of_cons in Hin as [|Hin]; [congruence|]. specialize (IH Hin Hl).
      destruct (decide (colour_of cs m = White)); cbn; lia. }
  apply H; [apply elem_of_seq; lia|apply NoDup_seq].
Qed.

Lemma has_at_mark bs c q f :
  has_at (alter set_noReturn c bs) q f <->
  has_at bs q f \/ (q = c /\ (c < length bs)%nat /\ f = FNoReturn).
Proof.
  unfold has_at. rewrite list_lookup_alter. case_decide as E; [subst|naive_solver].
  destruct (bs !! q) as [b|] eqn:Hb; cbn.
  - split.
    + intros (? & [= <-] & H). apply adds_noReturn in H as [H| ->]; [left; eauto|right].
      apply lookup_lt_Some in Hb. done.
    + intros [(? & [= <-] & H)|(_ & _ & ->)]; eexists; (split; [done|]); apply adds_noReturn; auto.
  - apply lookup_ge_None in Hb. split; [naive_solver|]. intros [?|(_ & ? & _)]; [naive_solver|lia].
Qed.

(** What a search from somewhere does: more procedures finished, the colours
    of those already coloured kept, nothing left grey that was not, and only
    marks added. *)
Record advances (st st' : gmap nat Colour * facts) (bl bl' : list nat) : Prop := {
  ad_inv : dfs_inv (fst st') (snd st') bl';
  ad_bl : exists new, bl' = new ++ bl;
  ad_kept : forall m, colour_of (fst st) m <> White -> colour_of (fst st') m = colour_of (fst st) m;
  ad_grey : forall m, colour_of (fst st) m = White -> colour_of (fst st') m <> Grey;
  ad_marks : forall q f, has_at (snd st) q f -> has_at (snd st') q f;
  ad_only : forall q f, f <> FNoReturn -> has_at (snd st') q f -> has_at (snd st) q f }.

Lemma advances_refl st bl : dfs_inv (fst st) (snd st) bl -> advances st st bl bl.
Proof. intros H. split; try done; [by exists []|congruence]. Qed.

Lemma advances_trans a b c l1 l2 l3 : advances a b l1 l2 -> advances b c l2 l3 -> advances a c l1 l3.
Proof.
  intros [I1 B1 K1 G1 M1 O1] [I2 B2 K2 G2 M2 O2]. split; auto.
  - destruct B1 as [n1 ->], B2 as [n2 ->]. exists (n2 ++ n1). by rewrite app_assoc.
  - intros m Hm. rewrite <- (K1 m Hm). apply K2. by rewrite K1.
  - intros m Hm. destruct (decide (colour_of (fst b) m = White)) as [E|E]; [by apply G2|].
    rewrite (K2 m E). by apply G1.
Qed.

Lemma advances_white st st' bl bl' : advances st st' bl bl' ->
  forall m, colour_of (fst st') m = White -> colour_of (fst st) m = White.
Proof.
  intros H m Hm. destruct (decide (colour_of (fst st) m = White)) as [|E]; [done|].
  rewrite <- (ad_kept _ _ _ _ H m E). done.
Qed.

(** ** The search *)
Definition visits (f : nat) : Prop := forall n st bl,
  dfs_inv (fst st) (snd st) bl -> (n < N)%nat -> colour_of (fst st) n = White ->
  (whites (fst st) <= f)%nat -> exists bl', advances st (visit G f n st) bl bl' /\ n ∈ bl'.

Definition visit_callee (f : nat) (st : gmap nat Colour * facts) (c : nat) : gmap nat Colour * facts :=
  match colour_of (fst st) c with
  | Grey => (fst st, alter set_noReturn c (snd st))
  | White => visit G f c st
  | Black => st
  end.

Lemma visit_callee_spec f st bl c : visits f -> dfs_inv (fst st) (snd st) bl -> (c < N)%nat ->
  (whites (fst st) <= f)%nat -> exists bl', advances st (visit_callee f st c) bl bl' /\
    (marked (snd (visit_callee f st c)) c \/ c ∈ bl').
Proof.
  intros Hf I Hc Hw. unfold visit_callee. destruct (colour_of (fst st) c) eqn:E.
  - destruct (Hf c st bl I Hc E Hw) as (bl' & Ha & Hin). exists bl'. auto.
  - assert (forall q f, has_at (snd st) q f -> has_at (alter set_noReturn c (snd st)) q f) as Hm.
    { intros q g H. apply has_at_mark. by left. }
    exists bl. split.
    + destruct I as [L ND B O]. split; cbn; try done; [split|by exists []|congruence|].
      * by rewrite length_alter.
      * done.
      * done.
      * eapply ordered_mono, O. intros v. apply Hm.
      * intros q g Hg [?|(_ & _ & ->)]%has_at_mark; done.
    + left. apply has_at_mark. right. by rewrite (di_len _ _ _ I).
  - exists bl. split; [by apply advances_refl|]. right. by apply (di_black _ _ _ I).
Qed.

Lemma visit_callees_spec f l st bl : visits f -> dfs_inv (fst st) (snd st) bl ->
  Forall (fun c => (c < N)%nat) l -> (whites (fst st) <= f)%nat ->
  exists bl', advances st (fold_left (visit_callee f) l st) bl bl' /\
    Forall (fun c => marked (snd (fold_left (visit_callee f) l st)) c \/ c ∈ bl') l.
Proof.
  intros Hf. revert st bl. induction l as [|c l IH]; intros st bl I Hl Hw; cbn.
  { exists bl. split; [by apply advances_refl|done]. }
  inversion Hl as [|? ? Hc Hl']; subst.
  destruct (visit_callee_spec f st bl c Hf I Hc Hw) as (bl1 & A1 & H1).
  destruct (IH (visit_callee f st c) bl1) as (bl2 & A2 & H2); [apply A1|done| |].
  { etransitivity; [|exact Hw]. apply whites_mono, (advances_white _ _ _ _ A1). }
  exists bl2. split; [by eapply advances_trans|]. constructor; [|done].
  destruct H1 as [H1|H1]; [left; by apply (ad_marks _ _ _ _ A2)|right].
  destruct (ad_bl _ _ _ _ A2) as [new ->]. apply elem_of_app. by right.
Qed.

Lemma edge_callee p q : edge G p q -> q ∈ callees G p.
Proof.
  intros (cs & r & Hcs & Hin). unfold callees. rewrite Hcs. cbn.
  apply list_elem_of_fmap. by exists (q, r).
Qed.

Lemma callee_edge p q : q ∈ callees G p -> edge G p q.
Proof.
  unfold callees. destruct (G !! p) as [cs|] eqn:E; cbn; [|intros H; by apply elem_of_nil in H].
  intros ([q' r] & -> & Hin)%list_elem_of_fmap. by exists cs, r.
Qed.

Lemma visit_spec f : visits f.
Proof using edges_inside.
  induction f as [|f IH]; intros n [cs bs] bl I Hn Hw Hf; cbn [fst snd] in *.
  { exfalso. assert (n ∈ filter (fun p => colour_of cs p = White) (seq 0 N)) as Hin.
    { apply list_elem_of_filter. split; [done|]. apply elem_of_seq. lia. }
    unfold whites in Hf. destruct (filter _ _); [by apply elem_of_nil in Hin|cbn in Hf; lia]. }
  change (visit G (S f) n (cs, bs)) with
    (let st := fold_left (visit_callee f) (callees G n) (<[n:=Grey]> cs, bs) in
     (<[n:=Black]> (fst st), snd st)).
  pose proof (di_black _ _ _ I n) as Hblack. assert (n ∉ bl) as Hnbl.
  { intros H. apply Hblack in H. congruence. }
  assert (dfs_inv (<[n:=Grey]> cs) bs bl) as I1.
  { destruct I as [L ND B O]. split; [done..| |done]. intros u. rewrite colour_insert.
    case_decide; [subst; split; [done|intros H; by destruct Hnbl]|apply B]. }
  pose proof (whites_grey cs n Grey Hn Hw ltac:(done)) as Hg.
  destruct (visit_callees_spec f (callees G n) (<[n:=Grey]> cs, bs) bl IH I1) as (bl' & A & HF);
    [|cbn; lia|].
  { apply List.Forall_forall. intros c Hc%list_elem_of_In%callee_edge. by eapply edges_inside. }
  set (st' := fold_left _ _ _) in *. cbn. exists (n :: bl').
  destruct A as [I2 B2 K2 G2 M2 O2]. cbn [fst snd] in *.
  assert (colour_of (fst st') n = Grey) as Hgrey.
  { rewrite K2; rewrite colour_insert; by rewrite decide_True. }
  assert (n ∉ bl') as Hnbl'. { intros H. apply (di_black _ _ _ I2) in H. congruence. }
  split; [split; cbn|by left].
  - destruct I2 as [L ND B O]. split; [done|by constructor| |].
    + intros u. rewrite colour_insert, elem_of_cons. case_decide; [naive_solver|].
      rewrite B. naive_solver.
    + cbn. split; [|done]. intros v Hv%edge_callee.
      rewrite List.Forall_forall in HF. apply HF. by apply list_elem_of_In.
  - destruct B2 as [new ->]. by exists (n :: new).
  - intros m Hm. rewrite colour_insert. case_decide; [congruence|]. rewrite K2; rewrite colour_insert;
      by rewrite decide_False.
  - intros m Hm. rewrite colour_insert. case_decide; [done|]. apply G2. rewrite colour_insert.
    by rewrite decide_False.
  - done.
  - done.
Qed.

Definition visit_white (st : gmap nat Colour * facts) (p : nat) : gmap nat Colour * facts :=
  if bool_decide (colour_of (fst st) p = White) then visit G (S N) p st else st.

Lemma visit_all_spec l st bl : dfs_inv (fst st) (snd st) bl -> Forall (fun c => (c < N)%nat) l ->
  exists bl', advances st (fold_left visit_white l st) bl bl' /\
    Forall (fun c => colour_of (fst (fold_left visit_white l st)) c <> White) l.
Proof using edges_inside.
  revert st bl. induction l as [|c l IH]; intros st bl I Hl; cbn.
  { exists bl. split; [by apply advances_refl|done]. }
  inversion Hl as [|? ? Hc Hl']; subst.
  assert (exists bl1, advances st (visit_white st c) bl bl1 /\
            colour_of (fst (visit_white st c)) c <> White) as (bl1 & A1 & H1).
  { unfold visit_white. case_bool_decide as E; [|exists bl; split; [by apply advances_refl|done]].
    destruct (visit_spec (S N) c st bl I Hc E) as (bl1 & A & Hin).
    { unfold whites. etransitivity; [apply length_filter|]. rewrite length_seq. lia. }
    exists bl1. split; [done|]. rewrite (proj2 (di_black _ _ _ (ad_inv _ _ _ _ A) c) Hin). done. }
  destruct (IH (visit_white st c) bl1) as (bl2 & A2 & H2); [apply A1|done|].
  exists bl2. split; [by eapply advances_trans|]. constructor; [|done].
  by rewrite (ad_kept _ _ _ _ A2).
Qed.

(** A path either avoids the marked procedures or has one. *)
Lemma tc_marked bs x y : tc (edge G) x y ->
  tc (step_unmarked (marked bs)) x y \/
  exists z, rtc (edge G) x z /\ rtc (edge G) z y /\ marked bs z.
Proof.
  induction 1 as [x y H|x y z H Ht IH].
  - destruct (decide (has_at bs y FNoReturn)); [right|left; by apply tc_once].
    exists y. split; [by apply rtc_once|]. by split.
  - destruct (decide (has_at bs y FNoReturn)) as [Hm|Hm].
    + right. exists y. split; [by apply rtc_once|]. split; [by apply tc_rtc|done].
    + destruct IH as [IH|(m & H1 & H2 & H3)]; [left; by eapply tc_l|right].
      exists m. split; [by eapply rtc_l|done].
Qed.
End Search.

(** The mark: only "may not return" is added, and every call cycle has a
    marked procedure on it. *)
Lemma mark_recursion_spec (G : call_graph) (bs : facts) :
  (forall p q, edge G p q -> (q < length bs)%nat) ->
  length (mark_recursion G bs) = length bs /\
  (forall q f, has_at bs q f -> has_at (mark_recursion G bs) q f) /\
  (forall q f, f <> FNoReturn -> has_at (mark_recursion G bs) q f -> has_at bs q f) /\
  (forall x, (x < length bs)%nat -> tc (edge G) x x ->
     exists z, rtc (edge G) x z /\ has_at (mark_recursion G bs) z FNoReturn).
Proof.
  intros HG. unfold mark_recursion.
  change (fun st p => if bool_decide (colour_of (fst st) p = White)
                      then visit G (S (length bs)) p st else st)
    with (visit_white G (length bs)).
  destruct (visit_all_spec G (length bs) HG (seq 0 (length bs)) (∅, bs) []) as (bl & A & HF).
  { split; cbn; [done|constructor| |done]. intros u. unfold colour_of. rewrite lookup_empty. cbn.
    split; [done|]. intros H. by apply elem_of_nil in H. }
  { apply List.Forall_forall. intros c Hc%in_seq. lia. }
  set (st' := fold_left _ _ _) in *. destruct A as [I B K Gr M O]. cbn in *.
  split; [apply I|]. split; [done|]. split; [done|]. intros x Hx Ht.
  destruct (tc_marked G (snd st') x x Ht) as [Hu|(z & Hz & _ & Hm)]; [|by exists z].
  exfalso. apply (ordered_acyclic G (marked (snd st')) bl x); [apply I|apply I| |done].
  apply (di_black _ _ _ _ _ I). rewrite List.Forall_forall in HF.
  specialize (HF x ltac:(apply in_seq; lia)).
  assert (colour_of (∅ : gmap nat Colour) x = White) as Hw by (unfold colour_of; by rewrite lookup_empty).
  specialize (Gr x Hw). destruct (colour_of (fst st') x); done.
Qed.
