(* ===== verification/EffectsWalk.v ===== *)
(** * What the effect walker sees

    The walk of a procedure body only adds facts, and it passes through every
    statement and expression of the body: whatever one of them contributes is
    in the facts the analysis starts from. *)
From S2P Require Import Prelude Types Lexer Hir EffectFile Effects EffectsSound.

(** ** The parts of a statement and of an expression that are walked *)
Definition some_list {A} (o : option A) : list A := match o with Some x => [x] | None => [] end.

Definition expr_children (W : World) (e : HExpr.t) : list HExpr.t :=
  match HExpr.kind e with
  | HExpr.VarRef =>
      match HExpr.sym e with
      | Some s => if bool_decide (skind (symbols W s) = ProcName) then [] else some_list (HExpr.locPtr e)
      | None => []
      end
  | HExpr.Subscript => omap id (HExpr.args e) ++ some_list (HExpr.locPtr e)
  | HExpr.Binary => some_list (HExpr.a e) ++ some_list (HExpr.b e)
  | HExpr.Unary | HExpr.Convert => some_list (HExpr.a e)
  | HExpr.Call => omap id (HExpr.args e)
  | _ => []
  end.

Definition is_outside (k : HStmt.Kind) : bool :=
  match k with
  | HStmt.Put | HStmt.Get | HStmt.Display | HStmt.Read | HStmt.Write | HStmt.Rewrite
  | HStmt.Delete | HStmt.Open | HStmt.Close | HStmt.Allocate | HStmt.Free | HStmt.Revert
  | HStmt.Signal | HStmt.Wait | HStmt.Delay => true
  | _ => false
  end.

(** The expressions a statement reads and those it writes. *)
Definition stmt_reads (s : HStmt.t) : list HExpr.t :=
  match HStmt.kind s with
  | HStmt.Declare_ =>
      d ← HStmt.decls s;
      some_list (HStmt.init d) ++ some_list (HStmt.initCall d) ++ some_list (HStmt.dynLenBound d)
  | HStmt.Assign | HStmt.Return => some_list (HStmt.value s)
  | HStmt.If | HStmt.DoWhile => some_list (HStmt.cond s)
  | HStmt.DoIter => some_list (HStmt.from s) ++ some_list (HStmt.to s) ++ some_list (HStmt.by_ s)
  | HStmt.CallS => omap id (HStmt.args s)
  | k =>
      if is_outside k then
        some_list (HStmt.target s) ++ some_list (HStmt.value s) ++ some_list (HStmt.cond s) ++
        some_list (HStmt.from s) ++ some_list (HStmt.to s) ++ some_list (HStmt.by_ s) ++
        omap id (HStmt.items s) ++ some_list (HStmt.oncodeExpr s)
      else []
  end.
Definition stmt_writes (s : HStmt.t) : list HExpr.t :=
  match HStmt.kind s with
  | HStmt.Assign => some_list (HStmt.target s) ++ omap id (HStmt.extraTargets s)
  | k => if is_outside k then some_list (HStmt.stringTarget s) else []
  end.
Definition stmt_children (s : HStmt.t) : list HStmt.t :=
  match HStmt.kind s with
  | HStmt.If => some_list (HStmt.thenS s) ++ some_list (HStmt.elseS s)
  | HStmt.Group | HStmt.Begin | HStmt.DoWhile | HStmt.DoIter => omap id (HStmt.body s)
  | HStmt.On => some_list (HStmt.unit s)
  | _ => []
  end.

(** [stmt_in h s]: [s] occurs in the body of [h]; [read_in], [write_in]: the
    expression occurs in it, read or as the target of an assignment. *)
Definition stmt_in (h : HProc) (s : HStmt.t) : Prop :=
  exists s0, s0 ∈ omap id (body h) /\ rtc (fun a b => b ∈ stmt_children a) s0 s.
Definition read_in (W : World) (h : HProc) (e : HExpr.t) : Prop :=
  exists s e0, stmt_in h s /\
    ((e0 ∈ stmt_reads s /\ rtc (fun a b => b ∈ expr_children W a) e0 e) \/
     (e0 ∈ stmt_writes s /\ tc (fun a b => b ∈ expr_children W a) e0 e)).
Definition write_in (h : HProc) (e : HExpr.t) : Prop := exists s, stmt_in h s /\ e ∈ stmt_writes s.

(** ** Walks only grow *)
Section Grow.
Context (W : World).

Record grows (w w' : walk) : Prop := {
  gr_bits : forall f, has (bits w) f -> has (bits w') f;
  gr_calls : forall c, c ∈ calls w -> c ∈ calls w';
  gr_escaped : forall s, s ∈ escaped w -> s ∈ escaped w';
  gr_handlers : forall k, k ∈ handlerKeys w -> k ∈ handlerKeys w';
  gr_inside : forall q r, (q, r) ∈ calls w' -> (q, r) ∈ calls w \/ (q < length (procs W))%nat }.

#[global] Instance grows_pre : PreOrder grows.
Proof.
  split; [intros w; split; auto|]. intros a b c [A1 A2 A3 A4 A5] [B1 B2 B3 B4 B5]. split; auto.
  intros q r [H|H]%B5; [by apply A5|by right].
Qed.

Definition mono (g : walk -> walk) : Prop := forall w, grows w (g w).

(** [part g h]: a walk [h] runs [g] on the way. *)
Definition part (g h : walk -> walk) : Prop := forall w, exists w', grows w w' /\ grows (g w') (h w).

Lemma part_refl g : part g g.
Proof. intros w. exists w. by split. Qed.
Lemma part_trans g h k : part g h -> part h k -> part g k.
Proof.
  intros H1 H2 w. destruct (H2 w) as (w1 & A1 & B1). destruct (H1 w1) as (w2 & A2 & B2).
  exists w2. split; by etransitivity.
Qed.
Lemma part_after g h k : mono k -> part g h -> part g (fun w => k (h w)).
Proof. intros Hk H w. destruct (H w) as (w' & A & B). exists w'. split; [done|].
  etransitivity; [done|apply Hk]. Qed.
Lemma part_before g h k : mono k -> part g h -> part g (fun w => h (k w)).
Proof.
  intros Hk H w. destruct (H (k w)) as (w' & A & B). exists w'. split; [|done].
  etransitivity; [apply Hk|done].
Qed.

Lemma mono_comp g h : mono g -> mono h -> mono (fun w => g (h w)).
Proof. intros Hg Hh w. etransitivity; [apply Hh|apply Hg]. Qed.
Lemma mono_id : mono (fun w => w).
Proof. intros w. done. Qed.

Lemma mono_bits g P : adds g P -> mono (on_bits g).
Proof. intros Hg w. split; cbn; auto. intros f H. apply Hg. by left. Qed.
Lemma mono_raise on key : mono (raise on key).
Proof. destruct on; cbn; [|intros []; done]. eapply mono_bits, adds_keys. Qed.
Lemma mono_note r wr : mono (note_access r wr).
Proof. eapply mono_bits, adds_reach. Qed.

Lemma mono_fold {A} (f : walk -> A -> walk) l : (forall x, x ∈ l -> mono (fun w => f w x)) ->
  mono (fold_left f l).
Proof.
  induction l as [|x l IH]; intros H w; cbn; [done|].
  etransitivity; [apply (H x); by left|]. apply IH. intros y Hy. apply H. by right.
Qed.
Lemma part_fold {A} (f : walk -> A -> walk) l x : (forall x, x ∈ l -> mono (fun w => f w x)) ->
  x ∈ l -> part (fun w => f w x) (fold_left f l).
Proof.
  induction l as [|y l IH]; intros H Hx; [by apply elem_of_nil in Hx|].
  apply elem_of_cons in Hx as [->|Hx]; intros w; cbn.
  - exists w. split; [done|]. apply mono_fold. intros z Hz. apply H. by right.
  - destruct (IH (fun z Hz => H z ltac:(by right)) Hx (f w y)) as (w' & A1 & B1).
    exists w'. split; [|done]. etransitivity; [apply (H y); by left|done].
Qed.

(** Growth of the walker's own steps. *)
Lemma mono_opaque : mono (on_bits set_opaque). Proof. eapply mono_bits, adds_opaque. Qed.
Lemma mono_unwind : mono (on_bits set_unwind). Proof. eapply mono_bits, adds_unwind. Qed.
Lemma mono_noReturn : mono (on_bits set_noReturn). Proof. eapply mono_bits, adds_noReturn. Qed.
Lemma mono_writes : mono (on_bits set_writes). Proof. eapply mono_bits, adds_writes. Qed.
Lemma adds_opaque_unwind : adds set_opaque_unwind (fun f => f = FOpaque \/ f = FUnwind).
Proof.
  intros b f. unfold set_opaque_unwind. pose proof (adds_unwind (set_opaque b) f).
  pose proof (adds_opaque b f). tauto.
Qed.
Lemma mono_opaque_unwind : mono (on_bits set_opaque_unwind).
Proof. eapply mono_bits, adds_opaque_unwind. Qed.
Lemma adds_outside : adds (fun b => set_opaque (set_io b)) (fun f => f = FOpaque).
Proof. intros b f. destruct f; cbn; naive_solver. Qed.
Lemma adds_on : adds (fun b => set_opaque (set_onUnit b)) (fun f => f = FOpaque).
Proof. intros b f. destruct f; cbn; naive_solver. Qed.
Lemma adds_writesArg : adds set_writesArg (fun f => f = FWritesArg).
Proof. intros b f. destruct f; cbn; naive_solver. Qed.
End Grow.

Create HintDb walks.
#[export] Hint Resolve mono_id mono_raise mono_note mono_opaque mono_unwind mono_noReturn mono_writes
  mono_opaque_unwind part_refl : walks.

(** ** Induction on expressions and statements *)
Definition opt_all {A} (P : A -> Prop) (o : option A) : Prop :=
  match o with Some x => P x | None => True end.

Section Induction.
Context (P : HExpr.t -> Prop) (Q : HStmt.t -> Prop).
Hypothesis estep : forall e, opt_all P (HExpr.locPtr e) -> opt_all P (HExpr.a e) ->
  opt_all P (HExpr.b e) -> Forall (opt_all P) (HExpr.args e) -> P e.
Hypothesis sstep : forall s, opt_all Q (HStmt.thenS s) -> opt_all Q (HStmt.elseS s) ->
  opt_all Q (HStmt.unit s) -> Forall (opt_all Q) (HStmt.body s) -> Q s.

Fixpoint hexpr_ind (e : HExpr.t) : P e :=
  let opt (o : option HExpr.t) : opt_all P o :=
    match o return opt_all P o with Some x => hexpr_ind x | None => I end in
  estep e (opt (HExpr.locPtr e)) (opt (HExpr.a e)) (opt (HExpr.b e))
    ((fix go (l : list (option HExpr.t)) : Forall (opt_all P) l :=
        match l with
        | [] => List.Forall_nil _
        | o :: l' => List.Forall_cons _ o l' (opt o) (go l')
        end) (HExpr.args e)).

Fixpoint hstmt_ind (s : HStmt.t) : Q s :=
  let opt (o : option HStmt.t) : opt_all Q o :=
    match o return opt_all Q o with Some x => hstmt_ind x | None => I end in
  sstep s (opt (HStmt.thenS s)) (opt (HStmt.elseS s)) (opt (HStmt.unit s))
    ((fix go (l : list (option HStmt.t)) : Forall (opt_all Q) l :=
        match l with
        | [] => List.Forall_nil _
        | o :: l' => List.Forall_cons _ o l' (opt o) (go l')
        end) (HStmt.body s)).
End Induction.

Section Walks.
Context (W : World) (self : HProc).
#[local] Abbreviation mono := (mono W).
#[local] Abbreviation part := (part W).
#[local] Abbreviation walkExpr := (walkExpr W self).
#[local] Abbreviation walkStmt := (walkStmt W self).

Lemma mono_add_call t target args w0 : twin W args = Some (t, target) ->
  forall r, grows W w0 (add_call t r w0).
Proof.
  intros H r. split; cbn; auto; [intros c Hc; apply elem_of_app; by left|].
  intros q r' [?|Hq]%elem_of_app; [by left|right]. apply list_elem_of_singleton in Hq as [= -> ->].
  unfold twin in H. destruct (bySrc W !! args) as [t'|]; [|done]. destruct (procs W !! t') eqn:E; [|done].
  cbn in H. simplify_eq. by eapply lookup_lt_Some.
Qed.

Lemma mono_markEscape s : mono (markEscape W s).
Proof.
  intros w. unfold markEscape. repeat case_match; try done. split; cbn; auto. set_solver.
Qed.

Lemma mono_if (c : bool) g h : mono g -> mono h -> mono (fun w => if c then g w else h w).
Proof. by destruct c. Qed.

(** What a built-in call does after the "may unwind" mark. *)
Definition builtin_rest (e : HExpr.t) (wr : bool) (w : walk) : walk :=
  let name := HExpr.name e in
  let r := args_reach W self (HExpr.args e) in
  let w :=
    match builtinEffect name with
    | ConstantB => w
    | Pure =>
        let w := note_access r false w in
        let w := if text_eqb name (txt "MOD") || text_eqb name (txt "DIVIDE")
                 then raise (zerodivideChecks (opts W)) kZerodivideCondKey w else w in
        let w := if text_eqb name (txt "SUBSTR") then raise true kStringrangeCondKey w else w in
        if text_eqb name (txt "ADD") || text_eqb name (txt "SUBTRACT") || text_eqb name (txt "MULTIPLY")
        then
          let w := raiseSize W w in
          if bool_decide (k (HExpr.ty e) = Float) then raiseOverflow W w
          else if bool_decide (k (HExpr.ty e) = FixedDec) then raiseFixedOverflow W w
          else w
        else w
    | Allocates => on_bits set_writes w
    | Escapes =>
        if bool_decide (r = Frame) then on_bits set_opaque w else note_access r false w
    | UnknownB => on_bits set_opaque w
    end in
  match HExpr.args e with
  | a :: _ => if wr then note_access (reachOfExpr W self a) true w else w
  | [] => w
  end.

Lemma mono_builtin_rest e wr : mono (builtin_rest e wr).
Proof.
  intros w. unfold builtin_rest, raiseSize, raiseOverflow, raiseFixedOverflow.
  repeat first [ progress (cbv zeta) | case_match ]; subst;
    repeat first [ done | apply mono_note | apply mono_raise | apply mono_writes | apply mono_opaque
                 | etransitivity; [|apply mono_note] | etransitivity; [|apply mono_raise]
                 | etransitivity; [|apply mono_writes] | etransitivity; [|apply mono_opaque] ].
Qed.

Lemma mono_builtinCall e wr : mono (builtinCall W self e wr).
Proof. intros w. etransitivity; [apply mono_unwind|]. apply (mono_builtin_rest e wr). Qed.

Lemma mono_callTail e wr : mono (callTail W self e wr).
Proof.
  intros w. unfold callTail. destruct (symbols W <$> HExpr.sym e) as [callee|]; [|apply mono_builtinCall].
  case_bool_decide.
  - destruct (proc callee) as [p|]; cbn; [|apply mono_opaque].
    destruct (twin W p) as [[t target]|] eqn:E; [by eapply mono_add_call|apply mono_opaque].
  - case_match; [apply mono_opaque_unwind|apply mono_builtinCall].
Qed.

Definition walk_opt (w : walk) (o : option HExpr.t) : walk :=
  match o with Some x => walkExpr x false w | None => w end.

Lemma mono_walk_opt o : opt_all (fun e => forall wr, mono (walkExpr e wr)) o ->
  mono (fun w => walk_opt w o).
Proof. destruct o as [x|]; cbn; [auto|intros _ w; done]. Qed.

(** What the code does once the operands were walked. *)
Definition binary_tail (o : Tok.t) (ty : Ty) (fixed : bool) (w : walk) : walk :=
  let w := if fixed && isArithOp o then raiseSize W w else w in
  let w := if isArithOp o then
             if bool_decide (k ty = Float) then raiseOverflow W w
             else if bool_decide (k ty = FixedDec) then raiseFixedOverflow W w
             else w
           else w in
  if bool_decide (o = Tok.Slash) then raise (zerodivideChecks (opts W)) kZerodivideCondKey w else w.
Definition subscript_access (s : option nat) (l : option HExpr.t) (wr : bool) (w : walk) : walk :=
  match l with
  | Some l => note_access Other wr (walkExpr l false w)
  | None => match s with Some s => note_access (reachOf W self (Some s)) wr w | None => w end
  end.
Definition subscript_raise : walk -> walk := raise (subscriptChecks (opts W)) kSubscriptrangeCondKey.

Lemma mono_binary_tail o ty fixed : mono (binary_tail o ty fixed).
Proof.
  intros w. unfold binary_tail, raiseSize, raiseOverflow, raiseFixedOverflow.
  repeat case_match; repeat first [done | apply mono_raise | etransitivity; [|apply mono_raise] ].
Qed.

Lemma mono_subscript_access s l wr :
  opt_all (fun e => forall wr, mono (walkExpr e wr)) l -> mono (subscript_access s l wr).
Proof.
  intros Hl w. unfold subscript_access. destruct l as [l|].
  - etransitivity; [apply Hl|apply mono_note].
  - destruct s; [apply mono_note|done].
Qed.

Lemma walkExpr_mono e : forall wr, mono (walkExpr e wr).
Proof.
  induction e as [e Hl Ha Hb Hargs] using hexpr_ind.
  intros wr w.
  assert (mono (fold_left walk_opt (HExpr.args e))) as Hfold.
  { apply mono_fold. intros o Ho. apply mono_walk_opt. rewrite List.Forall_forall in Hargs.
    by apply Hargs, list_elem_of_In. }
  pose proof Hl as Hl'. apply mono_walk_opt in Ha, Hb, Hl.
  destruct e as [k lc ty iv wiv fv dsc dpr sv nm pth mp s l o a b args cv lb]. cbn -[markEscape note_access raise callTail on_bits] in *.
  destruct k; try done.
  - destruct s as [s|]; [|done]. case_bool_decide; [apply mono_markEscape|].
    destruct l as [l|]; [|apply mono_note]. etransitivity; [apply Hl|apply mono_note].
  - change (grows W w (binary_tail o ty (match a with Some x => isFixed (HExpr.ty x) | None => false end)
      (walk_opt (walk_opt w a) b))).
    etransitivity; [apply Ha|]. etransitivity; [apply Hb|apply mono_binary_tail].
  - etransitivity; [apply Ha|]. fold (walk_opt w a). case_match; [apply mono_raise|done].
  - etransitivity; [apply Hfold|]. apply mono_callTail.
  - etransitivity; [apply Hfold|]. etransitivity; [|apply mono_raise].
    change (grows W (fold_left walk_opt args w) (subscript_access s l wr (fold_left walk_opt args w))).
    by apply mono_subscript_access.
  - etransitivity; [apply Ha|]. fold (walk_opt w a).
    etransitivity; [apply mono_raise|apply mono_unwind].
Qed.

Lemma mono_walkExpr_opt o : opt_all (fun e => forall wr, mono (walkExpr e wr)) o.
Proof. destruct o; cbn; [apply walkExpr_mono|done]. Qed.
Lemma mono_walkOpt o wr : mono (walkOpt W self o wr).
Proof. destruct o; cbn; [apply walkExpr_mono|apply mono_id]. Qed.
Lemma mono_walkArgs l : mono (walkArgs W self l).
Proof. apply mono_fold. intros x _. apply mono_walkOpt. Qed.

Lemma elem_some_list {A} (o : option A) x : x ∈ some_list o <-> o = Some x.
Proof. destruct o; cbn; [rewrite list_elem_of_singleton; naive_solver|]. split; [intros H; by apply elem_of_nil in H|done]. Qed.
Lemma elem_omap_id {A} (l : list (option A)) x : x ∈ omap id l <-> Some x ∈ l.
Proof. rewrite list_elem_of_omap. unfold id. naive_solver. Qed.

Lemma part_walk_opt o c : o = Some c -> part (walkExpr c false) (fun w => walk_opt w o).
Proof. intros ->. apply part_refl. Qed.
Lemma part_walk_args l c : Some c ∈ l -> part (walkExpr c false) (fold_left walk_opt l).
Proof.
  intros H. apply (part_fold W walk_opt l (Some c)); [|done].
  intros o _. apply mono_walk_opt, mono_walkExpr_opt.
Qed.

(** Every walked child is walked. *)
Lemma part_expr_child e wr c : c ∈ expr_children W e -> part (walkExpr c false) (walkExpr e wr).
Proof.
  destruct e as [k lc ty iv wiv fv dsc dpr sv nm pth mp s l o a b args cv lb]. unfold expr_children. cbn [HExpr.kind HExpr.sym HExpr.locPtr
    HExpr.args HExpr.a HExpr.b].
  assert (forall o, mono (fun w => walk_opt w o)) as Hm by (intros; apply mono_walk_opt, mono_walkExpr_opt).
  destruct k; try (intros H; by apply elem_of_nil in H).
  - intros H. change (part (walkExpr c false) (fun w =>
      match s with None => w | Some s =>
        if bool_decide (skind (symbols W s) = ProcName) then markEscape W (Some s) w
        else match l with
             | Some l => note_access Other wr (walkExpr l false w)
             | None => note_access (reachOf W self (Some s)) wr w
             end end)).
    destruct s as [s|]; [|by apply elem_of_nil in H]. case_bool_decide; [by apply elem_of_nil in H|].
    apply elem_some_list in H as ->. apply (part_after W _ (walkExpr c false)); [apply mono_note|apply part_refl].
  - rewrite elem_of_app, !elem_some_list. intros H.
    change (part (walkExpr c false) (fun w => binary_tail o ty
      (match a with Some x => isFixed (HExpr.ty x) | None => false end) (walk_opt (walk_opt w a) b))).
    apply (part_after W _ (fun w => walk_opt (walk_opt w a) b)); [apply mono_binary_tail|].
    destruct H as [H|H].
    + apply (part_after W _ (fun w => walk_opt w a) (fun w => walk_opt w b)); [done|by apply part_walk_opt].
    + apply (part_before W _ (fun w => walk_opt w b) (fun w => walk_opt w a)); [done|by apply part_walk_opt].
  - rewrite elem_some_list. intros ->.
    apply (part_after W _ (walkExpr c false)
      (fun w => if isFixed (HExpr.ty c) && bool_decide (o = Tok.Minus) then raiseSize W w else w));
      [|apply part_refl].
    intros w. case_match; [apply mono_raise|done].
  - rewrite elem_omap_id. intros H.
    apply (part_after W _ (fold_left walk_opt args)); [apply mono_callTail|by apply part_walk_args].
  - rewrite elem_of_app, elem_omap_id, elem_some_list. intros H.
    apply (part_after W _ (fun w => subscript_access s l wr (fold_left walk_opt args w)) subscript_raise);
      [apply mono_raise|]. destruct H as [H| ->].
    + apply (part_after W _ (fold_left walk_opt args)); [|by apply part_walk_args].
      apply mono_subscript_access, mono_walkExpr_opt.
    + apply (part_before W _ (subscript_access s (Some c) wr)).
      * apply mono_fold. intros o' _. apply Hm.
      * apply (part_after W _ (walkExpr c false)); [apply mono_note|apply part_refl].
  - rewrite elem_some_list. intros ->.
    apply (part_after W _ (walkExpr c false)
      (fun w => on_bits set_unwind (raise (conversionChecks (opts W)) kConversionCondKey w)));
      [|apply part_refl].
    intros w. etransitivity; [apply mono_raise|apply mono_unwind].
Qed.

(** ** Statements *)
Definition walk_stmt_opt (w : walk) (o : option HStmt.t) : walk :=
  match o with Some x => walkStmt x w | None => w end.
Definition walk_body (l : list (option HStmt.t)) (w : walk) : walk := fold_left walk_stmt_opt l w.

Lemma mono_walkCallStmt s : mono (walkCallStmt W self s).
Proof.
  intros w. unfold walkCallStmt. etransitivity; [apply mono_walkArgs|].
  destruct (symbols W <$> HStmt.sym s) as [callee|]; [|apply mono_opaque_unwind].
  case_match; [|apply mono_opaque_unwind].
  destruct (twin W n) as [[t target]|] eqn:E; [by eapply mono_add_call|apply mono_opaque].
Qed.

Lemma mono_walkDecl d : mono (fun w => walkDecl W self w d).
Proof. intros w. unfold walkDecl. repeat (etransitivity; [|apply mono_walkOpt]). done. Qed.

Lemma mono_walkOutside s : mono (walkOutside W self s).
Proof.
  intros w. unfold walkOutside. cbv zeta.
  etransitivity; [|eapply mono_bits, adds_outside].
  do 2 (etransitivity; [|apply mono_walkOpt]). etransitivity; [|apply mono_walkArgs].
  repeat (etransitivity; [|apply mono_walkOpt]). done.
Qed.

Definition on_unit (key : Z) (w : walk) : walk :=
  let w := on_bits (fun b => set_opaque (set_onUnit b)) w in
  mkWalk (bits w) (escaped w) (calls w) ({[key]} ∪ handlerKeys w).

Lemma mono_on_unit key : mono (on_unit key).
Proof.
  intros w. unfold on_unit. cbv zeta. etransitivity; [eapply mono_bits, adds_on|].
  split; cbn; auto. set_solver.
Qed.

(** A loop that may not end. *)
Definition unbounded_by (s : HStmt.t) : bool :=
  match HStmt.by_ s with Some b => negb (nonzero_literal b) | None => false end.

Definition assign_tail (s : HStmt.t) (w : walk) : walk :=
  match HStmt.target s with
  | Some t => if Types.isChar (HExpr.ty t) then raiseSize W w else w
  | None => w
  end.
Lemma mono_assign_tail s : mono (assign_tail s).
Proof. intros w. unfold assign_tail. repeat case_match; try done. apply mono_raise. Qed.

(** The walk of a statement, by kind. *)
Lemma walkStmt_unfold s w : walkStmt s w =
  match HStmt.kind s with
  | HStmt.Null | HStmt.Leave | HStmt.Iterate | HStmt.Format | HStmt.Entry => w
  | HStmt.Stop | HStmt.Goto => on_bits set_noReturn w
  | HStmt.Declare_ => fold_left (walkDecl W self) (HStmt.decls s) w
  | HStmt.Assign =>
      assign_tail s (walkOpt W self (HStmt.value s) false
        (fold_left (fun w o => walkOpt W self o true w) (HStmt.extraTargets s)
          (walkOpt W self (HStmt.target s) true w)))
  | HStmt.If =>
      walk_stmt_opt (walk_stmt_opt (walkOpt W self (HStmt.cond s) false w) (HStmt.thenS s)) (HStmt.elseS s)
  | HStmt.Group | HStmt.Begin => walk_body (HStmt.body s) w
  | HStmt.DoWhile => walk_body (HStmt.body s) (walkOpt W self (HStmt.cond s) false (on_bits set_noReturn w))
  | HStmt.DoIter =>
      walk_body (HStmt.body s) (walkOpt W self (HStmt.by_ s) false (walkOpt W self (HStmt.to s) false
        (walkOpt W self (HStmt.from s) false (if unbounded_by s then on_bits set_noReturn w else w))))
  | HStmt.Return => walkOpt W self (HStmt.value s) false w
  | HStmt.On => walk_stmt_opt (on_unit (HStmt.condKey s) w) (HStmt.unit s)
  | HStmt.CallS => walkCallStmt W self s w
  | _ => walkOutside W self s w
  end.
Proof.
  destruct s as [kd lc lb le ds tg v c fr to b ut fv bn xs bny pf th el bd nm sy en sm gt fl ar tk onx un os al]. cbn -[walkExpr].
  destruct kd; try done. unfold unbounded_by. cbn. destruct b as [b|]; [|done].
  by destruct (nonzero_literal b).
Qed.

Lemma mono_walk_stmt_opt o : opt_all (fun s => mono (walkStmt s)) o -> mono (fun w => walk_stmt_opt w o).
Proof. destruct o; cbn; [done|intros _; apply mono_id]. Qed.
Lemma mono_walk_body l : Forall (opt_all (fun s => mono (walkStmt s))) l -> mono (walk_body l).
Proof.
  rewrite List.Forall_forall. intros H. apply mono_fold. intros o Ho.
  by apply mono_walk_stmt_opt, H, list_elem_of_In.
Qed.

Lemma walkStmt_mono s : mono (walkStmt s).
Proof.
  induction s as [s Ht He Hu Hb] using hstmt_ind. intros w. rewrite walkStmt_unfold.
  apply mono_walk_stmt_opt in Ht, He, Hu. apply mono_walk_body in Hb.
  destruct (HStmt.kind s); try done; try apply mono_noReturn; try apply mono_walkOutside.
  - apply mono_fold. intros d _. apply mono_walkDecl.
  - etransitivity; [apply mono_walkOpt|]. etransitivity; [|apply mono_assign_tail].
    etransitivity; [|apply mono_walkOpt]. apply mono_fold. intros o _. apply mono_walkOpt.
  - etransitivity; [apply mono_walkOpt|]. etransitivity; [apply Ht|apply He].
  - etransitivity; [apply mono_noReturn|]. etransitivity; [apply mono_walkOpt|apply Hb].
  - etransitivity; [|apply Hb]. do 3 (etransitivity; [|apply mono_walkOpt]).
    case_match; [apply mono_noReturn|done].
  - apply mono_walkCallStmt.
  - apply mono_walkOpt.
  - etransitivity; [apply mono_on_unit|apply Hu].
Qed.

(** ** Every part of a statement is walked *)
Definition seen (g : walk -> walk) (w v : walk) : Prop := exists w', grows W w w' /\ grows W (g w') v.

Lemma seen_step g w v v' : seen g w v -> grows W v v' -> seen g w v'.
Proof. intros (w' & A & B) H. exists w'. split; [done|]. by etransitivity. Qed.
Lemma seen_from g w w0 v : grows W w w0 -> seen g w0 v -> seen g w v.
Proof. intros H (w' & A & B). exists w'. split; [|done]. by etransitivity. Qed.
Lemma seen_here g w : seen g w (g w).
Proof. exists w. by split. Qed.
Lemma seen_part g h w : part g h -> seen g w (h w).
Proof. intros H. apply H. Qed.

Lemma seen_opt o wr c w : o = Some c -> seen (walkExpr c wr) w (walkOpt W self o wr w).
Proof. intros ->. apply seen_here. Qed.
Lemma seen_args l c w : Some c ∈ l -> seen (walkExpr c false) w (walkArgs W self l w).
Proof.
  intros H. apply seen_part, (part_fold W (fun w o => walkOpt W self o false w) l (Some c)); [|done].
  intros o _. apply mono_walkOpt.
Qed.

Lemma mono_walk_stmt_opt' o : mono (fun w => walk_stmt_opt w o).
Proof. apply mono_walk_stmt_opt. destruct o; [apply walkStmt_mono|done]. Qed.
Lemma mono_walk_body' l : mono (walk_body l).
Proof. apply mono_fold. intros o _. apply mono_walk_stmt_opt'. Qed.
Lemma seen_body l c w : Some c ∈ l -> seen (walkStmt c) w (walk_body l w).
Proof.
  intros H. apply seen_part, (part_fold W walk_stmt_opt l (Some c)); [|done].
  intros o _. apply mono_walk_stmt_opt'.
Qed.

(** Steps of a walk, peeled from the outside. *)
Ltac grown := repeat first
  [ done | apply mono_walkOpt | apply mono_walkArgs | apply mono_walk_body' | apply mono_walk_stmt_opt'
  | apply mono_noReturn | apply mono_assign_tail | apply mono_on_unit
  | etransitivity; [|apply mono_walkOpt] | etransitivity; [|apply mono_walk_body']
  | etransitivity; [|apply mono_walk_stmt_opt'] | etransitivity; [|apply mono_walkArgs]
  | etransitivity; [|apply mono_assign_tail] | etransitivity; [|apply mono_on_unit] ].

Lemma seen_stmt_child s c w : c ∈ stmt_children s -> seen (walkStmt c) w (walkStmt s w).
Proof.
  rewrite walkStmt_unfold. unfold stmt_children.
  destruct (HStmt.kind s); try (intros H; by apply elem_of_nil in H);
    rewrite ?elem_of_app, ?elem_some_list, ?elem_omap_id; intros H.
  - destruct H as [H|H].
    + eapply seen_step; [|apply mono_walk_stmt_opt']. eapply seen_from; [apply mono_walkOpt|].
      rewrite H. apply seen_here.
    + eapply seen_from; [etransitivity; [apply mono_walkOpt|apply mono_walk_stmt_opt']|].
      rewrite H. apply seen_here.
  - by apply seen_body.
  - by apply seen_body.
  - eapply seen_from; [|by apply seen_body]. etransitivity; [apply mono_noReturn|grown].
  - eapply seen_from; [|by apply seen_body]. grown. case_match; grown.
  - eapply seen_from; [apply mono_on_unit|]. rewrite H. apply seen_here.
Qed.

Lemma seen_outside s c w :
  HStmt.stringTarget s = Some c -> seen (walkExpr c true) w (walkOutside W self s w).
Proof.
  intros H. unfold walkOutside. cbv zeta. eapply seen_step; [|eapply mono_bits, adds_outside].
  eapply seen_step; [|apply mono_walkOpt]. eapply seen_from; [|by apply seen_opt]. grown.
Qed.

Lemma seen_outside_reads s c w :
  (HStmt.target s = Some c \/ HStmt.value s = Some c \/ HStmt.cond s = Some c \/
   HStmt.from s = Some c \/ HStmt.to s = Some c \/ HStmt.by_ s = Some c \/
   Some c ∈ HStmt.items s \/ HStmt.oncodeExpr s = Some c) ->
  seen (walkExpr c false) w (walkOutside W self s w).
Proof.
  intros H. unfold walkOutside. cbv zeta. eapply seen_step; [|eapply mono_bits, adds_outside].
  decompose [or] H; clear H;
    repeat first
      [ eapply seen_from; [|by apply seen_opt]; by grown
      | eapply seen_from; [|by apply seen_args]; by grown
      | eapply seen_step; [|apply mono_walkOpt] | eapply seen_step; [|apply mono_walkArgs] ].
Qed.

Lemma seen_stmt_write s c w : c ∈ stmt_writes s -> seen (walkExpr c true) w (walkStmt s w).
Proof.
  rewrite walkStmt_unfold. unfold stmt_writes.
  destruct (HStmt.kind s) eqn:K; cbn [is_outside];
    try (intros H; by apply elem_of_nil in H);
    try (rewrite elem_some_list; apply seen_outside).
  rewrite elem_of_app, elem_some_list, elem_omap_id. intros H.
  eapply seen_step; [|apply mono_assign_tail]. eapply seen_step; [|apply mono_walkOpt].
  assert (forall o, mono (fun w => walkOpt W self o true w)) as Hm by (intros; apply mono_walkOpt).
  destruct H as [H|H].
  - eapply seen_step; [by apply seen_opt|]. apply mono_fold. auto.
  - eapply seen_from; [apply mono_walkOpt|].
    apply seen_part, (part_fold W (fun w o => walkOpt W self o true w) _ (Some c)); auto.
Qed.

Lemma seen_decl d c w : c ∈ some_list (HStmt.init d) ++ some_list (HStmt.initCall d) ++
    some_list (HStmt.dynLenBound d) -> seen (walkExpr c false) w (walkDecl W self w d).
Proof.
  rewrite !elem_of_app, !elem_some_list. unfold walkDecl. intros H. decompose [or] H; clear H;
    repeat first
      [ eapply seen_from; [|by apply seen_opt]; by grown | eapply seen_step; [|apply mono_walkOpt] ].
Qed.

Lemma seen_call_args s c w : Some c ∈ HStmt.args s -> seen (walkExpr c false) w (walkCallStmt W self s w).
Proof.
  intros H. eapply seen_step; [by apply seen_args|]. unfold walkCallStmt.
  destruct (symbols W <$> HStmt.sym s) as [callee|]; [|apply mono_opaque_unwind].
  case_match; [|apply mono_opaque_unwind].
  destruct (twin W n) as [[t target]|] eqn:E; [by eapply mono_add_call|apply mono_opaque].
Qed.

Lemma seen_stmt_read s c w : c ∈ stmt_reads s -> seen (walkExpr c false) w (walkStmt s w).
Proof.
  rewrite walkStmt_unfold. unfold stmt_reads.
  destruct (HStmt.kind s) eqn:K; cbn [is_outside];
    try (intros H; by apply elem_of_nil in H);
    try (rewrite !elem_of_app, !elem_some_list, elem_omap_id; intros H; apply seen_outside_reads; tauto);
    try (rewrite elem_some_list; intros H).
  - intros (d & Hc & Hd)%list_elem_of_bind.
    assert (part (fun w => walkDecl W self w d) (fold_left (walkDecl W self) (HStmt.decls s))) as Hp.
    { apply part_fold; [|done]. intros x _. apply mono_walkDecl. }
    destruct (Hp w) as (w' & A & B). eapply seen_from; [exact A|]. eapply seen_step; [|exact B].
    by apply seen_decl.
  - eapply seen_step; [|apply mono_assign_tail]. eapply seen_from; [|by apply seen_opt].
    etransitivity; [apply mono_walkOpt|]. apply mono_fold. intros x _. apply mono_walkOpt.
  - eapply seen_step; [by apply seen_opt|]. grown.
  - eapply seen_step; [|apply mono_walk_body']. eapply seen_from; [apply mono_noReturn|]. by apply seen_opt.
  - rewrite !elem_of_app, !elem_some_list. intros H. eapply seen_step; [|apply mono_walk_body'].
    set (w1 := if unbounded_by s then _ else _).
    assert (grows W w w1) as H1 by (subst w1; case_match; [apply mono_noReturn|done]).
    eapply seen_from; [exact H1|]. clearbody w1. decompose [or] H; clear H;
    repeat first
      [ eapply seen_from; [|by apply seen_opt]; by grown | eapply seen_step; [|apply mono_walkOpt] ].
  - rewrite elem_omap_id. apply seen_call_args.
  - by apply seen_opt.
Qed.

(** ** A whole body *)
Definition start (handlers : gset Z) : walk := mkWalk bits0 ∅ [] handlers.

Lemma seen_stmt s hs : stmt_in self s -> seen (walkStmt s) (start hs) (runWalker W self hs).
Proof.
  intros (s0 & H0 & Hs). unfold runWalker.
  assert (seen (walkStmt s) (start hs) (walk_body (body self) (start hs))) as Hb.
  { apply elem_omap_id in H0. pose proof (seen_body _ _ (start hs) H0) as Hseen. revert Hseen.
    generalize (walk_body (body self) (start hs)). clear H0. intros v.
    induction Hs as [s|s s1 s2 Hc Hs IH]; [done|]. intros (w' & A & B). apply IH.
    eapply seen_from; [exact A|]. eapply seen_step; [by apply seen_stmt_child|done]. }
  eapply seen_step; [exact Hb|]. fold (walk_body (body self) (start hs)).
  case_match; [eapply mono_bits, adds_writesArg|done].
Qed.

Lemma seen_trans g h w v : seen h w v -> (forall w, seen g w (h w)) -> seen g w v.
Proof.
  intros (w' & A & B) H. eapply seen_from; [exact A|]. by eapply seen_step.
Qed.

Lemma seen_write e hs : write_in self e -> seen (walkExpr e true) (start hs) (runWalker W self hs).
Proof.
  intros (s & Hs & He). eapply seen_trans; [by apply (seen_stmt s)|].
  intros w. by apply seen_stmt_write.
Qed.

Lemma seen_sub_expr e0 e wr : tc (fun a b => b ∈ expr_children W a) e0 e ->
  part (walkExpr e false) (walkExpr e0 wr).
Proof.
  intros H. revert wr. induction H as [x y H|x y z H _ IH]; intros wr; [by apply part_expr_child|].
  eapply part_trans; [apply IH|by apply part_expr_child].
Qed.

Lemma seen_read e hs : read_in W self e -> seen (walkExpr e false) (start hs) (runWalker W self hs).
Proof.
  intros (s & e0 & Hs & H). eapply seen_trans; [by apply (seen_stmt s)|]. intros w.
  destruct H as [[H0 He]|[H0 He]].
  - eapply seen_trans; [by apply seen_stmt_read|]. intros w1.
    apply rtc_tc in He as [->|He]; [apply seen_here|]. apply seen_part. by apply seen_sub_expr.
  - eapply seen_trans; [by apply seen_stmt_write|]. intros w1. apply seen_part. by apply seen_sub_expr.
Qed.
End Walks.
