(* ===== verification/EffectsSpec.v ===== *)
(** * What the effect promises mean

    The promises of the effect analysis against the program text: which
    statements and expressions a promise rules out in every procedure reached
    by calls, and what the fixpoint computes. *)
From S2P Require Import Prelude Types Lexer Hir EffectFile Effects EffectsSound EffectsRecursion EffectsWalk.

(** ** Reading the program text *)

(** The procedure of the program a symbol names. *)
Definition named (W : World) (s : option nat) : option nat :=
  match symbols W <$> s with
  | Some c => if bool_decide (skind c = ProcName) then fst <$> (proc c ≫= twin W) else None
  | None => None
  end.

(** [h] calls procedure [q]. *)
Definition calls_proc (W : World) (h : HProc) (q : nat) : Prop :=
  (exists s, stmt_in h s /\ HStmt.kind s = HStmt.CallS /\ named W (HStmt.sym s) = Some q) \/
  (exists e, (read_in W h e \/ write_in h e) /\ HExpr.kind e = HExpr.Call /\
             named W (HExpr.sym e) = Some q).
Definition calls_rel (W : World) (p q : nat) : Prop :=
  exists h, procs W !! p = Some h /\ calls_proc W h q.

(** A CALL statement whose target the unit does not define. *)
Definition unknown_call (W : World) (s : HStmt.t) : Prop :=
  HStmt.kind s = HStmt.CallS /\ named W (HStmt.sym s) = None.
(** A statement that does input, output, storage management or condition
    handling. *)
Definition outside_stmt (s : HStmt.t) : bool :=
  is_outside (HStmt.kind s) || bool_decide (HStmt.kind s = HStmt.On).
(** A statement that jumps, stops or loops without a proven bound. *)
Definition may_not_end (s : HStmt.t) : bool :=
  match HStmt.kind s with
  | HStmt.Stop | HStmt.Goto | HStmt.DoWhile => true
  | HStmt.DoIter => unbounded_by s
  | _ => false
  end.

(** The conditions an operator, a subscript or a conversion raises. *)
Definition raised (W : World) (e : HExpr.t) : list Z :=
  let O := opts W in
  let fixed o := match o with Some x => Types.isFixed (HExpr.ty x) | None => false end in
  match HExpr.kind e with
  | HExpr.Subscript => if subscriptChecks O then [kSubscriptrangeCondKey] else []
  | HExpr.Convert => if conversionChecks O then [kConversionCondKey] else []
  | HExpr.Unary =>
      if fixed (HExpr.a e) && bool_decide (HExpr.op e = Tok.Minus) && sizeChecks O
      then [kSizeCondKey] else []
  | HExpr.Binary =>
      (if fixed (HExpr.a e) && isArithOp (HExpr.op e) && sizeChecks O then [kSizeCondKey] else []) ++
      (if isArithOp (HExpr.op e) && bool_decide (k (HExpr.ty e) = Float) && overflowChecks O
       then [kOverflowCondKey] else []) ++
      (if isArithOp (HExpr.op e) && bool_decide (k (HExpr.ty e) = FixedDec) && fixedOverflowChecks O
       then [kFixedoverflowCondKey] else []) ++
      (if bool_decide (HExpr.op e = Tok.Slash) && zerodivideChecks O then [kZerodivideCondKey] else [])
  | _ => []
  end.
Definition raises (W : World) (h : HProc) (key : Z) : Prop :=
  exists e, (read_in W h e \/ write_in h e) /\ key ∈ raised W e.

(** Somebody can call procedure [q] through its name. *)
Definition name_leaks (W : World) (q : nat) : Prop :=
  exists p h e, procs W !! p = Some h /\ (read_in W h e \/ write_in h e) /\
    HExpr.kind e = HExpr.VarRef /\ named W (HExpr.sym e) = Some q.

(** The unit establishes a handler for condition [key]. *)
Definition handled_in (W : World) (key : Z) : Prop :=
  exists p h s, procs W !! p = Some h /\ stmt_in h s /\ HStmt.kind s = HStmt.On /\
    (HStmt.condKey s = key \/ HStmt.condKey s = 0).

(** A reference whose storage has reach [r] from procedure [h]: [Other] is
    STATIC, EXTERNAL, CONTROLLED, BASED and DEFINED storage and everything
    reached through a locator, [Arg] the by-reference parameters and the
    variables of enclosing procedures. *)
Definition ref_reaches (W : World) (h : HProc) (e : HExpr.t) (r : Reach) : Prop :=
  (HExpr.kind e = HExpr.VarRef /\
     (exists s, HExpr.sym e = Some s /\ skind (symbols W s) <> ProcName) \/
   HExpr.kind e = HExpr.Subscript /\ (is_Some (HExpr.sym e) \/ is_Some (HExpr.locPtr e))) /\
  reachOfExpr W h (Some e) = r.
Definition access_flag (r : Reach) (wr : bool) : option flag :=
  match r with
  | Other => Some (if wr then FWritesOther else FReadsOther)
  | Arg => Some (if wr then FWritesArg else FReadsArg)
  | Frame => None
  end.

(** ** What one statement or expression contributes *)
Section Contributes.
Context (W : World) (self : HProc).

Lemma grows_has w w' f : grows W w w' -> has (bits w) f -> has (bits w') f.
Proof. intros H. apply (gr_bits _ _ _ H). Qed.

Lemma seen_has g w v f : seen W g w v -> (forall w, has (bits (g w)) f) -> has (bits v) f.
Proof. intros (w' & _ & B) H. by eapply grows_has. Qed.

Lemma has_on_bits g P w f : adds g P -> P f -> has (bits (on_bits g w)) f.
Proof. intros Hg Hf. apply Hg. by right. Qed.

Lemma has_raise key w : has (bits (raise true key w)) (FKey key).
Proof. eapply has_on_bits; [apply adds_keys|]. exists key. set_solver. Qed.

Lemma outside_stmt_opaque s w : outside_stmt s = true -> has (bits (walkStmt W self s w)) FOpaque.
Proof.
  unfold outside_stmt. rewrite walkStmt_unfold. intros [H|H%bool_decide_eq_true]%orb_true_iff.
  - destruct (HStmt.kind s); try done; unfold walkOutside; cbv zeta;
      by eapply has_on_bits; [apply adds_outside|].
  - rewrite H. eapply grows_has; [apply mono_walk_stmt_opt'|]. cbn. done.
Qed.

Lemma may_not_end_noReturn s w : may_not_end s = true -> has (bits (walkStmt W self s w)) FNoReturn.
Proof.
  unfold may_not_end. rewrite walkStmt_unfold. destruct (HStmt.kind s); try done; intros H; cbn [has].
  - eapply (grows_has _ _ FNoReturn); [etransitivity; [apply mono_walkOpt|apply mono_walk_body']|]. done.
  - rewrite H. eapply (grows_has _ _ FNoReturn); [etransitivity; [|apply mono_walk_body'];
      do 2 (etransitivity; [|apply mono_walkOpt]); apply mono_walkOpt|]. done.
Qed.

Lemma named_cases s :
  named W s = match symbols W <$> s with
              | Some c => if bool_decide (skind c = ProcName)
                          then match proc c with Some p => fst <$> twin W p | None => None end
                          else None
              | None => None end.
Proof. unfold named. destruct (symbols W <$> s) as [c|]; [|done]. by destruct (proc c). Qed.

Lemma unknown_call_opaque s w : unknown_call W s -> has (bits (walkStmt W self s w)) FOpaque.
Proof.
  intros [H Hn]. rewrite walkStmt_unfold, H. rewrite named_cases in Hn. unfold walkCallStmt.
  destruct (symbols W <$> HStmt.sym s) as [c|]; [|done]. case_bool_decide; [|done].
  destruct (proc c) as [p|]; [|done]. by destruct (twin W p).
Qed.

Lemma call_stmt_edge s q w : HStmt.kind s = HStmt.CallS -> named W (HStmt.sym s) = Some q ->
  exists r, (q, r) ∈ calls (walkStmt W self s w).
Proof.
  intros H Hn. rewrite walkStmt_unfold, H. rewrite named_cases in Hn. unfold walkCallStmt.
  destruct (symbols W <$> HStmt.sym s) as [c|]; [|done]. case_bool_decide; [|done].
  destruct (proc c) as [p|]; [|done]. destruct (twin W p) as [[t target]|]; [|done].
  cbn in Hn. simplify_eq. eexists. cbn. apply elem_of_app. right. by apply list_elem_of_singleton.
Qed.

Lemma walkExpr_call e wr w : HExpr.kind e = HExpr.Call ->
  exists w', walkExpr W self e wr w = callTail W self e wr w'.
Proof. intros H. destruct e as [k]. cbn in H. subst k. eexists. reflexivity. Qed.

Lemma call_expr_edge e wr q w : HExpr.kind e = HExpr.Call -> named W (HExpr.sym e) = Some q ->
  exists r, (q, r) ∈ calls (walkExpr W self e wr w).
Proof.
  intros H Hn. destruct (walkExpr_call e wr w H) as [w' ->]. unfold named in Hn. unfold callTail.
  destruct (symbols W <$> HExpr.sym e) as [c|]; [|done]. case_bool_decide; [|done].
  destruct (proc c ≫= twin W) as [[t target]|]; [|done]. cbn in Hn. simplify_eq.
  eexists. cbn. apply elem_of_app. right. by apply list_elem_of_singleton.
Qed.

Lemma raised_key e wr w key : key ∈ raised W e -> has (bits (walkExpr W self e wr w)) (FKey key).
Proof.
  destruct e as [kd lc ty iv wiv fv dsc dpr sv nm pth mp s l o a b args cv lb]. unfold raised. cbn [HExpr.kind HExpr.a HExpr.op HExpr.ty].
  destruct kd; try (intros H; by apply elem_of_nil in H).
  - change (walkExpr W self _ wr w) with (binary_tail W o ty
      (match a with Some x => isFixed (HExpr.ty x) | None => false end)
      (walk_opt W self (walk_opt W self w a) b)).
    generalize (walk_opt W self (walk_opt W self w a) b) as w1. intros w1.
    generalize (match a with Some x => isFixed (HExpr.ty x) | None => false end) as fx. intros fx.
    unfold binary_tail, raiseSize, raiseOverflow, raiseFixedOverflow.
    rewrite !elem_of_app. intros H.
    destruct fx, (isArithOp o), (sizeChecks (opts W)), (overflowChecks (opts W)),
      (fixedOverflowChecks (opts W)), (zerodivideChecks (opts W)); cbn [andb] in *;
      repeat case_bool_decide; cbn [andb] in *;
      repeat match goal with
      | H : _ \/ _ |- _ => destruct H as [H|H]
      | H : _ ∈ [] |- _ => by apply elem_of_nil in H
      | H : _ ∈ [_] |- _ => apply list_elem_of_singleton in H as ->
      end; try congruence; cbn; set_solver.
  - intros H. change (walkExpr W self _ wr w) with
      ((fun w => if (match a with Some x => isFixed (HExpr.ty x) | None => false end) &&
                    bool_decide (o = Tok.Minus) then raiseSize W w else w) (walk_opt W self w a)).
    cbv beta. destruct (match a with Some x => isFixed (HExpr.ty x) | None => false end),
      (bool_decide (o = Tok.Minus)), (sizeChecks (opts W)) eqn:E; cbn [andb] in *;
      try (by apply elem_of_nil in H).
    apply list_elem_of_singleton in H as ->. unfold raiseSize. rewrite E. apply has_raise.
  - intros H. change (walkExpr W self _ wr w) with
      (subscript_raise W (subscript_access W self s l wr (fold_left (walk_opt W self) args w))).
    unfold subscript_raise. destruct (subscriptChecks (opts W)); [|by apply elem_of_nil in H].
    apply list_elem_of_singleton in H as ->. apply has_raise.
  - intros H. change (walkExpr W self _ wr w) with
      (on_bits set_unwind (raise (conversionChecks (opts W)) kConversionCondKey (walk_opt W self w a))).
    eapply grows_has; [apply mono_unwind|].
    destruct (conversionChecks (opts W)); [|by apply elem_of_nil in H].
    apply list_elem_of_singleton in H as ->. apply has_raise.
Qed.

Lemma ref_noted e wr w r f : ref_reaches W self e r -> access_flag r wr = Some f ->
  has (bits (walkExpr W self e wr w)) f.
Proof.
  destruct e as [kd lc ty iv wiv fv dsc dpr sv nm pth mp s l o a b args cv lb]. unfold ref_reaches, reachOfExpr.
  cbn [HExpr.kind HExpr.sym HExpr.locPtr]. intros Href Hf.
  assert (forall w, has (bits (note_access r wr w)) f) as Hn.
  { intros w'. destruct r, wr; cbn in Hf; simplify_eq; done. }
  destruct Href as [[(-> & s' & -> & Hk)|(-> & Hs)] Hr].
  - change (walkExpr W self _ wr w) with
      (if bool_decide (skind (symbols W s') = ProcName) then markEscape W (Some s') w
       else match l with
            | Some l => note_access Other wr (walkExpr W self l false w)
            | None => note_access (reachOf W self (Some s')) wr w end).
    rewrite bool_decide_true in Hr by done. rewrite bool_decide_false by done.
    destruct l; cbn -[reachOf] in Hr; rewrite Hr; apply Hn.
  - change (walkExpr W self _ wr w) with
      (subscript_raise W (subscript_access W self s l wr (fold_left (walk_opt W self) args w))).
    eapply grows_has; [apply mono_raise|]. unfold subscript_access.
    rewrite (bool_decide_true (HExpr.Subscript = HExpr.Subscript)), orb_true_r in Hr by done.
    destruct l as [l|]; [rewrite Hr; apply Hn|].
    destruct s; [rewrite Hr; apply Hn|]. destruct Hs as [[? H]|[? H]]; done.
Qed.

(** A call expression to anything but a procedure of the unit. *)
Lemma unknown_call_expr e : HExpr.kind e = HExpr.Call -> named W (HExpr.sym e) = None ->
  exists f, (f = FOpaque \/ f = FUnwind) /\ forall wr w, has (bits (walkExpr W self e wr w)) f.
Proof.
  intros H Hn. unfold named in Hn.
  assert (forall wr w, has (bits (builtinCall W self e wr w)) FUnwind) as Hb.
  { intros wr w. eapply (grows_has _ _ FUnwind); [apply (mono_builtin_rest W self e wr)|]. done. }
  assert (exists f, (f = FOpaque \/ f = FUnwind) /\ forall wr w, has (bits (callTail W self e wr w)) f)
    as (f & Hf & Ht).
  { unfold callTail. destruct (symbols W <$> HExpr.sym e) as [c|]; [|exists FUnwind; split; [by right|done] ].
    case_bool_decide.
    - destruct (proc c ≫= twin W) as [[t target]|]; [done|]. exists FOpaque. split; [by left|done].
    - destruct (_ || _); [exists FOpaque; split; [by left|done]|exists FUnwind; split; [by right|done] ]. }
  exists f. split; [done|]. intros wr w. destruct (walkExpr_call e wr w H) as [w' ->]. apply Ht.
Qed.

Lemma convert_unwinds e wr w : HExpr.kind e = HExpr.Convert -> has (bits (walkExpr W self e wr w)) FUnwind.
Proof. destruct e as [kd]. cbn [HExpr.kind]. intros ->. done. Qed.

Lemma on_handler s w : HStmt.kind s = HStmt.On -> HStmt.condKey s ∈ handlerKeys (walkStmt W self s w).
Proof.
  intros H. rewrite walkStmt_unfold, H. apply (gr_handlers W _ _ (mono_walk_stmt_opt' W self _ _)).
  cbn. set_solver.
Qed.

Lemma leak_escapes e wr q w : HExpr.kind e = HExpr.VarRef -> named W (HExpr.sym e) = Some q ->
  q ∈ escaped (walkExpr W self e wr w).
Proof.
  destruct e as [kd lc ty iv wiv fv dsc dpr sv nm pth mp s l o a b args cv lb]. cbn [HExpr.kind HExpr.sym]. intros -> Hn.
  rewrite named_cases in Hn. destruct s as [s|]; [|done]. cbn in Hn.
  change (walkExpr W self _ wr w) with
      (if bool_decide (skind (symbols W s) = ProcName) then markEscape W (Some s) w
       else match l with
            | Some l => note_access Other wr (walkExpr W self l false w)
            | None => note_access (reachOf W self (Some s)) wr w end).
  case_bool_decide; [|done]. unfold markEscape. rewrite bool_decide_true by done. cbn [negb].
  destruct (proc (symbols W s)) as [p|]; [|done]. unfold twin in Hn.
  destruct (bySrc W !! p) as [t|]; [|done]. destruct (procs W !! t); [|done].
  cbn in *. simplify_eq. set_solver.
Qed.
End Contributes.

(** ** The facts the fixpoint starts from *)
Definition walk_step (W : World) (acc : list walk * gset Z) (p : HProc) : list walk * gset Z :=
  (acc.1 ++ [runWalker W p acc.2], handlerKeys (runWalker W p acc.2)).

Lemma walk_all_step W : walk_all W = fold_left (walk_step W) (procs W) ([], ∅).
Proof. unfold walk_all. generalize (@nil walk, (∅ : gset Z)). induction (procs W); intros []; cbn; auto. Qed.

Lemma runWalker_grows W h hs : grows W (start hs) (runWalker W h hs).
Proof.
  unfold runWalker. fold (walk_body W h (body h)).
  assert (grows W (start hs) (walk_body W h (body h) (start hs))) by apply mono_walk_body'.
  change (fold_left _ (body h) _) with (walk_body W h (body h) (start hs)).
  case_match; [|done]. etransitivity; [done|eapply mono_bits, adds_writesArg].
Qed.

Lemma walk_fold_spec W l acc :
  let res := fold_left (walk_step W) l acc in
  (forall k, k ∈ acc.2 -> k ∈ res.2) /\
  exists ws, res.1 = acc.1 ++ ws /\ length ws = length l /\
    forall i h, l !! i = Some h -> exists hs0, ws !! i = Some (runWalker W h hs0) /\
      forall k, k ∈ handlerKeys (runWalker W h hs0) -> k ∈ res.2.
Proof.
  revert acc. induction l as [|h l IH]; intros [ws hs]; cbn.
  { split; [done|]. exists []. rewrite app_nil_r. split; [done|]. split; [done|].
    intros i h Hi. by rewrite lookup_nil in Hi. }
  destruct (IH (walk_step W (ws, hs) h)) as (Hk & ws' & Hw & Hl & Hs). cbn [walk_step fst snd] in Hk, Hw.
  split.
  - intros k Hin. apply Hk. by apply (gr_handlers _ _ _ (runWalker_grows W h hs)).
  - exists (runWalker W h hs :: ws'). rewrite Hw, <- app_assoc. split; [done|]. split; [cbn; lia|].
    intros [|i] h' Hi; cbn in *; [simplify_eq; by exists hs|by apply Hs].
Qed.

Lemma has_at_escaped es bs p f : has_at bs p f -> has_at (mark_escaped es bs) p f.
Proof.
  intros (b & Hb & Hf). unfold has_at, mark_escaped. rewrite list_lookup_imap, Hb. cbn.
  eexists. split; [done|]. case_bool_decide; [|done]. destruct f; cbn in *; auto.
Qed.
Lemma escaped_opaque es bs p : (p < length bs)%nat -> p ∈ es -> has_at (mark_escaped es bs) p FOpaque.
Proof.
  intros Hp Hin. apply lookup_lt_is_Some in Hp as [b Hb]. unfold has_at, mark_escaped.
  rewrite list_lookup_imap, Hb. cbn. rewrite bool_decide_true by done. by eexists.
Qed.

Lemma elem_escaped_all ws s q : q ∈ fold_left (fun s w => s ∪ escaped w) ws s <->
  q ∈ s \/ exists w, w ∈ ws /\ q ∈ escaped w.
Proof.
  revert s. induction ws as [|w ws IH]; intros s; cbn [fold_left].
  - split; [by left|]. intros [?|(? & H & _)]; [done|]. by apply elem_of_nil in H.
  - rewrite IH. set_solver.
Qed.

(** The walk of procedure [p]'s body, as [analyzeEffects] runs it. *)
Definition own_walk (W : World) (p : nat) (w : walk) : Prop :=
  exists h hs0, procs W !! p = Some h /\ w = runWalker W h hs0 /\ fst (walk_all W) !! p = Some w /\
    forall k, k ∈ handlerKeys w -> k ∈ snd (walk_all W).

Lemma own_walk_exists W p h : procs W !! p = Some h ->
  exists w hs0, own_walk W p w /\ w = runWalker W h hs0.
Proof.
  intros Hp. destruct (walk_fold_spec W (procs W) ([], ∅)) as (_ & ws & Hw & _ & Hs).
  destruct (Hs p h Hp) as (hs0 & H1 & H2). exists (runWalker W h hs0), hs0. split; [|done].
  exists h, hs0. rewrite walk_all_step, Hw. auto.
Qed.

Lemma walk_all_length W : length (fst (walk_all W)) = length (procs W).
Proof.
  rewrite walk_all_step. destruct (walk_fold_spec W (procs W) ([], ∅)) as (_ & ws & -> & Hl & _). done.
Qed.

Lemma walk_all_inside W p q : edge (calls <$> fst (walk_all W)) p q -> (q < length (procs W))%nat.
Proof.
  intros (cs & r & Hcs & Hin). rewrite list_lookup_fmap in Hcs.
  destruct (fst (walk_all W) !! p) as [w|] eqn:E; [|done]. cbn in Hcs. simplify_eq.
  assert (exists h, procs W !! p = Some h) as [h Hh].
  { apply lookup_lt_is_Some. rewrite <- walk_all_length. by eapply lookup_lt_Some. }
  destruct (own_walk_exists W p h Hh) as (w' & hs0 & (? & ? & ? & ? & Hw & _) & ->).
  rewrite Hw in E. simplify_eq.
  destruct (gr_inside _ _ _ (runWalker_grows W h hs0) q r Hin) as [H|H]; [by apply elem_of_nil in H|done].
Qed.

Lemma prepare_spec W G bs hs : prepare W = (G, bs, hs) ->
  G = calls <$> fst (walk_all W) /\ hs = snd (walk_all W) /\ length bs = length (procs W) /\
  (forall p w f, own_walk W p w -> has (bits w) f -> has_at bs p f) /\
  (forall p w q, own_walk W p w -> (q < length (procs W))%nat -> q ∈ escaped w -> has_at bs q FOpaque) /\
  (forall x, (x < length (procs W))%nat -> tc (edge G) x x ->
     exists z, rtc (edge G) x z /\ has_at bs z FNoReturn).
Proof.
  unfold prepare. pose proof (walk_all_length W) as Hl. pose proof (walk_all_inside W) as Hi.
  destruct (walk_all W) as [ws hs'] eqn:E. cbn [fst snd] in *. intros [= <- <- <-].
  destruct (mark_recursion_spec (calls <$> ws) (bits <$> ws)) as (L & M & O & C).
  { intros p q He. rewrite length_fmap, Hl. by eapply Hi. }
  rewrite length_fmap in L, C. split; [done|]. split; [done|]. split; [|split; [|split]].
  - unfold mark_escaped. by rewrite length_imap, L.
  - intros p w f (h & hs0 & Hh & -> & Hw & _) Hf. rewrite E in Hw. cbn in Hw.
    apply has_at_escaped, M. exists (bits (runWalker W h hs0)). by rewrite list_lookup_fmap, Hw.
  - intros p w q (h & hs0 & Hh & -> & Hw & _) Hq He. rewrite E in Hw. cbn in Hw.
    apply escaped_opaque; [by rewrite L, Hl|]. apply elem_escaped_all. right.
    eexists. split; [by eapply list_elem_of_lookup_2|done].
  - intros x Hx Ht. destruct (C x) as (z & Hz & Hm); [by rewrite Hl|done|].
    exists z. split; [done|]. by apply has_at_escaped.
Qed.

(** ** The facts the fixpoint ends with *)
Lemma own_walk_seen W p h e s : procs W !! p = Some h ->
  exists w, own_walk W p w /\
    (stmt_in h s -> exists hs0, seen W (walkStmt W h s) (start hs0) w) /\
    (read_in W h e -> exists hs0, seen W (walkExpr W h e false) (start hs0) w) /\
    (write_in h e -> exists hs0, seen W (walkExpr W h e true) (start hs0) w).
Proof.
  intros Hp. destruct (own_walk_exists W p h Hp) as (w & hs0 & Hw & ->). exists (runWalker W h hs0).
  split; [done|]. split; [|split]; intros H; exists hs0.
  - by apply seen_stmt.
  - by apply seen_read.
  - by apply seen_write.
Qed.

Lemma calls_rel_edge W p q : calls_rel W p q -> edge (calls <$> fst (walk_all W)) p q.
Proof.
  intros (h & Hp & Hc).
  assert (exists w, own_walk W p w /\ exists r, (q, r) ∈ calls w) as (w & Hw & r & Hr).
  { destruct Hc as [(s & Hs & Hk & Hn)|(e & He & Hk & Hn)].
    - destruct (own_walk_seen W p h (HExpr.lit 0) s Hp) as (w & Hw & (hs0 & w' & _ & B) & _); [done|].
      exists w. split; [done|]. destruct (call_stmt_edge W h s q w' Hk Hn) as [r Hr]. exists r.
      by apply (gr_calls _ _ _ B).
    - destruct (own_walk_seen W p h e (HStmt.bare HStmt.Null) Hp) as (w & Hw & _ & Hrd & Hwr).
      exists w. split; [done|]. destruct He as [He|He].
      + destruct (Hrd He) as (hs0 & w' & _ & B). destruct (call_expr_edge W h e false q w' Hk Hn) as [r Hr].
        exists r. by apply (gr_calls _ _ _ B).
      + destruct (Hwr He) as (hs0 & w' & _ & B). destruct (call_expr_edge W h e true q w' Hk Hn) as [r Hr].
        exists r. by apply (gr_calls _ _ _ B). }
  destruct Hw as (? & ? & _ & _ & Hw & _). exists (calls w), r. by rewrite list_lookup_fmap, Hw.
Qed.

Lemma calls_tc_edge W p q : tc (calls_rel W) p q -> tc (edge (calls <$> fst (walk_all W))) p q.
Proof.
  induction 1 as [x y H|x y z H _ IH]; [apply tc_once|eapply tc_l; [|exact IH]]; by apply calls_rel_edge.
Qed.

(** A fact passed on unchanged by calls is in the verdict of every caller. *)
Lemma final_plain W p q f :
  plain f -> (p < length (procs W))%nat -> rtc (calls_rel W) p q ->
  (exists w, own_walk W q w /\ has (bits w) f) \/
  (f = FOpaque /\ (q < length (procs W))%nat /\ exists p' w, own_walk W p' w /\ q ∈ escaped w) \/
  (f = FNoReturn /\ (q < length (procs W))%nat /\ tc (calls_rel W) q q) ->
  has_at (fst (final_facts W)) p f.
Proof.
  intros Hf Hp Hpq Hq. unfold final_facts. destruct (prepare W) as [[G bs] hs] eqn:E.
  destruct (prepare_spec _ _ _ _ E) as (-> & -> & L & Hown & Hesc & Hcyc).
  destruct (fixpoint_loop _ _ _ bs) as [fin conv] eqn:El.
  assert (rtc (edge (calls <$> fst (walk_all W))) p q) as Hr.
  { clear Hq. induction Hpq as [p|p p1 q H Hpq IH]; [done|].
    eapply rtc_l; [by apply calls_rel_edge|]. apply IH.
    eapply walk_all_inside. by apply calls_rel_edge. }
  assert (forall q, rtc (edge (calls <$> fst (walk_all W))) p q -> has_at bs q f -> has_at fin p f) as Hl.
  { intros q' Hr' Hq'. eapply loop_plain; [done|..|exact El|exact Hr'|lia|done].
    - rewrite length_fmap, walk_all_length. lia.
    - lia. }
  destruct Hq as [(w & Hw & Hh)|[(-> & Hq & p' & w & Hw & Hin)|(-> & Hq & Ht)]].
  - apply (Hl q); [done|]. by eapply Hown.
  - apply (Hl q); [done|]. by eapply Hesc.
  - destruct (Hcyc q Hq) as (z & Hz & Hm).
    { by apply calls_tc_edge. }
    apply (Hl z); [by etransitivity|done].
Qed.

(** Walks of a reached procedure feed the caller's verdict. *)
Section Reached.
Context (W : World) (p q : nat) (h : HProc).
Hypothesis Hp : (p < length (procs W))%nat.
Hypothesis Hpq : rtc (calls_rel W) p q.
Hypothesis Hq : procs W !! q = Some h.

Lemma reached_stmt s f : plain f -> stmt_in h s -> (forall w, has (bits (walkStmt W h s w)) f) ->
  has_at (fst (final_facts W)) p f.
Proof using Hp Hpq Hq.
  intros Hf Hs H. destruct (own_walk_seen W q h (HExpr.lit 0) s Hq) as (w & Hw & Hseen & _).
  destruct (Hseen Hs) as [hs0 Hs0]. eapply final_plain; [done..|]. left. exists w. split; [done|].
  eapply seen_has; [exact Hs0|done].
Qed.

Lemma reached_expr e f : plain f -> (read_in W h e \/ write_in h e) ->
  (forall wr w, has (bits (walkExpr W h e wr w)) f) -> has_at (fst (final_facts W)) p f.
Proof using Hp Hpq Hq.
  intros Hf He H. destruct (own_walk_seen W q h e (HStmt.bare HStmt.Null) Hq) as (w & Hw & _ & Hrd & Hwr).
  eapply final_plain; [done..|]. left. exists w. split; [done|].
  destruct He as [He|He]; [destruct (Hrd He) as [hs0 Hs0]|destruct (Hwr He) as [hs0 Hs0]];
    eapply seen_has; try exact Hs0; done.
Qed.

Lemma reached_leak : name_leaks W q -> has_at (fst (final_facts W)) p FOpaque.
Proof using Hp Hpq Hq.
  intros (p' & h' & e & Hp' & He & Hk & Hn).
  destruct (own_walk_seen W p' h' e (HStmt.bare HStmt.Null) Hp') as (w & Hw & _ & Hrd & Hwr).
  eapply final_plain; [by apply plain_cases|done..|]. right; left. split; [done|].
  split; [by eapply lookup_lt_Some|]. exists p', w. split; [done|].
  destruct He as [He|He]; [destruct (Hrd He) as (hs0 & w' & _ & B)|destruct (Hwr He) as (hs0 & w' & _ & B)];
    apply (gr_escaped _ _ _ B); by eapply leak_escapes.
Qed.
End Reached.

Lemma verdict_lookup W p pe : analyzeEffects W !! p = Some pe ->
  (p < length (procs W))%nat /\ forall b, fst (final_facts W) !! p = Some b -> pe = verdict b.
Proof.
  intros H. unfold analyzeEffects in H. rewrite list_lookup_fmap in H.
  destruct (fst (final_facts W) !! p) as [b|] eqn:Hb; [|done]. cbn in H. simplify_eq.
  split; [|naive_solver]. unfold final_facts in Hb. destruct (prepare W) as [[G bs] hs] eqn:E.
  destruct (prepare_spec _ _ _ _ E) as (_ & _ & L & _). destruct (fixpoint_loop _ _ _ _) as [fin c] eqn:El.
  destruct (loop_spec _ _ _ _ _ _ El) as (L' & _). cbn in Hb. apply lookup_lt_Some in Hb. lia.
Qed.

(** A promise is refuted by a fact. *)
Lemma refuted W p pe f : analyzeEffects W !! p = Some pe -> has_at (fst (final_facts W)) p f ->
  match f with
  | FOpaque => nounwind pe = false /\ willReturn pe = false /\ effect pe = Unknown
  | FUnwind => nounwind pe = false
  | FNoReturn | FKey _ => willReturn pe = false
  | FWritesOther => effect pe = Unknown
  | FReadsOther => effect pe = Unknown \/ effect pe = Read
  | FReadsArg => effect pe <> NoMemory
  | FWritesArg => effect pe <> NoMemory /\ effect pe <> ArgRead
  end.
Proof.
  intros H (b & Hb & Hf). rewrite (proj2 (verdict_lookup W p pe H) b Hb). unfold verdict.
  destruct f; cbn in Hf |- *.
  - by rewrite Hf.
  - by rewrite Hf, andb_false_r.
  - by rewrite Hf, andb_false_r.
  - rewrite bool_decide_false, andb_false_r; [done|set_solver].
  - rewrite Hf. destruct (opaque b), (writesOther b); auto.
  - rewrite Hf. by destruct (opaque b).
  - rewrite Hf. by destruct (opaque b), (writesOther b), (readsOther b), (writesArg b).
  - rewrite Hf. by destruct (opaque b), (writesOther b), (readsOther b).
Qed.
