(* ===== verification/EffectsThms.v ===== *)
(** * The properties of the effect analysis

    What the promises rule out in the text of the program, the verdicts of a
    converged analysis, and the programs whose promise does not hold. *)
From S2P Require Import Prelude Types Lexer Hir EffectFile Effects EffectsSound EffectsRecursion EffectsWalk EffectsSpec.

(** ** Reading off the final facts *)
Lemma promise_excludes W p pe f : analyzeEffects W !! p = Some pe ->
  match f with
  | FOpaque => nounwind pe = true \/ willReturn pe = true \/ effect pe <> Unknown
  | FUnwind => nounwind pe = true
  | FNoReturn | FKey _ => willReturn pe = true
  | FWritesOther => effect pe <> Unknown
  | FReadsOther => effect pe <> Unknown /\ effect pe <> Read
  | FReadsArg => effect pe = NoMemory
  | FWritesArg => effect pe = NoMemory \/ effect pe = ArgRead
  end -> ~ has_at (fst (final_facts W)) p f.
Proof.
  intros H Hpe Hat. pose proof (refuted W p pe f H Hat) as Hr.
  destruct f; cbn in *; intuition congruence.
Qed.

Lemma final_own W p w f : own_walk W p w -> has (bits w) f -> has_at (fst (final_facts W)) p f.
Proof.
  intros Hw Hf. unfold final_facts. destruct (prepare W) as [[G bs] hs] eqn:E.
  destruct (prepare_spec _ _ _ _ E) as (_ & _ & _ & Hown & _).
  destruct (fixpoint_loop _ _ _ bs) as [fin conv] eqn:El.
  destruct (loop_spec _ _ _ _ _ _ El) as (_ & Hm & _). apply Hm. by eapply Hown.
Qed.

(** A condition raised where the unit handles it makes its callers unwind and
    write. *)
Lemma final_handled W p key : has_at (fst (final_facts W)) p (FKey key) -> handled_in W key ->
  has_at (fst (final_facts W)) p FUnwind /\ has_at (fst (final_facts W)) p FWritesOther.
Proof.
  intros Hk (q & h & s & Hq & Hs & Hon & Hkey).
  destruct (own_walk_seen W q h (HExpr.lit 0) s Hq) as (w & Hw & Hseen & _).
  destruct (Hseen Hs) as (hs0 & w' & _ & B).
  assert (HStmt.condKey s ∈ snd (walk_all W)) as Hin.
  { destruct Hw as (? & ? & _ & _ & _ & Hh). apply Hh, (gr_handlers _ _ _ B). by apply on_handler. }
  revert Hk. unfold final_facts. destruct (prepare W) as [[G bs] hs] eqn:E.
  destruct (prepare_spec _ _ _ _ E) as (_ & -> & _).
  destruct (fixpoint_loop _ _ _ bs) as [fin conv] eqn:El. intros Hk.
  refine (loop_handled _ _ _ _ _ _ _ El p key Hk _); [lia|]. unfold handles.
  destruct Hkey as [<-| <-]; auto.
Qed.



(** ** Converged verdicts *)

(** The rung of the ladder a set of facts supports. *)
Inductive rung (D : flag -> Prop) : MemEffect -> Prop :=
  | rung_unknown : D FOpaque \/ D FWritesOther -> rung D Unknown
  | rung_read : ~ D FOpaque -> ~ D FWritesOther -> D FReadsOther -> rung D Read
  | rung_arg_write : ~ D FOpaque -> ~ D FWritesOther -> ~ D FReadsOther -> D FWritesArg ->
      rung D ArgReadWrite
  | rung_arg_read : ~ D FOpaque -> ~ D FWritesOther -> ~ D FReadsOther -> ~ D FWritesArg ->
      D FReadsArg -> rung D ArgRead
  | rung_none : ~ D FOpaque -> ~ D FWritesOther -> ~ D FReadsOther -> ~ D FWritesArg ->
      ~ D FReadsArg -> rung D NoMemory.

Lemma rung_of b D : (forall f, D f <-> has b f) -> rung D (effect (verdict b)).
Proof.
  intros H. cbn. destruct (opaque b) eqn:E1; [constructor; left; by apply H|].
  assert (~ D FOpaque) by (rewrite H; cbn; congruence).
  destruct (writesOther b) eqn:E2; [constructor; right; by apply H|].
  assert (~ D FWritesOther) by (rewrite H; cbn; congruence).
  destruct (readsOther b) eqn:E3; [constructor; [done..|]; by apply H|].
  assert (~ D FReadsOther) by (rewrite H; cbn; congruence).
  destruct (writesArg b) eqn:E4; [constructor; [done..|]; by apply H|].
  assert (~ D FWritesArg) by (rewrite H; cbn; congruence).
  destruct (readsArg b) eqn:E5; [constructor; [done..|]; by apply H|].
  constructor; [done..|]. rewrite H; cbn; congruence.
Qed.


(** ** Programs *)

(** Symbol [i < 100] is the by-reference parameter of procedure [i], [100 + i]
    the name of procedure [i], 200 a STATIC variable, [300 + i] a local variable
    of procedure [i]. *)
Definition paramOf (i : nat) : Symbol :=
  plainSym Param false None (Some i).
Definition sampleSymbols (s : nat) : Symbol :=
  if (s <? 100)%nat then paramOf s
  else if (s <? 200)%nat then procSym (s - 100)
  else if (s =? 200)%nat then plainSym Var true None (Some 0%nat)
  else plainVar (Some (s - 300)%nat).
Definition noChecks : EffectOptions := mkOptions false false false false false false.
Definition sampleProc (i : nat) (ss : list HStmt.t) : HProc :=
  bareProc i false (fixedBin 31 0) [i] (Some <$> ss).
Definition sampleWorld (bodies : list (list HStmt.t)) : World :=
  mkWorld sampleSymbols (fun _ => false) (imap sampleProc bodies) ∅ noChecks.
Definition sampleInt : Ty := fixedBin 31 0.
Definition x_ (i : nat) : HExpr.t := HExpr.var i.
Definition global_ : HExpr.t := HExpr.var 200.
Definition local_ (i : nat) : HExpr.t := HExpr.var (300 + i).

(** A procedure that adds one to its parameter through another one. *)
Definition incWorld : World :=
  sampleWorld [[HStmt.call 101 [x_ 0]]; [HStmt.assign (x_ 1) (HExpr.lit 1)]].

(** [n] procedures, each handing its parameter to the next; the last writes it
    and calls the first on the STATIC variable. *)
Definition ringWorld (n : nat) : World :=
  sampleWorld (imap (fun i _ => if decide (S i = n) then [HStmt.assign (x_ i) (HExpr.lit 1); HStmt.call 100 [global_]]
                               else [HStmt.call (101 + i) [x_ i]]) (replicate n tt)).

(** The verdicts, notes aside. *)
Definition verdicts (W : World) : list (MemEffect * bool * bool) :=
  (fun e => (effect e, nounwind e, willReturn e)) <$> analyzeEffects W.
(** [DO s = 1 BY 1;] with an empty body and no TO. *)
Definition endless (s : nat) : HStmt.t :=
  HStmt.sample HStmt.DoIter None None (Some (HExpr.lit 1)) None (Some (HExpr.lit 1)) [] (Some s) [].

Lemma more_rounds_derive W G bs hs n p f :
  prepare W = (G, bs, hs) -> has_at (fst (fixpoint_loop G hs n bs)) p f -> derives G hs bs p f.
Proof.
  intros _ H. destruct (fixpoint_loop G hs n bs) as [fin conv] eqn:El.
  destruct (loop_spec _ _ _ _ _ _ El) as (_ & _ & Hs & _). apply Hs; [|done].
  intros q g (c & Hq & Hg). by eapply d_own.
Qed.


Lemma incWorld_calls : calls_rel incWorld 0 1.
Proof.
  eexists. split; [done|]. left. exists (HStmt.call 101 [x_ 0]). split; [|done].
  eexists. split; [cbn; by left|done].
Defined.



